(* ===== verification/_CoqProject ===== *)
-Q . S2P
Prelude.v
Text.v
Chain.v
Config.v
CodePatch.v
Bitmap.v
PageTable.v
TBData.v
TBOps.v
SMC.v
TBInv.v
TBLists.v
TBCode.v
TBInval.v
TBJump.v
TBLink.v
TBGen.v
TBFind.v
SMCRange.v
SMCPage.v
Trace.v
TraceInv.v
CpuExec.v
ExecInv.v
Init.v
Reach.v
TBProps.v
SMCProps.v
TraceProps.v
HostUtils.v
QString.v
QObject.v
JsonLexer.v
JsonParser.v
JsonInv.v
JsonLex.v
JsonText.v
JsonProps.v
TcgData.v
TcgLive.v
TcgLiveInv.v
TcgAlloc.v
TcgSem.v
TcgInv.v
TcgSpill.v
TcgSave.v
TcgArgs.v
TcgOpIn.v
TcgOp.v
TcgGenOp.v
TcgGenCall.v
TcgCall.v
TcgSim.v
TcgLoop.v
TcgFlow.v
TcgRun.v
TcgTemps.v
TcgTotal.v
TcgTotalCall.v
X86Isa.v
X86Out.v
X86Op.v
X86Enc.v
X86Sem.v
TcgOps.v
X86Val.v
X86Arith.v
X86OpOk.v
X86Mem.v
X86MemOk.v
X86Labels.v
X86Size.v
X86Exit.v
X86Code.v
X86Block.v
X86Chain.v
X86Entry.v
TcgProps.v
X86Props.v
