(* ===== verification/Prelude.v ===== *)
(** * A verification library for HQEMU

    HQEMU is QEMU 0.13 with a hybrid TCG/LLVM translator.  The library models
    the parts of it listed below as executable functions on explicit states
    and proves that they do what their callers rely on.  Paths are relative to
    src/hqemu.

    ** Configuration

    User-mode emulation (CONFIG_USER_ONLY) with the LLVM back end in hybrid
    mode (CONFIG_LLVM, CONFIG_HYBRID, not CONFIG_HPM) on an x86-64 host
    (USE_DIRECT_JUMP), IBTC on and IB chains off as llvm-wrapper.h sets them.
    What depends on the guest is the class [Guest] of Config.v.

    ** The dynamic translator

    The translator keeps the translated blocks in an array and links them into
    hash chains, page lists and circular jump lists, and patches the native
    jumps of one block to the code of another.  The files follow exec.c,
    exec-all.h, cpu-exec.c and llvm/optimization.c:

    - Chain.v: linked lists in a heap, shared by the three kinds of lists.
    - Config.v: macros and hash functions (cpu-all.h, cpu-defs.h, exec-all.h).
    - CodePatch.v: the store sequence that patches a jump ([tb_set_jmp_target1],
      [patch_jmp]).
    - Bitmap.v: [set_bits].
    - PageTable.v: [PageDesc], the radix tree and the class [PageTable] the rest
      is proved against; [Radix] implements it.
    - TBData.v, TBOps.v: [TranslationBlock], [CPUState], the globals, and the
      operations: allocation, linking, chaining, invalidation, flush, lookup,
      unlinking of a running CPU.
    - SMC.v: self-modifying code, [page_set_flags], [page_unprotect],
      [page_check_range].
    - Trace.v: IBTC and trace selection.
    - CpuExec.v: the turns of [cpu_exec], breakpoints, single step.
    - Init.v: start-up ([parse_code_size], [page_init], [cpu_exec_init_all]).
    - Reach.v: runs, as a transition system over these operations, and a
      session.

    The state is the record [exec_state]; a block is an index into [tbs], a
    pointer with tag bits is a pair of an index and the tag.  The invariant
    [mgr] (TBInv.v) relates a state to the abstract set of live blocks: each
    list holds exactly the live blocks it should, the jump lists agree with the
    native code, opcodes included, the pages with code are write-protected, and
    the code of the blocks is laid out in order.  A block that was invalidated
    stays in [tbs] until the next flush, and its jumps may still be chained:
    the invariant of the jump lists is over all the blocks in use ([blocks]).
    TBLists, TBCode, TBInval, TBJump, TBLink,
    TBGen, TBFind, SMCRange, SMCPage, TraceInv and ExecInv prove each operation
    correct with respect to it; [Demo] is a concrete session; TBProps.v,
    SMCProps.v and TraceProps.v state the results.

    Code not modelled enters as parameters: what the translator generates
    ([gen], any function that satisfies [gen_spec]: code that fits below the
    alarm threshold with its jump slots inside, at most two pages), the guest
    state [cpu_restore_state] computes ([restore]) and the chain points of the
    LLVM environment.  Longjmp is a result ([flow]).

    A run (Reach.v) is a sequence of events of any CPUs, each under a condition
    ([guard]).  The conditions leave out what the code does not handle: a block
    that another CPU flushed while it ran, whose number is chained nevertheless
    ([Demo.flushed_block_chained]); the last host page, on which the loop of
    [tb_alloc_page] does not end ([protect_pages_last]); entries of [tbs] with
    an [env] pointer that malloc left there ([Demo.wild_env_faults]).  The IBTC
    is not part of the invariant: the code does not keep it coherent with the
    live blocks (TraceProps.v has the examples).

    ** The code generator

    TCG turns the operations that a guest decoder writes into host code.  The
    files follow tcg/tcg.c, tcg/tcg.h, tcg/tcg-opc.h and tcg/i386/tcg-target.c
    for an x86-64 host:

    - TcgData.v: the table of operations and the register constraints of the
      host ([tcg_add_target_add_op_defs], [sort_constraints]).
    - TcgLive.v: [tcg_liveness_analysis].  TcgLiveInv.v defines which values
      are needed later ([needed]), on the list of operations, and relates the
      analysis to it.
    - TcgAlloc.v: temporaries, the register allocator and
      [tcg_gen_code_common].  The host instructions are the values [hinsn].
    - TcgSem.v: the meaning of operations and of host instructions.  TcgInv,
      TcgSpill, TcgSave, TcgArgs, TcgOpIn, TcgOp, TcgGenOp, TcgGenCall,
      TcgCall, TcgSim, TcgLoop, TcgFlow and TcgRun prove that the allocator
      keeps every value; TcgTotal and TcgTotalCall that it does not fail;
      TcgTemps is about the lists of free temporaries, after any sequence of
      calls, and about the contexts that a front end makes ([ctx_built]): the
      slots of globals must not overlap, which tcg.c does not check.  TcgProps.v
      states the results.
    - X86Out.v, X86Op.v, X86Entry.v: the functions [tcg_out_*] of
      tcg/i386/tcg-target.c, on the memory of the code ([TCGOut]): opcodes and
      operands, labels and relocations, [tcg_out_op], jumps between blocks,
      fragments of chains of indirect branches, and
      [tcg_target_qemu_prologue].
    - X86Isa.v: the processor, a decoder of bytes and the effect of the
      instructions.  TcgOps.v: the operations of tcg/README as functions.
    - X86Enc and X86Sem show that the functions write what the instructions
      decode from; X86Val, X86Arith, X86OpOk, X86Mem and X86MemOk that the code
      of an operation computes it; X86Labels that jumps go to their labels;
      X86Size bounds the code; X86Exit is about exits and their patches,
      X86Code and X86Block about the code of a block, X86Chain about chains.
      X86Props.v states the results.

    TcgProps.v shows that the host instructions of a block simulate its
    operations, X86Props.v that the bytes of host instructions do what these
    mean.  The operation [patch] is a jump that tcg-opc.h does not mark as one;
    the code of a block is right as [tb_gen_trace_stub] makes it the first
    operation, when all globals are in memory ([patch_first]).  The slots of
    temporaries are apart from the memory of the guest in
    TcgSem.v, and what the operations compute is a parameter there ([SemOk]).

    ** Host utilities and JSON

    - HostUtils.v: host-utils.c, wide products and counts of bits.
    - Text.v: characters and C strings; QString.v: qstring.c on its buffer.
    - QObject.v: qint.c, qbool.c, qfloat.c, qlist.c and the hash table of
      qdict.c, which refines a finite map.
    - JsonLexer.v, JsonParser.v: json-lexer.c, json-streamer.c,
      json-parser.c and qjson.c.  JsonInv, JsonLex and JsonText hold the
      invariants of the lexer and the parser; JsonProps.v states that what is
      printed is read back, and that every input is read without a fault.

    The conversions of doubles by the C library ([strtod], %f) are parameters.

    ** Results

    Functions that may fault return [result]: [EFault] for an invalid pointer,
    [EAbort] for assert, [tcg_abort] and [cpu_abort], [EExit] for exit, [EFuel]
    for a loop that exceeded its bound.  Loops over lists run with fuel
    [loop_fuel], twice the number of blocks plus two, which is more than a list
    without repetition holds (each block is at most twice in a list); the
    theorems show that the functions return [Ok], hence that the fuel is
    enough.  Loops over pages take the number of pages as fuel.  The loop that
    aligns a jump has fuel 3, as at most three bytes are missing.  Jumps in the
    code of a block reach their labels as the code is shorter than 2^31 bytes
    ([fresh_out]: 80 bytes for each host instruction).

    ** Not modelled

    Guest decoders, the functions of tcg/tcg-op.h that write one operation
    each, LLVM code generation, system emulation with its TLB and devices,
    system calls, and everything that is host I/O.  Of TCG: hosts other than
    x86-64, memory pools, the search for a host address ([search_pc]) and the
    dump of operations.  Helpers return to the code that calls them: exits from
    a block by longjmp are seen by the block manager only.  Reference counts of
    QObjects are not modelled.  Threads are modelled as interleavings of whole
    operations (they run under [tb_lock]), except for the patching of jumps,
    which is not under the lock that the running code respects and is proved
    atomic store by store. *)

From stdpp Require Import base gmap list fin_maps.
Local Open Scope Z_scope.

(** ** Notations for C integer operators *)

Declare Scope c_scope.
Delimit Scope c_scope with C.
Notation "x .& y" := (Z.land x y) (at level 40, left associativity) : c_scope.
Notation "x .| y" := (Z.lor x y) (at level 50, left associativity) : c_scope.
Notation "x .^ y" := (Z.lxor x y) (at level 50, left associativity) : c_scope.
Notation "x <<. n" := (Z.shiftl x n) (at level 34, left associativity) : c_scope.
Notation "x >>. n" := (Z.shiftr x n) (at level 34, left associativity) : c_scope.
Notation ".~ x" := (Z.lnot x) (at level 32, right associativity) : c_scope.
Global Open Scope c_scope.

(** A value of an unsigned [w]-bit C type is its representative in [0, 2^w). *)
Definition wrap (w z : Z) : Z := z `mod` 2 ^ w.
(** The signed reading of the low [w] bits. *)
Definition sext (w z : Z) : Z :=
  let u := z `mod` 2 ^ w in if u <? 2 ^ (w - 1) then u else u - 2 ^ w.

Notation u8 := (wrap 8).
Notation u16 := (wrap 16).
Notation u32 := (wrap 32).
Notation u64 := (wrap 64).

(** A C truth value. *)
Definition b2z (b : bool) : Z := if b then 1 else 0.

(** ** Results of code that may fault *)

(** [EFault]: a dereference of NULL or of memory outside the object;
    [EAbort]: [cpu_abort] or a failed [assert]; [EExit]: [exit] after an
    internal error; [EFuel]: the bound on a loop was reached. *)
Inductive err := EFault | EAbort | EExit | EFuel.
Inductive result (A : Type) := Ok (a : A) | Er (e : err).
Arguments Ok {A} a.
Arguments Er {A} e.

#[export] Instance err_eq_dec : EqDecision err.
Proof. solve_decision. Defined.
#[export] Instance result_eq_dec {A} `{EqDecision A} : EqDecision (result A).
Proof. solve_decision. Defined.

Definition rbind {A B} (m : result A) (k : A → result B) : result B :=
  match m with Ok a => k a | Er e => Er e end.

Notation "x <- m ;; k" := (rbind m (fun x => k))
  (at level 20, m at level 90, k at level 200) : c_scope.
Notation "' p <- m ;; k" := (rbind m (fun p => k))
  (at level 20, p pattern, m at level 90, k at level 200) : c_scope.

(** Dereference: [None] is a fault. *)
Definition deref {A} (o : option A) : result A :=
  match o with Some a => Ok a | None => Er EFault end.

(** [assert]: abort unless the condition holds. *)
Definition assert_ (b : bool) : result unit := if b then Ok tt else Er EAbort.

Lemma rbind_ok {A B} (m : result A) (k : A → result B) b :
  rbind m k = Ok b ↔ ∃ a, m = Ok a ∧ k a = Ok b.
Proof. destruct m; simpl; split; [eauto|by intros (? & [= ->] & ?)|done|by intros (? & ? & ?)]. Qed.

Lemma deref_ok {A} (o : option A) a : deref o = Ok a ↔ o = Some a.
Proof. destruct o; naive_solver. Qed.

Lemma assert_ok b u : assert_ b = Ok u ↔ b = true.
Proof. destruct b, u; naive_solver. Qed.

(** ** Automation *)

Create HintDb hq.
Create HintDb hqbits.

(** Decompose a successful run of monadic code found in a hypothesis. *)
Ltac inv_ok :=
  repeat match goal with
  | H : rbind _ _ = Ok _ |- _ =>
      let a := fresh "a" in let Ha := fresh "E" in
      apply rbind_ok in H as (a & Ha & H)
  | H : deref _ = Ok _ |- _ => apply deref_ok in H
  | H : assert_ _ = Ok _ |- _ => apply assert_ok in H
  | H : Ok _ = Ok _ |- _ => injection H as H
  | H : Er _ = Ok _ |- _ => discriminate H
  | p : (_ * _)%type |- _ => destruct p
  end; simplify_eq.

(** Split on the first boolean test of the goal. *)
Ltac case_bool :=
  match goal with
  | |- context [if ?b then _ else _] =>
      let E := fresh "Eb" in destruct b eqn:E
  end.

(** Turn boolean comparisons of the context into propositions. *)
Ltac bprop :=
  repeat match goal with
  | H : andb _ _ = true |- _ => apply andb_prop in H as [? ?]
  | H : orb _ _ = false |- _ => apply orb_false_elim in H as [? ?]
  | H : orb _ _ = true |- _ => apply orb_true_iff in H
  | H : andb _ _ = false |- _ => apply andb_false_iff in H
  | H : negb _ = true |- _ => apply negb_true_iff in H
  | H : negb _ = false |- _ => apply negb_false_iff in H
  | H : (_ =? _) = true |- _ => apply Z.eqb_eq in H
  | H : (_ =? _) = false |- _ => apply Z.eqb_neq in H
  | H : (_ <? _) = true |- _ => apply Z.ltb_lt in H
  | H : (_ <? _) = false |- _ => apply Z.ltb_ge in H
  | H : (_ <=? _) = true |- _ => apply Z.leb_le in H
  | H : (_ <=? _) = false |- _ => apply Z.leb_gt in H
  end.

(** ** Machine integers *)

Lemma wrap_range w z : 0 ≤ w → 0 ≤ wrap w z < 2 ^ w.
Proof. intros. apply Z.mod_pos_bound. lia. Qed.

Lemma wrap_small w z : 0 ≤ z < 2 ^ w → wrap w z = z.
Proof. apply Z.mod_small. Qed.

Lemma wrap_wrap w z : wrap w (wrap w z) = wrap w z.
Proof. apply Zmod_mod. Qed.

Lemma wrap_add_l w a b : wrap w (wrap w a + b) = wrap w (a + b).
Proof. apply Zplus_mod_idemp_l. Qed.

Lemma wrap_add_r w a b : wrap w (a + wrap w b) = wrap w (a + b).
Proof. apply Zplus_mod_idemp_r. Qed.

Lemma wrap_sub_l w a b : wrap w (wrap w a - b) = wrap w (a - b).
Proof. apply Zminus_mod_idemp_l. Qed.

Lemma wrap_sub_r w a b : wrap w (a - wrap w b) = wrap w (a - b).
Proof. apply Zminus_mod_idemp_r. Qed.

#[export] Hint Rewrite wrap_wrap wrap_add_l wrap_add_r wrap_sub_l wrap_sub_r : hq.

Lemma sext_range w z : 0 < w → - 2 ^ (w - 1) ≤ sext w z < 2 ^ (w - 1).
Proof.
  intros. unfold sext. assert (2 ^ w = 2 * 2 ^ (w - 1)) by
    (rewrite <- Z.pow_succ_r by lia; f_equal; lia).
  pose proof (Z.mod_pos_bound z (2 ^ w)). case_bool; bprop; lia.
Qed.

(** Reading back a signed value through its [w]-bit representative. *)
Lemma sext_small w z : 0 < w → - 2 ^ (w - 1) ≤ z < 2 ^ (w - 1) → sext w z = z.
Proof.
  intros. unfold sext. assert (Hw : 2 ^ w = 2 * 2 ^ (w - 1)) by
    (rewrite <- Z.pow_succ_r by lia; f_equal; lia).
  destruct (Z.le_gt_cases 0 z).
  - rewrite Z.mod_small by lia. case_bool; bprop; lia.
  - replace (z `mod` 2 ^ w) with (z + 2 ^ w).
    2:{ symmetry. rewrite <- (Z.mod_small (z + 2 ^ w) (2 ^ w)) by lia.
        rewrite <- (Z.mul_1_l (2 ^ w)) at 2. by rewrite Z_mod_plus_full. }
    case_bool; bprop; lia.
Qed.

Lemma sext_wrap w z : sext w (wrap w z) = sext w z.
Proof. unfold sext, wrap. by rewrite Zmod_mod. Qed.

(** ** Bit masks *)

Lemma land_low x n : 0 ≤ n → x .& (2 ^ n - 1) = x `mod` 2 ^ n.
Proof. intros. rewrite <- Z.land_ones by done. f_equal. rewrite Z.ones_equiv. lia. Qed.

Lemma land_lnot_low x n : 0 ≤ n → x .& .~ (2 ^ n - 1) = x - x `mod` 2 ^ n.
Proof.
  intros. rewrite <- Z.ldiff_land.
  replace (2 ^ n - 1) with (Z.ones n) by (rewrite Z.ones_equiv; lia).
  rewrite Z.ldiff_ones_r, Z.shiftl_mul_pow2, Z.shiftr_div_pow2 by done.
  pose proof (Z_div_mod_eq_full x (2 ^ n)). lia.
Qed.

Lemma testbit_small n x i : 0 ≤ x < 2 ^ n → n ≤ i → Z.testbit x i = false.
Proof.
  intros [H0 H1] Hi. destruct (decide (n < 0)) as [Hn|Hn].
  { rewrite Z.pow_neg_r in H1 by done. lia. }
  rewrite <- (Z.mod_small x (2 ^ n)) by lia. by apply Z.mod_pow2_bits_high; lia.
Qed.

Lemma lor_disjoint_add a b n :
  0 ≤ n → a `mod` 2 ^ n = 0 → 0 ≤ b < 2 ^ n → a .| b = a + b.
Proof.
  intros Hn Ha Hb.
  assert (a .& b = 0) as Hd.
  { apply Z.bits_inj'. intros i Hi. rewrite Z.land_spec, Z.bits_0.
    destruct (decide (i < n)).
    - replace (Z.testbit a i) with false; [done|].
      rewrite <- (Z.mod_pow2_bits_low a n i) by lia. by rewrite Ha, Z.bits_0.
    - by rewrite (testbit_small n b), andb_false_r by lia. }
  rewrite Z.add_nocarry_lxor by done. by rewrite Z.lxor_lor.
Qed.

(** Division and remainder in linear goals. *)
Ltac zdm := Z.div_mod_to_equations; lia.

(** ** Arrays *)

(** [upd2]/[get2]: the two-element arrays of a structure, indexed by 0 or 1. *)
Inductive slot := S0 | S1.
#[export] Instance slot_eq_dec : EqDecision slot.
Proof. solve_decision. Defined.
#[export] Program Instance slot_countable : Countable slot :=
  inj_countable' (fun n => match n with S0 => false | S1 => true end)
                 (fun b : bool => if b then S1 else S0) _.
Next Obligation. by intros []. Qed.

Record arr2 (A : Type) := A2 { at0 : A; at1 : A }.
Arguments A2 {A} at0 at1.
Arguments at0 {A} a.
Arguments at1 {A} a.

Definition get2 {A} (a : arr2 A) (n : slot) : A :=
  match n with S0 => at0 a | S1 => at1 a end.
Definition set2 {A} (a : arr2 A) (n : slot) (v : A) : arr2 A :=
  match n with S0 => A2 v (at1 a) | S1 => A2 (at0 a) v end.

Lemma get_set2 {A} (a : arr2 A) n m v :
  get2 (set2 a n v) m = if decide (n = m) then v else get2 a m.
Proof. by destruct n, m. Qed.

Lemma get_set2_eq {A} (a : arr2 A) n v : get2 (set2 a n v) n = v.
Proof. by destruct n. Qed.

Lemma get_set2_ne {A} (a : arr2 A) n m v : n ≠ m → get2 (set2 a n v) m = get2 a m.
Proof. by destruct n, m. Qed.

#[export] Hint Rewrite @get_set2_eq : hq.

(** ** Record update

    [r <| f := v |>] is [r] with its field [f] replaced.  [eta] rebuilds a
    record from its fields; [mk_setter] abstracts one of them. *)

Class Eta (R : Type) := eta : R → R.
Class Setter {R E : Type} (proj : R → E) := upd : (E → E) → R → R.
Arguments upd {R E} proj {_} _ _.

Notation "r <| p := v |>" := (upd p (λ _, v) r)
  (at level 1, left associativity, p at level 200, v at level 200,
   format "r  <| p  :=  v |>") : c_scope.

Ltac mk_setter :=
  match goal with
  | |- @Setter ?R ?E ?proj =>
      let f := fresh "f" in let x := fresh "x" in
      intros f x;
      let t := eval hnf in (eta x) in
      let p := eval pattern (proj x) in t in
      match p with
      | ?F _ => let r := eval cbv beta in (F (f (proj x))) in exact r
      end
  end.

Lemma foldl_ext {A B} (f g : B → A → B) (b : B) (l : list A) :
  (∀ b x, x ∈ l → f b x = g b x) → foldl f b l = foldl g b l.
Proof.
  induction l as [|x l IH] in b |- *; intros Hfg; cbn; [done|].
  rewrite Hfg by set_solver. apply IH. set_solver.
Qed.
