(* ===== verification/Text.v ===== *)
(** * Characters and C strings

    A character is its code and a C string the list of the codes before its
    terminating NUL.  What the sources use of ctype.h, string.h, stdlib.h and
    of the printf conversions. *)

From Stdlib Require Import String Ascii.
From stdpp Require Import base list.
From S2P Require Import Prelude.
Local Open Scope Z_scope.

Notation cstring := (list Z).

(** A C string literal. *)
Fixpoint str (s : string) : cstring :=
  match s with
  | EmptyString => []
  | String c s' => Z.of_N (N_of_ascii c) :: str s'
  end.

Arguments str _%_string_scope.

(** ** Character classes *)

Definition isdigit (c : Z) : bool := (48 <=? c) && (c <=? 57).
Definition isspace (c : Z) : bool := (c =? 32) || ((9 <=? c) && (c <=? 13)).
Definition isxdigit (c : Z) : bool :=
  isdigit c || ((65 <=? c) && (c <=? 70)) || ((97 <=? c) && (c <=? 102)).

(** A string without NUL. *)
Definition cstr_ok (s : cstring) : Prop := Forall (λ c, 0 < c < 256) s.

(** ** Numbers to text and back *)

Fixpoint strtoul_digits (s : cstring) (acc : Z) : Z :=
  match s with
  | c :: s' => if isdigit c then strtoul_digits s' (acc * 10 + (c - 48)) else acc
  | [] => acc
  end.

Definition ULONG_MAX : Z := 2 ^ 64 - 1.
Definition LLONG_MAX : Z := 2 ^ 63 - 1.
Definition LLONG_MIN : Z := - 2 ^ 63.

(** [strtoul(s, &p, 10)]: the value saturates. *)
Fixpoint strtoul (s : cstring) : Z :=
  match s with
  | c :: s' =>
      if isspace c then strtoul s'
      else
        let '(neg, ds) := if c =? 45 then (true, s') else if c =? 43 then (false, s') else (false, s) in
        let v := strtoul_digits ds 0 in
        if ULONG_MAX <? v then ULONG_MAX else if neg then u64 (- v) else v
  | [] => 0
  end.

(** [strtoll(s, NULL, 10)]. *)
Fixpoint strtoll (s : cstring) : Z :=
  match s with
  | c :: s' =>
      if isspace c then strtoll s'
      else
        let '(neg, ds) := if c =? 45 then (true, s') else if c =? 43 then (false, s') else (false, s) in
        let v := if neg then - strtoul_digits ds 0 else strtoul_digits ds 0 in
        if LLONG_MAX <? v then LLONG_MAX else if v <? LLONG_MIN then LLONG_MIN else v
  | [] => 0
  end.

(** The decimal digits of a number below [10 ^ fuel], the last digit first. *)
Fixpoint rev_digits (fuel : nat) (n : Z) : cstring :=
  match fuel with
  | O => []
  | S f => (48 + n `mod` 10) :: if n `div` 10 =? 0 then [] else rev_digits f (n `div` 10)
  end.

(** The conversion %d of a 64-bit number. *)
Definition print_d (z : Z) : cstring :=
  if z <? 0 then 45 :: reverse (rev_digits 20 (- z)) else reverse (rev_digits 20 z).

Definition hex_digit (d : Z) : Z := if d <? 10 then 48 + d else 55 + d.

Fixpoint rev_hex (fuel : nat) (n : Z) : cstring :=
  match fuel with
  | O => []
  | S f => hex_digit (n `mod` 16) :: rev_hex f (n `div` 16)
  end.

(** The conversion %04X of an unsigned int. *)
Definition print_04X (v : Z) : cstring :=
  reverse (rev_hex (if v <? 16 ^ 4 then 4 else if v <? 16 ^ 5 then 5 else if v <? 16 ^ 6 then 6
                    else if v <? 16 ^ 7 then 7 else 8) v).

(** ** Lemmas *)

Lemma isdigit_spec c : isdigit c = true ↔ 48 ≤ c ≤ 57.
Proof. unfold isdigit. rewrite andb_true_iff, !Z.leb_le. done. Qed.

Lemma strtoul_digits_app ds s acc :
  Forall (λ c, isdigit c = true) ds → strtoul_digits (ds ++ s) acc = strtoul_digits s (strtoul_digits ds acc).
Proof.
  induction ds as [|c ds IH] in acc |- *; intros Hd; [done|]. apply Forall_cons in Hd as [Hc Hd].
  cbn. rewrite Hc. by apply IH.
Qed.

Lemma rev_digits_all fuel n : 0 ≤ n → Forall (λ c, isdigit c = true) (rev_digits fuel n).
Proof.
  induction fuel as [|fuel IH] in n |- *; intros Hn; cbn; constructor.
  - apply isdigit_spec. zdm.
  - case_bool; [done|]. apply IH. zdm.
Qed.

Lemma rev_digits_value fuel n :
  0 ≤ n < 10 ^ Z.of_nat fuel → (0 < fuel)%nat → strtoul_digits (reverse (rev_digits fuel n)) 0 = n.
Proof.
  induction fuel as [|fuel IH] in n |- *; intros Hn Hf; [lia|]. cbn [rev_digits]. rewrite reverse_cons.
  assert (isdigit (48 + n `mod` 10) = true) as Hd by (apply isdigit_spec; zdm).
  destruct (Z.eqb_spec (n `div` 10) 0) as [E|E].
  - cbn. rewrite Hd. zdm.
  - rewrite Nat2Z.inj_succ, Z.pow_succ_r in Hn by lia. rewrite strtoul_digits_app.
    2:{ apply Forall_reverse, rev_digits_all. zdm. }
    destruct fuel as [|fuel]; [exfalso; cbn in Hn; zdm|]. rewrite IH by zdm. cbn. rewrite Hd. zdm.
Qed.

Lemma rev_digits_last fuel n :
  0 < n < 10 ^ Z.of_nat fuel → (0 < fuel)%nat → ∃ d l, reverse (rev_digits fuel n) = d :: l ∧ 49 ≤ d ≤ 57.
Proof.
  induction fuel as [|fuel IH] in n |- *; intros Hn Hf; [lia|]. cbn [rev_digits]. rewrite reverse_cons.
  destruct (Z.eqb_spec (n `div` 10) 0) as [E|E].
  - eexists _, []. split; [done|]. zdm.
  - rewrite Nat2Z.inj_succ, Z.pow_succ_r in Hn by lia.
    destruct fuel as [|fuel]; [exfalso; cbn in Hn; zdm|]. destruct (IH (n `div` 10)) as (d & l & -> & ?); [zdm|lia|].
    eexists d, _. by split.
Qed.

#[local] Opaque rev_digits.

(** The text of a number: an optional sign, then 0 or digits that do not begin
    with 0. *)
Lemma print_d_shape z :
  LLONG_MIN ≤ z ≤ LLONG_MAX →
  z = 0 ∧ print_d z = [48] ∨
  ∃ d l, 49 ≤ d ≤ 57 ∧ Forall (λ c, isdigit c = true) l ∧
    print_d z = if z <? 0 then 45 :: d :: l else d :: l.
Proof.
  intros Hz. unfold LLONG_MIN, LLONG_MAX in Hz. destruct (decide (z = 0)) as [->|Hnz]; [by left|right].
  destruct (rev_digits_last 20 (Z.abs z)) as (d & l & E & Hd); [cbn; lia|lia|].
  exists d, l. split; [done|]. split.
  - assert (Forall (λ c, isdigit c = true) (reverse (rev_digits 20 (Z.abs z)))) as Hall
      by (apply Forall_reverse, rev_digits_all; lia).
    rewrite E in Hall. by apply Forall_cons in Hall as [_ ?].
  - unfold print_d. destruct (Z.ltb_spec z 0).
    + rewrite Z.abs_neq in E by lia. by rewrite E.
    + rewrite Z.abs_eq in E by lia. by rewrite E.
Qed.

Lemma strtoll_print z : LLONG_MIN ≤ z ≤ LLONG_MAX → strtoll (print_d z) = z.
Proof.
  intros Hz. unfold LLONG_MIN, LLONG_MAX in Hz.
  assert (strtoul_digits (reverse (rev_digits 20 (Z.abs z))) 0 = Z.abs z) as Hv
    by (apply rev_digits_value; [cbn; lia|lia]).
  destruct (print_d_shape z Hz) as [[-> _]|(d & l & Hd & Hl & E)]; [done|]. rewrite E.
  unfold print_d in E. destruct (Z.ltb_spec z 0) as [Hneg|Hpos].
  - injection E as E. rewrite Z.abs_neq, E in Hv by lia.
    change (strtoll (45 :: d :: l)) with
      (let v := - strtoul_digits (d :: l) 0 in
       if LLONG_MAX <? v then LLONG_MAX else if v <? LLONG_MIN then LLONG_MIN else v).
    rewrite Hv, Z.opp_involutive. cbn zeta.
    unfold LLONG_MAX, LLONG_MIN. repeat (case_bool; bprop); lia.
  - rewrite Z.abs_eq, E in Hv by lia. cbn [strtoll].
    replace (isspace d) with false by (symmetry; unfold isspace; rewrite orb_false_iff, andb_false_iff, Z.eqb_neq, !Z.leb_gt; lia).
    replace (d =? 45) with false by (symmetry; apply Z.eqb_neq; lia).
    replace (d =? 43) with false by (symmetry; apply Z.eqb_neq; lia).
    rewrite Hv. unfold LLONG_MAX, LLONG_MIN. repeat (case_bool; bprop); lia.
Qed.

Lemma hex_digit_range d : 0 ≤ d < 16 → isxdigit (hex_digit d) = true ∧ 0 < hex_digit d < 128.
Proof.
  intros Hd. unfold hex_digit, isxdigit, isdigit. split; case_bool; bprop; try lia;
    rewrite !orb_true_iff, !andb_true_iff, !Z.leb_le; lia.
Qed.

Lemma print_04X_small v :
  0 ≤ v < 65536 →
  print_04X v = [hex_digit (v `div` 4096); hex_digit (v `div` 256 `mod` 16); hex_digit (v `div` 16 `mod` 16); hex_digit (v `mod` 16)].
Proof.
  intros Hv. unfold print_04X. change (16 ^ 4) with 65536. destruct (Z.ltb_spec v 65536); [|lia]. cbn [rev_hex].
  rewrite !Z.div_div by lia. change (16 * 16) with 256. change (16 * 256) with 4096. change (256 * 16) with 4096.
  by rewrite (Z.mod_small (v `div` 4096)) by zdm.
Qed.
