(* ===== verification/Chain.v ===== *)
(** * Intrusive linked lists

    The block manager of exec.c threads its lists through the blocks: a list
    is a head pointer and a "next" field of every node.  [seg next p l q] says
    that following [next] from the pointer [p] visits the nodes [l] in order
    and arrives at the pointer [q]; a NULL-terminated list is
    [seg next p l None] and a circular one through the node [x] is
    [seg next (next x) l (Some x)]. *)

From stdpp Require Import base gmap list.
From S2P Require Import Prelude.
Local Open Scope nat_scope.

Section seg.
  Context {N : Type} `{EqDecision N}.
  Implicit Types (next : N → option N) (l : list N) (p q : option N) (x y : N).

Fixpoint seg next p l q : Prop :=
  match l with
  | [] => p = q
  | x :: l' => p = Some x ∧ seg next (next x) l' q
  end.

Lemma seg_ext next next' p l q :
  (∀ x, x ∈ l → next x = next' x) → seg next p l q → seg next' p l q.
Proof.
  induction l as [|x l IH] in p |- *; simpl; [done|].
  intros Hext [-> Hl]. split; [done|]. rewrite <- Hext by set_solver.
  apply IH; [set_solver|done].
Qed.

Lemma seg_app next p l1 l2 q :
  seg next p (l1 ++ l2) q ↔ ∃ r, seg next p l1 r ∧ seg next r l2 q.
Proof. induction l1 as [|x l1 IH] in p |- *; simpl; naive_solver. Qed.

Lemma seg_cons next p x l q :
  seg next p (x :: l) q ↔ p = Some x ∧ seg next (next x) l q.
Proof. done. Qed.

(** ** The search loop

    [for (;;) { x = *c; if (P(x)) break; c = &x->next; }]: the cell that holds
    the first node satisfying [P], and that node.  [rd] reads a cell and [nx]
    is the cell of a node's next field; a NULL found on the way is
    dereferenced by the next round. *)

Fixpoint find_cell {C} (rd : C → result (option N)) (nx : N → C) (P : N → bool)
    (fuel : nat) (c : C) : result (C * N) :=
  match fuel with
  | O => Er EFuel
  | S fuel' =>
      p <- rd c ;;
      y <- deref p ;;
      if P y then Ok (c, y) else find_cell rd nx P fuel' (nx y)
  end.

(** The cell that points to the node after [l1]. *)
Definition cell_after {C} (nx : N → C) (c : C) (l1 : list N) : C :=
  match last l1 with None => c | Some y => nx y end.

Lemma find_cell_ok {C} (rd : C → result (option N)) nx P fuel c next p l1 x l2 q :
  seg next p (l1 ++ x :: l2) q → rd c = Ok p →
  (∀ y, y ∈ l1 → rd (nx y) = Ok (next y)) →
  (∀ y, y ∈ l1 → P y = false) → P x = true →
  length l1 < fuel →
  find_cell rd nx P fuel c = Ok (cell_after nx c l1, x).
Proof.
  intros Hs Hc Hrd HP Hx. revert fuel c p Hs Hc.
  induction l1 as [|y l1 IH]; intros [|fuel] c p Hs Hc Hf; simpl in Hf; try lia;
    destruct Hs as [-> Hs]; cbn [find_cell]; rewrite Hc; cbn.
  - by rewrite Hx.
  - rewrite HP by set_solver.
    rewrite (IH ltac:(set_solver) ltac:(set_solver) fuel (nx y) (next y));
      [|done|apply Hrd; set_solver|lia].
    f_equal. f_equal. unfold cell_after. rewrite last_cons. by destruct (last l1).
Qed.

(** Unlinking: the cell before [x] is redirected to the successor of [x]. *)
Lemma seg_remove next next' p p' l1 x l2 q :
  NoDup (l1 ++ x :: l2) →
  seg next p (l1 ++ x :: l2) q →
  p' = (match last l1 with None => next x | Some _ => p end) →
  (∀ z, z ∈ l1 ++ l2 → next' z = if decide (last l1 = Some z) then next x else next z) →
  seg next' p' (l1 ++ l2) q.
Proof.
  intros Hnd Hs -> Hext. apply seg_app in Hs as (r & H1 & H2). destruct H2 as [-> H2].
  apply NoDup_app in Hnd as (Hnd1 & Hdis & Hnd2).
  assert (seg next' (next x) l2 q) as Hs2.
  { apply (seg_ext next); [|done]. intros z Hz. rewrite Hext by set_solver.
    rewrite decide_False; [done|]. intros Hl. apply last_Some_elem_of in Hl. set_solver. }
  destruct l1 as [|y l1 _] using rev_ind; [done|].
  rewrite last_snoc in *. apply seg_app in H1 as (r & H1 & [-> E]).
  rewrite <- app_assoc. apply seg_app. exists (Some y). split.
  - apply (seg_ext next); [|done]. intros z Hz. rewrite Hext by set_solver.
    rewrite decide_False; [done|]. intros [= ->].
    apply NoDup_app in Hnd1 as (_ & Hd & _). set_solver.
  - simpl. split; [done|]. rewrite Hext by set_solver. by rewrite decide_True.
Qed.

(** Two walks from one pointer to the first node in [Q] are the same walk. *)
Lemma seg_stop next (Q : N → Prop) p l l' a b :
  seg next p l (Some a) → seg next p l' (Some b) →
  (∀ x, x ∈ l → ¬ Q x) → (∀ x, x ∈ l' → ¬ Q x) → Q a → Q b → l = l' ∧ a = b.
Proof.
  induction l as [|x l IH] in p, l' |- *; destruct l' as [|x' l']; simpl.
  - intros -> [= ->]. done.
  - intros -> [[= ->] _] _ Hq Ha. exfalso. eapply Hq; [|done]. set_solver.
  - intros [-> _] [= ->] Hq _ _ Hb. exfalso. eapply Hq; [|done]. set_solver.
  - intros [-> H1] [[= ->] H2] ? ? ? ?.
    destruct (IH (next x') l') as [-> ->]; [done..|set_solver|set_solver|done|done|done].
Qed.

Lemma seg_split next p l q x :
  seg next p l q → x ∈ l → ∃ l1 l2, l = l1 ++ x :: l2 ∧ seg next p l1 (Some x) ∧ seg next (next x) l2 q.
Proof.
  intros Hs (l1 & l2 & ->)%list_elem_of_split. exists l1, l2. split; [done|].
  apply seg_app in Hs as (r & H1 & [-> H2]). done.
Qed.

Lemma seg_unique next p l l' : seg next p l None → seg next p l' None → l = l'.
Proof.
  induction l as [|x l IH] in p, l' |- *; destruct l' as [|x' l']; cbn; [done|by intros -> [? _]|by intros [-> _]|].
  intros [-> Hl] [[= ->] Hl']. f_equal. by eapply IH.
Qed.

Lemma seg_next_in next p l x y : seg next p l None → x ∈ l → next x = Some y → y ∈ l.
Proof.
  intros Hs Hx Hy. destruct (seg_split _ _ _ _ _ Hs Hx) as (l1 & l2 & -> & _ & Hs2).
  destruct l2; cbn in Hs2; [congruence|]. destruct Hs2 as [E _]. rewrite Hy in E. simplify_eq. set_solver.
Qed.

Lemma seg_head_in next p l x : seg next p l None → p = Some x → x ∈ l.
Proof. destruct l; simpl; [by intros ->|]. intros [-> _] [= ->]. set_solver. Qed.

End seg.

(** ** Families of lists

    A table of list heads indexed by [K] over shared nodes: [M x k] says that
    the node [x] belongs on the list [k]; [A] selects the lists in use.  The
    cells are the heads and the next fields. *)

Section chains.
  Context {K N : Type} `{EqDecision K} `{EqDecision N}.
  Implicit Types (A : K → Prop) (head : K → option N) (next : N → option N) (M : N → K → Prop).

Definition chains A head next M : Prop :=
  ∀ k, A k → ∃ l, seg next (head k) l None ∧ NoDup l ∧ ∀ x, x ∈ l ↔ M x k.

Lemma chains_ext A head next head' next' M M' :
  (∀ k, A k → head k = head' k) → (∀ k x, A k → M x k → next x = next' x) →
  (∀ k x, A k → M x k ↔ M' x k) →
  chains A head next M → chains A head' next' M'.
Proof.
  intros E1 E2 E3 Hc k Hk. destruct (Hc k Hk) as (l & Hs & Hnd & Hl).
  exists l. split_and!; [|done|].
  - rewrite <- E1 by done. apply (seg_ext next); [|done]. intros x Hx. apply (E2 k); [done|].
    by apply Hl.
  - intros x. rewrite Hl. by apply E3.
Qed.

(** The search finds the cell before [x]; redirecting that cell to the
    successor of [x] takes [x], and nothing else, off its list. *)
Lemma chains_remove A head next M (rd : K + N → result (option N)) (P : N → bool) fuel x k :
  chains A head next M → A k → M x k → (∀ y i j, M y i → M y j → i = j) →
  rd (inl k) = Ok (head k) → (∀ y, M y k → rd (inr y) = Ok (next y)) →
  (∀ y, M y k → P y = true ↔ y = x) →
  (∀ l, NoDup l → (∀ y, y ∈ l → M y k) → length l < fuel) →
  ∃ c, find_cell rd inr P fuel (inl k) = Ok (c, x) ∧
    (∀ i, c = inl i → i = k ∧ head k = Some x) ∧ (∀ y, c = inr y → M y k ∧ next y = Some x) ∧
    ∀ head' next',
      (∀ i, A i → head' i = if decide (c = inl i) then next x else head i) →
      (∀ y i, A i → M y i → next' y = if decide (c = inr y) then next x else next y) →
      chains A head' next' (λ y i, M y i ∧ y ≠ x).
Proof.
  intros Hc Hk Hx Hinj Hrd Hrd' HP Hf. destruct (Hc k Hk) as (l & Hs & Hnd & Hl).
  assert (x ∈ l) as (l1 & l2 & ->)%list_elem_of_split by by apply Hl.
  pose proof Hnd as (Hnd1 & Hd & [Hn2 Hnd2]%NoDup_cons)%NoDup_app.
  exists (cell_after inr (inl k) l1). split_and!.
  - eapply find_cell_ok; [done..| | | |].
    + intros y Hy. apply Hrd', Hl. set_solver.
    + intros y Hy. apply not_true_iff_false. rewrite HP by (apply Hl; set_solver).
      intros ->. apply (Hd x Hy). set_solver.
    + by apply HP.
    + apply Nat.le_lt_trans with (length (l1 ++ x :: l2)); [rewrite length_app; lia|].
      apply Hf; [done|]. intros y. apply Hl.
  - intros i. unfold cell_after. destruct (last l1) eqn:E; [done|]. intros [= ->].
    apply last_None in E as ->. by destruct Hs as [-> _].
  - intros y. unfold cell_after. destruct (last l1) eqn:E; [|done]. intros [= ->].
    split; [apply Hl; apply last_Some_elem_of in E; set_solver|].
    apply last_Some in E as [l1' ->]. rewrite <- app_assoc in Hs.
    apply seg_app in Hs as (r & _ & [_ Hs]). by destruct Hs as [-> _].
  - set (c := cell_after _ _ _). intros head' next' Hh' Hn' i Hi.
    assert (∀ y, c = inr y ↔ last l1 = Some y) as Hcr.
    { intros y. unfold c, cell_after. destruct (last l1); naive_solver. }
    assert (∀ j, c = inl j ↔ last l1 = None ∧ j = k) as Hcl.
    { intros j. unfold c, cell_after. destruct (last l1); naive_solver. }
    destruct (decide (i = k)) as [->|Hne].
    + exists (l1 ++ l2). split_and!.
      * eapply seg_remove; [exact Hnd|exact Hs| |].
        -- rewrite Hh' by done. destruct (last l1) eqn:E.
           ++ rewrite decide_False; [done|]. rewrite Hcl. naive_solver.
           ++ by rewrite decide_True by by apply Hcl.
        -- intros z Hz. rewrite (Hn' z k) by (done || apply Hl; set_solver).
           apply decide_ext, Hcr.
      * apply NoDup_app. set_solver.
      * intros y. rewrite <- Hl. set_solver.
    + destruct (Hc i Hi) as (l & Hs' & Hnd' & Hl'). exists l. split_and!; [|done|].
      * rewrite Hh' by done. rewrite decide_False by (rewrite Hcl; naive_solver).
        apply (seg_ext next); [|done]. intros z Hz.
        rewrite (Hn' z i) by (done || by apply Hl').
        rewrite decide_False; [done|]. intros Hz'%Hcr. apply Hne.
        apply (Hinj z); [by apply Hl'|]. apply Hl. apply last_Some_elem_of in Hz'. set_solver.
      * intros y. rewrite Hl'. split; [|naive_solver]. intros Hy. split; [done|].
        intros ->. eauto.
Qed.

(** Insertion of a node at the head of its list. *)
Lemma chains_insert A head next head' next' M x k :
  chains A head next M → A k → (∀ i, ¬ M x i) →
  (∀ i, A i → head' i = if decide (i = k) then Some x else head i) →
  next' x = head k → (∀ y i, A i → M y i → next' y = next y) →
  chains A head' next' (λ y i, M y i ∨ y = x ∧ i = k).
Proof.
  intros Hc Hk Hx Hh' Hnx Hn' i Hi. destruct (Hc i Hi) as (l & Hs & Hnd & Hl).
  assert (seg next' (head i) l None) as Hs'.
  { apply (seg_ext next); [|done]. intros z Hz. symmetry. apply (Hn' z i); [done|]. by apply Hl. }
  rewrite Hh' by done. case_decide as E.
  - subst. exists (x :: l). split_and!.
    + simpl. by rewrite Hnx.
    + apply NoDup_cons. split; [|done]. rewrite Hl. apply Hx.
    + intros y. rewrite elem_of_cons, Hl. naive_solver.
  - exists l. split_and!; [done..|]. intros y. rewrite Hl. naive_solver.
Qed.

End chains.
