(* ===== verification/Config.v ===== *)
(** * Build configuration and address arithmetic

    The development follows the configuration HQEMU is built for: user-mode
    emulation (CONFIG_USER_ONLY) with the hybrid TCG/LLVM translator
    (CONFIG_LLVM, CONFIG_HYBRID) on an x86-64 host (USE_DIRECT_JUMP).  What
    depends on the guest is the class [Guest]; [i386_guest] is the i386 one.
    The constants and hash functions are those of cpu-all.h, cpu-defs.h and
    exec-all.h. *)

From stdpp Require Import base gmap list.
From S2P Require Import Prelude.
Local Open Scope Z_scope.

(** The guest-dependent macros of target-*/cpu.h. *)
Class Guest := {
  TARGET_LONG_BITS : Z;
  TARGET_PAGE_BITS : Z;
  L1_MAP_ADDR_SPACE_BITS : Z;
  TARGET_HAS_PRECISE_SMC : bool;
  TARGET_I386 : bool;
  guest_page_bits : 10 ≤ TARGET_PAGE_BITS ≤ 13;
  guest_long_bits : 32 ≤ TARGET_LONG_BITS ≤ 64;
  guest_l1_bits : TARGET_PAGE_BITS + 14 ≤ L1_MAP_ADDR_SPACE_BITS ≤ TARGET_LONG_BITS
}.

(** target-i386/cpu.h without TARGET_X86_64. *)
Program Definition i386_guest : Guest := {|
  TARGET_LONG_BITS := 32;
  TARGET_PAGE_BITS := 12;
  L1_MAP_ADDR_SPACE_BITS := 32;
  TARGET_HAS_PRECISE_SMC := true;
  TARGET_I386 := true
|}.
Solve Obligations with (simpl; lia).

(** target-arm/cpu.h. *)
Program Definition arm_guest : Guest := {|
  TARGET_LONG_BITS := 32;
  TARGET_PAGE_BITS := 12;
  L1_MAP_ADDR_SPACE_BITS := 32;
  TARGET_HAS_PRECISE_SMC := false;
  TARGET_I386 := false
|}.
Solve Obligations with (simpl; lia).

(** cpu-all.h *)
Definition PAGE_READ : Z := 0x0001.
Definition PAGE_WRITE : Z := 0x0002.
Definition PAGE_EXEC : Z := 0x0004.
Definition PAGE_BITS : Z := PAGE_READ .| PAGE_WRITE .| PAGE_EXEC.
Definition PAGE_VALID : Z := 0x0008.
Definition PAGE_WRITE_ORG : Z := 0x0010.

(** cpu-defs.h *)
Definition TB_JMP_CACHE_BITS : Z := 12.
Definition TB_JMP_CACHE_SIZE : Z := 1 <<. TB_JMP_CACHE_BITS.
Definition TB_JMP_PAGE_BITS : Z := TB_JMP_CACHE_BITS `div` 2.
Definition TB_JMP_PAGE_SIZE : Z := 1 <<. TB_JMP_PAGE_BITS.
Definition TB_JMP_ADDR_MASK : Z := TB_JMP_PAGE_SIZE - 1.
Definition TB_JMP_PAGE_MASK : Z := TB_JMP_CACHE_SIZE - TB_JMP_PAGE_SIZE.

(** exec-all.h *)
Definition CODE_GEN_ALIGN : Z := 16.
Definition CODE_GEN_PHYS_HASH_BITS : Z := 15.
Definition CODE_GEN_PHYS_HASH_SIZE : Z := 1 <<. CODE_GEN_PHYS_HASH_BITS.
Definition CODE_GEN_AVG_BLOCK_SIZE : Z := 64.
Definition CF_COUNT_MASK : Z := 0x7fff.
Definition CF_LAST_IO : Z := 0x8000.

Section guest.
  Context `{Guest}.

Definition TARGET_PAGE_SIZE : Z := 1 <<. TARGET_PAGE_BITS.
Definition TARGET_PAGE_MASK : Z := .~ (TARGET_PAGE_SIZE - 1).

(** Arithmetic in [target_ulong] / [abi_ulong]. *)
Definition tul (z : Z) : Z := wrap TARGET_LONG_BITS z.

Definition TARGET_PAGE_ALIGN (addr : Z) : Z :=
  tul (addr + TARGET_PAGE_SIZE - 1) .& TARGET_PAGE_MASK.

(** The [-1] that marks an unused [tb_page_addr_t]. *)
Definition no_page : Z := tul (-1).

Definition tb_jmp_cache_hash_page (pc : Z) : Z :=
  let tmp := pc .^ (pc >>. (TARGET_PAGE_BITS - TB_JMP_PAGE_BITS)) in
  (tmp >>. (TARGET_PAGE_BITS - TB_JMP_PAGE_BITS)) .& TB_JMP_PAGE_MASK.

Definition tb_jmp_cache_hash_func (pc : Z) : Z :=
  let tmp := pc .^ (pc >>. (TARGET_PAGE_BITS - TB_JMP_PAGE_BITS)) in
  ((tmp >>. (TARGET_PAGE_BITS - TB_JMP_PAGE_BITS)) .& TB_JMP_PAGE_MASK)
    .| (tmp .& TB_JMP_ADDR_MASK).

Definition tb_phys_hash_func (pc : Z) : Z := pc .& (CODE_GEN_PHYS_HASH_SIZE - 1).

(** The page number and the page offset of an address, as the code writes them. *)
Definition page_index (addr : Z) : Z := addr >>. TARGET_PAGE_BITS.
Definition page_base (addr : Z) : Z := addr .& TARGET_PAGE_MASK.
Definition page_off (addr : Z) : Z := addr .& .~ TARGET_PAGE_MASK.

Lemma page_size_eq : TARGET_PAGE_SIZE = 2 ^ TARGET_PAGE_BITS.
Proof. unfold TARGET_PAGE_SIZE. pose proof guest_page_bits. rewrite Z.shiftl_mul_pow2; lia. Qed.

Lemma page_size_pos : 1024 ≤ TARGET_PAGE_SIZE ≤ 8192.
Proof.
  rewrite page_size_eq. pose proof guest_page_bits.
  split; [change 1024 with (2 ^ 10)|change 8192 with (2 ^ 13)]; apply Z.pow_le_mono_r; lia.
Qed.

Lemma page_index_eq addr : page_index addr = addr `div` TARGET_PAGE_SIZE.
Proof.
  unfold page_index. rewrite page_size_eq, Z.shiftr_div_pow2; [done|].
  pose proof guest_page_bits; lia.
Qed.

Lemma page_base_eq addr : page_base addr = addr - addr `mod` TARGET_PAGE_SIZE.
Proof.
  unfold page_base, TARGET_PAGE_MASK. rewrite page_size_eq, land_lnot_low; [done|].
  pose proof guest_page_bits; lia.
Qed.

Lemma page_off_eq addr : page_off addr = addr `mod` TARGET_PAGE_SIZE.
Proof.
  unfold page_off, TARGET_PAGE_MASK. rewrite Z.lnot_involutive, page_size_eq, land_low; [done|].
  pose proof guest_page_bits; lia.
Qed.

Lemma page_base_index addr : page_base addr = page_index addr * TARGET_PAGE_SIZE.
Proof.
  rewrite page_base_eq, page_index_eq. pose proof page_size_pos.
  pose proof (Z_div_mod_eq_full addr TARGET_PAGE_SIZE). lia.
Qed.

Lemma page_index_base addr : page_index (page_base addr) = page_index addr.
Proof.
  rewrite page_base_index, !page_index_eq. pose proof page_size_pos.
  by rewrite Z.div_mul by lia.
Qed.

Lemma page_off_range addr : 0 ≤ page_off addr < TARGET_PAGE_SIZE.
Proof. rewrite page_off_eq. pose proof page_size_pos. by apply Z.mod_pos_bound; lia. Qed.

Lemma page_split addr : page_base addr + page_off addr = addr.
Proof. rewrite page_base_eq, page_off_eq. lia. Qed.

Lemma page_base_idem addr : page_base (page_base addr) = page_base addr.
Proof. by rewrite (page_base_index (page_base addr)), page_index_base, <- page_base_index. Qed.

Lemma no_page_eq : no_page = 2 ^ TARGET_LONG_BITS - 1.
Proof.
  unfold no_page, tul, wrap. pose proof guest_long_bits.
  rewrite <- (Z_mod_plus_full (-1) 1), Z.mod_small; lia.
Qed.

(** A page-aligned address is never the mark. *)
Lemma page_base_no_page addr : page_base addr ≠ no_page.
Proof.
  rewrite no_page_eq, page_base_index, page_size_eq.
  pose proof guest_page_bits. pose proof guest_long_bits.
  replace TARGET_LONG_BITS with (TARGET_PAGE_BITS + (TARGET_LONG_BITS - TARGET_PAGE_BITS)) by lia.
  rewrite Z.pow_add_r by lia. intros E.
  assert (2 ^ 1 ≤ 2 ^ TARGET_PAGE_BITS) by (apply Z.pow_le_mono_r; lia).
  apply (f_equal (λ z, z `mod` 2 ^ TARGET_PAGE_BITS)) in E.
  rewrite Z_mod_mult in E. rewrite Z.mul_comm in E.
  rewrite <- Z.add_opp_r, Z.add_comm, Z_mod_plus_full in E.
  rewrite <- (Z_mod_plus_full (-1) 1), Z.mod_small in E; lia.
Qed.

(** The page, if any, other than that of [pc] on which a block of [size] bytes
    at [pc] ends. *)
Definition page2_of (pc_ size_ : Z) : Z :=
  let virt_page2 := page_base (tul (pc_ + size_ - 1)) in
  if page_base pc_ =? virt_page2 then no_page else virt_page2.

Lemma page2_of_index pc_ size_ :
  page2_of pc_ size_ ≠ no_page →
  page2_of pc_ size_ = page_base (page2_of pc_ size_) ∧ page_index (page2_of pc_ size_) ≠ page_index pc_.
Proof.
  unfold page2_of. case_bool; bprop; [done|]. intros _. rewrite page_base_idem, page_index_base.
  split; [done|]. intros E. rewrite !page_base_index, E in *. done.
Qed.

(** It is the next page. *)
Lemma page2_of_next pc_ size_ :
  0 ≤ pc_ < 2 ^ TARGET_LONG_BITS → 0 < size_ ≤ TARGET_PAGE_SIZE → page2_of pc_ size_ ≠ no_page →
  page2_of pc_ size_ = tul (page_base pc_ + TARGET_PAGE_SIZE).
Proof.
  intros Hpc Hsz. unfold page2_of. case_bool; bprop; [done|]. intros _.
  pose proof page_size_pos as HP. pose proof guest_page_bits as Hpb. pose proof guest_long_bits as Hlb.
  assert (∃ k, 0 < k ∧ 2 ^ TARGET_LONG_BITS = k * TARGET_PAGE_SIZE) as (k & Hk & Ek).
  { exists (2 ^ (TARGET_LONG_BITS - TARGET_PAGE_BITS)). rewrite page_size_eq, <- Z.pow_add_r by lia.
    split; [apply Z.pow_pos_nonneg; lia|f_equal; lia]. }
  unfold tul, wrap in *. rewrite Ek, !page_base_eq in *. set (P := TARGET_PAGE_SIZE) in *.
  pose proof (Z_div_mod_eq_full pc_ P) as E. pose proof (Z.mod_pos_bound pc_ P) as Hr.
  set (q := pc_ `div` P) in *. set (r := pc_ `mod` P) in *. clearbody q r P.
  assert (0 ≤ q < k) as Hq by nia. destruct (decide (r + size_ - 1 < P)) as [Hlt|Hge].
  - exfalso. rewrite (Z.mod_small (pc_ + size_ - 1)) in Eb by nia. apply Eb.
    replace (pc_ + size_ - 1) with (r + size_ - 1 + q * P) by lia.
    rewrite Z_mod_plus_full, Z.mod_small by lia. lia.
  - replace (pc_ - r + P) with ((q + 1) * P) by lia.
    replace (pc_ + size_ - 1) with (r + size_ - 1 - P + (q + 1) * P) by lia.
    destruct (decide (q + 1 = k)) as [->|Hne].
    + rewrite Z_mod_same_full.
      replace (r + size_ - 1 - P + k * P) with (r + size_ - 1 - P + 1 * (k * P)) by lia.
      rewrite Z_mod_plus_full. rewrite (Z.mod_small _ (k * P)) by nia. rewrite Z.mod_small by lia. lia.
    + rewrite !(Z.mod_small _ (k * P)) by nia. rewrite Z_mod_plus_full, Z.mod_small by lia. lia.
Qed.

Lemma tb_phys_hash_func_range pc : 0 ≤ tb_phys_hash_func pc < CODE_GEN_PHYS_HASH_SIZE.
Proof.
  unfold tb_phys_hash_func. change CODE_GEN_PHYS_HASH_SIZE with (2 ^ 15).
  rewrite land_low by lia. by apply Z.mod_pos_bound.
Qed.

(** The jump cache index is in range, and its high half is a function of the
    page alone: clearing one page of the cache is clearing one aligned run. *)
Lemma tb_jmp_cache_hash_func_split pc :
  tb_jmp_cache_hash_func pc =
    tb_jmp_cache_hash_page pc +
    (pc .^ (pc >>. (TARGET_PAGE_BITS - TB_JMP_PAGE_BITS))) `mod` TB_JMP_PAGE_SIZE.
Proof.
  unfold tb_jmp_cache_hash_func, tb_jmp_cache_hash_page.
  generalize (pc .^ (pc >>. (TARGET_PAGE_BITS - TB_JMP_PAGE_BITS))); intros tmp.
  change TB_JMP_ADDR_MASK with (2 ^ 6 - 1). rewrite land_low by lia.
  change TB_JMP_PAGE_SIZE with (2 ^ 6).
  apply (lor_disjoint_add _ _ 6); [lia| |by apply Z.mod_pos_bound].
  change TB_JMP_PAGE_MASK with (Z.ones 12 .& .~ (2 ^ 6 - 1)).
  rewrite Z.land_assoc, land_lnot_low by lia.
  generalize ((tmp >>. (TARGET_PAGE_BITS - TB_JMP_PAGE_BITS)) .& Z.ones 12); intros z.
  rewrite Zminus_mod_idemp_r, Z.sub_diag. done.
Qed.

End guest.

#[export] Hint Resolve page_size_pos page_off_range : hq.
