(* ===== verification/CodePatch.v ===== *)
(** * Patching of native jumps

    [tb_set_jmp_target1] of exec-all.h (x86 hosts) rewrites the 32-bit
    displacement of a jump in the code cache while other threads may be
    executing it; [patch_jmp] of llvm/utils.c is the same on the address of the
    opcode.  Memory is a map from addresses to bytes and the routine is the
    sequence of its stores, so that what a concurrent fetch sees between two
    stores can be stated. *)

From stdpp Require Import base gmap list.
From S2P Require Import Prelude.
Local Open Scope Z_scope.

Notation bytes := (gmap Z Z).

(** The byte [i] of a value, little endian. *)
Definition byte_of (v i : Z) : Z := u8 (v >>. (8 * i)).

Fixpoint store_bytes (m : bytes) (a : Z) (bs : list Z) : bytes :=
  match bs with
  | [] => m
  | b :: bs' => store_bytes (<[a := b]> m) (a + 1) bs'
  end.

Definition bytes16 (v : Z) : list Z := [byte_of v 0; byte_of v 1].
Definition bytes32 (v : Z) : list Z := [byte_of v 0; byte_of v 1; byte_of v 2; byte_of v 3].

(** The stores of [tb_set_jmp_target1], in program order. *)
Definition jmp_target_stores (jmp_addr addr : Z) : list (Z * list Z) :=
  if jmp_addr `mod` 4 =? 0
  then [(jmp_addr, bytes32 (u32 (addr - (jmp_addr + 4))))]
  else
    let addr := u64 (addr - (jmp_addr + 4)) in
    let v := byte_of addr in
    [(jmp_addr - 1, bytes16 0xfeeb);
     (jmp_addr + 1, [v 1]);
     (jmp_addr + 2, [v 2]);
     (jmp_addr + 3, [v 3]);
     (jmp_addr - 1, bytes16 ((v 0 <<. 8) .| 0xe9))].

Definition do_stores (m : bytes) (ss : list (Z * list Z)) : bytes :=
  foldl (λ m s, store_bytes m s.1 s.2) m ss.

Definition tb_set_jmp_target1 (m : bytes) (jmp_addr addr : Z) : bytes :=
  do_stores m (jmp_target_stores jmp_addr addr).

(** [patch_jmp] takes the address of the jump instruction itself. *)
Definition patch_jmp (m : bytes) (patch_addr addr : Z) : bytes :=
  tb_set_jmp_target1 m (patch_addr + 1) addr.

(** ** What the processor reads *)

Definition load32 (m : bytes) (a : Z) : option Z :=
  b0 ← m !! a; b1 ← m !! (a + 1); b2 ← m !! (a + 2); b3 ← m !! (a + 3);
  Some (b0 + b1 * 2 ^ 8 + b2 * 2 ^ 16 + b3 * 2 ^ 24).

(** Destination of the jump instruction at [a]: [e9 rel32] or [eb rel8]. *)
Definition insn_dest (m : bytes) (a : Z) : option Z :=
  op ← m !! a;
  if op =? 0xe9 then rel ← load32 m (a + 1); Some (a + 5 + sext 32 rel)
  else if op =? 0xeb then rel ← m !! (a + 1); Some (a + 2 + sext 8 rel)
  else None.

(** A near jump whose displacement is at [a]. *)
Definition is_jmp (m : bytes) (a : Z) : Prop := m !! (a - 1) = Some 0xe9.

(** Where the instruction whose displacement is at [a] goes. *)
Definition jmp_dest (m : bytes) (a : Z) : option Z := insn_dest m (a - 1).

(** The displacement fits in 32 bits. *)
Definition near (jmp_addr addr : Z) : Prop :=
  0 ≤ jmp_addr < 2 ^ 64 ∧ 0 ≤ addr < 2 ^ 64 ∧
  - 2 ^ 31 ≤ addr - (jmp_addr + 4) < 2 ^ 31.

#[export] Instance near_dec ja a : Decision (near ja a).
Proof. unfold near. apply _. Defined.

(** ** Lemmas *)

Lemma byte_of_eq v i : 0 ≤ i → byte_of v i = (v `div` 2 ^ (8 * i)) `mod` 2 ^ 8.
Proof. intros. unfold byte_of, wrap. by rewrite Z.shiftr_div_pow2 by lia. Qed.

Lemma bytes32_combine v :
  byte_of v 0 + byte_of v 1 * 2 ^ 8 + byte_of v 2 * 2 ^ 16 + byte_of v 3 * 2 ^ 24 = u32 v.
Proof.
  rewrite !byte_of_eq by lia. unfold wrap.
  change (8 * 0) with 0. change (8 * 1) with 8. change (8 * 2) with 16. change (8 * 3) with 24.
  Z.div_mod_to_equations. lia.
Qed.

Lemma byte_of_u32 v i : 0 ≤ i < 4 → byte_of (u32 v) i = byte_of v i.
Proof.
  intros Hi. assert (i = 0 ∨ i = 1 ∨ i = 2 ∨ i = 3) as [->|[->|[->| ->]]] by lia;
    rewrite !byte_of_eq by lia; unfold wrap;
    change (8 * 0) with 0; change (8 * 1) with 8; change (8 * 2) with 16; change (8 * 3) with 24;
    zdm.
Qed.

Lemma byte_of_u64 v i : 0 ≤ i < 4 → byte_of (u64 v) i = byte_of v i.
Proof.
  intros Hi. rewrite <- (byte_of_u32 (u64 v)), <- (byte_of_u32 v) by done. f_equal.
  unfold wrap. change (2 ^ 64) with (2 ^ 32 * 2 ^ 32).
  rewrite Z.rem_mul_r by lia. rewrite Z.mul_comm, Z_mod_plus_full. by rewrite Zmod_mod.
Qed.

Lemma bytes16_jmp b : 0 ≤ b < 256 → bytes16 ((b <<. 8) .| 0xe9) = [0xe9; b].
Proof.
  intros Hb. unfold bytes16. rewrite Z.shiftl_mul_pow2 by lia.
  rewrite (lor_disjoint_add _ _ 8) by (try lia; apply Z_mod_mult).
  rewrite !byte_of_eq by lia. change (8 * 0) with 0. change (8 * 1) with 8.
  repeat f_equal; zdm.
Qed.

Lemma byte_of_range v i : 0 ≤ byte_of v i < 256.
Proof. apply (wrap_range 8). lia. Qed.

#[export] Hint Rewrite byte_of_u32 byte_of_u64 using lia : hq.

(** The bytes after the whole sequence. *)
Lemma set_jmp_target1_lookup m ja addr i :
  tb_set_jmp_target1 m ja addr !! i =
    if decide (i = ja) then Some (byte_of (addr - (ja + 4)) 0)
    else if decide (i = ja + 1) then Some (byte_of (addr - (ja + 4)) 1)
    else if decide (i = ja + 2) then Some (byte_of (addr - (ja + 4)) 2)
    else if decide (i = ja + 3) then Some (byte_of (addr - (ja + 4)) 3)
    else if decide (i = ja - 1 ∧ ja `mod` 4 ≠ 0) then Some 0xe9
    else m !! i.
Proof.
  unfold tb_set_jmp_target1, jmp_target_stores. case_bool; bprop.
  - cbn [do_stores foldl bytes32 store_bytes fst snd]. autorewrite with hq.
    rewrite !lookup_insert. repeat case_decide; try done; try lia; exfalso; naive_solver lia.
  - cbv zeta. rewrite bytes16_jmp by apply byte_of_range.
    cbn [do_stores foldl bytes16 store_bytes fst snd]. autorewrite with hq.
    rewrite !lookup_insert. repeat case_decide; try done; try lia; exfalso; naive_solver lia.
Qed.

Lemma set_jmp_target1_frame m ja addr i :
  i < ja - 1 ∨ ja + 4 ≤ i → tb_set_jmp_target1 m ja addr !! i = m !! i.
Proof. intros. rewrite set_jmp_target1_lookup. repeat case_decide; try done; lia. Qed.

Lemma load32_ext m m' a :
  (∀ i, a ≤ i < a + 4 → m !! i = m' !! i) → load32 m a = load32 m' a.
Proof. intros Hm. unfold load32. by rewrite !Hm by lia. Qed.

Lemma jmp_dest_ext m m' a :
  (∀ i, a - 1 ≤ i < a + 4 → m !! i = m' !! i) → jmp_dest m a = jmp_dest m' a.
Proof.
  intros Hm. unfold jmp_dest, insn_dest. rewrite (Hm (a - 1)), (Hm (a - 1 + 1)) by lia. by rewrite (load32_ext m m') by (intros; apply Hm; lia).
Qed.

Lemma is_jmp_ext m m' a : m !! (a - 1) = m' !! (a - 1) → is_jmp m a ↔ is_jmp m' a.
Proof. intros E. unfold is_jmp. by rewrite E. Qed.

(** The unaligned sequence writes the opcode, the aligned one keeps it. *)
Lemma set_jmp_target1_op m ja addr : is_jmp m ja → is_jmp (tb_set_jmp_target1 m ja addr) ja.
Proof. unfold is_jmp. intros Hm. rewrite set_jmp_target1_lookup. repeat (case_decide; try lia); done. Qed.

Lemma jmp_dest_jmp m ja : is_jmp m ja → jmp_dest m ja = (rel ← load32 m ja; Some (ja + 4 + sext 32 rel)).
Proof.
  intros Hj. unfold jmp_dest, insn_dest. unfold is_jmp in Hj. rewrite Hj. cbn. rewrite Z.sub_add.
  destruct (load32 m ja); cbn; [|done]. f_equal. lia.
Qed.

Lemma set_jmp_target1_dest m ja addr :
  near ja addr → (ja `mod` 4 = 0 → is_jmp m ja) → jmp_dest (tb_set_jmp_target1 m ja addr) ja = Some addr.
Proof.
  intros (? & ? & ?) Hop. rewrite jmp_dest_jmp.
  - unfold load32. rewrite !set_jmp_target1_lookup. repeat (case_decide; try lia). cbn.
    rewrite bytes32_combine, sext_wrap, sext_small by lia. f_equal. lia.
  - unfold is_jmp. rewrite set_jmp_target1_lookup. repeat (case_decide; try lia); [done|]. apply Hop. lia.
Qed.

Lemma set_jmp_target1_dest_other m ja addr a :
  a + 4 ≤ ja - 1 ∨ ja + 4 ≤ a - 1 → jmp_dest (tb_set_jmp_target1 m ja addr) a = jmp_dest m a.
Proof. intros. apply jmp_dest_ext. intros. apply set_jmp_target1_frame. lia. Qed.

Lemma set_jmp_target1_op_other m ja addr a :
  a + 4 ≤ ja - 1 ∨ ja + 4 ≤ a - 1 → is_jmp (tb_set_jmp_target1 m ja addr) a ↔ is_jmp m a.
Proof. intros. apply is_jmp_ext, set_jmp_target1_frame. lia. Qed.

Lemma store_bytes_below m a bs i : i < a → store_bytes m a bs !! i = m !! i.
Proof.
  induction bs as [|b bs IH] in m, a |- *; intros Hi; cbn; [done|].
  rewrite IH by lia. by rewrite lookup_insert_ne by lia.
Qed.

Lemma store_bytes_inside m a bs (i : nat) b : bs !! i = Some b → store_bytes m a bs !! (a + Z.of_nat i) = Some b.
Proof.
  revert m a i. induction bs as [|b' bs IH]; intros m a i Hi; [done|]. destruct i as [|i]; cbn in *.
  - apply (inj Some) in Hi as ->. rewrite store_bytes_below by lia. rewrite Z.add_0_r. apply lookup_insert_eq.
  - rewrite <- (IH (<[a:=b']> m) (a + 1) i) by done. f_equal. lia.
Qed.

(** A fetch that runs between two stores of the unaligned sequence. *)
Lemma patch_fetch_unaligned m ja addr old k :
  ja `mod` 4 ≠ 0 → near ja addr →
  insn_dest m (ja - 1) = Some old → m !! (ja - 1) = Some 0xe9 →
  let d := insn_dest (do_stores m (take k (jmp_target_stores ja addr))) (ja - 1) in
  d = Some old ∨ d = Some (ja - 1) ∨ d = Some addr.
Proof.
  intros Hal Hn Hold Hop. destruct (decide (5 ≤ k)%nat) as [Hk|Hk].
  { right; right. rewrite take_ge.
    - change (do_stores _ _) with (tb_set_jmp_target1 m ja addr). by apply set_jmp_target1_dest.
    - unfold jmp_target_stores. case_bool; bprop; [lia|done]. }
  unfold jmp_target_stores. case_bool; bprop; [lia|]. cbv zeta.
  destruct k as [|[|[|[|[|k]]]]]; [by left|..|lia]; right; left;
    cbn [take do_stores foldl bytes16 store_bytes fst snd];
    unfold insn_dest; rewrite !lookup_insert; repeat (case_decide; try lia);
    cbn; f_equal; change (sext 8 _) with (-2); lia.
Qed.

(** ** Properties *)

(** C20 (functional).  After [tb_set_jmp_target1] the instruction at
    [jmp_addr - 1] is a near jump to [addr], whichever of the two store
    sequences the alignment selects: the unaligned one also writes the opcode,
    the aligned one relies on the jump that is there.  No byte outside the
    instruction changes, and no byte of the opcode if the operand is aligned. *)
Theorem set_jmp_target1_correct (m : bytes) (jmp_addr addr : Z) :
  near jmp_addr addr → (jmp_addr `mod` 4 = 0 → m !! (jmp_addr - 1) = Some 0xe9) →
  let m' := tb_set_jmp_target1 m jmp_addr addr in
  m' !! (jmp_addr - 1) = Some 0xe9 ∧ insn_dest m' (jmp_addr - 1) = Some addr ∧
  ∀ i, i < jmp_addr - 1 ∨ jmp_addr + 4 ≤ i → m' !! i = m !! i.
Proof.
  intros Hn Hop. cbv zeta. split_and!.
  - rewrite set_jmp_target1_lookup. repeat (case_decide; try lia); [done|]. apply Hop. lia.
  - by apply (set_jmp_target1_dest m jmp_addr addr).
  - intros. by apply set_jmp_target1_frame.
Qed.

Lemma set_jmp_target1_correct_witness :
  insn_dest (tb_set_jmp_target1 ∅ 4099 8192) 4098 = Some 8192 ∧
  insn_dest (tb_set_jmp_target1 {[8191 := 0xe9]} 8192 4096) 8191 = Some 4096.
Proof.
  split; [apply (set_jmp_target1_correct ∅ 4099 8192)|apply (set_jmp_target1_correct {[8191 := 0xe9]} 8192 4096)];
    first [done | unfold near; lia].
Defined.

(** C19 (safety).  Patching is atomic for a concurrent execution of the jump:
    whatever prefix of the stores has been performed, the instruction at
    [patch_addr] jumps to its old destination, to itself (a spin) or to the
    new one. *)
Theorem patch_jmp_atomic (m : bytes) (patch_addr addr old : Z) (k : nat) :
  near (patch_addr + 1) addr →
  m !! patch_addr = Some 0xe9 → insn_dest m patch_addr = Some old →
  let d := insn_dest (do_stores m (take k (jmp_target_stores (patch_addr + 1) addr)))
             patch_addr in
  d = Some old ∨ d = Some patch_addr ∨ d = Some addr.
Proof.
  intros Hn Hop Hold.
  destruct (decide ((patch_addr + 1) `mod` 4 = 0)) as [Hal|Hal].
  - destruct k as [|k]; [by left|]. right; right.
    rewrite take_ge by (unfold jmp_target_stores; rewrite Hal; cbn; lia).
    change (do_stores _ _) with (tb_set_jmp_target1 m (patch_addr + 1) addr).
    pose proof (set_jmp_target1_dest m (patch_addr + 1) addr Hn) as Hd. unfold jmp_dest, is_jmp in Hd.
    rewrite Z.add_simpl_r in Hd. by apply Hd.
  - pose proof (patch_fetch_unaligned m (patch_addr + 1) addr old k Hal Hn) as Hp.
    rewrite Z.add_simpl_r in Hp. by apply Hp.
Qed.

Lemma patch_jmp_atomic_witness :
  let m := do_stores ∅ [(4096, [0xe9]); (4097, bytes32 11)] in
  insn_dest m 4096 = Some 4112 ∧
  insn_dest (do_stores m (take 3 (jmp_target_stores 4097 8192))) 4096 = Some 4096.
Proof.
  cbv zeta. split; [vm_compute; reflexivity|].
  destruct (patch_jmp_atomic (do_stores ∅ [(4096, [0xe9]); (4097, bytes32 11)])
    4096 8192 4112 3) as [H|[H|H]].
  - unfold near; lia.
  - vm_compute; reflexivity.
  - vm_compute; reflexivity.
  - vm_compute in H. discriminate H.
  - exact H.
  - vm_compute in H. discriminate H.
Defined.
