(* ===== verification/Bitmap.v ===== *)
(** * The code bitmap of a page

    [set_bits] of exec.c marks a range of bytes of a page as translated code,
    one bit per byte.  The table is a list of bytes and an access outside it
    is an error. *)

From stdpp Require Import base list.
From S2P Require Import Prelude.
Local Open Scope Z_scope.
Local Coercion Z.of_nat : nat >-> Z.

(** [*tab |= mask] *)
Definition or_byte (tab : list Z) (i : nat) (mask : Z) : result (list Z) :=
  b <- deref (tab !! i) ;; Ok (<[i := u8 (b .| mask)]> tab).

(** [while (start < end1) { *tab++ = 0xff; start += 8; }] *)
Fixpoint fill_bytes (fuel : nat) (tab : list Z) (i : nat) (start end1 : Z)
    : result (list Z * nat * Z) :=
  match fuel with
  | O => Er EFuel
  | S fuel' =>
      if start <? end1 then
        _ <- deref (tab !! i) ;;
        fill_bytes fuel' (<[i := 0xff]> tab) (S i) (start + 8) end1
      else Ok (tab, i, start)
  end.

Definition set_bits (tab : list Z) (start len : Z) : result (list Z) :=
  let end_ := start + len in
  let i := Z.to_nat (start >>. 3) in
  let mask := 0xff <<. (start .& 7) in
  if start .& .~ 7 =? end_ .& .~ 7 then
    if start <? end_ then or_byte tab i (mask .& .~ (0xff <<. (end_ .& 7))) else Ok tab
  else
    tab <- or_byte tab i mask ;;
    let start := (start + 8) .& .~ 7 in
    let end1 := end_ .& .~ 7 in
    '(tab, i, start) <- fill_bytes (S (length tab)) tab (S i) start end1 ;;
    if start <? end_ then or_byte tab i (.~ (0xff <<. (end_ .& 7))) else Ok tab.

(** The bit for byte [k] of the page. *)
Definition bit (tab : list Z) (k : Z) : bool :=
  match tab !! Z.to_nat (k `div` 8) with
  | Some b => Z.testbit b (k `mod` 8)
  | None => false
  end.

(** ** Lemmas *)

Lemma testbit_u8 z j : 0 ≤ j < 8 → Z.testbit (u8 z) j = Z.testbit z j.
Proof. intros Hj. unfold wrap. by rewrite Z.mod_pow2_bits_low by lia. Qed.

Lemma testbit_ff j : 0 ≤ j < 8 → Z.testbit 0xff j = true.
Proof. intros Hj. change 0xff with (Z.ones 8). by apply Z.ones_spec_low. Qed.

Lemma testbit_mask_from a j : 0 ≤ a < 8 → 0 ≤ j < 8 → Z.testbit (0xff <<. a) j = (a <=? j).
Proof.
  intros Ha Hj. rewrite Z.shiftl_spec by lia. destruct (Z.leb_spec a j).
  - apply testbit_ff. lia.
  - apply Z.testbit_neg_r. lia.
Qed.

Lemma testbit_mask_below a j : 0 ≤ a < 8 → 0 ≤ j < 8 → Z.testbit (.~ (0xff <<. a)) j = (j <? a).
Proof.
  intros Ha Hj. rewrite Z.lnot_spec, testbit_mask_from by lia.
  destruct (Z.leb_spec a j), (Z.ltb_spec j a); lia || done.
Qed.

Lemma or_byte_ok tab i mask :
  (i < length tab)%nat →
  ∃ tab', or_byte tab i mask = Ok tab' ∧ length tab' = length tab ∧
    ∀ k, 0 ≤ k → bit tab' k = bit tab k || bool_decide (k `div` 8 = i) && Z.testbit mask (k `mod` 8).
Proof.
  intros Hi. destruct (lookup_lt_is_Some_2 _ _ Hi) as [b Hb].
  unfold or_byte. rewrite Hb. cbn [rbind deref]. eexists. split; [done|].
  rewrite length_insert. split; [done|]. intros k Hk. unfold bit.
  pose proof (Z.mod_pos_bound k 8). destruct (decide (k `div` 8 = i)) as [E|E].
  - rewrite bool_decide_eq_true_2 by done. rewrite E, Nat2Z.id.
    rewrite list_lookup_insert_eq by done. rewrite Hb, testbit_u8 by lia. by rewrite Z.lor_spec.
  - rewrite bool_decide_eq_false_2 by done. cbn. rewrite orb_false_r.
    rewrite list_lookup_insert_ne; [done|]. intros ->. apply E. rewrite Z2Nat.id; [done|].
    apply Z.div_pos; lia.
Qed.

Lemma fill_bytes_ok fuel tab (i q : nat) :
  (q ≤ length tab)%nat → (q - i < fuel)%nat →
  ∃ tab', fill_bytes fuel tab i (8 * i) (8 * q) =
      Ok (tab', Nat.max i q, 8 * Nat.max i q) ∧ length tab' = length tab ∧
    ∀ k, 0 ≤ k → bit tab' k = bit tab k || (8 * i <=? k) && (k <? 8 * q).
Proof.
  induction fuel as [|fuel IH] in tab, i |- *; intros Hq Hf; [lia|].
  cbn [fill_bytes]. destruct (Z.ltb_spec (8 * i) (8 * q)) as [Hlt|Hge].
  - destruct (lookup_lt_is_Some_2 tab i) as [b Hb]; [lia|]. rewrite Hb. cbn [rbind deref].
    replace (8 * i + 8) with (8 * S i) by lia.
    destruct (IH (<[i := 0xff]> tab) (S i)) as (tab' & -> & El & Hbit);
      [by rewrite length_insert|lia|].
    exists tab'. replace (Nat.max (S i) q) with (Nat.max i q) by lia.
    rewrite El, length_insert. split_and!; [done..|].
    intros k Hk. rewrite Hbit by done. pose proof (Z.mod_pos_bound k 8).
    pose proof (Z_div_mod_eq_full k 8). unfold bit at 1.
    destruct (decide (k `div` 8 = i)) as [E|E].
    + rewrite E, Nat2Z.id, list_lookup_insert_eq by lia. rewrite testbit_ff by lia.
      rewrite (proj2 (Z.leb_le (8 * i) k)), (proj2 (Z.ltb_lt k (8 * q))) by lia. by rewrite orb_true_r.
    + rewrite list_lookup_insert_ne.
      * change (match tab !! Z.to_nat (k `div` 8) with Some b => _ | None => _ end) with (bit tab k).
        f_equal. f_equal. apply eq_true_iff_eq. rewrite !Z.leb_le. lia.
      * intros ->. apply E. rewrite Z2Nat.id; [done|]. apply Z.div_pos; lia.
  - exists tab. replace (Nat.max i q) with i by lia. split_and!; [done..|]. intros k Hk.
    destruct (Z.leb_spec (8 * i) k), (Z.ltb_spec k (8 * q)); cbn; rewrite ?orb_false_r; done || lia.
Qed.

(** Equality of two membership tests. *)
Ltac bits :=
  apply eq_true_iff_eq; symmetry;
  rewrite ?orb_true_iff, ?andb_true_iff, ?bool_decide_eq_true, ?Z.leb_le, ?Z.ltb_lt; lia.

(** [set_bits] marks exactly the range, inside the table. *)
Lemma set_bits_ok tab start len :
  0 ≤ start → 0 ≤ len → start + len ≤ 8 * length tab →
  ∃ tab', set_bits tab start len = Ok tab' ∧ length tab' = length tab ∧
    ∀ k, 0 ≤ k → bit tab' k = bit tab k || (start <=? k) && (k <? start + len).
Proof.
  intros Hs Hl Hlen. unfold set_bits. set (e := start + len).
  change 7 with (2 ^ 3 - 1). rewrite !land_low, !land_lnot_low, Z.shiftr_div_pow2 by lia.
  change (2 ^ 3) with 8.
  pose proof (Z_div_mod_eq_full start 8) as Es. pose proof (Z_div_mod_eq_full e 8) as Ee.
  pose proof (Z.mod_pos_bound start 8) as Hr. pose proof (Z.mod_pos_bound e 8) as Hc.
  set (a := start `div` 8) in *. set (b := e `div` 8) in *.
  set (r := start `mod` 8) in *. set (c := e `mod` 8) in *.
  assert (∀ k, 0 ≤ k → 0 ≤ k `mod` 8 < 8 ∧ k = 8 * (k `div` 8) + k `mod` 8) as Hk8.
  { intros k _. pose proof (Z.mod_pos_bound k 8). pose proof (Z_div_mod_eq_full k 8). lia. }
  destruct (Z.eqb_spec (start - r) (e - c)) as [Eq|Ne].
  - destruct (Z.ltb_spec start e).
    + destruct (or_byte_ok tab (Z.to_nat a) ((0xff <<. r) .& .~ (0xff <<. c))) as (tab' & -> & El & Hb); [lia|].
      exists tab'. split_and!; [done..|]. intros k Hk. destruct (Hk8 k Hk). rewrite Hb by done.
      rewrite Z.land_spec, testbit_mask_from, testbit_mask_below by lia. f_equal. bits.
    + exists tab. split_and!; [done..|]. intros k Hk. rewrite <- (orb_false_r (bit tab k)) at 1. f_equal. bits.
  - assert (a < b) by lia.
    destruct (or_byte_ok tab (Z.to_nat a) (0xff <<. r)) as (tab1 & -> & E1 & H1); [lia|].
    cbn [rbind]. replace (start + 8 - (start + 8) `mod` 8) with (8 * S (Z.to_nat a)).
    2: { replace (start + 8) with (start + 1 * 8) by lia. rewrite Z_mod_plus_full. fold r. lia. }
    replace (e - c) with (8 * Z.to_nat b) by lia.
    destruct (fill_bytes_ok (S (length tab1)) tab1 (S (Z.to_nat a)) (Z.to_nat b)) as (tab2 & -> & E2 & H2); [lia..|].
    cbn [rbind]. replace (Nat.max (S (Z.to_nat a)) (Z.to_nat b)) with (Z.to_nat b) by lia.
    destruct (Z.ltb_spec (8 * Z.to_nat b) e).
    + destruct (or_byte_ok tab2 (Z.to_nat b) (.~ (0xff <<. c))) as (tab3 & -> & E3 & H3); [lia|].
      exists tab3. split_and!; [done|congruence|]. intros k Hk. destruct (Hk8 k Hk).
      rewrite H3, H2, H1 by done. rewrite testbit_mask_from, testbit_mask_below by lia.
      rewrite <- !orb_assoc. f_equal. bits.
    + exists tab2. split_and!; [done|congruence|]. intros k Hk. destruct (Hk8 k Hk).
      rewrite H2, H1 by done. rewrite testbit_mask_from by lia. rewrite <- !orb_assoc. f_equal. bits.
Qed.
