(* ===== verification/PageTable.v ===== *)
(** * The page descriptor table

    exec.c keeps a [PageDesc] per guest page in a radix tree rooted at
    [l1_map], allocated on demand.  The block manager only needs to find,
    allocate and update descriptors: that contract is the class [PageTable];
    [Radix] is the tree of exec.c and its instance. *)

From stdpp Require Import base gmap list fin_maps.
From S2P Require Import Prelude Config.
Local Open Scope Z_scope.
Local Coercion Z.of_nat : nat >-> Z.

(** A block is its index in the array [tbs]; the low bits of a pointer in a
    page list say which of the block's two pages the link belongs to. *)
Notation tbid := nat.
Notation pnode := (tbid * slot)%type.

(** [struct PageDesc] (CONFIG_USER_ONLY). *)
Record PageDesc := mkPageDesc {
  first_tb : option pnode;
  code_write_count : Z;
  code_bitmap : option (list Z);
  pflags : Z
}.

#[export] Instance PageDesc_eq_dec : EqDecision PageDesc.
Proof. solve_decision. Defined.

(** Fresh descriptors are zero-filled. *)
Definition zero_pd : PageDesc := mkPageDesc None 0 None 0.

Definition set_first_tb (v : option pnode) (p : PageDesc) : PageDesc :=
  mkPageDesc v (code_write_count p) (code_bitmap p) (pflags p).
Definition set_code_write_count (v : Z) (p : PageDesc) : PageDesc :=
  mkPageDesc (first_tb p) v (code_bitmap p) (pflags p).
Definition set_code_bitmap (v : option (list Z)) (p : PageDesc) : PageDesc :=
  mkPageDesc (first_tb p) (code_write_count p) v (pflags p).
Definition set_pflags (v : Z) (p : PageDesc) : PageDesc :=
  mkPageDesc (first_tb p) (code_write_count p) (code_bitmap p) v.

Definition invalidate_page_bitmap (p : PageDesc) : PageDesc :=
  set_code_write_count 0 (set_code_bitmap None p).

(** What a flush does to one descriptor. *)
Definition flush_desc (p : PageDesc) : PageDesc :=
  invalidate_page_bitmap (set_first_tb None p).

Section interface.
  Context `{Guest}.

(** Page numbers of the guest address space. *)
Definition valid_index (i : Z) : Prop :=
  0 ≤ i < 2 ^ (L1_MAP_ADDR_SPACE_BITS - TARGET_PAGE_BITS).

Class PageTable (PT : Type) := {
  page_empty : PT;
  page_find : PT → Z → option PageDesc;
  page_alloc : PT → Z → PT;
  page_store : PT → Z → PageDesc → PT;
  page_flush_tb : PT → PT;
  page_find_empty i : page_find page_empty i = None;
  page_find_alloc_same pt i : valid_index i →
    page_find (page_alloc pt i) i = Some (default zero_pd (page_find pt i));
  page_find_alloc_other pt i j : valid_index i → valid_index j →
    page_find (page_alloc pt i) j = page_find pt j ∨
    page_find pt j = None ∧ page_find (page_alloc pt i) j = Some zero_pd;
  page_find_store pt i j d : valid_index i → valid_index j →
    is_Some (page_find pt i) →
    page_find (page_store pt i d) j = if decide (i = j) then Some d else page_find pt j;
  page_find_flush pt i : page_find (page_flush_tb pt) i = flush_desc <$> page_find pt i;
  (* descriptors are allocated 2^10 at a time *)
  page_find_leaf pt i j : valid_index i → valid_index j → i `div` 2 ^ 10 = j `div` 2 ^ 10 →
    is_Some (page_find pt i) → is_Some (page_find pt j)
}.

End interface.

(** The descriptor of a page, zero when its table is not allocated. *)
Definition page_desc `{Guest} `{!PageTable PT} (pt : PT) (i : Z) : PageDesc :=
  default zero_pd (page_find pt i).

Lemma page_desc_alloc `{Guest} `{!PageTable PT} (pt : PT) i j :
  valid_index i → valid_index j → page_desc (page_alloc pt i) j = page_desc pt j.
Proof.
  intros Hi Hj. unfold page_desc.
  destruct (page_find_alloc_other pt i j Hi Hj) as [-> | [-> ->]]; done.
Qed.

(** ** The radix tree of exec.c *)

Module Radix.
Section radix.
  Context `{Guest}.

Definition L2_BITS : Z := 10.
Definition L2_SIZE : Z := 1 <<. L2_BITS.
Definition V_L1_BITS_REM : Z := (L1_MAP_ADDR_SPACE_BITS - TARGET_PAGE_BITS) `mod` L2_BITS.
Definition V_L1_BITS : Z :=
  if V_L1_BITS_REM <? 4 then V_L1_BITS_REM + L2_BITS else V_L1_BITS_REM.
Definition V_L1_SIZE : Z := 1 <<. V_L1_BITS.
Definition V_L1_SHIFT : Z := L1_MAP_ADDR_SPACE_BITS - TARGET_PAGE_BITS - V_L1_BITS.
(** The initial value of the level counter. *)
Definition top_level : nat := Z.to_nat (V_L1_SHIFT `div` L2_BITS - 1).

(** A table of level [n]: level 0 holds the descriptors themselves, an absent
    one being zero-filled; at the other levels an absent entry is NULL. *)
Fixpoint node (n : nat) : Type :=
  match n with
  | O => gmap Z PageDesc
  | S n' => gmap Z (node n')
  end.

Definition l1_map : Type := gmap Z (node top_level).

Definition empty_node (n : nat) : node n :=
  match n with O => ∅ | S _ => ∅ end.

Definition l1_key (index : Z) : Z := (index >>. V_L1_SHIFT) .& (V_L1_SIZE - 1).
Definition l2_key (n : nat) (index : Z) : Z := (index >>. (n * L2_BITS)) .& (L2_SIZE - 1).

(** The loop of [page_find_alloc] below the first level, with [alloc = 0]. *)
Fixpoint find_from (n : nat) : node n → Z → option PageDesc :=
  match n with
  | O => λ (pd : gmap Z PageDesc) index,
      Some (default zero_pd (pd !! (index .& (L2_SIZE - 1))))
  | S n' => λ (p : gmap Z (node n')) index,
      match p !! l2_key (S n') index with
      | None => None
      | Some q => find_from n' q index
      end
  end.

(** The same loop with [alloc = 1]: missing tables are allocated. *)
Fixpoint alloc_from (n : nat) : option (node n) → Z → node n :=
  match n with
  | O => λ (lp : option (gmap Z PageDesc)) _, default ∅ lp
  | S n' => λ (lp : option (gmap Z (node n'))) index,
      let p := default ∅ lp in
      <[l2_key (S n') index := alloc_from n' (p !! l2_key (S n') index) index]> p
  end.

Definition page_find_alloc (m : l1_map) (index : Z) (alloc : bool) : l1_map * option PageDesc :=
  let lp := m !! l1_key index in
  if alloc then
    let p := alloc_from top_level lp index in
    (<[l1_key index := p]> m, find_from top_level p index)
  else
    (m, match lp with None => None | Some p => find_from top_level p index end).

Definition page_find (m : l1_map) (index : Z) : option PageDesc :=
  (page_find_alloc m index false).2.

(** A store through the pointer [page_find_alloc] returns. *)
Fixpoint store_from (n : nat) : node n → Z → PageDesc → node n :=
  match n with
  | O => λ (pd : gmap Z PageDesc) index d, <[index .& (L2_SIZE - 1) := d]> pd
  | S n' => λ (p : gmap Z (node n')) index d, alter (λ q, store_from n' q index d) (l2_key (S n') index) p
  end.

Definition page_store (m : l1_map) (index : Z) (d : PageDesc) : l1_map :=
  alter (λ p, store_from top_level p index d) (l1_key index) m.

Fixpoint page_flush_tb_1 (n : nat) : node n → node n :=
  match n with
  | O => λ pd : gmap Z PageDesc, flush_desc <$> pd
  | S n' => λ p : gmap Z (node n'), page_flush_tb_1 n' <$> p
  end.

Definition page_flush_tb (m : l1_map) : l1_map := page_flush_tb_1 top_level <$> m.

(** ** Keys *)

Lemma l2_key_eq n i : l2_key n i = (i `div` 2 ^ (10 * n)) `mod` 2 ^ 10.
Proof.
  unfold l2_key. change (L2_SIZE - 1) with (2 ^ 10 - 1).
  rewrite land_low, Z.shiftr_div_pow2 by (unfold L2_BITS; lia). unfold L2_BITS.
  by rewrite (Z.mul_comm n 10).
Qed.

Lemma shift_levels : V_L1_SHIFT = 10 * (S top_level) ∧ 4 ≤ V_L1_BITS ≤ 13.
Proof.
  unfold top_level, V_L1_SHIFT, V_L1_BITS, V_L1_BITS_REM, L2_BITS.
  pose proof guest_l1_bits. set (n := L1_MAP_ADDR_SPACE_BITS - TARGET_PAGE_BITS) in *.
  assert (14 ≤ n) by lia. case_bool; bprop; zdm.
Qed.

Lemma l1_key_eq i : valid_index i → l1_key i = i `div` 2 ^ (10 * S top_level).
Proof.
  intros Hi. unfold l1_key, V_L1_SIZE. destruct shift_levels as [Hs Hb].
  rewrite Z.shiftl_mul_pow2, Z.mul_1_l, land_low, Z.shiftr_div_pow2 by lia.
  rewrite <- Hs. apply Z.mod_small. split; [apply Z.div_pos; unfold valid_index in Hi; lia|].
  apply Z.div_lt_upper_bound; [lia|]. rewrite <- Z.pow_add_r by lia.
  replace (V_L1_SHIFT + V_L1_BITS) with (L1_MAP_ADDR_SPACE_BITS - TARGET_PAGE_BITS)
    by (unfold V_L1_SHIFT; lia). apply Hi.
Qed.

(** The path of an index below level [n] is its remainder. *)
Definition low (n : nat) (i : Z) : Z := i `mod` 2 ^ (10 * S n).

Lemma low_key n i j : l2_key (S n) i = l2_key (S n) j → low n i = low n j → low (S n) i = low (S n) j.
Proof.
  rewrite !l2_key_eq. unfold low.
  replace (10 * S (S n)) with (10 * S n + 10) by lia. rewrite Z.pow_add_r by lia.
  rewrite !Z.rem_mul_r by lia. intros -> ->. done.
Qed.

Lemma low_l1 i j : valid_index i → valid_index j → i ≠ j → l1_key i = l1_key j →
  low top_level i ≠ low top_level j.
Proof.
  intros Hi Hj Hne. rewrite !l1_key_eq by done. unfold low. intros Hd Hm. apply Hne.
  rewrite (Z_div_mod_eq_full i (2 ^ (10 * S top_level))), Hd, Hm.
  by rewrite <- Z_div_mod_eq_full.
Qed.

Lemma low_0 i : i .& (L2_SIZE - 1) = low 0 i.
Proof. unfold low. change (L2_SIZE - 1) with (2 ^ 10 - 1). by rewrite land_low by lia. Qed.

(** ** Behaviour below the first level *)

Lemma find_alloc_from n lp i :
  find_from n (alloc_from n lp i) i =
    Some (default zero_pd (lp ≫= λ p, find_from n p i)).
Proof.
  induction n as [|n IH]; cbn [find_from alloc_from].
  - destruct lp; cbn; [done|]. by rewrite lookup_empty.
  - rewrite lookup_insert_eq, IH. destruct lp as [p|]; cbn.
    + by destruct (p !! l2_key (S n) i).
    + by rewrite lookup_empty.
Qed.

Lemma find_alloc_from_other n lp i j :
  let a := lp ≫= λ p, find_from n p j in
  let b := find_from n (alloc_from n lp i) j in
  b = a ∨ a = None ∧ b = Some zero_pd.
Proof.
  cbv zeta. induction n as [|n IH]; cbn [find_from alloc_from].
  - destruct lp; cbn; [by left|]. rewrite lookup_empty. by right.
  - destruct (decide (l2_key (S n) i = l2_key (S n) j)) as [E|E].
    + rewrite E, lookup_insert_eq. destruct lp as [p|]; cbn.
      * match goal with |- context [alloc_from n ?o i] =>
          destruct (IH o) as [->|(E1 & E2)]; destruct o; cbn in *; auto end.
      * rewrite lookup_empty. destruct (IH None) as [->|(_ & E2)]; cbn in *; [by left|auto].
    + rewrite lookup_insert_ne by done. destruct lp; cbn; [by left|].
      rewrite lookup_empty. by left.
Qed.

Lemma find_store_from n p i j d :
  is_Some (find_from n p i) →
  (low n i = low n j → find_from n (store_from n p i d) j = Some d) ∧
  (low n i ≠ low n j → find_from n (store_from n p i d) j = find_from n p j).
Proof.
  induction n as [|n IH]; cbn [find_from store_from].
  - intros _. rewrite !low_0. split; intros E.
    + by rewrite E, lookup_insert_eq.
    + by rewrite lookup_insert_ne.
  - change (node (S n)) with (gmap Z (node n)) in p.
    destruct (p !! l2_key (S n) i) as [q|] eqn:Eq; [|by intros [? [=]]]. intros Hf.
    rewrite lookup_alter. case_decide as E.
    + rewrite Eq. cbn. destruct (IH q Hf) as [IH1 IH2]. rewrite <- E, Eq. split; intros Hl.
      * apply IH1. unfold low in *. replace (10 * S (S n)) with (10 * S n + 10) in Hl by lia.
        rewrite Z.pow_add_r in Hl by lia.
        apply (f_equal (λ z, z `mod` 2 ^ (10 * S n))) in Hl. revert Hl.
        rewrite !Z.rem_mul_r by lia. rewrite !(Z.mul_comm (2 ^ _)), !Z_mod_plus_full.
        by rewrite !Zmod_mod.
      * apply IH2. intros Hl'. by apply Hl, low_key.
    + split; intros Hl; [|done]. exfalso. apply E. rewrite !l2_key_eq.
      unfold low in Hl. replace (10 * S (S n)) with (10 * S n + 10) in Hl by lia.
      rewrite Z.pow_add_r in Hl by lia.
      apply (f_equal (λ z, z `div` 2 ^ (10 * S n))) in Hl. revert Hl.
      rewrite !Z.rem_mul_r by lia. rewrite !(Z.mul_comm (2 ^ (10 * S n))), !Z.div_add by lia.
      rewrite !Z.mod_div by lia. done.
Qed.

Lemma find_flush_from n p i :
  find_from n (page_flush_tb_1 n p) i = flush_desc <$> find_from n p i.
Proof.
  induction n as [|n IH]; cbn [find_from page_flush_tb_1].
  - change (node 0) with (gmap Z PageDesc) in p. rewrite lookup_fmap. by destruct (p !! (i .& (L2_SIZE - 1))).
  - change (node (S n)) with (gmap Z (node n)) in p. rewrite lookup_fmap.
    destruct (p !! l2_key (S n) i); cbn; [apply IH|done].
Qed.

(** ** The tree implements the interface *)

Lemma find_alloc_same m i :
  valid_index i →
  page_find (page_find_alloc m i true).1 i = Some (default zero_pd (page_find m i)).
Proof.
  intros _. unfold page_find, page_find_alloc, l1_map in *. cbn. rewrite lookup_insert_eq.
  rewrite find_alloc_from. by destruct (m !! l1_key i).
Qed.

Lemma find_alloc_other m i j :
  page_find (page_find_alloc m i true).1 j = page_find m j ∨
  page_find m j = None ∧ page_find (page_find_alloc m i true).1 j = Some zero_pd.
Proof.
  unfold page_find, page_find_alloc, l1_map in *. cbn.
  destruct (decide (l1_key i = l1_key j)) as [->|E].
  - rewrite lookup_insert_eq.
    destruct (find_alloc_from_other top_level (m !! l1_key j) i j) as [->|[E1 E2]];
      destruct (m !! l1_key j); cbn in *; auto.
  - rewrite lookup_insert_ne by done. by left.
Qed.

Lemma find_store m i j d :
  valid_index i → valid_index j → is_Some (page_find m i) →
  page_find (page_store m i d) j = if decide (i = j) then Some d else page_find m j.
Proof.
  intros Hi Hj. unfold page_find, page_find_alloc, page_store, l1_map in *. cbn.
  destruct (m !! l1_key i) as [p|] eqn:Ep; [|by intros [? [=]]]. intros Hf.
  rewrite lookup_alter. destruct (find_store_from top_level p i j d Hf) as [H1 H2].
  case_decide as E; [rewrite Ep; cbn|]; case_decide as E'.
  - subst. by apply H1.
  - rewrite <- E, Ep. by apply H2, low_l1.
  - by subst.
  - done.
Qed.

Lemma find_flush m i : page_find (page_flush_tb m) i = flush_desc <$> page_find m i.
Proof.
  unfold page_find, page_find_alloc, page_flush_tb, l1_map in *. cbn. rewrite lookup_fmap.
  destruct (m !! l1_key i); cbn; [apply find_flush_from|done].
Qed.

Lemma find_empty i : page_find (∅ : l1_map) i = None.
Proof. unfold page_find, page_find_alloc, l1_map. cbn. by rewrite lookup_empty. Qed.

Lemma l2_key_leaf n i j : i `div` 2 ^ 10 = j `div` 2 ^ 10 → l2_key (S n) i = l2_key (S n) j.
Proof.
  intros E. rewrite !l2_key_eq. replace (10 * S n) with (10 + 10 * n) by lia.
  rewrite Z.pow_add_r, <- !Z.div_div by lia. by rewrite E.
Qed.

Lemma find_from_leaf n p i j :
  i `div` 2 ^ 10 = j `div` 2 ^ 10 → is_Some (find_from n p i) → is_Some (find_from n p j).
Proof.
  intros E. induction n as [|n IH]; cbn [find_from]; [eauto|].
  rewrite (l2_key_leaf n i j E). destruct (_ !! l2_key (S n) j); [apply IH|done].
Qed.

Lemma find_leaf m i j :
  valid_index i → valid_index j → i `div` 2 ^ 10 = j `div` 2 ^ 10 →
  is_Some (page_find m i) → is_Some (page_find m j).
Proof.
  intros Hi Hj E. unfold page_find, page_find_alloc, l1_map in *. cbn [snd].
  assert (l1_key i = l1_key j) as ->.
  { rewrite !l1_key_eq by done. replace (10 * S top_level) with (10 + 10 * top_level) by lia.
    rewrite Z.pow_add_r, <- !Z.div_div by lia. by rewrite E. }
  destruct (m !! l1_key j); [by apply find_from_leaf|done].
Qed.

#[export] Instance radix_page_table : PageTable l1_map := {|
  page_empty := (∅ : l1_map);
  PageTable.page_find := page_find;
  page_alloc m i := (page_find_alloc m i true).1;
  PageTable.page_store := page_store;
  PageTable.page_flush_tb := page_flush_tb;
  page_find_empty := find_empty;
  page_find_alloc_same := find_alloc_same;
  page_find_alloc_other m i j _ _ := find_alloc_other m i j;
  page_find_store := find_store;
  page_find_flush := find_flush;
  page_find_leaf := find_leaf
|}.

End radix.
End Radix.

(** ** Properties *)

(** C21 (refinement).  The radix tree behaves as a finite map from the pages of
    the guest address space to descriptors: a descriptor written through the
    pointer [page_find_alloc] returned is what is found at that page, and no
    other page changes, although allocating one page allocates the tables and
    the neighbours on its path. *)
Theorem radix_put_get `{Guest} (m : Radix.l1_map) (i j : Z) (d : PageDesc) :
  valid_index i → valid_index j →
  let m' := Radix.page_store (Radix.page_find_alloc m i true).1 i d in
  Radix.page_find m' i = Some d ∧
  (i ≠ j → default zero_pd (Radix.page_find m' j) = default zero_pd (Radix.page_find m j)).
Proof.
  intros Hi Hj m'. unfold m'.
  rewrite !Radix.find_store; [..|by rewrite Radix.find_alloc_same by done|done|done
    |by rewrite Radix.find_alloc_same by done]; [|done|done].
  split; [by rewrite decide_True|]. intros Hne. rewrite decide_False by done.
  destruct (Radix.find_alloc_other m i j) as [->|[-> ->]]; done.
Qed.

Lemma radix_put_get_witness :
  let m' := @Radix.page_store i386_guest
    (@Radix.page_find_alloc i386_guest ∅ 0x8048 true).1 0x8048 (mkPageDesc None 0 None 8) in
  @Radix.page_find i386_guest m' 0x8048 = Some (mkPageDesc None 0 None 8) ∧
  default zero_pd (@Radix.page_find i386_guest m' 0x8049) = zero_pd.
Proof.
  destruct (@radix_put_get i386_guest ∅ 0x8048 0x8049 (mkPageDesc None 0 None 8)) as [H1 H2];
    [unfold valid_index; simpl; lia..|].
  split; [exact H1|]. rewrite H2 by lia. vm_compute. reflexivity.
Defined.
