(* ===== verification/TBData.v ===== *)
(** * Translation blocks and the state of the execution engine

    The data of exec.c, exec-all.h and cpu-defs.h: [TranslationBlock], the
    part of [CPUState] the block manager and the optimizer use, and the
    global variables of exec.c as one record.  A pointer to a block is its
    index in [tbs]; the tag bits of a pointer of a jump list are a [link]. *)

From stdpp Require Import base gmap list fin_maps.
From S2P Require Import Prelude Config CodePatch PageTable.
Local Open Scope Z_scope.

(** The two low bits of a pointer in a jump list: 0 and 1 select
    [jmp_next[n]], 2 selects [jmp_first]. *)
Inductive link := Lnext (n : slot) | Lfirst.
#[export] Instance link_eq_dec : EqDecision link.
Proof. solve_decision. Defined.

Notation jnode := (tbid * link)%type.

(** [struct ibchain_info]. *)
Record ibchain_info := mkIB {
  ib_jmp_offset : Z;
  num_chain : nat;
  chain : list Z;
  patch_offset : list Z;
  chained_pc : list Z
}.

(** [tb->env]: NULL, a buffer of the block, or what malloc left there. *)
Inductive env_ptr := EnvNull | EnvBuf (contents : list Z) | EnvWild.

(** [if (p) free(p)]: freeing what was never allocated is a fault. *)
Definition free_env (p : env_ptr) : result unit :=
  match p with EnvNull | EnvBuf _ => Ok tt | EnvWild => Er EFault end.

(** [struct TranslationBlock]. *)
Record TranslationBlock := mkTB {
  pc : Z;
  cs_base : Z;
  flags : Z;
  size : Z;
  cflags : Z;
  tc_ptr : Z;
  opt_ptr : Z;
  phys_hash_next : option tbid;
  page_next : arr2 (option pnode);
  page_addr : arr2 Z;
  tb_next_offset : arr2 Z;
  tb_jmp_offset : arr2 Z;
  jmp_next : arr2 (option jnode);
  jmp_first : option jnode;
  icount : Z;
  ibchain : ibchain_info;
  mode : Z;
  invalidated : Z;
  tb_gen_pending : Z;
  exec_count : Z;
  patch_next : Z;
  jmp_pc : arr2 Z;
  tb_env : env_ptr
}.

#[export] Instance eta_TranslationBlock : Eta (TranslationBlock) := λ r,
  mkTB (pc r) (cs_base r) (flags r) (size r) (cflags r) (tc_ptr r) (opt_ptr r)
    (phys_hash_next r) (page_next r) (page_addr r) (tb_next_offset r) (tb_jmp_offset r)
    (jmp_next r) (jmp_first r) (icount r) (ibchain r) (mode r) (invalidated r)
    (tb_gen_pending r) (exec_count r) (patch_next r) (jmp_pc r) (tb_env r).
#[export] Instance upd_pc : Setter pc := ltac:(mk_setter).
#[export] Instance upd_cs_base : Setter cs_base := ltac:(mk_setter).
#[export] Instance upd_flags : Setter flags := ltac:(mk_setter).
#[export] Instance upd_size : Setter size := ltac:(mk_setter).
#[export] Instance upd_cflags : Setter cflags := ltac:(mk_setter).
#[export] Instance upd_tc_ptr : Setter tc_ptr := ltac:(mk_setter).
#[export] Instance upd_opt_ptr : Setter opt_ptr := ltac:(mk_setter).
#[export] Instance upd_phys_hash_next : Setter phys_hash_next := ltac:(mk_setter).
#[export] Instance upd_page_next : Setter page_next := ltac:(mk_setter).
#[export] Instance upd_page_addr : Setter page_addr := ltac:(mk_setter).
#[export] Instance upd_tb_next_offset : Setter tb_next_offset := ltac:(mk_setter).
#[export] Instance upd_tb_jmp_offset : Setter tb_jmp_offset := ltac:(mk_setter).
#[export] Instance upd_jmp_next : Setter jmp_next := ltac:(mk_setter).
#[export] Instance upd_jmp_first : Setter jmp_first := ltac:(mk_setter).
#[export] Instance upd_icount : Setter icount := ltac:(mk_setter).
#[export] Instance upd_ibchain : Setter ibchain := ltac:(mk_setter).
#[export] Instance upd_mode : Setter mode := ltac:(mk_setter).
#[export] Instance upd_invalidated : Setter invalidated := ltac:(mk_setter).
#[export] Instance upd_tb_gen_pending : Setter tb_gen_pending := ltac:(mk_setter).
#[export] Instance upd_exec_count : Setter exec_count := ltac:(mk_setter).
#[export] Instance upd_patch_next : Setter patch_next := ltac:(mk_setter).
#[export] Instance upd_jmp_pc : Setter jmp_pc := ltac:(mk_setter).
#[export] Instance upd_tb_env : Setter tb_env := ltac:(mk_setter).

(** [struct jmp_pair] of llvm/optimization.h: an IBTC entry. *)
Record jmp_pair := mkPair { jp_eip : Z; jp_tb : option tbid }.

Record CPUBreakpoint := mkBP { bp_pc : Z; bp_flags : Z }.
#[export] Instance CPUBreakpoint_eq_dec : EqDecision CPUBreakpoint.
Proof. solve_decision. Defined.

(** The fields of [CPUState] (CPU_COMMON) used here; [guest_regs] is what
    [cpu_get_tb_cpu_state] reads: the pc, cs_base and flags of the guest. *)
Record CPUState := mkCPU {
  cpu_index : Z;
  current_tb : option tbid;
  mem_io_pc : Z;
  interrupt_request : Z;
  exit_request : Z;
  icount_high : Z;
  tb_jmp_cache : gmap Z tbid;
  breakpoints : list CPUBreakpoint;
  singlestep_enabled : Z;
  exception_index : Z;
  start_trace_prediction : Z;
  predicted_count : nat;
  predicted_tb : list tbid;
  ibtc : gmap Z jmp_pair;
  update_ibtc : Z;
  cached_eip : Z;
  cached_tb : Z;
  guest_regs : Z * Z * Z
}.

#[export] Instance eta_CPUState : Eta (CPUState) := λ r,
  mkCPU (cpu_index r) (current_tb r) (mem_io_pc r) (interrupt_request r) (exit_request r)
    (icount_high r) (tb_jmp_cache r) (breakpoints r) (singlestep_enabled r)
    (exception_index r) (start_trace_prediction r) (predicted_count r) (predicted_tb r)
    (ibtc r) (update_ibtc r) (cached_eip r) (cached_tb r) (guest_regs r).
#[export] Instance upd_cpu_index : Setter cpu_index := ltac:(mk_setter).
#[export] Instance upd_current_tb : Setter current_tb := ltac:(mk_setter).
#[export] Instance upd_mem_io_pc : Setter mem_io_pc := ltac:(mk_setter).
#[export] Instance upd_interrupt_request : Setter interrupt_request := ltac:(mk_setter).
#[export] Instance upd_exit_request : Setter exit_request := ltac:(mk_setter).
#[export] Instance upd_icount_high : Setter icount_high := ltac:(mk_setter).
#[export] Instance upd_tb_jmp_cache : Setter tb_jmp_cache := ltac:(mk_setter).
#[export] Instance upd_breakpoints : Setter breakpoints := ltac:(mk_setter).
#[export] Instance upd_singlestep_enabled : Setter singlestep_enabled := ltac:(mk_setter).
#[export] Instance upd_exception_index : Setter exception_index := ltac:(mk_setter).
#[export] Instance upd_start_trace_prediction : Setter start_trace_prediction := ltac:(mk_setter).
#[export] Instance upd_predicted_count : Setter predicted_count := ltac:(mk_setter).
#[export] Instance upd_predicted_tb : Setter predicted_tb := ltac:(mk_setter).
#[export] Instance upd_ibtc : Setter ibtc := ltac:(mk_setter).
#[export] Instance upd_update_ibtc : Setter update_ibtc := ltac:(mk_setter).
#[export] Instance upd_cached_eip : Setter cached_eip := ltac:(mk_setter).
#[export] Instance upd_cached_tb : Setter cached_tb := ltac:(mk_setter).
#[export] Instance upd_guest_regs : Setter guest_regs := ltac:(mk_setter).

(** The global variables of exec.c, the code cache and the protection of the
    host pages. [cpus] is the list from [first_cpu]. *)
Record exec_state {PT : Type} := mkExec {
  tbs : list TranslationBlock;
  nb_tbs : nat;
  code_gen_max_blocks : nat;
  code_gen_buffer : Z;
  code_gen_buffer_size : Z;
  code_gen_buffer_max_size : Z;
  code_gen_ptr : Z;
  tb_phys_hash : gmap Z tbid;
  l1_map : PT;
  cpus : list CPUState;
  cpu_single_env : option nat;
  host_code : bytes;
  host_prot : gmap Z Z;
  qemu_host_page_size : Z;
  tb_invalidated_flag : Z;
  tb_flush_version : Z;
  tb_flush_count : Z;
  tb_phys_invalidate_count : Z;
  llvm_flush : Z;
  use_icount : Z
}.
Arguments exec_state PT : clear implicits.
Arguments mkExec {PT}.

#[export] Instance eta_exec_state {PT} : Eta (exec_state PT) := λ r,
  mkExec (tbs r) (nb_tbs r) (code_gen_max_blocks r) (code_gen_buffer r) (code_gen_buffer_size
    r) (code_gen_buffer_max_size r) (code_gen_ptr r) (tb_phys_hash r) (l1_map r) (cpus r)
    (cpu_single_env r) (host_code r) (host_prot r) (qemu_host_page_size r)
    (tb_invalidated_flag r) (tb_flush_version r) (tb_flush_count r)
    (tb_phys_invalidate_count r) (llvm_flush r) (use_icount r).
#[export] Instance upd_tbs {PT} : Setter (@tbs PT) := ltac:(mk_setter).
#[export] Instance upd_nb_tbs {PT} : Setter (@nb_tbs PT) := ltac:(mk_setter).
#[export] Instance upd_code_gen_max_blocks {PT} : Setter (@code_gen_max_blocks PT) := ltac:(mk_setter).
#[export] Instance upd_code_gen_buffer {PT} : Setter (@code_gen_buffer PT) := ltac:(mk_setter).
#[export] Instance upd_code_gen_buffer_size {PT} : Setter (@code_gen_buffer_size PT) := ltac:(mk_setter).
#[export] Instance upd_code_gen_buffer_max_size {PT} : Setter (@code_gen_buffer_max_size PT) := ltac:(mk_setter).
#[export] Instance upd_code_gen_ptr {PT} : Setter (@code_gen_ptr PT) := ltac:(mk_setter).
#[export] Instance upd_tb_phys_hash {PT} : Setter (@tb_phys_hash PT) := ltac:(mk_setter).
#[export] Instance upd_l1_map {PT} : Setter (@l1_map PT) := ltac:(mk_setter).
#[export] Instance upd_cpus {PT} : Setter (@cpus PT) := ltac:(mk_setter).
#[export] Instance upd_cpu_single_env {PT} : Setter (@cpu_single_env PT) := ltac:(mk_setter).
#[export] Instance upd_host_code {PT} : Setter (@host_code PT) := ltac:(mk_setter).
#[export] Instance upd_host_prot {PT} : Setter (@host_prot PT) := ltac:(mk_setter).
#[export] Instance upd_qemu_host_page_size {PT} : Setter (@qemu_host_page_size PT) := ltac:(mk_setter).
#[export] Instance upd_tb_invalidated_flag {PT} : Setter (@tb_invalidated_flag PT) := ltac:(mk_setter).
#[export] Instance upd_tb_flush_version {PT} : Setter (@tb_flush_version PT) := ltac:(mk_setter).
#[export] Instance upd_tb_flush_count {PT} : Setter (@tb_flush_count PT) := ltac:(mk_setter).
#[export] Instance upd_tb_phys_invalidate_count {PT} : Setter (@tb_phys_invalidate_count PT) := ltac:(mk_setter).
#[export] Instance upd_llvm_flush {PT} : Setter (@llvm_flush PT) := ltac:(mk_setter).
#[export] Instance upd_use_icount {PT} : Setter (@use_icount PT) := ltac:(mk_setter).
