(* ===== verification/TBOps.v ===== *)
(** * The translation block manager

    The operations of exec.c and exec-all.h on translation blocks (the lists
    they are threaded on, allocation, linking, chaining, invalidation and
    flushing), and the lookups of cpu-exec.c, as functions on [exec_state]. *)

From stdpp Require Import base gmap list fin_maps.
From S2P Require Import Prelude Chain Config CodePatch PageTable TBData.
Local Open Scope Z_scope.
Local Coercion Z.of_nat : nat >-> Z.

(** What [cpu_gen_code] leaves in the block and in the code cache.  The
    translator itself is a parameter: a function of the address the code is
    generated at. *)
Record gen_info := mkGen {
  gi_size : Z;
  gi_icount : Z;
  gi_patch_next : Z;
  gi_next_offset : arr2 Z;
  gi_jmp_offset : arr2 Z;
  gi_code : list Z
}.

Section ops.
  Context `{Guest} `{!PageTable PT}.
  Notation st := (exec_state PT).
  Implicit Types (s : st) (t : tbid) (tb : TranslationBlock) (n : slot).

(** ** Access to the blocks *)

Definition get_tb s t : result TranslationBlock := deref (tbs s !! t).
Definition upd_tb s t (f : TranslationBlock → TranslationBlock) : st :=
  s <| tbs := alter f t (tbs s) |>.

(** The loops over the lists visit each link at most once: there are two
    links per block in a page list, and a jump list also visits the head. *)
Definition loop_fuel s : nat := (2 * length (tbs s) + 2)%nat.

(** *** Cells of the hash lists: a bucket or the link of a block *)
Notation hcell := (Z + tbid)%type.
Definition rd_hash s (c : hcell) : result (option tbid) :=
  match c with
  | inl h => Ok (tb_phys_hash s !! h)
  | inr t => tb <- get_tb s t ;; Ok (phys_hash_next tb)
  end.
Definition wr_hash s (c : hcell) (v : option tbid) : st :=
  match c with
  | inl h => s <| tb_phys_hash := partial_alter (λ _, v) h (tb_phys_hash s) |>
  | inr t => upd_tb s t (λ tb, tb <| phys_hash_next := v |>)
  end.

(** *** Cells of the page lists: [first_tb] of a page or a link of a block *)
Notation pcell := (Z + pnode)%type.
Definition rd_page s (c : pcell) : result (option pnode) :=
  match c with
  | inl i => p <- deref (page_find (l1_map s) i) ;; Ok (first_tb p)
  | inr (t, n) => tb <- get_tb s t ;; Ok (get2 (page_next tb) n)
  end.
Definition upd_page s (i : Z) (f : PageDesc → PageDesc) : st :=
  match page_find (l1_map s) i with
  | Some p => s <| l1_map := page_store (l1_map s) i (f p) |>
  | None => s
  end.
Definition wr_page s (c : pcell) (v : option pnode) : st :=
  match c with
  | inl i => upd_page s i (set_first_tb v)
  | inr (t, n) => upd_tb s t (λ tb, tb <| page_next := set2 (page_next tb) n v |>)
  end.

(** *** Cells of the jump lists *)
Definition rd_jmp s (c : jnode) : result (option jnode) :=
  tb <- get_tb s c.1 ;;
  Ok (match c.2 with Lnext n => get2 (jmp_next tb) n | Lfirst => jmp_first tb end).
Definition wr_jmp s (c : jnode) (v : option jnode) : st :=
  upd_tb s c.1 (λ tb, match c.2 with
    | Lnext n => tb <| jmp_next := set2 (jmp_next tb) n v |>
    | Lfirst => tb <| jmp_first := v |>
    end).

(** ** Native jumps *)

Definition tb_set_jmp_target s t n (addr : Z) : result st :=
  tb <- get_tb s t ;;
  let offset := get2 (tb_jmp_offset tb) n in
  Ok (s <| host_code := tb_set_jmp_target1 (host_code s) (tc_ptr tb + offset) addr |>).

Definition tb_reset_jump s t n : result st :=
  tb <- get_tb s t ;;
  tb_set_jmp_target s t n (tc_ptr tb + get2 (tb_next_offset tb) n).

Definition tb_add_jump s t n (tb_next : tbid) : result st :=
  tb <- get_tb s t ;;
  match get2 (jmp_next tb) n with
  | Some _ => Ok s
  | None =>
      tbn <- get_tb s tb_next ;;
      s <- tb_set_jmp_target s t n (tc_ptr tbn) ;;
      p <- rd_jmp s (tb_next, Lfirst) ;;
      let s := wr_jmp s (t, Lnext n) p in
      Ok (wr_jmp s (tb_next, Lfirst) (Some (t, Lnext n)))
  end.

(** ** Removal from the lists *)

Definition tb_remove s (h : Z) t : result st :=
  '(c, t1) <- find_cell (rd_hash s) inr (λ t1, bool_decide (t1 = t)) (loop_fuel s) (inl h) ;;
  v <- rd_hash s (inr t1) ;;
  Ok (wr_hash s c v).

Definition tb_page_remove s (i : Z) t : result st :=
  '(c, y) <- find_cell (rd_page s) inr (λ y, bool_decide (y.1 = t)) (loop_fuel s) (inl i) ;;
  v <- rd_page s (inr y) ;;
  Ok (wr_page s c v).

Definition tb_jmp_remove s t n : result st :=
  p <- rd_jmp s (t, Lnext n) ;;
  match p with
  | None => Ok s
  | Some _ =>
      (* find tb(n) in circular list *)
      '(c, _) <- find_cell (rd_jmp s) id (λ y, bool_decide (y = (t, Lnext n)))
                   (loop_fuel s) (t, Lnext n) ;;
      (* now we can suppress tb(n) from the list *)
      v <- rd_jmp s (t, Lnext n) ;;
      let s := wr_jmp s c v in
      Ok (wr_jmp s (t, Lnext n) None)
  end.

(** ** Invalidation *)

Definition tb_phys_pc tb : Z := tul (at0 (page_addr tb) + page_off (pc tb)).

(** Take the block off the list of its page [n], unless that page is
    [skip]. *)
Definition tb_unlink_page s t (addr skip : Z) : result st :=
  if addr =? skip then Ok s
  else
    let i := page_index addr in
    _ <- deref (page_find (l1_map s) i) ;;
    s <- tb_page_remove s i t ;;
    Ok (upd_page s i invalidate_page_bitmap).

Definition jmp_cache_clear (h : Z) t (env : CPUState) : CPUState :=
  if bool_decide (tb_jmp_cache env !! h = Some t)
  then env <| tb_jmp_cache := delete h (tb_jmp_cache env) |> else env.

(** The loop that unchains the blocks jumping to the invalidated one. *)
Fixpoint tb_unchain (fuel : nat) s (tb1 : option jnode) : result st :=
  match fuel with
  | O => Er EFuel
  | S fuel' =>
      match tb1 with
      | None => Er EFault
      | Some (_, Lfirst) => Ok s
      | Some (t1, Lnext n1) =>
          tb2 <- rd_jmp s (t1, Lnext n1) ;;
          s <- tb_reset_jump s t1 n1 ;;
          tb_unchain fuel' (wr_jmp s (t1, Lnext n1) None) tb2
      end
  end.

Definition tb_phys_invalidate s t (page_addr_ : Z) : result st :=
  tb <- get_tb s t ;;
  (* remove the TB from the hash list *)
  let h := tb_phys_hash_func (tb_phys_pc tb) in
  s <- tb_remove s h t ;;
  (* remove the TB from the page list *)
  s <- tb_unlink_page s t (at0 (page_addr tb)) page_addr_ ;;
  s <- (if at1 (page_addr tb) =? no_page then Ok s
        else tb_unlink_page s t (at1 (page_addr tb)) page_addr_) ;;
  let s := s <| tb_invalidated_flag := 1 |> in
  (* remove the TB from the hash list *)
  let s := s <| cpus := jmp_cache_clear (tb_jmp_cache_hash_func (pc tb)) t <$> cpus s |> in
  (* suppress this TB from the two jump lists *)
  s <- tb_jmp_remove s t S0 ;;
  s <- tb_jmp_remove s t S1 ;;
  (* suppress any remaining jumps to this TB *)
  tb1 <- rd_jmp s (t, Lfirst) ;;
  s <- tb_unchain (loop_fuel s) s tb1 ;;
  let s := wr_jmp s (t, Lfirst) (Some (t, Lfirst)) in (* fail safe *)
  Ok (s <| tb_phys_invalidate_count := tb_phys_invalidate_count s + 1 |>).

(** ** Allocation and linking *)

(** [llvm_check_flush] (CONFIG_HYBRID). *)
Definition llvm_check_flush s : bool := llvm_flush s =? 1.

Definition tb_alloc s (pc_ : Z) : result (st * option tbid) :=
  if bool_decide (code_gen_max_blocks s ≤ nb_tbs s)%nat
     || (code_gen_buffer_max_size s <=? code_gen_ptr s - code_gen_buffer s)
     || llvm_check_flush s
  then Ok (s, None)
  else
    let t := nb_tbs s in
    tb <- get_tb s t ;;
    _ <- free_env (tb_env tb) ;;
    let s := s <| nb_tbs := S (nb_tbs s) |> in
    Ok (upd_tb s t (λ tb, tb <| pc := pc_ |> <| cflags := 0 |>
          <| ibchain := mkIB 0xffff 0 [] (patch_offset (ibchain tb)) (chained_pc (ibchain tb)) |>
          <| mode := 0 |> <| tb_gen_pending := 0 |> <| invalidated := 0 |>
          <| jmp_pc := A2 (tul (-1)) (tul (-1)) |>
          <| exec_count := 0 |> <| opt_ptr := 0 |> <| tb_env := EnvNull |>), Some t).

Definition tb_free s t : result st :=
  if bool_decide (0 < nb_tbs s)%nat && bool_decide (t = nb_tbs s - 1)%nat then
    tb <- get_tb s t ;;
    Ok (s <| code_gen_ptr := tc_ptr tb |> <| nb_tbs := (nb_tbs s - 1)%nat |>)
  else Ok s.

(** The loop of [tb_alloc_page] that write-protects the target pages of one
    host page and collects their flags. *)
Fixpoint protect_pages (fuel : nat) s (addr end_ prot : Z) : result (st * Z) :=
  match fuel with
  | O => Er EFuel
  | S fuel' =>
      if addr <? end_ then
        let next := tul (addr + TARGET_PAGE_SIZE) in
        match page_find (l1_map s) (page_index addr) with
        | None => protect_pages fuel' s next end_ prot
        | Some p2 =>
            protect_pages fuel'
              (upd_page s (page_index addr) (set_pflags (pflags p2 .& .~ PAGE_WRITE)))
              next end_ (prot .| pflags p2)
        end
      else Ok (s, prot)
  end.

Definition host_page_base s (addr : Z) : Z := addr .& .~ (qemu_host_page_size s - 1).
Definition host_pages s : nat := Z.to_nat (qemu_host_page_size s `div` TARGET_PAGE_SIZE).

Definition tb_alloc_page s t n (page_addr_ : Z) : result st :=
  _ <- get_tb s t ;;
  let s := upd_tb s t (λ tb, tb <| page_addr := set2 (page_addr tb) n page_addr_ |>) in
  let i := page_index page_addr_ in
  let s := s <| l1_map := page_alloc (l1_map s) i |> in
  p <- deref (page_find (l1_map s) i) ;;
  let s := wr_page s (inr (t, n)) (first_tb p) in
  let s := wr_page s (inl i) (Some (t, n)) in
  let s := upd_page s i invalidate_page_bitmap in
  if pflags p .& PAGE_WRITE =? 0 then Ok s
  else
    (* force the host page as non writable *)
    let base := host_page_base s page_addr_ in
    '(s, prot) <- protect_pages (S (host_pages s)) s base (u64 (base + qemu_host_page_size s)) 0 ;;
    Ok (s <| host_prot := <[base := (prot .& PAGE_BITS) .& .~ PAGE_WRITE]> (host_prot s) |>).

Definition tb_link_page s t (phys_pc phys_page2 : Z) : result st :=
  _ <- get_tb s t ;;
  (* add in the physical hash table *)
  let h := tb_phys_hash_func phys_pc in
  let s := wr_hash s (inr t) (tb_phys_hash s !! h) in
  let s := wr_hash s (inl h) (Some t) in
  (* add in the page list *)
  s <- tb_alloc_page s t S0 (phys_pc .& TARGET_PAGE_MASK) ;;
  s <- (if phys_page2 =? no_page
        then Ok (upd_tb s t (λ tb, tb <| page_addr := set2 (page_addr tb) S1 no_page |>))
        else tb_alloc_page s t S1 phys_page2) ;;
  let s := wr_jmp s (t, Lfirst) (Some (t, Lfirst)) in
  let s := wr_jmp s (t, Lnext S0) None in
  let s := wr_jmp s (t, Lnext S1) None in
  (* init original jump addresses *)
  tb <- get_tb s t ;;
  s <- (if at0 (tb_next_offset tb) =? 0xffff then Ok s else tb_reset_jump s t S0) ;;
  (if at1 (tb_next_offset tb) =? 0xffff then Ok s else tb_reset_jump s t S1).

(** ** Flushing *)

Definition ibtc_reset (env : CPUState) : CPUState :=
  env <| ibtc := ∅ |> <| update_ibtc := 0 |> <| cached_eip := 0 |>.

(** [optimization_reset] and [llvm_tb_flush] (as far as the state here goes:
    the flush request is acknowledged) are part of the flush. *)
Definition tb_flush s (env1 : nat) : result st :=
  if code_gen_buffer_size s <? code_gen_ptr s - code_gen_buffer s then Er EAbort
  else
    let s := s <| tb_flush_version := tb_flush_version s + 1 |> in
    let s := s <| cpus := alter ibtc_reset env1 (cpus s) |> in
    let s := s <| llvm_flush := 0 |> in
    let s := s <| nb_tbs := 0%nat |> in
    let s := s <| cpus := (λ env, env <| tb_jmp_cache := ∅ |>) <$> cpus s |> in
    let s := s <| tb_phys_hash := ∅ |> in
    let s := s <| l1_map := page_flush_tb (l1_map s) |> in
    let s := s <| code_gen_ptr := code_gen_buffer s |> in
    Ok (s <| tb_flush_count := tb_flush_count s + 1 |>).

(** ** Code generation *)

Definition cpu_gen_code s t (gen : Z → gen_info) : result (st * Z) :=
  tb <- get_tb s t ;;
  let gi := gen (tc_ptr tb) in
  let s := upd_tb s t (λ tb, tb <| size := gi_size gi |> <| icount := gi_icount gi |>
             <| patch_next := gi_patch_next gi |>
             <| tb_next_offset := gi_next_offset gi |>
             <| tb_jmp_offset := gi_jmp_offset gi |>) in
  Ok (s <| host_code := store_bytes (host_code s) (tc_ptr tb) (gi_code gi) |>,
      Z.of_nat (length (gi_code gi))).

(** [get_page_addr_code] (CONFIG_USER_ONLY). *)
Definition get_page_addr_code (addr : Z) : Z := addr.

Definition tb_gen_code (gen : Z → gen_info) s (env : nat) (pc_ cs_base_ flags_ cflags_ : Z)
    : result (st * tbid) :=
  let phys_pc := get_page_addr_code pc_ in
  '(s, o) <- tb_alloc s pc_ ;;
  '(s, t) <- (match o with
    | Some t => Ok (s, t)
    | None =>
        (* flush must be done *)
        s <- tb_flush s env ;;
        (* cannot fail at this point *)
        '(s, o) <- tb_alloc s pc_ ;;
        t <- deref o ;;
        Ok (s <| tb_invalidated_flag := 1 |>, t)
    end) ;;
  let tcp := code_gen_ptr s in
  let s := upd_tb s t (λ tb, tb <| tc_ptr := tcp |> <| opt_ptr := tcp |>
             <| cs_base := cs_base_ |> <| flags := u64 flags_ |> <| cflags := cflags_ |>) in
  '(s, code_gen_size) <- cpu_gen_code s t gen ;;
  let s := s <| code_gen_ptr :=
     (code_gen_ptr s + code_gen_size + CODE_GEN_ALIGN - 1) .& .~ (CODE_GEN_ALIGN - 1) |> in
  tb <- get_tb s t ;;
  (* check next page if needed *)
  let virt_page2 := tul (pc_ + size tb - 1) .& TARGET_PAGE_MASK in
  let phys_page2 := if pc_ .& TARGET_PAGE_MASK =? virt_page2 then no_page
                    else get_page_addr_code virt_page2 in
  s <- tb_link_page s t phys_pc phys_page2 ;;
  Ok (s, t).

(** ** Lookup *)

(** [tb_get_jmp_entry] and [tb_start_trace_profile] (TCG_TARGET_I386). *)
Definition tb_get_jmp_entry tb : Z := tc_ptr tb + 3.
Definition tb_get_jmp_next tb : Z := tc_ptr tb + patch_next tb.

Definition tb_start_trace_profile s t : result st :=
  tb <- get_tb s t ;;
  if mode tb =? 1 then Ok s
  else
    (* llvm_testandset *)
    let s := if mode tb =? 0 then upd_tb s t (λ tb, tb <| mode := 1 |>) else s in
    let jmp_addr := tb_get_jmp_entry tb in
    Ok (s <| host_code := patch_jmp (host_code s) jmp_addr (jmp_addr + 5) |>).

(** The test of the loop of [tb_find_slow]. *)
Definition tb_matches tb (pc_ cs_base_ flags_ : Z) : bool :=
  let phys_page1 := get_page_addr_code pc_ .& TARGET_PAGE_MASK in
  (pc tb =? pc_) && (at0 (page_addr tb) =? phys_page1) &&
  (cs_base tb =? cs_base_) && (flags tb =? u64 flags_) &&
  (if at1 (page_addr tb) =? no_page then true
   else
     let virt_page2 := tul ((pc_ .& TARGET_PAGE_MASK) + TARGET_PAGE_SIZE) in
     at1 (page_addr tb) =? get_page_addr_code virt_page2).

Fixpoint hash_search (fuel : nat) s (ptb1 : option tbid) (pc_ cs_base_ flags_ : Z)
    : result (option tbid) :=
  match fuel with
  | O => Er EFuel
  | S fuel' =>
      match ptb1 with
      | None => Ok None
      | Some t =>
          tb <- get_tb s t ;;
          if tb_matches tb pc_ cs_base_ flags_ then Ok (Some t)
          else hash_search fuel' s (phys_hash_next tb) pc_ cs_base_ flags_
      end
  end.

Definition set_jmp_cache s (env : nat) (h : Z) t : st :=
  s <| cpus := alter (λ e, e <| tb_jmp_cache := <[h := t]> (tb_jmp_cache e) |>) env (cpus s) |>.

Definition tb_find_slow (gen : Z → gen_info) s (env : nat) (pc_ cs_base_ flags_ : Z)
    : result (st * tbid) :=
  let s := s <| tb_invalidated_flag := 0 |> in
  let phys_pc := get_page_addr_code pc_ in
  let h := tb_phys_hash_func phys_pc in
  o <- hash_search (loop_fuel s) s (tb_phys_hash s !! h) pc_ cs_base_ flags_ ;;
  '(s, t) <- (match o with
    | Some t =>
        tb <- get_tb s t ;;
        s <- (if mode tb =? 0 then tb_start_trace_profile s t else Ok s) ;;
        Ok (s, t)
    | None => tb_gen_code gen s env pc_ cs_base_ flags_ 0
    end) ;;
  (* we add the TB in the virtual pc hash table *)
  Ok (set_jmp_cache s env (tb_jmp_cache_hash_func pc_) t, t).

Definition tb_find_fast (gen : Z → gen_info) s (env : nat) : result (st * tbid) :=
  e <- deref (cpus s !! env) ;;
  let '(pc_, cs_base_, flags_) := guest_regs e in
  match tb_jmp_cache e !! tb_jmp_cache_hash_func pc_ with
  | None => tb_find_slow gen s env pc_ cs_base_ flags_
  | Some t =>
      tb <- get_tb s t ;;
      if (pc tb =? pc_) && (cs_base tb =? cs_base_) && (flags tb =? u64 flags_) then
        s <- (if mode tb =? 0 then tb_start_trace_profile s t else Ok s) ;;
        Ok (s, t)
      else tb_find_slow gen s env pc_ cs_base_ flags_
  end.

(** ** Binary search over the code cache *)

Fixpoint find_pc_loop (fuel : nat) s (tcp m_min m_max : Z) : result tbid :=
  match fuel with
  | O => Er EFuel
  | S fuel' =>
      if m_min <=? m_max then
        let m := (m_min + m_max) >>. 1 in
        tb <- get_tb s (Z.to_nat m) ;;
        let v := tc_ptr tb in
        if v =? tcp then Ok (Z.to_nat m)
        else if tcp <? v then find_pc_loop fuel' s tcp m_min (m - 1)
        else find_pc_loop fuel' s tcp (m + 1) m_max
      else if m_max <? 0 then Er EFault else Ok (Z.to_nat m_max)
  end.

Definition tb_find_pc s (tcp : Z) : result (option tbid) :=
  if bool_decide (nb_tbs s = 0)%nat then Ok None
  else if (tcp <? code_gen_buffer s) || (code_gen_ptr s <=? tcp) then Ok None
  else t <- find_pc_loop (S (nb_tbs s)) s tcp 0 (Z.of_nat (nb_tbs s) - 1) ;; Ok (Some t).

(** ** Unchaining of the running block *)

(** The head of the jump list that contains the link [p]. *)
Fixpoint jmp_list_head (fuel : nat) s (p : option jnode) : result tbid :=
  match fuel with
  | O => Er EFuel
  | S fuel' =>
      match p with
      | None => Er EFault
      | Some (t1, Lfirst) => Ok t1
      | Some (t1, Lnext n1) => p <- rd_jmp s (t1, Lnext n1) ;; jmp_list_head fuel' s p
      end
  end.

Definition tb_reset_jump_recursive2 (tb_reset_jump_recursive : st → tbid → result st)
    s t n : result st :=
  p <- rd_jmp s (t, Lnext n) ;;
  match p with
  | None => Ok s
  | Some _ =>
      (* find head of list *)
      tb_next <- jmp_list_head (loop_fuel s) s p ;;
      (* remove tb from the jmp_first list *)
      '(c, _) <- find_cell (rd_jmp s) id (λ y, bool_decide (y = (t, Lnext n)))
                   (loop_fuel s) (tb_next, Lfirst) ;;
      v <- rd_jmp s (t, Lnext n) ;;
      let s := wr_jmp s c v in
      let s := wr_jmp s (t, Lnext n) None in
      (* suppress the jump to next tb in generated code *)
      s <- tb_reset_jump s t n ;;
      (* suppress jumps in the tb on which we could have jumped *)
      tb_reset_jump_recursive s tb_next
  end.

Fixpoint tb_reset_jump_recursive (fuel : nat) s t : result st :=
  match fuel with
  | O => Er EFuel
  | S fuel' =>
      s <- tb_reset_jump_recursive2 (tb_reset_jump_recursive fuel') s t S0 ;;
      tb_reset_jump_recursive2 (tb_reset_jump_recursive fuel') s t S1
  end.

Definition cpu_unlink_tb s (env : nat) : result st :=
  e <- deref (cpus s !! env) ;;
  match current_tb e with
  | None => Ok s
  | Some t =>
      let s := s <| cpus := alter (λ e, e <| current_tb := None |>) env (cpus s) |> in
      tb_reset_jump_recursive (loop_fuel s) s t
  end.

Definition cpu_interrupt s (env : nat) (mask : Z) : result st :=
  let s := s <| cpus := alter (λ e, e <| interrupt_request := interrupt_request e .| mask |>)
                  env (cpus s) |> in
  if use_icount s =? 0 then cpu_unlink_tb s env
  else Ok (s <| cpus := alter (λ e, e <| icount_high := 0xffff |>) env (cpus s) |>).

Definition cpu_reset_interrupt s (env : nat) (mask : Z) : st :=
  s <| cpus := alter (λ e, e <| interrupt_request := interrupt_request e .& .~ mask |>)
         env (cpus s) |>.

Definition cpu_exit s (env : nat) : result st :=
  cpu_unlink_tb (s <| cpus := alter (λ e, e <| exit_request := 1 |>) env (cpus s) |>) env.

End ops.
