(* ===== verification/SMC.v ===== *)
(** * Self-modifying code

    Invalidation of the translated code of a range of guest memory
    ([tb_invalidate_phys_page_range], [tb_invalidate_phys_page_fast],
    [tb_invalidate_phys_page]) and the page flags that write-protect the pages
    with code ([page_set_flags], [page_check_range], [page_unprotect]). *)

From stdpp Require Import base gmap list fin_maps.
From S2P Require Import Prelude Chain Config CodePatch Bitmap PageTable TBData TBOps.
Local Open Scope Z_scope.
Local Coercion Z.of_nat : nat >-> Z.

Definition SMC_BITMAP_USE_THRESHOLD : Z := 10.

(** Whether a function returns to its caller or long-jumps to the main loop
    ([cpu_resume_from_signal]). *)
Inductive flow := Return | Longjmp.

(** The local variables of the precise self-modifying-code support. *)
Record smc := mkSmc {
  current_tb_not_found : bool;
  smc_current_tb : option tbid;
  current_tb_modified : bool;
  current_state : Z * Z * Z
}.
#[export] Instance eta_smc : Eta smc := λ r,
  mkSmc (current_tb_not_found r) (smc_current_tb r) (current_tb_modified r) (current_state r).
#[export] Instance upd_current_tb_not_found : Setter current_tb_not_found := ltac:(mk_setter).
#[export] Instance upd_smc_current_tb : Setter smc_current_tb := ltac:(mk_setter).
#[export] Instance upd_current_tb_modified : Setter current_tb_modified := ltac:(mk_setter).
#[export] Instance upd_current_state : Setter current_state := ltac:(mk_setter).

Section smc.
  Context `{Guest} `{!PageTable PT}.
  Notation st := (exec_state PT).
  Implicit Types (s : st) (t : tbid) (tb : TranslationBlock) (n : slot).

  (** The translator: code generation, and [cpu_restore_state], which computes
      the guest registers for a host pc inside a block. *)
  Context (gen : Z → gen_info) (restore : TranslationBlock → Z → Z * Z * Z → Z * Z * Z).

Definition upd_cpu s (e : nat) (f : CPUState → CPUState) : st := s <| cpus := alter f e (cpus s) |>.

(** ** The code bitmap *)

(** The part of page [n] of a block that is code. *)
Definition tb_page_range tb n : Z * Z :=
  match n with
  | S0 =>
      let tb_start := page_off (pc tb) in
      let tb_end := tb_start + size tb in
      (tb_start, if TARGET_PAGE_SIZE <? tb_end then TARGET_PAGE_SIZE else tb_end)
  | S1 => (0, page_off (tul (pc tb + size tb)))
  end.

Fixpoint page_bitmap_loop (fuel : nat) s (tab : list Z) (y : option pnode) : result (list Z) :=
  match fuel with
  | O => Er EFuel
  | S fuel' =>
      match y with
      | None => Ok tab
      | Some (t, n) =>
          tb <- get_tb s t ;;
          let '(tb_start, tb_end) := tb_page_range tb n in
          tab <- set_bits tab tb_start (tb_end - tb_start) ;;
          page_bitmap_loop fuel' s tab (get2 (page_next tb) n)
      end
  end.

Definition empty_bitmap : list Z := replicate (Z.to_nat (TARGET_PAGE_SIZE `div` 8)) 0.

Definition build_page_bitmap s (i : Z) : result st :=
  p <- deref (page_find (l1_map s) i) ;;
  tab <- page_bitmap_loop (loop_fuel s) s empty_bitmap (first_tb p) ;;
  Ok (upd_page s i (set_code_bitmap (Some tab))).

(** ** Invalidation of a range *)

(** The addresses that page [n] of a block covers. *)
Definition tb_phys_range tb n : Z * Z :=
  match n with
  | S0 =>
      let tb_start := tul (at0 (page_addr tb) + page_off (pc tb)) in
      (tb_start, tul (tb_start + size tb))
  | S1 =>
      let tb_start := at1 (page_addr tb) in
      (tb_start, tul (tb_start + page_off (tul (pc tb + size tb))))
  end.

(** Stop the execution of the current block if it is modified. *)
Definition smc_stop_current s (v : smc) (e : nat) t (searched_pc : Z) : result (st * smc) :=
  if bool_decide (smc_current_tb v = Some t) then
    tb <- get_tb s t ;;
    if cflags tb .& CF_COUNT_MASK =? 1 then Ok (s, v)
    else
      let s := upd_cpu s e (λ env, env <| guest_regs := restore tb searched_pc (guest_regs env) |>) in
      env <- deref (cpus s !! e) ;;
      Ok (s, v <| current_tb_modified := true |> <| current_state := guest_regs env |>)
  else Ok (s, v).

Definition smc_find_current s (v : smc) : result (st * smc) :=
  if current_tb_not_found v then
    e <- deref (cpu_single_env s) ;;
    env <- deref (cpus s !! e) ;;
    cur <- (if mem_io_pc env =? 0 then Ok None else tb_find_pc s (mem_io_pc env)) ;;
    Ok (s, v <| current_tb_not_found := false |> <| smc_current_tb := cur |>)
  else Ok (s, v).

(** [tb_phys_invalidate] with [env->current_tb] cleared meanwhile. *)
Definition smc_invalidate s t : result st :=
  match cpu_single_env s with
  | None => tb_phys_invalidate s t no_page
  | Some e =>
      env <- deref (cpus s !! e) ;;
      let saved_tb := current_tb env in
      let s := upd_cpu s e (λ env, env <| current_tb := None |>) in
      s <- tb_phys_invalidate s t no_page ;;
      let s := upd_cpu s e (λ env, env <| current_tb := saved_tb |>) in
      env <- deref (cpus s !! e) ;;
      if negb (interrupt_request env =? 0) && bool_decide (is_Some saved_tb)
      then cpu_interrupt s e (interrupt_request env)
      else Ok s
  end.

Fixpoint invalidate_range_loop (fuel : nat) s (v : smc) (y : option pnode) (start end_ : Z)
    : result (st * smc) :=
  match fuel with
  | O => Er EFuel
  | S fuel' =>
      match y with
      | None => Ok (s, v)
      | Some (t, n) =>
          tb <- get_tb s t ;;
          let tb_next := get2 (page_next tb) n in
          let '(tb_start, tb_end) := tb_phys_range tb n in
          if (tb_end <=? start) || (end_ <=? tb_start)
          then invalidate_range_loop fuel' s v tb_next start end_
          else
            '(s, v) <- (if TARGET_HAS_PRECISE_SMC then
                '(s, v) <- smc_find_current s v ;;
                if bool_decide (smc_current_tb v = Some t) then
                  e <- deref (cpu_single_env s) ;;
                  env <- deref (cpus s !! e) ;;
                  smc_stop_current s v e t (mem_io_pc env)
                else Ok (s, v)
              else Ok (s, v)) ;;
            s <- smc_invalidate s t ;;
            invalidate_range_loop fuel' s v tb_next start end_
      end
  end.

(** Translate the instruction that modifies memory into a block of its own and
    return to the main loop. *)
Definition smc_resume s (v : smc) (env : option nat) : result (st * flow) :=
  if TARGET_HAS_PRECISE_SMC && current_tb_modified v then
    e <- deref env ;;
    let s := upd_cpu s e (λ env, env <| current_tb := None |>) in
    let '(current_pc, current_cs_base, current_flags) := current_state v in
    '(s, _) <- tb_gen_code gen s e current_pc current_cs_base current_flags 1 ;;
    Ok (upd_cpu s e (λ env, env <| exception_index := -1 |>), Longjmp)
  else Ok (s, Return).

(** Count the writes to a page with code and switch to the bitmap after some. *)
Definition count_page_write s (i : Z) (p : PageDesc) (is_cpu_write_access : bool) : result st :=
  match code_bitmap p with
  | Some _ => Ok s
  | None =>
      let count := code_write_count p + 1 in
      let s := upd_page s i (set_code_write_count count) in
      if (SMC_BITMAP_USE_THRESHOLD <=? count) && is_cpu_write_access
      then build_page_bitmap s i else Ok s
  end.

Definition tb_invalidate_phys_page_range s (start end_ : Z) (is_cpu_write_access : bool)
    : result (st * flow) :=
  let i := page_index start in
  match page_find (l1_map s) i with
  | None => Ok (s, Return)
  | Some p =>
      s <- count_page_write s i p is_cpu_write_access ;;
      (* we remove all the TBs in the range [start, end[ *)
      '(s, v) <- invalidate_range_loop (loop_fuel s) s
                   (mkSmc is_cpu_write_access None false (0, 0, 0)) (first_tb p) start end_ ;;
      smc_resume s v (cpu_single_env s)
  end.

(** len must be <= 8 and start must be a multiple of len *)
Definition tb_invalidate_phys_page_fast s (start len : Z) : result (st * flow) :=
  match page_find (l1_map s) (page_index start) with
  | None => Ok (s, Return)
  | Some p =>
      match code_bitmap p with
      | Some tab =>
          let offset := page_off start in
          b <- deref (tab !! Z.to_nat (offset >>. 3)) ;;
          if (b >>. (offset .& 7)) .& ((1 <<. len) - 1) =? 0 then Ok (s, Return)
          else tb_invalidate_phys_page_range s start (tul (start + len)) true
      | None => tb_invalidate_phys_page_range s start (tul (start + len)) true
      end
  end.

(** ** Invalidation of a page *)

Fixpoint invalidate_page_loop (fuel : nat) s (v : smc) (y : option pnode) (addr pc_ : Z)
    : result (st * smc) :=
  match fuel with
  | O => Er EFuel
  | S fuel' =>
      match y with
      | None => Ok (s, v)
      | Some (t, n) =>
          '(s, v) <- (if TARGET_HAS_PRECISE_SMC && bool_decide (smc_current_tb v = Some t) then
              e <- deref (cpu_single_env s) ;; smc_stop_current s v e t pc_
            else Ok (s, v)) ;;
          s <- tb_phys_invalidate s t addr ;;
          tb <- get_tb s t ;;
          invalidate_page_loop fuel' s v (get2 (page_next tb) n) addr pc_
      end
  end.

Definition tb_invalidate_phys_page s (addr pc_ : Z) : result (st * flow) :=
  let addr := page_base addr in
  let i := page_index addr in
  match page_find (l1_map s) i with
  | None => Ok (s, Return)
  | Some p =>
      cur <- (if TARGET_HAS_PRECISE_SMC && bool_decide (is_Some (first_tb p)) && negb (pc_ =? 0)
              then tb_find_pc s pc_ else Ok None) ;;
      '(s, v) <- invalidate_page_loop (loop_fuel s) s (mkSmc false cur false (0, 0, 0))
                   (first_tb p) addr pc_ ;;
      let s := upd_page s i (set_first_tb None) in
      smc_resume s v (cpu_single_env s)
  end.

(** ** Page flags *)

Definition page_get_flags s (address : Z) : Z :=
  match page_find (l1_map s) (page_index address) with None => 0 | Some p => pflags p end.

Fixpoint set_flags_loop (fuel : nat) s (addr len flags_ : Z) : result st :=
  match fuel with
  | O => Er EFuel
  | S fuel' =>
      if len =? 0 then Ok s
      else
        let i := page_index addr in
        let s := s <| l1_map := page_alloc (l1_map s) i |> in
        p <- deref (page_find (l1_map s) i) ;;
        '(s, _) <- (if (pflags p .& PAGE_WRITE =? 0) && negb (flags_ .& PAGE_WRITE =? 0)
                        && bool_decide (is_Some (first_tb p))
                    then tb_invalidate_phys_page s addr 0 else Ok (s, Return)) ;;
        let s := upd_page s i (set_pflags flags_) in
        set_flags_loop fuel' s (tul (addr + TARGET_PAGE_SIZE)) (tul (len - TARGET_PAGE_SIZE)) flags_
  end.

Definition page_set_flags s (start end_ flags_ : Z) : result st :=
  _ <- assert_ (if L1_MAP_ADDR_SPACE_BITS <? TARGET_LONG_BITS
                then end_ <? 2 ^ L1_MAP_ADDR_SPACE_BITS else true) ;;
  _ <- assert_ (start <? end_) ;;
  let start := page_base start in
  let end_ := TARGET_PAGE_ALIGN end_ in
  let flags_ := if flags_ .& PAGE_WRITE =? 0 then flags_ else flags_ .| PAGE_WRITE_ORG in
  let len := tul (end_ - start) in
  set_flags_loop (S (Z.to_nat (len `div` TARGET_PAGE_SIZE))) s start len flags_.

(** The loop of [page_unprotect] over the target pages of the host page. *)
Fixpoint unprotect_loop (fuel : nat) s (addr host_end prot pc_ : Z) : result (st * Z * flow) :=
  match fuel with
  | O => Er EFuel
  | S fuel' =>
      if addr <? host_end then
        p <- deref (page_find (l1_map s) (page_index addr)) ;;
        let s := upd_page s (page_index addr) (set_pflags (pflags p .| PAGE_WRITE)) in
        let prot := prot .| (pflags p .| PAGE_WRITE) in
        '(s, fl) <- tb_invalidate_phys_page s addr pc_ ;;
        match fl with
        | Longjmp => Ok (s, prot, Longjmp)
        | Return => unprotect_loop fuel' s (tul (addr + TARGET_PAGE_SIZE)) host_end prot pc_
        end
      else Ok (s, prot, Return)
  end.

Definition page_unprotect s (address pc_ : Z) : result (st * Z * flow) :=
  match page_find (l1_map s) (page_index address) with
  | None => Ok (s, 0, Return)
  | Some p =>
      if negb (pflags p .& PAGE_WRITE_ORG =? 0) && (pflags p .& PAGE_WRITE =? 0) then
        let host_start := host_page_base s address in
        let host_end := tul (host_start + qemu_host_page_size s) in
        '(s, prot, fl) <- unprotect_loop (S (host_pages s)) s host_start host_end 0 pc_ ;;
        match fl with
        | Longjmp => Ok (s, 0, Longjmp)
        | Return => Ok (s <| host_prot := <[host_start := prot .& PAGE_BITS]> (host_prot s) |>, 1, Return)
        end
      else Ok (s, 0, Return)
  end.

Fixpoint check_range_loop (fuel : nat) s (addr len flags_ : Z) : result (st * Z) :=
  match fuel with
  | O => Er EFuel
  | S fuel' =>
      if len =? 0 then Ok (s, 0)
      else
        match page_find (l1_map s) (page_index addr) with
        | None => Ok (s, -1)
        | Some p =>
            if pflags p .& PAGE_VALID =? 0 then Ok (s, -1)
            else if negb (flags_ .& PAGE_READ =? 0) && (pflags p .& PAGE_READ =? 0) then Ok (s, -1)
            else if negb (flags_ .& PAGE_WRITE =? 0) then
              if pflags p .& PAGE_WRITE_ORG =? 0 then Ok (s, -1)
              else if pflags p .& PAGE_WRITE =? 0 then
                (* unprotect the page if it was put read-only because it
                   contains translated code *)
                '(s, r, _) <- page_unprotect s addr 0 ;;
                Ok (s, if r =? 0 then -1 else 0)
              else Ok (s, 0)
            else
              check_range_loop fuel' s (tul (addr + TARGET_PAGE_SIZE)) (tul (len - TARGET_PAGE_SIZE)) flags_
        end
  end.

Definition page_check_range s (start len flags_ : Z) : result (st * Z) :=
  _ <- assert_ (if L1_MAP_ADDR_SPACE_BITS <? TARGET_LONG_BITS
                then start <? 2 ^ L1_MAP_ADDR_SPACE_BITS else true) ;;
  if len =? 0 then Ok (s, 0)
  else if tul (start + len - 1) <? start then Ok (s, -1) (* We've wrapped around. *)
  else
    let end_ := TARGET_PAGE_ALIGN (tul (start + len)) in
    let start := page_base start in
    let len := tul (end_ - start) in
    check_range_loop (S (Z.to_nat (len `div` TARGET_PAGE_SIZE))) s start len flags_.

End smc.
