(* ===== verification/TBInv.v ===== *)
(** * The invariant of the translation block manager

    The abstract state of the manager is the set [live] of linked blocks.
    [tb_inv s live] says that the intrusive lists of the concrete state
    represent it: every hash bucket and every page list contains exactly the
    live blocks it should, every live block heads a circular list of the
    jumps chained to it, and the jump caches only point to live blocks.  A
    block that was invalidated keeps its place in the code cache until the
    next flush, and may be running: its jumps can still be chained, so the
    jumps on the lists are those of the allocated blocks. *)

From stdpp Require Import base gmap list fin_maps.
From S2P Require Import Prelude Chain Config CodePatch PageTable TBData TBOps.
Local Open Scope Z_scope.
Local Coercion Z.of_nat : nat >-> Z.

(** What a block is: everything but its links and the bookkeeping of the trace
    optimizer. *)
Definition erase (tb : TranslationBlock) : TranslationBlock :=
  tb <| phys_hash_next := None |> <| page_next := A2 None None |>
     <| jmp_next := A2 None None |> <| jmp_first := None |>
     <| mode := 0 |> <| exec_count := 0 |> <| opt_ptr := 0 |>
     <| tb_gen_pending := 0 |> <| invalidated := 0 |>.

Section inv.
  Context `{Guest} `{!PageTable PT}.
  Notation st := (exec_state PT).
  Implicit Types (s : st) (t u : tbid) (tb : TranslationBlock) (n m : slot) (live J : gset tbid).

(** ** Views of the state *)

(** The allocated blocks: those that were not flushed. *)
Definition blocks s : gset tbid := set_seq 0 (nb_tbs s).

Definition hnext s t : option tbid := tbs s !! t ≫= phys_hash_next.
Definition pnext s (x : pnode) : option pnode :=
  tbs s !! x.1 ≫= λ tb, get2 (page_next tb) x.2.
Definition jnext s (x : jnode) : option jnode :=
  tbs s !! x.1 ≫= λ tb, match x.2 with Lnext n => get2 (jmp_next tb) n | Lfirst => jmp_first tb end.
Definition static s t : option TranslationBlock := erase <$> tbs s !! t.
Definition page_head s (i : Z) : option pnode := first_tb (page_desc (l1_map s) i).

(** The hash bucket and the pages a block belongs to. *)
Definition tb_bucket tb : Z := tb_phys_hash_func (tb_phys_pc tb).
Definition tb_page tb n : option Z :=
  match n with
  | S0 => Some (page_index (at0 (page_addr tb)))
  | S1 => if at1 (page_addr tb) =? no_page then None else Some (page_index (at1 (page_addr tb)))
  end.

(** A block lies on the pages of its guest code. *)
Definition tb_covers tb : Prop :=
  0 ≤ pc tb ∧ pc tb + size tb < 2 ^ TARGET_LONG_BITS ∧ 0 < size tb ≤ TARGET_PAGE_SIZE ∧
  page_addr tb = A2 (page_base (pc tb)) (page2_of (pc tb) (size tb)).

(** Its pages are pages of the guest, and they differ. *)
Definition tb_wf tb : Prop :=
  at0 (page_addr tb) = page_base (at0 (page_addr tb)) ∧
  valid_index (page_index (at0 (page_addr tb))) ∧
  (at1 (page_addr tb) ≠ no_page →
     at1 (page_addr tb) = page_base (at1 (page_addr tb)) ∧
     valid_index (page_index (at1 (page_addr tb))) ∧
     page_index (at1 (page_addr tb)) ≠ page_index (at0 (page_addr tb))) ∧
  tb_covers tb.

(** ** The invariant *)

Definition live_inv s live : Prop :=
  ∀ t, t ∈ live → ∃ tb, tbs s !! t = Some tb ∧ (t < nb_tbs s)%nat ∧ tb_wf tb.

Definition hash_mem s live t (h : Z) : Prop :=
  t ∈ live ∧ tb_bucket <$> tbs s !! t = Some h.

Definition hash_inv s live : Prop :=
  chains (λ _, True) (λ h, tb_phys_hash s !! h) (hnext s) (hash_mem s live).

Definition page_mem s live (x : pnode) (i : Z) : Prop :=
  x.1 ∈ live ∧ tbs s !! x.1 ≫= (λ tb, tb_page tb x.2) = Some i.

(** [E]: the pages whose lists are being rebuilt. *)
Definition page_inv s live (E : Z → Prop) : Prop :=
  chains (λ i, valid_index i ∧ ¬ E i) (page_head s) (pnext s) (page_mem s live).

(** The circular list of the jumps to [t]. *)
Definition ring s t (l : list jnode) : Prop :=
  seg (jnext s) (jnext s (t, Lfirst)) l (Some (t, Lfirst)).

(** [J]: the blocks whose jumps may be on a list. *)
Definition is_jump J (x : jnode) : Prop := ∃ u n, x = (u, Lnext n) ∧ u ∈ J.

Definition jring s J t (l : list jnode) : Prop :=
  ring s t l ∧ NoDup l ∧ ∀ x, x ∈ l → is_jump J x.

Definition jump_inv s live J : Prop :=
  (∀ t, t ∈ live → ∃ l, jring s J t l) ∧
  (∀ u n, u ∈ J → jnext s (u, Lnext n) ≠ None →
     ∃ t l, t ∈ live ∧ jring s J t l ∧ (u, Lnext n) ∈ l).

(** The jump [n] of [u] is chained to [t]. *)
Definition chained s J u n t : Prop := ∃ l, jring s J t l ∧ (u, Lnext n) ∈ l.

Record jset s live J : Prop := {
  js_live t : t ∈ live → t ∈ J;
  js_nb u : u ∈ J → (u < nb_tbs s)%nat;
  js_tb u : u ∈ J → is_Some (tbs s !! u)
}.

Definition cache_inv s live : Prop :=
  ∀ e env h t, cpus s !! e = Some env → tb_jmp_cache env !! h = Some t →
    t ∈ live ∧ ∃ tb, tbs s !! t = Some tb ∧ h = tb_jmp_cache_hash_func (pc tb).

Record tb_inv_ex s live J (E : Z → Prop) : Prop := {
  inv_live : live_inv s live;
  inv_hash : hash_inv s live;
  inv_page : page_inv s live E;
  inv_jset : jset s live J;
  inv_jump : jump_inv s live J;
  inv_cache : cache_inv s live
}.

Definition tb_inv s live : Prop := tb_inv_ex s live (blocks s) (λ _, False).

(** ** Frame lemmas: which views an elementary write changes *)

Lemma lookup_upd_tb s t f u :
  tbs (upd_tb s t f) !! u = if decide (t = u) then f <$> tbs s !! u else tbs s !! u.
Proof. cbn. rewrite list_lookup_alter. case_decide; by subst. Qed.

(** An update of one block that keeps a view keeps it everywhere. *)
Lemma view_upd_tb {A} (view : TranslationBlock → A) s t f u :
  (∀ tb, view (f tb) = view tb) → view <$> tbs (upd_tb s t f) !! u = view <$> tbs s !! u.
Proof.
  intros Hf. rewrite lookup_upd_tb. case_decide; [|done].
  destruct (tbs s !! u); cbn; [by rewrite Hf|done].
Qed.

Lemma bind_upd_tb {A} (view : TranslationBlock → option A) s t f u :
  (∀ tb, view (f tb) = view tb) → tbs (upd_tb s t f) !! u ≫= view = tbs s !! u ≫= view.
Proof.
  intros Hf. rewrite lookup_upd_tb. case_decide; [|done]. by destruct (tbs s !! u); cbn.
Qed.

Lemma static_wr_hash s c v u : static (wr_hash s c v) u = static s u.
Proof. destruct c; [done|]. by apply view_upd_tb. Qed.
Lemma pnext_wr_hash s c v x : pnext (wr_hash s c v) x = pnext s x.
Proof. destruct c; [done|]. by apply bind_upd_tb. Qed.
Lemma jnext_wr_hash s c v x : jnext (wr_hash s c v) x = jnext s x.
Proof. destruct c; [done|]. by apply bind_upd_tb. Qed.
Lemma hnext_wr_hash s c v u :
  (∀ t, c = inr t → is_Some (tbs s !! t)) →
  hnext (wr_hash s c v) u = if decide (c = inr u) then v else hnext s u.
Proof.
  intros Hc. destruct c as [h|t]; [by rewrite decide_False by done|].
  unfold hnext. cbn [wr_hash]. rewrite lookup_upd_tb.
  destruct (decide (t = u)) as [->|].
  - destruct (Hc u eq_refl) as [tb ->]. cbn. by rewrite decide_True.
  - rewrite decide_False by congruence. done.
Qed.
Lemma hash_wr_hash s c v h :
  tb_phys_hash (wr_hash s c v) !! h = if decide (c = inl h) then v else tb_phys_hash s !! h.
Proof.
  destruct c as [h'|t]; [|by rewrite decide_False by done]. cbn.
  destruct (decide (h' = h)) as [->|].
  - by rewrite lookup_partial_alter_eq, decide_True.
  - by rewrite lookup_partial_alter_ne, decide_False by congruence.
Qed.

Lemma static_wr_jmp s c v u : static (wr_jmp s c v) u = static s u.
Proof. unfold wr_jmp. destruct c as [t []]; by apply view_upd_tb. Qed.
Lemma hnext_wr_jmp s c v u : hnext (wr_jmp s c v) u = hnext s u.
Proof. unfold wr_jmp. destruct c as [t []]; by apply bind_upd_tb. Qed.
Lemma pnext_wr_jmp s c v x : pnext (wr_jmp s c v) x = pnext s x.
Proof. unfold wr_jmp. destruct c as [t []]; by apply bind_upd_tb. Qed.
Lemma jnext_wr_jmp s c v x :
  is_Some (tbs s !! c.1) → jnext (wr_jmp s c v) x = if decide (c = x) then v else jnext s x.
Proof.
  intros [tb Htb]. unfold jnext, wr_jmp. rewrite lookup_upd_tb.
  destruct c as [t k], x as [u k']. cbn in *.
  destruct (decide (t = u)) as [->|]; [|by rewrite decide_False by congruence].
  rewrite Htb. cbn. destruct k as [n|], k' as [n'|]; cbn.
  - rewrite get_set2. repeat case_decide; congruence.
  - by rewrite decide_False by congruence.
  - by rewrite decide_False by congruence.
  - by rewrite decide_True.
Qed.

Lemma static_wr_page s c v u : static (wr_page s c v) u = static s u.
Proof. destruct c as [i|[t n]]; [unfold wr_page, upd_page; by case_match|]. by apply view_upd_tb. Qed.
Lemma hnext_wr_page s c v u : hnext (wr_page s c v) u = hnext s u.
Proof. destruct c as [i|[t n]]; [unfold wr_page, upd_page; by case_match|]. by apply bind_upd_tb. Qed.
Lemma jnext_wr_page s c v x : jnext (wr_page s c v) x = jnext s x.
Proof. destruct c as [i|[t n]]; [unfold wr_page, upd_page; by case_match|]. by apply bind_upd_tb. Qed.
Lemma pnext_wr_page s c v x :
  (∀ y, c = inr y → is_Some (tbs s !! y.1)) →
  pnext (wr_page s c v) x = if decide (c = inr x) then v else pnext s x.
Proof.
  intros Hc. destruct c as [i|[t n]].
  { rewrite decide_False by done. unfold wr_page, upd_page. by case_match. }
  unfold pnext. cbn [wr_page]. rewrite lookup_upd_tb. destruct x as [u n']. cbn in *.
  destruct (decide (t = u)) as [->|]; [|by rewrite decide_False by congruence].
  destruct (Hc (u, n) eq_refl) as [tb Htb]. cbn in Htb. rewrite Htb. cbn.
  rewrite get_set2. repeat case_decide; congruence.
Qed.

(** Writes to page descriptors. *)
Lemma page_desc_upd s i f j :
  valid_index i → valid_index j → is_Some (page_find (l1_map s) i) →
  page_desc (l1_map (upd_page s i f)) j =
    if decide (i = j) then f (page_desc (l1_map s) i) else page_desc (l1_map s) j.
Proof.
  intros Hi Hj [p Hp]. unfold upd_page, page_desc. rewrite Hp. cbn.
  rewrite page_find_store by eauto. by case_decide.
Qed.

Lemma page_find_upd_some s i f j :
  valid_index i → valid_index j →
  is_Some (page_find (l1_map (upd_page s i f)) j) ↔ is_Some (page_find (l1_map s) j).
Proof.
  intros Hi Hj. unfold upd_page. case_match eqn:Hp; [|done]. cbn.
  rewrite page_find_store by eauto. case_decide; [subst; naive_solver|done].
Qed.

Lemma page_head_wr_page s c v i :
  valid_index i → (∀ j, c = inl j → valid_index j ∧ is_Some (page_find (l1_map s) j)) →
  page_head (wr_page s c v) i = if decide (c = inl i) then v else page_head s i.
Proof.
  intros Hi Hc. destruct c as [j|[t n]]; [|by rewrite decide_False by done].
  destruct (Hc j eq_refl) as [Hj Hs]. unfold page_head. cbn [wr_page].
  rewrite page_desc_upd by done. repeat case_decide; naive_solver.
Qed.

Lemma page_head_bitmap s i j :
  valid_index i → valid_index j → page_head (upd_page s i invalidate_page_bitmap) j = page_head s j.
Proof.
  intros Hi Hj. destruct (page_find (l1_map s) i) eqn:Hp.
  - unfold page_head. rewrite page_desc_upd by eauto. case_decide; [by subst|done].
  - unfold upd_page. by rewrite Hp.
Qed.

Lemma page_head_l1 s s' i : l1_map s' = l1_map s → page_head s i = page_head s' i.
Proof. unfold page_head. by intros ->. Qed.

(** A page on which a list starts has a descriptor. *)
Lemma page_head_some s i x : page_head s i = Some x → is_Some (page_find (l1_map s) i).
Proof. unfold page_head, page_desc. destruct (page_find (l1_map s) i); naive_solver. Qed.

(** ** The components depend on the state through the views only *)

Lemma erase_view {A} (view : TranslationBlock → A) tb tb' :
  erase tb' = erase tb → (∀ tb, view (erase tb) = view tb) → view tb' = view tb.
Proof. intros E Hv. by rewrite <- Hv, E, Hv. Qed.

Lemma static_view {A} (view : TranslationBlock → A) s s' t :
  (∀ tb, view (erase tb) = view tb) → static s t = static s' t →
  view <$> tbs s !! t = view <$> tbs s' !! t.
Proof.
  intros Hv E. unfold static in E.
  destruct (tbs s !! t), (tbs s' !! t); try done; cbn in *.
  apply (inj Some) in E. by rewrite <- Hv, E, Hv.
Qed.

Lemma static_bind {A} (view : TranslationBlock → option A) s s' t :
  (∀ tb, view (erase tb) = view tb) → static s t = static s' t →
  tbs s !! t ≫= view = tbs s' !! t ≫= view.
Proof.
  intros Hv E. unfold static in E.
  destruct (tbs s !! t), (tbs s' !! t); try done; cbn in *.
  apply (inj Some) in E. by rewrite <- Hv, E, Hv.
Qed.

Lemma static_some s s' t tb :
  static s t = static s' t → tbs s !! t = Some tb →
  ∃ tb', tbs s' !! t = Some tb' ∧ erase tb' = erase tb.
Proof.
  intros E Ht. unfold static in E. rewrite Ht in E.
  destruct (tbs s' !! t); cbn in E; [|done]. apply (inj Some) in E. eauto.
Qed.

Lemma static_is_some s s' t :
  static s t = static s' t → is_Some (tbs s !! t) → is_Some (tbs s' !! t).
Proof. intros E [tb Htb]. destruct (static_some s s' t tb E Htb) as (tb' & -> & _). eauto. Qed.

Lemma static_length s s' : (∀ t, static s t = static s' t) → length (tbs s) = length (tbs s').
Proof.
  intros E. apply Nat.le_antisymm; apply Nat.nlt_ge; intros Hlt.
  - destruct (lookup_lt_is_Some_2 _ _ Hlt) as [tb Htb].
    destruct (static_some s s' _ _ (E _) Htb) as (? & Hx & _).
    apply lookup_lt_Some in Hx. lia.
  - destruct (lookup_lt_is_Some_2 _ _ Hlt) as [tb Htb].
    destruct (static_some s' s _ _ (eq_sym (E _)) Htb) as (? & Hx & _).
    apply lookup_lt_Some in Hx. lia.
Qed.

Lemma tb_wf_erase tb tb' : erase tb' = erase tb → tb_wf tb → tb_wf tb'.
Proof.
  intros E. change (tb_wf tb') with (tb_wf (erase tb')). rewrite E. done.
Qed.

Lemma live_inv_ext s s' live :
  (∀ t, static s t = static s' t) → nb_tbs s = nb_tbs s' → live_inv s live → live_inv s' live.
Proof.
  intros E En Hl t Ht. destruct (Hl t Ht) as (tb & Htb & Hlt & Hwf).
  destruct (static_some s s' t tb (E t) Htb) as (tb' & Htb' & He).
  exists tb'. rewrite <- En. eauto using tb_wf_erase.
Qed.

Lemma hash_mem_ext s s' live t h :
  static s t = static s' t → hash_mem s live t h ↔ hash_mem s' live t h.
Proof. intros E. unfold hash_mem. by rewrite (static_view tb_bucket s s'). Qed.

Lemma page_mem_ext s s' live x i :
  static s x.1 = static s' x.1 → page_mem s live x i ↔ page_mem s' live x i.
Proof. intros E. unfold page_mem. by rewrite (static_bind (λ tb, tb_page tb x.2) s s'). Qed.

Lemma hash_inv_ext s s' live :
  (∀ t, static s t = static s' t) → (∀ t, hnext s t = hnext s' t) →
  (∀ h, tb_phys_hash s !! h = tb_phys_hash s' !! h) → hash_inv s live → hash_inv s' live.
Proof. intros ? ? ?. apply chains_ext; [done..|]. intros. by apply hash_mem_ext. Qed.

Lemma page_inv_ext s s' live E :
  (∀ t, static s t = static s' t) → (∀ x, pnext s x = pnext s' x) →
  (∀ i, valid_index i → page_head s i = page_head s' i) →
  page_inv s live E → page_inv s' live E.
Proof.
  intros ? ? ?. apply chains_ext; [naive_solver|done|]. intros. by apply page_mem_ext.
Qed.

Lemma jump_inv_ext s s' live J :
  (∀ x, jnext s x = jnext s' x) → jump_inv s live J → jump_inv s' live J.
Proof.
  intros E [Ha Hb].
  assert (∀ t l, jring s J t l → jring s' J t l) as Hr.
  { intros t l (Hr & ? & ?). split; [|done]. unfold ring. rewrite <- E. by apply (seg_ext (jnext s)). }
  split.
  - intros t Ht. destruct (Ha t Ht) as (l & ?). eauto.
  - intros u n Hu. rewrite <- E. intros Hn. destruct (Hb u n Hu Hn) as (t & l & ? & ? & ?). eauto 6.
Qed.

Lemma jset_ext s s' live J :
  (∀ t, static s t = static s' t) → nb_tbs s = nb_tbs s' → jset s live J → jset s' live J.
Proof.
  intros E En [H1 H2 H3]. split; [done|by rewrite <- En|]. intros u Hu. apply (static_is_some s s' u (E u)). auto.
Qed.

Lemma blocks_nb s s' : nb_tbs s = nb_tbs s' → blocks s = blocks s'.
Proof. unfold blocks. by intros ->. Qed.

Lemma elem_of_blocks s u : u ∈ blocks s ↔ (u < nb_tbs s)%nat.
Proof. unfold blocks. rewrite elem_of_set_seq. lia. Qed.

Lemma cache_inv_ext s s' live :
  (∀ t, static s t = static s' t) → cpus s = cpus s' → cache_inv s live → cache_inv s' live.
Proof.
  intros E Ec Hc e env h t He Hh. rewrite <- Ec in He.
  destruct (Hc e env h t He Hh) as (Ht & tb & Htb & ->). split; [done|].
  destruct (static_some s s' t tb (E t) Htb) as (tb' & Htb' & Ee). exists tb'. split; [done|].
  change (pc tb') with (pc (erase tb')). by rewrite Ee.
Qed.

End inv.
