(* ===== verification/TBLists.v ===== *)
(** * Correctness of the list operations of the block manager

    Each removal finds the block within the bound on the loop, does not
    dereference NULL, and leaves the represented set without the block. *)

From stdpp Require Import base gmap list fin_maps.
From S2P Require Import Prelude Chain Config CodePatch PageTable TBData TBOps TBInv.
Local Open Scope Z_scope.
Local Coercion Z.of_nat : nat >-> Z.

Lemma nodup_bound {A} (l L : list A) : NoDup l → (∀ x, x ∈ l → x ∈ L) → (length l ≤ length L)%nat.
Proof. intros Hnd Hin. apply submseteq_length, NoDup_submseteq; done. Qed.

Section lists.
  Context `{Guest} `{!PageTable PT}.
  Notation st := (exec_state PT).
  Implicit Types (s : st) (t u : tbid) (tb : TranslationBlock) (n m : slot) (live J : gset tbid).

(** ** Reading cells *)

Lemma rd_hash_ok s t : is_Some (tbs s !! t) → rd_hash s (inr t) = Ok (hnext s t).
Proof. intros [tb Htb]. unfold rd_hash, get_tb, hnext. by rewrite Htb. Qed.

Lemma rd_page_ok s x : is_Some (tbs s !! x.1) → rd_page s (inr x) = Ok (pnext s x).
Proof. intros [tb Htb]. destruct x. unfold rd_page, get_tb, pnext. cbn in *. by rewrite Htb. Qed.

Lemma rd_page_head s i : is_Some (page_find (l1_map s) i) → rd_page s (inl i) = Ok (page_head s i).
Proof. intros [p Hp]. unfold rd_page, page_head, page_desc. by rewrite Hp. Qed.

Lemma rd_jmp_ok s x : is_Some (tbs s !! x.1) → rd_jmp s x = Ok (jnext s x).
Proof. intros [tb Htb]. unfold rd_jmp, get_tb, jnext. by rewrite Htb. Qed.

Lemma jnext_tb s x y : jnext s x = Some y → is_Some (tbs s !! x.1).
Proof. unfold jnext. destruct (tbs s !! x.1); naive_solver. Qed.

(** ** Lengths *)

Lemma tbid_bound s l :
  NoDup l → (∀ t, t ∈ l → is_Some (tbs s !! t)) → (length l ≤ length (tbs s))%nat.
Proof.
  intros Hnd Hin. rewrite <- (length_seq (length (tbs s)) 0). apply nodup_bound; [done|].
  intros t Ht. apply elem_of_seq. destruct (Hin t Ht) as [? Hx%lookup_lt_Some]. lia.
Qed.

Lemma pnode_bound s (l : list pnode) :
  NoDup l → (∀ x, x ∈ l → is_Some (tbs s !! x.1)) → (length l ≤ 2 * length (tbs s))%nat.
Proof.
  intros Hnd Hin.
  set (L := (λ t, (t, S0)) <$> seq 0 (length (tbs s))).
  set (L' := (λ t, (t, S1)) <$> seq 0 (length (tbs s))).
  assert (length (L ++ L') = 2 * length (tbs s))%nat as <-.
  { rewrite length_app. unfold L, L'. rewrite !length_fmap, !length_seq. lia. }
  apply nodup_bound; [done|]. intros [t n] Hx. destruct (Hin _ Hx) as [? Hl%lookup_lt_Some].
  cbn in Hl. apply elem_of_app. destruct n; [left|right]; apply list_elem_of_fmap; exists t;
    (split; [done|apply elem_of_seq; lia]).
Qed.

Lemma jnode_bound s (l : list jnode) :
  NoDup l → (∀ x, x ∈ l → ∃ u n, x = (u, Lnext n) ∧ is_Some (tbs s !! u)) →
  (length l ≤ 2 * length (tbs s))%nat.
Proof.
  intros Hnd Hin.
  set (f := λ x : jnode, (x.1, match x.2 with Lnext n => n | Lfirst => S0 end) : pnode).
  rewrite <- (length_fmap f). apply pnode_bound.
  - apply NoDup_fmap_2_strong; [|done]. intros x y Hx Hy.
    destruct (Hin x Hx) as (? & ? & -> & _), (Hin y Hy) as (? & ? & -> & _).
    unfold f. cbn. by intros [= -> ->].
  - intros x (y & -> & Hy)%list_elem_of_fmap. by destruct (Hin y Hy) as (? & ? & -> & ?).
Qed.

(** ** The hash list *)

Lemma tb_remove_ok s live t tb :
  live_inv s live → hash_inv s live → t ∈ live → tbs s !! t = Some tb →
  ∃ c, tb_remove s (tb_bucket tb) t = Ok (wr_hash s c (hnext s t)) ∧
    (∀ u, c = inr u → is_Some (tbs s !! u)) ∧
    hash_inv (wr_hash s c (hnext s t)) (live ∖ {[t]}).
Proof.
  intros Hlv Hh Ht Htb.
  assert (∀ u h, hash_mem s live u h → is_Some (tbs s !! u)) as Hsome.
  { intros u h [Hu _]. destruct (Hlv u Hu) as (? & -> & _). eauto. }
  assert (hash_mem s live t (tb_bucket tb)) as Hm by (split; [done|by rewrite Htb]).
  destruct (chains_remove _ _ _ _ (rd_hash s) (λ t1, bool_decide (t1 = t)) (loop_fuel s)
    t (tb_bucket tb) Hh I Hm) as (c & Hc & _ & Hcr & Hrem).
  - unfold hash_mem. naive_solver.
  - done.
  - eauto using rd_hash_ok.
  - intros. by rewrite bool_decide_eq_true.
  - intros l Hnd Hl. opose proof (tbid_bound s l Hnd _) as Hb; [eauto|]. unfold loop_fuel. lia.
  - assert (∀ u, c = inr u → is_Some (tbs s !! u)) as Hcs by (intros u Hu; by eapply Hsome, Hcr).
    exists c. unfold tb_remove. rewrite Hc. cbn [rbind]. rewrite rd_hash_ok by eauto. cbn [rbind].
    split_and!; [done..|]. set (s' := wr_hash s c (hnext s t)).
    apply (chains_ext _ (λ h, tb_phys_hash s' !! h) (hnext s') _ _
      (λ y i, hash_mem s live y i ∧ y ≠ t)); [done|done| |].
    + intros h u _. cbn. rewrite (hash_mem_ext s' s) by apply static_wr_hash.
      unfold hash_mem. set_solver.
    + apply Hrem; intros; [apply hash_wr_hash|by apply hnext_wr_hash].
Qed.

(** ** The page lists *)

Lemma page_mem_inj s live x i j : page_mem s live x i → page_mem s live x j → i = j.
Proof. unfold page_mem. naive_solver. Qed.

(** The two links of a well-formed block are on different lists. *)
Lemma page_mem_slot s live t n m i :
  live_inv s live → page_mem s live (t, n) i → page_mem s live (t, m) i → n = m.
Proof.
  intros Hlv [Ht E1] [_ E2]. destruct (Hlv t Ht) as (tb & Htb & _ & _ & _ & Hwf & _).
  cbn in *. rewrite Htb in E1, E2. cbn in *. unfold tb_page in *.
  destruct n, m; try done; repeat case_match; naive_solver (bprop; naive_solver).
Qed.

Lemma tb_page_remove_ok s live E (M : pnode → Z → Prop) t n i :
  live_inv s live → (∀ y j, M y j → page_mem s live y j) →
  chains (λ i, valid_index i ∧ ¬ E i) (page_head s) (pnext s) M →
  valid_index i → ¬ E i → M (t, n) i →
  ∃ c, tb_page_remove s i t = Ok (wr_page s c (pnext s (t, n))) ∧
    (∀ j, c = inl j → j = i ∧ is_Some (page_find (l1_map s) i) ∧ page_head s i = Some (t, n)) ∧
    (∀ y, c = inr y → M y i ∧ is_Some (tbs s !! y.1) ∧ pnext s y = Some (t, n)) ∧
    chains (λ i, valid_index i ∧ ¬ E i) (page_head (wr_page s c (pnext s (t, n))))
      (pnext (wr_page s c (pnext s (t, n)))) (λ y j, M y j ∧ y ≠ (t, n)).
Proof.
  intros Hlv HM Hp Hi HE Hm.
  assert (∀ x h, M x h → is_Some (tbs s !! x.1)) as Hsome.
  { intros x h [Hx _]%HM. destruct (Hlv x.1 Hx) as (? & -> & _). eauto. }
  assert (is_Some (page_find (l1_map s) i)) as Hpf.
  { destruct (Hp i (conj Hi HE)) as (l & Hs & _ & Hl). apply Hl in Hm.
    destruct l as [|y l]; [set_solver|]. destruct Hs as [Hs _]. by eapply page_head_some. }
  destruct (chains_remove _ _ _ _ (rd_page s) (λ y, bool_decide (y.1 = t)) (loop_fuel s)
    (t, n) i Hp (conj Hi HE) Hm) as (c & Hc & Hcl & Hcr & Hrem).
  - eauto using page_mem_inj.
  - by apply rd_page_head.
  - eauto using rd_page_ok.
  - intros [u m] Hu. rewrite bool_decide_eq_true. cbn. split; [|congruence].
    intros ->. f_equal. eapply page_mem_slot; eauto.
  - intros l Hnd Hl. opose proof (pnode_bound s l Hnd _) as Hb; [eauto|]. unfold loop_fuel. lia.
  - exists c. unfold tb_page_remove. rewrite Hc. cbn [rbind].
    rewrite rd_page_ok by eauto. cbn [rbind]. split_and!; [done|naive_solver| |].
    { intros y Hy. destruct (Hcr y Hy). eauto. }
    apply Hrem.
    + intros j [Hj _]. apply page_head_wr_page; [done|]. intros k ->.
      by destruct (Hcl k eq_refl) as [-> _].
    + intros y j _ _. apply pnext_wr_page. intros z Hz. eapply Hsome. by apply Hcr.
Qed.

(** ** The jump lists *)

(** A change of jump links and of native code only. *)
Record jframe s s' : Prop := {
  jf_static t : static s' t = static s t;
  jf_hnext t : hnext s' t = hnext s t;
  jf_pnext x : pnext s' x = pnext s x;
  jf_rest : s' = s <| tbs := tbs s' |> <| host_code := host_code s' |>
}.

#[export] Instance jframe_preorder : PreOrder jframe.
Proof.
  split.
  - intros []. split; done.
  - intros s1 s2 s3 [A1 A2 A3 A4] [B1 B2 B3 B4].
    split; [intros; etrans; [apply B1|apply A1]|intros; etrans; [apply B2|apply A2]
      |intros; etrans; [apply B3|apply A3]|].
    rewrite B4, A4. done.
Qed.

Lemma jframe_wr_jmp s c v : jframe s (wr_jmp s c v).
Proof.
  split; [intros; apply static_wr_jmp|intros; apply hnext_wr_jmp|intros; apply pnext_wr_jmp|].
  by destruct s.
Qed.

Lemma jframe_code s c : jframe s (s <| host_code := c |>).
Proof. by split; [..|destruct s]. Qed.

Lemma jframe_l1 s s' : jframe s s' → l1_map s' = l1_map s.
Proof. intros [_ _ _ ->]. done. Qed.
Lemma jframe_hash s s' : jframe s s' → tb_phys_hash s' = tb_phys_hash s.
Proof. intros [_ _ _ ->]. done. Qed.
Lemma jframe_cpus s s' : jframe s s' → cpus s' = cpus s.
Proof. intros [_ _ _ ->]. done. Qed.
Lemma jframe_nb s s' : jframe s s' → nb_tbs s' = nb_tbs s.
Proof. intros [_ _ _ ->]. done. Qed.
Lemma jframe_tb s s' t : jframe s s' → is_Some (tbs s !! t) → is_Some (tbs s' !! t).
Proof. intros Hf. apply static_is_some. symmetry. apply Hf. Qed.

Lemma jframe_fuel s s' : jframe s s' → loop_fuel s' = loop_fuel s.
Proof. intros Hf. unfold loop_fuel. by rewrite (static_length s' s) by apply Hf. Qed.

Lemma jframe_live s s' live : jframe s s' → live_inv s live → live_inv s' live.
Proof. intros Hf. apply live_inv_ext; [intros; symmetry; apply Hf|symmetry; by apply jframe_nb]. Qed.

Lemma jframe_jset s s' live J : jframe s s' → jset s live J → jset s' live J.
Proof. intros Hf. apply jset_ext; [intros; symmetry; apply Hf|symmetry; by apply jframe_nb]. Qed.

Lemma jframe_hash_inv s s' live : jframe s s' → hash_inv s live → hash_inv s' live.
Proof.
  intros Hf. apply hash_inv_ext; [intros; symmetry; apply Hf..|].
  intros h. by rewrite (jframe_hash s s').
Qed.

Lemma jframe_page_inv s s' live E : jframe s s' → page_inv s live E → page_inv s' live E.
Proof.
  intros Hf. apply page_inv_ext; [intros; symmetry; apply Hf..|].
  intros i _. unfold page_head. by rewrite (jframe_l1 s s').
Qed.

Lemma jframe_cache s s' live : jframe s s' → cache_inv s live → cache_inv s' live.
Proof.
  intros Hf. apply cache_inv_ext; [intros; symmetry; apply Hf|]. by rewrite (jframe_cpus s s').
Qed.

Lemma tb_reset_jump_frame s t n :
  is_Some (tbs s !! t) → ∃ c, tb_reset_jump s t n = Ok (s <| host_code := c |>).
Proof. intros [tb Htb]. unfold tb_reset_jump, tb_set_jmp_target, get_tb. rewrite Htb. cbn. eauto. Qed.

Definition is_link (x : jnode) : Prop := ∃ u n, x = (u, Lnext n).

Lemma not_link_first t : ¬ is_link (t, Lfirst).
Proof. by intros (? & ? & ?). Qed.

Lemma ring_same s t l l' :
  ring s t l → ring s t l' → (∀ x, x ∈ l → is_link x) → (∀ x, x ∈ l' → is_link x) → l = l'.
Proof.
  intros H1 H2 Hl Hl'.
  destruct (seg_stop (jnext s) (λ x, ¬ is_link x) _ l l' _ _ H1 H2); try done; try naive_solver;
    apply not_link_first.
Qed.

(** A link is on at most one ring. *)
Lemma ring_inj s t t' l l' x :
  ring s t l → ring s t' l' → (∀ x, x ∈ l → is_link x) → (∀ x, x ∈ l' → is_link x) →
  x ∈ l → x ∈ l' → t = t'.
Proof.
  intros H1 H2 Hl Hl' Hx Hx'.
  destruct (seg_split _ _ _ _ _ H1 Hx) as (a1 & a2 & -> & _ & Ha).
  destruct (seg_split _ _ _ _ _ H2 Hx') as (b1 & b2 & -> & _ & Hb).
  destruct (seg_stop (jnext s) (λ x, ¬ is_link x) _ a2 b2 _ _ Ha Hb) as [_ E];
    [intros; set_solver..|apply not_link_first|apply not_link_first|congruence].
Qed.

Lemma is_jump_link J x : is_jump J x → is_link x.
Proof. intros (u & n & -> & _). by exists u, n. Qed.

Lemma ring_next_some s t l x : ring s t l → x ∈ l → jnext s x ≠ None.
Proof.
  intros Hr Hx. destruct (seg_split _ _ _ _ _ Hr Hx) as (l1 & l2 & -> & _ & Hs).
  destruct l2; simpl in Hs; [by rewrite Hs|]. destruct Hs as [-> _]. done.
Qed.

Lemma jring_link s J t l x : jring s J t l → x ∈ l → is_link x.
Proof. intros (_ & _ & Hj) Hx. by eapply is_jump_link, Hj. Qed.

Lemma jring_inj s J t t' l l' x :
  jring s J t l → jring s J t' l' → x ∈ l → x ∈ l' → t = t'.
Proof. intros H1 H2. eapply ring_inj; [apply H1|apply H2|..]; eauto using jring_link. Qed.

Lemma jring_not_first s J t l u : jring s J t l → (u, Lfirst) ∉ l.
Proof. intros Hr Hx. by eapply not_link_first, jring_link. Qed.

Lemma jring_same s J t l l' : jring s J t l → jring s J t l' → l = l'.
Proof. intros H1 H2. eapply ring_same; [apply H1|apply H2|..]; eauto using jring_link. Qed.

(** Unlinking the link [x] of the ring of [t0]. *)
Section unlink.
  Context s live J (x : jnode) t0 (l1 l2 : list jnode).
  Context (Hjs : jset s live J) (Hjump : jump_inv s live J).
  Context (Ht0 : t0 ∈ live) (Hr : jring s J t0 (l1 ++ x :: l2)).

Let c : jnode := cell_after id (t0, Lfirst) l1.
Let s' : st := wr_jmp (wr_jmp s c (jnext s x)) x None.

Lemma unlink_cell : c = (t0, Lfirst) ∧ last l1 = None ∨ last l1 = Some c ∧ c ∈ l1.
Proof.
  unfold c, cell_after. destruct (last l1) eqn:E; [right|by left].
  split; [done|]. by apply last_Some_elem_of.
Qed.

Lemma unlink_some y : y ∈ l1 ++ x :: l2 → is_Some (tbs s !! y.1).
Proof. intros (u & n & -> & Hu)%Hr. by apply Hjs. Qed.

Lemma unlink_next y :
  jnext s' y = if decide (x = y) then None else if decide (c = y) then jnext s x else jnext s y.
Proof.
  assert (is_Some (tbs s !! c.1)) as Hcs.
  { destruct unlink_cell as [[-> _]|[_ Hc]]; [|apply unlink_some; set_solver].
    by apply (js_tb _ _ _ Hjs), (js_live _ _ _ Hjs). }
  unfold s'. rewrite jnext_wr_jmp.
  - case_decide; [done|]. by rewrite jnext_wr_jmp.
  - eapply jframe_tb; [apply jframe_wr_jmp|]. apply unlink_some. set_solver.
Qed.

Lemma unlink_ring : jring s' J t0 (l1 ++ l2).
Proof.
  pose proof Hr as (Hrg & Hnd & Hlj).
  pose proof Hnd as (Hnd1 & Hd & [Hx2 Hnd2]%NoDup_cons)%NoDup_app.
  assert (∀ y, y ∈ l1 ++ x :: l2 → y ≠ (t0, Lfirst)) as Hfst.
  { intros y Hy ->. by eapply jring_not_first. }
  split_and!.
  - unfold ring. eapply seg_remove; [exact Hnd|exact Hrg| |].
    + rewrite unlink_next, decide_False by (apply Hfst; set_solver).
      destruct unlink_cell as [[-> ->]|[E Hc]]; [by rewrite decide_True|].
      rewrite E, decide_False; [done|]. apply Hfst. set_solver.
    + intros z Hz. rewrite unlink_next, decide_False by set_solver. apply decide_ext.
      destruct unlink_cell as [[-> ->]|[-> Hc]]; [|naive_solver]. split; [|done].
      intros <-. exfalso. apply (Hfst (t0, Lfirst)); [set_solver|done].
  - apply NoDup_app. set_solver.
  - intros y Hy. apply Hlj. set_solver.
Qed.

Lemma unlink_other t l : t ≠ t0 → jring s J t l → jring s' J t l.
Proof.
  intros Ht Hl.
  assert (∀ y, y ∈ l1 ++ x :: l2 → y ∉ l) as Hdis.
  { intros y Hy Hyl. apply Ht. by eapply (jring_inj s J _ _ l _ y). }
  assert (∀ y, y = (t, Lfirst) ∨ y ∈ l → x ≠ y ∧ c ≠ y) as Hne.
  { intros y Hy. split; intros E.
    - destruct Hy as [->|Hy]; [|eapply Hdis; [|done]; set_solver].
      eapply (jring_not_first s J t0 _ t); [done|]. rewrite E. set_solver.
    - destruct unlink_cell as [[Hc _]|[_ Hc]]; rewrite E in Hc.
      + destruct Hy as [->|Hy]; [congruence|]. rewrite Hc in Hy. by eapply jring_not_first.
      + destruct Hy as [->|Hy]; [|eapply Hdis; [|done]; set_solver].
        eapply (jring_not_first s J t0 _ t); [done|]. set_solver. }
  pose proof Hl as (H1 & H2 & H3). split; [|done]. unfold ring. rewrite unlink_next.
  destruct (Hne (t, Lfirst)) as [? ?]; [by left|]. rewrite !decide_False by done.
  apply (seg_ext (jnext s)); [|done]. intros y Hy. rewrite unlink_next.
  destruct (Hne y) as [? ?]; [by right|]. by rewrite !decide_False.
Qed.

Lemma unlink_jump_inv : jump_inv s' live J.
Proof.
  destruct Hjump as [Ha Hb]. split.
  - intros t Ht. destruct (decide (t = t0)) as [->|Hne]; [eauto using unlink_ring|].
    destruct (Ha t Ht) as [l Hl]. eauto using unlink_other.
  - intros u n Hu Hun. rewrite unlink_next in Hun. case_decide as E; [done|].
    assert (jnext s (u, Lnext n) ≠ None) as Hun'.
    { case_decide as E'; [|done]. destruct unlink_cell as [[Hc _]|[_ Hc]]; [congruence|].
      rewrite <- E'. eapply ring_next_some; [apply Hr|set_solver]. }
    destruct (Hb u n Hu Hun') as (t & l & Ht & Hl & Hin).
    destruct (decide (t = t0)) as [->|Hne]; [|eauto 6 using unlink_other].
    exists t0, (l1 ++ l2). split_and!; [done|apply unlink_ring|].
    rewrite (jring_same _ _ _ _ _ Hl Hr) in Hin. set_solver.
Qed.

(** The other jumps keep their targets. *)
Lemma unlink_chained u n v :
  v ∈ live → (u, Lnext n) ≠ x → chained s J u n v → chained s' J u n v.
Proof.
  intros Hv Hne (l & Hl & Hin). destruct (decide (v = t0)) as [->|Hv0].
  - exists (l1 ++ l2). split; [by eapply unlink_ring|].
    rewrite (jring_same _ _ _ _ _ Hl Hr) in Hin. set_solver.
  - exists l. split; [by eapply unlink_other|done].
Qed.

Lemma unlink_none y : jnext s y = None → is_link y → jnext s' y = None.
Proof.
  intros Hy Hl. rewrite unlink_next. case_decide as E; [done|].
  case_decide as E'; [|done]. exfalso. revert Hy.
  destruct unlink_cell as [[Hc _]|[_ Hc]]; rewrite E' in Hc.
  - subst y. rewrite Hc in Hl. by apply not_link_first in Hl.
  - eapply ring_next_some; [apply Hr|]. set_solver.
Qed.

Lemma unlink_frame : jframe s s'.
Proof. by etrans; apply jframe_wr_jmp. Qed.

End unlink.

(** The search of [tb_jmp_remove] goes round the ring of [t0] from the link
    itself and stops at the cell before it. *)
Lemma ring_find_cell s live J t n t0 l1 l2 :
  jset s live J → t0 ∈ live → jring s J t0 (l1 ++ (t, Lnext n) :: l2) →
  find_cell (rd_jmp s) id (λ y, bool_decide (y = (t, Lnext n))) (loop_fuel s) (t, Lnext n) =
    Ok (cell_after id (t0, Lfirst) l1, (t, Lnext n)).
Proof.
  intros Hjs Ht0 Hr. pose proof Hr as (Hrg & Hnd & Hlj).
  pose proof Hnd as (Hnd1 & Hd & [Hx2 Hnd2]%NoDup_cons)%NoDup_app.
  assert (∀ y, y ∈ (l2 ++ [(t0, Lfirst)]) ++ l1 → is_Some (tbs s !! y.1)) as Hsome.
  { intros z Hz. destruct (decide (z = (t0, Lfirst))) as [->|].
    - by apply (js_tb _ _ _ Hjs), (js_live _ _ _ Hjs).
    - eapply (unlink_some s live J); [done..|]. set_solver. }
  assert (seg (jnext s) (jnext s (t, Lnext n)) (((l2 ++ [(t0, Lfirst)]) ++ l1) ++ [(t, Lnext n)])
    (jnext s (t, Lnext n))) as Hs.
  { unfold ring in Hrg. apply seg_app in Hrg as (r & H1 & [-> H2]).
    rewrite <- !app_assoc. apply seg_app. exists (Some (t0, Lfirst)). split; [done|].
    simpl. split; [done|]. apply seg_app. by exists (Some (t, Lnext n)). }
  rewrite (find_cell_ok _ _ _ _ _ _ _ _ _ _ _ Hs).
  - f_equal. f_equal. unfold cell_after. rewrite last_app.
    destruct (last l1); [done|]. by rewrite last_snoc.
  - apply rd_jmp_ok. eapply (unlink_some s live J _ _ _ _ Hjs Hr (t, Lnext n)). set_solver.
  - intros z Hz. by apply rd_jmp_ok, Hsome.
  - intros z Hz. apply bool_decide_eq_false. intros ->.
    apply elem_of_app in Hz as [[?|Hz%list_elem_of_singleton]%elem_of_app|?]; [done|done|].
    set_solver.
  - by apply bool_decide_eq_true.
  - opose proof (jnode_bound s _ Hnd _) as Hb.
    { intros z (u & m & -> & Hu)%Hlj. exists u, m. split; [done|].
      by apply Hjs. }
    unfold loop_fuel. rewrite !length_app in *. cbn in *. lia.
Qed.

(** [tb_jmp_remove] takes the link off its ring. *)
Lemma tb_jmp_remove_ok s live J t n :
  jset s live J → jump_inv s live J → t ∈ J →
  ∃ s', tb_jmp_remove s t n = Ok s' ∧ jframe s s' ∧ host_code s' = host_code s ∧
    jump_inv s' live J ∧ jnext s' (t, Lnext n) = None ∧
    (∀ y, jnext s y = None → is_link y → jnext s' y = None) ∧
    (∀ u m v, v ∈ live → (u, m) ≠ (t, n) → chained s J u m v → chained s' J u m v).
Proof.
  intros Hjs Hj Ht. unfold tb_jmp_remove. pose proof (js_tb _ _ _ Hjs t Ht) as Hts.
  rewrite rd_jmp_ok by done. cbn [rbind].
  destruct (jnext s (t, Lnext n)) as [y|] eqn:Ey; [|exists s; split_and!; done].
  destruct (proj2 Hj t n Ht) as (t0 & l & Ht0 & Hr & Hin); [by rewrite Ey|].
  apply list_elem_of_split in Hin as (l1 & l2 & ->).
  rewrite (ring_find_cell s live J t n t0 l1 l2) by done. cbn [rbind]. rewrite <- Ey.
  eexists. split; [done|]. split_and!.
  - by eapply unlink_frame.
  - done.
  - by eapply unlink_jump_inv.
  - erewrite unlink_next by done. by rewrite decide_True.
  - intros z Hz Hl. by eapply unlink_none.
  - intros u m v Hv Hne. eapply unlink_chained; [done..|congruence].
Qed.

End lists.
