(* ===== verification/TBCode.v ===== *)
(** * The native code of the translation blocks

    How the blocks lie in the code cache, and the coherence of the native
    jumps with the jump lists: a jump that is on the list of a block goes to
    the code of that block, and a jump of a live block that is on no list goes
    to its own epilogue, which returns to the main loop. *)

From stdpp Require Import base gmap list fin_maps.
From S2P Require Import Prelude Chain Config CodePatch PageTable TBData TBOps TBInv TBLists.
Local Open Scope Z_scope.
Local Coercion Z.of_nat : nat >-> Z.

Section code.
  Context `{Guest} `{!PageTable PT}.
  Notation st := (exec_state PT).
  Implicit Types (s : st) (t u v : tbid) (tb : TranslationBlock) (n m : slot) (live J : gset tbid).

(** The native jump [n] of a block and where it goes when not chained. *)
Definition jmp_slot tb n : Z := tc_ptr tb + get2 (tb_jmp_offset tb) n.
Definition jmp_epilogue tb n : Z := tc_ptr tb + get2 (tb_next_offset tb) n.

Definition reset_code s (c : bytes) (x : jnode) : bytes :=
  match x.2, tbs s !! x.1 with
  | Lnext n, Some tb => tb_set_jmp_target1 c (jmp_slot tb n) (jmp_epilogue tb n)
  | _, _ => c
  end.

Lemma reset_code_ext s s' c x : static s x.1 = static s' x.1 → reset_code s c x = reset_code s' c x.
Proof.
  unfold reset_code. intros E. destruct x as [u [n|]]; cbn in *; [|done].
  pose proof (static_view (λ tb, tb_set_jmp_target1 c (jmp_slot tb n) (jmp_epilogue tb n))
    s s' u (λ _, eq_refl) E) as Ev.
  destruct (tbs s !! u), (tbs s' !! u); naive_solver.
Qed.

Lemma tb_reset_jump_ok s t n :
  is_Some (tbs s !! t) →
  tb_reset_jump s t n = Ok (s <| host_code := reset_code s (host_code s) (t, Lnext n) |>).
Proof.
  intros [tb Htb]. unfold tb_reset_jump, tb_set_jmp_target, get_tb, reset_code.
  cbn. by rewrite Htb.
Qed.

(** ** Layout of the code cache *)

Definition has_jump tb n : Prop := get2 (tb_next_offset tb) n ≠ 0xffff.

(** Where the code of block [i] starts; the last block ends at
    [code_gen_ptr]. *)
Definition block_start s (i : nat) : Z :=
  if decide (i < nb_tbs s)%nat then from_option tc_ptr 0 (tbs s !! i) else code_gen_ptr s.

(** The blocks are laid out in the order of their allocation, in a buffer that
    the displacement of a native jump spans; a block starts with the patch
    point of [tb_gen_trace_stub] (three nops and a jump, eight bytes), and its
    chainable jumps are disjoint instructions of the rest of its code. *)
Record layout s : Prop := {
  ly_buf : 0 ≤ code_gen_buffer s ∧ code_gen_buffer s + code_gen_buffer_size s < 2 ^ 64 ∧
           code_gen_buffer_size s < 2 ^ 31 - 4;
  ly_lo : block_start s 0 = code_gen_buffer s;
  ly_hi : code_gen_ptr s ≤ code_gen_buffer s + code_gen_buffer_size s;
  ly_tb i : (i < nb_tbs s)%nat → is_Some (tbs s !! i);
  ly_mono i : (i < nb_tbs s)%nat → block_start s i + 8 ≤ block_start s (S i);
  ly_jump i tb n : (i < nb_tbs s)%nat → tbs s !! i = Some tb → has_jump tb n →
    block_start s i + 8 < jmp_slot tb n ∧ jmp_slot tb n + 4 ≤ block_start s (S i) ∧
    block_start s i ≤ jmp_epilogue tb n < block_start s (S i);
  ly_apart i tb : (i < nb_tbs s)%nat → tbs s !! i = Some tb →
    has_jump tb S0 → has_jump tb S1 →
    jmp_slot tb S0 + 5 ≤ jmp_slot tb S1 ∨ jmp_slot tb S1 + 5 ≤ jmp_slot tb S0;
  ly_env i tb : tbs s !! i = Some tb → tb_env tb ≠ EnvWild
}.

(** A block of a set that has the jump [n]. *)
Definition jumper s J u tb n : Prop := u ∈ J ∧ tbs s !! u = Some tb ∧ has_jump tb n.

(** The jumps of the blocks of [J] are jump instructions. *)
Definition jumps_ok s J (c : bytes) : Prop := ∀ u tb n, jumper s J u tb n → is_jmp c (jmp_slot tb n).

(** Coherence of the native jumps with the lists. *)
Record code_inv s live J : Prop := {
  ci_op : jumps_ok s J (host_code s);
  ci_has u tb n : u ∈ J → tbs s !! u = Some tb → jnext s (u, Lnext n) ≠ None → has_jump tb n;
  ci_free u tb n : jumper s live u tb n → jnext s (u, Lnext n) = None →
    jmp_dest (host_code s) (jmp_slot tb n) = Some (jmp_epilogue tb n);
  ci_chained u tb n v tbv : jumper s J u tb n → v ∈ live → tbs s !! v = Some tbv →
    chained s J u n v → jmp_dest (host_code s) (jmp_slot tb n) = Some (tc_ptr tbv)
}.

Lemma block_start_mono s i j :
  layout s → (i < j)%nat → (j ≤ nb_tbs s)%nat → block_start s i < block_start s j.
Proof.
  intros Hl Hij Hj. induction Hij as [|j Hij IH].
  - pose proof (ly_mono s Hl i). lia.
  - pose proof (ly_mono s Hl j). lia.
Qed.

Lemma block_start_mono_le s i j :
  layout s → (i ≤ j)%nat → (j ≤ nb_tbs s)%nat → block_start s i ≤ block_start s j.
Proof.
  intros Hl Hij Hj. destruct (decide (i = j)) as [->|]; [done|].
  apply Z.lt_le_incl, block_start_mono; [done|lia..].
Qed.

Lemma block_start_range s i :
  layout s → (i ≤ nb_tbs s)%nat →
  code_gen_buffer s ≤ block_start s i ≤ code_gen_buffer s + code_gen_buffer_size s.
Proof.
  intros Hl Hi. split.
  - rewrite <- (ly_lo s Hl). apply block_start_mono_le; [done|lia..].
  - etrans; [|apply Hl]. replace (code_gen_ptr s) with (block_start s (nb_tbs s)).
    + by apply block_start_mono_le.
    + unfold block_start. by rewrite decide_False by lia.
Qed.

Lemma block_start_tb s i tb :
  (i < nb_tbs s)%nat → tbs s !! i = Some tb → block_start s i = tc_ptr tb.
Proof. intros Hi E. unfold block_start. by rewrite decide_True, E. Qed.

Lemma live_nb s live u : live_inv s live → u ∈ live → (u < nb_tbs s)%nat.
Proof. intros Hlv Hu. by destruct (Hlv u Hu) as (_ & _ & ? & _). Qed.

Section layout.
  Context s J (Hl : layout s) (Hnb : ∀ u, u ∈ J → (u < nb_tbs s)%nat).

(** A jump reaches its epilogue and every block. *)
Lemma layout_near_start u tb n v tbv :
  jumper s J u tb n → v ∈ J → tbs s !! v = Some tbv → near (jmp_slot tb n) (tc_ptr tbv).
Proof.
  intros (Hu%Hnb & Htb & Hn) Hv%Hnb Htv. unfold near.
  pose proof (ly_buf s Hl). destruct (ly_jump s Hl u tb n Hu Htb Hn) as (? & ? & ?).
  pose proof (block_start_range s u Hl). pose proof (block_start_range s (S u) Hl).
  pose proof (block_start_range s v Hl). rewrite <- (block_start_tb s v tbv) by done. lia.
Qed.

Lemma layout_near_epilogue u tb n :
  jumper s J u tb n → near (jmp_slot tb n) (jmp_epilogue tb n).
Proof.
  intros (Hu%Hnb & Htb & Hn). unfold near.
  pose proof (ly_buf s Hl). destruct (ly_jump s Hl u tb n Hu Htb Hn) as (? & ? & ?).
  pose proof (block_start_range s u Hl). pose proof (block_start_range s (S u) Hl). lia.
Qed.

(** Different jumps are disjoint. *)
Lemma layout_disjoint u tb n v tbv m :
  jumper s J u tb n → jumper s J v tbv m → (u, n) ≠ (v, m) →
  jmp_slot tb n + 5 ≤ jmp_slot tbv m ∨ jmp_slot tbv m + 5 ≤ jmp_slot tb n.
Proof.
  intros (Hu%Hnb & Htb & Hn) (Hv%Hnb & Htv & Hm) Hne.
  destruct (ly_jump s Hl u tb n Hu Htb Hn) as (? & ? & _).
  destruct (ly_jump s Hl v tbv m Hv Htv Hm) as (? & ? & _).
  destruct (lt_eq_lt_dec u v) as [[Hlt|<-]|Hlt].
  - pose proof (block_start_mono_le s (S u) v Hl). lia.
  - simplify_eq. destruct n, m; try done; destruct (ly_apart s Hl u tb); naive_solver lia.
  - pose proof (block_start_mono_le s (S v) u Hl). lia.
Qed.

(** Setting one jump leaves the others alone. *)
Lemma set_jump_other c u tb n v tbv m addr :
  jumper s J u tb n → jumper s J v tbv m → (u, n) ≠ (v, m) →
  jmp_dest (tb_set_jmp_target1 c (jmp_slot tb n) addr) (jmp_slot tbv m) =
    jmp_dest c (jmp_slot tbv m).
Proof.
  intros H1 H2 Hne. apply set_jmp_target1_dest_other.
  pose proof (layout_disjoint _ _ _ _ _ _ H1 H2 Hne). lia.
Qed.

Lemma set_jump_ops c u tb n addr :
  jumper s J u tb n → jumps_ok s J c → jumps_ok s J (tb_set_jmp_target1 c (jmp_slot tb n) addr).
Proof.
  intros Hu Hc v tbv m Hv. destruct (decide ((u, n) = (v, m))) as [[= -> ->]|Hne].
  - destruct Hu as (? & Eu & ?), Hv as (? & Ev & ?). simplify_eq. by apply set_jmp_target1_op, (Hc v).
  - apply set_jmp_target1_op_other; [|by apply (Hc v)]. pose proof (layout_disjoint _ _ _ _ _ _ Hu Hv Hne). lia.
Qed.

(** Resetting a set of jumps. *)
Lemma foldl_reset_ops c l :
  (∀ x, x ∈ l → ∃ u tb n, x = (u, Lnext n) ∧ jumper s J u tb n) → jumps_ok s J c → jumps_ok s J (foldl (reset_code s) c l).
Proof.
  intros Hx Hc. induction l as [|x l IH] using rev_ind; [done|]. rewrite foldl_app. cbn [foldl].
  destruct (Hx x) as (u & tb & n & -> & Hu); [set_solver|]. unfold reset_code at 1. cbn [fst snd].
  pose proof Hu as (_ & -> & _). apply (set_jump_ops _ u); [done|]. apply IH. set_solver.
Qed.

Lemma foldl_reset_dest c l v tbv m :
  (∀ x, x ∈ l → ∃ u tb n, x = (u, Lnext n) ∧ jumper s J u tb n) → jumps_ok s J c → jumper s J v tbv m →
  jmp_dest (foldl (reset_code s) c l) (jmp_slot tbv m) =
    if decide ((v, Lnext m) ∈ l) then Some (jmp_epilogue tbv m) else jmp_dest c (jmp_slot tbv m).
Proof.
  intros Hx Hc Hv. induction l as [|x l IH] using rev_ind; [by rewrite decide_False by set_solver|].
  rewrite foldl_app. cbn [foldl]. destruct (Hx x) as (u & tb & n & -> & Hu); [set_solver|].
  assert (jumps_ok s J (foldl (reset_code s) c l)) as Hc' by (apply foldl_reset_ops; [set_solver|done]).
  set (c' := foldl _ c l) in *. unfold reset_code. cbn [fst snd].
  pose proof Hu as (_ & -> & _).
  destruct (decide ((u, n) = (v, m))) as [[= -> ->]|Hne].
  - destruct Hu as (? & Eu & ?), Hv as (? & Ev & ?). simplify_eq.
    rewrite decide_True by set_solver. apply set_jmp_target1_dest; [by apply (layout_near_epilogue v)|].
    intros _. by apply (Hc' v).
  - rewrite (set_jump_other _ u tb n v) by done. rewrite IH by set_solver.
    apply decide_ext. set_solver.
Qed.

End layout.

(** [layout] depends on the positions of the blocks and of their jumps. *)
Definition code_view tb := (tc_ptr tb, tb_next_offset tb, tb_jmp_offset tb, tb_env tb).

Lemma code_view_eq tb tb' n :
  code_view tb = code_view tb' →
  tc_ptr tb = tc_ptr tb' ∧ jmp_slot tb n = jmp_slot tb' n ∧
  jmp_epilogue tb n = jmp_epilogue tb' n ∧ (has_jump tb n ↔ has_jump tb' n) ∧ tb_env tb = tb_env tb'.
Proof.
  intros [= E1 E2 E3 E4]. unfold jmp_slot, jmp_epilogue, has_jump. by rewrite E1, E2, E3.
Qed.

Lemma layout_ext s s' :
  (∀ t, code_view <$> tbs s !! t = code_view <$> tbs s' !! t) → nb_tbs s = nb_tbs s' →
  code_gen_ptr s = code_gen_ptr s' → code_gen_buffer s = code_gen_buffer s' →
  code_gen_buffer_size s = code_gen_buffer_size s' → layout s → layout s'.
Proof.
  intros Es En Ep Eb Ez Hl.
  assert (∀ i tb, tbs s' !! i = Some tb → ∃ tb', tbs s !! i = Some tb' ∧ code_view tb' = code_view tb) as Hs.
  { intros i tb Htb. specialize (Es i). rewrite Htb in Es.
    destruct (tbs s !! i); [|done]. apply (inj Some) in Es. eauto. }
  assert (∀ i, block_start s' i = block_start s i) as Est.
  { intros i. unfold block_start. rewrite <- En, <- Ep. case_decide; [|done].
    specialize (Es i). destruct (tbs s !! i), (tbs s' !! i); try done; cbn in *.
    apply (inj Some) in Es. by apply (code_view_eq _ _ S0) in Es as [-> _]. }
  split; rewrite <- ?Eb, <- ?Ez, <- ?En, <- ?Ep; rewrite ?Est; [apply Hl..| | | | |].
  - intros i Hi. specialize (Es i). destruct (ly_tb s Hl i Hi) as [tb Htb]. rewrite Htb in Es.
    destruct (tbs s' !! i); [eauto|done].
  - intros i Hi. rewrite !Est. by apply Hl.
  - intros i tb n Hi (tb' & Htb' & E)%Hs Hn. rewrite !Est.
    destruct (code_view_eq _ _ n E) as (_ & <- & <- & Eh & _). apply (ly_jump s Hl); [done..|by apply Eh].
  - intros i tb Hi (tb' & Htb' & E)%Hs H0 H1.
    destruct (code_view_eq _ _ S0 E) as (_ & <- & _ & E0 & _), (code_view_eq _ _ S1 E) as (_ & <- & _ & E1 & _).
    apply (ly_apart s Hl i); [done..|by apply E0|by apply E1].
  - intros i tb (tb' & Htb' & E)%Hs. destruct (code_view_eq _ _ S0 E) as (_ & _ & _ & _ & <-). by apply (ly_env s Hl i).
Qed.

Lemma static_code_view s s' t :
  static s t = static s' t → code_view <$> tbs s !! t = code_view <$> tbs s' !! t.
Proof. by apply static_view. Qed.

End code.
