(* ===== verification/TBInval.v ===== *)
(** * Invalidation of a translation block

    [tb_phys_invalidate] implements the removal of a block from the abstract
    set of live blocks: it terminates, and afterwards the block is in no hash
    bucket, no page list, no jump cache, and no native jump leads to it. *)

From stdpp Require Import base gmap list fin_maps.
From S2P Require Import Prelude Chain Config CodePatch PageTable TBData TBOps TBInv TBLists TBCode.
Local Open Scope Z_scope.
Local Coercion Z.of_nat : nat >-> Z.

Section inval.
  Context `{Guest} `{!PageTable PT}.
  Notation st := (exec_state PT).
  Implicit Types (s : st) (t u v : tbid) (tb : TranslationBlock) (n m : slot) (live J : gset tbid).

(** ** Leaving the page lists *)

(** A change of page links and page descriptors that keeps the page flags. *)
Record pframe s s' : Prop := {
  pf_static t : static s' t = static s t;
  pf_hnext t : hnext s' t = hnext s t;
  pf_jnext x : jnext s' x = jnext s x;
  pf_find i : valid_index i → is_Some (page_find (l1_map s') i) ↔ is_Some (page_find (l1_map s) i);
  pf_flags i : valid_index i → pflags (page_desc (l1_map s') i) = pflags (page_desc (l1_map s) i);
  pf_rest : s' = s <| tbs := tbs s' |> <| l1_map := l1_map s' |>
}.

#[export] Instance pframe_preorder : PreOrder pframe.
Proof.
  split.
  - intros []. by split.
  - intros s1 s2 s3 [A1 A2 A3 A4 A5 A6] [B1 B2 B3 B4 B5 B6]. split.
    + intros; etrans; [apply B1|apply A1].
    + intros; etrans; [apply B2|apply A2].
    + intros; etrans; [apply B3|apply A3].
    + intros; etrans; [by apply B4|by apply A4].
    + intros; etrans; [by apply B5|by apply A5].
    + rewrite B6, A6. done.
Qed.

Lemma pframe_upd_page s i f :
  valid_index i → (∀ p, pflags (f p) = pflags p) → pframe s (upd_page s i f).
Proof.
  intros Hi Hf.
  assert (tbs (upd_page s i f) = tbs s) as Et by (unfold upd_page; by case_match).
  split; intros; unfold static, hnext, jnext; rewrite ?Et; try done.
  - by apply page_find_upd_some.
  - destruct (page_find (l1_map s) i) eqn:E.
    + rewrite page_desc_upd by eauto. case_decide; [subst; apply Hf|done].
    + unfold upd_page. by rewrite E.
  - unfold upd_page. case_match; by destruct s.
Qed.

Lemma pframe_wr_page s c (q : option pnode) :
  (∀ i, c = inl i → valid_index i) → pframe s (wr_page s c q).
Proof.
  destruct c as [i|[t n]]; intros Hc.
  - by apply pframe_upd_page; [apply Hc|].
  - split; [intros; apply static_wr_page|intros; apply hnext_wr_page
      |intros; apply jnext_wr_page|done|done|by destruct s].
Qed.

(** How a caller exempts a page from the invalidation: its list is not
    touched. *)
Definition skips (skip : Z) (E : Z → Prop) : Prop :=
  ∀ addr, addr = page_base addr → valid_index (page_index addr) →
    addr = skip ↔ E (page_index addr).

Notation pages s E M := (chains (λ i, valid_index i ∧ ¬ E i) (page_head s) (pnext s) M).

Lemma tb_unlink_page_ok s live E (M : pnode → Z → Prop) t n addr skip :
  live_inv s live → (∀ y j, M y j → page_mem s live y j) → pages s E M → skips skip E →
  addr = page_base addr → valid_index (page_index addr) → M (t, n) (page_index addr) →
  ∃ s', tb_unlink_page s t addr skip = Ok s' ∧ pframe s s' ∧
    pages s' E (λ y j, M y j ∧ y ≠ (t, n)) ∧
    (∀ y, pnext s' y = pnext s y ∨ pnext s y = Some (t, n)) ∧
    (∀ j, valid_index j → page_head s' j = page_head s j ∨ page_head s j = Some (t, n)).
Proof.
  intros Hlv HM Hp Hskip Hb Hi Hm. unfold tb_unlink_page.
  destruct (Z.eqb_spec addr skip) as [Es|Es]; rewrite (Hskip addr Hb Hi) in Es.
  { exists s. split_and!; [done..| |by left|by left]. eapply chains_ext, Hp; [done..|].
    intros k x [_ Hk] . split; [|naive_solver]. intros Hx. split; [done|]. intros ->.
    apply Hk. by rewrite (page_mem_inj s live (t, n) k (page_index addr)) by eauto. }
  destruct (tb_page_remove_ok s live E M t n (page_index addr)) as (c & Hc & Hcl & Hcr & Hrem);
    [done..|].
  assert (is_Some (page_find (l1_map s) (page_index addr))) as [p ->].
  { destruct (Hp _ (conj Hi Es)) as (l & Hs & _ & Hl). apply Hl in Hm.
    destruct l as [|y l]; [set_solver|]. destruct Hs as [Hs _]. by eapply page_head_some. }
  cbn [rbind deref]. rewrite Hc. cbn [rbind]. eexists. split; [done|].
  set (s1 := wr_page s c _) in *.
  assert (∀ y, pnext (upd_page s1 (page_index addr) invalidate_page_bitmap) y = pnext s1 y) as Ep.
  { intros y. unfold pnext, upd_page. by case_match. }
  assert (∀ j, c = inl j → valid_index j ∧ is_Some (page_find (l1_map s) j)) as Hcv.
  { intros j ->. by destruct (Hcl j eq_refl) as (-> & ? & _). }
  split_and!.
  - etrans; [|by apply pframe_upd_page]. apply pframe_wr_page. intros i ->. by apply Hcv.
  - eapply chains_ext, Hrem; [| |done].
    + intros k [Hk _]. by rewrite page_head_bitmap.
    + intros k x _ _. by rewrite Ep.
  - intros y. rewrite Ep. unfold s1. rewrite pnext_wr_page by (intros z Hz; by apply Hcr).
    case_decide as Ec; [|by left]. right. by apply Hcr.
  - intros j Hj. rewrite page_head_bitmap by done. unfold s1. rewrite page_head_wr_page by done.
    case_decide as Ec; [|by left]. right. by destruct (Hcl j Ec) as (-> & _ & ?).
Qed.

Lemma pframe_live s s' live : pframe s s' → live_inv s live → live_inv s' live.
Proof.
  intros Hf. apply live_inv_ext; [intros; symmetry; apply Hf|]. by rewrite (pf_rest _ _ Hf).
Qed.

(** Both pages of the block. *)
Lemma tb_unlink_pages_ok s live E t tb skip :
  live_inv s live → page_inv s live E → skips skip E → t ∈ live → tbs s !! t = Some tb →
  ∃ s1 s2, tb_unlink_page s t (at0 (page_addr tb)) skip = Ok s1 ∧
    (if at1 (page_addr tb) =? no_page then Ok s1
     else tb_unlink_page s1 t (at1 (page_addr tb)) skip) = Ok s2 ∧
    pframe s s2 ∧ page_inv s2 (live ∖ {[t]}) E ∧
    (∀ y, pnext s2 y = pnext s y ∨ ∃ m, pnext s y = Some (t, m)) ∧
    (∀ j, valid_index j → page_head s2 j ≠ None → page_head s j ≠ None).
Proof.
  intros Hlv Hp Hskip Ht Htb.
  destruct (Hlv t Ht) as (tb' & Htb' & _ & Hb0 & Hv0 & Hw1 & _). simplify_eq.
  destruct (tb_unlink_page_ok s live E (page_mem s live) t S0 (at0 (page_addr tb)) skip)
    as (s1 & H1 & Hf1 & Hp1 & Hn1 & Hh1); [done..| |].
  { split; [done|]. cbn. by rewrite Htb. }
  exists s1. setoid_rewrite H1. destruct (Z.eqb_spec (at1 (page_addr tb)) no_page) as [E1|E1].
  - exists s1. split_and!; [done..| |naive_solver|naive_solver congruence].
    eapply chains_ext, Hp1; [done..|]. intros k [u n] _. rewrite <- (page_mem_ext s s1) by (symmetry; apply Hf1).
    unfold page_mem. cbn. rewrite elem_of_difference, elem_of_singleton. split.
    + intros [[Hu Hk] Hne]. split; [|done]. split; [done|]. intros ->. rewrite Htb in Hk.
      destruct n; [done|]. cbn in Hk. by rewrite E1, Z.eqb_refl in Hk.
    + intros [[Hu Hut] Hk]. split; [done|]. congruence.
  - destruct (Hw1 E1) as (Hb1 & Hv1 & Hne).
    destruct (tb_unlink_page_ok s1 live E (λ y j, page_mem s live y j ∧ y ≠ (t, S0)) t S1
      (at1 (page_addr tb)) skip) as (s2 & H2 & Hf2 & Hp2 & Hn2 & Hh2); try done.
    + by eapply pframe_live.
    + intros y j [Hy _]. by rewrite <- (page_mem_ext s s1) by (symmetry; apply Hf1).
    + split; [|done]. split; [done|]. cbn. rewrite Htb. cbn.
      by rewrite (proj2 (Z.eqb_neq _ _) E1).
    + exists s2. split_and!; [done..|by etrans| | |].
      2: { intros y. destruct (Hn1 y) as [<-|?]; [|eauto]. destruct (Hn2 y); eauto. }
      2: { intros j Hj. destruct (Hh2 j Hj) as [->|E2].
           - destruct (Hh1 j Hj) as [->|Eh]; [done|by rewrite Eh].
           - destruct (Hh1 j Hj) as [Eh|Eh]; [by rewrite <- Eh, E2|by rewrite Eh]. }
      eapply chains_ext, Hp2; [done..|]. intros k [u n] _.
      rewrite <- (page_mem_ext s s2) by (symmetry; etrans; [apply Hf2|apply Hf1]).
      unfold page_mem. cbn. rewrite elem_of_difference, elem_of_singleton. split.
      * intros [[[Hu Hk] Hd1] Hd2]. split; [|done]. split; [done|]. intros ->. by destruct n.
      * intros [[Hu Hut] Hk]. split_and!; [done..|congruence|congruence].
Qed.

(** ** Leaving the jump caches *)

Lemma jmp_cache_clear_ok s live t tb :
  cache_inv s live → tbs s !! t = Some tb →
  cache_inv (s <| cpus := jmp_cache_clear (tb_jmp_cache_hash_func (pc tb)) t <$> cpus s |>)
    (live ∖ {[t]}).
Proof.
  intros Hc Htb e env' h u He Hh. cbn in He. rewrite list_lookup_fmap in He.
  destruct (cpus s !! e) as [env|] eqn:Ee; cbn in He; [|done]. apply (inj Some) in He as <-.
  unfold jmp_cache_clear in Hh. case_bool_decide as Eb; cbn in Hh.
  - apply lookup_delete_Some in Hh as [Hne Hh].
    destruct (Hc e env h u Ee Hh) as (Hu & tbu & Htu & ->). split; [|eauto].
    apply elem_of_difference. split; [done|]. intros ->%elem_of_singleton. by simplify_eq.
  - destruct (Hc e env h u Ee Hh) as (Hu & tbu & Htu & ->). split; [|eauto].
    apply elem_of_difference. split; [done|]. intros ->%elem_of_singleton. by simplify_eq.
Qed.

(** ** Unchaining the jumps to the block *)

Lemma tb_unchain_ok fuel s p l t :
  seg (jnext s) p l (Some (t, Lfirst)) → NoDup l →
  (∀ x, x ∈ l → is_link x ∧ is_Some (tbs s !! x.1)) → (length l < fuel)%nat →
  ∃ s', tb_unchain fuel s p = Ok s' ∧ jframe s s' ∧
    (∀ x, jnext s' x = if decide (x ∈ l) then None else jnext s x) ∧
    host_code s' = foldl (reset_code s) (host_code s) l.
Proof.
  induction fuel as [|fuel IH] in s, p, l |- *; intros Hs Hnd Hl Hf; [lia|].
  destruct l as [|x l]; cbn in Hs.
  { subst p. exists s. by split_and!. }
  destruct Hs as [-> Hs]. apply NoDup_cons in Hnd as [Hx Hnd].
  destruct (Hl x) as [(u & n & ->) Hu]; [set_solver|]. cbn [tb_unchain].
  rewrite rd_jmp_ok by done. cbn [rbind]. rewrite tb_reset_jump_ok by done. cbn [rbind].
  set (s0 := s <| host_code := _ |>).
  assert (jframe s (wr_jmp s0 (u, Lnext n) None)) as Hjf.
  { etrans; [apply jframe_code|]. apply jframe_wr_jmp. }
  assert (∀ y, jnext (wr_jmp s0 (u, Lnext n) None) y =
    if decide ((u, Lnext n) = y) then None else jnext s y) as Hn.
  { intros y. by rewrite jnext_wr_jmp. }
  destruct (IH (wr_jmp s0 (u, Lnext n) None) (jnext s (u, Lnext n)) l)
    as (s' & Hok & Hjf' & Hn' & Hc).
  - eapply seg_ext, Hs. intros y Hy. rewrite Hn, decide_False; [done|set_solver].
  - done.
  - intros y Hy. destruct (Hl y) as [? ?]; [set_solver|]. eauto using jframe_tb.
  - cbn in Hf. lia.
  - exists s'. split_and!; [done|by etrans| |].
    + intros y. rewrite Hn', Hn. repeat case_decide; set_solver.
    + rewrite Hc. cbn [foldl]. change (host_code (wr_jmp s0 _ None)) with
        (reset_code s (host_code s) (u, Lnext n)).
      apply foldl_ext. intros c y _. apply reset_code_ext. apply Hjf.
Qed.

(** Once the block jumps nowhere and the jumps to it are unchained, it can be
    dropped. *)
Section drop.
  Context s s' live J t (l : list jnode).
  Context (Hj : jump_inv s live J) (Hr : jring s J t l).
  Context (Hout : ∀ n, jnext s (t, Lnext n) = None).
  Context (Hn : ∀ x, x ≠ (t, Lfirst) → jnext s' x = if decide (x ∈ l) then None else jnext s x).

Lemma drop_ring v k : v ≠ t → jring s J v k → jring s' J v k.
Proof.
  intros Hv Hk. pose proof Hk as (Hrg & Hnd & Hlk). split_and!; [|done|done].
  assert (∀ x, x = (v, Lfirst) ∨ x ∈ k → jnext s' x = jnext s x) as Hs.
    { intros x Hx. rewrite Hn.
      - rewrite decide_False; [done|]. intros Hl. destruct Hx as [->|Hx].
        + by apply (jring_not_first _ _ _ _ _ Hr Hl).
        + apply Hv. by eapply (jring_inj s J _ _ k l x).
      - intros ->. destruct Hx as [[= ->]|Hx]; [done|].
        by apply (jring_not_first _ _ _ _ _ Hk Hx). }
    unfold ring. rewrite Hs by (by left). apply (seg_ext (jnext s)); [|done].
    intros x Hx. rewrite Hs by (by right). done.
Qed.

Lemma drop_chained u n v :
  v ≠ t → chained s J u n v → chained s' J u n v.
Proof. intros Hv (k & Hk & Hin). exists k. eauto using drop_ring. Qed.

Lemma drop_jump_inv : jump_inv s' (live ∖ {[t]}) J.
Proof.
  destruct Hj as [Ha Hb]. split.
  - intros v [Hv Hvt%not_elem_of_singleton]%elem_of_difference.
    destruct (Ha v Hv) as [k Hk]. eauto using drop_ring.
  - intros u n Hu Hun. rewrite Hn in Hun by done.
    case_decide as Hl; [done|]. destruct (Hb u n Hu Hun) as (v & k & Hv & Hk & Hin).
    destruct (decide (v = t)) as [->|Hvt].
    + by rewrite (jring_same _ _ _ _ _ Hk Hr) in Hin.
    + exists v, k. split_and!; [set_solver|eauto using drop_ring|done].
Qed.

End drop.

(** The jump part of [tb_phys_invalidate]. *)
Record jumps_post s s' live J t : Prop := {
  jp_frame : jframe s s';
  jp_inv : jump_inv s' (live ∖ {[t]}) J;
  jp_chained u n v : u ≠ t → v ≠ t → v ∈ live → chained s J u n v →
    chained s' J u n v;
  jp_none u n : jnext s (u, Lnext n) = None → jnext s' (u, Lnext n) = None;
  jp_out n : jnext s' (t, Lnext n) = None;
  jp_unchained u n : chained s J u n t → jnext s' (u, Lnext n) = None;
  jp_code : ∃ l, host_code s' = foldl (reset_code s) (host_code s) l ∧
    ∀ x, x ∈ l ↔ ∃ u n, x = (u, Lnext n) ∧ u ≠ t ∧ chained s J u n t
}.

(** After both removals: the jumps of [t] are off their lists, the others are
    where they were. *)
Record jumps_mid s s' live J t : Prop := {
  jm_frame : jframe s s';
  jm_code : host_code s' = host_code s;
  jm_inv : jump_inv s' live J;
  jm_out n : jnext s' (t, Lnext n) = None;
  jm_none u n : jnext s (u, Lnext n) = None → jnext s' (u, Lnext n) = None;
  jm_chained u n v : u ≠ t → v ∈ live → chained s J u n v → chained s' J u n v
}.

Lemma jmp_remove_both s live J t :
  jset s live J → jump_inv s live J → t ∈ live →
  ∃ s1 s2, tb_jmp_remove s t S0 = Ok s1 ∧ tb_jmp_remove s1 t S1 = Ok s2 ∧ jumps_mid s s2 live J t.
Proof.
  intros Hjs Hj Ht%(js_live _ _ _ Hjs).
  destruct (tb_jmp_remove_ok s live J t S0) as (s1 & H1 & F1 & C1 & J1 & N1 & K1 & L1); [done..|].
  destruct (tb_jmp_remove_ok s1 live J t S1) as (s2 & H2 & F2 & C2 & J2 & N2 & K2 & L2);
    [by eapply jframe_jset|done..|].
  exists s1, s2. split_and!; [done..|]. split; [by etrans|congruence|done|..].
  - intros []; [|done]. apply K2; [done|]. by exists t, S0.
  - intros u n Hn. apply K2; [apply K1; [done|]|]; by exists u, n.
  - intros u n v Hu Hv Hc. apply L2; [done|congruence|]. apply L1; [done|congruence|done].
Qed.

(** A jump that is on the list of [t] afterwards was chained to [t] before. *)
Lemma jumps_mid_chained s s' live J t u n v :
  jump_inv s live J → jumps_mid s s' live J t → u ∈ J → u ≠ t → v ∈ live →
  chained s' J u n v → chained s J u n v.
Proof.
  intros [_ Hb] Hm Hu Hut Hv (l & Hr & Hin).
  destruct (jnext s (u, Lnext n)) as [y|] eqn:E.
  - destruct (Hb u n Hu) as (w & k & Hw & Hk & Hkin); [by rewrite E|].
    destruct (jm_chained _ _ _ _ _ Hm u n w) as (k' & Hk' & Hin'); [done..|by exists k|].
    rewrite (jring_inj _ _ _ _ _ _ _ Hr Hk' Hin Hin'). by exists k.
  - apply (jm_none _ _ _ _ _ Hm) in E. by destruct (ring_next_some _ _ _ _ (proj1 Hr) Hin).
Qed.

Lemma inval_jumps_ok s live J t :
  jset s live J → jump_inv s live J → t ∈ live →
  ∃ s1 s2 s3, tb_jmp_remove s t S0 = Ok s1 ∧ tb_jmp_remove s1 t S1 = Ok s2 ∧
    is_Some (tbs s2 !! t) ∧ tb_unchain (loop_fuel s2) s2 (jnext s2 (t, Lfirst)) = Ok s3 ∧
    jumps_post s (wr_jmp s3 (t, Lfirst) (Some (t, Lfirst))) live J t.
Proof.
  intros Hjs Hj Ht. destruct (jmp_remove_both s live J t) as (s1 & s2 & H1 & H2 & Hm); [done..|].
  assert (jset s2 live J) as Hjs2 by (by eapply jframe_jset; [apply Hm|]).
  assert (is_Some (tbs s2 !! t)) as Hs2 by (by apply (js_tb _ _ _ Hjs2), (js_live _ _ _ Hjs2)).
  destruct (proj1 (jm_inv _ _ _ _ _ Hm) t Ht) as (l & Hl). pose proof Hl as (Hrg & Hnd & Hlj).
  assert (∀ x, x ∈ l → ∃ u n, x = (u, Lnext n) ∧ u ≠ t ∧ chained s J u n t) as Hlin.
  { intros x Hx. destruct (Hlj x Hx) as (u & n & -> & Hu). exists u, n.
    assert (u ≠ t) as Hut. { intros ->. by apply (ring_next_some _ _ _ _ Hrg Hx), Hm. }
    split_and!; [done..|]. eapply jumps_mid_chained; eauto. by exists l. }
  assert (∀ u n, u ≠ t → chained s J u n t → (u, Lnext n) ∈ l) as Hlin'.
  { intros u n Hu Hc. destruct (jm_chained _ _ _ _ _ Hm u n t) as (k & Hk & Hin); [done..|].
    by rewrite (jring_same _ _ _ _ _ Hl Hk). }
  destruct (tb_unchain_ok (loop_fuel s2) s2 (jnext s2 (t, Lfirst)) l t)
    as (s3 & H3 & F3 & N3 & C3); [done..| | |].
  { intros x Hx. split; [by eapply jring_link|].
    destruct (Hlj x Hx) as (u & n & -> & Hu). by apply Hjs2. }
  { opose proof (jnode_bound s2 _ Hnd _) as Hb; [|unfold loop_fuel; lia].
    intros x (u & n & -> & Hu)%Hlj. exists u, n. split; [done|]. by apply Hjs2. }
  exists s1, s2, s3. split_and!; [done..|].
  assert (∀ x, x ≠ (t, Lfirst) → jnext (wr_jmp s3 (t, Lfirst) (Some (t, Lfirst))) x =
    if decide (x ∈ l) then None else jnext s2 x) as Hn.
  { intros x Hx. rewrite jnext_wr_jmp by (by eapply jframe_tb).
    rewrite decide_False by done. apply N3. }
  split.
  - etrans; [apply Hm|]. etrans; [apply F3|]. apply jframe_wr_jmp.
  - by eapply (drop_jump_inv s2); [apply Hm|..|apply Hm|].
  - intros u n v Hu Hvt Hv Hc. eapply (drop_chained s2); [apply Hl|apply Hm|apply Hn|done|].
    by apply Hm.
  - intros u n Hu. rewrite Hn by done. case_decide; [done|]. by apply Hm.
  - intros n. rewrite Hn by done. case_decide; [done|]. apply Hm.
  - intros u n Hc. rewrite Hn by done. destruct (decide (u = t)) as [->|Hu].
    + case_decide; [done|]. apply Hm.
    + rewrite decide_True by eauto. done.
  - exists l. split; [|naive_solver]. change (host_code (wr_jmp s3 _ _)) with (host_code s3).
    rewrite C3, (jm_code _ _ _ _ _ Hm). apply foldl_ext. intros c x _.
    apply reset_code_ext. apply Hm.
Qed.

(** ** The whole operation *)

(** The part that takes the block off the hash list, the page lists and the
    jump caches. *)
Record unlist_post s s' live E t : Prop := {
  up_static u : static s' u = static s u;
  up_jnext x : jnext s' x = jnext s x;
  up_live : live_inv s' live;
  up_hash : hash_inv s' (live ∖ {[t]});
  up_page : page_inv s' (live ∖ {[t]}) E;
  up_cache : cache_inv s' (live ∖ {[t]});
  up_pnext y : pnext s' y = pnext s y ∨ ∃ m, pnext s y = Some (t, m);
  up_head i : valid_index i → page_head s' i ≠ None → page_head s i ≠ None;
  up_find i : valid_index i → is_Some (page_find (l1_map s') i) ↔ is_Some (page_find (l1_map s) i);
  up_flags i : valid_index i → pflags (page_desc (l1_map s') i) = pflags (page_desc (l1_map s) i);
  up_cpus : ∃ h, cpus s' = jmp_cache_clear h t <$> cpus s;
  up_rest : s' = s <| tbs := tbs s' |> <| l1_map := l1_map s' |>
    <| tb_phys_hash := tb_phys_hash s' |> <| cpus := cpus s' |> <| tb_invalidated_flag := 1 |>
}.

Lemma inval_unlist_ok s0 live J E t tb skip :
  tb_inv_ex s0 live J E → skips skip E → t ∈ live → tbs s0 !! t = Some tb →
  ∃ s1 s2 s3, tb_remove s0 (tb_bucket tb) t = Ok s1 ∧
    tb_unlink_page s1 t (at0 (page_addr tb)) skip = Ok s2 ∧
    (if at1 (page_addr tb) =? no_page then Ok s2
     else tb_unlink_page s2 t (at1 (page_addr tb)) skip) = Ok s3 ∧
    (let s := s3 <| tb_invalidated_flag := 1 |> in
     unlist_post s0
       (s <| cpus := jmp_cache_clear (tb_jmp_cache_hash_func (pc tb)) t <$> cpus s |>) live E t).
Proof.
  intros [Hlv Hh Hp Hjs Hj Hc] Hskip Ht Htb.
  destruct (tb_remove_ok s0 live t tb) as (c & H1 & Hcs & Hh1); [done..|].
  set (s1 := wr_hash s0 c _) in *.
  assert (l1_map s1 = l1_map s0 ∧ nb_tbs s1 = nb_tbs s0 ∧ cpus s1 = cpus s0) as (El & En & Ec)
    by (by destruct c).
  assert (∀ u, static s1 u = static s0 u) as Es by (intros; apply static_wr_hash).
  destruct (static_some s0 s1 t tb (eq_sym (Es t)) Htb) as (tb1 & Htb1 & Ee).
  assert (live_inv s1 live) as Hlv1 by (by apply (live_inv_ext s0)).
  destruct (tb_unlink_pages_ok s1 live E t tb1 skip) as (s2 & s3 & H2 & H3 & Hf & Hp3 & Hn3 & Hh3);
    [done| |done..|].
  { apply (page_inv_ext s0); [done| |unfold page_head; by rewrite El|done].
    intros. symmetry. apply pnext_wr_hash. }
  rewrite (erase_view page_addr _ _ Ee) in H2, H3 by done.
  pose proof (pf_rest _ _ Hf) as Er.
  exists s1, s2, s3. split_and!; [done..|]. split; try done.
  - intros u. rewrite <- Es. apply Hf.
  - intros x. rewrite <- (jnext_wr_hash s0 c (hnext s0 t)). apply Hf.
  - by apply (pframe_live _ _ _ Hf).
  - apply (hash_inv_ext s1); [intros; symmetry; apply Hf..| |done]. intros h. by rewrite Er.
  - rewrite <- (erase_view pc _ _ Ee) by done.
    destruct (static_some s1 s3 t tb1) as (tb3 & Htb3 & Ee3); [symmetry; apply Hf|done|].
    rewrite <- (erase_view pc _ _ Ee3) by done.
    apply (jmp_cache_clear_ok (s3 <| tb_invalidated_flag := 1 |>) live t tb3); [|done].
    apply (cache_inv_ext s0); [|by rewrite Er|done]. intros u. symmetry.
    rewrite <- Es. apply Hf.
  - intros y. rewrite <- (pnext_wr_hash s0 c (hnext s0 t)). apply Hn3.
  - intros i Hi Hne. rewrite (page_head_l1 s0 s1) by done. by apply Hh3.
  - intros i Hi. rewrite <- El. by apply (pf_find _ _ Hf).
  - intros i Hi. rewrite <- El. by apply (pf_flags _ _ Hf).
  - exists (tb_jmp_cache_hash_func (pc tb)). cbn. rewrite Er. cbn. by rewrite Ec.
  - rewrite Er. unfold s1. destruct c, s0; done.
Qed.

(** What the invalidation of [t] does to the rest of the state. *)
Record inval_frame s s' live J t : Prop := {
  if_static u : static s' u = static s u;
  if_pnext y : pnext s' y = pnext s y ∨ ∃ m, pnext s y = Some (t, m);
  if_head i : valid_index i → page_head s' i ≠ None → page_head s i ≠ None;
  if_find i : valid_index i → is_Some (page_find (l1_map s') i) ↔ is_Some (page_find (l1_map s) i);
  if_flags i : valid_index i → pflags (page_desc (l1_map s') i) = pflags (page_desc (l1_map s) i);
  if_chained u n v : u ≠ t → v ≠ t → v ∈ live → chained s J u n v →
    chained s' J u n v;
  if_none u n : jnext s (u, Lnext n) = None → jnext s' (u, Lnext n) = None;
  if_out n : jnext s' (t, Lnext n) = None;
  if_unchained u n : chained s J u n t → jnext s' (u, Lnext n) = None;
  if_code : ∃ l, host_code s' = foldl (reset_code s) (host_code s) l ∧
    ∀ x, x ∈ l ↔ ∃ u n, x = (u, Lnext n) ∧ u ≠ t ∧ chained s J u n t;
  if_cpus : ∃ h, cpus s' = jmp_cache_clear h t <$> cpus s;
  if_rest : s' = s <| tbs := tbs s' |> <| l1_map := l1_map s' |> <| host_code := host_code s' |>
    <| tb_phys_hash := tb_phys_hash s' |>
    <| cpus := cpus s' |> <| tb_invalidated_flag := 1 |>
    <| tb_phys_invalidate_count := tb_phys_invalidate_count s + 1 |>
}.

Lemma jnext_chained s s' J u n v :
  (∀ x, jnext s x = jnext s' x) → chained s J u n v → chained s' J u n v.
Proof.
  intros E (l & (Hr & ? & ?) & ?). exists l. split; [|done]. split; [|done].
  unfold ring. rewrite <- E. by apply (seg_ext (jnext s)).
Qed.

Lemma inval_rest s s1 s2 a b c d e f :
  s1 = s <| tbs := a |> <| l1_map := b |> <| tb_phys_hash := c |> <| cpus := d |>
         <| tb_invalidated_flag := 1 |> →
  s2 = s1 <| tbs := e |> <| host_code := f |> →
  s2 <| tb_phys_invalidate_count := tb_phys_invalidate_count s2 + 1 |> =
    s <| tbs := tbs s2 |> <| l1_map := l1_map s2 |> <| host_code := host_code s2 |>
      <| tb_phys_hash := tb_phys_hash s2 |> <| cpus := cpus s2 |> <| tb_invalidated_flag := 1 |>
      <| tb_phys_invalidate_count := tb_phys_invalidate_count s + 1 |>.
Proof. by intros -> ->. Qed.

Lemma tb_phys_invalidate_ok s live J E t skip :
  tb_inv_ex s live J E → skips skip E → t ∈ live →
  ∃ s', tb_phys_invalidate s t skip = Ok s' ∧ tb_inv_ex s' (live ∖ {[t]}) J E ∧
    inval_frame s s' live J t.
Proof.
  intros Hinv Hskip Ht. destruct (inv_live _ _ _ _ Hinv t Ht) as (tb & Htb & _).
  destruct (inval_unlist_ok s live J E t tb skip) as (s1 & s2 & s3 & H1 & H2 & H3 & Hu); [done..|].
  unfold tb_phys_invalidate, get_tb. rewrite Htb. cbn [rbind deref].
  unfold tb_bucket in H1. rewrite H1. cbn [rbind]. rewrite H2. cbn [rbind]. rewrite H3. cbn [rbind].
  cbv zeta in Hu. set (s4 := _ <| cpus := _ |>) in *.
  assert (jump_inv s4 live J) as Hj4.
  { apply (jump_inv_ext s); [|apply Hinv]. intros x. symmetry. apply Hu. }
  assert (jset s4 live J) as Hjs4.
  { apply (jset_ext s); [intros; symmetry; apply Hu|by rewrite (up_rest _ _ _ _ _ Hu)|apply Hinv]. }
  destruct (inval_jumps_ok s4 live J t Hjs4 Hj4 Ht)
    as (s5 & s6 & s7 & H5 & H6 & Hs6 & H7 & Hp).
  rewrite H5. cbn [rbind]. rewrite H6. cbn [rbind]. rewrite rd_jmp_ok by done. cbn [rbind].
  rewrite H7. cbn [rbind]. eexists. split; [done|].
  set (s8 := wr_jmp s7 _ _) in *. pose proof (jp_frame _ _ _ _ _ Hp) as Hf.
  assert (∀ u m v, chained s J u m v ↔ chained s4 J u m v) as Hch.
  { intros. split; apply jnext_chained; intros; [symmetry|]; apply Hu. }
  split; split.
  - intros u [Hul _]%elem_of_difference. exact (jframe_live _ _ live Hf (up_live _ _ _ _ _ Hu) u Hul).
  - by apply (jframe_hash_inv _ _ _ Hf), Hu.
  - by apply (jframe_page_inv _ _ _ _ Hf), Hu.
  - destruct (jframe_jset _ _ _ _ Hf Hjs4) as [A1 A2 A3]. split; [set_solver|done|done].
  - apply Hp.
  - by apply (jframe_cache _ _ _ Hf), Hu.
  - intros u. etrans; [apply Hf|]. apply Hu.
  - intros y. change (pnext (_ <| tb_phys_invalidate_count := _ |>) y) with (pnext s8 y).
    rewrite (jf_pnext _ _ Hf). apply Hu.
  - intros i Hi. change (page_head (_ <| tb_phys_invalidate_count := _ |>) i) with (page_head s8 i).
    rewrite (page_head_l1 s8 s4) by (symmetry; by apply jframe_l1). by apply Hu.
  - intros i Hi. change (l1_map (_ <| tb_phys_invalidate_count := _ |>)) with (l1_map s8).
    rewrite (jframe_l1 _ _ Hf). by apply (up_find _ _ _ _ _ Hu).
  - intros i Hi. change (l1_map (_ <| tb_phys_invalidate_count := _ |>)) with (l1_map s8).
    rewrite (jframe_l1 _ _ Hf). by apply (up_flags _ _ _ _ _ Hu).
  - intros u n v Hut Hvt Hv Hc%Hch. by apply (jp_chained _ _ _ _ _ Hp).
  - intros u n Hn. apply (jp_none _ _ _ _ _ Hp). by rewrite (up_jnext _ _ _ _ _ Hu).
  - intros n. apply (jp_out _ _ _ _ _ Hp).
  - intros u n Hc%Hch. by apply (jp_unchained _ _ _ _ _ Hp).
  - destruct (jp_code _ _ _ _ _ Hp) as (l & Hl & Hin). exists l. split.
    + change (host_code (_ <| tb_phys_invalidate_count := _ |>)) with (host_code s8).
      rewrite Hl. replace (host_code s4) with (host_code s) by (by rewrite (up_rest _ _ _ _ _ Hu)).
      apply foldl_ext. intros c x _. apply reset_code_ext, Hu.
    + intros x. rewrite Hin. by setoid_rewrite <- Hch.
  - change (cpus (_ <| tb_phys_invalidate_count := _ |>)) with (cpus s8).
    rewrite (jframe_cpus _ _ Hf). apply Hu.
  - exact (inval_rest s s4 s8 _ _ _ _ _ _ (up_rest _ _ _ _ _ Hu) (jf_rest _ _ Hf)).
Qed.

(** ** The native code after the invalidation *)

Lemma inval_frame_layout s s' live J t : inval_frame s s' live J t → layout s → layout s'.
Proof.
  intros Hf. apply layout_ext; [intros; apply static_code_view; symmetry; apply Hf|..];
    by rewrite (if_rest _ _ _ _ _ Hf).
Qed.

(** A jump that is chained afterwards was chained to the same block before. *)
Lemma inval_frame_chained s s' live J t u n v :
  jump_inv s live J → inval_frame s s' live J t → u ∈ J → u ≠ t → v ∈ live →
  chained s' J u n v → v ≠ t ∧ chained s J u n v.
Proof.
  intros [_ Hb] Hf Hu Hut Hv (l & Hr & Hin).
  assert (jnext s' (u, Lnext n) ≠ None) as Hn by (by eapply ring_next_some; [apply Hr|]).
  destruct (jnext s (u, Lnext n)) eqn:E; [|by apply (if_none _ _ _ _ _ Hf) in E].
  destruct (Hb u n Hu) as (w & k & Hw & Hk & Hkin); [by rewrite E|].
  assert (w ≠ t) as Hwt. { intros ->. apply Hn, (if_unchained _ _ _ _ _ Hf). by exists k. }
  destruct (if_chained _ _ _ _ _ Hf u n w) as (k' & Hk' & Hkin'); [done..|by exists k|].
  rewrite (jring_inj _ _ _ _ _ _ _ Hr Hk' Hin Hkin'). split; [done|]. by exists k.
Qed.

(** The blocks of a set and their jumps are what they were. *)
Lemma static_jumper s s' K u tb' n :
  (∀ t, static s' t = static s t) → jumper s' K u tb' n → ∃ tb, jumper s K u tb n ∧ erase tb = erase tb'.
Proof.
  intros Hs (Hu & Htb & Hn). destruct (static_some s' s u tb' (Hs u) Htb) as (tb & Htb0 & Ee).
  exists tb. split; [|done]. split_and!; try done. by rewrite (erase_view (λ tb, has_jump tb n) _ _ Ee).
Qed.

(** The jumps that are reset. *)
Lemma chained_jumper s live J u n v :
  jset s live J → code_inv s live J → chained s J u n v → ∃ tb, jumper s J u tb n.
Proof.
  intros Hjs Hc (k & Hk & Hin). destruct (proj2 (proj2 Hk) _ Hin) as (? & ? & [= <- <-] & Hu).
  destruct (js_tb _ _ _ Hjs u Hu) as [tb Htb]. exists tb. split_and!; [done..|].
  eapply ci_has; [done..|]. by eapply ring_next_some; [apply Hk|].
Qed.

Section code.
  Context s s' live J t (Hjs : jset s live J) (Hl : layout s) (Hc : code_inv s live J) (Hf : inval_frame s s' live J t).

Lemma inval_reset_list (l : list jnode) :
  (∀ x, x ∈ l ↔ ∃ u n, x = (u, Lnext n) ∧ u ≠ t ∧ chained s J u n t) →
  ∀ x, x ∈ l → ∃ u tb n, x = (u, Lnext n) ∧ jumper s J u tb n.
Proof.
  intros Hin x (v & m & -> & Hvt & Hch)%Hin. destruct (chained_jumper s live J v m t) as [tb ?]; [done..|]. eauto.
Qed.

(** The jumps to the block return to the main loop and the others are as they
    were. *)
Lemma inval_frame_dest u tb n :
  jumper s J u tb n → u ≠ t →
  (chained s J u n t →
     jmp_dest (host_code s') (jmp_slot tb n) = Some (jmp_epilogue tb n)) ∧
  (¬ chained s J u n t →
     jmp_dest (host_code s') (jmp_slot tb n) = jmp_dest (host_code s) (jmp_slot tb n)).
Proof.
  intros Hu Hut. destruct (if_code _ _ _ _ _ Hf) as (l & -> & Hin).
  rewrite (foldl_reset_dest s J Hl (js_nb _ _ _ Hjs) _ l u); [|by apply inval_reset_list|apply Hc|done].
  split; intros Hch.
  - by rewrite decide_True by naive_solver.
  - rewrite decide_False; [done|]. rewrite Hin. naive_solver.
Qed.

Lemma inval_frame_ops : jumps_ok s' J (host_code s').
Proof.
  intros u tb' n (tb & Hu & Ee)%(static_jumper s); [|apply Hf].
  rewrite <- (erase_view (λ tb, jmp_slot tb n) _ _ Ee) by done.
  destruct (if_code _ _ _ _ _ Hf) as (l & -> & Hin).
  by apply (foldl_reset_ops s J Hl (js_nb _ _ _ Hjs) _ l (inval_reset_list l Hin) (ci_op _ _ _ Hc) u).
Qed.

Lemma inval_code_inv : jump_inv s live J → t ∈ live → code_inv s' (live ∖ {[t]}) J.
Proof.
  intros Hj Ht. split.
  - apply inval_frame_ops.
  - intros u tb' n Hu Htb' Hn.
    destruct (static_some s' s u tb' (if_static _ _ _ _ _ Hf u) Htb') as (tb & Htb & Ee).
    rewrite <- (erase_view (λ tb, has_jump tb n) _ _ Ee) by done.
    apply (ci_has s live J Hc u tb n); [done..|]. intros E. by apply Hn, Hf.
  - intros u tb' n (tb & ([Hu Hut%not_elem_of_singleton]%elem_of_difference & Htb & Hhas) & Ee)%(static_jumper s) Hn; [|apply Hf].
    assert (jumper s J u tb n) as HuJ by (split_and!; [by apply Hjs|done..]).
    rewrite <- (erase_view (λ tb, jmp_slot tb n) _ _ Ee),
      <- (erase_view (λ tb, jmp_epilogue tb n) _ _ Ee) by done.
    destruct (inval_frame_dest u tb n) as [H1 H2]; [done..|].
    destruct (jnext s (u, Lnext n)) eqn:E.
    + destruct (proj2 Hj u n (proj1 HuJ)) as (w & k & Hw & Hk & Hkin); [by rewrite E|].
      destruct (decide (w = t)) as [->|Hwt]; [apply H1; by exists k|].
      destruct (if_chained _ _ _ _ _ Hf u n w) as (k' & Hk' & Hin'); [done..|by exists k|].
      by destruct (ring_next_some _ _ _ _ (proj1 Hk') Hin').
    + rewrite H2; [by eapply ci_free|]. intros (k & Hk & Hkin).
      by destruct (ring_next_some _ _ _ _ (proj1 Hk) Hkin).
  - intros u tb' n v tbv' Hu' [Hv _]%elem_of_difference Htv' Hch.
    destruct (static_jumper s s' J u tb' n (if_static _ _ _ _ _ Hf) Hu') as (tb & Hu & Ee).
    assert (u ≠ t) as Hut.
    { intros ->. destruct Hch as (k & Hk & Hkin). by apply (ring_next_some _ _ _ _ (proj1 Hk) Hkin), (if_out _ _ _ _ _ Hf). }
    destruct (static_some s' s v tbv' (if_static _ _ _ _ _ Hf v) Htv') as (tbv & Htv & Eev).
    rewrite <- (erase_view (λ tb, jmp_slot tb n) _ _ Ee), <- (erase_view tc_ptr _ _ Eev) by done.
    destruct (inval_frame_chained s s' live J t u n v) as [Hvt Hch0];
      [done..|by apply Hu|done|done|done|].
    destruct (inval_frame_dest u tb n) as [_ ->]; [done..|by eapply ci_chained|].
    intros (k & Hk & Hin). destruct Hch0 as (k' & Hk' & Hin').
    by apply Hvt, (jring_inj _ _ _ _ _ _ _ Hk' Hk Hin' Hin).
Qed.

End code.

End inval.
