(* ===== verification/TBJump.v ===== *)
(** * Chaining of translation blocks

    [tb_add_jump] puts a native jump on the list of its target and patches the
    code; [tb_reset_jump_recursive] undoes it along the chain of the running
    block, so that it returns to the main loop ([cpu_interrupt],
    [cpu_exit]). *)

From stdpp Require Import base gmap list fin_maps.
From S2P Require Import Prelude Chain Config CodePatch PageTable TBData TBOps TBInv TBLists TBCode.
Local Open Scope Z_scope.
Local Coercion Z.of_nat : nat >-> Z.

Section jump.
  Context `{Guest} `{!PageTable PT}.
  Notation st := (exec_state PT).
  Implicit Types (s : st) (t u v w : tbid) (tb : TranslationBlock) (n m : slot) (live J : gset tbid).

(** ** Chaining *)

Section insert.
  Context s s' live J u n v (Hj : jump_inv s live J).
  Context (Hu : u ∈ J) (Hv : v ∈ live) (Hun : jnext s (u, Lnext n) = None).
  Context (Hn : ∀ y, jnext s' y = if decide (y = (u, Lnext n)) then jnext s (v, Lfirst)
                                  else if decide (y = (v, Lfirst)) then Some (u, Lnext n)
                                  else jnext s y).

Lemma insert_fresh t l : jring s J t l → (u, Lnext n) ∉ l.
Proof. intros Hr Hin. by apply (ring_next_some _ _ _ _ (proj1 Hr) Hin). Qed.

Lemma insert_seg t p l q :
  jring s J t l → seg (jnext s) p l q → seg (jnext s') p l q.
Proof.
  intros Hr. apply seg_ext. intros y Hy. rewrite Hn.
  rewrite decide_False by (intros ->; by eapply insert_fresh).
  rewrite decide_False; [done|]. intros ->. by eapply (jring_not_first _ _ _ _ _ Hr).
Qed.

Lemma insert_ring l : jring s J v l → jring s' J v ((u, Lnext n) :: l).
Proof.
  intros Hr. pose proof Hr as (Hrg & Hnd & Hlj). split_and!.
  - unfold ring. rewrite Hn, decide_False, decide_True by done. cbn. split; [done|].
    rewrite Hn, decide_True by done. by apply (insert_seg v).
  - apply NoDup_cons. split; [by eapply insert_fresh|done].
  - intros x [->|Hx]%elem_of_cons; [by exists u, n|by apply Hlj].
Qed.

Lemma insert_other t l : t ≠ v → jring s J t l → jring s' J t l.
Proof.
  intros Ht Hr. pose proof Hr as (Hrg & Hnd & Hlj). split_and!; [|done..].
  unfold ring. rewrite Hn, !decide_False by congruence. by apply (insert_seg t).
Qed.

Lemma insert_jump_inv : jump_inv s' live J.
Proof.
  destruct Hj as [Ha Hb]. split.
  - intros t Ht. destruct (Ha t Ht) as [l Hl].
    destruct (decide (t = v)) as [->|]; eauto using insert_ring, insert_other.
  - intros w m Hw Hwm. rewrite Hn in Hwm. case_decide as E.
    + destruct (Ha v Hv) as [l Hl]. exists v, ((u, Lnext n) :: l).
      split_and!; [done|by apply insert_ring|set_solver].
    + rewrite decide_False in Hwm by done. destruct (Hb w m Hw Hwm) as (t & l & Ht & Hl & Hin).
      destruct (decide (t = v)) as [->|].
      * exists v, ((u, Lnext n) :: l). split_and!; [done|by apply insert_ring|set_solver].
      * exists t, l. eauto using insert_other.
Qed.

(** Which jumps are chained to which blocks afterwards. *)
Lemma insert_chained w m t :
  t ∈ live → chained s' J w m t ↔
    (w, m) = (u, n) ∧ t = v ∨ (w, m) ≠ (u, n) ∧ chained s J w m t.
Proof.
  intros Ht. destruct (proj1 Hj t Ht) as [l Hl].
  destruct (decide (t = v)) as [->|Htv].
  - pose proof (insert_ring l Hl) as Hl'. split.
    + intros (k & Hk & Hin). rewrite (jring_same _ _ _ _ _ Hk Hl') in Hin.
      apply elem_of_cons in Hin as [[= -> ->]|Hin]; [by left|]. right.
      split; [|by exists l]. intros [= -> ->]. by eapply insert_fresh.
    + intros [[[= -> ->] _]|[Hne (k & Hk & Hin)]]; exists ((u, Lnext n) :: l);
        (split; [done|]); [set_solver|]. rewrite (jring_same _ _ _ _ _ Hk Hl) in Hin. set_solver.
  - pose proof (insert_other t l Htv Hl) as Hl'. split.
    + intros (k & Hk & Hin). rewrite (jring_same _ _ _ _ _ Hk Hl') in Hin. right.
      split; [|by exists l]. intros [= -> ->]. by eapply insert_fresh.
    + intros [[_ ?]|[_ (k & Hk & Hin)]]; [done|]. exists l. split; [done|].
      by rewrite (jring_same _ _ _ _ _ Hl Hk).
Qed.

End insert.

Lemma jframe_jumper s s' J w tbw' m :
  jframe s s' → jumper s' J w tbw' m → ∃ tbw, jumper s J w tbw m ∧ erase tbw = erase tbw'.
Proof.
  intros Hf (Hw & Htw' & Hm).
  destruct (static_some s' s w tbw' (jf_static _ _ Hf w) Htw') as (tbw & Htw & Ee).
  exists tbw. split; [|done]. split_and!; try done.
  by rewrite (erase_view (λ tb, has_jump tb m) _ _ Ee).
Qed.

(** Patching the jump [n] of [u] together with its list entry. *)
Lemma insert_code_inv s s' live J u tb n v tbv :
  jump_inv s live J → jset s live J → layout s → code_inv s live J → jframe s s' →
  jumper s J u tb n → v ∈ live → tbs s !! v = Some tbv → jnext s (u, Lnext n) = None →
  (∀ y, jnext s' y = if decide (y = (u, Lnext n)) then jnext s (v, Lfirst)
                     else if decide (y = (v, Lfirst)) then Some (u, Lnext n) else jnext s y) →
  host_code s' = tb_set_jmp_target1 (host_code s) (jmp_slot tb n) (tc_ptr tbv) →
  code_inv s' live J.
Proof.
  intros Hj Hjs Hl Hc Hf Hu Hv Htv Hun Hn Hcode.
  assert (∀ w tbw m, jumper s live w tbw m → jumper s J w tbw m) as HlJ.
  { intros w tbw m (Hw & ?). split; [by apply Hjs|done]. }
  split.
  - intros w tbw' m (tbw & Hw & Ee)%(jframe_jumper _ _ _ _ _ _ Hf).
    rewrite <- (erase_view (λ tb, jmp_slot tb m) _ _ Ee) by done. rewrite Hcode.
    by apply (set_jump_ops s J Hl (js_nb _ _ _ Hjs) _ u tb n _ Hu (ci_op _ _ _ Hc) w).
  - intros w tbw' m Hw Htw' Hwm.
    destruct (static_some s' s w tbw' (jf_static _ _ Hf w) Htw') as (tbw & Htw & Ee).
    rewrite <- (erase_view (λ tb, has_jump tb m) _ _ Ee) by done.
    rewrite Hn in Hwm. case_decide as E; [simplify_eq|].
    + destruct Hu as (_ & Hu & ?). by simplify_eq.
    + rewrite decide_False in Hwm by done. by eapply ci_has.
  - intros w tbw' m (tbw & Hw & Ee)%(jframe_jumper _ _ _ _ _ _ Hf) Hwm.
    rewrite <- (erase_view (λ tb, jmp_slot tb m) _ _ Ee),
      <- (erase_view (λ tb, jmp_epilogue tb m) _ _ Ee) by done.
    rewrite Hn in Hwm. case_decide as E.
    { exfalso. destruct (proj1 Hj v Hv) as (l & Hr & _). unfold ring in Hr. rewrite Hwm in Hr.
      destruct l; [done|by destruct Hr]. }
    rewrite decide_False in Hwm by done. rewrite Hcode.
    rewrite (set_jump_other s J Hl (js_nb _ _ _ Hjs) _ u tb n w) by (auto || congruence). by eapply ci_free.
  - intros w tbw' m t tbt' (tbw & Hw & Ee)%(jframe_jumper _ _ _ _ _ _ Hf) Ht Htt' Hch.
    destruct (static_some s' s t tbt' (jf_static _ _ Hf t) Htt') as (tbt & Htt & Eet).
    rewrite <- (erase_view (λ tb, jmp_slot tb m) _ _ Ee), <- (erase_view tc_ptr _ _ Eet) by done.
    rewrite Hcode. apply (insert_chained s s' live J u n v Hj (proj1 Hu) Hv Hun Hn w m t Ht) in Hch.
    destruct Hch as [[[= -> ->] ->]|[Hne Hch]].
    + destruct Hu as (? & Hu & ?), Hw as (? & Hw & ?). simplify_eq.
      apply set_jmp_target1_dest; [|intros _; by apply (ci_op _ _ _ Hc u)].
      apply (layout_near_start s J Hl (js_nb _ _ _ Hjs) u tb n v); [done|by apply Hjs|done].
    + rewrite (set_jump_other s J Hl (js_nb _ _ _ Hjs) _ u tb n w) by (done || congruence).
      by eapply ci_chained.
Qed.

(** What [tb_add_jump] does. *)
Lemma tb_add_jump_ok s live J E u n v :
  tb_inv_ex s live J E → u ∈ J → v ∈ live →
  ∃ s', tb_add_jump s u n v = Ok s' ∧ jframe s s' ∧ tb_inv_ex s' live J E ∧
    (jnext s (u, Lnext n) = None → chained s' J u n v) ∧
    (layout s → code_inv s live J → (∀ tb, tbs s !! u = Some tb → has_jump tb n) →
     layout s' ∧ code_inv s' live J).
Proof.
  intros [Hlv Hh Hp Hjs Hj Hc] Hu Hv. unfold tb_add_jump, get_tb.
  destruct (js_tb _ _ _ Hjs u Hu) as [tb Htb], (Hlv v Hv) as (tbv & Htv & _ & _).
  assert (jnext s (u, Lnext n) = get2 (jmp_next tb) n) as Ejn by (unfold jnext; cbn; by rewrite Htb).
  rewrite Htb. cbn [rbind deref]. destruct (get2 (jmp_next tb) n) eqn:En.
  { exists s. split_and!; try done. congruence. }
  rewrite Htv. cbn [rbind deref]. unfold tb_set_jmp_target, get_tb. rewrite Htb. cbn [rbind deref].
  set (s1 := s <| host_code := _ |>). rewrite rd_jmp_ok by (cbn; by rewrite Htv).
  cbn [rbind]. eexists. split; [done|].
  change (jnext s1 (v, Lfirst)) with (jnext s (v, Lfirst)).
  set (s2 := wr_jmp s1 _ _). set (s3 := wr_jmp s2 _ _).
  assert (jframe s s3) as Hf.
  { etrans; [apply (jframe_code s)|]. etrans; apply jframe_wr_jmp. }
  assert (∀ y, jnext s3 y = if decide (y = (u, Lnext n)) then jnext s (v, Lfirst)
    else if decide (y = (v, Lfirst)) then Some (u, Lnext n) else jnext s y) as Hn.
  { intros y. unfold s3, s2. rewrite jnext_wr_jmp.
    - rewrite jnext_wr_jmp by (cbn; by rewrite Htb). repeat case_decide; naive_solver.
    - eapply jframe_tb; [apply jframe_wr_jmp|]. cbn. by rewrite Htv. }
  split_and!; [done| | |].
  - split; [by eapply jframe_live|by eapply jframe_hash_inv|by eapply jframe_page_inv|by eapply jframe_jset
      |by apply (insert_jump_inv s s3 live J u n v)|by eapply jframe_cache].
  - intros _. destruct (proj1 Hj v Hv) as [l Hl].
    exists ((u, Lnext n) :: l). split; [by apply (insert_ring s)|set_solver].
  - intros Hl Hci Hhas. split.
    + apply (layout_ext s); [intros; apply static_code_view; symmetry; apply Hf|done..].
    + eapply (insert_code_inv s s3 live J u tb n v tbv); try done. split_and!; [done..|by apply Hhas].
Qed.

(** ** Unchaining one jump *)

Lemma jmp_list_head_ok fuel s p l t :
  seg (jnext s) p l (Some (t, Lfirst)) →
  (∀ x, x ∈ l → is_link x ∧ is_Some (tbs s !! x.1)) → (length l < fuel)%nat →
  jmp_list_head fuel s p = Ok t.
Proof.
  induction fuel as [|fuel IH] in p, l |- *; intros Hs Hl Hf; [lia|].
  destruct l as [|x l]; cbn in Hs; [by subst p|]. destruct Hs as [-> Hs].
  destruct (Hl x) as [(u & n & ->) Hu]; [set_solver|]. cbn [jmp_list_head].
  rewrite rd_jmp_ok by done. cbn [rbind]. apply (IH _ l); [done|set_solver|cbn in Hf; lia].
Qed.

(** The state with the jump [n] of [u] off the ring of [v], where it follows
    [l1], and the code reset. *)
Definition unchain1 s u tb n v (l1 : list jnode) : st :=
  let s1 := wr_jmp (wr_jmp s (cell_after id (v, Lfirst) l1) (jnext s (u, Lnext n)))
              (u, Lnext n) None in
  s1 <| host_code := tb_set_jmp_target1 (host_code s) (jmp_slot tb n) (jmp_epilogue tb n) |>.

Section unchain1.
  Context s live J u tb n v (l1 l2 : list jnode).
  Context (Hjs : jset s live J) (Hj : jump_inv s live J).
  Context (Hu : u ∈ J) (Htb : tbs s !! u = Some tb) (Hv : v ∈ live).
  Context (Hr : jring s J v (l1 ++ (u, Lnext n) :: l2)).

Let s' : st := unchain1 s u tb n v l1.

Lemma unchain1_frame : jframe s s'.
Proof. etrans; [by eapply unlink_frame|apply jframe_code]. Qed.

Lemma unchain1_none_self : jnext s' (u, Lnext n) = None.
Proof.
  set (s1 := wr_jmp (wr_jmp s (cell_after id (v, Lfirst) l1) (jnext s (u, Lnext n)))
              (u, Lnext n) None).
  change (jnext s1 (u, Lnext n) = None). unfold s1.
  rewrite (unlink_next s live J _ v l1 l2) by done. by rewrite decide_True.
Qed.

Lemma unchain1_none w m : jnext s (w, Lnext m) = None → jnext s' (w, Lnext m) = None.
Proof.
  intros E. eapply (unlink_none s live J _ v l1 l2 Hjs Hj Hv Hr); [done|by exists w, m].
Qed.

(** It is the only change to the chaining relation. *)
Lemma unchain1_chained w m t :
  t ∈ live → w ∈ J → chained s' J w m t ↔ (w, m) ≠ (u, n) ∧ chained s J w m t.
Proof.
  intros Ht Hw. split.
  - intros (l & Hl & Hin).
    assert ((w, m) ≠ (u, n)) as Hne.
    { intros [= -> ->]. apply (ring_next_some _ _ _ _ (proj1 Hl) Hin), unchain1_none_self. }
    split; [done|]. destruct (jnext s (w, Lnext m)) eqn:E.
    + destruct (proj2 Hj w m Hw) as (t' & k & Ht' & Hk & Hkin); [by rewrite E|].
      assert (chained s' J w m t') as (k' & Hk' & Hkin').
      { apply (unlink_chained s live J _ v l1 l2 Hjs Hj Hv Hr); [done|congruence|by exists k]. }
      rewrite (jring_inj _ _ _ _ _ _ _ Hl Hk' Hin Hkin'). by exists k.
    + exfalso. by apply (ring_next_some _ _ _ _ (proj1 Hl) Hin), unchain1_none.
  - intros [Hne Hch]. apply (unlink_chained s live J _ v l1 l2 Hjs Hj Hv Hr); [done|congruence|done].
Qed.

Lemma unchain1_jump_inv : jump_inv s' live J.
Proof. eapply (jump_inv_ext (wr_jmp _ _ _)); [done|by eapply unlink_jump_inv]. Qed.

Lemma unchain1_code_inv : layout s → code_inv s live J → code_inv s' live J.
Proof.
  intros Hl Hc. pose proof unchain1_frame as Hf.
  assert (has_jump tb n) as Hhas.
  { apply (ci_has s live J Hc u tb n); [done..|]. eapply ring_next_some; [apply Hr|set_solver]. }
  assert (jumper s J u tb n) as Hju by done.
  split.
  - intros w tbw' m (tbw & Hw & Ee)%(jframe_jumper _ _ _ _ _ _ Hf).
    rewrite <- (erase_view (λ tb, jmp_slot tb m) _ _ Ee) by done.
    by apply (set_jump_ops s J Hl (js_nb _ _ _ Hjs) _ u tb n _ Hju (ci_op _ _ _ Hc) w).
  - intros w tbw' m Hw Htw' Hwm.
    destruct (static_some s' s w tbw' (jf_static _ _ Hf w) Htw') as (tbw & Htw & Ee).
    rewrite <- (erase_view (λ tb, has_jump tb m) _ _ Ee) by done.
    apply (ci_has s live J Hc w tbw m); [done..|]. intros E.
    by apply Hwm, unchain1_none.
  - intros w tbw' m (tbw & Hw & Ee)%(jframe_jumper _ _ _ _ _ _ Hf) Hwm.
    rewrite <- (erase_view (λ tb, jmp_slot tb m) _ _ Ee),
      <- (erase_view (λ tb, jmp_epilogue tb m) _ _ Ee) by done. cbn.
    assert (jumper s J w tbw m) as HwJ by (destruct Hw as (? & ?); split; [by apply Hjs|done]).
    destruct (decide ((u, n) = (w, m))) as [[= -> ->]|Hne].
    + destruct Hw as (? & Hw & ?). simplify_eq. apply set_jmp_target1_dest; [|intros _; by apply (ci_op _ _ _ Hc w)].
      by apply (layout_near_epilogue s J Hl (js_nb _ _ _ Hjs) w).
    + rewrite (set_jump_other s J Hl (js_nb _ _ _ Hjs) _ u tb n w) by done. eapply ci_free; [done..|].
      destruct (jnext s (w, Lnext m)) eqn:E; [|done]. exfalso.
      destruct (proj2 Hj w m (proj1 HwJ)) as (t & k & Ht & Hk & Hin); [by rewrite E|].
      destruct (proj2 (unchain1_chained w m t Ht (proj1 HwJ))) as (k' & Hk' & Hin').
      { split; [congruence|]. by exists k. }
      by apply (ring_next_some _ _ _ _ (proj1 Hk') Hin').
  - intros w tbw' m t tbt' (tbw & Hw & Ee)%(jframe_jumper _ _ _ _ _ _ Hf) Ht Htt' Hch.
    destruct (static_some s' s t tbt' (jf_static _ _ Hf t) Htt') as (tbt & Htt & Eet).
    rewrite <- (erase_view (λ tb, jmp_slot tb m) _ _ Ee), <- (erase_view tc_ptr _ _ Eet) by done.
    apply unchain1_chained in Hch as [Hne Hch]; [|done|by apply Hw]. cbn.
    rewrite (set_jump_other s J Hl (js_nb _ _ _ Hjs) _ u tb n w) by (done || congruence). by eapply ci_chained.
Qed.

End unchain1.

(** ** Unchaining the running block *)

(** The chained jumps of the live blocks: the measure of the recursion. *)
Definition links J : list jnode := elements J ≫= λ u, [(u, Lnext S0); (u, Lnext S1)].
Definition chained_links s J : nat := length (filter (λ x, jnext s x ≠ None) (links J)).

Lemma elem_of_links J x : x ∈ links J ↔ is_jump J x.
Proof.
  unfold links, is_jump. rewrite list_elem_of_bind. split.
  - intros (u & Hx & Hu%elem_of_elements). set_unfold in Hx. naive_solver.
  - intros (u & [] & -> & Hu); exists u; rewrite elem_of_elements; set_solver.
Qed.

Lemma length_filter_mono {A} (P Q : A → Prop) `{∀ x, Decision (P x), ∀ x, Decision (Q x)} (l : list A) :
  (∀ x, x ∈ l → P x → Q x) →
  (length (filter P l) ≤ length (filter Q l))%nat ∧
  ((∃ x, x ∈ l ∧ Q x ∧ ¬ P x) → (length (filter P l) < length (filter Q l))%nat).
Proof.
  induction l as [|y l IH]; intros HPQ; [set_solver|].
  destruct IH as [IHle IHlt]; [set_solver|].
  rewrite !filter_cons. specialize (HPQ y (list_elem_of_here _ _)).
  repeat case_decide; try (exfalso; by eauto); cbn; (split; [lia|]);
    intros (x & [->|Hx]%elem_of_cons & Hq & Hp); try done; try lia;
    specialize (IHlt (ex_intro _ x (conj Hx (conj Hq Hp)))); lia.
Qed.

Lemma chained_links_bound s live J : jset s live J → (chained_links s J < loop_fuel s)%nat.
Proof.
  intros Hjs. unfold chained_links, loop_fuel.
  enough (length (filter (λ x, jnext s x ≠ None) (links J)) ≤ 2 * length (tbs s))%nat by lia.
  apply jnode_bound.
  - apply NoDup_filter. unfold links. apply NoDup_bind.
    + intros u v x _ _. set_unfold. naive_solver.
    + intros u _. repeat constructor; set_solver.
    + apply NoDup_elements.
  - intros x [_ (u & n & -> & Hu)%elem_of_links]%list_elem_of_filter.
    exists u, n. split; [done|]. by apply Hjs.
Qed.

(** The effect of unchaining: jumps only disappear from the lists, and with a
    jump all those of the block it went to. *)
Record reset_post s s' live J : Prop := {
  rp_frame : jframe s s';
  rp_inv : jump_inv s' live J;
  rp_none u n : jnext s (u, Lnext n) = None → jnext s' (u, Lnext n) = None;
  rp_chained u n v : u ∈ J → v ∈ live → chained s J u n v →
    jnext s' (u, Lnext n) ≠ None → chained s' J u n v;
  rp_removed u n v m : u ∈ J → v ∈ live → chained s J u n v →
    jnext s' (u, Lnext n) = None → jnext s' (v, Lnext m) = None;
  rp_code : layout s → code_inv s live J → code_inv s' live J
}.

Lemma jframe_layout s s' : jframe s s' → layout s → layout s'.
Proof. intros Hf. apply layout_ext; [intros; apply static_code_view; symmetry; apply Hf|..]; by rewrite (jf_rest _ _ Hf). Qed.

Lemma chained_some s J u n v : chained s J u n v → jnext s (u, Lnext n) ≠ None.
Proof. intros (l & Hl & Hin). by eapply ring_next_some; [apply Hl|]. Qed.

Lemma reset_post_refl s live J : jump_inv s live J → reset_post s s live J.
Proof.
  intros Hj. split; try done. intros u n v m _ _ Hc%chained_some E. done.
Qed.

Lemma reset_post_trans s1 s2 s3 live J : reset_post s1 s2 live J → reset_post s2 s3 live J → reset_post s1 s3 live J.
Proof.
  intros H1 H2.
  assert (∀ u n, jnext s3 (u, Lnext n) ≠ None → jnext s2 (u, Lnext n) ≠ None) as Hs.
  { intros u n Hn E. by apply Hn, H2. }
  split.
  - etrans; [apply H1|apply H2].
  - apply H2.
  - intros u n E. by apply H2, H1.
  - intros u n v Hu Hv Hc Hn. apply H2; [done..| |done]. apply H1; [done..|by apply Hs].
  - intros u n v m Hu Hv Hc Hn. destruct (jnext s2 (u, Lnext n)) eqn:E.
    + eapply (rp_removed _ _ _ _ H2 u n v); [done..| |done]. apply H1; [done..|by rewrite E].
    + by apply H2, (rp_removed _ _ _ _ H1 u n v).
  - intros Hl Hc. apply H2; [|by apply H1]. by eapply jframe_layout; [apply H1|].
Qed.

Lemma reset_post_links s s' live J :
  reset_post s s' live J → (chained_links s' J ≤ chained_links s J)%nat.
Proof.
  intros H1. unfold chained_links. apply length_filter_mono.
  intros x (u & n & -> & Hu)%elem_of_links Hn E. by apply Hn, H1.
Qed.

Lemma head_find_cell s live J t n v l1 l2 :
  jset s live J → v ∈ live → jring s J v (l1 ++ (t, Lnext n) :: l2) →
  find_cell (rd_jmp s) id (λ y, bool_decide (y = (t, Lnext n))) (loop_fuel s) (v, Lfirst) =
    Ok (cell_after id (v, Lfirst) l1, (t, Lnext n)).
Proof.
  intros Hjs Hv Hr. pose proof Hr as (Hrg & Hnd & Hlj).
  assert (∀ y, y ∈ l1 ++ (t, Lnext n) :: l2 → is_Some (tbs s !! y.1)) as Hsome.
  { by apply (unlink_some s live J _ v). }
  apply (find_cell_ok _ _ _ _ _ _ _ _ _ _ _ Hrg).
  - apply rd_jmp_ok. by apply (js_tb _ _ _ Hjs), (js_live _ _ _ Hjs).
  - intros z Hz. apply rd_jmp_ok, Hsome. set_solver.
  - intros z Hz. apply bool_decide_eq_false. intros ->.
    apply NoDup_app in Hnd as (_ & Hd & _). apply (Hd _ Hz). set_solver.
  - by apply bool_decide_eq_true.
  - opose proof (jnode_bound s _ Hnd _) as Hb.
    { intros z (u & m & -> & Hu)%Hlj. exists u, m. split; [done|]. by apply Hjs. }
    unfold loop_fuel. rewrite !length_app in *. cbn in *. lia.
Qed.

Section reset_rec.
  Context live J (rec : st → tbid → result st).

(** The loops of [tb_reset_jump_recursive2] find the target and the link. *)
Lemma reset_recursive2_step s t tb n v l1 l2 :
  jset s live J → v ∈ live → tbs s !! t = Some tb →
  jring s J v (l1 ++ (t, Lnext n) :: l2) →
  tb_reset_jump_recursive2 rec s t n = rec (unchain1 s t tb n v l1) v.
Proof.
  intros Hjs Hv Htb Hr. unfold tb_reset_jump_recursive2.
  rewrite rd_jmp_ok by (cbn; by rewrite Htb). cbn [rbind].
  destruct (jnext s (t, Lnext n)) as [y|] eqn:Ey.
  2: { exfalso. eapply ring_next_some; [apply Hr| |done]. set_solver. }
  rewrite <- Ey.
  assert (∀ x, x ∈ l1 ++ (t, Lnext n) :: l2 → is_link x ∧ is_Some (tbs s !! x.1)) as Hall.
  { intros x Hx. split; [by eapply jring_link|by eapply (unlink_some s live J)]. }
  rewrite (jmp_list_head_ok _ s _ l2 v).
  2: { pose proof (proj1 Hr) as Hs. by apply seg_app in Hs as (? & _ & _ & Hs). }
  2: { intros x Hx. apply Hall. set_solver. }
  2: { opose proof (jnode_bound s _ (proj1 (proj2 Hr)) _) as Hb.
       - intros x Hx. destruct (Hall x Hx) as [(u & m & ->) ?]. eauto.
       - unfold loop_fuel. rewrite !length_app in Hb. cbn in Hb. lia. }
  cbn [rbind]. rewrite (head_find_cell s live J t n v l1 l2) by done. cbn [rbind].
  set (s1 := wr_jmp _ (t, Lnext n) None).
  assert (jframe s s1) as Hf1 by (by eapply unlink_frame).
  rewrite tb_reset_jump_ok by (eapply jframe_tb; [done|by rewrite Htb]). cbn [rbind].
  rewrite (reset_code_ext s1 s) by apply Hf1. unfold reset_code. cbn [fst snd]. by rewrite Htb.
Qed.

(** The effect of the step followed by the unchaining of the target. *)
Lemma reset_post_step s s' t tb n v l1 l2 :
  jset s live J → jump_inv s live J → t ∈ J → v ∈ live → tbs s !! t = Some tb →
  jring s J v (l1 ++ (t, Lnext n) :: l2) →
  reset_post (unchain1 s t tb n v l1) s' live J → (∀ m, jnext s' (v, Lnext m) = None) →
  reset_post s s' live J ∧ jnext s' (t, Lnext n) = None.
Proof.
  intros Hjs Hj Ht Hv Htb Hr Hp Hout.
  assert (jnext s' (t, Lnext n) = None) as Hself by (by eapply rp_none, unchain1_none_self).
  split; [|done]. split.
  - etrans; [by eapply unchain1_frame|apply Hp].
  - apply Hp.
  - intros u m E. apply Hp. by eapply unchain1_none.
  - intros u m w Hu Hw Hc Hn. apply Hp; [done..| |done].
    eapply unchain1_chained; [done..|]. split; [|done]. intros [= -> ->]. done.
  - intros u m w k Hu Hw Hc Hn. destruct (decide ((u, m) = (t, n))) as [[= -> ->]|Hne].
    + destruct Hc as (l & Hl & Hin).
      rewrite (jring_inj _ _ _ _ _ _ _ Hl Hr Hin); [done|set_solver].
    + eapply (rp_removed _ _ _ _ Hp u m w); [done..| |done]. by eapply unchain1_chained.
  - intros Hl Hc. apply Hp; [|by eapply unchain1_code_inv].
    by eapply jframe_layout; [eapply unchain1_frame|].
Qed.

Lemma unchain1_links s t tb n v l1 l2 :
  jset s live J → jump_inv s live J → t ∈ J → v ∈ live → tbs s !! t = Some tb →
  jring s J v (l1 ++ (t, Lnext n) :: l2) →
  (chained_links (unchain1 s t tb n v l1) J < chained_links s J)%nat.
Proof.
  intros Hjs Hj Ht Hv Htb Hr. apply length_filter_mono.
  - intros x (u & m & -> & Hu)%elem_of_links Hn E. by eapply Hn, unchain1_none.
  - exists (t, Lnext n). split_and!.
    + apply elem_of_links. by exists t, n.
    + eapply ring_next_some; [apply Hr|set_solver].
    + intros Hn. by eapply Hn, unchain1_none_self.
Qed.

Lemma reset_recursive2_ok fuel s t n :
  (∀ s t, jset s live J → jump_inv s live J → t ∈ J →
    (chained_links s J < fuel)%nat →
    ∃ s', rec s t = Ok s' ∧ reset_post s s' live J ∧ ∀ n, jnext s' (t, Lnext n) = None) →
  jset s live J → jump_inv s live J → t ∈ J → (chained_links s J < S fuel)%nat →
  ∃ s', tb_reset_jump_recursive2 rec s t n = Ok s' ∧ reset_post s s' live J ∧
    jnext s' (t, Lnext n) = None.
Proof.
  intros IH Hjs Hj Ht Hf. destruct (js_tb _ _ _ Hjs t Ht) as [tb Htb].
  destruct (jnext s (t, Lnext n)) as [y|] eqn:Ey.
  - destruct (proj2 Hj t n Ht) as (v & l & Hv & Hr & Hin); [by rewrite Ey|].
    apply list_elem_of_split in Hin as (l1 & l2 & ->).
    rewrite (reset_recursive2_step s t tb n v l1 l2) by done.
    destruct (IH (unchain1 s t tb n v l1) v) as (s' & Hs' & Hp & Hout); [| |by apply Hjs| |].
    + by eapply jframe_jset; [eapply unchain1_frame|].
    + by eapply unchain1_jump_inv.
    + pose proof (unchain1_links s t tb n v l1 l2 Hjs Hj Ht Hv Htb Hr). lia.
    + exists s'. split; [done|]. by eapply reset_post_step.
  - exists s. split_and!; [|by apply reset_post_refl|done]. unfold tb_reset_jump_recursive2.
    rewrite rd_jmp_ok by (cbn; by rewrite Htb). by rewrite Ey.
Qed.

End reset_rec.

Lemma tb_reset_jump_recursive_ok fuel s live J t :
  jset s live J → jump_inv s live J → t ∈ J → (chained_links s J < fuel)%nat →
  ∃ s', tb_reset_jump_recursive fuel s t = Ok s' ∧ reset_post s s' live J ∧
    ∀ n, jnext s' (t, Lnext n) = None.
Proof.
  induction fuel as [|fuel IH] in s, t |- *; intros Hjs Hj Ht Hf; [lia|].
  cbn [tb_reset_jump_recursive].
  destruct (reset_recursive2_ok live J _ fuel s t S0 IH) as (s1 & -> & P1 & N1); [done..|].
  cbn [rbind].
  destruct (reset_recursive2_ok live J _ fuel s1 t S1 IH) as (s2 & -> & P2 & N2).
  - by eapply jframe_jset; [apply P1|].
  - apply P1.
  - done.
  - pose proof (reset_post_links _ _ _ _ P1). lia.
  - exists s2. split_and!; [done|by eapply reset_post_trans|]. intros []; [|done]. by apply P2.
Qed.

(** The blocks that execution can reach from [t] without returning to the main
    loop. *)
Inductive runs_to s live J t : tbid → Prop :=
| runs_refl : runs_to s live J t t
| runs_step u n v : runs_to s live J t u → u ∈ J → v ∈ live → chained s J u n v → runs_to s live J t v.

Lemma reset_post_reach s s' live J t v :
  reset_post s s' live J → (∀ n, jnext s' (t, Lnext n) = None) → runs_to s live J t v →
  ∀ n, jnext s' (v, Lnext n) = None.
Proof.
  intros Hp Hout. induction 1 as [|u n v _ IH Hu Hv Hc]; [done|].
  intros m. by eapply (rp_removed _ _ _ _ Hp u n v).
Qed.

End jump.
