(* ===== verification/TBLink.v ===== *)
(** * Allocation, linking and flushing of translation blocks

    [tb_link_page] adds a block to the abstract set of live blocks and
    write-protects its pages; [tb_flush] empties the set; [tb_gen_code]
    allocates a block, flushing when the code cache is full, and links it. *)

From stdpp Require Import base gmap list fin_maps.
From S2P Require Import Prelude Chain Config CodePatch PageTable TBData TBOps TBInv TBLists TBCode.
Local Open Scope Z_scope.
Local Coercion Z.of_nat : nat >-> Z.

Section link.
  Context `{Guest} `{!PageTable PT}.
  Notation st := (exec_state PT).
  Implicit Types (s : st) (t u v : tbid) (tb : TranslationBlock) (n m : slot) (live J : gset tbid).

(** ** Write protection of the pages with code *)

(** A page with translated code is not writable by the guest. *)
Definition prot_inv_ex s (E : Z → Prop) : Prop :=
  ∀ i, valid_index i → ¬ E i → page_head s i ≠ None → pflags (page_desc (l1_map s) i) .& PAGE_WRITE = 0.

Definition prot_inv s : Prop :=
  ∀ i, valid_index i → page_head s i ≠ None → pflags (page_desc (l1_map s) i) .& PAGE_WRITE = 0.

(** [page_init] makes the host page a power of two and at least a target
    page; here it does not reach the end of the address space. *)
Definition host_ok s : Prop :=
  ∃ k, TARGET_PAGE_BITS ≤ k ∧ qemu_host_page_size s = 2 ^ k.

(** A page whose host page is not the last one of the address space. *)
Definition page_ok s (addr : Z) : Prop :=
  0 ≤ addr ∧ addr = page_base addr ∧
  host_page_base s addr + qemu_host_page_size s < 2 ^ L1_MAP_ADDR_SPACE_BITS.

(** On the last host page of a guest whose addresses fill the type of the loop
    variable, the end of the page is beyond that type: the loop never ends. *)
Lemma protect_pages_last fuel s addr end_ prot :
  0 ≤ addr < 2 ^ TARGET_LONG_BITS → 2 ^ TARGET_LONG_BITS ≤ end_ → protect_pages fuel s addr end_ prot = Er EFuel.
Proof.
  intros Ha He. induction fuel as [|fuel IH] in s, addr, prot, Ha |- *; [done|]. cbn [protect_pages].
  rewrite (proj2 (Z.ltb_lt _ _)) by lia.
  assert (0 ≤ tul (addr + TARGET_PAGE_SIZE) < 2 ^ TARGET_LONG_BITS).
  { unfold tul, wrap. apply Z.mod_pos_bound, Z.pow_pos_nonneg; pose proof guest_long_bits; lia. }
  case_match; by apply IH.
Qed.

Lemma prot_inv_none s : prot_inv s ↔ prot_inv_ex s (λ _, False).
Proof. split; intros Hp i Hi; [intros _; by apply Hp|by apply Hp; auto]. Qed.

Definition clear_write (p : PageDesc) : PageDesc := set_pflags (pflags p .& .~ PAGE_WRITE) p.

Lemma land_clear_write z : (z .& .~ PAGE_WRITE) .& PAGE_WRITE = 0.
Proof. rewrite <- Z.land_assoc, (Z.land_comm (.~ _)), Z.land_lnot_diag. apply Z.land_0_r. Qed.

Lemma valid_index_lt i b :
  0 ≤ i < b → b * TARGET_PAGE_SIZE < 2 ^ L1_MAP_ADDR_SPACE_BITS → valid_index i.
Proof.
  intros Hi Hl. unfold valid_index. pose proof guest_l1_bits. pose proof guest_page_bits.
  split; [lia|]. rewrite page_size_eq in Hl.
  replace L1_MAP_ADDR_SPACE_BITS with
    (L1_MAP_ADDR_SPACE_BITS - TARGET_PAGE_BITS + TARGET_PAGE_BITS) in Hl by lia.
  rewrite Z.pow_add_r in Hl by lia. nia.
Qed.

Lemma page_find_upd s i f j :
  valid_index i → valid_index j →
  page_find (l1_map (upd_page s i f)) j =
    if decide (i = j) then f <$> page_find (l1_map s) j else page_find (l1_map s) j.
Proof.
  intros Hi Hj. unfold upd_page. destruct (page_find (l1_map s) i) as [p|] eqn:Ep.
  - cbn. rewrite page_find_store by eauto. case_decide; [subst|done]. by rewrite Ep.
  - case_decide; [subst|done]. by rewrite Ep.
Qed.

Lemma upd_page_l1 s i f : upd_page s i f = s <| l1_map := l1_map (upd_page s i f) |>.
Proof. unfold upd_page. case_match; by destruct s. Qed.

(** The loop over the target pages of a host page, from page [a] to page
    [b]. *)
Lemma protect_pages_ok fuel s a b prot :
  0 ≤ a → b * TARGET_PAGE_SIZE < 2 ^ L1_MAP_ADDR_SPACE_BITS → (Z.to_nat (b - a) < fuel)%nat →
  ∃ s' prot', protect_pages fuel s (a * TARGET_PAGE_SIZE) (b * TARGET_PAGE_SIZE) prot = Ok (s', prot') ∧
    s' = s <| l1_map := l1_map s' |> ∧
    (∀ i, valid_index i → page_find (l1_map s') i =
      if decide (a ≤ i < b) then clear_write <$> page_find (l1_map s) i else page_find (l1_map s) i) ∧
    (∀ k, Z.testbit prot' k = true ↔ Z.testbit prot k = true ∨
       ∃ i p, a ≤ i < b ∧ page_find (l1_map s) i = Some p ∧ Z.testbit (pflags p) k = true).
Proof.
  intros Ha Hb. pose proof page_size_pos as HP. pose proof guest_l1_bits as HL.
  assert (2 ^ L1_MAP_ADDR_SPACE_BITS ≤ 2 ^ TARGET_LONG_BITS) as Hpow by (apply Z.pow_le_mono_r; lia).
  induction fuel as [|fuel IH] in s, a, prot, Ha |- *; intros Hf; [lia|].
  cbn [protect_pages]. destruct (Z.ltb_spec (a * TARGET_PAGE_SIZE) (b * TARGET_PAGE_SIZE)) as [Hlt|Hge].
  2: { assert (b ≤ a) by nia. exists s, prot. split_and!; [done|by destruct s| |].
    - intros i _. by rewrite decide_False by lia.
    - intros k. split; [by left|]. intros [?|(i & p & Hi & _)]; [done|lia]. }
  assert (a < b) as Hab by nia.
  assert (∀ i, a ≤ i < b → valid_index i) as Hval by (intros; eapply valid_index_lt; [|done]; lia).
  assert (tul (a * TARGET_PAGE_SIZE + TARGET_PAGE_SIZE) = (a + 1) * TARGET_PAGE_SIZE) as ->.
  { unfold tul. rewrite wrap_small; nia. }
  rewrite page_index_eq, Z.div_mul by lia. destruct (page_find (l1_map s) a) as [p|] eqn:Ep.
  - set (s1 := upd_page s a (set_pflags (pflags p .& .~ PAGE_WRITE))).
    destruct (IH s1 (a + 1) (prot .| pflags p)) as (s' & prot' & -> & Es & Hfind & Hprot); [lia|lia|].
    exists s', prot'. split_and!; [done| | |].
    + rewrite Es. unfold s1. by rewrite upd_page_l1.
    + intros i Hi. rewrite Hfind by done. unfold s1. rewrite page_find_upd by auto with lia.
      repeat case_decide; try lia; try done. subst. by rewrite Ep.
    + intros k. rewrite Hprot, Z.lor_spec, orb_true_iff. unfold s1. split.
      * intros [[?|?]|(i & q & Hi & Hq & Hk)]; [by left|right; exists a, p; auto with lia|].
        rewrite page_find_upd, decide_False in Hq by auto with lia. right. exists i, q. auto with lia.
      * intros [?|(i & q & Hi & Hq & Hk)]; [by left; left|].
        destruct (decide (i = a)) as [->|]; [left; right; naive_solver|].
        right. exists i, q. rewrite page_find_upd, decide_False by auto with lia. auto with lia.
  - destruct (IH s (a + 1) prot) as (s' & prot' & -> & Es & Hfind & Hprot); [lia|lia|].
    exists s', prot'. split_and!; [done..| |].
    + intros i Hi. rewrite Hfind by done. repeat case_decide; try lia; try done.
      assert (i = a) as -> by lia. by rewrite Ep.
    + intros k. rewrite Hprot. split; (intros [?|(i & q & Hi & Hq & Hk)]; [by left|right]);
        exists i, q; auto with lia. destruct (decide (i = a)); [by simplify_eq|auto with lia].
Qed.

Lemma host_page_split s addr :
  host_ok s → page_ok s addr →
  ∃ a b, host_page_base s addr = a * TARGET_PAGE_SIZE ∧
    u64 (host_page_base s addr + qemu_host_page_size s) = b * TARGET_PAGE_SIZE ∧
    0 ≤ a ≤ page_index addr ∧ page_index addr < b ∧
    b * TARGET_PAGE_SIZE < 2 ^ L1_MAP_ADDR_SPACE_BITS ∧ (Z.to_nat (b - a) < S (host_pages s))%nat.
Proof.
  intros (k & Hk & Hps) (Ha & Hb & Hl). unfold host_pages. unfold host_page_base in *.
  rewrite Hps in *. rewrite land_lnot_low in * by (pose proof guest_page_bits; lia).
  pose proof page_size_pos. pose proof guest_l1_bits. pose proof guest_long_bits.
  pose proof guest_page_bits.
  assert (2 ^ L1_MAP_ADDR_SPACE_BITS ≤ 2 ^ 64) by (apply Z.pow_le_mono_r; lia).
  set (d := 2 ^ (k - TARGET_PAGE_BITS)).
  assert (2 ^ k = d * TARGET_PAGE_SIZE) as Ek.
  { unfold d. rewrite page_size_eq, <- Z.pow_add_r by lia. f_equal. lia. }
  assert (0 < d) by (apply Z.pow_pos_nonneg; lia).
  rewrite page_base_index in Hb. set (i := page_index addr) in *. rewrite Hb, Ek in *.
  rewrite Z.mul_mod_distr_r in * by lia. rewrite Z.div_mul by lia.
  assert (0 ≤ i) by nia. pose proof (Z.mod_pos_bound i d). pose proof (Z.mod_le i d).
  generalize dependent (i `mod` d). intros r ? ? ?. exists (i - r), (i - r + d).
  rewrite (wrap_small 64) by nia. split_and!; nia || lia.
Qed.

(** *** The page list *)

Notation pages s E M := (chains (λ i, valid_index i ∧ ¬ E i) (page_head s) (pnext s) M).

(** What [tb_alloc_page] changes. *)
Record alloc_page_post s s' t n addr : Prop := {
  ap_tbs : tbs s' = alter (λ tb, tb <| page_addr := set2 (page_addr tb) n addr |>
      <| page_next := set2 (page_next tb) n (page_head s (page_index addr)) |>) t (tbs s);
  ap_head i : valid_index i →
    page_head s' i = if decide (i = page_index addr) then Some (t, n) else page_head s i;
  ap_find i : valid_index i → is_Some (page_find (l1_map s) i) → is_Some (page_find (l1_map s') i);
  ap_prot i : valid_index i →
    pflags (page_desc (l1_map s') i) = pflags (page_desc (l1_map s) i) ∨
    pflags (page_desc (l1_map s') i) = pflags (page_desc (l1_map s) i) .& .~ PAGE_WRITE;
  ap_self : pflags (page_desc (l1_map s') (page_index addr)) .& PAGE_WRITE = 0;
  ap_rest : s' = s <| tbs := tbs s' |> <| l1_map := l1_map s' |> <| host_prot := host_prot s' |>
}.

Lemma page_ok_valid s addr : host_ok s → page_ok s addr → valid_index (page_index addr).
Proof.
  intros Hh Hp. destruct (host_page_split s addr Hh Hp) as (a & b & _ & _ & ? & ? & ? & _).
  eapply valid_index_lt; [|done]. lia.
Qed.

(** The state after the list update, before the pages are protected. *)
Definition page_listed s t n addr : st :=
  let i := page_index addr in
  let s := upd_tb s t (λ tb, tb <| page_addr := set2 (page_addr tb) n addr |>) in
  let s := s <| l1_map := page_alloc (l1_map s) i |> in
  let s := wr_page s (inr (t, n)) (page_head s i) in
  let s := wr_page s (inl i) (Some (t, n)) in
  upd_page s i invalidate_page_bitmap.

Lemma page_listed_desc s t n addr j :
  valid_index (page_index addr) → valid_index j →
  page_desc (l1_map (page_listed s t n addr)) j =
    if decide (page_index addr = j)
    then invalidate_page_bitmap (set_first_tb (Some (t, n)) (page_desc (l1_map s) j))
    else page_desc (l1_map s) j.
Proof.
  intros Hi Hj. unfold page_listed. cbv zeta.
  set (s1 := upd_tb s t _). set (s2 := s1 <| l1_map := _ |>).
  set (s3 := wr_page s2 (inr _) _). cbn [wr_page].
  assert (is_Some (page_find (l1_map s3) (page_index addr))) as Hs3.
  { cbn. rewrite page_find_alloc_same by done. eauto. }
  rewrite page_desc_upd by (done || by apply page_find_upd_some).
  rewrite !(page_desc_upd s3) by done. 
  rewrite (decide_True (P := page_index addr = page_index addr)) by done.
  assert (∀ j, valid_index j → page_desc (l1_map s3) j = page_desc (l1_map s) j) as E.
  { intros k Hk. unfold s3. cbn. by apply page_desc_alloc. }
  rewrite !E by done. case_decide; [by subst|done].
Qed.

Lemma page_listed_tbs s t n addr :
  valid_index (page_index addr) →
  tbs (page_listed s t n addr) =
    alter (λ tb, tb <| page_addr := set2 (page_addr tb) n addr |>
      <| page_next := set2 (page_next tb) n (page_head s (page_index addr)) |>) t (tbs s).
Proof.
  intros Hv. unfold page_listed. cbv zeta. rewrite upd_page_l1. cbn [wr_page].
  rewrite (upd_page_l1 _ _ (set_first_tb _)). cbn.
  rewrite list_alter_alter_eq. apply list_alter_ext; [|done].
  intros tb _. cbn. unfold page_head. cbn. by rewrite page_desc_alloc.
Qed.

Lemma page_listed_rest s t n addr :
  page_listed s t n addr = s <| tbs := tbs (page_listed s t n addr) |>
    <| l1_map := l1_map (page_listed s t n addr) |>.
Proof.
  unfold page_listed. cbv zeta. rewrite upd_page_l1. cbn [wr_page].
  rewrite (upd_page_l1 _ _ (set_first_tb _)). by destruct s.
Qed.

Lemma page_listed_hps s t n addr :
  qemu_host_page_size (page_listed s t n addr) = qemu_host_page_size s.
Proof. by rewrite page_listed_rest. Qed.

Lemma page_listed_find s t n addr j :
  valid_index (page_index addr) → valid_index j →
  is_Some (page_find (l1_map s) j) → is_Some (page_find (l1_map (page_listed s t n addr)) j).
Proof.
  intros Hi Hj [p Hp]. unfold page_listed. cbv zeta. rewrite page_find_upd_some by done.
  cbn [wr_page]. rewrite page_find_upd_some by done. cbn.
  destruct (page_find_alloc_other (l1_map s) (page_index addr) j) as [->|[? ?]]; [done..|eauto|congruence].
Qed.

(** The function in terms of the steps above. *)
Lemma tb_alloc_page_unfold s t n addr :
  valid_index (page_index addr) → is_Some (tbs s !! t) →
  tb_alloc_page s t n addr =
    let s5 := page_listed s t n addr in
    if pflags (page_desc (l1_map s) (page_index addr)) .& PAGE_WRITE =? 0 then Ok s5
    else
      let base := host_page_base s addr in
      '(s6, prot) <- protect_pages (S (host_pages s)) s5 base
                       (u64 (base + qemu_host_page_size s)) 0 ;;
      Ok (s6 <| host_prot := <[base := (prot .& PAGE_BITS) .& .~ PAGE_WRITE]> (host_prot s6) |>).
Proof.
  intros Hv [tb Htb]. unfold tb_alloc_page, get_tb. rewrite Htb. cbn [rbind deref].
  set (s1 := upd_tb s t _). set (s2 := s1 <| l1_map := _ |>).
  assert (page_find (l1_map s2) (page_index addr) = Some (page_desc (l1_map s) (page_index addr))) as ->.
  { cbn. by rewrite page_find_alloc_same. }
  cbn [rbind deref]. cbv zeta.
  assert (first_tb (page_desc (l1_map s) (page_index addr)) = page_head s2 (page_index addr)) as ->.
  { unfold page_head. cbn. by rewrite page_desc_alloc. }
  change (upd_page _ _ _) with (page_listed s t n addr). case_match; [done|].
  unfold host_page_base, host_pages. by rewrite page_listed_hps.
Qed.

Lemma tb_alloc_page_ok s t n addr :
  host_ok s → page_ok s addr → is_Some (tbs s !! t) →
  ∃ s', tb_alloc_page s t n addr = Ok s' ∧ alloc_page_post s s' t n addr.
Proof.
  intros Hh Hp Ht. pose proof (page_ok_valid s addr Hh Hp) as Hv.
  rewrite tb_alloc_page_unfold by done. cbv zeta. set (s5 := page_listed s t n addr).
  pose proof (page_listed_desc s t n addr) as Hd. fold s5 in Hd.
  case_bool; bprop.
  - exists s5. split; [done|]. split.
    + by apply page_listed_tbs.
    + intros i Hi. unfold page_head. rewrite Hd by done. repeat case_decide; naive_solver.
    + intros i Hi. by apply page_listed_find.
    + intros i Hi. left. rewrite Hd by done. by case_decide.
    + rewrite Hd by done. rewrite decide_True by done. done.
    + unfold s5. rewrite page_listed_rest. by destruct s.
  - destruct (host_page_split s addr Hh Hp) as (a & b & -> & -> & Ha & Hb & Hlim & Hfuel).
    destruct (protect_pages_ok (S (host_pages s)) s5 a b 0) as (s6 & prot & -> & Es & Hf & _);
      [lia|done..|]. cbn [rbind].
    assert (∀ i, valid_index i →
      page_head s6 i = page_head s5 i ∧
      pflags (page_desc (l1_map s6) i) = if decide (a ≤ i < b)
        then pflags (page_desc (l1_map s5) i) .& .~ PAGE_WRITE
        else pflags (page_desc (l1_map s5) i)) as Hdesc.
    { intros i Hi. unfold page_head, page_desc. rewrite Hf by done.
      case_decide; [|done]. by destruct (page_find (l1_map s5) i). }
    eexists. split; [done|]. split.
    + rewrite Es. by apply page_listed_tbs.
    + intros i Hi. change (page_head s6 i = if decide (i = page_index addr) then Some (t, n) else page_head s i).
      rewrite (proj1 (Hdesc i Hi)). unfold page_head. rewrite Hd by done. repeat case_decide; naive_solver.
    + intros i Hi Hs. cbn. rewrite Hf by done.
      destruct (page_listed_find s t n addr i Hv Hi Hs) as [p Hp']. fold s5 in Hp'. rewrite Hp'.
      case_decide; eauto.
    + intros i Hi. cbn. rewrite (proj2 (Hdesc i Hi)), Hd by done.
      repeat case_decide; cbn; auto.
    + cbn. rewrite (proj2 (Hdesc _ Hv)). rewrite decide_True by lia. apply land_clear_write.
    + rewrite Es. unfold s5. rewrite page_listed_rest. done.
Qed.

(** ** Linking a block *)

(** The page table after a block with the given pages is put on their
    lists. *)
Record pages_post (pt pt' : PT) t i0 page2 : Prop := {
  pp_head i : valid_index i →
    first_tb (page_desc pt' i) =
      if decide (i = i0) then Some (t, S0)
      else if decide (page2 ≠ no_page ∧ i = page_index page2) then Some (t, S1)
      else first_tb (page_desc pt i);
  pp_find i : valid_index i → is_Some (page_find pt i) → is_Some (page_find pt' i);
  pp_flags i : valid_index i →
    pflags (page_desc pt' i) = pflags (page_desc pt i) ∨
    pflags (page_desc pt' i) = pflags (page_desc pt i) .& .~ PAGE_WRITE;
  pp_prot0 : pflags (page_desc pt' i0) .& PAGE_WRITE = 0;
  pp_prot1 : page2 ≠ no_page → pflags (page_desc pt' (page_index page2)) .& PAGE_WRITE = 0
}.

Lemma clear_write_stays z z' :
  z .& PAGE_WRITE = 0 → z' = z ∨ z' = z .& .~ PAGE_WRITE → z' .& PAGE_WRITE = 0.
Proof. intros Hz [->| ->]; [done|]. apply land_clear_write. Qed.

Lemma pages_post_one s s1 t pc_ :
  alloc_page_post s s1 t S0 (page_base pc_) →
  valid_index (page_index pc_) → pages_post (l1_map s) (l1_map s1) t (page_index pc_) no_page.
Proof.
  intros [A1 A2 A3 A4 A5 A6] Hv. rewrite page_index_base in *. split; try done.
  intros i Hi. etrans; [by apply A2|]. case_decide; [done|].
  rewrite decide_False; [done|]. naive_solver.
Qed.

Lemma pages_post_two s s1 s2 t pc_ page2 :
  alloc_page_post s s1 t S0 (page_base pc_) → alloc_page_post s1 s2 t S1 page2 →
  valid_index (page_index pc_) → valid_index (page_index page2) →
  page2 ≠ no_page → page_index page2 ≠ page_index pc_ →
  pages_post (l1_map s) (l1_map s2) t (page_index pc_) page2.
Proof.
  intros [A1 A2 A3 A4 A5 A6] [B1 B2 B3 B4 B5 B6] Hv1 Hv2 Hp Hne.
  rewrite page_index_base in *. split; [| | | |done].
  - intros i Hi. etrans; [by apply B2|]. case_decide as E1.
    + rewrite decide_False by congruence. by rewrite decide_True.
    + etrans; [by apply A2|]. case_decide; [done|]. rewrite decide_False; [done|naive_solver].
  - intros i Hi Hs. auto.
  - intros i Hi. destruct (B4 i Hi) as [-> | ->], (A4 i Hi) as [-> | ->]; auto. right.
    by rewrite <- Z.land_assoc, Z.land_diag.
  - eapply clear_write_stays; [exact A5|]. by apply B4.
Qed.

Definition page_links tb (pt : PT) (i0 page2 : Z) : arr2 (option pnode) :=
  A2 (first_tb (page_desc pt i0))
     (if page2 =? no_page then at1 (page_next tb) else first_tb (page_desc pt (page_index page2))).

(** The two calls of [tb_alloc_page]. *)
Lemma alloc_pages_ok s t pc_ page2 :
  host_ok s → page_ok s (page_base pc_) → (page2 ≠ no_page → page_ok s page2) →
  (page2 ≠ no_page → page_index page2 ≠ page_index pc_) → is_Some (tbs s !! t) →
  ∃ s1 s2, tb_alloc_page s t S0 (page_base pc_) = Ok s1 ∧
    (if page2 =? no_page then Ok (upd_tb s1 t (λ tb, tb <| page_addr := set2 (page_addr tb) S1 no_page |>))
     else tb_alloc_page s1 t S1 page2) = Ok s2 ∧
    tbs s2 = alter (λ tb, tb <| page_addr := A2 (page_base pc_) page2 |>
      <| page_next := page_links tb (l1_map s) (page_index pc_) page2 |>) t (tbs s) ∧
    pages_post (l1_map s) (l1_map s2) t (page_index pc_) page2 ∧
    s2 = s <| tbs := tbs s2 |> <| l1_map := l1_map s2 |> <| host_prot := host_prot s2 |>.
Proof.
  intros Hh Hp1 Hp2 Hne [tb Htb].
  pose proof (page_ok_valid s _ Hh Hp1) as Hv1. rewrite page_index_base in Hv1.
  destruct (tb_alloc_page_ok s t S0 (page_base pc_)) as (s1 & -> & A1); [done..|by rewrite Htb|].
  exists s1. unfold page_links. case_bool; bprop.
  - eexists. split; [done|]. split; [done|]. subst page2. split_and!.
    + cbn. rewrite (ap_tbs _ _ _ _ _ A1), list_alter_alter_eq, page_index_base. done.
    + by apply (pages_post_one s s1).
    + rewrite (ap_rest _ _ _ _ _ A1). by destruct s.
  - assert (host_ok s1 ∧ page_ok s1 page2) as [Hh1 Hp21].
    { rewrite (ap_rest _ _ _ _ _ A1). split; [done|by apply Hp2]. }
    destruct (tb_alloc_page_ok s1 t S1 page2) as (s2 & -> & A2); [done..| |].
    { rewrite (ap_tbs _ _ _ _ _ A1), list_lookup_alter_eq, Htb. eauto. }
    pose proof (page_ok_valid s1 _ Hh1 Hp21) as Hv2.
    exists s2. split; [done|]. split; [done|]. split_and!.
    + rewrite (ap_tbs _ _ _ _ _ A2), (ap_tbs _ _ _ _ _ A1), list_alter_alter_eq.
      apply list_alter_ext; [|done]. intros tb' _. cbn. rewrite page_index_base.
      rewrite (ap_head _ _ _ _ _ A1) by done. rewrite page_index_base, decide_False by auto. done.
    + apply (pages_post_two s s1 s2); auto.
    + rewrite (ap_rest _ _ _ _ _ A2), (ap_rest _ _ _ _ _ A1). by destruct s.
Qed.

(** The block once linked, and the native code with its jumps reset. *)
Definition linked s t tb (phys_pc page2 : Z) : TranslationBlock :=
  tb <| phys_hash_next := tb_phys_hash s !! tb_phys_hash_func phys_pc |>
     <| page_addr := A2 (page_base phys_pc) page2 |>
     <| page_next := page_links tb (l1_map s) (page_index phys_pc) page2 |>
     <| jmp_first := Some (t, Lfirst) |> <| jmp_next := A2 None None |>.

Definition linked_code (c : bytes) tb : bytes :=
  let c := if at0 (tb_next_offset tb) =? 0xffff then c
           else tb_set_jmp_target1 c (jmp_slot tb S0) (jmp_epilogue tb S0) in
  if at1 (tb_next_offset tb) =? 0xffff then c
  else tb_set_jmp_target1 c (jmp_slot tb S1) (jmp_epilogue tb S1).

Record link_post s s' t tb phys_pc page2 : Prop := {
  lp_tbs : tbs s' = alter (λ _, linked s t tb phys_pc page2) t (tbs s);
  lp_hash : tb_phys_hash s' = <[tb_phys_hash_func phys_pc := t]> (tb_phys_hash s);
  lp_pages : pages_post (l1_map s) (l1_map s') t (page_index phys_pc) page2;
  lp_code : host_code s' = linked_code (host_code s) tb;
  lp_rest : s' = s <| tbs := tbs s' |> <| tb_phys_hash := tb_phys_hash s' |> <| l1_map := l1_map s' |>
    <| host_prot := host_prot s' |> <| host_code := host_code s' |>
}.

Lemma tb_link_page_ok s t tb phys_pc page2 :
  host_ok s → page_ok s (page_base phys_pc) → (page2 ≠ no_page → page_ok s page2) →
  (page2 ≠ no_page → page_index page2 ≠ page_index phys_pc) → tbs s !! t = Some tb →
  ∃ s', tb_link_page s t phys_pc page2 = Ok s' ∧ link_post s s' t tb phys_pc page2.
Proof.
  intros Hh Hp1 Hp2 Hne Htb. unfold tb_link_page, get_tb. rewrite Htb. cbn [rbind deref].
  set (h := tb_phys_hash_func phys_pc). set (s1 := wr_hash (wr_hash s _ _) _ _).
  destruct (alloc_pages_ok s1 t phys_pc page2) as (s2 & s3 & H2 & H3 & Et & Hpp & Er);
    [done..| |].
  { cbn. rewrite list_lookup_alter_eq, Htb. eauto. }
  fold (page_base phys_pc). rewrite H2. cbn [rbind]. rewrite H3. cbn [rbind].
  set (s4 := wr_jmp (wr_jmp (wr_jmp s3 _ _) _ _) _ _).
  assert (tbs s4 = alter (λ _, linked s t tb phys_pc page2) t (tbs s)) as E4.
  { cbn. rewrite Et. cbn. rewrite !list_alter_alter_eq. apply list_alter_ext; [|done].
    intros tb' Htb'. by simplify_eq. }
  assert (tbs s4 !! t = Some (linked s t tb phys_pc page2)) as Hl.
  { by rewrite E4, list_lookup_alter_eq, Htb. }
  rewrite Hl. cbn [rbind deref].
  assert (link_post s (s4 <| host_code := linked_code (host_code s) tb |>) t tb phys_pc page2) as Hpost.
  { split; [exact E4|cbn; by rewrite Er|done|done|]. unfold s4. by rewrite Er. }
  assert (host_code s4 = host_code s) as Ec by (unfold s4; cbn; by rewrite Er).
  clearbody s4.
  assert (∀ c n, tb_reset_jump (s4 <| host_code := c |>) t n =
    Ok (s4 <| host_code := tb_set_jmp_target1 c (jmp_slot tb n) (jmp_epilogue tb n) |>)) as Hreset.
  { intros c n. rewrite tb_reset_jump_ok by (cbn; by rewrite Hl). unfold reset_code. cbn [fst snd].
    change (tbs (s4 <| host_code := c |>)) with (tbs s4). by rewrite Hl. }
  assert (s4 <| host_code := host_code s |> = s4) as E0 by (rewrite <- Ec; by destruct s4).
  pose proof (Hreset (host_code s)) as Hreset0. rewrite E0 in Hreset0.
  eexists. split; [|exact Hpost]. unfold linked_code.
  change (tb_next_offset (linked s t tb phys_pc page2)) with (tb_next_offset tb).
  destruct (at0 (tb_next_offset tb) =? 0xffff), (at1 (tb_next_offset tb) =? 0xffff);
    rewrite ?Hreset0; cbn [rbind]; rewrite ?Hreset0, ?Hreset, ?E0; done.
Qed.

(** A linked block joins the live ones. *)
Section link_inv.
  Context s s' live J t tb (phys_pc page2 : Z).
  Context (Hinv : tb_inv_ex s live J (λ _, False)) (Hpost : link_post s s' t tb phys_pc page2).
  Context (HtJ : t ∉ J) (Hnb : (t < nb_tbs s)%nat) (Htb : tbs s !! t = Some tb).
  Context (Hpc : pc tb = phys_pc) (Hrange : 0 ≤ phys_pc ∧ phys_pc + size tb < 2 ^ TARGET_LONG_BITS).
  Context (Hv0 : valid_index (page_index phys_pc)).
  Context (Hsize : 0 < size tb ≤ TARGET_PAGE_SIZE) (Hpage2 : page2 = page2_of phys_pc (size tb)).
  Context (Hv1 : page2 ≠ no_page → valid_index (page_index page2)).

Let tb' := linked s t tb phys_pc page2.

Lemma link_new : t ∉ live.
Proof using Hinv HtJ. intros Ht. by apply HtJ, (inv_jset _ _ _ _ Hinv). Qed.
Let Ht := link_new.

Lemma link_lookup u : tbs s' !! u = if decide (u = t) then Some tb' else tbs s !! u.
Proof using Hpost Htb.
  rewrite (lp_tbs _ _ _ _ _ _ Hpost), list_lookup_alter.
  destruct (decide (t = u)) as [<-|]; [by rewrite Htb, decide_True|by rewrite decide_False by congruence].
Qed.

Lemma link_old u : u ∈ J → tbs s' !! u = tbs s !! u.
Proof using Hpost Htb HtJ. intros Hu. rewrite link_lookup, decide_False; [done|by intros ->]. Qed.

Lemma link_other u : u ∈ live → tbs s' !! u = tbs s !! u.
Proof using Hinv Hpost Htb HtJ. intros Hu. by apply link_old, (inv_jset _ _ _ _ Hinv). Qed.

Lemma link_ne : page2 ≠ no_page → page_index page2 ≠ page_index phys_pc.
Proof. rewrite Hpage2. apply page2_of_index. Qed.

Lemma link_wf : tb_wf tb'.
Proof.
  assert (at0 (page_addr tb') = page_base phys_pc ∧ at1 (page_addr tb') = page2) as [E0 E1] by done.
  unfold tb_wf. rewrite E0, E1, page_base_idem, page_index_base.
  split_and!; [done..| |].
  - intros E. split_and!; [|by apply Hv1|by apply link_ne]. rewrite Hpage2 in *. by apply page2_of_index.
  - unfold tb_covers. change (pc tb') with (pc tb). change (size tb') with (size tb).
    rewrite Hpc, <- Hpage2. by destruct Hrange.
Qed.

Lemma link_live : live_inv s' ({[t]} ∪ live).
Proof.
  intros u [->%elem_of_singleton|Hu]%elem_of_union.
  - exists tb'. rewrite link_lookup, decide_True by done. rewrite (lp_rest _ _ _ _ _ _ Hpost).
    split_and!; [done..|apply link_wf].
  - rewrite link_other by done. destruct (inv_live _ _ _ _ Hinv u Hu) as (tbu & ? & ? & ?).
    exists tbu. by rewrite (lp_rest _ _ _ _ _ _ Hpost).
Qed.

Lemma link_bucket : tb_bucket tb' = tb_phys_hash_func phys_pc.
Proof.
  unfold tb_bucket, tb_phys_pc. cbn. rewrite Hpc, page_split. unfold tul. rewrite wrap_small by lia. done.
Qed.

Lemma link_hash : hash_inv s' ({[t]} ∪ live).
Proof.
  eapply chains_ext; [done|done| |eapply (chains_insert _ _ _ (λ h, tb_phys_hash s' !! h) (hnext s') _ t
    (tb_phys_hash_func phys_pc) (inv_hash _ _ _ _ Hinv) I)].
  - intros h u _. unfold hash_mem. rewrite link_lookup, elem_of_union, elem_of_singleton. split.
    + intros [[Hu E]|[-> ->]]; [rewrite decide_False; [auto|set_solver]|].
      rewrite decide_True by done. cbn. rewrite link_bucket. auto.
    + intros [[->|Hu] E]; [|rewrite decide_False in E; [auto|set_solver]].
      rewrite decide_True in E by done. cbn in E. rewrite link_bucket in E. naive_solver.
  - by intros h [? _].
  - intros h _. rewrite (lp_hash _ _ _ _ _ _ Hpost), lookup_insert. repeat case_decide; naive_solver.
  - unfold hnext. by rewrite link_lookup, decide_True.
  - intros u h _ [Hu _]. unfold hnext. by rewrite link_other.
Qed.

Lemma link_pnext x : x.1 ∈ live → pnext s' x = pnext s x.
Proof. intros Hx. unfold pnext. by rewrite link_other. Qed.

Lemma link_page_mem x i :
  page_mem s' ({[t]} ∪ live) x i ↔
    page_mem s live x i ∨ x = (t, S0) ∧ i = page_index phys_pc ∨
    x = (t, S1) ∧ page2 ≠ no_page ∧ i = page_index page2.
Proof.
  assert (tb_page tb' S0 = Some (page_index phys_pc)) as E0 by (unfold tb_page; cbn [tb' linked];
    by rewrite <- (page_index_base phys_pc)).
  assert (tb_page tb' S1 = if page2 =? no_page then None else Some (page_index page2)) as E1 by done.
  destruct x as [u n]. unfold page_mem. cbn [fst snd].
  rewrite link_lookup, elem_of_union, elem_of_singleton.
  destruct (decide (u = t)) as [->|Hut]; [|clear E0 E1; naive_solver]. cbn [mbind option_bind].
  split.
  - intros [_ E]. right. destruct n; rewrite ?E0, ?E1 in E; [left; naive_solver|right].
    revert E. case_bool; bprop; naive_solver.
  - intros [[? _]|[[[= ->] ->]|([= ->] & Hp & ->)]]; [done|auto|].
    rewrite E1, (proj2 (Z.eqb_neq _ _) Hp). auto.
Qed.

Lemma link_page : page_inv s' ({[t]} ∪ live) (λ _, False).
Proof.
  pose proof (lp_pages _ _ _ _ _ _ Hpost) as Hpp.
  set (head1 := λ i, if decide (i = page_index phys_pc) then Some (t, S0) else page_head s i).
  set (next1 := λ x : pnode, if decide (x = (t, S0)) then page_head s (page_index phys_pc) else pnext s x).
  assert (chains (λ i, valid_index i ∧ ¬ False) head1 next1
    (λ x i, page_mem s live x i ∨ x = (t, S0) ∧ i = page_index phys_pc)) as H1.
  { eapply chains_insert; [apply Hinv|split; [done|auto]|by intros i [? _]|done| |].
    - unfold next1. by rewrite decide_True.
    - intros y i _ [Hy _]. unfold next1. rewrite decide_False; [done|]. intros ->. done. }
  assert (pnext s' (t, S0) = page_head s (page_index phys_pc)) as E0.
  { unfold pnext. cbn. by rewrite link_lookup, decide_True. }
  destruct (decide (page2 = no_page)) as [E2|E2].
  - eapply chains_ext, H1.
    + intros i [Hi _]. unfold head1, page_head. rewrite (pp_head _ _ _ _ _ Hpp) by done.
      case_decide; [done|]. by rewrite decide_False by naive_solver.
    + intros i x _ [[Hx _]|[-> ->]]; unfold next1.
      * rewrite decide_False, link_pnext; [done..|]. intros ->. done.
      * by rewrite decide_True.
    + intros i x _. rewrite link_page_mem. naive_solver.
  - eapply chains_ext; [done|done| |eapply (chains_insert _ _ _ (page_head s') (pnext s') _ (t, S1)
      (page_index page2) H1)].
    + intros i x _. rewrite link_page_mem. naive_solver.
    + auto.
    + intros i [[? _]|[? _]]; done.
    + intros i [Hi _]. unfold head1, page_head. rewrite (pp_head _ _ _ _ _ Hpp) by done.
      pose proof (link_ne E2). repeat case_decide; intuition congruence.
    + unfold pnext. cbn. rewrite link_lookup, decide_True by done. cbn.
      rewrite (proj2 (Z.eqb_neq _ _) E2). unfold head1. by rewrite decide_False by (by apply link_ne).
    + intros x i _ [[Hx _]|[-> ->]]; unfold next1.
      * rewrite decide_False, link_pnext; [done..|]. intros ->. done.
      * by rewrite decide_True.
Qed.

Lemma link_jnext x :
  jnext s' x = if decide (x.1 = t) then (if x.2 is Lfirst then Some (t, Lfirst) else None) else jnext s x.
Proof using Hpost Htb.
  unfold jnext. rewrite link_lookup. case_decide; [|done]. destruct x as [u [[]|]]; done.
Qed.

Lemma link_ring v l : v ∈ live → jring s J v l → jring s' ({[t]} ∪ J) v l.
Proof using Hinv Hpost Htb HtJ.
  intros Hv (Hr & Hnd & Hlj). split_and!; [|done|].
  - unfold ring in *. rewrite link_jnext. cbn. rewrite decide_False by (intros ->; by apply Ht).
    eapply seg_ext, Hr. intros x (u & n & -> & Hu)%Hlj. rewrite link_jnext. cbn.
    by rewrite decide_False by (by intros ->).
  - intros x (u & n & -> & Hu)%Hlj. exists u, n. split; [done|]. by apply elem_of_union_r.
Qed.

Lemma link_jump : jump_inv s' ({[t]} ∪ live) ({[t]} ∪ J).
Proof.
  destruct (inv_jump _ _ _ _ Hinv) as [Ha Hb]. split.
  - intros v [->%elem_of_singleton|Hv]%elem_of_union.
    + exists []. split_and!; [|constructor|set_solver]. unfold ring. cbn.
      rewrite link_jnext. cbn. by rewrite decide_True.
    + destruct (Ha v Hv) as [l Hl]. eauto using link_ring.
  - intros u n Hu Hn. rewrite link_jnext in Hn. cbn in Hn. case_decide; [done|].
    destruct (Hb u n) as (v & l & Hv & Hl & Hin); [set_solver|done|].
    exists v, l. split_and!; [set_solver|by apply link_ring|done].
Qed.

Lemma link_jset : jset s' ({[t]} ∪ live) ({[t]} ∪ J).
Proof using Hinv Hpost Htb Hnb.
  destruct (inv_jset _ _ _ _ Hinv) as [J1 J2 J3]. split.
  - intros u [Hu|Hu]%elem_of_union; apply elem_of_union; [by left|right; by apply J1].
  - rewrite (lp_rest _ _ _ _ _ _ Hpost). intros u [->%elem_of_singleton|Hu]%elem_of_union; [done|by apply J2].
  - intros u Hu. rewrite link_lookup. case_decide as E; [done|].
    apply elem_of_union in Hu as [Hu%elem_of_singleton|Hu]; [done|by apply J3].
Qed.

Lemma link_cache : cache_inv s' ({[t]} ∪ live).
Proof.
  intros e env h u He Hh. rewrite (lp_rest _ _ _ _ _ _ Hpost) in He.
  destruct (inv_cache _ _ _ _ Hinv e env h u He Hh) as (Hu & tbu & Htu & ->).
  split; [set_solver|]. exists tbu. by rewrite link_other.
Qed.

Lemma link_inv : tb_inv_ex s' ({[t]} ∪ live) ({[t]} ∪ J) (λ _, False).
Proof. split; [apply link_live|apply link_hash|apply link_page|apply link_jset|apply link_jump|apply link_cache]. Qed.

Lemma link_prot : prot_inv s → prot_inv s'.
Proof using Hpost.
  intros Hp i Hi Hhd. pose proof (lp_pages _ _ _ _ _ _ Hpost) as Hpp.
  unfold page_head in Hhd. rewrite (pp_head _ _ _ _ _ Hpp) in Hhd by done.
  case_decide as E0; [rewrite E0; apply Hpp|].
  case_decide as E; [destruct E as [? ->]; by apply Hpp|].
  eapply clear_write_stays; [by apply Hp|by apply Hpp].
Qed.

End link_inv.

End link.
