(* ===== verification/TBGen.v ===== *)
(** * Code generation: allocation, flush and linking together

    [tb_gen_code] always returns a block ("cannot fail at this point"): it
    joins the live blocks, or is the only one when the cache had to be
    flushed. *)

From stdpp Require Import base gmap list fin_maps.
From S2P Require Import Prelude Chain Config CodePatch PageTable TBData TBOps TBInv TBLists TBCode.
From S2P Require Import TBLink.
Local Open Scope Z_scope.
Local Coercion Z.of_nat : nat >-> Z.

Section gen.
  Context `{Guest} `{!PageTable PT}.
  Notation st := (exec_state PT).
  Implicit Types (s : st) (t u v : tbid) (tb : TranslationBlock) (n m : slot) (live J : gset tbid).

(** ** States that agree on the blocks of a set *)

Record agree s s' J : Prop := {
  ag_tb u : u ∈ J → tbs s' !! u = tbs s !! u;
  ag_nb : (nb_tbs s ≤ nb_tbs s')%nat;
  ag_hash : tb_phys_hash s' = tb_phys_hash s;
  ag_l1 : l1_map s' = l1_map s;
  ag_cache e env' : cpus s' !! e = Some env' →
    ∃ env, cpus s !! e = Some env ∧ tb_jmp_cache env' = tb_jmp_cache env
}.

Lemma agree_jring s s' J v l :
  agree s s' J → v ∈ J → jring s J v l ↔ jring s' J v l.
Proof.
  intros Ha Hv. assert (∀ x, x.1 ∈ J → jnext s' x = jnext s x) as E.
  { intros x Hx. unfold jnext. by rewrite (ag_tb _ _ _ Ha). }
  unfold jring, ring. split; intros (Hr & Hnd & Hlj); (split; [|done]).
  - rewrite E by done. eapply seg_ext, Hr. intros x (u & n & -> & Hu)%Hlj. symmetry. by apply E.
  - rewrite E in Hr by done. eapply seg_ext, Hr. intros x (u & n & -> & Hu)%Hlj. by apply E.
Qed.

Lemma agree_chained s s' J u n v :
  agree s s' J → v ∈ J → chained s J u n v ↔ chained s' J u n v.
Proof. intros Ha Hv. unfold chained. by setoid_rewrite (agree_jring s s' J v _ Ha Hv). Qed.

Lemma agree_inv s s' live J E : agree s s' J → tb_inv_ex s live J E → tb_inv_ex s' live J E.
Proof.
  intros Ha [Hlv Hh Hp Hjs Hj Hc]. pose proof (js_live _ _ _ Hjs) as HlJ.
  assert (∀ u, u ∈ live → tbs s' !! u = tbs s !! u) as Et by (intros; by apply (ag_tb _ _ _ Ha), HlJ).
  pose proof (ag_nb _ _ _ Ha) as Hnb. split.
  - intros u Hu. destruct (Hlv u Hu) as (tb & ? & ? & ?). exists tb. rewrite Et by done. split_and!; [done|lia|done].
  - eapply chains_ext, Hh; [by intros; rewrite (ag_hash _ _ _ Ha)| |].
    + intros h u _ [Hu _]. unfold hnext. by rewrite Et.
    + intros h u _. unfold hash_mem. split; intros [Hu ?]; by rewrite Et in *.
  - eapply chains_ext, Hp; [by intros; unfold page_head; rewrite (ag_l1 _ _ _ Ha)| |].
    + intros i x _ [Hx _]. unfold pnext. by rewrite Et.
    + intros i x _. unfold page_mem. split; intros [Hx ?]; by rewrite Et in *.
  - split; [done|intros u Hu; pose proof (js_nb _ _ _ Hjs u Hu); lia|].
    intros u Hu. rewrite (ag_tb _ _ _ Ha) by done. by apply Hjs.
  - destruct Hj as [H1 H2]. split.
    + intros v Hv. destruct (H1 v Hv) as [l Hl]. exists l. rewrite <- (agree_jring s s'); auto.
    + intros u n Hu Hn. assert (jnext s (u, Lnext n) ≠ None) as Hn'.
      { unfold jnext in *. by rewrite (ag_tb _ _ _ Ha) in Hn. }
      destruct (H2 u n Hu Hn') as (v & l & Hv & Hl & Hin). exists v, l.
      split_and!; [done|rewrite <- (agree_jring s s'); auto|done].
  - intros e env' h u He Hh'. destruct (ag_cache _ _ _ Ha e env' He) as (env & He0 & Ec).
    rewrite Ec in Hh'. destruct (Hc e env h u He0 Hh') as (Hu & tb & Htb & ->).
    split; [done|]. exists tb. by rewrite Et.
Qed.

(** The native jumps of the blocks keep their destinations. *)
Lemma agree_code s s' live J :
  agree s s' J → jset s live J → code_inv s live J →
  (∀ u tb n i, jumper s J u tb n → jmp_slot tb n - 1 ≤ i < jmp_slot tb n + 4 → host_code s' !! i = host_code s !! i) →
  code_inv s' live J.
Proof.
  intros Ha Hjs [C0 C1 C2 C3] Hd. pose proof (js_live _ _ _ Hjs) as HlJ.
  assert (∀ u n, u ∈ J → jnext s' (u, Lnext n) = jnext s (u, Lnext n)) as Ej.
  { intros u n Hu. unfold jnext. by rewrite (ag_tb _ _ _ Ha). }
  assert (∀ u tb n, jumper s' J u tb n → jumper s J u tb n) as Hj.
  { intros u tb n (Hu & Ht & ?). rewrite (ag_tb _ _ _ Ha) in Ht by done. done. }
  assert (∀ u tb n, jumper s J u tb n →
    jmp_dest (host_code s') (jmp_slot tb n) = jmp_dest (host_code s) (jmp_slot tb n)) as Hd'.
  { intros u tb n Hu. apply jmp_dest_ext. intros. by apply (Hd u tb n). }
  split.
  - intros u tb n Hu%Hj. eapply is_jmp_ext; [|by apply (C0 u)]. apply (Hd u tb n); [done|lia].
  - intros u tb n Hu Ht Hn. rewrite (ag_tb _ _ _ Ha) in Ht by done. rewrite Ej in Hn by done. eauto.
  - intros u tb n (Hu & Ht & Hh) Hn. rewrite (ag_tb _ _ _ Ha) in Ht by auto. rewrite (Ej u n) in Hn by auto.
    rewrite (Hd' u) by (split; auto). by apply (C2 u).
  - intros u tb n v tbv Hu%Hj Hv Htv Hc. rewrite (ag_tb _ _ _ Ha) in Htv by auto.
    rewrite (Hd' u) by done. rewrite <- (agree_chained s s' J u n v Ha) in Hc by auto. eauto.
Qed.

(** ** Flushing *)

(** The sizes that [code_gen_alloc] and [cpu_exec_init_all] set up; [room] is
    what they leave for the code of one block. *)
Record sizes s (room : Z) : Prop := {
  sz_blocks : length (tbs s) = code_gen_max_blocks s ∧ (0 < code_gen_max_blocks s)%nat;
  sz_max : 0 < code_gen_buffer_max_size s;
  sz_room : 0 ≤ room ∧ code_gen_buffer_max_size s + room ≤ code_gen_buffer_size s;
  sz_buf : 0 ≤ code_gen_buffer s ∧ code_gen_buffer s + code_gen_buffer_size s < 2 ^ 64 ∧
           code_gen_buffer_size s < 2 ^ 31 - 4
}.

Lemma tb_flush_ok s env :
  code_gen_ptr s - code_gen_buffer s ≤ code_gen_buffer_size s →
  ∃ s', tb_flush s env = Ok s' ∧ tb_inv s' ∅ ∧ prot_inv s' ∧ code_inv s' ∅ (blocks s') ∧
    nb_tbs s' = 0%nat ∧ code_gen_ptr s' = code_gen_buffer s ∧ llvm_flush s' = 0 ∧
    cpus s' = (λ e, e <| tb_jmp_cache := ∅ |>) <$> alter ibtc_reset env (cpus s) ∧
    (∀ i, pflags (page_desc (l1_map s') i) = pflags (page_desc (l1_map s) i)) ∧
    s' = s <| nb_tbs := 0%nat |> <| cpus := cpus s' |> <| tb_phys_hash := ∅ |> <| l1_map := l1_map s' |>
      <| code_gen_ptr := code_gen_ptr s' |> <| llvm_flush := 0 |>
      <| tb_flush_version := tb_flush_version s' |> <| tb_flush_count := tb_flush_count s' |>.
Proof.
  intros Hle. unfold tb_flush. case_bool; bprop; [lia|].
  match goal with |- ∃ s', Ok ?x = Ok s' ∧ _ => assert (blocks x = ∅) as Hb by done end.
  eexists. split; [done|].
  assert (∀ pt i, page_desc (page_flush_tb pt) i = default zero_pd (flush_desc <$> page_find pt i)) as Hd.
  { intros. unfold page_desc. by rewrite page_find_flush. }
  split_and!; try done.
  - unfold tb_inv. rewrite Hb. split.
    + intros t Ht. set_solver.
    + intros h _. exists []. split_and!; [by cbn; rewrite lookup_empty|constructor|].
      unfold hash_mem. set_solver.
    + intros i _. exists []. split_and!; [|constructor|unfold page_mem; set_solver].
      cbn. unfold page_head. cbn. rewrite Hd. by destruct (page_find (l1_map s) i).
    + split; intros; set_solver.
    + split; intros; set_solver.
    + intros e env' h t He Hh. cbn in He. rewrite list_lookup_fmap in He.
      destruct (alter ibtc_reset env (cpus s) !! e); [|done].
      apply (inj Some) in He as <-. cbn in Hh. by rewrite lookup_empty in Hh.
  - intros i _ Hhd. exfalso. apply Hhd. unfold page_head. cbn. rewrite Hd.
    by destruct (page_find (l1_map s) i).
  - rewrite Hb. split; [intros u tb n [? _]; set_solver|set_solver|intros u tb n [? _]; set_solver|intros u tb n v tbv [? _]; set_solver].
  - intros i. cbn. rewrite Hd. unfold page_desc. by destruct (page_find (l1_map s) i).
Qed.

(** ** Emission of the code *)

(** What is required of the translator: the code of a block starts with the
    patch point and fits in the room left for it, and its chainable jumps are
    disjoint jump instructions of the rest. *)
Record gen_ok (gi : gen_info) (room : Z) : Prop := {
  go_len : 8 ≤ length (gi_code gi) ∧ length (gi_code gi) + (CODE_GEN_ALIGN - 1) ≤ room;
  go_jump n : get2 (gi_next_offset gi) n ≠ 0xffff →
    8 < get2 (gi_jmp_offset gi) n ∧ get2 (gi_jmp_offset gi) n + 4 ≤ length (gi_code gi) ∧
    0 ≤ get2 (gi_next_offset gi) n < length (gi_code gi);
  go_op n : get2 (gi_next_offset gi) n ≠ 0xffff →
    gi_code gi !! Z.to_nat (get2 (gi_jmp_offset gi) n - 1) = Some 0xe9;
  go_apart : at0 (gi_next_offset gi) ≠ 0xffff → at1 (gi_next_offset gi) ≠ 0xffff →
    at0 (gi_jmp_offset gi) + 5 ≤ at1 (gi_jmp_offset gi) ∨
    at1 (gi_jmp_offset gi) + 5 ≤ at0 (gi_jmp_offset gi)
}.

(** When [tb_alloc] refuses. *)
Definition must_flush s : bool :=
  bool_decide (code_gen_max_blocks s ≤ nb_tbs s)%nat
  || (code_gen_buffer_max_size s <=? code_gen_ptr s - code_gen_buffer s) || llvm_check_flush s.

Definition align_code (p : Z) : Z := (p + CODE_GEN_ALIGN - 1) .& .~ (CODE_GEN_ALIGN - 1).

Lemma align_code_range p : p ≤ align_code p ≤ p + (CODE_GEN_ALIGN - 1).
Proof.
  unfold align_code. change (CODE_GEN_ALIGN - 1) with (2 ^ 4 - 1). change CODE_GEN_ALIGN with 16.
  rewrite land_lnot_low by lia. pose proof (Z.mod_pos_bound (p + 16 - 1) (2 ^ 4)). lia.
Qed.

(** The state when the code of the new block is in the cache and the block is
    not linked yet. *)
Record emit_post s s' t tb (gi : gen_info) pc_ cs_base_ flags_ cflags_ : Prop := {
  em_t : t = nb_tbs s;
  em_tbs : tbs s' = alter (λ _, tb) t (tbs s);
  em_tb : pc tb = pc_ ∧ cs_base tb = cs_base_ ∧ flags tb = u64 flags_ ∧ cflags tb = cflags_ ∧
    size tb = gi_size gi ∧ icount tb = gi_icount gi ∧
    code_view tb = (code_gen_ptr s, gi_next_offset gi, gi_jmp_offset gi, EnvNull) ∧ mode tb = 0;
  em_rest : s' = s <| tbs := tbs s' |> <| nb_tbs := S (nb_tbs s) |>
    <| host_code := store_bytes (host_code s) (code_gen_ptr s) (gi_code gi) |>
    <| code_gen_ptr := align_code (code_gen_ptr s + length (gi_code gi)) |>
    <| tb_invalidated_flag := tb_invalidated_flag s' |>
}.

Lemma tb_alloc_none s pc_ : must_flush s = true → tb_alloc s pc_ = Ok (s, None).
Proof. unfold tb_alloc, must_flush. by intros ->. Qed.

(** The second half of [tb_gen_code], from the allocated block on. *)
Definition gen_tail (gen : Z → gen_info) s t (pc_ cs_base_ flags_ cflags_ : Z) : result (st * tbid) :=
  let tcp := code_gen_ptr s in
  let s := upd_tb s t (λ tb, tb <| tc_ptr := tcp |> <| opt_ptr := tcp |>
             <| cs_base := cs_base_ |> <| flags := u64 flags_ |> <| cflags := cflags_ |>) in
  '(s, code_gen_size) <- cpu_gen_code s t gen ;;
  let s := s <| code_gen_ptr :=
     (code_gen_ptr s + code_gen_size + CODE_GEN_ALIGN - 1) .& .~ (CODE_GEN_ALIGN - 1) |> in
  tb <- get_tb s t ;;
  let virt_page2 := tul (pc_ + size tb - 1) .& TARGET_PAGE_MASK in
  let phys_page2 := if pc_ .& TARGET_PAGE_MASK =? virt_page2 then no_page
                    else get_page_addr_code virt_page2 in
  s <- tb_link_page s t (get_page_addr_code pc_) phys_page2 ;;
  Ok (s, t).

Lemma tb_alloc_tail gen s b pc_ cs_base_ flags_ cflags_ :
  must_flush s = false → length (tbs s) = code_gen_max_blocks s → layout s →
  ∃ s1, tb_alloc s pc_ = Ok (s1, Some (nb_tbs s)) ∧
  ∃ s' tb, emit_post s s' (nb_tbs s) tb (gen (code_gen_ptr s)) pc_ cs_base_ flags_ cflags_ ∧
    gen_tail gen (s1 <| tb_invalidated_flag := b |>) (nb_tbs s) pc_ cs_base_ flags_ cflags_ =
      (s2 <- tb_link_page s' (nb_tbs s) pc_ (page2_of pc_ (size tb)) ;; Ok (s2, nb_tbs s)) ∧
    tb_invalidated_flag s' = b.
Proof.
  intros Hf Hlen Hly. unfold tb_alloc. unfold must_flush in Hf. rewrite Hf.
  apply orb_false_iff in Hf as [[Hnb%bool_decide_eq_false _]%orb_false_iff _].
  destruct (lookup_lt_is_Some_2 (tbs s) (nb_tbs s)) as [tb Htb]; [lia|].
  unfold get_tb at 1. rewrite Htb. cbn [rbind deref].
  assert (free_env (tb_env tb) = Ok tt) as -> by (pose proof (ly_env s Hly _ _ Htb); by destruct (tb_env tb)).
  cbn [rbind]. eexists. split; [done|].
  unfold gen_tail, cpu_gen_code, get_tb.
  set (s1 := (upd_tb _ (nb_tbs s) _) <| tb_invalidated_flag := b |>).
  set (s2 := upd_tb s1 _ _).
  destruct (tbs s2 !! nb_tbs s) as [tb2|] eqn:E2.
  2: { exfalso. cbn in E2. rewrite !list_lookup_alter_eq, Htb in E2. done. }
  assert (tc_ptr tb2 = code_gen_ptr s) as Ep.
  { cbn in E2. rewrite !list_lookup_alter_eq, Htb in E2. apply (inj Some) in E2. by subst tb2. }
  cbn [rbind deref]. rewrite Ep.
  set (s3 := _ <| host_code := _ |>). set (s4 := s3 <| code_gen_ptr := _ |>).
  destruct (tbs s4 !! nb_tbs s) as [tb4|] eqn:E4.
  2: { exfalso. cbn in E4. rewrite !list_lookup_alter_eq, Htb in E4. done. }
  cbn [rbind deref]. exists s4, tb4. split_and!; [|done|done].
  pose proof E4 as Etb. cbn in Etb. rewrite !list_lookup_alter_eq, Htb in Etb.
  apply (inj Some) in Etb. split; [done| | |].
  - cbn. rewrite !list_alter_alter_eq. apply list_alter_ext; [|done].
    intros tb' Htb'. simplify_eq. done.
  - rewrite <- Etb. split_and!; done.
  - done.
Qed.

Section emit.
  Context s s' live t tb (gi : gen_info) (pc_ cs_base_ flags_ cflags_ room : Z).
  Context (He : emit_post s s' t tb gi pc_ cs_base_ flags_ cflags_).
  Context (Hgen : gen_ok gi room) (Hsz : sizes s room) (Hly : layout s).
  Context (Hfit : must_flush s = false) (Hlv : jset s live (blocks s)).

Lemma emit_lt : (nb_tbs s < length (tbs s))%nat ∧ code_gen_ptr s - code_gen_buffer s < code_gen_buffer_max_size s.
Proof.
  pose proof Hfit as Hf. unfold must_flush in Hf.
  apply orb_false_iff in Hf as [[Hnb%bool_decide_eq_false Hp]%orb_false_iff _]. bprop.
  destruct (sz_blocks _ _ Hsz). lia.
Qed.

Lemma emit_lookup u : tbs s' !! u = if decide (u = t) then Some tb else tbs s !! u.
Proof.
  rewrite (em_tbs _ _ _ _ _ _ _ _ _ He), list_lookup_alter.
  repeat case_decide; subst; try done. rewrite (em_t _ _ _ _ _ _ _ _ _ He).
  destruct (lookup_lt_is_Some_2 (tbs s) (nb_tbs s)) as [tb0 ->]; [apply emit_lt|done].
Qed.

Lemma emit_fresh : t ∉ blocks s.
Proof using He. rewrite elem_of_blocks, (em_t _ _ _ _ _ _ _ _ _ He). lia. Qed.

Lemma emit_blocks : blocks s' = {[t]} ∪ blocks s.
Proof using He.
  apply set_eq. intros u. rewrite elem_of_union, elem_of_singleton, !elem_of_blocks.
  rewrite (em_t _ _ _ _ _ _ _ _ _ He), (em_rest _ _ _ _ _ _ _ _ _ He). cbn. lia.
Qed.

Lemma emit_agree : agree s s' (blocks s).
Proof.
  split; [| |by rewrite (em_rest _ _ _ _ _ _ _ _ _ He)..|].
  - intros u Hu. rewrite emit_lookup, decide_False; [done|]. intros ->. by apply emit_fresh.
  - rewrite (em_rest _ _ _ _ _ _ _ _ _ He). cbn. lia.
  - intros e env. rewrite (em_rest _ _ _ _ _ _ _ _ _ He). cbn. eauto.
Qed.

Lemma emit_start i :
  block_start s' i =
    if decide (i ≤ nb_tbs s)%nat then block_start s i
    else align_code (code_gen_ptr s + length (gi_code gi)).
Proof.
  unfold block_start at 1. rewrite emit_lookup.
  replace (nb_tbs s') with (S (nb_tbs s)) by (by rewrite (em_rest _ _ _ _ _ _ _ _ _ He)).
  replace (code_gen_ptr s') with (align_code (code_gen_ptr s + length (gi_code gi)))
    by (by rewrite (em_rest _ _ _ _ _ _ _ _ _ He)).
  destruct (decide (i ≤ nb_tbs s)%nat) as [Hi|Hi].
  - rewrite decide_True by lia. rewrite (em_t _ _ _ _ _ _ _ _ _ He). unfold block_start.
    case_decide as E.
    + subst i. rewrite decide_False by lia. cbn.
      destruct (em_tb _ _ _ _ _ _ _ _ _ He) as (_ & _ & _ & _ & _ & _ & [= -> _ _ _] & _). done.
    + by rewrite decide_True by lia.
  - by rewrite decide_False by lia.
Qed.

Lemma emit_layout : layout s'.
Proof.
  pose proof (em_tb _ _ _ _ _ _ _ _ _ He) as (_ & _ & _ & _ & _ & _ & [= E1 E2 E3 E4] & _).
  destruct (go_len _ _ Hgen) as [Hlen Hroom]. destruct emit_lt as [_ Hptr].
  pose proof (align_code_range (code_gen_ptr s + length (gi_code gi))) as Hal.
  pose proof (sz_room _ _ Hsz) as [_ Hsr].
  assert (nb_tbs s' = S (nb_tbs s)) as Enb by (by rewrite (em_rest _ _ _ _ _ _ _ _ _ He)).
  assert (block_start s (nb_tbs s) = code_gen_ptr s) as Eptr.
  { unfold block_start. by rewrite decide_False by lia. }
  assert (t = nb_tbs s) as Et by apply He.
  split.
  - rewrite (em_rest _ _ _ _ _ _ _ _ _ He). apply Hsz.
  - rewrite emit_start, decide_True by lia. rewrite (em_rest _ _ _ _ _ _ _ _ _ He). apply Hly.
  - rewrite (em_rest _ _ _ _ _ _ _ _ _ He). cbn. lia.
  - intros i Hi. rewrite emit_lookup. case_decide; [eauto|]. apply Hly. lia.
  - intros i Hi. rewrite !emit_start, (decide_True (P := (i ≤ _)%nat)) by lia. case_decide.
    + apply Hly. lia.
    + assert (i = nb_tbs s) as -> by lia. lia.
  - intros i tb' n Hi Htb' Hn. rewrite emit_lookup in Htb'.
    rewrite !emit_start, (decide_True (P := (i ≤ _)%nat)) by lia. case_decide as E.
    + apply (inj Some) in Htb' as <-. rewrite decide_False by lia.
      replace (block_start s i) with (code_gen_ptr s) by (rewrite E, Et; done). unfold has_jump in Hn. rewrite E2 in Hn.
      destruct (go_jump _ _ Hgen n Hn) as (? & ? & ?). unfold jmp_slot, jmp_epilogue.
      rewrite E1, E2, E3. lia.
    + rewrite decide_True by lia. apply (ly_jump s Hly); [lia|done..].
  - intros i tb' Hi Htb' H0 H1. rewrite emit_lookup in Htb'. case_decide as E.
    + apply (inj Some) in Htb' as <-. unfold has_jump in *. rewrite E2 in H0, H1. unfold jmp_slot. rewrite E1, E3. cbn.
      pose proof (go_apart _ _ Hgen H0 H1). lia.
    + apply (ly_apart s Hly i); [lia|done..].
  - intros i tb' Htb'. rewrite emit_lookup in Htb'. case_decide; [|by apply (ly_env s Hly i)].
    apply (inj Some) in Htb' as <-. by rewrite E4.
Qed.

Lemma emit_host : host_code s' = store_bytes (host_code s) (code_gen_ptr s) (gi_code gi).
Proof using He. by rewrite (em_rest _ _ _ _ _ _ _ _ _ He). Qed.

Lemma emit_code : code_inv s live (blocks s) → code_inv s' live (blocks s).
Proof.
  intros Hc. apply (agree_code s s'); [apply emit_agree|done..|].
  intros u tbu n i (Hu & Htu & Hn) Hi. rewrite emit_host.
  apply store_bytes_below. pose proof (js_nb _ _ _ Hlv u Hu) as Hnb.
  destruct (ly_jump s Hly u tbu n Hnb Htu Hn) as (_ & ? & _).
  pose proof (block_start_mono_le s (S u) (nb_tbs s) Hly) as Hm.
  unfold block_start in Hm at 2. rewrite (decide_False (P := (nb_tbs s < _)%nat)) in Hm by lia. lia.
Qed.

Lemma emit_op n : has_jump tb n → is_jmp (host_code s') (jmp_slot tb n).
Proof.
  destruct (em_tb _ _ _ _ _ _ _ _ _ He) as (_ & _ & _ & _ & _ & _ & [= E1 E2 E3 E4] & _).
  unfold has_jump, is_jmp, jmp_slot. rewrite E1, E2, E3. intros Hn.
  pose proof (go_jump _ _ Hgen n Hn) as (? & ? & _). rewrite emit_host.
  rewrite <- (store_bytes_inside (host_code s) (code_gen_ptr s) _ _ _ (go_op _ _ Hgen n Hn)). f_equal. lia.
Qed.

Lemma emit_sizes : sizes s' room.
Proof.
  destruct Hsz as [[? ?] ? ? ?].
  assert (length (tbs s') = length (tbs s)) as E.
  { rewrite (em_tbs _ _ _ _ _ _ _ _ _ He). apply length_alter. }
  split; rewrite ?E; by rewrite (em_rest _ _ _ _ _ _ _ _ _ He).
Qed.

End emit.

(** ** The native code of the linked block *)
Section link_code.
  Context s s' live J t tb (phys_pc page2 : Z).
  Context (Hinv : tb_inv_ex s live J (λ _, False)) (Hpost : link_post s s' t tb phys_pc page2).
  Context (Hly : layout s) (HtJ : t ∉ J) (Hnb : (t < nb_tbs s)%nat) (Htb : tbs s !! t = Some tb).
  Context (Hc : code_inv s live J) (Hop : ∀ n, has_jump tb n → is_jmp (host_code s) (jmp_slot tb n)).

Let tb' := linked s t tb phys_pc page2.

Lemma link_layout : layout s'.
Proof.
  apply (layout_ext s); [|by rewrite (lp_rest _ _ _ _ _ _ Hpost)..|done].
  intros u. rewrite (link_lookup s s' t tb phys_pc page2) by done.
  case_decide; [subst; by rewrite Htb|done].
Qed.

Lemma link_below u : u ∈ {[t]} ∪ J → (u < nb_tbs s)%nat.
Proof. intros [->%elem_of_singleton|Hu]%elem_of_union; [done|]. by apply (inv_jset _ _ _ _ Hinv). Qed.

Lemma link_ops : jumps_ok s ({[t]} ∪ J) (host_code s).
Proof.
  intros u tbu n (Hu & Htu & Hn). destruct (decide (u = t)) as [->|Hne].
  - simplify_eq. by apply Hop.
  - apply (ci_op s live J Hc u). split_and!; [set_solver|done..].
Qed.

Lemma linked_code_ops : jumps_ok s ({[t]} ∪ J) (linked_code (host_code s) tb).
Proof.
  assert (∀ c m, has_jump tb m → jumps_ok s ({[t]} ∪ J) c →
    jumps_ok s ({[t]} ∪ J) (tb_set_jmp_target1 c (jmp_slot tb m) (jmp_epilogue tb m))) as Hset.
  { intros c m Hm Hok. apply (set_jump_ops s _ Hly link_below _ t); [|done]. split_and!; [set_solver|done..]. }
  unfold linked_code. pose proof link_ops. unfold has_jump in Hset.
  repeat case_bool; bprop; repeat apply Hset; done.
Qed.

Lemma linked_code_dest u tbu n :
  jumper s ({[t]} ∪ J) u tbu n →
  jmp_dest (linked_code (host_code s) tb) (jmp_slot tbu n) =
    if decide (u = t) then Some (jmp_epilogue tbu n) else jmp_dest (host_code s) (jmp_slot tbu n).
Proof.
  intros Hu. unfold linked_code.
  assert (∀ m, has_jump tb m → jumper s ({[t]} ∪ J) t tb m) as Hself.
  { intros m Hm. split_and!; [set_solver|done..]. }
  assert (∀ c m, has_jump tb m → (t, m) ≠ (u, n) →
    jmp_dest (tb_set_jmp_target1 c (jmp_slot tb m) (jmp_epilogue tb m)) (jmp_slot tbu n) =
      jmp_dest c (jmp_slot tbu n)) as Hother.
  { intros c' m Hm Hne. apply (set_jump_other s _ Hly link_below _ t tb m u); [by apply Hself|done..]. }
  pose proof Hu as (_ & Htu & Hn).
  case_decide as Eu.
  - subst u. assert (tbu = tb) as -> by congruence.
    assert (∀ c, jumps_ok s ({[t]} ∪ J) c →
      jmp_dest (tb_set_jmp_target1 c (jmp_slot tb n) (jmp_epilogue tb n)) (jmp_slot tb n)
      = Some (jmp_epilogue tb n)) as Hset.
    { intros c Hok. apply set_jmp_target1_dest; [by apply (layout_near_epilogue s _ Hly link_below t)|].
      intros _. by apply (Hok t). }
    pose proof link_ops as Hok. unfold has_jump in *. destruct n; cbn in Hn.
    + rewrite (proj2 (Z.eqb_neq _ _) Hn). case_bool; bprop; [by apply Hset|]. rewrite Hother; [by apply Hset|done..].
    + rewrite (proj2 (Z.eqb_neq (at1 _) _) Hn). apply Hset. case_bool; bprop; [done|].
      apply (set_jump_ops s _ Hly link_below _ t); [by apply Hself|done].
  - repeat case_bool; bprop; rewrite ?Hother by (done || congruence); done.
Qed.

Lemma link_jumper J' u tbu n :
  jumper s' ({[t]} ∪ J') u tbu n →
  ∃ tbu0, jumper s ({[t]} ∪ J') u tbu0 n ∧ code_view tbu0 = code_view tbu ∧ (u ≠ t → tbu0 = tbu).
Proof.
  intros (Hu & Htu & Hn). rewrite (link_lookup s s' t tb phys_pc page2) in Htu by done.
  case_decide as E; [|exists tbu; split_and!; done].
  apply (inj Some) in Htu as <-. exists tb. subst u. split_and!; done.
Qed.

Lemma link_code : code_inv s' ({[t]} ∪ live) ({[t]} ∪ J).
Proof.
  assert (∀ x, jnext s' x =
    if decide (x.1 = t) then (if x.2 is Lfirst then Some (t, Lfirst) else None) else jnext s x) as Ejn.
  { by eapply link_jnext. }
  pose proof (js_live _ _ _ (inv_jset _ _ _ _ Hinv)) as HlJ. split.
  - intros u tbu' n (tbu & Hu & Ev & Ed)%link_jumper. rewrite (lp_code _ _ _ _ _ _ Hpost).
    destruct (code_view_eq _ _ n Ev) as (_ & <- & _). by apply (linked_code_ops u).
  - intros u tbu n Hu Htu Hn. rewrite Ejn in Hn. cbn in Hn. case_decide as E; [done|].
    rewrite (link_lookup s s' t tb phys_pc page2), decide_False in Htu by done.
    apply (ci_has s live J Hc u); [set_solver|done..].
  - intros u tbu' n (tbu & Hu & Ev & Ed)%link_jumper Hn. rewrite (lp_code _ _ _ _ _ _ Hpost).
    destruct (code_view_eq _ _ n Ev) as (_ & <- & <- & _). rewrite (linked_code_dest u) by (destruct Hu; split; set_solver).
    case_decide as E; [done|]. rewrite Ejn in Hn. cbn in Hn. rewrite decide_False in Hn by done.
    destruct Hu as (Hu & Htu & Hhas). apply (ci_free s live J Hc u); [|done].
    split_and!; [set_solver|done..].
  - intros u tbu' n v tbv' (tbu & Hu & Ev & Ed)%link_jumper Hv Htv (l & Hl & Hin).
    rewrite (lp_code _ _ _ _ _ _ Hpost). destruct (code_view_eq _ _ n Ev) as (_ & <- & _ & _).
    rewrite (linked_code_dest u) by done.
    pose proof (ring_next_some _ _ _ _ (proj1 Hl) Hin) as Hn. rewrite Ejn in Hn. cbn in Hn.
    case_decide as E; [done|].
    destruct Hu as (Hu & Htu & Hhas). assert (u ∈ J) as Hul by set_solver.
    destruct (proj2 (inv_jump _ _ _ _ Hinv) u n Hul Hn) as (w & k & Hw & Hk & Hkin).
    assert (jring s' ({[t]} ∪ J) w k) as Hk' by (by eapply link_ring).
    rewrite (jring_inj _ _ _ _ _ _ _ Hl Hk' Hin Hkin) in *.
    rewrite (link_lookup s s' t tb phys_pc page2), decide_False in Htv by (done || set_solver).
    apply (ci_chained s live J Hc u tbu n w tbv'); [done..|by exists k].
Qed.

End link_code.

(** ** The manager as a whole *)

(** Everything the manager maintains. *)
Record mgr_ex (room : Z) s live (E : Z → Prop) : Prop := {
  m_inv : tb_inv_ex s live (blocks s) E;
  m_prot : prot_inv_ex s E;
  m_host : host_ok s;
  m_layout : layout s;
  m_code : code_inv s live (blocks s);
  m_sizes : sizes s room
}.

Definition mgr (room : Z) s live : Prop := mgr_ex room s live (λ _, False).

(** The guest addresses at which a block can be translated. *)
Record pc_ok s (pc_ size_ : Z) : Prop := {
  po_pc : 0 ≤ pc_ ∧ pc_ + size_ < 2 ^ TARGET_LONG_BITS;
  po_size : 0 < size_ ≤ TARGET_PAGE_SIZE;
  po_page1 : page_ok s (page_base pc_);
  po_page2 : page2_of pc_ size_ ≠ no_page → page_ok s (page2_of pc_ size_)
}.

(** The block that was asked for. *)
Definition tb_for tb (pc_ cs_base_ flags_ cflags_ : Z) : Prop :=
  pc tb = pc_ ∧ cs_base tb = cs_base_ ∧ flags tb = u64 flags_ ∧ cflags tb = cflags_ ∧
  page_addr tb = A2 (page_base pc_) (page2_of pc_ (size tb)) ∧ mode tb = 0.

(** What the CPUs run, and what does not change, when a block is translated. *)
Record env_frame s s' : Prop := {
  ef_hps : qemu_host_page_size s' = qemu_host_page_size s;
  ef_single : cpu_single_env s' = cpu_single_env s;
  ef_buf : code_gen_buffer s' = code_gen_buffer s ∧ code_gen_buffer_size s' = code_gen_buffer_size s;
  ef_run e : current_tb <$> cpus s' !! e = current_tb <$> cpus s !! e;
  ef_regs e : guest_regs <$> cpus s' !! e = guest_regs <$> cpus s !! e
}.
#[export] Instance env_frame_refl : Reflexive env_frame.
Proof. by split. Qed.
#[export] Instance env_frame_trans : Transitive env_frame.
Proof. intros s1 s2 s3 [? ? [] ? ?] [? ? [] ? ?]. split; intros; try split; congruence. Qed.

Lemma env_frame_cpus s s' :
  qemu_host_page_size s' = qemu_host_page_size s → cpu_single_env s' = cpu_single_env s →
  cpus s' = cpus s → code_gen_buffer s' = code_gen_buffer s →
  code_gen_buffer_size s' = code_gen_buffer_size s → env_frame s s'.
Proof. intros ? ? E ? ?. split; try done; intros; by rewrite E. Qed.

(** Linking the emitted block. *)
Lemma gen_tail_ok room s live s1 t tb gi pc_ cs_base_ flags_ cflags_ :
  mgr room s live → must_flush s = false → gen_ok gi room →
  emit_post s s1 t tb gi pc_ cs_base_ flags_ cflags_ → pc_ok s pc_ (gi_size gi) →
  ∃ s2 tb2, tb_link_page s1 t pc_ (page2_of pc_ (size tb)) = Ok s2 ∧ mgr room s2 ({[t]} ∪ live) ∧
    t ∉ live ∧ tbs s2 !! t = Some tb2 ∧ tb_for tb2 pc_ cs_base_ flags_ cflags_ ∧
    size tb2 = gi_size gi ∧ blocks s2 = {[t]} ∪ blocks s ∧
    (∀ u, u ∈ blocks s → tbs s2 !! u = tbs s !! u) ∧ env_frame s s2 ∧
    tb_invalidated_flag s2 = tb_invalidated_flag s1.
Proof.
  intros [Hinv Hprot%prot_inv_none Hhost Hly Hc Hsz] Hfit Hgen He Hpc.
  pose proof (em_tb _ _ _ _ _ _ _ _ _ He) as (Epc & Ecs & Efl & Ecf & Esz & _ & Ev & Emode).
  pose proof (inv_jset _ _ _ _ Hinv) as Hjs.
  assert (qemu_host_page_size s1 = qemu_host_page_size s) as Eh by (by rewrite (em_rest _ _ _ _ _ _ _ _ _ He)).
  assert (host_ok s1) as Hh1 by (unfold host_ok; by rewrite Eh).
  assert (∀ a, page_ok s a → page_ok s1 a) as Hpo by (unfold page_ok, host_page_base; by rewrite Eh).
  assert (tbs s1 !! t = Some tb) as Htb1 by (erewrite emit_lookup by done; by rewrite decide_True).
  assert (t ∉ blocks s) as Ht by (by eapply emit_fresh).
  assert (t < nb_tbs s1)%nat as Hnb1.
  { rewrite (em_rest _ _ _ _ _ _ _ _ _ He). cbn. rewrite (em_t _ _ _ _ _ _ _ _ _ He). lia. }
  assert (tb_inv_ex s1 live (blocks s) (λ _, False)) as Hinv1 by (eapply agree_inv; [by eapply emit_agree|done]).
  assert (layout s1) as Hly1 by (by eapply emit_layout).
  destruct Hpc as [Hrange Hsize Hp1 Hp2]. rewrite Esz.
  destruct (tb_link_page_ok s1 t tb pc_ (page2_of pc_ (gi_size gi))) as (s2 & H2 & Hpost);
    [done|by apply Hpo|intros; by apply Hpo, Hp2|intros; by apply page2_of_index|done|].
  assert (∀ u, tbs s2 !! u = if decide (u = t) then
    Some (linked s1 t tb pc_ (page2_of pc_ (gi_size gi))) else tbs s1 !! u) as Hlk by (by eapply link_lookup).
  assert (blocks s2 = {[t]} ∪ blocks s) as Eb.
  { erewrite <- emit_blocks by done. apply blocks_nb. by rewrite (lp_rest _ _ _ _ _ _ Hpost). }
  exists s2, (linked s1 t tb pc_ (page2_of pc_ (gi_size gi))). split_and!; try done.
  - pose proof (page_ok_valid s1 _ Hh1 (Hpo _ Hp1)) as Hv0. rewrite page_index_base in Hv0.
    split; rewrite ?Eb.
    + eapply link_inv; try done; [by rewrite Esz..|].
      intros E. by apply (page_ok_valid s1); [|apply Hpo, Hp2].
    + apply prot_inv_none. eapply link_prot; [done|]. intros i Hi. unfold page_head.
      rewrite (em_rest _ _ _ _ _ _ _ _ _ He). by apply Hprot.
    + unfold host_ok. by rewrite (lp_rest _ _ _ _ _ _ Hpost).
    + by eapply link_layout.
    + eapply link_code; try done; [by eapply emit_code|]. intros n. by eapply emit_op.
    + destruct (emit_sizes s s1 t tb gi pc_ cs_base_ flags_ cflags_ room) as [S1 S2 S3 S4]; [done..|].
      assert (length (tbs s2) = length (tbs s1)) as El
        by (rewrite (lp_tbs _ _ _ _ _ _ Hpost); apply length_alter).
      split; rewrite ?El; by rewrite (lp_rest _ _ _ _ _ _ Hpost).
  - intros Hl. by apply Ht, (js_live _ _ _ Hjs).
  - by rewrite Hlk, decide_True.
  - split_and!; try done. cbn. by rewrite Esz.
  - intros u Hu. rewrite Hlk, decide_False by (by intros ->).
    by apply (ag_tb s s1 (blocks s) (emit_agree _ _ _ _ _ _ _ _ _ _ He Hsz Hfit)).
  - apply env_frame_cpus; rewrite (lp_rest _ _ _ _ _ _ Hpost); cbn; by rewrite (em_rest _ _ _ _ _ _ _ _ _ He).
  - by rewrite (lp_rest _ _ _ _ _ _ Hpost).
Qed.

Lemma flush_layout s s' room :
  sizes s room → layout s → tbs s' = tbs s → nb_tbs s' = 0%nat → code_gen_ptr s' = code_gen_buffer s →
  code_gen_buffer s' = code_gen_buffer s → code_gen_buffer_size s' = code_gen_buffer_size s → layout s'.
Proof.
  intros Hsz Hly Et En Ep Eb Ez.
  assert (block_start s' 0 = code_gen_buffer s) as E0.
  { unfold block_start. by rewrite En, Ep, decide_False by lia. }
  pose proof (sz_room _ _ Hsz). pose proof (sz_max _ _ Hsz).
  split; rewrite ?Eb, ?Ez, ?En, ?Ep, ?E0, ?Et; try apply Hsz; first [apply Hly|lia|intros; exfalso; lia].
Qed.

(** After the flush nothing is left and there is room. *)
Lemma flush_mgr room s live env :
  mgr room s live →
  ∃ s', tb_flush s env = Ok s' ∧ mgr room s' ∅ ∧ must_flush s' = false ∧
    tb_invalidated_flag s' = tb_invalidated_flag s ∧ qemu_host_page_size s' = qemu_host_page_size s ∧
    env_frame s s' ∧ blocks s' = ∅ ∧
    (∀ e env', cpus s' !! e = Some env' → ∃ env0, cpus s !! e = Some env0 ∧
      env' = (if decide (e = env) then ibtc_reset env0 else env0) <| tb_jmp_cache := ∅ |>).
Proof.
  intros [Hinv Hprot%prot_inv_none Hhost Hly Hc Hsz].
  destruct (tb_flush_ok s env) as (s' & Hs' & Hinv' & Hprot'%prot_inv_none & Hc' & Enb & Ep & Ell & Ecpu & _ & Er).
  { pose proof (ly_hi _ Hly). lia. }
  assert (blocks s' = ∅) as Eb by (unfold blocks; by rewrite Enb).
  exists s'. split_and!; [done| | |by rewrite Er..| |done|].
  - split; try done.
    + by rewrite Er.
    + eapply (flush_layout s s' room); [done..|by rewrite Er|done|done|by rewrite Er|by rewrite Er].
    + destruct Hsz. rewrite Er. by split.
  - destruct (sz_blocks _ _ Hsz) as [_ Hb]. pose proof (sz_max _ _ Hsz).
    unfold must_flush, llvm_check_flush. rewrite Ell, Enb, Ep.
    replace (code_gen_max_blocks s') with (code_gen_max_blocks s) by (by rewrite Er).
    replace (code_gen_buffer_max_size s') with (code_gen_buffer_max_size s) by (by rewrite Er).
    replace (code_gen_buffer s') with (code_gen_buffer s) by (by rewrite Er).
    rewrite bool_decide_eq_false_2 by lia. rewrite Z.sub_diag, (proj2 (Z.leb_gt _ _)) by lia. done.
  - split; [by rewrite Er..| |]; intros e; rewrite Ecpu, list_lookup_fmap, list_lookup_alter;
      case_decide; subst; by destruct (cpus s !! _).
  - rewrite Ecpu. intros e env'. rewrite list_lookup_fmap, list_lookup_alter. intros He.
    destruct (decide (env = e)) as [<-|Hne].
    + destruct (cpus s !! env) as [env0|]; [|done]. exists env0. rewrite decide_True by done.
      split; [done|]. by apply (inj Some) in He.
    + destruct (cpus s !! e) as [env0|]; [|done]. exists env0. rewrite decide_False by congruence.
      split; [done|]. by apply (inj Some) in He.
Qed.

(** [tb_gen_code] always succeeds. *)
Lemma tb_gen_code_ok room gen s live env pc_ cs_base_ flags_ cflags_ :
  mgr room s live → (∀ p, gen_ok (gen p) room ∧ pc_ok s pc_ (gi_size (gen p))) →
  let live0 := if must_flush s then ∅ else live in
  let blocks0 := if must_flush s then ∅ else blocks s in
  ∃ s' t tb, tb_gen_code gen s env pc_ cs_base_ flags_ cflags_ = Ok (s', t) ∧
    mgr room s' ({[t]} ∪ live0) ∧ t ∉ live0 ∧
    tbs s' !! t = Some tb ∧ tb_for tb pc_ cs_base_ flags_ cflags_ ∧
    (∃ p, size tb = gi_size (gen p)) ∧ blocks s' = {[t]} ∪ blocks0 ∧
    (∀ u, u ∈ blocks0 → tbs s' !! u = tbs s !! u) ∧ env_frame s s' ∧
    tb_invalidated_flag s' = if must_flush s then 1 else tb_invalidated_flag s.
Proof.
  intros Hm Hgen live0 blocks0. unfold tb_gen_code. destruct (must_flush s) eqn:Hf; unfold live0, blocks0.
  - rewrite tb_alloc_none by done. cbn [rbind].
    destruct (flush_mgr room s live env Hm) as (s1 & -> & Hm1 & Hf1 & _ & Eh & Ec & Eb1 & _). cbn [rbind].
    destruct (tb_alloc_tail gen s1 1 pc_ cs_base_ flags_ cflags_ Hf1)
      as (s2 & -> & s3 & tb3 & He & Htail & Eflag); [apply (m_sizes _ _ _ _ Hm1)|apply Hm1|].
    cbn [rbind deref]. unfold gen_tail in Htail. rewrite Htail.
    destruct (gen_tail_ok room s1 ∅ s3 (nb_tbs s1) tb3 (gen (code_gen_ptr s1)) pc_ cs_base_ flags_ cflags_)
      as (s4 & tb4 & -> & Hm4 & Ht & Htb4 & Hfor & Esz & Eb & Hu & Ec4 & Efl4); [done..|apply Hgen|done| |].
    { destruct (proj2 (Hgen (code_gen_ptr s1))) as [? ? ? ?].
      split; unfold page_ok, host_page_base; by rewrite ?Eh. }
    cbn [rbind]. exists s4, (nb_tbs s1), tb4. rewrite Eb1 in Eb, Hu. split_and!; try done; [eauto|by etrans|congruence].
  - destruct (tb_alloc_tail gen s (tb_invalidated_flag s) pc_ cs_base_ flags_ cflags_ Hf)
      as (s2 & Ha & s3 & tb3 & He & Htail & Eflag); [apply (m_sizes _ _ _ _ Hm)|apply Hm|].
    rewrite Ha. cbn [rbind].
    assert (s2 <| tb_invalidated_flag := tb_invalidated_flag s |> = s2) as E2.
    { unfold tb_alloc in Ha. unfold must_flush in Hf. rewrite Hf in Ha.
      apply rbind_ok in Ha as (? & _ & Ha). apply rbind_ok in Ha as (? & _ & Ha). by simplify_eq. }
    rewrite E2 in Htail. unfold gen_tail in Htail. rewrite Htail.
    destruct (gen_tail_ok room s live s3 (nb_tbs s) tb3 (gen (code_gen_ptr s)) pc_ cs_base_ flags_ cflags_)
      as (s4 & tb4 & -> & Hm4 & Ht & Htb4 & Hfor & Esz & Eb & Hu & Ec4 & Efl4); [done..|apply Hgen|done|apply Hgen|].
    cbn [rbind]. exists s4, (nb_tbs s), tb4. split_and!; try done; [eauto|congruence].
Qed.

End gen.
