(* ===== verification/TBFind.v ===== *)
(** * Lookup of translation blocks

    The hash lookup of [tb_find_slow] finds a live block for the CPU state
    whenever there is one and translates otherwise; [tb_find_fast] returns
    such a block too, from the jump cache when it can.  [tb_find_pc] is the
    binary search over the code cache. *)

From stdpp Require Import base gmap list fin_maps.
From S2P Require Import Prelude Chain Config CodePatch PageTable TBData TBOps TBInv TBLists TBCode.
From S2P Require Import TBLink TBGen.
Local Open Scope Z_scope.
Local Coercion Z.of_nat : nat >-> Z.

Section find.
  Context `{Guest} `{!PageTable PT}.
  Notation st := (exec_state PT).
  Implicit Types (s : st) (t u v : tbid) (tb : TranslationBlock) (n m : slot) (live J : gset tbid).

(** ** The search of the hash list *)

Definition matches s t (pc_ cs_base_ flags_ : Z) : Prop :=
  ∃ tb, tbs s !! t = Some tb ∧ tb_matches tb pc_ cs_base_ flags_ = true.

Lemma hash_search_ok fuel s p l pc_ cs_base_ flags_ :
  seg (hnext s) p l None → (∀ t, t ∈ l → is_Some (tbs s !! t)) → (length l < fuel)%nat →
  ∃ o, hash_search fuel s p pc_ cs_base_ flags_ = Ok o ∧
    match o with
    | Some t => t ∈ l ∧ matches s t pc_ cs_base_ flags_
    | None => ∀ t, t ∈ l → ¬ matches s t pc_ cs_base_ flags_
    end.
Proof.
  induction fuel as [|fuel IH] in p, l |- *; intros Hs Hl Hf; [lia|].
  destruct l as [|t l]; cbn in Hs.
  { subst p. exists None. split; [done|set_solver]. }
  destruct Hs as [-> Hs]. destruct (Hl t) as [tb Htb]; [set_solver|].
  cbn [hash_search]. unfold get_tb. rewrite Htb. cbn [rbind deref].
  destruct (tb_matches tb pc_ cs_base_ flags_) eqn:Em.
  - exists (Some t). split; [done|]. split; [set_solver|]. by exists tb.
  - unfold hnext in Hs at 2. rewrite Htb in Hs. cbn in Hs.
    destruct (IH (phys_hash_next tb) l) as (o & -> & Ho); [done|set_solver|cbn in Hf; lia|].
    exists o. split; [done|]. destruct o as [u|]; [set_solver|].
    intros u [->|Hu]%elem_of_cons; [|by apply Ho]. intros (tb' & ? & ?). congruence.
Qed.

(** A matching block is in the bucket of the pc. *)
Lemma tb_matches_bucket tb pc_ cs_base_ flags_ :
  0 ≤ pc_ < 2 ^ TARGET_LONG_BITS → tb_matches tb pc_ cs_base_ flags_ = true →
  tb_bucket tb = tb_phys_hash_func pc_.
Proof.
  intros Hpc Hm. unfold tb_matches in Hm. repeat (apply andb_true_iff in Hm as [Hm ?]). bprop.
  unfold tb_bucket, tb_phys_pc, get_page_addr_code in *.
  replace (pc tb) with pc_ by done. replace (at0 (page_addr tb)) with (page_base pc_) by done.
  rewrite page_split. unfold tul. by rewrite wrap_small.
Qed.

Lemma hash_lookup_ok s live pc_ cs_base_ flags_ :
  live_inv s live → hash_inv s live → 0 ≤ pc_ < 2 ^ TARGET_LONG_BITS →
  ∃ o, hash_search (loop_fuel s) s (tb_phys_hash s !! tb_phys_hash_func pc_) pc_ cs_base_ flags_ = Ok o ∧
    match o with
    | Some t => t ∈ live ∧ matches s t pc_ cs_base_ flags_
    | None => ∀ t, t ∈ live → ¬ matches s t pc_ cs_base_ flags_
    end.
Proof.
  intros Hlv Hh Hpc. destruct (Hh (tb_phys_hash_func pc_) I) as (l & Hs & Hnd & Hl).
  assert (∀ t, t ∈ l → t ∈ live ∧ is_Some (tbs s !! t)) as Hin.
  { intros t [Ht _]%Hl. split; [done|]. destruct (Hlv t Ht) as (? & ? & _). eauto. }
  destruct (hash_search_ok (loop_fuel s) s (tb_phys_hash s !! tb_phys_hash_func pc_) l pc_ cs_base_ flags_)
    as (o & -> & Ho); [done|intros; by apply Hin| |].
  { opose proof (tbid_bound s l Hnd _) as Hb; [intros; by apply Hin|]. unfold loop_fuel. lia. }
  exists o. split; [done|]. destruct o as [t|].
  - destruct Ho as [Ht ?]. split; [|done]. by apply Hin.
  - intros t Ht Hm. apply (Ho t); [|done]. apply Hl. split; [done|].
    destruct Hm as (tb & -> & Hm). cbn. f_equal. by eapply tb_matches_bucket.
Qed.

(** The last test of [tb_matches] never rejects a block that lies on the pages
    of its code. *)
Lemma covers_matches tb pc_ cs_base_ flags_ :
  tb_covers tb → pc tb = pc_ → cs_base tb = cs_base_ → flags tb = u64 flags_ →
  tb_matches tb pc_ cs_base_ flags_ = true.
Proof.
  intros (Hpc & Hpe & Hsz & Epa) Epc Ecs Efl. rewrite Epc in *.
  unfold tb_matches, get_page_addr_code. rewrite Epc, Ecs, Efl, Epa, !Z.eqb_refl. cbn [at0 at1 andb].
  case_bool; bprop; [done|].
  apply Z.eqb_eq. rewrite page2_of_next by (done || lia). done.
Qed.

(** ** Effects of a lookup *)

(** Code changes outside the chainable jumps. *)
Lemma jframe_code_inv s s' live J :
  code_inv s live J → jframe s s' → (∀ x, jnext s' x = jnext s x) → jset s live J →
  (∀ u tb n i, jumper s J u tb n → jmp_slot tb n - 1 ≤ i < jmp_slot tb n + 4 →
     host_code s' !! i = host_code s !! i) →
  code_inv s' live J.
Proof.
  intros [C0 C1 C2 C3] Hf Hn Hjs Hd.
  assert (∀ u tb' n K, jumper s' K u tb' n → ∃ tb, jumper s K u tb n ∧ jmp_slot tb n = jmp_slot tb' n ∧
    jmp_epilogue tb n = jmp_epilogue tb' n) as Hju.
  { intros u tb' n K (Hu & Htb' & Hhas).
    destruct (static_some s' s u tb' (jf_static _ _ Hf u) Htb') as (tb & Htb & Ee).
    exists tb. split_and!; [|by apply (erase_view (λ tb, jmp_slot tb n) _ _ Ee)
      |by apply (erase_view (λ tb, jmp_epilogue tb n) _ _ Ee)].
    split_and!; [done..|]. by rewrite (erase_view (λ tb, has_jump tb n) _ _ Ee). }
  assert (∀ u tb n, jumper s J u tb n →
    jmp_dest (host_code s') (jmp_slot tb n) = jmp_dest (host_code s) (jmp_slot tb n)) as Hd'.
  { intros u tb n Hu. apply jmp_dest_ext. intros. by apply (Hd u tb n). }
  split.
  - intros u tb' n (tb & Hu & <- & _)%Hju. eapply is_jmp_ext; [|by apply (C0 u)].
    apply (Hd u tb n); [done|lia].
  - intros u tb' n Hu Htb' Hun. rewrite Hn in Hun.
    destruct (static_some s' s u tb' (jf_static _ _ Hf u) Htb') as (tb & Htb & Ee).
    rewrite <- (erase_view (λ tb, has_jump tb n) _ _ Ee) by done. eauto.
  - intros u tb' n (tb & Hu & <- & <-)%Hju Hun. rewrite Hn in Hun.
    rewrite (Hd' u) by (destruct Hu as (? & ? & ?); split_and!; [by apply Hjs|done..]). by apply (C2 u).
  - intros u tb' n v tbv' (tb & Hu & <- & _)%Hju Hv Htv' (l & (Hr & ? & ?) & Hin).
    destruct (static_some s' s v tbv' (jf_static _ _ Hf v) Htv') as (tbv & Htv & Eev).
    rewrite <- (erase_view tc_ptr _ _ Eev) by done. rewrite (Hd' u) by done.
    apply (C3 u tb n v tbv); [done..|]. exists l. split; [|done]. split; [|done].
    unfold ring. rewrite <- Hn. by apply (seg_ext (jnext s')).
Qed.

Lemma jframe_mgr room s s' live :
  mgr room s live → jframe s s' → (∀ x, jnext s' x = jnext s x) →
  (∀ u tb n i, jumper s (blocks s) u tb n → jmp_slot tb n - 1 ≤ i < jmp_slot tb n + 4 →
     host_code s' !! i = host_code s !! i) →
  mgr room s' live.
Proof.
  intros [[Hlv Hh Hp Hjs Hj Hca] Hprot Hhost Hly Hc Hsz] Hf Hn Hd.
  assert (blocks s' = blocks s) as Eb by (apply blocks_nb; by rewrite (jf_rest _ _ Hf)).
  split; rewrite ?Eb.
  - split; [by eapply jframe_live|by eapply jframe_hash_inv|by eapply jframe_page_inv|by eapply jframe_jset| |by eapply jframe_cache].
    apply (jump_inv_ext s); [|done]. intros. by rewrite Hn.
  - intros i Hi. unfold page_head. rewrite (jframe_l1 s s') by done. by apply Hprot.
  - unfold host_ok. by rewrite (jf_rest _ _ Hf).
  - apply (layout_ext s); [intros; apply static_code_view; symmetry; apply Hf|..|done];
      by rewrite (jf_rest _ _ Hf).
  - by apply (jframe_code_inv s s').
  - destruct Hsz. assert (length (tbs s') = length (tbs s)) as El.
    { apply static_length. intros. apply Hf. }
    split; rewrite ?El; by rewrite (jf_rest _ _ Hf).
Qed.

(** The patch point of a block is outside the chainable jumps. *)
Lemma patch_point_code s c t tb u tbu n addr i :
  layout s → t ∈ blocks s → tbs s !! t = Some tb → jumper s (blocks s) u tbu n →
  jmp_slot tbu n - 1 ≤ i < jmp_slot tbu n + 4 →
  patch_jmp c (tb_get_jmp_entry tb) addr !! i = c !! i.
Proof.
  intros Hly Ht%elem_of_blocks Htb (Hu%elem_of_blocks & Htu & Hn) Hi. unfold patch_jmp, tb_get_jmp_entry.
  apply set_jmp_target1_frame.
  destruct (ly_jump s Hly u tbu n Hu Htu Hn) as (H1 & H2 & _).
  rewrite <- (block_start_tb s t tb) by done.
  pose proof (ly_mono s Hly t Ht). destruct (lt_eq_lt_dec u t) as [[Hlt|<-]|Hlt].
  - pose proof (block_start_mono_le s (S u) t Hly). lia.
  - lia.
  - pose proof (block_start_mono_le s (S t) u Hly). lia.
Qed.

Lemma tb_start_trace_profile_ok room s live t :
  mgr room s live → t ∈ blocks s →
  ∃ s', tb_start_trace_profile s t = Ok s' ∧ mgr room s' live ∧ (∀ u, static s' u = static s u) ∧
    env_frame s s' ∧ tb_invalidated_flag s' = tb_invalidated_flag s ∧
    (∀ tb, tbs s' !! t = Some tb → mode tb ≠ 0) ∧ blocks s' = blocks s ∧ (∀ x, jnext s' x = jnext s x).
Proof.
  intros Hm Ht. destruct (js_tb _ _ _ (inv_jset _ _ _ _ (m_inv _ _ _ _ Hm)) t Ht) as (tb & Htb).
  unfold tb_start_trace_profile, get_tb. rewrite Htb. cbn [rbind deref].
  destruct (Z.eqb_spec (mode tb) 1) as [E|E].
  { exists s. split_and!; try done. intros tb' ?. simplify_eq. by rewrite E. }
  set (s1 := if mode tb =? 0 then _ else _).
  assert (jframe s s1 ∧ (∀ x, jnext s1 x = jnext s x) ∧ host_code s1 = host_code s ∧
    (∀ tb', tbs s1 !! t = Some tb' → mode tb' ≠ 0)) as (Hf & Hn & Ec & Hmode).
  { unfold s1. case_bool; bprop; [|split_and!; try done; intros; by simplify_eq].
    split_and!; [|intros; by apply bind_upd_tb|done|].
    - split; [intros; by apply view_upd_tb|intros; by apply bind_upd_tb|intros; by apply bind_upd_tb|by destruct s].
    - intros tb'. rewrite lookup_upd_tb, decide_True, Htb by done. cbn. by intros [= <-]. }
  eexists. split; [done|].
  set (s2 := s1 <| host_code := _ |>). assert (jframe s s2) as Hf2 by (etrans; [apply Hf|apply jframe_code]).
  split_and!; [|intros; apply Hf2|apply env_frame_cpus; by rewrite (jf_rest _ _ Hf2)|by rewrite (jf_rest _ _ Hf2)|apply Hmode|apply blocks_nb; by rewrite (jf_rest _ _ Hf2)|apply Hn].
  apply (jframe_mgr room s); [done..|]. intros u tbu n i Hu Hi. cbn. rewrite Ec.
  by apply (patch_point_code s _ t tb u tbu n); [apply Hm|..].
Qed.

(** An entry for a live block may be put into the jump cache. *)
Lemma set_jmp_cache_ok room s live e t tb :
  mgr room s live → t ∈ live → tbs s !! t = Some tb →
  mgr room (set_jmp_cache s e (tb_jmp_cache_hash_func (pc tb)) t) live.
Proof.
  intros [[Hlv Hh Hp Hjs Hj Hca] Hprot Hhost Hly Hc Hsz] Ht Htb. unfold set_jmp_cache.
  set (s' := s <| cpus := _ |>). split; try done.
  - split; try done; [by split; apply Hjs|]. intros e' env h u He Hu. cbn in He.
    rewrite list_lookup_alter in He. destruct (decide (e = e')) as [<-|]; [|by eapply Hca].
    destruct (cpus s !! e) as [env0|] eqn:Ee; [|done]. apply (inj Some) in He as <-.
    cbn in Hu. apply lookup_insert_Some in Hu as [[<- <-]|[_ Hu]]; [eauto|by eapply Hca].
  - by apply (layout_ext s).
  - split; apply Hc.
  - split; apply Hsz.
Qed.

Lemma set_jmp_cache_env s e h t : env_frame s (set_jmp_cache s e h t).
Proof.
  split; [done|done|done|..]; intros e'; unfold set_jmp_cache; cbn; rewrite list_lookup_alter;
    case_decide; subst; by destruct (cpus s !! _).
Qed.

(** ** The lookups *)

(** What a lookup promises: a live block for the state, translated only when
    there was none. *)
Record find_post room s live s' live' t (pc_ cs_base_ flags_ : Z) : Prop := {
  fp_mgr : mgr room s' live';
  fp_live : t ∈ live';
  fp_match : matches s' t pc_ cs_base_ flags_;
  fp_env : env_frame s s';
  fp_kept : tb_invalidated_flag s' = 0 → live ⊆ live' ∧ blocks s ⊆ blocks s' ∧
    ∀ u, u ∈ blocks s → static s' u = static s u;
  fp_room : must_flush s = false → blocks s ⊆ blocks s';
  fp_found : (∃ u, u ∈ live ∧ matches s u pc_ cs_base_ flags_) → live' = live;
  fp_new : (∀ u, u ∈ live → ¬ matches s u pc_ cs_base_ flags_) →
    t ∉ (if must_flush s then ∅ else live) ∧ live' = {[t]} ∪ (if must_flush s then ∅ else live)
}.

Lemma matches_static s s' t pc_ cs_base_ flags_ :
  static s t = static s' t → matches s t pc_ cs_base_ flags_ → matches s' t pc_ cs_base_ flags_.
Proof.
  intros E (tb & Htb & Hm). destruct (static_some s s' t tb E Htb) as (tb' & Htb' & Ee).
  exists tb'. split; [done|]. by rewrite (erase_view (λ tb, tb_matches tb _ _ _) _ _ Ee).
Qed.

(** The trace profiling of a found block. *)
Lemma found_ok room s live t tb pc_ cs_base_ flags_ :
  mgr room s live → t ∈ live → tbs s !! t = Some tb → tb_matches tb pc_ cs_base_ flags_ = true →
  ∃ s1, (if mode tb =? 0 then tb_start_trace_profile s t else Ok s) = Ok s1 ∧
    mgr room s1 live ∧ matches s1 t pc_ cs_base_ flags_ ∧ env_frame s s1 ∧
    blocks s1 = blocks s ∧ ∀ u, static s1 u = static s u.
Proof.
  intros Hm Ht Htb Hmt. case_bool; [|exists s; split_and!; try done; by exists tb].
  destruct (tb_start_trace_profile_ok room s live t Hm) as (s1 & -> & Hm1 & Hs1 & Hcpu & _ & _ & Ebl & _).
  { by apply (inv_jset _ _ _ _ (m_inv _ _ _ _ Hm)). }
  exists s1. split_and!; [done..| |done|done|done].
  apply (matches_static s); [by rewrite Hs1|]. by exists tb.
Qed.

Definition gen_spec (room : Z) (gen : Z → gen_info) s (pc_ : Z) : Prop :=
  ∀ p, gen_ok (gen p) room ∧ pc_ok s pc_ (gi_size (gen p)).

Lemma tb_find_slow_ok room gen s live e pc_ cs_base_ flags_ :
  mgr room s live → gen_spec room gen s pc_ →
  ∃ s' live' t, tb_find_slow gen s e pc_ cs_base_ flags_ = Ok (s', t) ∧
    find_post room s live s' live' t pc_ cs_base_ flags_.
Proof.
  intros Hm0 Hg. unfold tb_find_slow.
  set (s0 := s <| tb_invalidated_flag := 0 |>).
  assert (mgr room s0 live) as Hm.
  { destruct Hm0 as [Hinv ? ? ? Hc Hz]. split; try done.
    - destruct Hinv as [? ? ? Hjs ? ?]. split; try done. split; apply Hjs.
    - by apply (layout_ext s).
    - split; apply Hc.
    - split; apply Hz. }
  assert (0 ≤ pc_ < 2 ^ TARGET_LONG_BITS) as Hpc by (destruct (proj2 (Hg 0)); lia).
  destruct (hash_lookup_ok s0 live pc_ cs_base_ flags_) as (o & Ho & Hcase); [apply Hm..|done|].
  unfold get_page_addr_code. rewrite Ho. cbn [rbind]. destruct o as [t|].
  - destruct Hcase as [Ht (tb & Htb & Hmt)]. unfold get_tb. rewrite Htb. cbn [rbind deref].
    destruct (found_ok room s0 live t tb pc_ cs_base_ flags_) as (s1 & -> & Hm1 & Hmt1 & Hef & Eb & Hst); [done..|].
    cbn [rbind]. exists (set_jmp_cache s1 e (tb_jmp_cache_hash_func pc_) t), live, t. split; [done|].
    pose proof Hmt1 as (tb1 & Htb1 & Hmt1'). assert (pc tb1 = pc_) as Epc.
    { unfold tb_matches in Hmt1'. repeat (apply andb_true_iff in Hmt1' as [Hmt1' ?]). by bprop. }
    split; try done.
    + rewrite <- Epc. by apply set_jmp_cache_ok.
    + etrans; [|apply set_jmp_cache_env]. by destruct Hef.
    + intros _. split_and!; [done|change (blocks s0 ⊆ blocks s1); by rewrite Eb|]. intros u _. apply Hst.
    + intros _. change (blocks s0 ⊆ blocks s1). by rewrite Eb.
    + intros Hno. exfalso. apply (Hno t Ht). by exists tb.
  - destruct (tb_gen_code_ok room gen s0 live e pc_ cs_base_ flags_ 0 Hm)
      as (s1 & t & tb & -> & Hm1 & Ht & Htb & Hfor & _ & Eb & Hkeep & Hef & Efl0).
    { intros p. destruct (Hg p) as [? []]. split; [done|by split]. }
    cbn [rbind]. pose proof Hfor as (Epc & Ecs & Efl & _).
    exists (set_jmp_cache s1 e (tb_jmp_cache_hash_func pc_) t), ({[t]} ∪ (if must_flush s then ∅ else live)), t.
    split; [done|]. assert (t ∈ ({[t]} ∪ (if must_flush s then ∅ else live) : gset tbid)) as Hin by set_solver.
    split; [|done| | | | | |done].
    + rewrite <- Epc. by apply set_jmp_cache_ok.
    + exists tb. split; [done|]. apply covers_matches; [|done..].
      destruct (inv_live _ _ _ _ (m_inv _ _ _ _ Hm1) t Hin) as (tb' & ? & _ & _ & _ & _ & ?). by simplify_eq.
    + etrans; [|apply set_jmp_cache_env]. by destruct Hef.
    + intros E0. cbn in E0. change (must_flush s0) with (must_flush s) in *.
      destruct (must_flush s); [congruence|]. change (blocks s0) with (blocks s) in *.
      split_and!; [set_solver|intros u Hu; change (u ∈ blocks s1); set_solver|]. intros u Hu. unfold static. cbn.
      by rewrite (Hkeep u Hu).
    + intros Ef. change (must_flush s0) with (must_flush s) in *. rewrite Ef in Eb.
      change (blocks s0) with (blocks s) in Eb. change (blocks s ⊆ blocks s1). set_solver.
    + intros (u & Hu & Hmu). by destruct (Hcase u Hu).
Qed.

Lemma tb_find_fast_ok room gen s live e env pc_ cs_base_ flags_ :
  mgr room s live → cpus s !! e = Some env → guest_regs env = (pc_, cs_base_, flags_) →
  gen_spec room gen s pc_ →
  ∃ s' live' t, tb_find_fast gen s e = Ok (s', t) ∧
    find_post room s live s' live' t pc_ cs_base_ flags_.
Proof.
  intros Hm He Hr Hg. unfold tb_find_fast. rewrite He. cbn [rbind deref]. rewrite Hr.
  destruct (tb_jmp_cache env !! tb_jmp_cache_hash_func pc_) as [t|] eqn:Ec; [|by apply tb_find_slow_ok].
  destruct (inv_cache _ _ _ _ (m_inv _ _ _ _ Hm) e env _ t He Ec) as (Ht & tb & Htb & _).
  unfold get_tb. rewrite Htb. cbn [rbind deref].
  destruct ((pc tb =? pc_) && (cs_base tb =? cs_base_) && (flags tb =? u64 flags_)) eqn:Em;
    [|by apply tb_find_slow_ok].
  repeat (apply andb_true_iff in Em as [Em ?]). bprop.
  destruct (inv_live _ _ _ _ (m_inv _ _ _ _ Hm) t Ht) as (tb' & ? & _ & _ & _ & _ & Hcov). simplify_eq.
  assert (tb_matches tb (pc tb) (cs_base tb) flags_ = true) as Hmt by (by apply covers_matches).
  destruct (found_ok room s live t tb (pc tb) (cs_base tb) flags_) as (s1 & -> & Hm1 & Hmt1 & ? & Eb1 & Hst1); [done..|].
  cbn [rbind]. exists s1, live, t. split; [done|]. split; try done; [by rewrite Eb1..|].
  intros Hno. exfalso. apply (Hno t Ht). by exists tb.
Qed.

(** ** Binary search over the code cache *)

Lemma find_pc_loop_ok fuel s tcp lo hi :
  layout s → 0 ≤ lo → lo ≤ hi + 1 → hi < nb_tbs s → (Z.to_nat (hi - lo + 1) < fuel)%nat →
  block_start s 0 ≤ tcp → (0 < lo → block_start s (Z.to_nat (lo - 1)) ≤ tcp) →
  tcp < block_start s (Z.to_nat (hi + 1)) →
  ∃ t, find_pc_loop fuel s tcp lo hi = Ok t ∧ (t < nb_tbs s)%nat ∧
    block_start s t ≤ tcp < block_start s (S t).
Proof.
  intros Hly. induction fuel as [|fuel IH] in lo, hi |- *; intros Hlo Hlh Hhi Hf H0 Hl Hh; [lia|].
  cbn [find_pc_loop]. destruct (Z.leb_spec lo hi) as [Hle|Hgt].
  - rewrite Z.shiftr_div_pow2 by lia. change (2 ^ 1) with 2.
    set (m := (lo + hi) `div` 2). assert (lo ≤ m ≤ hi) as Hm by (unfold m; zdm).
    destruct (ly_tb s Hly (Z.to_nat m)) as [tb Htb]; [lia|].
    assert (block_start s (Z.to_nat m) = tc_ptr tb) as Es by (apply block_start_tb; [lia|done]).
    pose proof (ly_mono s Hly (Z.to_nat m) ltac:(lia)) as Hmono.
    unfold get_tb. rewrite Htb. cbn [rbind deref]. rewrite <- Es. case_bool; bprop.
    { exists (Z.to_nat m). split_and!; [done|lia..]. }
    case_bool; bprop.
    + apply IH; try done; try lia. by rewrite Z.sub_add.
    + apply IH; try done; try lia. rewrite Z.add_simpl_r. lia.
  - destruct (Z.ltb_spec hi 0).
    + exfalso. replace (Z.to_nat (hi + 1)) with 0%nat in Hh by lia. lia.
    + exists (Z.to_nat hi). replace (S (Z.to_nat hi)) with (Z.to_nat (hi + 1)) by lia.
      split_and!; [done|lia| |lia]. replace hi with (lo - 1) by lia. apply Hl. lia.
Qed.

Lemma tb_find_pc_ok s tcp :
  layout s →
  ∃ o, tb_find_pc s tcp = Ok o ∧
    match o with
    | Some t => (t < nb_tbs s)%nat ∧ block_start s t ≤ tcp < block_start s (S t)
    | None => nb_tbs s = 0%nat ∨ tcp < code_gen_buffer s ∨ code_gen_ptr s ≤ tcp
    end.
Proof.
  intros Hly. pose proof (ly_lo s Hly) as H0. unfold tb_find_pc. case_bool_decide as Enb; [exists None; eauto|].
  destruct ((tcp <? code_gen_buffer s) || (code_gen_ptr s <=? tcp)) eqn:Eb.
  - exists None. split; [done|]. apply orb_true_iff in Eb. right. bprop. lia.
  - apply orb_false_iff in Eb as [? ?]. bprop.
    destruct (find_pc_loop_ok (S (nb_tbs s)) s tcp 0 (nb_tbs s - 1)) as (t & -> & ?);
      [done|lia|lia|lia|lia|lia|lia| |by exists (Some t)].
    rewrite Z.sub_add, Nat2Z.id. unfold block_start. rewrite decide_False by lia. lia.
Qed.

End find.
