(* ===== verification/SMCRange.v ===== *)
(** * Invalidation of memory ranges

    The invalidation of a range removes from the live blocks those whose code
    overlaps the range, and keeps the others. *)

From stdpp Require Import base gmap list fin_maps.
From S2P Require Import Prelude Chain Config CodePatch Bitmap PageTable TBData TBOps SMC TBInv.
From S2P Require Import TBLists TBCode TBInval TBJump TBLink TBGen TBFind.
Local Open Scope Z_scope.
Local Coercion Z.of_nat : nat >-> Z.

Section range.
  Context `{Guest} `{!PageTable PT}.
  Notation st := (exec_state PT).
  Implicit Types (s : st) (t u v : tbid) (tb : TranslationBlock) (n m : slot) (live J : gset tbid).

(** ** Steps that keep the manager's invariant *)

Lemma mgr_upd_cpu room s live E e f :
  (∀ env, tb_jmp_cache (f env) = tb_jmp_cache env) →
  mgr_ex room s live E → mgr_ex room (upd_cpu s e f) live E.
Proof.
  intros Hf [[Hlv Hh Hp Hjs Hj Hca] Hprot Hhost Hly Hc Hsz]. split; try done.
  - split; try done; [by split; apply Hjs|]. intros e' env' h u He Hu. cbn in He. rewrite list_lookup_alter in He.
    destruct (decide (e = e')) as [<-|]; [|by eapply Hca].
    destruct (cpus s !! e) as [env|] eqn:Ee; [|done]. apply (inj Some) in He as <-.
    rewrite Hf in Hu. by eapply Hca.
  - by apply (layout_ext s).
  - split; apply Hc.
  - split; apply Hsz.
Qed.

Lemma skips_none : skips no_page (λ _, False).
Proof. intros addr Ha _. split; [|done]. rewrite Ha. apply page_base_no_page. Qed.

Lemma inval_blocks s s' live t : inval_frame s s' live (blocks s) t → blocks s' = blocks s.
Proof. intros Hf. apply blocks_nb. by rewrite (if_rest _ _ _ _ _ Hf). Qed.

Lemma inval_mgr room s live E t skip :
  mgr_ex room s live E → skips skip E → t ∈ live →
  ∃ s', tb_phys_invalidate s t skip = Ok s' ∧ mgr_ex room s' (live ∖ {[t]}) E ∧ inval_frame s s' live (blocks s) t.
Proof.
  intros [Hinv Hprot Hhost Hly Hc Hsz] Hskip Ht.
  destruct (tb_phys_invalidate_ok s live (blocks s) E t skip) as (s' & Hs' & Hinv' & Hf); [done..|].
  exists s'. split_and!; [done| |done]. rewrite <- (inval_blocks _ _ _ _ Hf) in Hinv'. split; [done|..].
  - intros i Hi HE Hhd. rewrite (if_flags _ _ _ _ _ Hf) by done. apply Hprot; [done..|].
    by apply (if_head _ _ _ _ _ Hf).
  - unfold host_ok. by rewrite (if_rest _ _ _ _ _ Hf).
  - by eapply inval_frame_layout.
  - rewrite (inval_blocks _ _ _ _ Hf). by eapply inval_code_inv; [apply Hinv|..|apply Hinv|].
  - destruct Hsz. assert (length (tbs s') = length (tbs s)) as El.
    { apply static_length. intros. apply Hf. }
    split; rewrite ?El; by rewrite (if_rest _ _ _ _ _ Hf).
Qed.

Lemma reset_mgr room s s' live E :
  mgr_ex room s live E → reset_post s s' live (blocks s) → mgr_ex room s' live E.
Proof.
  intros [[Hlv Hh Hp Hjs Hj Hca] Hprot Hhost Hly Hc Hsz] Hr. pose proof (rp_frame _ _ _ _ Hr) as Hf.
  assert (blocks s' = blocks s) as Eb by (by apply blocks_nb, jframe_nb).
  split; rewrite ?Eb.
  - split; [by eapply jframe_live|by eapply jframe_hash_inv|by eapply jframe_page_inv|by eapply jframe_jset|apply Hr
      |by eapply jframe_cache].
  - intros i Hi. unfold page_head. rewrite (jframe_l1 s s') by done. by apply Hprot.
  - unfold host_ok. by rewrite (jf_rest _ _ Hf).
  - by eapply jframe_layout.
  - by apply Hr.
  - destruct Hsz. assert (length (tbs s') = length (tbs s)) as El.
    { apply static_length. intros. apply Hf. }
    split; rewrite ?El; by rewrite (jf_rest _ _ Hf).
Qed.

(** The breakpoints of CPU [e]. *)
Definition bps s (e : nat) : option (list CPUBreakpoint) := breakpoints <$> cpus s !! e.

Lemma bps_upd_cpu s e f e' :
  (∀ env, breakpoints (f env) = breakpoints env) → bps (upd_cpu s e f) e' = bps s e'.
Proof.
  intros Hf. unfold bps. cbn. rewrite list_lookup_alter. case_decide; [subst|done].
  destruct (cpus s !! e'); cbn; by rewrite ?Hf.
Qed.

(** ** The running block *)

(** The block that CPU [e] runs, if any, was not flushed; it may have been
    invalidated. *)
Definition cur_ok s (e : nat) : Prop :=
  ∀ env t, cpus s !! e = Some env → current_tb env = Some t → t ∈ blocks s.

(** What unchaining the running block of CPU [e] changes. *)
Record unlink_post room s s' live E (e : nat) : Prop := {
  ul_mgr : mgr_ex room s' live E;
  ul_static t : static s' t = static s t;
  ul_pnext x : pnext s' x = pnext s x;
  ul_l1 : l1_map s' = l1_map s;
  ul_blocks : blocks s' = blocks s;
  ul_single : cpu_single_env s' = cpu_single_env s;
  ul_hps : qemu_host_page_size s' = qemu_host_page_size s;
  ul_bps e' : bps s' e' = bps s e';
  ul_none env : cpus s' !! e = Some env → current_tb env = None;
  ul_exit : exit_request <$> cpus s' !! e = exit_request <$> cpus s !! e;
  ul_cpus e' : e' ≠ e → cpus s' !! e' = cpus s !! e';
  ul_dom : is_Some (cpus s !! e) → is_Some (cpus s' !! e)
}.

Lemma cpu_unlink_tb_ok room s live E e :
  mgr_ex room s live E → is_Some (cpus s !! e) → cur_ok s e →
  ∃ s', cpu_unlink_tb s e = Ok s' ∧ unlink_post room s s' live E e ∧
    ∀ env t, cpus s !! e = Some env → current_tb env = Some t →
      ∀ v, runs_to s live (blocks s) t v → ∀ n, jnext s' (v, Lnext n) = None.
Proof.
  intros Hm [env He] Hcur. unfold cpu_unlink_tb. rewrite He. cbn [rbind deref].
  destruct (current_tb env) as [t|] eqn:Et.
  2: { exists s. split_and!; [done| |intros; congruence]. split; try done. intros env' ?. congruence. }
  set (s1 := s <| cpus := _ |>).
  assert (mgr_ex room s1 live E) as Hm1 by (by apply (mgr_upd_cpu room s live E e)).
  assert (∀ env', cpus s1 !! e = Some env' → current_tb env' = None) as Hn1.
  { intros env'. cbn. rewrite list_lookup_alter_eq, He. cbn. by intros [= <-]. }
  assert (∀ e', e' ≠ e → cpus s1 !! e' = cpus s !! e') as Ho1.
  { intros e' Hne. cbn. by rewrite list_lookup_alter_ne. }
  assert (is_Some (cpus s1 !! e)) as Hd1 by (cbn; rewrite list_lookup_alter_eq, He; eauto).
  pose proof (inv_jset _ _ _ _ (m_inv _ _ _ _ Hm1)) as Hjs1.
  destruct (tb_reset_jump_recursive_ok (loop_fuel s1) s1 live (blocks s1) t) as (s2 & -> & Hr & Hout);
    [done|apply Hm1|by apply (Hcur env)|by eapply chained_links_bound|].
  pose proof (rp_frame _ _ _ _ Hr) as Hf.
  exists s2. split_and!; [done| |].
  - split; try done.
    + by eapply reset_mgr.
    + intros u. by rewrite (jf_static _ _ Hf).
    + intros x. by rewrite (jf_pnext _ _ Hf).
    + by rewrite (jframe_l1 _ _ Hf).
    + by apply (blocks_nb s2 s1), jframe_nb.
    + by rewrite (jf_rest _ _ Hf).
    + by rewrite (jf_rest _ _ Hf).
    + intros e'. unfold bps. rewrite (jframe_cpus _ _ Hf). by apply (bps_upd_cpu s).
    + rewrite (jframe_cpus _ _ Hf). apply Hn1.
    + rewrite (jframe_cpus _ _ Hf). cbn. by rewrite list_lookup_alter_eq, He.
    + rewrite (jframe_cpus _ _ Hf). apply Ho1.
    + by rewrite (jframe_cpus _ _ Hf).
  - intros env' t' He' Et' v Hv. simplify_eq. apply (reset_post_reach s1 s2 live (blocks s1) t v Hr Hout).
    clear -Hv. induction Hv; [constructor|]. by eapply runs_step.
Qed.

(** The CPU that [cpu_single_env] designates exists. *)
Definition single_ok s : Prop :=
  ∀ e, cpu_single_env s = Some e → is_Some (cpus s !! e) ∧ cur_ok s e.

(** What a step of the invalidation loops keeps. *)
Record step_frame s s' t : Prop := {
  sf_static u : static s' u = static s u;
  sf_blocks : blocks s' = blocks s;
  sf_pnext y : pnext s' y = pnext s y ∨ ∃ m, pnext s y = Some (t, m);
  sf_single : cpu_single_env s' = cpu_single_env s;
  sf_hps : qemu_host_page_size s' = qemu_host_page_size s;
  sf_bps e : bps s' e = bps s e;
  sf_find i : valid_index i → is_Some (page_find (l1_map s') i) ↔ is_Some (page_find (l1_map s) i);
  sf_flags i : valid_index i → pflags (page_desc (l1_map s') i) = pflags (page_desc (l1_map s) i)
}.

Lemma inval_single s s' live t :
  inval_frame s s' live (blocks s) t → cpu_single_env s' = cpu_single_env s.
Proof. intros Hf. by rewrite (if_rest _ _ _ _ _ Hf). Qed.

(** The invalidation changes the CPUs only in their jump caches. *)
Lemma inval_cpu s s' live t e :
  inval_frame s s' live (blocks s) t →
  (∀ env', cpus s' !! e = Some env' → ∃ env, cpus s !! e = Some env ∧
     env' = env <| tb_jmp_cache := tb_jmp_cache env' |>) ∧
  (is_Some (cpus s !! e) → is_Some (cpus s' !! e)).
Proof.
  intros Hf. destruct (if_cpus _ _ _ _ _ Hf) as [h ->]. rewrite list_lookup_fmap. split.
  - intros env'. destruct (cpus s !! e) as [env|]; [|done]. intros [= <-]. exists env.
    split; [done|]. unfold jmp_cache_clear. case_bool_decide; by destruct env.
  - by rewrite fmap_is_Some.
Qed.

Lemma inval_step s s' live t : inval_frame s s' live (blocks s) t → step_frame s s' t.
Proof.
  intros Hf. split; [apply Hf|by eapply inval_blocks|apply Hf|by eapply inval_single|by rewrite (if_rest _ _ _ _ _ Hf)| |
    apply (if_find _ _ _ _ _ Hf)|apply (if_flags _ _ _ _ _ Hf)].
  intros e. unfold bps. destruct (if_cpus _ _ _ _ _ Hf) as [h ->]. rewrite list_lookup_fmap.
  destruct (cpus s !! e); [|done]. cbn. unfold jmp_cache_clear. by case_bool_decide.
Qed.

Lemma cur_ok_ext s s' e :
  blocks s' = blocks s → current_tb <$> cpus s' !! e = current_tb <$> cpus s !! e → cur_ok s e → cur_ok s' e.
Proof.
  intros Eb Ec Hc env t He Ht. rewrite Eb. rewrite He in Ec. destruct (cpus s !! e) as [env0|] eqn:E0; [|done].
  apply (Hc env0 t E0). cbn in Ec. congruence.
Qed.

Lemma unlink_single room s s' live E e :
  single_ok s → unlink_post room s s' live E e → single_ok s'.
Proof.
  intros Hsi Hu e' He'. rewrite (ul_single _ _ _ _ _ _ Hu) in He'. destruct (Hsi e' He') as [Hs Hc].
  destruct (decide (e' = e)) as [->|Hne].
  - split; [by apply (ul_dom _ _ _ _ _ _ Hu)|]. intros env t He Ht.
    rewrite (ul_none _ _ _ _ _ _ Hu env He) in Ht. done.
  - pose proof (ul_cpus _ _ _ _ _ _ Hu e' Hne) as Ec. rewrite Ec. split; [done|].
    apply (cur_ok_ext s); [apply Hu|by rewrite Ec|done].
Qed.

(** Fields of a CPU other than the block it runs may change. *)
Lemma single_upd_cpu s e f :
  (∀ env, current_tb (f env) = current_tb env) → single_ok s → single_ok (upd_cpu s e f).
Proof.
  intros Hf Hsi e' He'. destruct (Hsi e' He') as [Hs Hc].
  assert (current_tb <$> cpus (upd_cpu s e f) !! e' = current_tb <$> cpus s !! e') as Ec.
  { cbn. rewrite list_lookup_alter. case_decide; [subst|done]. destruct (cpus s !! e'); cbn; by rewrite ?Hf. }
  split; [|by apply (cur_ok_ext s)]. cbn. rewrite list_lookup_alter. case_decide; [subst; by rewrite fmap_is_Some|done].
Qed.

Lemma cpu_interrupt_ok room s live e mask :
  mgr room s live → single_ok s → is_Some (cpus s !! e) → cur_ok s e →
  ∃ s', cpu_interrupt s e mask = Ok s' ∧ mgr room s' live ∧ single_ok s' ∧
    (∀ u, static s' u = static s u) ∧ (∀ x, pnext s' x = pnext s x) ∧ l1_map s' = l1_map s ∧
    cpu_single_env s' = cpu_single_env s ∧ qemu_host_page_size s' = qemu_host_page_size s ∧
    blocks s' = blocks s ∧ (∀ e', bps s' e' = bps s e').
Proof.
  intros Hm Hsi [env He] Hcur. unfold cpu_interrupt.
  set (s1 := s <| cpus := _ |>).
  assert (mgr room s1 live) as Hm1 by (by apply (mgr_upd_cpu room s live)).
  assert (single_ok s1) as Hsi1 by (by apply (single_upd_cpu s e)).
  case_bool; bprop.
  - destruct (cpu_unlink_tb_ok room s1 live (λ _, False) e) as (s2 & -> & Hu & _); [done| | |].
    + cbn. rewrite list_lookup_alter_eq, He. eauto.
    + apply (cur_ok_ext s); [done| |done]. cbn. by rewrite list_lookup_alter_eq, He.
    + exists s2. split_and!; [done|apply Hu|by eapply unlink_single|intros; by rewrite (ul_static _ _ _ _ _ _ Hu)
        |intros; by rewrite (ul_pnext _ _ _ _ _ _ Hu)|by rewrite (ul_l1 _ _ _ _ _ _ Hu)
        |by rewrite (ul_single _ _ _ _ _ _ Hu)|by rewrite (ul_hps _ _ _ _ _ _ Hu)|apply Hu
        |intros; rewrite (ul_bps _ _ _ _ _ _ Hu); by apply (bps_upd_cpu s)].
  - eexists. split; [done|]. split_and!; [by apply (mgr_upd_cpu room s1 live)|by apply (single_upd_cpu s1 e)|done..|].
    intros e'. etrans; [by apply (bps_upd_cpu s1)|by apply (bps_upd_cpu s)].
Qed.

Lemma smc_invalidate_ok room s live t :
  mgr room s live → single_ok s → t ∈ live →
  ∃ s', smc_invalidate s t = Ok s' ∧ mgr room s' (live ∖ {[t]}) ∧ single_ok s' ∧
    step_frame s s' t.
Proof.
  intros Hm Hsi Ht. unfold smc_invalidate.
  destruct (cpu_single_env s) as [e|] eqn:Ee.
  2: { destruct (inval_mgr room s live _ t no_page Hm skips_none Ht) as (s' & -> & Hm' & Hf).
       exists s'. split_and!; [done..| |by eapply inval_step].
       intros e He. rewrite (inval_single _ _ _ _ Hf), Ee in He. done. }
  destruct (Hsi e Ee) as [[env He] Hcur]. rewrite He. cbn [rbind deref].
  set (s1 := upd_cpu s e _).
  assert (mgr room s1 live) as Hm1 by (by apply mgr_upd_cpu).
  destruct (inval_mgr room s1 live _ t no_page Hm1 skips_none Ht) as (s2 & -> & Hm2 & Hf).
  cbn [rbind]. set (s3 := upd_cpu s2 e _).
  assert (mgr room s3 (live ∖ {[t]})) as Hm3 by (by apply mgr_upd_cpu).
  destruct (inval_cpu _ _ _ _ e Hf) as [Hc1 Hc2].
  destruct Hc2 as [env2 He2]; [cbn; rewrite list_lookup_alter_eq, He; eauto|].
  assert (cpus s3 !! e = Some (env2 <| current_tb := current_tb env |>)) as He3.
  { cbn. by rewrite list_lookup_alter_eq, He2. }
  assert (blocks s3 = blocks s) as Eb3 by (by eapply (inval_blocks s1 s2)).
  assert (cur_ok s3 e) as Hcur3.
  { apply (cur_ok_ext s); [done|by rewrite He3, He|done]. }
  assert (cpu_single_env s3 = Some e) as Ee3.
  { change (cpu_single_env s2 = Some e). by rewrite (inval_single _ _ _ _ Hf). }
  assert (single_ok s3) as Hsi3.
  { intros e' He'. rewrite Ee3 in He'. simplify_eq. split; [rewrite He3; eauto|done]. }
  assert (step_frame s s3 t) as Hsf.
  { destruct (inval_step _ _ _ _ Hf) as [F1 F0 F2 F3 F4 F5 F6 F7]. split; [apply F1|done|apply F2|done|apply F4| |apply F6|apply F7].
    intros e'. etrans; [by apply (bps_upd_cpu s2)|]. rewrite F5. by apply (bps_upd_cpu s). }
  rewrite He3. cbn [rbind deref]. case_match; [|by exists s3].
  destruct (cpu_interrupt_ok room s3 (live ∖ {[t]}) e (interrupt_request (env2 <| current_tb := current_tb env |>)))
    as (s4 & -> & Hm4 & Hsi4 & S4 & P4 & L4 & E4 & H4 & Bl4 & B4); [done..|by rewrite He3|done|].
  exists s4. split_and!; [done..|]. destruct Hsf as [F1 F0 F2 F3 F4 F5 F6 F7].
  split; [intros; by rewrite S4|congruence|intros; rewrite P4; apply F2|congruence|congruence|congruence|by rewrite L4..].
Qed.

(** ** The loop over the blocks of a page *)

(** The test of the loop: the part of the block on the page meets the range. *)
Definition hits s (start end_ : Z) (x : pnode) : bool :=
  match tbs s !! x.1 with
  | Some tb => let '(a, b) := tb_phys_range tb x.2 in negb ((b <=? start) || (end_ <=? a))
  | None => false
  end.

Lemma hits_static s s' start end_ x : static s x.1 = static s' x.1 → hits s start end_ x = hits s' start end_ x.
Proof.
  intros E. unfold hits.
  pose proof (static_view (λ tb, tb_phys_range tb x.2) s s' x.1 (λ _, eq_refl) E) as Ev.
  destruct (tbs s !! x.1), (tbs s' !! x.1); try done. cbn in Ev. apply (inj Some) in Ev. by rewrite Ev.
Qed.

(** ** The blocks that overlap a range *)

Definition overlap s (start end_ : Z) t : bool :=
  match tbs s !! t with Some tb => (pc tb <? end_) && (start <? pc tb + size tb) | None => false end.

Lemma overlap_static s s' start end_ t : static s t = static s' t → overlap s start end_ t = overlap s' start end_ t.
Proof.
  intros E. unfold overlap.
  pose proof (static_view (λ tb, (pc tb <? end_) && (start <? pc tb + size tb)) s s' t (λ _, eq_refl) E) as Ev.
  destruct (tbs s !! t), (tbs s' !! t); naive_solver.
Qed.

(** The second page of a block, when there is one. *)
Lemma covers_page2 tb :
  tb_covers tb → at1 (page_addr tb) ≠ no_page →
  at1 (page_addr tb) = (page_index (pc tb) + 1) * TARGET_PAGE_SIZE ∧
  at1 (page_addr tb) < pc tb + size tb < at1 (page_addr tb) + TARGET_PAGE_SIZE.
Proof.
  intros (Hpc & Hend & Hsz & ->) Hne. cbn in *. pose proof page_size_pos as HP.
  revert Hne. unfold page2_of. case_bool; bprop; [done|]. intros _.
  unfold tul in *. rewrite wrap_small in * by lia. rewrite page_base_index in *.
  rewrite page_base_index in Eb. rewrite !page_index_eq in *.
  pose proof (Z_div_mod_eq_full (pc tb) TARGET_PAGE_SIZE). pose proof (Z.mod_pos_bound (pc tb) TARGET_PAGE_SIZE).
  pose proof (Z_div_mod_eq_full (pc tb + size tb - 1) TARGET_PAGE_SIZE).
  pose proof (Z.mod_pos_bound (pc tb + size tb - 1) TARGET_PAGE_SIZE).
  generalize dependent (pc tb `div` TARGET_PAGE_SIZE). generalize dependent (pc tb `mod` TARGET_PAGE_SIZE).
  generalize dependent ((pc tb + size tb - 1) `div` TARGET_PAGE_SIZE).
  generalize dependent ((pc tb + size tb - 1) `mod` TARGET_PAGE_SIZE). generalize dependent TARGET_PAGE_SIZE.
  intros P Hsz HP r2 ? q2 ? r ? q ? ?. assert (q ≤ q2 < q + 2) by nia. assert (q2 = q + 1) as -> by nia. lia.
Qed.

Lemma hits_overlap s live t n start end_ :
  live_inv s live → page_mem s live (t, n) (page_index start) → 0 ≤ start < end_ →
  page_index (end_ - 1) = page_index start →
  hits s start end_ (t, n) = overlap s start end_ t.
Proof.
  intros Hlv [Ht Hp] Hs Hpg. destruct (Hlv t Ht) as (tb & Htb & _ & _ & _ & _ & Hcov).
  unfold hits, overlap. cbn in *. rewrite Htb in *. cbn in Hp.
  pose proof Hcov as (Hpc & Hend & Hsz & Epa). pose proof page_size_pos as HP.
  assert (page_index start * TARGET_PAGE_SIZE ≤ start) as Hst.
  { rewrite page_index_eq. pose proof (Z.mul_div_le start TARGET_PAGE_SIZE). lia. }
  destruct n; cbn in Hp |- *.
  - rewrite Epa. cbn. fold (page_base (pc tb)). fold (page_off (pc tb)). rewrite page_split.
    unfold tul. rewrite !wrap_small by (rewrite ?wrap_small; lia).
    apply eq_true_iff_eq. rewrite negb_true_iff, orb_false_iff, andb_true_iff, Z.leb_gt, Z.leb_gt, !Z.ltb_lt. lia.
  - destruct (Z.eqb_spec (at1 (page_addr tb)) no_page) as [|Hne]; [done|].
    destruct (covers_page2 tb Hcov Hne) as [E2 Hin]. apply (inj Some) in Hp.
    assert (at1 (page_addr tb) ≤ start) as Hle.
    { etrans; [|exact Hst]. rewrite <- Hp, <- page_base_index, Epa. cbn.
      destruct (page2_of_index (pc tb) (size tb)) as [<- _]; [by rewrite Epa in Hne|done]. }
    unfold tul. rewrite (wrap_small _ (pc tb + size tb)) by lia. fold (page_off (pc tb + size tb)).
    assert (page_off (pc tb + size tb) = pc tb + size tb - at1 (page_addr tb)) as ->.
    { rewrite page_off_eq. symmetry. apply Z.mod_unique_pos with (page_index (pc tb) + 1); lia. }
    rewrite wrap_small by lia. pose proof (page_split (pc tb)) as Hsplit.
    rewrite page_base_index in Hsplit. pose proof (page_off_range (pc tb)).
    apply eq_true_iff_eq. rewrite negb_true_iff, orb_false_iff, andb_true_iff, Z.leb_gt, Z.leb_gt, !Z.ltb_lt. lia.
Qed.

(** A block that overlaps a range within a page is on the list of the page. *)
Lemma overlap_page s live t start end_ :
  live_inv s live → t ∈ live → 0 ≤ start < end_ → page_index (end_ - 1) = page_index start →
  overlap s start end_ t = true → ∃ n, page_mem s live (t, n) (page_index start).
Proof.
  intros Hlv Ht Hs Hpg Ho. destruct (Hlv t Ht) as (tb & Htb & _ & _ & _ & _ & Hcov).
  unfold overlap in Ho. rewrite Htb in Ho. apply andb_true_iff in Ho as [Ho1 Ho2]. bprop.
  unfold page_mem. cbn. rewrite Htb. cbn.
  pose proof Hcov as (Hpc & Hend & Hsz & Epa).
  pose proof page_size_pos as HP.
  assert (page_index (pc tb) ≤ page_index start) as Hlo.
  { rewrite <- Hpg, !page_index_eq. apply Z.div_le_mono; lia. }
  assert (page_index start ≤ page_index (pc tb + size tb - 1)) as Hhi.
  { rewrite !page_index_eq. apply Z.div_le_mono; lia. }
  destruct (decide (page_index (pc tb) = page_index start)) as [E|E].
  { exists S0. split; [done|]. cbn. rewrite Epa. cbn [at0]. by rewrite page_index_base, E. }
  exists S1. split; [done|]. cbn.
  destruct (Z.eqb_spec (at1 (page_addr tb)) no_page) as [E1|E1].
  - exfalso. apply E. rewrite Epa in E1. cbn in E1. unfold page2_of in E1. revert E1. case_bool; bprop.
    2: { intros E1. by destruct (page_base_no_page (tul (pc tb + size tb - 1))). }
    intros _. unfold tul in Eb. rewrite wrap_small in Eb by lia. rewrite !page_base_index in Eb. nia.
  - destruct (covers_page2 tb Hcov E1) as [-> Hin]. f_equal.
    rewrite page_index_eq, Z.div_mul by lia.
    assert (page_index (pc tb + size tb - 1) ≤ page_index (pc tb) + 1); [|lia].
    rewrite (page_index_eq (_ - 1)). apply Z.lt_succ_r, Z.div_lt_upper_bound; nia.
Qed.

Section loop.
  Context (restore : TranslationBlock → Z → Z * Z * Z → Z * Z * Z).

(** The local variables refer to an existing CPU and to an existing block. *)
Definition smc_ok s (v : smc) : Prop :=
  (current_tb_not_found v = true → is_Some (cpu_single_env s)) ∧
  (∀ t, smc_current_tb v = Some t → is_Some (cpu_single_env s) ∧ is_Some (tbs s !! t)).

(** States that differ in the guest registers only. *)
Record regs_frame s s' : Prop := {
  rf_rest : s' = s <| cpus := cpus s' |>;
  rf_cpu e env' : cpus s' !! e = Some env' → ∃ env, cpus s !! e = Some env ∧
    env' = env <| guest_regs := guest_regs env' |>;
  rf_dom e : is_Some (cpus s !! e) → is_Some (cpus s' !! e)
}.

Lemma regs_frame_refl s : regs_frame s s.
Proof. split; [by destruct s|intros e env' ?; exists env'; by destruct env'|done]. Qed.

Lemma regs_mgr room s s' live E : regs_frame s s' → mgr_ex room s live E → mgr_ex room s' live E.
Proof.
  intros Hf [[Hlv Hh Hp Hjs Hj Hca] Hprot Hhost Hly Hc Hsz]. pose proof (rf_rest _ _ Hf) as Er.
  split.
  - split; try by rewrite Er.
    { rewrite Er. split; apply Hjs. }
    intros e env' h u He Hu.
    destruct (rf_cpu _ _ Hf e env' He) as (env & He0 & Ee). rewrite Ee in Hu. cbn in Hu.
    rewrite Er. by apply (Hca e env).
  - by rewrite Er.
  - by rewrite Er.
  - rewrite Er. by apply (layout_ext s).
  - rewrite Er. split; apply Hc.
  - rewrite Er. split; apply Hsz.
Qed.

Lemma regs_single s s' live : regs_frame s s' → single_ok s → single_ok s'.
Proof.
  intros Hf Hsi e He. pose proof (rf_rest _ _ Hf) as Er. rewrite Er in He. cbn in He.
  destruct (Hsi e He) as [Hs Hc]. split; [by apply Hf|]. intros env' t He' Ht.
  destruct (rf_cpu _ _ Hf e env' He') as (env & He0 & Ee). rewrite Ee in Ht. cbn in Ht.
  rewrite Er. by apply (Hc env).
Qed.

Lemma regs_bps s s' e : regs_frame s s' → bps s' e = bps s e.
Proof.
  intros Hf. unfold bps. destruct (cpus s' !! e) as [env'|] eqn:E'.
  - destruct (rf_cpu _ _ Hf e env' E') as (env & -> & ->). done.
  - destruct (cpus s !! e) eqn:E; [|done]. destruct (rf_dom _ _ Hf e) as [? ?]; [eauto|congruence].
Qed.

(** The state to resume from comes from [cpu_restore_state]. *)
Definition restored (loc : smc) : Prop :=
  current_tb_modified loc = true → ∃ tb hpc regs, current_state loc = restore tb hpc regs.

Lemma smc_stop_current_ok s (loc : smc) e t searched_pc :
  is_Some (cpus s !! e) → smc_ok s loc → restored loc →
  ∃ s' loc', smc_stop_current restore s loc e t searched_pc = Ok (s', loc') ∧ regs_frame s s' ∧
    smc_ok s' loc' ∧ restored loc'.
Proof.
  intros [env He] [Hnf Ht] Hr. unfold smc_stop_current. case_bool_decide as Ec.
  2: { exists s, loc. split_and!; auto using regs_frame_refl. by split. }
  destruct (Ht t Ec) as [_ [tb Htb]]. unfold get_tb. rewrite Htb. cbn [rbind deref]. case_bool; bprop.
  { exists s, loc. split_and!; auto using regs_frame_refl. by split. }
  cbn. rewrite list_lookup_alter_eq, He. cbn. eexists _, _. split; [done|]. split_and!; [|by split|].
  2: { intros _. cbn. eauto. }
  split; [done| |].
  - intros e' env' He'. cbn in He'. rewrite list_lookup_alter in He'. case_decide as E.
    + subst e'. rewrite He in He'. cbn in He'. apply (inj Some) in He' as <-. eauto.
    + exists env'. by destruct env'.
  - intros e' Hs. cbn. rewrite list_lookup_alter. case_decide; [subst; by rewrite fmap_is_Some|done].
Qed.

Lemma smc_find_current_ok s (loc : smc) live :
  layout s → single_ok s → smc_ok s loc → restored loc →
  ∃ loc', smc_find_current s loc = Ok (s, loc') ∧ smc_ok s loc' ∧ restored loc'.
Proof.
  intros Hly Hsi Hok Hr. pose proof Hok as [Hnf Ht].
  unfold smc_find_current. destruct (current_tb_not_found loc) eqn:En; [|by exists loc].
  destruct (Hnf eq_refl) as [e Ee]. rewrite Ee. cbn [rbind deref].
  destruct (Hsi e Ee) as [[env He] _]. rewrite He. cbn [rbind deref]. case_bool; cbn [rbind].
  - eexists. split; [done|]. split; [|done]. by split.
  - destruct (tb_find_pc_ok s (mem_io_pc env) Hly) as (o & -> & Ho). cbn [rbind].
    eexists. split; [done|]. split; [|done]. split; [done|]. cbn. intros t ->.
    split; [by rewrite Ee|]. apply (ly_tb s Hly), Ho.
Qed.

(** No running block to look for. *)
Definition quiet (loc : smc) : Prop :=
  current_tb_not_found loc = false ∧ smc_current_tb loc = None.
#[local] Instance quiet_dec loc : Decision (quiet loc).
Proof. unfold quiet. apply _. Defined.

(** The precise self-modifying-code part of an iteration. *)
Lemma smc_part_ok s (loc : smc) live t :
  layout s → single_ok s → smc_ok s loc → restored loc →
  ∃ s' loc', (if TARGET_HAS_PRECISE_SMC then
      '(s, loc) <- smc_find_current s loc ;;
      if bool_decide (smc_current_tb loc = Some t) then
        e <- deref (cpu_single_env s) ;;
        env <- deref (cpus s !! e) ;;
        smc_stop_current restore s loc e t (mem_io_pc env)
      else Ok (s, loc)
    else Ok (s, loc)) = Ok (s', loc') ∧ regs_frame s s' ∧ smc_ok s' loc' ∧ restored loc' ∧
    (quiet loc → loc' = loc).
Proof.
  intros Hly Hsi Hok Hr. case_match; [|exists s, loc; split_and!; auto using regs_frame_refl].
  destruct (decide (quiet loc)) as [Hq|Hq].
  { destruct Hq as [Q1 Q2]. unfold smc_find_current. rewrite Q1. cbn [rbind]. rewrite Q2.
    exists s, loc. split_and!; auto using regs_frame_refl. }
  destruct (smc_find_current_ok s loc live) as (loc1 & -> & Hok1 & Hr1); [done..|]. cbn [rbind].
  case_bool_decide as Ec; [|exists s, loc1; split_and!; auto using regs_frame_refl; done].
  destruct (proj2 Hok1 t Ec) as [[e Ee] _]. rewrite Ee. cbn [rbind deref].
  destruct (Hsi e Ee) as [[env He] _]. rewrite He. cbn [rbind deref].
  destruct (smc_stop_current_ok s loc1 e t (mem_io_pc env)) as (s' & loc' & ? & ? & ? & ?);
    [by rewrite He|done..|]. exists s', loc'. split_and!; done.
Qed.

(** The blocks of a list whose part meets the range. *)
Definition hit_blocks s start end_ (l : list pnode) : gset tbid :=
  list_to_set (fst <$> filter (λ x, hits s start end_ x = true) l).

(** The rest of the page list after the block at its head is gone. *)
Lemma list_step s s2 live t n l i :
  live_inv s live → (∀ u, static s2 u = static s u) →
  (∀ y, pnext s2 y = pnext s y ∨ ∃ m, pnext s y = Some (t, m)) →
  seg (pnext s) (pnext s (t, n)) l None → (t, n) ∉ l →
  (∀ x, x ∈ (t, n) :: l → page_mem s live x i) →
  seg (pnext s2) (pnext s (t, n)) l None ∧ (∀ x, x ∈ l → page_mem s2 (live ∖ {[t]}) x i).
Proof.
  intros Hlv Hst Hpn Hs Hx Hl.
  assert (∀ x, x ∈ l → x.1 ≠ t) as Hlt.
  { intros [u m] Hu E. cbn in E. subst u. apply Hx.
    assert (n = m) as -> by (eapply (page_mem_slot s live t n m i); [done|apply Hl; set_solver..]). done. }
  split.
  - apply (seg_ext (pnext s)); [|done]. intros x Hxl. destruct (Hpn x) as [->|[m Hm]]; [done|].
    by destruct (Hlt (t, m) (seg_next_in _ _ _ _ _ Hs Hxl Hm)).
  - intros x Hxl. apply (page_mem_ext s s2); [by rewrite Hst|].
    destruct (Hl x) as [? ?]; [set_solver|]. split; [|done].
    apply elem_of_difference. split; [done|]. rewrite elem_of_singleton. by apply Hlt.
Qed.

Lemma invalidate_range_loop_ok room fuel s (loc : smc) live y l i start end_ :
  mgr room s live → single_ok s → smc_ok s loc → restored loc →
  seg (pnext s) y l None → NoDup l → (∀ x, x ∈ l → page_mem s live x i) → (length l < fuel)%nat →
  ∃ s' loc', invalidate_range_loop restore fuel s loc y start end_ = Ok (s', loc') ∧
    mgr room s' (live ∖ hit_blocks s start end_ l) ∧
    single_ok s' ∧ smc_ok s' loc' ∧ restored loc' ∧
    (quiet loc → loc' = loc) ∧
    (∀ u, static s' u = static s u) ∧ cpu_single_env s' = cpu_single_env s ∧
    qemu_host_page_size s' = qemu_host_page_size s ∧ (∀ e, bps s' e = bps s e).
Proof.
  induction fuel as [|fuel IH] in s, loc, live, y, l |- *; intros Hm Hsi Hok Hr Hs Hnd Hl Hf; [lia|].
  destruct l as [|[t n] l]; cbn in Hs.
  { subst y. exists s, loc. unfold hit_blocks. cbn. rewrite difference_empty_L. by split_and!. }
  destruct Hs as [-> Hs]. apply NoDup_cons in Hnd as [Hx Hnd].
  assert (page_mem s live (t, n) i) as Hmem by (apply Hl; set_solver).
  pose proof (inv_live _ _ _ _ (m_inv _ _ _ _ Hm)) as Hlv.
  destruct (Hlv t (proj1 Hmem)) as (tb & Htb & _).
  assert (pnext s (t, n) = get2 (page_next tb) n) as En by (unfold pnext; cbn; by rewrite Htb).
  cbn [invalidate_range_loop]. unfold get_tb at 1. rewrite Htb. cbn [rbind deref].
  assert (hits s start end_ (t, n) = let '(a, b) := tb_phys_range tb n in
    negb ((b <=? start) || (end_ <=? a))) as Eh by (unfold hits; cbn; by rewrite Htb).
  destruct (tb_phys_range tb n) as [a b].
  assert (hit_blocks s start end_ ((t, n) :: l) =
    (if hits s start end_ (t, n) then {[t]} else ∅) ∪ hit_blocks s start end_ l) as Ehb.
  { unfold hit_blocks. rewrite filter_cons. destruct (hits s start end_ (t, n)); cbn; set_solver. }
  rewrite Ehb, Eh. destruct ((b <=? start) || (end_ <=? a)); cbn [negb].
  - rewrite union_empty_l_L. apply IH; try done; [by rewrite <- En|set_solver|cbn in Hf; lia].
  - destruct (smc_part_ok s loc live t) as (s1 & loc1 & -> & Hrf & Hok1 & Hr1 & Hq1); [apply Hm|done..|].
    cbn [rbind]. assert (mgr room s1 live) as Hm1 by (by eapply regs_mgr).
    destruct (smc_invalidate_ok room s1 live t) as (s2 & -> & Hm2 & Hsi2 & Hsf);
      [done|by eapply regs_single|apply Hmem|]. cbn [rbind].
    assert (∀ u, static s2 u = static s u) as Hst.
    { intros u. rewrite (sf_static _ _ _ Hsf). by rewrite (rf_rest _ _ Hrf). }
    assert (cpu_single_env s2 = cpu_single_env s) as Ese.
    { rewrite (sf_single _ _ _ Hsf). by rewrite (rf_rest _ _ Hrf). }
    destruct (list_step s s2 live t n l i) as [Hs2 Hl2]; try done.
    { intros y. destruct (sf_pnext _ _ _ Hsf y) as [E|E]; rewrite (rf_rest _ _ Hrf) in E; eauto. }
    assert (hit_blocks s2 start end_ l = hit_blocks s start end_ l) as Ehb2.
    { unfold hit_blocks. f_equal. f_equal. apply list_filter_iff. intros x.
      by rewrite (hits_static s2 s) by apply Hst. }
    destruct (IH s2 loc1 (live ∖ {[t]}) (get2 (page_next tb) n) l)
      as (s3 & loc3 & -> & Hm3 & Hsi3 & Hok3 & Hr3 & Hq3 & Hst3 & Ese3 & Ehp3 & Eb3); try done.
    + destruct Hok1 as [O1 O2]. split; [rewrite (sf_single _ _ _ Hsf); done|].
      intros u Hu. rewrite (sf_single _ _ _ Hsf). destruct (O2 u Hu). split; [done|].
      eapply static_is_some; [symmetry; apply Hsf|done].
    + by rewrite <- En.
    + cbn in Hf. lia.
    + rewrite Ehb2, difference_difference_l_L in Hm3. exists s3, loc3.
      split_and!; [done..| |intros; by rewrite Hst3|congruence| |].
      3: { intros e. rewrite Eb3, (sf_bps _ _ _ Hsf). by apply regs_bps. }
      2: { rewrite Ehp3, (sf_hps _ _ _ Hsf). by rewrite (rf_rest _ _ Hrf). }
      intros Hq. specialize (Hq1 Hq). rewrite Hq1 in Hq3. by rewrite Hq3.
Qed.

(** ** The page descriptor *)

Lemma mgr_upd_page room s live E i f :
  valid_index i → (∀ p, first_tb (f p) = first_tb p ∧ pflags (f p) = pflags p) →
  mgr_ex room s live E → mgr_ex room (upd_page s i f) live E.
Proof.
  intros Hi Hf [[Hlv Hh Hp Hjs Hj Hca] Hprot Hhost Hly Hc Hsz].
  assert (∀ j, valid_index j → page_head (upd_page s i f) j = page_head s j ∧
    pflags (page_desc (l1_map (upd_page s i f)) j) = pflags (page_desc (l1_map s) j)) as Hd.
  { intros j Hj0. unfold page_head, page_desc. rewrite page_find_upd by done.
    case_decide; [|done]. destruct (page_find (l1_map s) j) as [p|]; [|done]. cbn. apply Hf. }
  rewrite upd_page_l1 in Hd |- *. split.
  - split; try done; [|by split; apply Hjs]. eapply chains_ext, Hp; [|done..]. intros k [Hk _]. by rewrite (proj1 (Hd k Hk)).
  - intros j Hj0. rewrite (proj1 (Hd j Hj0)), (proj2 (Hd j Hj0)). by apply Hprot.
  - done.
  - by apply (layout_ext s).
  - split; apply Hc.
  - split; apply Hsz.
Qed.

Lemma page_size_8 : 8 * Z.to_nat (TARGET_PAGE_SIZE `div` 8) = TARGET_PAGE_SIZE.
Proof using Type.
  pose proof guest_page_bits. rewrite page_size_eq.
  replace TARGET_PAGE_BITS with (TARGET_PAGE_BITS - 3 + 3) by lia. rewrite Z.pow_add_r by lia.
  change (2 ^ 3) with 8. rewrite Z.div_mul by lia.
  assert (0 ≤ 2 ^ (TARGET_PAGE_BITS - 3)) by (apply Z.pow_nonneg; lia). lia.
Qed.

Lemma tb_page_range_ok tb n :
  0 < size tb → let '(a, b) := tb_page_range tb n in 0 ≤ a ≤ b ∧ b ≤ TARGET_PAGE_SIZE.
Proof using Type.
  intros Hsz. pose proof (page_off_range (pc tb)). pose proof (page_off_range (tul (pc tb + size tb))).
  destruct n; cbn; [|lia]. case_bool; bprop; lia.
Qed.

Lemma page_bitmap_loop_ok fuel s live tab y l :
  live_inv s live → seg (pnext s) y l None → (∀ x, x ∈ l → x.1 ∈ live) → (length l < fuel)%nat →
  8 * length tab = TARGET_PAGE_SIZE →
  ∃ tab', page_bitmap_loop fuel s tab y = Ok tab' ∧ length tab' = length tab ∧
    ∀ k, 0 ≤ k → bit tab' k = true ↔ bit tab k = true ∨
      ∃ x tb, x ∈ l ∧ tbs s !! x.1 = Some tb ∧ (tb_page_range tb x.2).1 ≤ k < (tb_page_range tb x.2).2.
Proof using Type.
  clear restore.
  intros Hlv. induction fuel as [|fuel IH] in tab, y, l |- *; intros Hs Hl Hf Hlen; [lia|].
  destruct l as [|[t n] l]; cbn in Hs.
  { subst y. exists tab. split_and!; [done..|]. intros k Hk. split; [by left|]. intros [?|(x & tb & Hx & _)]; [done|set_solver]. }
  destruct Hs as [-> Hs]. destruct (Hlv t) as (tb & Htb & _ & _ & _ & _ & Hcov); [apply (Hl (t, n)); set_solver|].
  assert (pnext s (t, n) = get2 (page_next tb) n) as En by (unfold pnext; cbn; by rewrite Htb).
  cbn [page_bitmap_loop]. unfold get_tb. rewrite Htb. cbn [rbind deref].
  pose proof (tb_page_range_ok tb n ltac:(apply Hcov)) as Hr. destruct (tb_page_range tb n) as [a b] eqn:Er.
  destruct (set_bits_ok tab a (b - a)) as (tab1 & -> & El1 & Hb1); [lia..|]. cbn [rbind].
  destruct (IH tab1 (get2 (page_next tb) n) l) as (tab2 & -> & El2 & Hb2);
    [by rewrite <- En|set_solver|cbn in Hf; lia|congruence|].
  exists tab2. split_and!; [done|congruence|]. intros k Hk. rewrite Hb2, Hb1 by done.
  rewrite orb_true_iff, andb_true_iff, Z.leb_le, Z.ltb_lt. split.
  - intros [[?|?]|(x & tb' & Hx & ?)]; [by left|right; exists (t, n), tb|right; exists x, tb'; set_solver].
    split; [set_solver|]. cbn. rewrite Er. cbn. split; [done|lia].
  - intros [?|(x & tb' & [->|Hx]%elem_of_cons & Htb' & Hk')]; [by left; left| |right; eauto].
    cbn in *. simplify_eq. rewrite Er in Hk'. cbn in Hk'. left. right. lia.
Qed.

(** ** The whole operation *)

Lemma page_list s live i :
  tb_inv s live → valid_index i →
  ∃ l, seg (pnext s) (page_head s i) l None ∧ NoDup l ∧ (∀ x, x ∈ l ↔ page_mem s live x i) ∧
    (length l < loop_fuel s)%nat.
Proof.
  intros Hinv Hi. destruct (inv_page _ _ _ _ Hinv i) as (l & Hs & Hnd & Hl); [auto|].
  exists l. split_and!; [done..|]. opose proof (pnode_bound s l Hnd _) as Hb; [|unfold loop_fuel; lia].
  intros x [Hx _]%Hl. destruct (inv_live _ _ _ _ Hinv x.1 Hx) as (? & ? & _). eauto.
Qed.

(** What is left after the blocks that overlap the range are gone. *)
Definition survivors s start end_ live : gset tbid := filter (λ t, overlap s start end_ t = false) live.

Lemma hit_blocks_survivors s live l start end_ :
  live_inv s live → 0 ≤ start < end_ → page_index (end_ - 1) = page_index start →
  (∀ x, x ∈ l ↔ page_mem s live x (page_index start)) →
  live ∖ hit_blocks s start end_ l = survivors s start end_ live.
Proof.
  intros Hlv Hs Hpg Hl. apply set_eq. intros t. unfold hit_blocks, survivors.
  rewrite elem_of_difference, elem_of_filter, elem_of_list_to_set, list_elem_of_fmap.
  setoid_rewrite list_elem_of_filter. split.
  - intros [Ht Hno]. split; [|done]. apply not_true_iff_false. intros Ho. apply Hno.
    destruct (overlap_page s live t start end_) as [n Hn]; [done..|].
    exists (t, n). split; [done|]. split; [|by apply Hl]. by rewrite (hits_overlap s live).
  - intros [Ho Ht]. split; [done|]. intros ([u n] & -> & Hh & Hin%Hl).
    rewrite (hits_overlap s live) in Hh by done. cbn in Ho. congruence.
Qed.

Context (gen : Z → gen_info).

(** The continuation is translatable. *)
Definition restore_ok room s : Prop :=
  TARGET_HAS_PRECISE_SMC = true →
  ∀ tb hpc regs, gen_spec room gen s (restore tb hpc regs).1.1.

(** The end of the functions: the manager's invariant, with one more block on
    the long-jump path. *)
Definition resume_post room s' live (fl : flow) : Prop :=
  match fl with
  | Return => mgr room s' live ∧ single_ok s'
  | Longjmp => ∃ t live0, (live0 = live ∨ live0 = ∅) ∧ t ∉ live0 ∧
      mgr room s' ({[t]} ∪ live0) ∧ single_ok s'
  end.

Lemma gen_spec_host room s s' pc_ :
  qemu_host_page_size s' = qemu_host_page_size s → gen_spec room gen s pc_ → gen_spec room gen s' pc_.
Proof.
  intros E Hg p. destruct (Hg p) as [? [? ? ? ?]]. split; [done|].
  split; unfold page_ok, host_page_base in *; by rewrite ?E.
Qed.

Lemma smc_resume_ok room s (loc : smc) live :
  mgr room s live → single_ok s → smc_ok s loc → restored loc →
  (current_tb_modified loc = true → restore_ok room s) →
  (current_tb_modified loc = true → is_Some (cpu_single_env s)) →
  ∃ s' fl, smc_resume gen s loc (cpu_single_env s) = Ok (s', fl) ∧ resume_post room s' live fl ∧
    (current_tb_modified loc = false → fl = Return) ∧ (fl = Return → s' = s).
Proof.
  intros Hm Hsi Hok Hr Hg He. unfold smc_resume.
  destruct (TARGET_HAS_PRECISE_SMC) eqn:Ep; [|by exists s, Return].
  destruct (current_tb_modified loc) eqn:Em; [|by exists s, Return]. cbn [andb].
  destruct (He eq_refl) as [e Ee]. rewrite Ee. cbn [rbind deref].
  destruct (Hr Em) as (tb & hpc & regs & Es). rewrite Es.
  pose proof (Hg eq_refl Ep tb hpc regs) as Hg0.
  destruct (restore tb hpc regs) as [[pc_ cs_] fl_]. cbn in Hg0.
  set (s1 := upd_cpu s e _). assert (mgr room s1 live) as Hm1 by (by apply mgr_upd_cpu).
  destruct (tb_gen_code_ok room gen s1 live e pc_ cs_ fl_ 1 Hm1)
    as (s2 & t & tb2 & -> & Hm2 & Ht & _ & _ & _ & _ & _ & Hef & _); [by apply (gen_spec_host room s)|].
  cbn [rbind]. eexists _, Longjmp. split; [done|]. split; [|by split].
  exists t, (if must_flush s1 then ∅ else live). split_and!; [|done|by apply mgr_upd_cpu|].
  { destruct (must_flush s1); auto. }
  destruct (Hsi e Ee) as [[env Henv] _]. pose proof (ef_run _ _ Hef e) as Erun. cbn in Erun.
  rewrite list_lookup_alter_eq, Henv in Erun. cbn in Erun.
  intros e' He'. cbn in He'. rewrite (ef_single _ _ Hef) in He'. cbn in He'.
  assert (e' = e) as -> by congruence. unfold cur_ok. cbn. rewrite list_lookup_alter_eq.
  destruct (cpus s2 !! e) as [env2|]; [|done]. split; [eauto|]. intros env' u [= <-] Hu. cbn in *. congruence.
Qed.

(** The bookkeeping of writes to the page. *)
Lemma count_write_ok room s live i p is_write :
  mgr room s live → valid_index i → page_find (l1_map s) i = Some p →
  ∃ s1, count_page_write s i p is_write = Ok s1 ∧
    mgr room s1 live ∧ s1 = s <| l1_map := l1_map s1 |> ∧ page_head s1 i = page_head s i.
Proof.
  intros Hm Hi Hp. unfold count_page_write. destruct (code_bitmap p); [exists s; split_and!; try done; by destruct s|]. cbv zeta.
  set (f := set_code_write_count (code_write_count p + 1)). set (s0 := upd_page s i f).
  assert (mgr room s0 live) as Hm0 by (by apply mgr_upd_page).
  assert (page_head s0 i = page_head s i) as Eh.
  { unfold page_head, page_desc, s0. rewrite page_find_upd, decide_True by done. by rewrite Hp. }
  assert (s0 = s <| l1_map := l1_map s0 |>) as Er by (by apply upd_page_l1).
  case_match; [|by exists s0]. unfold build_page_bitmap.
  assert (page_find (l1_map s0) i = Some (f p)) as Hp0.
  { unfold s0. rewrite page_find_upd, decide_True by done. by rewrite Hp. }
  rewrite Hp0. cbn [rbind deref].
  destruct (page_list s0 live i (m_inv _ _ _ _ Hm0) Hi) as (l & Hs & Hnd & Hl & Hf).
  destruct (page_bitmap_loop_ok (loop_fuel s0) s0 live empty_bitmap (first_tb (f p)) l)
    as (tab & -> & _ & _).
  - apply Hm0.
  - unfold page_head, page_desc in Hs. by rewrite Hp0 in Hs.
  - intros x Hx%Hl. apply Hx.
  - done.
  - unfold empty_bitmap. rewrite length_replicate. apply page_size_8.
  - cbn [rbind]. eexists. split; [done|]. split_and!; [by apply mgr_upd_page| |].
    + rewrite upd_page_l1, Er. done.
    + rewrite <- Eh. unfold page_head, page_desc. rewrite page_find_upd, decide_True by done. by rewrite Hp0.
Qed.

Lemma tb_invalidate_phys_page_range_ok room s live start end_ (is_write : bool) :
  mgr room s live → single_ok s → (is_write = true → is_Some (cpu_single_env s)) →
  (is_write = true → restore_ok room s) → 0 ≤ start < end_ → page_index (end_ - 1) = page_index start →
  valid_index (page_index start) →
  ∃ s' fl, tb_invalidate_phys_page_range gen restore s start end_ is_write = Ok (s', fl) ∧
    resume_post room s' (survivors s start end_ live) fl ∧
    (is_write = false → fl = Return ∧ (∀ e, bps s' e = bps s e) ∧ single_ok s').
Proof.
  intros Hm Hsi Hw Hg Hs Hpg Hi. unfold tb_invalidate_phys_page_range.
  pose proof (inv_live _ _ _ _ (m_inv _ _ _ _ Hm)) as Hlv.
  destruct (page_list s live _ (m_inv _ _ _ _ Hm) Hi) as (l & Hseg & Hnd & Hl & Hf).
  rewrite <- (hit_blocks_survivors s live l) by done.
  destruct (page_find (l1_map s) (page_index start)) as [p|] eqn:Ep.
  2: { exists s, Return. unfold page_head, page_desc in Hseg.
       rewrite Ep in Hseg. destruct l; [|by destruct Hseg].
       unfold hit_blocks. cbn. by rewrite difference_empty_L. }
  destruct (count_write_ok room s live _ p is_write Hm Hi Ep) as (s1 & -> & Hm1 & Er & Eh). cbn [rbind].
  assert (tbs s1 = tbs s) as Et by (by rewrite Er).
  assert (first_tb p = page_head s (page_index start)) as Ef
    by (unfold page_head, page_desc; by rewrite Ep).
  assert (∀ x, pnext s1 x = pnext s x) as Epn by (intros; unfold pnext; by rewrite Et).
  set (loc := mkSmc is_write None false (0, 0, 0)).
  destruct (invalidate_range_loop_ok room (loop_fuel s1) s1 loc live (first_tb p) l (page_index start) start end_)
    as (s2 & loc2 & -> & Hm2 & Hsi2 & Hok2 & Hr2 & Hq & Hst & Ese & Ehp & Ebp); try done.
  - intros e He. rewrite Er in He. destruct (Hsi e He) as [Hd Hc]. rewrite Er. split; [done|].
    by apply (cur_ok_ext s).
  - split; [|done]. cbn. intros ->. rewrite Er. by apply Hw.
  - rewrite Ef. by apply (seg_ext (pnext s)).
  - intros x Hx. unfold page_mem. rewrite Et. by apply Hl.
  - unfold loop_fuel. by rewrite Et.
  - cbn [rbind]. destruct (smc_resume_ok room s2 loc2 _ Hm2 Hsi2 Hok2 Hr2) as (s3 & fl & -> & Hp & Hret & Hs3).
    + intros Hmod Hp tb hpc regs. eapply gen_spec_host; [|apply Hg; [|done]]; [rewrite Ehp; by rewrite Er|].
      destruct is_write; [done|]. rewrite Hq in Hmod; done.
    + intros Hmod. rewrite Ese. destruct is_write; [rewrite Er; by apply Hw|].
      rewrite Hq in Hmod; done.
    + assert (hit_blocks s1 start end_ l = hit_blocks s start end_ l) as Ehb.
      { unfold hit_blocks. f_equal. f_equal. apply list_filter_iff. intros [t n].
        unfold hits. by rewrite Et. }
      rewrite Ehb in *. exists s3, fl. split_and!; [done..|].
      * intros ->. rewrite Hq in Hret by done. specialize (Hret eq_refl). rewrite (Hs3 Hret).
        split_and!; [done|intros; rewrite Ebp; unfold bps; by rewrite Er|done].
Qed.

End loop.

End range.
