(* ===== verification/SMCPage.v ===== *)
(** * Invalidation of pages and page protection

    [tb_invalidate_phys_page] removes every block of a page; [page_set_flags]
    and [page_unprotect] change the flags of pages so that a page with
    translated code is never writable. *)

From stdpp Require Import base gmap list fin_maps.
From S2P Require Import Prelude Chain Config CodePatch Bitmap PageTable TBData TBOps SMC TBInv.
From S2P Require Import TBLists TBCode TBInval TBJump TBLink TBGen TBFind SMCRange.
Local Open Scope Z_scope.
Local Coercion Z.of_nat : nat >-> Z.

Section page.
  Context `{Guest} `{!PageTable PT}.
  Notation st := (exec_state PT).
  Implicit Types (s : st) (t u v : tbid) (tb : TranslationBlock) (n m : slot) (live : gset tbid).
  Context (gen : Z → gen_info) (restore : TranslationBlock → Z → Z * Z * Z → Z * Z * Z).

(** ** The loop over the blocks of the page *)

Lemma inval_single_ok s s' live t :
  inval_frame s s' live (blocks s) t → single_ok s → single_ok s'.
Proof.
  intros Hf Hsi e He. rewrite (inval_single _ _ _ _ Hf) in He. destruct (Hsi e He) as [Hs Hc].
  destruct (inval_cpu _ _ _ _ e Hf) as [_ Hc2]. split; [by apply Hc2|].
  apply (cur_ok_ext s); [by eapply inval_blocks| |done].
  destruct (if_cpus _ _ _ _ _ Hf) as [h ->]. rewrite list_lookup_fmap.
  destruct (cpus s !! e); [|done]. cbn. unfold jmp_cache_clear. by case_bool_decide.
Qed.

(** The page that is emptied is exempt from the invariant of the page lists. *)
Lemma skips_page addr :
  addr = page_base addr → skips addr (λ j, j = page_index addr).
Proof.
  intros E addr' E' Hv. split; [by intros ->|]. intros Ei.
  rewrite E, E', !page_base_index. by rewrite Ei.
Qed.

(** What is known of the local variables when the running block is looked up
    beforehand. *)
Lemma stop_part_ok s (loc : smc) live t pc_ :
  single_ok s → smc_ok s loc → restored restore loc →
  ∃ s' loc', (if TARGET_HAS_PRECISE_SMC && bool_decide (smc_current_tb loc = Some t) then
      e <- deref (cpu_single_env s) ;; smc_stop_current restore s loc e t pc_
    else Ok (s, loc)) = Ok (s', loc') ∧ regs_frame s s' ∧ smc_ok s' loc' ∧ restored restore loc' ∧
    (smc_current_tb loc = None → loc' = loc).
Proof.
  intros Hsi Hok Hr. destruct TARGET_HAS_PRECISE_SMC; cbn [andb];
    [|exists s, loc; split_and!; auto using regs_frame_refl].
  case_bool_decide as Ec; [|exists s, loc; split_and!; auto using regs_frame_refl].
  destruct (proj2 Hok t Ec) as [[e Ee] _]. rewrite Ee. cbn [rbind deref].
  destruct (Hsi e Ee) as [Hs _].
  destruct (smc_stop_current_ok restore s loc e t pc_) as (s' & loc' & ? & ? & ? & ?); [done..|].
  exists s', loc'. split_and!; try done. congruence.
Qed.

Lemma invalidate_page_loop_ok room fuel s (loc : smc) live y l addr pc_ :
  addr = page_base addr → mgr_ex room s live (λ j, j = page_index addr) → single_ok s →
  smc_ok s loc → restored restore loc → seg (pnext s) y l None → NoDup l →
  (∀ x, x ∈ l → page_mem s live x (page_index addr)) → (length l < fuel)%nat →
  ∃ s' loc', invalidate_page_loop restore fuel s loc y addr pc_ = Ok (s', loc') ∧
    mgr_ex room s' (live ∖ list_to_set (fst <$> l)) (λ j, j = page_index addr) ∧
    single_ok s' ∧ smc_ok s' loc' ∧ restored restore loc' ∧
    (smc_current_tb loc = None → loc' = loc) ∧ (∀ u, static s' u = static s u) ∧
    cpu_single_env s' = cpu_single_env s ∧ qemu_host_page_size s' = qemu_host_page_size s ∧
    (∀ i, valid_index i → is_Some (page_find (l1_map s') i) ↔ is_Some (page_find (l1_map s) i)) ∧
    (∀ i, valid_index i → pflags (page_desc (l1_map s') i) = pflags (page_desc (l1_map s) i)).
Proof.
  intros Ha. induction fuel as [|fuel IH] in s, loc, live, y, l |- *; intros Hm Hsi Hok Hr Hs Hnd Hl Hf; [lia|].
  destruct l as [|[t n] l]; cbn in Hs.
  { subst y. exists s, loc. cbn. rewrite difference_empty_L. by split_and!. }
  destruct Hs as [-> Hs]. apply NoDup_cons in Hnd as [Hx Hnd].
  assert (page_mem s live (t, n) (page_index addr)) as Hmem by (apply Hl; set_solver).
  pose proof (inv_live _ _ _ _ (m_inv _ _ _ _ Hm)) as Hlv.
  destruct (Hlv t (proj1 Hmem)) as (tb & Htb & _).
  cbn [invalidate_page_loop].
  destruct (stop_part_ok s loc live t pc_ Hsi Hok Hr) as (s1 & loc1 & -> & Hrf & Hok1 & Hr1 & Hq1).
  cbn [rbind]. pose proof (rf_rest _ _ Hrf) as Er1.
  destruct (inval_mgr room s1 live (λ j, j = page_index addr) t addr) as (s2 & -> & Hm2 & Hf2);
    [by eapply regs_mgr|by apply skips_page|apply Hmem|]. cbn [rbind].
  assert (single_ok s2) as Hsi2.
  { apply (inval_single_ok s1 s2 live t); [done|by eapply regs_single]. }
  pose proof (inval_step _ _ _ _ Hf2) as [F1 _ F2 F3 F4 _ F5 F6].
  assert (∀ u, static s2 u = static s u) as Hst by (intros u; rewrite F1; by rewrite Er1).
  destruct (list_step s s2 live t n l (page_index addr)) as [Hs2 Hl2]; try done.
  { intros y. destruct (F2 y) as [E|E]; rewrite Er1 in E; eauto. }
  assert (pnext s2 (t, n) = pnext s (t, n)) as En.
  { destruct (F2 (t, n)) as [E|[m E]]; rewrite Er1 in E; [done|].
    change (pnext s (t, n) = Some (t, m)) in E. rewrite E in Hs.
    destruct l as [|x l]; [done|]. destruct Hs as [[= <-] _].
    assert (m = n) as ->; [|exfalso; apply Hx; set_solver].
    eapply (page_mem_slot s live t); [done|apply Hl; set_solver..]. }
  destruct (static_some s s2 t tb) as (tb2 & Htb2 & _); [done..|].
  unfold get_tb. rewrite Htb2. cbn [rbind deref].
  assert (pnext s (t, n) = get2 (page_next tb2) n) as En2.
  { rewrite <- En. unfold pnext. cbn. by rewrite Htb2. }
  destruct (IH s2 loc1 (live ∖ {[t]}) (get2 (page_next tb2) n) l)
    as (s3 & loc3 & -> & Hm3 & Hsi3 & Hok3 & Hr3 & Hq3 & Hst3 & Ese3 & Ehp3 & Hfi & Hfl); try done.
  - destruct Hok1 as [O1 O2]. split; [rewrite F3; done|].
    intros u Hu. rewrite F3. destruct (O2 u Hu). split; [done|].
    eapply static_is_some; [symmetry; apply F1|done].
  - by rewrite <- En2.
  - cbn in Hf. lia.
  - rewrite difference_difference_l_L in Hm3. exists s3, loc3.
    split_and!; [done..| |intros; by rewrite Hst3| | | |].
    + intros Hq. specialize (Hq1 Hq). rewrite Hq1 in Hq3. by rewrite Hq3.
    + rewrite Ese3, F3. by rewrite Er1.
    + rewrite Ehp3, F4. by rewrite Er1.
    + intros i Hi. rewrite Hfi, F5 by done. by rewrite Er1.
    + intros i Hi. rewrite Hfl, F6 by done. by rewrite Er1.
Qed.

(** ** The whole operation *)

Definition on_page s (i : Z) t : bool :=
  bool_decide (tbs s !! t ≫= (λ tb, tb_page tb S0) = Some i) ||
  bool_decide (tbs s !! t ≫= (λ tb, tb_page tb S1) = Some i).

(** The blocks without code on page [i]. *)
Definition off_page s (i : Z) live : gset tbid := filter (λ t, on_page s i t = false) live.

Lemma on_page_mem s live i t : t ∈ live → on_page s i t = true ↔ ∃ n, page_mem s live (t, n) i.
Proof.
  intros Ht. unfold on_page, page_mem. rewrite orb_true_iff, !bool_decide_eq_true. split.
  - intros [E|E]; [by exists S0|by exists S1].
  - intros [[] [_ E]]; auto.
Qed.

Definition page_listed_by s live (i : Z) (l : list pnode) : Prop :=
  seg (pnext s) (page_head s i) l None ∧ NoDup l ∧ ∀ x, x ∈ l ↔ page_mem s live x i.

Lemma listed_off_page s live i l :
  page_listed_by s live i l → live ∖ list_to_set (fst <$> l) = off_page s i live.
Proof.
  intros (_ & _ & Hl). apply set_eq. intros t. unfold off_page.
  rewrite elem_of_difference, elem_of_filter, elem_of_list_to_set, list_elem_of_fmap.
  split.
  - intros [Ht Hno]. split; [|done]. apply not_true_iff_false.
    intros [n Hn]%(on_page_mem s live i t Ht). apply Hno. exists (t, n). split; [done|]. by apply Hl.
  - intros [Ho Ht]. split; [done|]. intros ([u n] & -> & Hin%Hl). cbn in *.
    apply not_true_iff_false in Ho. apply Ho. apply (on_page_mem s live i u Ht). eauto.
Qed.

(** An empty page is no longer exempt. *)
Lemma mgr_close room s live i :
  mgr_ex room s live (λ j, j = i) → page_head s i = None → (∀ x, ¬ page_mem s live x i) →
  mgr room s live.
Proof.
  intros [[Hlv Hh Hp Hjs Hj Hca] Hprot Hhost Hly Hc Hsz] Hhd Hno. split; try done.
  - split; try done. intros k [Hk _]. destruct (decide (k = i)) as [->|Hne]; [|by apply Hp].
    exists []. split_and!; [done|constructor|]. intros x. split; [intros Hx; by apply elem_of_nil in Hx|].
    intros Hx. by destruct (Hno x).
  - intros k Hk _ Hh'. destruct (decide (k = i)) as [->|Hne]; [done|by apply Hprot].
Qed.

Lemma mgr_open room s live E : mgr room s live → mgr_ex room s live E.
Proof.
  intros [[Hlv Hh Hp Hjs Hj Hca] Hprot Hhost Hly Hc Hsz]. split; try done.
  - split; try done. intros k [Hk _]. apply Hp. auto.
  - intros k Hk _ Hh'. apply Hprot; auto.
Qed.

(** A change of the descriptor of an exempt page. *)
Lemma mgr_ex_upd_page room s live i f :
  valid_index i → mgr_ex room s live (λ j, j = i) → mgr_ex room (upd_page s i f) live (λ j, j = i).
Proof.
  intros Hi [[Hlv Hh Hp Hjs Hj Hca] Hprot Hhost Hly Hc Hsz].
  assert (∀ j, valid_index j → j ≠ i → page_desc (l1_map (upd_page s i f)) j = page_desc (l1_map s) j) as Hd.
  { intros j Hj0 Hne. unfold page_desc. rewrite page_find_upd by done. by rewrite decide_False by done. }
  assert (∀ j, valid_index j → j ≠ i → page_head (upd_page s i f) j = page_head s j) as Hd'.
  { intros j Hj0 Hne. unfold page_head. by rewrite Hd. }
  rewrite upd_page_l1 in Hd, Hd' |- *. split.
  - split; try done; [|by split; apply Hjs]. eapply chains_ext, Hp; [|done..]. intros k [Hk Hne]. by rewrite Hd'.
  - intros j Hj0 Hne. rewrite Hd', Hd by done. by apply Hprot.
  - done.
  - by apply (layout_ext s).
  - split; apply Hc.
  - split; apply Hsz.
Qed.

(** What is left when the function returns. *)
Record page_post room s s' live (i : Z) : Prop := {
  pp_mgr : mgr room s' (off_page s i live);
  pp_single : single_ok s';
  pp_head : page_head s' i = None;
  pp_static u : static s' u = static s u;
  pp_env : cpu_single_env s' = cpu_single_env s;
  pp_hps : qemu_host_page_size s' = qemu_host_page_size s;
  pp_find j : valid_index j → is_Some (page_find (l1_map s') j) ↔ is_Some (page_find (l1_map s) j);
  pp_flags j : valid_index j → pflags (page_desc (l1_map s') j) = pflags (page_desc (l1_map s) j)
}.

Lemma off_page_no_mem s s' live i x :
  (∀ u, static s' u = static s u) → ¬ page_mem s' (off_page s i live) x i.
Proof.
  intros Hst Hx%(page_mem_ext s' s); [|done]. destruct x as [t n], Hx as [[Ho Ht]%elem_of_filter Hp].
  cbn in *. apply not_true_iff_false in Ho. apply Ho, (on_page_mem s live i t Ht). exists n. done.
Qed.

Lemma single_ok_ext s s' :
  cpus s' = cpus s → nb_tbs s' = nb_tbs s → cpu_single_env s' = cpu_single_env s →
  single_ok s → single_ok s'.
Proof.
  intros Ec Et Ee Hsi e He. rewrite Ee in He. destruct (Hsi e He) as [Hs Hc].
  rewrite Ec. split; [done|]. apply (cur_ok_ext s); [by apply blocks_nb|by rewrite Ec|done].
Qed.

(** Emptying the list of the page. *)
Lemma close_page_ok room s s' live i :
  valid_index i → mgr_ex room s' (off_page s i live) (λ j, j = i) →
  single_ok s' → is_Some (page_find (l1_map s') i) →
  (∀ u, static s' u = static s u) → cpu_single_env s' = cpu_single_env s →
  qemu_host_page_size s' = qemu_host_page_size s →
  (∀ j, valid_index j → is_Some (page_find (l1_map s') j) ↔ is_Some (page_find (l1_map s) j)) →
  (∀ j, valid_index j → pflags (page_desc (l1_map s') j) = pflags (page_desc (l1_map s) j)) →
  page_post room s (upd_page s' i (set_first_tb None)) live i.
Proof.
  intros Hi Hm Hsi Hfi Hst Ee Eh Hf Hfl. set (s2 := upd_page s' i _).
  assert (s2 = s' <| l1_map := l1_map s2 |>) as Er by apply upd_page_l1.
  assert (page_head s2 i = None) as Hhd.
  { unfold page_head, s2. rewrite page_desc_upd by done. by rewrite decide_True. }
  assert (∀ u, static s2 u = static s u) as Hst2 by (intros u; rewrite Er; apply Hst).
  split; [| |done|done|by rewrite Er..| |].
  - apply (mgr_close room s2 _ i); [by apply mgr_ex_upd_page|done|].
    intros x. by apply off_page_no_mem.
  - apply (single_ok_ext s'); [by rewrite Er..|done].
  - intros j Hj. unfold s2. rewrite page_find_upd_some by done. by apply Hf.
  - intros j Hj. rewrite <- Hfl by done. unfold s2. rewrite page_desc_upd by done. by case_decide; subst.
Qed.

(** The block that contains the host pc of the write. *)
Lemma find_running_ok s (listed : bool) pc_ :
  layout s → (pc_ ≠ 0 → is_Some (cpu_single_env s)) →
  ∃ cur, (if TARGET_HAS_PRECISE_SMC && listed && negb (pc_ =? 0)
          then tb_find_pc s pc_ else Ok None) = Ok cur ∧
    (∀ t, cur = Some t → is_Some (cpu_single_env s) ∧ is_Some (tbs s !! t)) ∧ (pc_ = 0 → cur = None).
Proof.
  intros Hly Hpc. destruct (_ && _) eqn:Ec; [|by exists None].
  apply andb_prop in Ec as [_ Ec%negb_true_iff%Z.eqb_neq].
  destruct (tb_find_pc_ok s pc_ Hly) as (o & -> & Ho). exists o. split_and!; [done| |done].
  intros t ->. split; [by apply Hpc|]. apply (ly_tb s Hly), Ho.
Qed.

Lemma page_listed_fuel s live i l :
  live_inv s live → page_listed_by s live i l → (length l < loop_fuel s)%nat.
Proof.
  intros Hlv (_ & Hnd & Hl). opose proof (pnode_bound s l Hnd _) as Hb; [|unfold loop_fuel; lia].
  intros x [Hx _]%Hl. destruct (Hlv x.1 Hx) as (? & ? & _). eauto.
Qed.

(** A page without descriptor has no blocks. *)
Lemma no_page_post room s live i l :
  page_find (l1_map s) i = None → mgr_ex room s live (λ j, j = i) → single_ok s →
  page_listed_by s live i l → page_post room s s live i.
Proof.
  intros Ep Hm Hsi Hls. pose proof Hls as (Hseg & Hnd & Hl).
  assert (page_head s i = None) as Hhd by (unfold page_head, page_desc; by rewrite Ep).
  rewrite Hhd in Hseg. destruct l; [|by destruct Hseg].
  assert (off_page s i live = live) as Eo.
  { rewrite <- (listed_off_page s live _ [] Hls). cbn. by rewrite difference_empty_L. }
  split; rewrite ?Eo; try done. eapply mgr_close; [done..|].
  intros x Hx%Hl. by apply elem_of_nil in Hx.
Qed.

Lemma tb_invalidate_phys_page_ok room s live l addr pc_ :
  0 ≤ addr → valid_index (page_index addr) →
  mgr_ex room s live (λ j, j = page_index addr) → page_listed_by s live (page_index addr) l →
  single_ok s → (pc_ ≠ 0 → is_Some (cpu_single_env s)) →
  (pc_ ≠ 0 → restore_ok restore gen room s) →
  ∃ s' fl, tb_invalidate_phys_page gen restore s addr pc_ = Ok (s', fl) ∧
    resume_post room s' (off_page s (page_index addr) live) fl ∧
    (fl = Return → page_post room s s' live (page_index addr)) ∧ (pc_ = 0 → fl = Return).
Proof.
  intros Ha Hi Hm Hls Hsi Hpc Hg. pose proof Hls as (Hseg & Hnd & Hl).
  unfold tb_invalidate_phys_page. rewrite page_index_base.
  destruct (page_find (l1_map s) (page_index addr)) as [p|] eqn:Ep.
  2: { exists s, Return. opose proof (no_page_post _ _ _ _ _ Ep Hm Hsi Hls) as Hpp.
       split_and!; [done|split; apply Hpp|done..]. }
  assert (first_tb p = page_head s (page_index addr)) as Ef
    by (unfold page_head, page_desc; by rewrite Ep).
  destruct (find_running_ok s (bool_decide (is_Some (first_tb p))) pc_) as (cur & -> & Hcur & Hc0);
    [apply Hm|done|].
  cbn [rbind]. set (loc := mkSmc false cur false (0, 0, 0)).
  destruct (invalidate_page_loop_ok room (loop_fuel s) s loc live (first_tb p) l (page_base addr) pc_)
    as (s1 & loc1 & -> & Hm1 & Hsi1 & Hok1 & Hr1 & Hq & Hst & Ee & Eh & Hfi & Hfl).
  - by rewrite page_base_idem.
  - by rewrite page_index_base.
  - done.
  - by split.
  - done.
  - by rewrite Ef.
  - done.
  - intros x Hx. rewrite page_index_base. by apply Hl.
  - eapply page_listed_fuel; [apply Hm|done].
  - cbn [rbind]. rewrite page_index_base in Hm1.
    rewrite (listed_off_page s live _ l) in * by done.
    assert (page_post room s (upd_page s1 (page_index addr) (set_first_tb None)) live (page_index addr)) as Hpp.
    { apply close_page_ok; try done. rewrite Hfi, Ep by done. eauto. }
    set (s2 := upd_page _ _ _) in *.
    assert (s2 = s1 <| l1_map := l1_map s2 |>) as Er by apply upd_page_l1.
    destruct (smc_resume_ok restore gen room s2 loc1 _ (pp_mgr _ _ _ _ _ Hpp) (pp_single _ _ _ _ _ Hpp)) as (s3 & fl & -> & Hp & Hret & Hs3).
    + rewrite Er. exact Hok1.
    + done.
    + intros Hmod Hpr tb hpc regs. eapply gen_spec_host; [|apply Hg; [|done]]; [by rewrite (pp_hps _ _ _ _ _ Hpp)|].
      intros E0. rewrite Hq in Hmod; [done|by apply Hc0].
    + intros Hmod. rewrite (pp_env _ _ _ _ _ Hpp). destruct cur as [t|]; [by apply (Hcur t)|].
      rewrite Hq in Hmod by done. done.
    + exists s3, fl. split_and!; [done..| |].
      * intros E. by rewrite (Hs3 E).
      * intros ->. apply Hret. rewrite Hq; [done|by apply Hc0].
Qed.

(** ** Page flags *)

(** The blocks without code on the pages from [a] to [b]. *)
Definition on_pages s (a b : Z) t : bool :=
  match tbs s !! t with
  | None => false
  | Some tb => existsb (λ o, match o with Some i => (a <=? i) && (i <? b) | None => false end)
                 [tb_page tb S0; tb_page tb S1]
  end.
Definition off_pages s (a b : Z) live : gset tbid := filter (λ t, on_pages s a b t = false) live.

Lemma off_pages_none s a live : off_pages s a a live = live.
Proof.
  apply set_eq. intros t. unfold off_pages. rewrite elem_of_filter. split; [by intros [_ ?]|].
  intros Ht. split; [|done]. unfold on_pages. destruct (tbs s !! t) as [tb|]; [|done]. cbn.
  destruct (tb_page tb S1); repeat case_bool; bprop; try done; lia.
Qed.

Lemma on_pages_step s a b t : a < b → on_pages s a b t = on_page s a t || on_pages s (a + 1) b t.
Proof.
  intros Hab. unfold on_pages, on_page. destruct (tbs s !! t) as [tb|]; [|done]. cbn.
  apply eq_true_iff_eq. rewrite !orb_true_iff, !bool_decide_eq_true.
  destruct (at1 (page_addr tb) =? no_page); cbn; rewrite ?andb_true_iff, ?Z.leb_le, ?Z.ltb_lt.
  - split; [intros [?|[?|?]]|intros [[[= ->]|?]|[?|[?|?]]]]; try done; try (left; lia).
    destruct (decide (page_index (at0 (page_addr tb)) = a)) as [->|]; [by left; left|right; left; lia].
  - destruct (decide (page_index (at0 (page_addr tb)) = a)) as [->|];
      destruct (decide (page_index (at1 (page_addr tb)) = a)) as [->|]; naive_solver lia.
Qed.

Lemma on_page_static s s' i t : static s' t = static s t → on_page s' i t = on_page s i t.
Proof.
  intros E. unfold on_page. by rewrite !(static_bind _ s' s t) by done.
Qed.

Lemma on_pages_static s s' a b t : static s' t = static s t → on_pages s' a b t = on_pages s a b t.
Proof.
  intros E. unfold static in E. unfold on_pages. destruct (tbs s' !! t) as [tb'|], (tbs s !! t) as [tb|]; try done.
  apply (inj Some) in E. by rewrite !(erase_view (λ tb, tb_page tb _) tb tb').
Qed.

Lemma off_pages_step s s' a b live :
  a < b → (∀ u, static s' u = static s u) →
  off_pages s' (a + 1) b (off_page s a live) = off_pages s a b live.
Proof.
  intros Hab Hst. apply set_eq. intros t. unfold off_pages, off_page. rewrite !elem_of_filter.
  rewrite (on_pages_static s s') by done. rewrite (on_pages_step s a b) by done. rewrite orb_false_iff. naive_solver.
Qed.

(** A change of page descriptors that keeps the lists, and the flags of the
    pages with code. *)
Lemma mgr_l1 room s live pt :
  (∀ j, valid_index j → first_tb (page_desc pt j) = page_head s j) →
  (∀ j, valid_index j → page_head s j ≠ None → pflags (page_desc pt j) .& PAGE_WRITE = 0) →
  mgr room s live → mgr room (s <| l1_map := pt |>) live.
Proof.
  intros Hh Hf [[Hlv Hha Hp Hjs Hj Hca] Hprot Hhost Hly Hc Hsz]. split.
  - split; try done; [|by split; apply Hjs]. eapply chains_ext, Hp; [|done..]. intros k [Hk _]. symmetry. by apply Hh.
  - intros j Hj0 _ Hhd. unfold page_head in Hhd. cbn in Hhd |- *. rewrite Hh in Hhd by done. auto.
  - done.
  - by apply (layout_ext s).
  - split; apply Hc.
  - split; apply Hsz.
Qed.

Definition writable (flags_ : Z) : bool := negb (flags_ .& PAGE_WRITE =? 0).

(** What a change of the flags keeps. *)
Record flags_post room s s' live live' (f : Z → Z → Z) : Prop := {
  flp_mgr : mgr room s' live';
  flp_single : single_ok s';
  flp_static u : static s' u = static s u;
  flp_env : cpu_single_env s' = cpu_single_env s;
  flp_hps : qemu_host_page_size s' = qemu_host_page_size s;
  flp_find j : valid_index j → is_Some (page_find (l1_map s) j) → is_Some (page_find (l1_map s') j);
  flp_flags j : valid_index j →
    pflags (page_desc (l1_map s') j) = f j (pflags (page_desc (l1_map s) j))
}.

Lemma mgr_page_listed room s live i : mgr room s live → valid_index i → ∃ l, page_listed_by s live i l.
Proof. intros Hm Hi. apply (inv_page _ _ _ _ (m_inv _ _ _ _ Hm)). auto. Qed.

Lemma head_none_off room s live i :
  mgr room s live → valid_index i → page_head s i = None → off_page s i live = live.
Proof.
  intros Hm Hi Hhd. destruct (mgr_page_listed room s live i Hm Hi) as [l Hl].
  rewrite <- (listed_off_page s live i l Hl). destruct Hl as [Hs _]. rewrite Hhd in Hs.
  destruct l; [|by destruct Hs]. cbn. by rewrite difference_empty_L.
Qed.

(** Storing the flags of a page that has no code or does not become writable. *)
Lemma store_flags_ok room s live i flags_ :
  mgr room s live → single_ok s → valid_index i → is_Some (page_find (l1_map s) i) →
  (writable flags_ = true → page_head s i = None) →
  flags_post room s (upd_page s i (set_pflags flags_)) live live (λ j old, if decide (j = i) then flags_ else old).
Proof.
  intros Hm Hsi Hi Hs Hw. set (s' := upd_page _ _ _).
  assert (s' = s <| l1_map := l1_map s' |>) as Er by apply upd_page_l1.
  assert (∀ j, valid_index j → page_desc (l1_map s') j =
    if decide (i = j) then set_pflags flags_ (page_desc (l1_map s) i) else page_desc (l1_map s) j) as Hd
    by (intros; by apply page_desc_upd).
  split; [| | |by rewrite Er..| |].
  - rewrite Er. apply mgr_l1; [..|done]; intros j Hj; rewrite Hd by done; case_decide as E; subst; try done.
    + intros Hhd. destruct (writable flags_) eqn:Ew; [by rewrite Hw in Hhd|].
      unfold writable in Ew. apply negb_false_iff, Z.eqb_eq in Ew. done.
    + apply (m_prot _ _ _ _ Hm j Hj). auto.
  - apply (single_ok_ext s); [by rewrite Er..|done].
  - intros u. by rewrite Er.
  - intros j Hj. unfold s'. by rewrite page_find_upd_some.
  - intros j Hj. rewrite Hd by done. repeat case_decide; subst; done.
Qed.

Lemma alloc_page_mgr room s live i :
  mgr room s live → single_ok s → valid_index i →
  flags_post room s (s <| l1_map := page_alloc (l1_map s) i |>) live live (λ _ old, old).
Proof.
  intros Hm Hsi Hi. split; try done.
  - apply mgr_l1; [..|done]; intros j Hj; rewrite page_desc_alloc by done; [done|].
    apply (m_prot _ _ _ _ Hm j Hj). auto.
  - intros j Hj Hs. cbn. destruct (page_find_alloc_other (l1_map s) i j) as [->|[E ->]]; [done..|eauto].
  - intros j Hj. cbn. by rewrite page_desc_alloc.
Qed.

Lemma page_index_mul i : page_index (i * TARGET_PAGE_SIZE) = i.
Proof. rewrite page_index_eq. apply Z.div_mul. pose proof page_size_pos. lia. Qed.

(** One page of [page_set_flags]. *)
Lemma set_flags_page_ok room s live i flags_ :
  mgr room s live → single_ok s → valid_index i → is_Some (page_find (l1_map s) i) →
  ∃ s1, (if (pflags (page_desc (l1_map s) i) .& PAGE_WRITE =? 0) && negb (flags_ .& PAGE_WRITE =? 0)
             && bool_decide (is_Some (page_head s i))
         then tb_invalidate_phys_page gen restore s (i * TARGET_PAGE_SIZE) 0
         else Ok (s, Return)) = Ok (s1, Return) ∧
    flags_post room s (upd_page s1 i (set_pflags flags_)) live
      (if writable flags_ then off_page s i live else live)
      (λ j old, if decide (j = i) then flags_ else old).
Proof.
  intros Hm Hsi Hi Hs. pose proof page_size_pos as HP. destruct (_ && _) eqn:Ec.
  - apply andb_true_iff in Ec as [[_ Ew]%andb_true_iff _].
    destruct (mgr_page_listed room s live i Hm Hi) as [l Hl].
    destruct (tb_invalidate_phys_page_ok room s live l (i * TARGET_PAGE_SIZE) 0)
      as (s1 & fl & Hs1 & _ & Hpp & Hret); rewrite ?page_index_mul; try done.
    { unfold valid_index in Hi. nia. }
    { by apply mgr_open. }
    rewrite (Hret eq_refl) in *. rewrite page_index_mul in Hpp. specialize (Hpp eq_refl).
    exists s1. split; [done|]. unfold writable. rewrite Ew.
    destruct Hpp as [P1 P2 P3 P4 P5 P6 P7 P8].
    destruct (store_flags_ok room s1 (off_page s i live) i flags_) as [Q1 Q2 Q3 Q4 Q5 Q6 Q7];
      [done|done|done|by apply P7|done|].
    split; [done|done|congruence|congruence|congruence|intros j Hj ?; by apply Q6, P7|].
    intros j Hj. rewrite Q7, P8 by done. done.
  - exists s. split; [done|].
    assert (writable flags_ = true → page_head s i = None) as Hw.
    { intros Ew. unfold writable in Ew. rewrite Ew, andb_true_r in Ec. apply andb_false_iff in Ec as [Ec|Ec].
      - apply Z.eqb_neq in Ec. destruct (page_head s i) eqn:E; [|done].
        destruct Ec. apply (m_prot _ _ _ _ Hm i Hi); [auto|congruence].
      - apply bool_decide_eq_false, eq_None_not_Some in Ec. done. }
    replace (if writable flags_ then off_page s i live else live) with live; [by apply store_flags_ok|].
    destruct (writable flags_); [|done]. symmetry. apply (head_none_off room); auto.
Qed.

Lemma flags_trans room s s1 s2 live live1 live2 f g h :
  flags_post room s s1 live live1 f → flags_post room s1 s2 live1 live2 g →
  (∀ j old, g j (f j old) = h j old) → flags_post room s s2 live live2 h.
Proof.
  intros [P1 P2 P3 P4 P5 P6 P7] [Q1 Q2 Q3 Q4 Q5 Q6 Q7] E.
  split; [done|done|congruence|congruence|congruence|auto|].
  intros j Hj. by rewrite Q7, P7.
Qed.

Lemma off_page_static s s' i live :
  (∀ u, static s' u = static s u) → off_page s' i live = off_page s i live.
Proof.
  intros Hst. apply set_eq. intros t. unfold off_page. rewrite !elem_of_filter.
  by rewrite (on_page_static s s').
Qed.

(** The loop over the pages from [a] to [a + k]. *)
Lemma set_flags_loop_ok room (k fuel : nat) s live a flags_ :
  mgr room s live → single_ok s → 0 ≤ a → (k < fuel)%nat →
  (a + k) * TARGET_PAGE_SIZE < 2 ^ L1_MAP_ADDR_SPACE_BITS →
  ∃ s', set_flags_loop gen restore fuel s (a * TARGET_PAGE_SIZE) (k * TARGET_PAGE_SIZE) flags_ = Ok s' ∧
    flags_post room s s' live (if writable flags_ then off_pages s a (a + k) live else live)
      (λ j old, if decide (a ≤ j < a + k) then flags_ else old) ∧
    (∀ j, a ≤ j < a + k → is_Some (page_find (l1_map s') j)).
Proof.
  pose proof page_size_pos as HP. pose proof guest_l1_bits as HL. pose proof guest_page_bits.
  assert (2 ^ L1_MAP_ADDR_SPACE_BITS ≤ 2 ^ TARGET_LONG_BITS) as Hpow by (apply Z.pow_le_mono_r; lia).
  induction k as [|k IH] in s, live, a, fuel |- *; intros Hm Hsi Ha Hfu Hb; (destruct fuel as [|fuel]; [lia|]).
  { cbn -[Z.mul]. rewrite Z.mul_0_l. cbn. exists s. split; [done|]. rewrite Z.add_0_r, off_pages_none.
    assert ((if writable flags_ then live else live) = live) as -> by (by destruct (writable flags_)).
    split; [|lia]. split; try done. intros j Hj. by rewrite decide_False by lia. }
  cbn [set_flags_loop]. destruct (Z.eqb_spec (S k * TARGET_PAGE_SIZE) 0) as [?|_]; [lia|].
  rewrite page_index_mul. assert (valid_index a) as Hv by (eapply valid_index_lt; [|done]; lia).
  pose proof (alloc_page_mgr room s live a Hm Hsi Hv) as Hp1.
  set (s1 := s <| l1_map := _ |>) in *.
  assert (is_Some (page_find (l1_map s1) a)) as [p Hp] by (cbn; rewrite page_find_alloc_same by done; eauto).
  rewrite Hp. cbn [rbind deref].
  destruct (set_flags_page_ok room s1 live a flags_) as (s2 & Hs2 & Hp2); [apply Hp1|apply Hp1|done|by rewrite Hp|].
  unfold page_head, page_desc in Hs2. rewrite Hp in Hs2. cbn [default] in Hs2. unfold id in Hs2.
  rewrite Hs2. cbn [rbind]. set (s3 := upd_page s2 a _) in *.
  assert (tul (a * TARGET_PAGE_SIZE + TARGET_PAGE_SIZE) = (a + 1) * TARGET_PAGE_SIZE) as ->
    by (unfold tul; rewrite wrap_small; nia).
  assert (tul (S k * TARGET_PAGE_SIZE - TARGET_PAGE_SIZE) = k * TARGET_PAGE_SIZE) as ->
    by (unfold tul; rewrite wrap_small; nia).
  pose proof (flags_trans _ _ _ _ _ _ _ _ _ _ Hp1 Hp2 (λ j old, eq_refl)) as Hp3.
  destruct (IH fuel s3 (if writable flags_ then off_page s1 a live else live) (a + 1))
    as (s4 & -> & Hp4 & Hfi); [apply Hp3|apply Hp3|lia..|].
  exists s4. split; [done|]. split.
  - replace (if writable flags_ then off_pages s a (a + S k) live else live) with
      (if writable flags_ then off_pages s3 (a + 1) (a + 1 + k)
         (if writable flags_ then off_page s1 a live else live)
       else (if writable flags_ then off_page s1 a live else live)).
    + eapply flags_trans; [apply Hp3|apply Hp4|]. intros j old. cbn. repeat case_decide; lia || done.
    + destruct (writable flags_); [|done]. rewrite (off_page_static s) by done.
      rewrite off_pages_step; [f_equal; lia|lia|]. apply Hp3.
  - intros j Hj. destruct (decide (j = a)) as [->|]; [|apply Hfi; lia].
    apply (flp_find _ _ _ _ _ _ Hp4); [done|]. apply (flp_find _ _ _ _ _ _ Hp2); [done|]. eauto.
Qed.

(** The flags that are stored. *)
Definition org_flags (flags_ : Z) : Z := if writable flags_ then flags_ .| PAGE_WRITE_ORG else flags_.

Lemma writable_org flags_ : writable (org_flags flags_) = writable flags_.
Proof.
  unfold org_flags. destruct (writable flags_) eqn:E; [|done]. unfold writable in *.
  rewrite Z.land_lor_distr_l. change (PAGE_WRITE_ORG .& PAGE_WRITE) with 0. by rewrite Z.lor_0_r.
Qed.

(** The pages of the range [start, end_). *)
Definition last_page (end_ : Z) : Z := page_index (end_ + TARGET_PAGE_SIZE - 1).

Lemma page_set_flags_ok room s live start end_ flags_ :
  mgr room s live → single_ok s → 0 ≤ start < end_ →
  end_ + TARGET_PAGE_SIZE ≤ 2 ^ L1_MAP_ADDR_SPACE_BITS →
  ∃ s', page_set_flags gen restore s start end_ flags_ = Ok s' ∧
    flags_post room s s' live
      (if writable flags_ then off_pages s (page_index start) (last_page end_) live else live)
      (λ j old, if decide (page_index start ≤ j < last_page end_) then org_flags flags_ else old) ∧
    (∀ j, page_index start ≤ j < last_page end_ → is_Some (page_find (l1_map s') j)).
Proof.
  intros Hm Hsi Hs He. pose proof page_size_pos as HP. pose proof guest_l1_bits as HL. pose proof guest_page_bits.
  assert (2 ^ L1_MAP_ADDR_SPACE_BITS ≤ 2 ^ TARGET_LONG_BITS) as Hpow by (apply Z.pow_le_mono_r; lia).
  unfold page_set_flags. rewrite (proj2 (Z.ltb_lt end_ _)) by lia. rewrite (proj2 (Z.ltb_lt start end_)) by lia.
  assert (∀ b : bool, (if b then true else true) = true) as -> by (by intros []). cbn [rbind assert_].
  unfold TARGET_PAGE_ALIGN. replace (tul (end_ + _ - 1)) with (end_ + TARGET_PAGE_SIZE - 1)
    by (unfold tul; rewrite wrap_small; lia).
  fold (page_base (end_ + TARGET_PAGE_SIZE - 1)). rewrite !page_base_index. fold (last_page end_).
  set (a := page_index start). set (b := last_page end_).
  assert (0 ≤ a) by (unfold a; rewrite page_index_eq; apply Z.div_pos; lia).
  assert (a < b) as Hab.
  { unfold a, b, last_page. rewrite !page_index_eq.
    replace (end_ + TARGET_PAGE_SIZE - 1) with (end_ - 1 + 1 * TARGET_PAGE_SIZE) by lia.
    rewrite Z.div_add by lia. apply Z.lt_succ_r, Z.div_le_mono; lia. }
  assert (b * TARGET_PAGE_SIZE < 2 ^ L1_MAP_ADDR_SPACE_BITS) as Hb.
  { unfold b, last_page. rewrite <- page_base_index, page_base_eq.
    pose proof (Z.mod_pos_bound (end_ + TARGET_PAGE_SIZE - 1) TARGET_PAGE_SIZE). lia. }
  replace (tul (b * TARGET_PAGE_SIZE - a * TARGET_PAGE_SIZE)) with (Z.to_nat (b - a) * TARGET_PAGE_SIZE)
    by (unfold tul; rewrite wrap_small; nia).
  rewrite Z.div_mul by lia. remember (Z.to_nat (b - a)) as k eqn:Ek.
  replace b with (a + k) in Hb |- * by lia.
  replace (if flags_ .& PAGE_WRITE =? 0 then flags_ else flags_ .| PAGE_WRITE_ORG) with (org_flags flags_)
    by (unfold org_flags, writable; by destruct (flags_ .& PAGE_WRITE =? 0)).
  rewrite <- (writable_org flags_). rewrite Nat2Z.id.
  apply set_flags_loop_ok; [done..|lia|lia].
Qed.

(** ** Unprotection *)

(** One page of [page_unprotect]. *)
Lemma unprotect_page_ok room s live i p pc_ :
  mgr room s live → single_ok s → valid_index i → page_find (l1_map s) i = Some p →
  (pc_ ≠ 0 → is_Some (cpu_single_env s)) → (pc_ ≠ 0 → restore_ok restore gen room s) →
  ∃ s' fl, tb_invalidate_phys_page gen restore
      (upd_page s i (set_pflags (pflags p .| PAGE_WRITE))) (i * TARGET_PAGE_SIZE) pc_ = Ok (s', fl) ∧
    resume_post room s' (off_page s i live) fl ∧
    (fl = Return → flags_post room s s' live (off_page s i live)
       (λ j old, if decide (j = i) then old .| PAGE_WRITE else old)) ∧ (pc_ = 0 → fl = Return).
Proof.
  intros Hm Hsi Hi Hp Hpc Hg. pose proof page_size_pos as HP. set (s1 := upd_page _ _ _).
  assert (s1 = s <| l1_map := l1_map s1 |>) as Er by apply upd_page_l1.
  assert (∀ j, valid_index j → page_desc (l1_map s1) j =
    if decide (i = j) then set_pflags (pflags p .| PAGE_WRITE) (page_desc (l1_map s) i)
    else page_desc (l1_map s) j) as Hd by (intros; apply page_desc_upd; eauto).
  destruct (mgr_page_listed room s live i Hm Hi) as [l Hl].
  destruct (tb_invalidate_phys_page_ok room s1 live l (i * TARGET_PAGE_SIZE) pc_)
    as (s2 & fl & -> & Hres & Hpp & Hret); rewrite ?page_index_mul; try done.
  { unfold valid_index in Hi. nia. }
  { by apply mgr_ex_upd_page, mgr_open. }
  { unfold page_listed_by, page_head. rewrite Hd, decide_True by done. by rewrite Er. }
  { apply (single_ok_ext s); [by rewrite Er..|done]. }
  { by rewrite Er. }
  { intros E0 Hpr tb hpc regs. apply (gen_spec_host gen room s); [by rewrite Er|by apply Hg]. }
  rewrite page_index_mul in Hpp, Hres.
  assert (off_page s1 i live = off_page s i live) as Eo by (by rewrite Er).
  rewrite Eo in Hres. exists s2, fl. split_and!; [done..| |done].
  intros Hf. destruct (Hpp Hf) as [P1 P2 P3 P4 P5 P6 P7 P8]. rewrite Eo in *.
  split; [done|done|intros u; rewrite P4; by rewrite Er|by rewrite P5, Er|by rewrite P6, Er| |].
  - intros j Hj Hs. apply P7; [done|]. unfold s1. by rewrite page_find_upd_some.
  - intros j Hj. rewrite P8, Hd by done. repeat case_decide; subst; try done.
    cbn. unfold page_desc. by rewrite Hp.
Qed.

(** The loop over the pages from [a] to [b]. *)
Definition add_write (a b j old : Z) : Z := if decide (a ≤ j < b) then old .| PAGE_WRITE else old.

(** The union of the flags of the pages from [a] to [b]. *)
Definition flags_union s (a b prot prot' : Z) : Prop :=
  ∀ k, Z.testbit prot' k = true ↔ Z.testbit prot k = true ∨
    ∃ j, a ≤ j < b ∧ Z.testbit (pflags (page_desc (l1_map s) j) .| PAGE_WRITE) k = true.

Lemma unprotect_loop_ok room fuel s live a b prot pc_ :
  mgr room s live → single_ok s → 0 ≤ a ≤ b → b * TARGET_PAGE_SIZE < 2 ^ L1_MAP_ADDR_SPACE_BITS →
  (∀ j, a ≤ j < b → is_Some (page_find (l1_map s) j)) → (Z.to_nat (b - a) < fuel)%nat →
  (pc_ ≠ 0 → is_Some (cpu_single_env s)) → (pc_ ≠ 0 → restore_ok restore gen room s) →
  ∃ s' prot' fl, unprotect_loop gen restore fuel s (a * TARGET_PAGE_SIZE) (b * TARGET_PAGE_SIZE) prot pc_ =
      Ok (s', prot', fl) ∧ (pc_ = 0 → fl = Return) ∧
    match fl with
    | Return => flags_post room s s' live (off_pages s a b live) (add_write a b) ∧ flags_union s a b prot prot'
    | Longjmp => ∃ live', mgr room s' live' ∧ single_ok s'
    end.
Proof.
  pose proof page_size_pos as HP. pose proof guest_l1_bits as HL. pose proof guest_page_bits.
  assert (2 ^ L1_MAP_ADDR_SPACE_BITS ≤ 2 ^ TARGET_LONG_BITS) as Hpow by (apply Z.pow_le_mono_r; lia).
  induction fuel as [|fuel IH] in s, live, a, prot |- *; intros Hm Hsi Hab Hb Hfi Hf Hpc Hg; [lia|].
  cbn [unprotect_loop]. destruct (Z.ltb_spec (a * TARGET_PAGE_SIZE) (b * TARGET_PAGE_SIZE)) as [Hlt|Hge].
  2: { assert (a = b) as -> by nia. exists s, prot, Return. split_and!; [done|done|..].
       - rewrite off_pages_none. split; try done. intros j _. unfold add_write. by rewrite decide_False by lia.
       - intros k. split; [by left|]. intros [?|(j & Hj & _)]; [done|lia]. }
  assert (a < b) as Hab' by nia. rewrite page_index_mul.
  assert (valid_index a) as Hv by (eapply valid_index_lt; [|done]; lia).
  destruct (Hfi a) as [p Hp]; [lia|]. rewrite Hp. cbn [rbind deref].
  destruct (unprotect_page_ok room s live a p pc_) as (s1 & fl & -> & Hres & Hfp & Hret); [done..|].
  cbn [rbind]. destruct fl.
  2: { eexists s1, _, Longjmp. split_and!; [done|by intros ?%Hret|].
       destruct Hres as (t & live0 & _ & _ & ?). eauto. }
  pose proof (Hfp eq_refl) as Hfp1. destruct (Hfp eq_refl) as [P1 P2 P3 P4 P5 P6 P7].
  assert (tul (a * TARGET_PAGE_SIZE + TARGET_PAGE_SIZE) = (a + 1) * TARGET_PAGE_SIZE) as ->
    by (unfold tul; rewrite wrap_small; nia).
  destruct (IH s1 (off_page s a live) (a + 1) (prot .| (pflags p .| PAGE_WRITE)))
    as (s2 & prot2 & fl & -> & Hz & Hpost); try done; [lia| |lia|by rewrite P4| |].
  { intros j Hj. apply P6; [eapply valid_index_lt; [|done]; lia|]. apply Hfi. lia. }
  { intros E0 Hpr tb hpc regs. apply (gen_spec_host gen room s); [done|by apply Hg]. }
  exists s2, prot2, fl. split_and!; [done..|]. destruct fl; [|done]. destruct Hpost as [Hfp0 Hu]. split.
  - rewrite <- (off_pages_step s s1) by done. eapply flags_trans; [apply Hfp1|apply Hfp0|].
    intros j old. unfold add_write. repeat case_decide; lia || done.
  - intros k. pose proof (Hu k) as Hk0. rewrite (Z.lor_spec prot), orb_true_iff in Hk0. rewrite Hk0. assert (page_desc (l1_map s) a = p) as Ed
      by (unfold page_desc; by rewrite Hp).
    assert (∀ j, a + 1 ≤ j < b → pflags (page_desc (l1_map s1) j) = pflags (page_desc (l1_map s) j)) as E1.
    { intros j Hj. rewrite P7, decide_False by (try (eapply valid_index_lt; [|done]); lia). done. }
    split.
    + intros [[?|?]|(j & Hj & Hk)]; [by left|right; exists a; rewrite Ed; auto with lia|].
      right. exists j. rewrite <- E1 by done. auto with lia.
    + intros [?|(j & Hj & Hk)]; [by left; left|]. destruct (decide (j = a)) as [->|]; [left; right; by rewrite <- Ed|].
      right. exists j. rewrite E1 by lia. auto with lia.
Qed.

Lemma host_leaf s addr a b :
  host_ok s → page_ok s addr → qemu_host_page_size s ≤ 2 ^ 10 * TARGET_PAGE_SIZE →
  host_page_base s addr = a * TARGET_PAGE_SIZE →
  u64 (host_page_base s addr + qemu_host_page_size s) = b * TARGET_PAGE_SIZE →
  b * TARGET_PAGE_SIZE < 2 ^ L1_MAP_ADDR_SPACE_BITS →
  ∀ j, a ≤ j < b → j `div` 2 ^ 10 = a `div` 2 ^ 10.
Proof.
  intros (k & Hk & Hps) (Hp0 & Hpa & Hend) Hsz Ea Eb Hb j Hj. pose proof page_size_pos as HP. pose proof guest_l1_bits.
  pose proof guest_long_bits. pose proof guest_page_bits.
  assert (2 ^ L1_MAP_ADDR_SPACE_BITS ≤ 2 ^ 64) by (apply Z.pow_le_mono_r; lia).
  assert (2 ^ k = 2 ^ (k - TARGET_PAGE_BITS) * TARGET_PAGE_SIZE) as Ek.
  { rewrite page_size_eq, <- Z.pow_add_r by lia. f_equal. lia. }
  set (d := 2 ^ (k - TARGET_PAGE_BITS)) in *.
  assert (0 < d) by (apply Z.pow_pos_nonneg; lia).
  assert (k - TARGET_PAGE_BITS ≤ 10) as Hk10.
  { destruct (decide (k - TARGET_PAGE_BITS ≤ 10)); [done|]. exfalso.
    assert (2 ^ 11 ≤ d) by (apply Z.pow_le_mono_r; lia). rewrite Hps, Ek in Hsz. nia. }
  assert (2 ^ 10 = 2 ^ (10 - (k - TARGET_PAGE_BITS)) * d) as E10
    by (unfold d; rewrite <- Z.pow_add_r by lia; f_equal; lia).
  rewrite E10. set (c := 2 ^ (10 - _)). assert (0 < c) by (apply Z.pow_pos_nonneg; lia).
  unfold host_page_base in *. rewrite Hps in *. rewrite land_lnot_low in * by lia.
  rewrite page_base_index in Hpa. set (i := page_index addr) in *. rewrite Hpa, Ek in *.
  rewrite Z.mul_mod_distr_r in * by lia.
  assert (a = i - i `mod` d) as Ei by nia.
  pose proof (Z.mod_pos_bound i d). pose proof (Z_div_mod_eq_full i d). pose proof (Z.mod_le i d).
  rewrite (wrap_small 64) in Eb by nia. assert (b = a + d) as -> by nia.
  assert (a = i `div` d * d) as Ea' by lia. set (q := i `div` d) in *. rewrite Ea' in *.
  rewrite (Z.mul_comm c d), <- !Z.div_div by lia. f_equal. rewrite Z.div_mul by lia.
  symmetry. apply (Z.div_unique j d q (j - q * d)); lia.
Qed.

Lemma host_base_page s addr : host_ok s → host_page_base s (page_base addr) = host_page_base s addr.
Proof.
  intros (k & Hk & Hps). unfold host_page_base, page_base, TARGET_PAGE_MASK.
  rewrite Hps, page_size_eq. pose proof guest_page_bits. rewrite <- Z.land_assoc. f_equal.
  apply Z.bits_inj'. intros n Hn. rewrite Z.land_spec, !Z.lnot_spec by lia.
  replace (2 ^ k - 1) with (Z.ones k) by (rewrite Z.ones_equiv; lia).
  replace (2 ^ TARGET_PAGE_BITS - 1) with (Z.ones TARGET_PAGE_BITS) by (rewrite Z.ones_equiv; lia).
  rewrite !Z.testbit_ones_nonneg by lia. destruct (Z.ltb_spec n k), (Z.ltb_spec n TARGET_PAGE_BITS); done || lia.
Qed.

(** The pages of the host page of an address. *)
Definition host_first s addr : Z := page_index (host_page_base s addr).
Definition host_last s addr : Z := page_index (host_page_base s addr + qemu_host_page_size s).

(** A write to a page that is read-only because of translated code: the host
    page becomes writable and its blocks are gone, unless the running block
    itself was modified. *)
Lemma page_unprotect_ok room s live address p pc_ :
  mgr room s live → single_ok s → page_ok s (page_base address) →
  qemu_host_page_size s ≤ 2 ^ 10 * TARGET_PAGE_SIZE →
  page_find (l1_map s) (page_index address) = Some p →
  pflags p .& PAGE_WRITE_ORG ≠ 0 → pflags p .& PAGE_WRITE = 0 →
  (pc_ ≠ 0 → is_Some (cpu_single_env s)) → (pc_ ≠ 0 → restore_ok restore gen room s) →
  ∃ s' r fl, page_unprotect gen restore s address pc_ = Ok (s', r, fl) ∧ (pc_ = 0 → fl = Return) ∧
    match fl with
    | Return => r = 1 ∧
        flags_post room s s' live (off_pages s (host_first s address) (host_last s address) live)
          (add_write (host_first s address) (host_last s address)) ∧
        ∃ prot, host_prot s' !! host_page_base s address = Some prot ∧ prot .& PAGE_WRITE ≠ 0
    | Longjmp => ∃ live', mgr room s' live' ∧ single_ok s'
    end.
Proof.
  intros Hm Hsi Hpo Hsz Hp Horg Hw Hpc Hg. pose proof (m_host _ _ _ _ Hm) as Hh.
  destruct (host_page_split s (page_base address) Hh Hpo) as (a & b & Ea & Eb & Hab & Hib & Hb & Hf).
  pose proof (host_leaf s _ a b Hh Hpo Hsz Ea Eb Hb) as Hleaf.
  rewrite host_base_page, page_index_base in * by done.
  pose proof page_size_pos as HP. pose proof guest_l1_bits as HL. pose proof guest_page_bits. pose proof guest_long_bits.
  assert (2 ^ L1_MAP_ADDR_SPACE_BITS ≤ 2 ^ TARGET_LONG_BITS) as Hpow by (apply Z.pow_le_mono_r; lia).
  assert (2 ^ TARGET_LONG_BITS ≤ 2 ^ 64) by (apply Z.pow_le_mono_r; lia).
  destruct Hpo as (Hp0 & _ & Hend). rewrite host_base_page in Hend by done.
  assert (0 ≤ qemu_host_page_size s) by (destruct Hh as (k & ? & ->); apply Z.pow_nonneg; lia).
  rewrite (wrap_small 64) in Eb by nia.
  assert (host_first s address = a) as -> by (unfold host_first; rewrite Ea; apply page_index_mul).
  assert (host_last s address = b) as -> by (unfold host_last; rewrite Eb; apply page_index_mul).
  unfold page_unprotect. rewrite Hp. apply Z.eqb_neq in Horg. rewrite Horg, Hw. cbn [negb andb].
  replace (tul (host_page_base s address + qemu_host_page_size s)) with (b * TARGET_PAGE_SIZE)
    by (unfold tul; rewrite wrap_small; nia). rewrite Ea.
  destruct (unprotect_loop_ok room (S (host_pages s)) s live a b 0 pc_) as (s1 & prot & fl & -> & Hz & Hpost);
    try done; [lia| |].
  { intros j Hj. apply (page_find_leaf _ (page_index address)); [eapply valid_index_lt; [|done]; lia..| |by rewrite Hp].
    by rewrite (Hleaf (page_index address)), (Hleaf j) by lia. }
  cbn [rbind]. destruct fl; [|by eexists _, _, _; split_and!].
  destruct Hpost as [Hfp Hu]. eexists _, 1, Return. split_and!; [done..| |].
  - destruct Hfp as [P1 P2 P3 P4 P5 P6 P7]. split; try done.
    destruct P1 as [[? ? ? Hjs ? ?] ? ? ? Hc Hsz1]. split; [split; try done; split; apply Hjs|done|done|by apply (layout_ext s1)|split; apply Hc|split; apply Hsz1].
  - exists (prot .& PAGE_BITS). cbn. rewrite lookup_insert_eq. split; [done|].
    intros E. apply (f_equal (λ z, Z.testbit z 1)) in E. rewrite !Z.land_spec in E.
    change (Z.testbit PAGE_BITS 1) with true in E. change (Z.testbit PAGE_WRITE 1) with true in E.
    rewrite !andb_true_r in E. rewrite (proj2 (Hu 1)) in E; [done|]. right. exists a. split; [lia|].
    rewrite Z.lor_spec. apply orb_true_r.
Qed.

(** ** Checks of a range *)

(** What a read access requires of a page. *)
Definition check_page s (flags_ j : Z) : bool :=
  match page_find (l1_map s) j with
  | None => false
  | Some p => negb (pflags p .& PAGE_VALID =? 0) &&
      ((flags_ .& PAGE_READ =? 0) || negb (pflags p .& PAGE_READ =? 0))
  end.

Lemma check_range_loop_ok (k fuel : nat) s a flags_ :
  writable flags_ = false → 0 ≤ a → (a + k) * TARGET_PAGE_SIZE ≤ 2 ^ TARGET_LONG_BITS →
  k * TARGET_PAGE_SIZE < 2 ^ TARGET_LONG_BITS → (k < fuel)%nat →
  check_range_loop gen restore fuel s (tul (a * TARGET_PAGE_SIZE)) (k * TARGET_PAGE_SIZE) flags_ =
    Ok (s, if forallb (check_page s flags_) (seqZ a k) then 0 else -1).
Proof.
  intros Hw. pose proof page_size_pos as HP.
  induction k as [|k IH] in a, fuel |- *; intros Ha Hak Hk Hf; (destruct fuel as [|fuel]; [lia|]);
    cbn [check_range_loop].
  { rewrite Z.mul_0_l. cbn. done. }
  destruct (Z.eqb_spec (S k * TARGET_PAGE_SIZE) 0) as [?|_]; [lia|].
  unfold tul at 1. rewrite wrap_small, page_index_mul by nia.
  rewrite seqZ_cons by lia. cbn [forallb]. unfold check_page at 1.
  replace (Z.pred (S k)) with (Z.of_nat k) by lia.
  destruct (page_find (l1_map s) a) as [p|]; [|done].
  destruct (pflags p .& PAGE_VALID =? 0); [done|]. cbn [negb andb].
  unfold writable in Hw. rewrite Hw.
  assert (∀ P, tul (tul (a * TARGET_PAGE_SIZE) + P) = tul (a * TARGET_PAGE_SIZE + P)) as ->
    by (intros; unfold tul; apply wrap_add_l).
  replace (a * TARGET_PAGE_SIZE + TARGET_PAGE_SIZE) with (Z.succ a * TARGET_PAGE_SIZE) by lia.
  replace (tul (S k * TARGET_PAGE_SIZE - TARGET_PAGE_SIZE)) with (k * TARGET_PAGE_SIZE)
    by (unfold tul; rewrite wrap_small; lia).
  rewrite IH by lia.
  destruct (flags_ .& PAGE_READ =? 0), (pflags p .& PAGE_READ =? 0); done.
Qed.

Lemma long_pages : ∃ m : Z, 0 < m ∧ 2 ^ TARGET_LONG_BITS = m * TARGET_PAGE_SIZE.
Proof.
  pose proof guest_page_bits. pose proof guest_long_bits.
  exists (2 ^ (TARGET_LONG_BITS - TARGET_PAGE_BITS)). rewrite page_size_eq, <- Z.pow_add_r by lia.
  split; [apply Z.pow_pos_nonneg; lia|f_equal; lia].
Qed.

(** Rounding down to a page commutes with the wrap-around. *)
Lemma page_base_tul z c : tul (page_base (tul z) - c) = tul (page_base z - c).
Proof.
  destruct long_pages as (m & Hm & Em). unfold tul, wrap. rewrite Em.
  pose proof page_size_pos as HP. rewrite !page_base_eq.
  assert (z `mod` (m * TARGET_PAGE_SIZE) = z + - (z `div` (m * TARGET_PAGE_SIZE) * m) * TARGET_PAGE_SIZE) as Ez
    by (pose proof (Z_div_mod_eq_full z (m * TARGET_PAGE_SIZE)); lia).
  rewrite Ez, Z_mod_plus_full.
  replace (z + - (z `div` (m * TARGET_PAGE_SIZE) * m) * TARGET_PAGE_SIZE - z `mod` TARGET_PAGE_SIZE - c)
    with (z - z `mod` TARGET_PAGE_SIZE - c + - (z `div` (m * TARGET_PAGE_SIZE)) * (m * TARGET_PAGE_SIZE)) by lia.
  apply Z_mod_plus_full.
Qed.

Lemma page_align_len start end_ :
  tul (TARGET_PAGE_ALIGN (tul end_) - page_base start) =
    tul ((last_page end_ - page_index start) * TARGET_PAGE_SIZE).
Proof.
  unfold TARGET_PAGE_ALIGN. fold (page_base (tul (tul end_ + TARGET_PAGE_SIZE - 1))).
  replace (tul (tul end_ + TARGET_PAGE_SIZE - 1)) with (tul (end_ + TARGET_PAGE_SIZE - 1)).
  - rewrite page_base_tul, !page_base_index. fold (last_page end_). f_equal. lia.
  - unfold tul. rewrite <- !Z.add_sub_assoc. by rewrite wrap_add_l.
Qed.

Lemma range_pages start len :
  0 ≤ start → 0 < len → start + len ≤ 2 ^ TARGET_LONG_BITS →
  len + 2 * TARGET_PAGE_SIZE ≤ 2 ^ TARGET_LONG_BITS →
  let a := page_index start in let b := last_page (start + len) in
  a < b ∧ 0 ≤ a ∧ b * TARGET_PAGE_SIZE ≤ 2 ^ TARGET_LONG_BITS ∧ (b - a) * TARGET_PAGE_SIZE < 2 ^ TARGET_LONG_BITS.
Proof.
  intros Hs Hl He Hl2. cbv zeta. unfold last_page. rewrite !page_index_eq.
  destruct long_pages as (m & Hm & Em). pose proof page_size_pos as HP.
  set (P := TARGET_PAGE_SIZE) in *. rewrite Em in *. clearbody P.
  pose proof (Z_div_mod_eq_full start P). pose proof (Z.mod_pos_bound start P).
  pose proof (Z_div_mod_eq_full (start + len + P - 1) P). pose proof (Z.mod_pos_bound (start + len + P - 1) P).
  set (a := start `div` P) in *. set (b := (start + len + P - 1) `div` P) in *.
  assert (b < m + 1) by (apply (Z.mul_lt_mono_pos_r P); lia).
  split_and!; [apply (Z.mul_lt_mono_pos_r P); lia|apply Z.div_pos; lia|apply Z.mul_le_mono_nonneg_r; lia|lia].
Qed.

(** A check for reading leaves the state and tests every page of the range. *)
Lemma page_check_range_read s start len flags_ :
  writable flags_ = false → 0 ≤ start < 2 ^ L1_MAP_ADDR_SPACE_BITS → 0 < len →
  start + len ≤ 2 ^ TARGET_LONG_BITS → len + 2 * TARGET_PAGE_SIZE ≤ 2 ^ TARGET_LONG_BITS →
  page_check_range gen restore s start len flags_ =
    Ok (s, if forallb (check_page s flags_) (seqZ (page_index start) (last_page (start + len) - page_index start))
           then 0 else -1).
Proof.
  intros Hw Hs Hl He Hl2. pose proof page_size_pos as HP. unfold page_check_range.
  rewrite (proj2 (Z.ltb_lt start _)) by lia.
  assert (∀ b : bool, (if b then true else true) = true) as -> by (by intros []). cbn [rbind assert_].
  rewrite (proj2 (Z.eqb_neq len 0)) by lia.
  replace (tul (start + len - 1)) with (start + len - 1) by (unfold tul; rewrite wrap_small; lia).
  rewrite (proj2 (Z.ltb_ge (start + len - 1) start)) by lia.
  set (a := page_index start). set (b := last_page (start + len)).
  assert (a < b ∧ 0 ≤ a ∧ b * TARGET_PAGE_SIZE ≤ 2 ^ TARGET_LONG_BITS ∧ (b - a) * TARGET_PAGE_SIZE < 2 ^ TARGET_LONG_BITS)
    as (Hab & Ha & Hb & Hk) by (apply range_pages; lia).
  rewrite page_align_len. fold a b. replace (b - a) with (Z.of_nat (Z.to_nat (b - a))) by lia.
  set (k := Z.to_nat (b - a)). replace (tul (k * TARGET_PAGE_SIZE)) with (k * TARGET_PAGE_SIZE)
    by (unfold tul; rewrite wrap_small; lia).
  rewrite Z.div_mul, Nat2Z.id, page_base_index by lia. fold a.
  replace (a * TARGET_PAGE_SIZE) with (tul (a * TARGET_PAGE_SIZE)) by (unfold tul; rewrite wrap_small; nia).
  apply check_range_loop_ok; lia || done.
Qed.

End page.
