(* ===== verification/Trace.v ===== *)
(** * Indirect branches and trace formation

    llvm/optimization.c: the indirect branch target cache (IBTC) and the
    selection of the traces that are handed to the LLVM translator
    ([helper_trace_profile], [helper_trace_predict]).  IB chains are disabled
    in llvm-wrapper.h and not modelled. *)

From stdpp Require Import base gmap list fin_maps.
From S2P Require Import Prelude Chain Config CodePatch Bitmap PageTable TBData TBOps SMC.
Local Open Scope Z_scope.
Local Coercion Z.of_nat : nat >-> Z.

(** llvm/optimization.h *)
Definition IBTC_CACHE_BITS : Z := 16.
Definition IBTC_CACHE_MASK : Z := (1 <<. IBTC_CACHE_BITS) - 1.
Definition PROFILE_THRESHOLD : Z := 50.
Definition PREDICT_THRESHOLD : nat := 16.

Section trace.
  Context `{Guest} `{!PageTable PT}.
  Notation st := (exec_state PT).
  Implicit Types (s : st) (t : tbid) (tb : TranslationBlock) (env : CPUState).

(** ** The indirect branch target cache *)

(** The table is zero-filled. *)
Definition ibtc_lookup env (eip : Z) : jmp_pair :=
  default (mkPair 0 None) (ibtc env !! (eip .& IBTC_CACHE_MASK)).

Definition update_ibtc_table env t : CPUState :=
  env <| ibtc := <[cached_eip env .& IBTC_CACHE_MASK := mkPair (cached_eip env) (Some t)]> (ibtc env) |>.

Definition update_ibtc_entry s (e : nat) t : result st :=
  env <- deref (cpus s !! e) ;;
  let s := if update_ibtc env =? 1 then upd_cpu s e (λ env, update_ibtc_table env t) else s in
  let s := upd_cpu s e (λ env, env <| update_ibtc := 0 |>) in
  tb <- get_tb s t ;;
  if mode tb =? 0 then tb_start_trace_profile s t else Ok s.

Definition invalidate_ibtc_entry s (e : nat) (eip : Z) : st :=
  upd_cpu s e (λ env, env <| ibtc := <[eip .& IBTC_CACHE_MASK := mkPair 0 None]> (ibtc env) |>
                          <| update_ibtc := 0 |>).

(** Called from the translated code with the target of an indirect branch;
    [None] is [ibtc_ret_addr], the exit to the main loop. *)
Definition helper_lookup_ibtc s (e : nat) (eip : Z) : result (st * option Z) :=
  env <- deref (cpus s !! e) ;;
  let miss := upd_cpu s e (λ env, env <| cached_eip := eip |> <| update_ibtc := 1 |>) in
  let hash_entry := ibtc_lookup env eip in
  if eip =? jp_eip hash_entry then
    t <- deref (jp_tb hash_entry) ;;
    next_tb <- get_tb s t ;;
    let '(_, cs_base_, flags_) := guest_regs env in
    if (negb TARGET_I386 || (cs_base next_tb =? cs_base_)) && (flags next_tb =? u64 flags_)
    then Ok (s, Some (opt_ptr next_tb))
    else Ok (miss, None)
  else Ok (miss, None).

(** ** Trace profiling *)

Definition helper_trace_profile s (e : nat) t : result st :=
  tb <- get_tb s t ;;
  (* atomic_inc_return *)
  let ret := sext 32 (exec_count tb + 1) in
  let s := upd_tb s t (λ tb, tb <| exec_count := ret |>) in
  if negb (ret =? PROFILE_THRESHOLD) then Ok s
  else
    let s := s <| host_code := patch_jmp (host_code s) (tb_get_jmp_entry tb) (tb_get_jmp_next tb) |> in
    Ok (upd_cpu s e (λ env, env <| start_trace_prediction := 1 |>)).

(** ** Trace prediction *)

(** The last of the first [cnt] entries that is [t]. *)
Fixpoint find_loop (arr : list tbid) (t : tbid) (cnt : nat) : result (option nat) :=
  match cnt with
  | O => Ok None
  | S i => x <- deref (arr !! i) ;; if bool_decide (t = x) then Ok (Some i) else find_loop arr t i
  end.

(** The calls of [llvm_gen_trace]: blocks and the index of the loop head. *)
Definition trace_calls (arr : list tbid) (count : nat) (loop_index : option nat) : list (list tbid * Z) :=
  match loop_index with
  | None => [(take count arr, -1)]
  | Some O => [(take count arr, 0)]
  | Some i => [(take (count - i) (drop i arr), 0); (take count arr, Z.of_nat i)]
  end.

Definition predict_reset s (e : nat) : st :=
  upd_cpu s e (λ env, env <| start_trace_prediction := 0 |> <| predicted_count := 0%nat |>).

Definition trace_building s (e : nat) (loop_index : option nat) : result (st * list (list tbid * Z)) :=
  env <- deref (cpus s !! e) ;;
  if bool_decide (predicted_count env = 0%nat) then Er EExit
  else Ok (predict_reset s e, trace_calls (predicted_tb env) (predicted_count env) loop_index).

Definition helper_trace_predict s (e : nat) (arg : option tbid) : result (st * list (list tbid * Z)) :=
  match arg with
  | None => Ok (predict_reset s e, [])
  | Some t =>
      env <- deref (cpus s !! e) ;;
      loop_index <- find_loop (predicted_tb env) t (predicted_count env) ;;
      match loop_index with
      | Some i => trace_building s e (Some i)
      | None =>
          _ <- deref (predicted_tb env !! predicted_count env) ;;
          let s := upd_cpu s e (λ env,
            env <| predicted_tb := <[predicted_count env := t]> (predicted_tb env) |>
                <| predicted_count := S (predicted_count env) |>) in
          if bool_decide (S (predicted_count env) = PREDICT_THRESHOLD)
          then trace_building s e None else Ok (s, [])
      end
  end.

(** [trace_formation_init] and [ibtc_init] on a new CPU; the array of
    predicted blocks is what the allocator returns. *)
Definition trace_formation_init env (mem : list tbid) : CPUState :=
  env <| predicted_count := 0%nat |> <| start_trace_prediction := 0 |> <| predicted_tb := mem |>.

Definition ibtc_init env : CPUState :=
  env <| update_ibtc := 0 |> <| cached_eip := 0 |> <| ibtc := ∅ |>.

Definition optimization_init env (mem : list tbid) : CPUState :=
  if cpu_index env =? -1 then env else ibtc_init (trace_formation_init env mem).

Definition optimization_reset s (e : nat) : st := upd_cpu s e ibtc_reset.

End trace.
