(* ===== verification/TraceInv.v ===== *)
(** * Properties of trace formation

    The traces handed to the LLVM translator are well formed, and the profiling
    counter starts prediction exactly once. *)

From stdpp Require Import base gmap list fin_maps.
From S2P Require Import Prelude Chain Config CodePatch Bitmap PageTable TBData TBOps SMC TBInv.
From S2P Require Import TBLists TBCode TBInval TBJump TBLink TBGen TBFind SMCRange Trace.
Local Open Scope Z_scope.
Local Coercion Z.of_nat : nat >-> Z.

Section trace_inv.
  Context `{Guest} `{!PageTable PT}.
  Notation st := (exec_state PT).
  Implicit Types (s : st) (t u v : tbid) (tb : TranslationBlock) (env : CPUState) (live : gset tbid).

(** ** Trace prediction *)

Definition predict_inv env : Prop :=
  length (predicted_tb env) = PREDICT_THRESHOLD ∧ (predicted_count env < PREDICT_THRESHOLD)%nat ∧
  NoDup (take (predicted_count env) (predicted_tb env)).

(** A trace: distinct blocks, and the index of the block it loops back to. *)
Definition trace_ok (c : list tbid * Z) : Prop :=
  c.1 ≠ [] ∧ NoDup c.1 ∧ (length c.1 ≤ PREDICT_THRESHOLD)%nat ∧ -1 ≤ c.2 < length c.1.

Lemma find_loop_ok arr t cnt :
  (cnt ≤ length arr)%nat →
  ∃ o, find_loop arr t cnt = Ok o ∧
    match o with
    | Some i => (i < cnt)%nat ∧ arr !! i = Some t
    | None => t ∉ take cnt arr
    end.
Proof.
  induction cnt as [|i IH]; intros Hl; cbn [find_loop].
  { exists None. split; [done|]. cbn. set_solver. }
  destruct (lookup_lt_is_Some_2 arr i) as [x Hx]; [lia|]. rewrite Hx. cbn [rbind deref].
  case_bool_decide as E; [subst; exists (Some i); eauto with lia|].
  destruct IH as (o & -> & Ho); [lia|]. exists o. split; [done|]. destruct o as [j|]; [naive_solver lia|].
  rewrite (take_S_r _ _ x) by done. set_solver.
Qed.

Lemma NoDup_drop {A} (l : list A) i : NoDup l → NoDup (drop i l).
Proof. intros Hl. rewrite <- (take_drop i l) in Hl. by apply NoDup_app in Hl as (_ & _ & ?). Qed.

Lemma trace_calls_ok arr count o t :
  length arr = PREDICT_THRESHOLD → (0 < count ≤ PREDICT_THRESHOLD)%nat → NoDup (take count arr) →
  match o with Some i => (i < count)%nat ∧ arr !! i = Some t | None => True end →
  Forall trace_ok (trace_calls arr count o) ∧
  ∀ l i, (l, i) ∈ trace_calls arr count o → 0 ≤ i → l !! Z.to_nat i = Some t.
Proof.
  intros El Hc Hnd Ho.
  assert (∀ z, -1 ≤ z < count → trace_ok (take count arr, z)) as Hfull.
  { intros z Hz. unfold trace_ok. cbn. rewrite length_take. split_and!; try done; try lia.
    intros E%(f_equal length). rewrite length_take in E. cbn in E. lia. }
  destruct o as [[|i]|]; cbn [trace_calls].
  - split; [apply Forall_singleton, Hfull; lia|]. intros l i [= -> ->]%list_elem_of_singleton _.
    cbn. rewrite lookup_take_lt by lia. by apply Ho.
  - destruct Ho as [Hi Ht]. split.
    + apply Forall_cons. split; [|apply Forall_singleton, Hfull; lia].
      unfold trace_ok. cbn [fst snd]. split_and!; [| | |lia|].
      * intros E%(f_equal length). rewrite length_take, length_drop in E. cbn in E. lia.
      * rewrite <- skipn_firstn_comm. by apply NoDup_drop.
      * rewrite length_take. lia.
      * rewrite length_take, length_drop. lia.
    + intros l j [[= -> ->]|[= -> ->]%list_elem_of_singleton]%elem_of_cons _.
      * cbn. rewrite lookup_take_lt, lookup_drop by lia. by rewrite Nat.add_0_r.
      * rewrite Nat2Z.id, lookup_take_lt by lia. done.
  - split; [apply Forall_singleton, Hfull; lia|]. intros l i [= -> ->]%list_elem_of_singleton. lia.
Qed.

(** The states that differ from [s] in CPU [e] only. *)
Definition cpu_frame s s' (e : nat) : Prop :=
  s' = s <| cpus := cpus s' |> ∧ ∀ e', e' ≠ e → cpus s' !! e' = cpus s !! e'.

Lemma cpu_frame_upd s s' e f : cpu_frame s s' e → cpu_frame s (upd_cpu s' e f) e.
Proof.
  intros [Er Ho]. split; [by rewrite Er|]. intros e' Hne. cbn. rewrite list_lookup_alter_ne by done. by apply Ho.
Qed.

Lemma cpu_frame_refl s e : cpu_frame s s e.
Proof. split; [by destruct s|done]. Qed.

Lemma predict_reset_ok s s0 e env0 :
  cpus s0 !! e = Some env0 → cpu_frame s s0 e → length (predicted_tb env0) = PREDICT_THRESHOLD →
  cpu_frame s (predict_reset s0 e) e ∧
  ∃ env', cpus (predict_reset s0 e) !! e = Some env' ∧ predict_inv env' ∧
    start_trace_prediction env' = 0 ∧ predicted_count env' = 0%nat.
Proof.
  intros He0 Hf E0. split; [by apply cpu_frame_upd|].
  cbn. rewrite list_lookup_alter_eq, He0. eexists. split; [done|].
  split_and!; [|done|done]. unfold predict_inv. cbn. split_and!; [done|unfold PREDICT_THRESHOLD; lia|constructor].
Qed.

(** What one call does: the history stays free of repetitions, and when the
    prediction ends the traces are well formed and loop back to the block that
    closed the cycle. *)
Lemma helper_trace_predict_ok s e env arg :
  cpus s !! e = Some env → predict_inv env →
  ∃ s' calls env', helper_trace_predict s e arg = Ok (s', calls) ∧
    cpu_frame s s' e ∧ cpus s' !! e = Some env' ∧ predict_inv env' ∧ Forall trace_ok calls ∧
    (∀ l i, (l, i) ∈ calls → 0 ≤ i → l !! Z.to_nat i = arg) ∧
    (calls ≠ [] ∨ arg = None → start_trace_prediction env' = 0 ∧ predicted_count env' = 0%nat).
Proof.
  intros He (El & Hc & Hnd).
  unfold helper_trace_predict. destruct arg as [t|].
  2: { destruct (predict_reset_ok s s e env) as (? & env' & ? & ? & ? & ?); [done|apply cpu_frame_refl|done|].
       exists (predict_reset s e), [], env'. split_and!; try done. intros l i Hl. by apply elem_of_nil in Hl. }
  rewrite He. cbn [rbind deref].
  destruct (find_loop_ok (predicted_tb env) t (predicted_count env)) as (o & -> & Ho); [lia|].
  cbn [rbind]. destruct o as [i|].
  - unfold trace_building. rewrite He. cbn [rbind deref]. rewrite bool_decide_eq_false_2 by lia.
    destruct (predict_reset_ok s s e env) as (? & env' & ? & ? & ? & ?); [done|apply cpu_frame_refl|done|].
    destruct (trace_calls_ok (predicted_tb env) (predicted_count env) (Some i) t) as [? ?]; [done|lia|done|done|].
    eexists _, _, env'. split; [done|]. by split_and!.
  - destruct (lookup_lt_is_Some_2 (predicted_tb env) (predicted_count env)) as [x Hx]; [lia|].
    rewrite Hx. cbn [rbind deref]. set (s1 := upd_cpu s e _).
    set (env1 := env <| predicted_tb := <[predicted_count env := t]> (predicted_tb env) |>
                     <| predicted_count := S (predicted_count env) |>).
    assert (cpus s1 !! e = Some env1) as He1 by (cbn; by rewrite list_lookup_alter_eq, He).
    assert (cpu_frame s s1 e) as Hf1 by apply cpu_frame_upd, cpu_frame_refl.
    assert (NoDup (take (predicted_count env1) (predicted_tb env1))) as Hnd1.
    { cbn. rewrite (take_S_r _ _ t) by (apply list_lookup_insert_eq; lia).
      rewrite take_insert_ge by lia. apply NoDup_app. split_and!; [done| |apply NoDup_singleton].
      intros y Hy ->%list_elem_of_singleton. done. }
    assert (length (predicted_tb env1) = PREDICT_THRESHOLD) as El1 by (cbn; by rewrite length_insert).
    case_bool_decide as Ec.
    + unfold trace_building. rewrite He1. cbn [rbind deref]. rewrite bool_decide_eq_false_2 by done.
      destruct (predict_reset_ok s s1 e env1) as (? & env' & ? & ? & ? & ?); [done..|].
      destruct (trace_calls_ok (predicted_tb env1) (predicted_count env1) None t) as [? ?]; [done|cbn; lia|done|done|].
      eexists _, _, env'. split; [done|]. by split_and!.
    + exists s1, [], env1. split_and!; try done.
      * unfold predict_inv. split_and!; [done|cbn; lia|done].
      * intros l i Hl. by apply elem_of_nil in Hl.
      * naive_solver.
Qed.

(** ** Trace profiling *)

Lemma helper_trace_profile_ok room s live e t tb :
  mgr room s live → t ∈ blocks s → tbs s !! t = Some tb → 0 ≤ exec_count tb < 2 ^ 31 - 1 →
  ∃ s' tb', helper_trace_profile s e t = Ok s' ∧ mgr room s' live ∧
    tbs s' !! t = Some tb' ∧ exec_count tb' = exec_count tb + 1 ∧
    tc_ptr tb' = tc_ptr tb ∧ patch_next tb' = patch_next tb ∧ blocks s' = blocks s ∧
    (if exec_count tb + 1 =? PROFILE_THRESHOLD
     then s' = upd_cpu (s <| tbs := tbs s' |> <| host_code :=
                 patch_jmp (host_code s) (tb_get_jmp_entry tb) (tb_get_jmp_next tb) |>) e
                 (λ env, env <| start_trace_prediction := 1 |>)
     else s' = s <| tbs := tbs s' |>).
Proof.
  intros Hm Ht Htb Hc. unfold helper_trace_profile, get_tb. rewrite Htb. cbn [rbind deref].
  rewrite sext_small by lia. set (s1 := upd_tb s t _).
  set (tb1 := tb <| exec_count := exec_count tb + 1 |>).
  assert (tbs s1 !! t = Some tb1) as Htb1.
  { unfold s1. by rewrite lookup_upd_tb, decide_True, Htb by done. }
  assert (jframe s s1) as Hf1.
  { split; [intros; by apply view_upd_tb|intros; by apply bind_upd_tb|intros; by apply bind_upd_tb|by destruct s]. }
  assert (∀ x, jnext s1 x = jnext s x) as Hn1 by (intros; by apply bind_upd_tb).
  destruct (exec_count tb + 1 =? PROFILE_THRESHOLD); cbn [negb].
  - eexists _, tb1. split; [done|]. split_and!; try done. apply mgr_upd_cpu; [done|].
    apply (jframe_mgr room s); [done|etrans; [apply Hf1|apply jframe_code]|done|].
    intros u tbu n i Hu Hi. cbn. by apply (patch_point_code s _ t tb u tbu n); [apply Hm|..].
  - exists s1, tb1. split; [done|]. split_and!; try done. by apply (jframe_mgr room s).
Qed.

(** [k] executions of the profiling stub of a block. *)
Fixpoint profile_n (k : nat) s (e : nat) t : result st :=
  match k with O => Ok s | S k' => s <- profile_n k' s e t ;; helper_trace_profile s e t end.

Lemma profile_n_ok room s live e env t tb (k : nat) :
  mgr room s live → t ∈ blocks s → tbs s !! t = Some tb → exec_count tb = 0 →
  cpus s !! e = Some env → start_trace_prediction env = 0 → k < 2 ^ 31 →
  ∃ s' tb' env', profile_n k s e t = Ok s' ∧ mgr room s' live ∧ tbs s' !! t = Some tb' ∧
    exec_count tb' = k ∧ cpus s' !! e = Some env' ∧ blocks s' = blocks s ∧
    start_trace_prediction env' = b2z (PROFILE_THRESHOLD <=? k).
Proof.
  intros Hm Ht Htb E0 He Es. induction k as [|k IH]; intros Hk; cbn [profile_n].
  { exists s, tb, env. split_and!; try done. }
  destruct IH as (s1 & tb1 & env1 & -> & Hm1 & Htb1 & Ec & He1 & Eb1 & Es1); [lia|]. cbn [rbind].
  destruct (helper_trace_profile_ok room s1 live e t tb1) as (s2 & tb2 & -> & Hm2 & Htb2 & Ec2 & _ & _ & Eb2 & Hcase);
    [done|by rewrite Eb1|done|lia|].
  assert (∃ env2, cpus s2 !! e = Some env2 ∧ start_trace_prediction env2 = b2z (PROFILE_THRESHOLD <=? S k))
    as (env2 & He2 & Es2).
  { revert Hcase. destruct (Z.eqb_spec (exec_count tb1 + 1) PROFILE_THRESHOLD) as [E|E]; intros ->; cbn.
    - rewrite list_lookup_alter_eq, He1. eexists. split; [done|]. cbn.
      rewrite (proj2 (Z.leb_le _ _)); [done|lia].
    - exists env1. split; [done|]. rewrite Es1. f_equal. apply eq_true_iff_eq. rewrite !Z.leb_le. lia. }
  exists s2, tb2, env2. split_and!; try done; [lia|congruence].
Qed.

End trace_inv.
