(* ===== verification/CpuExec.v ===== *)
(** * The execution loop and the debugger's breakpoints

    The body of the inner loop of [cpu_exec] (cpu-exec.c) up to the jump into
    the code cache, [cpu_exec_nocache], and the breakpoints and single step of
    exec.c. *)

From stdpp Require Import base gmap list fin_maps.
From S2P Require Import Prelude Chain Config CodePatch Bitmap PageTable TBData TBOps SMC Trace.
Local Open Scope Z_scope.
Local Coercion Z.of_nat : nat >-> Z.

(** cpu-all.h *)
Definition BP_GDB : Z := 0x10.
Definition BP_CPU : Z := 0x20.

(** errno *)
Definition ENOENT : Z := 2.

(** The value [tcg_qemu_tb_exec] returns, decoded: nothing to chain, the exit
    of a trace (low bits 3, a key of the chain points), or jump [n] of a
    block. *)
Inductive next_tb := NoTB | TraceExit (key : Z) | FromTB (u : tbid) (n : slot).

Section exec.
  Context `{Guest} `{!PageTable PT}.
  Notation st := (exec_state PT).
  Implicit Types (s : st) (t u : tbid) (tb : TranslationBlock) (env : CPUState) (n : slot).
  Context (gen : Z → gen_info) (restore : TranslationBlock → Z → Z * Z * Z → Z * Z * Z).

(** ** The execution loop *)

(** llvm.cpp; [chain_point] is the vector of the LLVM environment. *)
Definition llvm_resolve_address (chain_point : list Z) (val : Z) : result Z :=
  if val =? 0 then Ok 0 else deref (chain_point !! Z.to_nat (val >>. 2)).

(** See if we can patch the calling block. *)
Definition exec_chain (chain_point : list Z) s (next : next_tb) t : result st :=
  match next with
  | NoTB => Ok s
  | TraceExit key =>
      tb <- get_tb s t ;;
      s <- (if mode tb =? 0 then tb_start_trace_profile s t else Ok s) ;;
      addr <- llvm_resolve_address chain_point key ;;
      if addr =? 0 then Ok s
      else tb <- get_tb s t ;; Ok (s <| host_code := patch_jmp (host_code s) addr (opt_ptr tb) |>)
  | FromTB u n => tb_add_jump s u n t
  end.

(** One turn of the loop: the state in which the code of the block returned is
    entered, or not if an exit is requested. *)
Definition exec_lookup (chain_point : list Z) s (e : nat) (next : next_tb)
    : result (st * tbid * bool) :=
  '(s, t) <- tb_find_fast gen s e ;;
  let '(s, next) := if tb_invalidated_flag s =? 0 then (s, next)
                    else (s <| tb_invalidated_flag := 0 |>, NoTB) in
  s <- exec_chain chain_point s next t ;;
  let s := upd_cpu s e (λ env, env <| current_tb := Some t |>) in
  env <- deref (cpus s !! e) ;;
  if exit_request env =? 0 then
    s <- (if update_ibtc env =? 0 then Ok s else update_ibtc_entry s e t) ;;
    Ok (s, t, true)
  else Ok (s, t, false).

(** After the code has run. *)
Definition exec_leave s (e : nat) : st := upd_cpu s e (λ env, env <| current_tb := None |>).

(** [cpu_exec_nocache], around the execution of the block. *)
Definition exec_nocache_enter s (e : nat) (max_cycles : Z) (orig_tb : TranslationBlock)
    : result (st * tbid) :=
  let max_cycles := if CF_COUNT_MASK <? max_cycles then CF_COUNT_MASK else max_cycles in
  '(s, t) <- tb_gen_code gen s e (pc orig_tb) (cs_base orig_tb) (flags orig_tb) max_cycles ;;
  Ok (upd_cpu s e (λ env, env <| current_tb := Some t |>), t).

Definition exec_nocache_leave s (e : nat) t : result st :=
  let s := exec_leave s e in
  s <- tb_phys_invalidate s t no_page ;;
  tb_free s t.

(** ** Breakpoints *)

Definition breakpoint_invalidate s (pc_ : Z) : result st :=
  '(s, _) <- tb_invalidate_phys_page_range gen restore s pc_ (tul (pc_ + 1)) false ;; Ok s.

Definition cpu_breakpoint_insert s (e : nat) (pc_ flags_ : Z) : result (st * Z) :=
  let bp := mkBP pc_ flags_ in
  (* keep all GDB-injected breakpoints in front *)
  let s := upd_cpu s e (λ env, env <| breakpoints :=
             if flags_ .& BP_GDB =? 0 then breakpoints env ++ [bp] else bp :: breakpoints env |>) in
  s <- breakpoint_invalidate s pc_ ;;
  Ok (s, 0).

(** Remove the [k]-th breakpoint. *)
Definition cpu_breakpoint_remove_by_ref s (e : nat) (k : nat) : result st :=
  env <- deref (cpus s !! e) ;;
  bp <- deref (breakpoints env !! k) ;;
  let s := upd_cpu s e (λ env, env <| breakpoints := delete k (breakpoints env) |>) in
  breakpoint_invalidate s (bp_pc bp).

Definition cpu_breakpoint_remove s (e : nat) (pc_ flags_ : Z) : result (st * Z) :=
  env <- deref (cpus s !! e) ;;
  match list_find (λ bp, bp_pc bp = pc_ ∧ bp_flags bp = flags_) (breakpoints env) with
  | Some (k, _) => s <- cpu_breakpoint_remove_by_ref s e k ;; Ok (s, 0)
  | None => Ok (s, - ENOENT)
  end.

(** The loop visits the [len] entries from position [k] on. *)
Fixpoint breakpoint_remove_loop (len : nat) s (e : nat) (k : nat) (mask : Z) : result st :=
  match len with
  | O => Ok s
  | S len' =>
      env <- deref (cpus s !! e) ;;
      bp <- deref (breakpoints env !! k) ;;
      if bp_flags bp .& mask =? 0 then breakpoint_remove_loop len' s e (S k) mask
      else s <- cpu_breakpoint_remove_by_ref s e k ;; breakpoint_remove_loop len' s e k mask
  end.

Definition cpu_breakpoint_remove_all s (e : nat) (mask : Z) : result st :=
  env <- deref (cpus s !! e) ;;
  breakpoint_remove_loop (length (breakpoints env)) s e 0 mask.

Definition cpu_single_step s (e : nat) (enabled : Z) : result st :=
  env <- deref (cpus s !! e) ;;
  if singlestep_enabled env =? enabled then Ok s
  else tb_flush (upd_cpu s e (λ env, env <| singlestep_enabled := enabled |>)) e.

End exec.
