(* ===== verification/ExecInv.v ===== *)
(** * Properties of the execution loop and of the breakpoints

    A turn of the loop of [cpu_exec] enters a live block for the state of the
    CPU, and the jump it came from is chained to it; a breakpoint leaves no
    block that contains its address. *)

From stdpp Require Import base gmap list fin_maps.
From S2P Require Import Prelude Chain Config CodePatch Bitmap PageTable TBData TBOps SMC TBInv.
From S2P Require Import TBLists TBCode TBInval TBJump TBLink TBGen TBFind SMCRange SMCPage Trace.
From S2P Require Import TraceInv CpuExec.
Local Open Scope Z_scope.
Local Coercion Z.of_nat : nat >-> Z.

Section exec_inv.
  Context `{Guest} `{!PageTable PT}.
  Notation st := (exec_state PT).
  Implicit Types (s : st) (t u v : tbid) (tb : TranslationBlock) (env : CPUState) (n m : slot)
    (live : gset tbid).
  Context (gen : Z → gen_info) (restore : TranslationBlock → Z → Z * Z * Z → Z * Z * Z).

(** ** Chaining *)

(** What is known of the exit of the previous block: the block was not flushed
    since (it may have been invalidated) and has the jump, or the patch point
    lies in the cache of optimized code. *)
Definition next_ok (chain_point : list Z) s (next : next_tb) : Prop :=
  match next with
  | NoTB => True
  | TraceExit key => ∃ a, llvm_resolve_address chain_point key = Ok a ∧
      (a = 0 ∨ code_gen_buffer s + code_gen_buffer_size s ≤ a)
  | FromTB u n => (u < nb_tbs s)%nat ∧ ∀ tb, tbs s !! u = Some tb → has_jump tb n
  end.

Lemma add_jump_mgr room s live u n v :
  mgr room s live → u ∈ blocks s → v ∈ live → (∀ tb, tbs s !! u = Some tb → has_jump tb n) →
  ∃ s', tb_add_jump s u n v = Ok s' ∧ mgr room s' live ∧ jframe s s' ∧
    (jnext s (u, Lnext n) = None → chained s' (blocks s) u n v).
Proof.
  intros [Hinv Hprot Hhost Hly Hc Hsz] Hu Hv Hj.
  destruct (tb_add_jump_ok s live (blocks s) _ u n v Hinv Hu Hv) as (s' & -> & Hf & Hinv' & Hch & Hco).
  assert (blocks s' = blocks s) as Eb by (by apply blocks_nb, jframe_nb).
  destruct (Hco Hly Hc Hj) as [Hly' Hc']. exists s'. split_and!; [done| |done|done].
  split; rewrite ?Eb; [done|..|done|done|].
  - intros i Hi. unfold page_head. rewrite (jframe_l1 s s') by done. by apply Hprot.
  - unfold host_ok. by rewrite (jf_rest _ _ Hf).
  - destruct Hsz. assert (length (tbs s') = length (tbs s)) as El.
    { apply static_length. intros. apply Hf. }
    split; rewrite ?El; by rewrite (jf_rest _ _ Hf).
Qed.

(** A patch beyond the cache of blocks. *)
Lemma patch_beyond_mgr room s live a target :
  mgr room s live → code_gen_buffer s + code_gen_buffer_size s ≤ a →
  mgr room (s <| host_code := patch_jmp (host_code s) a target |>) live.
Proof.
  intros Hm Ha. apply (jframe_mgr room s); [done|apply jframe_code|done|].
  intros u tb n i (Hu%elem_of_blocks & Htb & Hn) Hi. unfold patch_jmp. cbn. apply set_jmp_target1_frame.
  pose proof (m_layout _ _ _ _ Hm) as Hly.
  destruct (ly_jump s Hly u tb n Hu Htb Hn) as (_ & H2 & _).
  pose proof (block_start_range s (S u) Hly). lia.
Qed.

Lemma jframe_env s s' : jframe s s' → env_frame s s'.
Proof.
  intros Hf. apply env_frame_cpus; [| |by apply jframe_cpus|..]; by rewrite (jf_rest _ _ Hf).
Qed.

Lemma exec_chain_ok room cp s live next t :
  mgr room s live → t ∈ live → next_ok cp s next →
  ∃ s', exec_chain cp s next t = Ok s' ∧ mgr room s' live ∧ env_frame s s' ∧
    (∀ u, static s' u = static s u) ∧ blocks s' = blocks s ∧
    tb_invalidated_flag s' = tb_invalidated_flag s ∧
    match next with
    | FromTB u n => jnext s (u, Lnext n) = None → chained s' (blocks s) u n t
    | _ => ∀ x, jnext s' x = jnext s x
    end.
Proof.
  intros Hm Ht Hn. destruct next as [|key|u n]; cbn [exec_chain].
  - exists s. by split_and!.
  - destruct Hn as (a & Ea & Ha).
    destruct (inv_live _ _ _ _ (m_inv _ _ _ _ Hm) t Ht) as (tb & Htb & _). unfold get_tb at 1. rewrite Htb.
    cbn [rbind deref].
    assert (∃ s1, (if mode tb =? 0 then tb_start_trace_profile s t else Ok s) = Ok s1 ∧ mgr room s1 live ∧
      env_frame s s1 ∧ (∀ u, static s1 u = static s u) ∧ blocks s1 = blocks s ∧
      tb_invalidated_flag s1 = tb_invalidated_flag s ∧ ∀ x, jnext s1 x = jnext s x)
      as (s1 & -> & Hm1 & Hf1 & Hst1 & Hb1 & Efl & Hj1).
    { case_bool; [|by exists s].
      destruct (tb_start_trace_profile_ok room s live t Hm) as (s1 & Hs1 & Hm1 & Hst & Hf & ? & _ & ? & ?);
        [by apply (inv_jset _ _ _ _ (m_inv _ _ _ _ Hm))|]. exists s1. by split_and!. }
    cbn [rbind]. rewrite Ea. cbn [rbind]. case_bool; bprop; [by exists s1|].
    destruct (inv_live _ _ _ _ (m_inv _ _ _ _ Hm1) t Ht) as (tb1 & Htb1 & _). unfold get_tb. rewrite Htb1.
    cbn [rbind deref]. eexists. split; [done|]. split_and!; [|by destruct Hf1|done..].
    apply patch_beyond_mgr; [done|]. destruct (ef_buf _ _ Hf1) as [-> ->]. by destruct Ha.
  - destruct Hn as [Hu Hj]. destruct (add_jump_mgr room s live u n t) as (s' & -> & Hm' & Hf & Hch);
      [done|by apply elem_of_blocks|done..|].
    exists s'. split_and!; [done..|by apply jframe_env|intros; apply Hf|by apply blocks_nb, jframe_nb
      |by rewrite (jf_rest _ _ Hf)|done].
Qed.

Lemma update_ibtc_entry_ok room s live e env t :
  mgr room s live → cpus s !! e = Some env → t ∈ live →
  ∃ s', update_ibtc_entry s e t = Ok s' ∧ mgr room s' live ∧ env_frame s s' ∧
    (∀ u, static s' u = static s u) ∧ blocks s' = blocks s ∧
    tb_invalidated_flag s' = tb_invalidated_flag s ∧ ∀ x, jnext s' x = jnext s x.
Proof.
  intros Hm He Ht. unfold update_ibtc_entry. rewrite He. cbn [rbind deref].
  set (s1 := upd_cpu (if update_ibtc env =? 1 then _ else s) e _).
  assert (mgr room s1 live ∧ env_frame s s1 ∧ tbs s1 = tbs s ∧ blocks s1 = blocks s ∧
    tb_invalidated_flag s1 = tb_invalidated_flag s) as (Hm1 & Hf1 & Et & Eb & Efl).
  { unfold s1. case_bool; (split_and!; [| |done..]); repeat apply mgr_upd_cpu; try done;
      (split; [done..| |]); intros e'; cbn; rewrite ?list_lookup_alter; repeat case_decide; subst;
      try done; by destruct (cpus s !! _). }
  clearbody s1. unfold get_tb. rewrite Et.
  destruct (inv_live _ _ _ _ (m_inv _ _ _ _ Hm) t Ht) as (tb & Htb & _). rewrite Htb. cbn [rbind deref].
  assert (∀ u, static s1 u = static s u) as Hst1 by (intros; unfold static; by rewrite Et).
  assert (∀ x, jnext s1 x = jnext s x) as Hj1 by (intros; unfold jnext; by rewrite Et).
  case_match; [|by exists s1].
  destruct (tb_start_trace_profile_ok room s1 live t Hm1) as (s2 & -> & Hm2 & Hst2 & Hf2 & Efl2 & _ & Eb2 & Hj2).
  { by apply (inv_jset _ _ _ _ (m_inv _ _ _ _ Hm1)). }
  exists s2. split_and!; [done..|by etrans|intros; by rewrite Hst2|congruence|congruence|].
  intros x. by rewrite Hj2.
Qed.

(** ** A turn of the loop *)

(** The block that is entered and the state in which it is; [s1] is the state
    after the lookup. *)
Record lookup_post room s s1 s' live' (e : nat) (next : next_tb) t (pc_ cs_base_ flags_ : Z) : Prop := {
  lk_mgr : mgr room s' live';
  lk_live : t ∈ live';
  lk_match : matches s' t pc_ cs_base_ flags_;
  lk_single : cpu_single_env s' = cpu_single_env s;
  lk_current : current_tb <$> cpus s' !! e = Some (Some t);
  lk_other e' : e' ≠ e → current_tb <$> cpus s' !! e' = current_tb <$> cpus s !! e';
  lk_regs e' : guest_regs <$> cpus s' !! e' = guest_regs <$> cpus s !! e';
  lk_room : must_flush s = false → blocks s ⊆ blocks s';
  lk_flag : tb_invalidated_flag s' = 0;
  lk_chain u n : next = FromTB u n → tb_invalidated_flag s1 = 0 →
    u ∈ blocks s' ∧ (jnext s1 (u, Lnext n) = None → chained s' (blocks s') u n t);
  lk_keep x : tb_invalidated_flag s1 ≠ 0 → jnext s' x = jnext s1 x
}.

Lemma next_ok_kept cp s s' next :
  next_ok cp s next → blocks s ⊆ blocks s' → (∀ u, u ∈ blocks s → static s' u = static s u) →
  code_gen_buffer s' + code_gen_buffer_size s' = code_gen_buffer s + code_gen_buffer_size s →
  next_ok cp s' next.
Proof.
  intros Hn Hl Hst Eb. destruct next as [|key|u n]; [done|..].
  - destruct Hn as (a & ? & ?). exists a. by rewrite Eb.
  - destruct Hn as [Hu%elem_of_blocks Hj]. split; [by apply elem_of_blocks, Hl|]. intros tb' Htb'.
    destruct (static_some s' s u tb' (Hst u Hu) Htb') as (tb & Htb & Ee).
    rewrite <- (erase_view (λ tb, has_jump tb n) _ _ Ee) by done. eauto.
Qed.

Lemma flag_mgr room s live f : mgr room s live → mgr room (s <| tb_invalidated_flag := f |>) live.
Proof.
  intros [[? ? ? Hjs ? ?] ? ? ? Hc Hz].
  split; [split; try done; split; apply Hjs|done|done|by apply (layout_ext s)|split; apply Hc|split; apply Hz].
Qed.

(** The end of the turn, from the lookup on. *)
Lemma exec_enter_ok room cp s s1 live' e env next t pc_ cs_base_ flags_ :
  cpus s !! e = Some env → mgr room s1 live' → t ∈ live' → matches s1 t pc_ cs_base_ flags_ → env_frame s s1 →
  (must_flush s = false → blocks s ⊆ blocks s1) → (tb_invalidated_flag s1 = 0 → next_ok cp s1 next) →
  ∃ s' run,
    (let '(s, next) := if tb_invalidated_flag s1 =? 0 then (s1, next)
                       else (s1 <| tb_invalidated_flag := 0 |>, NoTB) in
     s <- exec_chain cp s next t ;;
     let s := upd_cpu s e (λ env, env <| current_tb := Some t |>) in
     env <- deref (cpus s !! e) ;;
     if exit_request env =? 0 then
       s <- (if update_ibtc env =? 0 then Ok s else update_ibtc_entry s e t) ;;
       Ok (s, t, true)
     else Ok (s, t, false)) = Ok (s', t, run) ∧
    lookup_post room s s1 s' live' e next t pc_ cs_base_ flags_.
Proof.
  intros He Hm1 Ht Hmt Hef Hroom Hn. set (r := if tb_invalidated_flag s1 =? 0 then (s1, next) else _).
  assert (mgr room r.1 live' ∧ env_frame s r.1 ∧ matches r.1 t pc_ cs_base_ flags_ ∧ next_ok cp r.1 r.2 ∧
    blocks r.1 = blocks s1 ∧ tb_invalidated_flag r.1 = 0 ∧ (∀ x, jnext r.1 x = jnext s1 x) ∧
    r.2 = if tb_invalidated_flag s1 =? 0 then next else NoTB) as (Hm2 & Hf2 & Hmt2 & Hn2 & Eb2 & Efl2 & Hj2 & Er).
  { unfold r. case_bool; bprop; cbn [fst snd]; split_and!; auto.
    - by apply flag_mgr.
    - by destruct Hef.
    - done. }
  rewrite (surjective_pairing r). clearbody r. destruct r as [s2 next2]. cbn [fst snd] in *.
  destruct (exec_chain_ok room cp s2 live' next2 t) as (s3 & -> & Hm3 & Hf3 & Hst3 & Eb3 & Efl3 & Hch); [done..|].
  cbn [rbind]. set (s4 := upd_cpu s3 e _).
  assert (env_frame s s3) as Hf03 by (by etrans).
  assert (is_Some (cpus s3 !! e)) as [env3 He3].
  { pose proof (ef_run _ _ Hf03 e) as E. rewrite He in E. destruct (cpus s3 !! e); [eauto|done]. }
  assert (cpus s4 !! e = Some (env3 <| current_tb := Some t |>)) as He4 by (cbn; by rewrite list_lookup_alter_eq, He3).
  assert (blocks s4 = blocks s1) as Eb4 by (change (blocks s3 = blocks s1); congruence).
  assert (lookup_post room s s1 s4 live' e next t pc_ cs_base_ flags_) as Hpost.
  { split; [by apply mgr_upd_cpu|done| |apply (ef_single _ _ Hf03)| | | |by rewrite Eb4|by rewrite <- Efl2, <- Efl3| |].
    - by apply (matches_static s2 s4); [rewrite <- Hst3|].
    - by rewrite He4.
    - intros e' Hne. cbn. rewrite list_lookup_alter_ne by done. apply (ef_run _ _ Hf03).
    - intros e'. rewrite <- (ef_regs _ _ Hf03). cbn. rewrite list_lookup_alter.
      case_decide; subst; by destruct (cpus s3 !! _).
    - intros u n -> E0. rewrite E0 in Er. cbn in Er. subst next2. rewrite Eb4. split.
      + apply elem_of_blocks. destruct (Hn E0). lia.
      + rewrite <- Hj2, <- Eb2. exact Hch.
    - intros x E0. rewrite <- Hj2. apply Z.eqb_neq in E0. rewrite E0 in Er. subst next2. apply Hch. }
  rewrite He4. cbn [rbind deref]. case_bool; [|by eexists _, false].
  case_bool; [by eexists _, true|].
  destruct (update_ibtc_entry_ok room s4 live' e _ t (lk_mgr _ _ _ _ _ _ _ _ _ _ _ Hpost) He4 Ht)
    as (s5 & -> & Hm5 & Hf5 & Hst5 & Eb5 & Efl5 & Hj5). cbn [rbind]. exists s5, true. split; [done|].
  destruct Hpost as [P1 P2 P3 P7 P4 P5 P6 P8 P9 P10 P11].
  split; [done|done| |by rewrite (ef_single _ _ Hf5)| | | |by rewrite Eb5|congruence| |].
  - by apply (matches_static s4 s5).
  - by rewrite (ef_run _ _ Hf5).
  - intros e' Hne. rewrite (ef_run _ _ Hf5). by apply P5.
  - intros e'. rewrite (ef_regs _ _ Hf5). by apply P6.
  - intros u n Eu E0. rewrite Eb5. destruct (P10 u n Eu E0) as [? Hc]. split; [done|]. intros Hf.
    apply (jnext_chained s4); [done|auto].
  - intros x E0. rewrite Hj5. auto.
Qed.

Lemma exec_lookup_ok room cp s live e env next pc_ cs_base_ flags_ :
  mgr room s live → cpus s !! e = Some env → guest_regs env = (pc_, cs_base_, flags_) →
  gen_spec room gen s pc_ → next_ok cp s next →
  ∃ s1 s' live' t run, tb_find_fast gen s e = Ok (s1, t) ∧ exec_lookup gen cp s e next = Ok (s', t, run) ∧
    lookup_post room s s1 s' live' e next t pc_ cs_base_ flags_.
Proof.
  intros Hm He Hr Hg Hn. unfold exec_lookup.
  destruct (tb_find_fast_ok room gen s live e env pc_ cs_base_ flags_) as (s1 & live' & t & -> & Hf); [done..|].
  cbn [rbind]. destruct Hf as [Hm1 Ht Hmt Hef Hkeep Hroom _ _].
  destruct (exec_enter_ok room cp s s1 live' e env next t pc_ cs_base_ flags_) as (s' & run & ? & ?); try done.
  - intros E0. destruct (Hkeep E0) as (_ & ? & ?). eapply next_ok_kept; [done..|].
    by destruct (ef_buf _ _ Hef) as [-> ->].
  - by exists s1, s', live', t, run.
Qed.

(** ** Execution without caching *)

(** The jumps of a block that are on no list. *)
Lemma jump_inv_drop s live J t :
  jump_inv s live J → (∀ n, jnext s (t, Lnext n) = None) → jump_inv s live (J ∖ {[t]}).
Proof.
  intros [H1 H2] Hn.
  assert (∀ v l, jring s J v l → jring s (J ∖ {[t]}) v l) as Hr.
  { intros v l (Hr & Hnd & Hl). split_and!; [done..|]. intros x Hx. destruct (Hl x Hx) as (u & n & -> & Hu).
    exists u, n. split; [done|]. apply elem_of_difference. split; [done|]. intros ->%elem_of_singleton.
    by apply (ring_next_some _ _ _ _ Hr Hx). }
  split.
  - intros v Hv. destruct (H1 v Hv) as [l Hl]. eauto.
  - intros u n [Hu _]%elem_of_difference Hun. destruct (H2 u n Hu Hun) as (v & l & Hv & Hl & Hin). eauto 6.
Qed.

Lemma chained_drop s J t u n v : chained s (J ∖ {[t]}) u n v → chained s J u n v.
Proof.
  intros (l & (Hr & Hnd & Hl) & Hin). exists l. split; [|done]. split_and!; [done..|].
  intros x Hx. destruct (Hl x Hx) as (w & m & -> & Hw). exists w, m. split; [done|]. set_solver.
Qed.

Lemma tb_free_ok room s live t :
  mgr room s live → t ∉ live → (∀ n, jnext s (t, Lnext n) = None) →
  ∃ s', tb_free s t = Ok s' ∧ mgr room s' live.
Proof.
  intros Hm Ht Hout. unfold tb_free. case_bool_decide as Hnb; [|by exists s]. cbn [andb].
  case_bool_decide as Et; [|by exists s].
  destruct Hm as [[Hlv Hh Hp Hjs Hj Hca] Hprot Hhost Hly Hc Hsz].
  destruct (ly_tb s Hly t) as [tb Htb]; [lia|]. unfold get_tb. rewrite Htb. cbn [rbind deref].
  eexists. split; [done|]. set (s' := s <| code_gen_ptr := _ |> <| nb_tbs := _ |>).
  assert (∀ i, (i ≤ nb_tbs s - 1)%nat → block_start s' i = block_start s i) as Hb.
  { intros i Hi. unfold block_start. cbn. rewrite (decide_True (P := (i < nb_tbs s)%nat)) by lia.
    case_decide; [done|]. assert (i = t) as -> by lia. by rewrite Htb. }
  assert (blocks s' = blocks s ∖ {[t]}) as Eb.
  { apply set_eq. intros u. rewrite elem_of_difference, !elem_of_blocks, elem_of_singleton. cbn. lia. }
  split; rewrite ?Eb; [split; try done|done|done| | |split; apply Hsz].
  - intros u Hu. destruct (Hlv u Hu) as (tbu & Htbu & Hlt & Hwf). exists tbu. split_and!; try done.
    cbn. assert (u ≠ t) by (by intros ->). lia.
  - destruct Hjs as [J1 J2 J3]. split; [set_solver| |set_solver].
    intros u. rewrite <- Eb. apply elem_of_blocks.
  - by apply jump_inv_drop.
  - assert (tc_ptr tb ≤ code_gen_buffer s + code_gen_buffer_size s) as Hhi.
    { rewrite <- (block_start_tb s t tb) by (done || lia). apply block_start_range; [done|lia]. }
    destruct Hly as [Y1 Y2 Y3 Y4 Y5 Y6 Y7 Y8]. split; cbn.
    + done.
    + by rewrite Hb by lia.
    + done.
    + intros i Hi. apply Y4. lia.
    + intros i Hi. rewrite !Hb by lia. apply Y5. lia.
    + intros i tb' n Hi. rewrite !Hb by lia. apply Y6. lia.
    + intros i tb' Hi. apply Y7. lia.
    + done.
  - destruct Hc as [C0 C1 C2 C3]. split.
    + intros u tbu n (Hu & ?). apply (C0 u). split; [set_solver|done].
    + intros u tbu n Hu. apply C1. set_solver.
    + done.
    + intros u tbu n v tbv (Hu & ?) Hv Htv Hch%chained_drop. apply (C3 u tbu n v tbv); try done. split; [set_solver|done].
Qed.

Lemma exec_nocache_leave_ok room s live e t :
  mgr room s ({[t]} ∪ live) → t ∉ live →
  ∃ s', exec_nocache_leave s e t = Ok s' ∧ mgr room s' live.
Proof.
  intros Hm Ht. unfold exec_nocache_leave.
  destruct (inval_mgr room (exec_leave s e) ({[t]} ∪ live) (λ _, False) t no_page) as (s1 & -> & Hm1 & Hf);
    [by apply mgr_upd_cpu|apply skips_none|set_solver|].
  cbn [rbind]. replace (({[t]} ∪ live) ∖ {[t]}) with live in Hm1 by set_solver.
  apply tb_free_ok; [done..|apply (if_out _ _ _ _ _ Hf)].
Qed.

(** ** Breakpoints *)

Definition contains tb (a : Z) : Prop := pc tb ≤ a < pc tb + size tb.

(** The blocks that do not contain [a]. *)
Lemma survivors_contains s a live t tb :
  t ∈ survivors s a (a + 1) live → tbs s !! t = Some tb → ¬ contains tb a.
Proof.
  intros [Ho _]%elem_of_filter Htb [? ?]. unfold overlap in Ho. rewrite Htb in Ho.
  apply andb_false_iff in Ho as [Ho|Ho]; bprop; lia.
Qed.

Definition bp_addr_ok (a : Z) : Prop :=
  0 ≤ a ∧ a + 1 < 2 ^ TARGET_LONG_BITS ∧ valid_index (page_index a).

Lemma breakpoint_invalidate_ok room s live a :
  mgr room s live → single_ok s → bp_addr_ok a →
  ∃ s', breakpoint_invalidate gen restore s a = Ok s' ∧ mgr room s' (survivors s a (a + 1) live) ∧
    single_ok s' ∧ ∀ e, bps s' e = bps s e.
Proof.
  intros Hm Hsi (Ha & Ha2 & Hv). unfold breakpoint_invalidate.
  replace (tul (a + 1)) with (a + 1) by (unfold tul; rewrite wrap_small; lia).
  destruct (tb_invalidate_phys_page_range_ok restore gen room s live a (a + 1) false)
    as (s' & fl & -> & Hp & Hq); try done; [lia|by rewrite Z.add_simpl_r|].
  destruct (Hq eq_refl) as (-> & Hb & Hsi'). destruct Hp. cbn [rbind]. by exists s'.
Qed.

Definition bp_insert (bp : CPUBreakpoint) (l : list CPUBreakpoint) : list CPUBreakpoint :=
  if bp_flags bp .& BP_GDB =? 0 then l ++ [bp] else bp :: l.

Lemma cpu_breakpoint_insert_ok room s live e a flags_ l :
  mgr room s live → single_ok s → bp_addr_ok a → bps s e = Some l →
  ∃ s', cpu_breakpoint_insert gen restore s e a flags_ = Ok (s', 0) ∧
    mgr room s' (survivors s a (a + 1) live) ∧ single_ok s' ∧
    bps s' e = Some (bp_insert (mkBP a flags_) l).
Proof.
  intros Hm Hsi Ha Hl. unfold cpu_breakpoint_insert. set (s1 := upd_cpu s e _).
  destruct (breakpoint_invalidate_ok room s1 live a) as (s2 & -> & Hm2 & Hsi2 & Hb2);
    [by apply mgr_upd_cpu|by apply single_upd_cpu|done|].
  cbn [rbind]. exists s2. split_and!; try done. rewrite Hb2. unfold bps in *. cbn.
  rewrite list_lookup_alter_eq. destruct (cpus s !! e); [|done]. cbn in *. by simplify_eq.
Qed.

Lemma cpu_breakpoint_remove_by_ref_ok room s live e k l bp :
  mgr room s live → single_ok s → bps s e = Some l → l !! k = Some bp → bp_addr_ok (bp_pc bp) →
  ∃ s', cpu_breakpoint_remove_by_ref gen restore s e k = Ok s' ∧
    mgr room s' (survivors s (bp_pc bp) (bp_pc bp + 1) live) ∧
    single_ok s' ∧ bps s' e = Some (delete k l).
Proof.
  intros Hm Hsi Hl Hk Ha. unfold cpu_breakpoint_remove_by_ref.
  unfold bps in Hl. destruct (cpus s !! e) as [env|] eqn:He; [|done]. apply (inj Some) in Hl as <-.
  cbn [rbind deref]. rewrite Hk. cbn [rbind deref]. set (s1 := upd_cpu s e _).
  destruct (breakpoint_invalidate_ok room s1 live (bp_pc bp)) as (s2 & -> & Hm2 & Hsi2 & Hb2);
    [by apply mgr_upd_cpu|by apply single_upd_cpu|done|].
  exists s2. split_and!; try done. rewrite Hb2. unfold bps. cbn. by rewrite list_lookup_alter_eq, He.
Qed.

(** The loop over the entries after [pre], which are kept. *)
Lemma breakpoint_remove_loop_ok room mask e rest s live pre :
  mgr room s live → single_ok s → bps s e = Some (pre ++ rest) →
  Forall (λ bp, bp_addr_ok (bp_pc bp)) rest →
  ∃ s' live', breakpoint_remove_loop gen restore (length rest) s e (length pre) mask = Ok s' ∧
    mgr room s' live' ∧ single_ok s' ∧ live' ⊆ live ∧
    bps s' e = Some (pre ++ filter (λ bp, bp_flags bp .& mask = 0) rest).
Proof.
  induction rest as [|bp rest IH] in s, live, pre |- *; intros Hm Hsi Hl Ha; cbn [breakpoint_remove_loop length].
  { exists s, live. by split_and!. }
  apply Forall_cons in Ha as [Hbp Ha]. pose proof Hl as Hl0. unfold bps in Hl0.
  destruct (cpus s !! e) as [env|] eqn:He; [|done]. apply (inj Some) in Hl0. cbn [rbind deref].
  assert (breakpoints env !! length pre = Some bp) as -> by (by rewrite Hl0, list_lookup_middle).
  cbn [rbind deref]. rewrite filter_cons. case_bool; bprop.
  - rewrite decide_True by done. destruct (IH s live (pre ++ [bp])) as (s' & live' & Hs' & ? & ? & ? & Hb);
      [done..|by rewrite <- app_assoc|done|].
    rewrite length_app, Nat.add_comm in Hs'. cbn in Hs'. exists s', live'. split_and!; try done.
    by rewrite Hb, <- app_assoc.
  - rewrite decide_False by done.
    destruct (cpu_breakpoint_remove_by_ref_ok room s live e (length pre) (pre ++ bp :: rest) bp)
      as (s1 & -> & Hm1 & Hsi1 & Hb1); try done; [by rewrite list_lookup_middle|]. cbn [rbind].
    rewrite delete_middle in Hb1.
    destruct (IH s1 _ pre Hm1 Hsi1 Hb1 Ha) as (s' & live' & -> & ? & ? & Hsub & Hb). exists s', live'.
    split_and!; try done. etrans; [done|]. unfold survivors. set_solver.
Qed.

Lemma cpu_breakpoint_remove_all_ok room s live e mask l :
  mgr room s live → single_ok s → bps s e = Some l →
  Forall (λ bp, bp_addr_ok (bp_pc bp)) l →
  ∃ s' live', cpu_breakpoint_remove_all gen restore s e mask = Ok s' ∧ mgr room s' live' ∧ single_ok s' ∧
    live' ⊆ live ∧ bps s' e = Some (filter (λ bp, bp_flags bp .& mask = 0) l).
Proof.
  intros Hm Hsi Hl Ha. unfold cpu_breakpoint_remove_all. pose proof Hl as Hl0. unfold bps in Hl0.
  destruct (cpus s !! e) as [env|] eqn:He; [|done]. apply (inj Some) in Hl0. cbn [rbind deref]. rewrite Hl0.
  destruct (breakpoint_remove_loop_ok room mask e l s live []) as (s' & live' & ? & ? & ? & ? & ?); [done..|].
  exists s', live'. by split_and!.
Qed.

(** GDB's breakpoints come first. *)
Definition gdb_first (l : list CPUBreakpoint) : Prop :=
  ∃ l1 l2, l = l1 ++ l2 ∧ Forall (λ bp, bp_flags bp .& BP_GDB ≠ 0) l1 ∧
    Forall (λ bp, bp_flags bp .& BP_GDB = 0) l2.

Lemma bp_insert_gdb_first bp l : gdb_first l → gdb_first (bp_insert bp l).
Proof.
  intros (l1 & l2 & -> & H1 & H2). unfold bp_insert. case_bool; bprop.
  - exists l1, (l2 ++ [bp]). rewrite app_assoc. split_and!; [done..|]. apply Forall_app. split; [done|by apply Forall_singleton].
  - exists (bp :: l1), l2. split_and!; [done| |done]. by apply Forall_cons.
Qed.

End exec_inv.
