(* ===== verification/Init.v ===== *)
(** * Initialisation

    The start-up code of exec.c: the size of the code cache
    ([parse_code_size], [code_gen_alloc]), the host page size ([page_init])
    and the list of CPUs ([cpu_exec_init]).  The initial state satisfies the
    manager's invariant with no block. *)

From stdpp Require Import base gmap list fin_maps.
From S2P Require Import Prelude Text Chain Config CodePatch Bitmap PageTable TBData TBOps SMC TBInv.
From S2P Require Import TBLists TBCode TBInval TBJump TBLink TBGen Trace.
Local Open Scope Z_scope.
Local Coercion Z.of_nat : nat >-> Z.

(** exec-all.h, exec.c *)
Definition OPC_BUF_SIZE : Z := 640.
Definition MAX_OP_PER_INSTR : Z := 96.
Definition OPC_MAX_SIZE : Z := OPC_BUF_SIZE - MAX_OP_PER_INSTR.
Definition TCG_MAX_OP_SIZE : Z := 192.
Definition DEFAULT_CODE_GEN_BUFFER_SIZE : Z := 32 * 1024 * 1024.
Definition alarm_threshold : Z := TCG_MAX_OP_SIZE * OPC_MAX_SIZE.

(** ** The size of the code cache *)

(** The character after the leading digits, 0 at the end of the string. *)
Fixpoint after_digits (s : list Z) : Z :=
  match s with
  | c :: s' => if isdigit c then after_digits s' else c
  | [] => 0
  end.

(** [while (min_size /= 2) i++] *)
Fixpoint halvings (fuel : nat) (m : Z) : nat :=
  match fuel with
  | O => O
  | S f => let m := m `div` 2 in if m =? 0 then O else S (halvings f m)
  end.

(** [while (i--) min_size *= 2] *)
Fixpoint doublings (i : nat) (m : Z) : Z :=
  match i with O => m | S i' => doublings i' (m * 2) end.

(** The argument is the value of LLVM_SIZE. *)
Definition parse_code_size (env : option (list Z)) : Z :=
  match env with
  | None | Some [] => DEFAULT_CODE_GEN_BUFFER_SIZE
  | Some s =>
      let p := after_digits s in
      let base := if (p =? 75) || (p =? 107) then 1024
                  else if (p =? 77) || (p =? 109) then 1024 * 1024
                  else if (p =? 71) || (p =? 103) then 1024 * 1024 * 1024 else 1 in
      let size := u64 (strtoul s * base) in
      let i := halvings 64 (16 * 1024) in
      let min_size := doublings i 1 in
      if (min_size <=? size) && (size <=? DEFAULT_CODE_GEN_BUFFER_SIZE)
      then size + alarm_threshold else DEFAULT_CODE_GEN_BUFFER_SIZE
  end.

Section init.
  Context `{Guest} `{!PageTable PT}.
  Notation st := (exec_state PT).

(** ** The initial state *)

(** The loop that computes [qemu_host_page_bits]. *)
Fixpoint page_bits_loop (fuel : nat) (bits size : Z) : result Z :=
  match fuel with
  | O => Er EFuel
  | S f => if 1 <<. bits <? size then page_bits_loop f (bits + 1) size else Ok bits
  end.

(** The host page size, its logarithm and its mask. *)
Definition page_init (host_page_size getpagesize : Z) : result (Z * Z * Z) :=
  let size := if host_page_size =? 0 then getpagesize else host_page_size in
  let size := if size <? TARGET_PAGE_SIZE then TARGET_PAGE_SIZE else size in
  bits <- page_bits_loop 32 0 size ;;
  Ok (size, bits, .~ (size - 1)).

(** [cpu_exec_init_all]: the code cache is the static buffer at [buf], the
    blocks are what [qemu_malloc] returns, and the host memory holds [code]. *)
Definition cpu_exec_init_all (env_size : option (list Z)) (buf getpagesize : Z)
    (mem : nat → TranslationBlock) (code : bytes) : result st :=
  let size := parse_code_size env_size in
  let max_blocks := Z.to_nat (size `div` CODE_GEN_AVG_BLOCK_SIZE) in
  '(hps, _, _) <- page_init 0 getpagesize ;;
  Ok (mkExec (mem <$> seq 0 max_blocks) 0 max_blocks buf size (size - alarm_threshold) buf
        ∅ page_empty [] None code ∅ hps 0 0 0 0 0 0).

(** A new CPU goes to the end of the list. *)
Definition cpu_exec_init (s : st) (env : CPUState) : st :=
  s <| cpus := cpus s ++ [env <| cpu_index := Z.of_nat (length (cpus s)) |> <| breakpoints := [] |>] |>.

Fixpoint get_cpu_loop (l : list CPUState) (k : nat) (cpu : Z) : option nat :=
  match l with
  | [] => None
  | env :: l' => if cpu_index env =? cpu then Some k else get_cpu_loop l' (S k) cpu
  end.
Definition qemu_get_cpu (s : st) (cpu : Z) : option nat := get_cpu_loop (cpus s) 0 cpu.

(** ** Properties *)

Lemma parse_code_size_range e :
  alarm_threshold < parse_code_size e ≤ DEFAULT_CODE_GEN_BUFFER_SIZE + alarm_threshold.
Proof.
  unfold parse_code_size. destruct e as [[|c l]|]; [done| |done].
  set (size := u64 _). change (doublings _ 1) with 16384. case_bool; bprop; [|done].
  unfold alarm_threshold, TCG_MAX_OP_SIZE, OPC_MAX_SIZE, OPC_BUF_SIZE, MAX_OP_PER_INSTR. lia.
Qed.

Lemma page_bits_loop_ok fuel (b k : Z) :
  0 ≤ b ≤ k → (Z.to_nat (k - b) < fuel)%nat → page_bits_loop fuel b (2 ^ k) = Ok k.
Proof.
  induction fuel as [|fuel IH] in b |- *; intros Hb Hf; [lia|]. cbn [page_bits_loop].
  rewrite Z.shiftl_mul_pow2, Z.mul_1_l by lia. case_bool; bprop.
  - apply Z.pow_lt_mono_r_iff in Eb; [|lia..]. apply IH; lia.
  - destruct (decide (b = k)) as [->|]; [done|]. assert (2 ^ b < 2 ^ k) by (apply Z.pow_lt_mono_r; lia). lia.
Qed.

Lemma page_init_ok (k : Z) :
  0 ≤ k < 31 → ∃ j, page_init 0 (2 ^ k) = Ok (2 ^ j, j, .~ (2 ^ j - 1)) ∧ j = k `max` TARGET_PAGE_BITS.
Proof.
  intros Hk. unfold page_init. cbn [Z.eqb]. pose proof guest_page_bits as Hp. rewrite page_size_eq.
  exists (k `max` TARGET_PAGE_BITS). split; [|done].
  replace (if 2 ^ k <? 2 ^ TARGET_PAGE_BITS then 2 ^ TARGET_PAGE_BITS else 2 ^ k) with (2 ^ (k `max` TARGET_PAGE_BITS)).
  - by rewrite page_bits_loop_ok by lia.
  - case_bool; bprop.
    + apply Z.pow_lt_mono_r_iff in Eb; [|lia..]. f_equal. lia.
    + destruct (decide (k < TARGET_PAGE_BITS)); [|f_equal; lia].
      assert (2 ^ k < 2 ^ TARGET_PAGE_BITS) by (apply Z.pow_lt_mono_r; lia). lia.
Qed.

(** The initial state has no block.  The array of blocks is not cleared:
    nothing fails later only if what malloc returns has no dangling [env]
    pointer, which [tb_alloc] would free. *)
Lemma init_mgr e buf (k : Z) mem code :
  0 ≤ k < 31 → 0 ≤ buf → buf + parse_code_size e < 2 ^ 64 → (∀ i, tb_env (mem i) ≠ EnvWild) →
  ∃ s : st, cpu_exec_init_all e buf (2 ^ k) mem code = Ok s ∧ mgr alarm_threshold s ∅ ∧
    cpus s = [] ∧ qemu_host_page_size s = 2 ^ (k `max` TARGET_PAGE_BITS).
Proof.
  intros Hk Hb Hb2 Henv. unfold cpu_exec_init_all. destruct (page_init_ok k Hk) as (j & -> & Ej). cbn [rbind].
  pose proof (parse_code_size_range e) as Hr. set (size := parse_code_size e) in *.
  assert (0 < alarm_threshold ∧ DEFAULT_CODE_GEN_BUFFER_SIZE + alarm_threshold < 2 ^ 31 - 4) as [Ht Hd] by done.
  eexists. split; [done|]. split_and!; [|done|cbn; by rewrite Ej].
  set (s := mkExec _ _ _ _ _ _ _ _ _ _ _ _ _ _ _ _ _ _ _ _).
  assert (sizes s alarm_threshold) as Hsz.
  { split; cbn; [|lia|lia|lia]. rewrite length_fmap, length_seq. split; [done|].
    assert (0 < size `div` CODE_GEN_AVG_BLOCK_SIZE); [|lia]. unfold CODE_GEN_AVG_BLOCK_SIZE.
    apply Z.div_str_pos. unfold alarm_threshold, TCG_MAX_OP_SIZE, OPC_MAX_SIZE, OPC_BUF_SIZE, MAX_OP_PER_INSTR in *. lia. }
  assert (blocks s = ∅) as Eb0 by done. split; rewrite ?Eb0; [split| | | | |done].
  - intros t Ht'. set_solver.
  - intros h _. exists []. split_and!; [done|constructor|]. unfold hash_mem. set_solver.
  - intros i _. exists []. split_and!; [|constructor|unfold page_mem; set_solver].
    unfold page_head, page_desc. cbn. by rewrite page_find_empty.
  - split; intros; set_solver.
  - split; intros; set_solver.
  - intros e' env' h t He. done.
  - intros i Hi _ Hh. exfalso. apply Hh. unfold page_head, page_desc. cbn. by rewrite page_find_empty.
  - exists j. cbn. split; [|done]. lia.
  - split; cbn; try lia; try done. intros i tb Htb. apply list_lookup_fmap_Some in Htb as (j' & -> & _). apply Henv.
  - split; [intros u tb n [? _]; set_solver|set_solver|intros u tb n [? _]; set_solver|intros u tb n v tbv [? _]; set_solver].
Qed.

(** A new CPU with an empty jump cache. *)
Lemma cpu_exec_init_mgr room (s : st) live env :
  mgr room s live → tb_jmp_cache env = ∅ → mgr room (cpu_exec_init s env) live.
Proof.
  intros [[Hlv Hh Hp Hjs Hj Hca] Hprot Hhost Hly Hc Hsz] Ec. unfold cpu_exec_init.
  split; try done; [split; try done; [split; apply Hjs|]| | |].
  - intros e env' h t He Hu. cbn in He. apply lookup_app_Some in He as [He|[_ He]]; [by eapply Hca|].
    apply list_lookup_singleton_Some in He as [_ <-]. cbn in Hu. rewrite Ec in Hu. by rewrite lookup_empty in Hu.
  - by apply (layout_ext s).
  - split; apply Hc.
  - split; apply Hsz.
Qed.

(** CPUs are found by the index they were given. *)
Definition cpus_indexed (s : st) : Prop :=
  ∀ e env, cpus s !! e = Some env → cpu_index env = Z.of_nat e.

Lemma get_cpu_loop_ok l k (c : nat) :
  (∀ e env, l !! e = Some env → cpu_index env = Z.of_nat (k + e)) → (k ≤ c)%nat →
  get_cpu_loop l k c = if decide (c < k + length l)%nat then Some c else None.
Proof.
  induction l as [|env l IH] in k |- *; intros Hi Hk; cbn [get_cpu_loop length].
  { by rewrite decide_False by lia. }
  pose proof (Hi 0%nat env eq_refl) as E0. rewrite Nat.add_0_r in E0. rewrite E0. case_bool; bprop.
  - assert (c = k) as -> by lia. by rewrite decide_True by lia.
  - rewrite IH; [|intros e env' He; rewrite (Hi (S e) env' He); f_equal; lia|lia].
    repeat case_decide; try done; lia.
Qed.

Lemma qemu_get_cpu_init (s : st) env :
  cpus_indexed s → cpus_indexed (cpu_exec_init s env) ∧
  ∀ c : nat, qemu_get_cpu (cpu_exec_init s env) c = if decide (c ≤ length (cpus s))%nat then Some c else None.
Proof.
  intros Hs.
  assert (cpus_indexed (cpu_exec_init s env)) as Hi.
  { intros e env' He. cbn in He. apply lookup_app_Some in He as [He|[Hl He]]; [by apply Hs|].
    apply list_lookup_singleton_Some in He as [E <-]. cbn. f_equal. lia. }
  split; [done|]. intros c. unfold qemu_get_cpu. rewrite get_cpu_loop_ok; [|intros; by apply Hi|lia].
  cbn. rewrite length_app. cbn. repeat case_decide; try done; lia.
Qed.

End init.

(** A size accepted from LLVM_SIZE is extended by the alarm threshold after the
    check against the static buffer: at 32M the code cache ends behind it. *)
Lemma parse_code_size_overflow :
  parse_code_size (Some [51; 50; 77]) = DEFAULT_CODE_GEN_BUFFER_SIZE + alarm_threshold.
Proof. by vm_compute. Qed.
