(* ===== verification/Reach.v ===== *)
(** * Runs of the emulator

    The operations on the block manager as the events of a run: mapping of
    guest memory, turns of the execution loop, write faults on protected pages,
    interrupts from another thread, and the debugger.  Every event that the
    state allows succeeds, and every state a run reaches satisfies the
    manager's invariant. *)

From stdpp Require Import base gmap list fin_maps.
From S2P Require Import Prelude Chain Config CodePatch Bitmap PageTable TBData TBOps SMC TBInv TBLists TBCode TBInval TBJump TBLink TBGen TBFind SMCRange SMCPage Trace TraceInv CpuExec ExecInv Init.
Local Open Scope Z_scope.
Local Coercion Z.of_nat : nat >-> Z.

Inductive event :=
  | EvMap (start end_ flags_ : Z)              (* page_set_flags *)
  | EvEnter (e : nat)                          (* cpu_exec is entered *)
  | EvTurn (e : nat) (next : next_tb)          (* a turn of its loop *)
  | EvLeave (e : nat) (regs : Z * Z * Z)       (* the code cache returns *)
  | EvReturn                                   (* cpu_exec returns *)
  | EvProfile (e : nat) (t : tbid)             (* helper_trace_profile *)
  | EvWrite (address host_pc : Z)              (* a write fault *)
  | EvInterrupt (e : nat) (mask : Z)           (* cpu_interrupt *)
  | EvExit (e : nat)                           (* cpu_exit *)
  | EvBreak (e : nat) (pc_ flags_ : Z)         (* cpu_breakpoint_insert *)
  | EvUnbreak (e : nat) (mask : Z)             (* cpu_breakpoint_remove_all *)
  | EvStep (e : nat) (enabled : Z).            (* cpu_single_step *)

Section reach.
  Context `{Guest} `{!PageTable PT}.
  Notation st := (exec_state PT).
  Implicit Types (s : st) (t u v : tbid) (tb : TranslationBlock) (env : CPUState) (n m : slot)
    (live : gset tbid).
  Context (gen : Z → gen_info) (restore : TranslationBlock → Z → Z * Z * Z → Z * Z * Z) (cp : list Z).

Definition step s (ev : event) : result st :=
  match ev with
  | EvMap start end_ flags_ => page_set_flags gen restore s start end_ flags_
  | EvEnter e => Ok (s <| cpu_single_env := Some e |>)
  | EvTurn e next => '(s, _, _) <- exec_lookup gen cp s e next ;; Ok s
  | EvLeave e regs => Ok (exec_leave (upd_cpu s e (λ env, env <| guest_regs := regs |>)) e)
  | EvReturn => Ok (s <| cpu_single_env := None |>)
  | EvProfile e t => helper_trace_profile s e t
  | EvWrite address host_pc => '(s, _, _) <- page_unprotect gen restore s address host_pc ;; Ok s
  | EvInterrupt e mask => cpu_interrupt s e mask
  | EvExit e => cpu_exit s e
  | EvBreak e pc_ flags_ => '(s, _) <- cpu_breakpoint_insert gen restore s e pc_ flags_ ;; Ok s
  | EvUnbreak e mask => cpu_breakpoint_remove_all gen restore s e mask
  | EvStep e enabled => cpu_single_step s e enabled
  end.

(** A block on its hash chain. *)
Definition linked s t : Prop :=
  ∃ tb l, tbs s !! t = Some tb ∧ seg (hnext s) (tb_phys_hash s !! tb_bucket tb) l None ∧ t ∈ l.

Definition room : Z := alarm_threshold.

(** CPU [e] exists and runs no block. *)
Definition stopped s (e : nat) : Prop := current_tb <$> cpus s !! e = Some None.

(** When an event can happen.  The block a CPU comes from, or runs, may have
    been invalidated, but not flushed: after a flush by another CPU its number
    stands for nothing or for another block, and the code has no guard against
    that.  A block is not translated on the last host page, for which the loop
    of [tb_alloc_page] does not end. *)
Definition guard s (ev : event) : Prop :=
  match ev with
  | EvMap start end_ _ => 0 ≤ start < end_ ∧ end_ + TARGET_PAGE_SIZE ≤ 2 ^ L1_MAP_ADDR_SPACE_BITS
  | EvEnter e => stopped s e
  | EvTurn e next => stopped s e ∧
      (∀ pc_ cs_base_ flags_, guest_regs <$> cpus s !! e = Some (pc_, cs_base_, flags_) → gen_spec room gen s pc_) ∧
      next_ok cp s next ∧
      (∀ e', cpu_single_env s = Some e' → e' = e ∨ stopped s e' ∨ must_flush s = false)
  | EvLeave e _ => is_Some (cpus s !! e)
  | EvReturn => True
  | EvProfile e t => (t < nb_tbs s)%nat ∧ ∀ tb, tbs s !! t = Some tb → 0 ≤ exec_count tb < 2 ^ 31 - 1
  | EvWrite address host_pc => page_ok s (page_base address) ∧
      qemu_host_page_size s ≤ 2 ^ 10 * TARGET_PAGE_SIZE ∧
      (host_pc ≠ 0 → is_Some (cpu_single_env s)) ∧ (host_pc ≠ 0 → restore_ok restore gen room s)
  | EvInterrupt e _ | EvExit e => is_Some (cpus s !! e) ∧ cur_ok s e
  | EvBreak e pc_ _ => bp_addr_ok pc_ ∧ is_Some (cpus s !! e)
  | EvUnbreak e _ => ∃ l, bps s e = Some l ∧ Forall (λ bp, bp_addr_ok (bp_pc bp)) l
  | EvStep e _ => is_Some (cpus s !! e) ∧ ∀ e', cpu_single_env s = Some e' → stopped s e'
  end.

Definition inv s live : Prop := mgr room s live ∧ single_ok s.

(** ** The invariant of the runs *)

Lemma stopped_cur s e : stopped s e → is_Some (cpus s !! e) ∧ cur_ok s e.
Proof.
  unfold stopped. intros Hs. destruct (cpus s !! e) as [env|] eqn:He; [|done]. cbn in Hs. split; [eauto|].
  intros env' t E Et. rewrite He in E. congruence.
Qed.

Lemma stopped_single s : (∀ e, cpu_single_env s = Some e → stopped s e) → single_ok s.
Proof. intros Hs e He. by apply stopped_cur, Hs. Qed.

Lemma single_env_mgr s live o : mgr room s live → mgr room (s <| cpu_single_env := o |>) live.
Proof.
  intros [[? ? ? Hjs ? ?] ? ? ? Hc Hz].
  split; [split; try done; split; apply Hjs|done|done|by apply (layout_ext s)|split; apply Hc|split; apply Hz].
Qed.

Lemma boot_inv e buf (k : Z) mem code envs s :
  0 ≤ k < 31 → 0 ≤ buf → buf + parse_code_size e < 2 ^ 64 → (∀ i, tb_env (mem i) ≠ EnvWild) →
  cpu_exec_init_all e buf (2 ^ k) mem code = Ok s → Forall (λ env, tb_jmp_cache env = ∅) envs →
  inv (foldl cpu_exec_init s envs) ∅.
Proof.
  intros Hk Hb Hb2 Hw Es Hc. destruct (init_mgr e buf k mem code Hk Hb Hb2 Hw) as (s' & E' & Hm & _).
  rewrite E' in Es. injection Es as ->. split.
  - clear E'. induction envs as [|env envs IH] in s, Hm, Hc |- *; cbn; [done|].
    apply Forall_cons in Hc as [Hc0 Hc]. apply IH; [done|by apply cpu_exec_init_mgr].
  - assert (cpu_single_env s = None) as Hn.
    { unfold cpu_exec_init_all in E'. inv_ok. done. }
    intros e' He'. exfalso. clear -Hn He'. induction envs as [|env envs IH] in s, Hn, He' |- *; cbn in *; [congruence|].
    by apply (IH (cpu_exec_init s env)).
Qed.

Lemma turn_inv s live e next :
  inv s live → guard s (EvTurn e next) → ∃ s' live', step s (EvTurn e next) = Ok s' ∧ inv s' live'.
Proof.
  intros [Hm Hsi] (Hst & Hg & Hn & Hother). unfold stopped in Hst.
  destruct (cpus s !! e) as [env|] eqn:He; [|done]. destruct (guest_regs env) as [[pc_ cs_] fl_] eqn:Hr.
  cbn in Hg. rewrite Hr in Hg.
  destruct (exec_lookup_ok gen room cp s live e env next pc_ cs_ fl_) as (s1 & s' & live' & t & run & _ & E & Hp);
    [done..|by eapply Hg|done|].
  exists s', live'. cbn [step]. rewrite E. split; [done|]. destruct Hp as [P1 P2 P3 P4 P5 P6 P7 P8 _ _ _].
  split; [done|]. intros e' He'. rewrite P4 in He'. destruct (Hsi e' He') as [Hs0 Hc0].
  destruct (decide (e' = e)) as [->|Hne].
  - destruct (cpus s' !! e) as [env'|] eqn:E'; [|done]. cbn in P5. split; [eauto|].
    intros env'' u Eu Hu. rewrite E' in Eu. simplify_eq.
    apply (inv_jset _ _ _ _ (m_inv _ _ _ _ P1)). congruence.
  - pose proof (P6 e' Hne) as E6. destruct (Hother e' He') as [?|[Hs|Hf]]; [done|..].
    + apply stopped_cur. unfold stopped. by rewrite E6.
    + split; [destruct (cpus s' !! e'); [eauto|]; destruct Hs0 as [? Hs0]; by rewrite Hs0 in E6|].
      intros env' u E' Hu. rewrite E' in E6. destruct (cpus s !! e') as [env0|] eqn:E0; [|done]. cbn in E6.
      apply P8; [done|]. apply (Hc0 env0 u E0). congruence.
Qed.

Lemma write_inv s live address pc_ :
  inv s live → guard s (EvWrite address pc_) →
  ∃ s' live', step s (EvWrite address pc_) = Ok s' ∧ inv s' live'.
Proof.
  intros [Hm Hsi] (Hpo & Hsz & He & Hg). cbn [step].
  destruct (page_find (l1_map s) (page_index address)) as [p|] eqn:Ep.
  2: { exists s, live. unfold page_unprotect. rewrite Ep. by split. }
  destruct (negb (pflags p .& PAGE_WRITE_ORG =? 0) && (pflags p .& PAGE_WRITE =? 0)) eqn:Ef.
  - apply andb_prop in Ef as [Ef1 Ef2]. bprop.
    destruct (page_unprotect_ok gen restore room s live address p pc_) as (s' & r & fl & -> & _ & Hp); [done..|].
    cbn [rbind]. destruct fl.
    + destruct Hp as (_ & [? ? _ _ _ _ _] & _). eexists s', _. split; [done|split; eassumption].
    + destruct Hp as (live' & ? & ?). by exists s', live'.
  - exists s, live. unfold page_unprotect. rewrite Ep, Ef. by split.
Qed.

Lemma profile_single s s' e t :
  helper_trace_profile s e t = Ok s' → single_ok s → single_ok s'.
Proof.
  unfold helper_trace_profile. intros Es Hsi. destruct (get_tb s t) as [tb|]; [|done]. cbn [rbind] in Es.
  set (s1 := upd_tb s t _) in Es. assert (single_ok s1) as H1 by (by apply (single_ok_ext s)).
  destruct (negb _); injection Es as <-; [done|]. apply single_upd_cpu; [done|]. by apply (single_ok_ext s1).
Qed.

Lemma profile_inv s live e t :
  inv s live → guard s (EvProfile e t) → ∃ s' live', step s (EvProfile e t) = Ok s' ∧ inv s' live'.
Proof.
  intros [Hm Hsi] [Ht%elem_of_blocks Hc].
  destruct (js_tb _ _ _ (inv_jset _ _ _ _ (m_inv _ _ _ _ Hm)) t Ht) as [tb Htb].
  destruct (helper_trace_profile_ok room s live e t tb Hm Ht Htb (Hc _ Htb)) as (s' & tb' & Hs' & Hm' & _).
  exists s', live. split; [done|]. split; [done|by eapply profile_single].
Qed.

Lemma exit_inv s live e :
  inv s live → is_Some (cpus s !! e) → cur_ok s e → ∃ s', cpu_exit s e = Ok s' ∧ inv s' live.
Proof.
  intros [Hm Hsi] [env He] Hc. unfold cpu_exit. set (s1 := s <| cpus := _ |>).
  assert (mgr room s1 live) as Hm1 by (by apply (mgr_upd_cpu room s live (λ _, False) e)).
  assert (single_ok s1) as Hsi1 by (by apply (single_upd_cpu s e)).
  assert (cpus s1 !! e = Some (env <| exit_request := 1 |>)) as He1 by (cbn; by rewrite list_lookup_alter_eq, He).
  destruct (cpu_unlink_tb_ok room s1 live (λ _, False) e Hm1) as (s2 & -> & Hu & _); [eauto|..].
  - apply (cur_ok_ext s); [done|by rewrite He1, He|done].
  - exists s2. split; [done|]. split; [apply Hu|by eapply unlink_single].
Qed.

Lemma single_step_inv s live e en :
  inv s live → guard s (EvStep e en) → ∃ s' live', cpu_single_step s e en = Ok s' ∧ inv s' live'.
Proof.
  intros [Hm Hsi] [[env He] Hst]. unfold cpu_single_step. rewrite He. cbn [rbind deref].
  case_bool; [by exists s, live|].
  set (s1 := upd_cpu s e _).
  destruct (flush_mgr room s1 live e) as (s' & -> & Hm' & _ & _ & _ & Hef & _); [by apply mgr_upd_cpu|].
  exists s', ∅. split; [done|]. split; [done|]. apply stopped_single. intros e' He'.
  rewrite (ef_single _ _ Hef) in He'. pose proof (Hst e' He') as Hs. unfold stopped in *.
  rewrite (ef_run _ _ Hef). cbn. rewrite list_lookup_alter. case_decide; subst; by destruct (cpus s !! _).
Qed.

Lemma leave_inv s live e regs :
  inv s live → is_Some (cpus s !! e) →
  inv (exec_leave (upd_cpu s e (λ env, env <| guest_regs := regs |>)) e) live.
Proof.
  intros [Hm Hsi] [env He]. set (s1 := upd_cpu s e _).
  split; [by apply mgr_upd_cpu, mgr_upd_cpu|]. intros e' He'. destruct (Hsi e' He') as [Hs Hc].
  destruct (decide (e' = e)) as [->|Hne].
  - apply stopped_cur. unfold stopped. cbn. by rewrite !list_lookup_alter_eq, He.
  - assert (cpus (exec_leave s1 e) !! e' = cpus s !! e') as E' by (cbn; by rewrite !list_lookup_alter_ne).
    rewrite E'. split; [done|]. apply (cur_ok_ext s); [done|by rewrite E'|done].
Qed.

Lemma step_inv s live ev : inv s live → guard s ev → ∃ s' live', step s ev = Ok s' ∧ inv s' live'.
Proof.
  intros Hi Hg. pose proof Hi as [Hm Hsi].
  destruct ev as [a b f|e|e next|e regs| |e t|a p|e mask|e|e p f|e mask|e en].
  - destruct Hg as [Ha Hb].
    destruct (page_set_flags_ok gen restore room s live a b f Hm Hsi Ha Hb) as (s' & Hs' & [? ? _ _ _ _ _] & _).
    eexists s', _. split; [done|split; eassumption].
  - eexists _, live. split; [done|]. split; [by apply single_env_mgr|]. apply stopped_single. by intros e' [= <-].
  - by apply (turn_inv s live).
  - eexists _, live. split; [done|]. by apply leave_inv.
  - eexists _, live. split; [done|]. split; [by apply single_env_mgr|done].
  - by apply (profile_inv s live).
  - by apply (write_inv s live).
  - destruct Hg as [Hs Hc].
    destruct (cpu_interrupt_ok room s live e mask Hm Hsi Hs Hc) as (s' & Hs' & ? & ? & _). by exists s', live.
  - destruct Hg as [Hs Hc]. destruct (exit_inv s live e Hi Hs Hc) as (s' & Hs' & ?). by exists s', live.
  - destruct Hg as [Ha [env He]].
    destruct (cpu_breakpoint_insert_ok gen restore room s live e p f (breakpoints env)) as (s' & Hs' & ? & ? & _);
      [done..|by unfold bps; rewrite He|]. eexists s', _. cbn [step]. rewrite Hs'. split; [done|split; eassumption].
  - destruct Hg as (l & Hl & Ha).
    destruct (cpu_breakpoint_remove_all_ok gen restore room s live e mask l Hm Hsi Hl Ha)
      as (s' & live' & Hs' & ? & ? & _). by exists s', live'.
  - by apply (single_step_inv s live).
Qed.

End reach.

Section runs.
  Context `{Guest} `{!PageTable PT}.
  Notation st := (exec_state PT).
  Implicit Types (s : st).

(** The states of a run.  What the translator generates, and the chain points
    of the LLVM environment, may be different at every step. *)
Inductive reachable : st → Prop :=
  | reach_boot e buf (k : Z) mem code envs s :
      0 ≤ k < 31 → 0 ≤ buf → buf + parse_code_size e < 2 ^ 64 → (∀ i, tb_env (mem i) ≠ EnvWild) →
      cpu_exec_init_all e buf (2 ^ k) mem code = Ok s →
      Forall (λ env, tb_jmp_cache env = ∅) envs →
      reachable (foldl cpu_exec_init s envs)
  | reach_step gen restore cp s ev s' :
      reachable s → guard gen restore cp s ev → step gen restore cp s ev = Ok s' → reachable s'.

Lemma reachable_inv s : reachable s → ∃ live, inv s live.
Proof.
  induction 1 as [e buf k mem code envs s Hk Hb Hb2 Hw Es Hc|gen restore cp s ev s' _ [live Hi] Hg Hs].
  - exists ∅. by eapply boot_inv.
  - destruct (step_inv gen restore cp s live ev Hi Hg) as (s1 & live' & E & ?). rewrite E in Hs. injection Hs as <-. eauto.
Qed.

End runs.

(** * A concrete run

    A small i386 session on the radix page table: start-up with one CPU and a
    16K code cache, three pages mapped, two blocks translated (the first on two
    pages) and the first chained to the second.  It instantiates the theorems
    about the block manager. *)

Definition ok {A} (d : A) (r : result A) : A := match r with Ok a => a | Er _ => d end.

Module Demo.
#[local] Existing Instance i386_guest.
#[local] Existing Instance Radix.radix_page_table.
Notation st := (exec_state Radix.l1_map).

Definition zero_tb : TranslationBlock :=
  mkTB 0 0 0 0 0 0 0 None (A2 None None) (A2 0 0) (A2 0 0) (A2 0 0) (A2 None None) None 0
    (mkIB 0 0 [] [] []) 0 0 0 0 0 (A2 0 0) EnvNull.

Definition cpu0 : CPUState :=
  mkCPU 0 None 0 0 0 0 ∅ [] 0 (-1) 0 0 (replicate 16 0%nat) ∅ 0 0 0 (0x1ff8, 0, 0).

(** Sixteen guest bytes become 32 host bytes with two chainable jumps. *)
Definition gen_code : list Z := replicate 9 0x90 ++ 0xe9 :: replicate 9 0x90 ++ 0xe9 :: replicate 12 0x90.
Definition gen (p : Z) : gen_info := mkGen 16 4 8 (A2 14 24) (A2 10 20) gen_code.

Definition restore (tb : TranslationBlock) (hpc : Z) (r : Z * Z * Z) : Z * Z * Z := (0x1ff8, 0, 0).

Definition dead : st := mkExec [] 0 0 0 0 0 0 ∅ page_empty [] None ∅ ∅ 0 0 0 0 0 0 0.
Definition rwx : Z := PAGE_VALID .| PAGE_BITS.

Definition s_boot : st := ok dead (cpu_exec_init_all (Some [49; 54; 75]) 65536 4096 (λ _, zero_tb) ∅).
Definition s_cpu : st := (cpu_exec_init s_boot cpu0) <| cpu_single_env := Some 0%nat |>.
Definition s_map : st := ok dead (page_set_flags gen restore s_cpu 0x1000 0x4000 rwx).
Definition s_tb0 : st := fst (ok (dead, 0%nat) (tb_gen_code gen s_map 0 0x1ff8 0 0 0)).
Definition s_tb1 : st := fst (ok (dead, 0%nat) (tb_gen_code gen s_tb0 0 0x3000 0 0 0)).
Definition s_run : st := ok dead (tb_add_jump s_tb1 0 S0 1).

Lemma boot_mgr : mgr room s_boot ∅.
Proof.
  destruct (init_mgr (Some [49; 54; 75]) 65536 12 (λ _, zero_tb) ∅) as (s & E & Hm & _); [lia|lia|by vm_compute|done|].
  unfold s_boot. change (2 ^ 12) with 4096 in E. by rewrite E.
Qed.

Lemma cpu_mgr : mgr room s_cpu ∅.
Proof. by apply single_env_mgr, cpu_exec_init_mgr; [apply boot_mgr|]. Qed.

Lemma cpu_single : single_ok s_cpu.
Proof.
  intros e [= <-]. split; [apply not_eq_None_Some; by vm_compute|]. intros env t E Et. exfalso.
  vm_compute in E. apply (inj Some) in E as <-. done.
Qed.

Lemma map_ok : mgr room s_map ∅ ∧ single_ok s_map.
Proof.
  destruct (page_set_flags_ok gen restore room s_cpu ∅ 0x1000 0x4000 rwx cpu_mgr cpu_single)
    as (s & E & Hf & _); [lia|by vm_compute|].
  unfold s_map. rewrite E. cbn [ok]. destruct Hf as [Hm Hs _ _ _ _ _].
  by destruct (writable rwx).
Qed.

Lemma demo_gen_spec (s : st) pc_ :
  qemu_host_page_size s = 4096 → (pc_ = 0x1ff8 ∨ pc_ = 0x3000) → gen_spec room gen s pc_.
Proof.
  intros Eh Hpc p. split.
  - split; cbn; [by vm_compute|intros []; cbn; lia|by intros []|lia].
  - split; cbn [gi_size gen].
    + destruct Hpc as [->| ->]; by vm_compute.
    + by vm_compute.
    + unfold page_ok, host_page_base. rewrite Eh. destruct Hpc as [->| ->]; by vm_compute.
    + unfold page_ok, host_page_base. rewrite Eh. destruct Hpc as [->| ->]; by vm_compute.
Qed.

Lemma tb0_mgr : mgr room s_tb0 {[0%nat]}.
Proof.
  destruct (tb_gen_code_ok room gen s_map ∅ 0 0x1ff8 0 0 0) as (s & t & tb & E & Hm & _).
  { apply map_ok. }
  { apply demo_gen_spec; [by vm_compute|by left]. }
  assert (t = snd (ok (dead, 0%nat) (tb_gen_code gen s_map 0 0x1ff8 0 0 0))) as Et by (by rewrite E).
  vm_compute in Et. subst t. unfold s_tb0. rewrite E. cbn [ok fst].
  replace (must_flush s_map) with false in Hm by (by vm_compute). rewrite union_empty_r_L in Hm. exact Hm.
Qed.

Lemma tb1_mgr : mgr room s_tb1 {[0%nat; 1%nat]}.
Proof.
  destruct (tb_gen_code_ok room gen s_tb0 {[0%nat]} 0 0x3000 0 0 0) as (s & t & tb & E & Hm & _).
  { apply tb0_mgr. }
  { apply demo_gen_spec; [by vm_compute|by right]. }
  assert (t = snd (ok (dead, 0%nat) (tb_gen_code gen s_tb0 0 0x3000 0 0 0))) as Et by (by rewrite E).
  vm_compute in Et. subst t. unfold s_tb1. rewrite E. cbn [ok fst].
  replace (must_flush s_tb0) with false in Hm by (by vm_compute). rewrite union_comm_L in Hm. exact Hm.
Qed.

Lemma run_mgr : mgr room s_run {[0%nat; 1%nat]}.
Proof.
  destruct (add_jump_mgr room s_tb1 {[0%nat; 1%nat]} 0 S0 1 tb1_mgr) as (s & E & Hm & _); [set_solver..| |].
  { intros tb Htb. vm_compute in Htb. apply (inj Some) in Htb as <-. by vm_compute. }
  unfold s_run. by rewrite E.
Qed.

Lemma run_single : single_ok s_run.
Proof.
  intros e He. vm_compute in He. injection He as <-. split; [apply not_eq_None_Some; by vm_compute|].
  intros env t E Et. exfalso. vm_compute in E. apply (inj Some) in E as <-. done.
Qed.

(** The same session as a run of events. *)
Lemma map_reachable : reachable s_map.
Proof.
  apply (reach_step gen restore [] s_cpu (EvMap 0x1000 0x4000 rwx)).
  - apply (reach_step gen restore [] (cpu_exec_init s_boot cpu0) (EvEnter 0)); [|by vm_compute|done].
    apply (reach_boot (Some [49; 54; 75]) 65536 12 (λ _, zero_tb) ∅ [cpu0] s_boot);
      [lia|lia|by vm_compute|done| |by repeat constructor].
    destruct (init_mgr (Some [49; 54; 75]) 65536 12 (λ _, zero_tb) ∅) as (s & E & _); [lia|lia|by vm_compute|done|].
    unfold s_boot. change 4096 with (2 ^ 12). by rewrite E.
  - split; [lia|by vm_compute].
  - destruct (page_set_flags_ok gen restore room s_cpu ∅ 0x1000 0x4000 rwx cpu_mgr cpu_single)
      as (s & E & _); [lia|by vm_compute|]. cbn [step]. unfold s_map. by rewrite E.
Qed.

(** Block 0 is invalidated while the CPU runs it, and the CPU returns from it:
    [tb_find_slow] clears the flag, and the dead block is chained. *)
Definition s_dead : st := ok dead (tb_phys_invalidate s_tb1 0 no_page).

Lemma dead_mgr : mgr room s_dead {[1%nat]}.
Proof.
  destruct (inval_mgr room s_tb1 {[0%nat; 1%nat]} (λ _, False) 0 no_page tb1_mgr skips_none) as (s & E & Hm & _);
    [set_solver|].
  unfold s_dead. rewrite E. cbn [ok]. by replace ({[0%nat; 1%nat]} ∖ {[0%nat]}) with ({[1%nat]} : gset nat) in Hm by set_solver.
Qed.

Definition s_next : st := fst (fst (ok (dead, 0%nat, false) (exec_lookup gen [] s_dead 0 (FromTB 0 S0)))).

Lemma invalidated_block_chained :
  tb_invalidated_flag s_dead = 1 ∧ jnext s_dead (0%nat, Lnext S0) = None ∧
  exec_lookup gen [] s_dead 0 (FromTB 0 S0) = Ok (s_next, 2%nat, true) ∧
  jnext s_next (0%nat, Lnext S0) = Some (2%nat, Lfirst) ∧ jnext s_next (2%nat, Lfirst) = Some (0%nat, Lnext S0).
Proof. by vm_compute. Qed.

(** Another CPU flushes while this one runs block 1: the number of the flushed
    block is chained to the new block 0, and when block 1 is reused the list of
    block 0 is broken, so that the invalidation of block 0 faults. *)
Definition s_flushed : st := ok dead (tb_flush s_tb1 0).
Definition s_stale : st := fst (fst (ok (dead, 0%nat, false) (exec_lookup gen [] s_flushed 0 (FromTB 1 S0)))).
Definition s_reused : st := fst (ok (dead, 0%nat) (tb_gen_code gen s_stale 0 0x3000 0 0 0)).

Lemma flushed_block_chained :
  exec_lookup gen [] s_flushed 0 (FromTB 1 S0) = Ok (s_stale, 0%nat, true) ∧ nb_tbs s_stale = 1%nat ∧
  jnext s_stale (0%nat, Lfirst) = Some (1%nat, Lnext S0) ∧
  tb_gen_code gen s_stale 0 0x3000 0 0 0 = Ok (s_reused, 1%nat) ∧
  tb_phys_invalidate s_reused 0 no_page = Er EFault.
Proof. by vm_compute. Qed.

(** The array of blocks comes from [qemu_malloc]: an [env] field that is not
    zero is freed when the block is first used. *)
Lemma wild_env_faults :
  ∃ s : st, cpu_exec_init_all (Some [49; 54; 75]) 65536 4096 (λ _, zero_tb <| tb_env := EnvWild |>) ∅ = Ok s ∧
    tb_alloc s 0x1000 = Er EFault.
Proof. eexists. split; [by vm_compute|by vm_compute]. Qed.

End Demo.
