(* ===== verification/TBProps.v ===== *)
(** * Correctness of the translation block manager

    The theorems about the block manager and the execution loop, each with an
    instance at the session of [Demo]. *)

From stdpp Require Import base gmap list fin_maps.
From S2P Require Import Prelude Chain Config CodePatch Bitmap PageTable TBData TBOps SMC TBInv.
From S2P Require Import TBLists TBCode TBInval TBJump TBLink TBGen TBFind SMCRange SMCPage Trace.
From S2P Require Import TraceInv CpuExec ExecInv Init Reach.
Local Open Scope Z_scope.
Local Coercion Z.of_nat : nat >-> Z.

Section props.
  Context `{Guest} `{!PageTable PT}.
  Notation st := (exec_state PT).
  Implicit Types (s : st) (t u v : tbid) (tb : TranslationBlock) (env : CPUState) (n m : slot)
    (live : gset tbid).

(** ** Invalidation *)

(** C3. [tb_phys_invalidate] implements the removal of a block: it succeeds,
    the invariant holds without the block, no block is changed, and the other
    chained jumps stay chained. *)
Theorem tb_phys_invalidate_refines r s live t :
  mgr r s live → t ∈ live →
  ∃ s', tb_phys_invalidate s t no_page = Ok s' ∧ mgr r s' (live ∖ {[t]}) ∧
    (∀ u, static s' u = static s u) ∧
    (∀ u n v, u ≠ t → v ≠ t → v ∈ live → chained s (blocks s) u n v → chained s' (blocks s') u n v).
Proof.
  intros Hm Ht. destruct (inval_mgr r s live _ t no_page Hm skips_none Ht) as (s' & ? & ? & Hf).
  exists s'. split_and!; [done..|apply Hf|]. rewrite (inval_blocks _ _ _ _ Hf). apply (if_chained _ _ _ _ _ Hf).
Qed.

(** The destination of a native jump: the epilogue of its block or the start
    of a live block. *)
Lemma native_dest r s live u tb n :
  mgr r s live → jumper s live u tb n →
  ∃ d, jmp_dest (host_code s) (jmp_slot tb n) = Some d ∧
    (d = jmp_epilogue tb n ∨ ∃ v tbv, v ∈ live ∧ tbs s !! v = Some tbv ∧ d = tc_ptr tbv).
Proof.
  intros Hm Hj. pose proof Hj as (Hu & Htb & Hn). destruct (m_code _ _ _ _ Hm) as [_ _ C2 C3].
  destruct (decide (jnext s (u, Lnext n) = None)) as [E|E].
  - exists (jmp_epilogue tb n). split; [by apply (C2 u)|by left].
  - destruct (inv_jump _ _ _ _ (m_inv _ _ _ _ Hm)) as [_ Hc]. 
    assert (u ∈ blocks s) as HuJ by (by apply (inv_jset _ _ _ _ (m_inv _ _ _ _ Hm))).
    destruct (Hc u n HuJ E) as (v & l & Hv & Hl & Hin).
    destruct (inv_live _ _ _ _ (m_inv _ _ _ _ Hm) v Hv) as (tbv & Htv & _).
    exists (tc_ptr tbv). split; [|right; eauto]. apply (C3 u tb n v tbv); [by split_and!|done..|]. by exists l.
Qed.

(** Only the code of [t] starts where [t] starts. *)
Lemma start_unique r s live u v tb tbv n t tbt :
  mgr r s live → t ∉ live → (t < nb_tbs s)%nat → tbs s !! t = Some tbt → jumper s live u tb n →
  v ∈ live → tbs s !! v = Some tbv → jmp_epilogue tb n ≠ tc_ptr tbt ∧ tc_ptr tbv ≠ tc_ptr tbt.
Proof.
  intros Hm Ht Hnt Htt (Hu & Htb & Hn) Hv Htv. pose proof (m_layout _ _ _ _ Hm) as Hly.
  pose proof (inv_live _ _ _ _ (m_inv _ _ _ _ Hm)) as Hlv.
  pose proof (live_nb s live u Hlv Hu) as Hbu. pose proof (live_nb s live v Hlv Hv) as Hbv.
  destruct (ly_jump s Hly u tb n Hbu Htb Hn) as (_ & _ & He).
  rewrite <- (block_start_tb s t tbt), <- (block_start_tb s v tbv) by done.
  assert (u ≠ t ∧ v ≠ t) as [Hut Hvt] by (split; by intros ->). split.
  - destruct (decide (u < t)%nat) as [|]; [pose proof (block_start_mono_le s (S u) t Hly); lia|].
    pose proof (block_start_mono s t u Hly). lia.
  - destruct (decide (v < t)%nat) as [|]; [pose proof (block_start_mono s v t Hly); lia|].
    pose proof (block_start_mono s t v Hly). lia.
Qed.

(** C4. After the invalidation of a block nothing leads to its code: no native
    jump of a remaining block goes there, no CPU has it in its jump cache, and
    it is on no hash chain. *)
Theorem tb_phys_invalidate_unreachable r s live t tbt :
  mgr r s live → t ∈ live → tbs s !! t = Some tbt →
  ∃ s', tb_phys_invalidate s t no_page = Ok s' ∧
    (∀ u tb n, jumper s' (live ∖ {[t]}) u tb n →
       jmp_dest (host_code s') (jmp_slot tb n) ≠ Some (tc_ptr tbt)) ∧
    (∀ e env h, cpus s' !! e = Some env → tb_jmp_cache env !! h ≠ Some t) ∧
    ¬ linked s' t.
Proof.
  intros Hm Ht Htt. destruct (inval_mgr r s live _ t no_page Hm skips_none Ht) as (s' & Hs & Hm' & Hf).
  assert (t ∉ live ∖ {[t]}) as Hnt by set_solver.
  exists s'. split_and!; [done|..].
  - intros u tb n Hj E. destruct (native_dest r s' _ u tb n Hm' Hj) as (d & Ed & Hd).
    destruct (static_some s s' t tbt) as (tbt' & Htt' & Ee); [by rewrite (if_static _ _ _ _ _ Hf)|done|].
    assert (t < nb_tbs s')%nat as Hlt.
    { rewrite (if_rest _ _ _ _ _ Hf). cbn. by apply (live_nb s live t (inv_live _ _ _ _ (m_inv _ _ _ _ Hm))). }
    rewrite <- (erase_view tc_ptr _ _ Ee) in E by done. rewrite E in Ed. injection Ed as <-.
    destruct Hj as (Hu & Htb & Hn). destruct Hd as [Hd|(v & tbv & Hv & Htv & Hd)].
    + by destruct (start_unique r s' _ u u tb tb n t tbt' Hm' Hnt Hlt Htt' (conj Hu (conj Htb Hn)) Hu Htb).
    + by destruct (start_unique r s' _ u v tb tbv n t tbt' Hm' Hnt Hlt Htt' (conj Hu (conj Htb Hn)) Hv Htv).
  - intros e env h He Hh. by destruct (inv_cache _ _ _ _ (m_inv _ _ _ _ Hm') e env h t He Hh).
  - intros (tb & l & Htb & Hs' & Hin).
    destruct (inv_hash _ _ _ _ (m_inv _ _ _ _ Hm') (tb_bucket tb) I) as (l' & Hl & _ & Hl').
    rewrite (seg_unique _ _ _ _ Hs' Hl) in Hin. by apply Hl' in Hin as [? _].
Qed.

(** ** Chaining *)

(** The native jump of a chained block goes to the block it is chained to. *)
Lemma chained_dest r s live u n v tb tbv :
  mgr r s live → (u ∈ blocks s) → v ∈ live → tbs s !! u = Some tb → tbs s !! v = Some tbv →
  chained s (blocks s) u n v → jmp_dest (host_code s) (jmp_slot tb n) = Some (tc_ptr tbv).
Proof.
  intros Hm Hu Hv Htb Htv Hc. destruct (m_code _ _ _ _ Hm) as [_ C1 _ C3].
  apply (C3 u tb n v tbv); [|done..]. split_and!; [done..|]. apply (C1 u); [done..|]. by eapply chained_some.
Qed.

(** C5. [tb_add_jump] chains a free jump: the native jump of the first block,
    which may have been invalidated but not flushed, goes to the code of the
    second, and the invariant is kept. *)
Theorem tb_add_jump_chains r s live u n v tb tbv :
  mgr r s live → (u < nb_tbs s)%nat → v ∈ live → tbs s !! u = Some tb → tbs s !! v = Some tbv →
  has_jump tb n → get2 (jmp_next tb) n = None →
  ∃ s', tb_add_jump s u n v = Ok s' ∧ mgr r s' live ∧ chained s' (blocks s') u n v ∧
    jmp_dest (host_code s') (jmp_slot tb n) = Some (tc_ptr tbv).
Proof.
  intros Hm Hu%elem_of_blocks Hv Htb Htv Hn Hfree.
  destruct (add_jump_mgr r s live u n v Hm Hu Hv) as (s' & Hs & Hm' & Hf & Hch); [intros; by simplify_eq|].
  assert (blocks s' = blocks s) as Eb by (by apply blocks_nb, jframe_nb).
  assert (chained s' (blocks s') u n v) as Hc by (rewrite Eb; apply Hch; unfold jnext; cbn; by rewrite Htb).
  exists s'. split_and!; [done..|].
  destruct (static_some s s' u tb) as (tb' & Htb' & Ee); [by rewrite (jf_static _ _ Hf)|done|].
  destruct (static_some s s' v tbv) as (tbv' & Htv' & Eev); [by rewrite (jf_static _ _ Hf)|done|].
  rewrite <- (erase_view (λ tb, jmp_slot tb n) _ _ Ee), <- (erase_view tc_ptr _ _ Eev) by done.
  apply (chained_dest r s' live u n v); [done|by rewrite Eb|done..].
Qed.

(** C6. [cpu_exit] sets the exit request of a CPU and unchains the block it
    runs: every block that the recorded chained jumps lead to from there has
    no chained jump any more, and the direct native jumps of those that are
    live go to their own epilogues.  Nothing is said of the jumps through the
    IBTC, nor of optimized traces. *)
Theorem cpu_exit_unchains r s live e env t :
  mgr r s live → cpus s !! e = Some env → current_tb env = Some t → (t < nb_tbs s)%nat →
  ∃ s' env', cpu_exit s e = Ok s' ∧ mgr r s' live ∧ cpus s' !! e = Some env' ∧
    exit_request env' = 1 ∧ current_tb env' = None ∧
    ∀ v, runs_to s live (blocks s) t v →
      (∀ n, jnext s' (v, Lnext n) = None) ∧
      ∀ tb n, jumper s' live v tb n → jmp_dest (host_code s') (jmp_slot tb n) = Some (jmp_epilogue tb n).
Proof.
  intros Hm He Ht Hl. unfold cpu_exit. set (s1 := s <| cpus := _ |>).
  assert (cpus s1 !! e = Some (env <| exit_request := 1 |>)) as He1 by (cbn; by rewrite list_lookup_alter_eq, He).
  destruct (cpu_unlink_tb_ok r s1 live (λ _, False) e) as (s2 & -> & Hu & Hreach).
  - by apply (mgr_upd_cpu r s live (λ _, False) e).
  - eauto.
  - intros env' u E Eu. rewrite He1 in E. apply (inj Some) in E as <-. cbn in Eu.
    apply elem_of_blocks. change (nb_tbs s1) with (nb_tbs s). congruence.
  - destruct (ul_dom _ _ _ _ _ _ Hu) as [env2 He2]; [eauto|]. exists s2, env2.
    split_and!; [done|apply Hu|done| |by apply (ul_none _ _ _ _ _ _ Hu)|].
    { pose proof (ul_exit _ _ _ _ _ _ Hu) as E. rewrite He2, He1 in E. by apply (inj Some) in E. }
    intros v Hv. assert (∀ n, jnext s2 (v, Lnext n) = None) as Hn.
    { apply (Hreach _ t He1); [done|]. clear -Hv. induction Hv; [constructor|]. by eapply runs_step. }
    split; [done|]. intros tb n Hj. by apply (ci_free _ _ _ (m_code _ _ _ _ (ul_mgr _ _ _ _ _ _ Hu)) v).
Qed.

(** ** Runs *)

(** C1. Every state reached from start-up by events that satisfy [guard], in
    any order -- mappings, turns of the execution loop of any CPU, write
    faults, interrupts and exits of any CPU, profiling, debugger requests --
    has a set of live blocks that the hash lists, the page lists, the jump
    lists, the jump caches and the native code agree on.  The block a CPU
    returns from may have been invalidated in the meantime. *)
Theorem reachable_mgr s : reachable s → ∃ live, mgr room s live.
Proof. intros [live [? _]]%reachable_inv. eauto. Qed.

(** C2. In such a state every event that satisfies [guard] succeeds: no list
    walk falls off its list, no NULL pointer is dereferenced, no loop
    diverges. *)
Theorem reachable_progress gen restore cp s ev :
  reachable s → guard gen restore cp s ev →
  ∃ s', step gen restore cp s ev = Ok s'.
Proof.
  intros [live Hi]%reachable_inv Hg. destruct (step_inv gen restore cp s live ev Hi Hg) as (s' & _ & ? & _). eauto.
Qed.

Section translator.
  Context (gen : Z → gen_info) (restore : TranslationBlock → Z → Z * Z * Z → Z * Z * Z) (cp : list Z).

(** ** Translation and lookup *)

(** C7. [tb_gen_code] always succeeds, also when the cache is full: the new
    block is linked and was not live before, the other blocks are those of
    before, or none after a flush, and they are unchanged. *)
Theorem tb_gen_code_total r s live e pc_ cs_base_ flags_ cflags_ :
  mgr r s live → gen_spec r gen s pc_ →
  let live0 := if must_flush s then ∅ else live in
  ∃ s' t tb, tb_gen_code gen s e pc_ cs_base_ flags_ cflags_ = Ok (s', t) ∧
    mgr r s' ({[t]} ∪ live0) ∧ t ∉ live0 ∧ tbs s' !! t = Some tb ∧
    tb_for tb pc_ cs_base_ flags_ cflags_ ∧ (∀ u, u ∈ live0 → tbs s' !! u = tbs s !! u) ∧
    tb_invalidated_flag s' = if must_flush s then 1 else tb_invalidated_flag s.
Proof.
  intros Hm Hg. destruct (tb_gen_code_ok r gen s live e pc_ cs_base_ flags_ cflags_ Hm Hg)
    as (s' & t & tb & ? & ? & ? & ? & ? & _ & _ & Hk & _ & ?). exists s', t, tb. split_and!; try done.
  intros u Hu. apply Hk. destruct (must_flush s); [done|]. by apply (inv_jset _ _ _ _ (m_inv _ _ _ _ Hm)).
Qed.

(** C8. [tb_find_fast] returns a live block translated for the guest state of
    the CPU: the one that was live, if there was one, and otherwise a new one. *)
Theorem tb_find_fast_finds r s live e env pc_ cs_base_ flags_ :
  mgr r s live → cpus s !! e = Some env → guest_regs env = (pc_, cs_base_, flags_) →
  gen_spec r gen s pc_ →
  ∃ s' live' t, tb_find_fast gen s e = Ok (s', t) ∧ mgr r s' live' ∧ t ∈ live' ∧
    matches s' t pc_ cs_base_ flags_ ∧
    ((∃ u, u ∈ live ∧ matches s u pc_ cs_base_ flags_) → live' = live) ∧
    ((∀ u, u ∈ live → ¬ matches s u pc_ cs_base_ flags_) →
       t ∉ (if must_flush s then ∅ else live) ∧ live' = {[t]} ∪ (if must_flush s then ∅ else live)).
Proof.
  intros Hm He Hr Hg. destruct (tb_find_fast_ok r gen s live e env pc_ cs_base_ flags_ Hm He Hr Hg)
    as (s' & live' & t & ? & [? ? ? _ _ _ ? ?]). exists s', live', t. by split_and!.
Qed.

(** C9. [tb_find_pc] finds the block whose code contains a host address, and
    finds none exactly when the address is outside the code in use. *)
Theorem tb_find_pc_correct r s live tcp :
  mgr r s live → (0 < nb_tbs s)%nat →
  ∃ o, tb_find_pc s tcp = Ok o ∧
    match o with
    | Some t => (t < nb_tbs s)%nat ∧ block_start s t ≤ tcp < block_start s (S t)
    | None => tcp < code_gen_buffer s ∨ code_gen_ptr s ≤ tcp
    end.
Proof.
  intros Hm Hnb. destruct (tb_find_pc_ok s tcp (m_layout _ _ _ _ Hm)) as (o & ? & Ho). exists o. split; [done|].
  destruct o; [done|]. destruct Ho as [?|?]; [lia|done].
Qed.

(** C10. A turn of the loop of [cpu_exec], from any exit whose block was not
    flushed: the block that is about to run is live, was translated for the
    state of the CPU, and is recorded as the running one.  The exit is chained
    to it, on the list and in the native code, exactly when the invalidation
    flag is clear after the lookup; otherwise no jump changes.  The block of
    the exit may be dead: the lookup clears the flag. *)
Theorem exec_lookup_correct r s live e env next pc_ cs_base_ flags_ :
  mgr r s live → cpus s !! e = Some env → guest_regs env = (pc_, cs_base_, flags_) →
  gen_spec r gen s pc_ → next_ok cp s next →
  ∃ s1 s' live' t run, tb_find_fast gen s e = Ok (s1, t) ∧ exec_lookup gen cp s e next = Ok (s', t, run) ∧
    mgr r s' live' ∧ t ∈ live' ∧ matches s' t pc_ cs_base_ flags_ ∧
    current_tb <$> cpus s' !! e = Some (Some t) ∧ tb_invalidated_flag s' = 0 ∧
    (∀ u n, next = FromTB u n → tb_invalidated_flag s1 = 0 → jnext s1 (u, Lnext n) = None →
       chained s' (blocks s') u n t ∧
       ∀ tb tbt, tbs s' !! u = Some tb → tbs s' !! t = Some tbt →
         jmp_dest (host_code s') (jmp_slot tb n) = Some (tc_ptr tbt)) ∧
    (tb_invalidated_flag s1 ≠ 0 → ∀ x, jnext s' x = jnext s1 x).
Proof.
  intros Hm He Hr Hg Hn. destruct (exec_lookup_ok gen r cp s live e env next pc_ cs_base_ flags_ Hm He Hr Hg Hn)
    as (s1 & s' & live' & t & run & ? & ? & [? ? ? _ ? _ _ _ ? Hch ?]). exists s1, s', live', t, run.
  split_and!; try done; [|auto]. intros u n Eu E0 Hf. destruct (Hch u n Eu E0) as [Hu Hc]. split; [auto|].
  intros tb tbt Htb Htt. apply (chained_dest r s' live' u n t); auto.
Qed.

End translator.

End props.

(** ** Instances *)

Module TBWitness.
#[local] Existing Instance i386_guest.
#[local] Existing Instance Radix.radix_page_table.
Import Demo.

Notation both := ({[0%nat; 1%nat]} : gset nat).

Lemma reachable_mgr_witness : ∃ live, mgr room s_map live.
Proof. apply (reachable_mgr s_map). apply map_reachable. Defined.

Lemma reachable_progress_witness : ∃ s', step gen restore [] s_map (EvTurn 0 NoTB) = Ok s'.
Proof.
  apply (reachable_progress gen restore []); [apply map_reachable|].
  split; [by vm_compute|]. split.
  - intros pc_ cs_base_ flags_ E. vm_compute in E. injection E as <- _ _.
    apply demo_gen_spec; [by vm_compute|by left].
  - split; [done|]. intros e' E. vm_compute in E. injection E as <-. by left.
Defined.

Lemma tb_phys_invalidate_refines_witness :
  ∃ s', tb_phys_invalidate s_run 1 no_page = Ok s' ∧ mgr room s' (both ∖ {[1%nat]}) ∧
    (∀ u, static s' u = static s_run u) ∧
    (∀ u n v, u ≠ 1%nat → v ≠ 1%nat → v ∈ both → chained s_run (blocks s_run) u n v →
       chained s' (blocks s') u n v).
Proof. apply (tb_phys_invalidate_refines room s_run both 1); [apply run_mgr|set_solver]. Defined.

Definition tb_of (s : st) (t : tbid) : TranslationBlock := default zero_tb (tbs s !! t).

Lemma tb_phys_invalidate_unreachable_witness :
  ∃ s', tb_phys_invalidate s_run 1 no_page = Ok s' ∧
    (∀ u tb n, jumper s' (both ∖ {[1%nat]}) u tb n →
       jmp_dest (host_code s') (jmp_slot tb n) ≠ Some (tc_ptr (tb_of s_run 1))) ∧
    (∀ e env h, cpus s' !! e = Some env → tb_jmp_cache env !! h ≠ Some 1%nat) ∧ ¬ linked s' 1.
Proof.
  apply (tb_phys_invalidate_unreachable room s_run both 1 (tb_of s_run 1)); [apply run_mgr|set_solver|by vm_compute].
Defined.

Lemma tb_add_jump_chains_witness :
  ∃ s', tb_add_jump s_tb1 0 S0 1 = Ok s' ∧ mgr room s' both ∧ chained s' (blocks s') 0 S0 1 ∧
    jmp_dest (host_code s') (jmp_slot (tb_of s_tb1 0) S0) = Some (tc_ptr (tb_of s_tb1 1)).
Proof.
  apply (tb_add_jump_chains room s_tb1 both 0 S0 1 (tb_of s_tb1 0) (tb_of s_tb1 1));
    [apply tb1_mgr|by vm_compute; lia|set_solver|by vm_compute..].
Defined.

(** The session with block 0 running. *)
Definition s_exec : st := upd_cpu s_run 0 (λ env, env <| current_tb := Some 0%nat |>).
Definition cpu_of (s : st) : CPUState := default cpu0 (cpus s !! 0%nat).

Lemma cpu_exit_unchains_witness :
  ∃ s' env', cpu_exit s_exec 0 = Ok s' ∧ mgr room s' both ∧ cpus s' !! 0%nat = Some env' ∧
    exit_request env' = 1 ∧ current_tb env' = None ∧
    ∀ v, runs_to s_exec both (blocks s_exec) 0 v →
      (∀ n, jnext s' (v, Lnext n) = None) ∧
      ∀ tb n, jumper s' both v tb n → jmp_dest (host_code s') (jmp_slot tb n) = Some (jmp_epilogue tb n).
Proof.
  apply (cpu_exit_unchains room s_exec both 0 (cpu_of s_exec) 0);
    [apply mgr_upd_cpu; [done|apply run_mgr]|by vm_compute|by vm_compute|by vm_compute; lia].
Defined.

Lemma tb_gen_code_total_witness :
  let live0 := if must_flush s_tb0 then ∅ else {[0%nat]} in
  ∃ s' t tb, tb_gen_code gen s_tb0 0 0x3000 0 0 0 = Ok (s', t) ∧
    mgr room s' ({[t]} ∪ live0) ∧ t ∉ live0 ∧ tbs s' !! t = Some tb ∧ tb_for tb 0x3000 0 0 0 ∧
    (∀ u, u ∈ live0 → tbs s' !! u = tbs s_tb0 !! u) ∧
    tb_invalidated_flag s' = if must_flush s_tb0 then 1 else tb_invalidated_flag s_tb0.
Proof.
  apply (tb_gen_code_total gen room s_tb0 {[0%nat]}); [apply tb0_mgr|].
  apply demo_gen_spec; [by vm_compute|by right].
Defined.

Lemma tb_find_fast_finds_witness :
  ∃ s' live' t, tb_find_fast gen s_run 0 = Ok (s', t) ∧ mgr room s' live' ∧ t ∈ live' ∧
    matches s' t 0x1ff8 0 0 ∧
    ((∃ u, u ∈ both ∧ matches s_run u 0x1ff8 0 0) → live' = both) ∧
    ((∀ u, u ∈ both → ¬ matches s_run u 0x1ff8 0 0) →
       t ∉ (if must_flush s_run then ∅ else both) ∧ live' = {[t]} ∪ (if must_flush s_run then ∅ else both)).
Proof.
  apply (tb_find_fast_finds gen room s_run both 0 (cpu_of s_run)); [apply run_mgr|by vm_compute|by vm_compute|].
  apply demo_gen_spec; [by vm_compute|by left].
Defined.

Lemma tb_find_pc_correct_witness :
  ∃ o, tb_find_pc s_run 65570 = Ok o ∧
    match o with
    | Some t => (t < nb_tbs s_run)%nat ∧ block_start s_run t ≤ 65570 < block_start s_run (S t)
    | None => 65570 < code_gen_buffer s_run ∨ code_gen_ptr s_run ≤ 65570
    end.
Proof. apply (tb_find_pc_correct room s_run both); [apply run_mgr|by vm_compute; lia]. Defined.

(** The previous block, 0, was invalidated while it ran. *)
Lemma exec_lookup_correct_witness :
  ∃ s1 s' live' t run, tb_find_fast gen s_dead 0 = Ok (s1, t) ∧
    exec_lookup gen [] s_dead 0 (FromTB 0 S0) = Ok (s', t, run) ∧
    mgr room s' live' ∧ t ∈ live' ∧ matches s' t 0x1ff8 0 0 ∧
    current_tb <$> cpus s' !! 0%nat = Some (Some t) ∧ tb_invalidated_flag s' = 0 ∧
    (∀ u n, FromTB 0 S0 = FromTB u n → tb_invalidated_flag s1 = 0 → jnext s1 (u, Lnext n) = None →
       chained s' (blocks s') u n t ∧
       ∀ tb tbt, tbs s' !! u = Some tb → tbs s' !! t = Some tbt →
         jmp_dest (host_code s') (jmp_slot tb n) = Some (tc_ptr tbt)) ∧
    (tb_invalidated_flag s1 ≠ 0 → ∀ x, jnext s' x = jnext s1 x).
Proof.
  apply (exec_lookup_correct gen [] room s_dead {[1%nat]} 0 (cpu_of s_dead));
    [apply dead_mgr|by vm_compute|by vm_compute| |].
  - apply demo_gen_spec; [by vm_compute|by left].
  - split; [by vm_compute; lia|]. intros tb Htb. vm_compute in Htb. apply (inj Some) in Htb as <-. by vm_compute.
Defined.

End TBWitness.
