(* ===== verification/SMCProps.v ===== *)
(** * Correctness of the support for self-modifying code

    The theorems about the invalidation of ranges, the code bitmap, the page
    flags and the breakpoints, each with an instance at the session of [Demo],
    and the limits of [page_check_range]. *)

From stdpp Require Import base gmap list fin_maps.
From S2P Require Import Prelude Chain Config CodePatch Bitmap PageTable TBData TBOps SMC TBInv.
From S2P Require Import TBLists TBCode TBInval TBJump TBLink TBGen TBFind SMCRange SMCPage Trace.
From S2P Require Import TraceInv CpuExec ExecInv Init Reach.
Local Open Scope Z_scope.
Local Coercion Z.of_nat : nat >-> Z.

Section props.
  Context `{Guest} `{!PageTable PT}.
  Notation st := (exec_state PT).
  Implicit Types (s : st) (t u v : tbid) (tb : TranslationBlock) (env : CPUState) (n m : slot)
    (live : gset tbid).

(** ** The code bitmap *)

Lemma range_contains tb n i k :
  tb_covers tb → tb_page tb n = Some i → 0 ≤ k < TARGET_PAGE_SIZE →
  (tb_page_range tb n).1 ≤ k < (tb_page_range tb n).2 ↔ contains tb (i * TARGET_PAGE_SIZE + k).
Proof.
  intros Hcov Hp Hk. pose proof Hcov as (Hpc & Hend & Hsz & Epa). pose proof page_size_pos as HP.
  unfold contains. destruct n; cbn in Hp |- *.
  - rewrite Epa in Hp. cbn in Hp. rewrite page_index_base in Hp. injection Hp as <-.
    pose proof (page_split (pc tb)) as Hsp. rewrite page_base_index in Hsp. case_bool; bprop; lia.
  - destruct (Z.eqb_spec (at1 (page_addr tb)) no_page) as [|Hne]; [done|]. injection Hp as <-.
    destruct (covers_page2 tb Hcov Hne) as [E2 Hin]. rewrite E2, page_index_mul. rewrite E2 in Hin.
    pose proof (page_split (pc tb)) as Hsp. rewrite page_base_index in Hsp. pose proof (page_off_range (pc tb)).
    unfold tul. rewrite wrap_small by lia. rewrite page_off_eq.
    rewrite <- (Z.mod_unique_pos (pc tb + size tb) TARGET_PAGE_SIZE (page_index (pc tb) + 1)
      (pc tb + size tb - (page_index (pc tb) + 1) * TARGET_PAGE_SIZE)) by lia. lia.
Qed.

(** C12. [build_page_bitmap] marks exactly the bytes of the page that are code
    of a live block. *)
Theorem build_page_bitmap_exact r s live i p :
  mgr r s live → valid_index i → page_find (l1_map s) i = Some p →
  ∃ s' tab, build_page_bitmap s i = Ok s' ∧
    code_bitmap (page_desc (l1_map s') i) = Some tab ∧ 8 * length tab = TARGET_PAGE_SIZE ∧
    ∀ k, 0 ≤ k < TARGET_PAGE_SIZE →
      bit tab k = true ↔ ∃ t tb, t ∈ live ∧ tbs s !! t = Some tb ∧ contains tb (i * TARGET_PAGE_SIZE + k).
Proof.
  intros Hm Hi Hp. pose proof page_size_pos as HP. pose proof (inv_live _ _ _ _ (m_inv _ _ _ _ Hm)) as Hlv.
  destruct (page_list s live i (m_inv _ _ _ _ Hm) Hi) as (l & Hs & _ & Hl & Hf).
  assert (first_tb p = page_head s i) as Ef by (unfold page_head, page_desc; by rewrite Hp).
  assert (8 * length empty_bitmap = TARGET_PAGE_SIZE) as E8
    by (unfold empty_bitmap; rewrite length_replicate; apply page_size_8).
  destruct (page_bitmap_loop_ok (loop_fuel s) s live empty_bitmap (first_tb p) l) as (tab & E & El & Hb);
    [done|by rewrite Ef|by intros x [? _]%Hl|done|done|].
  unfold build_page_bitmap. rewrite Hp. cbn [rbind deref]. rewrite E. cbn [rbind].
  eexists _, tab. split; [done|]. split_and!; [|lia|].
  { rewrite page_desc_upd, decide_True by eauto. done. }
  intros k Hk. rewrite Hb by lia.
  assert (bit empty_bitmap k = false) as ->.
  { unfold bit, empty_bitmap. destruct (_ !! _) as [z|] eqn:Ez; [|done].
    apply lookup_replicate in Ez as [-> _]. apply Z.testbit_0_l. }
  split.
  - intros [?|([t n] & tb & Hx & Htb & Hr)]; [done|]. apply Hl in Hx as [Ht Hpg]. cbn in *. rewrite Htb in Hpg.
    destruct (Hlv t Ht) as (tb' & Htb' & _ & _ & _ & _ & Hcov). simplify_eq.
    exists t, tb. split_and!; [done..|]. by apply (range_contains tb n i k).
  - intros (t & tb & Ht & Htb & Hc). right.
    destruct (overlap_page s live t (i * TARGET_PAGE_SIZE + k) (i * TARGET_PAGE_SIZE + k + 1)) as [n Hn];
      [done|done|unfold valid_index in Hi; nia|by rewrite Z.add_simpl_r| |].
    { unfold overlap. rewrite Htb. unfold contains in Hc. apply andb_true_iff. rewrite !Z.ltb_lt. lia. }
    assert (page_index (i * TARGET_PAGE_SIZE + k) = i) as Ei.
    { rewrite page_index_eq. rewrite Z.add_comm, Z.div_add, Z.div_small by lia. lia. }
    rewrite Ei in Hn. exists (t, n), tb. split; [by apply Hl|]. split; [done|].
    destruct (Hlv t Ht) as (tb' & Htb' & _ & _ & _ & _ & Hcov). simplify_eq.
    destruct Hn as [_ Hn]. cbn in Hn. rewrite Htb in Hn. by apply (range_contains tb n i k).
Qed.

Section translator.
  Context (gen : Z → gen_info) (restore : TranslationBlock → Z → Z * Z * Z → Z * Z * Z).

(** ** Ranges *)

(** C11. [tb_invalidate_phys_page_range] on a range within a page removes the
    live blocks whose code overlaps the range and no other; when the running
    block was among them and the guest needs precise semantics, one block for
    the interrupted instruction is translated and the main loop is resumed. *)
Theorem tb_invalidate_phys_page_range_exact r s live start end_ (is_write : bool) :
  mgr r s live → single_ok s → (is_write = true → is_Some (cpu_single_env s)) →
  (is_write = true → restore_ok restore gen r s) →
  0 ≤ start < end_ → page_index (end_ - 1) = page_index start → valid_index (page_index start) →
  ∃ s' fl, tb_invalidate_phys_page_range gen restore s start end_ is_write = Ok (s', fl) ∧
    match fl with
    | Return => mgr r s' (survivors s start end_ live)
    | Longjmp => is_write = true ∧ ∃ t live0, (live0 = survivors s start end_ live ∨ live0 = ∅) ∧ t ∉ live0 ∧
        mgr r s' ({[t]} ∪ live0)
    end.
Proof.
  intros Hm Hsi Hw Hg Hs Hpg Hv.
  destruct (tb_invalidate_phys_page_range_ok restore gen r s live start end_ is_write)
    as (s' & fl & E & Hp & Hr); [done..|]. exists s', fl. split; [done|]. destruct fl; [by apply Hp|].
  split; [destruct is_write; [done|]; by destruct (Hr eq_refl)|].
  destruct Hp as (t & live0 & ? & ? & ? & _). eauto.
Qed.

(** ** Page flags *)

(** C13. [page_set_flags] gives every page of the range the flags asked for,
    with PAGE_WRITE_ORG for writable ones, and leaves the others; making pages
    writable removes exactly the blocks with code on them, so that no page
    with translated code is ever writable. *)
Theorem page_set_flags_protects r s live start end_ flags_ :
  mgr r s live → single_ok s → 0 ≤ start < end_ →
  end_ + TARGET_PAGE_SIZE ≤ 2 ^ L1_MAP_ADDR_SPACE_BITS →
  let live' := if writable flags_ then off_pages s (page_index start) (last_page end_) live else live in
  ∃ s', page_set_flags gen restore s start end_ flags_ = Ok s' ∧ mgr r s' live' ∧
    (∀ j, valid_index j → pflags (page_desc (l1_map s') j) =
       if decide (page_index start ≤ j < last_page end_) then org_flags flags_
       else pflags (page_desc (l1_map s) j)) ∧
    (∀ t tb n j, t ∈ live' → tbs s' !! t = Some tb → tb_page tb n = Some j → valid_index j →
       pflags (page_desc (l1_map s') j) .& PAGE_WRITE = 0).
Proof.
  intros Hm Hsi Hs He. destruct (page_set_flags_ok gen restore r s live start end_ flags_ Hm Hsi Hs He)
    as (s' & E & [Hm' _ _ _ _ _ Hf] & _). exists s'. split_and!; [done..|].
  intros t tb n j Ht Htb Hp Hj. apply (m_prot _ _ _ _ Hm' j Hj); [auto|]. intros Hh.
  destruct (mgr_page_listed r s' _ j Hm' Hj) as (l & Hl & _ & Hin). rewrite Hh in Hl.
  destruct l; [|by destruct Hl]. apply (elem_of_nil (t, n)), Hin. split; [done|]. cbn. by rewrite Htb.
Qed.

(** C14. [page_unprotect], the handler of a write fault on a page that is
    read-only because of its code: when it returns, the fault is handled, the
    pages of the host page are writable, the host page is writable, and the
    blocks on it are gone; when the running block itself was modified, it
    resumes the main loop with the invariant intact. *)
Theorem page_unprotect_correct r s live address p host_pc :
  mgr r s live → single_ok s → page_ok s (page_base address) →
  qemu_host_page_size s ≤ 2 ^ 10 * TARGET_PAGE_SIZE →
  page_find (l1_map s) (page_index address) = Some p →
  pflags p .& PAGE_WRITE_ORG ≠ 0 → pflags p .& PAGE_WRITE = 0 →
  (host_pc ≠ 0 → is_Some (cpu_single_env s)) → (host_pc ≠ 0 → restore_ok restore gen r s) →
  ∃ s' ret fl, page_unprotect gen restore s address host_pc = Ok (s', ret, fl) ∧
    (host_pc = 0 → fl = Return) ∧
    match fl with
    | Return => ret = 1 ∧
        mgr r s' (off_pages s (host_first s address) (host_last s address) live) ∧
        (∀ j, valid_index j → pflags (page_desc (l1_map s') j) =
           add_write (host_first s address) (host_last s address) j (pflags (page_desc (l1_map s) j))) ∧
        ∃ prot, host_prot s' !! host_page_base s address = Some prot ∧ prot .& PAGE_WRITE ≠ 0
    | Longjmp => ∃ live', mgr r s' live'
    end.
Proof.
  intros Hm Hsi Hpo Hsz Hp Ho Hw He Hg.
  destruct (page_unprotect_ok gen restore r s live address p host_pc) as (s' & ret & fl & E & Hz & Hp'); [done..|].
  exists s', ret, fl. split_and!; [done..|]. destruct fl.
  - destruct Hp' as (? & [? _ _ _ _ _ ?] & ?). by split_and!.
  - destruct Hp' as (live' & ? & _). eauto.
Qed.


(** ** Breakpoints *)

(** C16. [cpu_breakpoint_insert] records the breakpoint, those of GDB in
    front, and leaves no block with the address in its code, so that the next
    execution of the address translates it anew. *)
Theorem cpu_breakpoint_insert_correct r s live e a flags_ l :
  mgr r s live → single_ok s → bp_addr_ok a → bps s e = Some l → gdb_first l →
  ∃ s' l', cpu_breakpoint_insert gen restore s e a flags_ = Ok (s', 0) ∧
    mgr r s' (survivors s a (a + 1) live) ∧
    (∀ t tb, t ∈ survivors s a (a + 1) live → tbs s !! t = Some tb → ¬ contains tb a) ∧
    bps s' e = Some l' ∧ gdb_first l' ∧ l' ≡ₚ mkBP a flags_ :: l.
Proof.
  intros Hm Hsi Ha Hl Hg.
  destruct (cpu_breakpoint_insert_ok gen restore r s live e a flags_ l Hm Hsi Ha Hl) as (s' & ? & ? & _ & ?).
  eexists s', _. split_and!; [done..|intros; by eapply survivors_contains|done|by apply bp_insert_gdb_first|].
  unfold bp_insert. case_bool; [|done]. by rewrite Permutation_app_comm.
Qed.

End translator.

End props.

(** ** Limits of [page_check_range] and of [page_unprotect] *)

Module SMCExamples.
#[local] Existing Instance i386_guest.
#[local] Existing Instance Radix.radix_page_table.
Import Demo.

(** A check for writing returns after the first page: the range from 0x3000 to
    0x5000 passes although its second page is not mapped. *)
Lemma page_check_range_write_unmapped :
  page_find (l1_map s_map) (page_index 0x4000) = Some zero_pd ∧
  page_check_range gen restore s_map 0x3000 0x2000 PAGE_READ = Ok (s_map, -1) ∧
  page_check_range gen restore s_map 0x3000 0x2000 PAGE_WRITE = Ok (s_map, 0).
Proof. split_and!; by vm_compute. Qed.

(** Block 0 lies on the pages 1 and 2 and runs; host pc 65540 is inside it. *)
Definition s_self : st := upd_cpu s_run 0 (λ env, env <| current_tb := Some 0%nat |>).
(** The interrupted instruction alone: four bytes on page 1. *)
Definition gen1 (p : Z) : gen_info := mkGen 4 1 8 (A2 14 24) (A2 10 20) (replicate 32 0x90).
Definition after_fault : result (st * Z * flow) := page_unprotect gen1 restore s_self 0x2004 65540.
Definition s_fault : st := match after_fault with Ok (s, _, _) => s | Er _ => dead end.

(** A write of the running block to its second page: the long jump leaves the
    page flagged writable while the host page is still read-only, and the
    fault of the repeated write is no longer handled. *)
Lemma page_unprotect_longjmp_unhandled :
  after_fault = Ok (s_fault, 0, Longjmp) ∧
  page_get_flags s_fault 0x2004 .& PAGE_WRITE = PAGE_WRITE ∧
  host_prot s_fault !! 0x2000 = Some (PAGE_READ .| PAGE_EXEC) ∧
  page_unprotect gen1 restore s_fault 0x2004 65540 = Ok (s_fault, 0, Return).
Proof. split_and!; by vm_compute. Qed.

End SMCExamples.

(** ** Instances *)

Module SMCWitness.
#[local] Existing Instance i386_guest.
#[local] Existing Instance Radix.radix_page_table.
Import Demo.

Notation both := ({[0%nat; 1%nat]} : gset nat).

Lemma tb_invalidate_phys_page_range_exact_witness :
  ∃ s' fl, tb_invalidate_phys_page_range gen restore s_run 0x3004 0x3008 false = Ok (s', fl) ∧
    match fl with
    | Return => mgr room s' (survivors s_run 0x3004 0x3008 both)
    | Longjmp => false = true ∧ ∃ t live0, (live0 = survivors s_run 0x3004 0x3008 both ∨ live0 = ∅) ∧ t ∉ live0 ∧
        mgr room s' ({[t]} ∪ live0)
    end.
Proof.
  apply (tb_invalidate_phys_page_range_exact gen restore room s_run both);
    [apply run_mgr|apply run_single|intros [=]|intros [=]|lia|by vm_compute|by vm_compute].
Defined.

Definition page_of (s : st) (i : Z) : PageDesc := page_desc (l1_map s) i.

Lemma build_page_bitmap_exact_witness :
  ∃ s' tab, build_page_bitmap s_run 2 = Ok s' ∧
    code_bitmap (page_desc (l1_map s') 2) = Some tab ∧ 8 * length tab = TARGET_PAGE_SIZE ∧
    ∀ k, 0 ≤ k < TARGET_PAGE_SIZE →
      bit tab k = true ↔ ∃ t tb, t ∈ both ∧ tbs s_run !! t = Some tb ∧ contains tb (2 * TARGET_PAGE_SIZE + k).
Proof.
  apply (build_page_bitmap_exact room s_run both 2 (page_of s_run 2)); [apply run_mgr|by vm_compute|by vm_compute].
Defined.

Lemma page_set_flags_protects_witness :
  let live' := if writable rwx then off_pages s_run (page_index 0x3000) (last_page 0x4000) both else both in
  ∃ s', page_set_flags gen restore s_run 0x3000 0x4000 rwx = Ok s' ∧ mgr room s' live' ∧
    (∀ j, valid_index j → pflags (page_desc (l1_map s') j) =
       if decide (page_index 0x3000 ≤ j < last_page 0x4000) then org_flags rwx
       else pflags (page_desc (l1_map s_run) j)) ∧
    (∀ t tb n j, t ∈ live' → tbs s' !! t = Some tb → tb_page tb n = Some j → valid_index j →
       pflags (page_desc (l1_map s') j) .& PAGE_WRITE = 0).
Proof.
  apply (page_set_flags_protects gen restore room s_run both); [apply run_mgr|apply run_single|lia|by vm_compute].
Defined.

Lemma page_unprotect_correct_witness :
  ∃ s' ret fl, page_unprotect gen restore s_run 0x3004 0 = Ok (s', ret, fl) ∧ (0 = 0 → fl = Return) ∧
    match fl with
    | Return => ret = 1 ∧
        mgr room s' (off_pages s_run (host_first s_run 0x3004) (host_last s_run 0x3004) both) ∧
        (∀ j, valid_index j → pflags (page_desc (l1_map s') j) =
           add_write (host_first s_run 0x3004) (host_last s_run 0x3004) j (pflags (page_desc (l1_map s_run) j))) ∧
        ∃ prot, host_prot s' !! host_page_base s_run 0x3004 = Some prot ∧ prot .& PAGE_WRITE ≠ 0
    | Longjmp => ∃ live', mgr room s' live'
    end.
Proof.
  apply (page_unprotect_correct gen restore room s_run both 0x3004 (page_of s_run 3));
    [apply run_mgr|apply run_single|by vm_compute|by vm_compute|by vm_compute|by vm_compute|by vm_compute|intros E; by destruct E|intros E; by destruct E].
Defined.


Lemma cpu_breakpoint_insert_correct_witness :
  ∃ s' l', cpu_breakpoint_insert gen restore s_run 0 0x3004 BP_GDB = Ok (s', 0) ∧
    mgr room s' (survivors s_run 0x3004 (0x3004 + 1) both) ∧
    (∀ t tb, t ∈ survivors s_run 0x3004 (0x3004 + 1) both → tbs s_run !! t = Some tb → ¬ contains tb 0x3004) ∧
    bps s' 0 = Some l' ∧ gdb_first l' ∧ l' ≡ₚ [mkBP 0x3004 BP_GDB].
Proof.
  apply (cpu_breakpoint_insert_correct gen restore room s_run both 0 0x3004 BP_GDB []);
    [apply run_mgr|apply run_single|by vm_compute|by vm_compute|by exists [], []].
Defined.

End SMCWitness.
