(* ===== verification/TraceProps.v ===== *)
(** * Correctness of trace formation

    The theorems about llvm/optimization.c, each with an instance at the
    session of [Demo], and two sessions in which the IBTC leads to the wrong
    code. *)

From stdpp Require Import base gmap list fin_maps.
From S2P Require Import Prelude Chain Config CodePatch Bitmap PageTable TBData TBOps SMC TBInv.
From S2P Require Import TBLists TBCode TBInval TBJump TBLink TBGen TBFind SMCRange SMCPage Trace.
From S2P Require Import TraceInv CpuExec ExecInv Init Reach.
Local Open Scope Z_scope.
Local Coercion Z.of_nat : nat >-> Z.

Section props.
  Context `{Guest} `{!PageTable PT}.
  Notation st := (exec_state PT).
  Implicit Types (s : st) (t u v : tbid) (tb : TranslationBlock) (env : CPUState) (live : gset tbid).

(** C17. [helper_trace_predict] keeps a history of at most fifteen distinct
    blocks; the traces it hands to the LLVM translator consist of one to
    sixteen distinct blocks, and a trace that loops loops back to the block
    that was just executed. *)
Theorem helper_trace_predict_traces s e env arg :
  cpus s !! e = Some env → predict_inv env →
  ∃ s' calls env', helper_trace_predict s e arg = Ok (s', calls) ∧ cpu_frame s s' e ∧
    cpus s' !! e = Some env' ∧ predict_inv env' ∧ Forall trace_ok calls ∧
    (∀ l i, (l, i) ∈ calls → 0 ≤ i → l !! Z.to_nat i = arg) ∧
    (calls ≠ [] ∨ arg = None → start_trace_prediction env' = 0 ∧ predicted_count env' = 0%nat).
Proof. apply helper_trace_predict_ok. Qed.

(** C18. The profiling stub of a block starts the prediction at its fiftieth
    execution, not before. *)
Theorem helper_trace_profile_threshold r s live e env t tb (k : nat) :
  mgr r s live → t ∈ live → tbs s !! t = Some tb → exec_count tb = 0 →
  cpus s !! e = Some env → start_trace_prediction env = 0 → k < 2 ^ 31 →
  ∃ s' tb' env', profile_n k s e t = Ok s' ∧ mgr r s' live ∧ tbs s' !! t = Some tb' ∧
    exec_count tb' = k ∧ cpus s' !! e = Some env' ∧
    start_trace_prediction env' = b2z (PROFILE_THRESHOLD <=? k).
Proof.
  intros Hm Ht Htb E0 He Es Hk. destruct (profile_n_ok r s live e env t tb k) as (s' & tb' & env' & Hp); try done.
  - by apply (inv_jset _ _ _ _ (m_inv _ _ _ _ Hm)).
  - exists s', tb', env'. naive_solver.
Qed.

End props.

(** ** The IBTC is not kept coherent *)

Module TraceExamples.
#[local] Existing Instance i386_guest.
#[local] Existing Instance Radix.radix_page_table.
Import Demo.

(** An indirect branch of block 0 to 0x3000 misses; the main loop finds block
    1 and enters it in the IBTC. *)
Definition s_miss : st := fst (ok (dead, None) (helper_lookup_ibtc s_run 0 0x3000)).
Definition s_hit : st := ok dead (update_ibtc_entry s_miss 0 1).
(** Block 1 is invalidated. *)
Definition s_inval : st := ok dead (tb_phys_invalidate s_hit 1 no_page).

Definition stale : Z := opt_ptr (default zero_tb (tbs s_run !! 1%nat)).

(** The invalidation does not remove the IBTC entry: the branch still enters
    the code of the block, which is in no hash chain any more. *)
Lemma ibtc_stale_after_invalidate :
  update_ibtc_entry s_miss 0 1 = Ok s_hit ∧ tb_phys_invalidate s_hit 1 no_page = Ok s_inval ∧
  tb_phys_hash s_inval !! (tb_phys_hash_func 0x3000) = None ∧
  opt_ptr <$> tbs s_inval !! 1%nat = Some stale ∧
  helper_lookup_ibtc s_inval 0 0x3000 = Ok (s_inval, Some stale).
Proof. split_and!; by vm_compute. Qed.

Definition s_wrong : st := ok dead (update_ibtc_entry s_miss 0 0).

(** A miss at 0x3000 is pending when the main loop goes on at another address
    (after a signal, say): block 0, translated at 0x1ff8, is entered for
    0x3000. *)
Lemma update_ibtc_entry_wrong_target :
  let tb := default zero_tb (tbs s_wrong !! 0%nat) in
  update_ibtc_entry s_miss 0 0 = Ok s_wrong ∧ pc tb = 0x1ff8 ∧
  helper_lookup_ibtc s_wrong 0 0x3000 = Ok (s_wrong, Some (opt_ptr tb)).
Proof. split_and!; by vm_compute. Qed.

End TraceExamples.

(** ** Instances *)

Module TraceWitness.
#[local] Existing Instance i386_guest.
#[local] Existing Instance Radix.radix_page_table.
Import Demo.

Notation both := ({[0%nat; 1%nat]} : gset nat).

Definition env_of (s : st) : CPUState := default cpu0 (cpus s !! 0%nat).
Definition tb_at (s : st) (t : tbid) : TranslationBlock := default zero_tb (tbs s !! t).

Lemma helper_trace_predict_traces_witness :
  ∃ s' calls env', helper_trace_predict s_run 0 (Some 1%nat) = Ok (s', calls) ∧ cpu_frame s_run s' 0 ∧
    cpus s' !! 0%nat = Some env' ∧ predict_inv env' ∧ Forall trace_ok calls ∧
    (∀ l i, (l, i) ∈ calls → 0 ≤ i → l !! Z.to_nat i = Some 1%nat) ∧
    (calls ≠ [] ∨ Some 1%nat = None → start_trace_prediction env' = 0 ∧ predicted_count env' = 0%nat).
Proof.
  apply (helper_trace_predict_traces s_run 0 (env_of s_run)); [by vm_compute|].
  split; [by vm_compute|]. split; [vm_compute; lia|]. vm_compute. constructor.
Defined.

Lemma helper_trace_profile_threshold_witness :
  ∃ s' tb' env', profile_n 50 s_run 0 1 = Ok s' ∧ mgr room s' both ∧ tbs s' !! 1%nat = Some tb' ∧
    exec_count tb' = 50%nat ∧ cpus s' !! 0%nat = Some env' ∧
    start_trace_prediction env' = b2z (PROFILE_THRESHOLD <=? 50%nat).
Proof.
  apply (helper_trace_profile_threshold room s_run both 0 (env_of s_run) 1 (tb_at s_run 1));
    [apply run_mgr|set_solver|by vm_compute|by vm_compute|by vm_compute|by vm_compute|lia].
Defined.

End TraceWitness.
