(* ===== verification/HostUtils.v ===== *)
(** * Bit counting and wide multiplication

    host-utils.c and the portable branches of host-utils.h: the 64x64 -> 128
    bit products and the counts of leading zeros, trailing zeros and set bits
    that the guests' helpers use.  A C variable of width [w] is its
    representative in [0, 2^w). *)

From stdpp Require Import base list.
From S2P Require Import Prelude.
Local Open Scope Z_scope.

(** ** Definitions *)

(** The pair is the memory at [plow] and at [phigh]. *)
Definition add128 (p : Z * Z) (a b : Z) : Z * Z :=
  let '(plow, phigh) := p in
  let plow := u64 (plow + a) in
  (* carry test *)
  let phigh := if plow <? a then u64 (phigh + 1) else phigh in
  (plow, u64 (phigh + b)).

Definition neg128 (p : Z * Z) : Z * Z :=
  let '(plow, phigh) := p in
  add128 (u64 (.~ plow), u64 (.~ phigh)) 1 0.

Definition mul64 (a b : Z) : Z * Z :=
  let a0 := u32 a in
  let a1 := u32 (a >>. 32) in
  let b0 := u32 b in
  let b1 := u32 (b >>. 32) in
  let v := u64 (a0 * b0) in
  let p := (v, 0) in
  let v := u64 (a0 * b1) in
  let p := add128 p (u64 (v <<. 32)) (v >>. 32) in
  let v := u64 (a1 * b0) in
  let p := add128 p (u64 (v <<. 32)) (v >>. 32) in
  let v := u64 (a1 * b1) in
  let '(plow, phigh) := p in
  (plow, u64 (phigh + v)).

Definition mulu64 (a b : Z) : Z * Z := mul64 a b.

(** The arguments are signed. *)
Definition muls64 (a b : Z) : Z * Z :=
  let sa := a <? 0 in
  let a := if sa then sext 64 (- a) else a in
  let sb := b <? 0 in
  let b := if sb then sext 64 (- b) else b in
  let p := mul64 (u64 a) (u64 b) in
  if xorb sa sb then neg128 p else p.

(** One step of the binary searches: the count and the value. *)
Definition clz_step (mask n : Z) (p : Z * Z) : Z * Z :=
  let '(cnt, val) := p in
  if val .& mask =? 0 then (cnt + n, u32 (val <<. n)) else (cnt, val).

Definition clz32 (val : Z) : Z :=
  let p := clz_step 0xFFFF0000 16 (0, val) in
  let p := clz_step 0xFF000000 8 p in
  let p := clz_step 0xF0000000 4 p in
  let p := clz_step 0xC0000000 2 p in
  let '(cnt, val) := clz_step 0x80000000 1 p in
  if val .& 0x80000000 =? 0 then cnt + 1 else cnt.

Definition clo32 (val : Z) : Z := clz32 (u32 (.~ val)).

Definition clz64 (val : Z) : Z :=
  let '(cnt, val) := if val >>. 32 =? 0 then (32, val) else (0, val >>. 32) in
  cnt + clz32 (u32 val).

Definition clo64 (val : Z) : Z := clz64 (u64 (.~ val)).

Definition ctz_step (mask n : Z) (p : Z * Z) : Z * Z :=
  let '(cnt, val) := p in
  if val .& mask =? 0 then (cnt + n, val >>. n) else (cnt, val).

Definition ctz32 (val : Z) : Z :=
  let p := ctz_step 0x0000FFFF 16 (0, val) in
  let p := ctz_step 0x000000FF 8 p in
  let p := ctz_step 0x0000000F 4 p in
  let p := ctz_step 0x00000003 2 p in
  let '(cnt, val) := ctz_step 0x00000001 1 p in
  if val .& 0x00000001 =? 0 then cnt + 1 else cnt.

Definition cto32 (val : Z) : Z := ctz32 (u32 (.~ val)).

Definition ctz64 (val : Z) : Z :=
  let '(cnt, val) := if u32 val =? 0 then (32, val >>. 32) else (0, val) in
  cnt + ctz32 (u32 val).

Definition cto64 (val : Z) : Z := ctz64 (u64 (.~ val)).

(** [(val & mask) + ((val >> n) & mask)] *)
Definition pop_step (mask n val : Z) : Z := (val .& mask) + ((val >>. n) .& mask).

Definition ctpop8 (val : Z) : Z :=
  let val := u8 (pop_step 0x55 1 val) in
  let val := u8 (pop_step 0x33 2 val) in
  u8 (pop_step 0x0f 4 val).

Definition ctpop16 (val : Z) : Z :=
  let val := u16 (pop_step 0x5555 1 val) in
  let val := u16 (pop_step 0x3333 2 val) in
  let val := u16 (pop_step 0x0f0f 4 val) in
  u16 (pop_step 0x00ff 8 val).

Definition ctpop32 (val : Z) : Z :=
  let val := u32 (pop_step 0x55555555 1 val) in
  let val := u32 (pop_step 0x33333333 2 val) in
  let val := u32 (pop_step 0x0f0f0f0f 4 val) in
  let val := u32 (pop_step 0x00ff00ff 8 val) in
  u32 (pop_step 0x0000ffff 16 val).

Definition ctpop64 (val : Z) : Z :=
  let val := u64 (pop_step 0x5555555555555555 1 val) in
  let val := u64 (pop_step 0x3333333333333333 2 val) in
  let val := u64 (pop_step 0x0f0f0f0f0f0f0f0f 4 val) in
  let val := u64 (pop_step 0x00ff00ff00ff00ff 8 val) in
  let val := u64 (pop_step 0x0000ffff0000ffff 16 val) in
  u64 (pop_step 0x00000000ffffffff 32 val).

(** ** Multiplication *)

(** The 128-bit number of a pair. *)
Definition val128 (p : Z * Z) : Z := p.1 + 2 ^ 64 * p.2.
Definition pair128 (p : Z * Z) : Prop := 0 ≤ p.1 < 2 ^ 64 ∧ 0 ≤ p.2 < 2 ^ 64.

Lemma add128_ok p a b :
  pair128 p → 0 ≤ a < 2 ^ 64 → 0 ≤ b →
  pair128 (add128 p a b) ∧ val128 (add128 p a b) = (val128 p + a + 2 ^ 64 * b) `mod` 2 ^ 128.
Proof.
  destruct p as [l h]. unfold pair128, val128, add128. cbn [fst snd]. intros [Hl Hh] Ha Hb. unfold wrap.
  set (l' := (l + a) `mod` 2 ^ 64).
  assert (0 ≤ l' < 2 ^ 64) by (apply Z.mod_pos_bound; lia).
  set (c := if l' <? a then 1 else 0).
  assert (l + a = l' + 2 ^ 64 * c) as El.
  { unfold c, l'. destruct (Z.ltb_spec ((l + a) `mod` 2 ^ 64) a); zdm. }
  replace (if l' <? a then (h + 1) `mod` 2 ^ 64 else h) with ((h + c) `mod` 2 ^ 64).
  2:{ unfold c. case_bool; [done|]. rewrite Z.add_0_r. by apply Z.mod_small. }
  rewrite Zplus_mod_idemp_l. split; [split; [done|apply Z.mod_pos_bound; lia]|].
  replace (l + 2 ^ 64 * h + a + 2 ^ 64 * b) with (l' + 2 ^ 64 * (h + c + b)) by lia.
  generalize (h + c + b). intros z. clearbody l'.
  pose proof (Z_div_mod_eq_full z (2 ^ 64)). pose proof (Z.mod_pos_bound z (2 ^ 64)).
  apply (Z.mod_unique_pos _ _ (z `div` 2 ^ 64)); lia.
Qed.

Lemma mul64_ok a b :
  0 ≤ a < 2 ^ 64 → 0 ≤ b < 2 ^ 64 → pair128 (mul64 a b) ∧ val128 (mul64 a b) = a * b.
Proof.
  intros Ha Hb. unfold mul64. rewrite !Z.shiftr_div_pow2 by lia.
  set (a0 := u32 a). set (a1 := u32 (a `div` 2 ^ 32)). set (b0 := u32 b). set (b1 := u32 (b `div` 2 ^ 32)).
  assert (a = a0 + 2 ^ 32 * a1 ∧ 0 ≤ a0 < 2 ^ 32 ∧ 0 ≤ a1 < 2 ^ 32) as (Ea & Ha0 & Ha1).
  { unfold a0, a1, wrap. rewrite (Z.mod_small (a `div` 2 ^ 32)) by zdm. zdm. }
  assert (b = b0 + 2 ^ 32 * b1 ∧ 0 ≤ b0 < 2 ^ 32 ∧ 0 ≤ b1 < 2 ^ 32) as (Eb & Hb0 & Hb1).
  { unfold b0, b1, wrap. rewrite (Z.mod_small (b `div` 2 ^ 32)) by zdm. zdm. }
  clearbody a0 a1 b0 b1. rewrite !(wrap_small 64 (_ * _)) by nia.
  assert (∀ v, 0 ≤ v < 2 ^ 64 → 0 ≤ u64 (v <<. 32) < 2 ^ 64 ∧ 0 ≤ v `div` 2 ^ 32 ∧
    u64 (v <<. 32) + 2 ^ 64 * (v `div` 2 ^ 32) = 2 ^ 32 * v) as Hv.
  { intros v Hv. split; [by apply wrap_range|]. split; [zdm|]. rewrite Z.shiftl_mul_pow2 by lia. unfold wrap. zdm. }
  destruct (Hv (a0 * b1)) as (? & ? & E1); [nia|]. destruct (Hv (a1 * b0)) as (? & ? & E2); [nia|].
  destruct (add128_ok (a0 * b0, 0) (u64 ((a0 * b1) <<. 32)) ((a0 * b1) `div` 2 ^ 32)) as [Hp1 Hv1];
    [split; cbn; nia|done|done|].
  set (p1 := add128 _ _ _) in *.
  destruct (add128_ok p1 (u64 ((a1 * b0) <<. 32)) ((a1 * b0) `div` 2 ^ 32)) as [Hp2 Hv2]; [done..|].
  set (p2 := add128 p1 _ _) in *. clearbody p1 p2. unfold val128 in Hv1 at 2. cbn [fst snd] in Hv1.
  assert (0 ≤ a0 * b0 < 2 ^ 64 ∧ 0 ≤ a0 * b1 < 2 ^ 64 ∧ 0 ≤ a1 * b0 < 2 ^ 64 ∧ 0 ≤ a1 * b1 ≤ (2 ^ 32 - 1) * (2 ^ 32 - 1))
    as (? & ? & ? & ?) by nia.
  assert (a * b = a0 * b0 + 2 ^ 32 * (a0 * b1) + 2 ^ 32 * (a1 * b0) + 2 ^ 64 * (a1 * b1)) as Eab by (subst; ring).
  assert (0 ≤ a * b < 2 ^ 128) by nia. rewrite Eab in *. clear Ea Eb Eab Ha Hb Hv.
  set (x := a0 * b0) in *. set (y := a0 * b1) in *. set (z := a1 * b0) in *. set (w := a1 * b1) in *.
  clearbody x y z w. rewrite Hv1, (Z.mod_small (x + _ + _ + _)) in Hv2 by lia. rewrite Z.mod_small in Hv2 by lia.
  destruct p2 as [l h]. unfold pair128, val128 in *. cbn [fst snd] in *.
  rewrite wrap_small by lia. lia.
Qed.

Lemma u64_lnot z : 0 ≤ z < 2 ^ 64 → u64 (.~ z) = 2 ^ 64 - 1 - z.
Proof. intros Hz. unfold wrap, Z.lnot. symmetry. apply (Z.mod_unique_pos _ _ (-1)); lia. Qed.

Lemma neg128_ok p :
  pair128 p → pair128 (neg128 p) ∧ val128 (neg128 p) = (- val128 p) `mod` 2 ^ 128.
Proof.
  destruct p as [l h]. intros [Hl Hh]. cbn in Hl, Hh. unfold neg128. rewrite !u64_lnot by done.
  destruct (add128_ok (2 ^ 64 - 1 - l, 2 ^ 64 - 1 - h) 1 0) as [? ->]; [split; cbn; lia|lia|lia|].
  split; [done|]. unfold val128. cbn [fst snd].
  rewrite <- (Z_mod_plus_full (- _) 1). f_equal. lia.
Qed.

Lemma muls64_ok a b :
  - 2 ^ 63 ≤ a < 2 ^ 63 → - 2 ^ 63 ≤ b < 2 ^ 63 →
  pair128 (muls64 a b) ∧ val128 (muls64 a b) = (a * b) `mod` 2 ^ 128.
Proof.
  intros Ha Hb. unfold muls64.
  assert (∀ z, - 2 ^ 63 ≤ z < 2 ^ 63 → u64 (if z <? 0 then sext 64 (- z) else z) = Z.abs z) as Habs.
  { intros z Hz. destruct (Z.ltb_spec z 0); [|rewrite wrap_small; lia].
    unfold wrap, sext. replace (Z.abs z) with (- z) by lia. rewrite (Z.mod_small (- z)) by lia.
    case_bool; bprop; [apply Z.mod_small; lia|]. symmetry. apply (Z.mod_unique_pos _ _ (-1)); lia. }
  rewrite !Habs by done. destruct (mul64_ok (Z.abs a) (Z.abs b)) as [Hp Hv]; [lia..|].
  assert (0 ≤ Z.abs a * Z.abs b ≤ 2 ^ 63 * 2 ^ 63) by nia.
  destruct (Z.ltb_spec a 0), (Z.ltb_spec b 0); cbn [xorb].
  2,3: destruct (neg128_ok (mul64 (Z.abs a) (Z.abs b)) Hp) as [? ->]; split; [done|]; rewrite Hv; f_equal; lia.
  all: split; [done|]; rewrite Hv; symmetry; rewrite Z.mod_small; lia.
Qed.

(** ** Leading zeros *)

(** What the count should be. *)
Definition clz_ref (w v : Z) : Z := if v =? 0 then w else w - 1 - Z.log2 v.

Lemma land_high_mask v n :
  0 ≤ v < 2 ^ 32 → 0 ≤ n ≤ 32 → (v .& (2 ^ 32 - 2 ^ (32 - n)) =? 0) = (v <? 2 ^ (32 - n)).
Proof.
  intros Hv Hn.
  assert (v .& (2 ^ 32 - 2 ^ (32 - n)) = v - v `mod` 2 ^ (32 - n)) as ->.
  { rewrite <- land_lnot_low by lia. replace (2 ^ 32 - 2 ^ (32 - n)) with (Z.ones 32 .& .~ (2 ^ (32 - n) - 1)).
    - rewrite Z.land_assoc, Z.land_ones, Z.mod_small by lia. done.
    - rewrite Z.land_comm, Z.land_ones by lia. unfold Z.lnot.
      assert (0 < 2 ^ (32 - n) ≤ 2 ^ 32) by (split; [apply Z.pow_pos_nonneg; lia|apply Z.pow_le_mono_r; lia]).
      symmetry. apply (Z.mod_unique_pos _ _ (-1)); lia. }
  pose proof (Z.mod_pos_bound v (2 ^ (32 - n))). assert (0 < 2 ^ (32 - n)) by (apply Z.pow_pos_nonneg; lia).
  destruct (Z.ltb_spec v (2 ^ (32 - n))).
  - rewrite Z.mod_small by lia. apply Z.eqb_eq. lia.
  - apply Z.eqb_neq. lia.
Qed.

(** A step halves the distance of the value from its top bit. *)
Lemma clz_step_ok v cnt val n :
  0 < n ≤ 16 → val = v * 2 ^ cnt → 0 ≤ cnt → 2 ^ (32 - 2 * n) ≤ val < 2 ^ 32 →
  ∃ cnt' val', clz_step (2 ^ 32 - 2 ^ (32 - n)) n (cnt, val) = (cnt', val') ∧
    val' = v * 2 ^ cnt' ∧ 0 ≤ cnt' ∧ 2 ^ (32 - n) ≤ val' < 2 ^ 32.
Proof.
  intros Hn Ev Hc Hr. assert (0 < 2 ^ (32 - 2 * n)) by (apply Z.pow_pos_nonneg; lia).
  unfold clz_step. rewrite land_high_mask by lia. destruct (Z.ltb_spec val (2 ^ (32 - n))) as [Hlt|Hge].
  - assert (2 ^ 32 = 2 ^ (32 - n) * 2 ^ n) as E by (rewrite <- Z.pow_add_r by lia; f_equal; lia).
    assert (2 ^ (32 - n) = 2 ^ (32 - 2 * n) * 2 ^ n) as E' by (rewrite <- Z.pow_add_r by lia; f_equal; lia).
    assert (0 < 2 ^ n) by (apply Z.pow_pos_nonneg; lia).
    eexists _, _. split; [done|]. rewrite Z.shiftl_mul_pow2 by lia.
    rewrite wrap_small by nia. split; [rewrite Z.pow_add_r by lia; nia|]. split; [lia|nia].
  - eexists _, _. split; [done|]. split; [done|]. split; [done|lia].
Qed.

Lemma clz32_ok v : 0 ≤ v < 2 ^ 32 → clz32 v = clz_ref 32 v.
Proof.
  intros Hv. unfold clz_ref. destruct (Z.eqb_spec v 0) as [->|Hnz]; [done|].
  unfold clz32.
  destruct (clz_step_ok v 0 v 16) as (c1 & v1 & E1 & ? & ? & ?); [lia|lia|lia|cbn; lia|].
  destruct (clz_step_ok v c1 v1 8) as (c2 & v2 & E2 & ? & ? & ?); [lia|done|done|done|].
  destruct (clz_step_ok v c2 v2 4) as (c3 & v3 & E3 & ? & ? & ?); [lia|done|done|done|].
  destruct (clz_step_ok v c3 v3 2) as (c4 & v4 & E4 & ? & ? & ?); [lia|done|done|done|].
  destruct (clz_step_ok v c4 v4 1) as (c5 & v5 & E5 & Ev & Hc & Hr); [lia|done|done|done|].
  change (2 ^ 32 - 2 ^ (32 - 16)) with 0xFFFF0000 in E1. change (2 ^ 32 - 2 ^ (32 - 8)) with 0xFF000000 in E2.
  change (2 ^ 32 - 2 ^ (32 - 4)) with 0xF0000000 in E3. change (2 ^ 32 - 2 ^ (32 - 2)) with 0xC0000000 in E4.
  change (2 ^ 32 - 2 ^ (32 - 1)) with 0x80000000 in E5.
  rewrite E1, E2, E3, E4, E5.
  change 0x80000000 with (2 ^ 32 - 2 ^ (32 - 1)). rewrite land_high_mask by lia.
  destruct (Z.ltb_spec v5 (2 ^ (32 - 1))); [lia|].
  assert (Z.log2 v5 = 31) as El by (apply Z.log2_unique; [lia|]; exact Hr).
  rewrite Ev, Z.log2_mul_pow2 in El by lia. lia.
Qed.

Lemma clz64_ok v : 0 ≤ v < 2 ^ 64 → clz64 v = clz_ref 64 v.
Proof.
  intros Hv. unfold clz64. rewrite Z.shiftr_div_pow2 by lia.
  destruct (Z.eqb_spec (v `div` 2 ^ 32) 0) as [E|E].
  - assert (0 ≤ v < 2 ^ 32) by zdm. rewrite wrap_small, clz32_ok by lia. unfold clz_ref. case_bool; lia.
  - assert (0 < v `div` 2 ^ 32 < 2 ^ 32) by zdm. rewrite wrap_small, clz32_ok by lia. unfold clz_ref.
    destruct (Z.eqb_spec (v `div` 2 ^ 32) 0) as [|_]; [lia|]. destruct (Z.eqb_spec v 0) as [->|]; [done|].
    rewrite <- Z.shiftr_div_pow2, Z.log2_shiftr by lia.
    assert (32 ≤ Z.log2 v); [|lia]. apply Z.log2_le_pow2; zdm.
Qed.

(** ** Trailing zeros *)

(** [n] is the number of zeros below the lowest set bit, or the width. *)
Definition ctz_spec (w v n : Z) : Prop :=
  if v =? 0 then n = w else 0 ≤ n < w ∧ ∃ q, v = (2 * q + 1) * 2 ^ n.

Lemma ctz_step_ok v cnt val n :
  0 < n → 0 ≤ cnt → v = val * 2 ^ cnt → 0 < val → val `mod` 2 ^ (2 * n) ≠ 0 →
  ∃ cnt' val', ctz_step (2 ^ n - 1) n (cnt, val) = (cnt', val') ∧ cnt ≤ cnt' ≤ cnt + n ∧
    v = val' * 2 ^ cnt' ∧ 0 < val' ∧ val' `mod` 2 ^ n ≠ 0.
Proof.
  intros Hn Hc Ev Hp Hm. unfold ctz_step. rewrite land_low, Z.shiftr_div_pow2 by lia.
  assert (0 < 2 ^ n) by (apply Z.pow_pos_nonneg; lia).
  destruct (Z.eqb_spec (val `mod` 2 ^ n) 0) as [E|E]; (eexists _, _; split; [done|]); split; [lia| |lia|by split_and!].
  pose proof (Z_div_mod_eq_full val (2 ^ n)) as Eq. rewrite E, Z.add_0_r in Eq.
  split; [rewrite Z.pow_add_r by lia; rewrite Ev, Eq at 1; ring|]. split; [nia|].
  intros E2. apply Hm. replace (2 * n) with (n + n) by lia. rewrite Z.pow_add_r, Z.rem_mul_r by lia.
  rewrite E, E2. lia.
Qed.

Lemma ctz32_ok v : 0 ≤ v < 2 ^ 32 → ctz_spec 32 v (ctz32 v).
Proof.
  intros Hv. unfold ctz_spec. destruct (Z.eqb_spec v 0) as [->|Hnz]; [done|]. unfold ctz32.
  destruct (ctz_step_ok v 0 v 16) as (c1 & v1 & E1 & ? & ? & ? & ?);
    [lia|lia|lia|lia|rewrite Z.mod_small; lia|].
  destruct (ctz_step_ok v c1 v1 8) as (c2 & v2 & E2 & ? & ? & ? & ?); [lia|lia|done..|].
  destruct (ctz_step_ok v c2 v2 4) as (c3 & v3 & E3 & ? & ? & ? & ?); [lia|lia|done..|].
  destruct (ctz_step_ok v c3 v3 2) as (c4 & v4 & E4 & ? & ? & ? & ?); [lia|lia|done..|].
  destruct (ctz_step_ok v c4 v4 1) as (c5 & v5 & E5 & ? & Ev & Hp & Hm); [lia|lia|done..|].
  change (2 ^ 16 - 1) with 0x0000FFFF in E1. change (2 ^ 8 - 1) with 0x000000FF in E2.
  change (2 ^ 4 - 1) with 0x0000000F in E3. change (2 ^ 2 - 1) with 0x00000003 in E4.
  change (2 ^ 1 - 1) with 0x00000001 in E5.
  rewrite E1, E2, E3, E4, E5. change 0x00000001 with (2 ^ 1 - 1). rewrite land_low by lia.
  destruct (Z.eqb_spec (v5 `mod` 2 ^ 1) 0) as [|_]; [done|].
  split; [lia|]. exists (v5 `div` 2). rewrite Ev. f_equal. change (2 ^ 1) with 2 in Hm. zdm.
Qed.

Lemma ctz64_ok v : 0 ≤ v < 2 ^ 64 → ctz_spec 64 v (ctz64 v).
Proof.
  intros Hv. unfold ctz64. destruct (Z.eqb_spec (u32 v) 0) as [E|E]; unfold wrap in E.
  - rewrite Z.shiftr_div_pow2 by lia. set (h := v `div` 2 ^ 32). assert (v = h * 2 ^ 32 ∧ 0 ≤ h < 2 ^ 32) as [Ev Hh] by (unfold h; zdm).
    clearbody h. subst v. rewrite wrap_small by done. pose proof (ctz32_ok h Hh) as Hs. unfold ctz_spec in *.
    destruct (Z.eqb_spec h 0) as [->|Hn]; [done|].
    destruct (Z.eqb_spec (h * 2 ^ 32) 0) as [|_]; [lia|]. destruct Hs as [? [q Eq]]. split; [lia|]. exists q.
    rewrite Z.pow_add_r by lia. rewrite Eq at 1. ring.
  - set (l := u32 v). assert (0 ≤ l < 2 ^ 32 ∧ l ≠ 0 ∧ ∃ h, v = l + h * 2 ^ 32) as (Hl & Hn & h & Ev).
    { unfold l, wrap. split; [zdm|]. split; [done|]. exists (v `div` 2 ^ 32). zdm. }
    pose proof (ctz32_ok l Hl) as Hs. unfold ctz_spec in *.
    destruct (Z.eqb_spec l 0) as [|_]; [done|]. destruct (Z.eqb_spec v 0) as [->|_]; [exfalso; zdm|].
    destruct Hs as [Hc [q Eq]]. split; [lia|]. rewrite Z.add_0_l. set (c := ctz32 l) in *.
    exists (q + h * 2 ^ (31 - c)). rewrite Ev, Eq at 1.
    replace (2 ^ 32) with (2 * 2 ^ (31 - c) * 2 ^ c); [ring|].
    rewrite <- (Z.pow_1_r 2) at 1. rewrite <- !Z.pow_add_r by lia. f_equal. lia.
Qed.

(** ** Set bits *)

(** The number of bits set among the lowest [k]. *)
Fixpoint popcount (k : nat) (v : Z) : Z :=
  match k with O => 0 | S k' => v `mod` 2 + popcount k' (v `div` 2) end.

(** The sum of the lowest [k] fields of width [n]. *)
Fixpoint fsum (n : Z) (k : nat) (v : Z) : Z :=
  match k with O => 0 | S k' => v `mod` 2 ^ n + fsum n k' (v `div` 2 ^ n) end.

(** The mask of the even fields. *)
Fixpoint even_mask (n : Z) (k : nat) : Z :=
  match k with O => 0 | S k' => (2 ^ n - 1) + 2 ^ (2 * n) * even_mask n k' end.

Lemma fsum_popcount k v : fsum 1 k v = popcount k v.
Proof. induction k as [|k IH] in v |- *; cbn [fsum popcount]; [done|]. by rewrite IH. Qed.

Lemma land_even_mask n k v :
  0 < n → v .& even_mask n (S k) = v `mod` 2 ^ n + 2 ^ (2 * n) * ((v `div` 2 ^ (2 * n)) .& even_mask n k).
Proof.
  intros Hn. cbn [even_mask]. set (m := even_mask n k).
  assert (0 < 2 ^ n < 2 ^ (2 * n)) by (split; [apply Z.pow_pos_nonneg|apply Z.pow_lt_mono_r]; lia).
  assert (0 ≤ v `mod` 2 ^ n < 2 ^ (2 * n)) by (pose proof (Z.mod_pos_bound v (2 ^ n)); lia).
  rewrite !(Z.add_comm _ (2 ^ (2 * n) * _)), !(Z.mul_comm (2 ^ (2 * n))).
  rewrite <- !(lor_disjoint_add _ _ (2 * n)) by (rewrite ?Z_mod_mult; lia).
  apply Z.bits_inj'. intros i Hi.
  rewrite <- !Z.shiftl_mul_pow2, <- Z.shiftr_div_pow2 by lia.
  rewrite Z.land_spec, !Z.lor_spec, !Z.shiftl_spec, Z.land_spec by lia.
  destruct (decide (i < 2 * n)) as [Hlt|Hge].
  - rewrite !(Z.testbit_neg_r _ (i - 2 * n)) by lia. cbn [orb].
    rewrite <- Z.land_ones, Z.land_spec, Z.ones_equiv by lia. done.
  - rewrite Z.shiftr_spec by lia. replace (i - 2 * n + 2 * n) with i by lia.
    rewrite (testbit_small (2 * n) (2 ^ n - 1)), (testbit_small (2 * n) (v `mod` 2 ^ n)), !orb_false_r by lia. done.
Qed.

Lemma pop_step_cons n k v :
  0 < n → pop_step (even_mask n (S k)) n v =
    (v `mod` 2 ^ n + (v `div` 2 ^ n) `mod` 2 ^ n) + 2 ^ (2 * n) * pop_step (even_mask n k) n (v `div` 2 ^ (2 * n)).
Proof.
  intros Hn. unfold pop_step. rewrite !land_even_mask, !Z.shiftr_div_pow2 by lia.
  assert (0 < 2 ^ n) by (apply Z.pow_pos_nonneg; lia). assert (0 < 2 ^ (2 * n)) by (apply Z.pow_pos_nonneg; lia).
  rewrite !Z.div_div, (Z.mul_comm (2 ^ n)) by lia. lia.
Qed.

(** A step adds the fields in pairs. *)
Lemma pop_step_ok n k v :
  0 < n → let v' := pop_step (even_mask n k) n v in
  0 ≤ v' < 2 ^ (2 * n * Z.of_nat k) ∧ fsum (2 * n) k v' = fsum n (2 * k) v.
Proof.
  intros Hn. induction k as [|k IH] in v |- *; cbn zeta.
  { unfold pop_step. cbn [even_mask]. rewrite !Z.land_0_r, Z.mul_0_r. cbn. lia. }
  rewrite pop_step_cons by done. set (v1 := v `div` 2 ^ (2 * n)).
  destruct (IH v1) as [Hr Hs]. clear IH. set (w := pop_step (even_mask n k) n v1) in *.
  assert (0 < 2 ^ n) by (apply Z.pow_pos_nonneg; lia).
  pose proof (Z.mod_pos_bound v (2 ^ n)) as H1. pose proof (Z.mod_pos_bound (v `div` 2 ^ n) (2 ^ n)) as H2.
  assert (2 ^ (2 * n) = 2 ^ n * 2 ^ n) as E2 by (rewrite <- Z.pow_add_r by lia; f_equal; lia).
  assert (2 * 1 ≤ 2 ^ n) by (change (2 * 1) with (2 ^ 1); apply Z.pow_le_mono_r; lia).
  split.
  - replace (2 * n * Z.of_nat (S k)) with (2 * n + 2 * n * Z.of_nat k) by lia.
    rewrite Z.pow_add_r by lia. set (B := 2 ^ (2 * n * Z.of_nat k)) in *. nia.
  - replace (2 * S k)%nat with (S (S (2 * k))) by lia. cbn [fsum].
    remember (v `mod` 2 ^ n + (v `div` 2 ^ n) `mod` 2 ^ n) as x eqn:Ex.
    assert (0 ≤ x < 2 ^ (2 * n)) by nia.
    rewrite (Z.mul_comm (2 ^ (2 * n))), Z_mod_plus_full, Z.div_add, (Z.mod_small x), (Z.div_small x) by lia.
    rewrite Z.add_0_l, Hs. unfold v1. rewrite E2, Z.div_div by lia. lia.
Qed.

Lemma fsum_one n v : 0 ≤ v < 2 ^ n → fsum n 1 v = v.
Proof. intros Hv. cbn [fsum]. rewrite Z.mod_small by done. lia. Qed.

(** One line of the routines, on values of width [2 * n * k]. *)
Ltac pop_line v n k :=
  let H := fresh "Hr" in let E := fresh "Es" in
  destruct (pop_step_ok n k v ltac:(lia)) as [H E];
  match type of H with 0 ≤ pop_step ?m _ _ < _ =>
    let m' := eval vm_compute in m in change m with m' in H, E end;
  let k2 := eval vm_compute in (2 * k)%nat in change (2 * k)%nat with k2 in E;
  let n2 := eval vm_compute in (2 * n) in change (2 * n) with n2 in E;
  let w := fresh "w" in
  match type of H with 0 ≤ ?p < _ => set (w := p) in * end;
  rewrite (wrap_small _ w) by exact H.

Lemma ctpop8_ok v : 0 ≤ v < 2 ^ 8 → ctpop8 v = popcount 8 v.
Proof.
  intros Hv. unfold ctpop8. cbn zeta.
  pop_line v 1 4%nat. pop_line w 2 2%nat. pop_line w0 4 1%nat.
  rewrite <- fsum_popcount. rewrite <- Es, <- Es0, <- Es1. symmetry. by apply fsum_one.
Qed.

Lemma ctpop16_ok v : 0 ≤ v < 2 ^ 16 → ctpop16 v = popcount 16 v.
Proof.
  intros Hv. unfold ctpop16. cbn zeta.
  pop_line v 1 8%nat. pop_line w 2 4%nat. pop_line w0 4 2%nat. pop_line w1 8 1%nat.
  rewrite <- fsum_popcount. rewrite <- Es, <- Es0, <- Es1, <- Es2. symmetry. by apply fsum_one.
Qed.

Lemma ctpop32_ok v : 0 ≤ v < 2 ^ 32 → ctpop32 v = popcount 32 v.
Proof.
  intros Hv. unfold ctpop32. cbn zeta.
  pop_line v 1 16%nat. pop_line w 2 8%nat. pop_line w0 4 4%nat. pop_line w1 8 2%nat. pop_line w2 16 1%nat.
  rewrite <- fsum_popcount. rewrite <- Es, <- Es0, <- Es1, <- Es2, <- Es3. symmetry. by apply fsum_one.
Qed.

Lemma ctpop64_ok v : 0 ≤ v < 2 ^ 64 → ctpop64 v = popcount 64 v.
Proof.
  intros Hv. unfold ctpop64. cbn zeta.
  pop_line v 1 32%nat. pop_line w 2 16%nat. pop_line w0 4 8%nat. pop_line w1 8 4%nat. pop_line w2 16 2%nat.
  pop_line w3 32 1%nat.
  rewrite <- fsum_popcount. rewrite <- Es, <- Es0, <- Es1, <- Es2, <- Es3, <- Es4. symmetry. by apply fsum_one.
Qed.

(** ** Properties *)

(** C22. The portable multiplications return the two halves of the exact
    128-bit product: unsigned, and signed in two's complement also when an
    operand is the most negative number. *)
Theorem mul64_exact a b :
  (0 ≤ a < 2 ^ 64 → 0 ≤ b < 2 ^ 64 → pair128 (mulu64 a b) ∧ val128 (mulu64 a b) = a * b) ∧
  (- 2 ^ 63 ≤ a < 2 ^ 63 → - 2 ^ 63 ≤ b < 2 ^ 63 →
     pair128 (muls64 a b) ∧ val128 (muls64 a b) = (a * b) `mod` 2 ^ 128).
Proof. split; [apply mul64_ok|apply muls64_ok]. Qed.

(** C23. The bit counts agree with their definitions on every word: leading
    zeros with the position of the highest set bit, leading ones with that of
    the complement, trailing zeros with the largest power of two that divides
    the word, and the population counts with the number of set bits. *)
Theorem bit_counts_exact v :
  0 ≤ v < 2 ^ 64 →
  clz64 v = clz_ref 64 v ∧ clo64 v = clz_ref 64 (2 ^ 64 - 1 - v) ∧
  ctz_spec 64 v (ctz64 v) ∧ ctz_spec 64 (2 ^ 64 - 1 - v) (cto64 v) ∧ ctpop64 v = popcount 64 v ∧
  (v < 2 ^ 32 → clz32 v = clz_ref 32 v ∧ clo32 v = clz_ref 32 (2 ^ 32 - 1 - v) ∧
     ctz_spec 32 v (ctz32 v) ∧ ctz_spec 32 (2 ^ 32 - 1 - v) (cto32 v) ∧ ctpop32 v = popcount 32 v) ∧
  (v < 2 ^ 16 → ctpop16 v = popcount 16 v) ∧ (v < 2 ^ 8 → ctpop8 v = popcount 8 v).
Proof.
  intros Hv. unfold clo64, cto64. rewrite u64_lnot by done.
  split; [by apply clz64_ok|]. split; [apply clz64_ok; lia|]. split; [by apply ctz64_ok|].
  split; [apply ctz64_ok; lia|]. split; [by apply ctpop64_ok|]. split; [|split].
  - intros H32. unfold clo32, cto32.
    replace (u32 (.~ v)) with (2 ^ 32 - 1 - v) by (unfold wrap, Z.lnot; apply (Z.mod_unique_pos _ _ (-1)); lia).
    split; [apply clz32_ok; lia|]. split; [apply clz32_ok; lia|]. split; [apply ctz32_ok; lia|].
    split; [apply ctz32_ok; lia|apply ctpop32_ok; lia].
  - intros. apply ctpop16_ok. lia.
  - intros. apply ctpop8_ok. lia.
Qed.

Lemma mul64_exact_witness :
  val128 (mulu64 (2 ^ 64 - 1) (2 ^ 64 - 1)) = (2 ^ 64 - 1) * (2 ^ 64 - 1) ∧
  val128 (muls64 (- 2 ^ 63) 3) = (- 2 ^ 63 * 3) `mod` 2 ^ 128.
Proof.
  split.
  - destruct (mul64_exact (2 ^ 64 - 1) (2 ^ 64 - 1)) as [Hu _]. apply Hu; lia.
  - destruct (mul64_exact (- 2 ^ 63) 3) as [_ Hs]. apply Hs; lia.
Defined.

Lemma bit_counts_exact_witness :
  clz64 0x50 = clz_ref 64 0x50 ∧ ctz_spec 64 0x50 (ctz64 0x50) ∧ ctpop8 0x50 = popcount 8 0x50.
Proof.
  destruct (bit_counts_exact 0x50) as (H1 & _ & H3 & _ & _ & _ & _ & H8); [lia|].
  split; [exact H1|]. split; [exact H3|]. apply H8. lia.
Defined.
