(* ===== verification/QString.v ===== *)
(** * QString: growable strings

    qstring.c at the level of its buffer: the allocated cells, with [None] for
    memory that was never written, the length and the capacity.  Stores outside
    the allocation and reads of unwritten cells are faults.  The operations
    refine the operations on C strings that the JSON code is modelled with. *)

From stdpp Require Import base list.
From S2P Require Import Prelude Text.
Local Open Scope Z_scope.
Local Coercion Z.of_nat : nat >-> Z.

(** ** Memory *)

Notation cells := (list (option Z)).

Definition qemu_malloc (n : Z) : cells := replicate (Z.to_nat n) None.

(** The old contents are kept up to the new size. *)
Definition qemu_realloc (m : cells) (n : Z) : cells :=
  take (Z.to_nat n) m ++ replicate (Z.to_nat n - length m) None.

Definition store (m : cells) (i c : Z) : result cells :=
  if (0 <=? i) && (i <? Z.of_nat (length m)) then Ok (<[Z.to_nat i := Some c]> m) else Er EFault.

(** [memcpy(m + i, s, strlen(s))] *)
Fixpoint memcpy (m : cells) (i : Z) (s : cstring) : result cells :=
  match s with
  | [] => Ok m
  | c :: s' => m <- store m i c ;; memcpy m (i + 1) s'
  end.

(** The bytes [i .. i + n) of a C string; its NUL can be read as well. *)
Definition read_bytes (s : cstring) (i n : Z) : result cstring :=
  if (0 <=? i) && (i + n <=? Z.of_nat (length s) + 1)
  then Ok (take (Z.to_nat n) (drop (Z.to_nat i) (s ++ [0]))) else Er EFault.

(** The C string at the beginning of the cells. *)
Fixpoint read_cstr (m : cells) : result cstring :=
  match m with
  | [] | None :: _ => Er EFault
  | Some c :: m' => if c =? 0 then Ok [] else s <- read_cstr m' ;; Ok (c :: s)
  end.

(** ** The operations *)

Record QString := mkQString { qs_string : cells; qs_length : Z; qs_capacity : Z }.

Definition qstring_from_substr (s : cstring) (start end_ : Z) : result QString :=
  let len := u64 (sext 32 (end_ - start + 1)) in
  let cap := len in
  let m := qemu_malloc (cap + 1) in
  bs <- read_bytes s start len ;;
  m <- memcpy m 0 bs ;;
  m <- store m len 0 ;;
  Ok (mkQString m len cap).

Definition qstring_from_str (s : cstring) : result QString :=
  qstring_from_substr s 0 (sext 32 (Z.of_nat (length s) - 1)).

Definition qstring_new : result QString := qstring_from_str [].

Definition capacity_increase (q : QString) (len : Z) : QString :=
  if qs_capacity q <? u64 (qs_length q + len) then
    let cap := u64 (u64 (qs_capacity q + len) * 2) in
    mkQString (qemu_realloc (qs_string q) (cap + 1)) (qs_length q) cap
  else q.

Definition qstring_append (q : QString) (s : cstring) : result QString :=
  let len := Z.of_nat (length s) in
  let q := capacity_increase q len in
  m <- memcpy (qs_string q) (qs_length q) s ;;
  let length' := u64 (qs_length q + len) in
  m <- store m length' 0 ;;
  Ok (mkQString m length' (qs_capacity q)).

(** [num] has 32 bytes. *)
Definition qstring_append_int (q : QString) (value : Z) : result QString :=
  qstring_append q (take 31 (print_d value)).

Definition qstring_append_chr (q : QString) (c : Z) : result QString :=
  let q := capacity_increase q 1 in
  m <- store (qs_string q) (qs_length q) (u8 c) ;;
  let length' := u64 (qs_length q + 1) in
  m <- store m length' 0 ;;
  Ok (mkQString m length' (qs_capacity q)).

Definition qstring_get_str (q : QString) : result cstring := read_cstr (qs_string q).

(** ** The representation of a C string *)

Record qs_rep (q : QString) (s : cstring) : Prop := {
  qr_ok : cstr_ok s;
  qr_length : qs_length q = Z.of_nat (length s);
  qr_alloc : Z.of_nat (length (qs_string q)) = qs_capacity q + 1;
  qr_cells : ∃ rest, qs_string q = (Some <$> s) ++ Some 0 :: rest
}.

Lemma qs_rep_fits q s : qs_rep q s → qs_length q ≤ qs_capacity q.
Proof.
  intros [_ El Ea [rest Ec]]. rewrite Ec, length_app, length_fmap in Ea. cbn in Ea. lia.
Qed.

Lemma read_cstr_ok s rest : cstr_ok s → read_cstr ((Some <$> s) ++ Some 0 :: rest) = Ok s.
Proof.
  induction s as [|c s IH]; intros Hs; [done|]. apply Forall_cons in Hs as [Hc Hs]. cbn.
  destruct (Z.eqb_spec c 0); [lia|]. by rewrite IH.
Qed.

Lemma qstring_get_str_ok q s : qs_rep q s → qstring_get_str q = Ok s.
Proof. intros [Hs _ _ [rest Ec]]. unfold qstring_get_str. rewrite Ec. by apply read_cstr_ok. Qed.

Lemma store_app (pre : cells) x rest i c :
  i = Z.of_nat (length pre) → store (pre ++ x :: rest) i c = Ok (pre ++ Some c :: rest).
Proof.
  intros ->. unfold store. rewrite length_app. cbn [length]. case_bool; [|bprop; destruct Eb; bprop; lia].
  by rewrite Nat2Z.id, insert_app_r_alt, Nat.sub_diag by lia.
Qed.

Lemma memcpy_app (pre mid rest : cells) i s :
  i = Z.of_nat (length pre) → length mid = length s →
  memcpy (pre ++ mid ++ rest) i s = Ok (pre ++ (Some <$> s) ++ rest).
Proof.
  induction s as [|c s IH] in pre, mid, i |- *; intros Hi Hl.
  - by apply nil_length_inv in Hl as ->.
  - destruct mid as [|x mid]; [done|]. cbn [memcpy]. rewrite <- app_comm_cons, store_app by done. cbn [rbind].
    replace (pre ++ Some c :: mid ++ rest) with ((pre ++ [Some c]) ++ mid ++ rest) by (by rewrite <- app_assoc).
    rewrite (IH (pre ++ [Some c]) mid (i + 1)); [by rewrite <- app_assoc| |by injection Hl].
    rewrite length_app. cbn. lia.
Qed.

(** ** Refinement *)

Lemma realloc_app (pre rest : cells) n :
  (length pre + length rest ≤ n)%nat →
  qemu_realloc (pre ++ rest) (Z.of_nat n) = pre ++ rest ++ replicate (n - length pre - length rest) None.
Proof.
  intros Hn. unfold qemu_realloc. rewrite Nat2Z.id, take_ge, length_app by (rewrite length_app; lia).
  rewrite <- app_assoc. do 3 f_equal. lia.
Qed.

(** The capacity that suffices for [len] more bytes. *)
Definition grow_room (q : QString) (len : Z) : Prop := (qs_capacity q + len) * 2 < 2 ^ 64 - 1.

Lemma capacity_increase_ok q s len :
  qs_rep q s → 0 ≤ len → grow_room q len →
  let q' := capacity_increase q len in
  qs_rep q' s ∧ qs_length q + len ≤ qs_capacity q' ∧ qs_capacity q' ≤ 2 * (qs_capacity q + len).
Proof.
  intros Hq Hlen Hr. pose proof (qs_rep_fits _ _ Hq) as Hfit. destruct Hq as [Hs El Ea [rest Ec]].
  unfold grow_room in Hr. unfold capacity_increase. rewrite !(wrap_small 64 (_ + _)) by lia.
  destruct (Z.ltb_spec (qs_capacity q) (qs_length q + len)) as [Hlt|Hge]; cbn zeta.
  2:{ split; [by split; eauto|lia]. }
  rewrite wrap_small by lia. set (cap := (qs_capacity q + len) * 2). cbn [qs_capacity]. split; [|lia].
  assert (length rest = Z.to_nat (qs_capacity q - qs_length q)) as Hrest.
  { rewrite Ec, length_app, length_fmap in Ea. cbn in Ea. lia. }
  split; cbn [qs_length qs_string qs_capacity]; [done|done| |].
  - unfold qemu_realloc. rewrite length_app, length_take, length_replicate. lia.
  - rewrite Ec. replace (cap + 1) with (Z.of_nat (Z.to_nat (cap + 1))) by lia.
    rewrite realloc_app by (rewrite length_fmap; cbn; lia). cbn. eauto.
Qed.

(** Writing [b] and a NUL after the contents. *)
Lemma write_end q a b :
  qs_rep q a → cstr_ok b → qs_length q + Z.of_nat (length b) ≤ qs_capacity q →
  ∃ m1 m2, memcpy (qs_string q) (qs_length q) b = Ok m1 ∧
    store m1 (qs_length q + Z.of_nat (length b)) 0 = Ok m2 ∧
    qs_rep (mkQString m2 (qs_length q + Z.of_nat (length b)) (qs_capacity q)) (a ++ b).
Proof.
  intros [Ha El Ea [rest Ec]] Hb Hc.
  assert (length (@Some Z 0 :: rest) = S (Z.to_nat (qs_capacity q - qs_length q))) as Hl.
  { rewrite Ec, length_app, length_fmap in Ea. cbn in *. lia. }
  rewrite Ec. rewrite <- (take_drop (length b) (Some 0 :: rest)).
  destruct (drop (length b) (Some 0 :: rest)) as [|x rest'] eqn:Ed.
  { apply (f_equal length) in Ed. rewrite length_drop, Hl in Ed. cbn in Ed. lia. }
  eexists _, _. split; [|split].
  - apply memcpy_app; [rewrite length_fmap; lia|]. rewrite length_take, Hl. lia.
  - rewrite app_assoc. apply store_app. rewrite length_app, !length_fmap. lia.
  - rewrite <- fmap_app. split; cbn; [by apply Forall_app|rewrite length_app; lia| |eauto].
    rewrite <- Ea, Ec, !length_app, !length_fmap, length_app. apply (f_equal length) in Ed.
    rewrite length_drop in Ed. cbn in *. lia.
Qed.

Lemma qstring_append_ok q a b :
  qs_rep q a → cstr_ok b → grow_room q (Z.of_nat (length b)) →
  ∃ q', qstring_append q b = Ok q' ∧ qs_rep q' (a ++ b) ∧
    qs_capacity q' ≤ 2 * (qs_capacity q + Z.of_nat (length b)).
Proof.
  intros Hq Hb Hr. destruct (capacity_increase_ok q a (Z.of_nat (length b)) Hq ltac:(lia) Hr) as (Hq1 & Hfit & Hcap).
  unfold qstring_append. set (q1 := capacity_increase q _) in *. cbn zeta.
  assert (qs_length q1 = qs_length q) as El by (by rewrite (qr_length _ _ Hq1), (qr_length _ _ Hq)).
  destruct (write_end q1 a b Hq1 Hb) as (m1 & m2 & -> & E2 & Hq2); [lia|]. cbn [rbind].
  unfold grow_room in Hr. rewrite wrap_small by (pose proof (qr_length _ _ Hq); lia).
  rewrite E2. cbn [rbind]. eauto.
Qed.

Lemma capacity_increase_4 q s len :
  qs_rep q s → 0 ≤ len → grow_room q len → qs_capacity q ≤ 4 * qs_length q →
  qs_capacity (capacity_increase q len) ≤ 4 * (qs_length q + len).
Proof.
  intros Hq Hlen Hr H4. pose proof (qs_rep_fits _ _ Hq). pose proof (qr_length _ _ Hq). unfold grow_room in Hr.
  unfold capacity_increase. rewrite !(wrap_small 64 (_ + _)) by lia. case_bool; bprop; cbn [qs_capacity]; [|lia].
  rewrite wrap_small by lia. lia.
Qed.

(** A string of known size: the buffer is at most four times as large. *)
Definition qs_sized (q : QString) (s : cstring) : Prop :=
  qs_rep q s ∧ qs_capacity q ≤ 4 * Z.of_nat (length s).

Lemma sized_room q s len :
  qs_sized q s → 0 ≤ len → Z.of_nat (length s) + len < 2 ^ 60 → grow_room q len.
Proof. intros [_ Hc] ??. unfold grow_room. lia. Qed.

Lemma qstring_append_sized q a b :
  qs_sized q a → cstr_ok b → Z.of_nat (length (a ++ b)) < 2 ^ 60 →
  ∃ q', qstring_append q b = Ok q' ∧ qs_sized q' (a ++ b).
Proof.
  intros Hq Hb Hl. rewrite length_app in Hl. pose proof Hq as [Hr H4].
  assert (grow_room q (Z.of_nat (length b))) as Hroom by (apply (sized_room q a); [done|lia|lia]).
  destruct (qstring_append_ok q a b Hr Hb Hroom) as (q' & E & Hr' & _). exists q'. split; [done|]. split; [done|].
  unfold qstring_append in E. inv_ok. cbn [qs_capacity]. pose proof (qr_length _ _ Hr).
  etrans; [apply (capacity_increase_4 q a); [done|lia|done|lia]|]. rewrite length_app. lia.
Qed.

Lemma qstring_append_chr_eq q c :
  0 < c < 256 → qstring_append_chr q c = qstring_append q [c].
Proof.
  intros Hc. unfold qstring_append_chr, qstring_append. cbn [length memcpy]. rewrite (wrap_small 8) by lia.
  change (Z.of_nat 1) with 1. destruct (store _ _ c); done.
Qed.

Lemma qstring_new_ok : ∃ q, qstring_new = Ok q ∧ qs_sized q [].
Proof.
  eexists. split; [by vm_compute|]. split; [|cbn; lia]. split; [constructor|done|done|]. by exists [].
Qed.

Lemma memcpy_malloc s :
  memcpy (qemu_malloc (Z.of_nat (length s) + 1)) 0 s = Ok ((Some <$> s) ++ [None]).
Proof.
  unfold qemu_malloc. replace (Z.to_nat (Z.of_nat (length s) + 1)) with (length s + 1)%nat by lia.
  rewrite replicate_add. by apply (memcpy_app []); [|rewrite length_replicate].
Qed.

Lemma qstring_from_str_ok s :
  cstr_ok s → Z.of_nat (length s) < 2 ^ 31 → ∃ q, qstring_from_str s = Ok q ∧ qs_sized q s.
Proof.
  intros Hs Hl. unfold qstring_from_str, qstring_from_substr. rewrite (sext_small 32 (_ - 1)) by lia.
  rewrite sext_small by lia. rewrite wrap_small by lia. rewrite Z.sub_0_r, Z.sub_add. unfold read_bytes.
  replace (_ && _) with true by (symmetry; rewrite andb_true_iff, !Z.leb_le; lia). cbn [rbind].
  rewrite Nat2Z.id, drop_0, take_app_length, memcpy_malloc. cbn [rbind].
  rewrite store_app by (by rewrite length_fmap). cbn [rbind].
  eexists. split; [done|]. split; [|cbn; lia]. split; cbn; [done|done| |eauto].
  rewrite length_app, length_fmap. cbn. lia.
Qed.

(** ** Properties *)

(** The appending operations, and the text each appends. *)
Inductive qs_op := OpStr (s : cstring) | OpChr (c : Z) | OpInt (z : Z).

Definition op_text (o : qs_op) : cstring :=
  match o with OpStr s => s | OpChr c => [c] | OpInt z => print_d z end.

Definition op_ok (o : qs_op) : Prop :=
  match o with OpStr s => cstr_ok s | OpChr c => 0 < c < 256 | OpInt z => LLONG_MIN ≤ z ≤ LLONG_MAX end.

Definition op_run (q : QString) (o : qs_op) : result QString :=
  match o with
  | OpStr s => qstring_append q s
  | OpChr c => qstring_append_chr q c
  | OpInt z => qstring_append_int q z
  end.

Fixpoint op_runs (q : QString) (os : list qs_op) : result QString :=
  match os with [] => Ok q | o :: os' => q <- op_run q o ;; op_runs q os' end.

Lemma rev_digits_length fuel n : (length (rev_digits fuel n) ≤ fuel)%nat.
Proof.
  induction fuel as [|fuel IH] in n |- *; cbn; [lia|]. case_bool; cbn; [lia|]. specialize (IH (n `div` 10)). lia.
Qed.

Lemma print_d_short z : (length (print_d z) ≤ 21)%nat.
Proof.
  unfold print_d. case_bool; [|rewrite length_reverse; etrans; [apply rev_digits_length|lia]].
  change (length (45 :: reverse (rev_digits 20 (- z)))) with (S (length (reverse (rev_digits 20 (- z))))).
  rewrite length_reverse. pose proof (rev_digits_length 20 (- z)). lia.
Qed.

Lemma digits_cstr l : Forall (λ c, isdigit c = true) l → cstr_ok l.
Proof. intros Hl. eapply Forall_impl; [exact Hl|]. cbn. intros c Hc%isdigit_spec. lia. Qed.

Lemma print_d_cstr z : LLONG_MIN ≤ z ≤ LLONG_MAX → cstr_ok (print_d z).
Proof.
  intros Hz. destruct (print_d_shape z Hz) as [[_ ->]|(d & l & Hd & Hl & ->)].
  - apply Forall_singleton. lia.
  - apply digits_cstr in Hl. unfold cstr_ok in *. case_bool; rewrite !Forall_cons; split_and!; done || lia.
Qed.

Lemma op_run_ok q a o :
  qs_sized q a → op_ok o → Z.of_nat (length (a ++ op_text o)) < 2 ^ 60 →
  ∃ q', op_run q o = Ok q' ∧ qs_sized q' (a ++ op_text o).
Proof.
  intros Hq Ho Hl. destruct o as [s|c|z]; cbn in *.
  - by apply qstring_append_sized.
  - rewrite qstring_append_chr_eq by done. apply qstring_append_sized; [done|by apply Forall_singleton|done].
  - unfold qstring_append_int. rewrite take_ge by (pose proof (print_d_short z); lia).
    apply qstring_append_sized; [done|by apply print_d_cstr|done].
Qed.

Lemma op_runs_ok q a os :
  qs_sized q a → Forall op_ok os → Z.of_nat (length (a ++ concat (op_text <$> os))) < 2 ^ 60 →
  ∃ q', op_runs q os = Ok q' ∧ qs_sized q' (a ++ concat (op_text <$> os)).
Proof.
  induction os as [|o os IH] in q, a |- *; intros Hq Hos Hl; cbn [op_runs].
  { exists q. cbn. by rewrite app_nil_r. }
  apply Forall_cons in Hos as [Ho Hos]. cbn [concat fmap list_fmap] in *. rewrite app_assoc in *.
  destruct (op_run_ok q a o Hq Ho) as (q1 & -> & Hq1); [rewrite length_app in Hl; lia|]. cbn [rbind]. by apply IH.
Qed.

(** C27. Whatever is appended to a new string, every store is inside its
    buffer, the buffer is at most four times as large as the text, and
    [qstring_get_str] returns the concatenation. *)
Theorem qstring_appends os :
  Forall op_ok os → Z.of_nat (length (concat (op_text <$> os))) < 2 ^ 60 →
  ∃ q0 q, qstring_new = Ok q0 ∧ op_runs q0 os = Ok q ∧
    qstring_get_str q = Ok (concat (op_text <$> os)) ∧
    qs_length q = Z.of_nat (length (concat (op_text <$> os))) ∧
    qs_capacity q ≤ 4 * qs_length q.
Proof.
  intros Hos Hl. destruct qstring_new_ok as (q0 & E0 & H0).
  destruct (op_runs_ok q0 [] os H0 Hos Hl) as (q & E & Hr & Hc). cbn [app] in *.
  exists q0, q. split; [done|]. split; [done|]. split; [by apply qstring_get_str_ok|].
  rewrite (qr_length _ _ Hr). done.
Qed.

Lemma qstring_appends_witness :
  ∃ q0 q, qstring_new = Ok q0 ∧ op_runs q0 [OpStr [97; 98]; OpInt (-7); OpChr 33] = Ok q ∧
    qstring_get_str q = Ok [97; 98; 45; 55; 33] ∧ qs_length q = 5 ∧ qs_capacity q ≤ 4 * qs_length q.
Proof.
  apply (qstring_appends [OpStr [97; 98]; OpInt (-7); OpChr 33]).
  - apply Forall_cons. split; [apply (bool_decide_unpack _); by vm_compute|].
    apply Forall_cons. split; [split; vm_compute; discriminate|].
    apply Forall_singleton. cbn. lia.
  - vm_compute. reflexivity.
Defined.
