(* ===== verification/QObject.v ===== *)
(** * QObjects: lists and dictionaries

    qobject.h, qint.c, qbool.c, qfloat.c, qlist.c and qdict.c.  An object is a
    value of [qobj] (reference counts are not modelled); the C string of a
    QString is its contents (see QString.v), a double its 64 bits.  A QDict is
    the hash table of qdict.c with its 512 buckets, and refines a finite map. *)

From stdpp Require Import base gmap list fin_maps.
From S2P Require Import Prelude Text.
Local Open Scope Z_scope.
Local Coercion Z.of_nat : nat >-> Z.

(** ** Objects *)

Inductive qtype_code :=
  | QTYPE_NONE | QTYPE_QINT | QTYPE_QSTRING | QTYPE_QDICT | QTYPE_QLIST | QTYPE_QFLOAT | QTYPE_QBOOL | QTYPE_QERROR.
#[export] Instance qtype_code_eq_dec : EqDecision qtype_code.
Proof. solve_decision. Defined.

Unset Elimination Schemes.
Inductive qobj :=
  | QInt (value : Z)
  | QStr (s : cstring)
  | QBool (value : Z)
  | QFloat (bits : Z)
  | QList (l : list qobj)
  | QDict (d : Z * list (list (cstring * qobj))).
Set Elimination Schemes.

Notation qentry := (cstring * qobj)%type.
Notation qdict := (Z * list (list (cstring * qobj)))%type.

Definition qobject_type (obj : qobj) : qtype_code :=
  match obj with
  | QInt _ => QTYPE_QINT
  | QStr _ => QTYPE_QSTRING
  | QBool _ => QTYPE_QBOOL
  | QFloat _ => QTYPE_QFLOAT
  | QList _ => QTYPE_QLIST
  | QDict _ => QTYPE_QDICT
  end.

(** The conversions; [None] is NULL. *)
Definition qobject_to_qint (obj : qobj) : option Z := match obj with QInt v => Some v | _ => None end.
Definition qobject_to_qstring (obj : qobj) : option cstring := match obj with QStr s => Some s | _ => None end.
Definition qobject_to_qbool (obj : qobj) : option Z := match obj with QBool v => Some v | _ => None end.
Definition qobject_to_qfloat (obj : qobj) : option Z := match obj with QFloat v => Some v | _ => None end.
Definition qobject_to_qlist (obj : qobj) : option (list qobj) := match obj with QList l => Some l | _ => None end.
Definition qobject_to_qdict (obj : qobj) : option qdict := match obj with QDict d => Some d | _ => None end.

(** ** Lists *)

Definition qlist_new : list qobj := [].
Definition qlist_append_obj (l : list qobj) (value : qobj) : list qobj := l ++ [value].

(** The callback transforms the opaque state. *)
Definition qlist_iter {S} (l : list qobj) (iter : qobj → S → S) : S → S :=
  (fix go l opaque := match l with [] => opaque | v :: l' => go l' (iter v opaque) end) l.

Definition qlist_copy_elem (obj : qobj) (dst : list qobj) : list qobj := qlist_append_obj dst obj.
Definition qlist_copy (src : list qobj) : list qobj := qlist_iter src qlist_copy_elem qlist_new.

(** The object, or NULL, and the list after. *)
Definition qlist_pop (l : list qobj) : option qobj * list qobj :=
  match l with [] => (None, []) | v :: l' => (Some v, l') end.
Definition qlist_peek (l : list qobj) : option qobj := head l.
Definition qlist_empty (l : list qobj) : bool := match l with [] => true | _ => false end.

(** ** Dictionaries *)

Definition QDICT_BUCKET_MAX : Z := 512.

Fixpoint hash_loop (name : cstring) (i value : Z) : Z :=
  match name with
  | [] => value
  | c :: name' => hash_loop name' (u32 (i + 1)) (u32 (value + (c <<. (u32 (i * 5) `mod` 24))))
  end.

Definition tdb_hash (name : cstring) : Z :=
  u32 (1103515243 * hash_loop name 0 (u32 (0x238F13AF * Z.of_nat (length name))) + 12345).

Definition bucket_of (key : cstring) : nat := Z.to_nat (tdb_hash key `mod` QDICT_BUCKET_MAX).

Definition qdict_new : qdict := (0, replicate (Z.to_nat QDICT_BUCKET_MAX) []).

(** The entry and its position in the bucket. *)
Definition qdict_find (d : qdict) (key : cstring) (bucket : nat) : option (nat * qentry) :=
  d.2 !! bucket ≫= list_find (λ e, e.1 = key).

Definition qdict_put_obj (d : qdict) (key : cstring) (value : qobj) : qdict :=
  let bucket := bucket_of key in
  match qdict_find d key bucket with
  | Some (k, e) => (d.1, alter <[k := (e.1, value)]> bucket d.2)
  | None => (d.1 + 1, alter (cons (key, value)) bucket d.2)
  end.

Definition qdict_get (d : qdict) (key : cstring) : option qobj :=
  match qdict_find d key (bucket_of key) with Some (_, e) => Some e.2 | None => None end.

Definition qdict_haskey (d : qdict) (key : cstring) : Z :=
  match qdict_find d key (bucket_of key) with Some _ => 1 | None => 0 end.

Definition qdict_size (d : qdict) : Z := d.1.

Definition qdict_get_obj (d : qdict) (key : cstring) (type : qtype_code) : result qobj :=
  match qdict_get d key with
  | None => Er EAbort
  | Some obj => _ <- assert_ (bool_decide (qobject_type obj = type)) ;; Ok obj
  end.

(** [of_int] converts a 64-bit integer to a double. *)
Definition qdict_get_double (of_int : Z → Z) (d : qdict) (key : cstring) : result Z :=
  match qdict_get d key with
  | Some (QFloat v) => Ok v
  | Some (QInt v) => Ok (of_int v)
  | _ => Er EAbort
  end.

Definition qdict_get_int (d : qdict) (key : cstring) : result Z :=
  obj <- qdict_get_obj d key QTYPE_QINT ;; deref (qobject_to_qint obj).
Definition qdict_get_bool (d : qdict) (key : cstring) : result Z :=
  obj <- qdict_get_obj d key QTYPE_QBOOL ;; deref (qobject_to_qbool obj).
Definition qdict_get_qlist (d : qdict) (key : cstring) : result (list qobj) :=
  obj <- qdict_get_obj d key QTYPE_QLIST ;; deref (qobject_to_qlist obj).
Definition qdict_get_qdict (d : qdict) (key : cstring) : result qdict :=
  obj <- qdict_get_obj d key QTYPE_QDICT ;; deref (qobject_to_qdict obj).
Definition qdict_get_str (d : qdict) (key : cstring) : result cstring :=
  obj <- qdict_get_obj d key QTYPE_QSTRING ;; deref (qobject_to_qstring obj).

Definition qdict_get_try_int (d : qdict) (key : cstring) (def_value : Z) : Z :=
  match qdict_get d key with Some (QInt v) => v | _ => def_value end.
Definition qdict_get_try_bool (d : qdict) (key : cstring) (def_value : Z) : Z :=
  match qdict_get d key with Some (QBool v) => v | _ => def_value end.
Definition qdict_get_try_str (d : qdict) (key : cstring) : option cstring :=
  match qdict_get d key with Some (QStr s) => Some s | _ => None end.

Definition bucket_iter {S} (b : list qentry) (iter : cstring → qobj → S → S) : S → S :=
  (fix go b opaque := match b with [] => opaque | e :: b' => go b' (iter e.1 e.2 opaque) end) b.

Definition table_iter {S} (t : list (list qentry)) (iter : cstring → qobj → S → S) : S → S :=
  (fix go t opaque := match t with [] => opaque | b :: t' => go t' (bucket_iter b iter opaque) end) t.

Definition qdict_iter {S} (d : qdict) (iter : cstring → qobj → S → S) (opaque : S) : S :=
  table_iter d.2 iter opaque.

(** A pointer to an entry: its bucket and its position there. *)
Notation entry_ptr := (nat * nat)%type.

Definition entry_at (d : qdict) (p : entry_ptr) : option qentry := d.2 !! p.1 ≫= λ b, b !! p.2.

(** The first non-empty bucket of the list, which begins at bucket [i]. *)
Fixpoint next_bucket (t : list (list qentry)) (i : nat) : option entry_ptr :=
  match t with
  | [] => None
  | [] :: t' => next_bucket t' (S i)
  | _ :: _ => Some (i, 0%nat)
  end.

Definition qdict_next_entry (d : qdict) (first_bucket : nat) : option entry_ptr :=
  next_bucket (drop first_bucket d.2) first_bucket.

Definition qdict_first (d : qdict) : option entry_ptr := qdict_next_entry d 0.

Definition qdict_next (d : qdict) (p : entry_ptr) : result (option entry_ptr) :=
  e <- deref (entry_at d p) ;;
  match entry_at d (p.1, S p.2) with
  | Some _ => Ok (Some (p.1, S p.2))
  | None => Ok (qdict_next_entry d (S (bucket_of e.1)))
  end.

Definition qdict_del (d : qdict) (key : cstring) : qdict :=
  let bucket := bucket_of key in
  match qdict_find d key bucket with
  | Some (k, _) => (d.1 - 1, alter (delete k) bucket d.2)
  | None => d
  end.

(** ** Induction over objects *)

Section ind.
  Variable P : qobj → Prop.
  Hypothesis Hint : ∀ v, P (QInt v).
  Hypothesis Hstr : ∀ s, P (QStr s).
  Hypothesis Hbool : ∀ v, P (QBool v).
  Hypothesis Hfloat : ∀ v, P (QFloat v).
  Hypothesis Hlist : ∀ l, Forall P l → P (QList l).
  Hypothesis Hdict : ∀ n t, Forall (Forall (λ e : qentry, P e.2)) t → P (QDict (n, t)).

Fixpoint qobj_ind (v : qobj) : P v :=
  match v with
  | QInt z => Hint z
  | QStr s => Hstr s
  | QBool z => Hbool z
  | QFloat z => Hfloat z
  | QList l => Hlist l ((fix go l : Forall P l :=
      match l with [] => List.Forall_nil _ | x :: l' => List.Forall_cons _ _ _ (qobj_ind x) (go l') end) l)
  | QDict (n, t) => Hdict n t ((fix go t : Forall (Forall (λ e : qentry, P e.2)) t :=
      match t with
      | [] => List.Forall_nil _
      | b :: t' => List.Forall_cons _ _ _ ((fix go' b : Forall (λ e : qentry, P e.2) b :=
          match b with [] => List.Forall_nil _ | e :: b' => List.Forall_cons _ _ _ (qobj_ind e.2) (go' b') end) b) (go t')
      end) t)
  end.
End ind.

(** ** The hash table refines a finite map *)

Record dict_wf (d : qdict) : Prop := {
  dw_buckets : length d.2 = Z.to_nat QDICT_BUCKET_MAX;
  dw_hash i b e : d.2 !! i = Some b → e ∈ b → bucket_of e.1 = i;
  dw_keys i b : d.2 !! i = Some b → NoDup b.*1;
  dw_size : d.1 = Z.of_nat (length (mjoin d.2))
}.

(** The entries in the order of the iteration, and the map they are. *)
Definition dict_entries (d : qdict) : list qentry := mjoin d.2.
Definition dict_map (d : qdict) : gmap cstring qobj := list_to_map (dict_entries d).

Lemma bucket_of_lt key : (bucket_of key < Z.to_nat QDICT_BUCKET_MAX)%nat.
Proof.
  unfold bucket_of, QDICT_BUCKET_MAX. pose proof (Z.mod_pos_bound (tdb_hash key) 512). lia.
Qed.

Lemma dict_bucket d key : dict_wf d → ∃ b, d.2 !! bucket_of key = Some b.
Proof. intros Hd. apply lookup_lt_is_Some_2. rewrite (dw_buckets _ Hd). apply bucket_of_lt. Qed.

(** Lookup in one bucket. *)
Definition blookup (b : list qentry) (key : cstring) : option qobj :=
  snd <$> (snd <$> list_find (λ e, e.1 = key) b).

Lemma blookup_nil key : blookup [] key = None.
Proof. done. Qed.

Lemma blookup_cons e b key :
  blookup (e :: b) key = if decide (e.1 = key) then Some e.2 else blookup b key.
Proof.
  unfold blookup. cbn. case_decide; [done|]. destruct (list_find _ b) as [[? ?]|]; done.
Qed.

Lemma blookup_Some b key v : NoDup b.*1 → blookup b key = Some v ↔ (key, v) ∈ b.
Proof.
  induction b as [|[k w] b IH]; cbn [fmap list_fmap]; intros Hnd; [by rewrite blookup_nil; set_solver|].
  apply NoDup_cons in Hnd as [Hk Hnd]. rewrite blookup_cons, elem_of_cons. cbn. case_decide as E.
  - subst. split; [naive_solver|]. intros [?|Hin]; [naive_solver|]. destruct Hk. by apply (list_elem_of_fmap_2 fst _ (key, v)).
  - rewrite (IH Hnd). naive_solver.
Qed.

#[global] Arguments blookup : simpl never.

Lemma qdict_get_bucket d key : qdict_get d key = d.2 !! bucket_of key ≫= λ b, blookup b key.
Proof.
  unfold qdict_get, qdict_find. destruct (d.2 !! bucket_of key) as [b|]; cbn; [|done].
  unfold blookup. by destruct (list_find _ b) as [[? ?]|].
Qed.

Lemma blookup_insert b key n e v j :
  list_find (λ e, e.1 = key) b = Some (n, e) →
  blookup (<[n := (e.1, v)]> b) j = if decide (key = j) then Some v else blookup b j.
Proof.
  induction b as [|e' b IH] in n |- *; [done|]. cbn [list_find]. destruct (decide (e'.1 = key)) as [E|E].
  - intros Heq. simplify_eq/=. rewrite !blookup_cons. cbn. by repeat case_decide.
  - destruct (list_find _ b) as [[n' e'']|] eqn:Ef; [|done]. cbn. intros Heq. simplify_eq/=.
    rewrite !blookup_cons, (IH n') by done. repeat case_decide; congruence.
Qed.

Lemma blookup_delete b key n e j :
  NoDup b.*1 → list_find (λ e, e.1 = key) b = Some (n, e) →
  blookup (delete n b) j = if decide (key = j) then None else blookup b j.
Proof.
  induction b as [|e' b IH] in n |- *; [done|]. cbn [fmap list_fmap list_find]. intros [Hk Hnd]%NoDup_cons.
  destruct (decide (e'.1 = key)) as [E|E].
  - intros Heq. simplify_eq/=. rewrite blookup_cons. case_decide as Ej; [|done]. subst j.
    destruct (blookup b e.1) as [v|] eqn:Eb; [|done]. apply blookup_Some in Eb; [|done].
    destruct Hk. by apply (list_elem_of_fmap_2 fst _ (e.1, v)).
  - destruct (list_find _ b) as [[n' e'']|] eqn:Ef; [|done]. cbn. intros Heq. simplify_eq/=.
    rewrite !blookup_cons, (IH n') by done. repeat case_decide; congruence.
Qed.

Lemma join_elem (t : list (list qentry)) e : e ∈ mjoin t ↔ ∃ i b, t !! i = Some b ∧ e ∈ b.
Proof.
  rewrite list_elem_of_join. split.
  - intros (b & He & [i Hi]%list_elem_of_lookup). eauto.
  - intros (i & b & Hi & He). exists b. split; [done|]. by eapply list_elem_of_lookup_2.
Qed.

Lemma join_keys_nodup (t : list (list qentry)) off :
  (∀ i b e, t !! i = Some b → e ∈ b → bucket_of e.1 = (off + i)%nat) →
  (∀ i b, t !! i = Some b → NoDup b.*1) → NoDup (mjoin t).*1.
Proof.
  induction t as [|b t IH] in off |- *; intros Hh Hk; cbn; [constructor|]. rewrite fmap_app. apply NoDup_app.
  split; [by apply (Hk 0%nat)|]. split.
  - intros k Hb Ht. apply list_elem_of_fmap in Hb as (e & -> & He). apply list_elem_of_fmap in Ht as (e' & E & He').
    apply join_elem in He' as (i & b' & Hi & He'). pose proof (Hh 0%nat b e eq_refl He) as E0.
    pose proof (Hh (S i) b' e' Hi He') as E1. rewrite <- E in E1. lia.
  - apply (IH (S off)); [|intros i; apply (Hk (S i))]. intros i b' e Hi He. rewrite (Hh (S i) b' e Hi He). lia.
Qed.

Lemma dict_keys_nodup d : dict_wf d → NoDup (dict_entries d).*1.
Proof. intros Hd. apply (join_keys_nodup _ 0); [apply (dw_hash _ Hd)|apply (dw_keys _ Hd)]. Qed.

Lemma dict_entries_elem d key v :
  dict_wf d → (key, v) ∈ dict_entries d ↔ qdict_get d key = Some v.
Proof.
  intros Hd. unfold dict_entries. rewrite join_elem, qdict_get_bucket. split.
  - intros (i & b & Hi & He). pose proof (dw_hash _ Hd _ _ _ Hi He) as E. cbn in E. rewrite E, Hi. cbn.
    apply blookup_Some; [|done]. by eapply (dw_keys _ Hd).
  - destruct (d.2 !! bucket_of key) as [b|] eqn:Eb; [|done]. cbn. intros Hl. exists (bucket_of key), b.
    split; [done|]. apply blookup_Some; [by eapply (dw_keys _ Hd)|done].
Qed.

Lemma qdict_get_map d key : dict_wf d → qdict_get d key = dict_map d !! key.
Proof.
  intros Hd. apply option_eq. intros v. rewrite <- dict_entries_elem by done. unfold dict_map.
  by apply elem_of_list_to_map, dict_keys_nodup.
Qed.

Lemma dict_map_size d : dict_wf d → qdict_size d = Z.of_nat (size (dict_map d)).
Proof.
  intros Hd. unfold qdict_size, dict_map. rewrite (dw_size _ Hd). f_equal.
  rewrite <- length_map_to_list. apply Permutation_length. symmetry. apply map_to_list_to_map.
  by apply dict_keys_nodup.
Qed.

Lemma dict_new_wf : dict_wf qdict_new.
Proof.
  assert (∀ i b, (qdict_new).2 !! i = Some b → b = []) as Hn.
  { intros i b Hi. apply lookup_replicate in Hi as [-> _]. done. }
  split; [done| | |done].
  - intros i b e ->%Hn He. by apply not_elem_of_nil in He.
  - intros i b ->%Hn. constructor.
Qed.

Lemma dict_new_map : dict_map qdict_new = ∅.
Proof. done. Qed.

Lemma join_alter_length (f : list qentry → list qentry) t i b :
  t !! i = Some b →
  Z.of_nat (length (mjoin (alter f i t))) = Z.of_nat (length (mjoin t)) + Z.of_nat (length (f b)) - Z.of_nat (length b).
Proof.
  induction t as [|b' t IH] in i |- *; [done|]. destruct i as [|i].
  - intros [= ->]. change (length (f b ++ mjoin t) = length (b ++ mjoin t) + length (f b) - length b :> Z).
    rewrite !length_app. lia.
  - intros Hi. change (length (b' ++ mjoin (alter f i t)) = length (b' ++ mjoin t) + length (f b) - length b :> Z).
    rewrite !length_app, !Nat2Z.inj_add, (IH i Hi). lia.
Qed.

(** Replacing the bucket of [key] by one with the same or fewer keys, or with
    [key] in addition. *)
Lemma alter_wf d key f b n :
  dict_wf d → d.2 !! bucket_of key = Some b →
  (∀ e, e ∈ f b → e.1 = key ∨ e ∈ b) → NoDup (f b).*1 →
  n = d.1 + Z.of_nat (length (f b)) - Z.of_nat (length b) →
  dict_wf (n, alter f (bucket_of key) d.2).
Proof.
  intros Hd Hb Hf Hnd ->.
  assert (∀ i b', alter f (bucket_of key) d.2 !! i = Some b' →
    i = bucket_of key ∧ b' = f b ∨ d.2 !! i = Some b') as Hcase.
  { intros i b'. rewrite list_lookup_alter. case_decide as Ei; [|by right]. subst i. rewrite Hb. intros [= <-]. by left. }
  split; cbn.
  - rewrite length_alter. apply (dw_buckets _ Hd).
  - intros i b' e [[-> ->]|Hi]%Hcase He; [|by eapply (dw_hash _ Hd)].
    destruct (Hf e He) as [->|He']; [done|by eapply (dw_hash _ Hd)].
  - intros i b' [[-> ->]|Hi]%Hcase; [done|by eapply (dw_keys _ Hd)].
  - rewrite (join_alter_length f _ _ b Hb), (dw_size _ Hd). done.
Qed.

Lemma get_alter d key f b n j :
  d.2 !! bucket_of key = Some b →
  qdict_get (n, alter f (bucket_of key) d.2) j =
    if decide (bucket_of key = bucket_of j) then blookup (f b) j else qdict_get d j.
Proof.
  intros Hb. rewrite !qdict_get_bucket. cbn. rewrite list_lookup_alter. case_decide as E; [|done].
  by rewrite Hb.
Qed.

Lemma find_keys (b : list qentry) key n e :
  list_find (λ e, e.1 = key) b = Some (n, e) → e.1 = key ∧ b !! n = Some e.
Proof. intros (? & ? & _)%list_find_Some. done. Qed.

Lemma insert_keys (b : list qentry) n e v : b !! n = Some e → (<[n := (e.1, v)]> b).*1 = b.*1.
Proof. intros Hn. rewrite list_fmap_insert. cbn. apply list_insert_id. by rewrite list_lookup_fmap, Hn. Qed.

Lemma qdict_put_ok d key v :
  dict_wf d → dict_wf (qdict_put_obj d key v) ∧ dict_map (qdict_put_obj d key v) = <[key := v]> (dict_map d).
Proof.
  intros Hd. destruct (dict_bucket d key Hd) as [b Hb]. pose proof (dw_keys _ Hd _ _ Hb) as Hnd.
  assert (dict_wf (qdict_put_obj d key v) ∧
    ∀ j, qdict_get (qdict_put_obj d key v) j = if decide (key = j) then Some v else qdict_get d j) as [Hw Hg].
  { unfold qdict_put_obj, qdict_find. rewrite Hb. cbn.
    destruct (list_find (λ e, e.1 = key) b) as [[k e]|] eqn:Ef.
    - pose proof (find_keys _ _ _ _ Ef) as [Ek Hk]. split.
      + eapply alter_wf; [done|done| |by rewrite insert_keys|rewrite length_insert; lia].
        intros e' He'. apply list_elem_of_lookup in He' as [i Hi]. apply list_lookup_insert_Some in Hi as [(-> & <- & _)|[_ Hi]].
        * by left.
        * right. by eapply list_elem_of_lookup_2.
      + intros j. rewrite (get_alter _ _ _ b) by done. rewrite (blookup_insert _ key) by done.
        rewrite qdict_get_bucket. repeat case_decide; try congruence. subst. by rewrite <- H, Hb.
    - apply list_find_None in Ef. split.
      + eapply alter_wf; [done|done|set_solver| |cbn; lia]. cbn. constructor; [|done].
        intros Hin. apply list_elem_of_fmap in Hin as (e & E & He). rewrite Forall_forall in Ef. by apply (Ef e).
      + intros j. rewrite (get_alter _ _ _ b) by done. rewrite blookup_cons. cbn. rewrite qdict_get_bucket.
        repeat case_decide; try congruence. by rewrite <- H, Hb. }
  split; [done|]. apply map_eq. intros j. rewrite <- qdict_get_map, Hg by done.
  rewrite lookup_insert, <- qdict_get_map by done. by repeat case_decide.
Qed.

Lemma qdict_del_ok d key :
  dict_wf d → dict_wf (qdict_del d key) ∧ dict_map (qdict_del d key) = delete key (dict_map d).
Proof.
  intros Hd. destruct (dict_bucket d key Hd) as [b Hb]. pose proof (dw_keys _ Hd _ _ Hb) as Hnd.
  assert (dict_wf (qdict_del d key) ∧
    ∀ j, qdict_get (qdict_del d key) j = if decide (key = j) then None else qdict_get d j) as [Hw Hg].
  { unfold qdict_del, qdict_find. rewrite Hb. cbn.
    destruct (list_find (λ e, e.1 = key) b) as [[k e]|] eqn:Ef.
    - pose proof (find_keys _ _ _ _ Ef) as [Ek Hk]. split.
      + eapply alter_wf; [done|done| | |].
        * intros e' He'. right. by eapply list_elem_of_delete_inv.
        * rewrite list_fmap_delete. apply (sublist_NoDup _ b.*1); [done|apply sublist_delete].
        * rewrite length_delete by eauto. apply lookup_lt_Some in Hk. lia.
      + intros j. rewrite (get_alter _ _ _ b) by done. rewrite (blookup_delete _ key _ e) by done.
        rewrite qdict_get_bucket. repeat case_decide; try congruence. subst. by rewrite <- H, Hb.
    - split; [done|]. intros j. case_decide as Ej; [subst j|done]. rewrite qdict_get_bucket, Hb. cbn.
      unfold blookup. by rewrite Ef. }
  split; [done|]. apply map_eq. intros j. rewrite <- qdict_get_map, Hg by done.
  rewrite lookup_delete, <- qdict_get_map by done. by repeat case_decide.
Qed.

(** ** Iteration *)

Lemma bucket_iter_fold {S} (b : list qentry) (f : cstring → qobj → S → S) (x : S) :
  bucket_iter b f x = foldl (λ x e, f e.1 e.2 x) x b.
Proof. induction b as [|e b IH] in x |- *; [done|]. apply IH. Qed.

(** [qdict_iter] visits the entries in order. *)
Lemma qdict_iter_fold {S} (d : qdict) (f : cstring → qobj → S → S) (x : S) :
  qdict_iter d f x = foldl (λ x e, f e.1 e.2 x) x (dict_entries d).
Proof.
  unfold qdict_iter, dict_entries. generalize d.2 as t. intros t. induction t as [|b t IH] in x |- *; [done|].
  change (mjoin (b :: t)) with (b ++ mjoin t). rewrite foldl_app, <- (bucket_iter_fold b). apply IH.
Qed.

(** The entries that [qdict_first] and [qdict_next] walk through. *)
Fixpoint walk (fuel : nat) (d : qdict) (p : option entry_ptr) : result (list qentry) :=
  match fuel, p with
  | _, None => Ok []
  | O, Some _ => Er EFuel
  | S f, Some p =>
      e <- deref (entry_at d p) ;;
      q <- qdict_next d p ;;
      l <- walk f d q ;;
      Ok (e :: l)
  end.

(** The entries from a position on. *)
Definition entries_from (d : qdict) (i k : nat) : list qentry :=
  default [] (drop k <$> d.2 !! i) ++ mjoin (drop (S i) d.2).

Lemma next_bucket_ok t i :
  match next_bucket t i with
  | Some (j, k) => k = 0%nat ∧ (i ≤ j)%nat ∧ mjoin t = mjoin (drop (j - i) t) ∧ ∃ e b, t !! (j - i)%nat = Some (e :: b)
  | None => mjoin t = []
  end.
Proof.
  induction t as [|[|e b] t IH] in i |- *; cbn [next_bucket]; [done| |].
  - change (mjoin ([] :: t)) with (mjoin t). specialize (IH (S i)). destruct (next_bucket t (S i)) as [[j k]|]; [|done].
    destruct IH as (-> & Hj & Hm & e & b & He). split; [done|]. split; [lia|].
    replace (j - i)%nat with (S (j - S i)) by lia. split; [done|]. by exists e, b.
  - rewrite Nat.sub_diag. split; [done|]. split; [lia|]. split; [done|]. by exists e, b.
Qed.

Lemma qdict_next_entry_ok d i :
  match qdict_next_entry d i with
  | Some (j, k) => k = 0%nat ∧ mjoin (drop i d.2) = entries_from d j 0 ∧ is_Some (entry_at d (j, 0%nat))
  | None => mjoin (drop i d.2) = []
  end.
Proof.
  unfold qdict_next_entry. pose proof (next_bucket_ok (drop i d.2) i) as Hn.
  destruct (next_bucket (drop i d.2) i) as [[j k]|]; [|done]. destruct Hn as (-> & Hj & Hm & e & b & He).
  rewrite lookup_drop in He. replace (i + (j - i))%nat with j in He by lia. split; [done|]. split.
  - rewrite Hm, drop_drop. replace (i + (j - i))%nat with j by lia. unfold entries_from. rewrite He. cbn [fmap option_fmap option_map default].
    rewrite (drop_S d.2 (e :: b) j He). done.
  - unfold entry_at. cbn. rewrite He. cbn. eauto.
Qed.

Lemma walk_ok fuel d i k :
  dict_wf d → (length (entries_from d i k) < fuel)%nat → is_Some (entry_at d (i, k)) →
  walk fuel d (Some (i, k)) = Ok (entries_from d i k).
Proof.
  intros Hd. induction fuel as [|fuel IH] in i, k |- *; intros Hf [e He]; [lia|]. cbn [walk].
  rewrite He. cbn [rbind deref]. unfold qdict_next. rewrite He. cbn [rbind deref fst snd].
  unfold entry_at in He. cbn in He. destruct (d.2 !! i) as [b|] eqn:Hb; [|done]. cbn in He.
  assert (bucket_of e.1 = i) as Eb by (eapply (dw_hash _ Hd); [done|by eapply list_elem_of_lookup_2]).
  assert (entries_from d i k = e :: entries_from d i (S k)) as Ee.
  { unfold entries_from. rewrite Hb. cbn. by rewrite (drop_S b e k He). }
  rewrite Ee in *. cbn [length] in Hf.
  destruct (entry_at d (i, S k)) as [e'|] eqn:He'; cbn [rbind].
  - rewrite IH by (eauto || lia). done.
  - assert (entries_from d i (S k) = mjoin (drop (S i) d.2)) as E2.
    { unfold entries_from. rewrite Hb. cbn. unfold entry_at in He'. cbn in He'. rewrite Hb in He'. cbn in He'.
      by rewrite drop_ge by (by apply lookup_ge_None). }
    rewrite Eb. pose proof (qdict_next_entry_ok d (S i)) as Hn.
    destruct (qdict_next_entry d (S i)) as [[j k']|].
    + destruct Hn as (-> & Hj & Hs). rewrite E2, Hj in *. by rewrite IH by (done || lia).
    + rewrite E2, Hn. by destruct fuel.
Qed.

Lemma walk_all d : dict_wf d → walk (S (length (dict_entries d))) d (qdict_first d) = Ok (dict_entries d).
Proof.
  intros Hd. unfold qdict_first. pose proof (qdict_next_entry_ok d 0) as Hn. rewrite drop_0 in Hn. fold (dict_entries d) in Hn.
  destruct (qdict_next_entry d 0) as [[j k]|].
  - destruct Hn as (-> & E & Hs). rewrite E. apply walk_ok; [done|lia|done].
  - by rewrite Hn.
Qed.

(** ** Properties *)

(** A dictionary that stands for a finite map. *)
Definition dict_rep (d : qdict) (m : gmap cstring qobj) : Prop := dict_wf d ∧ dict_map d = m.

(** [qdict_first] and [qdict_next] terminate and visit every entry of a
    dictionary exactly once, in the order in which [qdict_iter] calls its
    callback. *)
Lemma qdict_walk_ok d :
  dict_wf d →
  ∃ l, walk (S (length l)) d (qdict_first d) = Ok l ∧ l ≡ₚ map_to_list (dict_map d) ∧
    ∀ S (f : cstring → qobj → S → S) (x : S), qdict_iter d f x = foldl (λ x e, f e.1 e.2 x) x l.
Proof.
  intros Hd. exists (dict_entries d). split; [by apply walk_all|]. split.
  - symmetry. by apply map_to_list_to_map, dict_keys_nodup.
  - intros S f x. apply qdict_iter_fold.
Qed.

(** C26. The hash table implements a finite map: the new dictionary is empty,
    insertion replaces or adds, deletion removes, and lookup, membership and
    size are those of the map.  [qdict_first] and [qdict_next] end after
    visiting every entry of the map exactly once, and [qdict_iter] calls its
    callback on the same entries in the same order. *)
Theorem qdict_refines :
  dict_rep qdict_new ∅ ∧
  ∀ d m, dict_rep d m →
    (∀ k v, dict_rep (qdict_put_obj d k v) (<[k := v]> m)) ∧
    (∀ k, dict_rep (qdict_del d k) (delete k m)) ∧
    (∀ k, qdict_get d k = m !! k) ∧
    (∀ k, qdict_haskey d k = b2z (bool_decide (is_Some (m !! k)))) ∧
    qdict_size d = Z.of_nat (size m) ∧
    ∃ l, walk (S (length l)) d (qdict_first d) = Ok l ∧ l ≡ₚ map_to_list m ∧
      ∀ S (f : cstring → qobj → S → S) (x : S), qdict_iter d f x = foldl (λ x e, f e.1 e.2 x) x l.
Proof.
  split; [split; [apply dict_new_wf|apply dict_new_map]|]. intros d m [Hd <-].
  split; [intros k v; by apply qdict_put_ok|]. split; [intros k; by apply qdict_del_ok|].
  split; [intros k; by apply qdict_get_map|]. split; [|split; [by apply dict_map_size|by apply qdict_walk_ok]].
  intros k. rewrite <- qdict_get_map by done. unfold qdict_haskey, qdict_get.
  destruct (qdict_find d k (bucket_of k)) as [[? ?]|]; [by rewrite bool_decide_true by eauto|].
  rewrite bool_decide_false; [done|]. by intros [? ?].
Qed.

Definition two_keys : qdict := qdict_put_obj (qdict_put_obj qdict_new [97] (QInt 1)) [98] (QBool 0).

Lemma two_keys_wf : dict_wf two_keys.
Proof. apply qdict_put_ok, qdict_put_ok, dict_new_wf. Qed.

Lemma qdict_refines_witness :
  dict_rep (qdict_del two_keys [97]) (delete [97] (dict_map two_keys)) ∧ qdict_get two_keys [98] = Some (QBool 0) ∧
  ∃ l, walk (S (length l)) two_keys (qdict_first two_keys) = Ok l ∧ l ≡ₚ map_to_list (dict_map two_keys).
Proof.
  destruct qdict_refines as [_ Hr].
  destruct (Hr two_keys (dict_map two_keys)) as (_ & Hdel & Hget & _ & _ & l & Hw & Hl & _).
  { split; [apply two_keys_wf|reflexivity]. }
  split; [apply Hdel|]. split; [rewrite Hget; vm_compute; reflexivity|]. exists l. split; [exact Hw|exact Hl].
Defined.
