(* ===== verification/JsonLexer.v ===== *)
(** * JSON lexer and message splitting

    json-lexer.c and json-streamer.c.  The emit callbacks are parameters that
    transform a state of the caller's, as the callbacks of the code modify the
    structure that contains the lexer. *)

From Stdlib Require Import String Ascii.
From stdpp Require Import base list.
From S2P Require Import Prelude Text QObject.
Local Open Scope Z_scope.
Local Coercion Z.of_nat : nat >-> Z.

(** ** The table *)

Inductive JSONTokenType :=
  | JSON_OPERATOR | JSON_INTEGER | JSON_FLOAT | JSON_KEYWORD | JSON_STRING | JSON_ESCAPE | JSON_SKIP.
#[export] Instance JSONTokenType_eq_dec : EqDecision JSONTokenType.
Proof. solve_decision. Defined.

(** The codes of the enumeration. *)
Definition token_code (t : JSONTokenType) : Z :=
  match t with
  | JSON_OPERATOR => 100 | JSON_INTEGER => 101 | JSON_FLOAT => 102 | JSON_KEYWORD => 103
  | JSON_STRING => 104 | JSON_ESCAPE => 105 | JSON_SKIP => 106
  end.

(** The entries of the table: a state of the lexer, or the type of a token. *)
Inductive json_lexer_state :=
  | ERROR
  | IN_DQ_UCODE3 | IN_DQ_UCODE2 | IN_DQ_UCODE1 | IN_DQ_UCODE0 | IN_DQ_STRING_ESCAPE | IN_DQ_STRING
  | IN_SQ_UCODE3 | IN_SQ_UCODE2 | IN_SQ_UCODE1 | IN_SQ_UCODE0 | IN_SQ_STRING_ESCAPE | IN_SQ_STRING
  | IN_ZERO | IN_DIGITS | IN_DIGIT | IN_EXP_E | IN_MANTISSA | IN_MANTISSA_DIGITS
  | IN_NONZERO_NUMBER | IN_NEG_NONZERO_NUMBER | IN_KEYWORD
  | IN_ESCAPE | IN_ESCAPE_L | IN_ESCAPE_LL | IN_ESCAPE_I | IN_ESCAPE_I6 | IN_ESCAPE_I64
  | IN_WHITESPACE | IN_START
  | Accept (t : JSONTokenType).
#[export] Instance json_lexer_state_eq_dec : EqDecision json_lexer_state.
Proof. solve_decision. Defined.

Definition ch (s : string) : Z := match s with String c _ => Z.of_N (N_of_ascii c) | EmptyString => 0 end.
Arguments ch _%_string_scope.
Definition dquote : Z := 34.
Definition squote : Z := 39.
Definition backslash : Z := 92.

(** The initialisers of a row: [lo ... hi] = state, and one character. *)
Notation rng lo hi s := (ch lo, ch hi, s).
Notation one c s := (ch c, ch c, s).
Notation code c s := (c, c, s).
Definition TERMINAL (s : JSONTokenType) : Z * Z * json_lexer_state := (0, 0x7F, Accept s).

Definition hex_row (s : json_lexer_state) : list (Z * Z * json_lexer_state) :=
  [rng "0" "9" s; rng "a" "f" s; rng "A" "F" s].

Definition lexer_row (s : json_lexer_state) : list (Z * Z * json_lexer_state) :=
  match s with
  (* double quote string *)
  | IN_DQ_UCODE3 => hex_row IN_DQ_STRING
  | IN_DQ_UCODE2 => hex_row IN_DQ_UCODE3
  | IN_DQ_UCODE1 => hex_row IN_DQ_UCODE2
  | IN_DQ_UCODE0 => hex_row IN_DQ_UCODE1
  | IN_DQ_STRING_ESCAPE =>
      [one "b" IN_DQ_STRING; one "f" IN_DQ_STRING; one "n" IN_DQ_STRING; one "r" IN_DQ_STRING;
       one "t" IN_DQ_STRING; one "/" IN_DQ_STRING; code backslash IN_DQ_STRING;
       code squote IN_DQ_STRING; code dquote IN_DQ_STRING; one "u" IN_DQ_UCODE0]
  | IN_DQ_STRING =>
      [(1, 0xFF, IN_DQ_STRING); code backslash IN_DQ_STRING_ESCAPE; code dquote (Accept JSON_STRING)]
  (* single quote string *)
  | IN_SQ_UCODE3 => hex_row IN_SQ_STRING
  | IN_SQ_UCODE2 => hex_row IN_SQ_UCODE3
  | IN_SQ_UCODE1 => hex_row IN_SQ_UCODE2
  | IN_SQ_UCODE0 => hex_row IN_SQ_UCODE1
  | IN_SQ_STRING_ESCAPE =>
      [one "b" IN_SQ_STRING; one "f" IN_SQ_STRING; one "n" IN_SQ_STRING; one "r" IN_SQ_STRING;
       one "t" IN_SQ_STRING; one "/" IN_DQ_STRING; code backslash IN_DQ_STRING;
       code squote IN_SQ_STRING; code dquote IN_SQ_STRING; one "u" IN_SQ_UCODE0]
  | IN_SQ_STRING =>
      [(1, 0xFF, IN_SQ_STRING); code backslash IN_SQ_STRING_ESCAPE; code squote (Accept JSON_STRING)]
  (* Zero *)
  | IN_ZERO => [TERMINAL JSON_INTEGER; rng "0" "9" ERROR; one "." IN_MANTISSA]
  (* Float *)
  | IN_DIGITS => [TERMINAL JSON_FLOAT; rng "0" "9" IN_DIGITS]
  | IN_DIGIT => [rng "0" "9" IN_DIGITS]
  | IN_EXP_E => [one "-" IN_DIGIT; one "+" IN_DIGIT; rng "0" "9" IN_DIGITS]
  | IN_MANTISSA_DIGITS =>
      [TERMINAL JSON_FLOAT; rng "0" "9" IN_MANTISSA_DIGITS; one "e" IN_EXP_E; one "E" IN_EXP_E]
  | IN_MANTISSA => [rng "0" "9" IN_MANTISSA_DIGITS]
  (* Number *)
  | IN_NONZERO_NUMBER =>
      [TERMINAL JSON_INTEGER; rng "0" "9" IN_NONZERO_NUMBER; one "e" IN_EXP_E; one "E" IN_EXP_E;
       one "." IN_MANTISSA]
  | IN_NEG_NONZERO_NUMBER => [one "0" IN_ZERO; rng "1" "9" IN_NONZERO_NUMBER]
  (* keywords *)
  | IN_KEYWORD => [TERMINAL JSON_KEYWORD; rng "a" "z" IN_KEYWORD]
  (* whitespace *)
  | IN_WHITESPACE =>
      [TERMINAL JSON_SKIP; one " " IN_WHITESPACE; code 9 IN_WHITESPACE; code 13 IN_WHITESPACE;
       code 10 IN_WHITESPACE]
  (* escape *)
  | IN_ESCAPE_LL => [one "d" (Accept JSON_ESCAPE)]
  | IN_ESCAPE_L => [one "d" (Accept JSON_ESCAPE); one "l" IN_ESCAPE_LL]
  | IN_ESCAPE_I64 => [one "d" (Accept JSON_ESCAPE)]
  | IN_ESCAPE_I6 => [one "4" IN_ESCAPE_I64]
  | IN_ESCAPE_I => [one "6" IN_ESCAPE_I6]
  | IN_ESCAPE =>
      [one "d" (Accept JSON_ESCAPE); one "i" (Accept JSON_ESCAPE); one "p" (Accept JSON_ESCAPE);
       one "s" (Accept JSON_ESCAPE); one "f" (Accept JSON_ESCAPE); one "l" IN_ESCAPE_L; one "I" IN_ESCAPE_I]
  (* top level rule *)
  | IN_START =>
      [code dquote IN_DQ_STRING; code squote IN_SQ_STRING; one "0" IN_ZERO; rng "1" "9" IN_NONZERO_NUMBER;
       one "-" IN_NEG_NONZERO_NUMBER;
       one "{" (Accept JSON_OPERATOR); one "}" (Accept JSON_OPERATOR); one "[" (Accept JSON_OPERATOR);
       one "]" (Accept JSON_OPERATOR); one "," (Accept JSON_OPERATOR); one ":" (Accept JSON_OPERATOR);
       rng "a" "z" IN_KEYWORD; one "%" IN_ESCAPE;
       one " " IN_WHITESPACE; code 9 IN_WHITESPACE; code 13 IN_WHITESPACE; code 10 IN_WHITESPACE]
  | ERROR | Accept _ => []
  end.

(** A later initialiser of a character overrides an earlier one. *)
Fixpoint row_lookup (r : list (Z * Z * json_lexer_state)) (c : Z) (acc : json_lexer_state) : json_lexer_state :=
  match r with
  | [] => acc
  | (lo, hi, s) :: r' => row_lookup r' c (if (lo <=? c) && (c <=? hi) then s else acc)
  end.

(** [json_lexer[s][c]] *)
Definition json_lexer (s : json_lexer_state) (c : Z) : json_lexer_state := row_lookup (lexer_row s) c ERROR.

Definition TERMINAL_NEEDED_LOOKAHEAD (old_state terminal : json_lexer_state) : bool :=
  bool_decide (json_lexer old_state 0 = terminal).

(** ** The lexer *)

Record JSONLexer := mkLexer { lx_state : json_lexer_state; lx_token : cstring; lx_x : Z; lx_y : Z }.

Definition EINVAL : Z := 22.

Definition json_lexer_init : JSONLexer := mkLexer IN_START [] 0 0.

Section lexer.
  Context {S : Type} (emit : S → cstring → JSONTokenType → Z → Z → result S).

(** The loop of [json_lexer_feed_char]; at most two rounds. *)
Fixpoint lex_loop (fuel : nat) (l : JSONLexer) (s : S) (c : Z) : result (JSONLexer * S * Z) :=
  match fuel with
  | O => Er EFuel
  | Datatypes.S f =>
      let new_state := json_lexer (lx_state l) c in
      let char_consumed := negb (TERMINAL_NEEDED_LOOKAHEAD (lx_state l) new_state) in
      let token := if char_consumed then lx_token l ++ [c] else lx_token l in
      let next l s := if char_consumed then Ok (l, s, 0) else lex_loop f l s c in
      match new_state with
      | ERROR => Ok (mkLexer (lx_state l) token (lx_x l) (lx_y l), s, - EINVAL)
      | Accept t =>
          s <- (if bool_decide (t = JSON_SKIP) then Ok s else emit s token t (lx_x l) (lx_y l)) ;;
          next (mkLexer IN_START [] (lx_x l) (lx_y l)) s
      | _ => next (mkLexer new_state token (lx_x l) (lx_y l)) s
      end
  end.

Definition json_lexer_feed_char (l : JSONLexer) (s : S) (c : Z) : result (JSONLexer * S * Z) :=
  let x := sext 32 (lx_x l + 1) in
  let '(x, y) := if c =? 10 then (0, sext 32 (lx_y l + 1)) else (x, lx_y l) in
  lex_loop 2 (mkLexer (lx_state l) (lx_token l) x y) s c.

Fixpoint json_lexer_feed (l : JSONLexer) (s : S) (buffer : cstring) : result (JSONLexer * S * Z) :=
  match buffer with
  | [] => Ok (l, s, 0)
  | c :: buffer' =>
      '(l, s, err) <- json_lexer_feed_char l s c ;;
      if err <? 0 then Ok (l, s, err) else json_lexer_feed l s buffer'
  end.

Definition json_lexer_flush (l : JSONLexer) (s : S) : result (JSONLexer * S * Z) :=
  if bool_decide (lx_state l = IN_START) then Ok (l, s, 0) else json_lexer_feed_char l s 0.

End lexer.

(** ** Messages *)

Record JSONMessageParser := mkMP { brace_count : Z; bracket_count : Z; tokens : list qobj }.

(** A token is a dictionary. *)
Definition make_token (token : cstring) (type : JSONTokenType) (x y : Z) : qobj :=
  let dict := qdict_new in
  let dict := qdict_put_obj dict (str "type") (QInt (token_code type)) in
  let dict := qdict_put_obj dict (str "token") (QStr token) in
  let dict := qdict_put_obj dict (str "x") (QInt x) in
  let dict := qdict_put_obj dict (str "y") (QInt y) in
  QDict dict.

Section streamer.
  Context {S : Type} (emit : S → list qobj → result S).

Definition json_message_process_token (p : JSONMessageParser * S) (token : cstring) (type : JSONTokenType)
    (x y : Z) : result (JSONMessageParser * S) :=
  let '(p, s) := p in
  let '(brace, bracket) :=
    if bool_decide (type = JSON_OPERATOR) then
      let c := default 0 (head token) in
      if c =? ch "{" then (sext 32 (brace_count p + 1), bracket_count p)
      else if c =? ch "}" then (sext 32 (brace_count p - 1), bracket_count p)
      else if c =? ch "[" then (brace_count p, sext 32 (bracket_count p + 1))
      else if c =? ch "]" then (brace_count p, sext 32 (bracket_count p - 1))
      else (brace_count p, bracket_count p)
    else (brace_count p, bracket_count p) in
  let toks := qlist_append_obj (tokens p) (make_token token type x y) in
  if (brace =? 0) && (bracket =? 0) then
    s <- emit s toks ;;
    Ok (mkMP brace bracket qlist_new, s)
  else Ok (mkMP brace bracket toks, s).

Definition json_message_parser_init : JSONMessageParser := mkMP 0 0 qlist_new.

Definition json_message_parser_feed (l : JSONLexer) (p : JSONMessageParser * S) (buffer : cstring)
    : result (JSONLexer * (JSONMessageParser * S) * Z) :=
  json_lexer_feed json_message_process_token l p buffer.

Definition json_message_parser_flush (l : JSONLexer) (p : JSONMessageParser * S)
    : result (JSONLexer * (JSONMessageParser * S) * Z) :=
  json_lexer_flush json_message_process_token l p.

End streamer.
