(* ===== verification/JsonParser.v ===== *)
(** * JSON parser

    json-parser.c.  The parser works on copies of the token list and updates
    the caller's list when it succeeds; here the list is an argument and a
    result.  The arguments of the format escapes are a list, [None] when there
    is no [va_list].  Taking an argument of another type than the one given is
    a fault.  [strtod] is the conversion of the C library. *)

From Stdlib Require Import String.
From stdpp Require Import base list.
From S2P Require Import Prelude Text QObject JsonLexer.
Local Open Scope Z_scope.
Local Coercion Z.of_nat : nat >-> Z.

(** ** Tokens *)

(** [None] is a NULL pointer. *)
Definition token_dict (obj : option qobj) : result qdict :=
  obj <- deref obj ;; deref (qobject_to_qdict obj).

Definition token_get_value (obj : option qobj) : result cstring :=
  d <- token_dict obj ;; qdict_get_str d (str "token").

Definition token_get_type (obj : option qobj) : result Z :=
  d <- token_dict obj ;; qdict_get_int d (str "type").

Definition token_is_operator (obj : option qobj) (op : Z) : result bool :=
  ty <- token_get_type obj ;;
  if negb (ty =? token_code JSON_OPERATOR) then Ok false
  else
    val <- token_get_value obj ;;
    Ok (match val with c :: val' => (c =? op) && (default 0 (head val') =? 0) | [] => 0 =? op end).

Definition token_is_keyword (obj : option qobj) (value : cstring) : result bool :=
  ty <- token_get_type obj ;;
  if negb (ty =? token_code JSON_KEYWORD) then Ok false
  else val <- token_get_value obj ;; Ok (bool_decide (val = value)).

Definition token_is_escape (obj : option qobj) (value : cstring) : result bool :=
  ty <- token_get_type obj ;;
  if negb (ty =? token_code JSON_ESCAPE) then Ok false
  else val <- token_get_value obj ;; Ok (bool_decide (val = value)).

(** ** Strings *)

(** The bytes written before the terminating NUL. *)
Definition wchar_to_utf8 (wchar buffer_length : Z) : result cstring :=
  if wchar <=? 0x007F then
    _ <- assert_ (negb (buffer_length <? 2)) ;; Ok [wchar .& 0x7F]
  else if wchar <=? 0x07FF then
    _ <- assert_ (negb (buffer_length <? 3)) ;;
    Ok [0xC0 .| ((wchar >>. 6) .& 0x1F); 0x80 .| (wchar .& 0x3F)]
  else
    _ <- assert_ (negb (buffer_length <? 4)) ;;
    Ok [0xE0 .| ((wchar >>. 12) .& 0x0F); 0x80 .| ((wchar >>. 6) .& 0x3F); 0x80 .| (wchar .& 0x3F)].

Definition hex2decimal (c : Z) : Z :=
  if (ch "0" <=? c) && (c <=? ch "9") then c - ch "0"
  else if (ch "a" <=? c) && (c <=? ch "f") then 10 + (c - ch "a")
  else if (ch "A" <=? c) && (c <=? ch "F") then 10 + (c - ch "A")
  else -1.

(** The contents of a buffer as a C string. *)
Fixpoint upto_nul (b : cstring) : cstring :=
  match b with [] => [] | c :: b' => if c =? 0 then [] else c :: upto_nul b' end.

Definition four_hex (a b c d : Z) : Z :=
  u16 ((hex2decimal a <<. 12) .| (hex2decimal b <<. 8) .| (hex2decimal c <<. 4) .| hex2decimal d).

(** The character an escape sequence of two characters stands for. *)
Definition simple_escape (e : Z) : option Z :=
  if e =? dquote then Some dquote
  else if e =? squote then Some squote
  else if e =? backslash then Some backslash
  else if e =? ch "/" then Some (ch "/")
  else if e =? ch "b" then Some 8
  else if e =? ch "f" then Some 12
  else if e =? ch "n" then Some 10
  else if e =? ch "r" then Some 13
  else if e =? ch "t" then Some 9
  else None.

(** The loop of [qstring_from_escaped_str]; [None] is an error. *)
Fixpoint unescape (double_quote : bool) (ptr : cstring) (acc : cstring) : result (option cstring) :=
  match ptr with
  | [] => Ok (Some acc)
  | c :: ptr =>
      if c =? (if double_quote then dquote else squote) then Ok (Some acc)
      else if c =? backslash then
        match ptr with
        | [] => Ok None
        | e :: ptr =>
            match simple_escape e with
            | Some v => unescape double_quote ptr (acc ++ [v])
            | None =>
                if e =? ch "u" then
                  match ptr with
                  | h1 :: h2 :: h3 :: h4 :: ptr =>
                      if isxdigit h1 && isxdigit h2 && isxdigit h3 && isxdigit h4 then
                        utf8 <- wchar_to_utf8 (four_hex h1 h2 h3 h4) 4 ;;
                        unescape double_quote ptr (acc ++ upto_nul utf8)
                      else Ok None
                  | _ => Ok None
                  end
                else Ok None
            end
        end
      else unescape double_quote ptr (acc ++ [c])
  end.

Definition qstring_from_escaped_str (token : option qobj) : result (option cstring) :=
  ptr <- token_get_value token ;;
  match ptr with
  | [] => Er EFault
  | c :: ptr => unescape (c =? dquote) ptr []
  end.

(** ** Parsing rules *)

Inductive varg := AInt (z : Z) | ALong (z : Z) | ALongLong (z : Z) | AStr (s : cstring) | AObj (o : option qobj) | ADouble (bits : Z).

Notation valist := (option (list varg)).
Notation parsed := (option qobj * list qobj * valist)%type.

(** Take the next argument. *)
Definition va_arg (ap : valist) : result (varg * valist) :=
  match ap with Some (a :: l) => Ok (a, Some l) | _ => Er EFault end.

Section parser.
  Context (strtod : cstring → Z).

Section rules.
  Context (parse_value : list qobj → valist → result parsed).

(** The dictionary, and whether the rule succeeded. *)
Definition parse_pair (dict : qdict) (tokens : list qobj) (ap : valist)
    : result (qdict * list qobj * valist * bool) :=
  let working := qlist_copy tokens in
  let fail ap : result (qdict * list qobj * valist * bool) := Ok (dict, tokens, ap, false) in
  '(key, working, ap) <- parse_value working ap ;;
  match key with
  | Some (QStr key) =>
      let '(token, working) := qlist_pop working in
      colon <- token_is_operator token (ch ":") ;;
      if negb colon then fail ap
      else
        '(value, working, ap) <- parse_value working ap ;;
        match value with
        | None => fail ap
        | Some value => Ok (qdict_put_obj dict key value, working, ap, true)
        end
  | _ => fail ap
  end.

(** [while (!token_is_operator(token, '}'))]; [token] was just popped. *)
Fixpoint object_loop (fuel : nat) (dict : qdict) (token : option qobj) (working : list qobj) (ap : valist)
    : result (option qdict * list qobj * valist) :=
  match fuel with
  | O => Er EFuel
  | S f =>
      close <- token_is_operator token (ch "}") ;;
      if close then Ok (Some dict, working, ap)
      else
        comma <- token_is_operator token (ch ",") ;;
        if negb comma then Ok (None, working, ap)
        else
          '(dict, working, ap, ok) <- parse_pair dict working ap ;;
          if negb ok then Ok (None, working, ap)
          else let '(token, working) := qlist_pop working in object_loop f dict token working ap
  end.

Definition parse_object (tokens : list qobj) (ap : valist) : result parsed :=
  let working := qlist_copy tokens in
  let '(token, working) := qlist_pop working in
  is_open <- token_is_operator token (ch "{") ;;
  if negb is_open then Ok (None, tokens, ap)
  else
    let dict := qdict_new in
    empty <- token_is_operator (qlist_peek working) (ch "}") ;;
    if negb empty then
      '(dict, working, ap, ok) <- parse_pair dict working ap ;;
      if negb ok then Ok (None, tokens, ap)
      else
        let '(token, working) := qlist_pop working in
        '(res, working, ap) <- object_loop (S (length working)) dict token working ap ;;
        match res with
        | Some dict => Ok (Some (QDict dict), working, ap)
        | None => Ok (None, tokens, ap)
        end
    else Ok (Some (QDict dict), snd (qlist_pop working), ap).

Fixpoint array_loop (fuel : nat) (list_ : list qobj) (token : option qobj) (working : list qobj) (ap : valist)
    : result (option (list qobj) * list qobj * valist) :=
  match fuel with
  | O => Er EFuel
  | S f =>
      close <- token_is_operator token (ch "]") ;;
      if close then Ok (Some list_, working, ap)
      else
        comma <- token_is_operator token (ch ",") ;;
        if negb comma then Ok (None, working, ap)
        else
          '(obj, working, ap) <- parse_value working ap ;;
          match obj with
          | None => Ok (None, working, ap)
          | Some obj =>
              let list_ := qlist_append_obj list_ obj in
              let '(token, working) := qlist_pop working in array_loop f list_ token working ap
          end
  end.

Definition parse_array (tokens : list qobj) (ap : valist) : result parsed :=
  let working := qlist_copy tokens in
  let '(token, working) := qlist_pop working in
  is_open <- token_is_operator token (ch "[") ;;
  if negb is_open then Ok (None, tokens, ap)
  else
    let list_ := qlist_new in
    empty <- token_is_operator (qlist_peek working) (ch "]") ;;
    if negb empty then
      '(obj, working, ap) <- parse_value working ap ;;
      match obj with
      | None => Ok (None, tokens, ap)
      | Some obj =>
          let list_ := qlist_append_obj list_ obj in
          let '(token, working) := qlist_pop working in
          '(res, working, ap) <- array_loop (S (length working)) list_ token working ap ;;
          match res with
          | Some list_ => Ok (Some (QList list_), working, ap)
          | None => Ok (None, tokens, ap)
          end
      end
    else Ok (Some (QList list_), snd (qlist_pop working), ap).

End rules.

Definition parse_keyword (tokens : list qobj) (ap : valist) : result parsed :=
  let working := qlist_copy tokens in
  let '(token, working) := qlist_pop working in
  ty <- token_get_type token ;;
  if negb (ty =? token_code JSON_KEYWORD) then Ok (None, tokens, ap)
  else
    is_true <- token_is_keyword token (str "true") ;;
    if is_true : bool then Ok (Some (QBool 1), working, ap)
    else
      is_false <- token_is_keyword token (str "false") ;;
      if is_false : bool then Ok (Some (QBool 0), working, ap) else Ok (None, tokens, ap).

(** The object an escape stands for. *)
Definition escape_value (token : option qobj) (ap : valist) : result (option (option qobj) * valist) :=
  p <- token_is_escape token (str "%p") ;;
  if p : bool then
    '(a, ap) <- va_arg ap ;; match a with AObj o => Ok (Some o, ap) | _ => Er EFault end
  else
  i <- token_is_escape token (str "%i") ;;
  if i : bool then
    '(a, ap) <- va_arg ap ;; match a with AInt z => Ok (Some (Some (QBool z)), ap) | _ => Er EFault end
  else
  d <- token_is_escape token (str "%d") ;;
  if d : bool then
    '(a, ap) <- va_arg ap ;; match a with AInt z => Ok (Some (Some (QInt z)), ap) | _ => Er EFault end
  else
  ld <- token_is_escape token (str "%ld") ;;
  if ld : bool then
    '(a, ap) <- va_arg ap ;; match a with ALong z => Ok (Some (Some (QInt z)), ap) | _ => Er EFault end
  else
  lld <- token_is_escape token (str "%lld") ;;
  I64d <- (if lld : bool then Ok true else token_is_escape token (str "%I64d")) ;;
  if I64d : bool then
    '(a, ap) <- va_arg ap ;; match a with ALongLong z => Ok (Some (Some (QInt z)), ap) | _ => Er EFault end
  else
  s <- token_is_escape token (str "%s") ;;
  if s : bool then
    '(a, ap) <- va_arg ap ;; match a with AStr s => Ok (Some (Some (QStr s)), ap) | _ => Er EFault end
  else
  f <- token_is_escape token (str "%f") ;;
  if f : bool then
    '(a, ap) <- va_arg ap ;; match a with ADouble v => Ok (Some (Some (QFloat v)), ap) | _ => Er EFault end
  else Ok (None, ap).

Definition parse_escape (tokens : list qobj) (ap : valist) : result parsed :=
  let working := qlist_copy tokens in
  match ap with
  | None => Ok (None, tokens, ap)
  | Some _ =>
      let '(token, working) := qlist_pop working in
      '(obj, ap) <- escape_value token ap ;;
      match obj with
      | Some obj => Ok (obj, working, ap)
      | None => Ok (None, tokens, ap)
      end
  end.

Definition parse_literal (tokens : list qobj) (ap : valist) : result parsed :=
  let working := qlist_copy tokens in
  let '(token, working) := qlist_pop working in
  ty <- token_get_type token ;;
  if ty =? token_code JSON_STRING then
    s <- qstring_from_escaped_str token ;; Ok (QStr <$> s, working, ap)
  else if ty =? token_code JSON_INTEGER then
    val <- token_get_value token ;; Ok (Some (QInt (strtoll val)), working, ap)
  else if ty =? token_code JSON_FLOAT then
    val <- token_get_value token ;; Ok (Some (QFloat (strtod val)), working, ap)
  else Ok (None, tokens, ap).

(** A rule that is tried when the ones before returned NULL. *)
Definition or_else (r : result parsed) (rule : list qobj → valist → result parsed) : result parsed :=
  '(obj, tokens, ap) <- r ;;
  match obj with
  | Some _ => Ok (obj, tokens, ap)
  | None => rule tokens ap
  end.

(** Every call of a rule by another has one token less. *)
Fixpoint parse_value (fuel : nat) (tokens : list qobj) (ap : valist) : result parsed :=
  match fuel with
  | O => Er EFuel
  | S f =>
      let r := parse_object (parse_value f) tokens ap in
      let r := or_else r (parse_array (parse_value f)) in
      let r := or_else r parse_escape in
      let r := or_else r parse_keyword in
      or_else r parse_literal
  end.

Definition json_parser_parse (tokens : list qobj) (ap : valist) : result (option qobj * valist) :=
  let working := qlist_copy tokens in
  '(res, _, ap) <- parse_value (S (length tokens)) working ap ;;
  Ok (res, ap).

End parser.

(** * Objects to JSON text and back

    qjson.c.  [fmt_f] is the output of the conversion %f of the C library for
    a double, [strtod] its inverse. *)

(** ** Printing *)

(** [snprintf(escape, 7, "\\u%04X", v)] with [v] an int. *)
Definition escape_u (v : Z) : cstring := take 6 (str "\u" ++ print_04X (u32 v)).

(** The text of a single byte; [char] is signed. *)
Definition json_char (c : Z) : cstring :=
  if c =? dquote then [backslash; dquote]
  else if c =? backslash then [backslash; backslash]
  else if c =? 8 then str "\b"
  else if c =? 12 then str "\f"
  else if c =? 10 then str "\n"
  else if c =? 13 then str "\r"
  else if c =? 9 then str "\t"
  else if sext 8 c <=? 0x1F then escape_u (sext 8 c)
  else [c].

(** The loop over the bytes of a string. *)
Fixpoint json_string (ptr : cstring) (s : cstring) : cstring :=
  match ptr with
  | [] => s
  | p0 :: r1 =>
      let p1 := default 0 (r1 !! 0%nat) in
      let p2 := default 0 (r1 !! 1%nat) in
      if (p0 .& 0xE0 =? 0xE0) && negb (p1 .& 0x80 =? 0) && negb (p2 .& 0x80 =? 0) then
        let wchar := u16 (((p0 .& 0x0F) <<. 12) .| ((p1 .& 0x3F) <<. 6) .| (p2 .& 0x3F)) in
        match r1 with _ :: _ :: r3 => json_string r3 (s ++ escape_u wchar) | _ => s end
      else if (p0 .& 0xE0 =? 0xC0) && negb (p1 .& 0x80 =? 0) then
        let wchar := u16 (((p0 .& 0x1F) <<. 6) .| (p1 .& 0x3F)) in
        match r1 with _ :: r2 => json_string r2 (s ++ escape_u wchar) | _ => s end
      else json_string r1 (s ++ json_char p0)
  end.

(** The digits of %f without trailing zeros. *)
Fixpoint strip_zeros (rev_buffer : cstring) : cstring :=
  match rev_buffer with c :: b => if c =? ch "0" then strip_zeros b else rev_buffer | [] => [] end.

Definition json_float (buffer : cstring) : cstring :=
  match strip_zeros (reverse buffer) with
  | c :: b => if c =? ch "." then reverse b else reverse (c :: b)
  | [] => []
  end.

Section qjson.
  Context (fmt_f : Z → cstring) (strtod : cstring → Z).

(** The state of the iterations is the count and the text. *)
Fixpoint to_json (obj : qobj) (s : cstring) : cstring :=
  match obj with
  | QInt v => s ++ print_d v
  | QStr ptr => json_string ptr (s ++ [dquote]) ++ [dquote]
  | QDict (n, table) =>
      let to_json_dict_iter key obj '(count, s) :=
        let s := if count =? 0 then s else s ++ str ", " in
        let s := json_string key (s ++ [dquote]) ++ [dquote] in
        let s := s ++ str ": " in
        (count + 1, to_json obj s) in
      snd (table_iter table to_json_dict_iter (0, s ++ str "{")) ++ str "}"
  | QList l =>
      let to_json_list_iter obj '(count, s) :=
        let s := if count =? 0 then s else s ++ str ", " in
        (count + 1, to_json obj s) in
      snd (qlist_iter l to_json_list_iter (0, s ++ str "[")) ++ str "]"
  | QFloat v => s ++ json_float (fmt_f v)
  | QBool v => s ++ (if v =? 0 then str "false" else str "true")
  end.

Definition qobject_to_json (obj : qobj) : cstring := to_json obj [].

(** ** Reading *)

Record JSONParsingState := mkPS { ps_ap : valist; ps_result : option qobj }.

Definition parse_json (s : JSONParsingState) (tokens : list qobj) : result JSONParsingState :=
  '(res, ap) <- json_parser_parse strtod tokens (ps_ap s) ;; Ok (mkPS ap res).

(** The errors of the lexer are ignored. *)
Definition qobject_from_jsonv (string : cstring) (ap : valist) : result (option qobj) :=
  let state := (json_message_parser_init, mkPS ap None) in
  '(l, state, _) <- json_message_parser_feed parse_json json_lexer_init state string ;;
  '(_, state, _) <- json_message_parser_flush parse_json l state ;;
  Ok (ps_result (snd state)).

Definition qobject_from_json (string : cstring) : result (option qobj) := qobject_from_jsonv string None.

Definition qobject_from_jsonf (string : cstring) (args : list varg) : result qobj :=
  obj <- qobject_from_jsonv string (Some args) ;;
  match obj with Some obj => Ok obj | None => Er EAbort end.

End qjson.

(** ** Examples *)

Definition no_float (v : Z) : cstring := [].
Definition no_strtod (s : cstring) : Z := 0.

Example from_json_ex :
  qobject_from_json no_strtod (str "[1, -20, true, {}]") =
    Ok (Some (QList [QInt 1; QInt (-20); QBool 1; QDict qdict_new])).
Proof. vm_compute. reflexivity. Qed.
