(* ===== verification/JsonInv.v ===== *)
(** * The JSON parser never faults

    On the token lists that json-streamer.c emits, in which braces and brackets
    are balanced in number, the parser never runs out of tokens; so reading a
    text always returns. *)

From Stdlib Require Import String.
From stdpp Require Import base gmap list fin_maps.
From S2P Require Import Prelude Text QObject JsonLexer JsonParser.
Local Open Scope Z_scope.
Local Coercion Z.of_nat : nat >-> Z.

(** ** Tokens *)

Lemma qdict_get_put d k v j :
  dict_wf d → qdict_get (qdict_put_obj d k v) j = if decide (k = j) then Some v else qdict_get d j.
Proof.
  intros Hd. destruct (qdict_put_ok d k v Hd) as [Hw Hm]. rewrite !qdict_get_map, Hm by done.
  rewrite lookup_insert. by repeat case_decide.
Qed.

#[local] Opaque qdict_put_obj qdict_new.

Lemma make_token_get t ty x y :
  ∃ d, make_token t ty x y = QDict d ∧ qdict_get d (str "type") = Some (QInt (token_code ty)) ∧
    qdict_get d (str "token") = Some (QStr t).
Proof.
  eexists. split; [done|]. assert (∀ d k v, dict_wf d → dict_wf (qdict_put_obj d k v)) as Hp by (intros; by apply qdict_put_ok).
  pose proof dict_new_wf. split.
  - rewrite !qdict_get_put by eauto. done.
  - rewrite !qdict_get_put by eauto. done.
Qed.

Lemma token_type_ok t ty x y : token_get_type (Some (make_token t ty x y)) = Ok (token_code ty).
Proof.
  destruct (make_token_get t ty x y) as (d & -> & E & _). unfold token_get_type, token_dict. cbn [rbind deref qobject_to_qdict].
  unfold qdict_get_int, qdict_get_obj. by rewrite E.
Qed.

Lemma token_value_ok t ty x y : token_get_value (Some (make_token t ty x y)) = Ok t.
Proof.
  destruct (make_token_get t ty x y) as (d & -> & _ & E). unfold token_get_value, token_dict. cbn [rbind deref qobject_to_qdict].
  unfold qdict_get_str, qdict_get_obj. by rewrite E.
Qed.

#[global] Opaque make_token.

(** The tokens the lexer makes. *)
Definition is_token (q : qobj) (ty : JSONTokenType) (t : cstring) : Prop := ∃ x y, q = make_token t ty x y.
Definition token (q : qobj) : Prop := ∃ ty t, is_token q ty t ∧ (ty = JSON_STRING → t ≠ []).

Lemma token_code_inj t1 t2 : (token_code t1 =? token_code t2) = bool_decide (t1 = t2).
Proof. by destruct t1, t2. Qed.

Lemma is_token_type q ty t : is_token q ty t → token_get_type (Some q) = Ok (token_code ty).
Proof. intros (x & y & ->). apply token_type_ok. Qed.

Lemma is_token_value q ty t : is_token q ty t → token_get_value (Some q) = Ok t.
Proof. intros (x & y & ->). apply token_value_ok. Qed.

(** Whether an operator token is the one asked for. *)
Definition is_op (ty : JSONTokenType) (t : cstring) (op : Z) : bool :=
  bool_decide (ty = JSON_OPERATOR) &&
  match t with c :: t' => (c =? op) && (default 0 (head t') =? 0) | [] => 0 =? op end.

Lemma is_token_op q ty t op : is_token q ty t → token_is_operator (Some q) op = Ok (is_op ty t op).
Proof.
  intros Hq. unfold token_is_operator, is_op. rewrite (is_token_type q ty t Hq). cbn [rbind].
  rewrite token_code_inj. case_bool_decide; cbn [negb andb]; [|done]. by rewrite (is_token_value q ty t Hq).
Qed.

Lemma is_token_keyword q ty t v :
  is_token q ty t → token_is_keyword (Some q) v = Ok (bool_decide (ty = JSON_KEYWORD) && bool_decide (t = v)).
Proof.
  intros Hq. unfold token_is_keyword. rewrite (is_token_type q ty t Hq). cbn [rbind].
  rewrite token_code_inj. case_bool_decide; cbn [negb andb]; [|done]. by rewrite (is_token_value q ty t Hq).
Qed.

Lemma qlist_copy_id l : qlist_copy l = l.
Proof.
  unfold qlist_copy, qlist_iter, qlist_copy_elem, qlist_append_obj, qlist_new.
  assert (∀ a, (fix go (l : list qobj) (opaque : list qobj) {struct l} : list qobj :=
    match l with [] => opaque | v :: l' => go l' (opaque ++ [v]) end) l a = a ++ l) as H; [|apply H].
  induction l as [|v l IH]; intros a; [by rewrite app_nil_r|]. rewrite IH. by rewrite <- app_assoc.
Qed.

(** ** Balance *)

(** What a token contributes to the counts of braces and brackets. *)
Definition op_weight (ty : JSONTokenType) (t : cstring) : Z * Z :=
  if bool_decide (ty = JSON_OPERATOR) then
    let c := default 0 (head t) in
    if c =? ch "{" then (1, 0) else if c =? ch "}" then (-1, 0)
    else if c =? ch "[" then (0, 1) else if c =? ch "]" then (0, -1) else (0, 0)
  else (0, 0).

Definition weight (q : qobj) : Z * Z :=
  match token_get_type (Some q), token_get_value (Some q) with
  | Ok ty, Ok t => if ty =? token_code JSON_OPERATOR then op_weight JSON_OPERATOR t else (0, 0)
  | _, _ => (0, 0)
  end.

Definition add2 (p q : Z * Z) : Z * Z := (p.1 + q.1, p.2 + q.2).

Fixpoint total (l : list qobj) : Z * Z :=
  match l with [] => (0, 0) | q :: l' => add2 (weight q) (total l') end.

Lemma is_token_weight q ty t : is_token q ty t → weight q = op_weight ty t.
Proof.
  intros Hq. unfold weight. rewrite (is_token_type q ty t Hq), (is_token_value q ty t Hq), token_code_inj.
  unfold op_weight. by case_bool_decide.
Qed.

Lemma add2_assoc p q r : add2 p (add2 q r) = add2 (add2 p q) r.
Proof. unfold add2. cbn. f_equal; lia. Qed.

Lemma total_app l1 l2 : total (l1 ++ l2) = add2 (total l1) (total l2).
Proof.
  induction l1 as [|q l1 IH]; cbn; [by destruct (total l2)|]. by rewrite IH, add2_assoc.
Qed.

Lemma op_weight_range ty t : -1 ≤ (op_weight ty t).1 ≤ 1 ∧ -1 ≤ (op_weight ty t).2 ≤ 1.
Proof. unfold op_weight. repeat (case_bool || case_bool_decide); cbn; lia. Qed.

Lemma total_range l :
  Forall token l → - length l ≤ (total l).1 ≤ length l ∧ - length l ≤ (total l).2 ≤ length l.
Proof.
  induction 1 as [|q l (ty & t & Hq & _) _ IH]; cbn; [lia|].
  rewrite (is_token_weight q ty t Hq). pose proof (op_weight_range ty t). lia.
Qed.

(** The weight of a token that is the operator [op]. *)
Lemma is_op_weight ty t op :
  is_op ty t op = true → op ≠ 0 → op_weight ty t = op_weight JSON_OPERATOR [op].
Proof.
  unfold is_op, op_weight. intros H Hop. apply andb_prop in H as [->%bool_decide_eq_true_1 H].
  destruct t as [|c t]; [apply Z.eqb_eq in H; lia|]. apply andb_prop in H as [->%Z.eqb_eq _]. done.
Qed.

(** ** The parser *)

Definition closing (t : Z * Z) : Prop := t.1 ≤ 0 ∧ t.2 ≤ 0 ∧ (t.1 < 0 ∨ t.2 < 0).

(** The result of a rule that succeeds: it took a balanced, nonempty prefix. *)
Definition progress (toks toks' : list qobj) : Prop :=
  Forall token toks' ∧ (length toks' < length toks)%nat ∧ total toks' = total toks.

Definition value_ok (toks : list qobj) (r : result parsed) : Prop :=
  ∃ o toks', r = Ok (o, toks', None) ∧ match o with Some _ => progress toks toks' | None => True end.

Definition rule_ok (toks : list qobj) (r : result parsed) : Prop :=
  ∃ o toks', r = Ok (o, toks', None) ∧ match o with Some _ => progress toks toks' | None => toks' = toks end.

Lemma closing_cons l : Forall token l → closing (total l) →
  ∃ q l' ty t, l = q :: l' ∧ is_token q ty t ∧ (ty = JSON_STRING → t ≠ []) ∧ Forall token l' ∧
    total l = add2 (op_weight ty t) (total l').
Proof.
  intros Hl Hc. destruct Hl as [|q l (ty & t & Hq & Hne) Hl]; [unfold closing in Hc; cbn in Hc; lia|].
  exists q, l, ty, t. split_and!; auto. cbn [total]. by rewrite (is_token_weight q ty t Hq).
Qed.

Lemma rule_value toks r : rule_ok toks r → value_ok toks r.
Proof. intros (o & toks' & -> & H). exists o, toks'. split; [done|]. by destruct o. Qed.

Lemma or_else_rule toks r rule :
  rule_ok toks r → rule_ok toks (rule toks None) → rule_ok toks (or_else r rule).
Proof.
  intros (o & toks' & -> & H) Hr. unfold or_else. cbn [rbind]. destruct o; [by eexists _, _|]. by subst.
Qed.

Lemma or_else_value toks r rule :
  rule_ok toks r → value_ok toks (rule toks None) → value_ok toks (or_else r rule).
Proof.
  intros (o & toks' & -> & H) Hr. unfold or_else. cbn [rbind]. destruct o; [by eexists _, _|]. by subst.
Qed.

Lemma progress_trans t1 t2 t3 : progress t1 t2 → progress t2 t3 → progress t1 t3.
Proof. intros (_ & L1 & E1) (F2 & L2 & E2). split_and!; [done|lia|congruence]. Qed.

(** Taking one more token. *)
Lemma progress_pop toks q toks' ty t :
  progress toks (q :: toks') → is_token q ty t → op_weight ty t = (0, 0) → progress toks toks'.
Proof.
  intros (F & L & E) Hq Hw. inv F. cbn in L. split_and!; [done|lia|].
  rewrite <- E. cbn. rewrite (is_token_weight q ty t Hq), Hw. by destruct (total toks').
Qed.

Lemma progress_skip toks q ty t toks' :
  is_token q ty t → op_weight ty t = (0, 0) → progress toks toks' → progress (q :: toks) toks'.
Proof.
  intros Hq Hw (F & L & E). split_and!; [done|cbn; lia|]. rewrite E. cbn.
  rewrite (is_token_weight q ty t Hq), Hw. by destruct (total toks).
Qed.

Lemma not_op ty t : ty ≠ JSON_OPERATOR → op_weight ty t = (0, 0).
Proof. intros. unfold op_weight. by rewrite bool_decide_eq_false_2. Qed.

Lemma parse_keyword_ok q toks ty t :
  is_token q ty t → Forall token toks → rule_ok (q :: toks) (parse_keyword (q :: toks) None).
Proof.
  intros Hq F. unfold parse_keyword. rewrite qlist_copy_id. cbn [qlist_pop].
  rewrite (is_token_type q ty t Hq). cbn [rbind]. rewrite token_code_inj.
  case_bool_decide as Ety; cbn [negb]; [|by eexists None, _]. subst ty.
  rewrite !(is_token_keyword q _ t _ Hq). cbn [rbind].
  assert (progress (q :: toks) toks).
  { split_and!; [done|cbn; lia|]. cbn. rewrite (is_token_weight q _ t Hq), not_op by done. by destruct (total toks). }
  repeat case_match; eexists _, _; (split; [done|]; cbn; done).
Qed.

Lemma wchar_to_utf8_4 w : ∃ u, wchar_to_utf8 w 4 = Ok u.
Proof. unfold wchar_to_utf8. destruct (w <=? 0x7F); [by eexists|]. destruct (w <=? 0x7FF); by eexists. Qed.

Lemma unescape_total dq ptr acc : ∃ o, unescape dq ptr acc = Ok o.
Proof.
  revert acc. induction ptr as [ptr IH] using (induction_ltof1 _ (@length Z)); intros acc.
  destruct ptr as [|c ptr]; [by eexists|]. cbn [unescape].
  assert (∀ p acc, (length p < length (c :: ptr))%nat → ∃ o, unescape dq p acc = Ok o) as Hr by (intros; by apply IH).
  destruct (c =? (if dq then dquote else squote)); [by eexists|].
  destruct (c =? backslash); [|apply Hr; cbn; lia].
  destruct ptr as [|e ptr]; [by eexists|]. destruct (simple_escape e); [apply Hr; cbn; lia|].
  destruct (e =? ch "u"); [|by eexists]. destruct ptr as [|h1 [|h2 [|h3 [|h4 ptr]]]]; try by eexists.
  destruct (isxdigit h1 && isxdigit h2 && isxdigit h3 && isxdigit h4); [|by eexists].
  destruct (wchar_to_utf8_4 (four_hex h1 h2 h3 h4)) as [u ->]. cbn [rbind]. apply Hr. cbn. lia.
Qed.

Lemma parse_literal_ok strtod q toks ty t :
  is_token q ty t → (ty = JSON_STRING → t ≠ []) → Forall token toks →
  value_ok (q :: toks) (parse_literal strtod (q :: toks) None).
Proof.
  intros Hq Hne F. unfold parse_literal. rewrite qlist_copy_id. cbn [qlist_pop].
  rewrite (is_token_type q ty t Hq). cbn [rbind]. rewrite !token_code_inj.
  unfold qstring_from_escaped_str. rewrite (is_token_value q ty t Hq). cbn [rbind].
  assert (ty ≠ JSON_OPERATOR → progress (q :: toks) toks) as Hp.
  { intros. split_and!; [done|cbn; lia|]. cbn. rewrite (is_token_weight q _ t Hq), not_op by done. by destruct (total toks). }
  case_bool_decide as Ety; [subst ty|].
  { destruct t as [|c t]; [by destruct Hne|]. destruct (unescape_total (c =? dquote) t []) as [o ->]. cbn [rbind].
    eexists _, _. split; [done|]. destruct o; cbn; auto. }
  do 2 (case_bool_decide; [subst ty; eexists _, _; (split; [done|]); cbn; auto|]).
  by eexists None, _.
Qed.

(** A value parser that is right on the lists shorter than [n]. *)
Section rules.
  Context (pv : list qobj → valist → result parsed) (n : nat).
  Context (pv_ok : ∀ toks, (length toks < n)%nat → Forall token toks → closing (total toks) →
    value_ok toks (pv toks None)).

Lemma parse_pair_ok dict toks :
  (length toks < n)%nat → Forall token toks → closing (total toks) →
  ∃ dict' toks' ok, parse_pair pv dict toks None = Ok (dict', toks', None, ok) ∧
    (ok = true → progress toks toks').
Proof.
  intros Hn F C. unfold parse_pair. rewrite qlist_copy_id.
  destruct (pv_ok toks Hn F C) as (o & t1 & -> & P1). cbn [rbind].
  assert (∀ ap : valist, ap = None → ∃ dict' toks' ok,
    Ok (dict, toks, ap, false) = Ok (dict', toks', None, ok) ∧ (ok = true → progress toks toks')) as Hfail.
  { intros ap ->. by eexists _, _, false. }
  destruct o as [[]|]; try by apply Hfail.
  pose proof P1 as (F1 & L1 & E1). rewrite <- E1 in C.
  destruct (closing_cons t1 F1 C) as (q & t2 & ty & t & -> & Hq & _ & F2 & E2). cbn [qlist_pop].
  rewrite (is_token_op q ty t _ Hq). cbn [rbind]. destruct (is_op ty t (ch ":")) eqn:Eop; cbn [negb]; [|by apply Hfail].
  apply is_op_weight in Eop; [|done]. change (op_weight JSON_OPERATOR [ch ":"]) with (0, 0) in Eop.
  assert (progress toks t2) as P2 by (by eapply progress_pop).
  pose proof P2 as (_ & L2 & E2'). rewrite E1, <- E2' in C.
  destruct (pv_ok t2 ltac:(lia) F2 C) as (o & t3 & -> & P3). cbn [rbind].
  destruct o; [|by apply Hfail]. eexists _, _, _. split; [done|]. intros _. by eapply progress_trans.
Qed.

Lemma array_loop_ok f l q toks ty t :
  (length toks < f)%nat → (length toks < n)%nat → is_token q ty t → Forall token toks →
  closing (add2 (op_weight ty t) (total toks)) →
  ∃ o toks', array_loop pv f l (Some q) toks None = Ok (o, toks', None) ∧
    (is_Some o → Forall token toks' ∧ (length toks' ≤ length toks)%nat ∧
      add2 (0, -1) (total toks') = add2 (op_weight ty t) (total toks)).
Proof.
  revert l q toks ty t. induction f as [|f IH]; intros l q toks ty t Hf Hn Hq F C; [lia|].
  cbn [array_loop]. rewrite !(is_token_op q ty t _ Hq). cbn [rbind].
  destruct (is_op ty t (ch "]")) eqn:Ec.
  { eexists _, _. split; [done|]. intros _. split_and!; [done..|]. by rewrite (is_op_weight ty t _ Ec). }
  destruct (is_op ty t (ch ",")) eqn:Eop; cbn [negb]; [|eexists None, _; split; [done|]; by intros []].
  apply is_op_weight in Eop; [|done]. change (op_weight JSON_OPERATOR [ch ","]) with (0, 0) in Eop.
  rewrite Eop in *. assert (add2 (0, 0) (total toks) = total toks) as Ez by by destruct (total toks).
  rewrite Ez in *. destruct (pv_ok toks Hn F C) as (o & t1 & -> & P1). cbn [rbind].
  destruct o as [o|]; [|eexists None, _; split; [done|]; by intros []].
  destruct P1 as (F1 & L1 & E1). rewrite <- E1 in C.
  destruct (closing_cons t1 F1 C) as (q2 & t2 & ty2 & s2 & -> & Hq2 & _ & F2 & E2). cbn [qlist_pop].
  cbn in L1. rewrite E2 in C.
  destruct (IH (qlist_append_obj l o) q2 t2 ty2 s2 ltac:(lia) ltac:(lia) Hq2 F2 C) as (o' & t3 & -> & Ho).
  eexists _, _. split; [done|]. intros Hs. destruct (Ho Hs) as (F3 & L3 & E3). split_and!; [done|lia|].
  by rewrite E3, <- E2, E1.
Qed.

Lemma object_loop_ok f d q toks ty t :
  (length toks < f)%nat → (length toks < n)%nat → is_token q ty t → Forall token toks →
  closing (add2 (op_weight ty t) (total toks)) →
  ∃ o toks', object_loop pv f d (Some q) toks None = Ok (o, toks', None) ∧
    (is_Some o → Forall token toks' ∧ (length toks' ≤ length toks)%nat ∧
      add2 (-1, 0) (total toks') = add2 (op_weight ty t) (total toks)).
Proof.
  revert d q toks ty t. induction f as [|f IH]; intros d q toks ty t Hf Hn Hq F C; [lia|].
  cbn [object_loop]. rewrite !(is_token_op q ty t _ Hq). cbn [rbind].
  destruct (is_op ty t (ch "}")) eqn:Ec.
  { eexists _, _. split; [done|]. intros _. split_and!; [done..|]. by rewrite (is_op_weight ty t _ Ec). }
  destruct (is_op ty t (ch ",")) eqn:Eop; cbn [negb]; [|eexists None, _; split; [done|]; by intros []].
  apply is_op_weight in Eop; [|done]. change (op_weight JSON_OPERATOR [ch ","]) with (0, 0) in Eop.
  rewrite Eop in *. assert (add2 (0, 0) (total toks) = total toks) as Ez by by destruct (total toks).
  rewrite Ez in *. destruct (parse_pair_ok d toks Hn F C) as (d1 & t1 & ok & -> & P1). cbn [rbind].
  destruct ok; cbn [negb]; [|eexists None, _; split; [done|]; by intros []].
  destruct (P1 eq_refl) as (F1 & L1 & E1). rewrite <- E1 in C.
  destruct (closing_cons t1 F1 C) as (q2 & t2 & ty2 & s2 & -> & Hq2 & _ & F2 & E2). cbn [qlist_pop].
  cbn in L1. rewrite E2 in C.
  destruct (IH d1 q2 t2 ty2 s2 ltac:(lia) ltac:(lia) Hq2 F2 C) as (o' & t3 & -> & Ho).
  eexists _, _. split; [done|]. intros Hs. destruct (Ho Hs) as (F3 & L3 & E3). split_and!; [done|lia|].
  by rewrite E3, <- E2, E1.
Qed.

Lemma parse_array_ok q toks ty t :
  is_token q ty t → Forall token toks → (length toks < n)%nat →
  (total (q :: toks)).1 ≤ 0 → (total (q :: toks)).2 ≤ 0 →
  rule_ok (q :: toks) (parse_array pv (q :: toks) None).
Proof.
  intros Hq F Hn H1 H2. unfold parse_array. rewrite qlist_copy_id. cbn [qlist_pop].
  rewrite (is_token_op q ty t _ Hq). cbn [rbind].
  destruct (is_op ty t (ch "[")) eqn:Eop; cbn [negb]; [|by eexists None, _].
  assert (total (q :: toks) = add2 (0, 1) (total toks)) as Et.
  { cbn [total]. by rewrite (is_token_weight q ty t Hq), (is_op_weight ty t _ Eop). }
  rewrite Et in H1, H2. assert (closing (total toks)) as C by (unfold closing, add2 in *; cbn in *; lia).
  destruct (closing_cons toks F C) as (q1 & t1 & ty1 & s1 & -> & Hq1 & _ & F1 & E1). cbn [qlist_peek head].
  rewrite (is_token_op q1 ty1 s1 _ Hq1). cbn [rbind].
  destruct (is_op ty1 s1 (ch "]")) eqn:Ec; cbn [negb].
  { eexists _, _. split; [done|]. cbn [qlist_pop snd]. split_and!; [done|cbn; lia|].
    rewrite Et, E1, (is_op_weight _ _ _ Ec), add2_assoc by done. by destruct (total t1). }
  destruct (pv_ok (q1 :: t1) Hn F C) as (o & t2 & -> & P2). cbn [rbind].
  destruct o as [o|]; [|by eexists None, _]. destruct P2 as (F2 & L2 & E2). rewrite <- E2 in C.
  destruct (closing_cons t2 F2 C) as (q3 & t3 & ty3 & s3 & -> & Hq3 & _ & F3 & E3). cbn [qlist_pop].
  rewrite E3 in C. cbn [length] in L2, Hn.
  destruct (array_loop_ok (S (length t3)) (qlist_append_obj qlist_new o) q3 t3 ty3 s3
    ltac:(lia) ltac:(lia) Hq3 F3 C) as (o' & t4 & -> & Ho). cbn [rbind].
  destruct o'; [|by eexists None, _]. destruct Ho as (F4 & L4 & E4); [by eexists|].
  eexists _, _. split; [done|]. split_and!; [done|cbn; lia|].
  rewrite Et, <- E2, E3, <- E4, add2_assoc. by destruct (total t4).
Qed.

Lemma parse_object_ok q toks ty t :
  is_token q ty t → Forall token toks → (length toks < n)%nat →
  (total (q :: toks)).1 ≤ 0 → (total (q :: toks)).2 ≤ 0 →
  rule_ok (q :: toks) (parse_object pv (q :: toks) None).
Proof.
  intros Hq F Hn H1 H2. unfold parse_object. rewrite qlist_copy_id. cbn [qlist_pop].
  rewrite (is_token_op q ty t _ Hq). cbn [rbind].
  destruct (is_op ty t (ch "{")) eqn:Eop; cbn [negb]; [|by eexists None, _].
  assert (total (q :: toks) = add2 (1, 0) (total toks)) as Et.
  { cbn [total]. by rewrite (is_token_weight q ty t Hq), (is_op_weight ty t _ Eop). }
  rewrite Et in H1, H2. assert (closing (total toks)) as C by (unfold closing, add2 in *; cbn in *; lia).
  destruct (closing_cons toks F C) as (q1 & t1 & ty1 & s1 & -> & Hq1 & _ & F1 & E1). cbn [qlist_peek head].
  rewrite (is_token_op q1 ty1 s1 _ Hq1). cbn [rbind].
  destruct (is_op ty1 s1 (ch "}")) eqn:Ec; cbn [negb].
  { eexists _, _. split; [done|]. cbn [qlist_pop snd]. split_and!; [done|cbn; lia|].
    rewrite Et, E1, (is_op_weight _ _ _ Ec), add2_assoc by done. by destruct (total t1). }
  destruct (parse_pair_ok qdict_new (q1 :: t1) Hn F C) as (d & t2 & ok & -> & P2). cbn [rbind].
  destruct ok; cbn [negb]; [|by eexists None, _]. destruct (P2 eq_refl) as (F2 & L2 & E2). rewrite <- E2 in C.
  destruct (closing_cons t2 F2 C) as (q3 & t3 & ty3 & s3 & -> & Hq3 & _ & F3 & E3). cbn [qlist_pop].
  rewrite E3 in C. cbn [length] in L2, Hn.
  destruct (object_loop_ok (S (length t3)) d q3 t3 ty3 s3 ltac:(lia) ltac:(lia) Hq3 F3 C) as (o' & t4 & -> & Ho).
  cbn [rbind]. destruct o'; [|by eexists None, _]. destruct Ho as (F4 & L4 & E4); [by eexists|].
  eexists _, _. split; [done|]. split_and!; [done|cbn; lia|].
  rewrite Et, <- E2, E3, <- E4, add2_assoc. by destruct (total t4).
Qed.

End rules.

Lemma parse_value_ok strtod f toks :
  (length toks < f)%nat → Forall token toks → toks ≠ [] → (total toks).1 ≤ 0 → (total toks).2 ≤ 0 →
  value_ok toks (parse_value strtod f toks None).
Proof.
  revert toks. induction f as [|f IH]; intros toks Hf F Hne H1 H2; [lia|].
  destruct F as [|q toks (ty & t & Hq & Hs) F]; [done|]. cbn [length] in Hf.
  assert (∀ toks, (length toks < f)%nat → Forall token toks → closing (total toks) →
    value_ok toks (parse_value strtod f toks None)) as Hpv.
  { intros l Hl Fl (C1 & C2 & C3). apply IH; auto. intros ->. cbn in *. lia. }
  cbn [parse_value]. apply or_else_value; [|by eapply parse_literal_ok].
  apply or_else_rule; [|by eapply parse_keyword_ok].
  apply or_else_rule; [|by eexists None, _].
  apply or_else_rule; [eapply parse_object_ok|eapply parse_array_ok]; eauto; lia.
Qed.

Lemma json_parser_parse_ok strtod toks :
  Forall token toks → toks ≠ [] → total toks = (0, 0) →
  ∃ o, json_parser_parse strtod toks None = Ok (o, None).
Proof.
  intros F Hne Et. unfold json_parser_parse. rewrite qlist_copy_id.
  destruct (parse_value_ok strtod (S (length toks)) toks) as (o & t' & -> & _); [lia|done..|rewrite Et; cbn; lia|rewrite Et; cbn; lia|].
  cbn [rbind]. by eexists.
Qed.

(** ** The lexer *)

(** A state either is an error without lookahead or accepts a token there. *)
Lemma lookahead_states s : json_lexer s 0 = ERROR ∨ ∃ t, json_lexer s 0 = Accept t ∧ t ≠ JSON_STRING.
Proof. destruct s; try (left; reflexivity); right; eexists; (split; [reflexivity|done]). Qed.

Section lexing.
  Context {S : Type} (emit : S → cstring → JSONTokenType → Z → Z → result S) (I : nat → S → Prop).
  Context (emit_ok : ∀ n s t ty x y, I (Datatypes.S n) s → (ty = JSON_STRING → t ≠ []) →
    ∃ s', emit s t ty x y = Ok s' ∧ I n s').
  Context (I_mono : ∀ n s, I (Datatypes.S n) s → I n s).

(** One round; [I n] leaves room for [n] more tokens. *)
Lemma lex_round f l s c n :
  I (Datatypes.S n) s →
  (∃ l' s' e, lex_loop emit (Datatypes.S f) l s c = Ok (l', s', e) ∧ I n s') ∨
  (json_lexer (lx_state l) c ≠ ERROR ∧ json_lexer (lx_state l) c = json_lexer (lx_state l) 0 ∧
    ∃ l' s', lx_state l' = IN_START ∧ lex_loop emit (Datatypes.S f) l s c = lex_loop emit f l' s' c ∧ I n s').
Proof.
  intros HI. cbn [lex_loop]. unfold TERMINAL_NEEDED_LOOKAHEAD.
  assert (∀ tok ty, (ty = JSON_STRING → tok ≠ []) → ∃ s',
    (if bool_decide (ty = JSON_SKIP) then Ok s else emit s tok ty (lx_x l) (lx_y l)) = Ok s' ∧ I n s') as He.
  { intros tok ty Ht. case_bool_decide; [eexists; split; [done|]; by apply I_mono|]. by apply emit_ok. }
  destruct (lookahead_states (lx_state l)) as [E0|(t & E0 & Ht)]; rewrite E0.
  - case_bool_decide as Ec; cbn [negb].
    + rewrite <- Ec. left. eexists _, _, _. split; [done|]. by apply I_mono.
    + left. destruct (json_lexer (lx_state l) c) as [| | | | | | | | | | | | | | | | | | | | | | | | | | | | | |ty];
        try (eexists _, _, _; split; [done|]; by apply I_mono).
      destruct (He (lx_token l ++ [c]) ty) as (s' & -> & HI'); [intros _; by destruct (lx_token l)|].
      cbn [rbind]. eexists _, _, _. by split.
  - destruct (decide (Accept t = json_lexer (lx_state l) c)) as [Ec|Ec];
      [rewrite bool_decide_eq_true_2 by done|rewrite bool_decide_eq_false_2 by done]; cbn [negb].
    + right. rewrite <- Ec. split_and!; [done..|]. destruct (He (lx_token l) t ltac:(done)) as (s' & -> & HI').
      cbn [rbind]. by exists (mkLexer IN_START [] (lx_x l) (lx_y l)), s'.
    + left. destruct (json_lexer (lx_state l) c) as [| | | | | | | | | | | | | | | | | | | | | | | | | | | | | |ty];
        try (eexists _, _, _; split; [done|]; by apply I_mono).
      destruct (He (lx_token l ++ [c]) ty) as (s' & -> & HI'); [intros _; by destruct (lx_token l)|].
      cbn [rbind]. eexists _, _, _. by split.
Qed.

Lemma feed_char_ok l s c n :
  I (Datatypes.S (Datatypes.S n)) s → ∃ l' s' e, json_lexer_feed_char emit l s c = Ok (l', s', e) ∧ I n s'.
Proof.
  intros HI. unfold json_lexer_feed_char. destruct (if c =? 10 then _ else _) as [x y].
  destruct (lex_round 1 (mkLexer (lx_state l) (lx_token l) x y) s c _ HI)
    as [(l' & s' & e & -> & HI')|(_ & _ & l1 & s1 & El & -> & HI1)]; [eauto 10|].
  destruct (lex_round 0 l1 s1 c _ HI1) as [(l' & s' & e & -> & HI')|(Hn & E & _)]; [eauto 10|].
  rewrite El in *. by rewrite E in Hn.
Qed.

Lemma feed_ok l s buf n :
  I (2 * length buf + n) s → ∃ l' s' e, json_lexer_feed emit l s buf = Ok (l', s', e) ∧ I n s'.
Proof.
  revert l s. induction buf as [|c buf IH]; intros l s HI; cbn [json_lexer_feed]; [eauto 10|].
  destruct (feed_char_ok l s c (2 * length buf + n)) as (l1 & s1 & e & -> & H1).
  { replace (Datatypes.S (Datatypes.S (2 * length buf + n))) with (2 * length (c :: buf) + n)%nat by (cbn; lia). done. }
  cbn [rbind]. case_match; [|by apply IH]. eexists _, _, _. split; [done|].
  clear - H1 I_mono. induction (2 * length buf)%nat; auto.
Qed.

Lemma flush_ok l s n : I (2 + n) s → ∃ l' s' e, json_lexer_flush emit l s = Ok (l', s', e) ∧ I n s'.
Proof.
  intros HI. unfold json_lexer_flush. case_bool_decide; [|by apply feed_char_ok]. eexists _, _, _. split; [done|]. auto.
Qed.

End lexing.

(** ** Reading a text *)

(** The counts are those of the tokens kept; [n] more fit in an int. *)
Definition streamer_ok (n : nat) (p : JSONMessageParser * JSONParsingState) : Prop :=
  ps_ap p.2 = None ∧ Forall token (tokens p.1) ∧ (brace_count p.1, bracket_count p.1) = total (tokens p.1) ∧
  length (tokens p.1) + n < 2 ^ 31.

Lemma process_counts p ty t :
  -2 ^ 31 < brace_count p < 2 ^ 31 - 1 → -2 ^ 31 < bracket_count p < 2 ^ 31 - 1 →
  (if bool_decide (ty = JSON_OPERATOR) then
      let c := default 0 (head t) in
      if c =? ch "{" then (sext 32 (brace_count p + 1), bracket_count p)
      else if c =? ch "}" then (sext 32 (brace_count p - 1), bracket_count p)
      else if c =? ch "[" then (brace_count p, sext 32 (bracket_count p + 1))
      else if c =? ch "]" then (brace_count p, sext 32 (bracket_count p - 1))
      else (brace_count p, bracket_count p)
    else (brace_count p, bracket_count p)) = add2 (brace_count p, bracket_count p) (op_weight ty t).
Proof.
  intros H1 H2. unfold op_weight, add2. repeat (case_bool || case_bool_decide); cbn zeta;
    rewrite ?sext_small by (cbn; lia); cbn; f_equal; lia.
Qed.

Lemma process_token_ok strtod n p t ty x y :
  streamer_ok (S n) p → (ty = JSON_STRING → t ≠ []) →
  ∃ p', json_message_process_token (parse_json strtod) p t ty x y = Ok p' ∧ streamer_ok n p'.
Proof.
  destruct p as [p s]. intros (Hap & F & Ec & Hn) Ht. cbn [fst snd] in *. unfold json_message_process_token.
  pose proof (total_range _ F) as Hr. rewrite <- Ec in Hr. cbn [fst snd] in Hr.
  rewrite process_counts by lia. unfold qlist_append_obj.
  assert (is_token (make_token t ty x y) ty t) as Hq by by exists x, y.
  assert (add2 (brace_count p, bracket_count p) (op_weight ty t) = total (tokens p ++ [make_token t ty x y])) as Et.
  { rewrite total_app, Ec. cbn [total]. rewrite (is_token_weight _ ty t Hq). f_equal. by destruct (op_weight ty t) as [[] []]. }
  assert (Forall token (tokens p ++ [make_token t ty x y])) as F'.
  { apply Forall_app. split; [done|]. apply Forall_singleton. by exists ty, t. }
  rewrite Et. destruct (total (tokens p ++ _)) as [b k] eqn:Eb.
  destruct ((b =? 0) && (k =? 0)) eqn:Ez.
  - apply andb_prop in Ez as [->%Z.eqb_eq ->%Z.eqb_eq]. unfold parse_json. rewrite Hap.
    destruct (json_parser_parse_ok strtod _ F') as [o ->]; [by destruct (tokens p)|done|]. cbn [rbind].
    eexists. split; [done|]. split_and!; [done|by constructor|done|]. cbn. lia.
  - eexists. split; [done|]. split_and!; [done..| |]; cbn [fst snd tokens brace_count bracket_count].
    + done.
    + rewrite length_app. cbn. lia.
Qed.

Lemma streamer_mono n p : streamer_ok (S n) p → streamer_ok n p.
Proof. intros (? & ? & ? & ?). split_and!; auto. lia. Qed.

Lemma from_json_returns strtod s :
  length s < 2 ^ 30 - 2 → ∃ o, qobject_from_json strtod s = Ok o.
Proof.
  intros Hs. unfold qobject_from_json, qobject_from_jsonv, json_message_parser_feed, json_message_parser_flush.
  destruct (feed_ok _ streamer_ok (process_token_ok strtod) streamer_mono json_lexer_init
    (json_message_parser_init, mkPS None None) s 2) as (l & p & e & -> & H1).
  { split_and!; [done|constructor|done|]. cbn [json_message_parser_init tokens qlist_new length fst]. lia. }
  cbn [rbind]. destruct (flush_ok _ streamer_ok (process_token_ok strtod) streamer_mono l p 0 H1)
    as (l' & p' & e' & -> & H2). cbn [rbind]. by eexists.
Qed.
