(* ===== verification/JsonLex.v ===== *)
(** * What the lexer makes of printed text

    A pure account of the lexer on error-free input, and the effect of a list
    of tokens on the message splitter.  The tokens of the text of strings,
    numbers and bracketed lists. *)

From Stdlib Require Import String.
From stdpp Require Import base list.
From S2P Require Import Prelude Text QObject JsonLexer JsonParser JsonInv.
Local Open Scope Z_scope.
Local Coercion Z.of_nat : nat >-> Z.

Notation tok := (JSONTokenType * cstring)%type.

(** ** Steps of the lexer *)

Definition emits (t : JSONTokenType) (s : cstring) : list tok :=
  if bool_decide (t = JSON_SKIP) then [] else [(t, s)].

(** One character that is not an error: the state, the token and what is emitted. *)
Definition lstep (st : json_lexer_state) (s : cstring) (c : Z) : option (json_lexer_state * cstring * list tok) :=
  match json_lexer st c with
  | ERROR => None
  | Accept t =>
      if TERMINAL_NEEDED_LOOKAHEAD st (Accept t) then
        match json_lexer IN_START c with
        | ERROR => None
        | Accept t2 => Some (IN_START, [], emits t s ++ emits t2 [c])
        | st2 => Some (st2, [c], emits t s)
        end
      else Some (IN_START, [], emits t (s ++ [c]))
  | st' => Some (st', s ++ [c], [])
  end.

Fixpoint lsteps (st : json_lexer_state) (s : cstring) (w : cstring) : option (json_lexer_state * cstring * list tok) :=
  match w with
  | [] => Some (st, s, [])
  | c :: w' => '(st, s, es) ← lstep st s c; '(st, s, es') ← lsteps st s w'; Some (st, s, es ++ es')
  end.

Lemma lsteps_app st s w1 w2 st1 s1 e1 :
  lsteps st s w1 = Some (st1, s1, e1) →
  lsteps st s (w1 ++ w2) = '(st2, s2, e2) ← lsteps st1 s1 w2; Some (st2, s2, e1 ++ e2).
Proof.
  revert st s st1 s1 e1. induction w1 as [|c w1 IH]; intros st s st1 s1 e1; cbn [lsteps app].
  - intros [= <- <- <-]. by destruct (lsteps st s w2) as [[[? ?] ?]|].
  - destruct (lstep st s c) as [[[st' s'] es]|]; [|done]. cbn.
    destruct (lsteps st' s' w1) as [[[st'' s''] es']|] eqn:E; [|done]. cbn. intros [= <- <- <-].
    rewrite (IH _ _ _ _ _ E). destruct (lsteps st'' s'' w2) as [[[? ?] ?]|]; [|done]. cbn. by rewrite app_assoc.
Qed.

Section wp.
  Context {S : Type} (emit : S → cstring → JSONTokenType → Z → Z → result S).

(** Emitting the tokens, wherever they stand in the text, succeeds and leads
    to a state that satisfies [P]. *)
Fixpoint wp (es : list tok) (P : S → Prop) (s : S) : Prop :=
  match es with
  | [] => P s
  | (ty, t) :: es' => ∀ x y, ∃ s', emit s t ty x y = Ok s' ∧ wp es' P s'
  end.

Lemma wp_mono es (P Q : S → Prop) s : (∀ s, P s → Q s) → wp es P s → wp es Q s.
Proof.
  intros HPQ. revert s. induction es as [|[ty t] es IH]; intros s; cbn; [apply HPQ|].
  intros H x y. destruct (H x y) as (s' & E & H'). eauto.
Qed.

Lemma wp_app es1 es2 P s : wp (es1 ++ es2) P s ↔ wp es1 (wp es2 P) s.
Proof.
  revert s. induction es1 as [|[ty t] es1 IH]; intros s; cbn; [done|].
  split; intros H x y; destruct (H x y) as (s' & E & H'); exists s'; (split; [done|]); by apply IH.
Qed.

Lemma wp_emits t s tk x y P :
  wp (emits t tk) P s →
  ∃ s', (if bool_decide (t = JSON_SKIP) then Ok s else emit s tk t x y) = Ok s' ∧ P s'.
Proof. unfold emits. case_bool_decide as Et; cbn; [eauto|]. intros Hw. exact (Hw x y). Qed.

(** A round that consumes the character. *)
Lemma lex_loop_consume f l s c P st tk es :
  json_lexer (lx_state l) c ≠ json_lexer (lx_state l) 0 →
  lstep (lx_state l) (lx_token l) c = Some (st, tk, es) → wp es P s →
  ∃ l' s', lex_loop emit (Datatypes.S f) l s c = Ok (l', s', 0) ∧ lx_state l' = st ∧ lx_token l' = tk ∧ P s'.
Proof.
  intros Hc. unfold lstep. cbn [lex_loop]. unfold TERMINAL_NEEDED_LOOKAHEAD.
  destruct (json_lexer (lx_state l) c)
    as [| | | | | | | | | | | | | | | | | | | | | | | | | | | | | |ty] eqn:En; try done;
  rewrite bool_decide_eq_false_2 by done; cbn [negb]; intros [= <- <- <-] Hw; try (eexists _, _; by split_and!).
  destruct (wp_emits ty s _ (lx_x l) (lx_y l) P Hw) as (s' & -> & HP). cbn [rbind]. eexists _, _. by split_and!.
Qed.

Lemma start_consumes c : json_lexer IN_START c ≠ ERROR → json_lexer IN_START c ≠ json_lexer IN_START 0.
Proof. done. Qed.

(** A round that needs the character as lookahead, and the next. *)
Lemma lex_loop_lookahead f l s c P st tk es :
  json_lexer (lx_state l) c = json_lexer (lx_state l) 0 →
  lstep (lx_state l) (lx_token l) c = Some (st, tk, es) → wp es P s →
  ∃ l' s', lex_loop emit (Datatypes.S (Datatypes.S f)) l s c = Ok (l', s', 0) ∧ lx_state l' = st ∧ lx_token l' = tk ∧ P s'.
Proof.
  intros Hc Hl Hw. destruct (lookahead_states (lx_state l)) as [E0|(t & E0 & Ht)]; rewrite E0 in Hc.
  { unfold lstep in Hl. by rewrite Hc in Hl. }
  assert (∃ e2, es = emits t (lx_token l) ++ e2 ∧ lstep IN_START [] c = Some (st, tk, e2)) as (e2 & -> & Hl2).
  { unfold lstep in *. unfold TERMINAL_NEEDED_LOOKAHEAD in *. rewrite Hc, E0, bool_decide_eq_true_2 in Hl by done.
    change (json_lexer IN_START 0) with ERROR. revert Hl.
    destruct (json_lexer IN_START c) as [| | | | | | | | | | | | | | | | | | | | | | | | | | | | | |ty]; try done;
      intros [= <- <- <-]; (eexists; (split; [|done])); by rewrite ?app_nil_r. }
  remember (Datatypes.S f) as g eqn:Eg. cbn [lex_loop]. unfold TERMINAL_NEEDED_LOOKAHEAD.
  rewrite Hc, E0, (bool_decide_eq_true_2 (Accept t = Accept t)) by done. cbn [negb].
  apply wp_app in Hw. destruct (wp_emits t s _ (lx_x l) (lx_y l) _ Hw) as (s' & -> & Hw'). cbn [rbind]. subst g.
  apply (lex_loop_consume f (mkLexer IN_START [] (lx_x l) (lx_y l)) s' c P st tk e2); auto. cbn [lx_state].
  apply start_consumes. intros E. unfold lstep in Hl2. by rewrite E in Hl2.
Qed.

Lemma feed_char_wp l s c P st tk es :
  lstep (lx_state l) (lx_token l) c = Some (st, tk, es) → wp es P s →
  ∃ l' s', json_lexer_feed_char emit l s c = Ok (l', s', 0) ∧ lx_state l' = st ∧ lx_token l' = tk ∧ P s'.
Proof.
  intros Hl Hw. unfold json_lexer_feed_char. destruct (if c =? 10 then _ else _) as [x y].
  destruct (decide (json_lexer (lx_state l) c = json_lexer (lx_state l) 0)).
  - by eapply (lex_loop_lookahead 0 (mkLexer (lx_state l) (lx_token l) x y)).
  - by eapply (lex_loop_consume 1 (mkLexer (lx_state l) (lx_token l) x y)).
Qed.

Lemma feed_wp w l s P st tk es :
  lsteps (lx_state l) (lx_token l) w = Some (st, tk, es) → wp es P s →
  ∃ l' s', json_lexer_feed emit l s w = Ok (l', s', 0) ∧ lx_state l' = st ∧ lx_token l' = tk ∧ P s'.
Proof.
  revert l s P st tk es. induction w as [|c w IH]; intros l s P st tk es; cbn [lsteps json_lexer_feed].
  { intros [= <- <- <-] HP. eexists _, _. by split_and!. }
  destruct (lstep _ _ c) as [[[st1 tk1] es1]|] eqn:E1; [|done]. cbn.
  destruct (lsteps st1 tk1 w) as [[[st2 tk2] es2]|] eqn:E2; [|done]. cbn. intros [= <- <- <-] Hw%wp_app.
  destruct (feed_char_wp l s c _ _ _ _ E1 Hw) as (l1 & s1 & -> & <- & <- & H1). cbn. by eapply IH.
Qed.

(** The token left at the end. *)
Definition pending (st : json_lexer_state) (s : cstring) : list tok :=
  match json_lexer st 0 with Accept t => emits t s | _ => [] end.

Lemma flush_wp l s P :
  wp (pending (lx_state l) (lx_token l)) P s → (lx_state l = IN_START ∨ json_lexer (lx_state l) 0 ≠ ERROR) →
  ∃ l' s' e, json_lexer_flush emit l s = Ok (l', s', e) ∧ P s'.
Proof.
  intros Hw Hst. unfold json_lexer_flush, pending in *. case_bool_decide as E.
  { rewrite E in Hw. cbn in Hw. eexists _, _, _. by split_and!. }
  destruct Hst as [|Hst]; [done|]. destruct (lookahead_states (lx_state l)) as [E0|(t & E0 & Ht)]; [done|].
  rewrite E0 in Hw. unfold json_lexer_feed_char. cbn [Z.eqb]. cbn [lex_loop lx_state lx_token lx_x lx_y].
  unfold TERMINAL_NEEDED_LOOKAHEAD. rewrite E0, (bool_decide_eq_true_2 (Accept t = Accept t)) by done. cbn [negb].
  destruct (wp_emits t s _ (sext 32 (lx_x l + 1)) (lx_y l) P Hw) as (s' & -> & HP). cbn. eexists _, _, _. by split_and!.
Qed.

End wp.

(** ** Texts and their tokens *)

(** States in which a token may end without its last character being seen. *)
Definition settled (st : json_lexer_state) (s : cstring) : Prop :=
  st = IN_START ∧ s = [] ∨ st = IN_ZERO ∨ st = IN_NONZERO_NUMBER ∨ st = IN_KEYWORD.

(** [w] is read as the tokens [ts], the last of which may be pending, and can
    follow white space. *)
Definition lexes (w : cstring) (ts : list tok) : Prop :=
  (∃ c w', w = c :: w' ∧ json_lexer IN_WHITESPACE c = Accept JSON_SKIP) ∧
  ∃ st s es, lsteps IN_START [] w = Some (st, s, es) ∧ es ++ pending st s = ts ∧ settled st s.

Fixpoint seps {A} (sep : list A) (ls : list (list A)) : list A :=
  match ls with
  | [] => []
  | [x] => x
  | x :: ls' => x ++ sep ++ seps sep ls'
  end.

#[local] Arguments ch : simpl never.
#[local] Arguments str : simpl never.
#[local] Arguments lstep : simpl never.
#[local] Arguments seps : simpl never.
#[local] Arguments pending : simpl never.
#[local] Arguments json_message_process_token : simpl never.

Definition op (s : string) : tok := (JSON_OPERATOR, [ch s]).
Arguments op _%_string_scope.

Definition closer (c : Z) : Prop := c = ch "," ∨ c = ch "]" ∨ c = ch "}".

Lemma settled_closer st s c :
  settled st s → closer c → lstep st s c = Some (IN_START, [], pending st s ++ [(JSON_OPERATOR, [c])]).
Proof. intros [[-> ->]|[->|[->| ->]]] [->|[->| ->]]; reflexivity. Qed.

Lemma whitespace_lsteps w ts :
  lexes w ts → lsteps IN_WHITESPACE [32] w = lsteps IN_START [] w.
Proof.
  intros [(c & w' & -> & E) _]. cbn [lsteps]. f_equal. unfold lstep at 1. rewrite E.
  change (TERMINAL_NEEDED_LOOKAHEAD IN_WHITESPACE (Accept JSON_SKIP)) with true. cbn match.
  unfold lstep, TERMINAL_NEEDED_LOOKAHEAD. change (json_lexer IN_START 0) with ERROR.
  by destruct (json_lexer IN_START c).
Qed.

(** Items separated by commas. *)
Lemma lexes_seps ws tss :
  Forall2 lexes ws tss → ws ≠ [] → lexes (seps (str ", ") ws) (seps [op ","] tss).
Proof.
  induction 1 as [|w ts ws tss Hw Hws IH]; [done|intros _]. destruct Hws as [|w2 ts2 ws tss Hw2 Hws]; [done|].
  specialize (IH ltac:(done)). destruct Hw as [(c & w' & -> & Ec) (st & s & es & El & Ep & Hs)].
  set (rest := seps (str ", ") (w2 :: ws)) in *. set (trest := seps [op ","] (ts2 :: tss)) in *.
  change (lexes ((c :: w') ++ str ", " ++ rest) (ts ++ [op ","] ++ trest)).
  split; [exists c; by eexists|]. rewrite (lsteps_app _ _ _ _ _ _ _ El).
  change (str ", " ++ rest) with (ch "," :: ch " " :: rest). cbn [lsteps].
  rewrite (settled_closer st s (ch ",") Hs) by (by left). cbn.
  change (lstep IN_START [] (ch " ")) with (Some (IN_WHITESPACE, [32], [] : list tok)). cbn.
  rewrite (whitespace_lsteps rest trest IH). destruct IH as [_ (st2 & s2 & es2 & -> & Ep2 & Hs2)]. cbn.
  eexists _, _, _. split; [done|]. split; [|done]. rewrite <- Ep, <- Ep2. cbn. by rewrite <- !app_assoc.
Qed.

Lemma lexes_bracket opn cls ws tss :
  (opn, cls) = (ch "[", ch "]") ∨ (opn, cls) = (ch "{", ch "}") → Forall2 lexes ws tss →
  lexes (opn :: seps (str ", ") ws ++ [cls]) ((JSON_OPERATOR, [opn]) :: seps [op ","] tss ++ [(JSON_OPERATOR, [cls])]).
Proof.
  intros Hoc Hws.
  assert (closer cls ∧ lstep IN_START [] opn = Some (IN_START, [], [(JSON_OPERATOR, [opn])]) ∧
    json_lexer IN_WHITESPACE opn = Accept JSON_SKIP) as (Hc & Ho & Hsk).
  { unfold closer. destruct Hoc as [[= -> ->]|[= -> ->]]; (split; [auto|done]). }
  split; [by eexists _, _|]. cbn [lsteps]. rewrite Ho. cbn.
  assert (∃ st s es, lsteps IN_START [] (seps (str ", ") ws) = Some (st, s, es) ∧
    es ++ pending st s = seps [op ","] tss ∧ settled st s) as (st & s & es & El & Ep & Hs).
  { destruct Hws as [|w ts ws tss Hw Hws]; [by eexists _, _, _; split_and!; [..|left]|].
    apply (lexes_seps (w :: ws) (ts :: tss)); [by constructor|done]. }
  rewrite (lsteps_app _ _ _ _ _ _ _ El). cbn [lsteps]. rewrite (settled_closer st s cls Hs Hc). cbn.
  eexists _, _, _. split; [done|]. split; [|by left]. cbn [pending]. change (json_lexer IN_START 0) with ERROR. cbn.
  by rewrite <- Ep, <- !app_assoc, !app_nil_r.
Qed.

(** A key, a colon and a value. *)
Lemma lexes_pair k tk w ts :
  lexes k [tk] → lsteps IN_START [] k = Some (IN_START, [], [tk]) → lexes w ts →
  lexes (k ++ str ": " ++ w) (tk :: op ":" :: ts).
Proof.
  intros [(c & k' & -> & Ec) _] Ek Hw. split; [by eexists _, _|]. rewrite (lsteps_app _ _ _ _ _ _ _ Ek).
  change (str ": " ++ w) with (ch ":" :: ch " " :: w). cbn [lsteps].
  change (lstep IN_START [] (ch ":")) with (Some (IN_START, [] : cstring, [op ":"])). cbn.
  change (lstep IN_START [] (ch " ")) with (Some (IN_WHITESPACE, [32], [] : list tok)). cbn.
  rewrite (whitespace_lsteps w ts Hw). destruct Hw as [_ (st & s & es & -> & Ep & Hs)]. cbn.
  eexists _, _, _. split; [done|]. split; [|done]. by rewrite <- Ep.
Qed.

(** Reading one token, from the state after its first character. *)
Lemma lsteps_run st (p : Z → bool) w s :
  (∀ c, p c = true → json_lexer st c = st) → json_lexer st 0 ≠ st → (∀ t, st ≠ Accept t) → st ≠ ERROR →
  Forall (λ c, p c = true) w → lsteps st s w = Some (st, s ++ w, []).
Proof.
  intros Hp H0 Ha He. intros Hw. revert s. induction Hw as [|c w Hc Hw IH]; intros s; cbn [lsteps].
  { by rewrite app_nil_r. }
  assert (lstep st s c = Some (st, s ++ [c], [])) as ->.
  { unfold lstep. rewrite (Hp c Hc). destruct st; try done. by edestruct Ha. }
  cbn. by rewrite IH, <- app_assoc.
Qed.

(** ** The message splitter *)

Definition tokrel (q : qobj) (e : tok) : Prop := is_token q e.1 e.2.

(** Lists of tokens in which brackets and braces match. *)
Inductive bal : list tok → Prop :=
  | bal_nil : bal []
  | bal_tok e : op_weight e.1 e.2 = (0, 0) → bal [e]
  | bal_app a b : bal a → bal b → bal (a ++ b)
  | bal_brace a : bal a → bal (op "{" :: a ++ [op "}"])
  | bal_bracket a : bal a → bal (op "[" :: a ++ [op "]"]).

Section stream.
  Context {S : Type} (emit : S → list qobj → result S).

Lemma process_inner p s ty t x y b k :
  (b, k) = add2 (brace_count p, bracket_count p) (op_weight ty t) → (b, k) ≠ (0, 0) →
  -2 ^ 31 < brace_count p < 2 ^ 31 - 1 → -2 ^ 31 < bracket_count p < 2 ^ 31 - 1 →
  json_message_process_token emit (p, s) t ty x y = Ok (mkMP b k (tokens p ++ [make_token t ty x y]), s).
Proof.
  intros E Hne H1 H2. unfold json_message_process_token. rewrite process_counts, <- E by lia.
  destruct ((b =? 0) && (k =? 0)) eqn:Ez; [|done]. apply andb_prop in Ez as [->%Z.eqb_eq ->%Z.eqb_eq]. done.
Qed.

Lemma process_last p s ty t x y :
  add2 (brace_count p, bracket_count p) (op_weight ty t) = (0, 0) →
  -2 ^ 31 < brace_count p < 2 ^ 31 - 1 → -2 ^ 31 < bracket_count p < 2 ^ 31 - 1 →
  json_message_process_token emit (p, s) t ty x y =
    (s <- emit s (tokens p ++ [make_token t ty x y]) ;; Ok (mkMP 0 0 [], s)).
Proof. intros E H1 H2. unfold json_message_process_token. by rewrite process_counts, E by lia. Qed.

(** A pair of operators, given what the tokens between them do. *)
Lemma stream_bracket o c a b k wb wk toks s P :
  op_weight JSON_OPERATOR [ch o] = (wb, wk) → op_weight JSON_OPERATOR [ch c] = (- wb, - wk) →
  0 ≤ wb ≤ 1 → 0 ≤ wk ≤ 1 → 0 ≤ b → 0 ≤ k → 0 < b + k → b + k + 2 < 2 ^ 31 - 1 →
  (∀ toks P, (∀ qs, Forall2 tokrel qs a → P (mkMP (b + wb) (k + wk) (toks ++ qs), s)) →
    wp (json_message_process_token emit) a P (mkMP (b + wb) (k + wk) toks, s)) →
  (∀ qs, Forall2 tokrel qs (op o :: a ++ [op c]) → P (mkMP b k (toks ++ qs), s)) →
  wp (json_message_process_token emit) (op o :: a ++ [op c]) P (mkMP b k toks, s).
Proof.
  intros Eo Ec Hwb Hwk Hb Hk Hbk Hlt IH HP. cbn [wp op]. intros x y.
  rewrite (process_inner _ _ _ _ _ _ (b + wb) (k + wk)); cbn [brace_count bracket_count tokens];
    [|by rewrite Eo|intros [=]; lia|lia|lia].
  eexists. split; [done|]. apply wp_app. apply IH. intros qs F. cbn [wp]. intros x' y'.
  rewrite (process_inner _ _ _ _ _ _ b k); cbn [brace_count bracket_count tokens];
    [|rewrite Ec; unfold add2; cbn; f_equal; lia|intros [=]; lia|lia|lia].
  eexists. split; [done|]. rewrite <- !app_assoc. apply HP. cbn. constructor; [by exists x, y|].
  apply Forall2_app; [done|]. constructor; [by exists x', y'|constructor].
Qed.

(** Inside a bracket no message ends. *)
Lemma stream_bal es b k toks s P :
  bal es → 0 ≤ b → 0 ≤ k → 0 < b + k → b + k + length es < 2 ^ 31 - 1 →
  (∀ qs, Forall2 tokrel qs es → P (mkMP b k (toks ++ qs), s)) →
  wp (json_message_process_token emit) es P (mkMP b k toks, s).
Proof.
  intros Hb. revert b k toks P. induction Hb as [|e He|a1 a2 _ IH1 _ IH2|a _ IH|a _ IH];
    intros b k toks P H1 H2 H3 H4 HP.
  - cbn. specialize (HP []). rewrite app_nil_r in HP. by apply HP.
  - destruct e as [ty t]. cbn. intros x y. rewrite (process_inner _ _ _ _ _ _ b k); cbn in *.
    + eexists. split; [done|]. apply HP. constructor; [|constructor]. by exists x, y.
    + unfold add2. cbn in He. rewrite He. cbn. f_equal; lia.
    + intros [= -> ->]. lia.
    + lia.
    + lia.
  - rewrite length_app in H4. apply wp_app. apply IH1; auto; [lia|]. intros q1 F1. apply IH2; auto; [lia|].
    intros q2 F2. rewrite <- app_assoc. apply HP. by apply Forall2_app.
  - cbn [length] in H4. rewrite length_app in H4. cbn [length] in H4.
    apply (stream_bracket _ _ _ _ _ 1 0); auto; try lia. intros. apply IH; auto; lia.
  - cbn [length] in H4. rewrite length_app in H4. cbn [length] in H4.
    apply (stream_bracket _ _ _ _ _ 0 1); auto; try lia. intros. apply IH; auto; lia.
Qed.

(** The tokens of one value, at top level, are one message. *)
Definition one_message (es : list tok) : Prop :=
  (∃ e, es = [e] ∧ op_weight e.1 e.2 = (0, 0)) ∨
  (∃ a, bal a ∧ (es = op "{" :: a ++ [op "}"] ∨ es = op "[" :: a ++ [op "]"])).

Lemma stream_message es s P :
  one_message es → length es < 2 ^ 31 - 1 →
  (∀ qs, Forall2 tokrel qs es → ∃ s', emit s qs = Ok s' ∧ P (mkMP 0 0 [], s')) →
  wp (json_message_process_token emit) es P (mkMP 0 0 [], s).
Proof.
  intros [([ty t] & -> & Ew)|(a & Ha & Hes)] Hlen HP.
  - cbn. intros x y. cbn in Ew. rewrite process_last; cbn [brace_count bracket_count tokens]; [|by rewrite Ew|lia..].
    destruct (HP [make_token t ty x y]) as (s' & E & H'); [constructor; [by exists x, y|constructor]|].
    cbn [app]. rewrite E. cbn. by eexists.
  - assert (∃ o c b k, es = op o :: a ++ [op c] ∧ 0 ≤ b ≤ 1 ∧ 0 ≤ k ≤ 1 ∧ 0 < b + k ∧
      op_weight JSON_OPERATOR [ch o] = (b, k) ∧ op_weight JSON_OPERATOR [ch c] = (-b, -k))
      as (o & c & b & k & -> & Hb & Hk & Hbk & Eo & Ec).
    { destruct Hes as [-> | ->]; [exists "{"%string, "}"%string, 1, 0|exists "["%string, "]"%string, 0, 1];
        (split_and!; [done|lia..|done|done]). }
    cbn [length] in Hlen. rewrite length_app in Hlen. cbn [length] in Hlen.
    cbn [wp op]. intros x y.
    rewrite (process_inner _ _ _ _ _ _ b k); cbn [brace_count bracket_count tokens]; [|by rewrite Eo|intros [=]; lia|lia|lia].
    eexists. split; [done|]. apply wp_app. apply stream_bal; auto; [lia..|]. intros qs F. cbn [wp]. intros x' y'.
    rewrite process_last; cbn [brace_count bracket_count tokens]; [|rewrite Ec; unfold add2; cbn; f_equal; lia|lia..].
    destruct (HP (make_token [ch o] JSON_OPERATOR x y :: qs ++ [make_token [ch c] JSON_OPERATOR x' y'])) as (s' & E & H').
    { constructor; [by exists x, y|]. apply Forall2_app; [done|]. constructor; [by exists x', y'|constructor]. }
    cbn [app]. rewrite E. cbn. by eexists.
Qed.

End stream.
