(* ===== verification/JsonText.v ===== *)
(** * The text of an object

    What [to_json] prints for strings of characters of the basic plane, numbers,
    lists and dictionaries, and that the lexer reads it as the tokens of the
    object. *)

From Stdlib Require Import String.
From stdpp Require Import base list.
From S2P Require Import Prelude Text QObject JsonLexer JsonParser JsonInv JsonLex.
Local Open Scope Z_scope.
Local Coercion Z.of_nat : nat >-> Z.

(** ** Characters *)

Definition utf8 (cp : Z) : cstring := match wchar_to_utf8 cp 4 with Ok u => u | Er _ => [] end.

(** The text of a character in a printed string. *)
Definition piece (cp : Z) : cstring := match utf8 cp with [c] => json_char c | _ => escape_u cp end.

Definition is_bmp (cp : Z) : Prop := 1 ≤ cp ≤ 0xFFFF.

(** The printer on the bytes of a character. *)
Definition print_check (cp : Z) : bool :=
  match utf8 cp with
  | [a] => negb (a .& 0xE0 =? 0xE0) && negb (a .& 0xE0 =? 0xC0)
  | [a; b] =>
      negb (a .& 0xE0 =? 0xE0) && (a .& 0xE0 =? 0xC0) && negb (b .& 0x80 =? 0) &&
      (u16 (((a .& 0x1F) <<. 6) .| (b .& 0x3F)) =? cp)
  | [a; b; c] =>
      (a .& 0xE0 =? 0xE0) && negb (b .& 0x80 =? 0) && negb (c .& 0x80 =? 0) &&
      (u16 (((a .& 0x0F) <<. 12) .| ((b .& 0x3F) <<. 6) .| (c .& 0x3F)) =? cp)
  | _ => false
  end.

(** The reader on the text of a character. *)
Definition read_check (cp : Z) : bool :=
  match piece cp with
  | [c] => negb (c =? dquote) && negb (c =? backslash) && bool_decide (utf8 cp = [c])
  | [b; e] => (b =? backslash) && bool_decide (simple_escape e = head (utf8 cp)) && bool_decide (length (utf8 cp) = 1%nat)
  | [b; u; h1; h2; h3; h4] =>
      (b =? backslash) && (u =? ch "u") && isxdigit h1 && isxdigit h2 && isxdigit h3 && isxdigit h4 &&
      (four_hex h1 h2 h3 h4 =? cp) && bool_decide (upto_nul (utf8 cp) = utf8 cp)
  | _ => false
  end.

(** The lexer on the text of a character. *)
Fixpoint stays (st : json_lexer_state) (w : cstring) : option json_lexer_state :=
  match w with
  | [] => Some st
  | c :: w' =>
      match json_lexer st c with ERROR | Accept _ => None | st' => stays st' w' end
  end.

Lemma stays_cons st st' c w :
  json_lexer st c = st' → match st' with ERROR | Accept _ => False | _ => True end → stays st (c :: w) = stays st' w.
Proof. intros E Hs. cbn [stays]. rewrite E. by destruct st'. Qed.

Definition char_check (cp : Z) : bool :=
  print_check cp && read_check cp && bool_decide (stays IN_DQ_STRING (piece cp) = Some IN_DQ_STRING).

(** Up to U+007F by evaluation, beyond from the facts on digits and bytes. *)
Lemma ascii_checks : forallb char_check (seqZ 1 127) = true.
Proof. vm_compute. reflexivity. Qed.

Lemma range_forall (P : Z → Prop) lo n : Forall P (seqZ lo n) → ∀ c, lo ≤ c ≤ lo + n - 1 → P c.
Proof. rewrite Forall_forall. intros H c Hc. apply H, elem_of_seqZ. lia. Qed.

Lemma hex_digit_facts d : 0 ≤ d ≤ 15 →
  hex2decimal (hex_digit d) = d ∧ isxdigit (hex_digit d) = true ∧ json_lexer IN_DQ_UCODE0 (hex_digit d) = IN_DQ_UCODE1 ∧
  json_lexer IN_DQ_UCODE1 (hex_digit d) = IN_DQ_UCODE2 ∧ json_lexer IN_DQ_UCODE2 (hex_digit d) = IN_DQ_UCODE3 ∧
  json_lexer IN_DQ_UCODE3 (hex_digit d) = IN_DQ_STRING.
Proof. revert d. apply (range_forall _ 0 16). cbn [seqZ]. repeat constructor. Qed.

Lemma lead2_facts h : 2 ≤ h ≤ 31 →
  (0xC0 .| h) .& 0xE0 = 0xC0 ∧ (0xC0 .| h) .& 0x1F = h ∧ (0xC0 .| h =? 0) = false.
Proof. revert h. apply (range_forall _ 2 30). cbn [seqZ]. repeat constructor. Qed.

Lemma lead3_facts h : 0 ≤ h ≤ 15 →
  (0xE0 .| h) .& 0xE0 = 0xE0 ∧ (0xE0 .| h) .& 0x0F = h ∧ (0xE0 .| h =? 0) = false.
Proof. revert h. apply (range_forall _ 0 16). cbn [seqZ]. repeat constructor. Qed.

Lemma cont_facts c : 0 ≤ c ≤ 63 →
  (0x80 .| c) .& 0x80 = 0x80 ∧ (0x80 .| c) .& 0x3F = c ∧ (0x80 .| c =? 0) = false.
Proof. revert c. apply (range_forall _ 0 64). cbn [seqZ]. repeat constructor. Qed.

Lemma shl_lor a b n : 0 ≤ n → 0 ≤ b < 2 ^ n → (a <<. n) .| b = a * 2 ^ n + b.
Proof.
  intros Hn Hb. rewrite Z.shiftl_mul_pow2 by lia. apply (lor_disjoint_add _ _ n); [lia| |lia].
  apply Z.mod_mul. lia.
Qed.

(** The bytes of a character beyond U+007F. *)
Lemma utf8_bytes cp : 128 ≤ cp ≤ 0xFFFF →
  utf8 cp = if cp <=? 0x7FF then [0xC0 .| cp `div` 64; 0x80 .| cp `mod` 64]
            else [0xE0 .| cp `div` 4096; 0x80 .| (cp `div` 64) `mod` 64; 0x80 .| cp `mod` 64].
Proof.
  intros Hcp. unfold utf8, wchar_to_utf8. destruct (Z.leb_spec cp 0x7F); [lia|]. cbn [Z.ltb Z.compare negb assert_ rbind].
  rewrite !Z.shiftr_div_pow2 by lia. change 0x3F with (2 ^ 6 - 1). change 0x1F with (2 ^ 5 - 1). change 0x0F with (2 ^ 4 - 1).
  rewrite !land_low by lia. destruct (Z.leb_spec cp 0x7FF).
  - change (2 ^ 5) with 32. change (2 ^ 6) with 64. rewrite (Z.mod_small (cp `div` 64)) by zdm. done.
  - change (2 ^ 4) with 16. change (2 ^ 6) with 64. change (2 ^ 12) with 4096.
    rewrite (Z.mod_small (cp `div` 4096)) by zdm. done.
Qed.

Lemma print_check_wide cp : 128 ≤ cp ≤ 0xFFFF → print_check cp = true.
Proof.
  intros Hcp. unfold print_check. rewrite utf8_bytes by done.
  destruct (cont_facts (cp `mod` 64)) as (E1 & E2 & _); [zdm|]. destruct (Z.leb_spec cp 0x7FF).
  - destruct (lead2_facts (cp `div` 64)) as (E3 & E4 & _); [zdm|]. rewrite !E1, !E2, !E3, E4. cbn [Z.eqb Pos.eqb negb andb].
    apply Z.eqb_eq. rewrite shl_lor by zdm. rewrite wrap_small by zdm. zdm.
  - destruct (lead3_facts (cp `div` 4096)) as (E3 & E4 & _); [zdm|].
    destruct (cont_facts (cp `div` 64 `mod` 64)) as (E5 & E6 & _); [zdm|].
    rewrite !E1, !E2, !E3, E4, !E5, E6. cbn [Z.eqb Pos.eqb negb andb]. apply Z.eqb_eq.
    rewrite (Z.shiftl_mul_pow2 (cp `div` 64 `mod` 64)) by lia.
    rewrite shl_lor by zdm. rewrite (lor_disjoint_add _ (cp `mod` 64) 6) by zdm. rewrite wrap_small by zdm. zdm.
Qed.

Lemma piece_wide cp : 128 ≤ cp ≤ 0xFFFF →
  piece cp = [92; 117; hex_digit (cp `div` 4096); hex_digit (cp `div` 256 `mod` 16);
    hex_digit (cp `div` 16 `mod` 16); hex_digit (cp `mod` 16)].
Proof.
  intros Hcp. unfold piece. rewrite utf8_bytes by done. destruct (cp <=? 0x7FF);
    unfold escape_u; rewrite wrap_small by lia; by rewrite print_04X_small by lia.
Qed.

Lemma wide_check cp : 128 ≤ cp ≤ 0xFFFF → char_check cp = true.
Proof.
  intros Hcp. unfold char_check, read_check. rewrite print_check_wide, piece_wide by done.
  destruct (hex_digit_facts (cp `div` 4096)) as (D1 & X1 & L1 & _); [zdm|].
  destruct (hex_digit_facts (cp `div` 256 `mod` 16)) as (D2 & X2 & _ & L2 & _); [zdm|].
  destruct (hex_digit_facts (cp `div` 16 `mod` 16)) as (D3 & X3 & _ & _ & L3 & _); [zdm|].
  destruct (hex_digit_facts (cp `mod` 16)) as (D4 & X4 & _ & _ & _ & L4); [zdm|].
  unfold four_hex. rewrite D1, D2, D3, D4.
  rewrite X1, X2, X3, X4.
  rewrite (stays_cons IN_DQ_STRING IN_DQ_STRING_ESCAPE), (stays_cons _ IN_DQ_UCODE0), (stays_cons _ _ _ _ L1) by done.
  rewrite (stays_cons _ _ _ _ L2), (stays_cons _ _ _ _ L3), (stays_cons _ _ _ _ L4) by done. cbn [stays].
  rewrite (bool_decide_eq_true_2 (Some _ = Some _)), andb_true_r by done.
  replace (upto_nul (utf8 cp)) with (utf8 cp).
  - rewrite (bool_decide_eq_true_2 (utf8 cp = utf8 cp)), andb_true_r by done.
    change (92 =? backslash) with true. change (117 =? ch "u") with true. cbn [andb]. apply Z.eqb_eq.
    rewrite (Z.shiftl_mul_pow2 (cp `div` 256 `mod` 16)), (Z.shiftl_mul_pow2 (cp `div` 16 `mod` 16)) by lia.
    change (2 ^ 8) with 256. change (2 ^ 4) with 16. rewrite shl_lor by zdm. change (2 ^ 12) with 4096.
    assert (∀ a b, (a * 4096 + b * 256) `mod` 2 ^ 8 = 0) as M8.
    { intros a b. replace (a * 4096 + b * 256) with ((a * 16 + b) * 2 ^ 8) by (change (2 ^ 8) with 256; lia). apply Z.mod_mul. lia. }
    assert (∀ a b c, (a * 4096 + b * 256 + c * 16) `mod` 2 ^ 4 = 0) as M4.
    { intros a b c. replace (a * 4096 + b * 256 + c * 16) with ((a * 256 + b * 16 + c) * 2 ^ 4) by (change (2 ^ 4) with 16; lia). apply Z.mod_mul. lia. }
    rewrite (lor_disjoint_add _ (cp `div` 16 `mod` 16 * 16) 8) by (auto; change (2 ^ 8) with 256; zdm).
    rewrite (lor_disjoint_add _ (cp `mod` 16) 4) by (auto; change (2 ^ 4) with 16; zdm).
    rewrite wrap_small by zdm. zdm.
  - rewrite utf8_bytes by done. destruct (cont_facts (cp `mod` 64)) as (_ & _ & E1); [zdm|].
    destruct (Z.leb_spec cp 0x7FF).
    + destruct (lead2_facts (cp `div` 64)) as (_ & _ & E2); [zdm|]. cbn [upto_nul]. by rewrite E1, E2.
    + destruct (lead3_facts (cp `div` 4096)) as (_ & _ & E2); [zdm|].
      destruct (cont_facts (cp `div` 64 `mod` 64)) as (_ & _ & E3); [zdm|]. cbn [upto_nul]. by rewrite E1, E2, E3.
Qed.

Lemma char_check_bmp cp : is_bmp cp → char_check cp = true.
Proof.
  intros Hcp. unfold is_bmp in Hcp. destruct (decide (cp ≤ 127)).
  - pose proof ascii_checks as H. rewrite forallb_forall in H. apply H. apply list_elem_of_In, elem_of_seqZ. lia.
  - apply wide_check. lia.
Qed.

#[global] Arguments escape_u : simpl never.
#[global] Arguments json_char : simpl never.
#[global] Arguments wrap : simpl never.

Lemma json_string_char cp rest acc :
  is_bmp cp → json_string (utf8 cp ++ rest) acc = json_string rest (acc ++ piece cp).
Proof.
  intros Hcp%char_check_bmp. unfold char_check in Hcp. apply andb_prop in Hcp as [[Hp _]%andb_prop _].
  unfold print_check in Hp. unfold piece. destruct (utf8 cp) as [|a [|b [|c [|]]]]; try done.
  - apply andb_prop in Hp as [H1%negb_true_iff H2%negb_true_iff].
    cbn [app json_string]. by rewrite H1, H2.
  - apply andb_prop in Hp as [[[H1%negb_true_iff H2]%andb_prop H3]%andb_prop H4%Z.eqb_eq].
    cbn [app json_string]. change (default 0 ((b :: rest) !! 0%nat)) with b. rewrite H1, H2, H3. cbn [andb].
    by rewrite H4.
  - apply andb_prop in Hp as [[[H1 H2]%andb_prop H3]%andb_prop H4%Z.eqb_eq].
    cbn [app json_string]. change (default 0 ((b :: c :: rest) !! 0%nat)) with b.
    change (default 0 ((b :: c :: rest) !! 1%nat)) with c. rewrite H1, H2, H3. cbn [andb]. by rewrite H4.
Qed.

Lemma unescape_char cp rest acc :
  is_bmp cp → unescape true (piece cp ++ rest) acc = unescape true rest (acc ++ utf8 cp).
Proof.
  intros Hcp%char_check_bmp. unfold char_check in Hcp. apply andb_prop in Hcp as [[_ Hr]%andb_prop _].
  unfold read_check in Hr. destruct (piece cp) as [|b [|e [|h1 [|h2 [|h3 [|h4 [|]]]]]]]; try done.
  - apply andb_prop in Hr as [[H1%negb_true_iff H2%negb_true_iff]%andb_prop ->%bool_decide_eq_true_1].
    cbn [app unescape]. by rewrite H1, H2.
  - apply andb_prop in Hr as [[->%Z.eqb_eq H2%bool_decide_eq_true_1]%andb_prop H3%bool_decide_eq_true_1].
    destruct (utf8 cp) as [|v [|]]; try done. cbn [app unescape]. change (backslash =? dquote) with false.
    change (backslash =? backslash) with true. cbn match. by rewrite H2.
  - repeat (apply andb_prop in Hr as [Hr ?]). bprop. subst b e.
    cbn [app unescape]. change (backslash =? dquote) with false. change (backslash =? backslash) with true.
    change (simple_escape (ch "u")) with (@None Z). change (ch "u" =? ch "u") with true. cbn match.
    repeat match goal with H : isxdigit _ = true |- _ => rewrite H; clear H end. cbn [andb].
    repeat match goal with H : four_hex _ _ _ _ = _ |- _ => rewrite H end.
    destruct (wchar_to_utf8_4 cp) as [u Hu]. unfold utf8 in *. rewrite Hu in *. cbn [rbind].
    match goal with H : bool_decide _ = true |- _ => by rewrite (bool_decide_eq_true_1 _ H) end.
Qed.

Lemma lsteps_stays st s w st' :
  stays st w = Some st' → lsteps st s w = Some (st', s ++ w, []).
Proof.
  revert st s. induction w as [|c w IH]; intros st s; cbn [stays lsteps].
  - intros [= ->]. by rewrite app_nil_r.
  - assert (∀ st1, json_lexer st c = st1 → st1 ≠ ERROR → (∀ t, st1 ≠ Accept t) → stays st1 w = Some st' →
      ('(st, s, es) ← lstep st s c; '(st, s, es') ← lsteps st s w; Some (st, s, es ++ es')) = Some (st', s ++ c :: w, [])) as Hstep.
    { intros st1 E He Ha Hs. assert (lstep st s c = Some (st1, s ++ [c], [])) as ->.
      { unfold lstep. rewrite E. destruct st1; try done. by edestruct Ha. }
      cbn. rewrite (IH _ _ Hs). cbn. by rewrite <- app_assoc. }
    destruct (json_lexer st c) eqn:E; try done; by apply Hstep.
Qed.

(** ** Strings *)

(** Strings of characters U+0001 to U+FFFF, in UTF-8. *)
Definition bmp_string (s : cstring) : Prop := ∃ cps, Forall is_bmp cps ∧ s = mjoin (utf8 <$> cps).

Definition string_text (s : cstring) : cstring := json_string s [dquote] ++ [dquote].

Lemma json_string_bmp cps acc :
  Forall is_bmp cps → json_string (mjoin (utf8 <$> cps)) acc = acc ++ mjoin (piece <$> cps).
Proof.
  intros H. revert acc. induction H as [|cp cps Hcp _ IH]; intros acc; cbn; [by rewrite app_nil_r|].
  rewrite (json_string_char cp _ acc Hcp). by rewrite IH, <- app_assoc.
Qed.

Lemma string_text_bmp cps :
  Forall is_bmp cps → string_text (mjoin (utf8 <$> cps)) = dquote :: mjoin (piece <$> cps) ++ [dquote].
Proof. intros H. unfold string_text. by rewrite json_string_bmp. Qed.

Lemma json_string_app ptr s : ∀ acc, json_string ptr (acc ++ s) = acc ++ json_string ptr s.
Proof.
  revert s. induction ptr as [ptr IH] using (induction_ltof1 _ (@length Z)); intros s acc.
  destruct ptr as [|p0 r1]; [done|]. cbn [json_string].
  destruct (_ && _ && _); [|destruct (_ && _)].
  - destruct r1 as [|p1 [|p2 r1]]; [done..|]. rewrite <- app_assoc. apply IH. unfold ltof. cbn. lia.
  - destruct r1 as [|p1 r1]; [done|]. rewrite <- app_assoc. apply IH. unfold ltof. cbn. lia.
  - rewrite <- app_assoc. apply IH. unfold ltof. cbn. lia.
Qed.

Lemma unescape_bmp cps acc :
  Forall is_bmp cps → unescape true (mjoin (piece <$> cps) ++ [dquote]) acc = Ok (Some (acc ++ mjoin (utf8 <$> cps))).
Proof.
  intros H. revert acc. induction H as [|cp cps Hcp _ IH]; intros acc; [cbn; by rewrite app_nil_r|].
  cbn [fmap list_fmap mjoin list_join]. rewrite <- app_assoc, (unescape_char cp _ acc Hcp), IH. by rewrite <- app_assoc.
Qed.

Lemma lsteps_pieces cps s :
  Forall is_bmp cps → lsteps IN_DQ_STRING s (mjoin (piece <$> cps)) = Some (IN_DQ_STRING, s ++ mjoin (piece <$> cps), []).
Proof.
  intros H. revert s. induction H as [|cp cps Hcp _ IH]; intros s; [cbn; by rewrite app_nil_r|].
  cbn [fmap list_fmap mjoin list_join].
  assert (stays IN_DQ_STRING (piece cp) = Some IN_DQ_STRING) as Hs.
  { apply char_check_bmp in Hcp. unfold char_check in Hcp. apply andb_prop in Hcp as [_ Hcp].
    by apply bool_decide_eq_true_1 in Hcp. }
  rewrite (lsteps_app _ _ _ _ _ _ _ (lsteps_stays _ s _ _ Hs)), IH. cbn. by rewrite <- app_assoc.
Qed.

Lemma lsteps_string s :
  bmp_string s → lsteps IN_START [] (string_text s) = Some (IN_START, [], [(JSON_STRING, string_text s)]).
Proof.
  intros (cps & H & ->). rewrite string_text_bmp by done. cbn [lsteps].
  change (lstep IN_START [] dquote) with (Some (IN_DQ_STRING, [dquote], [] : list tok)). cbn [mbind option_bind].
  rewrite (lsteps_app _ _ _ _ _ _ _ (lsteps_pieces cps [dquote] H)). cbn [lsteps]. done.
Qed.

(** ** Objects *)

(** Objects that have a text: numbers of 64 bits, strings of the basic plane,
    the two truth values, lists and dictionaries of such; no floats. *)
Unset Elimination Schemes.
Inductive json_ok : qobj → Prop :=
  | ok_int v : LLONG_MIN ≤ v ≤ LLONG_MAX → json_ok (QInt v)
  | ok_str s : bmp_string s → json_ok (QStr s)
  | ok_bool v : v = 0 ∨ v = 1 → json_ok (QBool v)
  | ok_list l : Forall json_ok l → json_ok (QList l)
  | ok_dict d : dict_wf d → Forall (λ e, bmp_string e.1 ∧ json_ok e.2) (dict_entries d) → json_ok (QDict d).
Set Elimination Schemes.

(** The tokens of an object. *)
Fixpoint toks_of (v : qobj) : list tok :=
  match v with
  | QInt z => [(JSON_INTEGER, print_d z)]
  | QStr s => [(JSON_STRING, string_text s)]
  | QBool z => [(JSON_KEYWORD, if z =? 0 then str "false" else str "true")]
  | QFloat _ => []
  | QList l => op "[" :: seps [op ","] (map toks_of l) ++ [op "]"]
  | QDict (_, t) =>
      op "{" :: seps [op ","] (mjoin (map (map (λ e : qentry, (JSON_STRING, string_text e.1) :: op ":" :: toks_of e.2)) t))
        ++ [op "}"]
  end.

Lemma map_join {A B} (f : A → B) (t : list (list A)) : mjoin (map (map f) t) = map f (mjoin t).
Proof.
  induction t as [|b t IH]; [done|]. change (map f b ++ mjoin (map (map f) t) = map f (b ++ mjoin t)).
  by rewrite IH, map_app.
Qed.

Lemma toks_of_dict d :
  toks_of (QDict d) =
    op "{" :: seps [op ","] (map (λ e : qentry, (JSON_STRING, string_text e.1) :: op ":" :: toks_of e.2) (dict_entries d))
      ++ [op "}"].
Proof. destruct d as [n t]. cbn [toks_of]. by rewrite map_join. Qed.

Lemma qobj_entries_ind (P : qobj → Prop) :
  (∀ v, P (QInt v)) → (∀ s, P (QStr s)) → (∀ v, P (QBool v)) → (∀ v, P (QFloat v)) →
  (∀ l, Forall P l → P (QList l)) →
  (∀ d, Forall (λ e : qentry, P e.2) (dict_entries d) → P (QDict d)) → ∀ v, P v.
Proof.
  intros ? ? ? ? ? Hd v. induction v using qobj_ind; auto. apply Hd. unfold dict_entries. cbn.
  match goal with H : Forall _ t |- _ => induction H; cbn; [constructor|by apply Forall_app] end.
Qed.

Section text.
  Context (fmt_f : Z → cstring).
  Notation to_json := (to_json fmt_f).
  Notation text v := (to_json v []).

(** Printing the items of a list or dictionary, with the separators. *)
Lemma items_text {A} (item : A → cstring → cstring) (l : list A) :
  Forall (λ a, ∀ s, item a s = s ++ item a []) l →
  ∀ n s, 0 ≤ n →
  snd (foldl (λ '(count, s) a, (count + 1, item a (if count =? 0 then s else s ++ str ", "))) (n, s) l) =
    s ++ (if (n =? 0) || bool_decide (l = []) then [] else str ", ") ++ seps (str ", ") (map (λ a, item a []) l).
Proof.
  induction 1 as [|a l Ha Hl IH]; intros n s Hn.
  { cbn [foldl snd map seps]. rewrite bool_decide_eq_true_2, orb_true_r by done. by rewrite !app_nil_r. }
  rewrite bool_decide_eq_false_2, orb_false_r by done. cbn [foldl].
  rewrite IH by lia. replace (n + 1 =? 0) with false by (symmetry; apply Z.eqb_neq; lia). cbn [orb].
  rewrite Ha. destruct l as [|a' l].
  - rewrite bool_decide_eq_true_2 by done. cbn. rewrite !app_nil_r. destruct (n =? 0); [done|]. by rewrite <- app_assoc.
  - rewrite bool_decide_eq_false_2 by done. destruct (n =? 0); cbn [app]; by rewrite <- ?app_assoc.
Qed.

Lemma text_list l s :
  Forall (λ v, ∀ s, to_json v s = s ++ text v) l →
  to_json (QList l) s = s ++ ch "[" :: seps (str ", ") (map (λ v, text v) l) ++ [ch "]"].
Proof.
  intros Hl. cbn [JsonParser.to_json].
  assert (∀ a, qlist_iter l (λ obj '(count, s), (count + 1, to_json obj (if count =? 0 then s else s ++ str ", "))) a =
    foldl (λ '(count, s) v, (count + 1, to_json v (if count =? 0 then s else s ++ str ", "))) a l) as ->.
  { clear Hl. unfold qlist_iter. induction l as [|v l IH]; intros [n s']; [done|]. cbn [foldl]. apply IH. }
  rewrite (items_text to_json l Hl) by lia. change (0 =? 0) with true. cbn [orb app]. by rewrite <- !app_assoc.
Qed.

Definition entry_json (e : qentry) (s : cstring) : cstring :=
  to_json e.2 ((json_string e.1 (s ++ [dquote]) ++ [dquote]) ++ str ": ").

Lemma text_dict d s :
  Forall (λ e : qentry, ∀ s, to_json e.2 s = s ++ text e.2) (dict_entries d) →
  to_json (QDict d) s =
    s ++ ch "{" :: seps (str ", ") (map (λ e : qentry, string_text e.1 ++ str ": " ++ text e.2) (dict_entries d)) ++ [ch "}"].
Proof.
  intros Hd.
  assert (Forall (λ e, ∀ s, entry_json e s = s ++ string_text e.1 ++ str ": " ++ text e.2) (dict_entries d)) as He.
  { eapply Forall_impl; [exact Hd|]. intros e E s'. unfold entry_json, string_text. rewrite E, json_string_app.
    by rewrite <- !app_assoc. }
  assert (map (λ e : qentry, string_text e.1 ++ str ": " ++ text e.2) (dict_entries d) =
    map (λ e, entry_json e []) (dict_entries d)) as ->.
  { clear Hd. induction He as [|e l E _ IH]; [done|]. cbn [map]. by rewrite IH, E. }
  destruct d as [n t]. cbn [JsonParser.to_json].
  pose proof (qdict_iter_fold (n, t) (λ key obj '(count, s), (count + 1, entry_json (key, obj) (if count =? 0 then s else s ++ str ", ")))) as Hf.
  unfold qdict_iter in Hf. unfold entry_json in Hf. cbn [fst snd] in Hf. rewrite Hf.
  assert (Forall (λ e, ∀ s, entry_json e s = s ++ entry_json e []) (dict_entries (n, t))) as He'.
  { eapply Forall_impl; [exact He|]. intros e E s'. by rewrite !E. }
  pose proof (items_text entry_json _ He' 0 (s ++ str "{") ltac:(lia)) as Hi. unfold entry_json in Hi. unfold entry_json.
  match goal with |- snd ?x ++ _ = _ => match type of Hi with snd ?y = _ => replace x with y end end.
  - rewrite Hi. change (0 =? 0) with true. cbn [orb app]. by rewrite <- !app_assoc.
  - apply foldl_ext. intros [m s1] [k v]. done.
Qed.

Lemma to_json_app v s : to_json v s = s ++ text v.
Proof.
  revert s. induction v as [v|ptr|v|v|l IH|d IH] using qobj_entries_ind; intros s; try done.
  - cbn [JsonParser.to_json]. rewrite json_string_app. by rewrite <- app_assoc.
  - rewrite (text_list l s IH), (text_list l [] IH). done.
  - rewrite (text_dict d s IH), (text_dict d [] IH). done.
Qed.

Lemma lexes_int v : LLONG_MIN ≤ v ≤ LLONG_MAX → lexes (print_d v) [(JSON_INTEGER, print_d v)].
Proof.
  intros Hv. destruct (print_d_shape v Hv) as [[-> ->]|(d & l & Hd & Hl & ->)].
  { split; [by eexists _, _|]. eexists _, _, _. split; [done|]. split; [done|]. right. by left. }
  assert (∀ s, lsteps IN_NONZERO_NUMBER s l = Some (IN_NONZERO_NUMBER, s ++ l, [])) as Hrun.
  { intros s. apply (lsteps_run IN_NONZERO_NUMBER isdigit); try done. intros c Hc.
    apply isdigit_spec in Hc. revert c Hc. apply (range_forall _ 48 10). cbn. repeat constructor. }
  assert (json_lexer IN_START d = IN_NONZERO_NUMBER ∧ json_lexer IN_NEG_NONZERO_NUMBER d = IN_NONZERO_NUMBER ∧
    json_lexer IN_WHITESPACE d = Accept JSON_SKIP) as (E1 & E2 & E3).
  { revert d Hd. apply (range_forall _ 49 9). cbn. repeat constructor. }
  destruct (v <? 0).
  - split; [by eexists _, _|]. cbn [lsteps].
    change (lstep IN_START [] 45) with (Some (IN_NEG_NONZERO_NUMBER, [45], [] : list tok)). cbn [mbind option_bind].
    unfold lstep. rewrite E2. cbn [mbind option_bind]. rewrite Hrun. cbn [mbind option_bind].
    eexists _, _, _. split; [done|]. split; [done|]. right. right. by left.
  - split; [by eexists _, _|]. cbn [lsteps]. unfold lstep. rewrite E1. cbn [mbind option_bind]. rewrite Hrun.
    cbn [mbind option_bind]. eexists _, _, _. split; [done|]. split; [done|]. right. right. by left.
Qed.

Lemma string_text_head s : ∃ w, string_text s = dquote :: w.
Proof. unfold string_text. rewrite <- (app_nil_r [dquote]), json_string_app. by eexists. Qed.

Lemma lexes_string s : bmp_string s → lexes (string_text s) [(JSON_STRING, string_text s)].
Proof.
  intros Hs. split.
  - destruct (string_text_head s) as [w ->]. by eexists _, _.
  - rewrite (lsteps_string s Hs). eexists _, _, _. split; [done|]. split; [done|by left].
Qed.

Lemma Forall2_map_map {A B C} (R : B → C → Prop) (f : A → B) (g : A → C) l :
  Forall (λ a, R (f a) (g a)) l → Forall2 R (map f l) (map g l).
Proof. induction 1; cbn; by constructor. Qed.

Lemma lexes_text v : json_ok v → lexes (text v) (toks_of v).
Proof.
  induction v as [v|ptr|v|v|l IH|d IH] using qobj_entries_ind; intros Hok; inv Hok.
  - by apply lexes_int.
  - by apply lexes_string.
  - destruct H0 as [-> | ->]; (split; [by eexists _, _|]); eexists _, _, _;
      (split; [vm_compute; reflexivity|]; split; [vm_compute; reflexivity|]; by do 3 right).
  - rewrite text_list by (apply Forall_true; intros; apply to_json_app). cbn [toks_of app].
    apply lexes_bracket; [by left|]. apply Forall2_map_map. rewrite Forall_forall in *. auto.
  - rewrite text_dict by (apply Forall_true; intros; apply to_json_app). rewrite toks_of_dict. cbn [app].
    apply lexes_bracket; [by right|]. apply Forall2_map_map. rewrite Forall_forall in *. intros e He.
    destruct (H1 e He) as [Hk Hv]. apply lexes_pair; [by apply lexes_string|by apply lsteps_string|auto].
Qed.

(** ** Balance of the tokens *)

Lemma bal_seps tss : Forall bal tss → bal (seps [op ","] tss).
Proof.
  induction 1 as [|ts tss Hts Htss IH]; [constructor|]. destruct tss as [|ts2 tss]; [done|].
  change (bal (ts ++ [op ","] ++ seps [op ","] (ts2 :: tss))). apply bal_app; [done|]. apply bal_app; [by apply bal_tok|done].
Qed.

Lemma bal_toks v : bal (toks_of v).
Proof.
  induction v as [v|ptr|v|v|l IH|d IH] using qobj_entries_ind; try by apply bal_tok.
  - constructor.
  - cbn [toks_of]. apply bal_bracket, bal_seps, Forall_map. done.
  - rewrite toks_of_dict. apply bal_brace, bal_seps, Forall_map. eapply Forall_impl; [exact IH|]. intros e He. cbn.
    apply (bal_app [_]); [by apply bal_tok|]. apply (bal_app [_]); [by apply bal_tok|done].
Qed.

Lemma toks_one_message v : json_ok v → one_message (toks_of v).
Proof.
  intros Hok. inv Hok; [by left; eexists..| |]; right.
  - cbn [toks_of]. eexists. split; [|by right]. apply bal_seps, Forall_map, Forall_true. intros. apply bal_toks.
  - rewrite toks_of_dict. eexists. split; [|by left]. apply bal_seps, Forall_map, Forall_true. intros e. cbn.
    apply (bal_app [_]); [by apply bal_tok|]. apply (bal_app [_]); [by apply bal_tok|apply bal_toks].
Qed.

(** There are at most twice as many tokens as characters. *)
Lemma lsteps_length w st s st' s' es : lsteps st s w = Some (st', s', es) → (length es ≤ 2 * length w)%nat.
Proof.
  revert st s es. induction w as [|c w IH]; intros st s es; cbn [lsteps]; [by intros [= _ _ <-]|].
  destruct (lstep st s c) as [[[st1 s1] e1]|] eqn:E1; [|done]. cbn.
  destruct (lsteps st1 s1 w) as [[[st2 s2] e2]|] eqn:E2; [|done]. cbn. intros [= -> -> <-]. apply IH in E2.
  rewrite length_app. assert (length e1 ≤ 2)%nat; [|lia].
  assert (∀ t s, length (emits t s) ≤ 1)%nat as He by (intros t s0; unfold emits; case_bool_decide; cbn; lia).
  unfold lstep in E1. destruct (json_lexer st c); try discriminate; try (injection E1 as <- <- <-; cbn; lia).
  destruct (TERMINAL_NEEDED_LOOKAHEAD st (Accept t)); [|injection E1 as <- <- <-; specialize (He t (s ++ [c])); lia].
  destruct (json_lexer IN_START c); try discriminate; injection E1 as <- <- <-; rewrite ?length_app;
    pose proof (He t s); try lia. pose proof (He t0 [c]). lia.
Qed.

Lemma toks_length v : json_ok v → length (toks_of v) ≤ 2 * length (text v) + 1.
Proof.
  intros Hok. destruct (lexes_text v Hok) as [_ (st & s & es & El & <- & _)].
  apply lsteps_length in El. rewrite length_app. assert (length (pending st s) ≤ 1)%nat; [|lia].
  unfold pending, emits. destruct (json_lexer st 0); cbn; try lia. case_bool_decide; cbn; lia.
Qed.

End text.
