(* ===== verification/JsonProps.v ===== *)
(** * JSON: reading and printing

    The parser reads the tokens of an object as an object of the same value;
    so reading what was printed gives the value back.  Reading any text
    returns. *)

From Stdlib Require Import String.
From stdpp Require Import base gmap list fin_maps.
From S2P Require Import Prelude Text QObject JsonLexer JsonParser JsonInv JsonLex JsonText.
Local Open Scope Z_scope.
Local Coercion Z.of_nat : nat >-> Z.

(** ** The value of an object *)

(** A dictionary is a finite map from keys to values. *)
Unset Elimination Schemes.
Inductive json :=
  | JInt (z : Z) | JStr (s : cstring) | JBool (z : Z) | JFloat (bits : Z)
  | JList (l : list json) | JDict (m : gmap cstring json).
Set Elimination Schemes.

Fixpoint meaning (v : qobj) : json :=
  match v with
  | QInt z => JInt z
  | QStr s => JStr s
  | QBool z => JBool z
  | QFloat z => JFloat z
  | QList l => JList (map meaning l)
  | QDict (_, t) => JDict (list_to_map (mjoin (map (map (λ e : qentry, (e.1, meaning e.2))) t)))
  end.

Lemma meaning_dict d : meaning (QDict d) = JDict (meaning <$> dict_map d).
Proof.
  destruct d as [n t]. cbn [meaning]. f_equal. unfold dict_map, dict_entries. cbn [snd]. rewrite map_join.
  rewrite <- list_to_map_fmap. f_equal.
Qed.

Lemma meaning_entries d d' es' :
  Forall2 (λ e e' : qentry, e'.1 = e.1 ∧ meaning e'.2 = meaning e.2) (dict_entries d) es' →
  dict_map d' = list_to_map es' → meaning (QDict d') = meaning (QDict d).
Proof.
  intros HF E. rewrite !meaning_dict, E. clear E. unfold dict_map. f_equal. rewrite <- !list_to_map_fmap. f_equal.
  induction HF as [|[k v] [k' v'] es es'' [Hk Hv] _ IH]; [done|]. cbn [fmap list_fmap prod_map fst snd] in *.
  by rewrite Hk, Hv, IH.
Qed.

(** ** Dictionaries built by insertions *)

Lemma put_all es : ∀ d, dict_wf d → NoDup es.*1 → (∀ k, k ∈ es.*1 → dict_map d !! k = None) →
  let d' := foldl (λ d (e : qentry), qdict_put_obj d e.1 e.2) d es in
  dict_wf d' ∧ dict_map d' = list_to_map es ∪ dict_map d.
Proof.
  cbn zeta. induction es as [|[k v] es IH]; intros d Hd Hnd Hfresh; cbn [foldl fst snd].
  { split; [done|]. cbn. by rewrite (left_id_L ∅ (∪)). }
  destruct (qdict_put_ok d k v Hd) as [Hw Hm]. cbn [fmap list_fmap fst] in *. apply NoDup_cons in Hnd as [Hk Hnd].
  destruct (IH (qdict_put_obj d k v) Hw Hnd) as [Hw' ->].
  { intros j Hj. rewrite Hm, lookup_insert_ne; [|by intros ->]. apply Hfresh. set_solver. }
  split; [done|]. cbn [fst snd]. rewrite Hm. cbn [list_to_map foldr uncurry].
  rewrite <- insert_union_r; [by rewrite insert_union_l|]. by apply not_elem_of_list_to_map_1.
Qed.

Lemma put_all_new es : NoDup es.*1 →
  let d' := foldl (λ d (e : qentry), qdict_put_obj d e.1 e.2) qdict_new es in
  dict_wf d' ∧ dict_map d' = list_to_map es.
Proof.
  intros Hnd. destruct (put_all es qdict_new dict_new_wf Hnd) as [Hw Hm]; [done|]. split; [done|].
  rewrite Hm, dict_new_map. apply (right_id_L ∅ (∪)).
Qed.

(** ** The parser on the tokens of an object *)

Lemma seps_cons {A} (sep x : list A) xs : seps sep (x :: xs) = x ++ mjoin ((λ y, sep ++ y) <$> xs).
Proof.
  revert x. induction xs as [|y xs IH]; intros x; [cbn; by rewrite app_nil_r|].
  change (seps sep (x :: y :: xs)) with (x ++ sep ++ seps sep (y :: xs)). rewrite IH. cbn. by rewrite <- app_assoc.
Qed.

Section parse.
  Context (pv : list qobj → valist → result parsed).

(** [pv] reads the tokens [ts] as an object of the value of [v]. *)
Definition parses (v : qobj) (ts : list tok) : Prop :=
  ∀ qs rest, Forall2 tokrel qs ts →
    ∃ v', pv (qs ++ rest) None = Ok (Some v', rest, None) ∧ meaning v' = meaning v.

Lemma items_length {A} (f : A → list tok) vs :
  (length vs ≤ length (mjoin ((λ y, [op ","] ++ y) <$> (f <$> vs))))%nat.
Proof.
  induction vs as [|v vs IH]; [cbn; lia|]. cbn [fmap list_fmap mjoin list_join app length]. rewrite length_app.
  apply le_n_S. etrans; [exact IH|]. apply Nat.le_add_l.
Qed.

(** The list, from the second element on. *)
Lemma array_loop_items vs :
  Forall (λ v, parses v (toks_of v)) vs → ∀ f acc q qs rest,
  Forall2 tokrel (q :: qs) (mjoin ((λ y, [op ","] ++ y) <$> (toks_of <$> vs)) ++ [op "]"]) → (length vs < f)%nat →
  ∃ vs', array_loop pv f acc (Some q) (qs ++ rest) None = Ok (Some (acc ++ vs'), rest, None) ∧
    map meaning vs' = map meaning vs.
Proof.
  induction 1 as [|v vs Hv Hvs IH]; intros f acc q qs rest HF Hf; (destruct f as [|f]; [cbn in Hf; lia|]); cbn [array_loop].
  - apply Forall2_cons in HF as [Hq ->%Forall2_nil_inv_r]. rewrite (is_token_op _ _ _ _ Hq). cbn.
    exists []. by rewrite app_nil_r.
  - cbn in HF. apply Forall2_cons in HF as [Hq HF]. rewrite !(is_token_op _ _ _ _ Hq). cbn.
    rewrite <- app_assoc in HF. apply Forall2_app_inv_r in HF as (q1 & q2 & F1 & F2 & ->). rewrite <- app_assoc.
    destruct (Hv q1 (q2 ++ rest) F1) as (v' & -> & Ev). cbn [rbind].
    destruct q2 as [|q' q2]; [apply Forall2_length in F2; rewrite length_app in F2; cbn in F2; lia|]. cbn [app qlist_pop].
    destruct (IH f (qlist_append_obj acc v') q' q2 rest F2) as (vs' & -> & Evs); [cbn in Hf; lia|].
    exists (v' :: vs'). unfold qlist_append_obj. rewrite <- app_assoc. cbn. by rewrite Ev, Evs.
Qed.

Lemma toks_head v : json_ok v →
  ∃ e ts, toks_of v = e :: ts ∧ is_op e.1 e.2 (ch "]") = false ∧ is_op e.1 e.2 (ch "}") = false.
Proof. intros Hok. inv Hok; try by eexists _, _. rewrite toks_of_dict. by eexists _, _. Qed.

Lemma parse_array_items l qs rest :
  Forall (λ v, json_ok v ∧ parses v (toks_of v)) l → Forall2 tokrel qs (toks_of (QList l)) →
  ∃ l', parse_array pv (qs ++ rest) None = Ok (Some (QList l'), rest, None) ∧ map meaning l' = map meaning l.
Proof.
  intros Hl HF. cbn [toks_of] in HF. destruct qs as [|q qs]; [by inv HF|].
  apply Forall2_cons in HF as [Hq HF]. unfold parse_array. rewrite qlist_copy_id. cbn [app qlist_pop].
  rewrite (is_token_op _ _ _ _ Hq). cbn [rbind op fst snd]. change (is_op JSON_OPERATOR [ch "["] (ch "[")) with true.
  cbn [negb]. destruct l as [|v l].
  { apply Forall2_cons_inv_r in HF as (q1 & q2 & Hq1 & ->%Forall2_nil_inv_r & ->). cbn [app qlist_peek head].
    rewrite (is_token_op _ _ _ _ Hq1). cbn. by exists []. }
  cbn [map] in HF. rewrite seps_cons, <- app_assoc in HF. apply Forall_cons in Hl as [[Hok Hv] Hl].
  apply Forall2_app_inv_r in HF as (q1 & q2 & F1 & F2 & ->). destruct (toks_head v Hok) as (e & ts & Et & Hn & _).
  destruct q1 as [|q1 qs1]; [rewrite Et in F1; by inv F1|]. rewrite <- app_assoc. cbn [app qlist_peek head].
  assert (tokrel q1 e) as Hq1 by (rewrite Et in F1; by inv F1).
  rewrite (is_token_op _ _ _ _ Hq1), Hn. cbn [rbind negb].
  destruct (Hv (q1 :: qs1) (q2 ++ rest) F1) as (v' & E & Ev). cbn [app] in E. rewrite E. cbn [rbind].
  destruct q2 as [|q2 qs2]; [apply Forall2_length in F2; rewrite length_app in F2; cbn in F2; lia|]. cbn [app qlist_pop].
  assert (length l ≤ length qs2)%nat as Hlen.
  { pose proof (items_length toks_of l). apply Forall2_length in F2. rewrite length_app in F2. cbn [length] in F2.
    change (map toks_of l) with (toks_of <$> l) in F2. lia. }
  destruct (array_loop_items l (Forall_impl _ _ _ Hl (λ v H, proj2 H)) (S (length (qs2 ++ rest)))
    (qlist_append_obj qlist_new v') q2 qs2 rest F2) as (vs' & -> & Evs); [rewrite length_app; lia|].
  cbn [rbind]. eexists. split; [done|]. cbn. by rewrite Ev, Evs.
Qed.

Definition entry_toks (e : qentry) : list tok := (JSON_STRING, string_text e.1) :: op ":" :: toks_of e.2.

Lemma parse_pair_item d (e : qentry) qs rest :
  parses (QStr e.1) [(JSON_STRING, string_text e.1)] → parses e.2 (toks_of e.2) → Forall2 tokrel qs (entry_toks e) →
  ∃ v', parse_pair pv d (qs ++ rest) None = Ok (qdict_put_obj d e.1 v', rest, None, true) ∧ meaning v' = meaning e.2.
Proof.
  intros Hk Hv HF. apply Forall2_cons_inv_r in HF as (q1 & qs1 & H1 & HF & ->).
  apply Forall2_cons_inv_r in HF as (q2 & qs2 & H2 & HF & ->). unfold parse_pair. rewrite qlist_copy_id.
  destruct (Hk [q1] ((q2 :: qs2) ++ rest)) as (k' & E & Ek); [by repeat constructor|]. cbn [app] in *. rewrite E. cbn [rbind].
  destruct k' as [| | | | |[]]; try done. injection Ek as ->. cbn [qlist_pop].
  rewrite (is_token_op _ _ _ _ H2). cbn [rbind op fst snd]. change (is_op JSON_OPERATOR [ch ":"] (ch ":")) with true.
  cbn [negb]. destruct (Hv qs2 rest HF) as (v' & -> & Ev). cbn [rbind]. by exists v'.
Qed.

Definition entry_ok (e : qentry) : Prop :=
  parses (QStr e.1) [(JSON_STRING, string_text e.1)] ∧ parses e.2 (toks_of e.2).

Lemma object_loop_items es :
  Forall entry_ok es → ∀ f d q qs rest,
  Forall2 tokrel (q :: qs) (mjoin ((λ y, [op ","] ++ y) <$> (entry_toks <$> es)) ++ [op "}"]) → (length es < f)%nat →
  ∃ es', object_loop pv f d (Some q) (qs ++ rest) None =
      Ok (Some (foldl (λ d (e : qentry), qdict_put_obj d e.1 e.2) d es'), rest, None) ∧
    Forall2 (λ e e' : qentry, e'.1 = e.1 ∧ meaning e'.2 = meaning e.2) es es'.
Proof.
  induction 1 as [|e es [Hk Hv] Hes IH]; intros f d q qs rest HF Hf; (destruct f as [|f]; [cbn in Hf; lia|]); cbn [object_loop].
  - apply Forall2_cons in HF as [Hq ->%Forall2_nil_inv_r]. rewrite (is_token_op _ _ _ _ Hq). cbn.
    exists []. by split; [|constructor].
  - cbn [fmap list_fmap mjoin list_join app] in HF. apply Forall2_cons in HF as [Hq HF]. rewrite !(is_token_op _ _ _ _ Hq). cbn.
    rewrite <- app_assoc in HF. apply Forall2_app_inv_r in HF as (q1 & q2 & F1 & F2 & ->). rewrite <- app_assoc.
    destruct (parse_pair_item d e q1 (q2 ++ rest) Hk Hv F1) as (v' & -> & Ev). cbn [rbind negb].
    destruct q2 as [|q' q2]; [apply Forall2_length in F2; rewrite length_app in F2; cbn in F2; lia|]. cbn [app qlist_pop].
    destruct (IH f (qdict_put_obj d e.1 v') q' q2 rest F2) as (es' & -> & Ees); [cbn in Hf; lia|].
    exists ((e.1, v') :: es'). split; [done|]. by constructor.
Qed.

Lemma parse_object_items d qs rest :
  dict_wf d → Forall entry_ok (dict_entries d) → Forall2 tokrel qs (toks_of (QDict d)) →
  ∃ d', parse_object pv (qs ++ rest) None = Ok (Some (QDict d'), rest, None) ∧ meaning (QDict d') = meaning (QDict d).
Proof.
  intros Hd Hes HF. rewrite toks_of_dict in HF. destruct qs as [|q qs]; [by inv HF|].
  apply Forall2_cons in HF as [Hq HF]. unfold parse_object. rewrite qlist_copy_id. cbn [app qlist_pop].
  rewrite (is_token_op _ _ _ _ Hq). cbn [rbind op fst snd]. change (is_op JSON_OPERATOR [ch "{"] (ch "{")) with true.
  cbn [negb]. pose proof (dict_keys_nodup d Hd) as Hnd.
  assert (∀ es', Forall2 (λ e e' : qentry, e'.1 = e.1 ∧ meaning e'.2 = meaning e.2) (dict_entries d) es' →
    meaning (QDict (foldl (λ d (e : qentry), qdict_put_obj d e.1 e.2) qdict_new es')) = meaning (QDict d)) as Hfin.
  { intros es' HE. apply (meaning_entries d _ es' HE). apply put_all_new.
    assert (es'.*1 = (dict_entries d).*1) as -> by (clear - HE; induction HE as [|? ? ? ? [? ?]]; cbn; congruence). done. }
  destruct (dict_entries d) as [|e es].
  { apply Forall2_cons_inv_r in HF as (q1 & q2 & Hq1 & ->%Forall2_nil_inv_r & ->). cbn [app qlist_peek head].
    rewrite (is_token_op _ _ _ _ Hq1). cbn [rbind op fst snd]. change (is_op JSON_OPERATOR [ch "}"] (ch "}")) with true.
    cbn [negb qlist_pop snd]. eexists. split; [done|]. apply (Hfin []). constructor. }
  cbn [map] in HF. rewrite seps_cons, <- app_assoc in HF. apply Forall_cons in Hes as [[Hk Hv] Hes].
  apply Forall2_app_inv_r in HF as (q1 & q2 & F1 & F2 & ->).
  destruct q1 as [|q1 qs1]; [by inv F1|]. rewrite <- app_assoc. cbn [app qlist_peek head].
  assert (tokrel q1 (JSON_STRING, string_text e.1)) as Hq1 by (by inv F1).
  rewrite (is_token_op _ _ _ _ Hq1). cbn [rbind fst snd is_op]. change (bool_decide (JSON_STRING = JSON_OPERATOR)) with false.
  cbn [andb negb]. change (q1 :: qs1 ++ q2 ++ rest) with ((q1 :: qs1) ++ (q2 ++ rest)).
  destruct (parse_pair_item qdict_new e (q1 :: qs1) (q2 ++ rest) Hk Hv F1) as (v' & -> & Ev). cbn [rbind negb].
  destruct q2 as [|q2 qs2]; [apply Forall2_length in F2; rewrite length_app in F2; cbn in F2; lia|]. cbn [app qlist_pop].
  assert (length es ≤ length qs2)%nat as Hlen.
  { pose proof (items_length entry_toks es). apply Forall2_length in F2. rewrite length_app in F2. cbn [length] in F2.
    change (map _ es) with (entry_toks <$> es) in F2. lia. }
  destruct (object_loop_items es Hes (S (length (qs2 ++ rest))) (qdict_put_obj qdict_new e.1 v') q2 qs2 rest F2)
    as (es' & -> & Ees); [rewrite length_app; lia|].
  cbn [rbind]. eexists. split; [done|]. apply (Hfin ((e.1, v') :: es')). by constructor.
Qed.

End parse.

(** ** Round trip *)

Lemma parse_object_other pv q toks ty t :
  is_token q ty t → is_op ty t (ch "{") = false → parse_object pv (q :: toks) None = Ok (None, q :: toks, None).
Proof. intros Hq Ho. unfold parse_object. rewrite qlist_copy_id. cbn [qlist_pop]. by rewrite (is_token_op _ _ _ _ Hq), Ho. Qed.

Lemma parse_array_other pv q toks ty t :
  is_token q ty t → is_op ty t (ch "[") = false → parse_array pv (q :: toks) None = Ok (None, q :: toks, None).
Proof. intros Hq Ho. unfold parse_array. rewrite qlist_copy_id. cbn [qlist_pop]. by rewrite (is_token_op _ _ _ _ Hq), Ho. Qed.

Lemma parse_keyword_other q toks ty t :
  is_token q ty t → ty ≠ JSON_KEYWORD → parse_keyword (q :: toks) None = Ok (None, q :: toks, None).
Proof.
  intros Hq Ht. unfold parse_keyword. rewrite qlist_copy_id. cbn [qlist_pop]. rewrite (is_token_type _ _ _ Hq). cbn [rbind].
  by rewrite token_code_inj, bool_decide_eq_false_2.
Qed.

Section roundtrip.
  Context (fmt_f : Z → cstring) (strtod : cstring → Z).

(** A literal goes through the first four rules. *)
Lemma parse_value_literal f q toks ty t :
  is_token q ty t → ty ≠ JSON_OPERATOR → ty ≠ JSON_KEYWORD →
  parse_value strtod (S f) (q :: toks) None = parse_literal strtod (q :: toks) None.
Proof.
  intros Hq H1 H2. assert (∀ c, is_op ty t c = false) as Ho.
  { intros c. unfold is_op. by rewrite bool_decide_eq_false_2. }
  cbn [parse_value]. rewrite (parse_object_other _ q toks ty t Hq (Ho _)). cbn [or_else rbind].
  rewrite (parse_array_other _ q toks ty t Hq (Ho _)). cbn [or_else rbind parse_escape].
  by rewrite (parse_keyword_other q toks ty t Hq H2).
Qed.

Lemma parses_int f v :
  LLONG_MIN ≤ v ≤ LLONG_MAX → parses (parse_value strtod (S f)) (QInt v) (toks_of (QInt v)).
Proof.
  intros Hv qs rest HF. cbn [toks_of] in HF. apply Forall2_cons_inv_r in HF as (q & qs' & Hq & ->%Forall2_nil_inv_r & ->).
  cbn [app]. rewrite (parse_value_literal f q rest _ _ Hq) by done. unfold parse_literal. rewrite qlist_copy_id. cbn [qlist_pop].
  rewrite (is_token_type _ _ _ Hq), (is_token_value _ _ _ Hq). cbn [rbind fst snd]. rewrite !token_code_inj. cbn [rbind].
  exists (QInt (strtoll (print_d v))). split; [done|]. by rewrite strtoll_print.
Qed.

Lemma parses_str f s :
  bmp_string s → parses (parse_value strtod (S f)) (QStr s) [(JSON_STRING, string_text s)].
Proof.
  intros (cps & Hcps & ->) qs rest HF. apply Forall2_cons_inv_r in HF as (q & qs' & Hq & ->%Forall2_nil_inv_r & ->).
  cbn [app]. rewrite (parse_value_literal f q rest _ _ Hq) by done. unfold parse_literal. rewrite qlist_copy_id. cbn [qlist_pop].
  rewrite (is_token_type _ _ _ Hq). cbn [rbind fst snd]. rewrite token_code_inj. cbn [bool_decide].
  unfold qstring_from_escaped_str. rewrite (is_token_value _ _ _ Hq). cbn [rbind fst snd].
  rewrite (string_text_bmp cps Hcps). change (dquote =? dquote) with true. rewrite (unescape_bmp cps [] Hcps).
  cbn [rbind]. by eexists.
Qed.

Lemma parses_bool f v :
  v = 0 ∨ v = 1 → parses (parse_value strtod (S f)) (QBool v) (toks_of (QBool v)).
Proof.
  intros Hv qs rest HF. cbn [toks_of] in HF. apply Forall2_cons_inv_r in HF as (q & qs' & Hq & ->%Forall2_nil_inv_r & ->).
  cbn [app parse_value]. rewrite (parse_object_other _ q rest _ _ Hq) by done. cbn [or_else rbind].
  rewrite (parse_array_other _ q rest _ _ Hq) by done. cbn [or_else rbind parse_escape].
  exists (QBool v). split; [|done]. unfold parse_keyword. rewrite qlist_copy_id. cbn [qlist_pop].
  rewrite (is_token_type _ _ _ Hq), !(is_token_keyword _ _ _ _ Hq). by destruct Hv as [-> | ->].
Qed.

Lemma elem_seps_length (l : list (list tok)) x : x ∈ l → (length x ≤ length (seps [op ","] l))%nat.
Proof.
  induction l as [|y [|z l] IH]; [by intros ?%not_elem_of_nil|set_solver|].
  change (seps [op ","] (y :: z :: l)) with (y ++ [op ","] ++ seps [op ","] (z :: l)). rewrite !length_app.
  intros [->|Hx]%elem_of_cons; [lia|]. specialize (IH Hx). cbn [length] in *. lia.
Qed.

Lemma toks_length_list l v : v ∈ l → (length (toks_of v) + 2 ≤ length (toks_of (QList l)))%nat.
Proof.
  intros Hv. cbn [toks_of length]. rewrite length_app. cbn [length].
  pose proof (elem_seps_length (map toks_of l) (toks_of v) (list_elem_of_fmap_2 toks_of l v Hv)). lia.
Qed.

Lemma toks_length_dict d e : e ∈ dict_entries d → (length (toks_of e.2) + 4 ≤ length (toks_of (QDict d)))%nat.
Proof.
  intros He. rewrite toks_of_dict. cbn [length]. rewrite length_app. cbn [length].
  pose proof (elem_seps_length _ _ (list_elem_of_fmap_2 entry_toks (dict_entries d) e He)) as Hs.
  change (map _ (dict_entries d)) with (entry_toks <$> dict_entries d). cbn [entry_toks length] in Hs. lia.
Qed.

(** The parser reads the tokens of an object. *)
Lemma parse_value_toks v f :
  json_ok v → (length (toks_of v) < f)%nat → parses (parse_value strtod f) v (toks_of v).
Proof.
  revert f. induction v as [v|ptr|v|v|l IH|d IH] using qobj_entries_ind; intros f Hok Hf;
    (destruct f as [|f]; [lia|]); inversion Hok as [? Hv|? Hs|? Hb|? Hl|? Hd Hes]; subst.
  - by apply parses_int.
  - by apply parses_str.
  - by apply parses_bool.
  - intros qs rest HF. destruct (parse_array_items (parse_value strtod f) l qs rest) as (l' & E & El); [|done|].
    { rewrite Forall_forall in *. intros v Hv. split; [auto|]. apply IH; auto. pose proof (toks_length_list l v Hv). lia. }
    exists (QList l'). split; [|cbn; by rewrite El]. cbn [parse_value].
    cbn [toks_of] in HF. apply Forall2_cons_inv_r in HF as (q & qs' & Hq & _ & ->). cbn [app] in *.
    rewrite (parse_object_other _ q _ _ _ Hq) by done. cbn [or_else rbind]. rewrite E. done.
  - intros qs rest HF. destruct (parse_object_items (parse_value strtod f) d qs rest) as (d' & E & Ed); [done| |done|].
    { rewrite Forall_forall in *. intros e He. destruct (Hes e He) as [Hk Hv]. pose proof (toks_length_dict d e He).
      split; [|apply IH; auto; lia]. destruct f as [|f]; [lia|]. by apply parses_str. }
    exists (QDict d'). split; [|done]. cbn [parse_value]. rewrite E. done.
Qed.

Lemma parse_toks v qs :
  json_ok v → Forall2 tokrel qs (toks_of v) →
  ∃ v', json_parser_parse strtod qs None = Ok (Some v', None) ∧ meaning v' = meaning v.
Proof.
  intros Hok HF. unfold json_parser_parse. rewrite qlist_copy_id.
  destruct (parse_value_toks v (S (length qs)) Hok) with (qs := qs) (rest := @nil qobj) as (v' & E & Ev).
  { rewrite (Forall2_length _ _ _ HF). lia. }
  { done. }
  rewrite app_nil_r in E. rewrite E. cbn. by exists v'.
Qed.

(** C24. Reading back what [qobject_to_json] prints for an object gives an
    object of the same value, for all objects made of 64-bit integers, strings
    of the characters U+0001 to U+FFFF, truth values, lists and dictionaries,
    whose text is shorter than 1 GiB. *)
Theorem json_roundtrip v :
  json_ok v → length (qobject_to_json fmt_f v) < 2 ^ 30 - 1 →
  ∃ v', qobject_from_json strtod (qobject_to_json fmt_f v) = Ok (Some v') ∧ meaning v' = meaning v.
Proof.
  intros Hok Hlen. unfold qobject_to_json in *. pose proof (toks_length fmt_f v Hok) as Htl.
  destruct (lexes_text fmt_f v Hok) as [_ (st & s & es & El & Ep & Hset)].
  set (P := λ p : JSONMessageParser * JSONParsingState, ∃ v', ps_result p.2 = Some v' ∧ meaning v' = meaning v).
  assert (wp (json_message_process_token (parse_json strtod)) (es ++ pending st s) P
    (json_message_parser_init, mkPS None None)) as Hwp.
  { rewrite Ep. apply stream_message; [by apply toks_one_message|lia|]. intros qs HF.
    destruct (parse_toks v qs Hok HF) as (v' & E & Ev). unfold parse_json. cbn [ps_ap]. rewrite E. cbn [rbind].
    eexists. split; [done|]. by exists v'. }
  apply wp_app in Hwp. unfold qobject_from_json, qobject_from_jsonv, json_message_parser_feed, json_message_parser_flush.
  destruct (feed_wp _ _ json_lexer_init _ _ _ _ _ El Hwp) as (l' & p' & -> & <- & <- & Hp). cbn [rbind].
  destruct (flush_wp _ l' p' P Hp) as (l'' & p'' & e & -> & v' & Er & Ev).
  { destruct Hset as [[-> _]|[->|[->| ->]]]; auto. }
  cbn [rbind]. rewrite Er. by exists v'.
Qed.

(** C25. Reading a text shorter than 1 GiB always returns, an object or
    nothing: whatever the bytes, the parser never takes a token that is not
    there, never fails an assertion, and never runs out of steps. *)
Theorem json_read_total s :
  length s < 2 ^ 30 - 2 → ∃ o, qobject_from_json strtod s = Ok o.
Proof. apply from_json_returns. Qed.

End roundtrip.

(** ** Witnesses *)

Definition sample : qobj :=
  QList [QInt (-7); QStr [0xC3; 0xA9; 34]; QDict (qdict_put_obj qdict_new [107] (QBool 1))].

Lemma sample_ok : json_ok sample.
Proof.
  apply ok_list. repeat apply Forall_cons_2; [..|apply Forall_nil_2].
  - apply ok_int. unfold LLONG_MIN, LLONG_MAX. lia.
  - apply ok_str. exists [0xE9; 34]. split; [repeat constructor; unfold is_bmp; lia|done].
  - apply ok_dict; [apply qdict_put_ok, dict_new_wf|].
    assert (dict_entries (qdict_put_obj qdict_new [107] (QBool 1)) = [([107], QBool 1)]) as -> by (vm_compute; done).
    apply Forall_singleton. split; [|apply ok_bool; by right]. exists [107]. split; [repeat constructor; unfold is_bmp; lia|done].
Qed.

Lemma json_roundtrip_witness :
  json_ok sample ∧
  ∃ v', qobject_from_json no_strtod (qobject_to_json no_float sample) = Ok (Some v') ∧ meaning v' = meaning sample.
Proof.
  split; [exact sample_ok|]. apply (json_roundtrip no_float no_strtod sample sample_ok).
  vm_compute. reflexivity.
Defined.

Lemma json_read_total_witness : ∃ o, qobject_from_json no_strtod (str "[1, }]]") = Ok o.
Proof. apply (json_read_total no_strtod (str "[1, }]]")). vm_compute. reflexivity. Defined.

(** ** Texts that are not read as they should *)

(** In a single-quoted string an escaped slash or backslash makes the lexer
    look for a double quote: '\/' is not read, "\/" is. *)
Example single_quote_escape :
  qobject_from_json no_strtod [39; 92; 47; 39] = Ok None ∧
  qobject_from_json no_strtod [34; 92; 47; 34] = Ok (Some (QStr [47])).
Proof. split; vm_compute; reflexivity. Qed.

(** A character outside the basic plane, of four bytes, is printed as two
    other characters. *)
Example four_byte_char :
  qobject_to_json no_float (QStr [0xF0; 0x9F; 0x98; 0x80]) = [34] ++ str "\u07D8\uFFFF" ++ [34].
Proof. vm_compute. reflexivity. Qed.

(** What follows a complete value does not matter. *)
Example garbage_accepted :
  qobject_from_json no_strtod (str "{} @") = Ok (Some (QDict qdict_new)) ∧
  qobject_from_json no_strtod (str "1 2") = Ok (Some (QInt 2)).
Proof. split; vm_compute; reflexivity. Qed.
