(* ===== verification/TcgData.v ===== *)
(** * TCG operations and the constraints of the host

    tcg/tcg.h, tcg/tcg-opc.h, the part of tcg/tcg.c that prepares the table of
    operations, and the tables of tcg/i386/tcg-target.c, for a host with 64-bit
    registers. *)

From Stdlib Require Import String Ascii.
From stdpp Require Import base list.
From S2P Require Import Prelude.
Local Open Scope Z_scope.
Local Coercion Z.of_nat : nat >-> Z.

(** ** The operations *)

Definition TCG_OPF_BB_END : Z := 0x01.
Definition TCG_OPF_CALL_CLOBBER : Z := 0x02.
Definition TCG_OPF_SIDE_EFFECTS : Z := 0x04.

Record TCGOpDef := DEF { name : string; nb_oargs : nat; nb_iargs : nat; nb_cargs : nat; op_flags : Z }.
Definition nb_args (d : TCGOpDef) : nat := nb_iargs d + nb_oargs d + nb_cargs d.

Definition tcg_op_defs : list TCGOpDef := (
  [
   DEF "patch" 0 0 1 0;
   DEF "goto_ibchain" 0 1 1 (TCG_OPF_BB_END .| TCG_OPF_SIDE_EFFECTS);
   DEF "cmp_ibchain" 0 0 0 0;
   DEF "end" 0 0 0 0;
   DEF "nop" 0 0 0 0;
   DEF "nop1" 0 0 1 0;
   DEF "nop2" 0 0 2 0;
   DEF "nop3" 0 0 3 0;
   DEF "nopn" 0 0 1 0;
   DEF "discard" 1 0 0 0;
   DEF "set_label" 0 0 1 0;
   DEF "call" 0 1 2 TCG_OPF_SIDE_EFFECTS;
   DEF "jmp" 0 1 0 (TCG_OPF_BB_END .| TCG_OPF_SIDE_EFFECTS);
   DEF "br" 0 0 1 (TCG_OPF_BB_END .| TCG_OPF_SIDE_EFFECTS);
   DEF "mov_i32" 1 1 0 0;
   DEF "movi_i32" 1 0 1 0;
   DEF "setcond_i32" 1 2 1 0;
   DEF "ld8u_i32" 1 1 1 0;
   DEF "ld8s_i32" 1 1 1 0;
   DEF "ld16u_i32" 1 1 1 0;
   DEF "ld16s_i32" 1 1 1 0;
   DEF "ld_i32" 1 1 1 0;
   DEF "st8_i32" 0 2 1 TCG_OPF_SIDE_EFFECTS;
   DEF "st16_i32" 0 2 1 TCG_OPF_SIDE_EFFECTS;
   DEF "st_i32" 0 2 1 TCG_OPF_SIDE_EFFECTS;
   DEF "add_i32" 1 2 0 0;
   DEF "sub_i32" 1 2 0 0;
   DEF "mul_i32" 1 2 0 0;
   DEF "div2_i32" 2 3 0 0;
   DEF "divu2_i32" 2 3 0 0;
   DEF "and_i32" 1 2 0 0;
   DEF "or_i32" 1 2 0 0;
   DEF "xor_i32" 1 2 0 0;
   DEF "shl_i32" 1 2 0 0;
   DEF "shr_i32" 1 2 0 0;
   DEF "sar_i32" 1 2 0 0;
   DEF "rotl_i32" 1 2 0 0;
   DEF "rotr_i32" 1 2 0 0;
   DEF "brcond_i32" 0 2 2 (TCG_OPF_BB_END .| TCG_OPF_SIDE_EFFECTS);
   DEF "ext8s_i32" 1 1 0 0;
   DEF "ext16s_i32" 1 1 0 0;
   DEF "ext8u_i32" 1 1 0 0;
   DEF "ext16u_i32" 1 1 0 0;
   DEF "bswap16_i32" 1 1 0 0;
   DEF "bswap32_i32" 1 1 0 0;
   DEF "not_i32" 1 1 0 0;
   DEF "neg_i32" 1 1 0 0;
   DEF "mov_i64" 1 1 0 0;
   DEF "movi_i64" 1 0 1 0;
   DEF "setcond_i64" 1 2 1 0;
   DEF "ld8u_i64" 1 1 1 0;
   DEF "ld8s_i64" 1 1 1 0;
   DEF "ld16u_i64" 1 1 1 0;
   DEF "ld16s_i64" 1 1 1 0;
   DEF "ld32u_i64" 1 1 1 0;
   DEF "ld32s_i64" 1 1 1 0;
   DEF "ld_i64" 1 1 1 0;
   DEF "st8_i64" 0 2 1 TCG_OPF_SIDE_EFFECTS;
   DEF "st16_i64" 0 2 1 TCG_OPF_SIDE_EFFECTS;
   DEF "st32_i64" 0 2 1 TCG_OPF_SIDE_EFFECTS;
   DEF "st_i64" 0 2 1 TCG_OPF_SIDE_EFFECTS;
   DEF "add_i64" 1 2 0 0;
   DEF "sub_i64" 1 2 0 0;
   DEF "mul_i64" 1 2 0 0;
   DEF "div2_i64" 2 3 0 0;
   DEF "divu2_i64" 2 3 0 0;
   DEF "and_i64" 1 2 0 0;
   DEF "or_i64" 1 2 0 0;
   DEF "xor_i64" 1 2 0 0;
   DEF "shl_i64" 1 2 0 0;
   DEF "shr_i64" 1 2 0 0;
   DEF "sar_i64" 1 2 0 0;
   DEF "rotl_i64" 1 2 0 0;
   DEF "rotr_i64" 1 2 0 0;
   DEF "brcond_i64" 0 2 2 (TCG_OPF_BB_END .| TCG_OPF_SIDE_EFFECTS);
   DEF "ext8s_i64" 1 1 0 0;
   DEF "ext16s_i64" 1 1 0 0;
   DEF "ext32s_i64" 1 1 0 0;
   DEF "ext8u_i64" 1 1 0 0;
   DEF "ext16u_i64" 1 1 0 0;
   DEF "ext32u_i64" 1 1 0 0;
   DEF "bswap16_i64" 1 1 0 0;
   DEF "bswap32_i64" 1 1 0 0;
   DEF "bswap64_i64" 1 1 0 0;
   DEF "not_i64" 1 1 0 0;
   DEF "neg_i64" 1 1 0 0;
   DEF "debug_insn_start" 0 0 1 0;
   DEF "exit_tb" 0 0 1 (TCG_OPF_BB_END .| TCG_OPF_SIDE_EFFECTS);
   DEF "goto_tb" 0 0 1 (TCG_OPF_BB_END .| TCG_OPF_SIDE_EFFECTS);
   DEF "qemu_ld8u" 1 1 1 (TCG_OPF_CALL_CLOBBER .| TCG_OPF_SIDE_EFFECTS);
   DEF "qemu_ld8s" 1 1 1 (TCG_OPF_CALL_CLOBBER .| TCG_OPF_SIDE_EFFECTS);
   DEF "qemu_ld16u" 1 1 1 (TCG_OPF_CALL_CLOBBER .| TCG_OPF_SIDE_EFFECTS);
   DEF "qemu_ld16s" 1 1 1 (TCG_OPF_CALL_CLOBBER .| TCG_OPF_SIDE_EFFECTS);
   DEF "qemu_ld32" 1 1 1 (TCG_OPF_CALL_CLOBBER .| TCG_OPF_SIDE_EFFECTS);
   DEF "qemu_ld32u" 1 1 1 (TCG_OPF_CALL_CLOBBER .| TCG_OPF_SIDE_EFFECTS);
   DEF "qemu_ld32s" 1 1 1 (TCG_OPF_CALL_CLOBBER .| TCG_OPF_SIDE_EFFECTS);
   DEF "qemu_ld64" 1 1 1 (TCG_OPF_CALL_CLOBBER .| TCG_OPF_SIDE_EFFECTS);
   DEF "qemu_st8" 0 2 1 (TCG_OPF_CALL_CLOBBER .| TCG_OPF_SIDE_EFFECTS);
   DEF "qemu_st16" 0 2 1 (TCG_OPF_CALL_CLOBBER .| TCG_OPF_SIDE_EFFECTS);
   DEF "qemu_st32" 0 2 1 (TCG_OPF_CALL_CLOBBER .| TCG_OPF_SIDE_EFFECTS);
   DEF "qemu_st64" 0 2 1 (TCG_OPF_CALL_CLOBBER .| TCG_OPF_SIDE_EFFECTS)])%string%nat.

(** An opcode is its position in the table. *)
Notation TCGOpcode := nat (only parsing).

Definition INDEX_op (n : string) : TCGOpcode :=
  match list_find (λ d, name d = n) tcg_op_defs with Some (i, _) => i | None => length tcg_op_defs end.

Definition INDEX_op_patch : TCGOpcode := Eval vm_compute in INDEX_op "patch".
Definition INDEX_op_goto_ibchain : TCGOpcode := Eval vm_compute in INDEX_op "goto_ibchain".
Definition INDEX_op_cmp_ibchain : TCGOpcode := Eval vm_compute in INDEX_op "cmp_ibchain".
Definition INDEX_op_end : TCGOpcode := Eval vm_compute in INDEX_op "end".
Definition INDEX_op_nop : TCGOpcode := Eval vm_compute in INDEX_op "nop".
Definition INDEX_op_nop1 : TCGOpcode := Eval vm_compute in INDEX_op "nop1".
Definition INDEX_op_nop2 : TCGOpcode := Eval vm_compute in INDEX_op "nop2".
Definition INDEX_op_nop3 : TCGOpcode := Eval vm_compute in INDEX_op "nop3".
Definition INDEX_op_nopn : TCGOpcode := Eval vm_compute in INDEX_op "nopn".
Definition INDEX_op_discard : TCGOpcode := Eval vm_compute in INDEX_op "discard".
Definition INDEX_op_set_label : TCGOpcode := Eval vm_compute in INDEX_op "set_label".
Definition INDEX_op_call : TCGOpcode := Eval vm_compute in INDEX_op "call".
Definition INDEX_op_mov_i32 : TCGOpcode := Eval vm_compute in INDEX_op "mov_i32".
Definition INDEX_op_movi_i32 : TCGOpcode := Eval vm_compute in INDEX_op "movi_i32".
Definition INDEX_op_mov_i64 : TCGOpcode := Eval vm_compute in INDEX_op "mov_i64".
Definition INDEX_op_movi_i64 : TCGOpcode := Eval vm_compute in INDEX_op "movi_i64".
Definition INDEX_op_debug_insn_start : TCGOpcode := Eval vm_compute in INDEX_op "debug_insn_start".
Definition NB_OPS : nat := Eval vm_compute in length tcg_op_defs.

Definition op_def (op : TCGOpcode) : TCGOpDef := default (DEF EmptyString 0 0 0 0) (tcg_op_defs !! op).

Definition has_flag (x f : Z) : bool := negb (x .& f =? 0).

(** ** Calls *)

Definition TCG_CALL_PURE : Z := 0x0010.
Definition TCG_CALL_CONST : Z := 0x0020.
Definition TCG_CALL_DUMMY_ARG : Z := 2 ^ 64 - 1.

(** ** Registers *)

Inductive TCGType := TCG_TYPE_I32 | TCG_TYPE_I64.
#[export] Instance TCGType_eq_dec : EqDecision TCGType.
Proof. solve_decision. Defined.

Definition TCG_TARGET_NB_REGS : nat := 16.
Definition TCG_REG_EAX : Z := 0.
Definition TCG_REG_ECX : Z := 1.
Definition TCG_REG_EDX : Z := 2.
Definition TCG_REG_EBX : Z := 3.
Definition TCG_REG_ESP : Z := 4.
Definition TCG_REG_EBP : Z := 5.
Definition TCG_REG_ESI : Z := 6.
Definition TCG_REG_EDI : Z := 7.
Definition TCG_REG_R8 : Z := 8.
Definition TCG_REG_R9 : Z := 9.
Definition TCG_REG_R10 : Z := 10.
Definition TCG_REG_R11 : Z := 11.
Definition TCG_REG_R12 : Z := 12.
Definition TCG_REG_R13 : Z := 13.
Definition TCG_REG_R14 : Z := 14.
Definition TCG_REG_R15 : Z := 15.

(** A set of registers is a mask of 32 bits. *)
Notation TCGRegSet := Z (only parsing).
Definition tcg_regset_test_reg (d : TCGRegSet) (r : Z) : bool := Z.testbit d r.
Definition tcg_regset_set_reg (d : TCGRegSet) (r : Z) : TCGRegSet := d .| (1 <<. r).
Definition tcg_regset_reset_reg (d : TCGRegSet) (r : Z) : TCGRegSet := d .& .~ (1 <<. r).
Definition tcg_regset_andnot (a b : TCGRegSet) : TCGRegSet := a .& .~ b.

Definition tcg_target_reg_alloc_order : list Z :=
  [TCG_REG_EBP; TCG_REG_EBX; TCG_REG_R12; TCG_REG_R13; TCG_REG_R14; TCG_REG_R15; TCG_REG_R10; TCG_REG_R11;
   TCG_REG_R9; TCG_REG_R8; TCG_REG_ECX; TCG_REG_EDX; TCG_REG_ESI; TCG_REG_EDI; TCG_REG_EAX].

Definition tcg_target_call_iarg_regs : list Z :=
  [TCG_REG_EDI; TCG_REG_ESI; TCG_REG_EDX; TCG_REG_ECX; TCG_REG_R8; TCG_REG_R9].
Definition tcg_target_call_oarg_regs : list Z := [TCG_REG_EAX; TCG_REG_EDX].
Definition tcg_target_get_call_iarg_regs_count (flags : Z) : nat := 6.

(** Set by [tcg_target_init]. *)
Definition tcg_target_available_regs (ty : TCGType) : TCGRegSet := 0xffff.
Definition tcg_target_call_clobber_regs : TCGRegSet :=
  foldl tcg_regset_set_reg 0
    [TCG_REG_EAX; TCG_REG_EDX; TCG_REG_ECX; TCG_REG_EDI; TCG_REG_ESI; TCG_REG_R8; TCG_REG_R9; TCG_REG_R10; TCG_REG_R11].
Definition target_reserved_regs : TCGRegSet := tcg_regset_set_reg 0 TCG_REG_ESP.

(** ** Constraints *)

Definition TCG_CT_ALIAS : Z := 0x80.
Definition TCG_CT_IALIAS : Z := 0x40.
Definition TCG_CT_REG : Z := 0x01.
Definition TCG_CT_CONST : Z := 0x02.
Definition TCG_CT_CONST_S32 : Z := 0x100.
Definition TCG_CT_CONST_U32 : Z := 0x200.

Record TCGArgConstraint := mkCT { ct : Z; alias_index : nat; ct_regs : TCGRegSet }.

Definition ascii_eq (a b : ascii) : bool := Ascii.eqb a b.

(** One letter of a constraint; [None] is an error. *)
Definition target_parse_constraint (c : TCGArgConstraint) (letter : ascii) : option TCGArgConstraint :=
  let reg r := Some (mkCT (ct c .| TCG_CT_REG) (alias_index c) (tcg_regset_set_reg (ct_regs c) r)) in
  let all := ct_regs c .| 0xffff in
  (if ascii_eq letter "a" then reg TCG_REG_EAX
   else if ascii_eq letter "b" then reg TCG_REG_EBX
   else if ascii_eq letter "c" then reg TCG_REG_ECX
   else if ascii_eq letter "d" then reg TCG_REG_EDX
   else if ascii_eq letter "S" then reg TCG_REG_ESI
   else if ascii_eq letter "D" then reg TCG_REG_EDI
   else if ascii_eq letter "q" then Some (mkCT (ct c .| TCG_CT_REG) (alias_index c) all)
   else if ascii_eq letter "r" then Some (mkCT (ct c .| TCG_CT_REG) (alias_index c) all)
   else if ascii_eq letter "L" then
     Some (mkCT (ct c .| TCG_CT_REG) (alias_index c)
       (tcg_regset_reset_reg (tcg_regset_reset_reg all TCG_REG_ESI) TCG_REG_EDI))
   else if ascii_eq letter "e" then Some (mkCT (ct c .| TCG_CT_CONST_S32) (alias_index c) (ct_regs c))
   else if ascii_eq letter "Z" then Some (mkCT (ct c .| TCG_CT_CONST_U32) (alias_index c) (ct_regs c))
   else None)%char.

Definition tcg_target_const_match (val : Z) (c : TCGArgConstraint) : bool :=
  if has_flag (ct c) TCG_CT_CONST then true
  else if has_flag (ct c) TCG_CT_CONST_S32 && (sext 64 val =? sext 32 val) then true
  else has_flag (ct c) TCG_CT_CONST_U32 && (sext 64 val =? u32 val).

(** The table with its constraints.  [used] is kept in debugging builds. *)
Record TCGOpInfo := mkInfo { args_ct : list TCGArgConstraint; sorted_args : list nat; used : bool }.

Definition context_init_info (d : TCGOpDef) : TCGOpInfo :=
  let n := (nb_iargs d + nb_oargs d)%nat in mkInfo (replicate n (mkCT 0 0 0)) (replicate n 0%nat) false.

Definition get_ct (l : list TCGArgConstraint) (k : nat) : TCGArgConstraint := default (mkCT 0 0 0) (l !! k).

Definition get_constraint_priority (cts : list TCGArgConstraint) (k : nat) : Z :=
  let c := get_ct cts k in
  if has_flag (ct c) TCG_CT_ALIAS then TCG_TARGET_NB_REGS - 1 + 1
  else if negb (has_flag (ct c) TCG_CT_REG) then 0
  else
    let n := length (filter (λ r : Z, tcg_regset_test_reg (ct_regs c) r = true) (seqZ 0 TCG_TARGET_NB_REGS)) in
    TCG_TARGET_NB_REGS - n + 1.

(** The inner step of the sort. *)
Definition sort_swap (cts : list TCGArgConstraint) (start : nat) (sorted : list nat) (ij : nat * nat) : list nat :=
  let a := default 0%nat (sorted !! (start + ij.1)%nat) in
  let b := default 0%nat (sorted !! (start + ij.2)%nat) in
  if get_constraint_priority cts a <? get_constraint_priority cts b
  then <[(start + ij.2)%nat := a]> (<[(start + ij.1)%nat := b]> sorted) else sorted.

Definition sort_constraints (cts : list TCGArgConstraint) (start n : nat) (sorted : list nat) : list nat :=
  let sorted := foldl (λ l i, <[(start + i)%nat := (start + i)%nat]> l) sorted (seq 0 n) in
  if (n <=? 1)%nat then sorted
  else foldl (sort_swap cts start) sorted
    (i ← seq 0 (n - 1); j ← seq (i + 1) (n - (i + 1)); [(i, j)]).

(** The letters of a constraint that is not an alias. *)
Fixpoint parse_letters (c : TCGArgConstraint) (s : string) : result TCGArgConstraint :=
  match s with
  | EmptyString => Ok c
  | String l s' =>
      if ascii_eq l "i"%char then parse_letters (mkCT (ct c .| TCG_CT_CONST) (alias_index c) (ct_regs c)) s'
      else match target_parse_constraint c l with Some c => parse_letters c s' | None => Er EExit end
  end.

(** The constraint of argument [i]. *)
Definition parse_arg_ct (d : TCGOpDef) (cts : list TCGArgConstraint) (i : nat) (s : string)
    : result (list TCGArgConstraint) :=
  match s with
  | String l _ =>
      let code := nat_of_ascii l in
      if (48 <=? code)%nat && (code <=? 57)%nat then
        let oarg := (code - 48)%nat in
        _ <- assert_ (oarg <? nb_oargs d)%nat ;;
        let co := get_ct cts oarg in
        _ <- assert_ (has_flag (ct co) TCG_CT_REG) ;;
        let ci := mkCT (ct co .| TCG_CT_IALIAS) oarg (ct_regs co) in
        Ok (<[i := ci]> (<[oarg := mkCT TCG_CT_ALIAS i (ct_regs co)]> cts))
      else c <- parse_letters (mkCT 0 0 0) s ;; Ok (<[i := c]> cts)
  | EmptyString => Ok (<[i := mkCT 0 0 0]> cts)
  end.

Fixpoint parse_args_ct (d : TCGOpDef) (cts : list TCGArgConstraint) (is_ : list nat) (strs : list string)
    : result (list TCGArgConstraint) :=
  match is_ with
  | [] => _ <- assert_ (bool_decide (strs = [])) ;; Ok cts
  | i :: is_ =>
      match strs with
      | [] => Er EAbort
      | s :: strs => cts <- parse_arg_ct d cts i s ;; parse_args_ct d cts is_ strs
      end
  end.

(** One entry of the table of the host. *)
Definition add_target_op_def (debug : bool) (infos : list TCGOpInfo) (t : string * list string)
    : result (list TCGOpInfo) :=
  let op := INDEX_op t.1 in
  _ <- assert_ (op <? NB_OPS)%nat ;;
  let d := op_def op in
  info <- deref (infos !! op) ;;
  _ <- assert_ (negb (debug && used info)) ;;
  cts <- parse_args_ct d (args_ct info) (seq 0 (nb_iargs d + nb_oargs d)) t.2 ;;
  let sorted := sort_constraints cts 0 (nb_oargs d) (sorted_args info) in
  let sorted := sort_constraints cts (nb_oargs d) (nb_iargs d) sorted in
  Ok (<[op := mkInfo cts sorted true]> infos).

Fixpoint add_target_op_defs (debug : bool) (infos : list TCGOpInfo) (tdefs : list (string * list string))
    : result (list TCGOpInfo) :=
  match tdefs with
  | [] => Ok infos
  | t :: tdefs => infos <- add_target_op_def debug infos t ;; add_target_op_defs debug infos tdefs
  end.

(** The check of the debugging build at the end: the operations wrongly used
    or not used. *)
Definition debug_tcg_invalid (infos : list TCGOpInfo) (op : TCGOpcode) : bool :=
  let u := match infos !! op with Some i => used i | None => false end in
  if (op <? INDEX_op_call)%nat || (op =? INDEX_op_debug_insn_start)%nat then u else negb u.

Definition debug_tcg_check (infos : list TCGOpInfo) : result unit :=
  assert_ (bool_decide (filter (λ op, debug_tcg_invalid infos op = true) (seq 0 NB_OPS) = [])).

Definition tcg_add_target_add_op_defs (debug : bool) (tdefs : list (string * list string)) : result (list TCGOpInfo) :=
  infos <- add_target_op_defs debug (context_init_info <$> tcg_op_defs) tdefs ;;
  _ <- (if debug then debug_tcg_check infos else Ok tt) ;;
  Ok infos.

Definition x86_op_defs : list (string * list string) := (
  [
   ("exit_tb", []);
   ("goto_tb", []);
   ("goto_ibchain", ["r"]);
   ("cmp_ibchain", []);
   ("call", ["ri"]);
   ("jmp", ["ri"]);
   ("patch", []);
   ("br", []);
   ("mov_i32", ["r"; "r"]);
   ("movi_i32", ["r"]);
   ("ld8u_i32", ["r"; "r"]);
   ("ld8s_i32", ["r"; "r"]);
   ("ld16u_i32", ["r"; "r"]);
   ("ld16s_i32", ["r"; "r"]);
   ("ld_i32", ["r"; "r"]);
   ("st8_i32", ["q"; "r"]);
   ("st16_i32", ["r"; "r"]);
   ("st_i32", ["r"; "r"]);
   ("add_i32", ["r"; "r"; "ri"]);
   ("sub_i32", ["r"; "0"; "ri"]);
   ("mul_i32", ["r"; "0"; "ri"]);
   ("div2_i32", ["a"; "d"; "0"; "1"; "r"]);
   ("divu2_i32", ["a"; "d"; "0"; "1"; "r"]);
   ("and_i32", ["r"; "0"; "ri"]);
   ("or_i32", ["r"; "0"; "ri"]);
   ("xor_i32", ["r"; "0"; "ri"]);
   ("shl_i32", ["r"; "0"; "ci"]);
   ("shr_i32", ["r"; "0"; "ci"]);
   ("sar_i32", ["r"; "0"; "ci"]);
   ("rotl_i32", ["r"; "0"; "ci"]);
   ("rotr_i32", ["r"; "0"; "ci"]);
   ("brcond_i32", ["r"; "ri"]);
   ("bswap16_i32", ["r"; "0"]);
   ("bswap32_i32", ["r"; "0"]);
   ("neg_i32", ["r"; "0"]);
   ("not_i32", ["r"; "0"]);
   ("ext8s_i32", ["r"; "q"]);
   ("ext16s_i32", ["r"; "r"]);
   ("ext8u_i32", ["r"; "q"]);
   ("ext16u_i32", ["r"; "r"]);
   ("setcond_i32", ["q"; "r"; "ri"]);
   ("mov_i64", ["r"; "r"]);
   ("movi_i64", ["r"]);
   ("ld8u_i64", ["r"; "r"]);
   ("ld8s_i64", ["r"; "r"]);
   ("ld16u_i64", ["r"; "r"]);
   ("ld16s_i64", ["r"; "r"]);
   ("ld32u_i64", ["r"; "r"]);
   ("ld32s_i64", ["r"; "r"]);
   ("ld_i64", ["r"; "r"]);
   ("st8_i64", ["r"; "r"]);
   ("st16_i64", ["r"; "r"]);
   ("st32_i64", ["r"; "r"]);
   ("st_i64", ["r"; "r"]);
   ("add_i64", ["r"; "0"; "re"]);
   ("mul_i64", ["r"; "0"; "re"]);
   ("div2_i64", ["a"; "d"; "0"; "1"; "r"]);
   ("divu2_i64", ["a"; "d"; "0"; "1"; "r"]);
   ("sub_i64", ["r"; "0"; "re"]);
   ("and_i64", ["r"; "0"; "reZ"]);
   ("or_i64", ["r"; "0"; "re"]);
   ("xor_i64", ["r"; "0"; "re"]);
   ("shl_i64", ["r"; "0"; "ci"]);
   ("shr_i64", ["r"; "0"; "ci"]);
   ("sar_i64", ["r"; "0"; "ci"]);
   ("rotl_i64", ["r"; "0"; "ci"]);
   ("rotr_i64", ["r"; "0"; "ci"]);
   ("brcond_i64", ["r"; "re"]);
   ("setcond_i64", ["r"; "r"; "re"]);
   ("bswap16_i64", ["r"; "0"]);
   ("bswap32_i64", ["r"; "0"]);
   ("bswap64_i64", ["r"; "0"]);
   ("neg_i64", ["r"; "0"]);
   ("not_i64", ["r"; "0"]);
   ("ext8s_i64", ["r"; "r"]);
   ("ext16s_i64", ["r"; "r"]);
   ("ext32s_i64", ["r"; "r"]);
   ("ext8u_i64", ["r"; "r"]);
   ("ext16u_i64", ["r"; "r"]);
   ("ext32u_i64", ["r"; "r"]);
   ("qemu_ld8u", ["r"; "L"]);
   ("qemu_ld8s", ["r"; "L"]);
   ("qemu_ld16u", ["r"; "L"]);
   ("qemu_ld16s", ["r"; "L"]);
   ("qemu_ld32", ["r"; "L"]);
   ("qemu_ld32u", ["r"; "L"]);
   ("qemu_ld32s", ["r"; "L"]);
   ("qemu_ld64", ["r"; "L"]);
   ("qemu_st8", ["L"; "L"]);
   ("qemu_st16", ["L"; "L"]);
   ("qemu_st32", ["L"; "L"]);
   ("qemu_st64", ["L"; "L"])])%string.

(** The table of a release build on this host. *)
Definition x86_infos : list TCGOpInfo :=
  Eval vm_compute in match tcg_add_target_add_op_defs false x86_op_defs with Ok l => l | Er _ => [] end.

Definition op_info (op : TCGOpcode) : TCGOpInfo := default (mkInfo [] [] false) (x86_infos !! op).

(** ** Facts on the tables *)

Lemma x86_infos_ok : tcg_add_target_add_op_defs false x86_op_defs = Ok x86_infos.
Proof. vm_compute. reflexivity. Qed.

(** A debugging build stops at its own check: three operations of the table
    come before the predefined ones. *)
Lemma debug_check_fails :
  tcg_add_target_add_op_defs true x86_op_defs = Er EAbort ∧
  filter (λ op, debug_tcg_invalid x86_infos op = true) (seq 0 NB_OPS) = [INDEX_op_patch; INDEX_op_goto_ibchain; INDEX_op_cmp_ibchain] ∧
  INDEX_op_end = 3%nat.
Proof. split_and!; vm_compute; reflexivity. Qed.
