(* ===== verification/TcgLive.v ===== *)
(** * TCG liveness analysis

    [tcg_liveness_analysis] of tcg/tcg.c on the buffers of operations and
    parameters, and what it computes on a list of operations. *)

From stdpp Require Import base gmap list.
From S2P Require Import Prelude TcgData.
Local Open Scope Z_scope.
Local Coercion Z.of_nat : nat >-> Z.

(** ** The analysis on the buffers *)

(** Access to an array by a C index. *)
Definition aref {A} (l : list A) (i : Z) : result A :=
  if i <? 0 then Er EFault else deref (l !! Z.to_nat i).
Definition aset {A} (l : list A) (i : Z) (x : A) : result (list A) :=
  _ <- aref l i ;; Ok (<[Z.to_nat i := x]> l).

(** [args] as an int. *)
Definition arg_int (a : Z) : Z := sext 32 a.

(** The [n] parameters from position [a]. *)
Definition params (par : list Z) (a n : Z) : result (list Z) :=
  if (a <? 0) || (n <? 0) || (length par <? a + n) then Er EFault
  else Ok (take (Z.to_nat n) (drop (Z.to_nat a) par)).

Record la_state := mkLA { la_opc : list TCGOpcode; la_par : list Z; la_iargs : gmap nat Z; la_dead : list bool }.

Definition tcg_set_nop (s : la_state) (op_index : nat) (a n : Z) : result la_state :=
  if n =? 0 then Ok (mkLA (<[op_index := INDEX_op_nop]> (la_opc s)) (la_par s) (la_iargs s) (la_dead s))
  else
    par <- aset (la_par s) a n ;;
    par <- aset par (a + (n - 1)) n ;;
    Ok (mkLA (<[op_index := INDEX_op_nopn]> (la_opc s)) par (la_iargs s) (la_dead s)).

Section analysis.
  Context (nb_globals : nat) (temp_local : list bool).

(** End of a basic block: globals and local temporaries are live. *)
Definition tcg_la_bb_end (dead : list bool) : list bool :=
  imap (λ i _, if (i <? nb_globals)%nat then false else negb (default false (temp_local !! i))) dead.

(** Globals are live. *)
Definition la_globals_live (dead : list bool) : list bool :=
  imap (λ i b, if (i <? nb_globals)%nat then false else b) dead.

(** Whether all outputs are dead. *)
Fixpoint all_dead (dead : list bool) (oargs : list Z) : result bool :=
  match oargs with
  | [] => Ok true
  | a :: oargs =>
      d <- aref dead (arg_int a) ;;
      if d then all_dead dead oargs else Ok false
  end.

Fixpoint oargs_dead (dead : list bool) (oargs : list Z) : result (list bool) :=
  match oargs with
  | [] => Ok dead
  | a :: oargs => dead <- aset dead (arg_int a) true ;; oargs_dead dead oargs
  end.

(** The mask of dead inputs; [dummy] when an input may be missing. *)
Fixpoint iargs_live (dummy : bool) (dead : list bool) (i : Z) (iargs : list Z) (dead_iargs : Z)
    : result (list bool * Z) :=
  match iargs with
  | [] => Ok (dead, dead_iargs)
  | a :: iargs =>
      let arg := arg_int a in
      if dummy && (u64 arg =? TCG_CALL_DUMMY_ARG) then iargs_live dummy dead (i + 1) iargs dead_iargs
      else
        d <- aref dead arg ;;
        let dead_iargs := if d : bool then dead_iargs .| (1 <<. i) else dead_iargs in
        dead <- aset dead arg false ;;
        iargs_live dummy dead (i + 1) iargs dead_iargs
  end.

(** [do_not_remove]: the sets of temporaries before the operation. *)
Definition la_keep (s : la_state) (op_index : nat) (dummy : bool) (oargs iargs : list Z)
    (clobber : list bool → list bool) : result la_state :=
  dead <- oargs_dead (la_dead s) oargs ;;
  '(dead, dead_iargs) <- iargs_live dummy (clobber dead) 0 iargs 0 ;;
  Ok (mkLA (la_opc s) (la_par s) (<[op_index := u16 dead_iargs]> (la_iargs s)) dead).

Definition la_with_dead (s : la_state) (dead : list bool) : la_state :=
  mkLA (la_opc s) (la_par s) (la_iargs s) dead.

Definition la_call (s : la_state) (op_index : nat) (a : Z) : result (la_state * Z) :=
  nb_args <- aref (la_par s) (a - 1) ;;
  let nb_args := arg_int nb_args in
  let a := a - nb_args in
  head <- aref (la_par s) a ;;
  let nb_iargs := arg_int (head .& 0xffff) in
  let nb_oargs := arg_int (head >>. 16) in
  call_flags <- aref (la_par s) (a + 1 + nb_oargs + nb_iargs) ;;
  oargs <- params (la_par s) (a + 1) nb_oargs ;;
  iargs <- params (la_par s) (a + 1 + nb_oargs) nb_iargs ;;
  remove <- (if has_flag call_flags TCG_CALL_PURE then all_dead (la_dead s) oargs else Ok false) ;;
  s <- (if remove : bool then tcg_set_nop s op_index a nb_args
        else la_keep s op_index true oargs iargs
               (if has_flag call_flags TCG_CALL_CONST then id else la_globals_live)) ;;
  Ok (s, a).

Definition la_default (s : la_state) (op_index : nat) (d : TCGOpDef) (a : Z) : result (la_state * Z) :=
  let a := a - nb_args d in
  oargs <- params (la_par s) a (nb_oargs d) ;;
  iargs <- params (la_par s) (a + nb_oargs d) (nb_iargs d) ;;
  remove <- (if negb (has_flag (op_flags d) TCG_OPF_SIDE_EFFECTS) && negb (nb_oargs d =? 0)
             then all_dead (la_dead s) oargs else Ok false) ;;
  s <- (if remove : bool then tcg_set_nop s op_index a (nb_args d)
        else la_keep s op_index false oargs iargs
               (if has_flag (op_flags d) TCG_OPF_BB_END then tcg_la_bb_end
                else if has_flag (op_flags d) TCG_OPF_CALL_CLOBBER then la_globals_live else id)) ;;
  Ok (s, a).

(** One operation, given the position after its parameters. *)
Definition la_op (s : la_state) (op_index : nat) (a : Z) : result (la_state * Z) :=
  op <- deref (la_opc s !! op_index) ;;
  if (op =? INDEX_op_call)%nat then la_call s op_index a
  else if (op =? INDEX_op_set_label)%nat then Ok (la_with_dead s (tcg_la_bb_end (la_dead s)), a - 1)
  else if (op =? INDEX_op_debug_insn_start)%nat then Ok (s, a - nb_args (op_def op))
  else if (op =? INDEX_op_nopn)%nat then
    n <- aref (la_par s) (a - 1) ;; Ok (s, a - arg_int n)
  else if (op =? INDEX_op_discard)%nat then
    t <- aref (la_par s) (a - 1) ;;
    dead <- aset (la_dead s) t true ;;
    Ok (la_with_dead s dead, a - 1)
  else if (op =? INDEX_op_end)%nat then Ok (s, a)
  else la_default s op_index (op_def op) a.

(** The operations before [op_index], from the last to the first. *)
Fixpoint la_loop (op_index : nat) (s : la_state) (a : Z) : result (la_state * Z) :=
  match op_index with
  | O => Ok (s, a)
  | S i => '(s, a) <- la_op s i a ;; la_loop i s a
  end.

(** [gen_opc_buf] with the final end, and [gen_opparam_buf]. *)
Definition tcg_liveness_analysis (gen_opc_buf : list TCGOpcode) (gen_opparam_buf : list Z)
    : result (list TCGOpcode * list Z * gmap nat Z) :=
  let s := mkLA gen_opc_buf gen_opparam_buf ∅ (replicate (length temp_local) true) in
  '(s, a) <- la_loop (length gen_opc_buf) s (length gen_opparam_buf) ;;
  if a =? 0 then Ok (la_opc s, la_par s, la_iargs s) else Er EAbort.

(** ** The analysis on a list of operations

    An intermediate form: the same steps on operations instead of buffers. *)

Inductive tcgop :=
  | TOp (op : TCGOpcode) (oargs iargs cargs : list Z)
  | TCall (oargs iargs : list Z) (flags : Z)
  | TNopn (l : list Z).

Definition op_opc (o : tcgop) : TCGOpcode :=
  match o with TOp op _ _ _ => op | TCall _ _ _ => INDEX_op_call | TNopn _ => INDEX_op_nopn end.

(** The parameters, as the functions of tcg-op.h and [tcg_gen_callN] write them. *)
Definition op_params (o : tcgop) : list Z :=
  match o with
  | TOp _ oargs iargs cargs => oargs ++ iargs ++ cargs
  | TCall oargs iargs flags =>
      (((length oargs : Z) <<. 16) .| length iargs) :: oargs ++ iargs ++ [flags; length oargs + length iargs + 3]
  | TNopn l => l
  end.

Definition temp_arg (a : Z) : Prop := 0 ≤ a < length temp_local.
Definition call_arg (a : Z) : Prop := temp_arg a ∨ a = TCG_CALL_DUMMY_ARG.

Definition wf_op (o : tcgop) : Prop :=
  match o with
  | TOp op oargs iargs cargs =>
      (op < NB_OPS)%nat ∧ op ≠ INDEX_op_call ∧ op ≠ INDEX_op_nopn ∧ op ≠ INDEX_op_end ∧
      length oargs = nb_oargs (op_def op) ∧ length iargs = nb_iargs (op_def op) ∧ length cargs = nb_cargs (op_def op) ∧
      Forall temp_arg oargs ∧ Forall temp_arg iargs
  | TCall oargs iargs flags =>
      length oargs < 2 ^ 15 ∧ length iargs < 2 ^ 16 ∧ Forall temp_arg oargs ∧ Forall call_arg iargs
  | TNopn l => length l < 2 ^ 31 ∧ head l = Some (length l : Z) ∧ last l = Some (length l : Z)
  end.

(** The sets of temporaries are lists of booleans of the number of temporaries. *)
Definition is_dead (dead : list bool) (a : Z) : bool := default false (dead !! Z.to_nat a).
Definition kill (dead : list bool) (oargs : list Z) : list bool :=
  foldl (λ d a, <[Z.to_nat a := true]> d) dead oargs.

Fixpoint use (dead : list bool) (i : Z) (iargs : list Z) (mask : Z) : list bool * Z :=
  match iargs with
  | [] => (dead, mask)
  | a :: iargs =>
      if a =? TCG_CALL_DUMMY_ARG then use dead (i + 1) iargs mask
      else use (<[Z.to_nat a := false]> dead) (i + 1) iargs (if is_dead dead a then mask .| (1 <<. i) else mask)
  end.

Definition keep (dead : list bool) (oargs iargs : list Z) (clobber : list bool → list bool) : list bool * Z :=
  use (clobber (kill dead oargs)) 0 iargs 0.

Definition op_clobber (op : TCGOpcode) : list bool → list bool :=
  if has_flag (op_flags (op_def op)) TCG_OPF_BB_END then tcg_la_bb_end
  else if has_flag (op_flags (op_def op)) TCG_OPF_CALL_CLOBBER then la_globals_live else id.

Definition call_clobber (flags : Z) : list bool → list bool :=
  if has_flag flags TCG_CALL_CONST then id else la_globals_live.

(** Whether an operation may be removed when its outputs are dead. *)
Definition removable (o : tcgop) : bool :=
  match o with
  | TOp op _ _ _ => negb (has_flag (op_flags (op_def op)) TCG_OPF_SIDE_EFFECTS) && negb (nb_oargs (op_def op) =? 0)%nat
  | TCall _ _ flags => has_flag flags TCG_CALL_PURE
  | TNopn _ => false
  end.

Definition op_oargs (o : tcgop) : list Z :=
  match o with TOp _ oargs _ _ => oargs | TCall oargs _ _ => oargs | TNopn _ => [] end.

(** What is left of a removed operation. *)
Definition removed (o : tcgop) : tcgop :=
  let l := op_params o in
  match length l with
  | O => TOp INDEX_op_nop [] [] []
  | S n => TNopn (<[n := length l : Z]> (<[0%nat := length l : Z]> l))
  end.

(** The operation after the analysis, its mask of dead inputs, and the dead
    temporaries before it. *)
Definition live1 (o : tcgop) (dead : list bool) : tcgop * option Z * list bool :=
  match o with
  | TNopn _ => (o, None, dead)
  | TOp op oargs iargs cargs =>
      if (op =? INDEX_op_set_label)%nat then (o, None, tcg_la_bb_end dead)
      else if (op =? INDEX_op_debug_insn_start)%nat then (o, None, dead)
      else if (op =? INDEX_op_discard)%nat then (o, None, kill dead oargs)
      else if removable o && forallb (is_dead dead) oargs then (removed o, None, dead)
      else let '(dead, mask) := keep dead oargs iargs (op_clobber op) in (o, Some (u16 mask), dead)
  | TCall oargs iargs flags =>
      if removable o && forallb (is_dead dead) oargs then (removed o, None, dead)
      else let '(dead, mask) := keep dead oargs iargs (call_clobber flags) in (o, Some (u16 mask), dead)
  end.

Fixpoint live (ops : list tcgop) (dead : list bool) : list (tcgop * option Z) * list bool :=
  match ops with
  | [] => ([], dead)
  | o :: ops =>
      let '(ops, dead) := live ops dead in
      let '(o, mask, dead) := live1 o dead in
      ((o, mask) :: ops, dead)
  end.

End analysis.
