(* ===== verification/TcgLiveInv.v ===== *)
(** * The liveness analysis computes what it says

    On the buffers of a well-formed list of operations [tcg_liveness_analysis]
    returns, keeps the layout of the parameters, and agrees with the analysis
    of the list. *)

From stdpp Require Import base gmap list.
From S2P Require Import Prelude TcgData TcgLive.
Local Open Scope Z_scope.
Local Coercion Z.of_nat : nat >-> Z.

(** ** Arrays *)

Lemma aref_nat {A} (l : list A) (i : nat) x : l !! i = Some x → aref l i = Ok x.
Proof. intros H. unfold aref. destruct (Z.ltb_spec i 0); [lia|]. by rewrite Nat2Z.id, H. Qed.

Lemma aref_at {A} (l : list A) (z : Z) (i : nat) x : z = i → l !! i = Some x → aref l z = Ok x.
Proof. intros ->. apply aref_nat. Qed.

Lemma aset_nat {A} (l : list A) (i : nat) x : (i < length l)%nat → aset l i x = Ok (<[i := x]> l).
Proof.
  intros [y H]%lookup_lt_is_Some_2. unfold aset. rewrite (aref_nat l i y H). cbn. by rewrite Nat2Z.id.
Qed.

Lemma params_mid par pre l post (a n : Z) :
  par = pre ++ l ++ post → a = length pre → n = length l → params par a n = Ok l.
Proof.
  intros -> -> ->. unfold params. rewrite !length_app.
  destruct (Z.ltb_spec (length pre) 0); [lia|]. destruct (Z.ltb_spec (length l) 0); [lia|].
  destruct (Z.ltb_spec (length pre + (length l + length post))%nat (length pre + length l)); [lia|]. cbn [orb].
  rewrite !Nat2Z.id, drop_app_length, take_app_length. done.
Qed.

Lemma lookup_mid {A} (pre : list A) x post : (pre ++ x :: post) !! length pre = Some x.
Proof. by apply list_lookup_middle. Qed.

Lemma call_head_o (o i : nat) :
  o < 2 ^ 15 → i < 2 ^ 16 →
  arg_int ((((o : Z) <<. 16) .| i) .& 0xffff) = i ∧ arg_int ((((o : Z) <<. 16) .| i) >>. 16) = o.
Proof.
  intros Ho Hi. assert ((((o : Z) <<. 16) .| i) = o * 2 ^ 16 + i) as E.
  { rewrite Z.shiftl_mul_pow2 by lia. apply (lor_disjoint_add _ _ 16); [lia| |lia]. apply Z.mod_mul. lia. }
  rewrite E. change 0xffff with (2 ^ 16 - 1). rewrite land_low, Z.shiftr_div_pow2 by lia.
  rewrite Z.add_comm, Z.mod_add, Z.div_add by lia. rewrite Z.mod_small, Z.div_small by lia.
  unfold arg_int. split; rewrite sext_small; cbn; lia.
Qed.

Section refine.
  Context (nb_globals : nat) (temp_local : list bool).
  Context (few : length temp_local < 2 ^ 31).
  Notation wf_op := (wf_op temp_local).
  Notation temp_arg := (temp_arg temp_local).
  Notation call_arg := (call_arg temp_local).

Lemma arg_int_temp a : temp_arg a → arg_int a = a.
Proof. intros [? ?]. unfold arg_int. apply sext_small; cbn; lia. Qed.

Lemma temp_arg_lt (dead : list bool) a :
  length dead = length temp_local → temp_arg a → (Z.to_nat a < length dead)%nat ∧ a = Z.to_nat a.
Proof. intros ? [? ?]. lia. Qed.

Lemma aref_dead dead a :
  length dead = length temp_local → temp_arg a → aref dead a = Ok (is_dead dead a).
Proof.
  intros Hl Ha. destruct (temp_arg_lt dead a Hl Ha) as [Hlt E]. unfold is_dead.
  destruct (lookup_lt_is_Some_2 dead (Z.to_nat a) Hlt) as [b Hb]. rewrite Hb. cbn. by apply (aref_at _ _ (Z.to_nat a)).
Qed.

Lemma aset_dead (dead : list bool) a x :
  length dead = length temp_local → temp_arg a → aset dead a x = Ok (<[Z.to_nat a := x]> dead).
Proof.
  intros Hl Ha. destruct (temp_arg_lt dead a Hl Ha) as [Hlt E]. rewrite E at 1. by apply aset_nat.
Qed.

Lemma all_dead_ok dead oargs :
  length dead = length temp_local → Forall temp_arg oargs → all_dead dead oargs = Ok (forallb (is_dead dead) oargs).
Proof.
  intros Hl. induction 1 as [|a oargs Ha _ IH]; [done|]. cbn [all_dead forallb].
  rewrite (arg_int_temp a Ha), (aref_dead dead a Hl Ha). cbn [rbind]. by destruct (is_dead dead a).
Qed.

Lemma kill_length dead oargs : length (kill dead oargs) = length dead.
Proof.
  unfold kill. revert dead. induction oargs as [|a l IH]; intros dead; cbn [foldl]; [done|]. by rewrite IH, length_insert.
Qed.

Lemma oargs_dead_ok dead oargs :
  length dead = length temp_local → Forall temp_arg oargs → oargs_dead dead oargs = Ok (kill dead oargs).
Proof.
  intros Hl H. revert dead Hl. induction H as [|a oargs Ha _ IH]; intros dead Hl; [done|]. cbn [oargs_dead].
  rewrite (arg_int_temp a Ha), (aset_dead dead a true Hl Ha). cbn [rbind]. rewrite IH by (by rewrite length_insert). done.
Qed.

Lemma dummy_not_temp a : temp_arg a → (u64 (arg_int a) =? TCG_CALL_DUMMY_ARG) = false ∧ (a =? TCG_CALL_DUMMY_ARG) = false.
Proof.
  intros Ha. rewrite (arg_int_temp a Ha). destruct Ha. unfold TCG_CALL_DUMMY_ARG. rewrite wrap_small by lia.
  split; apply Z.eqb_neq; lia.
Qed.

Lemma iargs_live_ok dummy dead i iargs mask :
  length dead = length temp_local → Forall (λ a, if dummy : bool then call_arg a else temp_arg a) iargs →
  iargs_live dummy dead i iargs mask = Ok (use dead i iargs mask).
Proof.
  intros Hl H. revert dead i mask Hl. induction H as [|a iargs Ha _ IH]; intros dead i mask Hl; [done|].
  cbn [iargs_live use].
  assert (temp_arg a ∨ dummy = true ∧ a = TCG_CALL_DUMMY_ARG) as [Ht|[-> ->]].
  { destruct dummy; [|by left]. destruct Ha; [by left|by right]. }
  - destruct (dummy_not_temp a Ht) as [-> ->]. rewrite andb_false_r, (arg_int_temp a Ht), (aref_dead dead a Hl Ht). cbn [rbind].
    rewrite (aset_dead dead a false Hl Ht). cbn [rbind]. by rewrite IH by (by rewrite length_insert).
  - change (u64 (arg_int TCG_CALL_DUMMY_ARG) =? TCG_CALL_DUMMY_ARG) with true.
    change (TCG_CALL_DUMMY_ARG =? TCG_CALL_DUMMY_ARG) with true. cbn [andb]. by apply IH.
Qed.

Lemma use_length dead i iargs mask : length (use dead i iargs mask).1 = length dead.
Proof.
  revert dead i mask. induction iargs as [|a l IH]; intros dead i mask; [done|]. cbn [use].
  destruct (a =? TCG_CALL_DUMMY_ARG); [apply IH|]. by rewrite IH, length_insert.
Qed.

Lemma bb_end_length dead : length (tcg_la_bb_end nb_globals temp_local dead) = length dead.
Proof. apply length_imap. Qed.
Lemma globals_live_length dead : length (la_globals_live nb_globals dead) = length dead.
Proof. apply length_imap. Qed.

Lemma op_clobber_length op dead : length (op_clobber nb_globals temp_local op dead) = length dead.
Proof. unfold op_clobber. repeat case_match; [apply bb_end_length|apply globals_live_length|done]. Qed.
Lemma call_clobber_length flags dead : length (call_clobber nb_globals flags dead) = length dead.
Proof. unfold call_clobber. case_match; [done|apply globals_live_length]. Qed.

Lemma live1_length o dead : length (live1 nb_globals temp_local o dead).2 = length dead.
Proof.
  destruct o as [op oargs iargs cargs|oargs iargs flags|l]; cbn [live1]; [| |done].
  - repeat (case_match; cbn [snd]); try done; [apply bb_end_length|apply kill_length|].
    match goal with H : keep _ _ _ _ = _ |- _ => apply (f_equal (λ p, length p.1)) in H; cbn [fst] in H; rewrite <- H end.
    unfold keep. by rewrite use_length, op_clobber_length, kill_length.
  - repeat (case_match; cbn [snd]); try done.
    match goal with H : keep _ _ _ _ = _ |- _ => apply (f_equal (λ p, length p.1)) in H; cbn [fst] in H; rewrite <- H end.
    unfold keep. by rewrite use_length, call_clobber_length, kill_length.
Qed.

(** ** One operation *)

Lemma la_keep_ok s i dummy oargs iargs clobber :
  length (la_dead s) = length temp_local → (∀ d, length (clobber d) = length d) →
  Forall temp_arg oargs → Forall (λ a, if dummy : bool then call_arg a else temp_arg a) iargs →
  la_keep s i dummy oargs iargs clobber =
    let '(dead, mask) := keep (la_dead s) oargs iargs clobber in
    Ok (mkLA (la_opc s) (la_par s) (<[i := u16 mask]> (la_iargs s)) dead).
Proof.
  intros Hl Hc Ho Hi. unfold la_keep, keep. rewrite (oargs_dead_ok _ _ Hl Ho). cbn [rbind].
  rewrite iargs_live_ok by (rewrite ?Hc, ?kill_length; done). cbn [rbind]. by destruct (use _ _ _ _).
Qed.

(** Overwriting the ends of the parameters of an operation. *)
Lemma set_nop_ok s i o pre post :
  la_par s = pre ++ op_params o ++ post →
  tcg_set_nop s i (length pre) (length (op_params o)) =
    Ok (mkLA (<[i := op_opc (removed o)]> (la_opc s)) (pre ++ op_params (removed o) ++ post) (la_iargs s) (la_dead s)).
Proof.
  intros Hp. unfold tcg_set_nop, removed. destruct (op_params o) as [|x l] eqn:El.
  { cbn. by rewrite Hp. }
  cbn [length]. destruct (Z.eqb_spec (S (length l)) 0); [lia|]. rewrite Hp.
  rewrite aset_nat by (rewrite !length_app; cbn; lia). cbn [rbind].
  replace (length pre + (S (length l) - 1)) with ((length pre + length l)%nat : Z) by lia.
  rewrite aset_nat by (rewrite length_insert, !length_app; cbn; lia). cbn [rbind op_opc op_params].
  rewrite <- (Nat.add_0_r (length pre)) at 2. rewrite insert_app_r, insert_app_r.
  rewrite insert_app_l by (cbn; lia). rewrite insert_app_l by (rewrite length_insert; cbn; lia). done.
Qed.

(** What the analysis of an operation does to the buffers. *)
Definition step_to (s : la_state) (i : nat) (pre post : list Z) (r : tcgop * option Z * list bool) : la_state :=
  let '(o, mask, dead) := r in
  mkLA (<[i := op_opc o]> (la_opc s)) (pre ++ op_params o ++ post)
    (match mask with Some m => <[i := m]> (la_iargs s) | None => la_iargs s end) dead.

Lemma step_same s i pre post o mask dead :
  la_opc s !! i = Some (op_opc o) → la_par s = pre ++ op_params o ++ post →
  step_to s i pre post (o, mask, dead) =
    mkLA (la_opc s) (la_par s) (match mask with Some m => <[i := m]> (la_iargs s) | None => la_iargs s end) dead.
Proof. intros Hi Hp. unfold step_to. by rewrite list_insert_id, Hp. Qed.

Lemma la_call_ok s i pre post oargs iargs flags :
  let o := TCall oargs iargs flags in
  wf_op o → length (la_dead s) = length temp_local → la_opc s !! i = Some INDEX_op_call → la_par s = pre ++ op_params o ++ post →
  length (op_params o) < 2 ^ (32 - 1) →
  la_call nb_globals s i (length (pre ++ op_params o)) =
    Ok (step_to s i pre post (live1 nb_globals temp_local o (la_dead s)), length pre : Z).
Proof.
  intros o (Ho & Hi & Fo & Fi) Hl Hop Hp Hlen. unfold la_call.
  set (hd := ((length oargs : Z) <<. 16) .| length iargs) in *.
  assert (la_par s = (pre ++ hd :: oargs ++ iargs ++ [flags]) ++ (length oargs + length iargs + 3) :: post) as E1.
  { rewrite Hp. subst o. cbn [op_params]. fold hd. by rewrite <- !app_assoc; cbn; rewrite <- !app_assoc. }
  assert (length (pre ++ op_params o) = (length pre + length oargs + length iargs + 3)%nat) as E2.
  { subst o. rewrite length_app. cbn [op_params length]. rewrite !length_app. cbn. lia. }
  assert (length (op_params o) = length oargs + length iargs + 3 :> Z) as E3 by (rewrite length_app in E2; lia).
  rewrite (aref_at _ _ (length (pre ++ hd :: oargs ++ iargs ++ [flags])) (length oargs + length iargs + 3)).
  2:{ rewrite E2, length_app. cbn [length]. rewrite !length_app. cbn. lia. }
  2:{ rewrite E1. apply lookup_mid. }
  cbn [rbind]. replace (arg_int (length oargs + length iargs + 3)) with (length (op_params o) : Z)
    by (rewrite E3; unfold arg_int; rewrite sext_small; lia).
  replace (length (pre ++ op_params o) - length (op_params o)) with (length pre : Z) by (rewrite (length_app pre); lia).
  assert (la_par s = pre ++ hd :: oargs ++ iargs ++ flags :: (length oargs + length iargs + 3) :: post) as E4.
  { rewrite E1. by rewrite <- !app_assoc; cbn; rewrite <- !app_assoc. }
  rewrite (aref_at _ _ (length pre) hd) by (rewrite ?E4; auto using lookup_mid). cbn [rbind].
  destruct (call_head_o (length oargs) (length iargs) Ho Hi) as [EH1 EH2]. fold hd in EH1, EH2. rewrite EH1, EH2.
  rewrite (aref_at _ _ (length (pre ++ hd :: oargs ++ iargs)) flags).
  2:{ rewrite length_app. cbn [length]. rewrite length_app. lia. }
  2:{ rewrite E4. replace (pre ++ hd :: oargs ++ iargs ++ flags :: length oargs + length iargs + 3 :: post)
        with ((pre ++ hd :: oargs ++ iargs) ++ flags :: length oargs + length iargs + 3 :: post)
        by (by rewrite <- !app_assoc; cbn; rewrite <- !app_assoc). apply lookup_mid. }
  cbn [rbind].
  rewrite (params_mid _ (pre ++ [hd]) oargs (iargs ++ flags :: length oargs + length iargs + 3 :: post))
    by (rewrite ?E4, ?length_app, <- ?app_assoc; cbn; done || lia). cbn [rbind].
  rewrite (params_mid _ (pre ++ hd :: oargs) iargs (flags :: length oargs + length iargs + 3 :: post))
    by (rewrite ?E4, ?length_app, <- ?app_assoc; cbn; done || lia). cbn [rbind].
  subst o. cbn [live1]. set (o := TCall oargs iargs flags) in *. change (removable o) with (has_flag flags TCG_CALL_PURE).
  assert (∀ b : bool, (if b then all_dead (la_dead s) oargs else Ok false) = Ok (b && forallb (is_dead (la_dead s)) oargs)) as ->.
  { intros []; [by apply all_dead_ok|done]. }
  cbn [rbind]. destruct (has_flag flags TCG_CALL_PURE && _).
  - rewrite (set_nop_ok s i o pre post Hp). done.
  - fold (call_clobber nb_globals flags). rewrite la_keep_ok by auto using call_clobber_length.
    destruct (keep _ _ _ _) as [dead mask]. cbn [rbind]. by rewrite (step_same s i pre post o).
Qed.

Lemma la_default_ok s i pre post op oargs iargs cargs :
  let o := TOp op oargs iargs cargs in
  wf_op o → length (la_dead s) = length temp_local → la_opc s !! i = Some op → la_par s = pre ++ op_params o ++ post →
  op ≠ INDEX_op_set_label → op ≠ INDEX_op_debug_insn_start → op ≠ INDEX_op_discard →
  la_default nb_globals temp_local s i (op_def op) (length (pre ++ op_params o)) =
    Ok (step_to s i pre post (live1 nb_globals temp_local o (la_dead s)), length pre : Z).
Proof.
  intros o (Hop & _ & _ & _ & Lo & Li & Lc & Fo & Fi) Hl Hi Hp Hn1 Hn2 Hn3. unfold la_default.
  assert (length (op_params o) = nb_args (op_def op)) as El.
  { subst o. cbn [op_params]. rewrite !length_app. unfold nb_args. lia. }
  replace (length (pre ++ op_params o) - nb_args (op_def op)) with (length pre : Z) by (rewrite length_app; lia).
  rewrite (params_mid _ pre oargs (iargs ++ cargs ++ post)) by (rewrite ?Hp; subst o; cbn; rewrite <- ?app_assoc; done || lia).
  cbn [rbind].
  rewrite (params_mid _ (pre ++ oargs) iargs (cargs ++ post))
    by (rewrite ?Hp, ?length_app; subst o; cbn; rewrite <- ?app_assoc; done || lia).
  cbn [rbind]. subst o. cbn [live1]. rewrite !(proj2 (Nat.eqb_neq _ _)) by done. 
  set (o := TOp op oargs iargs cargs) in *.
  change (removable o) with (negb (has_flag (op_flags (op_def op)) TCG_OPF_SIDE_EFFECTS) && negb (nb_oargs (op_def op) =? 0)%nat).
  replace (negb (nb_oargs (op_def op) =? 0)) with (negb (nb_oargs (op_def op) =? 0)%nat)
    by (f_equal; destruct (Nat.eqb_spec (nb_oargs (op_def op)) 0), (Z.eqb_spec (nb_oargs (op_def op)) 0); done || lia).
  assert (∀ b : bool, (if b then all_dead (la_dead s) oargs else Ok false) = Ok (b && forallb (is_dead (la_dead s)) oargs)) as ->.
  { intros []; [by apply all_dead_ok|done]. }
  cbn [rbind]. destruct (_ && _ && _).
  - rewrite <- El. rewrite (set_nop_ok s i o pre post Hp). done.
  - fold (op_clobber nb_globals temp_local op). rewrite la_keep_ok by auto using op_clobber_length.
    destruct (keep _ _ _ _) as [dead mask]. cbn [rbind]. by rewrite (step_same s i pre post o).
Qed.

Lemma la_op_ok s i pre post o :
  wf_op o → length (la_dead s) = length temp_local → la_opc s !! i = Some (op_opc o) → la_par s = pre ++ op_params o ++ post →
  la_op nb_globals temp_local s i (length (pre ++ op_params o)) =
    Ok (step_to s i pre post (live1 nb_globals temp_local o (la_dead s)), length pre : Z).
Proof.
  intros Hwf Hl Hi Hp. unfold la_op. rewrite Hi. cbn [deref rbind].
  destruct o as [op oargs iargs cargs|oargs iargs flags|l]; cbn [op_opc].
  - pose proof Hwf as (Hop & Hc & Hn & He & Lo & Li & Lc & Fo & Fi).
    rewrite (proj2 (Nat.eqb_neq op INDEX_op_call) Hc), (proj2 (Nat.eqb_neq op INDEX_op_nopn) Hn), (proj2 (Nat.eqb_neq op INDEX_op_end) He).
    destruct (Nat.eqb_spec op INDEX_op_set_label) as [->|H1].
    { cbn [live1]. change (INDEX_op_set_label =? INDEX_op_set_label)%nat with true. cbn match.
      rewrite step_same by done. unfold la_with_dead. do 2 f_equal. cbn [op_params]. rewrite !length_app, Lo, Li, Lc. cbn. lia. }
    destruct (Nat.eqb_spec op INDEX_op_debug_insn_start) as [->|H2].
    { cbn [live1]. change (INDEX_op_debug_insn_start =? INDEX_op_set_label)%nat with false.
      change (INDEX_op_debug_insn_start =? INDEX_op_debug_insn_start)%nat with true. cbn match.
      rewrite step_same by done. destruct s; cbn. do 2 f_equal. rewrite !length_app, Lo, Li, Lc. cbn. lia. }
    destruct (Nat.eqb_spec op INDEX_op_discard) as [->|H3]; [|by apply la_default_ok].
    cbn [live1]. change (INDEX_op_discard =? INDEX_op_set_label)%nat with false.
    change (INDEX_op_discard =? INDEX_op_debug_insn_start)%nat with false.
    change (INDEX_op_discard =? INDEX_op_discard)%nat with true. cbn match. rewrite step_same by done.
    change (nb_oargs (op_def INDEX_op_discard)) with 1%nat in Lo. change (nb_iargs (op_def INDEX_op_discard)) with 0%nat in Li.
    change (nb_cargs (op_def INDEX_op_discard)) with 0%nat in Lc.
    destruct oargs as [|t [|]]; try done. destruct iargs; [|done]. destruct cargs; [|done]. cbn [op_params app] in *.
    inversion Fo as [|? ? Ht _]; subst.
    rewrite (aref_at _ _ (length pre) t); [|rewrite length_app; cbn; lia|rewrite Hp; apply lookup_mid]. cbn [rbind].
    rewrite (aset_dead _ _ _ Hl Ht). cbn [rbind]. unfold la_with_dead. do 2 f_equal. rewrite length_app. cbn. lia.
  - change (INDEX_op_call =? INDEX_op_call)%nat with true. cbn match.
    apply la_call_ok; [done..|]. destruct Hwf as (Ho & Hi' & _). cbn [op_params length]. rewrite !length_app. cbn. lia.
  - change (INDEX_op_nopn =? INDEX_op_call)%nat with false. change (INDEX_op_nopn =? INDEX_op_set_label)%nat with false.
    change (INDEX_op_nopn =? INDEX_op_debug_insn_start)%nat with false. change (INDEX_op_nopn =? INDEX_op_nopn)%nat with true.
    cbn match. destruct Hwf as (Hn & Hh & Hla). cbn [op_params live1] in *. rewrite step_same by done.
    destruct l as [|x l _] using rev_ind; [done|]. rewrite last_snoc in Hla. injection Hla as Hx. rewrite length_app in Hx. cbn in Hx.
    rewrite (aref_at _ _ (length (pre ++ l)) x); [|rewrite !length_app; cbn; lia|].
    + cbn [rbind]. unfold arg_int. rewrite sext_small by (rewrite length_app in Hn; cbn in Hn; lia). destruct s; cbn. do 2 f_equal.
      rewrite !length_app. cbn. lia.
    + rewrite Hp. rewrite <- !app_assoc. rewrite (app_assoc pre). apply lookup_mid.
Qed.

(** ** The whole list *)

Definition enc (ops : list tcgop) : list Z := mjoin (op_params <$> ops).

Lemma enc_app l1 l2 : enc (l1 ++ l2) = enc l1 ++ enc l2.
Proof. unfold enc. by rewrite fmap_app, join_app. Qed.

Lemma enc_one o : enc [o] = op_params o.
Proof. unfold enc. cbn. apply app_nil_r. Qed.

Lemma live_snoc ops o dead :
  live nb_globals temp_local (ops ++ [o]) dead =
    let '(o', m, d) := live1 nb_globals temp_local o dead in
    let '(ops', d') := live nb_globals temp_local ops d in (ops' ++ [(o', m)], d').
Proof.
  induction ops as [|o0 ops IH]; cbn [app live].
  - by destruct (live1 _ _ o dead) as [[? ?] ?].
  - rewrite IH. destruct (live1 _ _ o dead) as [[? ?] ?]. destruct (live _ _ ops l) as [ops' d']. by destruct (live1 _ _ o0 d') as [[? ?] ?].
Qed.

Lemma live_length ops dead : length (live nb_globals temp_local ops dead).1 = length ops.
Proof.
  revert dead. induction ops as [|o ops IH]; intros dead; [done|]. cbn [live]. specialize (IH dead).
  destruct (live _ _ ops dead) as [ops' d]. destruct (live1 _ _ o d) as [[? ?] ?]. cbn in *. lia.
Qed.

Lemma la_loop_ok ops s post_opc post_par :
  Forall wf_op ops → length (la_dead s) = length temp_local →
  la_opc s = (op_opc <$> ops) ++ post_opc → la_par s = enc ops ++ post_par →
  ∃ s', la_loop nb_globals temp_local (length ops) s (length (enc ops)) = Ok (s', 0) ∧
    let '(ops', dead) := live nb_globals temp_local ops (la_dead s) in
    la_opc s' = (op_opc <$> ops'.*1) ++ post_opc ∧ la_par s' = enc (ops'.*1) ++ post_par ∧ la_dead s' = dead ∧
    (∀ i o m, ops' !! i = Some (o, Some m) → la_iargs s' !! i = Some m) ∧
    (∀ i, (length ops ≤ i)%nat → la_iargs s' !! i = la_iargs s !! i).
Proof.
  revert s post_opc post_par. induction ops as [|o ops IH] using rev_ind; intros s post_opc post_par F Hl Ho Hp.
  { exists s. cbn. split; [done|]. split_and!; try done. }
  apply Forall_app in F as [F Hwf]. apply (proj1 (Forall_singleton _ _)) in Hwf. rewrite length_app, Nat.add_1_r. cbn [la_loop].
  rewrite enc_app, enc_one in *. rewrite fmap_app in Ho. cbn [fmap list_fmap] in Ho.
  assert (la_opc s !! length ops = Some (op_opc o)) as Hi.
  { rewrite Ho, <- app_assoc. rewrite <- (length_fmap op_opc ops) at 1. apply lookup_mid. }
  rewrite <- app_assoc in Hp. rewrite (la_op_ok s (length ops) (enc ops) post_par o Hwf Hl Hi Hp). cbn [rbind].
  rewrite live_snoc. pose proof (live1_length o (la_dead s)) as Hl1. destruct (live1 _ _ o (la_dead s)) as [[o' m] d]. cbn in Hl1.
  destruct (IH (step_to s (length ops) (enc ops) post_par (o', m, d)) (op_opc o' :: post_opc) (op_params o' ++ post_par) F)
    as (s' & E & Hs'); [cbn; lia| |done|].
  { cbn. rewrite Ho, <- app_assoc. rewrite <- (length_fmap op_opc ops) at 1. cbn.
    rewrite insert_app_r_alt, Nat.sub_diag by lia. done. }
  exists s'. split; [exact E|]. cbn [step_to la_dead] in Hs'. pose proof (live_length ops d) as Hll.
  destruct (live _ _ ops d) as [ops' d']. cbn in Hll. destruct Hs' as (H1 & H2 & H3 & H4 & H5). split_and!.
  - rewrite H1, !fmap_app, <- app_assoc. done.
  - rewrite H2, fmap_app, enc_app. cbn [fmap list_fmap fst]. rewrite enc_one, <- app_assoc. done.
  - done.
  - intros i o1 m1 Hi1. apply lookup_app_Some in Hi1 as [Hi1|[Hge Hi1]]; [by eapply H4|].
    apply list_lookup_singleton_Some in Hi1 as [Hz [= -> ->]]. assert (i = length ops) as -> by lia.
    rewrite H5 by lia. cbn. by rewrite lookup_insert_eq.
  - intros i Hge. rewrite H5 by lia. cbn. destruct m; [|done]. rewrite lookup_insert_ne by lia. done.
Qed.

(** The analysis of the buffers is the analysis of the list. *)
Lemma liveness_ok ops :
  Forall wf_op ops →
  ∃ masks, tcg_liveness_analysis nb_globals temp_local ((op_opc <$> ops) ++ [INDEX_op_end]) (enc ops) =
      Ok ((op_opc <$> (live nb_globals temp_local ops (replicate (length temp_local) true)).1.*1) ++ [INDEX_op_end],
          enc (live nb_globals temp_local ops (replicate (length temp_local) true)).1.*1, masks) ∧
    ∀ i o m, (live nb_globals temp_local ops (replicate (length temp_local) true)).1 !! i = Some (o, Some m) → masks !! i = Some m.
Proof.
  intros F. unfold tcg_liveness_analysis. rewrite length_app, length_fmap, Nat.add_1_r. cbn [la_loop].
  assert (((op_opc <$> ops) ++ [INDEX_op_end]) !! length ops = Some INDEX_op_end) as Hend.
  { rewrite <- (length_fmap op_opc ops). apply lookup_mid. }
  unfold la_op at 1. cbn [la_opc]. rewrite Hend. cbn [deref rbind].
  change (INDEX_op_end =? INDEX_op_call)%nat with false. change (INDEX_op_end =? INDEX_op_set_label)%nat with false.
  change (INDEX_op_end =? INDEX_op_debug_insn_start)%nat with false. change (INDEX_op_end =? INDEX_op_nopn)%nat with false.
  change (INDEX_op_end =? INDEX_op_discard)%nat with false. change (INDEX_op_end =? INDEX_op_end)%nat with true. cbn match. cbn [rbind].
  destruct (la_loop_ok ops (mkLA ((op_opc <$> ops) ++ [INDEX_op_end]) (enc ops) ∅ (replicate (length temp_local) true)) [INDEX_op_end] [] F)
    as (s' & E & Hs'); [cbn; apply length_replicate|done|cbn; by rewrite app_nil_r|].
  rewrite E. cbn [rbind]. change (0 =? 0) with true. cbn match. cbn [la_dead] in Hs'.
  destruct (live _ _ ops _) as [ops' d]. destruct Hs' as (-> & -> & _ & H4 & _). rewrite app_nil_r. eauto.
Qed.

End refine.

(** ** What liveness means

    The specification, by recursion on the list: whether the value a temporary
    has before a list of operations is needed. *)

Section spec.
  Context (nb_globals : nat) (temp_local : list bool).
  Implicit Types (t a k : Z) (after : Z → bool).
  Notation temp_arg := (temp_arg temp_local).
  Notation wf_op := (wf_op temp_local).

Definition op_iargs (o : tcgop) : list Z :=
  match o with TOp _ _ iargs _ => iargs | TCall _ iargs _ => iargs | TNopn _ => [] end.

Definition is_discard (o : tcgop) : bool :=
  match o with TOp op _ _ _ => (op =? INDEX_op_discard)%nat | _ => false end.

(** Labels, markers, discards and removed operations have no mask. *)
Definition has_mask (o : tcgop) : bool :=
  match o with
  | TOp op _ _ _ => negb ((op =? INDEX_op_set_label)%nat || (op =? INDEX_op_debug_insn_start)%nat || is_discard o)
  | TCall _ _ _ => true
  | TNopn _ => false
  end.

Definition is_global t : bool := t <? nb_globals.

(** The temporaries that live across basic blocks. *)
Definition persists t : bool := is_global t || default false (temp_local !! Z.to_nat t).

(** A basic block ends at an operation of that kind and before a label. *)
Definition ends_block (o : tcgop) : bool :=
  match o with
  | TOp op _ _ _ => (op =? INDEX_op_set_label)%nat || has_flag (op_flags (op_def op)) TCG_OPF_BB_END
  | _ => false
  end.

(** Helpers read the globals, unless declared not to. *)
Definition sees_globals (o : tcgop) : bool :=
  match o with
  | TOp op _ _ _ => has_flag (op_flags (op_def op)) TCG_OPF_CALL_CLOBBER
  | TCall _ _ flags => negb (has_flag flags TCG_CALL_CONST)
  | TNopn _ => false
  end.

(** Whether an operation needs [t], or lets its value through to where it is
    needed, other than as an input. *)
Definition needed_through (o : tcgop) after t : bool :=
  if ends_block o then persists t
  else (sees_globals o && is_global t) || (after t && negb (bool_decide (t ∈ op_oargs o))).

(** Operations without side effects whose outputs are not needed go away. *)
Definition drops (o : tcgop) after : bool :=
  removable o && negb (is_discard o) && forallb (λ a, negb (after a)) (op_oargs o).

Fixpoint needed (ops : list tcgop) t : bool :=
  match ops with
  | [] => false
  | o :: rest =>
      if drops o (needed rest) then needed rest t
      else bool_decide (t ∈ op_iargs o) || needed_through o (needed rest) t
  end.

(** The operation as it is left. *)
Definition pruned_op (o : tcgop) (rest : list tcgop) : tcgop := if drops o (needed rest) then removed o else o.

Fixpoint pruned (ops : list tcgop) : list tcgop :=
  match ops with [] => [] | o :: rest => pruned_op o rest :: pruned rest end.

(** Input [k] is used for the last time: it is needed by nothing later, and no
    earlier input is the same temporary. *)
Definition last_use (o : tcgop) (rest : list tcgop) k : bool :=
  match op_iargs o !! Z.to_nat k with
  | Some a => negb (a =? TCG_CALL_DUMMY_ARG) && negb (bool_decide (a ∈ take (Z.to_nat k) (op_iargs o)))
              && negb (needed_through o (needed rest) a)
  | None => false
  end.

(** *** The sets as lists of booleans *)

Lemma is_dead_insert dead a t b :
  0 ≤ a → temp_arg t → length dead = length temp_local →
  is_dead (<[Z.to_nat a := b]> dead) t = if a =? t then b else is_dead dead t.
Proof.
  intros Ha [? ?] Hl. unfold is_dead. rewrite list_lookup_insert.
  destruct (Z.eqb_spec a t) as [->|Hne]; [by rewrite decide_True by lia|by rewrite decide_False by lia].
Qed.

Lemma is_dead_kill dead oargs t :
  Forall temp_arg oargs → temp_arg t → length dead = length temp_local →
  is_dead (kill dead oargs) t = bool_decide (t ∈ oargs) || is_dead dead t.
Proof.
  intros F Ht. revert dead. induction F as [|a oargs [Ha _] _ IH]; intros dead Hl; [done|].
  change (kill dead (a :: oargs)) with (kill (<[Z.to_nat a := true]> dead) oargs).
  rewrite IH by (by rewrite length_insert). rewrite is_dead_insert by done.
  rewrite (bool_decide_ext (t ∈ a :: oargs) (t = a ∨ t ∈ oargs)) by apply elem_of_cons.
  destruct (Z.eqb_spec a t) as [->|Hne]; [by rewrite orb_true_r, bool_decide_true by auto|].
  f_equal. apply bool_decide_ext. naive_solver.
Qed.

Lemma is_dead_bb_end dead t :
  temp_arg t → length dead = length temp_local → is_dead (tcg_la_bb_end nb_globals temp_local dead) t = negb (persists t).
Proof.
  intros [? ?] Hl. destruct (lookup_lt_is_Some_2 dead (Z.to_nat t)) as [b Hb]; [lia|].
  unfold is_dead, tcg_la_bb_end, persists, is_global. rewrite list_lookup_imap, Hb. cbn [fmap option_fmap option_map default from_option id].
  destruct (Nat.ltb_spec (Z.to_nat t) nb_globals), (Z.ltb_spec t nb_globals); try lia; done.
Qed.

Lemma is_dead_globals dead t :
  temp_arg t → length dead = length temp_local →
  is_dead (la_globals_live nb_globals dead) t = negb (is_global t) && is_dead dead t.
Proof.
  intros [? ?] Hl. destruct (lookup_lt_is_Some_2 dead (Z.to_nat t)) as [b Hb]; [lia|].
  unfold is_dead, la_globals_live, is_global. rewrite list_lookup_imap, Hb. cbn [fmap option_fmap option_map default from_option id].
  destruct (Nat.ltb_spec (Z.to_nat t) nb_globals), (Z.ltb_spec t nb_globals); try lia; done.
Qed.

Lemma dummy_no_temp t : length temp_local < 2 ^ 31 → temp_arg t → t ≠ TCG_CALL_DUMMY_ARG.
Proof. intros ? [? ?]. unfold TCG_CALL_DUMMY_ARG. lia. Qed.

Lemma elem_cons_ne (t a : Z) l : t ≠ a → bool_decide (t ∈ a :: l) = bool_decide (t ∈ l).
Proof. intros Hne. apply bool_decide_ext. rewrite elem_of_cons. naive_solver. Qed.

Lemma elem_cons_eq (a : Z) l : bool_decide (a ∈ a :: l) = true.
Proof. apply bool_decide_true. by left. Qed.

Lemma use_dead dead i iargs mask t :
  length temp_local < 2 ^ 31 → Forall (call_arg temp_local) iargs → length dead = length temp_local → temp_arg t →
  is_dead (use dead i iargs mask).1 t = negb (bool_decide (t ∈ iargs)) && is_dead dead t.
Proof.
  intros Hfew F Hl Ht. revert dead i mask Hl.
  induction F as [|a iargs Ha F IH]; intros dead i mask Hl; cbn [use]; [done|].
  destruct (Z.eqb_spec a TCG_CALL_DUMMY_ARG) as [->|Hna].
  { rewrite IH, elem_cons_ne by (done || by apply dummy_no_temp). done. }
  destruct Ha as [Ha|?]; [|done]. rewrite IH, is_dead_insert by (done || apply Ha || by rewrite length_insert).
  destruct (Z.eqb_spec a t) as [->|Hne]; [by rewrite elem_cons_eq, andb_false_r|by rewrite elem_cons_ne by done].
Qed.

(** Bit [k] of the mask, for the inputs from position [i] on. *)
Lemma last_use_mask dead i iargs mask k :
  Forall (call_arg temp_local) iargs → length dead = length temp_local → 0 ≤ i → 0 ≤ k →
  Z.testbit (use dead i iargs mask).2 k = Z.testbit mask k || (i <=? k) &&
    match iargs !! Z.to_nat (k - i) with
    | Some a => negb (a =? TCG_CALL_DUMMY_ARG) && negb (bool_decide (a ∈ take (Z.to_nat (k - i)) iargs)) && is_dead dead a
    | None => false
    end.
Proof.
  intros F Hl Hi Hk. revert dead i mask Hl Hi.
  induction F as [|a iargs Ha F IH]; intros dead i mask Hl Hi; cbn [use].
  { cbn. by rewrite andb_false_r, orb_false_r. }
  assert (i < k → Z.to_nat (k - i) = S (Z.to_nat (k - (i + 1)))) as HS by lia.
  destruct (Z.eqb_spec a TCG_CALL_DUMMY_ARG) as [->|Hna].
  - rewrite IH by (done || lia). f_equal. destruct (Z.leb_spec (i + 1) k), (Z.leb_spec i k); try lia; try done.
    + rewrite HS by lia. cbn [lookup list_lookup take]. destruct (iargs !! _) as [b|] eqn:Eb; [|done].
      destruct (Z.eqb_spec b TCG_CALL_DUMMY_ARG); [done|]. by rewrite elem_cons_ne.
    + by replace (k - i) with 0 by lia.
  - destruct Ha as [Ha|?]; [|done]. rewrite IH by (rewrite ?length_insert; done || lia).
    assert (Z.testbit (if is_dead dead a then mask .| (1 <<. i) else mask) k =
      Z.testbit mask k || (k =? i) && is_dead dead a) as ->.
    { destruct (is_dead dead a); [|by rewrite andb_false_r, orb_false_r]. rewrite andb_true_r, Z.lor_spec. f_equal.
      rewrite Z.shiftl_mul_pow2, Z.mul_1_l, Z.pow2_bits_eqb by lia. apply Z.eqb_sym. }
    rewrite <- orb_assoc. f_equal. destruct (Z.leb_spec (i + 1) k), (Z.leb_spec i k), (Z.eqb_spec k i); try lia; try done.
    + rewrite HS by lia. cbn [lookup list_lookup take andb orb].
      destruct (iargs !! _) as [b|] eqn:Eb; [|done]. destruct (Z.eqb_spec b TCG_CALL_DUMMY_ARG) as [->|Hnb]; [done|].
      assert (temp_arg b) as Hb by (by destruct (Forall_lookup_1 _ _ _ _ F Eb)).
      rewrite is_dead_insert by (done || apply Ha). cbn [negb andb].
      destruct (Z.eqb_spec a b) as [->|Hne]; [by rewrite elem_cons_eq, andb_false_r|by rewrite elem_cons_ne by done].
    + subst k. rewrite Z.sub_diag. change (Z.to_nat 0) with 0%nat. cbn [lookup list_lookup take].
      rewrite bool_decide_false, (proj2 (Z.eqb_neq a _)) by (done || apply not_elem_of_nil). apply orb_false_r.
Qed.

(** *** One operation *)

(** The set of dead temporaries stands for a set of needed ones. *)
Definition rep (dead : list bool) after : Prop :=
  length dead = length temp_local ∧ ∀ t, temp_arg t → is_dead dead t = negb (after t).

Definition clobber_of (o : tcgop) : list bool → list bool :=
  match o with
  | TOp op _ _ _ => if (op =? INDEX_op_set_label)%nat then tcg_la_bb_end nb_globals temp_local
                    else op_clobber nb_globals temp_local op
  | TCall _ _ flags => call_clobber nb_globals flags
  | TNopn _ => id
  end.

Lemma wf_oargs o : wf_op o → Forall temp_arg (op_oargs o).
Proof. destruct o; cbn; [naive_solver..|by constructor]. Qed.

Lemma wf_iargs o : wf_op o → Forall (call_arg temp_local) (op_iargs o).
Proof.
  destruct o; cbn; [|naive_solver|by constructor]. intros (_ & _ & _ & _ & _ & _ & _ & _ & F).
  eapply Forall_impl; [exact F|]. intros a Ha. by left.
Qed.

Lemma rep_through o dead after :
  wf_op o → rep dead after → rep (clobber_of o (kill dead (op_oargs o))) (needed_through o after).
Proof.
  intros Hwf [Hl Hr]. pose proof (wf_oargs o Hwf) as Fo.
  assert (length (kill dead (op_oargs o)) = length temp_local) as Hk by (by rewrite kill_length).
  assert (∀ t, temp_arg t → is_dead (kill dead (op_oargs o)) t = negb (after t && negb (bool_decide (t ∈ op_oargs o)))) as Hd.
  { intros t Ht. rewrite is_dead_kill, Hr by done. rewrite negb_andb, negb_involutive. apply orb_comm. }
  split.
  { destruct o; cbn [clobber_of]; [case_match|..]; rewrite ?bb_end_length, ?op_clobber_length, ?call_clobber_length; done. }
  intros t Ht. unfold needed_through.
  destruct o as [op oargs iargs cargs|oargs iargs flags|l]; cbn [clobber_of ends_block sees_globals].
  - destruct (op =? INDEX_op_set_label)%nat; [by apply is_dead_bb_end|]. cbn [orb].
    unfold op_clobber. destruct (has_flag _ TCG_OPF_BB_END); [by apply is_dead_bb_end|].
    destruct (has_flag _ TCG_OPF_CALL_CLOBBER); [|by rewrite Hd]. rewrite is_dead_globals, Hd by done. by rewrite <- negb_orb.
  - unfold call_clobber. destruct (has_flag flags TCG_CALL_CONST); [by rewrite Hd|].
    rewrite is_dead_globals, Hd by done. by rewrite <- negb_orb.
  - by rewrite Hd.
Qed.

Lemma rep_all_dead dead after l :
  rep dead after → Forall temp_arg l → forallb (is_dead dead) l = forallb (λ a, negb (after a)) l.
Proof. intros [_ Hr]. induction 1 as [|a l Ha _ IH]; [done|]. cbn. by rewrite Hr, IH. Qed.

Lemma rep_ext dead f g : rep dead f → (∀ t, temp_arg t → f t = g t) → rep dead g.
Proof. intros [Hl Hr] E. split; [done|]. intros t Ht. by rewrite Hr, E. Qed.

(** Labels, markers and discards have no inputs, and only discards have an
    output. *)
Lemma special_args op oargs iargs cargs :
  wf_op (TOp op oargs iargs cargs) → has_mask (TOp op oargs iargs cargs) = false →
  iargs = [] ∧ (op = INDEX_op_discard ∨ oargs = []) ∧ has_flag (op_flags (op_def op)) TCG_OPF_BB_END = false ∧
  has_flag (op_flags (op_def op)) TCG_OPF_CALL_CLOBBER = false.
Proof.
  intros (_ & _ & _ & _ & Lo & Li & _) Hm. cbn in Hm. apply negb_false_iff in Hm.
  rewrite !orb_true_iff, !Nat.eqb_eq in Hm.
  split; [|split; [|destruct Hm as [[-> | ->]| ->]; by vm_compute]].
  - apply nil_length_inv. rewrite Li. by destruct Hm as [[-> | ->]| ->]; vm_compute.
  - destruct Hm as [[-> | ->]| ->]; [right..|by left]; apply nil_length_inv; rewrite Lo; by vm_compute.
Qed.

Definition live1_post (o : tcgop) after (r : tcgop * option Z * list bool) : Prop :=
  r.1.1 = (if drops o after then removed o else o) ∧
  rep r.2 (λ t, if drops o after then after t else bool_decide (t ∈ op_iargs o) || needed_through o after t) ∧
  (has_mask o = true → drops o after = false → ∃ m, r.1.2 = Some m ∧
     ∀ k, 0 ≤ k → Z.testbit m k = (k <? 16) &&
       match op_iargs o !! Z.to_nat k with
       | Some a => negb (a =? TCG_CALL_DUMMY_ARG) && negb (bool_decide (a ∈ take (Z.to_nat k) (op_iargs o)))
                   && negb (needed_through o after a)
       | None => false
       end).

(** Operations that stay. *)
Lemma keep_spec o dead after :
  length temp_local < 2 ^ 31 → wf_op o → rep dead after → drops o after = false →
  live1_post o after
    (let '(dead, mask) := use (clobber_of o (kill dead (op_oargs o))) 0 (op_iargs o) 0 in (o, Some (u16 mask), dead)).
Proof.
  intros Hfew Hwf Hr Hd. pose proof (rep_through o dead after Hwf Hr) as [Hl Ht]. pose proof (wf_iargs o Hwf) as Fi.
  set (d := clobber_of o _) in *.
  pose proof (use_length d 0 (op_iargs o) 0) as Hul. pose proof (λ t, use_dead d 0 (op_iargs o) 0 t Hfew Fi Hl) as Hud.
  pose proof (λ k, last_use_mask d 0 (op_iargs o) 0 k Fi Hl) as Hum.
  destruct (use d 0 (op_iargs o) 0) as [d' mask]. cbn [fst snd] in *. unfold live1_post. rewrite Hd. cbn [fst snd].
  split_and!; [done| |].
  - split; [congruence|]. intros t Htt. rewrite Hud, Ht by done. by rewrite <- negb_orb.
  - intros _ _. exists (u16 mask). split; [done|]. intros k Hk. unfold wrap.
    destruct (Z.ltb_spec k 16); [rewrite Z.mod_pow2_bits_low by lia|by rewrite Z.mod_pow2_bits_high by lia]. rewrite Hum by lia. rewrite Z.testbit_0_l, Z.sub_0_r. cbn [orb].
    rewrite (proj2 (Z.leb_le 0 k) Hk). cbn [andb]. destruct (op_iargs o !! _) as [a|] eqn:Ea; [|done].
    destruct (Z.eqb_spec a TCG_CALL_DUMMY_ARG); [done|].
    rewrite Ht; [done|]. by destruct (Forall_lookup_1 _ _ _ _ Fi Ea).
Qed.

Lemma live1_special op oargs iargs cargs dead after :
  let o := TOp op oargs iargs cargs in
  wf_op o → has_mask o = false → rep dead after → live1_post o after (live1 nb_globals temp_local o dead).
Proof.
  intros o Hwf Hm Hr. pose proof (rep_through o dead after Hwf Hr) as Hth.
  destruct (special_args op oargs iargs cargs Hwf Hm) as (-> & Hoa & Hb & Hg).
  assert (drops o after = false) as Hd.
  { unfold drops. destruct Hoa as [Eo|Eo]; [subst op; by rewrite andb_false_r|].
    destruct Hwf as (_ & _ & _ & _ & Lo & _). subst oargs. cbn in Lo. cbn [o removable].
    rewrite <- Lo. by rewrite !andb_false_r. }
  assert (∀ d, rep d (needed_through o after) → live1_post o after (o, None, d)) as Hpost.
  { intros d Hrd. unfold live1_post. rewrite Hd. split_and!; [done| |congruence]. cbn [snd].
    apply (rep_ext d _ _ Hrd). intros t _. cbn. by rewrite bool_decide_false by apply not_elem_of_nil. }
  cbn in Hm. apply negb_false_iff in Hm. rewrite !orb_true_iff, !Nat.eqb_eq in Hm. cbn [o live1].
  destruct (Nat.eqb_spec op INDEX_op_set_label) as [->|Hn1].
  { apply Hpost. destruct Hoa as [?|Eo]; [done|]. by subst oargs. }
  destruct (Nat.eqb_spec op INDEX_op_debug_insn_start) as [->|Hn2].
  { apply Hpost. destruct Hoa as [?|Eo]; [done|]. subst oargs. apply (rep_ext dead after); [done|]. intros t _.
    unfold needed_through. cbn [o ends_block sees_globals op_oargs]. rewrite Hb, Hg, bool_decide_false by apply not_elem_of_nil.
    cbn. by rewrite andb_true_r. }
  destruct Hm as [[?|?]| ->]; [done..|]. by apply Hpost.
Qed.

Lemma live1_spec o dead after :
  length temp_local < 2 ^ 31 → wf_op o → rep dead after → live1_post o after (live1 nb_globals temp_local o dead).
Proof.
  intros Hfew Hwf Hr. pose proof (wf_oargs o Hwf) as Fo.
  destruct o as [op oargs iargs cargs|oargs iargs flags|l].
  - destruct (has_mask (TOp op oargs iargs cargs)) eqn:Hm; [|by apply live1_special]. cbn [live1].
    pose proof Hm as Hm'. cbn in Hm'. apply negb_true_iff in Hm'. rewrite !orb_false_iff in Hm'.
    destruct Hm' as [[E1 E2] E3]. rewrite E1, E2, E3.
    assert (drops (TOp op oargs iargs cargs) after = removable (TOp op oargs iargs cargs) && forallb (is_dead dead) oargs) as Hd.
    { unfold drops. cbn [is_discard op_oargs]. rewrite E3, andb_true_r. by rewrite <- (rep_all_dead dead after oargs). }
    rewrite <- Hd. destruct (drops _ after) eqn:Ed; [unfold live1_post; rewrite Ed; by split_and!|].
    pose proof (keep_spec (TOp op oargs iargs cargs) dead after Hfew Hwf Hr Ed) as Hk.
    cbn [clobber_of op_oargs op_iargs] in Hk. by rewrite E1 in Hk.
  - cbn [live1].
    assert (drops (TCall oargs iargs flags) after = removable (TCall oargs iargs flags) && forallb (is_dead dead) oargs) as Hd.
    { unfold drops. cbn [is_discard op_oargs]. rewrite andb_true_r. by rewrite <- (rep_all_dead dead after oargs). }
    rewrite <- Hd. destruct (drops _ after) eqn:Ed; [unfold live1_post; rewrite Ed; by split_and!|].
    by apply (keep_spec (TCall oargs iargs flags)).
  - split_and!; [done| |done]. apply (rep_ext dead after); [done|]. intros t _. unfold needed_through. cbn.
    by rewrite !bool_decide_false, andb_true_r by apply not_elem_of_nil.
Qed.

(** *** The list *)

Lemma live_spec ops :
  length temp_local < 2 ^ 31 → Forall wf_op ops →
  let r := live nb_globals temp_local ops (replicate (length temp_local) true) in
  r.1.*1 = pruned ops ∧ rep r.2 (needed ops) ∧
  ∀ i o, ops !! i = Some o → has_mask o = true → drops o (needed (drop (S i) ops)) = false →
    ∃ m, r.1 !! i = Some (o, Some m) ∧
      ∀ k, 0 ≤ k → Z.testbit m k = (k <? 16) && last_use o (drop (S i) ops) k.
Proof.
  intros Hfew F. cbv zeta. induction F as [|o ops Hwf _ (IH1 & IH2 & IH3)].
  { split_and!; [done| |done]. split; [apply length_replicate|]. intros t [? ?]. unfold is_dead.
    cbn [live snd]. rewrite lookup_replicate_2 by lia. done. }
  cbn [live]. destruct (live _ _ ops _) as [ops' dead]. cbn [fst snd] in *.
  destruct (live1_spec o dead (needed ops) Hfew Hwf IH2) as (P1 & P2 & P3).
  destruct (live1 _ _ o dead) as [[o' m] d]. cbn [fst snd] in *. split_and!.
  - cbn. by rewrite IH1, P1.
  - exact P2.
  - intros [|i] o1 Hi Hm Hd; [|by apply IH3]. cbn in Hi. injection Hi as <-. change (drop 1 (o :: ops)) with ops in *.
    destruct (P3 Hm Hd) as (m1 & -> & Hk). exists m1. cbn. rewrite P1, Hd. split; [done|exact Hk].
Qed.

End spec.
