(* ===== verification/TcgAlloc.v ===== *)
(** * TCG register allocation and code generation

    The temporaries, the register allocator and [tcg_gen_code_common] of
    tcg/tcg.c.  The instructions that the functions [tcg_out_*] of the host
    write are values; X86Out.v and X86Op.v give their encoding. *)

From stdpp Require Import base gmap list.
From S2P Require Import Prelude TcgData TcgLive.
Local Open Scope Z_scope.
Local Coercion Z.of_nat : nat >-> Z.

(** ** Temporaries and the context *)

Inductive temp_val := TEMP_VAL_DEAD | TEMP_VAL_REG | TEMP_VAL_MEM | TEMP_VAL_CONST.
#[export] Instance temp_val_eq_dec : EqDecision temp_val.
Proof. solve_decision. Defined.

Record TCGTemp := mkTemp {
  base_type : TCGType; ttype : TCGType; val_type : temp_val; treg : Z; tval : Z; mem_reg : Z; mem_offset : Z;
  fixed_reg : bool; mem_coherent : bool; mem_allocated : bool; temp_local : bool;
  temp_allocated : bool; next_free_temp : Z
}.
#[export] Instance eta_TCGTemp : Eta TCGTemp := λ t,
  mkTemp (base_type t) (ttype t) (val_type t) (treg t) (tval t) (mem_reg t) (mem_offset t) (fixed_reg t)
    (mem_coherent t) (mem_allocated t) (temp_local t) (temp_allocated t) (next_free_temp t).
#[export] Instance upd_base_type : Setter base_type := ltac:(mk_setter).
#[export] Instance upd_ttype : Setter ttype := ltac:(mk_setter).
#[export] Instance upd_val_type : Setter val_type := ltac:(mk_setter).
#[export] Instance upd_treg : Setter treg := ltac:(mk_setter).
#[export] Instance upd_tval : Setter tval := ltac:(mk_setter).
#[export] Instance upd_mem_reg : Setter mem_reg := ltac:(mk_setter).
#[export] Instance upd_mem_offset : Setter mem_offset := ltac:(mk_setter).
#[export] Instance upd_fixed_reg : Setter fixed_reg := ltac:(mk_setter).
#[export] Instance upd_mem_coherent : Setter mem_coherent := ltac:(mk_setter).
#[export] Instance upd_mem_allocated : Setter mem_allocated := ltac:(mk_setter).
#[export] Instance upd_temp_local : Setter temp_local := ltac:(mk_setter).
#[export] Instance upd_temp_allocated : Setter temp_allocated := ltac:(mk_setter).
#[export] Instance upd_next_free_temp : Setter next_free_temp := ltac:(mk_setter).

(** The instructions of the host. *)
Inductive hinsn :=
  | HMov (ty : TCGType) (ret arg : Z)
  | HMovi (ty : TCGType) (ret val : Z)
  | HLd (ty : TCGType) (ret base offset : Z)
  | HSt (ty : TCGType) (arg base offset : Z)
  | HAddi (reg val : Z)
  | HOp (op : TCGOpcode) (args : list Z) (const_args : list bool)
  | HLabel (label : Z).

Record TCGContext := mkCtx {
  temps : list TCGTemp; nb_globals : nat; nb_temps : nat; first_free_temp : list Z;
  reg_to_temp : list Z; reserved_regs : TCGRegSet;
  current_frame_offset : Z; frame_start : Z; frame_end : Z; frame_reg : Z;
  has_value : list bool; code : list hinsn
}.
#[export] Instance eta_TCGContext : Eta TCGContext := λ s,
  mkCtx (temps s) (nb_globals s) (nb_temps s) (first_free_temp s) (reg_to_temp s) (reserved_regs s)
    (current_frame_offset s) (frame_start s) (frame_end s) (frame_reg s) (has_value s) (code s).
#[export] Instance upd_temps : Setter temps := ltac:(mk_setter).
#[export] Instance upd_nb_globals : Setter nb_globals := ltac:(mk_setter).
#[export] Instance upd_nb_temps : Setter nb_temps := ltac:(mk_setter).
#[export] Instance upd_first_free_temp : Setter first_free_temp := ltac:(mk_setter).
#[export] Instance upd_reg_to_temp : Setter reg_to_temp := ltac:(mk_setter).
#[export] Instance upd_reserved_regs : Setter reserved_regs := ltac:(mk_setter).
#[export] Instance upd_current_frame_offset : Setter current_frame_offset := ltac:(mk_setter).
#[export] Instance upd_frame_start : Setter frame_start := ltac:(mk_setter).
#[export] Instance upd_frame_end : Setter frame_end := ltac:(mk_setter).
#[export] Instance upd_frame_reg : Setter frame_reg := ltac:(mk_setter).
#[export] Instance upd_has_value : Setter has_value := ltac:(mk_setter).
#[export] Instance upd_code : Setter code := ltac:(mk_setter).

Definition TCG_MAX_TEMPS : nat := 512.
Definition TCG_MAX_LABELS : nat := 512.

Definition out (s : TCGContext) (i : hinsn) : TCGContext := s <| code := code s ++ [i] |>.
Definition get_temp (s : TCGContext) (k : Z) : result TCGTemp := aref (temps s) k.
Definition set_temp (s : TCGContext) (k : Z) (f : TCGTemp → TCGTemp) : TCGContext :=
  s <| temps := alter f (Z.to_nat k) (temps s) |>.
Definition set_reg (s : TCGContext) (reg k : Z) : TCGContext :=
  s <| reg_to_temp := <[Z.to_nat reg := k]> (reg_to_temp s) |>.

(** ** Creation of temporaries *)

Definition TCG_TYPE_COUNT : Z := 2.
Definition type_index (ty : TCGType) : Z := match ty with TCG_TYPE_I32 => 0 | TCG_TYPE_I64 => 1 end.

Definition tcg_temp_alloc (n : nat) : result unit := assert_ (n <=? TCG_MAX_TEMPS)%nat.

Definition tcg_global_reg_new_internal (s : TCGContext) (ty : TCGType) (reg : Z) : result (TCGContext * nat) :=
  _ <- assert_ (negb (tcg_regset_test_reg (reserved_regs s) reg)) ;;
  let idx := nb_globals s in
  _ <- tcg_temp_alloc (nb_globals s + 1) ;;
  let s := set_temp s idx (λ ts, ts <| base_type := ty |> <| ttype := ty |> <| fixed_reg := true |> <| treg := reg |>) in
  Ok (s <| nb_globals := S idx |> <| reserved_regs := tcg_regset_set_reg (reserved_regs s) reg |>, idx).

Definition tcg_global_mem_new_internal (s : TCGContext) (ty : TCGType) (reg offset : Z) : result (TCGContext * nat) :=
  let idx := nb_globals s in
  _ <- tcg_temp_alloc (nb_globals s + 1) ;;
  let s := set_temp s idx (λ ts, ts <| base_type := ty |> <| ttype := ty |> <| fixed_reg := false |>
             <| mem_allocated := true |> <| mem_reg := reg |> <| mem_offset := offset |>) in
  Ok (s <| nb_globals := S idx |>, idx).

Definition tcg_temp_new_internal (s : TCGContext) (ty : TCGType) (local : bool) : result (TCGContext * Z) :=
  let k := type_index ty + (if local then TCG_TYPE_COUNT else 0) in
  idx <- aref (first_free_temp s) k ;;
  if negb (idx =? -1) then
    ts <- get_temp s idx ;;
    let s := s <| first_free_temp := <[Z.to_nat k := next_free_temp ts]> (first_free_temp s) |> in
    let s := set_temp s idx (λ ts, ts <| temp_allocated := true |>) in
    _ <- assert_ (bool_decide (temp_local ts = local)) ;;
    Ok (s, idx)
  else
    let idx := nb_temps s in
    _ <- tcg_temp_alloc (nb_temps s + 1) ;;
    let s := set_temp s idx (λ ts, ts <| base_type := ty |> <| ttype := ty |> <| temp_allocated := true |>
               <| temp_local := local |>) in
    Ok (s <| nb_temps := S idx |>, idx : Z).

Definition tcg_temp_free_internal (s : TCGContext) (idx : Z) : result TCGContext :=
  _ <- assert_ ((nb_globals s <=? idx) && (idx <? nb_temps s)) ;;
  ts <- get_temp s idx ;;
  _ <- assert_ (temp_allocated ts) ;;
  let k := type_index (base_type ts) + (if temp_local ts then TCG_TYPE_COUNT else 0) in
  head <- aref (first_free_temp s) k ;;
  let s := set_temp s idx (λ ts, ts <| temp_allocated := false |> <| next_free_temp := head |>) in
  Ok (s <| first_free_temp := <[Z.to_nat k := idx]> (first_free_temp s) |>).

Definition gen_new_label (s : TCGContext) : result (TCGContext * nat) :=
  _ <- assert_ (negb (TCG_MAX_LABELS <=? length (has_value s))%nat) ;;
  Ok (s <| has_value := has_value s ++ [false] |>, length (has_value s)).

Definition tcg_set_frame (s : TCGContext) (reg start size : Z) : TCGContext :=
  s <| frame_start := start |> <| frame_end := start + size |> <| frame_reg := reg |>.

(** The part of [tcg_func_start] on the context. *)
Definition tcg_func_start (s : TCGContext) : TCGContext :=
  s <| nb_temps := nb_globals s |> <| first_free_temp := replicate (Z.to_nat (TCG_TYPE_COUNT * 2)) (-1) |>
    <| has_value := [] |> <| current_frame_offset := frame_start s |>.

(** ** The allocator *)

Definition start_temp (nb_globals i : nat) (ts : TCGTemp) : TCGTemp :=
  if (i <? nb_globals)%nat then ts <| val_type := if fixed_reg ts then TEMP_VAL_REG else TEMP_VAL_MEM |>
  else ts <| val_type := TEMP_VAL_DEAD |> <| mem_allocated := false |> <| fixed_reg := false |>.

Definition tcg_reg_alloc_start (s : TCGContext) : TCGContext :=
  s <| temps := imap (λ i ts, if (i <? nb_temps s)%nat then start_temp (nb_globals s) i ts else ts) (temps s) |>
    <| reg_to_temp := replicate TCG_TARGET_NB_REGS (-1) |>.

(** [sizeof(tcg_target_long)] is 8. *)
Definition temp_allocate_frame (s : TCGContext) (temp : Z) : result TCGContext :=
  let off := (current_frame_offset s + 8 - 1) .& .~ (8 - 1) in
  if frame_end s <? off + 8 then Er EAbort
  else
    let s := set_temp s temp (λ ts, ts <| mem_offset := off |> <| mem_reg := frame_reg s |> <| mem_allocated := true |>) in
    Ok (s <| current_frame_offset := off + 8 |>).

(** The slot of a temporary is allocated if need be. *)
Definition ensure_frame (s : TCGContext) (temp : Z) : result TCGContext :=
  ts <- get_temp s temp ;;
  if mem_allocated ts then Ok s else temp_allocate_frame s temp.

Definition tcg_reg_free (s : TCGContext) (reg : Z) : result TCGContext :=
  temp <- aref (reg_to_temp s) reg ;;
  if temp =? -1 then Ok s
  else
    ts <- get_temp s temp ;;
    _ <- assert_ (bool_decide (val_type ts = TEMP_VAL_REG)) ;;
    s <- (if mem_coherent ts then Ok s
          else
            s <- ensure_frame s temp ;;
            ts <- get_temp s temp ;;
            Ok (out s (HSt (ttype ts) reg (mem_reg ts) (mem_offset ts)))) ;;
    Ok (set_reg (set_temp s temp (λ ts, ts <| val_type := TEMP_VAL_MEM |>)) reg (-1)).

Fixpoint find_free_reg (s : TCGContext) (reg_ct : TCGRegSet) (order : list Z) : result (option Z) :=
  match order with
  | [] => Ok None
  | reg :: order =>
      if tcg_regset_test_reg reg_ct reg then
        k <- aref (reg_to_temp s) reg ;;
        if k =? -1 then Ok (Some reg) else find_free_reg s reg_ct order
      else find_free_reg s reg_ct order
  end.

Definition tcg_reg_alloc (s : TCGContext) (reg1 reg2 : TCGRegSet) : result (TCGContext * Z) :=
  let reg_ct := tcg_regset_andnot reg1 reg2 in
  free <- find_free_reg s reg_ct tcg_target_reg_alloc_order ;;
  match free with
  | Some reg => Ok (s, reg)
  | None =>
      match List.find (tcg_regset_test_reg reg_ct) tcg_target_reg_alloc_order with
      | Some reg => s <- tcg_reg_free s reg ;; Ok (s, reg)
      | None => Er EAbort
      end
  end.

Definition temp_save (s : TCGContext) (temp : Z) (allocated_regs : TCGRegSet) : result TCGContext :=
  ts <- get_temp s temp ;;
  if fixed_reg ts then Ok s
  else
    match val_type ts with
    | TEMP_VAL_REG => tcg_reg_free s (treg ts)
    | TEMP_VAL_DEAD => Ok (set_temp s temp (λ ts, ts <| val_type := TEMP_VAL_MEM |>))
    | TEMP_VAL_CONST =>
        '(s, reg) <- tcg_reg_alloc s (tcg_target_available_regs (ttype ts)) allocated_regs ;;
        s <- ensure_frame s temp ;;
        ts <- get_temp s temp ;;
        let s := out s (HMovi (ttype ts) reg (tval ts)) in
        let s := out s (HSt (ttype ts) reg (mem_reg ts) (mem_offset ts)) in
        Ok (set_temp s temp (λ ts, ts <| val_type := TEMP_VAL_MEM |>))
    | TEMP_VAL_MEM => Ok s
    end.

(** [for (i = lo; i < lo + n; i++)] *)
Fixpoint for_temps (n lo : nat) (f : TCGContext → Z → result TCGContext) (s : TCGContext) : result TCGContext :=
  match n with
  | O => Ok s
  | S n => s <- f s lo ;; for_temps n (S lo) f s
  end.

Definition save_globals (s : TCGContext) (allocated_regs : TCGRegSet) : result TCGContext :=
  for_temps (nb_globals s) 0 (λ s i, temp_save s i allocated_regs) s.

(** Forget the register of a temporary, if it has one. *)
Definition drop_reg (s : TCGContext) (ts : TCGTemp) : TCGContext :=
  if bool_decide (val_type ts = TEMP_VAL_REG) then set_reg s (treg ts) (-1) else s.

Definition bb_end_temp (allocated_regs : TCGRegSet) (s : TCGContext) (i : Z) : result TCGContext :=
  ts <- get_temp s i ;;
  if temp_local ts then temp_save s i allocated_regs
  else Ok (set_temp (drop_reg s ts) i (λ ts, ts <| val_type := TEMP_VAL_DEAD |>)).

Definition tcg_reg_alloc_bb_end (s : TCGContext) (allocated_regs : TCGRegSet) : result TCGContext :=
  s <- for_temps (nb_temps s - nb_globals s) (nb_globals s) (bb_end_temp allocated_regs) s ;;
  save_globals s allocated_regs.

(** [args] begins at the parameters of the operation. *)
Definition tcg_reg_alloc_movi (s : TCGContext) (args : list Z) : result TCGContext :=
  o <- aref args 0 ;;
  val <- aref args 1 ;;
  ots <- get_temp s o ;;
  if fixed_reg ots then Ok (out s (HMovi (ttype ots) (treg ots) val))
  else Ok (set_temp (drop_reg s ots) o (λ ts, ts <| val_type := TEMP_VAL_CONST |> <| tval := val |>)).

Definition IS_DEAD_IARG (dead_iargs : Z) (n : Z) : bool := Z.testbit dead_iargs n.

(** The end of [tcg_reg_alloc_mov]: the output is in [reg]. *)
Definition mov_result (s : TCGContext) (o reg : Z) : TCGContext :=
  set_temp (set_reg s reg o) o (λ ts, ts <| treg := reg |> <| val_type := TEMP_VAL_REG |> <| mem_coherent := false |>).

Definition tcg_reg_alloc_mov (s : TCGContext) (op : TCGOpcode) (args : list Z) (dead_iargs : Z) : result TCGContext :=
  o <- aref args 0 ;;
  i <- aref args 1 ;;
  ots <- get_temp s o ;;
  ts <- get_temp s i ;;
  let regs := ct_regs (get_ct (args_ct (op_info op)) 0) in
  let out_reg s := if bool_decide (val_type ots = TEMP_VAL_REG) then Ok (s, treg ots) else tcg_reg_alloc s regs (reserved_regs s) in
  match val_type ts with
  | TEMP_VAL_REG =>
      if IS_DEAD_IARG dead_iargs 0 && negb (fixed_reg ts) && negb (fixed_reg ots) then
        (* the mov can be suppressed *)
        let s := drop_reg s ots in
        let s := set_reg s (treg ts) (-1) in
        let s := set_temp s i (λ ts, ts <| val_type := TEMP_VAL_DEAD |>) in
        Ok (mov_result s o (treg ts))
      else
        '(s, reg) <- out_reg s ;;
        ts <- get_temp s i ;;
        let s := if treg ts =? reg then s else out s (HMov (ttype ots) reg (treg ts)) in
        Ok (mov_result s o reg)
  | TEMP_VAL_MEM =>
      '(s, reg) <- out_reg s ;;
      ts <- get_temp s i ;;
      Ok (mov_result (out s (HLd (ttype ts) reg (mem_reg ts) (mem_offset ts))) o reg)
  | TEMP_VAL_CONST =>
      if fixed_reg ots then Ok (mov_result (out s (HMovi (ttype ots) (treg ots) (tval ts))) o (treg ots))
      else
        (* propagate constant *)
        let s := drop_reg s ots in
        Ok (set_temp s o (λ ots, ots <| val_type := TEMP_VAL_CONST |> <| tval := tval ts |>))
  | TEMP_VAL_DEAD => Er EAbort
  end.

(** ** Operations *)

(** The context, the arguments of the instruction, which are constants, and
    the registers in use. *)
Notation op_state := (TCGContext * list Z * list bool * TCGRegSet)%type.

(** An input is brought into a register, or is a constant the instruction takes. *)
Definition load_iarg (arg_ct : TCGArgConstraint) (s : TCGContext) (arg : Z) (allocated_regs : TCGRegSet)
    : result (TCGContext * option Z) :=
  ts <- get_temp s arg ;;
  match val_type ts with
  | TEMP_VAL_MEM =>
      '(s, reg) <- tcg_reg_alloc s (ct_regs arg_ct) allocated_regs ;;
      ts <- get_temp s arg ;;
      let s := out s (HLd (ttype ts) reg (mem_reg ts) (mem_offset ts)) in
      let s := set_temp s arg (λ ts, ts <| val_type := TEMP_VAL_REG |> <| treg := reg |> <| mem_coherent := true |>) in
      Ok (set_reg s reg arg, None)
  | TEMP_VAL_CONST =>
      if tcg_target_const_match (tval ts) arg_ct then Ok (s, Some (tval ts))
      else
        '(s, reg) <- tcg_reg_alloc s (ct_regs arg_ct) allocated_regs ;;
        let s := out s (HMovi (ttype ts) reg (tval ts)) in
        let s := set_temp s arg (λ ts, ts <| val_type := TEMP_VAL_REG |> <| treg := reg |> <| mem_coherent := false |>) in
        Ok (set_reg s reg arg, None)
  | _ => Ok (s, None)
  end.

Definition alloc_iarg (op : TCGOpcode) (args : list Z) (dead_iargs : Z) (st : op_state) (i : nat) : result op_state :=
  let '(s, new_args, const_args, allocated_regs) := st in
  let arg_ct := get_ct (args_ct (op_info op)) i in
  arg <- aref args i ;;
  '(s, const) <- load_iarg arg_ct s arg allocated_regs ;;
  match const with
  | Some v => Ok (s, <[i := v]> new_args, <[i := true]> const_args, allocated_regs)
  | None =>
      ts <- get_temp s arg ;;
      _ <- assert_ (bool_decide (val_type ts = TEMP_VAL_REG)) ;;
      alias <- (if has_flag (ct arg_ct) TCG_CT_IALIAS then
                  if fixed_reg ts then
                    a <- aref args (alias_index arg_ct) ;; Ok (negb (arg =? a))
                  else Ok (negb (IS_DEAD_IARG dead_iargs (i - nb_oargs (op_def op))))
                else Ok false) ;;
      '(s, reg) <- (if negb alias && tcg_regset_test_reg (ct_regs arg_ct) (treg ts) then Ok (s, treg ts)
                    else
                      (* allocate_in_reg *)
                      '(s, reg) <- tcg_reg_alloc s (ct_regs arg_ct) allocated_regs ;;
                      ts <- get_temp s arg ;;
                      Ok (out s (HMov (ttype ts) reg (treg ts)), reg)) ;;
      Ok (s, <[i := reg]> new_args, <[i := false]> const_args, tcg_regset_set_reg allocated_regs reg)
  end.

Definition alloc_oarg (op : TCGOpcode) (args : list Z) (st : op_state) (i : nat) : result op_state :=
  let '(s, new_args, const_args, allocated_regs) := st in
  let arg_ct := get_ct (args_ct (op_info op)) i in
  arg <- aref args i ;;
  ts <- get_temp s arg ;;
  if negb (has_flag (ct arg_ct) TCG_CT_ALIAS) && fixed_reg ts && tcg_regset_test_reg (ct_regs arg_ct) (treg ts) then
    Ok (s, <[i := treg ts]> new_args, const_args, allocated_regs)
  else
    '(s, reg) <- (if has_flag (ct arg_ct) TCG_CT_ALIAS then reg <- aref new_args (alias_index arg_ct) ;; Ok (s, reg)
                  else tcg_reg_alloc s (ct_regs arg_ct) allocated_regs) ;;
    let allocated_regs := tcg_regset_set_reg allocated_regs reg in
    ts <- get_temp s arg ;;
    let s := if fixed_reg ts then s
             else
               let s := drop_reg s ts in
               let s := set_temp s arg (λ ts, ts <| val_type := TEMP_VAL_REG |> <| treg := reg |> <| mem_coherent := false |>) in
               set_reg s reg arg in
    Ok (s, <[i := reg]> new_args, const_args, allocated_regs).

Fixpoint for_args (f : op_state → nat → result op_state) (l : list nat) (st : op_state) : result op_state :=
  match l with
  | [] => Ok st
  | i :: l => st <- f st i ;; for_args f l st
  end.

(** Dead inputs lose their registers. *)
Fixpoint mark_dead (s : TCGContext) (dead_iargs i : Z) (iargs : list Z) : result TCGContext :=
  match iargs with
  | [] => Ok s
  | arg :: iargs =>
      s <- (if IS_DEAD_IARG dead_iargs i then
              ts <- get_temp s arg ;;
              Ok (if fixed_reg ts then s else set_temp (drop_reg s ts) arg (λ ts, ts <| val_type := TEMP_VAL_DEAD |>))
            else Ok s) ;;
      mark_dead s dead_iargs (i + 1) iargs
  end.

Fixpoint free_regs (s : TCGContext) (regs : list Z) : result TCGContext :=
  match regs with
  | [] => Ok s
  | reg :: regs =>
      s <- (if tcg_regset_test_reg tcg_target_call_clobber_regs reg then tcg_reg_free s reg else Ok s) ;;
      free_regs s regs
  end.

Definition all_regs : list Z := seqZ 0 TCG_TARGET_NB_REGS.

(** Moves to the outputs that are fixed registers. *)
Fixpoint move_outputs (s : TCGContext) (oargs new_args : list Z) : result TCGContext :=
  match oargs with
  | [] => Ok s
  | arg :: oargs =>
      ts <- get_temp s arg ;;
      reg <- aref new_args 0 ;;
      let s := if fixed_reg ts && negb (treg ts =? reg) then out s (HMov (ttype ts) (treg ts) reg) else s in
      move_outputs s oargs (tail new_args)
  end.

Definition tcg_reg_alloc_op (s : TCGContext) (op : TCGOpcode) (args : list Z) (dead_iargs : Z) : result TCGContext :=
  let d := op_def op in
  let n := (nb_oargs d + nb_iargs d)%nat in
  cargs <- params args n (nb_cargs d) ;;
  iargs <- params args (nb_oargs d) (nb_iargs d) ;;
  oargs <- params args 0 (nb_oargs d) ;;
  let st := (s, replicate n 0 ++ cargs, replicate n false, reserved_regs s) in
  (* satisfy input constraints *)
  '(s, new_args, const_args, allocated_regs) <-
    for_args (alloc_iarg op args dead_iargs) (drop (nb_oargs d) (sorted_args (op_info op))) st ;;
  '(s, new_args) <-
    (if has_flag (op_flags d) TCG_OPF_BB_END then
       s <- tcg_reg_alloc_bb_end s allocated_regs ;; Ok (s, new_args)
     else
       s <- mark_dead s dead_iargs 0 iargs ;;
       s <- (if has_flag (op_flags d) TCG_OPF_CALL_CLOBBER then
               s <- free_regs s all_regs ;; save_globals s allocated_regs
             else Ok s) ;;
       (* satisfy the output constraints *)
       '(s, new_args, _, _) <-
         for_args (alloc_oarg op args) (take (nb_oargs d) (sorted_args (op_info op)))
           (s, new_args, const_args, reserved_regs s) ;;
       Ok (s, new_args)) ;;
  (* emit instruction *)
  let s := out s (HOp op new_args const_args) in
  move_outputs s oargs new_args.

(** ** Calls *)

Definition TCG_STATIC_CALL_ARGS_SIZE : Z := 128.
Definition TCG_TARGET_STACK_ALIGN : Z := 16.
Definition TCG_TARGET_CALL_STACK_OFFSET : Z := 0.
Definition TCG_REG_CALL_STACK : Z := TCG_REG_ESP.

(** Arguments on the stack. *)
Fixpoint stack_args (s : TCGContext) (args : list Z) (stack_offset : Z) : result TCGContext :=
  match args with
  | [] => Ok s
  | arg :: args =>
      s <- (if arg =? TCG_CALL_DUMMY_ARG then Ok s
            else
              ts <- get_temp s arg ;;
              match val_type ts with
              | TEMP_VAL_REG => Ok (out s (HSt (ttype ts) (treg ts) TCG_REG_CALL_STACK stack_offset))
              | TEMP_VAL_MEM =>
                  '(s, reg) <- tcg_reg_alloc s (tcg_target_available_regs (ttype ts)) (reserved_regs s) ;;
                  ts <- get_temp s arg ;;
                  let s := out s (HLd (ttype ts) reg (mem_reg ts) (mem_offset ts)) in
                  Ok (out s (HSt (ttype ts) reg TCG_REG_CALL_STACK stack_offset))
              | TEMP_VAL_CONST =>
                  '(s, reg) <- tcg_reg_alloc s (tcg_target_available_regs (ttype ts)) (reserved_regs s) ;;
                  let s := out s (HMovi (ttype ts) reg (tval ts)) in
                  Ok (out s (HSt (ttype ts) reg TCG_REG_CALL_STACK stack_offset))
              | TEMP_VAL_DEAD => Er EAbort
              end) ;;
      stack_args s args (stack_offset + 8)
  end.

(** Arguments in registers. *)
Fixpoint reg_args (s : TCGContext) (args regs : list Z) (allocated_regs : TCGRegSet)
    : result (TCGContext * TCGRegSet) :=
  match args, regs with
  | arg :: args, reg :: regs =>
      '(s, allocated_regs) <-
        (if arg =? TCG_CALL_DUMMY_ARG then Ok (s, allocated_regs)
         else
           s <- tcg_reg_free s reg ;;
           ts <- get_temp s arg ;;
           s <- match val_type ts with
                | TEMP_VAL_REG => Ok (if treg ts =? reg then s else out s (HMov (ttype ts) reg (treg ts)))
                | TEMP_VAL_MEM => Ok (out s (HLd (ttype ts) reg (mem_reg ts) (mem_offset ts)))
                | TEMP_VAL_CONST => Ok (out s (HMovi (ttype ts) reg (tval ts)))
                | TEMP_VAL_DEAD => Er EAbort
                end ;;
           Ok (s, tcg_regset_set_reg allocated_regs reg)) ;;
      reg_args s args regs allocated_regs
  | _, _ => Ok (s, allocated_regs)
  end.

(** The address of the function: a constant or a register. *)
Definition func_addr (s : TCGContext) (func_arg : Z) (allocated_regs : TCGRegSet)
    : result (TCGContext * Z * bool * TCGRegSet) :=
  let arg_ct := get_ct (args_ct (op_info INDEX_op_call)) 0 in
  ts <- get_temp s func_arg ;;
  match val_type ts with
  | TEMP_VAL_MEM =>
      '(s, reg) <- tcg_reg_alloc s (ct_regs arg_ct) allocated_regs ;;
      ts <- get_temp s func_arg ;;
      let s := out s (HLd (ttype ts) reg (mem_reg ts) (mem_offset ts)) in
      Ok (s, reg, false, tcg_regset_set_reg allocated_regs reg)
  | TEMP_VAL_REG =>
      '(s, reg) <- (if tcg_regset_test_reg (ct_regs arg_ct) (treg ts) then Ok (s, treg ts)
                    else
                      '(s, reg) <- tcg_reg_alloc s (ct_regs arg_ct) allocated_regs ;;
                      ts <- get_temp s func_arg ;;
                      Ok (out s (HMov (ttype ts) reg (treg ts)), reg)) ;;
      Ok (s, reg, false, tcg_regset_set_reg allocated_regs reg)
  | TEMP_VAL_CONST =>
      if tcg_target_const_match (tval ts) arg_ct then Ok (s, tval ts, true, allocated_regs)
      else
        '(s, reg) <- tcg_reg_alloc s (ct_regs arg_ct) allocated_regs ;;
        let s := out s (HMovi (ttype ts) reg (tval ts)) in
        Ok (s, reg, false, tcg_regset_set_reg allocated_regs reg)
  | TEMP_VAL_DEAD => Er EAbort
  end.

(** The results of a call. *)
Fixpoint call_oargs (s : TCGContext) (oargs regs : list Z) : result TCGContext :=
  match oargs, regs with
  | [], _ => Ok s
  | arg :: oargs, reg :: regs =>
      ts <- get_temp s arg ;;
      k <- aref (reg_to_temp s) reg ;;
      _ <- assert_ (k =? -1) ;;
      let s := if fixed_reg ts then
                 (if treg ts =? reg then s else out s (HMov (ttype ts) (treg ts) reg))
               else
                 let s := drop_reg s ts in
                 let s := set_temp s arg (λ ts, ts <| val_type := TEMP_VAL_REG |> <| treg := reg |> <| mem_coherent := false |>) in
                 set_reg s reg arg in
      call_oargs s oargs regs
  | _ :: _, [] => Er EFault
  end.

(** The context, and the number of parameters. *)
Definition tcg_reg_alloc_call (s : TCGContext) (args : list Z) (dead_iargs : Z) : result (TCGContext * Z) :=
  arg <- aref args 0 ;;
  let nb_oargs_ := arg_int (arg >>. 16) in
  let nb_iargs_ := arg_int (arg .& 0xffff) in
  let nb_params := nb_iargs_ - 1 in
  flags <- aref args (1 + nb_oargs_ + nb_iargs_) ;;
  oargs <- params args 1 nb_oargs_ ;;
  iargs <- params args (1 + nb_oargs_) nb_iargs_ ;;
  let nb_regs := Z.min (tcg_target_get_call_iarg_regs_count flags) nb_params in
  (* assign stack slots first *)
  let call_stack_size := (nb_params - nb_regs) * 8 in
  let call_stack_size := (call_stack_size + TCG_TARGET_STACK_ALIGN - 1) .& .~ (TCG_TARGET_STACK_ALIGN - 1) in
  let allocate_args := TCG_STATIC_CALL_ARGS_SIZE <? call_stack_size in
  let s := if allocate_args then out s (HAddi TCG_REG_CALL_STACK (- call_stack_size)) else s in
  let pargs := take (Z.to_nat nb_params) iargs in
  s <- stack_args s (drop (Z.to_nat nb_regs) pargs) TCG_TARGET_CALL_STACK_OFFSET ;;
  (* assign input registers *)
  '(s, allocated_regs) <- reg_args s (take (Z.to_nat nb_regs) pargs) tcg_target_call_iarg_regs (reserved_regs s) ;;
  (* assign function address *)
  func_arg <- aref iargs nb_params ;;
  '(s, func, const_func_arg, allocated_regs) <- func_addr s func_arg allocated_regs ;;
  s <- mark_dead s dead_iargs 0 iargs ;;
  (* clobber call registers *)
  s <- free_regs s all_regs ;;
  s <- (if has_flag flags TCG_CALL_CONST then Ok s else save_globals s allocated_regs) ;;
  let s := out s (HOp INDEX_op_call [func] [const_func_arg]) in
  let s := if allocate_args then out s (HAddi TCG_REG_CALL_STACK call_stack_size) else s in
  (* assign output registers *)
  s <- call_oargs s oargs tcg_target_call_oarg_regs ;;
  Ok (s, nb_iargs_ + nb_oargs_ + nb_cargs (op_def INDEX_op_call) + 1).

(** ** Code generation *)

(** Whether the map of the registers and that of the temporaries agree. *)
Definition check_reg (s : TCGContext) (reg : Z) : bool :=
  match aref (reg_to_temp s) reg with
  | Ok k =>
      if k <? 0 then true
      else match get_temp s k with
           | Ok ts => bool_decide (val_type ts = TEMP_VAL_REG) && (treg ts =? reg)
           | Er _ => false
           end
  | Er _ => false
  end.

Definition check_temp (s : TCGContext) (k : nat) : bool :=
  match get_temp s k with
  | Ok ts =>
      if bool_decide (val_type ts = TEMP_VAL_REG) && negb (fixed_reg ts) then
        match aref (reg_to_temp s) (treg ts) with Ok j => j =? k | Er _ => false end
      else true
  | Er _ => false
  end.

Definition check_regs (s : TCGContext) : result unit :=
  assert_ (forallb (check_reg s) all_regs && forallb (check_temp s) (seq 0 (nb_temps s))).

Definition tcg_out_label (s : TCGContext) (label : Z) : result TCGContext :=
  h <- aref (has_value s) label ;;
  if h : bool then Er EAbort
  else Ok ((out s (HLabel label)) <| has_value := <[Z.to_nat label := true]> (has_value s) |>).

(** One operation: the context and the rest of the parameters. *)
Definition gen_op (s : TCGContext) (op : TCGOpcode) (args : list Z) (dead_iargs : option Z) : result (TCGContext * Z) :=
  let n := nb_args (op_def op) : Z in
  if (op =? INDEX_op_mov_i32)%nat || (op =? INDEX_op_mov_i64)%nat then
    m <- deref dead_iargs ;;
    s <- tcg_reg_alloc_mov s op args m ;; Ok (s, n)
  else if (op =? INDEX_op_movi_i32)%nat || (op =? INDEX_op_movi_i64)%nat then
    s <- tcg_reg_alloc_movi s args ;; Ok (s, n)
  else if (op =? INDEX_op_debug_insn_start)%nat then Ok (s, n)
  else if (op =? INDEX_op_nop)%nat || (op =? INDEX_op_nop1)%nat || (op =? INDEX_op_nop2)%nat || (op =? INDEX_op_nop3)%nat then
    Ok (s, n)
  else if (op =? INDEX_op_nopn)%nat then
    k <- aref args 0 ;; Ok (s, k)
  else if (op =? INDEX_op_discard)%nat then
    t <- aref args 0 ;;
    ts <- get_temp s t ;;
    Ok (if fixed_reg ts then s else set_temp (drop_reg s ts) t (λ ts, ts <| val_type := TEMP_VAL_DEAD |>), n)
  else if (op =? INDEX_op_set_label)%nat then
    s <- tcg_reg_alloc_bb_end s (reserved_regs s) ;;
    l <- aref args 0 ;;
    s <- tcg_out_label s l ;; Ok (s, n)
  else if (op =? INDEX_op_call)%nat then
    m <- deref dead_iargs ;;
    tcg_reg_alloc_call s args m
  else
    m <- deref dead_iargs ;;
    s <- tcg_reg_alloc_op s op args m ;; Ok (s, n).

(** The loop of [tcg_gen_code_common]; the operations end with [INDEX_op_end]. *)
Fixpoint gen_loop (ops : list TCGOpcode) (op_index : nat) (dead_iargs : gmap nat Z) (s : TCGContext) (args : list Z)
    : result TCGContext :=
  match ops with
  | [] => Er EFault
  | op :: ops =>
      if (op =? INDEX_op_end)%nat then Ok s
      else
        '(s, n) <- gen_op s op args (dead_iargs !! op_index) ;;
        _ <- (if n <? 0 then Er EFault else Ok tt) ;;
        _ <- check_regs s ;;
        gen_loop ops (S op_index) dead_iargs s (drop (Z.to_nat n) args)
  end.

Definition tcg_gen_code (s : TCGContext) (gen_opc_buf : list TCGOpcode) (gen_opparam_buf : list Z) : result TCGContext :=
  '(opc, par, dead_iargs) <-
    tcg_liveness_analysis (nb_globals s) (temp_local <$> take (nb_temps s) (temps s)) gen_opc_buf gen_opparam_buf ;;
  gen_loop opc 0 dead_iargs (tcg_reg_alloc_start s <| code := [] |>) par.
