(* ===== verification/TcgSem.v ===== *)
(** * Meaning of TCG operations and of host code

    The operations work on the values of the temporaries and on a memory; the
    instructions of the host on registers and on the slots of the temporaries.
    A slot is named by its base register and offset: the base registers are
    reserved and slots do not overlap.  What an operation or a helper computes
    is a parameter, the same on both sides: [tcg_out_op] emits code that
    computes the operation on the registers. *)

From Stdlib Require Import String.
From stdpp Require Import base gmap list functions.
From S2P Require Import Prelude TcgData TcgLive TcgAlloc.
Local Open Scope Z_scope.
Local Coercion Z.of_nat : nat >-> Z.

(** ** Values *)

Definition bits (ty : TCGType) : Z := match ty with TCG_TYPE_I32 => 32 | TCG_TYPE_I64 => 64 end.

(** The bits of a value that count at a type; the others may be anything. *)
Definition conv (ty : TCGType) (v : Z) : Z := wrap (bits ty) v.
Definition eqv (ty : TCGType) (v w : Z) : Prop := conv ty v = conv ty w.

#[export] Instance eqv_equiv ty : Equivalence (eqv ty).
Proof. split; unfold eqv; [intros ?; done|intros ? ? ?; done|intros ? ? ? ? ?; congruence]. Qed.

Lemma eqv_conv ty v : eqv ty (conv ty v) v.
Proof. unfold eqv, conv, wrap. apply Z.mod_mod. destruct ty; cbn; lia. Qed.

(** Where control goes after an operation. *)
Inductive flow := FNext | FJump (label : Z) | FExit.

Definition INDEX_op_br : TCGOpcode := Eval vm_compute in INDEX_op "br".
Definition INDEX_op_brcond_i32 : TCGOpcode := Eval vm_compute in INDEX_op "brcond_i32".
Definition INDEX_op_brcond_i64 : TCGOpcode := Eval vm_compute in INDEX_op "brcond_i64".

(** Operations that jump although [TCG_OPF_BB_END] is not among their flags:
    [patch] is a jump to its label that is later made one to a trace, and the
    code of [cmp_ibchain] goes on elsewhere. *)
Definition steers (op : TCGOpcode) : bool := (op =? INDEX_op_patch)%nat || (op =? INDEX_op_cmp_ibchain)%nat.

(** The labels of the parameters of a branch. *)
Definition op_labels (op : TCGOpcode) (cargs : list Z) : list Z :=
  if (op =? INDEX_op_br)%nat || (op =? INDEX_op_patch)%nat then take 1 cargs
  else if (op =? INDEX_op_brcond_i32)%nat || (op =? INDEX_op_brcond_i64)%nat then take 1 (drop 1 cargs)
  else [].

Section sem.
  Context {M : Type}.

(** What is fixed of a context during the generation of code. *)
Record frame_info := mkFI {
  fi_nb_globals : nat;
  fi_type : nat → TCGType;
  fi_fixed : nat → bool;
  fi_local : nat → bool;
  fi_home : nat → Z * Z; (* of a global in memory *)
  fi_reg : nat → Z (* of a global in a register *)
}.

(** [op_sem op cargs inputs globals memory] are the outputs, the globals and
    the memory after, [call_sem func params globals memory] likewise.
    [op_type op n] is the type of input [n] of an operation; [fn_sig] gives the
    types of the parameters a helper looks at, [fn_pure] and [fn_const] what
    the flags of its calls may say.  [op_flow op cargs inputs memory] says
    where control goes. *)
Record tcg_sem := mkSem {
  op_sem : TCGOpcode → list Z → list Z → (nat → Z) → M → list Z * (nat → Z) * M;
  op_type : TCGOpcode → nat → TCGType;
  op_flow : TCGOpcode → list Z → list Z → M → flow;
  call_sem : Z → (nat → Z) → (nat → Z) → M → (nat → Z) * (nat → Z) * M;
  fn_sig : Z → list (option TCGType);
  fn_pure : Z → bool;
  fn_const : Z → bool
}.

Context (fi : frame_info) (sem : tcg_sem).

Definition mem_global (t : nat) : bool := (t <? fi_nb_globals fi)%nat && negb (fi_fixed fi t).
Definition merge_globals (g vals : nat → Z) : nat → Z := λ t, if mem_global t then g t else vals t.
Definition globals_eqv (g g' : nat → Z) : Prop := ∀ t, mem_global t = true → eqv (fi_type fi t) (g t) (g' t).

(** Operations and helpers look only at the bits of the types of their inputs
    and at the globals.  By tcg/README, operations without side effects leave
    the memory alone, a pure function only reads, and a const function does
    not use the globals.  Only operations at the end of a basic block, [patch]
    and [cmp_ibchain] change the flow of control, and branches go to their
    labels. *)
Class SemOk : Prop := {
  op_sem_length op cargs ins gs m : length (op_sem sem op cargs ins gs m).1.1 = nb_oargs (op_def op);
  op_sem_eqv op cargs ins ins' gs gs' m :
    length ins = length ins' →
    (∀ n v v', ins !! n = Some v → ins' !! n = Some v' → eqv (op_type sem op n) v v') → globals_eqv gs gs' →
    let '(outs, g, m1) := op_sem sem op cargs ins gs m in
    let '(outs', g', m2) := op_sem sem op cargs ins' gs' m in
    outs = outs' ∧ globals_eqv g g' ∧ m1 = m2;
  op_flow_eqv op cargs ins ins' m :
    length ins = length ins' →
    (∀ n v v', ins !! n = Some v → ins' !! n = Some v' → eqv (op_type sem op n) v v') →
    op_flow sem op cargs ins m = op_flow sem op cargs ins' m;
  op_flow_next op cargs ins m :
    has_flag (op_flags (op_def op)) TCG_OPF_BB_END = false → steers op = false → op_flow sem op cargs ins m = FNext;
  op_flow_label op cargs ins m l : op_flow sem op cargs ins m = FJump l → l ∈ op_labels op cargs;
  op_sem_mem op cargs ins gs m :
    has_flag (op_flags (op_def op)) TCG_OPF_SIDE_EFFECTS = false → (op_sem sem op cargs ins gs m).2 = m;
  call_sem_eqv f ps ps' gs gs' m :
    (∀ n ty, fn_sig sem f !! n = Some (Some ty) → eqv ty (ps n) (ps' n)) → fn_const sem f = true ∨ globals_eqv gs gs' →
    let '(outs, g, m1) := call_sem sem f ps gs m in
    let '(outs', g', m2) := call_sem sem f ps' gs' m in
    (∀ n, outs n = outs' n) ∧ (globals_eqv gs gs' → globals_eqv g g') ∧ m1 = m2;
  call_sem_const f ps gs m t : fn_const sem f = true → mem_global t = true → (call_sem sem f ps gs m).1.2 t = gs t;
  call_sem_pure f ps gs m :
    fn_pure sem f = true →
    (call_sem sem f ps gs m).2 = m ∧ ∀ t, mem_global t = true → (call_sem sem f ps gs m).1.2 t = gs t
}.

(** The operation leads to the next one. *)
Definition falls (op : TCGOpcode) : Prop := ∀ cargs ins m, op_flow sem op cargs ins m = FNext.
Definition op_falls (o : tcgop) : Prop :=
  match o with TOp op _ _ _ => has_flag (op_flags (op_def op)) TCG_OPF_BB_END = false → falls op | _ => True end.

(** ** Operations *)

Fixpoint set_outs (oargs : list Z) (outs : list Z) (vals : nat → Z) : nat → Z :=
  match oargs, outs with
  | a :: oargs, v :: outs => set_outs oargs outs (<[Z.to_nat a := v]> vals)
  | _, _ => vals
  end.

Definition is_mov (op : TCGOpcode) : bool := (op =? INDEX_op_mov_i32)%nat || (op =? INDEX_op_mov_i64)%nat.
Definition is_movi (op : TCGOpcode) : bool := (op =? INDEX_op_movi_i32)%nat || (op =? INDEX_op_movi_i64)%nat.
Definition is_nop (op : TCGOpcode) : bool :=
  (op =? INDEX_op_nop)%nat || (op =? INDEX_op_nop1)%nat || (op =? INDEX_op_nop2)%nat || (op =? INDEX_op_nop3)%nat.

Definition arg_vals (vals : nat → Z) (args : list Z) : list Z := (λ a, vals (Z.to_nat a)) <$> args.

(** Only operations that clobber as calls do see the globals. *)
Definition clobbers (op : TCGOpcode) : bool := has_flag (op_flags (op_def op)) TCG_OPF_CALL_CLOBBER.
Definition seen_globals (op : TCGOpcode) (gs : nat → Z) : nat → Z := if clobbers op then gs else λ _, 0.

(** The parameters of a call, by position; the last input is the function. *)
Definition call_params (vals : nat → Z) (iargs : list Z) : nat → Z := λ n, vals (Z.to_nat (default 0 (iargs !! n))).
Definition call_func (vals : nat → Z) (iargs : list Z) : Z :=
  conv TCG_TYPE_I64 (call_params vals iargs (pred (length iargs))).

Fixpoint sig_ok (sig : list (option TCGType)) (params : list Z) : bool :=
  match sig, params with
  | [], _ => true
  | None :: sig, _ :: params => sig_ok sig params
  | Some ty :: sig, a :: params =>
      negb (a =? TCG_CALL_DUMMY_ARG) && (bits ty <=? bits (fi_type fi (Z.to_nat a))) && sig_ok sig params
  | _ :: _, [] => false
  end.

(** Whether a call suits the function. *)
Definition call_ok (f : Z) (iargs : list Z) (flags : Z) : bool :=
  implb (has_flag flags TCG_CALL_PURE) (fn_pure sem f) && implb (has_flag flags TCG_CALL_CONST) (fn_const sem f) &&
  sig_ok (fn_sig sem f) (take (pred (length iargs)) iargs).

(** One step; a discarded temporary gets [v].  A call that does not suit the
    function has no meaning. *)
Definition tcg_step (v : Z) (o : tcgop) (st : (nat → Z) * M) : option ((nat → Z) * M) :=
  let '(vals, m) := st in
  match o with
  | TNopn _ => Some st
  | TOp op oargs iargs cargs =>
      if is_nop op || (op =? INDEX_op_debug_insn_start)%nat || (op =? INDEX_op_set_label)%nat then Some st
      else if is_mov op then Some (set_outs oargs (arg_vals vals iargs) vals, m)
      else if is_movi op then Some (set_outs oargs cargs vals, m)
      else if (op =? INDEX_op_discard)%nat then Some (set_outs oargs [v] vals, m)
      else
        let '(outs, g, m') := op_sem sem op cargs (arg_vals vals iargs) (seen_globals op vals) m in
        Some (set_outs oargs outs (if clobbers op then merge_globals g vals else vals), m')
  | TCall oargs iargs flags =>
      let f := call_func vals iargs in
      if call_ok f iargs flags then
        let '(outs, g, m') := call_sem sem f (call_params vals iargs) vals m in
        Some (set_outs oargs (outs <$> seq 0 (length oargs)) (merge_globals g vals), m')
      else None
  end.

(** *** Programs *)

Definition tcg_flow (o : tcgop) (st : (nat → Z) * M) : flow :=
  match o with TOp op _ iargs cargs => op_flow sem op cargs (arg_vals st.1 iargs) st.2 | _ => FNext end.

Definition is_label (l : Z) (o : tcgop) : bool :=
  match o with TOp op _ _ (l' :: _) => (op =? INDEX_op_set_label)%nat && (l' =? l) | _ => false end.

(** The operation after a label. *)
Definition after_label (ops : list tcgop) (l : Z) : option nat :=
  (λ p, S p.1) <$> list_find (λ o, is_label l o = true) ops.

(** One operation; no operation is next after an exit. *)
Definition tcg_next (ops : list tcgop) (v : Z) (pc : nat) (st : (nat → Z) * M) : option (option nat * ((nat → Z) * M)) :=
  o ← ops !! pc; st' ← tcg_step v o st;
  match tcg_flow o st with
  | FNext => Some (Some (S pc), st')
  | FJump l => j ← after_label ops l; Some (Some j, st')
  | FExit => Some (None, st')
  end.

(** As many operations as there are values for discarded temporaries, or all
    until an exit. *)
Fixpoint tcg_exec (ops : list tcgop) (vs : list Z) (pc : nat) (st : (nat → Z) * M) : option (option nat * ((nat → Z) * M)) :=
  match vs with
  | [] => Some (Some pc, st)
  | v :: vs =>
      '(pc', st') ← tcg_next ops v pc st;
      match pc' with Some pc' => tcg_exec ops vs pc' st' | None => Some (None, st') end
  end.

(** ** Host code *)

Record hstate := mkH { hregs : Z → Z; hslots : Z * Z → Z; hm : M }.

(** What a call leaves in the registers it may use. *)
Context (junk : (Z → Z) → M → Z → Z).

Definition clobbered (r : Z) : bool := tcg_regset_test_reg tcg_target_call_clobber_regs r.
Definition clobber_regs (regs : Z → Z) (m : M) : Z → Z := λ r, if clobbered r then junk regs m r else regs r.

Definition host_globals (slots : Z * Z → Z) : nat → Z := λ t, slots (fi_home fi t).

Fixpoint store_globals (ts : list nat) (g : nat → Z) (slots : Z * Z → Z) : Z * Z → Z :=
  match ts with
  | [] => slots
  | t :: ts => store_globals ts g (if mem_global t then <[fi_home fi t := g t]> slots else slots)
  end.
Definition set_globals (g : nat → Z) (slots : Z * Z → Z) : Z * Z → Z :=
  store_globals (seq 0 (fi_nb_globals fi)) g slots.

Fixpoint set_regs (rs vs : list Z) (regs : Z → Z) : Z → Z :=
  match rs, vs with
  | r :: rs, v :: vs => set_regs rs vs (<[r := v]> regs)
  | _, _ => regs
  end.

(** The parameters of a call are in registers and on the stack. *)
Definition host_params (h : hstate) : nat → Z := λ n,
  match tcg_target_call_iarg_regs !! n with
  | Some r => hregs h r
  | None => hslots h (TCG_REG_CALL_STACK, TCG_TARGET_CALL_STACK_OFFSET + 8 * (n - 6))
  end.

Definition host_arg (h : hstate) (a : Z) (const : bool) : Z := if const then a else hregs h a.

Definition hcall (h : hstate) (func : Z) : hstate :=
  let '(outs, g, m') := call_sem sem (conv TCG_TYPE_I64 func) (host_params h) (host_globals (hslots h)) (hm h) in
  mkH (set_regs tcg_target_call_oarg_regs (outs <$> seq 0 2) (clobber_regs (hregs h) (hm h)))
    (set_globals g (hslots h)) m'.

(** The inputs and the constants of an instruction. *)
Definition hins (h : hstate) (op : TCGOpcode) (args : list Z) (consts : list bool) : list Z :=
  let d := op_def op in zip_with (host_arg h) (take (nb_iargs d) (drop (nb_oargs d) args)) (drop (nb_oargs d) consts).
Definition hcargs (op : TCGOpcode) (args : list Z) : list Z := drop (nb_oargs (op_def op) + nb_iargs (op_def op)) args.

Definition hop (h : hstate) (op : TCGOpcode) (args : list Z) (consts : list bool) : hstate :=
  let d := op_def op in
  let ins := hins h op args consts in
  let cargs := hcargs op args in
  let '(outs, g, m') := op_sem sem op cargs ins (seen_globals op (host_globals (hslots h))) (hm h) in
  mkH (set_regs (take (nb_oargs d) args) outs (if clobbers op then clobber_regs (hregs h) (hm h) else hregs h))
    (if clobbers op then set_globals g (hslots h) else hslots h) m'.

Definition hstep (h : hstate) (i : hinsn) : hstate :=
  match i with
  | HMov ty ret arg => mkH (<[ret := conv ty (hregs h arg)]> (hregs h)) (hslots h) (hm h)
  | HMovi ty ret v => mkH (<[ret := conv ty v]> (hregs h)) (hslots h) (hm h)
  | HLd ty ret base off => mkH (<[ret := conv ty (hslots h (base, off))]> (hregs h)) (hslots h) (hm h)
  | HSt ty arg base off => mkH (hregs h) (<[(base, off) := conv ty (hregs h arg)]> (hslots h)) (hm h)
  | HAddi _ _ | HLabel _ => h
  | HOp op args consts =>
      if (op =? INDEX_op_call)%nat then hcall h (host_arg h (default 0 (args !! 0%nat)) (default false (consts !! 0%nat)))
      else hop h op args consts
  end.

Definition hrun (c : list hinsn) (h : hstate) : hstate := foldl hstep h c.

Lemma hrun_app c1 c2 h : hrun (c1 ++ c2) h = hrun c2 (hrun c1 h).
Proof. apply foldl_app. Qed.

(** *** Control *)

Definition hflow (h : hstate) (i : hinsn) : flow :=
  match i with
  | HOp op args consts =>
      if (op =? INDEX_op_call)%nat then FNext else op_flow sem op (hcargs op args) (hins h op args consts) (hm h)
  | _ => FNext
  end.

Definition is_hlabel (l : Z) (i : hinsn) : bool := match i with HLabel l' => l' =? l | _ => false end.

Definition hlabel_pos (c : list hinsn) (l : Z) : option nat := fst <$> list_find (λ i, is_hlabel l i = true) c.

(** One instruction of the code [c], and [n] instructions. *)
Definition hnext (c : list hinsn) (pc : nat) (h : hstate) : option (option nat * hstate) :=
  i ← c !! pc;
  match hflow h i with
  | FNext => Some (Some (S pc), hstep h i)
  | FJump l => j ← hlabel_pos c l; Some (Some j, hstep h i)
  | FExit => Some (None, hstep h i)
  end.

Fixpoint hexec (c : list hinsn) (n : nat) (pc : nat) (h : hstate) : option (option nat * hstate) :=
  match n with
  | O => Some (Some pc, h)
  | S n =>
      '(pc', h') ← hnext c pc h;
      match pc' with Some pc' => hexec c n pc' h' | None => Some (None, h') end
  end.

(** The instructions [c] are executed one after the other and hold no label;
    [fl] is where control goes at the end. *)
Inductive hgo : list hinsn → hstate → flow → Prop :=
  | hgo_nil h : hgo [] h FNext
  | hgo_last i h : (∀ l, i ≠ HLabel l) → hgo [i] h (hflow h i)
  | hgo_cons i c h fl : (∀ l, i ≠ HLabel l) → hflow h i = FNext → hgo c (hstep h i) fl → hgo (i :: c) h fl.

Lemma hgo_app c1 c2 h fl : hgo c1 h FNext → hgo c2 (hrun c1 h) fl → hgo (c1 ++ c2) h fl.
Proof.
  intros H1. remember FNext as f eqn:E. revert E. induction H1 as [h|i h Hi|i c h f Hi Hf _ IH]; intros E H2; cbn [app].
  - done.
  - by apply hgo_cons.
  - apply hgo_cons; [done..|]. by apply IH.
Qed.

End sem.

Arguments tcg_sem : clear implicits.
Arguments SemOk {M} fi sem.
Arguments falls {M} sem op.
Arguments op_falls {M} sem o.
Arguments hstate : clear implicits.
Arguments op_sem_length {M fi sem _} op cargs ins gs m.
Arguments op_sem_eqv {M fi sem _} op cargs ins ins' gs gs' m.
Arguments op_flow_eqv {M fi sem _} op cargs ins ins' m.
Arguments op_flow_next {M fi sem _} op cargs ins m.
Arguments op_flow_label {M fi sem _} op cargs ins m l.
Arguments op_sem_mem {M fi sem _} op cargs ins gs m.
Arguments call_sem_eqv {M fi sem _} f ps ps' gs gs' m.
Arguments call_sem_const {M fi sem _} f ps gs m t.
Arguments call_sem_pure {M fi sem _} f ps gs m.
