(* ===== verification/TcgInv.v ===== *)
(** * The invariant of the TCG register allocator

    The maps between registers and temporaries agree, the slots of the
    temporaries are apart from each other, and each temporary is where the
    allocator says it is.  The lemmas here are about the elementary changes:
    code that writes a register or a slot, and a temporary that moves. *)

From stdpp Require Import base gmap list functions.
From S2P Require Import Prelude TcgData TcgLive TcgLiveInv TcgAlloc TcgSem.
Local Open Scope Z_scope.
Local Coercion Z.of_nat : nat >-> Z.

(** ** Access to the context *)

Lemma aref_Ok {A} (l : list A) (i : Z) x : aref l i = Ok x ↔ 0 ≤ i ∧ l !! Z.to_nat i = Some x.
Proof.
  unfold aref. destruct (Z.ltb_spec i 0); [split; [done|lia]|].
  destruct (l !! Z.to_nat i); cbn; split; [intros [= ->]; done|intros [_ [= ->]]; done|done|intros [_ ?]; done].
Qed.

Lemma get_temp_Ok s k ts : get_temp s k = Ok ts ↔ 0 ≤ k ∧ temps s !! Z.to_nat k = Some ts.
Proof. apply aref_Ok. Qed.

(** The temporary in a register. *)
Definition rt (s : TCGContext) (r : Z) : option Z := reg_to_temp s !! Z.to_nat r.

Definition home (ts : TCGTemp) : Z * Z := (mem_reg ts, mem_offset ts).
Definition size_of (ty : TCGType) : Z := bits ty / 8.

(** Two slots do not overlap. *)
Definition apart (t1 t2 : TCGTemp) : Prop :=
  mem_reg t1 ≠ mem_reg t2 ∨ mem_offset t1 + size_of (ttype t1) ≤ mem_offset t2 ∨
  mem_offset t2 + size_of (ttype t2) ≤ mem_offset t1.

Lemma size_of_bounds ty : 0 < size_of ty ≤ 8.
Proof. by destruct ty. Qed.

Lemma apart_home t1 t2 : apart t1 t2 → home t1 ≠ home t2.
Proof. pose proof (size_of_bounds (ttype t1)). pose proof (size_of_bounds (ttype t2)). intros A [= E1 E2]. destruct A as [?|[?|?]]; [done|lia|lia]. Qed.

(** Whether a temporary has a slot of its own. *)
Definition has_home (ts : TCGTemp) : Prop := fixed_reg ts = false ∧ mem_allocated ts = true.

Section inv.
  Context (fi : frame_info).

Record temp_ok (s : TCGContext) (k : nat) (ts : TCGTemp) : Prop := {
  t_type : ttype ts = fi_type fi k;
  t_fixed : fixed_reg ts = fi_fixed fi k;
  t_local : temp_local ts = fi_local fi k;
  t_reg_fixed : fixed_reg ts = true → treg ts = fi_reg fi k;
  t_fixed_reg : fixed_reg ts = true →
    (k < nb_globals s)%nat ∧ val_type ts = TEMP_VAL_REG ∧ tcg_regset_test_reg (reserved_regs s) (treg ts) = true;
  t_global : mem_global fi k = true → mem_allocated ts = true ∧ home ts = fi_home fi k;
  t_home : has_home ts →
    mem_reg ts ≠ TCG_REG_CALL_STACK ∧ tcg_regset_test_reg (reserved_regs s) (mem_reg ts) = true ∧
    (mem_reg ts = frame_reg s → mem_offset ts + size_of (ttype ts) ≤ current_frame_offset s ∨ frame_end s ≤ mem_offset ts);
  t_reg : fixed_reg ts = false → val_type ts = TEMP_VAL_REG →
    0 ≤ treg ts < TCG_TARGET_NB_REGS ∧ tcg_regset_test_reg (reserved_regs s) (treg ts) = false ∧ rt s (treg ts) = Some (k : Z)
}.

(** The temporary [k] is the one that register [r] holds. *)
Definition holds (s : TCGContext) (r : Z) (k : Z) : Prop :=
  ∃ n ts, k = Z.of_nat n ∧ (n < nb_temps s)%nat ∧ temps s !! n = Some ts ∧ val_type ts = TEMP_VAL_REG ∧ treg ts = r ∧
    fixed_reg ts = false.

Record inv (s : TCGContext) : Prop := {
  inv_globals : nb_globals s = fi_nb_globals fi;
  inv_temps : (nb_globals s ≤ nb_temps s ≤ length (temps s))%nat;
  inv_regs : length (reg_to_temp s) = TCG_TARGET_NB_REGS;
  inv_temp k ts : (k < nb_temps s)%nat → temps s !! k = Some ts → temp_ok s k ts;
  inv_reg r k : 0 ≤ r → rt s r = Some k → k = -1 ∨ holds s r k;
  inv_apart j k tj tk : j ≠ k → (j < nb_temps s)%nat → (k < nb_temps s)%nat →
    temps s !! j = Some tj → temps s !! k = Some tk → has_home tj → has_home tk → apart tj tk;
  inv_frame : frame_reg s ≠ TCG_REG_CALL_STACK ∧ tcg_regset_test_reg (reserved_regs s) (frame_reg s) = true;
  inv_clobber r : clobbered r = true → tcg_regset_test_reg (reserved_regs s) r = false
}.

(** ** Where a temporary is *)

(** The globals in memory that may be dead: their values are in their slots
    and the allocator will not load them. *)
Class Disc := { disc : nat → Prop; disc_global k : disc k → mem_global fi k = true }.

Section rel.
  Context {M : Type} {dl : Disc}.
  Implicit Types (h : hstate M).

Definition located h (k : nat) (ts : TCGTemp) (v : Z) : Prop :=
  if fixed_reg ts then eqv (ttype ts) (hregs h (treg ts)) v
  else match val_type ts with
       | TEMP_VAL_REG =>
           eqv (ttype ts) (hregs h (treg ts)) v ∧
           (mem_coherent ts = true → mem_allocated ts = true ∧ eqv (ttype ts) (hslots h (home ts)) v)
       | TEMP_VAL_MEM => mem_allocated ts = true ∧ eqv (ttype ts) (hslots h (home ts)) v
       | TEMP_VAL_CONST => eqv (ttype ts) (tval ts) v
       | TEMP_VAL_DEAD => disc k ∧ eqv (ttype ts) (hslots h (home ts)) v
       end.

(** The temporaries of [L] hold the values [vals]. *)
Definition Rel (s : TCGContext) (L : nat → Prop) (vals : nat → Z) h : Prop :=
  ∀ k ts, (k < nb_temps s)%nat → temps s !! k = Some ts → L k → located h k ts (vals k).

Lemma Rel_sub s (L L' : nat → Prop) vals h : (∀ k, L' k → L k) → Rel s L vals h → Rel s L' vals h.
Proof. intros HL HR k ts ? ? ?. apply HR; auto. Qed.

Lemma Rel_ext s (L L' : nat → Prop) vals vals' h :
  (∀ k, L' k → L k ∧ vals' k = vals k) → Rel s L vals h → Rel s L' vals' h.
Proof. intros HL HR k ts ? ? [? ->]%HL. by apply HR. Qed.

(** A register that holds nothing may be written. *)
Lemma Rel_write_reg s L vals h r v :
  inv s → 0 ≤ r → rt s r = Some (-1) → tcg_regset_test_reg (reserved_regs s) r = false →
  Rel s L vals h → Rel s L vals (mkH (<[r := v]> (hregs h)) (hslots h) (hm h)).
Proof.
  intros HI Hr Hrt Hres HR k ts Hk Hts HL. specialize (HR k ts Hk Hts HL). pose proof (inv_temp _ HI k ts Hk Hts) as HT.
  unfold located in *. cbn. destruct (fixed_reg ts) eqn:Ef.
  - rewrite fn_lookup_insert_ne; [done|]. intros ->. destruct (t_fixed_reg _ _ _ HT Ef) as (_ & _ & ?). congruence.
  - destruct (val_type ts) eqn:Ev; try done. rewrite fn_lookup_insert_ne; [done|].
    intros ->. destruct (t_reg _ _ _ HT Ef Ev) as (_ & _ & E). rewrite Hrt in E. injection E as E. lia.
Qed.

(** A temporary's slot may get the value of the temporary. *)
Lemma Rel_write_slot s L vals h k ts v :
  inv s → (k < nb_temps s)%nat → temps s !! k = Some ts → has_home ts → (L k → eqv (ttype ts) v (vals k)) →
  Rel s L vals h → Rel s L vals (mkH (hregs h) (<[home ts := v]> (hslots h)) (hm h)).
Proof.
  intros HI Hk Hts Hh Hv HR j tj Hj Htj HL. specialize (HR j tj Hj Htj HL). pose proof (inv_temp _ HI j tj Hj Htj) as HT.
  unfold located in *. cbn. destruct (fixed_reg tj) eqn:Ef; [done|].
  assert (mem_allocated tj = true → eqv (ttype tj) (hslots h (home tj)) (vals j) →
    eqv (ttype tj) (<[home ts:=v]> (hslots h) (home tj)) (vals j)) as Hs.
  { intros Ha He. destruct (decide (j = k)) as [->|Hne].
    - simplify_eq. rewrite fn_lookup_insert. auto.
    - rewrite fn_lookup_insert_ne; [done|]. apply apart_home, (inv_apart _ HI k j); done. }
  destruct (val_type tj) eqn:Ev; try done.
  - destruct HR as [Hg ?]. split; [done|]. apply Hs; [|done]. by apply (t_global _ _ _ HT), disc_global.
  - destruct HR as [? HC]. split; [done|]. intros [? ?]%HC. auto.
  - destruct HR. auto.
Qed.

(** The arguments on the stack are apart from the slots. *)
Lemma stack_apart s (k : nat) ts (slots : Z * Z → Z) v off :
  inv s → (k < nb_temps s)%nat → temps s !! k = Some ts → has_home ts →
  (<[(mem_reg ts, mem_offset ts) := v]> slots) (TCG_REG_CALL_STACK, off) = slots (TCG_REG_CALL_STACK, off).
Proof.
  intros HI Hk Hts Hh. apply fn_lookup_insert_ne. intros [= E _]. by destruct (t_home _ _ _ (inv_temp _ HI k ts Hk Hts) Hh) as [[] _].
Qed.

Lemma Rel_write_stack s L vals h off v :
  inv s → Rel s L vals h → Rel s L vals (mkH (hregs h) (<[(TCG_REG_CALL_STACK, off) := v]> (hslots h)) (hm h)).
Proof.
  intros HI HR j tj Hj Htj HL. specialize (HR j tj Hj Htj HL). pose proof (inv_temp _ HI j tj Hj Htj) as HT.
  unfold located in *. cbn. destruct (fixed_reg tj) eqn:Ef; [done|].
  assert (mem_allocated tj = true → <[(TCG_REG_CALL_STACK, off):=v]> (hslots h) (home tj) = hslots h (home tj)) as Hs.
  { intros Ha. apply fn_lookup_insert_ne. intros [= E _]. by destruct (t_home _ _ _ HT (conj Ef Ha)) as [[] _]. }
  destruct (val_type tj) eqn:Ev; try done.
  - destruct HR as [Hg ?]. rewrite Hs; [done|]. by apply (t_global _ _ _ HT), disc_global.
  - destruct HR as [? HC]. split; [done|]. intros [? ?]%HC. rewrite Hs; done.
  - destruct HR as [? ?]. rewrite Hs; done.
Qed.

End rel.

(** ** The demand for slots *)

Definition align8 (o : Z) : Z := (o + 8 - 1) .& .~ (8 - 1).
Definition unslotted (ts : TCGTemp) : nat := if mem_allocated ts then 0 else 1.

(** The end of the frame if every temporary without a slot gets one. *)
Definition demand (s : TCGContext) : Z :=
  align8 (current_frame_offset s) + 8 * sum_list_with unslotted (take (nb_temps s) (temps s)).

Lemma align8_eq o : align8 o = 8 * ((o + 7) / 8).
Proof.
  unfold align8. change (8 - 1) with (Z.ones 3). rewrite <- Z.ldiff_land, Z.ldiff_ones_r, Z.shiftl_mul_pow2, Z.shiftr_div_pow2 by lia.
  change (Z.ones 3) with 7. change (2 ^ 3) with 8. rewrite Z.mul_comm. do 2 f_equal. lia.
Qed.

Lemma align8_le o : o ≤ align8 o.
Proof. rewrite align8_eq. pose proof (Z.div_mod (o + 7) 8 ltac:(lia)). pose proof (Z.mod_pos_bound (o + 7) 8 ltac:(lia)). lia. Qed.

Lemma align8_add o : align8 (align8 o + 8) = align8 o + 8.
Proof.
  rewrite !align8_eq. replace (8 * ((o + 7) / 8) + 8 + 7) with (((o + 7) / 8 + 1) * 8 + 7) by lia. rewrite Z.div_add_l by lia.
  change (7 / 8) with 0. lia.
Qed.

Lemma unslotted_insert (l : list TCGTemp) n k ts ts' :
  l !! k = Some ts → (k < n)%nat →
  (sum_list_with unslotted (take n (<[k := ts']> l)) + unslotted ts = sum_list_with unslotted (take n l) + unslotted ts')%nat.
Proof.
  revert n k. induction l as [|x l IH]; intros n k Hk Hn; [done|]. destruct n as [|n]; [lia|]. destruct k as [|k]; cbn.
  - injection Hk as ->. lia.
  - specialize (IH n k Hk ltac:(lia)). rewrite <- !Nat.add_assoc. by f_equal.
Qed.

(** ** Changes of one temporary *)

Definition same_static (ts ts' : TCGTemp) : Prop :=
  ttype ts' = ttype ts ∧ fixed_reg ts' = fixed_reg ts ∧ temp_local ts' = temp_local ts.

(** What the allocator never changes. *)
Record same_ctx (s s' : TCGContext) : Prop := {
  sc_globals : nb_globals s' = nb_globals s;
  sc_temps : nb_temps s' = nb_temps s;
  sc_res : reserved_regs s' = reserved_regs s;
  sc_frame : frame_reg s' = frame_reg s ∧ frame_end s' = frame_end s ∧ current_frame_offset s ≤ current_frame_offset s'
}.

Lemma same_ctx_refl s : same_ctx s s.
Proof. split; [done..|]. split_and!; [done..|lia]. Qed.
Lemma same_ctx_trans s1 s2 s3 : same_ctx s1 s2 → same_ctx s2 s3 → same_ctx s1 s3.
Proof. intros [? ? ? (? & ? & ?)] [? ? ? (? & ? & ?)]. split; [congruence..|]. split_and!; [congruence..|lia]. Qed.

Lemma temp_ok_frame s s' (k : nat) ts :
  same_ctx s s' → (fixed_reg ts = false → val_type ts = TEMP_VAL_REG → rt s' (treg ts) = Some (k : Z)) →
  temp_ok s k ts → temp_ok s' k ts.
Proof.
  intros [E1 E2 E3 (E4 & E5 & E6)] Hrt [H1 H2 H3 Hr H4 H5 H6 H7]. split; rewrite ?E1, ?E3, ?E4, ?E5; try done.
  - intros Hh. destruct (H6 Hh) as (? & ? & H). split_and!; [done..|]. intros [?|?]%H; [left; lia|by right].
  - intros Ef Ev. destruct (H7 Ef Ev) as (? & ? & ?). auto.
Qed.

Lemma inv_update s s' (k : nat) ts ts' :
  inv s → same_ctx s s' → (k < nb_temps s)%nat → temps s !! k = Some ts → fixed_reg ts = false →
  temps s' = <[k := ts']> (temps s) → length (reg_to_temp s') = TCG_TARGET_NB_REGS → same_static ts ts' →
  (∀ r j, 0 ≤ r → rt s' r = Some j →
    j = -1 ∨ (j = k ∧ val_type ts' = TEMP_VAL_REG ∧ treg ts' = r) ∨ (rt s r = Some j ∧ j ≠ k)) →
  (val_type ts' = TEMP_VAL_REG → 0 ≤ treg ts' < TCG_TARGET_NB_REGS ∧
    tcg_regset_test_reg (reserved_regs s) (treg ts') = false ∧ rt s' (treg ts') = Some (k : Z)) →
  (∀ r j, 0 ≤ r → rt s r = Some j → j ≠ -1 → j ≠ k → rt s' r = Some j) →
  (mem_global fi k = true → mem_allocated ts' = true ∧ home ts' = home ts) →
  (has_home ts' →
    mem_reg ts' ≠ TCG_REG_CALL_STACK ∧ tcg_regset_test_reg (reserved_regs s) (mem_reg ts') = true ∧
    (mem_reg ts' = frame_reg s → mem_offset ts' + size_of (ttype ts') ≤ current_frame_offset s' ∨ frame_end s ≤ mem_offset ts') ∧
    ∀ j tj, j ≠ k → (j < nb_temps s)%nat → temps s !! j = Some tj → has_home tj → apart ts' tj) →
  inv s'.
Proof.
  intros HI HC Hk Hts Hf Ht Hl (S1 & S2 & S3) R1 R2 R3 M1 M2. pose proof (inv_temp _ HI k ts Hk Hts) as HT.
  pose proof HC as [E1 E2 E3 (E4 & E5 & E6)].
  assert (Hlook : ∀ j tj, temps s' !! j = Some tj → (j = k ∧ tj = ts') ∨ (j ≠ k ∧ temps s !! j = Some tj)).
  { intros j tj. rewrite Ht. destruct (decide (j = k)) as [->|Hne].
    - rewrite list_lookup_insert_eq by (by eapply lookup_lt_Some). intros [= ->]. auto.
    - rewrite list_lookup_insert_ne by done. auto. }
  split.
  - rewrite E1. apply (inv_globals _ HI).
  - rewrite E1, E2, Ht, length_insert. apply (inv_temps _ HI).
  - done.
  - rewrite E2. intros j tj Hj [[-> ->]|[Hne Hj']]%Hlook.
    + destruct HT as [H1 H2 H3 Hr' H4 H5 H6 H7]. split; try congruence.
      * intros Hg. destruct (M1 Hg) as [? ->]. split; [done|]. by apply H5.
      * intros Hh. destruct (M2 Hh) as (? & ? & ? & _). rewrite E3, E4, E5. done.
      * intros _ Hr. rewrite E3. auto.
    + apply (temp_ok_frame s); [done| |by apply (inv_temp _ HI)]. intros Ef Ev.
      destruct (t_reg _ _ _ (inv_temp _ HI j tj Hj Hj') Ef Ev) as (? & ? & ?). apply R3; [lia|done|lia|lia].
  - intros r j Hr Hj. destruct (R1 r j Hr Hj) as [?|[(-> & ? & ?)|[Hj' Hne]]]; [by left| |].
    + right. exists k, ts'. rewrite E2, Ht, S2. split_and!; try done. apply list_lookup_insert_eq. by eapply lookup_lt_Some.
    + destruct (inv_reg _ HI r j Hr Hj') as [?|(n & tn & -> & ? & ? & ? & ? & ?)]; [by left|]. right. exists n, tn.
      rewrite E2, Ht, list_lookup_insert_ne by (intros ->; done). done.
  - rewrite E2. intros i j ti tj Hne Hi Hj [[-> ->]|[Hi' Hti]]%Hlook [[-> ->]|[Hj' Htj]]%Hlook Hhi Hhj; [done| | |].
    + destruct (M2 Hhi) as (_ & _ & _ & HA). by apply (HA j).
    + destruct (M2 Hhj) as (_ & _ & _ & HA). specialize (HA i ti Hi' Hi Hti Hhi). unfold apart in *. naive_solver.
    + by apply (inv_apart _ HI i j).
  - rewrite E3, E4. apply (inv_frame _ HI).
  - rewrite E3. apply (inv_clobber _ HI).
Qed.

(** The slot stays where it is. *)
Lemma inv_move s s' (k : nat) ts ts' :
  inv s → same_ctx s s' → (k < nb_temps s)%nat → temps s !! k = Some ts → fixed_reg ts = false →
  temps s' = <[k := ts']> (temps s) → length (reg_to_temp s') = TCG_TARGET_NB_REGS → same_static ts ts' →
  mem_allocated ts' = mem_allocated ts ∧ home ts' = home ts →
  (∀ r j, 0 ≤ r → rt s' r = Some j →
    j = -1 ∨ (j = k ∧ val_type ts' = TEMP_VAL_REG ∧ treg ts' = r) ∨ (rt s r = Some j ∧ j ≠ k)) →
  (val_type ts' = TEMP_VAL_REG → 0 ≤ treg ts' < TCG_TARGET_NB_REGS ∧
    tcg_regset_test_reg (reserved_regs s) (treg ts') = false ∧ rt s' (treg ts') = Some (k : Z)) →
  (∀ r j, 0 ≤ r → rt s r = Some j → j ≠ -1 → j ≠ k → rt s' r = Some j) →
  inv s'.
Proof.
  intros HI HC Hk Hts Hf Ht Hl HS [Ma Mh] R1 R2 R3. pose proof (inv_temp _ HI k ts Hk Hts) as HT.
  apply (inv_update s s' k ts ts'); try done.
  - intros Hg. split; [|done]. rewrite Ma. by apply (t_global _ _ _ HT).
  - destruct HS as (S1 & S2 & _). unfold has_home. rewrite S1, S2, Ma. intros Hh. injection Mh as Mr Mo. rewrite Mr, Mo.
    destruct (t_home _ _ _ HT Hh) as (? & ? & H). split_and!; [done..| |].
    + pose proof (sc_frame _ _ HC) as (_ & _ & ?). intros [?|?]%H; [left; lia|by right].
    + intros j tj Hne Hj Htj Hhj. pose proof (inv_apart _ HI k j ts tj (not_eq_sym Hne) Hk Hj Hts Htj Hh Hhj) as HA.
      unfold apart in *. rewrite S1, Mr, Mo. done.
Qed.

End inv.
