(* ===== verification/TcgSpill.v ===== *)
(** * Spilling and assigning registers

    [tcg_reg_free], [tcg_reg_alloc], [temp_save] and [save_globals] keep every
    temporary's value; a temporary may be given a register that holds nothing,
    or lose its value. *)

From stdpp Require Import base gmap list functions.
From S2P Require Import Prelude TcgData TcgLive TcgLiveInv TcgAlloc TcgSem TcgInv.
Local Open Scope Z_scope.
Local Coercion Z.of_nat : nat >-> Z.

Lemma list_alter_insert {A} (f : A → A) (l : list A) k x : l !! k = Some x → alter f k l = <[k := f x]> l.
Proof.
  intros Hx. apply list_eq. intros j. destruct (decide (j = k)) as [->|].
  - rewrite list_lookup_alter_eq, Hx, list_lookup_insert_eq; [done|]. by eapply lookup_lt_Some.
  - rewrite list_lookup_alter_ne, list_lookup_insert_ne; done.
Qed.

Ltac ctx_done := split; cbn; [done..|split_and!; [done..|lia]].

(** ** The map of the registers *)

Lemma rt_set_reg s r k : 0 ≤ r < length (reg_to_temp s) → rt (set_reg s r k) r = Some k.
Proof. intros. unfold rt. cbn. apply list_lookup_insert_eq. lia. Qed.
Lemma rt_set_reg_ne s r r' k : 0 ≤ r → 0 ≤ r' → r ≠ r' → rt (set_reg s r k) r' = rt s r'.
Proof. intros. unfold rt. cbn. apply list_lookup_insert_ne. lia. Qed.
Lemma rt_Some s r k : 0 ≤ r → rt s r = Some k → r < length (reg_to_temp s).
Proof. intros ? ?%lookup_lt_Some. lia. Qed.

Lemma drop_reg_temps s ts : temps (drop_reg s ts) = temps s.
Proof. unfold drop_reg. by case_bool_decide. Qed.
Lemma drop_reg_ctx s ts : same_ctx s (drop_reg s ts).
Proof. unfold drop_reg. case_bool_decide; ctx_done. Qed.
Lemma drop_reg_code s ts : code (drop_reg s ts) = code s.
Proof. unfold drop_reg. by case_bool_decide. Qed.
Lemma drop_reg_offset s ts : current_frame_offset (drop_reg s ts) = current_frame_offset s.
Proof. unfold drop_reg. by case_bool_decide. Qed.
Lemma drop_reg_len s ts : length (reg_to_temp (drop_reg s ts)) = length (reg_to_temp s).
Proof. unfold drop_reg. case_bool_decide; [|done]. cbn. by rewrite length_insert. Qed.

(** A temporary's value moves to a register. *)
Definition to_reg (r : Z) (coherent : bool) (ts : TCGTemp) : TCGTemp :=
  ts <| val_type := TEMP_VAL_REG |> <| treg := r |> <| mem_coherent := coherent |>.

Definition same_mem (ts ts' : TCGTemp) : Prop :=
  mem_allocated ts' = mem_allocated ts ∧ home ts' = home ts.

(** ** What a piece of the allocator does *)

Section spill.
  Context (fi : frame_info) {dl : Disc fi} {M : Type} (sem : tcg_sem M) (junk : (Z → Z) → M → Z → Z).
  Notation inv := (inv fi).
  Notation Rel := (Rel fi).
  Notation hrun := (hrun fi sem junk).
  Implicit Types (h : hstate M) (s : TCGContext).

Lemma rt_drop s (k : nat) ts r :
  inv s → (k < nb_temps s)%nat → temps s !! k = Some ts → fixed_reg ts = false → 0 ≤ r →
  rt (drop_reg s ts) r = if bool_decide (rt s r = Some (k : Z)) then Some (-1) else rt s r.
Proof.
  intros HI Hk Hts Hf Hr. unfold drop_reg. case_bool_decide as Ev.
  - destruct (t_reg _ _ _ _ (inv_temp _ _ HI k ts Hk Hts) Hf Ev) as (? & ? & Ek).
    destruct (decide (treg ts = r)) as [<-|Hne].
    + rewrite rt_set_reg by (by rewrite (inv_regs _ _ HI)). by rewrite bool_decide_true.
    + rewrite rt_set_reg_ne by lia. case_bool_decide as E; [|done].
      destruct (inv_reg _ _ HI r k Hr E) as [?|(n & tn & ? & ? & ? & ? & ? & ?)]; [lia|].
      assert (n = k) as -> by lia. congruence.
  - case_bool_decide as E; [|done]. destruct (inv_reg _ _ HI r k Hr E) as [?|(n & tn & ? & ? & ? & ? & ? & ?)]; [lia|].
    assert (n = k) as -> by lia. congruence.
Qed.

Lemma inv_forget s (k : nat) ts f :
  inv s → (k < nb_temps s)%nat → temps s !! k = Some ts → fixed_reg ts = false →
  same_static ts (f ts) → same_mem ts (f ts) → val_type (f ts) ≠ TEMP_VAL_REG →
  inv (set_temp (drop_reg s ts) k f).
Proof.
  intros HI Hk Hts Hf HS HM Hv.
  assert (∀ r, rt (set_temp (drop_reg s ts) k f) r = rt (drop_reg s ts) r) as Hrt by done.
  apply (inv_move fi s _ k ts (f ts)); try done.
  - destruct (drop_reg_ctx s ts). by split.
  - cbn. rewrite drop_reg_temps, Nat2Z.id. by apply list_alter_insert.
  - cbn. rewrite drop_reg_len. apply (inv_regs _ _ HI).
  - intros r j Hr. rewrite Hrt, (rt_drop _ k) by done. case_bool_decide as E; [intros [= <-]; by left|].
    intros Ej. right. right. split; [done|]. intros ->. done.
  - intros r j Hr Ej Hj Hne. rewrite Hrt, (rt_drop _ k) by done. rewrite bool_decide_false; [done|]. congruence.
Qed.

Lemma inv_assign s (k : nat) ts r coh :
  inv s → (k < nb_temps s)%nat → temps s !! k = Some ts → fixed_reg ts = false →
  0 ≤ r < TCG_TARGET_NB_REGS → tcg_regset_test_reg (reserved_regs s) r = false →
  (rt s r = Some (-1) ∨ rt s r = Some (k : Z)) →
  inv (set_reg (set_temp (drop_reg s ts) k (to_reg r coh)) r k).
Proof.
  intros HI Hk Hts Hf Hr Hres Hfree.
  assert (∀ r', 0 ≤ r' → rt (set_reg (set_temp (drop_reg s ts) k (to_reg r coh)) r k) r' =
    if decide (r = r') then Some (k : Z) else rt (drop_reg s ts) r') as Hrt.
  { intros r' Hr'. destruct (decide (r = r')) as [<-|Hne].
    - apply rt_set_reg. cbn. rewrite drop_reg_len, (inv_regs _ _ HI). done.
    - rewrite rt_set_reg_ne by lia. done. }
  apply (inv_move fi s _ k ts (to_reg r coh ts)); try done.
  - destruct (drop_reg_ctx s ts). by split.
  - cbn. rewrite drop_reg_temps, Nat2Z.id. by apply list_alter_insert.
  - cbn. rewrite length_insert, drop_reg_len. apply (inv_regs _ _ HI).
  - intros r' j Hr'. rewrite Hrt by done. case_decide as E; [intros [= <-]; right; left; done|].
    rewrite (rt_drop _ k) by done. case_bool_decide as E'; [intros [= <-]; by left|]. intros Ej. right. right.
    split; [done|]. intros ->. done.
  - intros _. split_and!; [cbn; lia..|done|]. cbn. rewrite Hrt by lia. by rewrite decide_True.
  - intros r' j Hr' Ej Hj Hne. rewrite Hrt by done. case_decide as E; [subst r'; destruct Hfree; congruence|].
    rewrite (rt_drop _ k) by done. rewrite bool_decide_false; [done|]. congruence.
Qed.

(** Slots stay where they are. *)
Record grow s s' : Prop := {
  g_inv : inv s';
  g_ctx : same_ctx s s';
  g_temps k ts : temps s !! k = Some ts → ∃ ts', temps s' !! k = Some ts' ∧ same_static ts ts' ∧
    (mem_allocated ts = true → mem_allocated ts' = true ∧ home ts' = home ts);
  g_demand : demand s' ≤ demand s
}.

(** The code emitted leads from [h] to [h'] and keeps the memory, the
    arguments on the stack and the registers of [al]; registers of [al] get no
    new temporary. *)
Record step (al : TCGRegSet) s h s' h' : Prop := {
  st_grow : grow s s';
  st_code : ∃ c, code s' = code s ++ c ∧ h' = hrun c h ∧ hgo fi sem junk c h FNext;
  st_m : hm h' = hm h;
  st_stack off : hslots h' (TCG_REG_CALL_STACK, off) = hslots h (TCG_REG_CALL_STACK, off);
  st_keep r : tcg_regset_test_reg al r = true → hregs h' r = hregs h r;
  st_rt r : 0 ≤ r → tcg_regset_test_reg al r = true → rt s' r = rt s r ∨ rt s' r = Some (-1)
}.

Definition keeps s h s' h' : Prop := ∀ L vals, Rel s L vals h → Rel s' L vals h'.

Lemma grow_refl s : inv s → grow s s.
Proof. intros HI. split; [done|apply same_ctx_refl| |lia]. intros k ts ?. exists ts. done. Qed.

Lemma grow_trans s1 s2 s3 : grow s1 s2 → grow s2 s3 → grow s1 s3.
Proof.
  intros [I1 C1 T1 D1] [I2 C2 T2 D2]. split; [done|by eapply same_ctx_trans| |lia]. intros k t1 Ht1.
  destruct (T1 _ _ Ht1) as (t2 & Ht2 & (? & ? & ?) & M1). destruct (T2 _ _ Ht2) as (t3 & Ht3 & (? & ? & ?) & M2).
  exists t3. split_and!; [done|unfold same_static; split_and!; congruence|]. intros [? E1]%M1. destruct M2 as [? ?]; [done|]. split; congruence.
Qed.

Lemma no_code (c c' : list hinsn) h : c' = c → ∃ e, c' = c ++ e ∧ h = hrun e h ∧ hgo fi sem junk e h FNext.
Proof. intros ->. exists []. rewrite app_nil_r. split_and!; [done..|constructor]. Qed.

Lemma step_refl al s h : inv s → step al s h s h.
Proof. intros. split; [by apply grow_refl|by apply no_code|done..|auto]. Qed.

Lemma step_trans al s1 h1 s2 h2 s3 h3 : step al s1 h1 s2 h2 → step al s2 h2 s3 h3 → step al s1 h1 s3 h3.
Proof.
  intros [G1 (c1 & E1 & R1 & O1) M1 Q1 K1 T1] [G2 (c2 & E2 & R2 & O2) M2 Q2 K2 T2]. split.
  - by eapply grow_trans.
  - exists (c1 ++ c2). rewrite E2, E1, (assoc_L (++)), hrun_app, <- R1. split_and!; [done..|]. apply hgo_app; [done|]. by rewrite <- R1.
  - congruence.
  - intros off. by rewrite Q2, Q1.
  - intros r Hr. rewrite K2, K1; done.
  - intros r Hr Ha. destruct (T2 r Hr Ha) as [->|?]; [auto|by right].
Qed.

Definition subset (a b : TCGRegSet) : Prop := ∀ r, tcg_regset_test_reg a r = true → tcg_regset_test_reg b r = true.

Lemma step_mono al al' s h s' h' : subset al al' → step al' s h s' h' → step al s h s' h'.
Proof. intros HS [? ? ? ? ? ?]. split; auto. Qed.

Lemma subset_all al : subset al (-1).
Proof.
  intros r Hr. unfold tcg_regset_test_reg in *. destruct (Z.neg_nonneg_cases r).
  - by rewrite Z.testbit_neg_r in Hr.
  - by apply Z.bits_m1.
Qed.

Lemma keeps_refl s h : keeps s h s h.
Proof. by intros L vals. Qed.
Lemma keeps_trans s1 h1 s2 h2 s3 h3 : keeps s1 h1 s2 h2 → keeps s2 h2 s3 h3 → keeps s1 h1 s3 h3.
Proof. intros H1 H2 L vals ?. by apply H2, H1. Qed.

(** *** One instruction *)

(** Instructions that move a value. *)
Definition is_move (i : hinsn) : bool := match i with HOp _ _ _ | HLabel _ => false | _ => true end.

Lemma inv_out s i : inv s → inv (out s i).
Proof.
  intros [H1 H2 H3 H4 H5 H6 H7 H8]. split; try done.
  intros k ts Hk Hts. apply (temp_ok_frame fi s); [ctx_done| |by apply H4].
  intros Ef Ev. by apply (t_reg _ _ _ _ (H4 k ts Hk Hts)).
Qed.

Lemma grow_out s i : inv s → grow s (out s i).
Proof. intros HI. split; [by apply inv_out|ctx_done| |done]. intros k ts ?. by exists ts. Qed.

Lemma step_out al s h i :
  inv s → is_move i = true → hm (hstep fi sem junk h i) = hm h →
  (∀ off, hslots (hstep fi sem junk h i) (TCG_REG_CALL_STACK, off) = hslots h (TCG_REG_CALL_STACK, off)) →
  (∀ r, tcg_regset_test_reg al r = true → hregs (hstep fi sem junk h i) r = hregs h r) →
  step al s h (out s i) (hstep fi sem junk h i).
Proof.
  intros HI Hi Hm Hst Hk. split; [by apply grow_out| |done|done|done|by left].
  exists [i]. split_and!; [done..|]. replace FNext with (hflow sem h i); [constructor; by intros l ->|]. by destruct i.
Qed.

Lemma keeps_out_reg s h i r v :
  inv s → 0 ≤ r → rt s r = Some (-1) → tcg_regset_test_reg (reserved_regs s) r = false →
  hstep fi sem junk h i = mkH (<[r := v]> (hregs h)) (hslots h) (hm h) →
  keeps s h (out s i) (hstep fi sem junk h i).
Proof. intros HI Hr Hrt Hres -> L vals HR. by apply (Rel_write_reg fi s). Qed.

Lemma keep_write al h r v : tcg_regset_test_reg al r = false →
  ∀ r', tcg_regset_test_reg al r' = true → (<[r := v]> (hregs h)) r' = hregs h r'.
Proof. intros Hr r' Hr'. apply fn_lookup_insert_ne. congruence. Qed.

(** ** Slots *)

Lemma get_temp_nat s (k : Z) ts :
  get_temp s k = Ok ts → ∃ n : nat, k = Z.of_nat n ∧ temps s !! n = Some ts.
Proof. intros [Hk ?]%get_temp_Ok. exists (Z.to_nat k). split; [lia|done]. Qed.

(** Everything of a temporary but its slot. *)
Definition same_val (ts ts' : TCGTemp) : Prop :=
  same_static ts ts' ∧ val_type ts' = val_type ts ∧ treg ts' = treg ts ∧ tval ts' = tval ts ∧
  mem_coherent ts' = mem_coherent ts.

Lemma ensure_frame_ok s (k : nat) ts s' :
  inv s → (k < nb_temps s)%nat → temps s !! k = Some ts → fixed_reg ts = false →
  ensure_frame s k = Ok s' →
  ∃ ts', temps s' = <[k := ts']> (temps s) ∧ mem_allocated ts' = true ∧ same_val ts ts' ∧ grow s s' ∧
    reg_to_temp s' = reg_to_temp s ∧ code s' = code s ∧ ∀ h, keeps s h s' h.
Proof.
  intros HI Hk Hts Hf. unfold ensure_frame. pose proof (inv_temp _ _ HI k ts Hk Hts) as HT.
  assert (get_temp s k = Ok ts) as ->. { apply get_temp_Ok. rewrite Nat2Z.id. split; [lia|done]. } cbn [rbind].
  destruct (mem_allocated ts) eqn:Ea.
  { intros [= <-]. exists ts. rewrite list_insert_id by done. split_and!; try done; [by apply grow_refl|intros h; apply keeps_refl]. }
  unfold temp_allocate_frame. set (off := _ .& _). destruct (Z.ltb_spec (frame_end s) (off + 8)); [done|]. intros [= <-].
  match goal with |- context [set_temp s _ ?g] => set (f := g) end.
  assert (mem_global fi k = false) as Hg. { destruct (mem_global fi k) eqn:E; [|done]. by destruct (t_global _ _ _ _ HT E); congruence. }
  pose proof (align8_le (current_frame_offset s)) as Hoff. change (align8 (current_frame_offset s)) with off in Hoff.
  exists (f ts). assert (alter f k (temps s) = <[k := f ts]> (temps s)) as Halt by (by apply list_alter_insert).
  split_and!; try done; [cbn; by rewrite Nat2Z.id|split| ].
  - eapply (inv_update fi s _ k ts (f ts)); try done; [ctx_done|cbn; by rewrite Nat2Z.id|apply (inv_regs _ _ HI)|..].
    + intros r j Hr Hj. destruct (inv_reg _ _ HI r j Hr Hj) as [?|HH]; [by left|]. right.
      destruct HH as (n & tn & -> & ? & ? & ? & ? & ?). destruct (decide (n = k)) as [->|]; [left|right].
      * simplify_eq. done.
      * split; [done|lia].
    + intros Ev. by apply (t_reg _ _ _ _ HT).
    + rewrite Hg. done.
    + intros _. cbn [f mem_reg mem_offset ttype]. destruct (inv_frame _ _ HI). pose proof (size_of_bounds (ttype ts)). split_and!; try done.
      * intros _. left. cbn. lia.
      * intros j tj Hne Hj Htj Hhj. destruct (decide (mem_reg tj = frame_reg s)) as [E|]; [|left; cbn; congruence].
        right. destruct (t_home _ _ _ _ (inv_temp _ _ HI j tj Hj Htj) Hhj) as (_ & _ & [?|?]); [done| |]; cbn; [right; lia|left; lia].
  - ctx_done.
  - intros j tj Htj. destruct (decide (j = k)) as [->|Hne].
    + simplify_eq. exists (f ts). cbn. rewrite Nat2Z.id, Halt, list_lookup_insert_eq by (by eapply lookup_lt_Some).
      split_and!; [done..|congruence].
    + exists tj. cbn. rewrite Nat2Z.id, list_lookup_alter_ne by done. done.
  - unfold demand. cbn. rewrite Nat2Z.id, Halt. pose proof (unslotted_insert (temps s) (nb_temps s) k ts (f ts) Hts Hk) as HU.
    unfold unslotted in HU at 2 4. cbn in HU. rewrite Ea in HU. change off with (align8 (current_frame_offset s)). rewrite align8_add. lia.
  - intros h L vals HR j tj Hj Htj HL. cbn in Htj. rewrite Nat2Z.id, Halt in Htj.
    destruct (decide (j = k)) as [->|Hne].
    + rewrite list_lookup_insert_eq in Htj by (by eapply lookup_lt_Some). simplify_eq.
      specialize (HR k ts Hk Hts HL). unfold located in *. cbn [f fixed_reg ttype treg val_type tval mem_coherent]. cbn.
      rewrite Hf in *. rewrite Ea in *. destruct (val_type ts); try done.
      * destruct HR as [HD%disc_global _]. congruence.
      * naive_solver.
      * naive_solver.
    + rewrite list_lookup_insert_ne in Htj by done. by apply HR.
Qed.

(** ** A temporary moves *)

Lemma Rel_set s s' (k : nat) ts' L vals h :
  nb_temps s' = nb_temps s → temps s' = <[k := ts']> (temps s) → Rel s L vals h →
  (L k → located fi h k ts' (vals k)) → Rel s' L vals h.
Proof.
  intros E1 E2 HR Hk j tj Hj Htj HL. rewrite E1 in Hj. rewrite E2 in Htj.
  apply list_lookup_insert_Some in Htj as [(-> & <- & _)|[? ?]]; auto.
Qed.

Lemma demand_set s s' (k : nat) ts ts' :
  same_ctx s s' → current_frame_offset s' = current_frame_offset s → temps s !! k = Some ts → temps s' = <[k := ts']> (temps s) → mem_allocated ts' = mem_allocated ts →
  demand s' ≤ demand s.
Proof.
  intros HC Ho Hts E Ma. unfold demand. rewrite (sc_temps _ _ HC), E, Ho. destruct (decide (k < nb_temps s)%nat).
  - pose proof (unslotted_insert (temps s) (nb_temps s) k ts ts' Hts ltac:(done)) as HU. unfold unslotted in HU at 2 4. rewrite Ma in HU. lia.
  - rewrite take_insert_ge by lia. lia.
Qed.

Lemma grow_set s s' (k : nat) ts ts' :
  inv s' → same_ctx s s' → current_frame_offset s' = current_frame_offset s →
  temps s !! k = Some ts → temps s' = <[k := ts']> (temps s) → same_static ts ts' → same_mem ts ts' → grow s s'.
Proof.
  intros HI HC Ho Hts E HS [Ma Mh]. split; [done..| |by apply (demand_set s s' k ts ts')]. intros j tj Htj. rewrite E. destruct (decide (j = k)) as [->|Hne].
  - assert (tj = ts) as -> by congruence. exists ts'. rewrite list_lookup_insert_eq by (by eapply lookup_lt_Some). split; [done|]. split; [done|]. rewrite Ma. done.
  - exists tj. by rewrite list_lookup_insert_ne.
Qed.

Lemma forget_temps s (k : nat) ts f : temps s !! k = Some ts → temps (set_temp (drop_reg s ts) k f) = <[k := f ts]> (temps s).
Proof. intros Hts. cbn. rewrite drop_reg_temps, Nat2Z.id. by apply list_alter_insert. Qed.

Lemma step_forget al s h (k : nat) ts f :
  inv s → (k < nb_temps s)%nat → temps s !! k = Some ts → fixed_reg ts = false →
  same_static ts (f ts) → same_mem ts (f ts) → val_type (f ts) ≠ TEMP_VAL_REG →
  step al s h (set_temp (drop_reg s ts) k f) h.
Proof.
  intros HI Hk Hts Hf HS HM Hv. split; [|apply no_code, drop_reg_code|done..|].
  - apply (grow_set s _ k ts (f ts)); try done; [by apply inv_forget|destruct (drop_reg_ctx s ts); by split|apply drop_reg_offset|by apply forget_temps].
  - intros r Hr _. change (rt (set_temp (drop_reg s ts) k f) r) with (rt (drop_reg s ts) r). rewrite (rt_drop s k) by done.
    case_bool_decide; auto.
Qed.

Definition assign s ts (k : Z) r coh : TCGContext := set_reg (set_temp (drop_reg s ts) k (to_reg r coh)) r k.

Lemma assign_temps s (k : nat) ts r coh : temps s !! k = Some ts → temps (assign s ts k r coh) = <[k := to_reg r coh ts]> (temps s).
Proof. intros Hts. unfold assign. cbn. rewrite drop_reg_temps, Nat2Z.id. by apply list_alter_insert. Qed.

Lemma assign_rt s (k : nat) ts r coh r' :
  inv s → (k < nb_temps s)%nat → temps s !! k = Some ts → fixed_reg ts = false → 0 ≤ r → 0 ≤ r' → r ≠ r' →
  rt (assign s ts k r coh) r' = if bool_decide (rt s r' = Some (k : Z)) then Some (-1) else rt s r'.
Proof. intros. unfold assign. rewrite rt_set_reg_ne by lia. by apply (rt_drop s k). Qed.

Lemma step_assign al s h (k : nat) ts r coh :
  inv s → (k < nb_temps s)%nat → temps s !! k = Some ts → fixed_reg ts = false →
  0 ≤ r < TCG_TARGET_NB_REGS → tcg_regset_test_reg (reserved_regs s) r = false →
  (rt s r = Some (-1) ∨ rt s r = Some (k : Z)) → tcg_regset_test_reg al r = false →
  step al s h (assign s ts k r coh) h.
Proof.
  intros HI Hk Hts Hf Hr Hres Hfree Hal. split; [|apply no_code, drop_reg_code|done..|].
  - apply (grow_set s _ k ts (to_reg r coh ts)); try done;
      [by apply inv_assign|destruct (drop_reg_ctx s ts); by split|apply drop_reg_offset|by apply assign_temps].
  - intros r' Hr' Ha. rewrite assign_rt by (done || lia || congruence). case_bool_decide; auto.
Qed.

(** ** Spilling *)

(** Temporaries may go from registers to memory. *)
Definition spills s s' : Prop := ∀ k ts, temps s !! k = Some ts → ∃ ts', temps s' !! k = Some ts' ∧
  same_static ts ts' ∧ treg ts' = treg ts ∧ tval ts' = tval ts ∧ (val_type ts ≠ TEMP_VAL_REG → ts' = ts) ∧
  (val_type ts' = val_type ts ∨ val_type ts' = TEMP_VAL_MEM).

Lemma spills_refl s : spills s s.
Proof. intros k ts Hts. exists ts. split_and!; auto; done. Qed.

Lemma spills_one s s' (k : nat) ts ts' :
  temps s !! k = Some ts → val_type ts = TEMP_VAL_REG → temps s' = <[k := ts']> (temps s) →
  same_static ts ts' → treg ts' = treg ts → tval ts' = tval ts → val_type ts' = TEMP_VAL_MEM → spills s s'.
Proof.
  intros Hts Hv E ? ? ? ? j tj Htj. rewrite E. destruct (decide (j = k)) as [->|Hne].
  - simplify_eq. exists ts'. rewrite list_lookup_insert_eq by (by eapply lookup_lt_Some). split_and!; auto. done.
  - exists tj. rewrite list_lookup_insert_ne by done. split_and!; auto; done.
Qed.

Lemma spill_code s (k : nat) ts s1 h :
  inv s → (k < nb_temps s)%nat → temps s !! k = Some ts → fixed_reg ts = false → val_type ts = TEMP_VAL_REG →
  (if mem_coherent ts then Ok s
   else
     s <- ensure_frame s k ;;
     t <- get_temp s k ;;
     Ok (out s (HSt (ttype t) (treg ts) (mem_reg t) (mem_offset t)))) = Ok s1 →
  ∃ ts1 h1, temps s1 = <[k := ts1]> (temps s) ∧ same_val ts ts1 ∧ reg_to_temp s1 = reg_to_temp s ∧ step (-1) s h s1 h1 ∧ hregs h1 = hregs h ∧
    ∀ L vals, Rel s L vals h → Rel s1 L vals h1 ∧
      (L k → mem_allocated ts1 = true ∧ eqv (ttype ts1) (hslots h1 (home ts1)) (vals k)).
Proof.
  intros HI Hk Hts Hf Hv Hs. destruct (mem_coherent ts) eqn:Ec.
  { injection Hs as <-. exists ts, h. rewrite list_insert_id by done. split_and!; try done; [by apply step_refl|].
    intros L vals HR. split; [done|]. intros HL. specialize (HR k ts Hk Hts HL). unfold located in HR.
    rewrite Hf, Hv in HR. naive_solver. }
  apply rbind_ok in Hs as (s2 & Es & Hs). apply rbind_ok in Hs as (t2 & Et & [= <-]).
  destruct (ensure_frame_ok s k ts s2) as (ts2 & E2 & Ea & HV & HG & Er & Eco & HK); try done.
  assert (temps s2 !! k = Some ts2) as Hts2. { rewrite E2. apply list_lookup_insert_eq. by eapply lookup_lt_Some. }
  assert (t2 = ts2) as ->.
  { apply get_temp_Ok in Et as [_ Ht]. rewrite Nat2Z.id in Ht. congruence. }
  destruct HV as (HS & V1 & V2 & V3 & V4). exists ts2, (hstep fi sem junk h (HSt (ttype ts2) (treg ts) (mem_reg ts2) (mem_offset ts2))).
  do 3 (split; [done|]). split_and!.
  - eapply step_trans; [|eapply (step_out _ s2); [apply HG|done..| |done]].
    2:{ intros off. cbn. apply (stack_apart fi s2 k); [apply HG|by rewrite (sc_temps _ _ (g_ctx _ _ HG))|done|].
        destruct HS as (_ & HS & _). split; [congruence|done]. }
    split; [done|by apply no_code|done..|].
    intros r _ _. left. unfold rt. by rewrite Er.
  - done.
  - intros L vals HR. split.
    + apply (HK h) in HR as HR2. eapply (Rel_write_slot fi s2 L vals h k ts2); try done.
      * apply HG.
      * by rewrite (sc_temps _ _ (g_ctx _ _ HG)).
      * destruct HS as (_ & HS & _). split; [congruence|done].
      * intros HL. destruct HS as (-> & _). specialize (HR k ts Hk Hts HL). unfold located in HR.
        rewrite Hf, Hv in HR. etransitivity; [apply eqv_conv|apply HR].
    + intros HL. split; [done|]. cbn. unfold home. rewrite fn_lookup_insert. destruct HS as (-> & _).
      specialize (HR k ts Hk Hts HL). unfold located in HR. rewrite Hf, Hv in HR. etransitivity; [apply eqv_conv|apply HR].
Qed.

Lemma tcg_reg_free_ok s r s' h :
  inv s → 0 ≤ r → tcg_reg_free s r = Ok s' →
  ∃ h', step (-1) s h s' h' ∧ hregs h' = hregs h ∧ keeps s h s' h' ∧ spills s s' ∧ rt s' r = Some (-1) ∧
    ∀ r', 0 ≤ r' → r' ≠ r → rt s' r' = rt s r'.
Proof.
  intros HI Hr Hs. unfold tcg_reg_free in Hs. apply rbind_ok in Hs as (k & Ek & Hs). apply aref_Ok in Ek as [_ Ek].
  change (rt s r = Some k) in Ek. destruct (Z.eqb_spec k (-1)) as [->|Hk].
  { injection Hs as <-. exists h. split_and!; auto using step_refl, keeps_refl, spills_refl. }
  destruct (inv_reg _ _ HI r k Hr Ek) as [?|(n & ts & -> & Hn & Hts & Hv & <- & Hf)]; [done|].
  assert (get_temp s n = Ok ts) as Hg by (apply get_temp_Ok; rewrite Nat2Z.id; split; [lia|done]).
  rewrite Hg in Hs. cbn [rbind] in Hs. rewrite bool_decide_true in Hs by done. cbn [rbind assert_] in Hs.
  apply rbind_ok in Hs as (s1 & Es1 & [= <-]).
  destruct (spill_code s n ts s1 h) as (ts1 & h1 & E1 & (HS & V1 & V2 & V3 & _) & Er & HST & Hregs & HR); try done.
  assert (temps s1 !! n = Some ts1) as Hts1. { rewrite E1. apply list_lookup_insert_eq. by eapply lookup_lt_Some. }
  set (f := λ ts : TCGTemp, ts <| val_type := TEMP_VAL_MEM |>).
  assert (set_reg (set_temp s1 n f) (treg ts) (-1) = set_temp (drop_reg s1 ts1) n f) as ->.
  { unfold drop_reg. rewrite bool_decide_true by congruence. rewrite V2. done. }
  pose proof (st_grow _ _ _ _ _ HST) as HG. pose proof (g_inv _ _ HG) as HI1.
  assert (n < nb_temps s1)%nat as Hn1 by (by rewrite (sc_temps _ _ (g_ctx _ _ HG))).
  assert (fixed_reg ts1 = false) as Hf1 by (destruct HS as (_ & ? & _); congruence).
  assert (temps (set_temp (drop_reg s1 ts1) n f) = <[n := f ts1]> (temps s)) as ET.
  { rewrite forget_temps by done. by rewrite E1, list_insert_insert_eq. }
  assert (∀ r', 0 ≤ r' → rt (set_temp (drop_reg s1 ts1) n f) r' = if bool_decide (rt s r' = Some (n : Z)) then Some (-1) else rt s r') as Hrt.
  { intros r' Hr'. change (rt (set_temp (drop_reg s1 ts1) n f) r') with (rt (drop_reg s1 ts1) r'). rewrite (rt_drop s1 n) by done.
    unfold rt. by rewrite Er. }
  exists h1. split_and!.
  - eapply step_trans; [done|]. by apply step_forget.
  - done.
  - intros L vals HRs. destruct (HR L vals HRs) as [HR1 HL]. eapply (Rel_set s1 _ n (f ts1)); [|by apply forget_temps|done|].
    { unfold drop_reg. by case_bool_decide. }
    intros [Ha He]%HL. unfold located. cbn. rewrite Hf1. done.
  - by apply (spills_one s _ n ts (f ts1)).
  - rewrite Hrt by done. by rewrite bool_decide_true.
  - intros r' Hr' Hne. rewrite Hrt by done. case_bool_decide as E; [|done].
    destruct (inv_reg _ _ HI r' n Hr' E) as [?|(n' & ts' & ? & ? & ? & ? & ? & ?)]; [lia|]. assert (n' = n) as -> by lia. congruence.
Qed.

Lemma andnot_test (a b : TCGRegSet) r : 0 ≤ r →
  tcg_regset_test_reg (tcg_regset_andnot a b) r = tcg_regset_test_reg a r && negb (tcg_regset_test_reg b r).
Proof. intros. unfold tcg_regset_test_reg, tcg_regset_andnot. rewrite Z.land_spec, Z.lnot_spec by done. done. Qed.

Lemma find_free_reg_ok s ct order r :
  find_free_reg s ct order = Ok (Some r) → r ∈ order ∧ tcg_regset_test_reg ct r = true ∧ rt s r = Some (-1).
Proof.
  induction order as [|r' order IH]; cbn; [done|]. destruct (tcg_regset_test_reg ct r') eqn:Et.
  - intros Hs. apply rbind_ok in Hs as (k & Ek & Hs). apply aref_Ok in Ek as [_ Ek]. destruct (Z.eqb_spec k (-1)) as [->|].
    + injection Hs as <-. split_and!; [left|done|done].
    + destruct (IH Hs) as (? & ? & ?). split_and!; [by right|done|done].
  - intros Hs. destruct (IH Hs) as (? & ? & ?). split_and!; [by right|done|done].
Qed.

Lemma alloc_order_range r : r ∈ tcg_target_reg_alloc_order → 0 ≤ r < TCG_TARGET_NB_REGS.
Proof.
  assert (Forall (λ r, 0 ≤ r < TCG_TARGET_NB_REGS) tcg_target_reg_alloc_order) as H.
  { unfold tcg_target_reg_alloc_order. repeat (constructor; [vm_compute; split; congruence|]). constructor. }
  intros Hr. exact (proj1 (Forall_forall _ _) H r (proj1 (list_elem_of_In _ _) Hr)).
Qed.

Lemma tcg_reg_alloc_ok s reg1 al s' r h :
  inv s → tcg_reg_alloc s reg1 al = Ok (s', r) →
  ∃ h', step (-1) s h s' h' ∧ hregs h' = hregs h ∧ keeps s h s' h' ∧ spills s s' ∧
    0 ≤ r < TCG_TARGET_NB_REGS ∧ tcg_regset_test_reg reg1 r = true ∧ tcg_regset_test_reg al r = false ∧ rt s' r = Some (-1) ∧
    ∀ r', 0 ≤ r' → r' ≠ r → rt s' r' = rt s r'.
Proof.
  intros HI Hs. unfold tcg_reg_alloc in Hs. apply rbind_ok in Hs as (o & Eo & Hs). destruct o as [r0|].
  - injection Hs as <- <-. apply find_free_reg_ok in Eo as (Hin & Ht & Hrt). pose proof (alloc_order_range _ Hin).
    rewrite andnot_test in Ht by lia. apply andb_true_iff in Ht as [? ?%negb_true_iff].
    exists h. split_and!; auto using step_refl, keeps_refl, spills_refl; lia.
  - destruct (List.find _ _) as [r0|] eqn:Ef; [|done]. apply rbind_ok in Hs as (s1 & Es & [= <- <-]).
    apply List.find_some in Ef as [Hin Ht]. apply list_elem_of_In, alloc_order_range in Hin.
    rewrite andnot_test in Ht by lia. apply andb_true_iff in Ht as [? ?%negb_true_iff].
    destruct (tcg_reg_free_ok s r0 s1 h) as (h' & ? & ? & ? & ? & ? & ?); [done|lia|done|].
    exists h'. split_and!; auto; lia.
Qed.

End spill.
