(* ===== verification/TcgSave.v ===== *)
(** * Saving temporaries

    [temp_save], [save_globals], [tcg_reg_alloc_bb_end], the release of the
    registers a call may use, and of the registers of dead inputs. *)

From stdpp Require Import base gmap list functions.
From S2P Require Import Prelude TcgData TcgLive TcgLiveInv TcgAlloc TcgSem TcgInv TcgSpill.
Local Open Scope Z_scope.
Local Coercion Z.of_nat : nat >-> Z.

(** Temporaries stay where they are or go to memory. *)
Definition saved (s s' : TCGContext) : Prop := ∀ k ts, temps s !! k = Some ts → ∃ ts', temps s' !! k = Some ts' ∧
  (val_type ts' = val_type ts ∨ val_type ts' = TEMP_VAL_MEM).

Lemma saved_refl s : saved s s.
Proof. intros k ts ?. exists ts. auto. Qed.
Lemma saved_trans s1 s2 s3 : saved s1 s2 → saved s2 s3 → saved s1 s3.
Proof.
  intros H1 H2 k ts Hts. destruct (H1 _ _ Hts) as (t2 & Ht2 & O1). destruct (H2 _ _ Ht2) as (t3 & Ht3 & O2).
  exists t3. split; [done|]. destruct O1 as [<-|E]; [done|]. rewrite E in O2. right. by destruct O2.
Qed.
Lemma spills_saved s s' : spills s s' → saved s s'.
Proof. intros H k ts Hts. destruct (H _ _ Hts) as (ts' & ? & ? & ? & ? & ? & ?). by exists ts'. Qed.

Lemma saved_set s s' (k : nat) ts' :
  temps s' = <[k := ts']> (temps s) →
  (∀ ts, temps s !! k = Some ts → val_type ts' = val_type ts ∨ val_type ts' = TEMP_VAL_MEM) → saved s s'.
Proof.
  intros E Hv j tj Htj. rewrite E. destruct (decide (j = k)) as [->|].
  - exists ts'. rewrite list_lookup_insert_eq by (by eapply lookup_lt_Some). eauto.
  - exists tj. rewrite list_lookup_insert_ne by done. auto.
Qed.

(** A temporary is in its slot, or in its fixed register. *)
Definition settled (s : TCGContext) (k : nat) : Prop :=
  ∀ ts, temps s !! k = Some ts → fixed_reg ts = true ∨ val_type ts = TEMP_VAL_MEM.

(** A temporary that is not dead. *)
Definition ready (s : TCGContext) (k : nat) : Prop := ∀ ts, temps s !! k = Some ts → val_type ts ≠ TEMP_VAL_DEAD.

Lemma settled_ready fi s k : inv fi s → (k < nb_temps s)%nat → settled s k → ready s k.
Proof.
  intros HI Hk Hs ts Hts E. destruct (Hs ts Hts) as [Hf|?]; [|congruence].
  destruct (t_fixed_reg _ _ _ _ (inv_temp _ _ HI k ts Hk Hts) Hf) as (_ & ? & _). congruence.
Qed.

Lemma held_ready fi s r (k : nat) : inv fi s → 0 ≤ r → rt s r = Some (k : Z) → ready s k.
Proof.
  intros HI Hr Hrt ts Hts E. destruct (inv_reg _ _ HI r k Hr Hrt) as [?|(n & t & ? & _ & Ht & Hv & _)]; [lia|].
  assert (n = k) as -> by lia. congruence.
Qed.

(** Registers get no new temporaries. *)
Definition norise (s s' : TCGContext) : Prop := ∀ r, 0 ≤ r → rt s' r = rt s r ∨ rt s' r = Some (-1).

Lemma norise_refl s : norise s s.
Proof. intros r _. by left. Qed.
Lemma norise_trans s1 s2 s3 : norise s1 s2 → norise s2 s3 → norise s1 s3.
Proof. intros H1 H2 r Hr. destruct (H2 r Hr) as [->|?]; auto. Qed.

Section save.
  Context (fi : frame_info) {dl : Disc fi} {M : Type} (sem : tcg_sem M) (junk : (Z → Z) → M → Z → Z).
  Notation inv := (inv fi).
  Notation Rel := (Rel fi).
  Notation grow := (grow fi).
  Notation step := (step fi sem junk).
  Notation keeps := (keeps fi).
  Implicit Types (h : hstate M) (s : TCGContext).

Lemma settled_saved s s' k : inv s → grow s s' → saved s s' → (k < nb_temps s)%nat → settled s k → settled s' k.
Proof.
  intros HI HG HS Hk Hse ts' Hts'. pose proof (inv_temps _ _ HI).
  destruct (lookup_lt_is_Some_2 (temps s) k) as [ts Hts]; [lia|].
  destruct (HS _ _ Hts) as (t & Ht & Hv). destruct (g_temps _ _ _ HG _ _ Hts) as (t' & Ht' & (_ & Hf & _) & _). simplify_eq.
  destruct (Hse _ Hts) as [?|E]; [left; congruence|]. rewrite E in Hv. right. by destruct Hv.
Qed.

Lemma step_norise s h s' h' : step (-1) s h s' h' → norise s s'.
Proof. intros ST r Hr. apply (st_rt _ _ _ _ _ _ _ _ ST); [done|by apply Z.bits_m1]. Qed.

Definition to_mem (ts : TCGTemp) : TCGTemp := ts <| val_type := TEMP_VAL_MEM |>.

(** The value is in the slot already. *)
Lemma to_mem_ok s h (k : nat) ts :
  inv s → (k < nb_temps s)%nat → temps s !! k = Some ts → fixed_reg ts = false → val_type ts ≠ TEMP_VAL_REG →
  step (-1) s h (set_temp s k to_mem) h ∧ saved s (set_temp s k to_mem) ∧ settled (set_temp s k to_mem) k ∧
  ∀ L vals, Rel s L vals h → (L k → mem_allocated ts = true ∧ eqv (ttype ts) (hslots h (home ts)) (vals k)) →
    Rel (set_temp s k to_mem) L vals h.
Proof.
  intros HI Hk Hts Hf Hv.
  assert (set_temp s k to_mem = set_temp (drop_reg s ts) k to_mem) as ->.
  { unfold drop_reg. by rewrite bool_decide_false by done. }
  pose proof (forget_temps s k ts to_mem Hts) as ET. split_and!.
  - by apply step_forget.
  - apply (saved_set s _ k _ ET). auto.
  - intros t. rewrite ET, list_lookup_insert_eq by (by eapply lookup_lt_Some). intros [= <-]. by right.
  - intros L vals HR HL. eapply (Rel_set fi s _ k _); [|exact ET|done|].
    + unfold drop_reg. by rewrite bool_decide_false by done.
    + intros [? ?]%HL. unfold located. cbn. by rewrite Hf.
Qed.

Lemma keep_const s h (k : nat) ts al reg s1 s2 ts2 :
  inv s → (k < nb_temps s)%nat → temps s !! k = Some ts → fixed_reg ts = false → val_type ts = TEMP_VAL_CONST →
  subset (reserved_regs s) al →
  tcg_reg_alloc s (tcg_target_available_regs (ttype ts)) al = Ok (s1, reg) →
  ensure_frame s1 k = Ok s2 → get_temp s2 k = Ok ts2 →
  let s3 := out (out s2 (HMovi (ttype ts2) reg (tval ts2))) (HSt (ttype ts2) reg (mem_reg ts2) (mem_offset ts2)) in
  ∃ h3, step al s h s3 h3 ∧ norise s s3 ∧ saved s s3 ∧ temps s3 !! k = Some ts2 ∧ val_type ts2 = TEMP_VAL_CONST ∧
    ∀ L vals, Rel s L vals h → Rel s3 L vals h3 ∧
      (L k → mem_allocated ts2 = true ∧ eqv (ttype ts2) (hslots h3 (home ts2)) (vals k)).
Proof.
  intros HI Hk Hts Hf Hv Hal Ea Ee Eg s3.
  destruct (tcg_reg_alloc_ok fi sem junk s _ al s1 reg h HI Ea) as (h1 & ST1 & Hr1 & K1 & SP1 & Hreg & _ & Hnal & Hrt & _).
  pose proof (st_grow _ _ _ _ _ _ _ _ ST1) as G1. pose proof (g_inv _ _ _ G1) as I1. pose proof (g_ctx _ _ _ G1) as C1.
  destruct (SP1 k ts Hts) as (t1 & Ht1 & _ & _ & _ & Hsame & _). rewrite Hsame in Ht1 by congruence. clear Hsame t1.
  assert (k < nb_temps s1)%nat as Hk1 by (by rewrite (sc_temps _ _ C1)).
  destruct (ensure_frame_ok fi (M:=M) s1 k ts s2) as (ts2' & E2 & Hall & (S2 & V1 & V2 & V3 & V4) & G2 & Er & Eco & K2); [done..|].
  assert (temps s2 !! k = Some ts2') as Hts2 by (rewrite E2; apply list_lookup_insert_eq; by eapply lookup_lt_Some).
  apply get_temp_Ok in Eg as [_ Eg]. rewrite Nat2Z.id in Eg. simplify_eq. pose proof (g_inv _ _ _ G2) as I2.
  assert (tcg_regset_test_reg (reserved_regs s2) reg = false) as Hres.
  { rewrite (sc_res _ _ (g_ctx _ _ _ G2)), (sc_res _ _ C1). destruct (tcg_regset_test_reg (reserved_regs s) reg) eqn:E; [|done].
    apply Hal in E. congruence. }
  assert (rt s2 reg = Some (-1)) as Hrt2 by (unfold rt; by rewrite Er).
  set (i1 := HMovi (ttype ts2) reg (tval ts2)). set (i2 := HSt (ttype ts2) reg (mem_reg ts2) (mem_offset ts2)).
  set (h2 := hstep fi sem junk h1 i1). set (h3 := hstep fi sem junk h2 i2).
  assert (step al s2 h1 (out s2 i1) h2) as ST2. { apply step_out; [done..|]. by apply keep_write. }
  assert (step al (out s2 i1) h2 s3 h3) as ST3. { apply step_out; [by apply inv_out|done|done| |done]. intros off. cbn. apply (stack_apart fi s2 k); try done.
    - by rewrite (sc_temps _ _ (g_ctx _ _ _ G2)).
    - destruct S2 as (_ & S2 & _). split; [congruence|done]. }
  exists h3. split_and!; [| | |done|congruence|].
  - eapply step_trans; [|eapply step_trans; [|exact ST3]; eapply step_trans; [|exact ST2]];
      [eapply step_mono; [apply subset_all|exact ST1]|].
    split; [done|by apply no_code|done..|]. intros r _ _. left. unfold rt. by rewrite Er.
  - apply (norise_trans _ s1); [by eapply step_norise|]. intros r _. left. unfold rt. cbn. by rewrite Er.
  - apply (saved_trans _ s1); [by apply spills_saved|]. apply (saved_set s1 _ k ts2); [done|]. intros t Ht. simplify_eq. by left.
  - intros L vals HR. assert (L k → eqv (ttype ts2) (tval ts2) (vals k)) as Hval.
    { intros HL. specialize (HR k ts Hk Hts HL). unfold located in HR. rewrite Hf, Hv in HR. rewrite V3. by destruct S2 as (-> & _). }
    split.
    + apply (Rel_write_slot fi (out s2 i1) L vals h2 k ts2); try done.
      * by apply inv_out.
      * cbn. by rewrite (sc_temps _ _ (g_ctx _ _ _ G2)).
      * destruct S2 as (_ & S2 & _). split; [congruence|done].
      * intros HL. cbn. rewrite fn_lookup_insert. rewrite 2!eqv_conv. auto.
      * apply (Rel_write_reg fi s2); [done|lia|done|done|]. by apply K2, K1.
    + intros HL. split; [done|]. cbn. unfold home. rewrite !fn_lookup_insert. rewrite 2!eqv_conv. auto.
Qed.

Lemma temp_save_ok s h (k : nat) al s' :
  inv s → (k < nb_temps s)%nat → subset (reserved_regs s) al → temp_save s k al = Ok s' →
  ∃ h', step al s h s' h' ∧ norise s s' ∧ keeps s h s' h' ∧ saved s s' ∧ settled s' k.
Proof.
  intros HI Hk Hal Hs. unfold temp_save in Hs. apply rbind_ok in Hs as (ts & Hts & Hs).
  apply get_temp_Ok in Hts as [_ Hts]. rewrite Nat2Z.id in Hts. pose proof (inv_temp _ _ HI k ts Hk Hts) as HT.
  destruct (fixed_reg ts) eqn:Hf.
  { injection Hs as <-. exists h. split_and!; [by apply step_refl|apply norise_refl|apply keeps_refl|apply saved_refl|]. intros t ?. simplify_eq. by left. }
  destruct (val_type ts) eqn:Hv.
  - injection Hs as <-. destruct (to_mem_ok s h k ts) as (ST & SA & SE & HR); [done..|congruence|].
    exists h. split_and!; [by eapply step_mono; [apply subset_all|]|by eapply step_norise| |done|done].
    intros L vals HRs. apply HR; [done|]. intros HL. specialize (HRs k ts Hk Hts HL). unfold located in HRs.
    rewrite Hf, Hv in HRs. destruct HRs as [Hg%disc_global ?]. split; [|done]. by apply (t_global _ _ _ _ HT).
  - destruct (t_reg _ _ _ _ HT Hf Hv) as (Hreg & _ & Hrt).
    destruct (tcg_reg_free_ok fi sem junk s (treg ts) s' h HI) as (h' & ST & _ & K & SP & Hrt' & _); [lia|done|].
    exists h'. split_and!; [by eapply step_mono; [apply subset_all|]|by eapply step_norise|done|by apply spills_saved|].
    intros t Ht. right. destruct (SP _ _ Hts) as (t' & Ht' & (_ & Hf' & _) & Htr & _ & _ & Hor). simplify_eq.
    pose proof (g_inv _ _ _ (st_grow _ _ _ _ _ _ _ _ ST)) as I'. destruct Hor as [E|E]; [|done]. rewrite Hv in E.
    assert (k < nb_temps s')%nat as Hk' by (by rewrite (sc_temps _ _ (g_ctx _ _ _ (st_grow _ _ _ _ _ _ _ _ ST)))).
    destruct (t_reg _ _ _ _ (inv_temp _ _ I' k t Hk' Ht)) as (_ & _ & Hrt2); [congruence|done|].
    rewrite Htr, Hrt' in Hrt2. injection Hrt2 as ?. lia.
  - injection Hs as <-. exists h. split_and!; [by apply step_refl|apply norise_refl|apply keeps_refl|apply saved_refl|]. intros t ?. simplify_eq. by right.
  - apply rbind_ok in Hs as ([s1 reg] & Ea & Hs). apply rbind_ok in Hs as (s2 & Ee & Hs). apply rbind_ok in Hs as (ts2 & Eg & [= <-]).
    destruct (keep_const s h k ts al reg s1 s2 ts2) as (h3 & ST & NR & SA & Ht3 & Hv3 & HR); [done..|].
    match type of ST with step _ _ _ ?s3 _ => set (s3' := s3) in * end.
    pose proof (st_grow _ _ _ _ _ _ _ _ ST) as G. pose proof (sc_temps _ _ (g_ctx _ _ _ G)) as En.
    destruct (g_temps _ _ _ G k ts Hts) as (t & Ht & (_ & Hft & _) & _). rewrite Ht3 in Ht. injection Ht as <-.
    destruct (to_mem_ok s3' h3 k ts2) as (ST2 & SA2 & SE & HR2); [apply G|by rewrite En|done|congruence|congruence|].
    exists h3. split_and!; [|by eapply norise_trans; [|eapply step_norise]|intros L vals HRs; destruct (HR L vals HRs); by apply HR2|by eapply saved_trans|done].
    eapply step_trans; [done|]. eapply step_mono; [apply subset_all|done].
Qed.

(** ** Loops *)

Lemma step_nb_temps al s h s' h' : step al s h s' h' → nb_temps s' = nb_temps s.
Proof. intros ST. exact (sc_temps _ _ (g_ctx _ _ _ (st_grow _ _ _ _ _ _ _ _ ST))). Qed.
Lemma step_nb_globals al s h s' h' : step al s h s' h' → nb_globals s' = nb_globals s.
Proof. intros ST. exact (sc_globals _ _ (g_ctx _ _ _ (st_grow _ _ _ _ _ _ _ _ ST))). Qed.
Lemma step_reserved al s h s' h' : step al s h s' h' → reserved_regs s' = reserved_regs s.
Proof. intros ST. exact (sc_res _ _ (g_ctx _ _ _ (st_grow _ _ _ _ _ _ _ _ ST))). Qed.
Lemma step_grows_inv al s h s' h' : step al s h s' h' → inv s'.
Proof. intros ST. exact (g_inv _ _ _ (st_grow _ _ _ _ _ _ _ _ ST)). Qed.

(** The values of the temporaries of [P] are kept, and registers get no others. *)
Definition keeps_on (P : nat → Prop) s h s' h' : Prop :=
  norise s s' ∧ ∀ L vals, (∀ k, L k → P k) → Rel s L vals h → Rel s' L vals h'.

Lemma keeps_on_trans P s1 h1 s2 h2 s3 h3 : keeps_on P s1 h1 s2 h2 → keeps_on P s2 h2 s3 h3 → keeps_on P s1 h1 s3 h3.
Proof. intros [N1 H1] [N2 H2]. split; [by eapply norise_trans|]. intros L vals HP HR. by apply H2, H1. Qed.
Lemma keeps_on_refl P s h : keeps_on P s h s h.
Proof. split; [apply norise_refl|done]. Qed.
Lemma keeps_keeps_on P s h s' h' : norise s s' → keeps s h s' h' → keeps_on P s h s' h'.
Proof. intros HN HK. split; [done|]. intros L vals _. apply HK. Qed.

Lemma for_temps_ok P (Q : nat → Prop) al (f : TCGContext → Z → result TCGContext) n lo s h s' :
  (∀ s h (i : nat) s', (lo ≤ i < lo + n)%nat → (i < nb_temps s)%nat → inv s → subset (reserved_regs s) al → f s i = Ok s' →
    ∃ h', step al s h s' h' ∧ keeps_on P s h s' h' ∧ (∀ k, k ≠ i → (k < nb_temps s)%nat → settled s k → settled s' k) ∧ (Q i → settled s' i)) →
  inv s → subset (reserved_regs s) al → (lo + n ≤ nb_temps s)%nat → for_temps n lo f s = Ok s' →
  ∃ h', step al s h s' h' ∧ keeps_on P s h s' h' ∧
    (∀ k, ¬ (lo ≤ k < lo + n)%nat → (k < nb_temps s)%nat → settled s k → settled s' k) ∧
    (∀ k, (lo ≤ k < lo + n)%nat → Q k → settled s' k).
Proof.
  revert lo s h. induction n as [|n IH]; intros lo s h Hf HI Hal Hn; cbn.
  { intros [= <-]. exists h. split_and!; [by apply step_refl|apply keeps_on_refl|auto|lia]. }
  intros Hs. apply rbind_ok in Hs as (s1 & E1 & Hs). destruct (Hf s h lo s1) as (h1 & ST1 & K1 & SE1 & Q1); [lia|lia|done..|].
  pose proof (step_nb_temps _ _ _ _ _ ST1) as En. pose proof (step_reserved _ _ _ _ _ ST1) as Er.
  destruct (IH (S lo) s1 h1) as (h2 & ST2 & K2 & SE2 & Q2); [|by eapply step_grows_inv|by rewrite Er|lia|done|].
  { intros. eapply Hf; try done. lia. }
  exists h2. split_and!; [by eapply step_trans|by eapply keeps_on_trans| |].
  - intros k Hk Hk' Hse. apply SE2; [lia|lia|]. apply SE1; [lia|lia|done].
  - intros k Hk HQ. destruct (decide (k = lo)) as [->|]; [|apply Q2; [lia|done]]. apply SE2; [lia|lia|auto].
Qed.

Lemma temp_save_loop P s h (i : nat) al s' :
  inv s → (i < nb_temps s)%nat → subset (reserved_regs s) al → temp_save s i al = Ok s' →
  ∃ h', step al s h s' h' ∧ keeps_on P s h s' h' ∧ (∀ k, k ≠ i → (k < nb_temps s)%nat → settled s k → settled s' k) ∧ settled s' i.
Proof.
  intros HI Hi Hal Hs. destruct (temp_save_ok s h i al s') as (h' & ST & N & K & SA & SE); [done..|].
  exists h'. split_and!; [done|by apply keeps_keeps_on| |done]. intros k _ Hk. apply settled_saved; try done. by eapply st_grow.
Qed.

Lemma save_globals_ok P s h al s' :
  inv s → subset (reserved_regs s) al → save_globals s al = Ok s' →
  ∃ h', step al s h s' h' ∧ keeps_on P s h s' h' ∧ (∀ k, (k < nb_temps s)%nat → (k < nb_globals s)%nat ∨ settled s k → settled s' k).
Proof.
  intros HI Hal Hs. pose proof (inv_temps _ _ HI) as [? ?].
  destruct (for_temps_ok P (λ _, True) al (λ s i, temp_save s i al) (nb_globals s) 0 s h s') as (h' & ST & K & SE & SQ); try done.
  { intros s1 h1 i s2 _ Hi HI1 Hal1 E. destruct (temp_save_loop P s1 h1 i al s2) as (h2 & ? & ? & ? & ?); [done..|]. exists h2. auto. }
  exists h'. split_and!; [done..|]. intros k Hk Ho. destruct (decide (k < nb_globals s)%nat); [by apply SQ; [lia|]|].
  destruct Ho as [?|Hse]; [done|]. apply SE; [lia|done|done].
Qed.

(** The temporaries whose values survive the end of a basic block. *)
Definition lasting (k : nat) : Prop := (k < fi_nb_globals fi)%nat ∨ fi_local fi k = true.

Lemma bb_end_temp_ok s h (i : nat) al s' :
  (fi_nb_globals fi ≤ i)%nat → (i < nb_temps s)%nat → inv s → subset (reserved_regs s) al → bb_end_temp al s i = Ok s' →
  ∃ h', step al s h s' h' ∧ keeps_on lasting s h s' h' ∧
    (∀ k, k ≠ i → (k < nb_temps s)%nat → settled s k → settled s' k) ∧ (lasting i → settled s' i).
Proof.
  intros Hg Hi HI Hal Hs. unfold bb_end_temp in Hs. apply rbind_ok in Hs as (ts & Hts & Hs).
  apply get_temp_Ok in Hts as [_ Hts]. rewrite Nat2Z.id in Hts. pose proof (inv_temp _ _ HI i ts Hi Hts) as HT.
  assert (fixed_reg ts = false) as Hf.
  { destruct (fixed_reg ts) eqn:E; [|done]. destruct (t_fixed_reg _ _ _ _ HT E) as [? _]. rewrite (inv_globals _ _ HI) in *. lia. }
  destruct (temp_local ts) eqn:El.
  { destruct (temp_save_loop lasting s h i al s') as (h2 & ? & ? & ? & ?); [done..|]. exists h2. auto. }
  assert (¬ lasting i) as Hnl. { rewrite (t_local _ _ _ _ HT) in El. intros [?|?]; [lia|congruence]. }
  injection Hs as <-. set (f := λ ts : TCGTemp, ts <| val_type := TEMP_VAL_DEAD |>). exists h.
  pose proof (forget_temps s i ts f Hts) as ET. split_and!; [by apply step_forget| | |done].
  - split; [apply (step_norise s h _ h); by apply step_forget|].
    intros L vals HP HR. eapply (Rel_set fi s _ i _); [|exact ET|done|by intros ?%HP]. by destruct (drop_reg_ctx s ts).
  - intros k Hne Hk Hse t. rewrite ET, list_lookup_insert_ne by done. apply Hse.
Qed.

Lemma bb_end_ok s h al s' :
  inv s → subset (reserved_regs s) al → tcg_reg_alloc_bb_end s al = Ok s' →
  ∃ h', step al s h s' h' ∧ keeps_on lasting s h s' h' ∧ ∀ k, (k < nb_temps s)%nat → lasting k → settled s' k.
Proof.
  intros HI Hal Hs. unfold tcg_reg_alloc_bb_end in Hs. apply rbind_ok in Hs as (s1 & E1 & Hs).
  pose proof (inv_temps _ _ HI) as [? ?]. pose proof (inv_globals _ _ HI) as Eg.
  destruct (for_temps_ok lasting lasting al (bb_end_temp al) (nb_temps s - nb_globals s) (nb_globals s) s h s1)
    as (h1 & ST1 & K1 & SE1 & SQ1); try done; [|lia|].
  { intros s0 h0 i s0' Hi ? ? ? ?. apply bb_end_temp_ok; try done. lia. }
  pose proof (step_nb_temps _ _ _ _ _ ST1) as En. pose proof (step_nb_globals _ _ _ _ _ ST1) as Eng.
  destruct (save_globals_ok lasting s1 h1 al s') as (h2 & ST2 & K2 & SE2); [by eapply step_grows_inv| |done|].
  { by rewrite (step_reserved _ _ _ _ _ ST1). }
  exists h2. split_and!; [by eapply step_trans|by eapply keeps_on_trans|]. intros k Hk HL. apply SE2; [lia|].
  rewrite Eng. destruct (decide (k < nb_globals s)%nat); [by left|right]. apply SQ1; [lia|done].
Qed.

(** ** Registers that a call may use *)

Lemma free_regs_ok s h regs s' :
  inv s → Forall (λ r, 0 ≤ r) regs → free_regs s regs = Ok s' →
  ∃ h', step (-1) s h s' h' ∧ hregs h' = hregs h ∧ keeps s h s' h' ∧ saved s s' ∧
    (∀ r, r ∈ regs → clobbered r = true → rt s' r = Some (-1)).
Proof.
  revert s h. induction regs as [|r regs IH]; intros s h HI HF; cbn [free_regs].
  { intros [= <-]. exists h. split_and!; [by apply step_refl|done|apply keeps_refl|apply saved_refl|by intros ? ?%elem_of_nil]. }
  apply Forall_cons_iff in HF as [Hr HF]. intros Hs. apply rbind_ok in Hs as (s1 & E1 & Hs).
  assert (∃ h1, step (-1) s h s1 h1 ∧ hregs h1 = hregs h ∧ keeps s h s1 h1 ∧ saved s s1 ∧ (clobbered r = true → rt s1 r = Some (-1)))
    as (h1 & ST1 & R1 & K1 & SA1 & RT1).
  { revert E1. unfold clobbered. destruct (tcg_regset_test_reg tcg_target_call_clobber_regs r); intros E1.
    - destruct (tcg_reg_free_ok fi sem junk s r s1 h) as (h1 & ? & ? & ? & ? & ? & _); [done..|]. exists h1. split_and!; auto using spills_saved.
    - injection E1 as <-. exists h. split_and!; [by apply step_refl|done|apply keeps_refl|apply saved_refl|done]. }
  destruct (IH s1 h1) as (h2 & ST2 & R2 & K2 & SA2 & RT2); [by eapply step_grows_inv|done..|].
  exists h2. split_and!; [by eapply step_trans|congruence|by eapply keeps_trans|by eapply saved_trans|].
  intros r' [->|Hin]%elem_of_cons Hc; [|by apply RT2]. destruct (st_rt _ _ _ _ _ _ _ _ ST2 r) as [->|?]; [done|by apply Z.bits_m1|auto|done].
Qed.

Lemma all_regs_nonneg : Forall (λ r, 0 ≤ r) all_regs.
Proof. unfold all_regs. apply Forall_forall. intros r ?%list_elem_of_In%elem_of_seqZ. lia. Qed.

Lemma clobbered_all r : clobbered r = true → r ∈ all_regs.
Proof.
  unfold clobbered, all_regs, tcg_regset_test_reg. intros Hr. apply elem_of_seqZ.
  change tcg_target_call_clobber_regs with 4039 in Hr. destruct (Z.neg_nonneg_cases r); [by rewrite Z.testbit_neg_r in Hr|].
  split; [done|]. apply Z.nle_gt. intros Hge. rewrite Z.bits_above_log2 in Hr; [done|lia|].
  change (Z.log2 4039) with 11. change (0 + TCG_TARGET_NB_REGS) with 16 in Hge. lia.
Qed.

(** ** Dead inputs *)

(** The input of some position marked dead. *)
Definition killed (mask i : Z) (iargs : list Z) (k : nat) : Prop :=
  ∃ n : nat, iargs !! n = Some (k : Z) ∧ IS_DEAD_IARG mask (i + n) = true ∧ fi_fixed fi k = false.

Lemma killed_cons mask i a iargs k :
  killed mask i (a :: iargs) k ↔ (a = k ∧ IS_DEAD_IARG mask i = true ∧ fi_fixed fi k = false) ∨ killed mask (i + 1) iargs k.
Proof.
  split.
  - intros ([|n] & Hn & Hb & Hf); cbn in Hn.
    + injection Hn as ->. rewrite Z.add_0_r in Hb. by left.
    + right. exists n. replace (i + 1 + n) with (i + S n) by lia. done.
  - intros [(-> & Hb & Hf)|(n & Hn & Hb & Hf)].
    + exists 0%nat. by rewrite Z.add_0_r.
    + exists (S n). replace (i + S n) with (i + 1 + n) by lia. done.
Qed.

Lemma mark_dead_ok s h mask i iargs s' :
  inv s → (∀ (n : nat) a, iargs !! n = Some a → IS_DEAD_IARG mask (i + n) = true → a < nb_temps s) →
  mark_dead s mask i iargs = Ok s' →
  step (-1) s h s' h ∧ keeps_on (λ k, ¬ killed mask i iargs k) s h s' h ∧
  ∀ r k, 0 ≤ r → rt s r = Some (Z.of_nat k) → killed mask i iargs k → rt s' r = Some (-1).
Proof.
  revert s i. induction iargs as [|a iargs IH]; intros s i HI Hb; cbn [mark_dead].
  { intros [= <-]. split_and!; [by apply step_refl|apply keeps_on_refl|]. intros r k _ _ (n & ? & _). by rewrite lookup_nil in *. }
  intros Hs. apply rbind_ok in Hs as (s1 & E1 & Hs).
  assert (step (-1) s h s1 h ∧ (∀ (L : nat → Prop) vals, (∀ k : nat, L k → ¬ (a = k ∧ IS_DEAD_IARG mask i = true ∧ fi_fixed fi k = false)) → Rel s L vals h → Rel s1 L vals h) ∧
    ∀ r (k : nat), 0 ≤ r → rt s r = Some (k : Z) → (a = k ∧ IS_DEAD_IARG mask i = true ∧ fi_fixed fi k = false) → rt s1 r = Some (-1))
    as (ST1 & K1 & RT1).
  { destruct (IS_DEAD_IARG mask i) eqn:Eb; [|injection E1 as <-; split_and!; [by apply step_refl|by intros L vals|naive_solver]].
    apply rbind_ok in E1 as (ts & Hts & [= <-]). destruct (get_temp_nat _ _ _ Hts) as (k & -> & Hk).
    assert (k < nb_temps s)%nat as Hlt. { specialize (Hb 0%nat k eq_refl). rewrite Z.add_0_r in Hb. specialize (Hb Eb). lia. }
    pose proof (t_fixed _ _ _ _ (inv_temp _ _ HI k ts Hlt Hk)) as Hfx. destruct (fixed_reg ts) eqn:Hf.
    - split_and!; [by apply step_refl|by intros L vals|]. intros r k' _ _ (E & _ & ?). assert (k' = k) as -> by lia. congruence.
    - pose proof (forget_temps s k ts (λ ts : TCGTemp, ts <| val_type := TEMP_VAL_DEAD |>) Hk) as ET.
      split_and!; [by apply step_forget| |].
      + intros L vals HP HR. eapply (Rel_set fi s _ k _); [|exact ET|done|intros []%HP; done]. by destruct (drop_reg_ctx s ts).
      + intros r k' Hr Hrt (E & _ & _). assert (k' = k) as -> by lia.
        change (rt (drop_reg s ts) r = Some (-1)). rewrite (rt_drop fi s k) by done. by rewrite bool_decide_true. }
  destruct (IH s1 (i + 1)) as (ST2 & [N2 K2] & RT2); [by eapply step_grows_inv| |done|].
  { intros n a' Hn Hbit. rewrite (step_nb_temps _ _ _ _ _ ST1). apply (Hb (S n) a' Hn). by replace (i + S n) with (i + 1 + n) by lia. }
  split_and!; [by eapply step_trans| |].
  - split; [by eapply norise_trans; eapply step_norise|]. intros L vals HP HR. apply K2; [|apply K1; [|done]]; intros k HL%HP; rewrite killed_cons in HL; tauto.
  - intros r k Hr Hrt. rewrite killed_cons. destruct (st_rt _ _ _ _ _ _ _ _ ST1 r Hr) as [E|E]; [by apply Z.bits_m1| |].
    + intros [HD|?]; [|apply (RT2 r k); [done|congruence|done]].
      destruct (st_rt _ _ _ _ _ _ _ _ ST2 r Hr) as [->|?]; [by apply Z.bits_m1|by apply (RT1 r k)|done].
    + intros _. destruct (st_rt _ _ _ _ _ _ _ _ ST2 r Hr) as [->|?]; [by apply Z.bits_m1|done|done].
Qed.

End save.
