(* ===== verification/TcgArgs.v ===== *)
(** * Inputs of an operation

    [load_iarg] and [alloc_iarg] bring the inputs to registers that the
    constraints allow, or leave them as constants that the instruction takes. *)

From stdpp Require Import base gmap list functions.
From S2P Require Import Prelude TcgData TcgLive TcgLiveInv TcgAlloc TcgSem TcgInv TcgSpill TcgSave.
Local Open Scope Z_scope.
Local Coercion Z.of_nat : nat >-> Z.

Lemma set_reg_test al r r' : 0 ≤ r →
  tcg_regset_test_reg (tcg_regset_set_reg al r) r' = tcg_regset_test_reg al r' || bool_decide (r = r').
Proof.
  intros Hr. unfold tcg_regset_test_reg, tcg_regset_set_reg. rewrite Z.lor_spec, Z.shiftl_1_l.
  destruct (Z.neg_nonneg_cases r'); [rewrite !Z.testbit_neg_r by done; rewrite bool_decide_false; [done|lia]|].
  f_equal. case_bool_decide as E; [subst; by apply Z.pow2_bits_true|by apply Z.pow2_bits_false].
Qed.

Lemma subset_refl al : subset al al.
Proof. by intros r. Qed.
Lemma subset_trans a b c : subset a b → subset b c → subset a c.
Proof. intros H1 H2 r ?. auto. Qed.
Lemma subset_set_reg al r : 0 ≤ r → subset al (tcg_regset_set_reg al r).
Proof. intros Hr r' Hr'. rewrite set_reg_test by done. by rewrite Hr'. Qed.

Section args.
  Context (fi : frame_info) {dl : Disc fi} {M : Type} (sem : tcg_sem M) (junk : (Z → Z) → M → Z → Z).
  Notation inv := (inv fi).
  Notation Rel := (Rel fi).
  Notation grow := (grow fi).
  Notation step := (step fi sem junk).
  Notation keeps := (keeps fi).
  Implicit Types (h : hstate M) (s : TCGContext).

Lemma step_all al s h s' h' : step (-1) s h s' h' → step al s h s' h'.
Proof. apply step_mono, subset_all. Qed.

Lemma unreserved s al r : subset (reserved_regs s) al → tcg_regset_test_reg al r = false → tcg_regset_test_reg (reserved_regs s) r = false.
Proof. intros Hal Hr. destruct (tcg_regset_test_reg (reserved_regs s) r) eqn:E; [|done]. apply Hal in E. congruence. Qed.

Lemma assign_Rel s (k : nat) ts r coh L vals h :
  temps s !! k = Some ts → Rel s L vals h → (L k → located fi h k (to_reg r coh ts) (vals k)) → Rel (assign s ts k r coh) L vals h.
Proof.
  intros Hts HR HL. eapply (Rel_set fi s _ k _); [|by apply assign_temps|done|done].
  unfold assign. cbn. by destruct (drop_reg_ctx s ts).
Qed.

(** A value is put in a register that was allocated, and the temporary there. *)
Lemma load_reg s h (k : nat) ts al reg i v coh :
  inv s → (k < nb_temps s)%nat → temps s !! k = Some ts → fixed_reg ts = false → val_type ts ≠ TEMP_VAL_REG →
  0 ≤ reg < TCG_TARGET_NB_REGS → tcg_regset_test_reg al reg = false → subset (reserved_regs s) al → rt s reg = Some (-1) →
  is_move i = true → hstep fi sem junk h i = mkH (<[reg := v]> (hregs h)) (hslots h) (hm h) →
  (∀ L vals, Rel s L vals h → L k → eqv (ttype ts) v (vals k) ∧
    (coh = true → mem_allocated ts = true ∧ eqv (ttype ts) (hslots h (home ts)) (vals k))) →
  let s' := set_reg (set_temp (out s i) k (to_reg reg coh)) reg k in
  step al s h s' (hstep fi sem junk h i) ∧ keeps s h s' (hstep fi sem junk h i).
Proof.
  intros HI Hk Hts Hf Hv Hreg Hal Hres Hrt Emv Ei Hval s'. pose proof (unreserved _ _ _ Hres Hal) as Hnr.
  assert (s' = assign (out s i) ts k reg coh) as ->.
  { unfold s', assign, drop_reg. by rewrite bool_decide_false by done. }
  split.
  - eapply step_trans; [apply step_out; [done|done|by rewrite Ei|by rewrite Ei|]|].
    + rewrite Ei. by apply keep_write.
    + apply step_assign; try done; [by apply inv_out|by left].
  - intros L vals HR. apply assign_Rel; [done| |].
    + rewrite Ei. by eapply (Rel_write_reg fi s); [..|lia|done|done|done].
    + intros HL. destruct (Hval L vals HR HL) as [Hv1 Hv2]. unfold located. cbn. rewrite Hf, Ei. cbn.
      rewrite fn_lookup_insert. done.
Qed.

Lemma alloc_load s h (k : nat) ts ct al s1 reg i (v : hstate M → Z) coh :
  inv s → (k < nb_temps s)%nat → temps s !! k = Some ts → fixed_reg ts = false → val_type ts ≠ TEMP_VAL_REG →
  subset (reserved_regs s) al → tcg_reg_alloc s ct al = Ok (s1, reg) → is_move i = true →
  (∀ h, hstep fi sem junk h i = mkH (<[reg := v h]> (hregs h)) (hslots h) (hm h)) →
  (∀ h w, located fi h k ts w → eqv (ttype ts) (v h) w ∧
    (coh = true → mem_allocated ts = true ∧ eqv (ttype ts) (hslots h (home ts)) w)) →
  temps s1 !! k = Some ts ∧
  let s' := set_reg (set_temp (out s1 i) k (to_reg reg coh)) reg k in
  ∃ h', step al s h s' h' ∧ keeps s h s' h'.
Proof.
  intros HI Hk Hts Hf Hv Hal Ea Emv Hi Hval.
  destruct (tcg_reg_alloc_ok fi sem junk s _ al s1 reg h HI Ea) as (h1 & ST1 & _ & K1 & SP1 & Hreg & _ & Hnal & Hrt & _).
  destruct (SP1 k ts Hts) as (t1 & Ht1 & _ & _ & _ & Hsame & _). rewrite Hsame in Ht1 by done. clear Hsame t1.
  assert (k < nb_temps s1)%nat as Hk1 by (by rewrite (step_nb_temps _ _ _ _ _ _ _ _ ST1)).
  destruct (load_reg s1 h1 k ts al reg i (v h1) coh) as [ST2 K2]; try done.
  - by eapply step_grows_inv.
  - by rewrite (step_reserved _ _ _ _ _ _ _ _ ST1).
  - intros L vals HR HL. by apply Hval, HR.
  - split; [done|]. eexists. split; [eapply step_trans; [apply step_all, ST1|exact ST2]|by eapply keeps_trans].
Qed.

Lemma load_iarg_ok ct s (k : nat) al s' c h :
  inv s → (k < nb_temps s)%nat → subset (reserved_regs s) al → load_iarg ct s k al = Ok (s', c) →
  ∃ h', step al s h s' h' ∧ keeps s h s' h' ∧
    ∀ v, c = Some v → s' = s ∧ h' = h ∧ tcg_target_const_match v ct = true ∧
      ∀ L vals, Rel s L vals h → L k → eqv (fi_type fi k) v (vals k).
Proof.
  intros HI Hk Hal Hs. unfold load_iarg in Hs. apply rbind_ok in Hs as (ts & Hts & Hs).
  apply get_temp_Ok in Hts as [_ Hts]. rewrite Nat2Z.id in Hts. pose proof (inv_temp _ _ HI k ts Hk Hts) as HT.
  assert (val_type ts ≠ TEMP_VAL_REG → fixed_reg ts = false) as Hf.
  { intros Hv. destruct (fixed_reg ts) eqn:E; [|done]. by destruct (t_fixed_reg _ _ _ _ HT E) as (_ & ? & _). }
  destruct (val_type ts) eqn:Hv.
  - injection Hs as <- <-. exists h. split_and!; [by apply step_refl|apply keeps_refl|done].
  - injection Hs as <- <-. exists h. split_and!; [by apply step_refl|apply keeps_refl|done].
  - apply rbind_ok in Hs as ([s1 reg] & Ea & Hs). apply rbind_ok in Hs as (t & Ht & Hs).
    destruct (alloc_load s h k ts (ct_regs ct) al s1 reg (HLd (ttype ts) reg (mem_reg ts) (mem_offset ts))
      (λ h, conv (ttype ts) (hslots h (home ts))) true) as (Ht1 & h' & ST & K); [try done; try congruence..|].
    + by apply Hf.
    + intros h' w HL. unfold located in HL. rewrite Hf, Hv in HL by done. rewrite eqv_conv. naive_solver.
    + apply get_temp_Ok in Ht as [_ Ht]. rewrite Nat2Z.id in Ht. rewrite Ht1 in Ht. injection Ht as <-. injection Hs as <- <-.
      exists h'. done.
  - destruct (tcg_target_const_match (tval ts) ct) eqn:Em.
    + injection Hs as <- <-. exists h. split_and!; [by apply step_refl|apply keeps_refl|]. intros v [= <-]. split_and!; [done..|].
      intros L vals HR HL. specialize (HR k ts Hk Hts HL). unfold located in HR. rewrite Hf, Hv in HR by done.
      by rewrite (t_type _ _ _ _ HT) in HR.
    + apply rbind_ok in Hs as ([s1 reg] & Ea & [= <- <-]).
      destruct (alloc_load s h k ts (ct_regs ct) al s1 reg (HMovi (ttype ts) reg (tval ts))
        (λ _, conv (ttype ts) (tval ts)) false) as (_ & h' & ST & K); [try done; try congruence..|].
      * by apply Hf.
      * intros h' w HL. unfold located in HL. rewrite Hf, Hv in HL by done. by rewrite eqv_conv.
      * exists h'. done.
Qed.

(** *** One input *)

(** An aliased input's register is free for the output, or will be when the
    input is found dead. *)
Definition alias_free s (mask : Z) (n : Z) (k : nat) (r : Z) : Prop :=
  0 ≤ r < TCG_TARGET_NB_REGS ∧ tcg_regset_test_reg (reserved_regs s) r = false ∧
  (rt s r = Some (-1) ∨ (rt s r = Some (k : Z) ∧ IS_DEAD_IARG mask n = true ∧ fi_fixed fi k = false)).

Definition const_input (ct : TCGArgConstraint) s h (k : nat) (c : Z) : Prop :=
  tcg_target_const_match c ct = true ∧
  ∀ L vals, Rel s L vals h → L k → eqv (fi_type fi k) c (vals k).

Definition reg_input (c : TCGArgConstraint) (mask n : Z) s h s' h' (k : nat) (r : Z) : Prop :=
  tcg_regset_test_reg (ct_regs c) r = true ∧
  (∀ L vals, Rel s L vals h → L k → eqv (fi_type fi k) (hregs h' r) (vals k)) ∧
  (has_flag (ct c) TCG_CT_IALIAS = true → alias_free s' mask n k r).

Lemma reg_input_ok c mask n s h (k : nat) ts al (alias : bool) s' r :
  inv s → (k < nb_temps s)%nat → temps s !! k = Some ts → val_type ts = TEMP_VAL_REG → subset (reserved_regs s) al →
  (has_flag (ct c) TCG_CT_IALIAS = true → alias = false →
    IS_DEAD_IARG mask n = true ∧ fixed_reg ts = false) →
  (if negb alias && tcg_regset_test_reg (ct_regs c) (treg ts) then Ok (s, treg ts)
   else
     '(s, reg) <- tcg_reg_alloc s (ct_regs c) al ;;
     ts <- get_temp s k ;;
     Ok (out s (HMov (ttype ts) reg (treg ts)), reg)) = Ok (s', r) →
  ∃ h', step al s h s' h' ∧ keeps s h s' h' ∧ reg_input c mask n s h s' h' k r.
Proof.
  intros HI Hk Hts Hv Hal Hdead Hs. pose proof (inv_temp _ _ HI k ts Hk Hts) as HT.
  assert (∀ L vals, Rel s L vals h → L k → eqv (fi_type fi k) (hregs h (treg ts)) (vals k)) as Hval.
  { intros L vals HR HL. specialize (HR k ts Hk Hts HL). unfold located in HR. rewrite Hv in HR.
    rewrite <- (t_type _ _ _ _ HT). destruct (fixed_reg ts); naive_solver. }
  destruct (negb alias && _) eqn:Ec.
  - injection Hs as <- <-. apply andb_true_iff in Ec as [Ea%negb_true_iff Ec].
    exists h. split_and!; [by apply step_refl|apply keeps_refl|]. split_and!; [done..|].
    intros Hi. destruct (Hdead Hi Ea) as [? Hf]. destruct (t_reg _ _ _ _ HT Hf Hv) as (? & ? & ?). split_and!; [lia..|done|].
    right. by rewrite <- (t_fixed _ _ _ _ HT).
  - apply rbind_ok in Hs as ([s1 reg] & Ea & Hs). apply rbind_ok in Hs as (t & Ht & [= <- <-]).
    destruct (tcg_reg_alloc_ok fi sem junk s _ al s1 reg h HI Ea) as (h1 & ST1 & R1 & K1 & SP1 & Hreg & Hct & Hnal & Hrt & _).
    destruct (SP1 k ts Hts) as (t1 & Ht1 & (Hty & _) & Htr & _). apply get_temp_Ok in Ht as [_ Ht]. rewrite Nat2Z.id in Ht. simplify_eq.
    pose proof (step_reserved _ _ _ _ _ _ _ _ ST1) as Er. pose proof (unreserved s al reg Hal Hnal) as Hnr.
    pose proof (step_grows_inv _ _ _ _ _ _ _ _ ST1) as I1.
    exists (hstep fi sem junk h1 (HMov (ttype t) reg (treg t))). split_and!.
    + eapply step_trans; [apply step_all, ST1|]. apply step_out; [done..|]. by apply keep_write.
    + eapply keeps_trans; [done|]. eapply (keeps_out_reg fi sem junk s1 h1 _ reg); [done|lia|done|congruence|done].
    + split_and!; [done| |].
      * intros L vals HR HL. cbn. rewrite fn_lookup_insert, Hty, (t_type _ _ _ _ HT), eqv_conv, Htr, R1. by apply (Hval L).
      * intros _. split_and!; [lia..|cbn; by rewrite Er|left; done].
Qed.

Lemma alloc_iarg_ok op (args : list Z) mask s na ca al (i k : nat) s' na' ca' al' h :
  inv s → (k < nb_temps s)%nat → subset (reserved_regs s) al → args !! i = Some (k : Z) →
  (has_flag (ct (get_ct (args_ct (op_info op)) i)) TCG_CT_IALIAS = true → fi_fixed fi k = true →
    args !! Z.to_nat (alias_index (get_ct (args_ct (op_info op)) i)) ≠ Some (k : Z)) →
  (∀ r, tcg_regset_test_reg (ct_regs (get_ct (args_ct (op_info op)) i)) r = true → 0 ≤ r) →
  alloc_iarg op args mask (s, na, ca, al) i = Ok (s', na', ca', al') →
  ∃ h', step al s h s' h' ∧ keeps s h s' h' ∧ subset al al' ∧
    ((∃ c, na' = <[i := c]> na ∧ ca' = <[i := true]> ca ∧ const_input (get_ct (args_ct (op_info op)) i) s h k c) ∨
     (∃ r, na' = <[i := r]> na ∧ ca' = <[i := false]> ca ∧ tcg_regset_test_reg al' r = true ∧
       reg_input (get_ct (args_ct (op_info op)) i) mask (i - nb_oargs (op_def op)) s h s' h' k r)).
Proof.
  intros HI Hk Hal Hi Hfix Hct Hs. unfold alloc_iarg in Hs.
  set (n := i - _) in *. set (ct := get_ct _ i) in *. clearbody n ct. apply rbind_ok in Hs as (a & Ea & Hs).
  apply aref_Ok in Ea as [_ Ea]. rewrite Nat2Z.id in Ea. assert (a = k) as -> by congruence.
  apply rbind_ok in Hs as ([s1 c] & El & Hs).
  destruct (load_iarg_ok _ s k al s1 c h HI Hk Hal El) as (h1 & ST1 & K1 & HC). destruct c as [v|].
  { injection Hs as <- <- <- <-. destruct (HC v eq_refl) as (-> & -> & ? & ?). exists h.
    split_and!; [done|done|apply subset_refl|left; by exists v]. }
  clear HC. apply rbind_ok in Hs as (ts & Hts & Hs). apply get_temp_Ok in Hts as [_ Hts]. rewrite Nat2Z.id in Hts.
  apply rbind_ok in Hs as ([] & Ev & Hs). apply assert_ok, bool_decide_eq_true in Ev. apply rbind_ok in Hs as (alias & Eal & Hs).
  apply rbind_ok in Hs as ([s2 r] & Er & [= <- <- <- <-]).
  pose proof (step_grows_inv _ _ _ _ _ _ _ _ ST1) as I1.
  assert (k < nb_temps s1)%nat as Hk1 by (by rewrite (step_nb_temps _ _ _ _ _ _ _ _ ST1)).
  destruct (reg_input_ok ct mask n s1 h1 k ts al alias s2 r) as (h2 & ST2 & K2 & Hct2 & Hv2 & Ha2); try done.
  { by rewrite (step_reserved _ _ _ _ _ _ _ _ ST1). }
  { intros Hia ->. rewrite Hia in Eal. pose proof (t_fixed _ _ _ _ (inv_temp _ _ I1 k ts Hk1 Hts)) as Hfx. destruct (fixed_reg ts).
    - apply rbind_ok in Eal as (a & Ea' & [= Eal]). apply negb_false_iff, Z.eqb_eq in Eal as <-. apply aref_Ok in Ea' as [_ Ea'].
      by destruct (Hfix Hia).
    - injection Eal as Eal. by apply negb_false_iff in Eal. }
  pose proof (Hct r Hct2). exists h2. split_and!; [by eapply step_trans|by eapply keeps_trans|by apply subset_set_reg|]. right. exists r. split_and!; try done.
  - rewrite set_reg_test by done. by rewrite bool_decide_true, orb_true_r.
  - split_and!; [done| |done]. intros L vals HR. apply (Hv2 L), K1, HR.
Qed.

End args.
