(* ===== verification/TcgOpIn.v ===== *)
(** * Facts on the constraints of the operations

    What the allocator relies on of the tables of this host: the registers and
    the aliases of each operation, checked by evaluation. *)

From stdpp Require Import base gmap list functions.
From S2P Require Import Prelude TcgData TcgLive TcgLiveInv TcgAlloc TcgSem TcgInv TcgSpill TcgSave TcgArgs.
Local Open Scope Z_scope.
Local Coercion Z.of_nat : nat >-> Z.

Section fact.
  Context (op : TCGOpcode).

Notation d := (op_def op).
Definition arg_ct (i : nat) : TCGArgConstraint := get_ct (args_ct (op_info op)) i.

Definition order_fact : bool :=
  bool_decide (drop (nb_oargs d) (sorted_args (op_info op)) ≡ₚ seq (nb_oargs d) (nb_iargs d)) &&
  bool_decide (take (nb_oargs d) (sorted_args (op_info op)) ≡ₚ seq 0 (nb_oargs d)).

Definition range_fact : bool :=
  forallb (λ i, (0 <=? ct_regs (arg_ct i)) && (ct_regs (arg_ct i) <? 2 ^ TCG_TARGET_NB_REGS)) (seq 0 (nb_oargs d + nb_iargs d)).

Definition ialias_fact (i : nat) : bool :=
  implb (has_flag (ct (arg_ct i)) TCG_CT_IALIAS)
    (negb (has_flag (ct (arg_ct i)) (TCG_CT_CONST .| TCG_CT_CONST_S32 .| TCG_CT_CONST_U32)) &&
     (alias_index (arg_ct i) <? nb_oargs d)%nat).

Definition is_alias (i : nat) : bool := has_flag (ct (arg_ct i)) TCG_CT_ALIAS.

Definition alias_fact (i : nat) : bool :=
  implb (is_alias i)
    ((nb_oargs d <=? alias_index (arg_ct i))%nat && (alias_index (arg_ct i) <? nb_oargs d + nb_iargs d)%nat &&
     has_flag (ct (arg_ct (alias_index (arg_ct i)))) TCG_CT_IALIAS &&
     forallb (λ j, (i =? j)%nat || (ct_regs (arg_ct (alias_index (arg_ct i))) .& ct_regs (arg_ct (alias_index (arg_ct j))) =? 0))
       (seq 0 (nb_oargs d))).

Definition outputs_fact : bool := forallb is_alias (seq 0 (nb_oargs d)) || (nb_oargs d =? 1)%nat.

Definition flags_fact : bool :=
  implb (has_flag (op_flags d) TCG_OPF_BB_END) ((nb_oargs d =? 0)%nat && negb (clobbers op)) &&
  implb (clobbers op) (has_flag (op_flags d) TCG_OPF_SIDE_EFFECTS) &&
  implb (has_flag (op_flags d) TCG_OPF_BB_END) (has_flag (op_flags d) TCG_OPF_SIDE_EFFECTS).

Definition op_fact : bool :=
  order_fact && range_fact && forallb ialias_fact (seq (nb_oargs d) (nb_iargs d)) &&
  forallb alias_fact (seq 0 (nb_oargs d)) && outputs_fact && flags_fact.

End fact.

Lemma op_facts op : used (op_info op) = true → op_fact op = true.
Proof.
  assert (forallb (λ op, implb (used (op_info op)) (op_fact op)) (seq 0 NB_OPS) = true) as H by (vm_compute; reflexivity).
  intros Hu. destruct (decide (op < NB_OPS)%nat) as [Hlt|Hge].
  - rewrite List.forallb_forall in H. specialize (H op). rewrite Hu in H. apply H. apply List.in_seq. lia.
  - assert (op_info op = mkInfo [] [] false) as E; [|by rewrite E in Hu]. unfold op_info.
    rewrite lookup_ge_None_2; [done|]. change (length x86_infos) with NB_OPS. lia.
Qed.

Section facts.
  Context (op : TCGOpcode) (Hu : used (op_info op) = true).
  Notation d := (op_def op).

Lemma op_facts_split :
  order_fact op = true ∧ range_fact op = true ∧ forallb (ialias_fact op) (seq (nb_oargs d) (nb_iargs d)) = true ∧
  forallb (alias_fact op) (seq 0 (nb_oargs d)) = true ∧ outputs_fact op = true ∧ flags_fact op = true.
Proof. pose proof (op_facts op Hu) as H. unfold op_fact in H. rewrite !andb_true_iff in H. tauto. Qed.

Lemma sorted_inputs : drop (nb_oargs d) (sorted_args (op_info op)) ≡ₚ seq (nb_oargs d) (nb_iargs d).
Proof. destruct op_facts_split as (H & _). apply andb_true_iff in H as [H _]. by apply bool_decide_eq_true in H. Qed.

Lemma sorted_outputs : take (nb_oargs d) (sorted_args (op_info op)) ≡ₚ seq 0 (nb_oargs d).
Proof. destruct op_facts_split as (H & _). apply andb_true_iff in H as [_ H]. by apply bool_decide_eq_true in H. Qed.

Lemma ct_regs_range i r :
  (i < nb_oargs d + nb_iargs d)%nat → tcg_regset_test_reg (ct_regs (arg_ct op i)) r = true → 0 ≤ r < TCG_TARGET_NB_REGS.
Proof.
  intros Hi Hr. destruct op_facts_split as (_ & H & _). unfold range_fact in H. rewrite List.forallb_forall in H.
  specialize (H i ltac:(apply List.in_seq; lia)). apply andb_true_iff in H as [H1%Z.leb_le H2%Z.ltb_lt].
  unfold tcg_regset_test_reg in Hr. destruct (Z.neg_nonneg_cases r); [by rewrite Z.testbit_neg_r in Hr|].
  split; [done|]. apply Z.nle_gt. intros Hge. destruct (Z.eq_dec (ct_regs (arg_ct op i)) 0) as [E|E].
  - by rewrite E, Z.testbit_0_l in Hr.
  - rewrite Z.bits_above_log2 in Hr; [done|lia|]. apply Z.log2_lt_pow2; [lia|]. eapply Z.lt_le_trans; [exact H2|].
    apply Z.pow_le_mono_r; lia.
Qed.

Lemma ialias_ok i :
  (nb_oargs d ≤ i < nb_oargs d + nb_iargs d)%nat → has_flag (ct (arg_ct op i)) TCG_CT_IALIAS = true →
  (∀ v, tcg_target_const_match v (arg_ct op i) = false) ∧ (alias_index (arg_ct op i) < nb_oargs d)%nat.
Proof.
  intros Hi Hia. destruct op_facts_split as (_ & _ & H & _). rewrite List.forallb_forall in H.
  specialize (H i ltac:(apply List.in_seq; lia)). unfold ialias_fact in H. rewrite Hia in H.
  cbn [implb] in H. apply andb_true_iff in H as [Hc%negb_true_iff Hx%Nat.ltb_lt]. split; [|done]. intros v.
  assert (∀ f, (TCG_CT_CONST .| TCG_CT_CONST_S32 .| TCG_CT_CONST_U32) .& f = f → has_flag (ct (arg_ct op i)) f = false) as Hf.
  { intros f Ef. unfold has_flag in *. apply negb_false_iff, Z.eqb_eq in Hc. apply negb_false_iff, Z.eqb_eq.
    rewrite <- Ef, Z.land_assoc, Hc. apply Z.land_0_l. }
  unfold tcg_target_const_match. rewrite !Hf by done. done.
Qed.

Lemma alias_ok i :
  (i < nb_oargs d)%nat → is_alias op i = true →
  (nb_oargs d ≤ alias_index (arg_ct op i) < nb_oargs d + nb_iargs d)%nat ∧
  has_flag (ct (arg_ct op (alias_index (arg_ct op i)))) TCG_CT_IALIAS = true ∧
  ∀ j r, (j < nb_oargs d)%nat → i ≠ j → tcg_regset_test_reg (ct_regs (arg_ct op (alias_index (arg_ct op i)))) r = true →
    tcg_regset_test_reg (ct_regs (arg_ct op (alias_index (arg_ct op j)))) r = true → False.
Proof.
  intros Hi Hia. destruct op_facts_split as (_ & _ & _ & H & _). rewrite List.forallb_forall in H.
  specialize (H i ltac:(apply List.in_seq; lia)). unfold alias_fact in H. rewrite Hia in H. cbn [implb] in H.
  rewrite !andb_true_iff in H. destruct H as [[[H1%Nat.leb_le H2%Nat.ltb_lt] H3] H4]. split_and!; [done..|].
  intros j r Hj Hne Hr1 Hr2. rewrite List.forallb_forall in H4. specialize (H4 j ltac:(apply List.in_seq; lia)).
  apply orb_true_iff in H4 as [H4%Nat.eqb_eq|H4%Z.eqb_eq]; [done|]. unfold tcg_regset_test_reg in *.
  assert (Z.testbit 0 r = true) as E; [|by rewrite Z.testbit_0_l in E]. by rewrite <- H4, Z.land_spec, Hr1, Hr2.
Qed.

Lemma outputs_ok : (∀ i, (i < nb_oargs d)%nat → is_alias op i = true) ∨ nb_oargs d = 1%nat.
Proof.
  destruct op_facts_split as (_ & _ & _ & _ & H & _). apply orb_true_iff in H as [H|H%Nat.eqb_eq]; [left|by right].
  intros i Hi. rewrite List.forallb_forall in H. apply H, List.in_seq. lia.
Qed.

Lemma bb_end_flags : has_flag (op_flags d) TCG_OPF_BB_END = true →
  nb_oargs d = 0%nat ∧ clobbers op = false ∧ has_flag (op_flags d) TCG_OPF_SIDE_EFFECTS = true.
Proof.
  intros Hb. destruct op_facts_split as (_ & _ & _ & _ & _ & H). unfold flags_fact in H. rewrite Hb in H. cbn [implb] in H.
  rewrite !andb_true_iff in H. destruct H as [[[H1%Nat.eqb_eq H2%negb_true_iff] _] H3]. done.
Qed.

Lemma clobber_flags : clobbers op = true → has_flag (op_flags d) TCG_OPF_SIDE_EFFECTS = true.
Proof.
  intros Hb. destruct op_facts_split as (_ & _ & _ & _ & _ & H). unfold flags_fact in H. rewrite Hb in H. cbn [implb] in H.
  rewrite !andb_true_iff in H. tauto.
Qed.

End facts.

(** Operations that end blocks or clobber have side effects. *)
Lemma side_effects op : (op < NB_OPS)%nat → has_flag (op_flags (op_def op)) TCG_OPF_SIDE_EFFECTS = false →
  has_flag (op_flags (op_def op)) TCG_OPF_BB_END = false ∧ clobbers op = false.
Proof.
  intros Hop Hse. assert (forallb (λ op, has_flag (op_flags (op_def op)) TCG_OPF_SIDE_EFFECTS ||
    (negb (has_flag (op_flags (op_def op)) TCG_OPF_BB_END) && negb (clobbers op))) (seq 0 NB_OPS) = true) as H by (vm_compute; reflexivity).
  rewrite List.forallb_forall in H. specialize (H op ltac:(apply List.in_seq; lia)). rewrite Hse in H.
  apply andb_true_iff in H as [?%negb_true_iff ?%negb_true_iff]. done.
Qed.

(** * The inputs and outputs of an operation

    The loops of [tcg_reg_alloc_op] over its inputs and its outputs. *)

Section op.
  Context (fi : frame_info) {dl : Disc fi} {M : Type} (sem : tcg_sem M) (junk : (Z → Z) → M → Z → Z).
  Context (op : TCGOpcode) (args : list Z) (mask : Z).
  Notation inv := (inv fi).
  Notation Rel := (Rel fi).
  Notation step := (step fi sem junk).
  Notation keeps := (keeps fi).
  Notation d := (op_def op).
  Implicit Types (h : hstate M) (s : TCGContext) (na : list Z) (ca : list bool) (al : TCGRegSet).

(** ** Inputs *)

(** Input [i] is in its place: [s0] and [h0] are from before the loop. *)
Definition input_done s0 h0 s h na ca al (i : nat) : Prop :=
  ∃ (k : nat) x b, args !! i = Some (k : Z) ∧ na !! i = Some x ∧ ca !! i = Some b ∧
    (∀ L vals, Rel s0 L vals h0 → L k → eqv (fi_type fi k) (host_arg h x b) (vals k)) ∧
    (b = false → tcg_regset_test_reg al x = true) ∧
    (has_flag (ct (arg_ct op i)) TCG_CT_IALIAS = true →
      b = false ∧ tcg_regset_test_reg (ct_regs (arg_ct op i)) x = true ∧ alias_free fi s mask (i - nb_oargs d) k x).

Lemma input_done_step s0 h0 s h na ca al s' h' na' ca' al' i :
  step al s h s' h' → subset al al' → na' !! i = na !! i → ca' !! i = ca !! i →
  input_done s0 h0 s h na ca al i → input_done s0 h0 s' h' na' ca' al' i.
Proof.
  intros ST Hsub E1 E2 (k & x & b & H1 & H2 & H3 & H4 & H5 & H6). exists k, x, b. rewrite E1, E2. split_and!; [done..| | |].
  - intros L vals HR HL. specialize (H4 L vals HR HL). destruct b; [done|]. cbn in *.
    by rewrite (st_keep _ _ _ _ _ _ _ _ ST) by auto.
  - auto.
  - intros Hia. destruct (H6 Hia) as (-> & Hct & Hr & Hres & Hf). split_and!; [done..|]. split_and!; [lia..| |].
    + by rewrite (step_reserved _ _ _ _ _ _ _ _ ST).
    + destruct (st_rt _ _ _ _ _ _ _ _ ST x) as [->|?]; [lia|auto|done|by left].
Qed.

(** An input that may be allocated. *)
Definition input_ok s na ca (i : nat) : Prop :=
  (i < length na)%nat ∧ (i < length ca)%nat ∧
  (∀ r, tcg_regset_test_reg (ct_regs (arg_ct op i)) r = true → 0 ≤ r) ∧
  (has_flag (ct (arg_ct op i)) TCG_CT_IALIAS = true → ∀ v, tcg_target_const_match v (arg_ct op i) = false) ∧
  ∃ k : nat, args !! i = Some (k : Z) ∧ (k < nb_temps s)%nat ∧
    (has_flag (ct (arg_ct op i)) TCG_CT_IALIAS = true → fi_fixed fi k = true → args !! alias_index (arg_ct op i) ≠ Some (k : Z)).

Lemma one_input_ok s na ca al (i : nat) s' na' ca' al' h :
  inv s → subset (reserved_regs s) al → input_ok s na ca i →
  alloc_iarg op args mask (s, na, ca, al) i = Ok (s', na', ca', al') →
  ∃ h', step al s h s' h' ∧ keeps s h s' h' ∧ subset al al' ∧ input_done s h s' h' na' ca' al' i ∧
    length na' = length na ∧ length ca' = length ca ∧ ∀ j, j ≠ i → na' !! j = na !! j ∧ ca' !! j = ca !! j.
Proof.
  intros HI Hal (Hn & Hc & Hct & Hcm & k & Hk & Hkt & Hfx) Hs.
  destruct (alloc_iarg_ok fi sem junk op args mask s na ca al i k s' na' ca' al' h) as (h' & ST & K & Hsub & Hio); try done.
  { intros Hia Hf. rewrite Nat2Z.id. by apply Hfx. }
  exists h'. do 3 (split; [done|]).
  destruct Hio as [(c & -> & -> & Hm & Hv)|(r & -> & -> & Ht & Hm & Hv & Ha)]; rewrite !length_insert; split_and!; try done;
    try (intros j Hj; by rewrite !list_lookup_insert_ne).
  - exists k, c, true. rewrite !list_lookup_insert_eq by done. split_and!; try done.
    intros Hia. fold (arg_ct op i) in Hm. by rewrite Hcm in Hm.
  - exists k, r, false. rewrite !list_lookup_insert_eq by done. split_and!; try done. auto.
Qed.

Lemma inputs_loop l s na ca al s' na' ca' al' h :
  NoDup l → inv s → subset (reserved_regs s) al → (∀ i, i ∈ l → input_ok s na ca i) →
  for_args (alloc_iarg op args mask) l (s, na, ca, al) = Ok (s', na', ca', al') →
  ∃ h', step al s h s' h' ∧ keeps s h s' h' ∧ subset al al' ∧ (∀ i, i ∈ l → input_done s h s' h' na' ca' al' i) ∧
    length na' = length na ∧ length ca' = length ca ∧ ∀ j, j ∉ l → na' !! j = na !! j ∧ ca' !! j = ca !! j.
Proof.
  revert s na ca al h. induction l as [|i l IH]; intros s na ca al h HN HI Hal Hok; cbn [for_args].
  { intros [= <- <- <- <-]. exists h. split_and!; try done; [by apply step_refl|apply keeps_refl|apply subset_refl|by intros i ?%elem_of_nil]. }
  inversion_clear HN as [|? ? Hni HN'']. rename HN'' into HN. intros Hs. apply rbind_ok in Hs as ([[[s1 na1] ca1] al1] & E1 & Hs).
  destruct (one_input_ok s na ca al i s1 na1 ca1 al1 h) as (h1 & ST1 & K1 & Hsub1 & Hd1 & Ln & Lc & Hoth); try done.
  { apply Hok. by left. }
  destruct (IH s1 na1 ca1 al1 h1) as (h2 & ST2 & K2 & Hsub2 & Hd2 & Ln2 & Lc2 & Hoth2); try done.
  { by eapply step_grows_inv. }
  { rewrite (step_reserved _ _ _ _ _ _ _ _ ST1). by eapply subset_trans. }
  { intros j Hj. destruct (Hok j) as (? & ? & ? & ? & k & ? & ? & ?); [by right|]. rewrite <- Ln, <- Lc in *. split_and!; try done. exists k.
    rewrite (step_nb_temps _ _ _ _ _ _ _ _ ST1). done. }
  exists h2. split_and!; [|by eapply keeps_trans|by eapply subset_trans| |congruence..|].
  - eapply step_trans; [done|]. by eapply step_mono.
  - intros j [->|Hj]%elem_of_cons.
    + destruct (Hoth2 i Hni). by eapply input_done_step.
    + destruct (Hd2 j Hj) as (k & x & b & ? & ? & ? & Hv & ? & ?). exists k, x, b. split_and!; try done.
      intros L vals HR. apply (Hv L), K1, HR.
  - intros j [Hj Hjl]%not_elem_of_cons. destruct (Hoth j Hj) as [<- <-]. auto.
Qed.

(** ** Outputs *)

Definition is_output (k : nat) : Prop := ∃ i, (i < nb_oargs d)%nat ∧ args !! i = Some (k : Z).

(** Output [i] has its register. *)
Definition out_done s na (i : nat) : Prop :=
  ∃ (k : nat) r ts, args !! i = Some (k : Z) ∧ na !! i = Some r ∧ 0 ≤ r ∧ rt s r = Some (k : Z) ∧
    temps s !! k = Some ts ∧ mem_coherent ts = false.

(** The globals in memory have their values there. *)
Definition in_slots (vals : nat → Z) h : Prop := globals_eqv fi (host_globals fi (hslots h)) vals.

Lemma settled_in_slots s vals h :
  inv s → (∀ k, (k < nb_globals s)%nat → settled s k) → Rel s (λ k, mem_global fi k = true) vals h → in_slots vals h.
Proof.
  intros HI Hse HR k Hg. pose proof Hg as Hg'. apply andb_true_iff in Hg' as [Hk%Nat.ltb_lt Hf%negb_true_iff].
  rewrite <- (inv_globals _ _ HI) in Hk. pose proof (inv_temps _ _ HI).
  destruct (lookup_lt_is_Some_2 (temps s) k) as [ts Hts]; [lia|]. assert (k < nb_temps s)%nat as Hkt by lia.
  specialize (HR k ts Hkt Hts Hg). pose proof (inv_temp _ _ HI k ts Hkt Hts) as HT. unfold located in HR.
  rewrite (t_fixed _ _ _ _ HT), Hf in HR. destruct (Hse k Hk ts Hts) as [E|E]; [rewrite (t_fixed _ _ _ _ HT) in E; congruence|].
  rewrite E in HR. unfold host_globals. destruct (t_global _ _ _ _ HT Hg) as [_ <-]. rewrite <- (t_type _ _ _ _ HT). apply HR.
Qed.

Record outs_ok (P : nat → Prop) s h s' h' na na' : Prop := {
  o_step : step 0 s h s' h';
  o_regs : hregs h' = hregs h;
  o_rel L vals : Rel s L vals h → Rel s' (λ k, L k ∧ ¬ ∃ i, P i ∧ args !! i = Some (k : Z)) vals h';
  o_done i : P i → out_done s' na' i;
  o_rt r : 0 ≤ r → rt s' r = rt s r ∨ rt s' r = Some (-1) ∨
    ∃ i k, P i ∧ args !! i = Some (Z.of_nat k) ∧ na' !! i = Some r ∧ rt s' r = Some (k : Z);
  o_na j : ¬ P j → na' !! j = na !! j;
  o_len : length na' = length na;
  o_settled (k : nat) : (¬ ∃ i, P i ∧ args !! i = Some (k : Z)) → (k < nb_temps s)%nat → settled s k → settled s' k;
  o_slots vals : (∀ k, (k < nb_globals s)%nat → settled s k) → Rel s (λ k, mem_global fi k = true) vals h → in_slots vals h'
}.

(** Output [i] gets register [r], after the code for [r] has led to [s1]. *)
Lemma assign_out s h s1 h1 (i k : nat) r ts na :
  inv s → step 0 s h s1 h1 → hregs h1 = hregs h → keeps s h s1 h1 → (∀ r', 0 ≤ r' → rt s1 r' = rt s r' ∨ rt s1 r' = Some (-1)) →
  saved s s1 →
  args !! i = Some (k : Z) → (k < nb_temps s)%nat → temps s1 !! k = Some ts → fixed_reg ts = false → (i < length na)%nat →
  0 ≤ r < TCG_TARGET_NB_REGS → tcg_regset_test_reg (reserved_regs s) r = false → rt s1 r = Some (-1) →
  outs_ok (eq i) s h (assign s1 ts k r false) h1 na (<[i := r]> na) ∧
  ∀ r', 0 ≤ r' → r' ≠ r → rt (assign s1 ts k r false) r' = if bool_decide (rt s1 r' = Some (k : Z)) then Some (-1) else rt s1 r'.
Proof.
  intros HI ST HR K RT SA Hi Hk Hts Hf Hl Hr Hres Hrt. pose proof (step_grows_inv _ _ _ _ _ _ _ _ ST) as I1.
  assert (k < nb_temps s1)%nat as Hk1 by (by rewrite (step_nb_temps _ _ _ _ _ _ _ _ ST)).
  pose proof (assign_temps s1 k ts r false Hts) as ET.
  assert (∀ r', 0 ≤ r' → r' ≠ r → rt (assign s1 ts k r false) r' = if bool_decide (rt s1 r' = Some (k : Z)) then Some (-1) else rt s1 r') as Hrt'.
  { intros r' ? ?. by apply (assign_rt fi); [..|lia| |]. }
  assert (rt (assign s1 ts k r false) r = Some (k : Z)) as Hrk.
  { unfold assign. apply rt_set_reg. cbn. rewrite drop_reg_len, (inv_regs _ _ I1). done. }
  split; [|done]. split.
  - eapply step_trans; [done|]. apply step_assign; try done.
    + by rewrite (step_reserved _ _ _ _ _ _ _ _ ST).
    + by left.
    + apply Z.testbit_0_l.
  - done.
  - intros L vals HRel. apply assign_Rel; [done| |].
    + eapply Rel_sub; [|by apply K]. tauto.
    + intros [_ []]. by exists i.
  - intros j <-. exists k, r, (to_reg r false ts). rewrite list_lookup_insert_eq by done.
    rewrite ET, list_lookup_insert_eq by (by eapply lookup_lt_Some). split_and!; try done. lia.
  - intros r' Hr'. destruct (decide (r' = r)) as [->|Hne].
    + right. right. exists i, k. rewrite list_lookup_insert_eq by done. done.
    + rewrite Hrt' by done. case_bool_decide; [auto|]. destruct (RT r' Hr') as [->|?]; auto.
  - intros j Hj. by rewrite list_lookup_insert_ne.
  - by rewrite length_insert.
  - intros j Hj Hjt Hse t. rewrite ET, list_lookup_insert_ne by (intros ->; apply Hj; by exists i). intros Ht.
    eapply settled_saved; [exact HI|by eapply st_grow|done..].
  - intros vals Hse HRel. apply (settled_in_slots s1); [done| |by apply K].
    intros j Hj. rewrite (step_nb_globals _ _ _ _ _ _ _ _ ST) in Hj. pose proof (inv_temps _ _ HI).
    eapply settled_saved; [exact HI|by eapply st_grow|done|lia|by apply Hse].
Qed.

Lemma outs_nil s h na : inv s → outs_ok (λ _, False) s h s h na na.
Proof.
  intros HI. split; try done; [by apply step_refl| |by left|].
  - intros L vals. apply Rel_sub. tauto.
  - intros vals ? ?. by apply (settled_in_slots s).
Qed.

(** A register that an aliased output may take over. *)
Definition free_alias s na (i : nat) (r : Z) : Prop :=
  na !! alias_index (arg_ct op i) = Some r ∧ 0 ≤ r < TCG_TARGET_NB_REGS ∧
  tcg_regset_test_reg (reserved_regs s) r = false ∧ rt s r = Some (-1).

Definition output_ok s na (i : nat) : Prop :=
  (i < length na)%nat ∧ (i < nb_oargs d)%nat ∧ ∃ k : nat, args !! i = Some (k : Z) ∧ (k < nb_temps s)%nat ∧ fi_fixed fi k = false.

Lemma alias_out s h na ca al (i : nat) r s' na' ca' al' :
  inv s → is_alias op i = true → output_ok s na i → free_alias s na i r →
  alloc_oarg op args (s, na, ca, al) i = Ok (s', na', ca', al') →
  outs_ok (eq i) s h s' h na na' ∧ na' = <[i := r]> na ∧
  ∃ k : nat, args !! i = Some (k : Z) ∧
    ∀ r', 0 ≤ r' → r' ≠ r → rt s' r' = (if bool_decide (rt s r' = Some (k : Z)) then Some (-1) else rt s r') ∧
    ∀ j tj, j ≠ k → temps s !! j = Some tj → temps s' !! j = Some tj.
Proof.
  intros HI Hia (Hl & Hn & k & Hk & Hkt & Hfx) (Hna & Hr & Hres & Hrt) Hs. unfold alloc_oarg in Hs. fold (arg_ct op i) in Hs.
  unfold is_alias in Hia. rewrite Hia in Hs. apply rbind_ok in Hs as (a & Ea & Hs). apply aref_Ok in Ea as [_ Ea].
  rewrite Nat2Z.id in Ea. assert (a = k) as -> by congruence. apply rbind_ok in Hs as (ts & Hts & Hs).
  cbn [negb andb] in Hs. apply rbind_ok in Hs as ([s1 r1] & Er & Hs). apply rbind_ok in Er as (r2 & Er & [= <- <-]).
  apply aref_Ok in Er as [_ Er]. rewrite Nat2Z.id in Er. assert (r2 = r) as -> by congruence. rewrite Hts in Hs. cbn [rbind] in Hs.
  apply get_temp_Ok in Hts as [_ Hts]. rewrite Nat2Z.id in Hts. pose proof (t_fixed _ _ _ _ (inv_temp _ _ HI k ts Hkt Hts)) as Hf.
  rewrite Hf, Hfx in Hs. injection Hs as <- <- <- <-. rewrite Hfx in Hf.
  destruct (assign_out s h s h i k r ts na) as [HO HRT]; try done; [by apply step_refl|apply keeps_refl|by left|apply saved_refl|].
  split_and!; [done..|]. exists k. split; [done|]. intros r' Hr' Hne. split; [by apply HRT|].
  intros j tj Hj Htj. change (temps (assign s ts k r false) !! j = Some tj).
  rewrite (assign_temps s k ts r false Hts), list_lookup_insert_ne by done. done.
Qed.

Lemma outs_cons (P : nat → Prop) i s h s1 h1 s2 h2 na na1 na2 :
  ¬ P i → outs_ok (eq i) s h s1 h1 na na1 → outs_ok P s1 h1 s2 h2 na1 na2 → h1 = h → h2 = h1 → out_done s2 na2 i →
  outs_ok (λ j, j = i ∨ P j) s h s2 h2 na na2.
Proof.
  intros HP [S1 R1 L1 D1 T1 N1 E1 Z1 G1] [S2 R2 L2 D2 T2 N2 E2 Z2 G2] Eh1 Eh2 Hd. split.
  - by eapply step_trans.
  - congruence.
  - intros L vals HR. eapply Rel_sub; [|by apply L2, L1]. intros k [HL Hn]. split_and!; [done| |].
    + intros (j & <- & Hj). apply Hn. eauto.
    + intros (j & Hj & Hk). apply Hn. eauto.
  - intros j [->|Hj]; auto.
  - intros r Hr. destruct (T2 r Hr) as [E|[?|(j & k & ? & ? & ? & ?)]]; [|by auto|right; right; exists j, k; auto].
    rewrite E. destruct (T1 r Hr) as [?|[?|(j & k & <- & ? & ? & ?)]]; [auto..|]. right. right. exists i, k.
    rewrite N2 by done. auto.
  - intros j Hj. rewrite N2, N1 by naive_solver. done.
  - congruence.
  - intros k Hk Hkt Hse. apply Z2; [|by rewrite (step_nb_temps _ _ _ _ _ _ _ _ S1)|].
    + intros (j & ? & ?). apply Hk. eauto.
    + apply Z1; [|done..]. intros (j & <- & ?). apply Hk. eauto.
  - intros vals Hse HR. subst. by apply G1.
Qed.

Lemma out_done_assign s na s' (i j k : nat) r :
  out_done s na i → args !! j = Some (k : Z) → args !! i ≠ args !! j → i ≠ j → rt s r = Some (-1) → 0 ≤ r →
  (∀ r', 0 ≤ r' → r' ≠ r → rt s' r' = (if bool_decide (rt s r' = Some (k : Z)) then Some (-1) else rt s r') ∧
    ∀ j tj, j ≠ k → temps s !! j = Some tj → temps s' !! j = Some tj) →
  out_done s' (<[j := r]> na) i.
Proof.
  intros (ki & ri & ti & Hki & Hri & Hr0 & Hrt & Hti & Hc) Hj Hne Hij Hr Hr' HRT.
  assert (ki ≠ k) as Hkne by (intros ->; congruence).
  assert (ri ≠ r) as Hrne by (intros ->; rewrite Hr in Hrt; injection Hrt; lia).
  destruct (HRT ri Hr0 Hrne) as [E HT]. exists ki, ri, ti. rewrite list_lookup_insert_ne by done. split_and!; try done.
  - rewrite E, bool_decide_false; [done|]. rewrite Hrt. intros [= ?]. lia.
  - by apply HT.
Qed.

Lemma alias_outs l s h na ca al s' na' ca' al' (rs : nat → Z) :
  NoDup l → inv s → (∀ i, i ∈ l → is_alias op i = true ∧ output_ok s na i ∧ free_alias s na i (rs i)) →
  (∀ i, i ∈ l → (nb_oargs d ≤ alias_index (arg_ct op i))%nat) →
  (∀ i j, i ∈ l → j ∈ l → i ≠ j → rs i ≠ rs j ∧ args !! i ≠ args !! j) →
  for_args (alloc_oarg op args) l (s, na, ca, al) = Ok (s', na', ca', al') →
  outs_ok (λ i, i ∈ l) s h s' h na na' ∧
  ∀ j, j ∉ l → (∀ i, i ∈ l → args !! j ≠ args !! i) → out_done s na j → out_done s' na' j.
Proof.
  revert s na ca al. induction l as [|i l IH]; intros s na ca al HN HI Hok Hal Hd; cbn [for_args].
  { intros [= <- <- <- <-]. split; [|done]. destruct (outs_nil s h na HI) as [? ? ? ? ? ? ? ? ?]. split; try done.
    - intros L vals HR. eapply Rel_sub; [|done]. tauto.
    - by intros i ?%elem_of_nil.
    - intros r Hr. by left. }
  inversion_clear HN as [|? ? Hni HN']. intros Hs. apply rbind_ok in Hs as ([[[s1 na1] ca1] al1] & E1 & Hs).
  destruct (Hok i) as (Hia & Hout & Hfree); [by left|].
  destruct (alias_out s h na ca al i (rs i) s1 na1 ca1 al1) as (HO1 & -> & k & Hk & HRT); try done.
  destruct Hfree as (_ & Hr & _ & Hrt). pose proof (step_grows_inv _ _ _ _ _ _ _ _ (o_step _ _ _ _ _ _ _ HO1)) as I1.
  pose proof (step_nb_temps _ _ _ _ _ _ _ _ (o_step _ _ _ _ _ _ _ HO1)) as Ent.
  pose proof (step_reserved _ _ _ _ _ _ _ _ (o_step _ _ _ _ _ _ _ HO1)) as Ers.
  destruct (IH s1 (<[i := rs i]> na) ca1 al1) as [HO2 HD2]; try done.
  { intros j Hj. destruct (Hok j) as (? & (? & ? & kj & ? & ? & ?) & (Hnj & ? & ? & Hrj)); [by right|].
    assert (i ≠ j) as Hij by (by intros ->). destruct (Hd i j) as [Hrs _]; [by left|by right|done|]. destruct (Hout) as (_ & ? & _). split_and!; [done| |].
    - rewrite <- Ent in *. split_and!; [by rewrite length_insert|done|]. by exists kj.
    - split_and!; [|lia..|by rewrite Ers|].
      + rewrite list_lookup_insert_ne; [done|]. specialize (Hal j ltac:(by right)). lia.
      + destruct (HRT (rs j)) as [-> _]; [lia|done|]. case_bool_decide; [done|done]. }
  { intros j Hj. apply Hal. by right. }
  { intros j1 j2 ? ?. apply Hd; by right. }
  assert (out_done s' na' i) as Hdi.
  { apply HD2; [done| |by apply (o_done _ _ _ _ _ _ _ HO1)]. intros j Hj. apply Hd; [by left|by right|]. by intros ->. }
  split.
  - pose proof (outs_cons _ i s h s1 h s' h na _ na' Hni HO1 HO2 eq_refl eq_refl Hdi) as [S R L D T N E ZZ G].
    split; try done.
    + intros L' vals HR. eapply Rel_sub; [|by apply L]. intros k' [? Hn]. split; [done|]. intros (j & Hj & ?). apply Hn. exists j.
      by rewrite elem_of_cons.
    + intros j ?%elem_of_cons. auto.
    + intros r0 Hr0. destruct (T r0 Hr0) as [?|[?|(j & kj & Hj & ?)]]; [auto..|]. right. right. exists j, kj. by rewrite elem_of_cons.
    + intros j. rewrite elem_of_cons. auto.
    + intros k' Hk'. apply ZZ. intros (j & Hj & ?). apply Hk'. exists j. by rewrite elem_of_cons.
  - intros j [Hji Hjl]%not_elem_of_cons Hne Hdj. apply HD2; [done|intros j' Hj'; apply Hne; by right|].
    eapply (out_done_assign s na s1 j i k); try done; [apply Hne; by left|lia].
Qed.

Lemma plain_out s h na ca al (i : nat) s' na' ca' al' :
  inv s → is_alias op i = false → output_ok s na i → subset (reserved_regs s) al →
  alloc_oarg op args (s, na, ca, al) i = Ok (s', na', ca', al') →
  ∃ h', outs_ok (eq i) s h s' h' na na'.
Proof.
  intros HI Hia (Hl & Hn & k & Hk & Hkt & Hfx) Hal Hs. unfold alloc_oarg in Hs. fold (arg_ct op i) in Hs.
  unfold is_alias in Hia. rewrite Hia in Hs. apply rbind_ok in Hs as (a & Ea & Hs). apply aref_Ok in Ea as [_ Ea].
  rewrite Nat2Z.id in Ea. assert (a = k) as -> by congruence. apply rbind_ok in Hs as (ts & Hts & Hs).
  apply get_temp_Ok in Hts as [_ Hts]. rewrite Nat2Z.id in Hts. pose proof (t_fixed _ _ _ _ (inv_temp _ _ HI k ts Hkt Hts)) as Hf.
  rewrite Hf, Hfx in Hs. cbn [negb andb] in Hs. apply rbind_ok in Hs as ([s1 r] & Er & Hs). apply rbind_ok in Hs as (t & Ht & Hs).
  apply get_temp_Ok in Ht as [_ Ht]. rewrite Nat2Z.id in Ht.
  destruct (tcg_reg_alloc_ok fi sem junk s _ al s1 r h HI Er) as (h1 & ST1 & R1 & K1 & SP1 & Hreg & _ & Hnal & Hrt & HRT).
  destruct (SP1 k ts Hts) as (t' & Ht' & (_ & Hft & _) & _). assert (t' = t) as -> by congruence.
  assert (fixed_reg t = false) as Hft' by congruence. rewrite Hft' in Hs. injection Hs as <- <- <- <-.
  exists h1. destruct (assign_out s h s1 h1 i k r t na) as [HO _]; try done.
  - by apply step_all.
  - intros r' Hr'. apply (st_rt _ _ _ _ _ _ _ _ ST1); [done|by apply Z.bits_m1].
  - by apply spills_saved.
  - by eapply unreserved.
Qed.

Lemma outs_ok_iff (P Q : nat → Prop) s h s' h' na na' : (∀ i, P i ↔ Q i) → outs_ok P s h s' h' na na' → outs_ok Q s h s' h' na na'.
Proof.
  intros HPQ [S R L D T N E ZZ G]. split; try done.
  - intros L' vals HR. eapply Rel_sub; [|by apply L]. intros k [? Hn]. split; [done|]. intros (j & ?%HPQ & ?). apply Hn. eauto.
  - intros i ?%HPQ. auto.
  - intros r Hr. destruct (T r Hr) as [?|[?|(i & k & ?%HPQ & ?)]]; [auto..|]. right. right. eauto.
  - intros j Hj. apply N. by rewrite HPQ.
  - intros k Hk. apply ZZ. intros (j & ?%HPQ & ?). apply Hk. eauto.
Qed.

(** All outputs.  [inputs_done] gives the registers that aliases take. *)
Lemma outputs_loop s h na ca al s' na' ca' al' :
  used (op_info op) = true → inv s → subset (reserved_regs s) al →
  (∀ i, (i < nb_oargs d)%nat → output_ok s na i) →
  (∀ i j, (i < nb_oargs d)%nat → (j < nb_oargs d)%nat → i ≠ j → args !! i ≠ args !! j) →
  (∀ i, (i < nb_oargs d)%nat → is_alias op i = true →
    ∃ r, free_alias s na i r ∧ tcg_regset_test_reg (ct_regs (arg_ct op (alias_index (arg_ct op i)))) r = true) →
  for_args (alloc_oarg op args) (take (nb_oargs d) (sorted_args (op_info op))) (s, na, ca, al) = Ok (s', na', ca', al') →
  ∃ h', outs_ok (λ i, (i < nb_oargs d)%nat) s h s' h' na na'.
Proof.
  intros Hu HI Hal Hout Hne Hfree Hs. pose proof (sorted_outputs op Hu) as HP.
  set (l := take _ _) in *. assert (NoDup l) as HN by (rewrite HP; apply NoDup_seq).
  assert (∀ i, i ∈ l ↔ (i < nb_oargs d)%nat) as Hin. { intros i. rewrite HP, elem_of_seq. lia. }
  assert ((∀ i, i ∈ l → is_alias op i = true) ∨ ¬ ∀ i, i ∈ l → is_alias op i = true) as [Hall|Hnot].
  { destruct (forallb (is_alias op) l) eqn:E; [left|right].
    - intros i Hi. rewrite List.forallb_forall in E. by apply E, list_elem_of_In.
    - intros H. apply Bool.not_true_iff_false in E. apply E, List.forallb_forall. intros i ?%list_elem_of_In. auto. }
  - exists h. pose (rs i := default 0 (na !! alias_index (arg_ct op i))).
    destruct (alias_outs l s h na ca al s' na' ca' al' rs) as [HO _]; try done.
    + intros i Hi. pose proof Hi as Hi'. apply Hin in Hi'. split_and!; [by apply Hall|by apply Hout|].
      destruct (Hfree i Hi' (Hall i Hi)) as (r & Hr & _). assert (rs i = r) as ->; [|done].
      unfold rs. by destruct Hr as [-> _].
    + intros i Hi. apply (alias_ok op Hu i); [by apply Hin|by apply Hall].
    + intros i j Hi Hj Hij. pose proof Hi as Hi'. pose proof Hj as Hj'. rewrite Hin in Hi', Hj'. split; [|by apply Hne].
      destruct (Hfree i Hi' (Hall i Hi)) as (ri & [Hri _] & Hti). destruct (Hfree j Hj' (Hall j Hj)) as (rj & [Hrj _] & Htj).
      unfold rs. rewrite Hri, Hrj. cbn. intros <-. destruct (alias_ok op Hu i Hi' (Hall i Hi)) as (_ & _ & HF). by apply (HF j ri).
    + eapply outs_ok_iff; [|exact HO]. done.
  - destruct (outputs_ok op Hu) as [H1|H1]; [destruct Hnot; intros i Hi%Hin; auto|].
    rewrite H1 in *. cbn [seq] in HP. apply Permutation_singleton_r in HP. rewrite HP in *. cbn [for_args] in Hs.
    apply rbind_ok in Hs as ([[[s1 na1] ca1] al1] & E1 & [= <- <- <- <-]).
    assert (is_alias op 0 = false) as Hia.
    { destruct (is_alias op 0) eqn:E; [|done]. destruct Hnot. intros i Hi%Hin. by replace i with 0%nat by lia. }
    destruct (plain_out s h na ca al 0 s1 na1 ca1 al1) as [h' HO]; try done; [by apply Hout; lia|].
    exists h'. eapply outs_ok_iff; [|exact HO]. intros i. cbn. lia.
Qed.

End op.
