(* ===== verification/TcgOp.v ===== *)
(** * The effect of an instruction on the temporaries

    What is left of the values after the instruction of an operation or a
    call: outputs in their registers, globals in their slots, the rest as it
    was. *)

From stdpp Require Import base gmap list functions.
From S2P Require Import Prelude TcgData TcgLive TcgLiveInv TcgAlloc TcgSem TcgInv TcgSpill TcgSave TcgArgs TcgOpIn.
Local Open Scope Z_scope.
Local Coercion Z.of_nat : nat >-> Z.

(** ** Simultaneous updates *)

Lemma set_outs_other oargs outs vals (k : nat) : (∀ a, a ∈ oargs → Z.to_nat a ≠ k) → set_outs oargs outs vals k = vals k.
Proof.
  revert outs vals. induction oargs as [|a oargs IH]; intros [|v outs] vals Hk; try done. cbn.
  rewrite IH by (intros; apply Hk; by right). apply fn_lookup_insert_ne. apply Hk. by left.
Qed.

Lemma set_outs_at oargs outs vals i a v :
  NoDup (Z.to_nat <$> oargs) → oargs !! i = Some a → outs !! i = Some v → set_outs oargs outs vals (Z.to_nat a) = v.
Proof.
  revert outs vals i. induction oargs as [|a' oargs IH]; intros outs vals i HN Ha Hv; [done|]. inversion_clear HN as [|? ? Hni HN'].
  destruct outs as [|v' outs]; [done|]. destruct i as [|i]; cbn in *; [|by eapply IH]. simplify_eq.
  rewrite set_outs_other; [apply fn_lookup_insert|]. intros a' Ha' E. apply Hni. apply list_elem_of_fmap. eauto.
Qed.

Lemma set_regs_other rs vs regs r : r ∉ rs → set_regs rs vs regs r = regs r.
Proof.
  revert vs regs. induction rs as [|r' rs IH]; intros [|v vs] regs Hr; try done. apply not_elem_of_cons in Hr as [Hne Hr]. cbn.
  rewrite IH by done. by apply fn_lookup_insert_ne.
Qed.

Lemma set_regs_at rs vs regs i r v : NoDup rs → rs !! i = Some r → vs !! i = Some v → set_regs rs vs regs r = v.
Proof.
  revert vs regs i. induction rs as [|r' rs IH]; intros vs regs i HN Hr Hv; [done|]. inversion_clear HN as [|? ? Hni HN'].
  destruct vs as [|v' vs]; [done|]. destruct i as [|i]; cbn in *; [|by eapply IH]. simplify_eq.
  rewrite set_regs_other by done. apply fn_lookup_insert.
Qed.

Section exec.
  Context (fi : frame_info) {dl : Disc fi} {M : Type} (sem : tcg_sem M) (junk : (Z → Z) → M → Z → Z).
  Notation inv := (inv fi).
  Notation Rel := (Rel fi).
  Implicit Types (h : hstate M) (s : TCGContext).

(** ** The slots of the globals *)

Lemma store_globals_other ts g slots x :
  (∀ t, t ∈ ts → mem_global fi t = true → fi_home fi t ≠ x) → store_globals fi ts g slots x = slots x.
Proof.
  revert slots. induction ts as [|t ts IH]; intros slots Hx; [done|]. cbn. rewrite IH by (intros; apply Hx; [by right|done]).
  destruct (mem_global fi t) eqn:E; [|done]. apply fn_lookup_insert_ne. apply Hx; [by left|done].
Qed.

Lemma store_globals_at ts g slots t :
  NoDup ts → t ∈ ts → mem_global fi t = true →
  (∀ u, u ∈ ts → mem_global fi u = true → u ≠ t → fi_home fi u ≠ fi_home fi t) →
  store_globals fi ts g slots (fi_home fi t) = g t.
Proof.
  revert slots. induction ts as [|u ts IH]; intros slots HN Ht Hg Hd; [by apply elem_of_nil in Ht|].
  inversion_clear HN as [|? ? Hni HN']. cbn. apply elem_of_cons in Ht as [->|Ht].
  - rewrite Hg, store_globals_other; [apply fn_lookup_insert|]. intros v Hv Hgv. apply Hd; [by right|done|]. by intros ->.
  - apply IH; try done. intros v Hv. apply Hd. by right.
Qed.

Lemma home_global s t :
  inv s → mem_global fi t = true → ∃ ts, (t < nb_temps s)%nat ∧ temps s !! t = Some ts ∧ has_home ts ∧ home ts = fi_home fi t.
Proof.
  intros HI Hg. pose proof Hg as Hg'. apply andb_true_iff in Hg' as [Hk%Nat.ltb_lt Hf%negb_true_iff].
  rewrite <- (inv_globals _ _ HI) in Hk. pose proof (inv_temps _ _ HI).
  destruct (lookup_lt_is_Some_2 (temps s) t) as [ts Hts]; [lia|]. assert (t < nb_temps s)%nat as Hkt by lia.
  pose proof (inv_temp _ _ HI t ts Hkt Hts) as HT. destruct (t_global _ _ _ _ HT Hg) as [? ?]. exists ts. split_and!; try done.
  split; [|done]. by rewrite (t_fixed _ _ _ _ HT).
Qed.

Lemma homes_distinct s t k tk :
  inv s → mem_global fi t = true → (k < nb_temps s)%nat → temps s !! k = Some tk → has_home tk → t ≠ k → fi_home fi t ≠ home tk.
Proof.
  intros HI Hg Hk Htk Hhk Hne. destruct (home_global s t HI Hg) as (ts & Ht & Hts & Hh & <-).
  apply apart_home. by apply (inv_apart _ _ HI t k).
Qed.

Lemma set_globals_at s g slots t : inv s → mem_global fi t = true → set_globals fi g slots (fi_home fi t) = g t.
Proof.
  intros HI Hg. apply store_globals_at; [apply NoDup_seq| |done|].
  - apply andb_true_iff in Hg as [Hk%Nat.ltb_lt _]. apply elem_of_seq. lia.
  - intros u _ Hgu Hne. destruct (home_global s t HI Hg) as (ts & Ht & Hts & Hh & <-). by apply (homes_distinct s u t).
Qed.

Lemma set_globals_other s g slots k ts :
  inv s → (k < nb_temps s)%nat → temps s !! k = Some ts → has_home ts → mem_global fi k = false →
  set_globals fi g slots (home ts) = slots (home ts).
Proof.
  intros HI Hk Hts Hh Hg. apply store_globals_other. intros t _ Hgt. apply (homes_distinct s t k); try done. intros ->. congruence.
Qed.

(** ** Values after an instruction *)

Lemma Rel_after s (L : nat → Prop) vals vals' h h' :
  inv s → Rel s L vals h →
  (∀ r, tcg_regset_test_reg (reserved_regs s) r = true → hregs h' r = hregs h r) →
  (∀ r (k : nat), 0 ≤ r → rt s r = Some (k : Z) → L k → hregs h' r = hregs h r) →
  (∀ k ts, (k < nb_temps s)%nat → temps s !! k = Some ts → L k →
    (vals' k = vals k ∧ (has_home ts → hslots h' (home ts) = hslots h (home ts))) ∨
    (mem_global fi k = true ∧ settled s k ∧ eqv (fi_type fi k) (hslots h' (fi_home fi k)) (vals' k))) →
  Rel s L vals' h'.
Proof.
  intros HI HR Hres Hreg Hk k ts Hkt Hts HL. pose proof (inv_temp _ _ HI k ts Hkt Hts) as HT.
  specialize (HR k ts Hkt Hts HL). destruct (Hk k ts Hkt Hts HL) as [[Ev Hs]|(Hg & Hse & He)].
  - rewrite Ev. unfold located in *. destruct (fixed_reg ts) eqn:Hf.
    + destruct (t_fixed_reg _ _ _ _ HT Hf) as (_ & _ & ?). by rewrite Hres.
    + destruct (val_type ts) eqn:Hv; [|..|done].
      * destruct HR as [HD ?]. pose proof (disc_global _ _ HD) as Hg. rewrite Hs; [done|]. split; [done|]. by apply (t_global _ _ _ _ HT).
      * destruct (t_reg _ _ _ _ HT Hf Hv) as (? & _ & ?). rewrite (Hreg (treg ts) k); [|lia|done..]. destruct HR as [? HC].
        split; [done|]. intros [? ?]%HC. rewrite Hs; done.
      * destruct HR as [? ?]. rewrite Hs; done.
  - destruct (t_global _ _ _ _ HT Hg) as [Ha Eh]. apply andb_true_iff in Hg as [_ Hf%negb_true_iff]. rewrite <- (t_fixed _ _ _ _ HT) in Hf.
    destruct (Hse ts Hts) as [?|Hv]; [congruence|]. unfold located. rewrite Hf, Hv, Eh, (t_type _ _ _ _ HT). done.
Qed.

(** Registers that calls use hold nothing of [L]; the globals are in memory. *)
Lemma Rel_clobber s (L : nat → Prop) vals h regs' (m' : M) g g' :
  inv s → Rel s L vals h →
  (∀ r, tcg_regset_test_reg (reserved_regs s) r = true → regs' r = hregs h r) →
  (∀ r (k : nat), 0 ≤ r → rt s r = Some (k : Z) → L k → regs' r = hregs h r) →
  (∀ k, L k → mem_global fi k = true → settled s k) → globals_eqv fi g' g →
  Rel s L (merge_globals fi g vals) (mkH regs' (set_globals fi g' (hslots h)) m').
Proof.
  intros HI HR Hres Hreg Hse Hg. eapply Rel_after; try done. cbn. intros k ts Hk Hts HL. unfold merge_globals.
  destruct (mem_global fi k) eqn:E.
  - right. split_and!; [done|by apply Hse|]. rewrite (set_globals_at s) by done. by apply Hg.
  - left. split; [done|]. intros Hh. by apply (set_globals_other s _ _ k).
Qed.

End exec.

(** * An operation and its instruction

    [tcg_reg_alloc_op] emits code that computes the operation. *)

Lemma eqv_mono ty ty' v w : bits ty ≤ bits ty' → eqv ty' v w → eqv ty v w.
Proof.
  intros Hb He. unfold eqv, conv, wrap in *. assert (0 < bits ty) by (by destruct ty).
  assert (∀ z, z `mod` 2 ^ bits ty = (z `mod` 2 ^ bits ty') `mod` 2 ^ bits ty) as E; [|by rewrite E, He, <- E].
  intros z. symmetry. apply Z.mod_mod_divide. exists (2 ^ (bits ty' - bits ty)). rewrite <- Z.pow_add_r by lia. f_equal. lia.
Qed.

Section op.
  Context (fi : frame_info) {dl : Disc fi} {M : Type} (sem : tcg_sem M) (junk : (Z → Z) → M → Z → Z) `{!SemOk fi sem}.
  Notation inv := (inv fi).
  Notation Rel := (Rel fi).
  Notation grow := (grow fi).
  Notation step := (step fi sem junk).
  Notation keeps := (keeps fi).
  Notation hstep := (hstep fi sem junk).
  Implicit Types (h : hstate M) (s : TCGContext) (na : list Z) (ca : list bool) (al : TCGRegSet).

(** ** Runs of code *)

(** The code emitted leads from [h] to [h'] and keeps the reserved registers;
    [fl] is where control goes at its end. *)
Record runs (fl : flow) s h s' h' : Prop := {
  r_grow : grow s s';
  r_code : ∃ c, code s' = code s ++ c ∧ h' = hrun fi sem junk c h ∧ hgo fi sem junk c h fl;
  r_res r : tcg_regset_test_reg (reserved_regs s) r = true → hregs h' r = hregs h r
}.

Notation run := (runs FNext).

Lemma step_run al s h s' h' : subset (reserved_regs s) al → step al s h s' h' → run s h s' h'.
Proof. intros Hal [? ? ? ? ? ?]. split; auto. Qed.

Lemma run_trans fl s1 h1 s2 h2 s3 h3 : run s1 h1 s2 h2 → runs fl s2 h2 s3 h3 → runs fl s1 h1 s3 h3.
Proof.
  intros [G1 (c1 & E1 & R1 & O1) K1] [G2 (c2 & E2 & R2 & O2) K2]. split.
  - by eapply grow_trans.
  - exists (c1 ++ c2). rewrite E2, E1, (assoc_L (++)), hrun_app, <- R1. split_and!; [done..|]. apply hgo_app; [done|]. by rewrite <- R1.
  - intros r Hr. rewrite K2, K1; [done..|]. by rewrite (sc_res _ _ (g_ctx _ _ _ G1)).
Qed.

Lemma run_out s h i :
  inv s → (∀ l, i ≠ HLabel l) → (∀ r, tcg_regset_test_reg (reserved_regs s) r = true → hregs (hstep h i) r = hregs h r) →
  runs (hflow sem h i) s h (out s i) (hstep h i).
Proof. intros HI Hi Hr. split; [by apply grow_out| |done]. exists [i]. split_and!; [done..|by constructor]. Qed.

Lemma run_move s h i :
  inv s → is_move i = true → (∀ r, tcg_regset_test_reg (reserved_regs s) r = true → hregs (hstep h i) r = hregs h r) →
  run s h (out s i) (hstep h i).
Proof.
  intros HI Hi Hr. replace FNext with (hflow sem h i) by (by destruct i). apply run_out; [done| |done]. by intros l ->.
Qed.

Lemma run_inv fl s h s' h' : runs fl s h s' h' → inv s'.
Proof. intros HR. exact (g_inv _ _ _ (r_grow _ _ _ _ _ HR)). Qed.
Lemma run_nb_temps fl s h s' h' : runs fl s h s' h' → nb_temps s' = nb_temps s.
Proof. intros HR. exact (sc_temps _ _ (g_ctx _ _ _ (r_grow _ _ _ _ _ HR))). Qed.
Lemma run_nb_globals fl s h s' h' : runs fl s h s' h' → nb_globals s' = nb_globals s.
Proof. intros HR. exact (sc_globals _ _ (g_ctx _ _ _ (r_grow _ _ _ _ _ HR))). Qed.
Lemma run_reserved fl s h s' h' : runs fl s h s' h' → reserved_regs s' = reserved_regs s.
Proof. intros HR. exact (sc_res _ _ (g_ctx _ _ _ (r_grow _ _ _ _ _ HR))). Qed.

(** ** The instruction *)

Section one.
  Context (op : TCGOpcode) (oargs iargs cargs : list Z).
  Notation d := (op_def op).

(** Input [n] has its value at its place. *)
Definition input_at vals h na ca (n : nat) : Prop :=
  ∃ k x b, iargs !! n = Some (Z.of_nat k) ∧ na !! (nb_oargs d + n)%nat = Some x ∧ ca !! (nb_oargs d + n)%nat = Some b ∧
    eqv (fi_type fi k) (host_arg h x b) (vals k).

Definition typed : Prop :=
  ∀ n a, iargs !! n = Some a → bits (op_type sem op n) ≤ bits (fi_type fi (Z.to_nat a)).

Lemma hop_sem vals h na ca :
  length iargs = nb_iargs d → typed → length ca = (nb_oargs d + nb_iargs d)%nat →
  (∀ n, (n < nb_iargs d)%nat → input_at vals h na ca n) → drop (nb_oargs d + nb_iargs d) na = cargs →
  (clobbers op = true → in_slots fi vals h) →
  let '(outs, g, m') := op_sem sem op cargs (arg_vals vals iargs) (seen_globals op vals) (hm h) in
  op_flow sem op (hcargs op na) (hins h op na ca) (hm h) = op_flow sem op cargs (arg_vals vals iargs) (hm h) ∧ length outs = nb_oargs d ∧
  ∃ g', globals_eqv fi g' g ∧
    hop fi sem junk h op na ca =
    mkH (set_regs (take (nb_oargs d) na) outs (if clobbers op then clobber_regs junk (hregs h) (hm h) else hregs h))
      (if clobbers op then set_globals fi g' (hslots h) else hslots h) m'.
Proof.
  intros Hli Hty Hlc Hin Hca Hgl. unfold hop, hcargs. rewrite Hca.
  set (ins := hins _ _ _ _).
  assert (∀ n, (n < nb_iargs d)%nat → ∃ k x b, iargs !! n = Some (Z.of_nat k) ∧ ins !! n = Some (host_arg h x b) ∧
    eqv (fi_type fi k) (host_arg h x b) (vals k)) as Hins.
  { intros n Hn. destruct (Hin n Hn) as (k & x & b & Hk & Hx & Hb & He). exists k, x, b. split_and!; try done.
    unfold ins, hins. apply lookup_zip_with_Some. exists x, b. rewrite lookup_take_lt by done. by rewrite !lookup_drop. }
  assert (length ins = length iargs) as Hl.
  { unfold ins, hins. rewrite length_zip_with, length_take, !length_drop, Hlc. rewrite Hli. destruct (nb_iargs d) as [|m] eqn:E; [lia|].
    destruct (Hin m) as (_ & x & _ & _ & Hx & _); [lia|]. apply lookup_lt_Some in Hx. lia. }
  pose proof (op_sem_length op cargs (arg_vals vals iargs) (seen_globals op vals) (hm h)) as Hlo.
  pose proof (op_sem_eqv op cargs ins (arg_vals vals iargs) (seen_globals op (host_globals fi (hslots h))) (seen_globals op vals) (hm h)) as HE.
  assert (∀ n v v', ins !! n = Some v → arg_vals vals iargs !! n = Some v' → eqv (op_type sem op n) v v') as Hev.
  { intros n v v' Hv Hv'. assert (n < nb_iargs d)%nat as Hn by (rewrite <- Hli, <- Hl; by eapply lookup_lt_Some).
    destruct (Hins n Hn) as (k & x & b & Hk & Hx & He). unfold arg_vals in Hv'. rewrite list_lookup_fmap, Hk in Hv'. cbn in Hv'. simplify_eq.
    rewrite Nat2Z.id. eapply eqv_mono; [|exact He]. specialize (Hty n k Hk). by rewrite Nat2Z.id in Hty. }
  rewrite (op_flow_eqv op cargs ins (arg_vals vals iargs)); [|by unfold arg_vals; rewrite length_fmap|done].
  destruct (op_sem sem op cargs (arg_vals vals iargs) _ _) as [[outs g] m']. cbn [fst snd] in Hlo. split; [done|]. split; [done|].
  destruct (op_sem sem op cargs ins _ _) as [[outs' g'] m2].
  destruct HE as (-> & Hg & ->); [by unfold arg_vals; rewrite length_fmap|done| |by exists g'].
  unfold seen_globals. destruct (clobbers op); [by apply Hgl|]. intros t _. done.
Qed.

(** ** Results *)

Context (args : list Z) (Hlo : length oargs = nb_oargs d) (Hargs : ∀ i, (i < nb_oargs d)%nat → args !! i = oargs !! i).
Context (Hnd : NoDup (Z.to_nat <$> oargs)) (Hpos : ∀ a, a ∈ oargs → 0 ≤ a).
Notation is_output := (is_output op args).

Lemma is_output_iff (k : nat) : is_output k ↔ (k : Z) ∈ oargs.
Proof.
  split.
  - intros (i & Hi & Hk). rewrite Hargs in Hk by done. by eapply list_elem_of_lookup_2.
  - intros [i Hi]%list_elem_of_lookup. assert (i < nb_oargs d)%nat by (rewrite <- Hlo; by eapply lookup_lt_Some).
    exists i. by rewrite Hargs.
Qed.

Lemma output_inj i j (k : nat) :
  (i < nb_oargs d)%nat → (j < nb_oargs d)%nat → args !! i = Some (k : Z) → args !! j = Some (k : Z) → i = j.
Proof.
  intros Hi Hj Ei Ej. rewrite Hargs in Ei, Ej by done. eapply (NoDup_lookup (Z.to_nat <$> oargs) i j k); [done|..];
    rewrite list_lookup_fmap; [rewrite Ei|rewrite Ej]; cbn; by rewrite Nat2Z.id.
Qed.

Lemma out_regs s na :
  (∀ i, (i < nb_oargs d)%nat → out_done args s na i) →
  NoDup (take (nb_oargs d) na) ∧ (∀ r, r ∈ take (nb_oargs d) na → 0 ≤ r ∧ ∃ k, rt s r = Some (Z.of_nat k) ∧ is_output k).
Proof.
  intros Hd. split.
  - apply NoDup_alt. intros i j r Hi Hj. apply lookup_take_Some in Hi as [Hi Hil]. apply lookup_take_Some in Hj as [Hj Hjl].
    destruct (Hd i Hil) as (ki & ri & ti & Hki & Hri & _ & Hrti & _). destruct (Hd j Hjl) as (kj & rj & tj & Hkj & Hrj & _ & Hrtj & _).
    simplify_eq. by apply (output_inj i j ki).
  - intros r [i Hi]%list_elem_of_lookup. apply lookup_take_Some in Hi as [Hi Hil].
    destruct (Hd i Hil) as (ki & ri & ti & Hki & Hri & ? & Hrti & _). simplify_eq. split; [done|]. exists ki. split; [done|]. by exists i.
Qed.

(** The instruction, once inputs and outputs have their places. *)
Lemma op_exec s h na ca (L : nat → Prop) vals :
  inv s → op ≠ INDEX_op_call → length iargs = nb_iargs d → typed → length ca = (nb_oargs d + nb_iargs d)%nat →
  (∀ n, (n < nb_iargs d)%nat → input_at vals h na ca n) → drop (nb_oargs d + nb_iargs d) na = cargs →
  (∀ i, (i < nb_oargs d)%nat → out_done args s na i) →
  Rel s (λ k, L k ∧ ¬ is_output k) vals h →
  (clobbers op = true → in_slots fi vals h ∧ (∀ k, (k < nb_globals s)%nat → ¬ is_output k → settled s k) ∧
    ∀ r k, 0 ≤ r → clobbered r = true → rt s r = Some (Z.of_nat k) → is_output k) →
  let '(outs, g, m') := op_sem sem op cargs (arg_vals vals iargs) (seen_globals op vals) (hm h) in
  ∃ h', runs (op_flow sem op cargs (arg_vals vals iargs) (hm h)) s h (out s (HOp op na ca)) h' ∧ hm h' = m' ∧
    Rel (out s (HOp op na ca)) (λ k, is_output k ∨ L k)
      (set_outs oargs outs (if clobbers op then merge_globals fi g vals else vals)) h'.
Proof.
  intros HI Hcall Hli Hty Hlc Hin Hca Hd HR Hcl.
  pose proof (hop_sem vals h na ca Hli Hty Hlc Hin Hca (λ E, proj1 (Hcl E))) as Hop.
  destruct (op_sem _ _ _ _ _ _) as [[outs g] m']. destruct Hop as (Hfl & Hlouts & g' & Hg & Hop).
  assert (hstep h (HOp op na ca) = hop fi sem junk h op na ca) as Hst. { cbn. by apply Nat.eqb_neq in Hcall as ->. }
  destruct (out_regs s na Hd) as [HNr Hrs]. set (rs := take _ na) in *.
  set (base := if clobbers op then clobber_regs junk (hregs h) (hm h) else hregs h) in *.
  assert (∀ r, tcg_regset_test_reg (reserved_regs s) r = true → set_regs rs outs base r = hregs h r) as Hres.
  { intros r Hr. rewrite set_regs_other.
    - unfold base, clobber_regs. destruct (clobbers op); [|done]. destruct (clobbered r) eqn:E; [|done].
      apply (inv_clobber _ _ HI) in E. congruence.
    - intros (Hr0 & k & Hk & _)%Hrs. destruct (inv_reg _ _ HI r k Hr0 Hk) as [?|(n & ts & ? & ? & Hts & ? & <- & Hf)]; [lia|].
      assert (n = k) as -> by lia. destruct (t_reg _ _ _ _ (inv_temp _ _ HI k ts ltac:(done) Hts) Hf) as (_ & ? & _); [done|]. congruence. }
  assert (∀ r (k : nat), 0 ≤ r → rt s r = Some (k : Z) → L k ∧ ¬ is_output k → set_regs rs outs base r = hregs h r) as Hreg.
  { intros r k Hr0 Hk [_ HL]. rewrite set_regs_other.
    - unfold base, clobber_regs. destruct (clobbers op); [|done]. destruct (clobbered r) eqn:E; [|done].
      destruct HL. destruct (Hcl eq_refl) as (_ & _ & HC). by apply (HC r k).
    - intros (_ & k' & Hk' & Ho)%Hrs. rewrite Hk in Hk'. injection Hk' as E. apply HL. by assert (k = k') as -> by lia. }
  exists (hstep h (HOp op na ca)). split_and!.
  - rewrite <- Hfl. assert (hflow sem h (HOp op na ca) = op_flow sem op (hcargs op na) (hins h op na ca) (hm h)) as <-.
    { cbn. by apply Nat.eqb_neq in Hcall as ->. }
    apply run_out; [done|done|]. by rewrite Hst, Hop.
  - by rewrite Hst, Hop.
  - rewrite Hst, Hop. intros k ts Hk Hts HL. change (temps s !! k = Some ts) in Hts.
    destruct (decide ((k : Z) ∈ oargs)) as [Ho|Ho]; rewrite <- is_output_iff in Ho.
    + destruct Ho as (i & Hi & Hki). destruct (Hd i Hi) as (k' & r & t & Hk' & Hr & Hr0 & Hrt & Ht & Hc). simplify_eq.
      destruct (inv_reg _ _ HI r k Hr0 Hrt) as [?|(n & t & ? & _ & Ht & Hv & <- & Hf)]; [lia|]. assert (n = k) as -> by lia. simplify_eq.
      assert (∃ v, outs !! i = Some v) as [v Hv']. { apply lookup_lt_is_Some. lia. }
      unfold located. rewrite Hf, Hv, Hc. split; [|done]. cbn. rewrite (set_regs_at rs outs base i _ v); [|done| |done].
      * rewrite Hargs in Hki by done. pose proof (set_outs_at oargs outs (if clobbers op then merge_globals fi g vals else vals) i k v Hnd Hki Hv') as E.
        rewrite Nat2Z.id in E. by rewrite E.
      * unfold rs. by rewrite lookup_take_lt.
    + assert (L k) as HLk by tauto. rewrite set_outs_other.
      2: { intros a Ha E. apply Ho, is_output_iff. rewrite <- E, Z2Nat.id by (by apply Hpos). done. }
      destruct (clobbers op) eqn:Ecl.
      * destruct (Hcl eq_refl) as (_ & Hse & _).
        eapply (Rel_clobber fi s (λ k, L k ∧ ¬ is_output k)); try done.
        intros j [_ Hj] Hgl. apply Hse; [|done]. rewrite (inv_globals _ _ HI). apply andb_true_iff in Hgl as [Hgl%Nat.ltb_lt _]. done.
      * eapply (Rel_after fi s (λ k, L k ∧ ¬ is_output k)); try done. intros j tj _ _ _. by left.
Qed.

End one.
End op.
