(* ===== verification/TcgGenOp.v ===== *)
(** * [tcg_reg_alloc_op]

    The phases of the function put together. *)

From stdpp Require Import base gmap list functions.
From S2P Require Import Prelude TcgData TcgLive TcgLiveInv TcgAlloc TcgSem TcgInv TcgSpill TcgSave TcgArgs TcgOpIn TcgOp.
Local Open Scope Z_scope.
Local Coercion Z.of_nat : nat >-> Z.

Section gen.
  Context (fi : frame_info) {dl : Disc fi} {M : Type} (sem : tcg_sem M) (junk : (Z → Z) → M → Z → Z) `{!SemOk fi sem}.
  Notation inv := (inv fi).
  Notation Rel := (Rel fi).
  Notation step := (step fi sem junk).
  Notation runs := (runs fi sem junk).
  Notation run := (runs FNext).
  Notation keeps := (keeps fi).
  Notation keeps_on := (keeps_on fi).
  Implicit Types (h : hstate M) (s : TCGContext) (na : list Z) (ca : list bool) (al : TCGRegSet).

(** ** Before the instruction *)

(** Dead inputs are forgotten, the registers of calls freed, globals saved. *)
Lemma middle_ok (free save : bool) s h mask iargs al s' :
  inv s → subset (reserved_regs s) al → (∀ (n : nat) a, iargs !! n = Some a → IS_DEAD_IARG mask n = true → a < nb_temps s) →
  (s <- mark_dead s mask 0 iargs ;;
   s <- (if free then free_regs s all_regs else Ok s) ;;
   if save then save_globals s al else Ok s) = Ok s' →
  ∃ h', step al s h s' h' ∧ keeps_on (λ k, ¬ killed fi mask 0 iargs k) s h s' h' ∧
    (∀ r k, 0 ≤ r → rt s r = Some (Z.of_nat k) → killed fi mask 0 iargs k → rt s' r = Some (-1)) ∧
    (free = true → ∀ r, clobbered r = true → rt s' r = Some (-1)) ∧
    (save = true → ∀ k, (k < nb_globals s)%nat → settled s' k).
Proof.
  intros HI Hal Hr Hs. apply rbind_ok in Hs as (s1 & E1 & Hs). apply rbind_ok in Hs as (s2 & E2 & Hs).
  destruct (mark_dead_ok fi sem junk s h mask 0 iargs s1) as (ST1 & K1 & RT1); [done..|].
  apply (step_all fi sem junk al) in ST1. pose proof (step_grows_inv _ _ _ _ _ _ _ _ ST1) as I1.
  assert (∃ h2, step al s1 h s2 h2 ∧ keeps_on (λ k, ¬ killed fi mask 0 iargs k) s1 h s2 h2 ∧
    (free = true → ∀ r, clobbered r = true → rt s2 r = Some (-1))) as (h2 & ST2 & K2 & RT2).
  { destruct free; [|injection E2 as <-; exists h; split_and!; [by apply step_refl|apply keeps_on_refl|done]].
    destruct (free_regs_ok fi sem junk s1 h all_regs s2) as (h2 & ST2 & _ & K2 & _ & RT2); [done|apply all_regs_nonneg|done|].
    exists h2. split_and!; [by apply step_all|apply keeps_keeps_on; [by eapply step_norise|done]|]. intros _ r Hc. apply RT2; [by apply clobbered_all|done]. }
  pose proof (step_grows_inv _ _ _ _ _ _ _ _ ST2) as I2.
  assert (∃ h3, step al s2 h2 s' h3 ∧ keeps_on (λ k, ¬ killed fi mask 0 iargs k) s2 h2 s' h3 ∧
    (save = true → ∀ k, (k < nb_globals s)%nat → settled s' k)) as (h3 & ST3 & K3 & SE3).
  { destruct save; [|injection Hs as <-; exists h2; split_and!; [by apply step_refl|apply keeps_on_refl|done]].
    destruct (save_globals_ok fi sem junk (λ k, ¬ killed fi mask 0 iargs k) s2 h2 al s') as (h3 & ST3 & K3 & SE3); [done| |done|].
    { by rewrite (step_reserved _ _ _ _ _ _ _ _ ST2), (step_reserved _ _ _ _ _ _ _ _ ST1). }
    exists h3. split_and!; [done..|]. intros _ k Hk. pose proof (inv_temps _ _ HI). apply SE3.
    - rewrite (step_nb_temps _ _ _ _ _ _ _ _ ST2), (step_nb_temps _ _ _ _ _ _ _ _ ST1). lia.
    - left. rewrite (step_nb_globals _ _ _ _ _ _ _ _ ST2), (step_nb_globals _ _ _ _ _ _ _ _ ST1). done. }
  exists h3. split_and!; [| | | |done].
  - eapply step_trans; [exact ST1|]. by eapply step_trans.
  - eapply keeps_on_trans; [exact K1|]. by eapply keeps_on_trans.
  - intros r k Hr0 Hk Hkd. assert (norise s1 s') as NR by (eapply norise_trans; [apply K2|apply K3]).
    destruct (NR r Hr0) as [->|?]; [by apply (RT1 r k)|done].
  - intros Hf r Hc. pose proof (clobbered_all r Hc) as Hin. assert (0 ≤ r) as Hr0 by (apply elem_of_seqZ in Hin; lia).
    destruct K3 as [N3 _]. destruct (N3 r Hr0) as [->|?]; [by apply RT2|done].
Qed.

Lemma move_outputs_id s oargs na s' :
  (∀ a ts, a ∈ oargs → get_temp s a = Ok ts → fixed_reg ts = false) → move_outputs s oargs na = Ok s' → s' = s.
Proof.
  revert na. induction oargs as [|a oargs IH]; intros na Hf; cbn [move_outputs]; [by intros [= <-]|].
  intros Hs. apply rbind_ok in Hs as (ts & Ets & Hs). apply rbind_ok in Hs as (r & _ & Hs).
  rewrite (Hf a ts) in Hs; [|by left|done]. eapply IH; [|exact Hs]. intros a' ts' ?. apply Hf. by right.
Qed.

Section one.
  Context (op : TCGOpcode) (oargs iargs cargs rest : list Z).
  Notation d := (op_def op).
  Notation args := (oargs ++ iargs ++ cargs ++ rest).

(** Operations that the allocator handles in general. *)
Record op_wf (n : nat) : Prop := {
  w_used : used (op_info op) = true;
  w_call : op ≠ INDEX_op_call;
  w_lo : length oargs = nb_oargs d;
  w_li : length iargs = nb_iargs d;
  w_lc : length cargs = nb_cargs d;
  w_o a : a ∈ oargs → 0 ≤ a < n ∧ fi_fixed fi (Z.to_nat a) = false;
  w_i a : a ∈ iargs → 0 ≤ a < n;
  w_nd : NoDup (Z.to_nat <$> oargs);
  w_ty : typed fi sem op iargs
}.
Context (mask : Z).

Lemma args_out (i : nat) : length oargs = nb_oargs d → (i < nb_oargs d)%nat → args !! i = oargs !! i.
Proof. intros Hl Hi. apply lookup_app_l. lia. Qed.

Lemma args_in (i : nat) : length oargs = nb_oargs d → length iargs = nb_iargs d →
  (nb_oargs d ≤ i < nb_oargs d + nb_iargs d)%nat → args !! i = iargs !! (i - nb_oargs d)%nat.
Proof. intros Hl Hl2 Hi. rewrite lookup_app_r by lia. rewrite lookup_app_l by lia. by rewrite Hl. Qed.

Lemma list_nat_lookup (l : list Z) (n i : nat) :
  (∀ a, a ∈ l → 0 ≤ a < n) → (i < length l)%nat → ∃ k : nat, l !! i = Some (k : Z) ∧ (k < n)%nat.
Proof.
  intros Hl [a Ha]%lookup_lt_is_Some_2. destruct (Hl a) as [? ?]; [by eapply list_elem_of_lookup_2|].
  exists (Z.to_nat a). rewrite Z2Nat.id by done. split; [done|lia].
Qed.

Lemma op_input_ok s (i : nat) :
  op_wf (nb_temps s) → (nb_oargs d ≤ i < nb_oargs d + nb_iargs d)%nat →
  input_ok fi op args s (replicate (nb_oargs d + nb_iargs d) 0 ++ cargs) (replicate (nb_oargs d + nb_iargs d) false) i.
Proof.
  intros [Hu Hnc Hlo Hli Hlc Ho Hi Hnd Hty] Hi'. destruct (list_nat_lookup iargs (nb_temps s) (i - nb_oargs d) Hi) as (k & Hk & Hkt); [lia|].
  split_and!; [rewrite length_app, length_replicate; lia|rewrite length_replicate; lia| | |].
  - intros r Hr. apply (ct_regs_range op Hu) in Hr; lia.
  - intros Hia. by apply (ialias_ok op Hu i).
  - exists k. rewrite (args_in i) by done. split_and!; [done..|]. intros Hia Hf. destruct (ialias_ok op Hu i Hi' Hia) as [_ Hai].
    rewrite args_out by done. intros E. destruct (Ho k) as [_ E']; [by eapply list_elem_of_lookup_2|]. rewrite Nat2Z.id in E'. congruence.
Qed.

Lemma op_output_ok s na (i : nat) :
  op_wf (nb_temps s) → length na = (nb_oargs d + nb_iargs d + nb_cargs d)%nat → (i < nb_oargs d)%nat → output_ok fi op args s na i.
Proof.
  intros [Hu Hnc Hlo Hli Hlc Ho Hi Hnd Hty] Hna Hi'. destruct (list_nat_lookup oargs (nb_temps s) i) as (k & Hk & Hkt); [intros a Ha; by apply Ho|lia|].
  split_and!; [lia|done|]. exists k. rewrite args_out by done. split_and!; [done..|]. rewrite <- (Nat2Z.id k). apply Ho. by eapply list_elem_of_lookup_2.
Qed.

Lemma op_inputs s h s1 na ca al :
  inv s → op_wf (nb_temps s) →
  for_args (alloc_iarg op args mask) (drop (nb_oargs d) (sorted_args (op_info op)))
    (s, replicate (nb_oargs d + nb_iargs d) 0 ++ cargs, replicate (nb_oargs d + nb_iargs d) false, reserved_regs s) = Ok (s1, na, ca, al) →
  ∃ h1, step (reserved_regs s) s h s1 h1 ∧ keeps s h s1 h1 ∧ subset (reserved_regs s) al ∧
    (∀ i, (nb_oargs d ≤ i < nb_oargs d + nb_iargs d)%nat → input_done fi op args mask s h s1 h1 na ca al i) ∧
    length na = (nb_oargs d + nb_iargs d + nb_cargs d)%nat ∧ length ca = (nb_oargs d + nb_iargs d)%nat ∧
    drop (nb_oargs d + nb_iargs d) na = cargs.
Proof.
  intros HI W Hs. pose proof W as [Hu Hnc Hlo Hli Hlc Ho Hi Hnd Hty]. pose proof (sorted_inputs op Hu) as HP.
  set (l := drop _ (sorted_args _)) in *. assert (∀ i, i ∈ l ↔ (nb_oargs d ≤ i < nb_oargs d + nb_iargs d)%nat) as Hin.
  { intros i. rewrite HP, elem_of_seq. done. }
  destruct (inputs_loop fi sem junk op args mask l s (replicate (nb_oargs d + nb_iargs d) 0 ++ cargs)
    (replicate (nb_oargs d + nb_iargs d) false) (reserved_regs s) s1 na ca al h)
    as (h1 & ST & K & Hsub & Hd & Hna & Hca & Hoth); try done.
  - rewrite HP. apply NoDup_seq.
  - apply subset_refl.
  - intros i Hi'. apply op_input_ok; [done|]. by apply Hin.
  - exists h1. split_and!; [done..| | | |].
    + intros i Hi'. apply Hd. by apply Hin.
    + rewrite Hna, length_app, length_replicate. lia.
    + by rewrite Hca, length_replicate.
    + apply list_eq. intros j. rewrite lookup_drop. destruct (Hoth (nb_oargs d + nb_iargs d + j)%nat) as [-> _].
      { rewrite Hin. lia. }
      rewrite lookup_app_r by (rewrite length_replicate; lia). rewrite length_replicate. f_equal. lia.
Qed.

(** The inputs are where they were put. *)
Lemma input_done_at s h s1 h1 na ca al h2 na2 (L : nat → Prop) vals (n : nat) :
  length oargs = nb_oargs d → length iargs = nb_iargs d → (n < nb_iargs d)%nat →
  input_done fi op args mask s h s1 h1 na ca al (nb_oargs d + n) →
  (∀ r, tcg_regset_test_reg al r = true → hregs h2 r = hregs h1 r) → na2 !! (nb_oargs d + n)%nat = na !! (nb_oargs d + n)%nat →
  Rel s L vals h → (∀ a, a ∈ iargs → L (Z.to_nat a)) → input_at fi op iargs vals h2 na2 ca n.
Proof.
  intros Hlo Hli Hn (k & x & b & Hk & Hx & Hb & Hv & Ht & _) Hreg Hna HR HL.
  rewrite args_in in Hk by (done || lia). replace (nb_oargs d + n - nb_oargs d)%nat with n in Hk by lia.
  exists k, x, b. rewrite Hna. split_and!; try done. specialize (Hv L vals HR). destruct b; cbn in *.
  - apply Hv. rewrite <- (Nat2Z.id k). apply HL. by eapply list_elem_of_lookup_2.
  - rewrite Hreg by auto. apply Hv. rewrite <- (Nat2Z.id k). apply HL. by eapply list_elem_of_lookup_2.
Qed.

(** The first lines of [tcg_reg_alloc_op] read the parameters. *)
Lemma op_params_read :
  length oargs = nb_oargs d → length iargs = nb_iargs d → length cargs = nb_cargs d →
  params args (nb_oargs d + nb_iargs d)%nat (nb_cargs d) = Ok cargs ∧ params args (nb_oargs d) (nb_iargs d) = Ok iargs ∧
  params args 0 (nb_oargs d) = Ok oargs.
Proof.
  intros Hlo Hli Hlc. split_and!.
  - apply (params_mid _ (oargs ++ iargs) _ rest); [by rewrite <- app_assoc|rewrite length_app; lia|lia].
  - by apply (params_mid _ oargs _ (cargs ++ rest)); [|lia..].
  - by apply (params_mid _ [] _ (iargs ++ cargs ++ rest)); [| |lia].
Qed.

(** Aliased outputs find their registers free. *)
Lemma alias_regs s h s1 h1 na ca al s3 (i : nat) :
  op_wf (nb_temps s) → (i < nb_oargs d)%nat → is_alias op i = true →
  (∀ i, (nb_oargs d ≤ i < nb_oargs d + nb_iargs d)%nat → input_done fi op args mask s h s1 h1 na ca al i) →
  reserved_regs s3 = reserved_regs s1 → norise s1 s3 →
  (∀ r k, 0 ≤ r → rt s1 r = Some (Z.of_nat k) → killed fi mask 0 iargs k → rt s3 r = Some (-1)) →
  ∃ r, free_alias op s3 na i r ∧ tcg_regset_test_reg (ct_regs (arg_ct op (alias_index (arg_ct op i)))) r = true.
Proof.
  intros [Hu Hnc Hlo Hli Hlc Ho Hi Hnd Hty] Hin Hia Hd Hres NR HK. destruct (alias_ok op Hu i Hin Hia) as (Hj & Hjia & _).
  destruct (Hd _ Hj) as (k & x & b & Hk & Hx & Hb & _ & _ & Hal). destruct (Hal Hjia) as (-> & Hct & Hr & Hun & Hfree).
  exists x. split; [|done]. split_and!; [done|lia..|by rewrite Hres|]. destruct Hfree as [E|(E & Hb' & Hf)].
  - destruct (NR x) as [->|?]; [lia|done|done].
  - apply (HK x k); [lia|done|]. rewrite args_in in Hk by done. eexists. split_and!; [exact Hk| |done].
    rewrite Z.add_0_l, Nat2Z.inj_sub by lia. done.
Qed.

(** The phases before the instruction: inputs, what is dead or saved, outputs. *)
Record phases s h s1 h1 s3 h3 s4 h4 na ca al na4 : Prop := {
  p_step1 : step (reserved_regs s) s h s1 h1;
  p_keep1 : keeps s h s1 h1;
  p_in i : (nb_oargs d ≤ i < nb_oargs d + nb_iargs d)%nat → input_done fi op args mask s h s1 h1 na ca al i;
  p_ca : length ca = (nb_oargs d + nb_iargs d)%nat;
  p_na : drop (nb_oargs d + nb_iargs d) na = cargs;
  p_sub : subset (reserved_regs s1) al;
  p_step3 : step al s1 h1 s3 h3;
  p_keep3 : keeps_on (λ k, ¬ killed fi mask 0 iargs k) s1 h1 s3 h3;
  p_free : clobbers op = true → ∀ r, clobbered r = true → rt s3 r = Some (-1);
  p_save : clobbers op = true → ∀ k, (k < nb_globals s1)%nat → settled s3 k;
  p_out : outs_ok fi sem junk args (λ i, (i < nb_oargs d)%nat) s3 h3 s4 h4 na na4
}.

Lemma alloc_op_phases s h s' :
  inv s → op_wf (nb_temps s) → has_flag (op_flags d) TCG_OPF_BB_END = false → tcg_reg_alloc_op s op args mask = Ok s' →
  ∃ s1 h1 s3 h3 s4 h4 na ca al na4, phases s h s1 h1 s3 h3 s4 h4 na ca al na4 ∧ s' = out s4 (HOp op na4 ca).
Proof.
  intros HI W Hbb Hs. pose proof W as [Hu Hnc Hlo Hli Hlc Ho Hi Hnd Hty]. unfold tcg_reg_alloc_op in Hs.
  destruct (op_params_read Hlo Hli Hlc) as (Ep1 & Ep2 & Ep3). rewrite Ep1, Ep2, Ep3 in Hs. cbn [rbind] in Hs. rewrite Hbb in Hs.
  apply rbind_ok in Hs as ([[[s1 na] ca] al] & E1 & Hs). apply rbind_ok in Hs as ([s4 na4] & E4 & Hs).
  apply rbind_ok in E4 as (s2 & E2 & E4). apply rbind_ok in E4 as (s3 & E3 & E4). apply rbind_ok in E4 as ([[[s4' na4'] ca4] al4] & E4 & [= -> ->]).
  destruct (op_inputs s h s1 na ca al HI W E1) as (h1 & ST1 & K1 & Hsub & Hd1 & Lna & Lca & Hca).
  pose proof (step_grows_inv _ _ _ _ _ _ _ _ ST1) as I1. pose proof (step_reserved _ _ _ _ _ _ _ _ ST1) as Er1.
  pose proof (step_nb_temps _ _ _ _ _ _ _ _ ST1) as En1.
  destruct (middle_ok (clobbers op) (clobbers op) s1 h1 mask iargs al s3) as (h3 & ST3 & K3 & RT3 & CL3 & SE3); [done|by rewrite Er1|..].
  { intros n a Hn _. rewrite En1. apply Hi. by eapply list_elem_of_lookup_2. }
  { rewrite E2. cbn [rbind]. unfold clobbers. destruct (has_flag _ TCG_OPF_CALL_CLOBBER); exact E3. }
  pose proof (step_grows_inv _ _ _ _ _ _ _ _ ST3) as I3. pose proof (step_reserved _ _ _ _ _ _ _ _ ST3) as Er3.
  pose proof (step_nb_temps _ _ _ _ _ _ _ _ ST3) as En3. assert (op_wf (nb_temps s3)) as W3 by (by rewrite En3, En1).
  destruct (outputs_loop fi sem junk op args mask s3 h3 na ca (reserved_regs s3) s4 na4 ca4 al4) as (h4 & O4); [done|done|apply subset_refl|..|done|].
  { intros i. by apply op_output_ok. }
  { intros i j Hi' Hj' Hne E. destruct (list_nat_lookup oargs (nb_temps s) i) as (k & Hk & _); [intros a Ha; by apply Ho|lia|].
    apply Hne. eapply (output_inj op oargs args); try done; [by intros; apply args_out|by rewrite args_out|].
    rewrite <- E. by rewrite args_out. }
  { intros i Hi' Hia. eapply (alias_regs s); try done. apply K3. }
  exists s1, h1, s3, h3, s4, h4, na, ca, al, na4. split; [split; try done; by rewrite Er1|].
  eapply move_outputs_id; [|exact Hs]. intros a ts Ha Hts. destruct (Ho a Ha) as [Hlt Hf]. apply get_temp_Ok in Hts as [_ Hts].
  pose proof (o_step _ _ _ _ _ _ _ _ _ _ _ O4) as ST4. pose proof (step_nb_temps _ _ _ _ _ _ _ _ ST4) as En4.
  rewrite <- Hf. refine (t_fixed _ _ _ _ (inv_temp _ _ (step_grows_inv _ _ _ _ _ _ _ _ ST4) (Z.to_nat a) ts _ Hts)). lia.
Qed.

(** After the phases, outputs and saved globals are not dead. *)
Lemma phases_ready s h s1 h1 s3 h3 s4 h4 na ca al na4 (k : nat) :
  op_wf (nb_temps s) → phases s h s1 h1 s3 h3 s4 h4 na ca al na4 → (k : Z) ∈ oargs ∨ (clobbers op = true ∧ (k < nb_globals s)%nat) → ready s4 k.
Proof.
  intros [Hu Hnc Hlo Hli Hlc Ho Hi Hnd Hty] P Hk. pose proof (p_out _ _ _ _ _ _ _ _ _ _ _ _ P) as O4.
  pose proof (o_step _ _ _ _ _ _ _ _ _ _ _ O4) as ST4. pose proof (step_grows_inv _ _ _ _ _ _ _ _ ST4) as I4.
  assert (∀ i, (i < nb_oargs d)%nat → args !! i = oargs !! i) as Hao by (intros; by apply args_out).
  destruct (decide ((k : Z) ∈ oargs)) as [Ho'|Ho'].
  - apply (is_output_iff op oargs args) in Ho' as (i & Hi' & Hki); [|done..].
    destruct (o_done _ _ _ _ _ _ _ _ _ _ _ O4 i Hi') as (k' & r & t & Hk' & _ & Hr0 & Hrt & _). assert (k' = k) as -> by (rewrite Hki in Hk'; injection Hk'; lia).
    by apply (held_ready fi s4 r).
  - destruct Hk as [?|[Hc Hkg]]; [done|]. pose proof (p_step1 _ _ _ _ _ _ _ _ _ _ _ _ P) as ST1. pose proof (p_step3 _ _ _ _ _ _ _ _ _ _ _ _ P) as ST3.
    pose proof (inv_temps _ _ (step_grows_inv _ _ _ _ _ _ _ _ ST1)). pose proof (step_nb_globals _ _ _ _ _ _ _ _ ST1) as Eg1.
    pose proof (step_nb_temps _ _ _ _ _ _ _ _ ST4) as En4. pose proof (step_nb_temps _ _ _ _ _ _ _ _ ST3) as En3.
    apply (settled_ready fi); [done|lia|]. apply (o_settled _ _ _ _ _ _ _ _ _ _ _ O4); [|lia|apply (p_save _ _ _ _ _ _ _ _ _ _ _ _ P Hc); lia].
    by rewrite <- (is_output_iff op oargs args) in Ho'.
Qed.

Lemma alloc_op_ok s h s' (L : nat → Prop) vals :
  inv s → op_wf (nb_temps s) → has_flag (op_flags d) TCG_OPF_BB_END = false → falls sem op → tcg_reg_alloc_op s op args mask = Ok s' →
  Rel s L vals h → (∀ a, a ∈ iargs → L (Z.to_nat a)) →
  (clobbers op = true → ∀ k, mem_global fi k = true → L k ∧ ¬ killed fi mask 0 iargs k) →
  let '(outs, g, m') := op_sem sem op cargs (arg_vals vals iargs) (seen_globals op vals) (hm h) in
  ∃ h', run s h s' h' ∧ hm h' = m' ∧
    (∀ k : nat, (k : Z) ∈ oargs ∨ (clobbers op = true ∧ (k < nb_globals s)%nat) → ready s' k) ∧
    Rel s' (λ k, (k : Z) ∈ oargs ∨ (L k ∧ ¬ killed fi mask 0 iargs k))
      (set_outs oargs outs (if clobbers op then merge_globals fi g vals else vals)) h'.
Proof.
  intros HI W Hbb Hfl Hs HR HLi Hgl. pose proof W as [Hu Hnc Hlo Hli Hlc Ho Hi Hnd Hty].
  destruct (alloc_op_phases s h s' HI W Hbb Hs) as (s1 & h1 & s3 & h3 & s4 & h4 & na & ca & al & na4 & P & ->).
  assert (∀ k : nat, (k : Z) ∈ oargs ∨ (clobbers op = true ∧ (k < nb_globals s)%nat) → ready s4 k) as HRd by (intros k; by eapply phases_ready). destruct P as [ST1 K1 Hd1 Lca Hca Hsub ST3 K3 CL3 SE3 O4].
  pose proof (o_step _ _ _ _ _ _ _ _ _ _ _ O4) as ST4. pose proof (step_grows_inv _ _ _ _ _ _ _ _ ST4) as I4.
  pose proof (step_grows_inv _ _ _ _ _ _ _ _ ST3) as I3. pose proof (step_nb_globals _ _ _ _ _ _ _ _ ST3) as Eg3.
  assert (∀ i, (i < nb_oargs d)%nat → args !! i = oargs !! i) as Hao by (intros; by apply args_out).
  assert (hm h4 = hm h) as Em.
  { rewrite (st_m _ _ _ _ _ _ _ _ ST4), (st_m _ _ _ _ _ _ _ _ ST3). apply (st_m _ _ _ _ _ _ _ _ ST1). }
  assert (∀ L', (∀ k, L' k → L k ∧ ¬ killed fi mask 0 iargs k) → Rel s3 L' vals h3) as HR3.
  { intros L' HL'. apply K3; [intros k ?%HL'; tauto|]. apply K1. eapply Rel_sub; [|exact HR]. intros k ?%HL'. tauto. }
  pose proof (op_exec fi sem junk op oargs iargs cargs args Hlo Hao Hnd (λ a Ha, proj1 (proj1 (Ho a Ha))) s4 h4 na4 ca
    (λ k, L k ∧ ¬ killed fi mask 0 iargs k) vals) as HX.
  rewrite <- Em. destruct (op_sem _ _ _ _ _ _) as [[outs g] m']. destruct HX as (h5 & HR5 & Hm5 & HRel5); try done.
  - intros n Hn. eapply (input_done_at s h s1 h1 na ca al); try done.
    + apply Hd1. lia.
    + intros r Hr. rewrite (o_regs _ _ _ _ _ _ _ _ _ _ _ O4). by apply (st_keep _ _ _ _ _ _ _ _ ST3).
    + apply (o_na _ _ _ _ _ _ _ _ _ _ _ O4). lia.
  - rewrite <- Hca. apply list_eq. intros j. rewrite !lookup_drop. apply (o_na _ _ _ _ _ _ _ _ _ _ _ O4). lia.
  - intros i. apply (o_done _ _ _ _ _ _ _ _ _ _ _ O4).
  - apply (o_rel _ _ _ _ _ _ _ _ _ _ _ O4), HR3. done.
  - intros Hc. pose proof (CL3 Hc) as Hcl. pose proof (SE3 Hc) as Hse. rewrite <- Eg3 in Hse.
    pose proof (step_nb_globals _ _ _ _ _ _ _ _ ST4) as Eg4. pose proof (inv_temps _ _ I3). split_and!.
    + apply (o_slots _ _ _ _ _ _ _ _ _ _ _ O4); [done|]. apply HR3. by apply Hgl.
    + intros k Hk Hno. apply (o_settled _ _ _ _ _ _ _ _ _ _ _ O4); [done|lia|apply Hse; lia].
    + intros r k Hr0 Hcr Hrt. destruct (o_rt _ _ _ _ _ _ _ _ _ _ _ O4 r Hr0) as [E|[E|(i & k' & ? & ? & ? & E)]].
      * rewrite E, (Hcl r Hcr) in Hrt. injection Hrt. lia.
      * rewrite E in Hrt. injection Hrt. lia.
      * rewrite E in Hrt. injection Hrt as Ek. exists i. split; [done|]. congruence.
  - rewrite Hfl in HR5. exists h5. split_and!; [|done|intros k Hk; by apply HRd|].
    + eapply run_trans; [eapply step_run, ST1; apply subset_refl|]. eapply run_trans; [eapply step_run, ST3; done|].
      eapply run_trans; [|exact HR5]. split; [apply (st_grow _ _ _ _ _ _ _ _ ST4)|apply (st_code _ _ _ _ _ _ _ _ ST4)|].
      intros r _. by rewrite (o_regs _ _ _ _ _ _ _ _ _ _ _ O4).
    + eapply Rel_sub; [|exact HRel5]. intros k [Hk|?]; [left|by right]. by apply (is_output_iff op oargs args).
Qed.

(** An operation that ends a basic block has no outputs. *)
Lemma alloc_op_end_ok s h s' (L : nat → Prop) vals :
  inv s → op_wf (nb_temps s) → has_flag (op_flags d) TCG_OPF_BB_END = true → tcg_reg_alloc_op s op args mask = Ok s' →
  Rel s L vals h → (∀ a, a ∈ iargs → L (Z.to_nat a)) →
  let '(outs, g, m') := op_sem sem op cargs (arg_vals vals iargs) (seen_globals op vals) (hm h) in
  ∃ h', runs (op_flow sem op cargs (arg_vals vals iargs) (hm h)) s h s' h' ∧ hm h' = m' ∧ Rel s' (λ k, L k ∧ lasting fi k) (set_outs oargs outs vals) h' ∧
    ∀ k, (k < nb_temps s)%nat → lasting fi k → settled s' k.
Proof.
  intros HI W Hbb Hs HR HLi. pose proof W as [Hu Hnc Hlo Hli Hlc Ho Hi Hnd Hty]. unfold tcg_reg_alloc_op in Hs.
  destruct (bb_end_flags op Hu Hbb) as (Hno & Hcl & _).
  destruct (op_params_read Hlo Hli Hlc) as (Ep1 & Ep2 & Ep3). rewrite Ep1, Ep2, Ep3 in Hs. cbn [rbind] in Hs. rewrite Hbb in Hs.
  apply rbind_ok in Hs as ([[[s1 na] ca] al] & E1 & Hs). apply rbind_ok in Hs as ([s2 na2] & E2 & Hs). apply rbind_ok in E2 as (s2' & E2 & [= -> <-]).
  assert (oargs = []) as Hoe by (apply length_zero_iff_nil; lia). rewrite Hoe in Hs. injection Hs as <-.
  destruct (op_inputs s h s1 na ca al HI W E1) as (h1 & ST1 & K1 & Hsub & Hd1 & Lna & Lca & Hca).
  pose proof (step_grows_inv _ _ _ _ _ _ _ _ ST1) as I1. pose proof (step_reserved _ _ _ _ _ _ _ _ ST1) as Er1.
  destruct (bb_end_ok fi sem junk s1 h1 al s2) as (h2 & ST2 & [_ K2] & SE2); [done|by rewrite Er1|done|].
  pose proof (step_grows_inv _ _ _ _ _ _ _ _ ST2) as I2.
  assert (hm h2 = hm h) as Em by (rewrite (st_m _ _ _ _ _ _ _ _ ST2); apply (st_m _ _ _ _ _ _ _ _ ST1)).
  pose proof (op_exec fi sem junk op oargs iargs cargs args Hlo ltac:(intros; by apply args_out) Hnd (λ a Ha, proj1 (proj1 (Ho a Ha)))
    s2 h2 na ca (λ k, L k ∧ lasting fi k) vals) as HX.
  rewrite <- Em, Hcl in *. destruct (op_sem _ _ _ _ _ _) as [[outs g] m']. destruct HX as (h3 & HR3 & Hm3 & HRel3); try done.
  - intros n Hn. eapply (input_done_at s h s1 h1 na ca al); try done; [apply Hd1; lia|]. apply (st_keep _ _ _ _ _ _ _ _ ST2).
  - intros i Hi'. lia.
  - apply (Rel_sub fi s2 (λ k, L k ∧ lasting fi k)); [tauto|]. apply K2; [tauto|]. apply K1. eapply Rel_sub; [|exact HR]. tauto.
  - exists h3. split_and!; [|done|eapply Rel_sub; [|exact HRel3]; tauto|].
    + eapply run_trans; [eapply step_run, ST1; apply subset_refl|]. eapply run_trans; [eapply step_run, ST2; by rewrite Er1|done].
    + intros k Hk. apply SE2. by rewrite (step_nb_temps _ _ _ _ _ _ _ _ ST1).
Qed.

End one.
End gen.

(** * Moves, constants, discarded temporaries and labels *)

Section mov.
  Context (fi : frame_info) {dl : Disc fi} {M : Type} (sem : tcg_sem M) (junk : (Z → Z) → M → Z → Z).
  Notation inv := (inv fi).
  Notation Rel := (Rel fi).
  Notation step := (step fi sem junk).
  Notation hstep := (hstep fi sem junk).
  Notation keeps := (keeps fi).
  Notation run := (runs fi sem junk FNext).
  Implicit Types (h : hstate M) (s : TCGContext).

(** ** A temporary gets a new value *)

Lemma Rel_new s s' (k : nat) ts' (L : nat → Prop) vals h v :
  nb_temps s' = nb_temps s → temps s' = <[k := ts']> (temps s) → (k < length (temps s))%nat →
  Rel s (λ j, L j ∧ j ≠ k) vals h → located fi h k ts' v → Rel s' (λ j, j = k ∨ L j) (<[k := v]> vals) h.
Proof.
  intros E1 E2 Hl HR Hk j tj Hj Htj HL. rewrite E1 in Hj. rewrite E2 in Htj. destruct (decide (j = k)) as [->|Hne].
  - rewrite list_lookup_insert_eq in Htj by done. simplify_eq. by rewrite fn_lookup_insert.
  - rewrite list_lookup_insert_ne in Htj by done. rewrite fn_lookup_insert_ne by done. apply HR; try done. tauto.
Qed.

Lemma forget_new s (k : nat) ts f (L : nat → Prop) vals h v :
  temps s !! k = Some ts → Rel s L vals h → located fi h k (f ts) v →
  Rel (set_temp (drop_reg s ts) k f) (λ j, j = k ∨ L j) (<[k := v]> vals) h.
Proof.
  intros Hts HR Hk. eapply (Rel_new s); [|by apply forget_temps|by eapply lookup_lt_Some| |done].
  - by destruct (drop_reg_ctx s ts).
  - eapply Rel_sub; [|exact HR]. tauto.
Qed.

Lemma ready_set s s' (k : nat) ts' : temps s' = <[k := ts']> (temps s) → val_type ts' ≠ TEMP_VAL_DEAD → ready s' k.
Proof. intros E Hv ts. rewrite E. intros [(_ & <- & _)|[? _]]%list_lookup_insert_Some; done. Qed.

Lemma movi_ok s h (o : nat) val rest s' (L : nat → Prop) vals al :
  inv s → (o < nb_temps s)%nat → fi_fixed fi o = false → tcg_reg_alloc_movi s ((o : Z) :: val :: rest) = Ok s' → Rel s L vals h →
  step al s h s' h ∧ ready s' o ∧ Rel s' (λ j, j = o ∨ L j) (<[o := val]> vals) h.
Proof.
  intros HI Ho Hf Hs HR. unfold tcg_reg_alloc_movi in Hs. cbn [aref Z.ltb rbind] in Hs. change (aref _ 0) with (Ok (o : Z)) in Hs.
  change (aref _ 1) with (Ok val) in Hs. cbn [rbind] in Hs. apply rbind_ok in Hs as (ts & Hts & Hs).
  apply get_temp_Ok in Hts as [_ Hts]. rewrite Nat2Z.id in Hts.
  rewrite (t_fixed _ _ _ _ (inv_temp _ _ HI o ts Ho Hts)), Hf in Hs. injection Hs as <-.
  assert (fixed_reg ts = false) as Hfx by (by rewrite (t_fixed _ _ _ _ (inv_temp _ _ HI o ts Ho Hts))).
  split; [by apply step_forget|]. split; [by eapply ready_set; [apply forget_temps|]|]. apply forget_new; [done..|]. unfold located. cbn. by rewrite Hfx.
Qed.

(** A register that holds nothing of [L] may be written. *)
Lemma Rel_write_free s (L : nat → Prop) vals h r v :
  inv s → tcg_regset_test_reg (reserved_regs s) r = false → (∀ k : nat, rt s r = Some (k : Z) → ¬ L k) →
  Rel s L vals h → Rel s L vals (mkH (<[r := v]> (hregs h)) (hslots h) (hm h)).
Proof.
  intros HI Hres Hfree HR. eapply (Rel_after fi s L); try done; cbn.
  - intros r' Hr'. apply fn_lookup_insert_ne. congruence.
  - intros r' k _ Hk HL. apply fn_lookup_insert_ne. intros <-. by apply (Hfree k).
  - intros k ts _ _ _. by left.
Qed.

(** The new value is written to a register that is free or the temporary's. *)
Lemma put_reg s h (k : nat) ts al r i v w (L : nat → Prop) vals :
  inv s → (k < nb_temps s)%nat → temps s !! k = Some ts → fixed_reg ts = false →
  0 ≤ r < TCG_TARGET_NB_REGS → tcg_regset_test_reg (reserved_regs s) r = false →
  (rt s r = Some (-1) ∨ rt s r = Some (k : Z)) → tcg_regset_test_reg al r = false →
  is_move i = true → hstep h i = mkH (<[r := v]> (hregs h)) (hslots h) (hm h) → eqv (ttype ts) v w → Rel s L vals h →
  step al s h (assign (out s i) ts k r false) (hstep h i) ∧
  Rel (assign (out s i) ts k r false) (λ j, j = k ∨ L j) (<[k := w]> vals) (hstep h i).
Proof.
  intros HI Hk Hts Hf Hr Hres Hrt Hal Emv Ei Hv HR. split.
  - eapply step_trans; [apply step_out; [done|done|by rewrite Ei|by rewrite Ei|]|].
    + rewrite Ei. by apply keep_write.
    + apply step_assign; try done. by apply inv_out.
  - eapply (Rel_new (out s i)); [|by apply assign_temps|by eapply lookup_lt_Some| |].
    + unfold assign. cbn. by destruct (drop_reg_ctx (out s i) ts).
    + rewrite Ei. change (Rel s (λ j, L j ∧ j ≠ k) vals (mkH (<[r:=v]> (hregs h)) (hslots h) (hm h))).
      apply Rel_write_free; [done..| |eapply Rel_sub; [|exact HR]; tauto]. intros j Hj [_ Hne].
      destruct Hrt as [E|E]; rewrite E in Hj; injection Hj; lia.
    + unfold located. cbn. rewrite Hf, Ei. cbn. by rewrite fn_lookup_insert.
Qed.

(** [mov_result] is the assignment of a register. *)
Lemma mov_result_assign s ts (o : nat) r :
  (val_type ts = TEMP_VAL_REG → treg ts = r) → mov_result s o r = assign s ts o r false.
Proof.
  intros Hr. unfold mov_result, assign, drop_reg. case_bool_decide as E; [|done]. rewrite (Hr E).
  unfold set_temp, set_reg. cbn. by rewrite list_insert_insert_eq.
Qed.

(** The register for the output of a move. *)
Definition out_reg s ots regs : result (TCGContext * Z) :=
  if bool_decide (val_type ots = TEMP_VAL_REG) then Ok (s, treg ots) else tcg_reg_alloc s regs (reserved_regs s).

Lemma out_reg_ok s h (o : nat) ots regs s1 r :
  inv s → (o < nb_temps s)%nat → temps s !! o = Some ots → fixed_reg ots = false → out_reg s ots regs = Ok (s1, r) →
  ∃ h1, step (reserved_regs s) s h s1 h1 ∧ hregs h1 = hregs h ∧ keeps s h s1 h1 ∧ spills s s1 ∧ temps s1 !! o = Some ots ∧
    0 ≤ r < TCG_TARGET_NB_REGS ∧ tcg_regset_test_reg (reserved_regs s) r = false ∧
    (rt s1 r = Some (-1) ∨ rt s1 r = Some (o : Z)) ∧ (val_type ots = TEMP_VAL_REG → treg ots = r).
Proof.
  intros HI Ho Hots Hf Hs. unfold out_reg in Hs. case_bool_decide as Hv.
  - injection Hs as <- <-. destruct (t_reg _ _ _ _ (inv_temp _ _ HI o ots Ho Hots) Hf Hv) as (? & ? & ?).
    exists h. split_and!; auto using step_refl, keeps_refl, spills_refl; lia.
  - destruct (tcg_reg_alloc_ok fi sem junk s regs (reserved_regs s) s1 r h HI Hs) as (h1 & ST & HR & K & SP & Hr & _ & Hal & Hrt & _).
    destruct (SP o ots Hots) as (t & Ht & _ & _ & _ & Hsame & _). rewrite Hsame in Ht by done.
    exists h1. split_and!; auto; [by apply step_all|lia|lia|done].
Qed.

(** The input is dead: its register goes to the output. *)
Lemma mov_steal s h (o i : nat) ots ts (L : nat → Prop) vals :
  inv s → (o < nb_temps s)%nat → (i < nb_temps s)%nat → o ≠ i → temps s !! o = Some ots → temps s !! i = Some ts →
  fixed_reg ots = false → fixed_reg ts = false → val_type ts = TEMP_VAL_REG → bits (ttype ots) ≤ bits (ttype ts) →
  Rel s L vals h → L i →
  let s' := mov_result (set_temp (set_reg (drop_reg s ots) (treg ts) (-1)) i (λ ts, ts <| val_type := TEMP_VAL_DEAD |>)) o (treg ts) in
  step 0 s h s' h ∧ ready s' o ∧ Rel s' (λ j, j = o ∨ (L j ∧ j ≠ i)) (<[o := vals i]> vals) h.
Proof.
  intros HI Ho Hi Hne Hots Hts Hfo Hft Hv Hb HR HLi s'. set (f := λ ts : TCGTemp, ts <| val_type := TEMP_VAL_DEAD |>) in *.
  set (s1 := set_temp (drop_reg s ts) i f).
  assert (step 0 s h s1 h) as ST1 by (by apply step_forget). pose proof (step_grows_inv _ _ _ _ _ _ _ _ ST1) as I1.
  destruct (t_reg _ _ _ _ (inv_temp _ _ HI i ts Hi Hts) Hft Hv) as (Hr & Hres & Hrt).
  assert (temps s1 !! o = Some ots) as Hots1. { unfold s1. rewrite forget_temps by done. by rewrite list_lookup_insert_ne. }
  assert (s' = assign s1 ots o (treg ts) false) as ->.
  { unfold s', s1, assign, mov_result, drop_reg, set_temp, set_reg. rewrite (bool_decide_true (val_type ts = _)) by done.
    case_bool_decide as Evo; cbn; [|done].
    destruct (t_reg _ _ _ _ (inv_temp _ _ HI o ots Ho Hots) Hfo Evo) as (Hro & _ & Hrto).
    rewrite (list_insert_insert_ne (reg_to_temp s) (Z.to_nat (treg ts)) (Z.to_nat (treg ots))); [done|].
    intros E. unfold rt in Hrt, Hrto. rewrite E, Hrto in Hrt. injection Hrt. lia. }
  assert (rt s1 (treg ts) = Some (-1)) as Hrt1.
  { change (rt (drop_reg s ts) (treg ts) = Some (-1)). rewrite (rt_drop fi s i) by (done || lia). by rewrite bool_decide_true. }
  split_and!.
  - eapply step_trans; [done|]. apply step_assign; try done.
    + by rewrite (step_nb_temps _ _ _ _ _ _ _ _ ST1).
    + by rewrite (step_reserved _ _ _ _ _ _ _ _ ST1).
    + by left.
    + apply Z.testbit_0_l.
  - by eapply ready_set; [apply assign_temps|].
  - eapply (Rel_new s1); [|by apply assign_temps|by eapply lookup_lt_Some| |].
    + unfold assign. cbn. by destruct (drop_reg_ctx s1 ots).
    + eapply (Rel_set fi s _ i); [|by apply forget_temps| |tauto]; [by destruct (drop_reg_ctx s ts)|]. eapply Rel_sub; [|exact HR]. tauto.
    + specialize (HR i ts Hi Hts HLi). unfold located in *. cbn. rewrite Hfo. rewrite Hft, Hv in HR. split; [|done].
      eapply eqv_mono; [done|apply HR].
Qed.

(** After the move the output has the value of the input. *)
Definition moved mask (o i : nat) (L : nat → Prop) vals s h s' : Prop :=
  ∃ h', run s h s' h' ∧ hm h' = hm h ∧ ready s' o ∧
    Rel s' (λ j, j = o ∨ (L j ∧ ¬ killed fi mask 0 [i : Z] j)) (<[o := vals i]> vals) h'.

(** An instruction brings the value to the register of the output. *)
Lemma mov_put mask s h (o i : nat) ots (L : nat → Prop) vals s1 h1 r ins v :
  (o < nb_temps s)%nat → fixed_reg ots = false → Rel s L vals h →
  step (reserved_regs s) s h s1 h1 → keeps s h s1 h1 → temps s1 !! o = Some ots →
  0 ≤ r < TCG_TARGET_NB_REGS → tcg_regset_test_reg (reserved_regs s) r = false → rt s1 r = Some (-1) ∨ rt s1 r = Some (o : Z) →
  (val_type ots = TEMP_VAL_REG → treg ots = r) → is_move ins = true →
  hstep h1 ins = mkH (<[r := v]> (hregs h1)) (hslots h1) (hm h1) → eqv (ttype ots) v (vals i) →
  moved mask o i L vals s h (mov_result (out s1 ins) o r).
Proof.
  intros Ho Hfo HR ST K Ht Hr Hres Hrt Hreg Emv Hins Hv. rewrite (mov_result_assign _ ots) by done.
  destruct (put_reg s1 h1 o ots (reserved_regs s) r ins v (vals i) L vals) as [ST2 HR2]; try done.
  - by eapply step_grows_inv.
  - by rewrite (step_nb_temps _ _ _ _ _ _ _ _ ST).
  - by rewrite (step_reserved _ _ _ _ _ _ _ _ ST).
  - by apply K.
  - pose proof (step_trans _ _ _ _ _ _ _ _ _ _ ST ST2) as ST3. eexists. split_and!; [eapply step_run, ST3; apply subset_refl|apply (st_m _ _ _ _ _ _ _ _ ST3)|..].
    + by eapply ready_set; [apply assign_temps|].
    + eapply Rel_sub; [|exact HR2]. tauto.
Qed.

(** The value is in the register of the output already. *)
Lemma mov_same mask s h (o i : nat) ots (L : nat → Prop) vals s1 h1 r :
  (o < nb_temps s)%nat → fixed_reg ots = false → Rel s L vals h →
  step (reserved_regs s) s h s1 h1 → keeps s h s1 h1 → temps s1 !! o = Some ots →
  0 ≤ r < TCG_TARGET_NB_REGS → tcg_regset_test_reg (reserved_regs s) r = false → rt s1 r = Some (-1) ∨ rt s1 r = Some (o : Z) →
  (val_type ots = TEMP_VAL_REG → treg ots = r) → eqv (ttype ots) (hregs h1 r) (vals i) →
  moved mask o i L vals s h (mov_result s1 o r).
Proof.
  intros Ho Hfo HR ST K Ht Hr Hres Hrt Hreg He. rewrite (mov_result_assign _ ots) by done. pose proof (step_grows_inv _ _ _ _ _ _ _ _ ST) as I1.
  assert (o < nb_temps s1)%nat as Ho1 by (by rewrite (step_nb_temps _ _ _ _ _ _ _ _ ST)).
  assert (step (reserved_regs s) s1 h1 (assign s1 ots o r false) h1) as ST2.
  { apply step_assign; try done. by rewrite (step_reserved _ _ _ _ _ _ _ _ ST). }
  pose proof (step_trans _ _ _ _ _ _ _ _ _ _ ST ST2) as ST3. exists h1. split_and!; [eapply step_run, ST3; apply subset_refl|apply (st_m _ _ _ _ _ _ _ _ ST3)|by eapply ready_set; [apply assign_temps|]|].
  eapply (Rel_new s1); [|by apply assign_temps|by eapply lookup_lt_Some| |].
  - unfold assign. cbn. by destruct (drop_reg_ctx s1 ots).
  - eapply Rel_sub; [|by apply K]. tauto.
  - unfold located. cbn. by rewrite Hfo.
Qed.

Lemma mov_ok s h op (o i : nat) rest mask s' (L : nat → Prop) vals :
  inv s → (o < nb_temps s)%nat → (i < nb_temps s)%nat → o ≠ i → fi_fixed fi o = false →
  bits (fi_type fi o) ≤ bits (fi_type fi i) →
  tcg_reg_alloc_mov s op ((o : Z) :: (i : Z) :: rest) mask = Ok s' → Rel s L vals h → L i → moved mask o i L vals s h s'.
Proof.
  intros HI Ho Hi Hne Hfo Hb Hs HR HLi. unfold tcg_reg_alloc_mov in Hs. change (aref _ 0) with (Ok (o : Z)) in Hs.
  change (aref _ 1) with (Ok (i : Z)) in Hs. cbn [rbind] in Hs. apply rbind_ok in Hs as (ots & Hots & Hs). apply rbind_ok in Hs as (ts & Hts & Hs).
  apply get_temp_Ok in Hots as [_ Hots]. apply get_temp_Ok in Hts as [_ Hts]. rewrite Nat2Z.id in Hots, Hts.
  pose proof (inv_temp _ _ HI o ots Ho Hots) as HTo. pose proof (inv_temp _ _ HI i ts Hi Hts) as HTi.
  rewrite <- (t_fixed _ _ _ _ HTo) in Hfo. rewrite <- (t_type _ _ _ _ HTo), <- (t_type _ _ _ _ HTi) in Hb.
  pose proof (HR i ts Hi Hts HLi) as Hloc. set (regs := ct_regs _) in Hs. clearbody regs.
  change (λ s, if bool_decide (val_type ots = TEMP_VAL_REG) then Ok (s, treg ots) else tcg_reg_alloc s regs (reserved_regs s))
    with (λ s, out_reg s ots regs) in Hs. cbv beta zeta in Hs.
  assert (val_type ts ≠ TEMP_VAL_REG → fixed_reg ts = false) as Hnf.
  { intros Hv. destruct (fixed_reg ts) eqn:E; [|done]. by destruct (t_fixed_reg _ _ _ _ HTi E) as (_ & ? & _). }
  unfold located in Hloc. destruct (val_type ts) eqn:Hv; [done|..].
  - destruct (IS_DEAD_IARG mask 0 && _ && _) eqn:Ed.
    + apply andb_true_iff in Ed as [[Ed Hft%negb_true_iff]%andb_true_iff _]. injection Hs as <-.
      destruct (mov_steal s h o i ots ts L vals) as (ST & RD & HR'); try done. exists h. split_and!; [|done|done|].
      * split; [apply (st_grow _ _ _ _ _ _ _ _ ST)|apply (st_code _ _ _ _ _ _ _ _ ST)|done].
      * eapply Rel_sub; [|exact HR']. intros j [->|[? Hk]]; [by left|right]. split; [done|]. intros ->. apply Hk.
        exists 0%nat. rewrite Z.add_0_r. split_and!; try done. by rewrite <- (t_fixed _ _ _ _ HTi).
    + apply rbind_ok in Hs as ([s1 r] & Er & Hs). apply rbind_ok in Hs as (t & Ht & [= <-]).
      destruct (out_reg_ok s h o ots regs s1 r) as (h1 & ST & HR1 & K & SP & Hto & Hr & Hres & Hrt & Hreg); try done.
      destruct (SP i ts Hts) as (t' & Ht' & _ & Htr & _). apply get_temp_Ok in Ht as [_ Ht]. rewrite Nat2Z.id in Ht. simplify_eq.
      assert (eqv (ttype ots) (hregs h1 (treg ts)) (vals i)) as He.
      { eapply eqv_mono; [exact Hb|]. rewrite HR1. destruct (fixed_reg ts); naive_solver. }
      rewrite Htr. destruct (Z.eqb_spec (treg ts) r) as [E|E]; [rewrite E in He; by eapply mov_same|].
      eapply (mov_put _ _ _ _ _ _ _ _ _ _ _ _ (conv (ttype ots) (hregs h1 (treg ts)))); try done. by rewrite eqv_conv.
  - apply rbind_ok in Hs as ([s1 r] & Er & Hs). apply rbind_ok in Hs as (t & Ht & [= <-]).
    destruct (out_reg_ok s h o ots regs s1 r) as (h1 & ST & HR1 & K & SP & Hto & Hr & Hres & Hrt & Hreg); try done.
    destruct (SP i ts Hts) as (t' & Ht' & _ & _ & _ & Hsame & _). rewrite Hsame in Ht' by congruence.
    apply get_temp_Ok in Ht as [_ Ht]. rewrite Nat2Z.id, Ht' in Ht. injection Ht as <-.
    assert (i < nb_temps s1)%nat as Hi1 by (by rewrite (step_nb_temps _ _ _ _ _ _ _ _ ST)).
    eapply (mov_put _ _ _ _ _ _ _ _ _ _ _ _ (conv (ttype ts) (hslots h1 (home ts)))); try done.
    specialize (K L vals HR i ts Hi1 Ht' HLi). unfold located in K. rewrite Hnf, Hv in K by done. destruct K as [_ K].
    eapply eqv_mono; [exact Hb|]. by rewrite eqv_conv.
  - rewrite Hfo in Hs. injection Hs as <-. exists h. split_and!; [eapply step_run; [apply subset_refl|by apply step_forget]|done|by eapply ready_set; [apply forget_temps|]|].
    eapply Rel_sub; [|apply forget_new; [done|exact HR|]]; [tauto|]. unfold located. cbn. rewrite Hfo. rewrite Hnf in Hloc by done.
    by eapply eqv_mono.
Qed.

End mov.
