(* ===== verification/TcgGenCall.v ===== *)
(** * The arguments and results of a call

    [stack_args], [reg_args], [func_addr] and [call_oargs]. *)

From stdpp Require Import base gmap list functions.
From S2P Require Import Prelude TcgData TcgLive TcgLiveInv TcgAlloc TcgSem TcgInv TcgSpill TcgSave TcgArgs TcgOpIn TcgOp TcgGenOp.
Local Open Scope Z_scope.
Local Coercion Z.of_nat : nat >-> Z.

Section call.
  Context (fi : frame_info) {dl : Disc fi} {M : Type} (sem : tcg_sem M) (junk : (Z → Z) → M → Z → Z).
  Notation inv := (inv fi).
  Notation Rel := (Rel fi).
  Notation grow := (grow fi).
  Notation step := (step fi sem junk).
  Notation runs := (runs fi sem junk).
  Notation run := (runs FNext).
  Notation keeps := (keeps fi).
  Notation hstep := (hstep fi sem junk).
  Implicit Types (h : hstate M) (s : TCGContext) (al : TCGRegSet).

(** ** A value for an argument *)

(** After [h], the value of temporary [k] is [v]. *)
Definition holds_val s h (k : nat) (v : Z) : Prop := ∀ L vals, Rel s L vals h → L k → eqv (fi_type fi k) v (vals k).

Lemma holds_keeps s h s1 h1 k v : keeps s h s1 h1 → holds_val s1 h1 k v → holds_val s h k v.
Proof. intros K H L vals HR. apply H, K, HR. Qed.

(** A register that holds nothing is loaded. *)
Lemma load_free s h al r i v :
  inv s → 0 ≤ r → rt s r = Some (-1) → subset (reserved_regs s) al → tcg_regset_test_reg al r = false →
  is_move i = true → hstep h i = mkH (<[r := v]> (hregs h)) (hslots h) (hm h) →
  step al s h (out s i) (hstep h i) ∧ keeps s h (out s i) (hstep h i) ∧ hregs (hstep h i) r = v.
Proof.
  intros HI Hr Hrt Hal Hnal Emv Ei. split_and!.
  - apply step_out; [done|done|by rewrite Ei|by rewrite Ei|]. rewrite Ei. by apply keep_write.
  - apply (keeps_out_reg fi sem junk s h i r v); try done. by eapply unreserved.
  - rewrite Ei. apply fn_lookup_insert.
Qed.

(** The instruction that loads a temporary. *)
Inductive loads s (k : nat) (r : Z) : hinsn → Prop :=
  | loads_mov ts : temps s !! k = Some ts → val_type ts = TEMP_VAL_REG → loads s k r (HMov (ttype ts) r (treg ts))
  | loads_ld ts : temps s !! k = Some ts → val_type ts = TEMP_VAL_MEM → loads s k r (HLd (ttype ts) r (mem_reg ts) (mem_offset ts))
  | loads_movi ts : temps s !! k = Some ts → val_type ts = TEMP_VAL_CONST → loads s k r (HMovi (ttype ts) r (tval ts)).

Lemma not_fixed s k ts : inv s → (k < nb_temps s)%nat → temps s !! k = Some ts → val_type ts ≠ TEMP_VAL_REG → fixed_reg ts = false.
Proof.
  intros HI Hk Hts Hv. destruct (fixed_reg ts) eqn:E; [|done]. by destruct (t_fixed_reg _ _ _ _ (inv_temp _ _ HI k ts Hk Hts) E) as (_ & ? & _).
Qed.

Lemma reg_value s h (k : nat) ts :
  inv s → (k < nb_temps s)%nat → temps s !! k = Some ts → val_type ts = TEMP_VAL_REG → holds_val s h k (hregs h (treg ts)).
Proof.
  intros HI Hk Hts Hv L vals HR HL. specialize (HR k ts Hk Hts HL). unfold located in HR. rewrite Hv in HR.
  rewrite <- (t_type _ _ _ _ (inv_temp _ _ HI k ts Hk Hts)). destruct (fixed_reg ts); naive_solver.
Qed.

Lemma loads_ok s h (k : nat) al r i :
  inv s → (k < nb_temps s)%nat → 0 ≤ r → rt s r = Some (-1) → subset (reserved_regs s) al → tcg_regset_test_reg al r = false →
  loads s k r i →
  step al s h (out s i) (hstep h i) ∧ keeps s h (out s i) (hstep h i) ∧ holds_val s h k (hregs (hstep h i) r).
Proof.
  intros HI Hk Hr Hrt Hal Hnal Hl.
  assert (∃ v, hstep h i = mkH (<[r := v]> (hregs h)) (hslots h) (hm h) ∧ holds_val s h k v) as (v & Ei & Hv).
  { destruct Hl as [ts Hts Hv|ts Hts Hv|ts Hts Hv]; eexists; (split; [reflexivity|]); intros L vals HR HL;
      pose proof (inv_temp _ _ HI k ts Hk Hts) as HT; rewrite (t_type _ _ _ _ HT), eqv_conv.
    - by apply (reg_value s h k ts HI Hk Hts Hv L).
    - specialize (HR k ts Hk Hts HL). unfold located in HR. rewrite (not_fixed s k ts), Hv, (t_type _ _ _ _ HT) in HR by (done || congruence). apply HR.
    - specialize (HR k ts Hk Hts HL). unfold located in HR. rewrite (not_fixed s k ts), Hv, (t_type _ _ _ _ HT) in HR by (done || congruence). apply HR. }
  destruct (load_free s h al r i v) as (ST & K & E); try done; [by destruct Hl|]. split_and!; [done..|]. by rewrite E.
Qed.

(** A register is allocated for a temporary that is loaded. *)
Lemma alloc_loads s h (k : nat) ct al s1 r :
  inv s → (k < nb_temps s)%nat → subset (reserved_regs s) al → tcg_reg_alloc s ct al = Ok (s1, r) →
  ∃ h1, step al s h s1 h1 ∧ keeps s h s1 h1 ∧ 0 ≤ r ∧ tcg_regset_test_reg ct r = true ∧ tcg_regset_test_reg al r = false ∧
    hregs h1 = hregs h ∧ rt s1 r = Some (-1) ∧ spills s s1 ∧
    ∀ i, loads s1 k r i → ∃ h', step al s h (out s1 i) h' ∧ keeps s h (out s1 i) h' ∧ holds_val s h k (hregs h' r).
Proof.
  intros HI Hk Hal Ea.
  destruct (tcg_reg_alloc_ok fi sem junk s ct al s1 r h HI Ea) as (h1 & ST1 & HR1 & K1 & SP1 & Hr & Hct & Hnal & Hrt & _).
  pose proof (step_grows_inv _ _ _ _ _ _ _ _ ST1) as I1. exists h1. split_and!; try done; [by apply step_all|lia|]. intros i Hl.
  destruct (loads_ok s1 h1 k al r i) as (ST2 & K2 & HV); try done.
  - by rewrite (step_nb_temps _ _ _ _ _ _ _ _ ST1).
  - lia.
  - by rewrite (step_reserved _ _ _ _ _ _ _ _ ST1).
  - eexists. split_and!; [eapply step_trans; [apply step_all, ST1|exact ST2]|by eapply keeps_trans|by eapply holds_keeps].
Qed.

(** ** Results *)

Lemma call_oargs_ok s h oargs regs vs s' (L : nat → Prop) vals :
  inv s → (∀ a, a ∈ oargs → 0 ≤ a < nb_temps s ∧ fi_fixed fi (Z.to_nat a) = false) →
  (∀ r, r ∈ regs → 0 ≤ r < TCG_TARGET_NB_REGS ∧ tcg_regset_test_reg (reserved_regs s) r = false) →
  length vs = length oargs → (∀ n v r, vs !! n = Some v → regs !! n = Some r → hregs h r = v) →
  call_oargs s oargs regs = Ok s' → Rel s L vals h →
  step 0 s h s' h ∧ (∀ k : nat, (k : Z) ∈ oargs ∨ ready s k → ready s' k) ∧ Rel s' (λ k, (k : Z) ∈ oargs ∨ L k) (set_outs oargs vs vals) h.
Proof.
  revert s regs vs L vals. induction oargs as [|a oargs IH]; intros s regs vs L vals HI Ho Hregs Hl Hv Hs HR.
  { injection Hs as <-. split; [by apply step_refl|]. split; [intros k [?%elem_of_nil|?]; done|]. eapply Rel_sub; [|exact HR]. intros k [?%elem_of_nil|?]; done. }
  destruct regs as [|r regs]; [done|]. destruct vs as [|v vs]; [done|]. cbn [call_oargs] in Hs.
  apply rbind_ok in Hs as (ts & Hts & Hs). apply rbind_ok in Hs as (k' & Ek & Hs). apply aref_Ok in Ek as [_ Ek].
  apply rbind_ok in Hs as ([] & Ea & Hs). apply assert_ok, Z.eqb_eq in Ea as ->.
  destruct (get_temp_nat _ _ _ Hts) as (k & -> & Hk). destruct (Ho k) as [Hlt Hf]; [by left|]. rewrite Nat2Z.id in Hf.
  assert (k < nb_temps s)%nat as Hkt by lia. pose proof (t_fixed _ _ _ _ (inv_temp _ _ HI k ts Hkt Hk)) as Hfx. rewrite Hf in Hfx.
  rewrite Hfx in Hs. destruct (Hregs r) as [Hr Hres]; [by left|].
  change (call_oargs (assign s ts k r false) oargs regs = Ok s') in Hs.
  assert (step 0 s h (assign s ts k r false) h) as ST1. { apply step_assign; try done; [by left|apply Z.testbit_0_l]. }
  destruct (IH (assign s ts k r false) regs vs (λ j, j = k ∨ L j) (<[k := v]> vals)) as (ST2 & RD2 & HR2); try done.
  - by eapply step_grows_inv.
  - intros a Ha. rewrite (step_nb_temps _ _ _ _ _ _ _ _ ST1). apply Ho. by right.
  - intros r' Hr'. rewrite (step_reserved _ _ _ _ _ _ _ _ ST1). apply Hregs. by right.
  - by injection Hl.
  - intros n. apply (Hv (S n)).
  - eapply (Rel_new fi s); [|by apply assign_temps|by eapply lookup_lt_Some| |].
    + unfold assign. cbn. by destruct (drop_reg_ctx s ts).
    + eapply Rel_sub; [|exact HR]. tauto.
    + unfold located. cbn. rewrite Hfx. split; [|done]. by rewrite (Hv 0%nat v r).
  - split; [by eapply step_trans|]. split.
    { intros j Hj. destruct (decide ((j : Z) ∈ oargs)) as [?|Hno]; [apply RD2; by left|]. apply RD2. right. intros tj. rewrite assign_temps by done.
      intros [(_ & <- & _)|[Hne Htj]]%list_lookup_insert_Some; [done|]. destruct Hj as [[E|?]%elem_of_cons|Hj]; [lia|done|by apply Hj]. }
    cbn [set_outs]. rewrite Nat2Z.id. eapply Rel_sub; [|exact HR2].
    intros j [[E|?]%elem_of_cons|?]; [|by left|by right; right]. right. left. lia.
Qed.

(** ** Arguments on the stack *)

(** Code that may also write the arguments at the offsets [P]. *)
Record stk (P : Z → Prop) s h s' h' : Prop := {
  k_run : run s h s' h';
  k_m : hm h' = hm h;
  k_stack off : ¬ P off → hslots h' (TCG_REG_CALL_STACK, off) = hslots h (TCG_REG_CALL_STACK, off)
}.

Lemma stk_trans (P : Z → Prop) s1 h1 s2 h2 s3 h3 : stk P s1 h1 s2 h2 → stk P s2 h2 s3 h3 → stk P s1 h1 s3 h3.
Proof.
  intros [R1 M1 K1] [R2 M2 K2]. split; [by eapply run_trans|congruence|]. intros off Hoff. by rewrite K2, K1.
Qed.
Lemma stk_mono (P Q : Z → Prop) s h s' h' : (∀ off, P off → Q off) → stk P s h s' h' → stk Q s h s' h'.
Proof. intros HPQ [? ? ?]. split; auto. Qed.
Lemma step_stk P s h s' h' : step (reserved_regs s) s h s' h' → stk P s h s' h'.
Proof. intros ST. split; [eapply step_run, ST; apply subset_refl|apply (st_m _ _ _ _ _ _ _ _ ST)|]. intros off _. apply (st_stack _ _ _ _ _ _ _ _ ST). Qed.

Lemma store_stack s h ty r off :
  inv s →
  let i := HSt ty r TCG_REG_CALL_STACK off in
  stk (eq off) s h (out s i) (hstep h i) ∧ keeps s h (out s i) (hstep h i) ∧
  hslots (hstep h i) (TCG_REG_CALL_STACK, off) = conv ty (hregs h r).
Proof.
  intros HI i. split_and!.
  - split; [by apply run_move|done|]. intros off' Hne. cbn. apply fn_lookup_insert_ne. congruence.
  - intros L vals HR. by apply (Rel_write_stack fi s).
  - cbn. apply fn_lookup_insert.
Qed.

Lemma holds_conv s h (k : nat) ty v : ty = fi_type fi k → holds_val s h k v → holds_val s h k (conv ty v).
Proof. intros -> Hv L vals HR HL. rewrite eqv_conv. by apply (Hv L). Qed.

Lemma stack_arg_ok s h (k : nat) off ts s' :
  inv s → (k < nb_temps s)%nat → temps s !! k = Some ts →
  match val_type ts with
  | TEMP_VAL_REG => Ok (out s (HSt (ttype ts) (treg ts) TCG_REG_CALL_STACK off))
  | TEMP_VAL_MEM =>
      '(s, reg) <- tcg_reg_alloc s (tcg_target_available_regs (ttype ts)) (reserved_regs s) ;;
      ts <- get_temp s k ;;
      let s := out s (HLd (ttype ts) reg (mem_reg ts) (mem_offset ts)) in
      Ok (out s (HSt (ttype ts) reg TCG_REG_CALL_STACK off))
  | TEMP_VAL_CONST =>
      '(s, reg) <- tcg_reg_alloc s (tcg_target_available_regs (ttype ts)) (reserved_regs s) ;;
      let s := out s (HMovi (ttype ts) reg (tval ts)) in
      Ok (out s (HSt (ttype ts) reg TCG_REG_CALL_STACK off))
  | TEMP_VAL_DEAD => Er EAbort
  end = Ok s' →
  ∃ h', stk (eq off) s h s' h' ∧ keeps s h s' h' ∧ holds_val s h k (hslots h' (TCG_REG_CALL_STACK, off)).
Proof.
  intros HI Hk Hts Hs. pose proof (inv_temp _ _ HI k ts Hk Hts) as HT.
  assert (∀ s1 h1 r, step (reserved_regs s) s h s1 h1 → keeps s h s1 h1 → holds_val s h k (hregs h1 r) →
    ∃ h', stk (eq off) s h (out s1 (HSt (ttype ts) r TCG_REG_CALL_STACK off)) h' ∧
      keeps s h (out s1 (HSt (ttype ts) r TCG_REG_CALL_STACK off)) h' ∧ holds_val s h k (hslots h' (TCG_REG_CALL_STACK, off))) as Hst.
  { intros s1 h1 r ST K Hv. destruct (store_stack s1 h1 (ttype ts) r off) as (ST2 & K2 & E); [by eapply step_grows_inv|].
    eexists. split_and!; [eapply stk_trans; [by apply step_stk|exact ST2]|by eapply keeps_trans|]. rewrite E.
    apply holds_conv; [apply (t_type _ _ _ _ HT)|done]. }
  destruct (val_type ts) eqn:Hv; [done|..].
  - injection Hs as <-. apply (Hst s h); [by apply step_refl|apply keeps_refl|by apply reg_value].
  - apply rbind_ok in Hs as ([s1 r] & Ea & Hs). apply rbind_ok in Hs as (t & Ht & [= <-]).
    destruct (alloc_loads s h k _ _ s1 r HI Hk (subset_refl _) Ea) as (h1 & _ & _ & _ & _ & _ & _ & _ & SP & HL).
    destruct (SP k ts Hts) as (t' & Ht' & _ & _ & _ & Hsame & _). rewrite Hsame in Ht' by congruence.
    apply get_temp_Ok in Ht as [_ Ht]. rewrite Nat2Z.id, Ht' in Ht. injection Ht as <-.
    destruct (HL (HLd (ttype ts) r (mem_reg ts) (mem_offset ts))) as (h2 & ST & K & HV); [by constructor|]. by apply (Hst _ h2).
  - apply rbind_ok in Hs as ([s1 r] & Ea & [= <-]).
    destruct (alloc_loads s h k _ _ s1 r HI Hk (subset_refl _) Ea) as (h1 & _ & _ & _ & _ & _ & _ & _ & SP & HL).
    destruct (SP k ts Hts) as (t' & Ht' & _ & _ & _ & Hsame & _). rewrite Hsame in Ht' by congruence.
    destruct (HL (HMovi (ttype ts) r (tval ts))) as (h2 & ST & K & HV); [by constructor|]. by apply (Hst _ h2).
Qed.

(** Arguments of a call: temporaries or fillers. *)
Definition args_ok s (l : list Z) : Prop := ∀ a, a ∈ l → a ≠ TCG_CALL_DUMMY_ARG → 0 ≤ a < nb_temps s.

Lemma stack_args_ok s h l off s' :
  inv s → args_ok s l → stack_args s l off = Ok s' →
  ∃ h', stk (λ o, off ≤ o) s h s' h' ∧ keeps s h s' h' ∧
    ∀ (n k : nat), l !! n = Some (k : Z) → (k : Z) ≠ TCG_CALL_DUMMY_ARG → holds_val s h k (hslots h' (TCG_REG_CALL_STACK, off + 8 * n)).
Proof.
  revert s h off. induction l as [|a l IH]; intros s h off HI Ha; cbn [stack_args].
  { intros [= <-]. exists h. split_and!; [apply step_stk; by apply step_refl|apply keeps_refl|by intros n k ?]. }
  intros Hs. apply rbind_ok in Hs as (s1 & E1 & Hs).
  assert (∃ h1, stk (eq off) s h s1 h1 ∧ keeps s h s1 h1 ∧
    ∀ k : nat, a = k → (k : Z) ≠ TCG_CALL_DUMMY_ARG → holds_val s h k (hslots h1 (TCG_REG_CALL_STACK, off))) as (h1 & ST1 & K1 & V1).
  { destruct (Z.eqb_spec a TCG_CALL_DUMMY_ARG) as [->|Hd].
    - injection E1 as <-. exists h. split_and!; [apply step_stk; by apply step_refl|apply keeps_refl|by intros k <-].
    - apply rbind_ok in E1 as (ts & Hts & E1). destruct (get_temp_nat _ _ _ Hts) as (k & -> & Hk). destruct (Ha k) as [_ ?]; [by left|done|].
      destruct (stack_arg_ok s h k off ts s1) as (h1 & ? & ? & ?); try done; [lia|]. exists h1. split_and!; try done.
      intros k' E _. by assert (k' = k) as -> by lia. }
  pose proof (run_inv _ _ _ _ _ _ _ _ (k_run _ _ _ _ _ ST1)) as I1. pose proof (run_nb_temps _ _ _ _ _ _ _ _ (k_run _ _ _ _ _ ST1)) as En.
  destruct (IH s1 h1 (off + 8)) as (h2 & ST2 & K2 & V2); try done.
  { intros a' Ha'. rewrite En. apply Ha. by right. }
  exists h2. split_and!.
  - eapply stk_trans; (eapply stk_mono; [|done]); cbn; lia.
  - by eapply keeps_trans.
  - intros [|n] k Hk Hd; cbn in Hk.
    + injection Hk as ->. rewrite Z.mul_0_r, Z.add_0_r, (k_stack _ _ _ _ _ ST2) by lia. by apply V1.
    + replace (off + 8 * S n) with (off + 8 + 8 * n) by lia. eapply holds_keeps; [exact K1|]. by apply V2.
Qed.

(** ** Arguments in registers *)

Lemma reg_arg_ok s h (k : nat) r al s1 ts s' :
  inv s → (k < nb_temps s)%nat → 0 ≤ r → subset (reserved_regs s) al → tcg_regset_test_reg al r = false →
  tcg_reg_free s r = Ok s1 → temps s1 !! k = Some ts →
  match val_type ts with
  | TEMP_VAL_REG => Ok (if treg ts =? r then s1 else out s1 (HMov (ttype ts) r (treg ts)))
  | TEMP_VAL_MEM => Ok (out s1 (HLd (ttype ts) r (mem_reg ts) (mem_offset ts)))
  | TEMP_VAL_CONST => Ok (out s1 (HMovi (ttype ts) r (tval ts)))
  | TEMP_VAL_DEAD => Er EAbort
  end = Ok s' →
  ∃ h', step al s h s' h' ∧ keeps s h s' h' ∧ holds_val s h k (hregs h' r).
Proof.
  intros HI Hk Hr Hal Hnal Ef Hts Hs.
  destruct (tcg_reg_free_ok fi sem junk s r s1 h HI Hr Ef) as (h1 & ST1 & _ & K1 & _ & Hrt & _).
  pose proof (step_grows_inv _ _ _ _ _ _ _ _ ST1) as I1. pose proof (step_all fi sem junk al _ _ _ _ ST1) as ST1'.
  assert (k < nb_temps s1)%nat as Hk1 by (by rewrite (step_nb_temps _ _ _ _ _ _ _ _ ST1)).
  assert (∀ i, loads s1 k r i → ∃ h', step al s h (out s1 i) h' ∧ keeps s h (out s1 i) h' ∧ holds_val s h k (hregs h' r)) as HL.
  { intros i Hl. destruct (loads_ok s1 h1 k al r i) as (ST2 & K2 & HV); try done; [by rewrite (step_reserved _ _ _ _ _ _ _ _ ST1)|].
    eexists. split_and!; [by eapply step_trans|by eapply keeps_trans|by eapply holds_keeps]. }
  destruct (val_type ts) eqn:Hv; [done|..]; injection Hs as <-.
  - destruct (Z.eqb_spec (treg ts) r) as [<-|]; [|by apply HL; constructor].
    exists h1. split_and!; [done..|]. eapply holds_keeps; [exact K1|]. by apply reg_value.
  - apply HL. by constructor.
  - apply HL. by constructor.
Qed.

Lemma reg_args_ok s h l regs al s' al' :
  inv s → args_ok s l → NoDup regs → (∀ r, r ∈ regs → 0 ≤ r ∧ tcg_regset_test_reg al r = false) → subset (reserved_regs s) al →
  reg_args s l regs al = Ok (s', al') →
  ∃ h', step al s h s' h' ∧ keeps s h s' h' ∧ subset al al' ∧
    ∀ (n k : nat) r, l !! n = Some (k : Z) → regs !! n = Some r → (k : Z) ≠ TCG_CALL_DUMMY_ARG →
      holds_val s h k (hregs h' r) ∧ tcg_regset_test_reg al' r = true.
Proof.
  revert s h regs al. induction l as [|a l IH]; intros s h regs al HI Ha HN Hregs Hal; cbn [reg_args].
  { intros [= <- <-]. exists h. split_and!; [by apply step_refl|apply keeps_refl|apply subset_refl|by intros n k ? ?]. }
  destruct regs as [|r regs].
  { intros [= <- <-]. exists h. split_and!; [by apply step_refl|apply keeps_refl|apply subset_refl|by intros n k ? ? ?]. }
  inversion_clear HN as [|? ? Hni HN']. destruct (Hregs r) as [Hr Hnal]; [by left|].
  intros Hs. apply rbind_ok in Hs as ([s1 al1] & E1 & Hs).
  assert (∃ h1, step al s h s1 h1 ∧ keeps s h s1 h1 ∧ (al1 = al ∨ al1 = tcg_regset_set_reg al r) ∧
    ∀ k : nat, a = k → (k : Z) ≠ TCG_CALL_DUMMY_ARG → holds_val s h k (hregs h1 r) ∧ tcg_regset_test_reg al1 r = true)
    as (h1 & ST1 & K1 & Hal1 & V1).
  { destruct (Z.eqb_spec a TCG_CALL_DUMMY_ARG) as [->|Hd].
    - injection E1 as <- <-. exists h. split_and!; [by apply step_refl|apply keeps_refl|by left|by intros k <-].
    - apply rbind_ok in E1 as (s0 & Ef & E1). apply rbind_ok in E1 as (ts & Hts & E1). apply rbind_ok in E1 as (s1' & Em & [= -> <-]).
      destruct (get_temp_nat _ _ _ Hts) as (k & -> & Hk). destruct (Ha k) as [_ ?]; [by left|done|].
      destruct (reg_arg_ok s h k r al s0 ts s1) as (h1 & ? & ? & ?); try done; [lia|]. exists h1. split_and!; auto.
      intros k' E _. assert (k' = k) as -> by lia. split; [done|]. rewrite set_reg_test by done. by rewrite bool_decide_true, orb_true_r. }
  assert (subset al al1) as Hs1 by (destruct Hal1 as [->| ->]; [apply subset_refl|by apply subset_set_reg]).
  destruct (IH s1 h1 regs al1) as (h2 & ST2 & K2 & Hs2 & V2); try done.
  - by eapply step_grows_inv.
  - intros a' Ha'. rewrite (step_nb_temps _ _ _ _ _ _ _ _ ST1). apply Ha. by right.
  - intros r' Hr'. destruct (Hregs r') as [? Hn']; [by right|]. split; [done|]. destruct Hal1 as [->| ->]; [done|].
    rewrite set_reg_test, Hn' by done. apply bool_decide_false. by intros ->.
  - rewrite (step_reserved _ _ _ _ _ _ _ _ ST1). by eapply subset_trans.
  - exists h2. split_and!; [eapply step_trans; [exact ST1|by eapply step_mono]|by eapply keeps_trans|by eapply subset_trans|].
    intros [|n] k r' Hk Hr' Hd; cbn in Hk, Hr'.
    + injection Hk as ->. injection Hr' as <-. destruct (V1 k eq_refl Hd) as [HV Ht]. rewrite (st_keep _ _ _ _ _ _ _ _ ST2) by done. auto.
    + destruct (V2 n k r' Hk Hr' Hd) as [HV ?]. split; [|done]. by eapply holds_keeps.
Qed.

(** ** The function *)

Lemma call_used : used (op_info INDEX_op_call) = true.
Proof. reflexivity. Qed.

Lemma func_addr_ok s h (k : nat) al s' f b al' :
  inv s → (k < nb_temps s)%nat → subset (reserved_regs s) al → func_addr s k al = Ok (s', f, b, al') →
  ∃ h', step al s h s' h' ∧ keeps s h s' h' ∧ subset al al' ∧ (b = false → tcg_regset_test_reg al' f = true) ∧
    holds_val s h k (host_arg h' f b).
Proof.
  intros HI Hk Hal Hs. unfold func_addr in Hs. set (ct := get_ct _ _) in Hs.
  assert (∀ r, tcg_regset_test_reg (ct_regs ct) r = true → 0 ≤ r) as Hct.
  { intros r Hr. apply (ct_regs_range INDEX_op_call call_used 0 r); [vm_compute; lia|done]. }
  clearbody ct. apply rbind_ok in Hs as (ts & Hts & Hs). apply get_temp_Ok in Hts as [_ Hts]. rewrite Nat2Z.id in Hts.
  assert (∀ al r, 0 ≤ r → tcg_regset_test_reg (tcg_regset_set_reg al r) r = true) as Hset.
  { intros al0 r Hr. rewrite set_reg_test by done. by rewrite bool_decide_true, orb_true_r. }
  destruct (val_type ts) eqn:Hv; [done|..].
  - apply rbind_ok in Hs as ([s1 r] & Er & [= <- <- <- <-]). destruct (tcg_regset_test_reg (ct_regs ct) (treg ts)) eqn:Et.
    + injection Er as <- <-. exists h. split_and!; [by apply step_refl|apply keeps_refl|by apply subset_set_reg, Hct|by intros _; apply Hset, Hct|].
      by apply reg_value.
    + apply rbind_ok in Er as ([s2 r2] & Ea & Er). apply rbind_ok in Er as (t & Ht & [= <- <-]).
      destruct (alloc_loads s h k _ al s2 r2 HI Hk Hal Ea) as (h1 & ST1 & K1 & Hr & _ & Hnal & HR1 & Hrt & SP & _).
      destruct (SP k ts Hts) as (t' & Ht' & (Hty & _) & Htr & _). apply get_temp_Ok in Ht as [_ Ht]. rewrite Nat2Z.id in Ht. simplify_eq.
      destruct (load_free s2 h1 al r2 (HMov (ttype t) r2 (treg t)) (conv (ttype t) (hregs h1 (treg t)))) as (ST2 & K2 & E2); try done.
      { by eapply step_grows_inv. }
      { by rewrite (step_reserved _ _ _ _ _ _ _ _ ST1). }
      eexists. split_and!; [by eapply step_trans|by eapply keeps_trans|by apply subset_set_reg|auto|]. cbn [host_arg]. rewrite E2, HR1, Htr.
      apply holds_conv; [|by apply reg_value]. rewrite Hty. apply (t_type _ _ _ _ (inv_temp _ _ HI k ts Hk Hts)).
  - apply rbind_ok in Hs as ([s1 r] & Ea & Hs). apply rbind_ok in Hs as (t & Ht & [= <- <- <- <-]).
    destruct (alloc_loads s h k _ al s1 r HI Hk Hal Ea) as (h1 & _ & _ & Hr & _ & _ & _ & _ & SP & HL).
    destruct (SP k ts Hts) as (t' & Ht' & _ & _ & _ & Hsame & _). rewrite Hsame in Ht' by congruence.
    apply get_temp_Ok in Ht as [_ Ht]. rewrite Nat2Z.id, Ht' in Ht. injection Ht as <-.
    destruct (HL (HLd (ttype ts) r (mem_reg ts) (mem_offset ts))) as (h2 & ST & K & HV); [by constructor|].
    exists h2. split_and!; [done..|by apply subset_set_reg|auto|done].
  - destruct (tcg_target_const_match (tval ts) ct).
    + injection Hs as <- <- <- <-. exists h. split_and!; [by apply step_refl|apply keeps_refl|apply subset_refl|done|].
      intros L vals HR HL. specialize (HR k ts Hk Hts HL). unfold located in HR. rewrite (not_fixed s k ts), Hv in HR by (done || congruence).
      by rewrite (t_type _ _ _ _ (inv_temp _ _ HI k ts Hk Hts)) in HR.
    + apply rbind_ok in Hs as ([s1 r] & Ea & [= <- <- <- <-]).
      destruct (alloc_loads s h k _ al s1 r HI Hk Hal Ea) as (h1 & _ & _ & Hr & _ & _ & _ & _ & SP & HL).
      destruct (SP k ts Hts) as (t' & Ht' & _ & _ & _ & Hsame & _). rewrite Hsame in Ht' by congruence.
      destruct (HL (HMovi (ttype ts) r (tval ts))) as (h2 & ST & K & HV); [by constructor|].
      exists h2. split_and!; [done..|by apply subset_set_reg|auto|done].
Qed.

End call.
