(* ===== verification/TcgCall.v ===== *)
(** * [tcg_reg_alloc_call]

    A call passes the parameters, saves what the helper may change, and leaves
    the results in their temporaries. *)

From stdpp Require Import base gmap list functions.
From S2P Require Import Prelude TcgData TcgLive TcgLiveInv TcgAlloc TcgSem TcgInv TcgSpill TcgSave TcgArgs TcgOpIn TcgOp TcgGenOp TcgGenCall.
Local Open Scope Z_scope.
Local Coercion Z.of_nat : nat >-> Z.

Lemma iarg_regs_clobbered r : r ∈ tcg_target_call_iarg_regs → clobbered r = true ∧ 0 ≤ r < TCG_TARGET_NB_REGS.
Proof.
  assert (Forall (λ r, clobbered r = true ∧ 0 ≤ r < TCG_TARGET_NB_REGS) tcg_target_call_iarg_regs) as H.
  { unfold tcg_target_call_iarg_regs. repeat (constructor; [vm_compute; split_and!; congruence|]). constructor. }
  intros Hr. exact (proj1 (Forall_forall _ _) H r (proj1 (list_elem_of_In _ _) Hr)).
Qed.

Lemma oarg_regs_clobbered r : r ∈ tcg_target_call_oarg_regs → clobbered r = true ∧ 0 ≤ r < TCG_TARGET_NB_REGS.
Proof.
  assert (Forall (λ r, clobbered r = true ∧ 0 ≤ r < TCG_TARGET_NB_REGS) tcg_target_call_oarg_regs) as H.
  { unfold tcg_target_call_oarg_regs. repeat (constructor; [vm_compute; split_and!; congruence|]). constructor. }
  intros Hr. exact (proj1 (Forall_forall _ _) H r (proj1 (list_elem_of_In _ _) Hr)).
Qed.

Lemma iarg_regs_NoDup : NoDup tcg_target_call_iarg_regs.
Proof. apply (bool_decide_unpack _). vm_compute. exact I. Qed.

Section call.
  Context (fi : frame_info) {dl : Disc fi} {M : Type} (sem : tcg_sem M) (junk : (Z → Z) → M → Z → Z) `{!SemOk fi sem}.
  Notation inv := (inv fi).
  Notation Rel := (Rel fi).
  Notation step := (step fi sem junk).
  Notation runs := (runs fi sem junk).
  Notation run := (runs FNext).
  Notation hstep := (hstep fi sem junk).
  Notation holds_val := (holds_val fi).
  Implicit Types (h : hstate M) (s : TCGContext) (al : TCGRegSet).

(** ** The instruction *)

(** The parameters that the function looks at are in their places. *)
Definition params_at (f : Z) (ps : nat → Z) h : Prop :=
  ∀ n ty, fn_sig sem f !! n = Some (Some ty) → eqv ty (host_params h n) (ps n).

Lemma call_regs regs (m : M) outs r : clobbered r = false →
  set_regs tcg_target_call_oarg_regs outs (clobber_regs junk regs m) r = regs r.
Proof.
  intros Hr. rewrite set_regs_other; [unfold clobber_regs; by rewrite Hr|]. intros [? _]%oarg_regs_clobbered. congruence.
Qed.

Lemma call_exec s h f fa b ps (c : bool) (L : nat → Prop) vals :
  inv s → Rel s L vals h → conv TCG_TYPE_I64 (host_arg h fa b) = f → params_at f ps h →
  (∀ r, clobbered r = true → rt s r = Some (-1)) →
  (if c then fn_const sem f = true else in_slots fi vals h ∧ ∀ k, L k → mem_global fi k = true → settled s k) →
  let '(outs, g, m') := call_sem sem f ps vals (hm h) in
  let i := HOp INDEX_op_call [fa] [b] in
  run s h (out s i) (hstep h i) ∧ hm (hstep h i) = m' ∧
  (∀ n r, tcg_target_call_oarg_regs !! n = Some r → hregs (hstep h i) r = outs n) ∧
  Rel (out s i) L (merge_globals fi g vals) (hstep h i).
Proof.
  intros HI HR Hf Hps Hrt Hc.
  pose proof (call_sem_eqv f (host_params h) ps (host_globals fi (hslots h)) vals (hm h) Hps) as HE.
  pose proof (call_sem_const f ps vals (hm h)) as HC1. pose proof (call_sem_const f (host_params h) (host_globals fi (hslots h)) (hm h)) as HC2.
  set (i := HOp INDEX_op_call [fa] [b]). assert (hstep h i = hcall fi sem junk h (host_arg h fa b)) as Eh by done.
  assert (hflow sem h i = FNext ∧ ∀ l, i ≠ HLabel l) as [Hfl Hnl] by done. unfold hcall in Eh. rewrite Hf in Eh. clearbody i.
  destruct (call_sem sem f ps vals (hm h)) as [[outs g] m']. destruct (call_sem sem f (host_params h) _ _) as [[outs' g'] m2]. cbn [fst snd] in *.
  destruct HE as (Ho & Hg & ->); [destruct c; [by left|right; apply Hc]|].
  assert (∀ r, clobbered r = false → set_regs tcg_target_call_oarg_regs (outs' <$> seq 0 2) (clobber_regs junk (hregs h) (hm h)) r = hregs h r) as Hreg.
  { intros r. apply call_regs. }
  assert (∀ r, tcg_regset_test_reg (reserved_regs s) r = true → clobbered r = false) as Hres.
  { intros r Hr. destruct (clobbered r) eqn:E; [|done]. apply (inv_clobber _ _ HI) in E. congruence. }
  assert (∀ r (k : nat), rt s r = Some (k : Z) → clobbered r = false) as Hheld.
  { intros r k Hk. destruct (clobbered r) eqn:E; [|done]. rewrite (Hrt r E) in Hk. injection Hk. lia. }
  split_and!.
  - rewrite <- Hfl. apply run_out; [done|done|]. intros r Hr. rewrite Eh. by apply Hreg, Hres.
  - by rewrite Eh.
  - intros n r Hr. rewrite Eh. cbn [hregs]. apply (set_regs_at _ _ _ n r); [apply (bool_decide_unpack _); vm_compute; exact I|done|].
    rewrite list_lookup_fmap, lookup_seq_lt by (apply lookup_lt_Some in Hr; exact Hr). cbn. by rewrite Ho.
  - rewrite Eh. destruct c.
    + eapply (Rel_after fi s L vals); try done; cbn; [by intros r Hr; apply Hreg, Hres|by intros r k _ Hk _; eapply Hreg, Hheld|].
      intros k ts Hk Hts HL. left. unfold merge_globals. destruct (mem_global fi k) eqn:Eg.
      * split; [by apply HC1|]. intros _. destruct (t_global _ _ _ _ (inv_temp _ _ HI k ts Hk Hts) Eg) as [_ ->].
        rewrite (set_globals_at fi s) by done. by apply HC2.
      * split; [done|]. intros Hh. by apply (set_globals_other fi s _ _ k).
    + destruct Hc as [Hin Hse]. apply (Rel_clobber fi s L vals); try done.
      * intros r Hr. by apply Hreg, Hres.
      * intros r k _ Hk _. by eapply Hreg, Hheld.
      * by apply Hg.
Qed.

(** ** Parameters *)

Lemma addi_ok (b : bool) r v s h :
  inv s →
  run s h (if b then out s (HAddi r v) else s) h ∧ ∀ L vals, Rel s L vals h → Rel (if b then out s (HAddi r v) else s) L vals h.
Proof.
  intros HI. split; [|by destruct b]. destruct b; [by apply (run_move fi sem junk s h (HAddi r v))|].
  apply (step_run fi sem junk (reserved_regs s)); [apply subset_refl|by apply step_refl].
Qed.

Lemma sig_ok_at sig l n ty :
  sig_ok fi sig l = true → sig !! n = Some (Some ty) →
  ∃ a, l !! n = Some a ∧ a ≠ TCG_CALL_DUMMY_ARG ∧ bits ty ≤ bits (fi_type fi (Z.to_nat a)).
Proof.
  revert sig n. induction l as [|a l IH]; intros [|[t|] sig] [|n] Hok Hn; try done; cbn in Hok, Hn.
  - injection Hn as ->. rewrite !andb_true_iff in Hok. destruct Hok as [[?%negb_true_iff%Z.eqb_neq ?%Z.leb_le] _]. by exists a.
  - rewrite !andb_true_iff in Hok. destruct Hok as [_ Hok]. by apply (IH sig n).
  - by apply (IH sig n).
Qed.

(** The parameters after [reg_args] and [stack_args], where [h'] agrees. *)
Lemma host_params_at s h h2 h3 h' pargs nr (al : TCGRegSet) :
  nr = Z.min 6 (length pargs) →
  (∀ (n k : nat), drop (Z.to_nat nr) pargs !! n = Some (k : Z) → (k : Z) ≠ TCG_CALL_DUMMY_ARG →
    holds_val s h k (hslots h2 (TCG_REG_CALL_STACK, TCG_TARGET_CALL_STACK_OFFSET + 8 * n))) →
  (∀ (n k : nat) r, take (Z.to_nat nr) pargs !! n = Some (k : Z) → tcg_target_call_iarg_regs !! n = Some r → (k : Z) ≠ TCG_CALL_DUMMY_ARG →
    holds_val s h k (hregs h3 r) ∧ tcg_regset_test_reg al r = true) →
  (∀ off, hslots h' (TCG_REG_CALL_STACK, off) = hslots h2 (TCG_REG_CALL_STACK, off)) →
  (∀ r, tcg_regset_test_reg al r = true → hregs h' r = hregs h3 r) →
  ∀ n k : nat, pargs !! n = Some (k : Z) → (k : Z) ≠ TCG_CALL_DUMMY_ARG → holds_val s h k (host_params h' n).
Proof.
  intros -> Hst Hrg Es Er n k Hk Hd. unfold host_params. pose proof (lookup_lt_Some _ _ _ Hk) as Hlt.
  destruct (tcg_target_call_iarg_regs !! n) as [r|] eqn:En.
  - assert (n < 6)%nat by (by apply lookup_lt_Some in En). destruct (Hrg n k r) as [HV Hal]; [|done..|].
    + rewrite lookup_take_lt by lia. done.
    + by rewrite Er.
  - assert (6 ≤ n)%nat by (by apply lookup_ge_None in En). rewrite Es. replace (Z.of_nat n - 6) with (Z.of_nat (n - 6)) by lia.
    apply Hst; [|done]. rewrite lookup_drop. replace (Z.to_nat (Z.min 6 (length pargs)) + (n - 6))%nat with n by lia. done.
Qed.

Lemma call_args_ok s h pargs (fk : nat) nr s2 s3 al3 s4 f b al4 :
  inv s → args_ok s pargs → (fk < nb_temps s)%nat → nr = Z.min 6 (length pargs) →
  stack_args s (drop (Z.to_nat nr) pargs) TCG_TARGET_CALL_STACK_OFFSET = Ok s2 →
  reg_args s2 (take (Z.to_nat nr) pargs) tcg_target_call_iarg_regs (reserved_regs s2) = Ok (s3, al3) →
  func_addr s3 fk al3 = Ok (s4, f, b, al4) →
  ∃ h4, run s h s4 h4 ∧ hm h4 = hm h ∧ keeps fi s h s4 h4 ∧ subset (reserved_regs s) al4 ∧
    (b = false → tcg_regset_test_reg al4 f = true) ∧ holds_val s h fk (host_arg h4 f b) ∧
    ∀ h', (∀ off, hslots h' (TCG_REG_CALL_STACK, off) = hslots h4 (TCG_REG_CALL_STACK, off)) →
      (∀ r, tcg_regset_test_reg al4 r = true → hregs h' r = hregs h4 r) →
      ∀ n k : nat, pargs !! n = Some (k : Z) → (k : Z) ≠ TCG_CALL_DUMMY_ARG → holds_val s h k (host_params h' n).
Proof.
  intros HI Ha Hfk Hnr E2 E3 E4.
  destruct (stack_args_ok fi sem junk s h (drop (Z.to_nat nr) pargs) TCG_TARGET_CALL_STACK_OFFSET s2 HI) as (h2 & ST2 & K2 & V2); [|done|].
  { intros a Ha' Hd. apply Ha; [|done]. rewrite <- (take_drop (Z.to_nat nr) pargs). apply elem_of_app. by right. }
  pose proof (k_run _ _ _ _ _ _ _ _ ST2) as R2. pose proof (run_inv _ _ _ _ _ _ _ _ R2) as I2. pose proof (run_nb_temps _ _ _ _ _ _ _ _ R2) as En2.
  pose proof (run_reserved _ _ _ _ _ _ _ _ R2) as Er2.
  destruct (reg_args_ok fi sem junk s2 h2 (take (Z.to_nat nr) pargs) tcg_target_call_iarg_regs (reserved_regs s2) s3 al3 I2)
    as (h3 & ST3 & K3 & Hs3 & V3); [..|done|].
  { intros a Ha' Hd. rewrite En2. apply Ha; [|done]. rewrite <- (take_drop (Z.to_nat nr) pargs). apply elem_of_app. by left. }
  { apply iarg_regs_NoDup. }
  { intros r [Hc Hr]%iarg_regs_clobbered. split; [lia|]. by apply (inv_clobber _ _ I2). }
  { apply subset_refl. }
  pose proof (step_grows_inv _ _ _ _ _ _ _ _ ST3) as I3. pose proof (step_nb_temps _ _ _ _ _ _ _ _ ST3) as En3.
  pose proof (step_reserved _ _ _ _ _ _ _ _ ST3) as Er3.
  destruct (func_addr_ok fi sem junk s3 h3 fk al3 s4 f b al4 I3) as (h4 & ST4 & K4 & Hs4 & Hb & V4); [lia|by rewrite Er3|done|].
  assert (keeps fi s h s3 h3) as K03 by (by eapply keeps_trans).
  exists h4. split_and!; [| |by eapply keeps_trans| |done|by eapply holds_keeps|].
  - eapply run_trans; [exact R2|]. eapply run_trans; [eapply step_run, ST3; apply subset_refl|]. eapply step_run, ST4. by rewrite Er3.
  - rewrite (st_m _ _ _ _ _ _ _ _ ST4), (st_m _ _ _ _ _ _ _ _ ST3). apply (k_m _ _ _ _ _ _ _ _ ST2).
  - rewrite <- Er2. by eapply subset_trans.
  - intros h' Hst Hrg n k Hk Hd. eapply (host_params_at s h h2 h3 h' pargs nr al3); try done.
    + intros n' k' r Hk' Hr Hd'. destruct (V3 n' k' r Hk' Hr Hd') as [HV ?]. split; [|done]. eapply holds_keeps; [exact K2|exact HV].
    + intros off. rewrite Hst, (st_stack _ _ _ _ _ _ _ _ ST4). apply (st_stack _ _ _ _ _ _ _ _ ST3).
    + intros r Hr. rewrite Hrg by auto. by apply (st_keep _ _ _ _ _ _ _ _ ST4).
Qed.

(** ** The whole function *)

Record call_wf (n : nat) (oargs iargs : list Z) : Prop := {
  c_few : n < 2 ^ 31;
  c_lo : length oargs < 2 ^ 15;
  c_li : length iargs < 2 ^ 16;
  c_func : ∃ pargs fk, iargs = pargs ++ [Z.of_nat fk] ∧ (fk < n)%nat ∧ fi_type fi fk = TCG_TYPE_I64;
  c_o a : a ∈ oargs → 0 ≤ a < n ∧ fi_fixed fi (Z.to_nat a) = false;
  c_i a : a ∈ iargs → a ≠ TCG_CALL_DUMMY_ARG → 0 ≤ a < n
}.

(** The parameters as [tcg_reg_alloc_call] reads them. *)
Lemma call_read oargs iargs flags rest :
  length oargs < 2 ^ 15 → length iargs < 2 ^ 16 →
  let args := op_params (TCall oargs iargs flags) ++ rest in
  ∃ hd, aref args 0 = Ok hd ∧ arg_int (hd >>. 16) = length oargs ∧ arg_int (hd .& 0xffff) = length iargs ∧
    aref args (1 + length oargs + length iargs) = Ok flags ∧ params args 1 (length oargs) = Ok oargs ∧
    params args (1 + length oargs) (length iargs) = Ok iargs.
Proof.
  intros Ho Hi args. destruct (call_head_o (length oargs) (length iargs) Ho Hi) as [EH1 EH2].
  set (hd := ((length oargs : Z) <<. 16) .| length iargs) in *. exists hd.
  assert (args = hd :: oargs ++ iargs ++ flags :: (length oargs + length iargs + 3) :: rest) as E.
  { unfold args. cbn [op_params app]. fold hd. by rewrite <- !app_assoc. }
  clearbody args. subst args. split_and!; try done.
  - rewrite (aref_at _ _ (length (hd :: oargs ++ iargs)) flags); [done|cbn [length]; rewrite length_app; lia|].
    rewrite app_assoc, app_comm_cons. apply lookup_mid.
  - by apply (params_mid _ [hd] oargs (iargs ++ flags :: (length oargs + length iargs + 3) :: rest)).
  - apply (params_mid _ (hd :: oargs) iargs (flags :: (length oargs + length iargs + 3) :: rest)); [done|cbn [length]; lia|done].
Qed.

Lemma call_func_at vals pargs (fk : nat) : call_func vals (pargs ++ [fk : Z]) = conv TCG_TYPE_I64 (vals fk).
Proof.
  unfold call_func, call_params. rewrite length_app. cbn [length]. replace (pred (length pargs + 1)) with (length pargs) by lia.
  rewrite lookup_mid. cbn. by rewrite Nat2Z.id.
Qed.

(** From the arguments to the results; [c] says that the function is const. *)
Lemma call_core s h pargs (fk : nat) nr s2 s3 al3 s4 f b al4 mask (c : bool) s5 (L : nat → Prop) vals :
  inv s → args_ok s pargs → (fk < nb_temps s)%nat → fi_type fi fk = TCG_TYPE_I64 → nr = Z.min 6 (length pargs) →
  let iargs := pargs ++ [fk : Z] in
  stack_args s (drop (Z.to_nat nr) pargs) TCG_TARGET_CALL_STACK_OFFSET = Ok s2 →
  reg_args s2 (take (Z.to_nat nr) pargs) tcg_target_call_iarg_regs (reserved_regs s2) = Ok (s3, al3) →
  func_addr s3 fk al3 = Ok (s4, f, b, al4) →
  (s <- mark_dead s4 mask 0 iargs ;; s <- free_regs s all_regs ;; if negb c then save_globals s al4 else Ok s) = Ok s5 →
  (∀ (n : nat) a, iargs !! n = Some a → IS_DEAD_IARG mask n = true → a < nb_temps s) →
  Rel s L vals h → (∀ a, a ∈ iargs → a ≠ TCG_CALL_DUMMY_ARG → L (Z.to_nat a)) → (fk : Z) ≠ TCG_CALL_DUMMY_ARG →
  (c = false → ∀ k, mem_global fi k = true → L k ∧ ¬ killed fi mask 0 iargs k) →
  (c = true → fn_const sem (call_func vals iargs) = true) → sig_ok fi (fn_sig sem (call_func vals iargs)) pargs = true →
  let '(outs, g, m') := call_sem sem (call_func vals iargs) (call_params vals iargs) vals (hm h) in
  let i := HOp INDEX_op_call [f] [b] in
  ∃ h', run s h (out s5 i) h' ∧ hm h' = m' ∧ (c = false → ∀ k, (k < nb_globals s)%nat → ready (out s5 i) k) ∧ (∀ n r, tcg_target_call_oarg_regs !! n = Some r → hregs h' r = outs n) ∧
    Rel (out s5 i) (λ k, L k ∧ ¬ killed fi mask 0 iargs k) (merge_globals fi g vals) h'.
Proof.
  intros HI Ha Hfk Hft Hnr iargs E2 E3 E4 E5 Hdead HR HLi Hfd Hgl Hc Hsig.
  destruct (call_args_ok s h pargs fk nr s2 s3 al3 s4 f b al4) as (h4 & R4 & Em4 & K4 & Hs4 & Hb & Vf & Vp); try done.
  pose proof (run_inv _ _ _ _ _ _ _ _ R4) as I4. pose proof (run_reserved _ _ _ _ _ _ _ _ R4) as Er4. pose proof (run_nb_temps _ _ _ _ _ _ _ _ R4) as En4.
  destruct (middle_ok fi sem junk true (negb c) s4 h4 mask iargs al4 s5) as (h5 & ST5 & [_ K5] & _ & CL5 & SE5); [done|by rewrite Er4|by rewrite En4|done|].
  pose proof (step_grows_inv _ _ _ _ _ _ _ _ ST5) as I5.
  assert (∀ L', (∀ k, L' k → L k ∧ ¬ killed fi mask 0 iargs k) → Rel s5 L' vals h5) as HR5.
  { intros L' HL'. apply K5; [intros k ?%HL'; tauto|]. apply K4. eapply Rel_sub; [|exact HR]. intros k ?%HL'. tauto. }
  assert (L fk) as HLf. { rewrite <- (Nat2Z.id fk). apply HLi; [|done]. apply elem_of_app. right. by left. }
  pose proof (call_exec s5 h5 (call_func vals iargs) f b (call_params vals iargs) c (λ k, L k ∧ ¬ killed fi mask 0 iargs k) vals) as HX.
  rewrite (st_m _ _ _ _ _ _ _ _ ST5), Em4 in HX. destruct (call_sem _ _ _ _ _) as [[outs g] m'].
  destruct HX as (R6 & Em6 & Hout & HR6); try done.
  - by apply HR5.
  - unfold iargs. rewrite call_func_at. specialize (Vf L vals HR HLf). rewrite Hft in Vf. unfold eqv in Vf. rewrite <- Vf.
    destruct b; [done|]. cbn. by rewrite (st_keep _ _ _ _ _ _ _ _ ST5) by auto.
  - intros n ty Hn. destruct (sig_ok_at _ _ n ty Hsig Hn) as (a & Hna & Hd & Hbits). assert (0 ≤ a) as Ha0 by (apply Ha; [by eapply list_elem_of_lookup_2|done]).
    replace a with (Z.of_nat (Z.to_nat a)) in Hna, Hd by lia.
    assert (call_params vals iargs n = vals (Z.to_nat a)) as ->.
    { unfold call_params, iargs. rewrite lookup_app_l by (by eapply lookup_lt_Some). rewrite Hna. cbn. by rewrite Nat2Z.id. }
    eapply eqv_mono; [exact Hbits|]. apply (Vp h5 (st_stack _ _ _ _ _ _ _ _ ST5) (st_keep _ _ _ _ _ _ _ _ ST5) n (Z.to_nat a) Hna Hd L vals HR).
    rewrite <- (Nat2Z.id (Z.to_nat a)). apply HLi; [|done]. apply elem_of_app. left. by eapply list_elem_of_lookup_2.
  - by apply CL5.
  - destruct c; [by apply Hc|]. pose proof (step_nb_globals _ _ _ _ _ _ _ _ ST5) as Eg5. split.
    + apply (settled_in_slots fi s5); [done| |by apply HR5; apply Hgl]. intros k Hk. apply SE5; [done|lia].
    + intros k _ Hg. apply SE5; [done|]. apply andb_true_iff in Hg as [Hg%Nat.ltb_lt _]. by rewrite (inv_globals _ _ I4).
  - eexists. split_and!; [|exact Em6| |exact Hout|exact HR6].
    2: { intros ->. intros k Hk. change (ready s5 k). pose proof (inv_temps _ _ I5). pose proof (step_nb_globals _ _ _ _ _ _ _ _ ST5) as Eg5.
      pose proof (run_nb_globals _ _ _ _ _ _ _ _ R4) as Eg4. apply (settled_ready fi); [done|lia|]. apply SE5; [done|lia]. }
    eapply run_trans; [exact R4|]. eapply run_trans; [eapply step_run, ST5; by rewrite Er4|exact R6].
Qed.

Lemma alloc_call_ok s h oargs iargs flags rest mask s' n (L : nat → Prop) vals :
  inv s → call_wf (nb_temps s) oargs iargs →
  tcg_reg_alloc_call s (op_params (TCall oargs iargs flags) ++ rest) mask = Ok (s', n) →
  Rel s L vals h → (∀ a, a ∈ iargs → a ≠ TCG_CALL_DUMMY_ARG → L (Z.to_nat a)) →
  (∀ n : nat, iargs !! n = Some TCG_CALL_DUMMY_ARG → IS_DEAD_IARG mask n = false) →
  (has_flag flags TCG_CALL_CONST = false → ∀ k, mem_global fi k = true → L k ∧ ¬ killed fi mask 0 iargs k) →
  call_ok fi sem (call_func vals iargs) iargs flags = true →
  n = length (op_params (TCall oargs iargs flags)) ∧
  let '(outs, g, m') := call_sem sem (call_func vals iargs) (call_params vals iargs) vals (hm h) in
  ∃ h', run s h s' h' ∧ hm h' = m' ∧
    (∀ k : nat, (k : Z) ∈ oargs ∨ (has_flag flags TCG_CALL_CONST = false ∧ (k < nb_globals s)%nat) → ready s' k) ∧
    Rel s' (λ k, (k : Z) ∈ oargs ∨ (L k ∧ ¬ killed fi mask 0 iargs k))
      (set_outs oargs (outs <$> seq 0 (length oargs)) (merge_globals fi g vals)) h'.
Proof.
  intros HI [Hfew Hlo Hli (pargs & fk & Eia & Hfk & Hft) Ho Hia] Hs HR HLi Hdm Hgl Hok. unfold tcg_reg_alloc_call in Hs.
  destruct (call_read oargs iargs flags rest Hlo Hli) as (hd & R1 & R2 & R3 & R4 & R5 & R6). rewrite R1 in Hs. cbn [rbind] in Hs.
  rewrite R2, R3, R4 in Hs. cbn [rbind] in Hs. rewrite R5, R6 in Hs. cbn [rbind] in Hs. clear R1 R2 R3 R4 R5 R6.
  assert (length iargs - 1 = length pargs) as Elp by (rewrite Eia, length_app; cbn; lia).
  assert (take (Z.to_nat (length iargs - 1)) iargs = pargs) as Etk by (rewrite Elp, Nat2Z.id, Eia; apply take_app_length).
  rewrite Etk in Hs. set (nr := Z.min _ _) in Hs. assert (nr = Z.min 6 (length pargs)) as Hnr by (unfold nr; rewrite Elp; done). clearbody nr.
  set (big := _ <? _) in Hs. clearbody big. set (sz := _ .& _) in Hs. clearbody sz.
  apply rbind_ok in Hs as (s2 & E2 & Hs). apply rbind_ok in Hs as ([s3 al3] & E3 & Hs). apply rbind_ok in Hs as (fa & Efa & Hs).
  apply rbind_ok in Hs as ([[[s4 f] b] al4] & E4 & Hs). apply rbind_ok in Hs as (s4a & E5a & Hs). apply rbind_ok in Hs as (s4b & E5b & Hs).
  apply rbind_ok in Hs as (s5 & E5 & Hs). apply rbind_ok in Hs as (s8 & E8 & [= <- <-]).
  assert (fa = fk) as ->.
  { apply aref_Ok in Efa as [_ Efa]. rewrite Elp, Nat2Z.id, Eia, lookup_mid in Efa. by injection Efa. }
  split. { cbn [op_params length]. rewrite !length_app. cbn [length]. change (nb_cargs (op_def INDEX_op_call)) with 2%nat. lia. }
  set (s1 := if big then _ else s) in E2. destruct (addi_ok big TCG_REG_CALL_STACK (- sz) s h HI) as [R1 HR1]. fold s1 in R1, HR1.
  pose proof (run_inv _ _ _ _ _ _ _ _ R1) as I1. pose proof (run_nb_temps _ _ _ _ _ _ _ _ R1) as En1.
  apply andb_true_iff in Hok as [[Hpure Hconst]%andb_true_iff Hsig]. subst iargs.
  assert (take (pred (length (pargs ++ [fk : Z]))) (pargs ++ [fk : Z]) = pargs) as Etk'.
  { rewrite length_app. cbn [length]. replace (pred (length pargs + 1)) with (length pargs) by lia. apply take_app_length. }
  rewrite Etk' in Hsig.
  assert ((fk : Z) ≠ TCG_CALL_DUMMY_ARG) as Hfd by (change TCG_CALL_DUMMY_ARG with (2 ^ 64 - 1); lia).
  pose proof (call_core s1 h pargs fk nr s2 s3 al3 s4 f b al4 mask (has_flag flags TCG_CALL_CONST) s5 L vals) as HX.
  cbv zeta in HX. destruct (call_sem _ _ _ _ _) as [[outs g] m']. destruct HX as (h6 & R6 & Em6 & RD6 & Hout & HR6); try done.
  - intros a Ha Hd. rewrite En1. apply Hia; [|done]. apply elem_of_app. by left.
  - by rewrite En1.
  - rewrite E5a. cbn [rbind]. rewrite E5b. cbn [rbind]. by destruct (has_flag flags TCG_CALL_CONST).
  - intros n a Hn Hb. rewrite En1. apply Hia; [by eapply list_elem_of_lookup_2|]. intros ->. rewrite Hdm in Hb by done. done.
  - by apply HR1.
  - intros E. by rewrite E in Hconst.
  - pose proof (run_inv _ _ _ _ _ _ _ _ R6) as I6. set (s6 := out s5 _) in *.
    destruct (addi_ok big TCG_REG_CALL_STACK sz s6 h6 I6) as [R7 HR7]. set (s7 := if big then _ else s6) in *. pose proof (run_inv _ _ _ _ _ _ _ _ R7) as I7.
    pose proof (run_trans _ _ _ _ _ _ _ _ _ _ (run_trans _ _ _ _ _ _ _ _ _ _ R1 R6) R7) as R17.
    destruct (call_oargs_ok fi sem junk s7 h6 oargs tcg_target_call_oarg_regs (outs <$> seq 0 (length oargs)) s8 (λ k, L k ∧ ¬ killed fi mask 0 (pargs ++ [fk : Z]) k)
      (merge_globals fi g vals)) as (ST8 & RD8 & HR8); try done.
    + intros a Ha. rewrite (run_nb_temps _ _ _ _ _ _ _ _ R17). by apply Ho.
    + intros r [Hc Hr]%oarg_regs_clobbered. split; [done|]. by apply (inv_clobber _ _ I7).
    + by rewrite length_fmap, length_seq.
    + intros n v r Hv Hr. rewrite (Hout n r Hr). apply list_lookup_fmap_Some in Hv as (n' & -> & [-> _]%lookup_seq). done.
    + by apply HR7.
    + exists h6. split_and!; [|done| |done].
      2: { intros k [?|[Hc Hk]]; apply RD8; [by left|right]. assert (temps s7 = temps s6) as Et by (unfold s7; by destruct big).
        unfold ready. rewrite Et. apply (RD6 Hc). by rewrite (run_nb_globals _ _ _ _ _ _ _ _ R1). }
      eapply run_trans; [exact R17|].
      split; [apply (st_grow _ _ _ _ _ _ _ _ ST8)|apply (st_code _ _ _ _ _ _ _ _ ST8)|done].
Qed.

End call.

(** * Live and defined temporaries

    What the sets of the liveness analysis say, operation by operation. *)

Lemma kill_lookup dead oargs (k : nat) :
  (∀ a, a ∈ oargs → 0 ≤ a) → (k : Z) ∉ oargs → kill dead oargs !! k = dead !! k.
Proof.
  unfold kill. revert dead. induction oargs as [|a oargs IH]; intros dead Hpos Hk; [done|]. apply not_elem_of_cons in Hk as [Hne Hk]. cbn.
  rewrite IH; [|intros; apply Hpos; by right|done]. apply list_lookup_insert_ne. specialize (Hpos a ltac:(by left)). lia.
Qed.

(** [use] makes temporaries live, and reports those that were dead. *)
Lemma use_live dead i iargs mask k : dead !! k = Some false → (use dead i iargs mask).1 !! k = Some false.
Proof.
  revert dead i mask. induction iargs as [|a iargs IH]; intros dead i mask Hk; [done|]. cbn. destruct (a =? TCG_CALL_DUMMY_ARG); [by apply IH|].
  apply IH. destruct (decide (Z.to_nat a = k)) as [->|].
  - apply list_lookup_insert_eq. by eapply lookup_lt_Some.
  - by rewrite list_lookup_insert_ne.
Qed.

Lemma use_inputs dead i iargs mask a :
  a ∈ iargs → a ≠ TCG_CALL_DUMMY_ARG → (Z.to_nat a < length dead)%nat → (use dead i iargs mask).1 !! Z.to_nat a = Some false.
Proof.
  revert dead i mask. induction iargs as [|b iargs IH]; intros dead i mask Ha Hd Hl; [by apply elem_of_nil in Ha|]. cbn.
  apply elem_of_cons in Ha as [->|Ha].
  - apply Z.eqb_neq in Hd as ->. apply use_live. by apply list_lookup_insert_eq.
  - destruct (b =? TCG_CALL_DUMMY_ARG); [by apply IH|]. apply IH; [done..|]. by rewrite length_insert.
Qed.

Lemma use_mask dead i iargs mask n :
  0 ≤ i → 0 ≤ n → Z.testbit (use dead i iargs mask).2 n = true →
  Z.testbit mask n = true ∨
  ∃ (j : nat) a, n = i + j ∧ iargs !! j = Some a ∧ a ≠ TCG_CALL_DUMMY_ARG ∧ is_dead dead a = true.
Proof.
  revert dead i mask. induction iargs as [|b iargs IH]; intros dead i mask Hi Hn Hb; [by left|]. cbn in Hb.
  destruct (Z.eqb_spec b TCG_CALL_DUMMY_ARG) as [->|Hd].
  - destruct (IH dead (i + 1) mask) as [?|(j & a & -> & ? & ? & ?)]; [lia|done|done|by left|]. right. exists (S j), a. split_and!; try done. lia.
  - destruct (IH (<[Z.to_nat b := false]> dead) (i + 1) (if is_dead dead b then mask .| (1 <<. i) else mask)) as [Hm|(j & a & -> & Ha & Hda & Hdd)]; [lia|done|done| |].
    + destruct (is_dead dead b) eqn:Eb; [|by left]. rewrite Z.lor_spec, Z.shiftl_1_l in Hm. apply orb_true_iff in Hm as [?|Hm]; [by left|]. right.
      exists 0%nat, b. split_and!; try done. rewrite Z.pow2_bits_eqb in Hm by done. apply Z.eqb_eq in Hm. lia.
    + right. exists (S j), a. split_and!; [lia|done|done|]. unfold is_dead in *.
      destruct (decide (Z.to_nat b = Z.to_nat a)) as [E|E]; [|by rewrite list_lookup_insert_ne in Hdd].
      destruct (decide (Z.to_nat a < length dead)%nat) as [Hl|Hl].
      * rewrite E, list_lookup_insert_eq in Hdd by done. done.
      * rewrite list_insert_ge in Hdd by lia. done.
Qed.

Section sets.
  Context (fi : frame_info) (temp_local : list bool).
  Context (Hloc : ∀ k, fi_local fi k = default false (temp_local !! k)).
  Notation live1 := (live1 (fi_nb_globals fi) temp_local).
  Notation lasting := (lasting fi).

(** Temporaries that are live and have been given a value. *)
Definition Lv (dead : list bool) (def : nat → bool) (k : nat) : Prop := dead !! k = Some false ∧ def k = true.

Definition lastingb (k : nat) : bool := (k <? fi_nb_globals fi)%nat || fi_local fi k.
Lemma lastingb_iff k : lastingb k = true ↔ lasting k.
Proof. unfold lastingb. rewrite orb_true_iff, Nat.ltb_lt. done. Qed.

Definition ends (op : TCGOpcode) : bool := has_flag (op_flags (op_def op)) TCG_OPF_BB_END || (op =? INDEX_op_set_label)%nat.

(** The temporaries with values after an operation: the end of a block loses
    those that are not local, [discard] its operand. *)
Definition defs (o : tcgop) (def : nat → bool) : nat → bool :=
  match o with
  | TNopn _ => def
  | TCall oargs _ _ => λ k, def k || bool_decide ((k : Z) ∈ oargs)
  | TOp op oargs _ _ =>
      if ends op then λ k, def k && lastingb k
      else if (op =? INDEX_op_discard)%nat then λ k, def k && ((k <? fi_nb_globals fi)%nat || bool_decide ((k : Z) ∉ oargs))
      else λ k, def k || bool_decide ((k : Z) ∈ oargs)
  end.

(** The globals in memory that may be dead for the allocator although they
    have values: [discard] makes them so, and what writes or saves them ends it. *)
Definition discs (o : tcgop) (d : nat → bool) : nat → bool :=
  match o with
  | TNopn _ => d
  | TCall oargs _ flags =>
      if has_flag flags TCG_CALL_CONST || has_flag flags TCG_CALL_PURE then λ k, d k && bool_decide ((k : Z) ∉ oargs) else λ _, false
  | TOp op oargs _ _ =>
      if ends op || clobbers op then λ _, false
      else if (op =? INDEX_op_discard)%nat then λ k, d k || bool_decide ((k : Z) ∈ oargs)
      else λ k, d k && bool_decide ((k : Z) ∉ oargs)
  end.

Lemma discs_op op oargs iargs cargs d k :
  ends op = false → clobbers op = false → (op =? INDEX_op_discard)%nat = false →
  discs (TOp op oargs iargs cargs) d k = d k && bool_decide ((k : Z) ∉ oargs).
Proof. intros E1 E2 E3. cbn [discs]. by rewrite E1, E2, E3. Qed.

(** Globals always have values. *)
Definition globals_def (def : nat → bool) : Prop := ∀ k, (k < fi_nb_globals fi)%nat → def k = true.

Lemma defs_globals o def : globals_def def → globals_def (defs o def).
Proof.
  intros Hd k Hk. specialize (Hd k Hk). destruct o as [op oargs iargs cargs|oargs iargs flags|l]; cbn [defs]; [|by rewrite Hd|done].
  destruct (ends op); [rewrite Hd; unfold lastingb; by apply Nat.ltb_lt in Hk as ->|].
  destruct (op =? _)%nat; [rewrite Hd; by apply Nat.ltb_lt in Hk as ->|by rewrite Hd].
Qed.

Lemma bb_end_lookup dead k : (k < length dead)%nat → lasting k → tcg_la_bb_end (fi_nb_globals fi) temp_local dead !! k = Some false.
Proof.
  intros [b Hb]%lookup_lt_is_Some_2 HL. unfold tcg_la_bb_end. rewrite list_lookup_imap, Hb. cbn [fmap option_fmap option_map]. destruct HL as [HL|HL].
  - by apply Nat.ltb_lt in HL as ->.
  - rewrite Hloc in HL. rewrite HL. by destruct (k <? _)%nat.
Qed.

Lemma globals_live_lookup dead k : dead !! k = Some false → la_globals_live (fi_nb_globals fi) dead !! k = Some false.
Proof. intros Hk. unfold la_globals_live. rewrite list_lookup_imap, Hk. cbn [fmap option_fmap option_map]. by destruct (k <? _)%nat. Qed.

Lemma globals_live_global dead k : (k < length dead)%nat → (k < fi_nb_globals fi)%nat → la_globals_live (fi_nb_globals fi) dead !! k = Some false.
Proof. intros [b Hb]%lookup_lt_is_Some_2 Hg. unfold la_globals_live. rewrite list_lookup_imap, Hb. cbn [fmap option_fmap option_map]. by apply Nat.ltb_lt in Hg as ->. Qed.

(** ** An operation that is kept *)

(** The analysis of an operation with its parts: [clobber] acts between the
    outputs and the inputs. *)
Record kept (oargs iargs : list Z) (clobber : list bool → list bool) (dead dead' : list bool) (mask : Z) : Prop := {
  kp_pos a : a ∈ oargs → 0 ≤ a;
  kp_range a : a ∈ iargs → a ≠ TCG_CALL_DUMMY_ARG → 0 ≤ a < length dead;
  kp_len : length (clobber (kill dead oargs)) = length dead;
  kp_keep : keep dead oargs iargs clobber = (dead', mask)
}.

Section kept.
  Context (oargs iargs : list Z) (clobber : list bool → list bool) (dead dead' : list bool) (mask : Z).
  Context (K : kept oargs iargs clobber dead dead' mask).

Lemma kept_dead' : dead' = (use (clobber (kill dead oargs)) 0 iargs 0).1.
Proof. pose proof (kp_keep _ _ _ _ _ _ K) as E. unfold keep in E. by rewrite E. Qed.

Lemma kept_inputs a : a ∈ iargs → a ≠ TCG_CALL_DUMMY_ARG → dead' !! Z.to_nat a = Some false.
Proof.
  intros Ha Hd. rewrite kept_dead'. apply use_inputs; [done..|]. rewrite (kp_len _ _ _ _ _ _ K). pose proof (kp_range _ _ _ _ _ _ K a Ha Hd). lia.
Qed.

Lemma kept_live k : clobber (kill dead oargs) !! k = Some false → dead' !! k = Some false.
Proof. intros Hk. rewrite kept_dead'. by apply use_live. Qed.

Lemma kept_mask (n : nat) :
  IS_DEAD_IARG (u16 mask) n = true → ∃ a, iargs !! n = Some a ∧ a ≠ TCG_CALL_DUMMY_ARG ∧ is_dead (clobber (kill dead oargs)) a = true.
Proof.
  unfold IS_DEAD_IARG, wrap. intros Hb. destruct (Z.lt_ge_cases n 16); [|by rewrite Z.mod_pow2_bits_high in Hb by lia].
  rewrite Z.mod_pow2_bits_low in Hb by lia. pose proof (kp_keep _ _ _ _ _ _ K) as E. unfold keep in E.
  assert (mask = (use (clobber (kill dead oargs)) 0 iargs 0).2) as Em by (by rewrite E). rewrite Em in Hb.
  destruct (use_mask (clobber (kill dead oargs)) 0 iargs 0 n ltac:(lia) ltac:(lia) Hb) as [Hz|(j & a & Ej & ? & ? & ?)]; [by rewrite Z.testbit_0_l in Hz|].
  assert (j = n) as -> by lia. by exists a.
Qed.

Lemma kept_killed k : killed fi (u16 mask) 0 iargs k → clobber (kill dead oargs) !! k = Some true.
Proof.
  intros (n & Hn & Hb & _). destruct (kept_mask n Hb) as (a & Ha & Hd & Hdead). rewrite Hn in Ha. injection Ha as <-.
  unfold is_dead in Hdead. rewrite Nat2Z.id in Hdead. by destruct (clobber _ !! k) as [[]|].
Qed.

(** A temporary that is live after and is no output is live before, and not
    marked dead, if [clobber] only makes temporaries live. *)
Lemma kept_after def k :
  (∀ d j, d !! j = Some false → clobber d !! j = Some false) →
  Lv dead (λ k, def k || bool_decide ((k : Z) ∈ oargs)) k → (k : Z) ∈ oargs ∨ (Lv dead' def k ∧ ¬ killed fi (u16 mask) 0 iargs k).
Proof.
  intros Hc [Hk Hd]. destruct (decide ((k : Z) ∈ oargs)) as [?|Hno]; [by left|right].
  rewrite (bool_decide_false (_ ∈ _)), orb_false_r in Hd by done.
  assert (clobber (kill dead oargs) !! k = Some false) as E by (apply Hc; rewrite kill_lookup; [done|apply (kp_pos _ _ _ _ _ _ K)|done]).
  split; [split; [by apply kept_live|done]|]. intros Hkl%kept_killed. congruence.
Qed.

End kept.
End sets.
