(* ===== verification/TcgSim.v ===== *)
(** * Each operation is simulated by its code *)

From stdpp Require Import base gmap list functions.
From S2P Require Import Prelude TcgData TcgLive TcgLiveInv TcgAlloc TcgSem TcgInv TcgSpill TcgSave TcgArgs TcgOpIn TcgOp TcgGenOp TcgGenCall TcgCall.
Local Open Scope Z_scope.
Local Coercion Z.of_nat : nat >-> Z.

(** ** The cases of [gen_op] *)

Definition is_plain (op : TCGOpcode) : bool := is_nop op || (op =? INDEX_op_debug_insn_start)%nat.

(** Operations that [tcg_reg_alloc_op] handles. *)
Definition is_general (op : TCGOpcode) : bool :=
  negb (is_plain op) && negb (is_mov op) && negb (is_movi op) && negb (op =? INDEX_op_nopn)%nat &&
  negb (op =? INDEX_op_discard)%nat && negb (op =? INDEX_op_set_label)%nat && negb (op =? INDEX_op_call)%nat.

Lemma gen_op_general s op args m :
  is_general op = true →
  gen_op s op args m = (m <- deref m ;; s <- tcg_reg_alloc_op s op args m ;; Ok (s, nb_args (op_def op) : Z)).
Proof.
  unfold is_general, is_plain, is_nop, is_mov, is_movi. rewrite !andb_true_iff, !negb_true_iff, !orb_false_iff. intros H.
  unfold gen_op. by repeat match goal with H : _ ∧ _ |- _ => destruct H end; repeat match goal with H : (_ =? _)%nat = false |- _ => rewrite H; clear H end.
Qed.

Lemma gen_op_mov s op args m :
  is_mov op = true → gen_op s op args m = (m <- deref m ;; s <- tcg_reg_alloc_mov s op args m ;; Ok (s, nb_args (op_def op) : Z)).
Proof. unfold is_mov, gen_op. by intros ->. Qed.

Lemma gen_op_movi s op args m :
  is_movi op = true → gen_op s op args m = (s <- tcg_reg_alloc_movi s args ;; Ok (s, nb_args (op_def op) : Z)).
Proof.
  intros H. assert (is_mov op = false) as E. { unfold is_movi in H. apply orb_true_iff in H as [H%Nat.eqb_eq|H%Nat.eqb_eq]; rewrite H; reflexivity. }
  unfold is_mov, is_movi, gen_op in *. by rewrite E, H.
Qed.

Lemma gen_op_plain s op args m : is_plain op = true → gen_op s op args m = Ok (s, nb_args (op_def op) : Z).
Proof.
  unfold is_plain, is_nop. rewrite !orb_true_iff, !Nat.eqb_eq. intros H.
  repeat match goal with H : _ ∨ _ |- _ => destruct H as [H|H] end; rewrite H; reflexivity.
Qed.

Lemma gen_op_nopn s args m : gen_op s INDEX_op_nopn args m = (k <- aref args 0 ;; Ok (s, k)).
Proof. reflexivity. Qed.
Lemma gen_op_call s args m : gen_op s INDEX_op_call args m = (m <- deref m ;; tcg_reg_alloc_call s args m).
Proof. reflexivity. Qed.
Lemma gen_op_label s args m :
  gen_op s INDEX_op_set_label args m =
  (s <- tcg_reg_alloc_bb_end s (reserved_regs s) ;; l <- aref args 0 ;; s <- tcg_out_label s l ;; Ok (s, nb_args (op_def INDEX_op_set_label) : Z)).
Proof. reflexivity. Qed.
Lemma gen_op_discard s args m :
  gen_op s INDEX_op_discard args m =
  (t <- aref args 0 ;; ts <- get_temp s t ;;
   Ok (if fixed_reg ts then s else set_temp (drop_reg s ts) t (λ ts, ts <| val_type := TEMP_VAL_DEAD |>), nb_args (op_def INDEX_op_discard) : Z)).
Proof. reflexivity. Qed.

Section sim.
  Context (fi : frame_info) (temp_local : list bool).
  Context (Hloc : ∀ k, fi_local fi k = default false (temp_local !! k)) (Hfew : length temp_local < 2 ^ 31).
  Context {M : Type} (sem : tcg_sem M) (junk : (Z → Z) → M → Z → Z) `{!SemOk fi sem}.
  Notation inv := (inv fi).
  Notation runs := (runs fi sem junk).
  Notation run := (runs FNext).
  Notation hrun := (hrun fi sem junk).
  Notation hgo := (hgo fi sem junk).
  Notation live1 := (live1 (fi_nb_globals fi) temp_local).
  Notation wf_op := (wf_op temp_local).
  Notation defs := (defs fi).
  Notation lasting := (lasting fi).
  Implicit Types (h : hstate M) (s : TCGContext) (d def : nat → bool).

(** The globals of [d] may be dead. *)
Definition mkDisc d : Disc fi := {| disc k := d k = true ∧ mem_global fi k = true; disc_global k := @proj2 _ _ |}.
Notation Rel d := (@Rel fi M (mkDisc d)).

Lemma Rel_disc d d' s (L : nat → Prop) vals h :
  Rel d s L vals h → (∀ k, L k → d k = true → mem_global fi k = true → d' k = true ∨ ready s k) → Rel d' s L vals h.
Proof.
  intros HR Hd k ts Hk Hts HL. specialize (HR k ts Hk Hts HL). unfold located in *. destruct (fixed_reg ts); [done|].
  destruct (val_type ts) eqn:Hv; [|done..]. destruct HR as [[Hdk Hg] ?]. split; [|done]. split; [|done].
  destruct (Hd k HL Hdk Hg) as [?|Hr]; [done|]. by destruct (Hr ts Hts).
Qed.

(** What the programs that are translated satisfy, beyond [wf_op]: inputs have
    values and are not discarded, the registers that hold globals are not
    written, the types suit. *)
Definition op_good (def d : nat → bool) (o : tcgop) : Prop :=
  match o with
  | TNopn _ => True
  | TOp op oargs iargs cargs =>
      (∀ a, a ∈ iargs → def (Z.to_nat a) = true ∧ d (Z.to_nat a) = false) ∧ (∀ a, a ∈ oargs → fi_fixed fi (Z.to_nat a) = false) ∧
      (is_mov op = true → ∀ a b, a ∈ oargs → b ∈ iargs → a ≠ b ∧ bits (fi_type fi (Z.to_nat a)) ≤ bits (fi_type fi (Z.to_nat b))) ∧
      (is_general op = true → used (op_info op) = true ∧ NoDup (Z.to_nat <$> oargs) ∧ typed fi sem op iargs)
  | TCall oargs iargs flags =>
      (∀ a, a ∈ iargs → a ≠ TCG_CALL_DUMMY_ARG → def (Z.to_nat a) = true ∧ d (Z.to_nat a) = false) ∧
      (∀ a, a ∈ oargs → fi_fixed fi (Z.to_nat a) = false) ∧
      ∃ pargs fk, iargs = pargs ++ [Z.of_nat fk] ∧ (fk < length temp_local)%nat ∧ fi_type fi fk = TCG_TYPE_I64
  end.

Definition label_of (o : tcgop) : list hinsn :=
  match o with TOp op _ _ (l :: _) => if (op =? INDEX_op_set_label)%nat then [HLabel l] else [] | _ => [] end.

(** The code of an operation leads from [h] to [h']; [fl] is where control goes. *)
Record advance (o : tcgop) (fl : flow) s h s' h' : Prop := {
  a_grow : grow fi s s';
  a_code : ∃ c, code s' = code s ++ c ++ label_of o ∧ h' = hrun c h ∧ hgo c h fl;
  a_res r : tcg_regset_test_reg (reserved_regs s) r = true → hregs h' r = hregs h r
}.

Lemma runs_advance o fl s h s' h' : label_of o = [] → runs fl s h s' h' → advance o fl s h s' h'.
Proof. intros E [G (c & Ec & R & O) K]. split; [done| |done]. exists c. by rewrite E, app_nil_r. Qed.

(** From [vals] and [h], the code between [s] and [s'] does what the operation does. *)
Definition simulates (o : tcgop) (L : nat → Prop) d s s' vals h : Prop :=
  ∃ v, ∀ st', tcg_step fi sem v o (vals, hm h) = Some st' →
    ∃ h', advance o (tcg_flow sem o (vals, hm h)) s h s' h' ∧ hm h' = st'.2 ∧ Rel d s' L st'.1 h'.

Lemma simulates_sub o (L L' : nat → Prop) d s s' vals h :
  (∀ k, (k < nb_temps s)%nat → L' k → L k) → simulates o L d s s' vals h → simulates o L' d s s' vals h.
Proof.
  intros HL [v HS]. exists v. intros st' Hst. destruct (HS st' Hst) as (h' & A & Em & HR). exists h'. split_and!; [done..|].
  intros k ts Hk Hts Hl. apply HR; [done..|]. apply HL; [|done]. by rewrite <- (sc_temps _ _ (g_ctx _ _ _ (a_grow _ _ _ _ _ _ A))).
Qed.

(** Operations that go on to the next one. *)
Lemma sim_next o (L : nat → Prop) d s s' vals h v :
  (∀ st, tcg_flow sem o st = FNext) → label_of o = [] →
  (∀ st', tcg_step fi sem v o (vals, hm h) = Some st' → ∃ h', run s h s' h' ∧ hm h' = st'.2 ∧ Rel d s' L st'.1 h') →
  simulates o L d s s' vals h.
Proof.
  intros Hfl Hl HS. exists v. intros st' Hst. destruct (HS st' Hst) as (h' & R & Em & HR). exists h'. rewrite Hfl.
  split_and!; [by apply runs_advance|done..].
Qed.

Lemma flow_next op oargs iargs cargs st :
  has_flag (op_flags (op_def op)) TCG_OPF_BB_END = false → steers op = false → tcg_flow sem (TOp op oargs iargs cargs) st = FNext.
Proof. apply op_flow_next. Qed.

Lemma label_none op oargs iargs cargs : op ≠ INDEX_op_set_label → label_of (TOp op oargs iargs cargs) = [].
Proof. intros N%Nat.eqb_neq. cbn [label_of]. rewrite N. by destruct cargs. Qed.

Lemma run_refl s h : inv s → run s h s h.
Proof. intros HI. eapply step_run; [apply subset_refl|by apply (step_refl fi sem junk (reserved_regs s))]. Qed.

Lemma args_range l : Forall (temp_arg temp_local) l → ∀ a, a ∈ l → 0 ≤ a < length temp_local.
Proof. intros HF a Ha. exact (proj1 (Forall_forall _ _) HF a (proj1 (list_elem_of_In _ _) Ha)). Qed.

(** ** Removed operations *)

Lemma forallb_dead dead oargs : forallb (is_dead dead) oargs = true → ∀ a, a ∈ oargs → dead !! Z.to_nat a = Some true.
Proof.
  intros Hf a Ha. rewrite List.forallb_forall in Hf. specialize (Hf a (proj1 (list_elem_of_In _ _) Ha)). unfold is_dead in Hf.
  by destruct (dead !! Z.to_nat a) as [[]|].
Qed.

Lemma removed_step o def dead v (vals vals' : nat → Z) m m' :
  wf_op o → removable o = true → (∀ op oargs iargs cargs, o = TOp op oargs iargs cargs → ends op = false ∧ (op =? INDEX_op_discard)%nat = false) →
  forallb (is_dead dead) (op_oargs o) = true → tcg_step fi sem v o (vals, m) = Some (vals', m') →
  m' = m ∧ ∀ k, Lv dead (defs o def) k → vals' k = vals k ∧ Lv dead def k.
Proof.
  intros Hwf Hrm Hnd Hdead Hst.
  assert (∀ k : nat, dead !! k = Some false → ∀ a, a ∈ op_oargs o → Z.to_nat a ≠ k) as Hno.
  { intros k Hk a Ha E. rewrite <- E, (forallb_dead _ _ Hdead a Ha) in Hk. done. }
  assert (∀ k : nat, dead !! k = Some false → (k : Z) ∉ op_oargs o) as Hno'.
  { intros k Hk Hin. apply (Hno k Hk k Hin). apply Nat2Z.id. }
  destruct o as [op oargs iargs cargs|oargs iargs flags|l]; [| |done]; cbn [op_oargs] in *.
  - cbn [removable] in Hrm. apply andb_true_iff in Hrm as [Hse%negb_true_iff _]. destruct Hwf as (Hop & _).
    destruct (Hnd op oargs iargs cargs eq_refl) as [Hend Hdi]. destruct (side_effects op Hop Hse) as [_ Hcl].
    assert (∀ outs (k : nat), dead !! k = Some false → set_outs oargs outs vals k = vals k) as Hset.
    { intros outs k Hk. apply set_outs_other. by apply Hno. }
    assert (m' = m ∧ ∀ k : nat, dead !! k = Some false → vals' k = vals k) as [-> Hv].
    { cbn [tcg_step] in Hst. rewrite Hdi in Hst. destruct (is_nop op || _ || _); [by injection Hst as <- <-|].
      destruct (is_mov op); [injection Hst as <- <-; auto|]. destruct (is_movi op); [injection Hst as <- <-; auto|].
      pose proof (op_sem_mem op cargs (arg_vals vals iargs) (seen_globals op vals) m Hse) as Hm.
      destruct (op_sem _ _ _ _ _ _) as [[outs g] m2]. cbn [snd] in Hm. subst m2. rewrite Hcl in Hst. injection Hst as <- <-. auto. }
    split; [done|]. cbn [TcgCall.defs]. rewrite Hend, Hdi. intros k [Hk Hd]. split; [auto|]. split; [done|].
    by rewrite (bool_decide_false (_ ∈ _)), orb_false_r in Hd by auto.
  - cbn [removable] in Hrm. cbn [tcg_step] in Hst. destruct (call_ok _ _ _ _ _) eqn:Hok; [|done].
    apply andb_true_iff in Hok as [[Hp _]%andb_true_iff _]. rewrite Hrm in Hp. cbn [implb] in Hp.
    destruct (call_sem_pure _ (call_params vals iargs) vals m Hp) as [Hm Hg].
    destruct (call_sem _ _ _ _ _) as [[outs g] m2]. cbn [fst snd] in *. subst m2. injection Hst as <- <-. split; [done|].
    intros k [Hk Hd]. cbn [TcgCall.defs] in Hd. rewrite (bool_decide_false (_ ∈ _)), orb_false_r in Hd by auto. split; [|done].
    rewrite set_outs_other by (by apply Hno). unfold merge_globals. destruct (mem_global fi k) eqn:Eg; [by apply Hg|done].
Qed.

Lemma removed_gen s o rest mask s' n :
  gen_op s (op_opc (removed o)) (op_params (removed o) ++ rest) mask = Ok (s', n) → s' = s ∧ n = length (op_params (removed o)).
Proof.
  unfold removed. destruct (length (op_params o)) as [|m] eqn:El; cbn [op_opc op_params].
  - rewrite gen_op_plain by done. intros [= <- <-]. done.
  - rewrite gen_op_nopn. intros Hs. apply rbind_ok in Hs as (k & Ek & [= <- <-]). split; [done|]. rewrite !length_insert, El.
    apply aref_Ok in Ek as [_ Ek]. change (Z.to_nat 0) with 0%nat in Ek. rewrite lookup_app_l in Ek by (rewrite !length_insert; lia).
    destruct m as [|m].
    + rewrite list_lookup_insert_eq in Ek by (rewrite length_insert; lia). by injection Ek as <-.
    + rewrite list_lookup_insert_ne, list_lookup_insert_eq in Ek by lia. by injection Ek as <-.
Qed.

Lemma steers_outs op : negb (nb_oargs (op_def op) =? 0)%nat = true → steers op = false.
Proof.
  intros H. destruct (steers op) eqn:E; [|done].
  by apply orb_true_iff in E as [->%Nat.eqb_eq| ->%Nat.eqb_eq].
Qed.

Lemma sim_removed o def d dead s vals h :
  inv s → wf_op o → removable o = true →
  (∀ op oargs iargs cargs, o = TOp op oargs iargs cargs → ends op = false ∧ (op =? INDEX_op_discard)%nat = false) →
  forallb (is_dead dead) (op_oargs o) = true → Rel d s (Lv dead def) vals h → simulates o (Lv dead (defs o def)) (discs o d) s s vals h.
Proof.
  intros HI Hwf Hrm Hnd Hdead HR.
  assert (∀ k : nat, dead !! k = Some false → (k : Z) ∉ op_oargs o) as Hno.
  { intros k Hk Hin. pose proof (forallb_dead _ _ Hdead k Hin) as E. rewrite Nat2Z.id in E. congruence. }
  assert ((∀ st, tcg_flow sem o st = FNext) ∧ label_of o = [] ∧ ∀ k, dead !! k = Some false → d k = true → discs o d k = true) as (Hfl & Hlb & Hds).
  { destruct o as [op oargs iargs cargs|oargs iargs flags|l]; [| |done].
    - destruct (Hnd op oargs iargs cargs eq_refl) as [Hend Hdi]. pose proof Hend as [Hbb Hsl%Nat.eqb_neq]%orb_false_iff.
      cbn [removable] in Hrm. apply andb_true_iff in Hrm as [Hse%negb_true_iff Hno']. destruct (side_effects op (proj1 Hwf) Hse) as [_ Hcl].
      split_and!; [by intros st; apply flow_next; [|apply steers_outs]|by apply label_none|]. intros k Hk Hd. rewrite discs_op, Hd by done.
      rewrite bool_decide_true; [done|by apply Hno].
    - cbn [removable] in Hrm. split_and!; [done..|]. intros k Hk Hd. cbn [discs]. rewrite Hrm, orb_true_r. cbv beta. rewrite Hd.
      rewrite bool_decide_true; [done|by apply Hno]. }
  apply (sim_next _ _ _ _ _ _ _ 0); [done..|]. intros [vals' m'] Hst. destruct (removed_step o def dead 0 vals vals' (hm h) m') as [-> Hv]; try done.
  exists h. split_and!; [by apply run_refl|done|]. eapply (Rel_disc d).
  - eapply Rel_ext; [|exact HR]. intros k Hk. destruct (Hv k Hk). done.
  - intros k [Hk _] Hd _. left. by apply Hds.
Qed.

(** ** General operations *)

Lemma general_step v op oargs iargs cargs (vals : nat → Z) m :
  is_general op = true →
  tcg_step fi sem v (TOp op oargs iargs cargs) (vals, m) =
  let '(outs, g, m') := op_sem sem op cargs (arg_vals vals iargs) (seen_globals op vals) m in
  Some (set_outs oargs outs (if clobbers op then merge_globals fi g vals else vals), m').
Proof.
  unfold is_general, is_plain. rewrite !andb_true_iff, !negb_true_iff. intros [[[[[[Hp Hm] Hi] _] Hd] Hl] _]. cbn [tcg_step].
  by rewrite Hp, Hl, Hm, Hi, Hd.
Qed.

Lemma general_wf def d op oargs iargs cargs (n : nat) :
  is_general op = true → n = length temp_local → wf_op (TOp op oargs iargs cargs) → op_good def d (TOp op oargs iargs cargs) →
  op_wf fi sem op oargs iargs cargs n.
Proof.
  intros Hge -> (_ & Hc & _ & _ & Hlo & Hli & Hlc & Fo & Fi) (Hdi & Hfo & _ & Hg). destruct (Hg Hge) as (Hu & Hnd & Hty).
  split; try done; [|by apply args_range]. intros a Ha. split; [by apply (args_range oargs)|by apply Hfo].
Qed.

Lemma general_not op : is_general op = true → (op =? INDEX_op_discard)%nat = false ∧ op ≠ INDEX_op_set_label.
Proof. unfold is_general. rewrite !andb_true_iff, !negb_true_iff. intros [[[_ ?] ?%Nat.eqb_neq] _]. done. Qed.

Lemma no_dummy l a : Forall (temp_arg temp_local) l → a ∈ l → a ≠ TCG_CALL_DUMMY_ARG.
Proof. intros F Ha. pose proof (args_range l F a Ha). change TCG_CALL_DUMMY_ARG with (2 ^ 64 - 1). lia. Qed.

Lemma inputs_live def d op oargs iargs cargs dead dead' mask a :
  wf_op (TOp op oargs iargs cargs) → op_good def d (TOp op oargs iargs cargs) →
  kept oargs iargs (op_clobber (fi_nb_globals fi) temp_local op) dead dead' mask → a ∈ iargs → Lv dead' def (Z.to_nat a).
Proof.
  intros Hwf Hg K Ha. split; [|by apply (proj1 Hg)]. eapply kept_inputs; [exact K|done|].
  destruct Hwf as (_ & _ & _ & _ & _ & _ & _ & _ & Fi). by eapply no_dummy.
Qed.

Lemma sim_general def d op oargs iargs cargs rest dead dead' mask s s' vals h :
  inv s → nb_temps s = length temp_local → is_general op = true → has_flag (op_flags (op_def op)) TCG_OPF_BB_END = false → falls sem op →
  wf_op (TOp op oargs iargs cargs) → op_good def d (TOp op oargs iargs cargs) → globals_def fi def →
  kept oargs iargs (op_clobber (fi_nb_globals fi) temp_local op) dead dead' mask → length dead = length temp_local →
  tcg_reg_alloc_op s op (oargs ++ iargs ++ cargs ++ rest) (u16 mask) = Ok s' → Rel d s (Lv dead' def) vals h →
  simulates (TOp op oargs iargs cargs) (Lv dead (defs (TOp op oargs iargs cargs) def)) (discs (TOp op oargs iargs cargs) d) s s' vals h.
Proof.
  intros HI Hn Hge Hbb Hfl Hwf Hg Hgd K Hlen Hs HR. pose proof (general_wf def d op oargs iargs cargs _ Hge Hn Hwf Hg) as W.
  destruct (general_not op Hge) as [Hdi Hsl]. assert (ends op = false) as Hend by (unfold ends; by rewrite Hbb; apply Nat.eqb_neq).
  pose proof (alloc_op_ok fi sem junk op oargs iargs cargs rest (u16 mask) s h s' (Lv dead' def) vals HI W Hbb Hfl Hs HR) as HX.
  apply (sim_next _ _ _ _ _ _ _ 0); [by intros st; apply Hfl|by apply label_none|].
  intros st'. rewrite general_step by done. destruct (op_sem _ _ _ _ _ _) as [[outs g] m']. intros [= <-].
  destruct HX as (h' & R & Em & Hrd & HR').
  - intros a Ha. by eapply inputs_live.
  - intros Hcl k Hgl. apply andb_true_iff in Hgl as [Hgl%Nat.ltb_lt _].
    assert (k < length dead)%nat as Hkl. { pose proof (inv_temps _ _ HI). rewrite (inv_globals _ _ HI) in *. lia. }
    assert (op_clobber (fi_nb_globals fi) temp_local op (kill dead oargs) !! k = Some false) as E.
    { unfold op_clobber. rewrite Hbb. unfold clobbers in Hcl. rewrite Hcl. apply globals_live_global; [by rewrite kill_length|done]. }
    split; [split; [by eapply kept_live|by apply Hgd]|]. intros Hk. apply (kept_killed fi _ _ _ _ _ _ K) in Hk. congruence.
  - exists h'. split_and!; [done..|]. cbn [fst]. eapply (Rel_disc d); [eapply Rel_sub; [|exact HR']|].
    + intros k. cbn [TcgCall.defs]. rewrite Hend, Hdi.
      eapply (kept_after fi); [done|]. intros dd j Hj. unfold op_clobber. rewrite Hbb. destruct (has_flag _ TCG_OPF_CALL_CLOBBER); [by apply globals_live_lookup|done].
    + intros k _ Hd Hgl. apply andb_true_iff in Hgl as [Hgl%Nat.ltb_lt _]. rewrite <- (inv_globals _ _ HI) in Hgl. destruct (clobbers op) eqn:Hcl; [right; apply Hrd; by right|].
      rewrite discs_op, Hd by done. destruct (decide ((k : Z) ∈ oargs)) as [Ho|Ho]; [right; apply Hrd; by left|left]. by rewrite bool_decide_true.
Qed.

(** At the end of a block the values of all that lasts are in memory. *)
Lemma sim_end def d op oargs iargs cargs rest dead dead' mask s s' vals h :
  inv s → nb_temps s = length temp_local → is_general op = true → has_flag (op_flags (op_def op)) TCG_OPF_BB_END = true →
  wf_op (TOp op oargs iargs cargs) → op_good def d (TOp op oargs iargs cargs) →
  kept oargs iargs (op_clobber (fi_nb_globals fi) temp_local op) dead dead' mask → length dead = length temp_local →
  tcg_reg_alloc_op s op (oargs ++ iargs ++ cargs ++ rest) (u16 mask) = Ok s' → Rel d s (Lv dead' def) vals h →
  simulates (TOp op oargs iargs cargs) (λ k, (k < nb_temps s)%nat ∧ defs (TOp op oargs iargs cargs) def k = true)
    (discs (TOp op oargs iargs cargs) d) s s' vals h ∧
  ∀ k, (k < nb_temps s)%nat → lasting k → settled s' k.
Proof.
  intros HI Hn Hge Hbb Hwf Hg K Hlen Hs HR. pose proof (general_wf def d op oargs iargs cargs _ Hge Hn Hwf Hg) as W.
  pose proof (alloc_op_end_ok fi sem junk op oargs iargs cargs rest (u16 mask) s h s' (Lv dead' def) vals HI W Hbb Hs HR) as HX.
  destruct (bb_end_flags op (w_used _ _ _ _ _ _ _ W) Hbb) as (Hno & Hcl & _).
  unfold simulates. setoid_rewrite general_step; [|done]. rewrite Hcl. destruct (op_sem _ _ _ _ _ _) as [[outs g] m'].
  destruct HX as (h' & R & Em & HR' & Hse).
  - intros a Ha. by eapply inputs_live.
  - split; [|done]. exists 0. intros st' [= <-]. exists h'.
    split_and!; [apply runs_advance; [apply label_none, (general_not op Hge)|done]|done|]. cbn [fst]. eapply (Rel_disc d); [eapply Rel_sub; [|exact HR']|].
    + intros k. cbn [TcgCall.defs]. assert (ends op = true) as -> by (unfold ends; by rewrite Hbb).
      intros [Hk [Hd Hl%lastingb_iff]%andb_true_iff]. split; [|done]. split; [|done]. eapply kept_live; [exact K|]. unfold op_clobber. rewrite Hbb.
      apply bb_end_lookup; [done| |done]. rewrite kill_length. lia.
    + intros k [Hk _] _ Hgl. right. apply andb_true_iff in Hgl as [Hgl%Nat.ltb_lt _].
      apply (settled_ready fi); [by eapply run_inv|by rewrite (run_nb_temps _ _ _ _ _ _ _ _ R)|]. apply Hse; [done|by left].
Qed.

(** ** Moves and constants *)

(** Operations that only write their outputs. *)
Definition simple (op : TCGOpcode) : Prop :=
  ends op = false ∧ steers op = false ∧ clobbers op = false ∧ (op =? INDEX_op_discard)%nat = false ∧
  is_nop op || (op =? INDEX_op_debug_insn_start)%nat || (op =? INDEX_op_set_label)%nat = false.

Lemma mov_shape op : is_mov op = true → nb_oargs (op_def op) = 1%nat ∧ nb_iargs (op_def op) = 1%nat ∧ nb_cargs (op_def op) = 0%nat ∧ simple op.
Proof. unfold is_mov. intros [H%Nat.eqb_eq|H%Nat.eqb_eq]%orb_true_iff; rewrite H; vm_compute; split_and!; reflexivity. Qed.

Lemma movi_shape op : is_movi op = true →
  nb_oargs (op_def op) = 1%nat ∧ nb_iargs (op_def op) = 0%nat ∧ nb_cargs (op_def op) = 1%nat ∧ is_mov op = false ∧ simple op.
Proof. unfold is_movi. intros [H%Nat.eqb_eq|H%Nat.eqb_eq]%orb_true_iff; rewrite H; vm_compute; split_and!; reflexivity. Qed.

(** Their one output is ready and has its value. *)
Lemma sim_simple def d op a iargs cargs dead dead' mask s s' vals vals' h :
  simple op → 0 ≤ a → kept [a] iargs (op_clobber (fi_nb_globals fi) temp_local op) dead dead' mask →
  (∀ st, tcg_step fi sem 0 (TOp op [a] iargs cargs) (vals, st) = Some (vals', st)) →
  (∃ h', run s h s' h' ∧ hm h' = hm h ∧ ready s' (Z.to_nat a) ∧
    Rel d s' (λ j, j = Z.to_nat a ∨ (Lv dead' def j ∧ ¬ killed fi (u16 mask) 0 iargs j)) vals' h') →
  simulates (TOp op [a] iargs cargs) (Lv dead (defs (TOp op [a] iargs cargs) def)) (discs (TOp op [a] iargs cargs) d) s s' vals h.
Proof.
  intros (Hend & Hst' & Hcl & Hdi & Hp) Ha K Hst (h' & R & Em & Hrd & HR). pose proof Hend as [Hbb Hsl%Nat.eqb_neq]%orb_false_iff.
  apply (sim_next _ _ _ _ _ _ _ 0); [by intros st; apply flow_next|by apply label_none|]. rewrite Hst. intros st' [= <-]. exists h'.
  split_and!; [done..|]. cbn [fst]. eapply (Rel_disc d); [eapply Rel_sub; [|exact HR]|].
  - intros k. cbn [TcgCall.defs]. rewrite Hend, Hdi. intros Hk.
    destruct (kept_after fi [a] iargs _ _ _ _ K def k) as [Hin|?]; [|done| |by right].
    + intros dd j Hj. unfold op_clobber. unfold clobbers in Hcl. by rewrite Hbb, Hcl.
    + left. apply list_elem_of_singleton in Hin. lia.
  - intros k _ Hd _. rewrite discs_op, Hd by done. destruct (decide (k = Z.to_nat a)) as [->|Hne]; [by right|left].
    rewrite bool_decide_true; [done|]. rewrite list_elem_of_singleton. lia.
Qed.

Lemma sim_mov def d op oargs iargs cargs rest dead dead' mask s s' vals h :
  inv s → nb_temps s = length temp_local → is_mov op = true →
  wf_op (TOp op oargs iargs cargs) → op_good def d (TOp op oargs iargs cargs) →
  kept oargs iargs (op_clobber (fi_nb_globals fi) temp_local op) dead dead' mask → length dead = length temp_local →
  tcg_reg_alloc_mov s op (oargs ++ iargs ++ cargs ++ rest) (u16 mask) = Ok s' → Rel d s (Lv dead' def) vals h →
  simulates (TOp op oargs iargs cargs) (Lv dead (defs (TOp op oargs iargs cargs) def)) (discs (TOp op oargs iargs cargs) d) s s' vals h.
Proof.
  intros HI Hn Hm Hwf Hg K Hlen Hs HR. pose proof Hwf as (_ & _ & _ & _ & Hlo & Hli & Hlc & Fo & Fi). pose proof Hg as (Hd & Hf & Hmov & _).
  destruct (mov_shape op Hm) as (E1 & E2 & E3 & Hsi). rewrite E1 in Hlo. rewrite E2 in Hli.
  destruct oargs as [|a [|]]; try done. destruct iargs as [|b [|]]; try done.
  pose proof (args_range [a] Fo a ltac:(by left)) as Ha. pose proof (args_range [b] Fi b ltac:(by left)) as Hb.
  destruct (Hmov Hm a b) as [Hne Hbits]; [by left|by left|]. specialize (Hf a ltac:(by left)).
  assert (Z.of_nat (Z.to_nat a) = a ∧ Z.of_nat (Z.to_nat b) = b) as [Ea Eb] by lia. rewrite <- Ea, <- Eb in Hs. cbn [app] in Hs.
  eapply sim_simple; [done|lia|done| |].
  - intros st. cbn [tcg_step]. destruct Hsi as (_ & _ & _ & _ & ->). by rewrite Hm.
  - assert (moved fi (dl := mkDisc d) sem junk (u16 mask) (Z.to_nat a) (Z.to_nat b) (Lv dead' def) vals s h s') as HX.
    { apply (mov_ok fi sem junk s h op (Z.to_nat a) (Z.to_nat b) (cargs ++ rest)); try done; [lia..|]. eapply inputs_live; [done|done|exact K|by left]. }
    unfold moved in HX. rewrite Eb in HX. exact HX.
Qed.

Lemma sim_movi def d op oargs iargs cargs rest dead dead' mask s s' vals h :
  inv s → nb_temps s = length temp_local → is_movi op = true →
  wf_op (TOp op oargs iargs cargs) → op_good def d (TOp op oargs iargs cargs) →
  kept oargs iargs (op_clobber (fi_nb_globals fi) temp_local op) dead dead' mask → length dead = length temp_local →
  tcg_reg_alloc_movi s (oargs ++ iargs ++ cargs ++ rest) = Ok s' → Rel d s (Lv dead' def) vals h →
  simulates (TOp op oargs iargs cargs) (Lv dead (defs (TOp op oargs iargs cargs) def)) (discs (TOp op oargs iargs cargs) d) s s' vals h.
Proof.
  intros HI Hn Hm (_ & _ & _ & _ & Hlo & Hli & Hlc & Fo & _) (_ & Hf & _) K Hlen Hs HR.
  destruct (movi_shape op Hm) as (E1 & E2 & E3 & Hmv & Hsi). rewrite E1 in Hlo. rewrite E2 in Hli. rewrite E3 in Hlc.
  destruct oargs as [|a [|]]; try done. destruct iargs as [|]; try done. destruct cargs as [|c [|]]; try done.
  pose proof (args_range [a] Fo a ltac:(by left)) as Ha. specialize (Hf a ltac:(by left)).
  assert (Z.of_nat (Z.to_nat a) = a) as Ea by lia. rewrite <- Ea in Hs. cbn [app] in Hs.
  eapply sim_simple; [done|lia|done| |].
  - intros st. cbn [tcg_step]. destruct Hsi as (_ & _ & _ & _ & ->). by rewrite Hmv, Hm.
  - destruct (movi_ok fi (dl := mkDisc d) sem junk s h (Z.to_nat a) c rest s' (Lv dead' def) vals (reserved_regs s)) as (ST & RD & HR'); try done; [lia|].
    exists h. split_and!; [eapply step_run; [apply subset_refl|done]|done|done|]. eapply Rel_sub; [|exact HR']. tauto.
Qed.

(** ** Operations without code, labels, discarded temporaries *)

Lemma sim_plain o (L L' : nat → Prop) d d' s vals h :
  inv s → (∀ st, tcg_step fi sem 0 o st = Some st) → (∀ st, tcg_flow sem o st = FNext) → label_of o = [] →
  (∀ k, L' k → L k) → (∀ k, d k = true → d' k = true) → Rel d s L vals h → simulates o L' d' s s vals h.
Proof.
  intros HI Hst Hfl Hlb HL Hd HR. apply (sim_next _ _ _ _ _ _ _ 0); [done..|]. rewrite Hst. intros st' [= <-]. exists h.
  split_and!; [by apply run_refl|done|]. eapply Rel_disc; [by eapply Rel_sub|]. intros k _ ? _. left. by apply Hd.
Qed.

Lemma label_ok d s l s' h :
  inv s → tcg_out_label s l = Ok s' → grow fi s s' ∧ code s' = code s ++ [HLabel l] ∧ ∀ L vals, Rel d s L vals h → Rel d s' L vals h.
Proof.
  intros HI Hs. unfold tcg_out_label in Hs. apply rbind_ok in Hs as (b & _ & Hs). destruct b; [done|]. injection Hs as <-. split; [|done].
  destruct (grow_out fi s (HLabel l) HI) as [[I1 I2 I3 I4 I5 I6 I7 I8] C T D]. split; [|by destruct C; split|done|done]. split; try done.
  intros k ts Hk Hts. destruct (I4 k ts Hk Hts). by split.
Qed.

Lemma sim_label def d oargs iargs cargs rest dead s s' n m vals h :
  inv s → nb_temps s = length temp_local → length dead = length temp_local → wf_op (TOp INDEX_op_set_label oargs iargs cargs) →
  gen_op s INDEX_op_set_label (oargs ++ iargs ++ cargs ++ rest) m = Ok (s', n) →
  Rel d s (Lv (tcg_la_bb_end (fi_nb_globals fi) temp_local dead) def) vals h →
  simulates (TOp INDEX_op_set_label oargs iargs cargs) (λ k, (k < nb_temps s)%nat ∧ defs (TOp INDEX_op_set_label oargs iargs cargs) def k = true)
    (discs (TOp INDEX_op_set_label oargs iargs cargs) d) s s' vals h ∧
  ∀ k, (k < nb_temps s)%nat → lasting k → settled s' k.
Proof.
  intros HI Hn Hlen (_ & _ & _ & _ & Hlo & Hli & Hlc & _) Hs HR. rewrite gen_op_label in Hs. apply rbind_ok in Hs as (s1 & E1 & Hs).
  destruct oargs; [|done]. destruct iargs; [|done]. destruct cargs as [|l [|]]; try done. change (aref _ 0) with (Ok l) in Hs. cbn [rbind] in Hs.
  apply rbind_ok in Hs as (s2 & E2 & [= <- <-]).
  destruct (bb_end_ok fi (dl := mkDisc d) sem junk s h (reserved_regs s) s1) as (h1 & ST & [_ K1] & SE); [done|apply subset_refl|done|].
  destruct (label_ok d s1 l s2 h1 (step_grows_inv _ _ _ _ _ _ _ _ ST) E2) as (G2 & C2 & HR2).
  pose proof (sc_temps _ _ (g_ctx _ _ _ G2)) as En2. pose proof (step_nb_temps _ _ _ _ _ _ _ _ ST) as En1.
  assert (∀ k, (k < nb_temps s)%nat → lasting k → settled s2 k) as SE2.
  { intros k Hk HL ts Hts. unfold tcg_out_label in E2. apply rbind_ok in E2 as (b & _ & E2). destruct b; [done|]. injection E2 as <-. by apply (SE k Hk HL). }
  split; [|done]. exists 0. intros st' [= <-]. exists h1. split_and!; [|apply (st_m _ _ _ _ _ _ _ _ ST)|].
  - rewrite flow_next by done. destruct ST as [G1 (c & Ec & R & O) _ _ K _]. split; [by eapply grow_trans| |done].
    exists c. rewrite C2, Ec, <- app_assoc. done.
  - eapply (Rel_disc d); [eapply Rel_sub; [|apply HR2, K1]|].
    + intros k Hk. exact Hk.
    + intros k [_ [_ Hl%lastingb_iff]%andb_true_iff]. done.
    + eapply Rel_sub; [|exact HR]. intros k [Hk [Hd Hl%lastingb_iff]%andb_true_iff]. split; [|done]. apply bb_end_lookup; [done|lia|done].
    + intros k [Hk _] _ Hgl. right. apply andb_true_iff in Hgl as [Hgl%Nat.ltb_lt _].
      apply (settled_ready fi); [apply G2|lia|]. apply SE2; [done|by left].
Qed.

(** A discarded temporary loses its value; a global has that of its slot. *)
Lemma discard_Rel def d dead s (k : nat) ts vals h :
  inv s → (k < nb_temps s)%nat → temps s !! k = Some ts → fixed_reg ts = false →
  let o := TOp INDEX_op_discard [k : Z] [] [] in
  Rel d s (Lv (kill dead [k : Z]) def) vals h →
  Rel (discs o d) (set_temp (drop_reg s ts) k (λ ts, ts <| val_type := TEMP_VAL_DEAD |>)) (Lv dead (defs o def)) (<[k := hslots h (home ts)]> vals) h.
Proof.
  intros HI Hkt Hk Hf o HR. set (f := λ ts : TCGTemp, _). pose proof (t_fixed _ _ _ _ (inv_temp _ _ HI k ts Hkt Hk)) as Hfx. rewrite Hf in Hfx.
  assert (∀ j, Lv dead (defs o def) j → j ≠ k → Lv (kill dead [k : Z]) def j) as HL.
  { intros j [Hj [Hd _]%andb_true_iff] Hne. split; [|done]. rewrite kill_lookup; [done|intros b ->%list_elem_of_singleton; lia|]. intros ?%list_elem_of_singleton. lia. }
  assert (Rel (discs o d) s (Lv (kill dead [k : Z]) def) vals h) as HR'.
  { eapply Rel_disc; [exact HR|]. intros j _ Hd _. left. change (d j || bool_decide ((j : Z) ∈ [k : Z]) = true). by rewrite Hd. }
  destruct (mem_global fi k) eqn:Hg.
  - eapply Rel_sub; [|apply (forget_new fi junk s k ts f _ vals h _ Hk HR')].
    + intros j Hj. destruct (decide (j = k)) as [->|Hne]; [by left|right; by apply HL].
    + unfold located. cbn [f fixed_reg]. change (fixed_reg (f ts)) with (fixed_reg ts). rewrite Hf. cbn. split; [|done]. split; [|done].
      change (d k || bool_decide ((k : Z) ∈ [k : Z]) = true). rewrite (bool_decide_true (_ ∈ _)) by (by left). apply orb_true_r.
  - assert (∀ j, Lv dead (defs o def) j → j ≠ k) as Hne.
    { intros j [_ [_ Ho]%andb_true_iff] ->. apply orb_true_iff in Ho as [Ho|Ho%bool_decide_eq_true]; [|by apply Ho; left].
      unfold mem_global in Hg. by rewrite Ho, <- Hfx in Hg. }
    eapply (Rel_set fi s _ k); [by destruct (drop_reg_ctx s ts)|by apply forget_temps| |by intros []%Hne].
    eapply (Rel_ext fi s (Lv (kill dead [k : Z]) def)); [|exact HR']. intros j Hj. rewrite fn_lookup_insert_ne by (apply not_eq_sym; by apply Hne). auto.
Qed.

Lemma sim_discard def d oargs iargs cargs rest dead s s' n m vals h :
  inv s → nb_temps s = length temp_local → wf_op (TOp INDEX_op_discard oargs iargs cargs) → op_good def d (TOp INDEX_op_discard oargs iargs cargs) →
  gen_op s INDEX_op_discard (oargs ++ iargs ++ cargs ++ rest) m = Ok (s', n) → Rel d s (Lv (kill dead oargs) def) vals h →
  simulates (TOp INDEX_op_discard oargs iargs cargs) (Lv dead (defs (TOp INDEX_op_discard oargs iargs cargs) def))
    (discs (TOp INDEX_op_discard oargs iargs cargs) d) s s' vals h.
Proof.
  intros HI Hn (_ & _ & _ & _ & Hlo & Hli & Hlc & Fo & _) (_ & Hf & _) Hs HR. rewrite gen_op_discard in Hs.
  change (nb_oargs (op_def INDEX_op_discard)) with 1%nat in Hlo. destruct oargs as [|a [|]]; try done. destruct iargs; [|done]. destruct cargs; [|done].
  pose proof (args_range [a] Fo a ltac:(by left)) as Ha. specialize (Hf a ltac:(by left)).
  change (aref _ 0) with (Ok a) in Hs. cbn [rbind] in Hs. apply rbind_ok in Hs as (ts & Hts & [= <- _]).
  destruct (get_temp_nat _ _ _ Hts) as (k & -> & Hk). rewrite Nat2Z.id in Hf. assert (k < nb_temps s)%nat as Hkt by lia.
  pose proof (inv_temp _ _ HI k ts Hkt Hk) as HT. rewrite <- (t_fixed _ _ _ _ HT) in Hf. rewrite Hf.
  apply (sim_next _ _ _ _ _ _ _ (hslots h (home ts))); [by intros st; apply flow_next|done|]. intros st' [= <-]. exists h.
  split_and!; [eapply step_run; [apply subset_refl|by apply step_forget]|done|]. cbn [fst set_outs]. rewrite Nat2Z.id. by apply discard_Rel.
Qed.

(** ** Calls *)

Lemma sim_call def d oargs iargs flags rest dead dead' mask s s' n vals h :
  inv s → nb_temps s = length temp_local → wf_op (TCall oargs iargs flags) → op_good def d (TCall oargs iargs flags) → globals_def fi def →
  kept oargs iargs (call_clobber (fi_nb_globals fi) flags) dead dead' mask → length dead = length temp_local →
  tcg_reg_alloc_call s (op_params (TCall oargs iargs flags) ++ rest) (u16 mask) = Ok (s', n) → Rel d s (Lv dead' def) vals h →
  simulates (TCall oargs iargs flags) (Lv dead (defs (TCall oargs iargs flags) def)) (discs (TCall oargs iargs flags) d) s s' vals h.
Proof.
  intros HI Hn (Hlo & Hli & Fo & Fi) (Hdi & Hfo & Hfn) Hgd K Hlen Hs HR.
  assert (call_wf fi (nb_temps s) oargs iargs) as W.
  { rewrite Hn. split; try done; [intros a Ha; split; [by apply (args_range oargs)|by apply Hfo]|]. rewrite <- Hlen. apply (kp_range _ _ _ _ _ _ K). }
  apply (sim_next _ _ _ _ _ _ _ 0); [done..|]. cbn [tcg_step]. intros st'. destruct (call_ok _ _ _ _ _) eqn:Hok; [|done].
  pose proof (alloc_call_ok fi sem junk s h oargs iargs flags rest (u16 mask) s' n (Lv dead' def) vals HI W Hs HR) as HX.
  destruct (call_sem _ _ _ _ _) as [[outs g] m']. intros [= <-]. destruct HX as (_ & h' & R & Em & Hrd & HR'); try done.
  - intros a Ha Hd. split; [eapply kept_inputs; eauto|]. by apply Hdi.
  - intros j Hj. destruct (IS_DEAD_IARG _ _) eqn:E; [|done]. apply (kept_mask _ _ _ _ _ _ K) in E as (a & Ha & Hd & _). congruence.
  - intros Hc k Hgl. apply andb_true_iff in Hgl as [Hgl%Nat.ltb_lt _].
    assert (k < length dead)%nat as Hkl. { pose proof (inv_temps _ _ HI). rewrite (inv_globals _ _ HI) in *. lia. }
    assert (call_clobber (fi_nb_globals fi) flags (kill dead oargs) !! k = Some false) as E.
    { unfold call_clobber. rewrite Hc. apply globals_live_global; [by rewrite kill_length|done]. }
    split; [split; [by eapply kept_live|by apply Hgd]|]. intros Hk. apply (kept_killed fi _ _ _ _ _ _ K) in Hk. congruence.
  - exists h'. split_and!; [done..|]. cbn [fst]. eapply (Rel_disc d); [eapply Rel_sub; [|exact HR']|].
    + intros k. cbn [TcgCall.defs].
      eapply (kept_after fi); [done|]. intros dd j Hj. unfold call_clobber. destruct (has_flag _ _); [done|by apply globals_live_lookup].
    + intros k _ Hd Hgl. apply andb_true_iff in Hgl as [Hgl%Nat.ltb_lt _]. rewrite <- (inv_globals _ _ HI) in Hgl. cbn [discs].
      destruct (has_flag flags TCG_CALL_CONST); [|right; apply Hrd; by right]. cbn [orb].
      destruct (decide ((k : Z) ∈ oargs)) as [Ho|Ho]; [right; apply Hrd; by left|left]. by rewrite Hd, bool_decide_true.
Qed.

End sim.
