(* ===== verification/TcgLoop.v ===== *)
(** * The code of a list of operations

    The liveness analysis and the allocator together: the code that
    [tcg_gen_code] makes does what the operations do. *)

From stdpp Require Import base gmap list functions.
From S2P Require Import Prelude TcgData TcgLive TcgLiveInv TcgAlloc TcgSem TcgInv TcgSpill TcgSave TcgArgs TcgOpIn TcgOp TcgGenOp TcgGenCall TcgCall TcgSim.
Local Open Scope Z_scope.
Local Coercion Z.of_nat : nat >-> Z.

Section loop.
  Context (fi : frame_info) (temp_local : list bool).
  Context (Hloc : ∀ k, fi_local fi k = default false (temp_local !! k)) (Hfew : length temp_local < 2 ^ 31).
  Context {M : Type} (sem : tcg_sem M) (junk : (Z → Z) → M → Z → Z) `{!SemOk fi sem}.
  Notation inv := (inv fi).
  Notation Rel d := (@Rel fi M (mkDisc fi d)).
  Notation lasting := (lasting fi).
  Notation live1 := (live1 (fi_nb_globals fi) temp_local).
  Notation live := (live (fi_nb_globals fi) temp_local).
  Notation wf_op := (wf_op temp_local).
  Notation op_good := (op_good fi temp_local sem).
  Notation simulates := (simulates fi sem junk).
  Notation defs := (defs fi).
  Implicit Types (h : hstate M) (s : TCGContext) (d def : nat → bool).

(** ** One operation *)

Definition ends_op (o : tcgop) : bool := match o with TOp op _ _ _ => ends op | _ => false end.

(** The temporaries with known places after an operation. *)
Definition Lafter (o : tcgop) (dead : list bool) def (k : nat) : Prop :=
  if ends_op o then (k < length temp_local)%nat ∧ defs o def k = true else Lv dead (defs o def) k.

Lemma Lafter_live o dead def k : length dead = length temp_local → Lv dead (defs o def) k → Lafter o dead def k.
Proof. intros Hl [Hk Hd]. unfold Lafter. destruct (ends_op o); [|done]. split; [|done]. rewrite <- Hl. by eapply lookup_lt_Some. Qed.

Lemma kept_op dead dead' mask op oargs iargs cargs :
  wf_op (TOp op oargs iargs cargs) → length dead = length temp_local →
  keep dead oargs iargs (op_clobber (fi_nb_globals fi) temp_local op) = (dead', mask) →
  kept oargs iargs (op_clobber (fi_nb_globals fi) temp_local op) dead dead' mask.
Proof.
  intros (_ & _ & _ & _ & _ & _ & _ & Fo & Fi) Hlen HK. split; [|intros a Ha _; rewrite Hlen; by apply (args_range temp_local iargs)| |done].
  - intros a Ha. by apply (args_range temp_local oargs).
  - by rewrite op_clobber_length, kill_length.
Qed.

Lemma kept_call dead dead' mask oargs iargs flags :
  wf_op (TCall oargs iargs flags) → length dead = length temp_local →
  keep dead oargs iargs (call_clobber (fi_nb_globals fi) flags) = (dead', mask) →
  kept oargs iargs (call_clobber (fi_nb_globals fi) flags) dead dead' mask.
Proof.
  intros (_ & _ & Fo & Fi) Hlen HK. split; [| | |done].
  - intros a Ha. by apply (args_range temp_local oargs).
  - intros a Ha Hd. rewrite Hlen. by destruct (proj1 (Forall_forall _ _) Fi a (proj1 (list_elem_of_In _ _) Ha)) as [?|?].
  - by rewrite call_clobber_length, kill_length.
Qed.

Lemma plain_shape op : is_plain op = true → op ≠ INDEX_op_debug_insn_start →
  nb_iargs (op_def op) = 0%nat ∧ nb_oargs (op_def op) = 0%nat ∧ steers op = false ∧ ends op = false ∧ (op =? INDEX_op_discard)%nat = false ∧ clobbers op = false ∧
  ∀ dd, op_clobber (fi_nb_globals fi) temp_local op dd = dd.
Proof.
  unfold is_plain, is_nop. rewrite !orb_true_iff, !Nat.eqb_eq. intros H Hd.
  repeat match goal with H : _ ∨ _ |- _ => destruct H as [H|H] end; try done; rewrite H; split_and!; reflexivity.
Qed.

Lemma defs_none op iargs cargs def k :
  ends op = false → (op =? INDEX_op_discard)%nat = false → defs (TOp op [] iargs cargs) def k = def k.
Proof. intros E1 E2. cbn [TcgCall.defs]. rewrite E1, E2. by rewrite (bool_decide_false (_ ∈ [])), orb_false_r by apply not_elem_of_nil. Qed.

Lemma discs_none op iargs cargs d k :
  ends op = false → clobbers op = false → (op =? INDEX_op_discard)%nat = false → discs (TOp op [] iargs cargs) d k = d k.
Proof. intros. rewrite discs_op by done. by rewrite (bool_decide_true (_ ∉ [])), andb_true_r by apply not_elem_of_nil. Qed.

(** The result of the operation is simulated, and the end of a block settles
    what lasts. *)
Definition sim_ok (o : tcgop) dead def d s s' vals h : Prop :=
  simulates o (Lafter o dead def) (discs o d) s s' vals h ∧
  (ends_op o = true → ∀ k, (k < nb_temps s)%nat → lasting k → settled s' k).

Lemma sim_ok_next o dead def d s s' vals h :
  ends_op o = false → simulates o (Lv dead (defs o def)) (discs o d) s s' vals h → sim_ok o dead def d s s' vals h.
Proof. intros He HS. unfold sim_ok, Lafter. by rewrite He. Qed.

Lemma sim_ok_end o dead def d s s' vals h :
  nb_temps s = length temp_local → ends_op o = true →
  simulates o (λ k, (k < nb_temps s)%nat ∧ defs o def k = true) (discs o d) s s' vals h ∧ (∀ k, (k < nb_temps s)%nat → lasting k → settled s' k) →
  sim_ok o dead def d s s' vals h.
Proof. intros Hn He [HS SE]. unfold sim_ok, Lafter. rewrite He. by rewrite Hn in HS. Qed.

Lemma sim_kept def d op oargs iargs cargs rest dead dead' mask mo s s' n vals h :
  inv s → nb_temps s = length temp_local → length dead = length temp_local → globals_def fi def →
  wf_op (TOp op oargs iargs cargs) → op_good def d (TOp op oargs iargs cargs) → op_falls sem (TOp op oargs iargs cargs) →
  op ≠ INDEX_op_set_label → op ≠ INDEX_op_debug_insn_start → op ≠ INDEX_op_discard → mo = Some (u16 mask) →
  keep dead oargs iargs (op_clobber (fi_nb_globals fi) temp_local op) = (dead', mask) →
  gen_op s op (oargs ++ iargs ++ cargs ++ rest) mo = Ok (s', n) → Rel d s (Lv dead' def) vals h →
  sim_ok (TOp op oargs iargs cargs) dead def d s s' vals h.
Proof.
  intros HI Hn Hlen Hgd Hwf Hg Hfl N1 N2 N3 -> HK Hs HR. pose proof (kept_op _ _ _ _ _ _ _ Hwf Hlen HK) as K.
  destruct (is_plain op) eqn:Ep.
  { rewrite gen_op_plain in Hs by done. injection Hs as <- _. destruct (plain_shape op Ep N2) as (E1 & E2 & Est & E3 & E4 & Ec & E5).
    pose proof E3 as [Hbb _]%orb_false_iff.
    destruct Hwf as (_ & _ & _ & _ & Ho & Hi & _). rewrite E1 in Hi. rewrite E2 in Ho. destruct oargs, iargs; try done.
    apply sim_ok_next; [done|]. eapply sim_plain; [done| |by intros st; apply (flow_next fi)|by apply label_none| | |exact HR].
    - intros [v m]. cbn [tcg_step]. unfold is_plain in Ep. by rewrite Ep.
    - intros k [? Hd]. rewrite defs_none in Hd by done. unfold keep in HK. rewrite E5 in HK. cbn in HK. by injection HK as <- _.
    - intros k. by rewrite discs_none. }
  destruct (is_mov op) eqn:Em.
  { rewrite gen_op_mov in Hs by done. cbn [deref rbind] in Hs. apply rbind_ok in Hs as (s1 & Hs & [= <- _]).
    apply sim_ok_next; [apply (mov_shape op Em)|]. by eapply sim_mov. }
  destruct (is_movi op) eqn:Ei.
  { rewrite gen_op_movi in Hs by done. apply rbind_ok in Hs as (s1 & Hs & [= <- _]).
    apply sim_ok_next; [apply (movi_shape op Ei)|]. by eapply sim_movi. }
  assert (is_general op = true) as Hge.
  { unfold is_general. rewrite Ep, Em, Ei. destruct Hwf as (_ & W1 & W2 & _). by apply Nat.eqb_neq in N1 as ->, N3 as ->, W1 as ->, W2 as ->. }
  rewrite gen_op_general in Hs by done. cbn [deref rbind] in Hs. apply rbind_ok in Hs as (s1 & Hs & [= <- _]).
  destruct (has_flag (op_flags (op_def op)) TCG_OPF_BB_END) eqn:Hbb.
  - apply sim_ok_end; [done|cbn; unfold ends; by rewrite Hbb|]. by eapply (sim_end fi temp_local).
  - apply sim_ok_next; [cbn; unfold ends; rewrite Hbb; by apply Nat.eqb_neq|]. eapply (sim_general fi temp_local); try done. by apply Hfl.
Qed.

Lemma sim_op def d o o' rest dead dead' mask mo s s' n vals h :
  inv s → nb_temps s = length temp_local → length dead = length temp_local → globals_def fi def → wf_op o → op_good def d o → op_falls sem o →
  live1 o dead = (o', mask, dead') → (∀ m, mask = Some m → mo = Some m) →
  gen_op s (op_opc o') (op_params o' ++ rest) mo = Ok (s', n) → Rel d s (Lv dead' def) vals h → sim_ok o dead def d s s' vals h.
Proof.
  intros HI Hn Hlen Hgd Hwf Hg Hfl HL Hm Hs HR. destruct o as [op oargs iargs cargs|oargs iargs flags|l]; cbn [TcgLive.live1] in HL.
  - destruct (Nat.eqb_spec op INDEX_op_set_label) as [->|N1].
    { injection HL as <- <- <-. cbn [op_opc op_params] in Hs. rewrite <- !app_assoc in Hs. apply sim_ok_end; [done..|]. by eapply (sim_label fi temp_local). }
    destruct (Nat.eqb_spec op INDEX_op_debug_insn_start) as [->|N2].
    { injection HL as <- <- <-. cbn [op_opc] in Hs. rewrite gen_op_plain in Hs by done. injection Hs as <- _. apply sim_ok_next; [done|].
      destruct Hwf as (_ & _ & _ & _ & Ho & _). change (nb_oargs _) with 0%nat in Ho. destruct oargs; [|done].
      eapply sim_plain; [done|by intros []|by intros st; apply (flow_next fi)|by apply label_none| |intros k Hk; by rewrite (discs_none INDEX_op_debug_insn_start)|exact HR].
      intros k [? Hd]. split; [done|]. by rewrite defs_none in Hd. }
    destruct (Nat.eqb_spec op INDEX_op_discard) as [->|N3].
    { injection HL as <- <- <-. cbn [op_opc op_params] in Hs. rewrite <- !app_assoc in Hs. apply sim_ok_next; [done|]. by eapply sim_discard. }
    destruct (removable _ && _) eqn:Er.
    + injection HL as <- <- <-. apply andb_true_iff in Er as [Er Ed]. apply (removed_gen temp_local) in Hs as [-> _].
      assert (ends op = false) as He.
      { unfold ends. apply Nat.eqb_neq in N1. rewrite N1, orb_false_r. cbn [removable] in Er. apply andb_true_iff in Er as [Er%negb_true_iff _].
        apply (side_effects op); [apply Hwf|done]. }
      apply sim_ok_next; [done|]. eapply sim_removed; try done. intros ???? [= <- <- <- <-]. split; [done|by apply Nat.eqb_neq].
    + destruct (keep _ _ _ _) as [dd m] eqn:HK. injection HL as <- <- <-. cbn [op_opc op_params] in Hs. rewrite <- !app_assoc in Hs.
      eapply (sim_kept def d op oargs iargs cargs rest dead dd m mo); try done. by apply Hm.
  - apply sim_ok_next; [done|]. destruct (removable _ && _) eqn:Er.
    + injection HL as <- <- <-. apply andb_true_iff in Er as [Er Ed]. apply (removed_gen temp_local) in Hs as [-> _]. by eapply sim_removed.
    + destruct (keep _ _ _ _) as [dd m] eqn:HK. injection HL as <- <- <-. rewrite (Hm _ eq_refl) in Hs. cbn [op_opc] in Hs. rewrite gen_op_call in Hs.
      cbn [deref rbind] in Hs. eapply sim_call; eauto. by apply kept_call.
  - injection HL as <- <- <-. cbn [op_opc op_params] in Hs. rewrite gen_op_nopn in Hs. apply rbind_ok in Hs as (k & _ & [= <- _]).
    apply sim_ok_next; [done|]. eapply sim_plain; [done|by intros []|done..|exact HR].
Qed.

(** ** The parameters that are read *)

Lemma gen_op_count s op args mo s' n :
  op ≠ INDEX_op_nopn → op ≠ INDEX_op_call → gen_op s op args mo = Ok (s', n) → n = nb_args (op_def op).
Proof.
  intros N1%Nat.eqb_neq N2%Nat.eqb_neq. unfold gen_op. rewrite N1, N2. generalize (nb_args (op_def op)). intros m Hs.
  repeat match type of Hs with
         | (if ?b then _ else _) = _ => destruct b
         | rbind _ _ = _ => apply rbind_ok in Hs as (? & _ & Hs)
         end; by injection Hs.
Qed.

Lemma call_count s oargs iargs flags rest mask s' n :
  length oargs < 2 ^ 15 → length iargs < 2 ^ 16 → tcg_reg_alloc_call s (op_params (TCall oargs iargs flags) ++ rest) mask = Ok (s', n) →
  n = length (op_params (TCall oargs iargs flags)).
Proof.
  intros Hlo Hli Hs. unfold tcg_reg_alloc_call in Hs.
  destruct (call_read oargs iargs flags rest Hlo Hli) as (hd & R1 & R2 & R3 & R4 & R5 & R6). rewrite R1 in Hs. cbn [rbind] in Hs.
  rewrite R2, R3, R4 in Hs. cbn [rbind] in Hs. rewrite R5, R6 in Hs. cbn [rbind] in Hs. clear R1 R2 R3 R4 R5 R6.
  apply rbind_ok in Hs as (s2 & _ & Hs). apply rbind_ok in Hs as ([s3 al3] & _ & Hs). apply rbind_ok in Hs as (fa & _ & Hs).
  apply rbind_ok in Hs as ([[[s4 f] b] al4] & _ & Hs). do 4 apply rbind_ok in Hs as (? & _ & Hs). injection Hs as _ <-.
  cbn [op_params length]. rewrite !length_app. cbn [length]. change (nb_cargs (op_def INDEX_op_call)) with 2%nat. lia.
Qed.

Lemma live1_cases o o' mask dead dead' : live1 o dead = (o', mask, dead') → o' = o ∨ o' = removed o.
Proof. intros HL. destruct o; cbn [TcgLive.live1] in HL; repeat case_match; simplify_eq; auto. Qed.

Lemma op_count o o' mask dead dead' rest mo s s' n :
  wf_op o → live1 o dead = (o', mask, dead') → gen_op s (op_opc o') (op_params o' ++ rest) mo = Ok (s', n) → n = length (op_params o').
Proof.
  intros Hwf HL Hs. destruct (live1_cases _ _ _ _ _ HL) as [->| ->].
  2: by apply (removed_gen temp_local) in Hs as [_ ->].
  destruct o as [op oargs iargs cargs|oargs iargs flags|l]; cbn [op_opc] in Hs.
  - destruct Hwf as (_ & W1 & W2 & _ & H1 & H2 & H3 & _). apply gen_op_count in Hs as ->; [|done..]. cbn [op_params].
    rewrite !length_app, H1, H2, H3. unfold nb_args. lia.
  - rewrite gen_op_call in Hs. apply rbind_ok in Hs as (m & _ & Hs). destruct Hwf as (? & ? & _). by eapply call_count.
  - rewrite gen_op_nopn in Hs. apply rbind_ok in Hs as (k & Hk & [= _ <-]). cbn [op_params] in *. destruct Hwf as (_ & Hh & _).
    apply aref_Ok in Hk as [_ Hk]. destruct l as [|x l]; [done|]. injection Hh as ->. by injection Hk as <-.
Qed.

Lemma live1_end o o' mask dead dead' : wf_op o → live1 o dead = (o', mask, dead') → (op_opc o' =? INDEX_op_end)%nat = false.
Proof.
  intros Hwf HL. destruct (live1_cases _ _ _ _ _ HL) as [->| ->].
  - destruct o as [op oargs iargs cargs|oargs iargs flags|l]; [|done..]. destruct Hwf as (_ & _ & _ & W & _). by apply Nat.eqb_neq.
  - unfold removed. destruct (length (op_params o)); reflexivity.
Qed.

End loop.
