(* ===== verification/TcgFlow.v ===== *)
(** * Labels

    Code generation gives a label its value only where the label is set. *)

From stdpp Require Import base gmap list functions.
From S2P Require Import Prelude TcgData TcgLive TcgLiveInv TcgAlloc TcgSem TcgInv TcgSpill TcgSave TcgArgs TcgOpIn TcgOp TcgGenOp TcgGenCall TcgCall TcgSim TcgLoop.
Local Open Scope Z_scope.
Local Coercion Z.of_nat : nat >-> Z.

(** Only [tcg_out_label] gives labels values. *)
Notation hv := has_value.

Lemma hv_drop s ts : hv (drop_reg s ts) = hv s.
Proof. unfold drop_reg. by destruct (bool_decide _). Qed.

Lemma hv_frame s k s' : ensure_frame s k = Ok s' → hv s' = hv s.
Proof. unfold ensure_frame, temp_allocate_frame. intros H. inv_ok. repeat case_match; by simplify_eq. Qed.

Lemma hv_free s r s' : tcg_reg_free s r = Ok s' → hv s' = hv s.
Proof.
  unfold tcg_reg_free. intros H. apply rbind_ok in H as (k & _ & H). destruct (k =? -1); [by injection H as <-|]. apply rbind_ok in H as (ts & _ & H).
  apply rbind_ok in H as (_ & _ & H). apply rbind_ok in H as (s1 & E & [= <-]). cbn. destruct (mem_coherent ts); [by injection E as <-|].
  apply rbind_ok in E as (s2 & E2%hv_frame & E). apply rbind_ok in E as (t & _ & [= <-]). done.
Qed.

Lemma hv_alloc s a b s' r : tcg_reg_alloc s a b = Ok (s', r) → hv s' = hv s.
Proof.
  unfold tcg_reg_alloc. intros H. apply rbind_ok in H as ([r'|] & _ & H); [by injection H as <- _|]. destruct (List.find _ _); [|done].
  apply rbind_ok in H as (s1 & E%hv_free & [= <- _]). done.
Qed.

Lemma hv_save s k al s' : temp_save s k al = Ok s' → hv s' = hv s.
Proof.
  unfold temp_save. intros H. apply rbind_ok in H as (ts & _ & H). destruct (fixed_reg ts); [by injection H as <-|].
  destruct (val_type ts); [by injection H as <-|by apply hv_free in H|by injection H as <-|].
  apply rbind_ok in H as ([s1 r] & E1%hv_alloc & H). apply rbind_ok in H as (s2 & E2%hv_frame & H). apply rbind_ok in H as (t & _ & [= <-]). cbn. congruence.
Qed.

Lemma hv_for f n : (∀ s k s', f s k = Ok s' → hv s' = hv s) → ∀ lo s s', for_temps n lo f s = Ok s' → hv s' = hv s.
Proof.
  intros Hf. induction n as [|n IH]; intros lo s s' H; cbn [for_temps] in H; [by injection H as <-|].
  apply rbind_ok in H as (s1 & E1%Hf & H%IH). congruence.
Qed.

Lemma hv_globals s al s' : save_globals s al = Ok s' → hv s' = hv s.
Proof. apply hv_for. intros s1 k s2. apply hv_save. Qed.

Lemma hv_bb_end s al s' : tcg_reg_alloc_bb_end s al = Ok s' → hv s' = hv s.
Proof.
  intros H. apply rbind_ok in H as (s1 & E1 & H%hv_globals). rewrite H. revert E1. apply hv_for. intros s2 k s3 E. unfold bb_end_temp in E.
  apply rbind_ok in E as (ts & _ & E). destruct (temp_local ts); [by apply hv_save in E|]. injection E as <-. apply hv_drop.
Qed.

(** Follow the successful paths of code made of these. *)
Ltac hv_path :=
  repeat match goal with
  | p : (_ * _)%type |- _ => destruct p
  | H : rbind _ _ = Ok _ |- _ => apply rbind_ok in H as (? & ? & H)
  | H : Ok _ = Ok _ |- _ => injection H; clear H; intros; subst
  | H : Er _ = Ok _ |- _ => discriminate H
  | H : tcg_reg_alloc _ _ _ = Ok _ |- _ => apply hv_alloc in H
  | H : tcg_reg_free _ _ = Ok _ |- _ => apply hv_free in H
  | H : (match ?x with _ => _ end) = Ok _ |- _ => destruct x
  end.

Lemma hv_movi s args s' : tcg_reg_alloc_movi s args = Ok s' → hv s' = hv s.
Proof. unfold tcg_reg_alloc_movi. intros H. hv_path; cbn; rewrite ?hv_drop; done. Qed.

Lemma hv_mov s op args m s' : tcg_reg_alloc_mov s op args m = Ok s' → hv s' = hv s.
Proof. unfold tcg_reg_alloc_mov. intros H. hv_path; cbn; rewrite ?hv_drop; try case_match; cbn; congruence. Qed.

Lemma hv_load ct s a al s' c : load_iarg ct s a al = Ok (s', c) → hv s' = hv s.
Proof. unfold load_iarg. intros H. hv_path; cbn; congruence. Qed.

Lemma hv_iarg op args m st i st' : alloc_iarg op args m st i = Ok st' → hv st'.1.1.1 = hv st.1.1.1.
Proof.
  destruct st as [[[s na] ca] al]. unfold alloc_iarg. intros H. apply rbind_ok in H as (a & _ & H). apply rbind_ok in H as ([s1 c] & E%hv_load & H).
  destruct c; [by injection H as <-|]. do 3 (apply rbind_ok in H as (? & _ & H)). hv_path; cbn; congruence.
Qed.

Lemma hv_oarg op args st i st' : alloc_oarg op args st i = Ok st' → hv st'.1.1.1 = hv st.1.1.1.
Proof. destruct st as [[[s na] ca] al]. unfold alloc_oarg. intros H. hv_path; cbn; try case_match; cbn; rewrite ?hv_drop; congruence. Qed.

Lemma hv_args f l : (∀ st i st', f st i = Ok st' → hv st'.1.1.1 = hv st.1.1.1) → ∀ st st', for_args f l st = Ok st' → hv st'.1.1.1 = hv st.1.1.1.
Proof.
  intros Hf. induction l as [|i l IH]; intros st st' H; cbn [for_args] in H; [by injection H as <-|]. apply rbind_ok in H as (st1 & E%Hf & H%IH). congruence.
Qed.

Lemma hv_mark m iargs : ∀ s i s', mark_dead s m i iargs = Ok s' → hv s' = hv s.
Proof.
  induction iargs as [|a l IH]; intros s i s' H; cbn [mark_dead] in H; [by injection H as <-|]. apply rbind_ok in H as (s1 & E & H%IH). rewrite H.
  hv_path; [|done]. case_match; cbn; rewrite ?hv_drop; done.
Qed.

Lemma hv_frees l : ∀ s s', free_regs s l = Ok s' → hv s' = hv s.
Proof. induction l as [|r l IH]; intros s s' H; cbn [free_regs] in H; [by injection H as <-|]. apply rbind_ok in H as (s1 & E & H%IH). hv_path; congruence. Qed.

Lemma hv_moves l : ∀ s na s', move_outputs s l na = Ok s' → hv s' = hv s.
Proof.
  induction l as [|r l IH]; intros s na s' H; cbn [move_outputs] in H; [by injection H as <-|]. do 2 (apply rbind_ok in H as (? & _ & H)). apply IH in H. rewrite H.
  by case_match.
Qed.

Lemma hv_op s op args m s' : tcg_reg_alloc_op s op args m = Ok s' → hv s' = hv s.
Proof.
  unfold tcg_reg_alloc_op. intros H. do 3 (apply rbind_ok in H as (? & _ & H)). apply rbind_ok in H as ([[[s1 na] ca] al] & E1 & H).
  apply (hv_args _ _ (hv_iarg op args m)) in E1. apply rbind_ok in H as ([s2 na2] & E2 & H%hv_moves). rewrite H. cbn in *. rewrite <- E1.
  destruct (has_flag (op_flags (op_def op)) TCG_OPF_BB_END).
  { apply rbind_ok in E2 as (s3 & E3%hv_bb_end & [= <- _]). done. }
  apply rbind_ok in E2 as (s3 & E3%hv_mark & E2). apply rbind_ok in E2 as (s4 & E4 & E2). apply rbind_ok in E2 as ([[[s5 na5] ca5] al5] & E5 & [= <- _]).
  apply (hv_args _ _ (hv_oarg op args)) in E5. cbn in E5. rewrite E5, <- E3. destruct (has_flag _ _); [|by injection E4 as <-].
  apply rbind_ok in E4 as (s6 & E6%hv_frees & E4%hv_globals). congruence.
Qed.

Lemma hv_stack l : ∀ s off s', stack_args s l off = Ok s' → hv s' = hv s.
Proof. induction l as [|a l IH]; intros s off s' H; cbn [stack_args] in H; [by injection H as <-|]. apply rbind_ok in H as (s1 & E & H%IH). rewrite H. hv_path; cbn; congruence. Qed.

Lemma hv_regs l : ∀ s regs al s' al', reg_args s l regs al = Ok (s', al') → hv s' = hv s.
Proof.
  induction l as [|a l IH]; intros s regs al s' al' H; cbn [reg_args] in H; [by injection H as <- _|]. destruct regs; [by injection H as <- _|].
  apply rbind_ok in H as ([s1 al1] & E & H%IH). rewrite H. hv_path; try case_match; cbn; congruence.
Qed.

Lemma hv_func s a al s' f b al' : func_addr s a al = Ok (s', f, b, al') → hv s' = hv s.
Proof. unfold func_addr. intros H. hv_path; cbn; congruence. Qed.

Lemma hv_results l : ∀ s regs s', call_oargs s l regs = Ok s' → hv s' = hv s.
Proof.
  induction l as [|a l IH]; intros s regs s' H; cbn [call_oargs] in H; [by injection H as <-|]. destruct regs; [done|].
  do 3 (apply rbind_ok in H as (? & _ & H)). apply IH in H. rewrite H. repeat case_match; cbn; rewrite ?hv_drop; done.
Qed.

Lemma hv_call s args m s' n : tcg_reg_alloc_call s args m = Ok (s', n) → hv s' = hv s.
Proof.
  unfold tcg_reg_alloc_call. intros H. do 4 (apply rbind_ok in H as (? & _ & H)). set (big := _ <? _) in H. clearbody big.
  apply rbind_ok in H as (s2 & E2%hv_stack & H). apply rbind_ok in H as ([s3 al3] & E3%hv_regs & H). apply rbind_ok in H as (fa & _ & H).
  apply rbind_ok in H as ([[[s4 f] b] al4] & E4%hv_func & H). apply rbind_ok in H as (s5 & E5%hv_mark & H). apply rbind_ok in H as (s6 & E6%hv_frees & H).
  apply rbind_ok in H as (s7 & E7 & H). apply rbind_ok in H as (s8 & E8%hv_results & [= <- _]). rewrite E8.
  transitivity (hv s7); [by destruct big|]. transitivity (hv s2); [|rewrite E2; by destruct big].
  transitivity (hv s6); [destruct (has_flag _ _); [by injection E7 as <-|by apply hv_globals in E7]|congruence].
Qed.

Lemma hv_gen s op args m s' n :
  gen_op s op args m = Ok (s', n) →
  hv s' = hv s ∨ (op = INDEX_op_set_label ∧ ∃ l, aref args 0 = Ok l ∧ hv s' = <[Z.to_nat l := true]> (hv s)).
Proof.
  unfold gen_op. generalize (nb_args (op_def op)) as c. intros c H. destruct (_ || _).
  { left. apply rbind_ok in H as (m' & _ & H). apply rbind_ok in H as (s1 & H%hv_mov & [= <- _]). done. }
  destruct (_ || _); [left; by apply rbind_ok in H as (s1 & H%hv_movi & [= <- _])|]. destruct (op =? _)%nat; [left; by injection H as <- _|].
  destruct (_ || _ || _ || _); [left; by injection H as <- _|]. destruct (op =? _)%nat; [left; by apply rbind_ok in H as (k & _ & [= <- _])|].
  destruct (op =? _)%nat.
  { left. apply rbind_ok in H as (t & _ & H). apply rbind_ok in H as (ts & _ & [= <- _]). destruct (fixed_reg ts); [done|apply hv_drop]. }
  destruct (Nat.eqb_spec op INDEX_op_set_label) as [->|_].
  { right. split; [done|]. apply rbind_ok in H as (s1 & E1%hv_bb_end & H). apply rbind_ok in H as (l & El & H). apply rbind_ok in H as (s2 & E2 & [= <- _]).
    exists l. split; [done|]. unfold tcg_out_label in E2. apply rbind_ok in E2 as ([] & _ & E2); [done|]. injection E2 as <-. cbn. by rewrite E1. }
  left. destruct (op =? _)%nat; apply rbind_ok in H as (m' & _ & H); [by apply hv_call in H|]. by apply rbind_ok in H as (s1 & H%hv_op & [= <- _]).
Qed.

(** * The code of a block of operations

    The states of the allocator before the operations of a block, and what
    holds of them whatever the operations compute. *)

(** ** A semantics in which every operation is defined *)

Section triv.
  Context (fi : frame_info) {M : Type} (sem : tcg_sem M).

Definition triv : tcg_sem unit :=
  mkSem (λ op _ _ gs _, (replicate (nb_oargs (op_def op)) 0, gs, tt)) (op_type sem) (λ _ _ _ _, FNext)
    (λ _ _ gs _, (λ _, 0, gs, tt)) (λ _, []) (λ _, true) (λ _, true).

#[export] Instance triv_ok : SemOk fi triv.
Proof.
  split; try done; cbn.
  - intros. apply length_replicate.
  - intros op cargs ins gs []. done.
  - intros f ps gs []. done.
Qed.

Lemma triv_step v o st : ∃ st', tcg_step fi triv v o st = Some st'.
Proof.
  destruct st as [vals []]. destruct o as [op oargs iargs cargs|oargs iargs flags|l]; cbn [tcg_step]; [|cbn|by eexists].
  - destruct (is_nop op || _ || _); [by eexists|]. destruct (is_mov op); [by eexists|]. destruct (is_movi op); [by eexists|].
    destruct (_ =? _)%nat; by eexists.
  - unfold call_ok. cbn. rewrite !implb_true_r. by eexists.
Qed.
End triv.

Section flow.
  Context (fi : frame_info) (temp_local : list bool).
  Context (Hloc : ∀ k, fi_local fi k = default false (temp_local !! k)) (Hfew : length temp_local < 2 ^ 31).
  Context {M : Type} (sem : tcg_sem M) (junk : (Z → Z) → M → Z → Z) `{!SemOk fi sem}.
  Notation inv := (inv fi).
  Notation grow := (grow fi).
  Notation Rel d := (@Rel fi _ (mkDisc fi d)).
  Notation lasting := (lasting fi).
  Notation live1 := (live1 (fi_nb_globals fi) temp_local).
  Notation live := (live (fi_nb_globals fi) temp_local).
  Notation wf_op := (wf_op temp_local).
  Notation op_good := (op_good fi temp_local sem).
  Notation defs := (defs fi).
  Implicit Types (s : TCGContext) (d def : nat → bool).

(** ** Before each operation *)

Context (ops : list tcgop).
Notation all_dead := (replicate (length temp_local) true).

Definition dead_at (i : nat) : list bool := (live (drop i ops) all_dead).2.
Definition def_at (i : nat) : nat → bool := foldl (λ def o, defs o def) (λ k, (k <? fi_nb_globals fi)%nat) (take i ops).
Definition disc_at (i : nat) : nat → bool := foldl (λ d o, discs o d) (λ _, false) (take i ops).

(** A block that can be translated. *)
Definition block_good : Prop := ∀ i o, ops !! i = Some o → wf_op o ∧ op_good (def_at i) (disc_at i) o.
Context (Hgood : block_good).

Lemma def_at_S i o : ops !! i = Some o → def_at (S i) = defs o (def_at i).
Proof. intros Ho. unfold def_at. by rewrite (take_S_r _ _ _ Ho), foldl_snoc. Qed.
Lemma disc_at_S i o : ops !! i = Some o → disc_at (S i) = discs o (disc_at i).
Proof. intros Ho. unfold disc_at. by rewrite (take_S_r _ _ _ Ho), foldl_snoc. Qed.

Lemma globals_def_at i : globals_def fi (def_at i).
Proof.
  unfold def_at. generalize (take i ops) as l. intros l. assert (globals_def fi (λ k, (k <? fi_nb_globals fi)%nat)) as Hd.
  { intros k Hk. by apply Nat.ltb_lt. }
  revert Hd. generalize (λ k, (k <? fi_nb_globals fi)%nat) as def. induction l as [|o l IH]; intros def Hd; [done|]. by apply IH, defs_globals.
Qed.

Lemma dead_at_length i : length (dead_at i) = length temp_local.
Proof.
  unfold dead_at. generalize (drop i ops) as l. intros l. induction l as [|o l IH]; [apply length_replicate|]. cbn [TcgLive.live].
  destruct (live l _) as [l' dd]. cbn in IH. pose proof (live1_length (fi_nb_globals fi) temp_local o dd) as H1.
  destruct (live1 o dd) as [[o' m] d']. cbn in *. congruence.
Qed.

(** The operation [i] after the analysis. *)
Lemma live_at i o : ops !! i = Some o →
  ∃ o' m, (live ops all_dead).1 !! i = Some (o', m) ∧ live1 o (dead_at (S i)) = (o', m, dead_at i).
Proof.
  unfold dead_at. revert i. generalize ops as l. induction l as [|x l IH]; intros [|i] Ho; [done..| |]; cbn [TcgLive.live drop].
  - injection Ho as ->. rewrite drop_0. destruct (live l _) as [l' dd]. cbn [snd]. destruct (live1 o dd) as [[o' m] d']. by exists o', m.
  - destruct (IH i Ho) as (o' & m & E1 & E2). destruct (live l _) as [l' dd]. destruct (live1 x dd) as [[x' m'] d']. by exists o', m.
Qed.

(** ** What holds whatever the operations compute *)

Notation junk0 := (λ (_ : Z → Z) (_ : unit) (_ : Z), 0).

(** Before operation [i], the temporaries with values have places. *)
Definition stat (i : nat) s : Prop :=
  inv s ∧ nb_temps s = length temp_local ∧ ∃ vals (h : hstate unit), Rel (disc_at i) s (Lv (dead_at i) (def_at i)) vals h.

Definition nolabel (x : hinsn) : Prop := ∀ l, x ≠ HLabel l.

Lemma hgo_nolabel {N} (sem' : tcg_sem N) junk' c h fl : hgo fi sem' junk' c h fl → ∀ x, x ∈ c → nolabel x.
Proof.
  induction 1 as [h|y h Hy|y c h fl Hy _ _ IH]; intros x Hx; [by apply elem_of_nil in Hx|by apply list_elem_of_singleton in Hx as ->|].
  apply elem_of_cons in Hx as [->|Hx]; [done|by apply IH].
Qed.

(** What an operation does to the state of the allocator. *)
Record stat_next (i : nat) (o : tcgop) s s' : Prop := {
  sn_stat : stat (S i) s';
  sn_grow : grow s s';
  sn_code : ∃ c, code s' = code s ++ c ++ label_of o ∧ ∀ x, x ∈ c → nolabel x;
  sn_settled : ends_op o = true → ∀ k, (k < nb_temps s)%nat → lasting k → settled s' k
}.

Lemma stat_step i o o' m mo rest s s' n :
  stat i s → ops !! i = Some o → live1 o (dead_at (S i)) = (o', m, dead_at i) → (∀ x, m = Some x → mo = Some x) →
  gen_op s (op_opc o') (op_params o' ++ rest) mo = Ok (s', n) → stat_next i o s s'.
Proof.
  intros (HI & Hn & vals & h & HR) Ho HL Hm Hs. destruct (Hgood i o Ho) as [Hwf Hg].
  destruct (sim_op fi temp_local Hloc Hfew (triv sem) junk0 (def_at i) (disc_at i) o o' rest (dead_at (S i)) (dead_at i) m mo s s' n vals h)
    as [[v HS] SE]; try done; [apply dead_at_length|apply globals_def_at|by destruct o|].
  destruct (triv_step fi sem v o (vals, hm h)) as [st' Hst]. destruct (HS st' Hst) as (h' & [G (c & Ec & _ & O) _] & _ & HR').
  split; [|done|exists c; split; [done|by eapply hgo_nolabel]|done].
  split_and!; [apply G|by rewrite (sc_temps _ _ (g_ctx _ _ _ G))|]. exists st'.1, h'. rewrite (def_at_S i o Ho), (disc_at_S i o Ho).
  eapply Rel_sub; [|exact HR']. intros k. apply Lafter_live, dead_at_length.
Qed.

(** Operation [i] leads from one state to the other. *)
Definition gen_at (i : nat) (o : tcgop) s s' : Prop :=
  ∃ o' m mo n rest, live1 o (dead_at (S i)) = (o', m, dead_at i) ∧ (∀ x, m = Some x → mo = Some x) ∧
    gen_op s (op_opc o') (op_params o' ++ rest) mo = Ok (s', n).

Lemma gen_at_next i o s s' : stat i s → ops !! i = Some o → gen_at i o s s' → stat_next i o s s'.
Proof. intros HS Ho (o' & m & mo & n & rest & HL & Hm & Hs). by eapply stat_step. Qed.

(** The states of the allocator before the operations, and the last one. *)
Definition states (St : nat → TCGContext) : Prop := stat 0 (St 0%nat) ∧ ∀ i o, ops !! i = Some o → gen_at i o (St i) (St (S i)).

Lemma loop_states masks : (∀ j o m, (live ops all_dead).1 !! j = Some (o, Some m) → masks !! j = Some m) →
  ∀ n i s s', (i + n = length ops)%nat →
  gen_loop ((op_opc <$> (drop i (live ops all_dead).1).*1) ++ [INDEX_op_end]) i masks s (enc (drop i (live ops all_dead).1).*1) = Ok s' →
  ∃ St : nat → TCGContext, St i = s ∧ St (length ops) = s' ∧ ∀ j o, (i ≤ j)%nat → ops !! j = Some o → gen_at j o (St j) (St (S j)).
Proof.
  intros Hm n. induction n as [|n IH]; intros i s s' Hi Hs.
  { rewrite drop_ge in Hs by (rewrite live_length; lia). injection Hs as <-. exists (λ _, s). split_and!; [done..|].
    intros j o Hj ?%lookup_lt_Some. lia. }
  destruct (lookup_lt_is_Some_2 ops i) as [o Ho]; [lia|]. destruct (live_at i o Ho) as (o' & m & E & HL). destruct (Hgood i o Ho) as [Hwf _].
  rewrite (drop_S _ _ _ E) in Hs. cbn [fmap list_fmap app gen_loop fst] in Hs.
  change (enc (o' :: ?l)) with (op_params o' ++ enc l) in Hs. rewrite (live1_end fi temp_local _ _ _ _ _ Hwf HL) in Hs.
  apply rbind_ok in Hs as ([s1 c] & E1 & Hs). apply rbind_ok in Hs as ([] & _ & Hs). apply rbind_ok in Hs as ([] & _ & Hs).
  rewrite (op_count fi temp_local _ _ _ _ _ _ _ _ _ _ Hwf HL E1), Nat2Z.id, drop_app_length in Hs.
  destruct (IH (S i) s1 s') as (St & S1 & S2 & S3); [lia|done|].
  exists (λ j, if decide (j = i) then s else St j). split_and!; [by rewrite decide_True|rewrite decide_False by lia; done|].
  intros j oj Hj Hoj. rewrite (decide_False (P := S j = i)) by lia. destruct (decide (j = i)) as [->|Hne]; [|apply S3; [lia|done]].
  rewrite Ho in Hoj. injection Hoj as <-. rewrite S1. exists o', m, (masks !! i), c. eexists. split_and!; [done| |exact E1].
  intros x ->. by eapply Hm.
Qed.

(** ** Properties of the states *)

Context (St : nat → TCGContext) (HSt : states St) (Hcode : code (St 0%nat) = []).

Lemma next_stat i : (i ≤ length ops)%nat → stat i (St i).
Proof.
  destruct HSt as [H0 HN]. induction i as [|i IH]; intros Hi; [done|]. destruct (lookup_lt_is_Some_2 ops i) as [o Ho]; [lia|].
  eapply sn_stat, gen_at_next; [apply IH; lia|done|by apply HN].
Qed.

Lemma next_at i o : ops !! i = Some o → stat_next i o (St i) (St (S i)).
Proof. intros Ho. apply gen_at_next; [apply next_stat; apply lookup_lt_Some in Ho; lia|done|by apply HSt]. Qed.

Lemma grow_le i j : (i ≤ j ≤ length ops)%nat → grow (St i) (St j).
Proof.
  intros [Hij Hj]. induction Hij as [|j Hij IH]; [apply grow_refl, (next_stat i Hj)|].
  destruct (lookup_lt_is_Some_2 ops j) as [o Ho]; [lia|]. eapply grow_trans; [apply IH; lia|]. by eapply sn_grow, next_at.
Qed.

Lemma code_prefix i j : (i ≤ j ≤ length ops)%nat → ∃ c, code (St j) = code (St i) ++ c.
Proof.
  intros [Hij Hj]. induction Hij as [|j Hij IH]; [exists []; by rewrite app_nil_r|].
  destruct (lookup_lt_is_Some_2 ops j) as [o Ho]; [lia|]. destruct IH as [c Ec]; [lia|].
  destruct (sn_code _ _ _ _ (next_at j o Ho)) as (c' & E & _). exists (c ++ c' ++ label_of o). by rewrite E, Ec, <- app_assoc.
Qed.

(** Labels in the code come from the operations. *)
Lemma label_of_elem l o : HLabel l ∈ label_of o → is_label l o = true.
Proof.
  destruct o as [op oargs iargs [|x cargs]|oargs iargs flags|x]; cbn; try (intros []%elem_of_nil). destruct (op =? _)%nat; [|intros []%elem_of_nil].
  intros [= ->]%list_elem_of_singleton. apply Z.eqb_refl.
Qed.

Lemma label_of_is l o : is_label l o = true → label_of o = [HLabel l].
Proof.
  destruct o as [op oargs iargs [|x cargs]|oargs iargs flags|x]; cbn; try done. intros [-> E%Z.eqb_eq]%andb_true_iff. by subst.
Qed.

Lemma label_origin i l : (i ≤ length ops)%nat → HLabel l ∈ code (St i) → ∃ j o, (j < i)%nat ∧ ops !! j = Some o ∧ is_label l o = true.
Proof.
  induction i as [|i IH]; intros Hi Hl; [rewrite Hcode in Hl; by apply elem_of_nil in Hl|].
  destruct (lookup_lt_is_Some_2 ops i) as [o Ho]; [lia|]. destruct (sn_code _ _ _ _ (next_at i o Ho)) as (c & E & Hc).
  rewrite E in Hl. apply elem_of_app in Hl as [Hl|[Hl|Hl]%elem_of_app].
  - destruct IH as (j & oj & ? & ? & ?); [lia|done|]. exists j, oj. split_and!; [lia|done..].
  - by destruct (Hc _ Hl l).
  - exists i, o. split_and!; [lia|done|by apply label_of_elem].
Qed.

(** A label is where the code of its operation ends. *)
Lemma label_pos l j : after_label ops l = Some j →
  ∃ i o p, j = S i ∧ ops !! i = Some o ∧ ends_op o = true ∧ hlabel_pos (code (St (length ops))) l = Some p ∧ code (St (length ops)) !! p = Some (HLabel l) ∧
    S p = length (code (St j)).
Proof.
  unfold after_label. destruct (list_find _ ops) as [[i o]|] eqn:E; [|done]. intros [= <-]. cbn [fst].
  apply list_find_Some in E as (Ho & Hl & Hfirst). pose proof (lookup_lt_Some _ _ _ Ho) as Hi.
  destruct (sn_code _ _ _ _ (next_at i o Ho)) as (c & E & Hc). rewrite (label_of_is l o Hl) in E.
  destruct (code_prefix (S i) (length ops)) as [c' Ec]; [lia|]. exists i, o, (length (code (St i) ++ c)).
  assert (code (St (length ops)) = (code (St i) ++ c) ++ HLabel l :: c') as EC by (rewrite Ec, E, <- !app_assoc; done).
  assert (ends_op o = true) as He. { destruct o as [op oargs iargs [|x cargs]|oargs iargs flags|x]; try done. apply andb_true_iff in Hl as [Hl _]. cbn. unfold ends. by rewrite Hl, orb_true_r. }
  split_and!; [done..| | |].
  - unfold hlabel_pos. replace (list_find _ _) with (Some (length (code (St i) ++ c), HLabel l)); [done|]. symmetry. apply list_find_Some.
    rewrite EC. split_and!; [apply lookup_mid|apply Z.eqb_refl|]. intros p x Hp Hlt Hx. rewrite lookup_app_l in Hp by done.
    assert (x = HLabel l) as ->. { destruct x; try done. cbn in Hx. apply Z.eqb_eq in Hx. by subst. }
    apply list_elem_of_lookup_2, elem_of_app in Hp as [Hp|Hp]; [|by destruct (Hc _ Hp l)].
    destruct (label_origin i l) as (j & oj & Hj & Hoj & Hlj); [lia|done|]. by apply (Hfirst j oj).
  - rewrite EC. apply lookup_mid.
  - rewrite E, app_assoc, (length_app (code (St i) ++ c) [HLabel l]). cbn [length]. lia.
Qed.

End flow.
