(* ===== verification/TcgRun.v ===== *)
(** * The host code runs as the operations do

    Branches included: where the operations go to a label, the host code does,
    and there every temporary with a value is where the allocator expects it. *)

From stdpp Require Import base gmap list functions.
From S2P Require Import Prelude TcgData TcgLive TcgLiveInv TcgAlloc TcgSem TcgInv TcgSpill TcgSave TcgArgs TcgOpIn TcgOp TcgCall TcgSim TcgLoop TcgFlow.
Local Open Scope Z_scope.
Local Coercion Z.of_nat : nat >-> Z.

(** ** Execution of code *)

Section exec.
  Context (fi : frame_info) {M : Type} (sem : tcg_sem M) (junk : (Z → Z) → M → Z → Z).
  Notation hexec := (hexec fi sem junk).
  Notation hrun := (hrun fi sem junk).
  Notation hgo := (hgo fi sem junk).

Lemma hexec_add C n m pc h : hexec C (n + m) pc h =
  match hexec C n pc h with Some (Some pc', h') => hexec C m pc' h' | r => r end.
Proof.
  revert pc h. induction n as [|n IH]; intros pc h; [done|]. cbn [Nat.add TcgSem.hexec]. destruct (hnext _ _ _ _ _ _) as [[[pc'|] h']|]; cbn; [apply IH|done..].
Qed.

Lemma hexec_go C c h fl : hgo c h fl → ∀ pre post, C = pre ++ c ++ post →
  hexec C (length c) (length pre) h =
  match fl with
  | FNext => Some (Some (length (pre ++ c)), hrun c h)
  | FJump l => p ← hlabel_pos C l; Some (Some p, hrun c h)
  | FExit => Some (None, hrun c h)
  end.
Proof.
  induction 1 as [h|x h Hx|x c h fl Hx Hfl _ IH]; intros pre post EC.
  - cbn. by rewrite app_nil_r.
  - assert (C !! length pre = Some x) as HC by (rewrite EC; apply lookup_mid). cbn [length TcgSem.hexec]. unfold hnext. rewrite HC. cbn. destruct (hflow sem h x); cbn; [|by destruct (hlabel_pos C label)|done].
    by rewrite length_app, Nat.add_1_r.
  - assert (C !! length pre = Some x) as HC by (rewrite EC; apply lookup_mid). cbn [length TcgSem.hexec]. unfold hnext. rewrite HC. cbn. rewrite Hfl. cbn.
    specialize (IH (pre ++ [x]) post). rewrite <- !app_assoc in IH. specialize (IH EC). rewrite length_app, Nat.add_1_r in IH. exact IH.
Qed.
End exec.

Section run.
  Context (fi : frame_info) (temp_local : list bool).
  Context (Hloc : ∀ k, fi_local fi k = default false (temp_local !! k)) (Hfew : length temp_local < 2 ^ 31).
  Context {M : Type} (sem : tcg_sem M) (junk : (Z → Z) → M → Z → Z) `{!SemOk fi sem}.
  Context (ops : list tcgop) (Hgood : block_good fi temp_local sem ops).
  Context (St : nat → TCGContext) (HSt : states fi temp_local ops St) (Hcode : code (St 0%nat) = []).
  Notation Rel d := (@Rel fi _ (mkDisc fi d)).
  Notation def_at := (def_at fi ops).
  Notation disc_at := (disc_at ops).
  Notation dead_at := (dead_at fi temp_local ops).
  Notation hexec := (hexec fi sem junk).
  Notation hrun := (hrun fi sem junk).
  Implicit Types (h : hstate M).

(** What has a value after a label has one where a branch to it is. *)
Definition jumps_good : Prop := ∀ i op oargs iargs cargs l j,
  ops !! i = Some (TOp op oargs iargs cargs) → l ∈ op_labels op cargs → after_label ops l = Some j →
  ∀ k, def_at j k = true → def_at (S i) k = true.
Context (Hjumps : jumps_good).

(** Jumps without the flag of the end of a basic block: [patch] is the first
    operation of a block, where every global is in its slot, and
    [cmp_ibchain] is not in one. *)
Definition patch_first : Prop := ∀ i op oargs iargs cargs,
  ops !! i = Some (TOp op oargs iargs cargs) → steers op = true → i = 0%nat ∧ op = INDEX_op_patch.
Context (Hfirst : patch_first).

Definition rel (i : nat) vals h : Prop := Rel (disc_at i) (St i) (Lv (dead_at i) (def_at i)) vals h.
Notation pos i := (length (code (St i))).
Notation C := (code (St (length ops))).

(** Control can leave here: what has a value and lasts has it, needed or not,
    and has it in memory. *)
Record placed (i : nat) vals h : Prop := {
  pl_rel : Rel (disc_at i) (St i) (λ k, def_at i k = true) vals h;
  pl_settled k : def_at i k = true → lasting fi k → settled (St i) k
}.

(** After the end of a block, what has a value lasts. *)
Lemma ends_lasting i o k : ops !! i = Some o → ends_op o = true → def_at (S i) k = true → lasting fi k.
Proof.
  intros Ho He. rewrite (def_at_S fi ops i o Ho). destruct o as [op oargs iargs cargs|oargs iargs flags|x]; [|done..]. cbn in He |- *. rewrite He.
  intros [_ Hl%lastingb_iff]%andb_true_iff. done.
Qed.

Lemma placed_end i o vals h :
  ops !! i = Some o → ends_op o = true →
  Rel (disc_at (S i)) (St (S i)) (Lafter fi temp_local o (dead_at (S i)) (def_at i)) vals h → placed (S i) vals h.
Proof.
  intros Ho He HR. pose proof (lookup_lt_Some _ _ _ Ho) as Hi.
  pose proof (next_at fi temp_local Hloc Hfew sem ops Hgood St HSt i o Ho) as [(Ii & Ni & _) _ _ Si].
  pose proof (next_stat fi temp_local Hloc Hfew sem ops Hgood St HSt i ltac:(lia)) as (_ & Ni0 & _). split.
  - intros k ts Hk Hts Hd. apply HR; [done..|]. unfold Lafter. rewrite He. split; [lia|]. by rewrite <- (def_at_S fi ops i o Ho).
  - intros k Hd Hl ts Hts. pose proof (inv_temps _ _ Ii). destruct (decide (k < nb_temps (St i))%nat) as [Hk|Hk]; [by apply (Si He k Hk Hl)|].
    exfalso. destruct Hl as [Hl|Hl]; [pose proof (inv_globals _ _ Ii); lia|]. rewrite Hloc, lookup_ge_None_2 in Hl by lia. done.
Qed.

(** A jump: the places after it are those after the label. *)
Lemma jump_rel i j l vals h :
  (i ≤ length ops)%nat → after_label ops l = Some j → (∀ k, def_at j k = true → def_at i k = true) → placed i vals h → rel j vals h.
Proof.
  intros Hi Hj Hd [HR Si] k tj Hk Htj HL. destruct (label_pos fi temp_local Hloc Hfew sem ops Hgood St HSt Hcode l j Hj) as (i' & o' & _ & -> & Ho' & He' & _).
  pose proof (lookup_lt_Some _ _ _ Ho') as Hi'.
  pose proof (next_stat fi temp_local Hloc Hfew sem ops Hgood St HSt i Hi) as (Ii & Ni & _).
  pose proof (next_at fi temp_local Hloc Hfew sem ops Hgood St HSt i' o' Ho') as [(Ij & Nj & vals0 & h0 & HR0) _ _ Sj].
  pose proof (next_stat fi temp_local Hloc Hfew sem ops Hgood St HSt i' ltac:(lia)) as (_ & Nj0 & _).
  assert (∀ a b, (a ≤ b ≤ length ops)%nat → grow fi (St a) (St b)) as HG by (intros a b; by apply (grow_le fi temp_local Hloc Hfew sem ops Hgood St HSt)).
  assert (lasting fi k) as Hlk by (eapply (ends_lasting i'); [done..|apply HL]).
  rewrite Nj in Hk. assert (k < nb_temps (St i))%nat as Hki by lia. pose proof (inv_temps _ _ Ii).
  destruct (lookup_lt_is_Some_2 (temps (St i)) k) as [ti Hti]; [lia|].
  pose proof (inv_temp _ _ Ii k ti Hki Hti) as TI. pose proof (inv_temp _ _ Ij k tj ltac:(lia) Htj) as TJ.
  pose proof (HR k ti Hki Hti (Hd k (proj2 HL))) as Hloci.
  specialize (HR0 k tj ltac:(lia) Htj HL). unfold located in *. rewrite (t_type _ _ _ _ TI), (t_fixed _ _ _ _ TI) in Hloci.
  rewrite (t_fixed _ _ _ _ TJ) in HR0. rewrite (t_type _ _ _ _ TJ), (t_fixed _ _ _ _ TJ). destruct (fi_fixed fi k) eqn:Hf.
  { rewrite (t_reg_fixed _ _ _ _ TJ), <- (t_reg_fixed _ _ _ _ TI); [done|by rewrite (t_fixed _ _ _ _ TI)|by rewrite (t_fixed _ _ _ _ TJ)]. }
  destruct (Si k (Hd k (proj2 HL)) Hlk ti Hti) as [E|Ei]; [rewrite (t_fixed _ _ _ _ TI) in E; congruence|].
  destruct (Sj He' k ltac:(lia) Hlk tj Htj) as [E|Ej]; [rewrite (t_fixed _ _ _ _ TJ) in E; congruence|].
  rewrite Ei in Hloci. rewrite Ej in *. destruct Hloci as [Ai Hs]. destruct HR0 as [Aj _]. split; [done|].
  assert (home tj = home ti) as ->; [|done]. destruct (decide (i ≤ S i')%nat).
  - destruct (g_temps _ _ _ (HG i (S i') ltac:(lia)) k ti Hti) as (t & Ht & _ & Hm). destruct (Hm Ai). congruence.
  - destruct (g_temps _ _ _ (HG (S i') i ltac:(lia)) k tj Htj) as (t & Ht & _ & Hm). destruct (Hm Aj). congruence.
Qed.

(** Control leaves the block: the globals in memory are there. *)
Lemma exit_slots i vals h : (i ≤ length ops)%nat → placed i vals h → in_slots fi vals h.
Proof.
  intros Hi [HR Si]. pose proof (next_stat fi temp_local Hloc Hfew sem ops Hgood St HSt i Hi) as (Ii & Ni & _).
  assert (∀ k, (k < fi_nb_globals fi)%nat → def_at i k = true) as Hd by apply globals_def_at.
  apply (settled_in_slots fi (dl := mkDisc fi (disc_at i)) (St i)); [done| |].
  - intros k Hk. rewrite (inv_globals _ _ Ii) in Hk. apply Si; [by apply Hd|by left].
  - eapply Rel_sub; [|exact HR]. intros k [Hg%Nat.ltb_lt _]%andb_true_iff. by apply Hd.
Qed.

(** ** A [patch] at the head of the block *)

Lemma params_Ok par a n l : params par a n = Ok l → l = take (Z.to_nat n) (drop (Z.to_nat a) par).
Proof. unfold params. destruct (_ || _); [done|]. by intros [= <-]. Qed.

Lemma gen_patch s l rest mo s' n :
  gen_op s INDEX_op_patch (l :: rest) mo = Ok (s', n) → s' = out s (HOp INDEX_op_patch [l] []).
Proof.
  rewrite gen_op_general by done. intros H. apply rbind_ok in H as (m & _ & H). apply rbind_ok in H as (s1 & E & [= <- _]).
  unfold tcg_reg_alloc_op in E. apply rbind_ok in E as (ca & E1 & E). apply rbind_ok in E as (ia & E2 & E). apply rbind_ok in E as (oa & E3 & E).
  apply params_Ok in E1 as ->, E2 as ->, E3 as ->. by injection E as <-.
Qed.

Lemma patch_sim oargs iargs cargs vals h :
  let o := TOp INDEX_op_patch oargs iargs cargs in
  ops !! 0%nat = Some o → placed 0 vals h →
  ∀ st', tcg_step fi sem 0 o (vals, hm h) = Some st' →
  ∃ h', advance fi sem junk o (tcg_flow sem o (vals, hm h)) (St 0%nat) h (St 1%nat) h' ∧ hm h' = st'.2 ∧ placed 1 st'.1 h'.
Proof.
  intros o Ho [HR HS] st'. destruct (Hgood 0%nat o Ho) as [(_ & _ & _ & _ & Hlo & Hli & Hlc & _) _].
  pose proof (next_at fi temp_local Hloc Hfew sem ops Hgood St HSt 0%nat o Ho) as [_ G _ _].
  destruct (proj2 HSt 0%nat o Ho) as (o' & m & mo & n & rest & HL & _ & Hs).
  assert (o' = o) as -> by (unfold o in HL; cbn [TcgLive.live1] in HL; repeat case_match; by simplify_eq).
  destruct oargs; [|done]. destruct iargs; [|done]. destruct cargs as [|l [|]]; try done. apply gen_patch in Hs.
  unfold o. rewrite general_step by done. destruct (op_sem _ _ _ _ _ _) as [[outs g] m'] eqn:Es. intros [= <-].
  exists (hstep fi sem junk h (HOp INDEX_op_patch [l] [])).
  assert (hstep fi sem junk h (HOp INDEX_op_patch [l] []) = mkH (hregs h) (hslots h) m') as E.
  { change (hstep _ _ _ _ _) with (let '(outs, _, m') := op_sem sem INDEX_op_patch [l] [] (λ _, 0) (hm h) in mkH (set_regs [] outs (hregs h)) (hslots h) m').
    change (op_sem sem INDEX_op_patch [l] [] (λ _, 0) (hm h) = (outs, g, m')) in Es. by rewrite Es. }
  rewrite E. split_and!; [split; [done| |done]|done|].
  - exists [HOp INDEX_op_patch [l] []]. rewrite Hs. split_and!; [done|done|]. apply (hgo_last fi sem junk). done.
  - split.
    + rewrite Hs. eapply (Rel_disc fi (disc_at 0)).
      * intros k ts Hk Hts Hd. apply HR; [done..|]. rewrite (def_at_S fi ops 0 o Ho) in Hd. unfold o in Hd. by rewrite defs_none in Hd.
      * intros k _ Hd _. left. rewrite (disc_at_S ops 0 o Ho). unfold o. by rewrite discs_none.
    + intros k Hd Hl. rewrite Hs. apply HS; [|done]. rewrite (def_at_S fi ops 0 o Ho) in Hd. unfold o in Hd. by rewrite defs_none in Hd.
Qed.

(** The code of operation [i] in the code of the block. *)
Lemma code_run i o fl h h' :
  ops !! i = Some o → advance fi sem junk o fl (St i) h (St (S i)) h' → (fl ≠ FNext → label_of o = []) →
  ∃ n, hexec C n (pos i) h =
    match fl with FNext => Some (Some (pos (S i)), h') | FJump l => p ← hlabel_pos C l; Some (Some p, h') | FExit => Some (None, h') end.
Proof.
  intros Ho [_ (c & Ec & -> & O) _] Hlb. pose proof (lookup_lt_Some _ _ _ Ho) as Hi.
  destruct (code_prefix fi temp_local Hloc Hfew sem ops Hgood St HSt (S i) (length ops)) as [post EC]; [lia|]. rewrite Ec in EC.
  rewrite <- !app_assoc in EC. pose proof (hexec_go fi sem junk _ _ _ _ O (code (St i)) (label_of o ++ post) EC) as HX.
  destruct fl as [|l|].
  - destruct (label_of o) as [|x t] eqn:El; [exists (length c); by rewrite Ec, app_nil_r|]. exists (length c + 1)%nat. rewrite hexec_add, HX.
    assert (∃ l, x = HLabel l ∧ t = []) as (l & -> & ->).
    { destruct o as [op oargs iargs [|l cargs]|oargs iargs flags|l]; try done. cbn in El. destruct (_ =? _)%nat; [|done]. injection El as <- <-. by exists l. }
    cbn [TcgSem.hexec]. unfold hnext. rewrite EC, app_assoc. cbn [app]. rewrite lookup_mid. cbn. by rewrite Ec, app_assoc, (length_app _ [_]), Nat.add_1_r.
  - exists (length c). exact HX.
  - exists (length c). exact HX.
Qed.

(** An operation goes on, ends a basic block, or is a [patch]. *)
Lemma op_kinds o :
  (∀ op oargs iargs cargs, o = TOp op oargs iargs cargs → steers op = true → op = INDEX_op_patch) →
  op_falls sem o ∨ ∃ oargs iargs cargs, o = TOp INDEX_op_patch oargs iargs cargs.
Proof.
  intros HF. destruct o as [op oargs iargs cargs|oargs iargs flags|l]; [|by left..]. destruct (steers op) eqn:E.
  - right. rewrite (HF op oargs iargs cargs eq_refl E). eauto.
  - left. intros Hbb ???. by apply op_flow_next.
Qed.

Lemma flow_ends o st : op_falls sem o → tcg_flow sem o st ≠ FNext → ends_op o = true ∧ label_of o = [].
Proof.
  intros Hf Hfl. destruct o as [op oargs iargs cargs|oargs iargs flags|l]; [|done..].
  destruct (has_flag (op_flags (op_def op)) TCG_OPF_BB_END) eqn:E; [|by destruct Hfl; apply Hf].
  split; [cbn; unfold ends; by rewrite E|]. apply label_none. intros ->. done.
Qed.

(** One operation; at the head of the block everything is in its place. *)
Definition before (i : nat) vals h : Prop := rel i vals h ∧ (i = 0%nat → placed 0 vals h).
Definition kept_regs h h' : Prop := ∀ r, tcg_regset_test_reg (reserved_regs (St 0%nat)) r = true → hregs h' r = hregs h r.

Lemma op_sim i o vals h :
  ops !! i = Some o → before i vals h →
  ∃ v, ∀ st', tcg_step fi sem v o (vals, hm h) = Some st' →
    ∃ h', advance fi sem junk o (tcg_flow sem o (vals, hm h)) (St i) h (St (S i)) h' ∧ hm h' = st'.2 ∧ rel (S i) st'.1 h' ∧
      (tcg_flow sem o (vals, hm h) ≠ FNext → label_of o = [] ∧ placed (S i) st'.1 h').
Proof.
  intros Ho [HR HP]. pose proof (lookup_lt_Some _ _ _ Ho) as Hi. destruct (Hgood i o Ho) as [Hwf Hg].
  destruct (next_stat fi temp_local Hloc Hfew sem ops Hgood St HSt i ltac:(lia)) as (HI & Hn & _).
  destruct (op_kinds o) as [Hf|(oargs & iargs & cargs & ->)]; [by intros op oargs iargs cargs ->; eapply Hfirst| |].
  - destruct (proj2 HSt i o Ho) as (o' & m & mo & n & rest & HL & Hm & Hs).
    destruct (sim_op fi temp_local Hloc Hfew sem junk (def_at i) (disc_at i) o o' rest (dead_at (S i)) (dead_at i) m mo (St i) (St (S i)) n vals h)
      as [[v HS] SE]; try done; [apply dead_at_length|apply globals_def_at|].
    exists v. intros st' Hst. destruct (HS st' Hst) as (h' & A & Em & HR'). rewrite <- (disc_at_S ops i o Ho) in HR'. exists h'. split_and!; [done..| |].
    + unfold rel. rewrite (def_at_S fi ops i o Ho). eapply Rel_sub; [|exact HR']. intros k. apply Lafter_live, dead_at_length.
    + intros Hne. destruct (flow_ends o _ Hf Hne) as [He Hlb]. split; [done|]. by eapply placed_end.
  - destruct (Hfirst i _ _ _ _ Ho eq_refl) as [-> _]. exists 0. intros st' Hst.
    destruct (patch_sim oargs iargs cargs vals h Ho (HP eq_refl) st' Hst) as (h' & A & Em & HP'). exists h'. split_and!; [done..| |].
    + eapply Rel_sub; [|apply HP']. by intros k [_ ?].
    + intros _. split; [|done]. by apply label_none.
Qed.

Lemma step_sim i o vals h :
  ops !! i = Some o → before i vals h →
  ∃ v, ∀ pc' st', tcg_next fi sem ops v i (vals, hm h) = Some (pc', st') →
    ∃ n h', hexec C n (pos i) h = Some ((λ j, pos j) <$> pc', h') ∧ hm h' = st'.2 ∧ kept_regs h h' ∧
      match pc' with Some j => (j ≤ length ops)%nat ∧ before j st'.1 h' | None => in_slots fi st'.1 h' end.
Proof.
  intros Ho HB. pose proof (lookup_lt_Some _ _ _ Ho) as Hi. destruct (op_sim i o vals h Ho HB) as [v HS].
  exists v. intros pc' st' Hst. unfold tcg_next in Hst. rewrite Ho in Hst. cbn [mbind option_bind] in Hst.
  destruct (tcg_step fi sem v o (vals, hm h)) as [st|]; [|done]. cbn in Hst. destruct (HS st eq_refl) as (h' & A & Em & HR & HP).
  destruct (tcg_flow sem o (vals, hm h)) as [|l|] eqn:Hfl; cbn in Hst.
  all: destruct (code_run i o _ h h' Ho A) as [n' HX]; [intros Hne; by apply HP|].
  all: assert (kept_regs h h') as HK by (intros r Hr; apply (a_res _ _ _ _ _ _ _ _ _ A);
    by rewrite (sc_res _ _ (g_ctx _ _ _ (grow_le fi temp_local Hloc Hfew sem ops Hgood St HSt 0 i ltac:(lia))))).
  - injection Hst as <- <-. exists n', h'. split_and!; [done..|cbn; lia|]. by split.
  - destruct (HP ltac:(done)) as [_ HP']. destruct (after_label ops l) as [j|] eqn:Hj; [|done]. cbn in Hst. injection Hst as <- <-.
    destruct (label_pos fi temp_local Hloc Hfew sem ops Hgood St HSt Hcode l j Hj) as (i' & _ & p & -> & Ho'%lookup_lt_Some & _ & Hp & Hx & Hpos).
    rewrite Hp in HX. exists (n' + 1)%nat, h'. rewrite hexec_add, HX. cbn [mbind option_bind TcgSem.hexec]. unfold hnext. rewrite Hx. cbn.
    split_and!; [by rewrite Hpos|done|done|lia|]. split; [|done]. eapply (jump_rel (S i) (S i') l); [lia|done| |done].
    destruct o as [op oargs iargs cargs|oargs iargs flags|x]; [|done..]. cbn in Hfl. apply op_flow_label in Hfl. by eapply Hjumps.
  - destruct (HP ltac:(done)) as [_ HP']. injection Hst as <- <-. exists n', h'. split_and!; [done..|]. by eapply (exit_slots (S i)); [lia|].
Qed.

(** Any number of operations: either the operations go wrong, or the host code
    follows them. *)
Lemma exec_sim N : ∀ i vals h, (i ≤ length ops)%nat → before i vals h →
  ∃ vs, length vs = N ∧
    (tcg_exec fi sem ops vs i (vals, hm h) = None ∨
     ∃ pc' st' n h', tcg_exec fi sem ops vs i (vals, hm h) = Some (pc', st') ∧ hexec C n (pos i) h = Some ((λ j, pos j) <$> pc', h') ∧
       hm h' = st'.2 ∧ kept_regs h h' ∧ (pc' = None → in_slots fi st'.1 h')).
Proof.
  induction N as [|N IH]; intros i vals h Hi HR.
  { exists []. split; [done|]. right. exists (Some i), (vals, hm h), 0%nat, h. split_and!; try done. }
  destruct (ops !! i) as [o|] eqn:Ho.
  2: { exists (replicate (S N) 0). split; [apply length_replicate|]. left. cbn. unfold tcg_next. by rewrite Ho. }
  destruct (step_sim i o vals h Ho HR) as [v HS]. destruct (tcg_next fi sem ops v i (vals, hm h)) as [[pc' st']|] eqn:Est.
  2: { exists (v :: replicate N 0). split; [cbn; by rewrite length_replicate|]. left. cbn. by rewrite Est. }
  destruct (HS pc' st' eq_refl) as (n & h' & HX & Em & HK & Hpc). destruct pc' as [j|].
  - destruct Hpc as [Hj HRj]. destruct (IH j st'.1 h' Hj HRj) as (vs & Hl & Hvs). exists (v :: vs). split; [cbn; by rewrite Hl|].
    rewrite Em, <- surjective_pairing in Hvs. cbn [tcg_exec]. rewrite Est. cbn. destruct Hvs as [?|(pc2 & st2 & n2 & h2 & E2 & X2 & M2 & K2 & S2)]; [by left|right].
    exists pc2, st2, (n + n2)%nat, h2. rewrite hexec_add, HX. split_and!; try done. intros r Hr. by rewrite K2, HK.
  - exists (v :: replicate N 0). split; [cbn; by rewrite length_replicate|]. right. exists None, st', n, h'. cbn. rewrite Est. by split_and!.
Qed.

End run.

(** * Code generation

    What a context must be when [tcg_gen_code] begins, and what the code does
    then. *)

#[local] Arguments Nat.ltb : simpl never.

(** ** The context *)

Definition ctx_temp (s : TCGContext) (k : nat) : TCGTemp :=
  default (mkTemp TCG_TYPE_I32 TCG_TYPE_I32 TEMP_VAL_DEAD 0 0 0 0 false false false false false 0) (temps s !! k).
Definition ctx_local (s : TCGContext) : list bool := temp_local <$> take (nb_temps s) (temps s).

Definition ctx_info (s : TCGContext) : frame_info :=
  mkFI (nb_globals s) (λ k, ttype (ctx_temp s k)) (λ k, (k <? nb_globals s)%nat && fixed_reg (ctx_temp s k))
    (λ k, default false (ctx_local s !! k)) (λ k, home (ctx_temp s k)) (λ k, treg (ctx_temp s k)).

(** A global in memory: its slot is reached through a reserved register and
    is not in the frame. *)
Record slot_ok (s : TCGContext) (ts : TCGTemp) : Prop := {
  so_alloc : mem_allocated ts = true;
  so_base : mem_reg ts ≠ TCG_REG_CALL_STACK ∧ tcg_regset_test_reg (reserved_regs s) (mem_reg ts) = true;
  so_frame : mem_reg ts = frame_reg s → mem_offset ts + size_of (ttype ts) ≤ frame_start s ∨ frame_end s ≤ mem_offset ts
}.

(** The globals. *)
Record globals_wf (s : TCGContext) : Prop := {
  gw_global k ts : (k < nb_globals s)%nat → temps s !! k = Some ts →
    if fixed_reg ts then tcg_regset_test_reg (reserved_regs s) (treg ts) = true else slot_ok s ts;
  gw_apart j k tj tk : (j < k < nb_globals s)%nat → temps s !! j = Some tj → temps s !! k = Some tk →
    fixed_reg tj = false → fixed_reg tk = false → apart tj tk;
  gw_clobber r : clobbered r = true → tcg_regset_test_reg (reserved_regs s) r = false
}.

Record ctx_wf (s : TCGContext) : Prop := {
  wf_globals : globals_wf s;
  wf_temps : (nb_globals s ≤ nb_temps s ≤ length (temps s))%nat;
  wf_max : (nb_temps s ≤ TCG_MAX_TEMPS)%nat;
  wf_start : frame_start s ≤ current_frame_offset s;
  wf_frame : frame_reg s ≠ TCG_REG_CALL_STACK ∧ tcg_regset_test_reg (reserved_regs s) (frame_reg s) = true
}.

(** The values of the globals where the code expects them when it begins. *)
Definition at_entry {M} (fi : frame_info) (vals : nat → Z) (h : hstate M) : Prop :=
  in_slots fi vals h ∧ ∀ k, (k < fi_nb_globals fi)%nat → fi_fixed fi k = true → eqv (fi_type fi k) (hregs h (fi_reg fi k)) (vals k).

Section start.
  Context (s : TCGContext) (Hwf : ctx_wf s).
  Notation fi := (ctx_info s).
  Notation s0 := (tcg_reg_alloc_start s <| code := [] |>).

Lemma ctx_local_length : length (ctx_local s) = nb_temps s.
Proof. unfold ctx_local. rewrite length_fmap, length_take. pose proof (wf_temps _ Hwf). lia. Qed.

Lemma ctx_few : length (ctx_local s) < 2 ^ 31.
Proof. rewrite ctx_local_length. pose proof (wf_max _ Hwf) as H. unfold TCG_MAX_TEMPS in H. lia. Qed.

Lemma start_lookup k ts0 : (k < nb_temps s)%nat → temps s0 !! k = Some ts0 →
  ∃ ts, temps s !! k = Some ts ∧ ctx_temp s k = ts ∧ ts0 = start_temp (nb_globals s) k ts.
Proof.
  intros Hk H. change (temps s0) with (imap (λ i ts, if (i <? nb_temps s)%nat then start_temp (nb_globals s) i ts else ts) (temps s)) in H.
  rewrite list_lookup_imap in H. destruct (temps s !! k) as [ts|] eqn:E; [|done]. unfold fmap, option_fmap, option_map in H.
  rewrite (proj2 (Nat.ltb_lt _ _) Hk) in H. injection H as <-. exists ts. unfold ctx_temp. by rewrite E.
Qed.

Lemma start_temp_ok k ts0 : (k < nb_temps s)%nat → temps s0 !! k = Some ts0 → temp_ok fi s0 k ts0.
Proof.
  intros Hk H. destruct (start_lookup k ts0 Hk H) as (ts & Hts & Ec & ->). pose proof (gw_global _ (wf_globals _ Hwf) k ts) as HG.
  assert (ctx_local s !! k = Some (temp_local ts)) as Hl by (unfold ctx_local; rewrite list_lookup_fmap, lookup_take, decide_True, Hts by done; done).
  unfold start_temp, mem_global. destruct (Nat.ltb_spec k (nb_globals s)) as [Hg|Hg].
  - specialize (HG Hg Hts). split; cbn; rewrite ?Ec, ?Hl; unfold mem_global; cbn; rewrite ?(proj2 (Nat.ltb_lt _ _) Hg), ?Ec; try done.
    + intros Hf. rewrite Hf in HG |- *. done.
    + rewrite !andb_true_l. intros Hf%negb_true_iff. rewrite Hf in HG. split; [apply HG|done].
    + intros [Hf _]. cbn in Hf. rewrite Hf in HG. destruct HG as [_ [? ?] HS]. pose proof (wf_start _ Hwf). split_and!; [done..|]. intros E. destruct (HS E); [left; lia|by right].
    + intros ->. done.
  - split; cbn; rewrite ?Ec, ?Hl; unfold mem_global; cbn; rewrite ?(proj2 (Nat.ltb_ge _ _) Hg); try done. by intros [_ ?].
Qed.

Lemma start_inv : inv fi s0.
Proof.
  split; [done| |done|apply start_temp_ok| | |apply (wf_frame _ Hwf)|apply (gw_clobber _ (wf_globals _ Hwf))].
  - cbn. rewrite length_imap. apply (wf_temps _ Hwf).
  - intros r k Hr. unfold rt. cbn [reg_to_temp]. intros [-> _]%lookup_replicate. by left.
  - intros j k tj0 tk0 Hne Hj Hk Htj Htk Hhj Hhk. destruct (start_lookup j tj0 Hj Htj) as (tj & Ej & _ & ->).
    destruct (start_lookup k tk0 Hk Htk) as (tk & Ek & _ & ->). unfold start_temp, has_home in *.
    destruct (Nat.ltb_spec j (nb_globals s)); [|by destruct Hhj]. destruct (Nat.ltb_spec k (nb_globals s)); [|by destruct Hhk].
    destruct Hhj as [Fj _], Hhk as [Fk _]. cbn in Fj, Fk. unfold apart. cbn. destruct (decide (j < k)%nat).
    + apply (gw_apart _ (wf_globals _ Hwf) j k tj tk); done || lia.
    + assert (apart tk tj) as A by (apply (gw_apart _ (wf_globals _ Hwf) k j tk tj); done || lia). unfold apart in A. clear -A. naive_solver lia.
Qed.

(** The values are where the allocator expects them. *)
Lemma start_Rel {M} L vals (h : hstate M) :
  at_entry fi vals h → Rel fi (dl := mkDisc fi (λ _, false)) s0 (λ k, L k ∧ (k < nb_globals s)%nat) vals h.
Proof.
  intros [Hs Hr] k ts0 Hk H [_ Hg]. destruct (start_lookup k ts0 Hk H) as (ts & Hts & Ec & ->). pose proof (gw_global _ (wf_globals _ Hwf) k ts Hg Hts) as HG.
  unfold start_temp. rewrite (proj2 (Nat.ltb_lt _ _) Hg). unfold located. cbn. specialize (Hr k). specialize (Hs k). unfold mem_global in Hs. cbn in Hr, Hs.
  rewrite (proj2 (Nat.ltb_lt _ _) Hg), Ec in Hr, Hs. cbn in Hr, Hs. destruct (fixed_reg ts); [by apply Hr|].
  unfold host_globals in Hs. cbn in Hs. rewrite Ec in Hs. split; [apply HG|by apply Hs].
Qed.

Lemma start_settled k : (k < nb_globals s)%nat → settled s0 k.
Proof.
  intros Hk ts0 H. pose proof (wf_temps _ Hwf). destruct (start_lookup k ts0 ltac:(lia) H) as (ts & _ & _ & ->).
  unfold start_temp. rewrite (proj2 (Nat.ltb_lt _ _) Hk). cbn. destruct (fixed_reg ts); [by left|by right].
Qed.

Lemma start_stat ops : stat fi (ctx_local s) ops 0 s0.
Proof.
  split_and!; [apply start_inv|symmetry; apply ctx_local_length|]. exists (λ _, 0), (mkH (λ _, 0) (λ _, 0) tt).
  eapply Rel_sub; [|apply (start_Rel (λ _, True))]; [|done]. intros k [_ Hd]. split; [done|]. by apply Nat.ltb_lt.
Qed.

End start.

(** ** The code *)

Section code.
  Context (s : TCGContext) (Hwf : ctx_wf s).
  Notation fi := (ctx_info s).
  Context {M : Type} (sem : tcg_sem M) (junk : (Z → Z) → M → Z → Z) `{!SemOk fi sem}.
  Context (ops : list tcgop) (Hgood : block_good fi (ctx_local s) sem ops).

Lemma block_wf : Forall (wf_op (ctx_local s)) ops.
Proof. apply Forall_lookup. intros i o Ho. apply (Hgood i o Ho). Qed.

Lemma gen_code_states s' :
  tcg_gen_code s ((op_opc <$> ops) ++ [INDEX_op_end]) (enc ops) = Ok s' →
  ∃ St, states fi (ctx_local s) ops St ∧ St 0%nat = tcg_reg_alloc_start s <| code := [] |> ∧ St (length ops) = s'.
Proof.
  unfold tcg_gen_code. destruct (liveness_ok (nb_globals s) (ctx_local s) (ctx_few s Hwf) ops block_wf) as (masks & E & Hm).
  unfold ctx_local in E at 1. rewrite E. cbn [rbind]. intros Hs.
  destruct (loop_states fi (ctx_local s) sem ops Hgood masks Hm (length ops) 0 _ s' ltac:(lia) Hs) as (St & S0 & S1 & S2).
  exists St. split_and!; [|done..]. split; [rewrite S0; by apply start_stat|]. intros i o Ho. by apply S2; [lia|].
Qed.

Lemma gen_code_sim s' N vals h :
  jumps_good fi ops → patch_first ops → tcg_gen_code s ((op_opc <$> ops) ++ [INDEX_op_end]) (enc ops) = Ok s' → at_entry fi vals h →
  ∃ vs, length vs = N ∧
    (tcg_exec fi sem ops vs 0 (vals, hm h) = None ∨
     ∃ pc st' n pc' h', tcg_exec fi sem ops vs 0 (vals, hm h) = Some (pc, st') ∧ hexec fi sem junk (code s') n 0 h = Some (pc', h') ∧
       (pc = None ↔ pc' = None) ∧ hm h' = st'.2 ∧ (∀ r, tcg_regset_test_reg (reserved_regs s) r = true → hregs h' r = hregs h r) ∧
       (pc = None → in_slots fi st'.1 h')).
Proof.
  intros HJ HF Hs Hen. destruct (gen_code_states s' Hs) as (St & HSt & S0 & S1).
  assert (code (St 0%nat) = []) as Hcode by (by rewrite S0).
  assert (∀ k, (k < nb_globals s)%nat → settled (St 0%nat) k) as Hse by (rewrite S0; by apply start_settled).
  assert (before fi (ctx_local s) ops St 0 vals h) as HR.
  { assert (Rel fi (dl := mkDisc fi (disc_at ops 0)) (St 0%nat) (λ k, def_at fi ops 0 k = true) vals h) as HR.
    { rewrite S0. eapply Rel_sub; [|by apply (start_Rel s Hwf (λ _, True))]. intros k Hd. split; [done|]. by apply Nat.ltb_lt. }
    split; [eapply Rel_sub; [|exact HR]; by intros k [_ ?]|]. intros _. split; [done|]. intros k Hd _. apply Hse. by apply Nat.ltb_lt. }
  destruct (exec_sim fi (ctx_local s) ltac:(done) (ctx_few s Hwf) sem junk ops Hgood St HSt Hcode HJ HF N 0 vals h ltac:(lia) HR)
    as (vs & Hl & [Hn|(pc & st' & n & h' & E & X & Em & HK & Hex)]); exists vs; (split; [done|]); [by left|right].
  rewrite Hcode, S1 in X. eexists pc, st', n, _, h'. split_and!; [exact E|exact X|by destruct pc|done| |done].
  intros r Hr. apply HK. by rewrite S0.
Qed.

End code.
