(* ===== verification/TcgTemps.v ===== *)
(** * Temporaries

    [tcg_temp_new_internal] and [tcg_temp_free_internal] keep lists of free
    temporaries, one for each type and for local and other temporaries.  Here:
    the lists hold exactly the temporaries that are free, and the operations
    keep the context fit for code generation. *)

From stdpp Require Import base gmap list.
From S2P Require Import Prelude TcgData TcgLive TcgLiveInv TcgAlloc TcgSem TcgInv TcgArgs TcgRun.
Local Open Scope Z_scope.
Local Coercion Z.of_nat : nat >-> Z.

Implicit Types (s : TCGContext) (ty : TCGType) (loc : bool).

(** ** The lists of free temporaries *)

Definition kind ty loc : Z := type_index ty + (if loc then TCG_TYPE_COUNT else 0).

Lemma kind_range ty loc : 0 ≤ kind ty loc < 4.
Proof. by destruct ty, loc. Qed.
Lemma kind_inj ty loc ty' loc' : Z.to_nat (kind ty loc) = Z.to_nat (kind ty' loc') → ty = ty' ∧ loc = loc'.
Proof. by destruct ty, loc, ty', loc'. Qed.

(** The list from [idx] on holds the temporaries [l]. *)
Fixpoint chained (ts : list TCGTemp) (idx : Z) (l : list nat) : Prop :=
  match l with
  | [] => idx = -1
  | k :: l => idx = k ∧ ∃ t, ts !! k = Some t ∧ chained ts (next_free_temp t) l
  end.

Definition is_free s ty loc (k : nat) : Prop :=
  (nb_globals s ≤ k < nb_temps s)%nat ∧
  ∃ t, temps s !! k = Some t ∧ base_type t = ty ∧ temp_local t = loc ∧ temp_allocated t = false.

Record free_list s ty loc (l : list nat) : Prop := {
  fl_chain : ∃ idx, first_free_temp s !! Z.to_nat (kind ty loc) = Some idx ∧ chained (temps s) idx l;
  fl_NoDup : NoDup l;
  fl_free k : k ∈ l ↔ is_free s ty loc k
}.

Record temps_inv s : Prop := {
  ti_nb : (nb_globals s ≤ nb_temps s ≤ TCG_MAX_TEMPS)%nat;
  ti_len : (TCG_MAX_TEMPS ≤ length (temps s))%nat;
  ti_lists : length (first_free_temp s) = 4%nat;
  ti_free ty loc : ∃ l, free_list s ty loc l;
  ti_type k t : (nb_globals s ≤ k < nb_temps s)%nat → temps s !! k = Some t → ttype t = base_type t
}.

Lemma chained_ext ts ts' idx l : (∀ k, k ∈ l → ts' !! k = ts !! k) → chained ts idx l → chained ts' idx l.
Proof.
  revert idx. induction l as [|k l IH]; intros idx He H; [done|]. destruct H as (-> & t & Ht & H). split; [done|]. exists t.
  rewrite He by (by left). split; [done|]. apply IH; [|done]. intros j Hj. apply He. by right.
Qed.

(** Lists that do not hold the temporary that changes. *)
Lemma free_list_other s s' ty loc l :
  free_list s ty loc l → first_free_temp s' !! Z.to_nat (kind ty loc) = first_free_temp s !! Z.to_nat (kind ty loc) →
  (∀ k, k ∈ l → temps s' !! k = temps s !! k) → (∀ k, is_free s' ty loc k ↔ is_free s ty loc k) → free_list s' ty loc l.
Proof.
  intros [(idx & E & C) HN Hf] Ef Et Hi. split; [|done|].
  - exists idx. rewrite Ef. split; [done|]. by eapply chained_ext.
  - intros k. rewrite Hf. symmetry. apply Hi.
Qed.

(** ** A new function *)

Lemma func_start_temps s : (nb_globals s ≤ TCG_MAX_TEMPS ≤ length (temps s))%nat → temps_inv (tcg_func_start s).
Proof.
  intros [Hg Hl]. split; cbn; [lia|done|done| |lia]. intros ty loc. exists []. split; [|constructor|].
  - exists (-1). split; [by destruct ty, loc|done].
  - intros k. split; [by intros ?%elem_of_nil|]. intros [Hk _]. cbn in Hk. lia.
Qed.

(** ** Allocation *)

(** Temporary [k] is the only one that changes, and it is allocated after. *)
Record taken s ty loc (k : nat) s' : Prop := {
  tk_range : (nb_globals s ≤ k < nb_temps s')%nat;
  tk_before t : (k < nb_temps s)%nat → temps s !! k = Some t → temp_allocated t = false;
  tk_after : ∃ t, temps s' !! k = Some t ∧ ttype t = ty ∧ base_type t = ty ∧ temp_local t = loc ∧ temp_allocated t = true;
  tk_other j : j ≠ k → temps s' !! j = temps s !! j;
  tk_ctx : reserved_regs s' = reserved_regs s ∧ frame_reg s' = frame_reg s ∧ frame_start s' = frame_start s ∧ frame_end s' = frame_end s ∧
    current_frame_offset s' = current_frame_offset s ∧ length (temps s') = length (temps s);
  tk_nb : nb_globals s' = nb_globals s ∧ (nb_temps s ≤ nb_temps s' ≤ S (nb_temps s))%nat ∧ (nb_temps s' = S (nb_temps s) → k = nb_temps s)
}.

Lemma taken_free s ty loc k s' ty' loc' j :
  taken s ty loc k s' → is_free s' ty' loc' j ↔ j ≠ k ∧ is_free s ty' loc' j.
Proof.
  intros [[Hr1 Hr2] Hb (t & Ht & _ & _ & _ & Ha) Ho _ (Eg & Hn & Hlast)]. unfold is_free. rewrite Eg. split.
  - intros [Hj (tj & Htj & E)]. assert (j ≠ k) as Hne by (intros ->; rewrite Ht in Htj; injection Htj as <-; rewrite Ha in E; by destruct E as (_ & _ & ?)).
    rewrite (Ho j Hne) in Htj. split; [done|]. split; [|by exists tj]. destruct (decide (nb_temps s' = S (nb_temps s))) as [E'|]; [specialize (Hlast E'); lia|lia].
  - intros (Hne & Hj & tj & Htj & E). split; [lia|]. exists tj. by rewrite (Ho j Hne).
Qed.

Lemma temp_pop s ty loc (k : nat) l :
  temps_inv s → free_list s ty loc (k :: l) →
  ∃ s', tcg_temp_new_internal s ty loc = Ok (s', k : Z) ∧ (taken s ty loc k s' ∧ temps_inv s') ∧
    (∀ j, temps s' !! j = if decide (j = k) then (λ t, t <| temp_allocated := true |>) <$> temps s !! k else temps s !! j) ∧ nb_temps s' = nb_temps s.
Proof.
  intros HI [(idx & E & -> & t & Ht & C) HN Hf]. destruct (proj1 (Hf k)) as (Hk & t' & Ht' & Hty & Hloc & Hal); [by left|].
  rewrite Ht in Ht'. injection Ht' as <-. pose proof (kind_range ty loc) as Hkr. unfold tcg_temp_new_internal. fold (kind ty loc).
  rewrite (aref_at _ _ _ _ (eq_sym (Z2Nat.id _ (proj1 Hkr))) E). cbn [rbind]. rewrite (proj2 (Z.eqb_neq _ _)) by lia. cbn [negb].
  unfold get_temp. rewrite (aref_nat _ _ _ Ht). cbn [rbind]. rewrite bool_decide_eq_true_2 by done. cbn [assert_ rbind].
  eexists. split; [done|]. set (s' := set_temp _ _ _).
  assert (∀ j, temps s' !! j = if decide (j = k) then Some (t <| temp_allocated := true |>) else temps s !! j) as Hlk.
  { intros j. unfold s'. cbn. rewrite Nat2Z.id. destruct (decide (j = k)) as [->|Hne]; [by rewrite list_lookup_alter_eq, Ht|by rewrite list_lookup_alter_ne by done]. }
  split; [|split; [|done]; intros j; rewrite Hlk, Ht; done].
  assert (taken s ty loc k s') as HT.
  { split; cbn; [lia|intros t'; by rewrite Ht; intros _ [= <-]| |intros j Hj; rewrite Hlk, decide_False by done; done|by rewrite length_alter|lia].
    exists (t <| temp_allocated := true |>). rewrite Hlk, decide_True by done. split_and!; try done. cbn. rewrite <- Hty. by apply (ti_type _ HI k). }
  split; [done|]. inversion_clear HN as [|? ? Hkl HN']. destruct HI as [Hnb Hlen Hlists Hfree Htype]. split; cbn; [done|by rewrite length_alter|by rewrite length_insert| |].
  - intros ty' loc'. destruct (decide (ty' = ty ∧ loc' = loc)) as [[-> ->]|Hne].
    + exists l. split; [|done|].
      * exists (next_free_temp t). cbn. rewrite list_lookup_insert_eq by lia. split; [done|]. eapply chained_ext; [|exact C].
        intros j Hj. change (temps s' !! j = temps s !! j). by rewrite Hlk, decide_False by (by intros ->).
      * intros j. rewrite (taken_free _ _ _ _ _ _ _ _ HT), <- Hf, elem_of_cons. naive_solver.
    + destruct (Hfree ty' loc') as [l' Hl']. exists l'. assert (k ∉ l') as Hkl'.
      { intros Hin. apply (fl_free _ _ _ _ Hl') in Hin as (_ & t' & Ht' & ? & ? & _). apply Hne. split; congruence. }
      eapply free_list_other; [exact Hl'| | |].
      * cbn. rewrite list_lookup_insert_ne; [done|]. intros E'%kind_inj. apply Hne. naive_solver.
      * intros j Hj. by rewrite Hlk, decide_False by (by intros ->).
      * intros j. rewrite (taken_free _ _ _ _ _ _ _ _ HT). split; [tauto|]. intros Hj. split; [|done]. intros ->. by apply Hkl', (fl_free _ _ _ _ Hl').
  - intros j tj Hj. change (temps s' !! j = Some tj → ttype tj = base_type tj). rewrite Hlk. destruct (decide (j = k)) as [->|].
    + intros [= <-]. cbn. by apply (Htype k t).
    + by apply Htype.
Qed.

Lemma temp_fresh s ty loc :
  temps_inv s → free_list s ty loc [] → (nb_temps s < TCG_MAX_TEMPS)%nat →
  ∃ s', tcg_temp_new_internal s ty loc = Ok (s', nb_temps s : Z) ∧ taken s ty loc (nb_temps s) s' ∧ temps_inv s'.
Proof.
  intros HI [(idx & E & ->) _ Hf] Hmax. pose proof (kind_range ty loc) as Hkr. unfold tcg_temp_new_internal. fold (kind ty loc).
  rewrite (aref_at _ _ _ _ (eq_sym (Z2Nat.id _ (proj1 Hkr))) E). cbn [rbind Z.eqb Pos.eqb negb]. unfold tcg_temp_alloc.
  rewrite (proj2 (Nat.leb_le _ _)) by lia. cbn [assert_ rbind]. eexists. split; [done|]. set (s' := (set_temp _ _ _) <| nb_temps := _ |>).
  destruct HI as [Hnb Hlen Hlists Hfree Htype]. destruct (lookup_lt_is_Some_2 (temps s) (nb_temps s)) as [t Ht]; [lia|].
  set (t' := t <| base_type := ty |> <| ttype := ty |> <| temp_allocated := true |> <| temp_local := loc |>).
  assert (∀ j, temps s' !! j = if decide (j = nb_temps s) then Some t' else temps s !! j) as Hlk.
  { intros j. unfold s'. cbn. rewrite Nat2Z.id. destruct (decide _) as [->|Hne]; [by rewrite list_lookup_alter_eq, Ht|by rewrite list_lookup_alter_ne by done]. }
  assert (taken s ty loc (nb_temps s) s') as HT.
  { split; cbn; [lia|lia| |intros j Hj; rewrite Hlk, decide_False by done; done|by rewrite length_alter|lia]. exists t'. by rewrite Hlk, decide_True by done. }
  split; [done|]. split; cbn; [lia|by rewrite length_alter|done| |].
  - intros ty' loc'. destruct (Hfree ty' loc') as [l Hl]. exists l. assert (∀ k, k ∈ l → k ≠ nb_temps s) as Hkl.
    { intros k [Hk _]%(fl_free _ _ _ _ Hl). lia. }
    eapply free_list_other; [exact Hl|done| |].
    + intros j Hj. by rewrite Hlk, decide_False by auto.
    + intros j. rewrite (taken_free _ _ _ _ _ _ _ _ HT). split; [tauto|]. intros Hj. split; [|done]. by apply Hkl, (fl_free _ _ _ _ Hl).
  - intros j tj Hj. change (temps s' !! j = Some tj → ttype tj = base_type tj). rewrite Hlk. destruct (decide _) as [->|]; [by intros [= <-]|]. apply Htype. lia.
Qed.

Lemma temp_none s ty loc :
  temps_inv s → free_list s ty loc [] → nb_temps s = TCG_MAX_TEMPS → tcg_temp_new_internal s ty loc = Er EAbort.
Proof.
  intros HI [(idx & E & ->) _ _] Hmax. pose proof (kind_range ty loc) as Hkr. unfold tcg_temp_new_internal. fold (kind ty loc).
  rewrite (aref_at _ _ _ _ (eq_sym (Z2Nat.id _ (proj1 Hkr))) E). cbn [rbind Z.eqb Pos.eqb negb]. unfold tcg_temp_alloc. rewrite Hmax. done.
Qed.

(** ** Release *)

(** Temporary [k], which was [t], is free and at the head of its list. *)
Record released s (k : nat) t s' : Prop := {
  rl_at : ∃ head, first_free_temp s !! Z.to_nat (kind (base_type t) (temp_local t)) = Some head ∧
    temps s' !! k = Some (t <| temp_allocated := false |> <| next_free_temp := head |>);
  rl_head : first_free_temp s' = <[Z.to_nat (kind (base_type t) (temp_local t)) := k : Z]> (first_free_temp s);
  rl_other j : j ≠ k → temps s' !! j = temps s !! j;
  rl_ctx : nb_globals s' = nb_globals s ∧ nb_temps s' = nb_temps s ∧ reserved_regs s' = reserved_regs s ∧ frame_reg s' = frame_reg s ∧
    frame_start s' = frame_start s ∧ frame_end s' = frame_end s ∧ current_frame_offset s' = current_frame_offset s ∧ length (temps s') = length (temps s)
}.

Lemma temp_release s (k : nat) t :
  temps_inv s → (nb_globals s ≤ k < nb_temps s)%nat → temps s !! k = Some t → temp_allocated t = true →
  ∃ s', tcg_temp_free_internal s k = Ok s' ∧ released s k t s'.
Proof.
  intros HI Hk Ht Ha. destruct (ti_free _ HI (base_type t) (temp_local t)) as [l [(head & Eh & _) _ _]].
  pose proof (kind_range (base_type t) (temp_local t)) as Hkr.
  unfold tcg_temp_free_internal. rewrite (proj2 (Z.leb_le _ _)), (proj2 (Z.ltb_lt _ _)) by lia. cbn [andb assert_ rbind]. unfold get_temp.
  rewrite (aref_nat _ _ _ Ht). cbn [rbind]. rewrite Ha. cbn [assert_ rbind]. fold (kind (base_type t) (temp_local t)).
  rewrite (aref_at _ _ _ _ (eq_sym (Z2Nat.id _ (proj1 Hkr))) Eh). cbn [rbind]. eexists. split; [done|]. split; cbn; rewrite ?Nat2Z.id.
  - exists head. split; [done|]. by rewrite list_lookup_alter_eq, Ht.
  - done.
  - intros j Hj. by rewrite list_lookup_alter_ne.
  - by rewrite length_alter.
Qed.

Lemma released_free s k t s' ty loc j :
  (nb_globals s ≤ k < nb_temps s)%nat → released s k t s' →
  is_free s' ty loc j ↔ (j = k ∧ base_type t = ty ∧ temp_local t = loc) ∨ (j ≠ k ∧ is_free s ty loc j).
Proof.
  intros Hk [(head & _ & Hat) _ Ho (Eg & En & _)]. unfold is_free. rewrite Eg, En. split.
  - intros [Hj (tj & Htj & E)]. destruct (decide (j = k)) as [->|Hne].
    + left. rewrite Hat in Htj. injection Htj as <-. cbn in E. tauto.
    + right. rewrite (Ho j Hne) in Htj. split; [done|]. split; [done|]. by exists tj.
  - intros [(-> & E1 & E2)|(Hne & Hj & tj & Htj & E)]; (split; [done|]).
    + eexists. split; [exact Hat|]. cbn. done.
    + exists tj. by rewrite (Ho j Hne).
Qed.

Lemma released_list s k t s' l :
  (nb_globals s ≤ k < nb_temps s)%nat → temps s !! k = Some t → temp_allocated t = true → length (first_free_temp s) = 4%nat →
  released s k t s' → free_list s (base_type t) (temp_local t) l → free_list s' (base_type t) (temp_local t) (k :: l).
Proof.
  intros Hk Ht Ha Hl4 HR [(head & Eh & C) HN Hf]. assert (k ∉ l) as Hkl.
  { intros (_ & t' & Ht' & _ & _ & ?)%Hf. rewrite Ht in Ht'. injection Ht' as <-. congruence. }
  pose proof (kind_range (base_type t) (temp_local t)). pose proof HR as [(head' & Eh' & Hat) Ehd Ho _]. assert (head' = head) as -> by congruence. split.
  - exists (k : Z). rewrite Ehd, list_lookup_insert_eq by lia. split; [done|]. split; [done|]. eexists. split; [exact Hat|]. cbn.
    eapply chained_ext; [|exact C]. intros j Hj. apply Ho. by intros ->.
  - by constructor.
  - intros j. rewrite elem_of_cons, Hf, (released_free _ _ _ _ _ _ _ Hk HR). split; [|tauto]. intros [->|Hj]; [by left|].
    destruct (decide (j = k)) as [->|]; [by left|by right].
Qed.

Lemma released_inv s k t s' :
  temps_inv s → (nb_globals s ≤ k < nb_temps s)%nat → temps s !! k = Some t → temp_allocated t = true → released s k t s' → temps_inv s'.
Proof.
  intros HI Hk Ht Ha HR. pose proof (ti_free _ HI (base_type t) (temp_local t)) as [lk Hlk].
  pose proof (released_list s k t s' lk Hk Ht Ha (ti_lists _ HI) HR Hlk) as Hlk'. destruct HI as [Hnb Hlen Hlists Hfree Htype].
  pose proof HR as [(head & _ & Hat) Ehd Ho (Eg & En & _ & _ & _ & _ & _ & El)]. split; [by rewrite Eg, En|by rewrite El|by rewrite Ehd, length_insert| |].
  - intros ty loc. destruct (decide (ty = base_type t ∧ loc = temp_local t)) as [[-> ->]|Hne]; [by exists (k :: lk)|].
    destruct (Hfree ty loc) as [l Hl]. exists l. assert (k ∉ l) as Hkl.
    { intros (_ & t' & Ht' & _ & _ & ?)%(fl_free _ _ _ _ Hl). rewrite Ht in Ht'. injection Ht' as <-. congruence. }
    eapply free_list_other; [exact Hl| | |].
    + rewrite Ehd, list_lookup_insert_ne; [done|]. intros E%kind_inj. apply Hne. naive_solver.
    + intros j Hj. apply Ho. by intros ->.
    + intros j. rewrite (released_free _ _ _ _ _ _ _ Hk HR). split.
      * intros [(-> & <- & <-)|[_ ?]]; [by destruct Hne|done].
      * intros Hj. right. split; [|done]. intros ->. by apply Hkl, (fl_free _ _ _ _ Hl).
  - rewrite Eg, En. intros j tj Hj Htj. destruct (decide (j = k)) as [->|Hne]; [|rewrite (Ho j Hne) in Htj; by apply (Htype j)].
    rewrite Hat in Htj. injection Htj as <-. cbn. by apply (Htype k t).
Qed.

(** ** Any sequence of calls *)

(** The functions that the front ends call on a context between two
    translations and during one. *)
Inductive ctx_call :=
  | CSetFrame (reg start size : Z)
  | CGlobalReg (ty : TCGType) (reg : Z)
  | CGlobalMem (ty : TCGType) (reg offset : Z)
  | CFuncStart
  | CTempNew (ty : TCGType) (local : bool)
  | CTempFree (idx : Z)
  | CNewLabel.

Definition do_call s (c : ctx_call) : result TCGContext :=
  match c with
  | CSetFrame reg start size => Ok (tcg_set_frame s reg start size)
  | CGlobalReg ty reg => '(s, _) <- tcg_global_reg_new_internal s ty reg ;; Ok s
  | CGlobalMem ty reg offset => '(s, _) <- tcg_global_mem_new_internal s ty reg offset ;; Ok s
  | CFuncStart => Ok (tcg_func_start s)
  | CTempNew ty local => '(s, _) <- tcg_temp_new_internal s ty local ;; Ok s
  | CTempFree idx => tcg_temp_free_internal s idx
  | CNewLabel => '(s, _) <- gen_new_label s ;; Ok s
  end.

Fixpoint do_calls s (cs : list ctx_call) : result TCGContext :=
  match cs with [] => Ok s | c :: cs => s <- do_call s c ;; do_calls s cs end.

Definition makes_global (c : ctx_call) : bool := match c with CGlobalReg _ _ | CGlobalMem _ _ _ => true | _ => false end.

(** The array of temporaries has its size, and the globals fit. *)
Definition ctx_sized s : Prop := (nb_globals s ≤ TCG_MAX_TEMPS ≤ length (temps s))%nat.

Lemma do_calls_app s cs1 cs2 : do_calls s (cs1 ++ cs2) = (s <- do_calls s cs1 ;; do_calls s cs2).
Proof. revert s. induction cs1 as [|c cs1 IH]; intros s; cbn [do_calls app rbind]; [done|]. destruct (do_call s c); cbn; [apply IH|done]. Qed.

Lemma do_call_sized s c s' : ctx_sized s → do_call s c = Ok s' → ctx_sized s'.
Proof.
  unfold ctx_sized. intros HS E. destruct c; cbn [do_call] in E; [by injection E as <-| | |by injection E as <-|..].
  - apply rbind_ok in E as ([s1 k] & E & [= <-]). unfold tcg_global_reg_new_internal in E. apply rbind_ok in E as (_ & _ & E).
    apply rbind_ok in E as ([] & Hn%assert_ok%Nat.leb_le & [= <- _]). cbn. rewrite length_alter. lia.
  - apply rbind_ok in E as ([s1 k] & E & [= <-]). unfold tcg_global_mem_new_internal in E.
    apply rbind_ok in E as ([] & Hn%assert_ok%Nat.leb_le & [= <- _]). cbn. rewrite length_alter. lia.
  - apply rbind_ok in E as ([s1 k] & E & [= <-]). unfold tcg_temp_new_internal in E. apply rbind_ok in E as (idx & _ & E). destruct (negb _).
    + apply rbind_ok in E as (ts & _ & E). apply rbind_ok in E as ([] & _ & [= <- _]). cbn. by rewrite length_alter.
    + apply rbind_ok in E as ([] & _ & [= <- _]). cbn. by rewrite length_alter.
  - unfold tcg_temp_free_internal in E. apply rbind_ok in E as ([] & _ & E). apply rbind_ok in E as (ts & _ & E). apply rbind_ok in E as ([] & _ & E).
    apply rbind_ok in E as (head & _ & [= <-]). cbn. by rewrite length_alter.
  - apply rbind_ok in E as ([s1 l] & E & [= <-]). unfold gen_new_label in E. apply rbind_ok in E as (_ & _ & [= <- _]). done.
Qed.

Lemma do_calls_sized s cs s' : ctx_sized s → do_calls s cs = Ok s' → ctx_sized s'.
Proof.
  revert s. induction cs as [|c cs IH]; intros s HS E; [by injection E as <-|]. cbn [do_calls] in E. apply rbind_ok in E as (s1 & E1 & E).
  eapply IH; [|exact E]. by eapply do_call_sized.
Qed.

(** ** Contexts that are built *)

Lemma globals_wf_same s s' :
  globals_wf s → nb_globals s' = nb_globals s → (∀ k, (k < nb_globals s)%nat → temps s' !! k = temps s !! k) → reserved_regs s' = reserved_regs s →
  frame_reg s' = frame_reg s → frame_start s' = frame_start s → frame_end s' = frame_end s → globals_wf s'.
Proof.
  intros [HG HA HC] En Et Er E1 E2 E3. split; rewrite ?En, ?Er.
  - intros k ts Hk Hts. rewrite Et in Hts by done. specialize (HG k ts Hk Hts). destruct (fixed_reg ts); [done|]. destruct HG as [? ? ?].
    split; [done|by rewrite Er|by rewrite E1, E2, E3].
  - intros j k tj tk Hjk. rewrite !Et by lia. by apply HA.
  - done.
Qed.

Lemma taken_wf s ty loc k s' : ctx_wf s → (nb_temps s' ≤ TCG_MAX_TEMPS ≤ length (temps s))%nat → taken s ty loc k s' → ctx_wf s'.
Proof.
  intros [HG HT HM HS HF] Hmax [Hr _ _ Ho (E1 & E2 & E3 & E4 & E5 & E6) (Eg & Hn & _)]. split.
  - apply (globals_wf_same s); try done. intros j Hj. apply Ho. lia.
  - rewrite Eg, E6. lia.
  - lia.
  - by rewrite E3, E5.
  - by rewrite E1, E2.
Qed.

Lemma released_wf s k t s' : ctx_wf s → (nb_globals s ≤ k)%nat → released s k t s' → ctx_wf s'.
Proof.
  intros [HG HT HM HS HF] Hk [_ _ Ho (Eg & En & E1 & E2 & E3 & E4 & E5 & E6)]. split.
  - apply (globals_wf_same s); try done. intros j Hj. apply Ho. lia.
  - by rewrite Eg, En, E6.
  - by rewrite En.
  - by rewrite E3, E5.
  - by rewrite E1, E2.
Qed.

Lemma func_start_wf s :
  globals_wf s → (nb_globals s ≤ TCG_MAX_TEMPS ≤ length (temps s))%nat → frame_reg s ≠ TCG_REG_CALL_STACK →
  tcg_regset_test_reg (reserved_regs s) (frame_reg s) = true → ctx_wf (tcg_func_start s).
Proof. intros HG [H1 H2] H3 H4. split; cbn; [by apply (globals_wf_same s)|lia|lia|lia|done]. Qed.

(** *** Globals *)

Lemma reg_new_ok s ty reg s' k :
  globals_wf s → (TCG_MAX_TEMPS ≤ length (temps s))%nat → 0 ≤ reg → clobbered reg = false → tcg_global_reg_new_internal s ty reg = Ok (s', k) →
  globals_wf s' ∧ k = nb_globals s ∧ (nb_globals s' ≤ TCG_MAX_TEMPS)%nat ∧ length (temps s') = length (temps s) ∧ frame_reg s' = frame_reg s.
Proof.
  intros [HG HA HC] Hlen Hreg Hcl H. unfold tcg_global_reg_new_internal in H. apply rbind_ok in H as (_ & _ & H). apply rbind_ok in H as ([] & Hn & H).
  apply assert_ok, Nat.leb_le in Hn. injection H as <- <-. destruct (lookup_lt_is_Some_2 (temps s) (nb_globals s)) as [t Ht]; [lia|].
  set (f := λ ts : TCGTemp, _). split_and!; [|done|cbn; lia|cbn; by rewrite length_alter|done].
  assert (∀ j, alter f (Z.to_nat (nb_globals s)) (temps s) !! j = if decide (j = nb_globals s) then Some (f t) else temps s !! j) as Hlk.
  { intros j. rewrite Nat2Z.id. destruct (decide _) as [->|Hne]; [by rewrite list_lookup_alter_eq, Ht|by rewrite list_lookup_alter_ne by done]. }
  split; cbn.
  - intros k ts Hk. rewrite Hlk. destruct (decide _) as [->|Hne]; [intros [= <-]; cbn; rewrite set_reg_test by done; by rewrite bool_decide_eq_true_2, orb_true_r|].
    intros Hts. specialize (HG k ts ltac:(lia) Hts). destruct (fixed_reg ts); [by rewrite set_reg_test, HG by done|]. destruct HG as [? [? Hb] ?].
    split; [done|cbn; by rewrite set_reg_test, Hb by done|done].
  - intros j k tj tk Hjk. rewrite !Hlk. rewrite (decide_False (P := j = _)) by lia. destruct (decide _) as [->|Hne]; [by intros _ [= <-]|]. apply HA. lia.
  - intros r Hr. rewrite set_reg_test by done. rewrite (HC r Hr). cbn. apply bool_decide_eq_false. intros ->. congruence.
Qed.

(** A slot that a front end should choose for a new global: overlapping slots
    are accepted, but code generated with them is wrong. *)
Record new_slot s ty (reg offset : Z) : Prop := {
  ns_base : reg ≠ TCG_REG_CALL_STACK ∧ tcg_regset_test_reg (reserved_regs s) reg = true;
  ns_frame : reg = frame_reg s → offset + size_of ty ≤ frame_start s ∨ frame_end s ≤ offset;
  ns_apart k ts : (k < nb_globals s)%nat → temps s !! k = Some ts → fixed_reg ts = false →
    mem_reg ts ≠ reg ∨ mem_offset ts + size_of (ttype ts) ≤ offset ∨ offset + size_of ty ≤ mem_offset ts
}.

Lemma mem_new_ok s ty reg offset s' k :
  globals_wf s → (TCG_MAX_TEMPS ≤ length (temps s))%nat → new_slot s ty reg offset → tcg_global_mem_new_internal s ty reg offset = Ok (s', k) →
  globals_wf s' ∧ k = nb_globals s ∧ (nb_globals s' ≤ TCG_MAX_TEMPS)%nat ∧ length (temps s') = length (temps s) ∧ frame_reg s' = frame_reg s.
Proof.
  intros [HG HA HC] Hlen [Hb Hf Hap] H. unfold tcg_global_mem_new_internal in H. apply rbind_ok in H as ([] & Hn & H).
  apply assert_ok, Nat.leb_le in Hn. injection H as <- <-. destruct (lookup_lt_is_Some_2 (temps s) (nb_globals s)) as [t Ht]; [lia|].
  set (f := λ ts : TCGTemp, _). split_and!; [|done|cbn; lia|cbn; by rewrite length_alter|done].
  assert (∀ j, alter f (Z.to_nat (nb_globals s)) (temps s) !! j = if decide (j = nb_globals s) then Some (f t) else temps s !! j) as Hlk.
  { intros j. rewrite Nat2Z.id. destruct (decide _) as [->|Hne]; [by rewrite list_lookup_alter_eq, Ht|by rewrite list_lookup_alter_ne by done]. }
  split; cbn; [| |done].
  - intros k ts Hk. rewrite Hlk. destruct (decide _) as [->|Hne]; [by intros [= <-]|].
    intros Hts. specialize (HG k ts ltac:(lia) Hts). destruct (fixed_reg ts); [done|]. by destruct HG.
  - intros j k tj tk Hjk. rewrite !Hlk. rewrite (decide_False (P := j = _)) by lia. destruct (decide _) as [->|Hne]; [|apply HA; lia].
    intros Htj [= <-] Fj _. apply (Hap j tj); [lia|done..].
Qed.

(** What [tcg_context_init], [tcg_set_frame] and the creation of globals build
    when the front end chooses the slots and the registers well; tcg.c does not
    look at its choice. *)
Inductive globals_built : TCGContext → Prop :=
  | gb_init s reg start size :
      nb_globals s = 0%nat → length (temps s) = TCG_MAX_TEMPS → reserved_regs s = target_reserved_regs → reg ≠ TCG_REG_CALL_STACK →
      globals_built (tcg_set_frame s reg start size)
  | gb_reg s ty reg s' k :
      globals_built s → 0 ≤ reg → clobbered reg = false → tcg_global_reg_new_internal s ty reg = Ok (s', k) → globals_built s'
  | gb_mem s ty reg offset s' k :
      globals_built s → new_slot s ty reg offset → tcg_global_mem_new_internal s ty reg offset = Ok (s', k) → globals_built s'.

(** What the translation of a block makes of it before code generation. *)
Inductive ctx_built : TCGContext → Prop :=
  | cb_start s : globals_built s → tcg_regset_test_reg (reserved_regs s) (frame_reg s) = true → ctx_built (tcg_func_start s)
  | cb_new s ty loc s' k : ctx_built s → tcg_temp_new_internal s ty loc = Ok (s', k) → ctx_built s'
  | cb_free s k s' : ctx_built s → tcg_temp_free_internal s k = Ok s' → ctx_built s'
  | cb_label s s' l : ctx_built s → gen_new_label s = Ok (s', l) → ctx_built s'.

Lemma globals_built_ok s : globals_built s →
  globals_wf s ∧ (nb_globals s ≤ TCG_MAX_TEMPS)%nat ∧ length (temps s) = TCG_MAX_TEMPS ∧ frame_reg s ≠ TCG_REG_CALL_STACK.
Proof.
  induction 1 as [s reg start size En El Er Hreg|s ty reg s' k _ (HG & Hn & Hl & Hf) Hr Hc E|s ty reg offset s' k _ (HG & Hn & Hl & Hf) Hs E].
  - split_and!; cbn; [|lia|done|done]. split; cbn; rewrite ?En; [lia..|]. intros r Hr. rewrite Er. unfold clobbered, tcg_regset_test_reg in *.
    destruct (decide (0 ≤ r < 16)) as [Hrange|Hout].
    + assert (Forall (λ r, Z.testbit tcg_target_call_clobber_regs r = true → Z.testbit target_reserved_regs r = false) (seqZ 0 16)) as F
        by (apply (bool_decide_unpack _); vm_compute; done).
      apply (proj1 (Forall_forall _ _) F r); [|done]. apply elem_of_seqZ. lia.
    + destruct (Z.neg_nonneg_cases r); [by rewrite Z.testbit_neg_r in Hr|]. rewrite Z.bits_above_log2 in Hr; [done|by vm_compute|].
      change (Z.log2 tcg_target_call_clobber_regs) with 11. lia.
  - destruct (reg_new_ok s ty reg s' k) as (? & _ & ? & ? & ?); [done|lia|done..|]. split_and!; [done..|congruence|congruence].
  - destruct (mem_new_ok s ty reg offset s' k) as (? & _ & ? & ? & ?); [done|lia|done..|]. split_and!; [done..|congruence|congruence].
Qed.

(** [tcg_temp_new_internal] on every branch. *)
Lemma temp_new_cases s ty loc :
  temps_inv s →
  (∃ s' k, tcg_temp_new_internal s ty loc = Ok (s', Z.of_nat k) ∧ taken s ty loc k s' ∧ temps_inv s') ∨
  (tcg_temp_new_internal s ty loc = Er EAbort ∧ nb_temps s = TCG_MAX_TEMPS ∧ ∀ k, ¬ is_free s ty loc k).
Proof.
  intros HI. destruct (ti_free _ HI ty loc) as [[|k l] HL].
  - destruct (decide (nb_temps s < TCG_MAX_TEMPS)%nat) as [Hlt|Hge].
    + left. destruct (temp_fresh s ty loc HI HL Hlt) as (s' & ? & ? & ?). by eexists _, _.
    + right. pose proof (ti_nb _ HI). assert (nb_temps s = TCG_MAX_TEMPS) as E by lia. split_and!; [by apply temp_none|done|].
      intros k Hk%(fl_free _ _ _ _ HL). by apply elem_of_nil in Hk.
  - left. destruct (temp_pop s ty loc k l HI HL) as (s' & ? & [? ?] & _). by eexists _, _.
Qed.

Lemma temp_free_cases s k s' :
  temps_inv s → tcg_temp_free_internal s k = Ok s' →
  ∃ (n : nat) t, k = n ∧ (nb_globals s ≤ n < nb_temps s)%nat ∧ temps s !! n = Some t ∧ temp_allocated t = true ∧ released s n t s'.
Proof.
  intros HI H. pose proof H as H'. unfold tcg_temp_free_internal in H'. apply rbind_ok in H' as ([] & [H1%Z.leb_le H2%Z.ltb_lt]%assert_ok%andb_true_iff & H').
  apply rbind_ok in H' as (t & Ht & H'). apply rbind_ok in H' as ([] & Ha%assert_ok & _). apply aref_Ok in Ht as [_ Ht].
  exists (Z.to_nat k), t. assert (k = Z.to_nat k) as Ek by lia. assert (nb_globals s ≤ Z.to_nat k < nb_temps s)%nat as Hr by lia.
  destruct (temp_release s (Z.to_nat k) t HI Hr Ht Ha) as (s1 & E & HR). rewrite <- Ek, H in E. injection E as <-. done.
Qed.

Lemma label_temps s s' l : temps_inv s → gen_new_label s = Ok (s', l) → temps_inv s'.
Proof.
  intros [H1 H2 H3 H4 H5] E. unfold gen_new_label in E. apply rbind_ok in E as (_ & _ & [= <- _]). split; try done.
  intros ty loc. destruct (H4 ty loc) as [l' [? ? ?]]. by exists l'.
Qed.

(** The calls of a translation keep the lists. *)
Lemma do_call_temps s c s' : temps_inv s → makes_global c = false → do_call s c = Ok s' → temps_inv s'.
Proof.
  intros HI Hg E. destruct c; cbn [do_call] in E; [|done|done|..].
  - injection E as <-. destruct HI as [H1 H2 H3 H4 H5]. split; try done. intros ty loc. destruct (H4 ty loc) as [l' [? ? ?]]. by exists l'.
  - injection E as <-. apply func_start_temps. pose proof (ti_nb _ HI). pose proof (ti_len _ HI). lia.
  - apply rbind_ok in E as ([s1 k] & E & [= <-]). destruct (temp_new_cases s ty local HI) as [(s2 & k2 & E2 & _ & HI2)|(E2 & _)]; congruence.
  - destruct (temp_free_cases s idx s' HI E) as (n & t & -> & Hn & Ht & Ha & HR). by eapply released_inv.
  - apply rbind_ok in E as ([s1 l] & E & [= <-]). by eapply label_temps.
Qed.

Lemma do_calls_temps s cs s' : temps_inv s → forallb (λ c, negb (makes_global c)) cs = true → do_calls s cs = Ok s' → temps_inv s'.
Proof.
  revert s. induction cs as [|c cs IH]; intros s HI Hg E; [by injection E as <-|]. cbn [do_calls] in E. apply rbind_ok in E as (s1 & E1 & E).
  apply andb_true_iff in Hg as [Hc%negb_true_iff Hg]. eapply IH; [|done|exact E]. by eapply do_call_temps.
Qed.

Lemma ctx_built_ok s : ctx_built s → ctx_wf s ∧ temps_inv s.
Proof.
  induction 1 as [s HB Hr|s ty loc s' k _ [HW HI] E|s k s' _ [HW HI] E|s s' l _ [HW HI] E].
  - destruct (globals_built_ok s HB) as (HG & Hn & Hl & Hf). split; [apply func_start_wf|apply func_start_temps]; done || lia.
  - destruct (temp_new_cases s ty loc HI) as [(s1 & k1 & E1 & HT & HI1)|(E1 & _)]; [|congruence]. rewrite E in E1. injection E1 as <- _.
    split; [|done]. eapply taken_wf; [exact HW| |exact HT]. split; [apply (ti_nb _ HI1)|apply (ti_len _ HI)].
  - destruct (temp_free_cases s k s' HI E) as (n & t & -> & Hn & Ht & Ha & HR). split; [by eapply released_wf; [..|exact HR]; [|lia]|by eapply released_inv].
  - split; [|by eapply label_temps]. unfold gen_new_label in E. apply rbind_ok in E as (_ & _ & [= <- _]).
    destruct HW as [HG ? ? ? ?]. split; try done. by apply (globals_wf_same s).
Qed.
