(* ===== verification/TcgTotal.v ===== *)
(** * The allocator does not fail

    While the frame has room for the temporaries without a slot and enough
    registers are not reserved, spilling, allocating and saving succeed. *)

From stdpp Require Import base gmap list functions.
From S2P Require Import Prelude TcgData TcgLive TcgLiveInv TcgAlloc TcgSem TcgInv TcgSpill TcgSave TcgArgs TcgOpIn TcgOp TcgGenOp.
Local Open Scope Z_scope.
Local Coercion Z.of_nat : nat >-> Z.

(** ** Registers *)

(** The registers that code generation may use: all but the stack pointer and
    the one that points to the state of the guest. *)
Definition usable : list Z := filter (λ r, r ≠ TCG_REG_R14) tcg_target_reg_alloc_order.

(** The registers of [al] are [R14] and those of [rs]. *)
Definition within (rs : list Z) (al : TCGRegSet) : Prop :=
  ∀ r, r ∈ usable → tcg_regset_test_reg al r = true → r ∈ rs.

(** A register of [ct] is left. *)
Definition room (ct : TCGRegSet) (rs : list Z) : Prop :=
  (length (filter (λ r, tcg_regset_test_reg ct r = true) rs) < length (filter (λ r, tcg_regset_test_reg ct r = true) usable))%nat.

Lemma usable_order r : r ∈ usable → r ∈ tcg_target_reg_alloc_order ∧ 0 ≤ r < TCG_TARGET_NB_REGS.
Proof. intros [_ Hr]%list_elem_of_filter. split; [done|by apply alloc_order_range]. Qed.

Lemma usable_NoDup : NoDup usable.
Proof. apply (bool_decide_unpack _). vm_compute. done. Qed.

Lemma room_reg ct rs al : room ct rs → within rs al →
  ∃ r, r ∈ usable ∧ tcg_regset_test_reg ct r = true ∧ tcg_regset_test_reg al r = false.
Proof.
  intros Hr Hw. destruct (decide (Exists (λ r, tcg_regset_test_reg ct r = true ∧ tcg_regset_test_reg al r = false) usable)) as [(r & ?%list_elem_of_In & ? & ?)%Exists_exists|Hn].
  { by exists r. }
  exfalso. unfold room in Hr. apply (proj1 (Nat.lt_nge _ _) Hr). apply submseteq_length. apply NoDup_submseteq.
  { apply stdpp.list_relations.list.NoDup_filter, usable_NoDup. }
  intros r [Hct Hu]%list_elem_of_filter. apply list_elem_of_filter. split; [done|]. apply Hw; [done|].
  destruct (tcg_regset_test_reg al r) eqn:E; [done|]. destruct Hn. apply Exists_exists. exists r. split; [by apply list_elem_of_In|done].
Qed.

Lemma within_mono rs rs' al : (∀ r, r ∈ rs → r ∈ rs') → within rs al → within rs' al.
Proof. intros H Hw r Hr Ht. by apply H, Hw. Qed.
Lemma within_set rs al r : 0 ≤ r → within rs al → within (r :: rs) (tcg_regset_set_reg al r).
Proof.
  intros Hr Hw r' Hu. rewrite set_reg_test by done. intros [Ht|E%bool_decide_eq_true]%orb_true_iff; [right; by apply Hw|subst; left].
Qed.

(** Any register will do. *)
Lemma room_all ct rs : ct = 0xffff → (length rs < length usable)%nat → room ct rs.
Proof.
  intros -> Hl. unfold room. eapply Nat.le_lt_trans; [apply length_filter|]. change (filter _ usable) with usable in |- *. done.
Qed.

(** ** Temporaries *)

Lemma get_temp_at s (k : nat) ts : temps s !! k = Some ts → get_temp s k = Ok ts.
Proof. apply aref_nat. Qed.

Lemma get_temp_range fi s (k : nat) : inv fi s → (k < nb_temps s)%nat → ∃ ts, temps s !! k = Some ts ∧ get_temp s k = Ok ts.
Proof.
  intros HI Hk. pose proof (inv_temps _ _ HI). destruct (lookup_lt_is_Some_2 (temps s) k) as [ts Hts]; [lia|]. exists ts.
  split; [done|by apply get_temp_at].
Qed.

Lemma rt_range fi s r : inv fi s → 0 ≤ r < TCG_TARGET_NB_REGS → ∃ k, rt s r = Some k ∧ aref (reg_to_temp s) r = Ok k.
Proof.
  intros HI Hr. pose proof (inv_regs _ _ HI). destruct (lookup_lt_is_Some_2 (reg_to_temp s) (Z.to_nat r)) as [k Hk]; [lia|]. exists k.
  split; [done|]. unfold aref. rewrite (proj2 (Z.ltb_ge _ _)) by lia. by rewrite Hk.
Qed.

Section total.
  Context (fi : frame_info) {dl : Disc fi} (sem : tcg_sem unit) (junk : (Z → Z) → unit → Z → Z).
  Notation h0 := (mkH (λ _, 0) (λ _, 0) tt).
  Notation inv := (inv fi).
  Notation Rel := (Rel fi).
  Notation grow := (grow fi).
  Notation step := (step fi sem junk).
  Notation keeps := (keeps fi).
  Implicit Types (h : hstate unit) (s : TCGContext) (D : nat → Prop).

(** The frame has room, and few registers are reserved. *)
Record fits s : Prop := {
  ft_inv : inv s;
  ft_room : demand s ≤ frame_end s;
  ft_res : within [] (reserved_regs s)
}.

Lemma fits_grow s s' : fits s → grow s s' → fits s'.
Proof.
  intros [HI Hr Hw] [HI' [_ _ ER (_ & EF & _)] _ Hd]. split; [done|rewrite EF; lia|by rewrite ER].
Qed.

Lemma ensure_frame_total s (k : nat) : fits s → (k < nb_temps s)%nat → ∃ s', ensure_frame s k = Ok s'.
Proof.
  intros [HI Hr _] Hk. destruct (get_temp_range fi s k HI Hk) as (ts & Hts & Eg). unfold ensure_frame. rewrite Eg. cbn [rbind].
  destruct (mem_allocated ts) eqn:Ea; [by eexists|]. unfold temp_allocate_frame. rewrite (proj2 (Z.ltb_ge _ _)); [by eexists|].
  change ((current_frame_offset s + 8 - 1) .& .~ (8 - 1)) with (align8 (current_frame_offset s)). unfold demand in Hr.
  assert (take (nb_temps s) (temps s) !! k = Some ts) as Ht by (by rewrite lookup_take, decide_True).
  rewrite <- (take_drop_middle _ _ _ Ht), sum_list_with_app in Hr. cbn [sum_list_with] in Hr. unfold unslotted in Hr at 2. rewrite Ea in Hr. lia.
Qed.

Lemma ensure_get s (k : nat) ts :
  fits s → (k < nb_temps s)%nat → temps s !! k = Some ts → fixed_reg ts = false →
  ∃ s' ts', ensure_frame s k = Ok s' ∧ get_temp s' k = Ok ts'.
Proof.
  intros HF Hk Hts Hf. destruct (ensure_frame_total s k HF Hk) as [s' E]. exists s'.
  destruct (ensure_frame_ok fi (M := unit) s k ts s' (ft_inv _ HF) Hk Hts Hf E) as (_ & _ & _ & _ & G & _).
  destruct (get_temp_range fi s' k (g_inv _ _ _ G)) as (ts' & _ & ?); [by rewrite (sc_temps _ _ (g_ctx _ _ _ G))|]. by exists ts'.
Qed.

Lemma tcg_reg_free_total s r : fits s → 0 ≤ r < TCG_TARGET_NB_REGS → ∃ s', tcg_reg_free s r = Ok s'.
Proof.
  intros HF Hr. pose proof (ft_inv _ HF) as HI. destruct (rt_range fi s r HI Hr) as (k & Hk & Ea). unfold tcg_reg_free. rewrite Ea. cbn [rbind].
  destruct (Z.eqb_spec k (-1)) as [|Hne]; [by eexists|].
  destruct (inv_reg _ _ HI r k ltac:(lia) Hk) as [?|(n & ts & -> & Hn & Hts & Hv & Ht & Hf)]; [done|].
  assert (get_temp s n = Ok ts) as Eg by (destruct (get_temp_range fi s n HI Hn) as (ts' & ? & ->); congruence). rewrite Eg. cbn [rbind].
  rewrite bool_decide_eq_true_2 by done. cbn [assert_ rbind]. destruct (mem_coherent ts); [by eexists|].
  destruct (ensure_get s n ts HF Hn Hts Hf) as (s1 & ts1 & -> & E1). cbn [rbind]. rewrite E1. by eexists.
Qed.

Lemma find_free_reg_total s ct order : inv s → Forall (λ r, 0 ≤ r < TCG_TARGET_NB_REGS) order → ∃ r, find_free_reg s ct order = Ok r.
Proof.
  intros HI. induction 1 as [|r order Hr _ IH]; cbn [find_free_reg]; [by eexists|]. destruct (tcg_regset_test_reg ct r); [|done].
  destruct (rt_range fi s r HI Hr) as (k & _ & ->). cbn [rbind]. destruct (k =? -1); [by eexists|done].
Qed.

Lemma tcg_reg_alloc_total s ct al rs : fits s → room ct rs → within rs al → ∃ s' r, tcg_reg_alloc s ct al = Ok (s', r).
Proof.
  intros HF Hr Hw. unfold tcg_reg_alloc. destruct (find_free_reg_total s (tcg_regset_andnot ct al) tcg_target_reg_alloc_order (ft_inv _ HF)) as [o ->].
  { apply Forall_forall. intros r Hin. apply alloc_order_range. by apply list_elem_of_In. }
  cbn [rbind]. destruct o as [r|]; [by eexists _, _|]. destruct (room_reg ct rs al Hr Hw) as (r & Hu & Hct & Hal). destruct (usable_order r Hu) as [Ho Hrange].
  destruct (List.find _ _) as [r'|] eqn:E.
  - apply List.find_some in E as [E%list_elem_of_In _]. destruct (tcg_reg_free_total s r' HF) as [s' ->]; [by apply alloc_order_range|]. by eexists _, _.
  - apply (List.find_none _ _ E) in Ho as Hno || (pose proof (List.find_none _ _ E r ltac:(by apply list_elem_of_In)) as Hno).
    rewrite andnot_test, Hct, Hal in Hno by lia. done.
Qed.

(** *** Saving *)

Lemma temp_save_total s (k : nat) al rs :
  fits s → (k < nb_temps s)%nat → within rs al → (length rs < length usable)%nat → ∃ s', temp_save s k al = Ok s'.
Proof.
  intros HF Hk Hw Hl. pose proof (ft_inv _ HF) as HI. destruct (get_temp_range fi s k HI Hk) as (ts & Hts & Eg). unfold temp_save. rewrite Eg. cbn [rbind].
  destruct (fixed_reg ts) eqn:Ef; [by eexists|]. destruct (val_type ts) eqn:Ev; [by eexists| |by eexists|].
  - apply tcg_reg_free_total; [done|]. by apply (t_reg _ _ _ _ (inv_temp _ _ HI k ts Hk Hts)).
  - destruct (tcg_reg_alloc_total s (tcg_target_available_regs (ttype ts)) al rs HF ltac:(by apply room_all) Hw) as (s1 & r & E1). rewrite E1. cbn [rbind].
    destruct (tcg_reg_alloc_ok fi sem junk s _ al s1 r h0 HI E1) as (h1 & ST & _ & _ & SP & _). pose proof (st_grow _ _ _ _ _ _ _ _ ST) as G1.
    destruct (SP k ts Hts) as (t1 & Ht1 & (_ & Hf1 & _) & _).
    assert (nb_temps s1 = nb_temps s) as En by apply (sc_temps _ _ (g_ctx _ _ _ G1)).
    destruct (ensure_get s1 k t1 (fits_grow _ _ HF G1) ltac:(lia) Ht1 ltac:(congruence)) as (s2 & ts2 & -> & E2). cbn [rbind]. rewrite E2. by eexists.
Qed.

(** The registers of [al] are reserved or few. *)
Definition few (al : TCGRegSet) : Prop := ∃ rs, within rs al ∧ (length rs < length usable)%nat.

Lemma few_reserved s : fits s → few (reserved_regs s).
Proof. intros HF. exists []. split; [apply HF|]. vm_compute. lia. Qed.

Lemma temp_save_grow s (k : nat) al :
  fits s → (k < nb_temps s)%nat → subset (reserved_regs s) al → few al → ∃ s', temp_save s k al = Ok s' ∧ grow s s'.
Proof.
  intros HF Hk Hs (rs & Hw & Hl). destruct (temp_save_total s k al rs HF Hk Hw Hl) as [s' E]. exists s'. split; [done|].
  destruct (temp_save_ok fi sem junk s h0 k al s' (ft_inv _ HF) Hk Hs E) as (h' & ST & _). apply ST.
Qed.

(** A loop succeeds if each step does. *)
Lemma for_temps_total al (f : TCGContext → Z → result TCGContext) n lo s :
  (∀ s (i : nat), (lo ≤ i < lo + n)%nat → (i < nb_temps s)%nat → fits s → subset (reserved_regs s) al → ∃ s', f s i = Ok s' ∧ grow s s') →
  fits s → subset (reserved_regs s) al → (lo + n ≤ nb_temps s)%nat → ∃ s', for_temps n lo f s = Ok s' ∧ grow s s'.
Proof.
  revert lo s. induction n as [|n IH]; intros lo s Hf HF Hs Hn; cbn [for_temps]; [exists s; split; [done|apply grow_refl, HF]|].
  destruct (Hf s lo) as (s1 & -> & G); [lia..|done|done|]. cbn [rbind]. destruct (IH (S lo) s1) as (s2 & E2 & G2).
  - intros s2 i Hi. apply Hf. lia.
  - by eapply fits_grow.
  - by rewrite (sc_res _ _ (g_ctx _ _ _ G)).
  - rewrite (sc_temps _ _ (g_ctx _ _ _ G)). lia.
  - exists s2. split; [done|by eapply grow_trans].
Qed.

Lemma save_globals_total s al : fits s → subset (reserved_regs s) al → few al → ∃ s', save_globals s al = Ok s' ∧ grow s s'.
Proof.
  intros HF Hs Hw. pose proof (inv_temps _ _ (ft_inv _ HF)). apply (for_temps_total al); [|done|done|lia].
  intros s1 i _ Hi HF1 Hs1. by apply temp_save_grow.
Qed.

Lemma bb_end_temp_total s (i : nat) al :
  (fi_nb_globals fi ≤ i)%nat → (i < nb_temps s)%nat → fits s → subset (reserved_regs s) al → few al →
  ∃ s', bb_end_temp al s i = Ok s' ∧ grow s s'.
Proof.
  intros Hg Hi HF Hs Hw. assert (∃ s', bb_end_temp al s i = Ok s') as [s' E].
  { unfold bb_end_temp. destruct (get_temp_range fi s i (ft_inv _ HF) Hi) as (ts & _ & ->). cbn [rbind]. destruct (temp_local ts); [|by eexists].
    destruct (temp_save_grow s i al HF Hi Hs Hw) as (s' & ? & _). by exists s'. }
  exists s'. split; [done|]. destruct (bb_end_temp_ok fi sem junk s h0 i al s' Hg Hi (ft_inv _ HF) Hs E) as (h' & ST & _). apply ST.
Qed.

Lemma bb_end_total s al : fits s → subset (reserved_regs s) al → few al → ∃ s', tcg_reg_alloc_bb_end s al = Ok s'.
Proof.
  intros HF Hs Hw. pose proof (inv_temps _ _ (ft_inv _ HF)). pose proof (inv_globals _ _ (ft_inv _ HF)) as Eg. unfold tcg_reg_alloc_bb_end.
  destruct (for_temps_total al (bb_end_temp al) (nb_temps s - nb_globals s) (nb_globals s) s) as (s1 & -> & G); [|done|done|lia|].
  { intros s1 i Hi1 Hi2 HF1 Hs1. apply bb_end_temp_total; done || lia. }
  cbn [rbind]. destruct (save_globals_total s1 al) as (s' & E & _); [by eapply fits_grow|by rewrite (sc_res _ _ (g_ctx _ _ _ G))|done|]. by exists s'.
Qed.

(** *** Calls and dead inputs *)

Lemma free_regs_total s regs : fits s → Forall (λ r, 0 ≤ r < TCG_TARGET_NB_REGS) regs → ∃ s', free_regs s regs = Ok s'.
Proof.
  intros HF F. revert s HF. induction F as [|r regs Hr _ IH]; intros s HF; cbn [free_regs]; [by eexists|].
  destruct (tcg_regset_test_reg _ r); [|cbn [rbind]; by apply IH]. destruct (tcg_reg_free_total s r HF Hr) as [s1 E1]. rewrite E1. cbn [rbind]. apply IH.
  destruct (tcg_reg_free_ok fi sem junk s r s1 h0 (ft_inv _ HF) ltac:(lia) E1) as (h1 & ST & _). eapply fits_grow; [done|apply ST].
Qed.

Lemma all_regs_range : Forall (λ r, 0 ≤ r < TCG_TARGET_NB_REGS) all_regs.
Proof. apply (bool_decide_unpack _). vm_compute. done. Qed.

Lemma mark_dead_total s mask i iargs :
  inv s → (∀ (n : nat) a, iargs !! n = Some a → IS_DEAD_IARG mask (i + n) = true → 0 ≤ a < nb_temps s) →
  ∃ s', mark_dead s mask i iargs = Ok s'.
Proof.
  revert s i. induction iargs as [|a iargs IH]; intros s i HI Hr; cbn [mark_dead]; [by eexists|].
  assert (∀ s1, inv s1 → nb_temps s1 = nb_temps s → ∃ s', mark_dead s1 mask (i + 1) iargs = Ok s') as HN.
  { intros s1 HI1 En. apply IH; [done|]. intros n b Hb Hd. rewrite En. apply (Hr (S n) b Hb). by replace (i + S n) with (i + 1 + n) by lia. }
  destruct (IS_DEAD_IARG mask i) eqn:Ed; [|by apply HN].
  destruct (Hr 0%nat a eq_refl ltac:(by rewrite Z.add_0_r)) as [Ha1 Ha2]. set (k := Z.to_nat a). replace a with (k : Z) by lia.
  destruct (get_temp_range fi s k HI ltac:(lia)) as (ts & Hts & ->). cbn [rbind]. destruct (fixed_reg ts) eqn:Ef; [by apply HN|].
  apply HN; [apply inv_forget; done || lia|apply (sc_temps _ _ (drop_reg_ctx s ts))].
Qed.
End total.

(** * Operations find their registers

    The constraints of this host leave a register for every input and output
    of an operation whose inputs have values. *)

(** ** The constraints *)

Section fact.
  Context (op : TCGOpcode).
Notation ct_of i := (ct_regs (arg_ct op i)).

(** The inputs of [done] that compete with [ct] for registers. *)
Definition rivals (ct : TCGRegSet) (done : list nat) : list nat := filter (λ j, ct_of j .& ct ≠ 0) done.
Definition choices (ct : TCGRegSet) : nat := length (filter (λ r, tcg_regset_test_reg ct r = true) usable).

(** Each input of [l] finds a register after those of [done]. *)
Fixpoint rooms (done l : list nat) : bool :=
  match l with
  | [] => true
  | i :: l => (length (rivals (ct_of i) done) <? choices (ct_of i))%nat && rooms (i :: done) l
  end.

Definition room_fact : bool :=
  rooms [] (drop (nb_oargs (op_def op)) (sorted_args (op_info op))) &&
  forallb (λ i, (0 <? choices (ct_of i))%nat) (seq 0 (nb_oargs (op_def op))) && (nb_iargs (op_def op) <? length usable)%nat.

(** The registers [rs] were given to inputs of [done]. *)
Definition charged (done : list nat) (rs : list Z) : Prop :=
  (length rs ≤ length done)%nat ∧
  ∀ ct, (length (filter (λ r, tcg_regset_test_reg ct r = true) rs) ≤ length (rivals ct done))%nat.

Lemma charged_nil : charged [] [].
Proof. split; [done|]. intros ct. cbn. lia. Qed.

Lemma charged_skip i done rs : charged done rs → charged (i :: done) rs.
Proof.
  intros [Hl Hc]. split; [cbn; lia|]. intros ct. specialize (Hc ct). unfold rivals in *. rewrite (filter_cons _ i). case_decide; cbn; lia.
Qed.

Lemma charged_take i done rs r : tcg_regset_test_reg (ct_of i) r = true → charged done rs → charged (i :: done) (r :: rs).
Proof.
  intros Hr [Hl Hc]. split; [cbn; lia|]. intros ct. specialize (Hc ct). unfold rivals in *. rewrite !filter_cons. case_decide as E1.
  - rewrite decide_True; [cbn; lia|]. intros E2. assert (Z.testbit 0 r = true) as E; [|by rewrite Z.testbit_0_l in E].
    unfold tcg_regset_test_reg in *. by rewrite <- E2, Z.land_spec, Hr, E1.
  - case_decide; cbn; lia.
Qed.

Lemma charged_room ct done rs : charged done rs → (length (rivals ct done) < choices ct)%nat → room ct rs.
Proof. intros [_ Hc] Hl. specialize (Hc ct). unfold room. unfold choices in Hl. lia. Qed.
End fact.

Lemma room_facts op : used (op_info op) = true → room_fact op = true.
Proof.
  assert (forallb (λ op, implb (used (op_info op)) (room_fact op)) (seq 0 NB_OPS) = true) as H by (vm_compute; reflexivity).
  intros Hu. destruct (decide (op < NB_OPS)%nat) as [Hlt|Hge].
  - rewrite List.forallb_forall in H. specialize (H op). rewrite Hu in H. apply H. apply List.in_seq. lia.
  - assert (op_info op = mkInfo [] [] false) as E; [|by rewrite E in Hu]. unfold op_info.
    rewrite lookup_ge_None_2; [done|]. change (length x86_infos) with NB_OPS. lia.
Qed.

(** ** Inputs *)

Section total.
  Context (fi : frame_info) {dl : Disc fi} (Hdl : ∀ k, ¬ disc fi k) (sem : tcg_sem unit) (junk : (Z → Z) → unit → Z → Z).
  Notation h0 := (mkH (λ _, 0) (λ _, 0) tt).
  Notation inv := (inv fi).
  Notation Rel := (Rel fi).
  Notation grow := (grow fi).
  Notation step := (step fi sem junk).
  Notation keeps := (keeps fi).
  Notation fits := (fits fi).
  Implicit Types (h : hstate unit) (s : TCGContext) (D : nat → Prop).

(** The temporaries of [D] have places. *)
Definition avail D s : Prop := ∃ vals (h : hstate unit), Rel s D vals h.

Lemma avail_ready D s (k : nat) ts : inv s → avail D s → D k → (k < nb_temps s)%nat → temps s !! k = Some ts → val_type ts ≠ TEMP_VAL_DEAD.
Proof.
  intros HI (vals & h & HR) HD Hk Hts E. specialize (HR k ts Hk Hts HD). unfold located in HR. destruct (fixed_reg ts) eqn:Ef.
  - destruct (t_fixed_reg _ _ _ _ (inv_temp _ _ HI k ts Hk Hts) Ef) as (_ & ? & _). congruence.
  - rewrite E in HR. by destruct (Hdl k (proj1 HR)).
Qed.

Lemma avail_keeps D s s' : (∀ h, ∃ h', keeps s h s' h') → avail D s → avail D s'.
Proof. intros HK (vals & h & HR). destruct (HK h) as [h' K]. exists vals, h'. by apply K. Qed.

Lemma alloc_get s ct al rs (k : nat) :
  fits s → (k < nb_temps s)%nat → room ct rs → within rs al →
  ∃ s' r ts, tcg_reg_alloc s ct al = Ok (s', r) ∧ get_temp s' k = Ok ts ∧ temps s' !! k = Some ts ∧ 0 ≤ r ∧ tcg_regset_test_reg ct r = true.
Proof.
  intros HF Hk Hr Hw. destruct (tcg_reg_alloc_total fi s ct al rs HF Hr Hw) as (s' & r & E).
  destruct (tcg_reg_alloc_ok fi sem junk s ct al s' r h0 (ft_inv _ _ HF) E) as (h' & ST & _ & _ & _ & Hr1 & Hr2 & _).
  destruct (get_temp_range fi s' k (step_grows_inv _ _ _ _ _ _ _ _ ST)) as (ts & Hts & Eg); [by rewrite (step_nb_temps _ _ _ _ _ _ _ _ ST)|].
  exists s', r, ts. split_and!; [done..|lia|done].
Qed.

(** A loaded input is a constant, or in a register. *)
Lemma load_iarg_total D ct s al rs (k : nat) :
  fits s → avail D s → D k → (k < nb_temps s)%nat → room (ct_regs ct) rs → within rs al →
  ∃ s' c, load_iarg ct s k al = Ok (s', c) ∧ (c = None → ∃ ts, get_temp s' k = Ok ts ∧ val_type ts = TEMP_VAL_REG).
Proof.
  intros HF HA HD Hk Hr Hw. pose proof (ft_inv _ _ HF) as HI. destruct (get_temp_range fi s k HI Hk) as (ts & Hts & Eg).
  pose proof (avail_ready D s k ts HI HA HD Hk Hts) as Hnd. unfold load_iarg. rewrite Eg. cbn [rbind].
  destruct (alloc_get s (ct_regs ct) al rs k HF Hk Hr Hw) as (s1 & r & ts1 & E1 & Eg1 & Ht1 & _).
  assert (∀ i f, get_temp (set_reg (set_temp (out s1 i) k f) r k) k = Ok (f ts1)) as Hget.
  { intros i f. apply get_temp_at. cbn. by rewrite Nat2Z.id, list_lookup_alter_eq, Ht1. }
  destruct (val_type ts) eqn:Ev; [done| | |].
  - exists s, None. split; [done|]. intros _. by exists ts.
  - rewrite E1. cbn [rbind]. rewrite Eg1. cbn [rbind]. eexists _, _. split; [done|]. intros _. eexists. by split.
  - destruct (tcg_target_const_match _ _); [by eexists _, _|]. rewrite E1. cbn [rbind]. eexists _, _. split; [done|]. intros _. eexists. by split.
Qed.

Section op.
  Context (op : TCGOpcode) (args : list Z) (mask : Z).
  Notation d := (op_def op).

Lemma alloc_iarg_total D s na ca al rs (i k : nat) :
  fits s → avail D s → D k → args !! i = Some (k : Z) → (k < nb_temps s)%nat → subset (reserved_regs s) al →
  (has_flag (ct (arg_ct op i)) TCG_CT_IALIAS = true → (alias_index (arg_ct op i) < length args)%nat) →
  (∀ r, tcg_regset_test_reg (ct_regs (arg_ct op i)) r = true → 0 ≤ r) →
  room (ct_regs (arg_ct op i)) rs → within rs al →
  ∃ s' na' ca' al', alloc_iarg op args mask (s, na, ca, al) i = Ok (s', na', ca', al') ∧
    (al' = al ∨ ∃ r, 0 ≤ r ∧ tcg_regset_test_reg (ct_regs (arg_ct op i)) r = true ∧ al' = tcg_regset_set_reg al r).
Proof.
  intros HF HA HD Hi Hk Hs Hal Hpos Hr Hw. unfold alloc_iarg. fold (arg_ct op i).
  assert (aref args i = Ok (k : Z)) as -> by (by apply aref_nat). cbn [rbind].
  destruct (load_iarg_total D (arg_ct op i) s al rs k HF HA HD Hk Hr Hw) as (s1 & c & E1 & Hc). rewrite E1. cbn [rbind].
  destruct c as [v|]; [eexists _, _, _, _; by split; [|left]|]. destruct (Hc eq_refl) as (ts & Eg & Ev). rewrite Eg. cbn [rbind].
  rewrite bool_decide_eq_true_2 by done. cbn [assert_ rbind].
  assert (∃ b, (if has_flag (ct (arg_ct op i)) TCG_CT_IALIAS then
                  if fixed_reg ts then a <- aref args (alias_index (arg_ct op i)) ;; Ok (negb ((k : Z) =? a))
                  else Ok (negb (IS_DEAD_IARG mask (i - nb_oargs d))) else Ok false) = Ok b) as [b ->].
  { destruct (has_flag _ _); [|by eexists]. destruct (fixed_reg ts); [|by eexists]. destruct (lookup_lt_is_Some_2 args (alias_index (arg_ct op i))) as [a Ha]; [auto|].
    rewrite (aref_nat _ _ _ Ha). by eexists. }
  cbn [rbind]. destruct (negb b && _) eqn:Eb.
  { apply andb_true_iff in Eb as [_ Ht]. cbn [rbind]. eexists _, _, _, _. split; [done|]. right. exists (treg ts). auto. }
  destruct (load_iarg_ok fi sem junk (arg_ct op i) s k al s1 None h0 (ft_inv _ _ HF) Hk Hs E1) as (h1 & ST & _).
  destruct (alloc_get s1 (ct_regs (arg_ct op i)) al rs k) as (s2 & r & ts2 & E2 & Eg2 & _ & Hr1 & Hr2);
    [eapply fits_grow; [done|apply ST]|by rewrite (step_nb_temps _ _ _ _ _ _ _ _ ST)|done|done|].
  rewrite E2. cbn [rbind]. rewrite Eg2. cbn [rbind]. eexists _, _, _, _. split; [done|]. right. by exists r.
Qed.

Lemma inputs_total D l : ∀ done s na ca al rs,
  fits s → avail D s → subset (reserved_regs s) al → within rs al → charged op done rs → rooms op done l = true → 
  (∀ i, i ∈ l → input_ok fi op args s na ca i ∧ (has_flag (ct (arg_ct op i)) TCG_CT_IALIAS = true → (alias_index (arg_ct op i) < length args)%nat) ∧ ∀ k : nat, args !! i = Some (k : Z) → D k) →
  ∃ s' na' ca' al' rs', for_args (alloc_iarg op args mask) l (s, na, ca, al) = Ok (s', na', ca', al') ∧ within rs' al' ∧
    (length rs' ≤ length done + length l)%nat.
Proof.
  induction l as [|i l IH]; intros done s na ca al rs HF HA Hs Hw Hc Hr Hok; cbn [for_args].
  { exists s, na, ca, al, rs. split_and!; [done..|]. destruct Hc. cbn. lia. }
  cbn [rooms] in Hr. apply andb_true_iff in Hr as [Hr%Nat.ltb_lt Hrs]. destruct (Hok i) as (Hin & Hx & HD); [by left|].
  pose proof Hin as (_ & _ & Hpos & _ & k & Hk & Hkn & _).
  destruct (alloc_iarg_total D s na ca al rs i k) as (s1 & na1 & ca1 & al1 & E1 & Hal1); auto; [by eapply charged_room|]. rewrite E1. cbn [rbind].
  destruct (one_input_ok fi sem junk op args mask s na ca al i s1 na1 ca1 al1 h0 (ft_inv _ _ HF) Hs Hin E1) as (h1 & ST1 & _ & Hsub & _ & Ln & Lc & _).
  assert (avail D s1) as HA1.
  { eapply avail_keeps; [|exact HA]. intros h.
    destruct (one_input_ok fi sem junk op args mask s na ca al i s1 na1 ca1 al1 h (ft_inv _ _ HF) Hs Hin E1) as (h' & _ & K & _). by exists h'. }
  assert (∃ rs1, within rs1 al1 ∧ charged op (i :: done) rs1) as (rs1 & Hw1 & Hc1).
  { destruct Hal1 as [->|(r & Hr0 & Hrt & ->)]; [exists rs; split; [done|by apply charged_skip]|].
    exists (r :: rs). split; [by apply within_set|by apply charged_take]. }
  destruct (IH (i :: done) s1 na1 ca1 al1 rs1) as (s' & na' & ca' & al' & rs' & E & Hw' & Hl'); try done.
  - eapply fits_grow; [done|apply ST1].
  - rewrite (step_reserved _ _ _ _ _ _ _ _ ST1). by eapply subset_trans.
  - intros j Hj. destruct (Hok j) as ((? & ? & ? & ? & k' & ? & ? & ?) & ? & ?); [by right|]. split_and!; [|done..].
    unfold input_ok. rewrite Ln, Lc, (step_nb_temps _ _ _ _ _ _ _ _ ST1). split_and!; try done. by exists k'.
  - exists s', na', ca', al', rs'. split_and!; [done..|]. cbn in *. lia.
Qed.

(** ** Outputs *)

Lemma alloc_oarg_alias s na ca al (i k : nat) :
  is_alias op i = true → args !! i = Some (k : Z) → (k < length (temps s))%nat → (alias_index (arg_ct op i) < length na)%nat →
  ∃ s' na' al', alloc_oarg op args (s, na, ca, al) i = Ok (s', na', ca, al') ∧ length na' = length na ∧ length (temps s') = length (temps s).
Proof.
  intros Ha Hi Hk Hx. unfold is_alias in Ha. unfold alloc_oarg. fold (arg_ct op i). rewrite Ha.
  assert (aref args i = Ok (k : Z)) as -> by (by apply aref_nat). cbn [rbind].
  destruct (lookup_lt_is_Some_2 (temps s) k Hk) as [ts Hts].
  assert (get_temp s k = Ok ts) as Eg by (by apply get_temp_at).
  rewrite Eg. cbn [rbind negb andb]. destruct (lookup_lt_is_Some_2 na _ Hx) as [r Hr].
  assert (aref na (alias_index (arg_ct op i)) = Ok r) as -> by (by apply aref_nat).
  cbn [rbind]. rewrite Eg. cbn [rbind]. eexists _, _, _. split; [done|]. rewrite length_insert. split; [done|]. destruct (fixed_reg ts); [done|].
  cbn. by rewrite length_alter, drop_reg_temps.
Qed.

Lemma alias_outs_total l : ∀ s na ca al,
  (∀ i, i ∈ l → is_alias op i = true ∧ (alias_index (arg_ct op i) < length na)%nat ∧ ∃ k : nat, args !! i = Some (k : Z) ∧ (k < length (temps s))%nat) →
  ∃ s' na' ca' al', for_args (alloc_oarg op args) l (s, na, ca, al) = Ok (s', na', ca', al') ∧ length na' = length na ∧ length (temps s') = length (temps s).
Proof.
  induction l as [|i l IH]; intros s na ca al Hl; cbn [for_args]; [by eexists _, _, _, _|]. destruct (Hl i) as (Ha & Hx & k & Hk & Hkn); [by left|].
  destruct (alloc_oarg_alias s na ca al i k Ha Hk Hkn Hx) as (s1 & na1 & al1 & -> & Ln & Lt). cbn [rbind]. rewrite <- Ln, <- Lt. apply IH. intros j Hj.
  rewrite Ln, Lt. apply Hl. by right.
Qed.

(** An output that takes no input's register. *)
Lemma plain_total s na ca (i k : nat) :
  used (op_info op) = true → fits s → is_alias op i = false → (i < nb_oargs d)%nat → args !! i = Some (k : Z) → (k < nb_temps s)%nat →
  ∃ s' na' ca' al', alloc_oarg op args (s, na, ca, reserved_regs s) i = Ok (s', na', ca', al').
Proof.
  intros Hu HF Ea Hi Ek Hkn. unfold alloc_oarg. fold (arg_ct op i). unfold is_alias in Ea. rewrite Ea.
  assert (aref args i = Ok (k : Z)) as -> by (by apply aref_nat). cbn [rbind].
  destruct (get_temp_range fi s k (ft_inv _ _ HF) Hkn) as (ts & _ & ->). cbn [rbind]. destruct (negb false && _ && _); [by eexists _, _, _, _|].
  pose proof (room_facts op Hu) as HR. unfold room_fact in HR. rewrite !andb_true_iff in HR. destruct HR as [[_ HR] _].
  rewrite List.forallb_forall in HR. specialize (HR i ltac:(apply List.in_seq; lia)). apply Nat.ltb_lt in HR.
  destruct (alloc_get s (ct_regs (arg_ct op i)) (reserved_regs s) [] k) as (s1 & r & ts1 & -> & Eg & _); [done|done|exact HR|apply HF|].
  cbn [rbind]. rewrite Eg. by eexists _, _, _, _.
Qed.

Lemma outputs_total s na ca :
  used (op_info op) = true → fits s → (nb_oargs d + nb_iargs d ≤ length na)%nat → (∀ i, (i < nb_oargs d)%nat → output_ok fi op args s na i) →
  ∃ s' na' ca' al', for_args (alloc_oarg op args) (take (nb_oargs d) (sorted_args (op_info op))) (s, na, ca, reserved_regs s) = Ok (s', na', ca', al') ∧
    length na' = length na ∧ (nb_temps s ≤ length (temps s'))%nat.
Proof.
  intros Hu HF Hna Ho. pose proof (sorted_outputs op Hu) as HP. pose proof (inv_temps _ _ (ft_inv _ _ HF)) as HT.
  assert (∀ i, (i < nb_oargs d)%nat → is_alias op i = true → (alias_index (arg_ct op i) < length na)%nat) as Hx.
  { intros i Hi Ha. destruct (alias_ok op Hu i Hi Ha) as [? _]. lia. }
  assert (∀ i, (i < nb_oargs d)%nat → ∃ k : nat, args !! i = Some (k : Z) ∧ (k < nb_temps s)%nat) as Hk.
  { intros i Hi. destruct (Ho i Hi) as (_ & _ & k & ? & ? & _). by exists k. }
  destruct (outputs_ok op Hu) as [Hall|Hone].
  { destruct (alias_outs_total (take (nb_oargs d) (sorted_args (op_info op))) s na ca (reserved_regs s)) as (s1 & na1 & ca1 & al1 & -> & Ln & Lt).
    - intros i Hi. rewrite HP, elem_of_seq in Hi. destruct (Hk i) as (k & ? & ?); [lia|].
      split_and!; [apply Hall; lia|apply Hx; [lia|apply Hall; lia]|]. exists k. split; [done|lia].
    - eexists _, _, _, _. split_and!; [done..|lia]. }
  rewrite Hone in HP. rewrite Hone. apply Permutation_singleton_r in HP. rewrite HP. cbn [for_args]. destruct (Hk 0%nat) as (k & Ek & Hkn); [lia|].
  destruct (is_alias op 0) eqn:Ea.
  { destruct (alloc_oarg_alias s na ca (reserved_regs s) 0 k) as (s1 & na1 & al1 & -> & ? & ?); [done|done|lia|apply Hx; [lia|done]|].
    eexists _, _, _, _. split_and!; [done..|lia]. }
  assert (∃ s1 na1 ca1 al1, alloc_oarg op args (s, na, ca, reserved_regs s) 0 = Ok (s1, na1, ca1, al1)) as (s1 & na1 & ca1 & al1 & E).
  { apply (plain_total s na ca 0 k); done || lia. }
  rewrite E. destruct (plain_out fi sem junk op args s h0 na ca (reserved_regs s) 0 s1 na1 ca1 al1) as (h1 & O); [apply HF|done|apply Ho; lia|apply subset_refl|done|].
  eexists _, _, _, _. split_and!; [done|apply (o_len _ _ _ _ _ _ _ _ _ _ _ O)|]. pose proof (o_step _ _ _ _ _ _ _ _ _ _ _ O) as ST.
  rewrite <- (step_nb_temps _ _ _ _ _ _ _ _ ST). apply (inv_temps _ _ (step_grows_inv _ _ _ _ _ _ _ _ ST)).
Qed.

Lemma move_outputs_total l : ∀ s na,
  (∀ a, a ∈ l → 0 ≤ a < length (temps s)) → (length l ≤ length na)%nat → ∃ s', move_outputs s l na = Ok s'.
Proof.
  induction l as [|a l IH]; intros s na Ha Hn; cbn [move_outputs]; [by eexists|]. destruct na as [|r na]; [cbn in Hn; lia|].
  destruct (Ha a) as [Ha1 Ha2]; [by left|]. destruct (lookup_lt_is_Some_2 (temps s) (Z.to_nat a)) as [ts Hts]; [lia|].
  assert (get_temp s a = Ok ts) as -> by (unfold get_temp, aref; rewrite (proj2 (Z.ltb_ge _ _)) by lia; by rewrite Hts). cbn [rbind aref Z.ltb Z.compare Z.to_nat lookup list_lookup deref tail].
  apply IH; [|cbn in Hn; lia]. intros b Hb. assert (0 ≤ b < length (temps s)) by (apply Ha; by right). by destruct (_ && _).
Qed.

End op.

(** ** The whole function *)

Section whole.
  Context (op : TCGOpcode) (oargs iargs cargs rest : list Z) (mask : Z).
  Notation d := (op_def op).
  Notation args := (oargs ++ iargs ++ cargs ++ rest).
  Notation op_wf := (op_wf fi sem op oargs iargs cargs).

Lemma op_inputs_total D s :
  fits s → avail D s → op_wf (nb_temps s) → (∀ a, a ∈ iargs → D (Z.to_nat a)) →
  ∃ s1 na ca al, for_args (alloc_iarg op args mask) (drop (nb_oargs d) (sorted_args (op_info op)))
      (s, replicate (nb_oargs d + nb_iargs d) 0 ++ cargs, replicate (nb_oargs d + nb_iargs d) false, reserved_regs s) = Ok (s1, na, ca, al) ∧ few al.
Proof.
  intros HF HA W HD. pose proof W as [Hu Hnc Hlo Hli Hlc Ho Hi Hnd Hty]. pose proof (sorted_inputs op Hu) as HP.
  pose proof (room_facts op Hu) as HR. unfold room_fact in HR. rewrite !andb_true_iff in HR. destruct HR as [[HR _] Hl%Nat.ltb_lt].
  destruct (inputs_total op args mask D (drop (nb_oargs d) (sorted_args (op_info op))) [] s (replicate (nb_oargs d + nb_iargs d) 0 ++ cargs) (replicate (nb_oargs d + nb_iargs d) false) (reserved_regs s) [] HF HA)
    as (s1 & na & ca & al & rs & E & Hw & Hrs); [apply subset_refl|apply HF|apply charged_nil|exact HR| |].
  - intros i Hi'. rewrite HP, elem_of_seq in Hi'. split_and!; [by apply (op_input_ok fi sem)| |].
    + intros Hia. destruct (ialias_ok op Hu i Hi' Hia) as [_ Hai]. rewrite length_app. lia.
    + intros k Hk. rewrite <- (Nat2Z.id k). apply HD. rewrite (args_in op oargs iargs cargs rest) in Hk by done. by eapply list_elem_of_lookup_2.
  - exists s1, na, ca, al. split; [done|]. exists rs. split; [done|]. rewrite HP, length_seq in Hrs. cbn in Hrs. lia.
Qed.

(** Between inputs and outputs. *)
Lemma middle_total (free save : bool) s al :
  fits s → subset (reserved_regs s) al → few al → (∀ (n : nat) a, iargs !! n = Some a → IS_DEAD_IARG mask n = true → 0 ≤ a < nb_temps s) →
  ∃ s2 s3, mark_dead s mask 0 iargs = Ok s2 ∧
    (s <- (if free then free_regs s2 all_regs else Ok s2) ;; if save then save_globals s al else Ok s) = Ok s3.
Proof.
  intros HF Hs Hw Hi. destruct (mark_dead_total fi s mask 0 iargs (ft_inv _ _ HF) Hi) as [s2 E2]. exists s2.
  destruct (mark_dead_ok fi sem junk s h0 mask 0 iargs s2 (ft_inv _ _ HF)) as (ST2 & _); [intros n a Hn Hd; by apply (Hi n a)|done|].
  assert (fits s2) as HF2 by (eapply fits_grow; [done|apply ST2]). rewrite <- (step_reserved _ _ _ _ _ _ _ _ ST2) in Hs.
  assert (∃ s', (if free then free_regs s2 all_regs else Ok s2) = Ok s' ∧ fits s' ∧ reserved_regs s' = reserved_regs s2) as (s' & -> & HF' & Er).
  { destruct free; [|by exists s2]. destruct (free_regs_total fi sem junk s2 all_regs HF2 all_regs_range) as [s' E]. exists s'.
    destruct (free_regs_ok fi sem junk s2 h0 all_regs s' (ft_inv _ _ HF2) all_regs_nonneg E) as (h' & ST & _).
    split_and!; [done|eapply fits_grow; [done|apply ST]|apply (step_reserved _ _ _ _ _ _ _ _ ST)]. }
  cbn [rbind]. destruct save; [|by eexists]. destruct (save_globals_total fi sem junk s' al HF') as (s3 & E3 & _); [by rewrite Er|done|]. by exists s3.
Qed.

Lemma alloc_op_total D s :
  fits s → avail D s → op_wf (nb_temps s) → (∀ a, a ∈ iargs → D (Z.to_nat a)) → ∃ s', tcg_reg_alloc_op s op args mask = Ok s'.
Proof.
  intros HF HA W HD. pose proof W as [Hu Hnc Hlo Hli Hlc Ho Hi Hnd Hty]. unfold tcg_reg_alloc_op.
  destruct (op_params_read op oargs iargs cargs rest Hlo Hli Hlc) as (-> & -> & ->). cbn [rbind].
  destruct (op_inputs_total D s HF HA W HD) as (s1 & na & ca & al & E1 & Hw). rewrite E1. cbn [rbind].
  destruct (op_inputs fi sem junk op oargs iargs cargs rest mask s h0 s1 na ca al (ft_inv _ _ HF) W E1) as (h1 & ST1 & _ & Hsub & _ & Lna & _).
  pose proof (step_nb_temps _ _ _ _ _ _ _ _ ST1) as En1. assert (fits s1) as HF1 by (eapply fits_grow; [done|apply ST1]).
  rewrite <- (step_reserved _ _ _ _ _ _ _ _ ST1) in Hsub. destruct (has_flag (op_flags d) TCG_OPF_BB_END) eqn:Hbb.
  { destruct (bb_end_flags op Hu Hbb) as [Hno _]. destruct (bb_end_total fi sem junk s1 al HF1 Hsub Hw) as [s2 ->]. cbn [rbind].
    rewrite Hno in Hlo. destruct oargs; [by eexists|done]. }
  destruct (middle_total (clobbers op) (clobbers op) s1 al HF1 Hsub Hw) as (s2 & s3 & E2 & E3).
  { intros n a Hn _. rewrite En1. apply Hi. by eapply list_elem_of_lookup_2. }
  destruct (middle_ok fi sem junk (clobbers op) (clobbers op) s1 h1 mask iargs al s3) as (h3 & ST3 & _); [apply HF1|done| |by rewrite E2|].
  { intros n a Hn _. rewrite En1. apply Hi. by eapply list_elem_of_lookup_2. }
  rewrite E2. cbn [rbind]. unfold clobbers in E3.
  replace (if has_flag (op_flags d) TCG_OPF_CALL_CLOBBER then s <- free_regs s2 all_regs ;; save_globals s al else Ok s2) with (Ok s3)
    by (rewrite <- E3; by destruct (has_flag _ TCG_OPF_CALL_CLOBBER)). cbn [rbind].
  pose proof (step_nb_temps _ _ _ _ _ _ _ _ ST3) as En3. assert (op_wf (nb_temps s3)) as W3 by (by rewrite En3, En1).
  assert (fits s3) as HF3 by (eapply fits_grow; [done|apply ST3]).
  destruct (outputs_total op args s3 na ca Hu HF3) as (s4 & na4 & ca4 & al4 & E4 & L4 & T4); [lia|by intros i; apply (op_output_ok fi sem)|].
  rewrite E4. cbn [rbind]. apply move_outputs_total; [|lia]. intros a Ha. cbn. destruct (Ho a Ha). lia.
Qed.
End whole.
End total.
