(* ===== verification/TcgTotalCall.v ===== *)
(** * Moves and calls do not fail *)

From stdpp Require Import base gmap list functions.
From S2P Require Import Prelude TcgData TcgLive TcgLiveInv TcgAlloc TcgSem TcgInv TcgSpill TcgSave TcgArgs TcgOpIn TcgOp TcgGenOp TcgGenCall TcgCall TcgSim TcgLoop TcgFlow TcgRun TcgTotal.
Local Open Scope Z_scope.
Local Coercion Z.of_nat : nat >-> Z.

Lemma aref_first {A} (x : A) l : aref (x :: l) 0 = Ok x.
Proof. done. Qed.
Lemma aref_second {A} (x y : A) l : aref (x :: y :: l) 1 = Ok y.
Proof. done. Qed.

Section total.
  Context (fi : frame_info) {dl : Disc fi} (Hdl : ∀ k, ¬ disc fi k) (sem : tcg_sem unit) (junk : (Z → Z) → unit → Z → Z).
  Notation h0 := (mkH (λ _, 0) (λ _, 0) tt).
  Notation inv := (inv fi).
  Notation grow := (grow fi).
  Notation keeps := (keeps fi).
  Notation fits := (fits fi).
  Notation avail := (avail fi).
  Implicit Types (h : hstate unit) (s : TCGContext) (D : nat → Prop).

(** ** Moves *)

Lemma movi_total s (o : nat) val rest : inv s → (o < nb_temps s)%nat → ∃ s', tcg_reg_alloc_movi s ((o : Z) :: val :: rest) = Ok s'.
Proof.
  intros HI Ho. unfold tcg_reg_alloc_movi. rewrite aref_first, aref_second. cbn [rbind].
  destruct (get_temp_range fi s o HI Ho) as (ts & _ & ->). cbn [rbind]. destruct (fixed_reg ts); by eexists.
Qed.

Lemma mov_regs op : is_mov op = true → ct_regs (get_ct (args_ct (op_info op)) 0) = 0xffff.
Proof. unfold is_mov. intros [E%Nat.eqb_eq|E%Nat.eqb_eq]%orb_true_iff; subst op; vm_compute; done. Qed.

Lemma mov_total D s op (o i : nat) rest mask :
  fits s → avail D s → D i → is_mov op = true → (o < nb_temps s)%nat → (i < nb_temps s)%nat →
  ∃ s', tcg_reg_alloc_mov s op ((o : Z) :: (i : Z) :: rest) mask = Ok s'.
Proof.
  intros HF HA HD Hop Ho Hi. pose proof (ft_inv _ _ HF) as HI. unfold tcg_reg_alloc_mov. rewrite (mov_regs op Hop).
  rewrite aref_first, aref_second. cbn [rbind].
  destruct (get_temp_range fi s o HI Ho) as (ots & Hots & ->). destruct (get_temp_range fi s i HI Hi) as (ts & Hts & Eg). rewrite Eg. cbn [rbind].
  pose proof (avail_ready fi Hdl D s i ts HI HA HD Hi Hts) as Hnd.
  assert (∃ s1 r t, (if bool_decide (val_type ots = TEMP_VAL_REG) then Ok (s, treg ots) else tcg_reg_alloc s 0xffff (reserved_regs s)) = Ok (s1, r) ∧
    get_temp s1 i = Ok t) as (s1 & r & t & E1 & Eg1).
  { destruct (bool_decide _); [by eexists _, _, _|]. destruct (alloc_get fi sem junk s 0xffff (reserved_regs s) [] i HF Hi) as (s1 & r & t & ? & ? & _).
    - apply room_all; [done|]. vm_compute. lia.
    - apply HF.
    - by exists s1, r, t. }
  destruct (val_type ts); [done| | |].
  - destruct (_ && _ && _); [by eexists|]. rewrite E1. cbn [rbind]. rewrite Eg1. by eexists.
  - rewrite E1. cbn [rbind]. rewrite Eg1. by eexists.
  - destruct (fixed_reg ots); by eexists.
Qed.

(** ** Arguments of calls *)

(** The arguments are temporaries of [D] or fillers. *)
Definition args_in_D D s (l : list Z) : Prop := ∀ a, a ∈ l → a ≠ TCG_CALL_DUMMY_ARG → 0 ≤ a < nb_temps s ∧ D (Z.to_nat a).

Lemma args_in_D_ok D s l : args_in_D D s l → args_ok s l.
Proof. intros H a Ha Hd. by destruct (H a Ha Hd). Qed.

Lemma stack_args_total D l : ∀ s off, fits s → avail D s → args_in_D D s l → ∃ s', stack_args s l off = Ok s'.
Proof.
  induction l as [|a l IH]; intros s off HF HA Hl; cbn [stack_args]; [by eexists|].
  assert (args_in_D D s l) as Hl' by (intros b Hb; apply Hl; by right).
  destruct (Z.eqb_spec a TCG_CALL_DUMMY_ARG) as [->|Hd]; [cbn [rbind]; by apply IH|]. destruct (Hl a) as [Ha HD]; [by left|done|].
  set (k := Z.to_nat a) in *. replace a with (k : Z) by lia. assert (k < nb_temps s)%nat as Hk by lia. pose proof (ft_inv _ _ HF) as HI.
  destruct (get_temp_range fi s k HI Hk) as (ts & Hts & Eg). rewrite Eg. cbn [rbind]. pose proof (avail_ready fi Hdl D s k ts HI HA HD Hk Hts) as Hnd.
  destruct (alloc_get fi sem junk s (tcg_target_available_regs (ttype ts)) (reserved_regs s) [] k HF Hk) as (s1 & r & t & E1 & Eg1 & _);
    [apply room_all; [done|vm_compute; lia]|apply HF|].
  assert (∀ s', (∀ h, ∃ h', stk fi sem junk (eq off) s h s' h' ∧ keeps s h s' h') → ∃ s'', stack_args s' l (off + 8) = Ok s'') as HN.
  { intros s' HS. destruct (HS h0) as (h' & [R _ _] & _). apply IH; [eapply fits_grow; [done|apply R]| |].
    - eapply avail_keeps; [|done]. intros h. destruct (HS h) as (? & _ & ?). eauto.
    - unfold args_in_D. by rewrite (run_nb_temps _ _ _ _ _ _ _ _ R). }
  match goal with |- ∃ _, (s <- ?m ;; _) = _ => assert (∃ s', m = Ok s') as [s' E'] end.
  { destruct (val_type ts); [done|by eexists| |]; rewrite E1; cbn [rbind]; [rewrite Eg1|]; by eexists. }
  rewrite E'. cbn [rbind]. apply HN. intros h. destruct (stack_arg_ok fi sem junk s h k off ts s' HI Hk Hts E') as (h' & ? & ? & _). by exists h'.
Qed.

Lemma reg_args_total D l : ∀ s regs al rs,
  fits s → avail D s → args_in_D D s l → NoDup regs → (∀ r, r ∈ regs → 0 ≤ r < TCG_TARGET_NB_REGS ∧ tcg_regset_test_reg al r = false) →
  subset (reserved_regs s) al → within rs al →
  ∃ s' al' rs', reg_args s l regs al = Ok (s', al') ∧ within rs' al' ∧ (length rs' ≤ length rs + length regs)%nat.
Proof.
  induction l as [|a l IH]; intros s regs al rs HF HA Hl HN Hregs Hs Hw; [exists s, al, rs; split_and!; [done..|lia]|].
  destruct regs as [|r regs]; [exists s, al, rs; split_and!; [done..|lia]|]. cbn [reg_args].
  assert (args_in_D D s l) as Hl' by (intros b Hb; apply Hl; by right). inversion_clear HN as [|? ? Hnr HN'']. rename HN'' into HN'.
  destruct (Hregs r) as [Hr Hral]; [by left|].
  destruct (Z.eqb_spec a TCG_CALL_DUMMY_ARG) as [->|Hd].
  { cbn [rbind]. destruct (IH s regs al rs) as (s' & al' & rs' & ? & ? & ?); try done; [intros r' ?; apply Hregs; by right|].
    exists s', al', rs'. split_and!; [done..|cbn; lia]. }
  destruct (Hl a) as [Ha HD]; [by left|done|]. set (k := Z.to_nat a) in *. replace a with (k : Z) by lia. assert (k < nb_temps s)%nat as Hk by lia.
  pose proof (ft_inv _ _ HF) as HI. destruct (tcg_reg_free_total fi s r HF Hr) as [s1 E1]. rewrite E1. cbn [rbind].
  assert (∀ h, ∃ h', grow s s1 ∧ keeps s h s1 h') as G1.
  { intros h. destruct (tcg_reg_free_ok fi sem junk s r s1 h HI ltac:(lia) E1) as (h' & ST & _ & K & _). exists h'. split; [apply ST|done]. }
  destruct (G1 h0) as (_ & GG & _). assert (avail D s1) as HA1 by (eapply avail_keeps; [|done]; intros h; destruct (G1 h) as (? & _ & ?); eauto).
  assert (k < nb_temps s1)%nat as Hk1 by (by rewrite (sc_temps _ _ (g_ctx _ _ _ GG))).
  destruct (get_temp_range fi s1 k (g_inv _ _ _ GG) Hk1) as (ts & Hts & Eg). rewrite Eg. cbn [rbind].
  pose proof (avail_ready fi Hdl D s1 k ts (g_inv _ _ _ GG) HA1 HD Hk1 Hts) as Hnd.
  match goal with |- ∃ _ _ _, (' _ <- (s <- ?m ;; _) ;; _) = _ ∧ _ => assert (∃ s', m = Ok s') as [s2 E2] end.
  { by destruct (val_type ts); [done|eexists..]. }
  rewrite E2. cbn [rbind].
  destruct (reg_arg_ok fi sem junk s h0 k r al s1 ts s2 HI Hk ltac:(lia) Hs Hral E1 Hts E2) as (h2 & ST & _).
  destruct (IH s2 regs (tcg_regset_set_reg al r) (r :: rs)) as (s' & al' & rs' & ? & ? & ?).
  - eapply fits_grow; [done|apply ST].
  - eapply avail_keeps; [|exact HA]. intros h. destruct (reg_arg_ok fi sem junk s h k r al s1 ts s2 HI Hk ltac:(lia) Hs Hral E1 Hts E2) as (h' & _ & K & _). eauto.
  - unfold args_in_D. by rewrite (step_nb_temps _ _ _ _ _ _ _ _ ST).
  - done.
  - intros r' Hr'. destruct (Hregs r') as [? ?]; [by right|]. split; [done|]. rewrite set_reg_test by lia. apply orb_false_iff. split; [done|].
    apply bool_decide_eq_false. by intros ->.
  - rewrite (step_reserved _ _ _ _ _ _ _ _ ST). eapply subset_trans; [exact Hs|]. apply subset_set_reg. lia.
  - apply within_set; [lia|done].
  - exists s', al', rs'. split_and!; [done..|cbn in *; lia].
Qed.

Lemma func_addr_total D s (k : nat) al rs :
  fits s → avail D s → D k → (k < nb_temps s)%nat → subset (reserved_regs s) al → within rs al → (S (length rs) < length usable)%nat →
  ∃ s' f b al', func_addr s k al = Ok (s', f, b, al') ∧ few al'.
Proof.
  intros HF HA HD Hk Hs Hw Hl. pose proof (ft_inv _ _ HF) as HI. unfold func_addr.
  destruct (get_temp_range fi s k HI Hk) as (ts & Hts & Eg). rewrite Eg. cbn [rbind]. pose proof (avail_ready fi Hdl D s k ts HI HA HD Hk Hts) as Hnd.
  destruct (alloc_get fi sem junk s 0xffff al rs k HF Hk) as (s1 & r & t & E1 & Eg1 & _ & Hr & _); [apply room_all; [done|lia]|done|].
  change (ct_regs (get_ct (args_ct (op_info INDEX_op_call)) 0)) with 0xffff. rewrite E1. cbn [rbind]. rewrite Eg1. cbn [rbind].
  assert (∀ r, 0 ≤ r → few (tcg_regset_set_reg al r)) as HW.
  { intros r' Hr'. exists (r' :: rs). split; [by apply within_set|cbn [length]; lia]. }
  destruct (val_type ts) eqn:Ev; [done| | |].
  - assert (0 ≤ treg ts) as Ht.
    { pose proof (inv_temp _ _ HI k ts Hk Hts) as T. destruct (fixed_reg ts) eqn:Ef; [|by apply (t_reg _ _ _ _ T)].
      destruct (t_fixed_reg _ _ _ _ T Ef) as (_ & _ & Hres). unfold tcg_regset_test_reg in Hres.
      destruct (Z.neg_nonneg_cases (treg ts)); [by rewrite Z.testbit_neg_r in Hres|done]. }
    destruct (tcg_regset_test_reg _ _); cbn [rbind]; eexists _, _, _, _; (split; [done|]); by apply HW.
  - eexists _, _, _, _. split; [done|]. by apply HW.
  - destruct (tcg_target_const_match _ _); eexists _, _, _, _; (split; [done|]); [|by apply HW]. exists rs. split; [done|lia].
Qed.

(** ** Results of calls *)

Lemma call_oargs_total oargs : ∀ s regs,
  inv s → (∀ a, a ∈ oargs → 0 ≤ a < nb_temps s ∧ fi_fixed fi (Z.to_nat a) = false) → NoDup regs →
  (∀ r, r ∈ regs → 0 ≤ r < TCG_TARGET_NB_REGS ∧ tcg_regset_test_reg (reserved_regs s) r = false ∧ rt s r = Some (-1)) →
  (length oargs ≤ length regs)%nat → ∃ s', call_oargs s oargs regs = Ok s'.
Proof.
  induction oargs as [|a oargs IH]; intros s regs HI Ho HN Hregs Hl; [by eexists|]. destruct regs as [|r regs]; [cbn in Hl; lia|]. cbn [call_oargs].
  inversion_clear HN as [|? ? Hnr HN']. destruct (Ho a) as [Ha Hf]; [by left|]. destruct (Hregs r) as (Hr & Hres & Hrt); [by left|].
  set (k := Z.to_nat a) in *. replace a with (k : Z) by lia. assert (k < nb_temps s)%nat as Hk by lia.
  destruct (get_temp_range fi s k HI Hk) as (ts & Hts & ->). cbn [rbind]. destruct (rt_range fi s r HI Hr) as (k' & Ek & ->). cbn [rbind].
  assert (k' = -1) as -> by congruence. cbn [Z.eqb Pos.eqb assert_ rbind].
  pose proof (t_fixed _ _ _ _ (inv_temp _ _ HI k ts Hk Hts)) as Hfx. rewrite Hf in Hfx. rewrite Hfx.
  change (∃ s', call_oargs (assign s ts k r false) oargs regs = Ok s').
  assert (step fi sem junk 0 s h0 (assign s ts k r false) h0) as ST1. { apply step_assign; try done; [by left|apply Z.testbit_0_l]. }
  apply IH; [by eapply step_grows_inv| |done| |cbn in Hl; lia].
  - intros b Hb. rewrite (step_nb_temps _ _ _ _ _ _ _ _ ST1). apply Ho. by right.
  - intros r' Hr'. destruct (Hregs r') as (? & ? & Hrt'); [by right|]. rewrite (step_reserved _ _ _ _ _ _ _ _ ST1). split_and!; [lia..|done|].
    rewrite (assign_rt fi) by (done || lia || by intros <-). rewrite Hrt'. by destruct (bool_decide _).
Qed.

Lemma call_results_total (big : bool) i j s oargs :
  inv s → (∀ r, clobbered r = true → rt s r = Some (-1)) →
  (∀ a, a ∈ oargs → 0 ≤ a < nb_temps s ∧ fi_fixed fi (Z.to_nat a) = false) → (length oargs ≤ 2)%nat →
  ∃ s', call_oargs (if big then out (out s i) j else out s i) oargs tcg_target_call_oarg_regs = Ok s'.
Proof.
  intros HI Hcl Ho Hl. set (s1 := if big then _ else _). assert (inv s1) as HI1 by (unfold s1; destruct big; [apply inv_out|]; by apply inv_out).
  assert (nb_temps s1 = nb_temps s ∧ ∀ r, rt s1 r = rt s r) as [En Er] by (unfold s1; by destruct big).
  apply call_oargs_total; [done|by rewrite En| | |].
  - apply (bool_decide_unpack _). vm_compute. done.
  - intros r [Hc Hr]%oarg_regs_clobbered. split_and!; [lia..|by apply (inv_clobber _ _ HI1)|]. rewrite Er. by apply Hcl.
  - done.
Qed.

(** ** The whole function *)

Lemma iarg_regs_ok s : inv s → ∀ r, r ∈ tcg_target_call_iarg_regs → 0 ≤ r < TCG_TARGET_NB_REGS ∧ tcg_regset_test_reg (reserved_regs s) r = false.
Proof. intros HI r [Hc Hr]%iarg_regs_clobbered. split; [done|]. by apply (inv_clobber _ _ HI). Qed.

(** The arguments and the address of the function. *)
Lemma call_args_total D s pargs (fk : nat) (nr : Z) :
  fits s → avail D s → args_in_D D s pargs → D fk → (fk < nb_temps s)%nat → nr = Z.min 6 (length pargs) →
  ∃ s2 s3 al3 s4 f b al4, stack_args s (drop (Z.to_nat nr) pargs) TCG_TARGET_CALL_STACK_OFFSET = Ok s2 ∧
    reg_args s2 (take (Z.to_nat nr) pargs) tcg_target_call_iarg_regs (reserved_regs s2) = Ok (s3, al3) ∧
    func_addr s3 fk al3 = Ok (s4, f, b, al4) ∧ few al4.
Proof.
  intros HF HA Hp HD Hfk Hnr. pose proof (ft_inv _ _ HF) as HI.
  assert (∀ l s', (∀ a, a ∈ l → a ∈ pargs) → nb_temps s' = nb_temps s → args_in_D D s' l) as Hsub.
  { intros l s' Hl En a Ha Hd. rewrite En. apply Hp; [by apply Hl|done]. }
  assert (args_in_D D s (drop (Z.to_nat nr) pargs)) as Hp1.
  { apply Hsub; [|done]. intros a Ha. rewrite <- (take_drop (Z.to_nat nr) pargs). apply elem_of_app. by right. }
  destruct (stack_args_total D (drop (Z.to_nat nr) pargs) s TCG_TARGET_CALL_STACK_OFFSET HF HA) as [s2 E2]; [done|].
  pose proof (λ h, stack_args_ok fi sem junk s h _ _ s2 HI (args_in_D_ok _ _ _ Hp1) E2) as SA. destruct (SA h0) as (h2 & [R2 _ _] & _).
  assert (fits s2) as HF2 by (eapply fits_grow; [done|apply R2]).
  assert (avail D s2) as HA2 by (eapply avail_keeps; [|done]; intros h; destruct (SA h) as (h' & _ & ? & _); eauto).
  assert (nb_temps s2 = nb_temps s) as En2 by apply (run_nb_temps _ _ _ _ _ _ _ _ R2).
  assert (args_in_D D s2 (take (Z.to_nat nr) pargs)) as Hp2.
  { apply Hsub; [|done]. intros a Ha. rewrite <- (take_drop (Z.to_nat nr) pargs). apply elem_of_app. by left. }
  pose proof (iarg_regs_ok s2 (ft_inv _ _ HF2)) as Hreg.
  destruct (reg_args_total D (take (Z.to_nat nr) pargs) s2 tcg_target_call_iarg_regs (reserved_regs s2) []) as (s3 & al3 & rs & E3 & Hw3 & Hl3);
    [done|done|done|apply iarg_regs_NoDup|done|apply subset_refl|apply HF2|].
  assert (∀ r, r ∈ tcg_target_call_iarg_regs → 0 ≤ r ∧ tcg_regset_test_reg (reserved_regs s2) r = false) as Hreg' by (intros r Hr; destruct (Hreg r Hr); split; [lia|done]).
  pose proof (λ h, reg_args_ok fi sem junk s2 h _ _ _ s3 al3 (ft_inv _ _ HF2) (args_in_D_ok _ _ _ Hp2) iarg_regs_NoDup Hreg' (subset_refl _) E3) as RA.
  destruct (RA h0) as (h3 & ST3 & _ & Hs3 & _).
  destruct (func_addr_total D s3 fk al3 rs) as (s4 & f & b & al4 & E4 & Hw4).
  - eapply fits_grow; [done|apply ST3].
  - eapply avail_keeps; [|exact HA2]. intros h. destruct (RA h) as (h' & _ & ? & _). eauto.
  - done.
  - by rewrite (step_nb_temps _ _ _ _ _ _ _ _ ST3), En2.
  - by rewrite (step_reserved _ _ _ _ _ _ _ _ ST3).
  - done.
  - cbn in Hl3. change (length usable) with 14%nat. lia.
  - by exists s2, s3, al3, s4, f, b, al4.
Qed.

Lemma alloc_call_total D s oargs iargs flags rest mask :
  fits s → avail D s → call_wf fi (nb_temps s) oargs iargs → (length oargs ≤ 2)%nat →
  (∀ a, a ∈ iargs → a ≠ TCG_CALL_DUMMY_ARG → D (Z.to_nat a)) →
  (∀ n : nat, iargs !! n = Some TCG_CALL_DUMMY_ARG → IS_DEAD_IARG mask n = false) →
  ∃ s' n, tcg_reg_alloc_call s (op_params (TCall oargs iargs flags) ++ rest) mask = Ok (s', n).
Proof.
  intros HF HA [Hfew Hlo Hli (pargs & fk & Eia & Hfk & Hft) Ho Hia] Hl2 HD Hdm. unfold tcg_reg_alloc_call.
  destruct (call_read oargs iargs flags rest Hlo Hli) as (hd & R1 & R2 & R3 & R4 & R5 & R6). rewrite R1. cbn [rbind].
  rewrite R2, R3, R4. cbn [rbind]. rewrite R5, R6. cbn [rbind]. clear R1 R2 R3 R4 R5 R6.
  assert (length iargs - 1 = length pargs) as Elp by (rewrite Eia, length_app; cbn; lia).
  assert (take (Z.to_nat (length iargs - 1)) iargs = pargs) as -> by (rewrite Elp, Nat2Z.id, Eia; apply take_app_length).
  assert (aref iargs (length iargs - 1) = Ok (fk : Z)) as Ef by (rewrite Elp, Eia; apply aref_nat, lookup_mid).
  set (nr := Z.min _ _). assert (nr = Z.min 6 (length pargs)) as Hnr by (unfold nr; by rewrite Elp). clearbody nr.
  set (big := _ <? _). clearbody big. set (sz := _ .& _). clearbody sz.
  destruct (addi_ok fi sem junk big TCG_REG_CALL_STACK (- sz) s h0 (ft_inv _ _ HF)) as [R1 _]. set (s1 := if big then _ else s) in *.
  assert (fits s1) as HF1 by (eapply fits_grow; [done|apply R1]). pose proof (run_nb_temps _ _ _ _ _ _ _ _ R1) as En1.
  assert (avail D s1) as HA1.
  { eapply avail_keeps; [|exact HA]. intros h. exists h. intros L vals. apply (addi_ok fi sem junk big TCG_REG_CALL_STACK (- sz) s h (ft_inv _ _ HF)). }
  assert ((fk : Z) ≠ TCG_CALL_DUMMY_ARG) as Hfd by (change TCG_CALL_DUMMY_ARG with (2 ^ 64 - 1); lia).
  assert (args_in_D D s1 pargs) as Hpa.
  { intros a Ha Hd. assert (a ∈ iargs) by (rewrite Eia; apply elem_of_app; by left). rewrite En1. by split; [apply Hia|apply HD]. }
  destruct (call_args_total D s1 pargs fk nr HF1 HA1 Hpa) as (s2 & s3 & al3 & s4 & f & b & al4 & E2 & E3 & E4 & Hw4).
  { rewrite <- (Nat2Z.id fk). apply HD; [|done]. rewrite Eia. apply elem_of_app. right. by left. }
  { by rewrite En1. }
  { done. }
  rewrite E2. cbn [rbind]. rewrite E3. cbn [rbind]. rewrite Ef. cbn [rbind]. rewrite E4. cbn [rbind].
  destruct (call_args_ok fi sem junk s1 h0 pargs fk nr s2 s3 al3 s4 f b al4 (ft_inv _ _ HF1) (args_in_D_ok _ _ _ Hpa)) as (h4 & R4 & _ & _ & Hs4 & _);
    [by rewrite En1|done..|].
  pose proof (run_nb_temps _ _ _ _ _ _ _ _ R4) as En4.
  assert (∀ (n : nat) a, iargs !! n = Some a → IS_DEAD_IARG mask n = true → 0 ≤ a < nb_temps s4) as Hdead.
  { intros n a Hn Hd. rewrite En4, En1. apply Hia; [by eapply list_elem_of_lookup_2|]. intros ->. by rewrite Hdm in Hd. }
  destruct (middle_total fi sem junk iargs mask true (negb (has_flag flags TCG_CALL_CONST)) s4 al4) as (s5 & s6 & E5 & E6);
    [eapply fits_grow; [done|apply R4]|by rewrite (run_reserved _ _ _ _ _ _ _ _ R4)|done|done|].
  rewrite E5. cbn [rbind]. destruct (middle_ok fi sem junk true (negb (has_flag flags TCG_CALL_CONST)) s4 h4 mask iargs al4 s6) as (h6 & ST6 & _ & _ & CL6 & _);
    [apply (run_inv _ _ _ _ _ _ _ _ R4)|by rewrite (run_reserved _ _ _ _ _ _ _ _ R4)|intros n a Hn Hd; by apply (Hdead n a)|by rewrite E5|].
  apply rbind_ok in E6 as (s5b & -> & E6). cbn [rbind].
  replace (if has_flag flags TCG_CALL_CONST then Ok s5b else save_globals s5b al4) with (Ok s6) by (rewrite <- E6; by destruct (has_flag _ _)). cbn [rbind].
  destruct (call_results_total big (HOp INDEX_op_call [f] [b]) (HAddi TCG_REG_CALL_STACK sz) s6 oargs) as [s8 ->]; [|by apply CL6| |done|by eexists _, _].
  - by apply (step_grows_inv _ _ _ _ _ _ _ _ ST6).
  - intros a Ha. rewrite (step_nb_temps _ _ _ _ _ _ _ _ ST6), En4, En1. by apply Ho.
Qed.
End total.

(** * [tcg_gen_code] succeeds

    Every operation of a block that can be translated gets its code: labels
    are set once, the maps of registers and temporaries agree after each
    operation, and no assertion fails. *)

(** ** The check after each operation *)

Lemma check_regs_total fi s : inv fi s → check_regs s = Ok tt.
Proof.
  intros HI. unfold check_regs. apply assert_ok, andb_true_iff. split; apply List.forallb_forall.
  - intros r Hr%list_elem_of_In. pose proof (proj1 (Forall_forall _ _) all_regs_range r ltac:(by apply list_elem_of_In)) as Hrange. cbn in Hrange.
    unfold check_reg. destruct (rt_range fi s r HI Hrange) as (k & Hk & ->). destruct (Z.ltb_spec k 0); [done|].
    destruct (inv_reg _ _ HI r k ltac:(lia) Hk) as [?|(n & ts & -> & Hn & Hts & Hv & Ht & Hf)]; [lia|]. rewrite (get_temp_at _ _ _ Hts).
    rewrite bool_decide_eq_true_2 by done. cbn. by apply Z.eqb_eq.
  - intros k [_ Hk]%List.in_seq. unfold check_temp. destruct (get_temp_range fi s k HI ltac:(lia)) as (ts & Hts & ->).
    destruct (bool_decide _) eqn:Ev; [|done]. apply bool_decide_eq_true in Ev. cbn. destruct (fixed_reg ts) eqn:Ef; [done|]. cbn.
    destruct (t_reg _ _ _ _ (inv_temp _ _ HI k ts ltac:(lia) Hts) Ef Ev) as (Hr & _ & Hrt). destruct (rt_range fi s (treg ts) HI Hr) as (j & Hj & ->).
    apply Z.eqb_eq. congruence.
Qed.

(** ** One operation *)

Section total.
  Context (fi : frame_info) (temp_local : list bool).
  Context (Hloc : ∀ k, fi_local fi k = default false (temp_local !! k)) (Hfew : length temp_local < 2 ^ 31).
  Context (sem : tcg_sem unit) `{!SemOk fi sem}.
  Notation junk0 := (λ (_ : Z → Z) (_ : unit) (_ : Z), 0).
  Notation none := (mkDisc fi (λ _, false)).
  Notation fits := (fits fi).
  Notation avail := (avail fi (dl := none)).
  Notation live1 := (live1 (fi_nb_globals fi) temp_local).
  Notation wf_op := (wf_op temp_local).
  Notation op_good := (op_good fi temp_local sem).
  Implicit Types (s : TCGContext) (d def : nat → bool) (D : nat → Prop).

Lemma none_disc k : ¬ disc fi (Disc := none) k.
Proof. by intros [? _]. Qed.

(** The operation is an allowed one, and its label, if any, is not set. *)
Definition op_fits s (o : tcgop) : Prop :=
  match o with
  | TCall oargs _ _ => (length oargs ≤ 2)%nat
  | _ => ∀ l, is_label l o = true → 0 ≤ l ∧ has_value s !! Z.to_nat l = Some false
  end.

Lemma label_total s oargs iargs l rest m :
  fits s → oargs = [] → iargs = [] → op_fits s (TOp INDEX_op_set_label oargs iargs [l]) →
  ∃ s' n, gen_op s INDEX_op_set_label (oargs ++ iargs ++ [l] ++ rest) m = Ok (s', n).
Proof.
  intros HF -> -> Hl. destruct (Hl l) as [Hl0 Hv]; [cbn; apply Z.eqb_refl|]. rewrite gen_op_label. cbn [app].
  destruct (bb_end_total fi (dl := none) sem junk0 s (reserved_regs s) HF (subset_refl _) (few_reserved _ _ HF)) as [s1 E1]. rewrite E1. cbn [rbind].
  rewrite aref_first. cbn [rbind]. unfold tcg_out_label.
  replace (aref (has_value s1) l) with (Ok false); [by eexists _, _|]. symmetry. apply aref_Ok. split; [done|]. by rewrite (hv_bb_end _ _ _ E1).
Qed.

Lemma kept_total D def d op oargs iargs cargs rest mask mo s :
  fits s → nb_temps s = length temp_local →
  wf_op (TOp op oargs iargs cargs) → op_good def d (TOp op oargs iargs cargs) →
  op ≠ INDEX_op_set_label → op ≠ INDEX_op_debug_insn_start → op ≠ INDEX_op_discard → mo = Some (u16 mask) →
  avail D s → (∀ a, a ∈ iargs → D (Z.to_nat a)) →
  ∃ s' n, gen_op s op (oargs ++ iargs ++ cargs ++ rest) mo = Ok (s', n).
Proof.
  intros HF Hn Hwf Hg N1 N2 N3 -> HA HD. pose proof (ft_inv _ _ HF) as HI. destruct (is_plain op) eqn:Ep; [rewrite gen_op_plain by done; by eexists _, _|].
  pose proof Hwf as (_ & W1 & W2 & _ & Ho & Hi & Hc & Fo & Fi).
  destruct (is_mov op) eqn:Em.
  { rewrite gen_op_mov by done. destruct (mov_shape op Em) as (S1 & S2 & S3 & _). rewrite S1 in Ho. rewrite S2 in Hi.
    destruct oargs as [|a [|? ?]]; try done. destruct iargs as [|b [|? ?]]; try done. cbn [deref rbind app].
    pose proof (args_range temp_local _ Fo a ltac:(by left)). pose proof (args_range temp_local _ Fi b ltac:(by left)).
    destruct (mov_total fi (dl := none) none_disc sem junk0 D s op (Z.to_nat a) (Z.to_nat b) (cargs ++ rest) (u16 mask)) as [s' E]; [done|done|apply HD; by left|done|lia..|].
    rewrite !Z2Nat.id in E by lia. rewrite E. by eexists _, _. }
  destruct (is_movi op) eqn:Ei.
  { rewrite gen_op_movi by done. destruct (movi_shape op Ei) as (S1 & S2 & S3 & _). rewrite S1 in Ho. rewrite S2 in Hi. rewrite S3 in Hc.
    destruct oargs as [|a [|? ?]]; try done. destruct iargs; try done. destruct cargs as [|c [|? ?]]; try done. cbn [app].
    pose proof (args_range temp_local _ Fo a ltac:(by left)).
    destruct (movi_total fi s (Z.to_nat a) c rest HI) as [s' E]; [lia|]. rewrite Z2Nat.id in E by lia. rewrite E. by eexists _, _. }
  assert (is_general op = true) as Hge.
  { unfold is_general. rewrite Ep, Em, Ei. by apply Nat.eqb_neq in N1 as ->, N3 as ->, W1 as ->, W2 as ->. }
  rewrite gen_op_general by done. cbn [deref rbind].
  destruct (alloc_op_total fi (dl := none) none_disc sem junk0 op oargs iargs cargs rest (u16 mask) D s HF HA) as [s' ->]; [|done|by eexists _, _].
  by apply (general_wf fi temp_local sem def d).
Qed.

Lemma removed_total s o rest m : ∃ s' n, gen_op s (op_opc (removed o)) (op_params (removed o) ++ rest) m = Ok (s', n).
Proof.
  unfold removed. destruct (op_params o) as [|x l]; cbn [length]; [by eexists _, _|]. cbn [op_opc op_params]. rewrite gen_op_nopn.
  destruct (lookup_lt_is_Some_2 (<[length l:=S (length l) : Z]> (<[0%nat:=S (length l) : Z]> (x :: l)) ++ rest) 0) as [k Hk]; [rewrite length_app, !length_insert; cbn; lia|].
  pose proof (aref_nat _ 0 _ Hk) as E. change (Z.of_nat 0) with 0 in E. rewrite E. by eexists _, _.
Qed.

Lemma op_total def d o o' rest dead dead' mask mo s vals (h : hstate unit) :
  fits s → nb_temps s = length temp_local → length dead = length temp_local → globals_def fi def → wf_op o → op_good def d o → op_fits s o →
  live1 o dead = (o', mask, dead') → (∀ m, mask = Some m → mo = Some m) → Rel fi (dl := mkDisc fi d) s (Lv dead' def) vals h →
  ∃ s' n, gen_op s (op_opc o') (op_params o' ++ rest) mo = Ok (s', n).
Proof.
  intros HF Hn Hlen Hgd Hwf Hg Hfit HL Hm HR. set (D := λ k, Lv dead' def k ∧ d k = false).
  assert (avail D s) as HA.
  { exists vals, h. apply (Rel_disc fi d); [eapply Rel_sub; [|exact HR]; by intros k [? _]|]. intros k [_ E] E' _. congruence. }
  destruct o as [op oargs iargs cargs|oargs iargs flags|l]; cbn [TcgLive.live1] in HL.
  - pose proof Hwf as (_ & _ & _ & _ & Ho & Hi & Hc & Fo & Fi). destruct (Nat.eqb_spec op INDEX_op_set_label) as [->|N1].
    { injection HL as <- <- <-. cbn [op_opc op_params]. rewrite <- !app_assoc. change (nb_cargs _) with 1%nat in Hc. destruct cargs as [|l [|? ?]]; try done.
      apply label_total; [done|by apply length_zero_iff_nil..|done]. }
    destruct (Nat.eqb_spec op INDEX_op_debug_insn_start) as [->|N2]; [injection HL as <- <- <-; rewrite gen_op_plain by done; by eexists _, _|].
    destruct (Nat.eqb_spec op INDEX_op_discard) as [->|N3].
    { injection HL as <- <- <-. change (nb_oargs _) with 1%nat in Ho. destruct oargs as [|a [|? ?]]; try done. cbn [op_opc op_params]. rewrite gen_op_discard.
      cbn [app]. rewrite aref_first. cbn [rbind]. pose proof (args_range temp_local _ Fo a ltac:(by left)).
      destruct (get_temp_range fi s (Z.to_nat a) (ft_inv _ _ HF)) as (ts & _ & E); [lia|]. rewrite Z2Nat.id in E by lia. rewrite E. by eexists _, _. }
    destruct (removable _ && _) eqn:Er; [injection HL as <- <- <-; apply removed_total|].
    destruct (keep _ _ _ _) as [dd m] eqn:HK. injection HL as <- <- <-. cbn [op_opc op_params]. rewrite <- !app_assoc.
    pose proof (kept_op fi temp_local _ _ _ _ _ _ _ Hwf Hlen HK) as K.
    apply (kept_total D def d op oargs iargs cargs rest m); try done; [by apply Hm|]. intros a Ha. split; [by eapply (inputs_live fi temp_local Hfew sem)|]. by apply Hg.
  - destruct (removable _ && _) eqn:Er; [injection HL as <- <- <-; apply removed_total|].
    destruct (keep _ _ _ _) as [dd m] eqn:HK. injection HL as <- <- <-. rewrite (Hm _ eq_refl). cbn [op_opc]. rewrite gen_op_call. cbn [deref rbind].
    pose proof (kept_call fi temp_local _ _ _ _ _ _ Hwf Hlen HK) as K. destruct Hwf as (Hlo & Hli & Fo & Fi). destruct Hg as (Hdi & Hfo & Hfn).
    apply (alloc_call_total fi (dl := none) none_disc sem junk0 D); [done|done| |done| |].
    + rewrite Hn. split; try done; [intros a Ha; split; [by apply (args_range temp_local oargs)|by apply Hfo]|]. rewrite <- Hlen. apply (kp_range _ _ _ _ _ _ K).
    + intros a Ha Hd. split; [split; [by eapply kept_inputs|]|]; by apply Hdi.
    + intros j Hj. destruct (IS_DEAD_IARG _ _) eqn:E; [|done]. apply (kept_mask _ _ _ _ _ _ K) in E as (a & Ha & Hd & _). congruence.
  - injection HL as <- <- <-. cbn [op_opc op_params]. rewrite gen_op_nopn. destruct Hwf as (_ & Hh & _). destruct l as [|x l]; [done|].
    cbn [app]. rewrite aref_first. by eexists _, _.
Qed.
End total.

(** ** The block *)

Section block.
  Context (fi : frame_info) (temp_local : list bool).
  Context (Hloc : ∀ k, fi_local fi k = default false (temp_local !! k)) (Hfew : length temp_local < 2 ^ 31).
  Context {M : Type} (sem : tcg_sem M).
  Context (ops : list tcgop) (Hgood : block_good fi temp_local sem ops).
  Notation live := (live (fi_nb_globals fi) temp_local).
  Notation all_dead := (replicate (length temp_local) true).
  Notation stat := (stat fi temp_local ops).
  Notation fits := (fits fi).

(** Calls have at most two results; labels are created and set once. *)
Record block_fits (s : TCGContext) : Prop := {
  bf_op i o : ops !! i = Some o → op_fits s o;
  bf_once i j o o' l : ops !! i = Some o → ops !! j = Some o' → is_label l o = true → is_label l o' = true → i = j
}.

(** What is to come can be translated. *)
Definition left_fits (i : nat) s : Prop := ∀ j o, (i ≤ j)%nat → ops !! j = Some o → op_fits s o.

Lemma label_param op oargs iargs cargs rest l :
  wf_op temp_local (TOp op oargs iargs cargs) → op = INDEX_op_set_label → aref (oargs ++ iargs ++ cargs ++ rest) 0 = Ok l →
  is_label l (TOp op oargs iargs cargs) = true.
Proof.
  intros (_ & _ & _ & _ & Ho & Hi & Hc & _) -> Hl. change (nb_oargs _) with 0%nat in Ho. change (nb_iargs _) with 0%nat in Hi. change (nb_cargs _) with 1%nat in Hc.
  destruct oargs, iargs, cargs as [|x [|? ?]]; try done. injection Hl as ->. cbn. apply Z.eqb_refl.
Qed.

Lemma left_next s0 i o o' m dead dead' rest mo s s' n :
  block_fits s0 → ops !! i = Some o → live1 (fi_nb_globals fi) temp_local o dead = (o', m, dead') → left_fits i s →
  gen_op s (op_opc o') (op_params o' ++ rest) mo = Ok (s', n) → left_fits (S i) s'.
Proof.
  intros HB Ho HL Hleft Hs j oj Hj Hoj. specialize (Hleft j oj ltac:(lia) Hoj) as Hfit. destruct (Hgood i o Ho) as [Hwf _].
  apply hv_gen in Hs as [E|(Eop & l & El & E)].
  { destruct oj; try done; intros l Hl; rewrite E; by apply Hfit. }
  assert (is_label l o = true) as Hlo.
  { apply (live1_cases fi temp_local) in HL as [E'|E']; subst o'.
    - destruct o as [op oargs iargs cargs|oargs iargs flags|x]; [|done..]. cbn [op_params] in El. rewrite <- !app_assoc in El. by eapply label_param.
    - unfold removed in Eop. by destruct (length (op_params o)). }
  destruct oj as [op oargs iargs cargs|oargs iargs flags|x]; [|done..]. intros l' Hl'. destruct (Hfit l' Hl') as [H0 H1]. split; [done|]. rewrite E.
  assert (0 ≤ l) as H2 by (pose proof (Hleft i o ltac:(lia) Ho) as HF; destruct o; [by destruct (HF l Hlo)|done..]).
  rewrite list_lookup_insert_ne; [done|]. intros El'. assert (l = l') as -> by lia.
  assert (i = j) by (by eapply (bf_once _ HB)). lia.
Qed.

Lemma loop_total masks s0 : block_fits s0 → (∀ j o m, (live ops all_dead).1 !! j = Some (o, Some m) → masks !! j = Some m) →
  ∀ n i s, (i + n = length ops)%nat → stat i s → fits s → left_fits i s →
  ∃ s', gen_loop ((op_opc <$> (drop i (live ops all_dead).1).*1) ++ [INDEX_op_end]) i masks s (enc (drop i (live ops all_dead).1).*1) = Ok s'.
Proof.
  intros HB Hm n. induction n as [|n IH]; intros i s Hi HS HF Hleft.
  { rewrite drop_ge by (rewrite live_length; lia). by eexists. }
  destruct (lookup_lt_is_Some_2 ops i) as [o Ho]; [lia|]. destruct (live_at fi temp_local ops i o Ho) as (o' & m & E & HL).
  destruct (Hgood i o Ho) as [Hwf Hg]. pose proof HS as (_ & Hn & vals & h & HR).
  rewrite (drop_S _ _ _ E). cbn [fmap list_fmap app gen_loop fst]. change (enc (o' :: ?l)) with (op_params o' ++ enc l).
  rewrite (live1_end fi temp_local _ _ _ _ _ Hwf HL).
  assert (∀ x, m = Some x → masks !! i = Some x) as Hm' by (intros x ->; by eapply Hm).
  destruct (op_total fi temp_local Hfew (triv sem) (def_at fi ops i) (disc_at ops i) o o' (enc (drop (S i) (live ops all_dead).1).*1)
    (dead_at fi temp_local ops (S i)) (dead_at fi temp_local ops i) m (masks !! i) s vals h) as (s1 & c & E1); try done;
    [apply dead_at_length|apply globals_def_at|by apply (Hleft i)|].
  rewrite E1. cbn [rbind]. rewrite (op_count fi temp_local _ _ _ _ _ _ _ _ _ _ Hwf HL E1), (proj2 (Z.ltb_ge _ _)) by lia. cbn [rbind].
  pose proof (stat_step fi temp_local Hloc Hfew sem ops Hgood i o o' m (masks !! i) _ s s1 c HS Ho HL Hm' E1) as [HS1 G1 _ _].
  rewrite (check_regs_total fi s1 (g_inv _ _ _ G1)). cbn [rbind]. rewrite Nat2Z.id, drop_app_length. apply IH; [lia|done|by eapply fits_grow|].
  by eapply left_next.
Qed.
End block.

(** A context in which code generation has what it needs. *)
Record ctx_fits (s : TCGContext) : Prop := {
  cf_room : demand (tcg_reg_alloc_start s) ≤ frame_end s;
  cf_res : within [] (reserved_regs s)
}.

Lemma gen_code_total {M} (sem : tcg_sem M) s ops :
  ctx_wf s → ctx_fits s → block_good (ctx_info s) (ctx_local s) sem ops → block_fits ops s →
  ∃ s', tcg_gen_code s ((op_opc <$> ops) ++ [INDEX_op_end]) (enc ops) = Ok s'.
Proof.
  intros Hwf [Hroom Hres] Hgood HB. unfold tcg_gen_code.
  destruct (liveness_ok (nb_globals s) (ctx_local s) (ctx_few s Hwf) ops (block_wf s sem ops Hgood)) as (masks & E & Hm).
  unfold ctx_local in E at 1. rewrite E. cbn [rbind].
  apply (loop_total (ctx_info s) (ctx_local s) ltac:(done) (ctx_few s Hwf) sem ops Hgood masks s HB Hm (length ops) 0); [lia|by apply start_stat| |].
  - split; [by apply start_inv|exact Hroom|exact Hres].
  - intros j o _ Ho. exact (bf_op _ _ HB j o Ho).
Qed.

(** The last state of the allocator. *)
Lemma gen_code_grow {M} (sem : tcg_sem M) s ops s' :
  ctx_wf s → block_good (ctx_info s) (ctx_local s) sem ops → tcg_gen_code s ((op_opc <$> ops) ++ [INDEX_op_end]) (enc ops) = Ok s' →
  grow (ctx_info s) (tcg_reg_alloc_start s <| code := [] |>) s'.
Proof.
  intros HW HG E. destruct (gen_code_states s HW sem ops HG s' E) as (St & HSt & <- & <-).
  apply (grow_le (ctx_info s) (ctx_local s) ltac:(done) (ctx_few s HW) sem ops HG St HSt). lia.
Qed.
