(* ===== verification/X86Isa.v ===== *)
(** * The x86-64 instructions that TCG emits

    What the host does with the bytes that tcg/i386/tcg-target.c writes: a
    decoder of the instructions in 64-bit mode and their effect on registers,
    flags and memory, after the manual of the processor.  Registers are read
    at the width of the operand, so their representatives need no bound.  What
    the manual leaves undefined of the flags is a parameter. *)

From stdpp Require Import base list functions.
From S2P Require Import Prelude.
Local Open Scope Z_scope.
Local Coercion Z.of_nat : nat >-> Z.

(** ** Data *)

Inductive width := W8 | W16 | W32 | W64.
Definition wbytes (w : width) : nat := match w with W8 => 1 | W16 => 2 | W32 => 4 | W64 => 8 end.
Definition wbits (w : width) : Z := match w with W8 => 8 | W16 => 16 | W32 => 32 | W64 => 64 end.

(** [a_base + a_index * 2 ^ shift + a_disp], or relative to the next
    instruction. *)
Record addr := mkAddr { a_base : option Z; a_index : option (Z * Z); a_disp : Z; a_rip : bool }.

(** [OHigh r] is the second byte of register [r]. *)
Inductive operand := OReg (r : Z) | OHigh (r : Z) | OMem (a : addr).
Inductive source := SOp (o : operand) | SImm (v : Z).

Inductive insn :=
  | IAlu (op : Z) (w : width) (dst : operand) (src : source)
  | ITest (w : width) (a b : operand)
  | IMov (w : width) (dst : operand) (src : source)
  | IMovx (sgn : bool) (dw sw : width) (r : Z) (src : operand)
  | ILea (w : width) (r : Z) (a : addr)
  | IShift (op : Z) (w : width) (dst : operand) (count : option Z) (* or %cl *)
  | INot (w : width) (dst : operand)
  | INeg (w : width) (dst : operand)
  | IInc (w : width) (dst : operand)
  | IDec (w : width) (dst : operand)
  | IImul (w : width) (r : Z) (a : operand) (b : source)
  | IDiv (sgn : bool) (w : width) (src : operand)
  | IBswap (w : width) (r : Z)
  | ISetcc (cc : Z) (dst : operand)
  | IPush (src : source)
  | IPop (r : Z)
  | INop
  | IRet
  | IJmp (d : Z)
  | IJcc (cc d : Z)
  | ICall (d : Z)
  | IJmpInd (o : operand)
  | ICallInd (o : operand).

(** *** Little-endian numbers *)

Fixpoint le_bytes (n : nat) (v : Z) : list Z :=
  match n with O => [] | S n => v `mod` 256 :: le_bytes n (v / 256) end.
Fixpoint le_val (l : list Z) : Z := match l with [] => 0 | b :: l => b `mod` 256 + 256 * le_val l end.

(** ** Decoder *)

Notation parser A := (list Z → option (A * list Z)).

Definition next : parser Z := λ l, match l with [] => None | b :: l => Some (b, l) end.

(** A signed number of [n] bytes. *)
Definition imm (n : nat) : parser Z := λ l,
  if (length l <? n)%nat then None else Some (sext (8 * n) (le_val (take n l)), drop n l).

Record prefixes := mkPfx { p_data16 : bool; p_addr32 : bool; p_rex : option Z }.

Definition rex_bit (i : Z) (p : prefixes) : bool := match p_rex p with Some x => Z.testbit x i | None => false end.
Definition opsize (p : prefixes) : width := if rex_bit 3 p then W64 else if p_data16 p then W16 else W32.
Definition rex_reg (i low : Z) (p : prefixes) : Z := if rex_bit i p then low + 8 else low.

Definition skip (b : Z) : parser bool := λ l,
  match l with [] => None | c :: l' => Some (if c =? b then (true, l') else (false, l)) end.

Definition rex : parser (option Z) := λ l,
  match l with [] => None | c :: l' => Some (if c / 16 =? 4 then (Some (c `mod` 16), l') else (None, l)) end.

(** The prefixes and the opcode; [true] after 0x0f. *)
Definition opcode : parser (prefixes * bool * Z) := λ l,
  '(d, l) ← skip 0x66 l; '(a, l) ← skip 0x67 l; '(r, l) ← rex l; '(e, l) ← skip 0x0f l; '(b, l) ← next l;
  Some (mkPfx d a r, e, b, l).

Definition disp (md : Z) : parser Z :=
  if md =? 1 then imm 1 else if md =? 2 then imm 4 else λ l, Some (0, l).

(** The register and the operand of a ModRM byte. *)
Definition modrm (p : prefixes) : parser (Z * operand) := λ l,
  '(m, l) ← next l;
  let md := m / 64 in
  let r := rex_reg 2 ((m / 8) `mod` 8) p in
  let rm := m `mod` 8 in
  if md =? 3 then Some (r, OReg (rex_reg 0 rm p), l)
  else if rm =? 4 then
    '(s, l) ← next l;
    let x := rex_reg 1 ((s / 8) `mod` 8) p in
    let index := if x =? 4 then None else Some (x, s / 64) in
    if (md =? 0) && (s `mod` 8 =? 5) then '(d, l) ← imm 4 l; Some (r, OMem (mkAddr None index d false), l)
    else '(d, l) ← disp md l; Some (r, OMem (mkAddr (Some (rex_reg 0 (s `mod` 8) p)) index d false), l)
  else if (md =? 0) && (rm =? 5) then '(d, l) ← imm 4 l; Some (r, OMem (mkAddr None None d true), l)
  else '(d, l) ← disp md l; Some (r, OMem (mkAddr (Some (rex_reg 0 rm p)) None d false), l).

(** Without a REX prefix the byte registers 4 to 7 are the second bytes of
    the registers 0 to 3. *)
Definition byte_operand (p : prefixes) (o : operand) : operand :=
  match p_rex p, o with
  | None, OReg r => if 4 <=? r then OHigh (r - 4) else OReg r
  | _, _ => o
  end.

Definition imm_bytes (full : bool) (w : width) : nat :=
  match w with W16 => 2 | W64 => if full then 8 else 4 | _ => 4 end.

(** The three shapes of an instruction: with a ModRM byte, with a register in
    the opcode, and without operands; each with the size of the immediate. *)
Inductive form :=
  | FModRM (n : width → nat) (build : prefixes → Z → operand → Z → option insn)
  | FReg (low : Z) (n : width → nat) (build : prefixes → Z → Z → option insn)
  | FNone (n : nat) (build : Z → insn).

Definition no_imm (w : width) : nat := 0.
Definition imm8 (w : width) : nat := 1.

Definition build_shift (count : Z → option Z) (p : prefixes) (r : Z) (o : operand) (v : Z) : option insn :=
  let op := r `mod` 8 in
  if (op =? 2) || (op =? 3) || (op =? 6) then None else Some (IShift op (opsize p) o (count v)).
Definition build_grp3 (p : prefixes) (r : Z) (o : operand) (v : Z) : option insn :=
  let op := r `mod` 8 in let w := opsize p in
  if op =? 2 then Some (INot w o) else if op =? 3 then Some (INeg w o)
  else if op =? 6 then Some (IDiv false w o) else if op =? 7 then Some (IDiv true w o) else None.
Definition build_grp5 (p : prefixes) (r : Z) (o : operand) (v : Z) : option insn :=
  let op := r `mod` 8 in let w := opsize p in
  if op =? 0 then Some (IInc w o) else if op =? 1 then Some (IDec w o)
  else if op =? 2 then Some (ICallInd o) else if op =? 4 then Some (IJmpInd o) else None.
Definition build_movx (sgn : bool) (sw : width) (p : prefixes) (r : Z) (o : operand) (v : Z) : option insn :=
  Some (IMovx sgn (opsize p) sw r (match sw with W8 => byte_operand p o | _ => o end)).

Definition form1 (b : Z) : option form :=
  if (b <? 64) && (b `mod` 8 =? 3) then
    Some (FModRM no_imm (λ p r o _, Some (IAlu (b / 8) (opsize p) (OReg r) (SOp o))))
  else if (0x50 <=? b) && (b <? 0x58) then Some (FReg (b - 0x50) no_imm (λ p r _, Some (IPush (SOp (OReg r)))))
  else if (0x58 <=? b) && (b <? 0x60) then Some (FReg (b - 0x58) no_imm (λ p r _, Some (IPop r)))
  else if b =? 0x63 then Some (FModRM no_imm (build_movx true W32))
  else if b =? 0x68 then Some (FNone 4 (λ v, IPush (SImm v)))
  else if b =? 0x69 then Some (FModRM (imm_bytes false) (λ p r o v, Some (IImul (opsize p) r o (SImm v))))
  else if b =? 0x6a then Some (FNone 1 (λ v, IPush (SImm v)))
  else if b =? 0x6b then Some (FModRM imm8 (λ p r o v, Some (IImul (opsize p) r o (SImm v))))
  else if (0x70 <=? b) && (b <? 0x80) then Some (FNone 1 (IJcc (b - 0x70)))
  else if b =? 0x81 then Some (FModRM (imm_bytes false) (λ p r o v, Some (IAlu (r `mod` 8) (opsize p) o (SImm v))))
  else if b =? 0x83 then Some (FModRM imm8 (λ p r o v, Some (IAlu (r `mod` 8) (opsize p) o (SImm v))))
  else if b =? 0x85 then Some (FModRM no_imm (λ p r o _, Some (ITest (opsize p) o (OReg r))))
  else if b =? 0x88 then Some (FModRM no_imm (λ p r o _, Some (IMov W8 (byte_operand p o) (SOp (byte_operand p (OReg r))))))
  else if b =? 0x89 then Some (FModRM no_imm (λ p r o _, Some (IMov (opsize p) o (SOp (OReg r)))))
  else if b =? 0x8b then Some (FModRM no_imm (λ p r o _, Some (IMov (opsize p) (OReg r) (SOp o))))
  else if b =? 0x8d then Some (FModRM no_imm (λ p r o _, match o with OMem a => Some (ILea (opsize p) r a) | _ => None end))
  else if b =? 0x90 then Some (FReg 0 no_imm (λ p r _, if r =? 0 then Some INop else None))
  else if (0xb8 <=? b) && (b <? 0xc0) then
    Some (FReg (b - 0xb8) (imm_bytes true) (λ p r v, Some (IMov (opsize p) (OReg r) (SImm v))))
  else if b =? 0xc1 then Some (FModRM imm8 (build_shift Some))
  else if b =? 0xc3 then Some (FNone 0 (λ _, IRet))
  else if b =? 0xc7 then
    Some (FModRM (imm_bytes false) (λ p r o v, if r `mod` 8 =? 0 then Some (IMov (opsize p) o (SImm v)) else None))
  else if b =? 0xd1 then Some (FModRM no_imm (build_shift (λ _, Some 1)))
  else if b =? 0xd3 then Some (FModRM no_imm (build_shift (λ _, None)))
  else if b =? 0xe8 then Some (FNone 4 ICall)
  else if b =? 0xe9 then Some (FNone 4 IJmp)
  else if b =? 0xeb then Some (FNone 1 IJmp)
  else if b =? 0xf7 then Some (FModRM no_imm build_grp3)
  else if b =? 0xff then Some (FModRM no_imm build_grp5)
  else None.

Definition form2 (b : Z) : option form :=
  if (0x80 <=? b) && (b <? 0x90) then Some (FNone 4 (IJcc (b - 0x80)))
  else if (0x90 <=? b) && (b <? 0xa0) then Some (FModRM no_imm (λ p r o _, Some (ISetcc (b - 0x90) (byte_operand p o))))
  else if b =? 0xaf then Some (FModRM no_imm (λ p r o _, Some (IImul (opsize p) r (OReg r) (SOp o))))
  else if b =? 0xb6 then Some (FModRM no_imm (build_movx false W8))
  else if b =? 0xb7 then Some (FModRM no_imm (build_movx false W16))
  else if b =? 0xbe then Some (FModRM no_imm (build_movx true W8))
  else if b =? 0xbf then Some (FModRM no_imm (build_movx true W16))
  else if (0xc8 <=? b) && (b <? 0xd0) then
    Some (FReg (b - 0xc8) no_imm (λ p r _, match opsize p with W16 => None | w => Some (IBswap w r) end))
  else None.

(** The operands of an instruction whose opcode is known. *)
Definition operands (p : prefixes) (f : form) : parser insn := λ l,
  match f with
  | FModRM n build => '(r, o, l) ← modrm p l; '(v, l) ← imm (n (opsize p)) l; i ← build p r o v; Some (i, l)
  | FReg low n build => '(v, l) ← imm (n (opsize p)) l; i ← build p (rex_reg 0 low p) v; Some (i, l)
  | FNone n build => if p_data16 p then None else '(v, l) ← imm n l; Some (build v, l)
  end.

(** The first instruction of [l] and the bytes after it.  Addresses of 32 bits
    are not decoded. *)
Definition decode : parser insn := λ l,
  '(p, e, b, l) ← opcode l;
  if p_addr32 p then None else f ← (if e : bool then form2 b else form1 b); operands p f l.

(** ** Execution *)

Record flags := mkFlags { fZ : bool; fS : bool; fC : bool; fO : bool; fP : bool }.
Record mach := mkMach { xr : Z → Z; xf : flags; xm : Z → Z }.

Definition with_flags (f : flags) (x : mach) : mach := mkMach (xr x) f (xm x).

Definition load (n : nat) (a : Z) (m : Z → Z) : Z := le_val ((λ i : nat, m (u64 (a + i))) <$> seq 0 n).
Fixpoint store_list (a : Z) (l : list Z) (m : Z → Z) : Z → Z :=
  match l with [] => m | b :: l => store_list (a + 1) l (<[u64 a := b]> m) end.
Definition store (n : nat) (a v : Z) (m : Z → Z) : Z → Z := store_list a (le_bytes n v) m.

(** The address of a memory operand; [ip] is that of the next instruction. *)
Definition ea (ip : Z) (a : addr) (x : mach) : Z :=
  u64 ((match a_base a with Some r => xr x r | None => if a_rip a then ip else 0 end) +
       (match a_index a with Some (r, s) => xr x r * 2 ^ s | None => 0 end) + a_disp a).

Definition read (ip : Z) (w : width) (o : operand) (x : mach) : Z :=
  match o with
  | OReg r => wrap (wbits w) (xr x r)
  | OHigh r => u8 (xr x r / 256)
  | OMem a => load (wbytes w) (ea ip a x) (xm x)
  end.

Definition set_r (r v : Z) (x : mach) : mach := mkMach (<[r := v]> (xr x)) (xf x) (xm x).

(** A write of 32 bits clears the high half of a register, shorter ones keep
    the other bits. *)
Definition write (ip : Z) (w : width) (o : operand) (v : Z) (x : mach) : mach :=
  match o with
  | OReg r =>
      set_r r (match w with
               | W8 | W16 => xr x r - wrap (wbits w) (xr x r) + wrap (wbits w) v
               | W32 | W64 => wrap (wbits w) v
               end) x
  | OHigh r => set_r r (xr x r - 256 * u8 (xr x r / 256) + 256 * u8 v) x
  | OMem a => mkMach (xr x) (xf x) (store (wbytes w) (ea ip a x) v (xm x))
  end.

Definition read_src (ip : Z) (w : width) (s : source) (x : mach) : Z :=
  match s with SOp o => read ip w o x | SImm v => wrap (wbits w) v end.

(** *** Arithmetic on operands of [n] bits *)

Definition parity (v : Z) : bool := foldr xorb true (Z.testbit v <$> seqZ 0 8).
Definition arith_flags (n res : Z) (carry overflow : bool) : flags :=
  mkFlags (res =? 0) (2 ^ (n - 1) <=? res) carry overflow (parity res).
Definition add_flags (n a b c : Z) : flags :=
  let res := wrap n (a + b + c) in
  arith_flags n res (2 ^ n <=? a + b + c) (negb (sext n res =? sext n a + sext n b + c)).
Definition sub_flags (n a b c : Z) : flags :=
  let res := wrap n (a - b - c) in
  arith_flags n res (a <? b + c) (negb (sext n res =? sext n a - sext n b - c)).
Definition logic_flags (n res : Z) : flags := arith_flags n res false false.

Definition alu (op n a b : Z) (carry : bool) : Z * flags :=
  let c := b2z carry in
  if op =? 0 then (wrap n (a + b), add_flags n a b 0)
  else if op =? 1 then (a .| b, logic_flags n (a .| b))
  else if op =? 2 then (wrap n (a + b + c), add_flags n a b c)
  else if op =? 3 then (wrap n (a - b - c), sub_flags n a b c)
  else if op =? 4 then (a .& b, logic_flags n (a .& b))
  else if op =? 6 then (a .^ b, logic_flags n (a .^ b))
  else (wrap n (a - b), sub_flags n a b 0).

Definition rotate_left (n a c : Z) : Z := let c := c `mod` n in wrap n (a <<. c .| a >>. (n - c)).

Definition shift (op n a c : Z) : Z :=
  if op =? 0 then rotate_left n a c
  else if op =? 1 then rotate_left n a (- c)
  else if op =? 4 then wrap n (a <<. c)
  else if op =? 5 then a >>. c
  else wrap n (sext n a >>. c).

(** The quotient and the remainder, unless the quotient does not fit. *)
Definition divide (sgn : bool) (n hi lo b : Z) : option (Z * Z) :=
  if sgn then
    let num := sext (2 * n) (hi * 2 ^ n + lo) in
    let d := sext n b in
    if (d =? 0) || negb (sext n (Z.quot num d) =? Z.quot num d) then None
    else Some (wrap n (Z.quot num d), wrap n (Z.rem num d))
  else
    let num := hi * 2 ^ n + lo in
    if (b =? 0) || (2 ^ n <=? num / b) then None else Some (num / b, num `mod` b).

Definition bswap (n : nat) (v : Z) : Z := le_val (rev (le_bytes n v)).

(** The conditions; odd codes negate the even ones. *)
Definition cc_even (k : Z) (f : flags) : bool :=
  if k =? 0 then fO f else if k =? 1 then fC f else if k =? 2 then fZ f else if k =? 3 then fC f || fZ f
  else if k =? 4 then fS f else if k =? 5 then fP f else if k =? 6 then xorb (fS f) (fO f)
  else xorb (fS f) (fO f) || fZ f.
Definition cc_test (cc : Z) (f : flags) : bool := xorb (Z.odd cc) (cc_even (cc / 2) f).

Section exec.
  Context (undefined : insn → mach → flags).

Definition push (v : Z) (x : mach) : mach :=
  let sp := u64 (xr x 4 - 8) in mkMach (<[4 := sp]> (xr x)) (xf x) (store 8 sp v (xm x)).

(** One instruction; [ip] is the address of the next one.  A fault is [None]. *)
Definition exec (ip : Z) (i : insn) (x : mach) : option (Z * mach) :=
  let unk := with_flags (undefined i x) in
  match i with
  | IAlu op w dst src =>
      let '(res, f) := alu op (wbits w) (read ip w dst x) (read_src ip w src x) (fC (xf x)) in
      Some (ip, with_flags f (if op =? 7 then x else write ip w dst res x))
  | ITest w a b => Some (ip, with_flags (logic_flags (wbits w) (read ip w a x .& read ip w b x)) x)
  | IMov w dst src => Some (ip, write ip w dst (read_src ip w src x) x)
  | IMovx sgn dw sw r src =>
      let v := read ip sw src x in
      Some (ip, write ip dw (OReg r) (if sgn then sext (wbits sw) v else v) x)
  | ILea w r a => Some (ip, write ip w (OReg r) (ea ip a x) x)
  | IShift op w dst count =>
      let c := match count with Some c => c | None => xr x 1 end `mod` (match w with W64 => 64 | _ => 32 end) in
      let y := write ip w dst (shift op (wbits w) (read ip w dst x) c) x in
      Some (ip, if c =? 0 then y else unk y)
  | INot w dst => Some (ip, write ip w dst (.~ (read ip w dst x)) x)
  | INeg w dst => Some (ip, with_flags (sub_flags (wbits w) 0 (read ip w dst x) 0) (write ip w dst (- read ip w dst x) x))
  | IInc w dst => Some (ip, unk (write ip w dst (read ip w dst x + 1) x))
  | IDec w dst => Some (ip, unk (write ip w dst (read ip w dst x - 1) x))
  | IImul w r a b => Some (ip, unk (write ip w (OReg r) (read ip w a x * read_src ip w b x) x))
  | IDiv sgn w src =>
      '(q, r) ← divide sgn (wbits w) (read ip w (OReg 2) x) (read ip w (OReg 0) x) (read ip w src x);
      Some (ip, unk (write ip w (OReg 2) r (write ip w (OReg 0) q x)))
  | IBswap w r => Some (ip, write ip w (OReg r) (bswap (wbytes w) (read ip w (OReg r) x)) x)
  | ISetcc cc dst => Some (ip, write ip W8 dst (b2z (cc_test cc (xf x))) x)
  | IPush src => Some (ip, push (read_src ip W64 src x) x)
  | IPop r => Some (ip, set_r r (load 8 (xr x 4) (xm x)) (set_r 4 (u64 (xr x 4 + 8)) x))
  | INop => Some (ip, x)
  | IRet => Some (load 8 (xr x 4) (xm x), set_r 4 (u64 (xr x 4 + 8)) x)
  | IJmp d => Some (u64 (ip + d), x)
  | IJcc cc d => Some (if cc_test cc (xf x) then u64 (ip + d) else ip, x)
  | ICall d => Some (u64 (ip + d), push ip x)
  | IJmpInd o => Some (read ip W64 o x, x)
  | ICallInd o => Some (read ip W64 o x, push ip x)
  end.

(** *** Code in memory *)

(** No instruction is longer than 15 bytes. *)
Definition fetch (cm : Z → Z) (ip : Z) : list Z := cm <$> seqZ ip 15.

Definition xstep (cm : Z → Z) (s : Z * mach) : option (Z * mach) :=
  '(i, l) ← decode (fetch cm s.1); exec (s.1 + (15 - length l)) i s.2.

Fixpoint xexec (cm : Z → Z) (n : nat) (s : Z * mach) : option (Z * mach) :=
  match n with O => Some s | S n => s' ← xstep cm s; xexec cm n s' end.

Definition reaches (cm : Z → Z) (s s' : Z * mach) : Prop := ∃ n, xexec cm n s = Some s'.

End exec.
