(* ===== verification/X86Out.v ===== *)
(** * The x86-64 code generator of TCG

    The part of tcg/i386/tcg-target.c that writes instructions, for a 64-bit
    host in user mode, with the output functions and the relocations of
    tcg/tcg.c.  The code buffer is a memory; [code_ptr] is the address of the
    next byte. *)

From Stdlib Require Import String.
From stdpp Require Import base list functions.
From S2P Require Import Prelude TcgData TcgLive X86Isa.
Local Open Scope Z_scope.
Local Coercion Z.of_nat : nat >-> Z.

(** ** The output of a context *)

Record TCGRelocation := mkReloc { rel_type : Z; rel_ptr : Z; rel_addend : Z }.

(** A label has a value, or the list of the relocations that wait for it. *)
Inductive TCGLabel := LValue (value : Z) | LRelocs (first_reloc : list TCGRelocation).

Record TCGOut := mkOut {
  code_buf : Z; code_ptr : Z; cmem : Z → Z; labels : list TCGLabel;
  tb_jmp_offset : option (list Z); tb_next_offset : list Z; tb_next : Z;
  jmp_offset : Z; (* of the IB chain of the block of goto_ibchain *)
  ibchain_patch_offset : Z; set_patch_next : Z; tb_patch_next : Z
}.
#[export] Instance eta_TCGOut : Eta TCGOut := λ s,
  mkOut (code_buf s) (code_ptr s) (cmem s) (labels s) (tb_jmp_offset s) (tb_next_offset s) (tb_next s)
    (jmp_offset s) (ibchain_patch_offset s) (set_patch_next s) (tb_patch_next s).
#[export] Instance upd_code_ptr : Setter code_ptr := ltac:(mk_setter).
#[export] Instance upd_cmem : Setter cmem := ltac:(mk_setter).
#[export] Instance upd_labels : Setter labels := ltac:(mk_setter).
#[export] Instance upd_tb_jmp_offset : Setter tb_jmp_offset := ltac:(mk_setter).
#[export] Instance upd_tb_next_offset : Setter tb_next_offset := ltac:(mk_setter).
#[export] Instance upd_jmp_offset : Setter jmp_offset := ltac:(mk_setter).
#[export] Instance upd_ibchain_patch_offset : Setter ibchain_patch_offset := ltac:(mk_setter).
#[export] Instance upd_set_patch_next : Setter set_patch_next := ltac:(mk_setter).
#[export] Instance upd_tb_patch_next : Setter tb_patch_next := ltac:(mk_setter).

(** The guest, and the addresses of the code that blocks exit to. *)
Class TcgHost := {
  TARGET_LONG_BITS : Z;
  TARGET_WORDS_BIGENDIAN : bool;
  GUEST_BASE : Z;
  tb_ret_addr : Z;
  ibchain_ret_addr : Z;
  offsetof_opt_ptr : Z
}.

(** [n] bytes of a value, or the bytes of [l], at [a]. *)
Fixpoint put (m : Z → Z) (a : Z) (l : list Z) : Z → Z :=
  match l with [] => m | b :: l => put (<[a := b]> m) (a + 1) l end.
Definition emit (s : TCGOut) (l : list Z) : TCGOut :=
  s <| cmem := put (cmem s) (code_ptr s) l |> <| code_ptr := code_ptr s + length l |>.

Definition tcg_out8 (s : TCGOut) (v : Z) : TCGOut := emit s [u8 v].
Definition tcg_out16 (s : TCGOut) (v : Z) : TCGOut := emit s (le_bytes 2 v).
Definition tcg_out32 (s : TCGOut) (v : Z) : TCGOut := emit s (le_bytes 4 v).

(** [s->code_ptr += n] *)
Definition skip_bytes (s : TCGOut) (n : Z) : TCGOut := s <| code_ptr := code_ptr s + n |>.

(** ** Relocations *)

Definition R_386_PC32 : Z := 2.
Definition R_386_PC8 : Z := 23.

Definition patch_reloc (s : TCGOut) (ptr type value addend : Z) : result TCGOut :=
  let value := sext 64 (sext 64 (value + addend) - ptr) in
  if type =? R_386_PC32 then
    if value =? sext 32 value then Ok (s <| cmem := put (cmem s) ptr (le_bytes 4 value) |>) else Er EAbort
  else if type =? R_386_PC8 then
    if value =? sext 8 value then Ok (s <| cmem := put (cmem s) ptr (le_bytes 1 value) |>) else Er EAbort
  else Er EAbort.

Definition tcg_out_reloc (s : TCGOut) (ptr type label_index addend : Z) : result TCGOut :=
  l <- aref (labels s) label_index ;;
  match l with
  | LValue v => patch_reloc s ptr type v addend
  | LRelocs rs => Ok (s <| labels := <[Z.to_nat label_index := LRelocs (mkReloc type ptr addend :: rs)]> (labels s) |>)
  end.

Fixpoint patch_relocs (s : TCGOut) (rs : list TCGRelocation) (value : Z) : result TCGOut :=
  match rs with
  | [] => Ok s
  | r :: rs => s <- patch_reloc s (rel_ptr r) (rel_type r) value (rel_addend r) ;; patch_relocs s rs value
  end.

Definition tcg_out_label (s : TCGOut) (label_index value : Z) : result TCGOut :=
  l <- aref (labels s) label_index ;;
  match l with
  | LValue _ => Er EAbort
  | LRelocs rs =>
      s <- patch_relocs s rs value ;;
      Ok (s <| labels := <[Z.to_nat label_index := LValue value]> (labels s) |>)
  end.

(** ** Opcodes *)

Definition LOWREGMASK (x : Z) : Z := x .& 7.

Definition P_EXT : Z := 0x100.
Definition P_DATA16 : Z := 0x200.
Definition P_ADDR32 : Z := 0x400.
Definition P_REXW : Z := 0x800.
Definition P_REXB_R : Z := 0x1000.
Definition P_REXB_RM : Z := 0x2000.

Definition ARITH_ADD : Z := 0.
Definition ARITH_OR : Z := 1.
Definition ARITH_AND : Z := 4.
Definition ARITH_SUB : Z := 5.
Definition ARITH_XOR : Z := 6.
Definition ARITH_CMP : Z := 7.
Definition SHIFT_ROL : Z := 0.
Definition SHIFT_ROR : Z := 1.
Definition SHIFT_SHL : Z := 4.
Definition SHIFT_SHR : Z := 5.
Definition SHIFT_SAR : Z := 7.
Definition EXT3_NOT : Z := 2.
Definition EXT3_NEG : Z := 3.
Definition EXT3_DIV : Z := 6.
Definition EXT3_IDIV : Z := 7.
Definition EXT5_INC_Ev : Z := 0.
Definition EXT5_DEC_Ev : Z := 1.
Definition EXT5_CALLN_Ev : Z := 2.
Definition EXT5_JMPN_Ev : Z := 4.
Definition JCC_JMP : Z := -1.
Definition JCC_JNE : Z := 5.

Definition OPC_ARITH_EvIz : Z := 0x81.
Definition OPC_ARITH_EvIb : Z := 0x83.
Definition OPC_ARITH_GvEv : Z := 0x03.
Definition OPC_BSWAP : Z := 0xc8 .| P_EXT.
Definition OPC_CALL_Jz : Z := 0xe8.
Definition OPC_IMUL_GvEv : Z := 0xaf .| P_EXT.
Definition OPC_IMUL_GvEvIb : Z := 0x6b.
Definition OPC_IMUL_GvEvIz : Z := 0x69.
Definition OPC_JCC_long : Z := 0x80 .| P_EXT.
Definition OPC_JCC_short : Z := 0x70.
Definition OPC_JMP_long : Z := 0xe9.
Definition OPC_JMP_short : Z := 0xeb.
Definition OPC_LEA : Z := 0x8d.
Definition OPC_MOVB_EvGv : Z := 0x88.
Definition OPC_MOVL_EvGv : Z := 0x89.
Definition OPC_MOVL_GvEv : Z := 0x8b.
Definition OPC_NOP : Z := 0x90.
Definition OPC_MOVL_EvIz : Z := 0xc7.
Definition OPC_MOVL_Iv : Z := 0xb8.
Definition OPC_MOVSBL : Z := 0xbe .| P_EXT.
Definition OPC_MOVSWL : Z := 0xbf .| P_EXT.
Definition OPC_MOVSLQ : Z := 0x63 .| P_REXW.
Definition OPC_MOVZBL : Z := 0xb6 .| P_EXT.
Definition OPC_MOVZWL : Z := 0xb7 .| P_EXT.
Definition OPC_POP_r32 : Z := 0x58.
Definition OPC_PUSH_r32 : Z := 0x50.
Definition OPC_PUSH_Iv : Z := 0x68.
Definition OPC_PUSH_Ib : Z := 0x6a.
Definition OPC_RET : Z := 0xc3.
Definition OPC_SETCC : Z := 0x90 .| P_EXT .| P_REXB_RM.
Definition OPC_SHIFT_1 : Z := 0xd1.
Definition OPC_SHIFT_Ib : Z := 0xc1.
Definition OPC_SHIFT_cl : Z := 0xd3.
Definition OPC_TESTL : Z := 0x85.
Definition OPC_GRP3_Ev : Z := 0xf7.
Definition OPC_GRP5 : Z := 0xff.

(** *** Conditions *)

Inductive TCGCond :=
  | TCG_COND_EQ | TCG_COND_NE | TCG_COND_LT | TCG_COND_GE | TCG_COND_LE | TCG_COND_GT
  | TCG_COND_LTU | TCG_COND_GEU | TCG_COND_LEU | TCG_COND_GTU.

(** The condition that a parameter of an operation stands for. *)
Definition cond_of (c : Z) : result TCGCond :=
  aref [TCG_COND_EQ; TCG_COND_NE; TCG_COND_LT; TCG_COND_GE; TCG_COND_LE; TCG_COND_GT;
        TCG_COND_LTU; TCG_COND_GEU; TCG_COND_LEU; TCG_COND_GTU] c.

Definition tcg_cond_to_jcc (c : TCGCond) : Z :=
  match c with
  | TCG_COND_EQ => 4 | TCG_COND_NE => 5 | TCG_COND_LT => 12 | TCG_COND_GE => 13 | TCG_COND_LE => 14
  | TCG_COND_GT => 15 | TCG_COND_LTU => 2 | TCG_COND_GEU => 3 | TCG_COND_LEU => 6 | TCG_COND_GTU => 7
  end.

(** ** Instructions *)

Definition tcg_out_opc (s : TCGOut) (opc r rm x : Z) : result TCGOut :=
  s <- (if has_flag opc P_DATA16 then
          _ <- assert_ (opc .& P_REXW =? 0) ;; Ok (tcg_out8 s 0x66)
        else Ok s) ;;
  let s := if has_flag opc P_ADDR32 then tcg_out8 s 0x67 else s in
  let rex := (opc .& P_REXW) >>. 8 in
  let rex := rex .| (r .& 8) >>. 1 in
  let rex := rex .| (x .& 8) >>. 2 in
  let rex := rex .| (rm .& 8) >>. 3 in
  let rex := rex .| (opc .& (if 4 <=? r then P_REXB_R else 0)) in
  let rex := rex .| (opc .& (if 4 <=? rm then P_REXB_RM else 0)) in
  let s := if rex =? 0 then s else tcg_out8 s (u8 (rex .| 0x40)) in
  let s := if has_flag opc P_EXT then tcg_out8 s 0x0f else s in
  Ok (tcg_out8 s opc).

Definition tcg_out_modrm (s : TCGOut) (opc r rm : Z) : result TCGOut :=
  s <- tcg_out_opc s opc r rm 0 ;;
  Ok (tcg_out8 s (0xc0 .| (LOWREGMASK r <<. 3) .| LOWREGMASK rm)).

(** [opc r, (rm + index << shift + offset)]; a negative [rm] or [index] is
    missing. *)
Definition tcg_out_modrm_sib_offset (s : TCGOut) (opc r rm index shift offset : Z) : result TCGOut :=
  if (index <? 0) && (rm <? 0) then
    (* Try for a rip-relative addressing mode. *)
    let pc := sext 64 (code_ptr s + 5 + .~ rm) in
    let disp := sext 64 (offset - pc) in
    if disp =? sext 32 disp then
      s <- tcg_out_opc s opc r 0 0 ;;
      Ok (tcg_out32 (tcg_out8 s ((LOWREGMASK r <<. 3) .| 5)) disp)
    (* Try for an absolute address encoding. *)
    else if offset =? sext 32 offset then
      s <- tcg_out_opc s opc r 0 0 ;;
      Ok (tcg_out32 (tcg_out8 (tcg_out8 s ((LOWREGMASK r <<. 3) .| 4)) ((4 <<. 3) .| 5)) offset)
    else Er EAbort
  else
    (* Find the length of the immediate addend. *)
    let '(md, len, rm) :=
      if rm <? 0 then (0, 4, 5)
      else if (offset =? 0) && negb (LOWREGMASK rm =? TCG_REG_EBP) then (0, 0, rm)
      else if offset =? sext 8 offset then (0x40, 1, rm)
      else (0x80, 4, rm) in
    s <- (if (index <? 0) && negb (LOWREGMASK rm =? TCG_REG_ESP) then
            (* Single byte MODRM format. *)
            s <- tcg_out_opc s opc r rm 0 ;;
            Ok (tcg_out8 s (md .| (LOWREGMASK r <<. 3) .| LOWREGMASK rm))
          else
            (* Two byte MODRM+SIB format. *)
            index <- (if index <? 0 then Ok 4 else _ <- assert_ (negb (index =? TCG_REG_ESP)) ;; Ok index) ;;
            s <- tcg_out_opc s opc r rm index ;;
            let s := tcg_out8 s (md .| (LOWREGMASK r <<. 3) .| 4) in
            Ok (tcg_out8 s ((shift <<. 6) .| (LOWREGMASK index <<. 3) .| LOWREGMASK rm))) ;;
    Ok (if len =? 1 then tcg_out8 s offset else if len =? 4 then tcg_out32 s offset else s).

Definition tcg_out_modrm_offset (s : TCGOut) (opc r rm offset : Z) : result TCGOut :=
  tcg_out_modrm_sib_offset s opc r rm (-1) 0 offset.

(** Generate dest op= src. *)
Definition tgen_arithr (s : TCGOut) (subop dest src : Z) : result TCGOut :=
  let ext := subop .& .~ 7 in
  let subop := subop .& 7 in
  tcg_out_modrm s (OPC_ARITH_GvEv + (subop <<. 3) + ext) dest src.

Definition type_rexw (type : TCGType) : Z := match type with TCG_TYPE_I64 => P_REXW | TCG_TYPE_I32 => 0 end.
Definition is_i32 (type : TCGType) : bool := match type with TCG_TYPE_I32 => true | TCG_TYPE_I64 => false end.

Definition tcg_out_mov (s : TCGOut) (type : TCGType) (ret arg : Z) : result TCGOut :=
  if negb (arg =? ret) then tcg_out_modrm s (OPC_MOVL_GvEv + type_rexw type) ret arg else Ok s.

Definition tcg_out_movi (s : TCGOut) (type : TCGType) (ret arg : Z) : result TCGOut :=
  if arg =? 0 then tgen_arithr s ARITH_XOR ret ret
  else if (arg =? u32 arg) || is_i32 type then
    s <- tcg_out_opc s (OPC_MOVL_Iv + LOWREGMASK ret) 0 ret 0 ;;
    Ok (tcg_out32 s arg)
  else if arg =? sext 32 arg then
    s <- tcg_out_modrm s (OPC_MOVL_EvIz + P_REXW) 0 ret ;;
    Ok (tcg_out32 s arg)
  else
    s <- tcg_out_opc s (OPC_MOVL_Iv + P_REXW + LOWREGMASK ret) 0 ret 0 ;;
    let s := tcg_out32 s arg in
    Ok (tcg_out32 s (arg >>. 31 >>. 1)).

Definition tcg_out_pushi (s : TCGOut) (val : Z) : result TCGOut :=
  if val =? sext 8 val then
    s <- tcg_out_opc s OPC_PUSH_Ib 0 0 0 ;;
    Ok (tcg_out8 s val)
  else if val =? sext 32 val then
    s <- tcg_out_opc s OPC_PUSH_Iv 0 0 0 ;;
    Ok (tcg_out32 s val)
  else Er EAbort.

Definition tcg_out_push (s : TCGOut) (reg : Z) : result TCGOut := tcg_out_opc s (OPC_PUSH_r32 + LOWREGMASK reg) 0 reg 0.
Definition tcg_out_pop (s : TCGOut) (reg : Z) : result TCGOut := tcg_out_opc s (OPC_POP_r32 + LOWREGMASK reg) 0 reg 0.

Definition tcg_out_ld (s : TCGOut) (type : TCGType) (ret arg1 arg2 : Z) : result TCGOut :=
  let opc := OPC_MOVL_GvEv + type_rexw type in
  tcg_out_modrm_offset s opc ret arg1 arg2.

Definition tcg_out_st (s : TCGOut) (type : TCGType) (arg arg1 arg2 : Z) : result TCGOut :=
  let opc := OPC_MOVL_EvGv + type_rexw type in
  tcg_out_modrm_offset s opc arg arg1 arg2.

Definition tcg_out_shifti (s : TCGOut) (subopc reg count : Z) : result TCGOut :=
  let ext := subopc .& .~ 7 in
  let subopc := subopc .& 7 in
  if count =? 1 then tcg_out_modrm s (OPC_SHIFT_1 + ext) subopc reg
  else
    s <- tcg_out_modrm s (OPC_SHIFT_Ib + ext) subopc reg ;;
    Ok (tcg_out8 s count).

Definition tcg_out_bswap32 (s : TCGOut) (reg : Z) : result TCGOut := tcg_out_opc s (OPC_BSWAP + LOWREGMASK reg) 0 reg 0.
Definition tcg_out_rolw_8 (s : TCGOut) (reg : Z) : result TCGOut := tcg_out_shifti s (SHIFT_ROL + P_DATA16) reg 8.
Definition tcg_out_ext8u (s : TCGOut) (dest src : Z) : result TCGOut := tcg_out_modrm s (OPC_MOVZBL + P_REXB_RM) dest src.
Definition tcg_out_ext8s (s : TCGOut) (dest src rexw : Z) : result TCGOut :=
  tcg_out_modrm s (OPC_MOVSBL + P_REXB_RM + rexw) dest src.
Definition tcg_out_ext16u (s : TCGOut) (dest src : Z) : result TCGOut := tcg_out_modrm s OPC_MOVZWL dest src.
Definition tcg_out_ext16s (s : TCGOut) (dest src rexw : Z) : result TCGOut := tcg_out_modrm s (OPC_MOVSWL + rexw) dest src.
Definition tcg_out_ext32u (s : TCGOut) (dest src : Z) : result TCGOut := tcg_out_modrm s OPC_MOVL_GvEv dest src.
Definition tcg_out_ext32s (s : TCGOut) (dest src : Z) : result TCGOut := tcg_out_modrm s OPC_MOVSLQ dest src.
Definition tcg_out_bswap64 (s : TCGOut) (reg : Z) : result TCGOut :=
  tcg_out_opc s (OPC_BSWAP + P_REXW + LOWREGMASK reg) 0 reg 0.

Definition tgen_arithi (s : TCGOut) (c r0 val : Z) (cf : bool) : result TCGOut :=
  let rexw := c .& -8 in
  let c := c .& 7 in
  if negb cf && ((c =? ARITH_ADD) || (c =? ARITH_SUB)) && ((val =? 1) || (val =? -1)) then
    let is_inc := xorb (c =? ARITH_ADD) (val <? 0) in
    tcg_out_modrm s (OPC_GRP5 + rexw) (if is_inc then EXT5_INC_Ev else EXT5_DEC_Ev) r0
  else if (c =? ARITH_AND) && (val =? 0xffffffff) then tcg_out_ext32u s r0 r0
  else
    (* AND with no high bits set can use a 32-bit operation. *)
    let rexw := if (c =? ARITH_AND) && (val =? u32 val) then 0 else rexw in
    if (c =? ARITH_AND) && (val =? 0xff) then tcg_out_ext8u s r0 r0
    else if (c =? ARITH_AND) && (val =? 0xffff) then tcg_out_ext16u s r0 r0
    else if val =? sext 8 val then
      s <- tcg_out_modrm s (OPC_ARITH_EvIb + rexw) c r0 ;;
      Ok (tcg_out8 s val)
    else if (rexw =? 0) || (val =? sext 32 val) then
      s <- tcg_out_modrm s (OPC_ARITH_EvIz + rexw) c r0 ;;
      Ok (tcg_out32 s val)
    else Er EAbort.

Definition tcg_out_addi (s : TCGOut) (reg val : Z) : result TCGOut :=
  if negb (val =? 0) then tgen_arithi s (ARITH_ADD + P_REXW) reg val false else Ok s.

(** ** Branches *)

Definition tcg_out_jxx (s : TCGOut) (opc label_index : Z) (small : bool) : result TCGOut :=
  l <- aref (labels s) label_index ;;
  match l with
  | LValue value =>
      let val := sext 32 (value - code_ptr s) in
      let val1 := sext 32 (val - 2) in
      if sext 8 val1 =? val1 then
        let s := if opc =? -1 then tcg_out8 s OPC_JMP_short else tcg_out8 s (OPC_JCC_short + opc) in
        Ok (tcg_out8 s val1)
      else if small then Er EAbort
      else if opc =? -1 then Ok (tcg_out32 (tcg_out8 s OPC_JMP_long) (val - 5))
      else
        s <- tcg_out_opc s (OPC_JCC_long + opc) 0 0 0 ;;
        Ok (tcg_out32 s (val - 6))
  | LRelocs _ =>
      if small then
        let s := if opc =? -1 then tcg_out8 s OPC_JMP_short else tcg_out8 s (OPC_JCC_short + opc) in
        s <- tcg_out_reloc s (code_ptr s) R_386_PC8 label_index (-1) ;;
        Ok (skip_bytes s 1)
      else
        s <- (if opc =? -1 then Ok (tcg_out8 s OPC_JMP_long) else tcg_out_opc s (OPC_JCC_long + opc) 0 0 0) ;;
        s <- tcg_out_reloc s (code_ptr s) R_386_PC32 label_index (-4) ;;
        Ok (skip_bytes s 4)
  end.

Definition tcg_out_cmp (s : TCGOut) (arg1 arg2 : Z) (const_arg2 : bool) (rexw : Z) : result TCGOut :=
  if const_arg2 then
    if u64 arg2 =? 0 then (* test r, r *) tcg_out_modrm s (OPC_TESTL + rexw) arg1 arg1
    else tgen_arithi s (ARITH_CMP + rexw) arg1 (sext 64 arg2) false
  else tgen_arithr s (ARITH_CMP + rexw) arg1 arg2.

Definition tcg_out_brcond32 (s : TCGOut) (cond : TCGCond) (arg1 arg2 : Z) (const_arg2 : bool) (label_index : Z) (small : bool)
    : result TCGOut :=
  s <- tcg_out_cmp s arg1 arg2 const_arg2 0 ;;
  tcg_out_jxx s (tcg_cond_to_jcc cond) label_index small.

Definition tcg_out_brcond64 (s : TCGOut) (cond : TCGCond) (arg1 arg2 : Z) (const_arg2 : bool) (label_index : Z) (small : bool)
    : result TCGOut :=
  s <- tcg_out_cmp s arg1 arg2 const_arg2 P_REXW ;;
  tcg_out_jxx s (tcg_cond_to_jcc cond) label_index small.

Definition tcg_out_setcond32 (s : TCGOut) (cond : TCGCond) (dest arg1 arg2 : Z) (const_arg2 : bool) : result TCGOut :=
  s <- tcg_out_cmp s arg1 arg2 const_arg2 0 ;;
  s <- tcg_out_modrm s (OPC_SETCC .| tcg_cond_to_jcc cond) 0 dest ;;
  tcg_out_ext8u s dest dest.

Definition tcg_out_setcond64 (s : TCGOut) (cond : TCGCond) (dest arg1 arg2 : Z) (const_arg2 : bool) : result TCGOut :=
  s <- tcg_out_cmp s arg1 arg2 const_arg2 P_REXW ;;
  s <- tcg_out_modrm s (OPC_SETCC .| tcg_cond_to_jcc cond) 0 dest ;;
  tcg_out_ext8u s dest dest.

Definition tcg_out_branch (s : TCGOut) (call : bool) (dest : Z) : result TCGOut :=
  let disp := sext 64 (dest - code_ptr s - 5) in
  if disp =? sext 32 disp then
    s <- tcg_out_opc s (if call then OPC_CALL_Jz else OPC_JMP_long) 0 0 0 ;;
    Ok (tcg_out32 s disp)
  else
    s <- tcg_out_movi s TCG_TYPE_I64 TCG_REG_R10 (sext 64 dest) ;;
    tcg_out_modrm s OPC_GRP5 (if call then EXT5_CALLN_Ev else EXT5_JMPN_Ev) TCG_REG_R10.

Definition tcg_out_calli (s : TCGOut) (dest : Z) : result TCGOut := tcg_out_branch s true dest.
Definition tcg_out_jmp (s : TCGOut) (dest : Z) : result TCGOut := tcg_out_branch s false dest.
