(* ===== verification/X86Op.v ===== *)
(** * Operations in x86-64 code

    [tcg_out_op] of tcg/i386/tcg-target.c with the guest accesses of user mode,
    the code that exits from blocks and the fragments of IB chains. *)

From Stdlib Require Import String.
From stdpp Require Import base list functions.
From S2P Require Import Prelude TcgData TcgLive X86Isa X86Out.
Local Open Scope Z_scope.
Local Coercion Z.of_nat : nat >-> Z.

(** ** Names of operations *)

(** The operations without the suffix of their type. *)
Inductive opname :=
  | op_exit_tb | op_goto_tb | op_goto_ibchain | op_cmp_ibchain | op_call | op_jmp | op_patch | op_br
  | op_mov | op_movi | op_ld8u | op_ld8s | op_ld16u | op_ld16s | op_ld32u | op_ld32s | op_ld
  | op_st8 | op_st16 | op_st32 | op_st
  | op_add | op_sub | op_and | op_or | op_xor | op_mul | op_div2 | op_divu2
  | op_shl | op_shr | op_sar | op_rotl | op_rotr | op_brcond | op_setcond
  | op_bswap16 | op_bswap32 | op_bswap64 | op_neg | op_not
  | op_ext8s | op_ext16s | op_ext8u | op_ext16u | op_ext32s | op_ext32u
  | op_qemu_ld8u | op_qemu_ld8s | op_qemu_ld16u | op_qemu_ld16s | op_qemu_ld32 | op_qemu_ld32u | op_qemu_ld32s | op_qemu_ld64
  | op_qemu_st8 | op_qemu_st16 | op_qemu_st32 | op_qemu_st64.

Definition OP_32_64 (x : string) (o : opname) : list (string * (opname * TCGType)) :=
  [(append x "_i32", (o, TCG_TYPE_I32)); (append x "_i64", (o, TCG_TYPE_I64))].
Definition OP_64 (x : string) (o : opname) : list (string * (opname * TCGType)) := [(append x "_i64", (o, TCG_TYPE_I64))].
Definition OP (x : string) (o : opname) (ty : TCGType) : list (string * (opname * TCGType)) := [(x, (o, ty))].

Definition op_names : list (string * (opname * TCGType)) := (
  OP "exit_tb" op_exit_tb TCG_TYPE_I64 ++ OP "goto_tb" op_goto_tb TCG_TYPE_I64 ++
  OP "goto_ibchain" op_goto_ibchain TCG_TYPE_I64 ++ OP "cmp_ibchain" op_cmp_ibchain TCG_TYPE_I64 ++
  OP "call" op_call TCG_TYPE_I64 ++ OP "jmp" op_jmp TCG_TYPE_I64 ++ OP "patch" op_patch TCG_TYPE_I64 ++
  OP "br" op_br TCG_TYPE_I64 ++ OP_32_64 "mov" op_mov ++ OP_32_64 "movi" op_movi ++
  OP_32_64 "ld8u" op_ld8u ++ OP_32_64 "ld8s" op_ld8s ++ OP_32_64 "ld16u" op_ld16u ++ OP_32_64 "ld16s" op_ld16s ++
  OP_64 "ld32u" op_ld32u ++ OP_64 "ld32s" op_ld32s ++ OP_32_64 "ld" op_ld ++
  OP_32_64 "st8" op_st8 ++ OP_32_64 "st16" op_st16 ++ OP_64 "st32" op_st32 ++ OP_32_64 "st" op_st ++
  OP_32_64 "add" op_add ++ OP_32_64 "sub" op_sub ++ OP_32_64 "and" op_and ++ OP_32_64 "or" op_or ++
  OP_32_64 "xor" op_xor ++ OP_32_64 "mul" op_mul ++ OP_32_64 "div2" op_div2 ++ OP_32_64 "divu2" op_divu2 ++
  OP_32_64 "shl" op_shl ++ OP_32_64 "shr" op_shr ++ OP_32_64 "sar" op_sar ++
  OP_32_64 "rotl" op_rotl ++ OP_32_64 "rotr" op_rotr ++
  OP_32_64 "brcond" op_brcond ++ OP_32_64 "setcond" op_setcond ++
  OP_32_64 "bswap16" op_bswap16 ++ OP_32_64 "bswap32" op_bswap32 ++ OP_64 "bswap64" op_bswap64 ++
  OP_32_64 "neg" op_neg ++ OP_32_64 "not" op_not ++
  OP_32_64 "ext8s" op_ext8s ++ OP_32_64 "ext16s" op_ext16s ++ OP_32_64 "ext8u" op_ext8u ++ OP_32_64 "ext16u" op_ext16u ++
  OP_64 "ext32s" op_ext32s ++ OP_64 "ext32u" op_ext32u ++
  OP "qemu_ld8u" op_qemu_ld8u TCG_TYPE_I64 ++ OP "qemu_ld8s" op_qemu_ld8s TCG_TYPE_I64 ++
  OP "qemu_ld16u" op_qemu_ld16u TCG_TYPE_I64 ++ OP "qemu_ld16s" op_qemu_ld16s TCG_TYPE_I64 ++
  OP "qemu_ld32" op_qemu_ld32 TCG_TYPE_I32 ++ OP "qemu_ld32u" op_qemu_ld32u TCG_TYPE_I64 ++
  OP "qemu_ld32s" op_qemu_ld32s TCG_TYPE_I64 ++ OP "qemu_ld64" op_qemu_ld64 TCG_TYPE_I64 ++
  OP "qemu_st8" op_qemu_st8 TCG_TYPE_I64 ++ OP "qemu_st16" op_qemu_st16 TCG_TYPE_I64 ++
  OP "qemu_st32" op_qemu_st32 TCG_TYPE_I64 ++ OP "qemu_st64" op_qemu_st64 TCG_TYPE_I64)%list.

(** The operation of an opcode, and its type. *)
Definition op_split (op : TCGOpcode) : option (opname * TCGType) :=
  snd <$> find (λ e, String.eqb e.1 (name (op_def op))) op_names.

Section host.
  Context `{TcgHost}.

(** ** Guest accesses *)

Definition scratch : Z := TCG_REG_ESI. (* the second argument register *)

Definition when (b : bool) (f : TCGOut → result TCGOut) (s : TCGOut) : result TCGOut := if b then f s else Ok s.

Definition tcg_out_qemu_ld_direct (s : TCGOut) (datalo base ofs sizeop : Z) : result TCGOut :=
  let bswap := TARGET_WORDS_BIGENDIAN in
  if sizeop =? 0 then tcg_out_modrm_offset s OPC_MOVZBL datalo base ofs
  else if sizeop =? 0 .| 4 then tcg_out_modrm_offset s (OPC_MOVSBL + P_REXW) datalo base ofs
  else if sizeop =? 1 then
    s <- tcg_out_modrm_offset s OPC_MOVZWL datalo base ofs ;;
    when bswap (λ s, tcg_out_rolw_8 s datalo) s
  else if sizeop =? 1 .| 4 then
    if bswap then
      s <- tcg_out_modrm_offset s OPC_MOVZWL datalo base ofs ;;
      s <- tcg_out_rolw_8 s datalo ;;
      tcg_out_modrm s (OPC_MOVSWL + P_REXW) datalo datalo
    else tcg_out_modrm_offset s (OPC_MOVSWL + P_REXW) datalo base ofs
  else if sizeop =? 2 then
    s <- tcg_out_ld s TCG_TYPE_I32 datalo base ofs ;;
    when bswap (λ s, tcg_out_bswap32 s datalo) s
  else if sizeop =? 2 .| 4 then
    if bswap then
      s <- tcg_out_ld s TCG_TYPE_I32 datalo base ofs ;;
      s <- tcg_out_bswap32 s datalo ;;
      tcg_out_ext32s s datalo datalo
    else tcg_out_modrm_offset s OPC_MOVSLQ datalo base ofs
  else if sizeop =? 3 then
    s <- tcg_out_ld s TCG_TYPE_I64 datalo base ofs ;;
    when bswap (λ s, tcg_out_bswap64 s datalo) s
  else Er EAbort.

(** The base and the offset of an access; a base that is too large for an
    offset goes through the first argument register. *)
Definition guest_address (s : TCGOut) (base : Z) : result (TCGOut * Z * Z) :=
  let offset := sext 32 GUEST_BASE in
  if negb (u64 offset =? u64 GUEST_BASE) then
    s <- tcg_out_movi s TCG_TYPE_I64 TCG_REG_EDI (sext 64 GUEST_BASE) ;;
    s <- tgen_arithr s (ARITH_ADD + P_REXW) TCG_REG_EDI base ;;
    Ok (s, TCG_REG_EDI, 0)
  else Ok (s, base, offset).

Definition tcg_out_qemu_ld (s : TCGOut) (args : list Z) (opc : Z) : result TCGOut :=
  data_reg <- aref args 0 ;;
  base <- aref args 1 ;;
  '(s, base, offset) <- guest_address s base ;;
  tcg_out_qemu_ld_direct s data_reg base offset opc.

Definition tcg_out_qemu_st_direct (s : TCGOut) (datalo base ofs sizeop : Z) : result TCGOut :=
  let bswap := TARGET_WORDS_BIGENDIAN in
  if sizeop =? 0 then tcg_out_modrm_offset s (OPC_MOVB_EvGv + P_REXB_R) datalo base ofs
  else if sizeop =? 1 then
    '(s, datalo) <- (if bswap then
                       s <- tcg_out_mov s TCG_TYPE_I32 scratch datalo ;;
                       s <- tcg_out_rolw_8 s scratch ;; Ok (s, scratch)
                     else Ok (s, datalo)) ;;
    tcg_out_modrm_offset s (OPC_MOVL_EvGv + P_DATA16) datalo base ofs
  else if sizeop =? 2 then
    '(s, datalo) <- (if bswap then
                       s <- tcg_out_mov s TCG_TYPE_I32 scratch datalo ;;
                       s <- tcg_out_bswap32 s scratch ;; Ok (s, scratch)
                     else Ok (s, datalo)) ;;
    tcg_out_st s TCG_TYPE_I32 datalo base ofs
  else if sizeop =? 3 then
    '(s, datalo) <- (if bswap then
                       s <- tcg_out_mov s TCG_TYPE_I64 scratch datalo ;;
                       s <- tcg_out_bswap64 s scratch ;; Ok (s, scratch)
                     else Ok (s, datalo)) ;;
    tcg_out_st s TCG_TYPE_I64 datalo base ofs
  else Er EAbort.

Definition tcg_out_qemu_st (s : TCGOut) (args : list Z) (opc : Z) : result TCGOut :=
  data_reg <- aref args 0 ;;
  base <- aref args 1 ;;
  '(s, base, offset) <- guest_address s base ;;
  tcg_out_qemu_st_direct s data_reg base offset opc.

(** ** Exits from a block *)

(** [while ((code_ptr + 1) % 4) tcg_out8(s, OPC_NOP)]; three bytes are enough. *)
Fixpoint align_jmp (fuel : nat) (s : TCGOut) : result TCGOut :=
  if (code_ptr s + 1) `mod` 4 =? 0 then Ok s
  else match fuel with O => Er EFuel | S fuel => align_jmp fuel (tcg_out8 s OPC_NOP) end.

Definition align2 (s : TCGOut) : TCGOut := if code_ptr s `mod` 2 =? 1 then tcg_out8 s OPC_NOP else s.

(** [sizeof(unsigned long)], the stride of [tb_next] *)
Definition sizeof_long : Z := 8.

Definition tcg_out_goto_tb (s : TCGOut) (n : Z) : result TCGOut :=
  s <- match tb_jmp_offset s with
       | Some offs =>
           (* direct jump method *)
           s <- align_jmp 3 s ;;
           let s := tcg_out8 s OPC_JMP_long in
           offs <- aset offs n (u16 (code_ptr s - code_buf s)) ;;
           Ok (tcg_out32 (s <| tb_jmp_offset := Some offs |>) 0)
       | None =>
           (* indirect jump method *)
           tcg_out_modrm_offset s OPC_GRP5 EXT5_JMPN_Ev (-1) (sext 64 (tb_next s + sizeof_long * n))
       end ;;
  offs <- aset (tb_next_offset s) n (u16 (code_ptr s - code_buf s)) ;;
  Ok (s <| tb_next_offset := offs |>).

Definition TCG_TYPE_TL : TCGType := if TARGET_LONG_BITS =? 64 then TCG_TYPE_I64 else TCG_TYPE_I32.

Definition tcg_out_goto_ibchain (s : TCGOut) (eip tb : Z) : result TCGOut :=
  s <- tcg_out_mov s TCG_TYPE_TL TCG_REG_EDI eip ;;
  s <- tcg_out_movi s TCG_TYPE_I64 TCG_REG_ESI (sext 64 tb) ;;
  let s := align2 s in
  tcg_out_jmp (s <| jmp_offset := u16 (code_ptr s - code_buf s) |>) ibchain_ret_addr.

Definition tcg_out_cmp_ibchain (s : TCGOut) (eip tb : Z) : result TCGOut :=
  let rexw := if TARGET_LONG_BITS =? 64 then P_REXW else 0 in
  s <- tcg_out_cmp s TCG_REG_EDI eip true rexw ;;
  let s := tcg_out8 s (OPC_JCC_short + JCC_JNE) in
  let label_ptr := code_ptr s in
  let s := skip_bytes s 1 in
  s <- tcg_out_movi s TCG_TYPE_I64 TCG_REG_EAX (sext 64 tb) ;;
  s <- tcg_out_ld s TCG_TYPE_I64 TCG_REG_EAX TCG_REG_EAX offsetof_opt_ptr ;;
  s <- tcg_out_modrm s OPC_GRP5 EXT5_JMPN_Ev TCG_REG_EAX ;;
  let s := s <| cmem := put (cmem s) label_ptr [u8 (code_ptr s - label_ptr - 1)] |> in
  let s := align2 s in
  tcg_out_jmp (s <| ibchain_patch_offset := u16 (code_ptr s - code_buf s) |>) ibchain_ret_addr.

(** ** All operations *)

Definition gen_arith (s : TCGOut) (c rexw a0 a2 : Z) (const2 : bool) : result TCGOut :=
  if const2 then tgen_arithi s (c + rexw) a0 (sext 64 a2) false else tgen_arithr s (c + rexw) a0 a2.

Definition gen_shift (s : TCGOut) (c rexw a0 a2 : Z) (const2 : bool) : result TCGOut :=
  if const2 then tcg_out_shifti s (c + rexw) a0 (sext 32 a2) else tcg_out_modrm s (OPC_SHIFT_cl + rexw) c a0.

Definition out_add (s : TCGOut) (rexw a0 a1 a2 : Z) (const2 : bool) : result TCGOut :=
  (* For 3-operand addition, use LEA. *)
  if negb (a0 =? a1) then
    if negb const2 && (a0 =? a2) then tgen_arithr s (ARITH_ADD + rexw) a0 a1
    else
      tcg_out_modrm_sib_offset s (OPC_LEA + rexw) a0 a1 (if const2 then -1 else a2) 0 (if const2 then sext 64 a2 else 0)
  else gen_arith s ARITH_ADD rexw a0 a2 const2.

Definition out_mul (s : TCGOut) (rexw a0 a2 : Z) (const2 : bool) : result TCGOut :=
  if const2 then
    let val := sext 32 a2 in
    if val =? sext 8 val then
      s <- tcg_out_modrm s (OPC_IMUL_GvEvIb + rexw) a0 a0 ;;
      Ok (tcg_out8 s val)
    else
      s <- tcg_out_modrm s (OPC_IMUL_GvEvIz + rexw) a0 a0 ;;
      Ok (tcg_out32 s val)
  else tcg_out_modrm s (OPC_IMUL_GvEv + rexw) a0 a2.

(** The parameters [args] and which of them are constants. *)
Definition tcg_out_op (s : TCGOut) (op : TCGOpcode) (args : list Z) (const_args : list bool) : result TCGOut :=
  '(o, type) <- match op_split op with Some p => Ok p | None => Er EAbort end ;;
  let rexw := type_rexw type in
  let a i := aref args i in
  let is_const i := default false (const_args !! i) in
  match o with
  | op_exit_tb =>
      a0 <- a 0 ;; s <- tcg_out_movi s TCG_TYPE_I64 TCG_REG_EAX (sext 64 a0) ;;
      tcg_out_jmp s tb_ret_addr
  | op_goto_tb => a0 <- a 0 ;; tcg_out_goto_tb s a0
  | op_goto_ibchain => a0 <- a 0 ;; a1 <- a 1 ;; tcg_out_goto_ibchain s a0 a1
  | op_cmp_ibchain => a0 <- a 0 ;; a1 <- a 1 ;; tcg_out_cmp_ibchain s a0 a1
  | op_call =>
      a0 <- a 0 ;;
      if is_const 0%nat then tcg_out_calli s a0 else tcg_out_modrm s OPC_GRP5 EXT5_CALLN_Ev a0
  | op_jmp =>
      a0 <- a 0 ;;
      if is_const 0%nat then tcg_out_jmp s a0 else tcg_out_modrm s OPC_GRP5 EXT5_JMPN_Ev a0
  | op_patch =>
      a0 <- a 0 ;; s <- align_jmp 3 (s <| set_patch_next := 1 |>) ;;
      tcg_out_jxx s JCC_JMP a0 false
  | op_br => a0 <- a 0 ;; tcg_out_jxx s JCC_JMP a0 false
  | op_movi => a0 <- a 0 ;; a1 <- a 1 ;; tcg_out_movi s type a0 (sext 64 a1)
  | op_ld8u => a0 <- a 0 ;; a1 <- a 1 ;; a2 <- a 2 ;; tcg_out_modrm_offset s OPC_MOVZBL a0 a1 (sext 64 a2)
  | op_ld8s => a0 <- a 0 ;; a1 <- a 1 ;; a2 <- a 2 ;; tcg_out_modrm_offset s (OPC_MOVSBL + rexw) a0 a1 (sext 64 a2)
  | op_ld16u => a0 <- a 0 ;; a1 <- a 1 ;; a2 <- a 2 ;; tcg_out_modrm_offset s OPC_MOVZWL a0 a1 (sext 64 a2)
  | op_ld16s => a0 <- a 0 ;; a1 <- a 1 ;; a2 <- a 2 ;; tcg_out_modrm_offset s (OPC_MOVSWL + rexw) a0 a1 (sext 64 a2)
  | op_ld32u => a0 <- a 0 ;; a1 <- a 1 ;; a2 <- a 2 ;; tcg_out_ld s TCG_TYPE_I32 a0 a1 (sext 64 a2)
  | op_ld32s => a0 <- a 0 ;; a1 <- a 1 ;; a2 <- a 2 ;; tcg_out_modrm_offset s OPC_MOVSLQ a0 a1 (sext 64 a2)
  | op_ld => a0 <- a 0 ;; a1 <- a 1 ;; a2 <- a 2 ;; tcg_out_ld s type a0 a1 (sext 64 a2)
  | op_st8 => a0 <- a 0 ;; a1 <- a 1 ;; a2 <- a 2 ;; tcg_out_modrm_offset s (OPC_MOVB_EvGv .| P_REXB_R) a0 a1 (sext 64 a2)
  | op_st16 => a0 <- a 0 ;; a1 <- a 1 ;; a2 <- a 2 ;; tcg_out_modrm_offset s (OPC_MOVL_EvGv .| P_DATA16) a0 a1 (sext 64 a2)
  | op_st32 => a0 <- a 0 ;; a1 <- a 1 ;; a2 <- a 2 ;; tcg_out_st s TCG_TYPE_I32 a0 a1 (sext 64 a2)
  | op_st => a0 <- a 0 ;; a1 <- a 1 ;; a2 <- a 2 ;; tcg_out_st s type a0 a1 (sext 64 a2)
  | op_add => a0 <- a 0 ;; a1 <- a 1 ;; a2 <- a 2 ;; out_add s rexw a0 a1 a2 (is_const 2%nat)
  | op_sub => a0 <- a 0 ;; a2 <- a 2 ;; gen_arith s ARITH_SUB rexw a0 a2 (is_const 2%nat)
  | op_and => a0 <- a 0 ;; a2 <- a 2 ;; gen_arith s ARITH_AND rexw a0 a2 (is_const 2%nat)
  | op_or => a0 <- a 0 ;; a2 <- a 2 ;; gen_arith s ARITH_OR rexw a0 a2 (is_const 2%nat)
  | op_xor => a0 <- a 0 ;; a2 <- a 2 ;; gen_arith s ARITH_XOR rexw a0 a2 (is_const 2%nat)
  | op_mul => a0 <- a 0 ;; a2 <- a 2 ;; out_mul s rexw a0 a2 (is_const 2%nat)
  | op_div2 => a4 <- a 4 ;; tcg_out_modrm s (OPC_GRP3_Ev + rexw) EXT3_IDIV a4
  | op_divu2 => a4 <- a 4 ;; tcg_out_modrm s (OPC_GRP3_Ev + rexw) EXT3_DIV a4
  | op_shl => a0 <- a 0 ;; a2 <- a 2 ;; gen_shift s SHIFT_SHL rexw a0 a2 (is_const 2%nat)
  | op_shr => a0 <- a 0 ;; a2 <- a 2 ;; gen_shift s SHIFT_SHR rexw a0 a2 (is_const 2%nat)
  | op_sar => a0 <- a 0 ;; a2 <- a 2 ;; gen_shift s SHIFT_SAR rexw a0 a2 (is_const 2%nat)
  | op_rotl => a0 <- a 0 ;; a2 <- a 2 ;; gen_shift s SHIFT_ROL rexw a0 a2 (is_const 2%nat)
  | op_rotr => a0 <- a 0 ;; a2 <- a 2 ;; gen_shift s SHIFT_ROR rexw a0 a2 (is_const 2%nat)
  | op_brcond =>
      a0 <- a 0 ;; a1 <- a 1 ;; a2 <- a 2 ;; a3 <- a 3 ;; c <- cond_of a2 ;;
      (if is_i32 type then tcg_out_brcond32 else tcg_out_brcond64) s c a0 a1 (is_const 1%nat) a3 false
  | op_setcond =>
      a0 <- a 0 ;; a1 <- a 1 ;; a2 <- a 2 ;; a3 <- a 3 ;; c <- cond_of a3 ;;
      (if is_i32 type then tcg_out_setcond32 else tcg_out_setcond64) s c a0 a1 a2 (is_const 2%nat)
  | op_bswap16 => a0 <- a 0 ;; tcg_out_rolw_8 s a0
  | op_bswap32 => a0 <- a 0 ;; tcg_out_bswap32 s a0
  | op_bswap64 => a0 <- a 0 ;; tcg_out_bswap64 s a0
  | op_neg => a0 <- a 0 ;; tcg_out_modrm s (OPC_GRP3_Ev + rexw) EXT3_NEG a0
  | op_not => a0 <- a 0 ;; tcg_out_modrm s (OPC_GRP3_Ev + rexw) EXT3_NOT a0
  | op_ext8s => a0 <- a 0 ;; a1 <- a 1 ;; tcg_out_ext8s s a0 a1 rexw
  | op_ext16s => a0 <- a 0 ;; a1 <- a 1 ;; tcg_out_ext16s s a0 a1 rexw
  | op_ext8u => a0 <- a 0 ;; a1 <- a 1 ;; tcg_out_ext8u s a0 a1
  | op_ext16u => a0 <- a 0 ;; a1 <- a 1 ;; tcg_out_ext16u s a0 a1
  | op_ext32s => a0 <- a 0 ;; a1 <- a 1 ;; tcg_out_ext32s s a0 a1
  | op_ext32u => a0 <- a 0 ;; a1 <- a 1 ;; tcg_out_ext32u s a0 a1
  | op_qemu_ld8u => tcg_out_qemu_ld s args 0
  | op_qemu_ld8s => tcg_out_qemu_ld s args (0 .| 4)
  | op_qemu_ld16u => tcg_out_qemu_ld s args 1
  | op_qemu_ld16s => tcg_out_qemu_ld s args (1 .| 4)
  | op_qemu_ld32 | op_qemu_ld32u => tcg_out_qemu_ld s args 2
  | op_qemu_ld32s => tcg_out_qemu_ld s args (2 .| 4)
  | op_qemu_ld64 => tcg_out_qemu_ld s args 3
  | op_qemu_st8 => tcg_out_qemu_st s args 0
  | op_qemu_st16 => tcg_out_qemu_st s args 1
  | op_qemu_st32 => tcg_out_qemu_st s args 2
  | op_qemu_st64 => tcg_out_qemu_st s args 3
  | op_mov => Er EAbort
  end.

(** The fragment of a chain of indirect branches for the block at [tb] with
    the guest address [pc], its end and the offset of its last jump. *)
Definition tcg_out_ibchain (buf : Z) (m : Z → Z) (pc tb : Z) : result (TCGOut * Z * Z) :=
  let s := mkOut buf buf m [] None [] 0 0 0 0 0 in
  s <- tcg_out_op s INDEX_op_cmp_ibchain [pc; tb] [] ;;
  Ok (s, ibchain_patch_offset s, sext 32 (code_ptr s - buf)).

End host.
