(* ===== verification/X86Enc.v ===== *)
(** * Encodings of x86-64 instructions

    The bytes that the functions of X86Out.v write decode to the instructions
    they stand for, whatever follows.  [does f x y]: the code that [f] writes
    takes the machine from [x] to [y]. *)

From stdpp Require Import base list functions.
From S2P Require Import Prelude TcgData TcgLive X86Isa X86Out.
Local Open Scope Z_scope.
Local Coercion Z.of_nat : nat >-> Z.

Local Ltac Zify.zify_post_hook ::= Z.to_euclidean_division_equations.

(** ** Numbers *)

Lemma le_bytes_length n v : length (le_bytes n v) = n.
Proof. revert v. induction n as [|n IH]; intros v; cbn; [done|]. by rewrite IH. Qed.

Lemma le_val_bytes n v : le_val (le_bytes n v) = wrap (8 * n) v.
Proof.
  unfold wrap. revert v. induction n as [|n IH]; intros v; cbn [le_bytes le_val].
  - cbn. by rewrite Z.mod_1_r.
  - rewrite IH. replace (8 * S n) with (8 + 8 * n) by lia. rewrite Z.pow_add_r by lia.
    change (2 ^ 8) with 256. rewrite Z.rem_mul_r by (try apply Z.pow_pos_nonneg; lia). by rewrite Z.mod_mod.
Qed.

Lemma imm_bytes_app n v t : imm n (le_bytes n v ++ t) = Some (sext (8 * n) v, t).
Proof.
  unfold imm. rewrite length_app, le_bytes_length. destruct (Nat.ltb_spec (n + length t) n); [lia|].
  rewrite take_app_length' by (symmetry; apply le_bytes_length). rewrite drop_app_length' by (symmetry; apply le_bytes_length).
  by rewrite le_val_bytes, sext_wrap.
Qed.

Lemma imm_0 t : imm 0 t = Some (sext 0 0, t).
Proof. unfold imm. destruct (length t); done. Qed.

(** ** Output *)

Lemma put_app m a l1 l2 : put m a (l1 ++ l2) = put (put m a l1) (a + length l1) l2.
Proof.
  revert m a. induction l1 as [|b l1 IH]; intros m a; cbn [put app length].
  - by rewrite Z.add_0_r.
  - rewrite IH. f_equal. lia.
Qed.

Lemma put_outside m a l p : p < a ∨ a + length l ≤ p → put m a l p = m p.
Proof.
  revert m a. induction l as [|b l IH]; intros m a Hp; cbn [put length] in *; [done|].
  rewrite IH by lia. rewrite fn_lookup_insert_ne; [done|lia].
Qed.

Lemma put_inside m a l (i : nat) b : l !! i = Some b → put m a l (a + i) = b.
Proof.
  revert m a i. induction l as [|c l IH]; intros m a i; [done|]. destruct i as [|i]; cbn [lookup put list_lookup].
  - intros [= ->]. rewrite put_outside by lia. rewrite Z.add_0_r. apply fn_lookup_insert.
  - intros Hl. replace (a + S i) with (a + 1 + i) by lia. by apply IH.
Qed.

Lemma emit_emit s l1 l2 : emit (emit s l1) l2 = emit s (l1 ++ l2).
Proof. unfold emit. destruct s; cbn. by rewrite put_app, length_app, Nat2Z.inj_add, Z.add_assoc. Qed.

(** The bytes [l] are at [a]. *)
Definition code_at (cm : Z → Z) (a : Z) (l : list Z) : Prop := ∀ (i : nat) b, l !! i = Some b → cm (a + i) = b.

Lemma code_at_app cm a l1 l2 : code_at cm a (l1 ++ l2) ↔ code_at cm a l1 ∧ code_at cm (a + length l1) l2.
Proof.
  unfold code_at. split.
  - intros Hc. split; intros i b Hi.
    + apply Hc. by apply lookup_app_l_Some.
    + rewrite <- Z.add_assoc, <- Nat2Z.inj_add. apply Hc. rewrite lookup_app_r by lia. by rewrite Nat.add_sub' .
  - intros [H1 H2] i b [Hi|[Hle Hi]]%lookup_app_Some; [by apply H1|].
    rewrite <- (H2 _ _ Hi). f_equal. lia.
Qed.

Lemma code_at_emit s l : code_at (cmem (emit s l)) (code_ptr s) l.
Proof. intros i b Hi. destruct s; cbn. by apply put_inside. Qed.

Lemma fetch_app cm ip l :
  code_at cm ip l → (length l ≤ 15)%nat → ∃ t, fetch cm ip = l ++ t ∧ length t = (15 - length l)%nat.
Proof.
  intros Hc Hn. exists (drop (length l) (fetch cm ip)).
  assert (length (fetch cm ip) = 15%nat) as Hl by (unfold fetch; by rewrite length_fmap, length_seqZ).
  split; [|rewrite length_drop; lia].
  rewrite <- (take_drop (length l) (fetch cm ip)) at 1. f_equal.
  apply list_eq. intros i. destruct (decide (i < length l)%nat) as [Hi|Hi].
  - destruct (lookup_lt_is_Some_2 l i Hi) as [b Hb]. rewrite Hb, lookup_take_lt by done.
    unfold fetch. rewrite list_lookup_fmap, lookup_seqZ_lt by lia. cbn. f_equal. by apply Hc.
  - rewrite (lookup_ge_None_2 l) by lia. apply lookup_ge_None_2. rewrite length_take. lia.
Qed.

(** ** Code and its effect *)

Section exec.
  Context (undefined : insn → mach → flags).

Lemma xexec_app cm n1 n2 s : xexec undefined cm (n1 + n2) s = xexec undefined cm n1 s ≫= xexec undefined cm n2.
Proof. revert s. induction n1 as [|n IH]; intros s; cbn; [done|]. destruct (xstep undefined cm s); cbn; [apply IH|done]. Qed.

Lemma reaches_refl cm s : reaches undefined cm s s.
Proof. by exists 0%nat. Qed.

Lemma reaches_trans cm s1 s2 s3 : reaches undefined cm s1 s2 → reaches undefined cm s2 s3 → reaches undefined cm s1 s3.
Proof. intros [n1 H1] [n2 H2]. exists (n1 + n2)%nat. by rewrite xexec_app, H1. Qed.

(** The bytes of one instruction. *)
Definition encodes (l : list Z) (i : insn) : Prop := (length l ≤ 15)%nat ∧ ∀ t, decode (l ++ t) = Some (i, t).

Lemma encodes_step cm ip l i x : encodes l i → code_at cm ip l → xstep undefined cm (ip, x) = exec undefined (ip + length l) i x.
Proof.
  intros [Hn Hd] Hc. destruct (fetch_app cm ip l Hc Hn) as (t & Hf & Ht).
  unfold xstep. cbn [fst snd]. rewrite Hf, Hd. cbn [mbind option_bind]. do 2 f_equal. lia.
Qed.

Lemma encodes_reaches cm ip l i x s :
  encodes l i → code_at cm ip l → exec undefined (ip + length l) i x = Some s → reaches undefined cm (ip, x) s.
Proof. intros He Hc Hx. exists 1%nat. cbn. by rewrite (encodes_step cm ip l i x He Hc), Hx. Qed.

(** Code without jumps. *)
Definition straight (l : list Z) (x y : mach) : Prop :=
  ∀ cm ip, code_at cm ip l → reaches undefined cm (ip, x) (ip + length l, y).

Lemma straight_nil x : straight [] x x.
Proof. intros cm ip _. cbn. rewrite Z.add_0_r. apply reaches_refl. Qed.

Lemma straight_app l1 l2 x y z : straight l1 x y → straight l2 y z → straight (l1 ++ l2) x z.
Proof.
  intros H1 H2 cm ip [Hc1 Hc2]%code_at_app. rewrite length_app, Nat2Z.inj_add, Z.add_assoc.
  eapply reaches_trans; [by apply H1|by apply H2].
Qed.

Lemma straight_one l i x y : encodes l i → (∀ ip, exec undefined ip i x = Some (ip, y)) → straight l x y.
Proof. intros He Hx cm ip Hc. eapply encodes_reaches; [done..|]. apply Hx. Qed.

(** [f] writes the bytes [l], wherever it does. *)
Definition writes (f : TCGOut → result TCGOut) (l : list Z) : Prop := ∀ s, f s = Ok (emit s l).

Lemma writes_bind f g l1 l2 : writes f l1 → writes g l2 → writes (λ s, s <- f s ;; g s) (l1 ++ l2).
Proof. intros H1 H2 s. rewrite H1. cbn [rbind]. rewrite H2. by rewrite emit_emit. Qed.

Lemma writes_ret l : writes (λ s, Ok (emit s l)) l.
Proof. done. Qed.

Lemma writes_nil : writes Ok [].
Proof. intros s. unfold emit. destruct s; cbn. by rewrite Z.add_0_r. Qed.

Definition does (f : TCGOut → result TCGOut) (x y : mach) : Prop := ∃ l, writes f l ∧ straight l x y.

Lemma does_bind f g x y z : does f x y → does g y z → does (λ s, s <- f s ;; g s) x z.
Proof. intros (l1 & Hf & H1) (l2 & Hg & H2). exists (l1 ++ l2). split; [by apply writes_bind|by eapply straight_app]. Qed.

Lemma does_nil x : does Ok x x.
Proof. exists []. split; [apply writes_nil|apply straight_nil]. Qed.

Lemma does_one f l i x y : writes f l → encodes l i → (∀ ip, exec undefined ip i x = Some (ip, y)) → does f x y.
Proof. intros Hf He Hx. exists l. split; [done|by eapply straight_one]. Qed.

Lemma does_ext f g x y : (∀ s, f s = g s) → does f x y → does g x y.
Proof. intros E (l & Hf & Hl). exists l. split; [|done]. intros s. by rewrite <- E. Qed.

End exec.

(** * Operands of x86-64 instructions

    The prefixes, the opcode and the operands that [tcg_out_opc],
    [tcg_out_modrm] and [tcg_out_modrm_sib_offset] write, read back by the
    decoder. *)

Local Ltac Zify.zify_post_hook ::= Z.to_euclidean_division_equations.

Definition is_reg (r : Z) : Prop := 0 ≤ r < 16.

(** ** Bits *)

Lemma land_bit x n : 0 ≤ n → x .& 2 ^ n = if Z.testbit x n then 2 ^ n else 0.
Proof.
  intros Hn. apply Z.bits_inj'. intros k Hk. rewrite Z.land_spec, Z.pow2_bits_eqb by done.
  destruct (Z.eqb_spec n k) as [<-|Hne].
  - destruct (Z.testbit x n); [by rewrite Z.pow2_bits_true|by rewrite Z.bits_0].
  - rewrite andb_false_r. destruct (Z.testbit x n); [by rewrite Z.pow2_bits_false|by rewrite Z.bits_0].
Qed.

Lemma has_flag_bit x n : 0 ≤ n → has_flag x (2 ^ n) = Z.testbit x n.
Proof.
  intros Hn. unfold has_flag. rewrite land_bit by done. pose proof (Z.pow_pos_nonneg 2 n). case_match; [|done].
  by destruct (Z.eqb_spec (2 ^ n) 0); [lia|].
Qed.

Lemma land_flag x n : 0 ≤ n → x .& 2 ^ n = if has_flag x (2 ^ n) then 2 ^ n else 0.
Proof. intros Hn. by rewrite has_flag_bit, land_bit. Qed.

Lemma reg_bit3 r : is_reg r → r .& 8 = if 8 <=? r then 8 else 0.
Proof.
  intros Hr. change 8 with (2 ^ 3) at 1. rewrite land_bit by lia. rewrite Z.testbit_odd, Z.shiftr_div_pow2 by lia.
  change (2 ^ 3) with 8. unfold is_reg in Hr. destruct (Z.leb_spec 8 r).
  - by replace (r / 8) with 1 by lia.
  - by replace (r / 8) with 0 by lia.
Qed.

Lemma low_reg r : LOWREGMASK r = r `mod` 8.
Proof. apply (land_low r 3). lia. Qed.

(** The three fields of a ModRM or SIB byte. *)
Lemma modrm_byte md a b : 0 ≤ md < 4 → 0 ≤ a < 8 → 0 ≤ b < 8 → 64 * md .| (a <<. 3) .| b = 64 * md + 8 * a + b.
Proof.
  intros Hm Ha Hb. rewrite Z.shiftl_mul_pow2 by lia. change (2 ^ 3) with 8.
  rewrite (lor_disjoint_add (64 * md) (a * 8) 6), (lor_disjoint_add (64 * md + a * 8) b 3); cbn; lia.
Qed.

(** ** Prefixes and opcode *)

Lemma skip_yes b l : skip b (b :: l) = Some (true, l).
Proof. cbn. by rewrite Z.eqb_refl. Qed.

Lemma skip_no b c l : c ≠ b → skip b (c :: l) = Some (false, c :: l).
Proof. intros Hc%Z.eqb_neq. cbn. by rewrite Hc. Qed.

Lemma rex_yes v l : 0 ≤ v < 16 → rex (0x40 + v :: l) = Some (Some v, l).
Proof.
  intros Hv. unfold rex. replace ((0x40 + v) / 16) with 4 by lia. replace ((0x40 + v) `mod` 16) with v by lia. done.
Qed.

Lemma rex_no c l : c / 16 ≠ 4 → rex (c :: l) = Some (None, c :: l).
Proof. intros Hc%Z.eqb_neq. cbn -[Z.div]. by rewrite Hc. Qed.

Section opcode.
  Context (opc r rm x : Z).

(** Whether a byte register needs a REX prefix. *)
Definition byte_rex : bool := has_flag opc P_REXB_R && (4 <=? r) || has_flag opc P_REXB_RM && (4 <=? rm).
Definition rex_nibble (w a b c : bool) : Z := 8 * b2z w + 4 * b2z a + 2 * b2z b + b2z c.
Definition opc_rex : option Z :=
  if has_flag opc P_REXW || (8 <=? r) || (8 <=? x) || (8 <=? rm) || byte_rex
  then Some (rex_nibble (has_flag opc P_REXW) (8 <=? r) (8 <=? x) (8 <=? rm)) else None.
Definition opc_pfx : prefixes := mkPfx (has_flag opc P_DATA16) false opc_rex.
Definition opc_bytes : list Z :=
  (if has_flag opc P_DATA16 then [0x66] else []) ++ (match opc_rex with Some v => [0x40 + v] | None => [] end) ++
  (if has_flag opc P_EXT then [0x0f] else []) ++ [u8 opc].

(** The bytes that are not prefixes. *)
Definition opc_ok : bool :=
  negb (has_flag opc P_ADDR32) && negb (has_flag opc P_DATA16 && has_flag opc P_REXW) &&
  (has_flag opc P_EXT || negb (u8 opc =? 0x66) && negb (u8 opc =? 0x67) && negb (u8 opc / 16 =? 4) && negb (u8 opc =? 0x0f)).
Definition opc_form : option form := if has_flag opc P_EXT then form2 (u8 opc) else form1 (u8 opc).
Definition opc_width : width := if has_flag opc P_REXW then W64 else if has_flag opc P_DATA16 then W16 else W32.

Lemma opc_bytes_length : (length opc_bytes ≤ 4)%nat.
Proof. unfold opc_bytes. destruct (has_flag opc P_DATA16), opc_rex, (has_flag opc P_EXT); cbn; lia. Qed.

Lemma opc_rex_range v : opc_rex = Some v → 0 ≤ v < 16.
Proof.
  unfold opc_rex, rex_nibble. case_match; [|done]. intros [= <-].
  destruct (has_flag opc P_REXW), (8 <=? r), (8 <=? x), (8 <=? rm); cbn; lia.
Qed.

Lemma opcode_bytes t : opc_ok = true → opcode (opc_bytes ++ t) = Some (opc_pfx, has_flag opc P_EXT, u8 opc, t).
Proof.
  unfold opc_ok, opc_bytes, opc_pfx, opcode. pose proof opc_rex_range as Hv. generalize (u8 opc). intros b.
  rewrite !andb_true_iff, !orb_true_iff, !andb_true_iff, !negb_true_iff, !Z.eqb_neq. intros [_ He].
  assert (∃ c l, (if has_flag opc P_EXT then [0x0f] else []) ++ b :: t = c :: l ∧ c ≠ 0x66 ∧ c ≠ 0x67 ∧ c / 16 ≠ 4 ∧
    skip 0x0f (c :: l) ≫= (λ '(e, l), '(b, l) ← next l; Some (e, b, l)) = Some (has_flag opc P_EXT, b, t)) as (c & l & Hl & H1 & H2 & H3 & Hs).
  { destruct (has_flag opc P_EXT); [by eexists _, _|]. destruct He as [|[[[H1 H2] H3] H4]]; [done|].
    eexists _, _. split_and!; try done. by rewrite skip_no. }
  rewrite <- !app_assoc. cbn [app]. rewrite Hl.
  destruct (skip 0x0f (c :: l)) as [[e l1]|] eqn:Es; [|done]. cbn [mbind option_bind] in Hs.
  destruct (next l1) as [[b1 l2]|] eqn:En; [|done]. injection Hs as -> -> ->.
  destruct opc_rex as [v|]; cbn [app].
  - specialize (Hv v eq_refl).
    destruct (has_flag opc P_DATA16); cbn [app]; [rewrite skip_yes|rewrite skip_no by lia]; cbn [mbind option_bind];
      rewrite skip_no by lia; cbn [mbind option_bind]; rewrite rex_yes by done; cbn [mbind option_bind]; rewrite Es; cbn;
      by rewrite En.
  - destruct (has_flag opc P_DATA16); cbn [app]; [rewrite skip_yes|rewrite skip_no by done]; cbn [mbind option_bind];
      rewrite skip_no by done; cbn [mbind option_bind]; rewrite rex_no by done; cbn [mbind option_bind]; rewrite Es; cbn;
      by rewrite En.
Qed.

Lemma opsize_pfx : opsize opc_pfx = opc_width.
Proof.
  unfold opsize, opc_pfx, opc_width, rex_bit, opc_rex. cbn [p_rex p_data16].
  destruct (has_flag opc P_REXW), (8 <=? r), (8 <=? x), (8 <=? rm), byte_rex; done.
Qed.

Lemma rex_bits : rex_bit 2 opc_pfx = (8 <=? r) ∧ rex_bit 1 opc_pfx = (8 <=? x) ∧ rex_bit 0 opc_pfx = (8 <=? rm).
Proof.
  unfold opc_pfx, rex_bit, opc_rex. cbn [p_rex].
  destruct (has_flag opc P_REXW), (8 <=? r), (8 <=? x), (8 <=? rm), byte_rex; done.
Qed.

Lemma rex_reg_join i a : is_reg a → rex_bit i opc_pfx = (8 <=? a) → rex_reg i (a `mod` 8) opc_pfx = a.
Proof. unfold rex_reg, is_reg. intros Ha ->. destruct (Z.leb_spec 8 a); lia. Qed.

Context (Hr : is_reg r) (Hm : is_reg rm) (Hx : is_reg x).

Lemma rex_reg_r : rex_reg 2 (r `mod` 8) opc_pfx = r.
Proof. by apply rex_reg_join; [|apply rex_bits]. Qed.
Lemma rex_reg_x : rex_reg 1 (x `mod` 8) opc_pfx = x.
Proof. by apply rex_reg_join; [|apply rex_bits]. Qed.
Lemma rex_reg_rm : rex_reg 0 (rm `mod` 8) opc_pfx = rm.
Proof. by apply rex_reg_join; [|apply rex_bits]. Qed.

(** With P_REXB_R or P_REXB_RM the operand is the low byte. *)
Lemma byte_operand_r : has_flag opc P_REXB_R = true → byte_operand opc_pfx (OReg r) = OReg r.
Proof.
  unfold byte_operand, opc_pfx, opc_rex, byte_rex. cbn [p_rex]. intros ->. destruct (Z.leb_spec 4 r); cbn; [|by case_match].
  by rewrite !orb_true_r.
Qed.
Lemma byte_operand_rm : has_flag opc P_REXB_RM = true → byte_operand opc_pfx (OReg rm) = OReg rm.
Proof.
  unfold byte_operand, opc_pfx, opc_rex, byte_rex. cbn [p_rex]. intros ->. destruct (Z.leb_spec 4 rm); cbn; [|by case_match].
  by rewrite !orb_true_r.
Qed.

Lemma rex_value :
  let rex := (opc .& P_REXW) >>. 8 .| (r .& 8) >>. 1 .| (x .& 8) >>. 2 .| (rm .& 8) >>. 3 .|
             (opc .& (if 4 <=? r then P_REXB_R else 0)) .| (opc .& (if 4 <=? rm then P_REXB_RM else 0)) in
  match opc_rex with Some v => rex =? 0 = false ∧ u8 (rex .| 0x40) = 0x40 + v | None => rex =? 0 = true end.
Proof.
  cbv zeta. rewrite !reg_bit3 by done. unfold opc_rex, byte_rex.
  pose proof (land_flag opc 11 ltac:(lia)) as Hw. change (2 ^ 11) with P_REXW in Hw. rewrite Hw. clear Hw.
  replace (opc .& (if 4 <=? r then P_REXB_R else 0)) with (if has_flag opc P_REXB_R && (4 <=? r) then P_REXB_R else 0).
  2: { destruct (4 <=? r); [|by rewrite andb_false_r, Z.land_0_r]. rewrite andb_true_r. symmetry. by apply (land_flag opc 12). }
  replace (opc .& (if 4 <=? rm then P_REXB_RM else 0)) with (if has_flag opc P_REXB_RM && (4 <=? rm) then P_REXB_RM else 0).
  2: { destruct (4 <=? rm); [|by rewrite andb_false_r, Z.land_0_r]. rewrite andb_true_r. symmetry. by apply (land_flag opc 13). }
  destruct (has_flag opc P_REXW), (has_flag opc P_REXB_R && (4 <=? r)), (has_flag opc P_REXB_RM && (4 <=? rm)),
    (8 <=? r), (8 <=? x), (8 <=? rm); vm_compute; done.
Qed.

Lemma opc_writes : opc_ok = true → writes (λ s, tcg_out_opc s opc r rm x) opc_bytes.
Proof.
  intros Ho s. unfold tcg_out_opc, opc_bytes. pose proof rex_value as Hv. cbv zeta in Hv |- *.
  unfold opc_ok in Ho. rewrite !andb_true_iff, !negb_true_iff in Ho. destruct Ho as [[Ha Hd] _].
  rewrite Ha. clear Ha. revert Hd. unfold has_flag at 2. rewrite andb_false_iff, negb_false_iff. intros Hd.
  assert ((if has_flag opc P_DATA16 then _ <- assert_ (opc .& P_REXW =? 0) ;; Ok (tcg_out8 s 0x66) else Ok s)
          = Ok (emit s (if has_flag opc P_DATA16 then [0x66] else []))) as ->.
  { destruct (has_flag opc P_DATA16); [|by rewrite <- writes_nil]. destruct Hd as [Hd|Hd]; [done|by rewrite Hd]. }
  cbn [rbind]. unfold tcg_out8. rewrite !wrap_wrap. destruct opc_rex as [v|]; [destruct Hv as [-> ->]|rewrite Hv];
    destruct (has_flag opc P_EXT); rewrite !emit_emit; by rewrite <- ?app_assoc.
Qed.


End opcode.

(** ** Operands *)

Section operands.
  Context (opc r : Z) (Ho : opc_ok opc = true) (Hr : is_reg r).

Lemma decode_opc rm x f t :
  is_reg rm → is_reg x → opc_form opc = Some f → decode (opc_bytes opc r rm x ++ t) = operands (opc_pfx opc r rm x) f t.
Proof.
  intros Hm Hx Hf. unfold decode. rewrite opcode_bytes by done. cbn [mbind option_bind opc_pfx p_addr32].
  unfold opc_form in Hf. by rewrite Hf.
Qed.

(** The bytes [l] after the opcode are the operands [r] and [o]. *)
Definition modrm_is (rm x : Z) (l : list Z) (o : operand) : Prop :=
  (length l ≤ 6)%nat ∧ ∀ t, modrm (opc_pfx opc r rm x) (l ++ t) = Some (r, o, t).

Lemma encodes_modrm rm x l o n build v i :
  is_reg rm → is_reg x → modrm_is rm x l o → opc_form opc = Some (FModRM n build) → (n (opc_width opc) ≤ 4)%nat →
  build (opc_pfx opc r rm x) r o (sext (8 * n (opc_width opc)) v) = Some i →
  encodes (opc_bytes opc r rm x ++ l ++ le_bytes (n (opc_width opc)) v) i.
Proof.
  intros Hm Hx [Hl Hd] Hf Hn Hb. split.
  - rewrite !length_app, le_bytes_length. pose proof (opc_bytes_length opc r rm x). lia.
  - intros t. rewrite <- !app_assoc, (decode_opc rm x _ _ Hm Hx Hf). unfold operands.
    rewrite Hd. cbn [mbind option_bind]. rewrite opsize_pfx, imm_bytes_app. cbn [mbind option_bind]. by rewrite Hb.
Qed.

(** *** Registers *)

Definition reg_byte (rm : Z) : Z := 192 + 8 * (r `mod` 8) + rm `mod` 8.

Lemma modrm_reg rm : is_reg rm → modrm_is rm 0 [reg_byte rm] (OReg rm).
Proof.
  intros Hm. split; [cbn; lia|]. intros t. unfold modrm, reg_byte. cbn [app next mbind option_bind].
  replace ((192 + 8 * (r `mod` 8) + rm `mod` 8) / 64) with 3 by lia.
  replace (((192 + 8 * (r `mod` 8) + rm `mod` 8) / 8) `mod` 8) with (r `mod` 8) by lia.
  replace ((192 + 8 * (r `mod` 8) + rm `mod` 8) `mod` 8) with (rm `mod` 8) by lia.
  cbn [Z.eqb Pos.eqb]. by rewrite rex_reg_r, rex_reg_rm.
Qed.

Lemma modrm_writes rm : is_reg rm → writes (λ s, tcg_out_modrm s opc r rm) (opc_bytes opc r rm 0 ++ [reg_byte rm]).
Proof.
  intros Hm s. unfold tcg_out_modrm. rewrite (opc_writes opc r rm 0 Hr Hm ltac:(done) Ho). cbn [rbind].
  unfold tcg_out8. rewrite emit_emit, !low_reg. do 4 f_equal. change 0xc0 with (64 * 3). rewrite modrm_byte by lia.
  change (64 * 3) with 192. fold (reg_byte rm). apply wrap_small. unfold reg_byte. change (2 ^ 8) with 256. lia.
Qed.

(** *** Memory *)

Definition base_reg (rm : Z) : Z := if rm <? 0 then 5 else rm.

(** The address that the arguments of [tcg_out_modrm_sib_offset] stand for. *)
Definition sib_addr (rm index shift offset : Z) : addr :=
  mkAddr (if rm <? 0 then None else Some rm) (if index <? 0 then None else Some (index, shift)) (sext 32 offset) false.

(** The mode and the bytes of the offset. *)
Definition disp_of (rm offset : Z) : Z * list Z :=
  if rm <? 0 then (0, le_bytes 4 offset)
  else if (offset =? 0) && negb (rm `mod` 8 =? 5) then (0, [])
  else if offset =? sext 8 offset then (1, le_bytes 1 offset)
  else (2, le_bytes 4 offset).

Lemma sext8_32 v : v = sext 8 v → sext 32 v = v.
Proof. intros E. apply sext_small; [lia|]. pose proof (sext_range 8 v). cbn in *. lia. Qed.

Lemma disp_of_spec rm offset t :
  is_reg rm →
  disp (disp_of rm offset).1 ((disp_of rm offset).2 ++ t) = Some (sext 32 offset, t) ∧
  (0 ≤ (disp_of rm offset).1 < 3) ∧ (length (disp_of rm offset).2 ≤ 4)%nat ∧ ((disp_of rm offset).1 = 0 → rm `mod` 8 ≠ 5).
Proof.
  intros Hm. unfold disp_of, is_reg in *. destruct (Z.ltb_spec rm 0); [lia|].
  destruct ((offset =? 0) && negb (rm `mod` 8 =? 5)) eqn:E0; cbn [fst snd].
  { apply andb_true_iff in E0 as [->%Z.eqb_eq E5%negb_true_iff%Z.eqb_neq]. split_and!; [done|lia|lia|cbn; lia|done]. }
  destruct (Z.eqb_spec offset (sext 8 offset)) as [E8|_]; cbn [fst snd]; rewrite le_bytes_length;
    (split_and!; [|lia..]); unfold disp; cbn [Z.eqb Pos.eqb]; rewrite imm_bytes_app.
  - by change (8 * 1%nat) with 8; rewrite <- E8, sext8_32.
  - done.
Qed.

Lemma fields md a b :
  0 ≤ md < 4 → 0 ≤ a < 8 → 0 ≤ b < 8 →
  (64 * md + 8 * a + b) / 64 = md ∧ ((64 * md + 8 * a + b) / 8) `mod` 8 = a ∧ (64 * md + 8 * a + b) `mod` 8 = b.
Proof. lia. Qed.

Lemma mod8 a : 0 ≤ a `mod` 8 < 8.
Proof. lia. Qed.

(** A base register and an offset. *)
Lemma modrm_base rm offset :
  is_reg rm → rm `mod` 8 ≠ 4 →
  modrm_is rm 0 ((64 * (disp_of rm offset).1 + 8 * (r `mod` 8) + rm `mod` 8) :: (disp_of rm offset).2)
    (OMem (mkAddr (Some rm) None (sext 32 offset) false)).
Proof.
  intros Hm H4. split; [|intros t]; destruct (disp_of_spec rm offset []) as (_ & Hmd & Hl & H5); try done; [cbn; lia|].
  destruct (disp_of_spec rm offset t) as (Hd & _); try done. destruct (disp_of rm offset) as [md l]; cbn [fst snd] in *.
  destruct (fields md (r `mod` 8) (rm `mod` 8)) as (E1 & E2 & E3); [lia|apply mod8..|].
  unfold modrm. cbn [app next mbind option_bind]. rewrite E1, E2, E3.
  destruct (Z.eqb_spec md 3); [lia|]. destruct (Z.eqb_spec (rm `mod` 8) 4); [done|].
  replace ((md =? 0) && (rm `mod` 8 =? 5)) with false.
  2: { destruct (Z.eqb_spec md 0) as [E|]; [|done]. by destruct (Z.eqb_spec (rm `mod` 8) 5); [apply H5 in E|]. }
  rewrite Hd. cbn [mbind option_bind]. by rewrite rex_reg_r, rex_reg_rm.
Qed.

(** With a SIB byte; the index 4 stands for none. *)
Lemma modrm_sib rm x shift offset :
  is_reg rm → is_reg x → 0 ≤ shift < 4 →
  modrm_is rm x
    ((64 * (disp_of rm offset).1 + 8 * (r `mod` 8) + 4) :: (64 * shift + 8 * (x `mod` 8) + rm `mod` 8) :: (disp_of rm offset).2)
    (OMem (mkAddr (Some rm) (if x =? 4 then None else Some (x, shift)) (sext 32 offset) false)).
Proof.
  intros Hm Hx Hs. split; [|intros t]; destruct (disp_of_spec rm offset []) as (_ & Hmd & Hl & H5); try done; [cbn; lia|].
  destruct (disp_of_spec rm offset t) as (Hd & _); try done. destruct (disp_of rm offset) as [md l]; cbn [fst snd] in *.
  destruct (fields md (r `mod` 8) 4) as (E1 & E2 & E3); [lia|apply mod8|lia|].
  destruct (fields shift (x `mod` 8) (rm `mod` 8)) as (F1 & F2 & F3); [lia|apply mod8..|].
  unfold modrm. cbn [app next mbind option_bind]. rewrite E1, E2, E3, F1, F2, F3.
  destruct (Z.eqb_spec md 3); [lia|]. cbn [Z.eqb Pos.eqb].
  replace ((md =? 0) && (rm `mod` 8 =? 5)) with false.
  2: { destruct (Z.eqb_spec md 0) as [E|]; [|done]. by destruct (Z.eqb_spec (rm `mod` 8) 5); [apply H5 in E|]. }
  rewrite Hd. cbn [mbind option_bind]. by rewrite rex_reg_r, rex_reg_rm, rex_reg_x.
Qed.

(** No base. *)
Lemma modrm_no_base rm x shift offset :
  is_reg x → 0 ≤ shift < 4 →
  modrm_is rm x ((8 * (r `mod` 8) + 4) :: (64 * shift + 8 * (x `mod` 8) + 5) :: le_bytes 4 offset)
    (OMem (mkAddr None (if x =? 4 then None else Some (x, shift)) (sext 32 offset) false)).
Proof.
  intros Hx Hs. split; [cbn; lia|]. intros t.
  destruct (fields 0 (r `mod` 8) 4) as (E1 & E2 & E3); [lia|apply mod8|lia|]. rewrite Z.mul_0_r, Z.add_0_l in *.
  destruct (fields shift (x `mod` 8) 5) as (F1 & F2 & F3); [lia|apply mod8|lia|].
  unfold modrm. cbn [app next mbind option_bind]. rewrite E1, E2, E3, F1, F2, F3. cbn [Z.eqb Pos.eqb andb].
  rewrite imm_bytes_app. cbn [mbind option_bind]. by rewrite rex_reg_r, rex_reg_x by done.
Qed.

(** Relative to the next instruction. *)
Lemma modrm_rip rm x offset :
  modrm_is rm x ((8 * (r `mod` 8) + 5) :: le_bytes 4 offset) (OMem (mkAddr None None (sext 32 offset) true)).
Proof.
  split; [cbn; lia|]. intros t.
  destruct (fields 0 (r `mod` 8) 5) as (E1 & E2 & E3); [lia|apply mod8|lia|]. rewrite Z.mul_0_r, Z.add_0_l in *.
  unfold modrm. cbn [app next mbind option_bind]. rewrite E1, E2, E3. cbn [Z.eqb Pos.eqb andb].
  rewrite imm_bytes_app. cbn [mbind option_bind]. by rewrite rex_reg_r by done.
Qed.

Lemma emit_nil s : emit s [] = s.
Proof. destruct s. unfold emit. cbn. by rewrite Z.add_0_r. Qed.

(** The mode and the length of the offset as the code finds them. *)
Definition out_disp (rm offset : Z) : Z * Z * Z :=
  if rm <? 0 then (0, 4, 5)
  else if (offset =? 0) && negb (LOWREGMASK rm =? TCG_REG_EBP) then (0, 0, rm)
  else if offset =? sext 8 offset then (0x40, 1, rm)
  else (0x80, 4, rm).

Lemma out_disp_spec rm offset :
  ∃ len, out_disp rm offset = (64 * (disp_of rm offset).1, len, base_reg rm) ∧
    ∀ s, (if len =? 1 then tcg_out8 s offset else if len =? 4 then tcg_out32 s offset else s) = emit s (disp_of rm offset).2.
Proof.
  unfold out_disp, disp_of, base_reg. rewrite low_reg. change TCG_REG_EBP with 5.
  destruct (rm <? 0); [by exists 4|]. destruct ((offset =? 0) && negb (rm `mod` 8 =? 5)).
  - exists 0. split; [done|]. intros s. by rewrite emit_nil.
  - destruct (offset =? sext 8 offset); [by exists 1|by exists 4].
Qed.

Lemma out_byte s md a b : 0 ≤ md < 4 → 0 ≤ a < 8 → 0 ≤ b < 8 → tcg_out8 s (64 * md .| (a <<. 3) .| b) = emit s [64 * md + 8 * a + b].
Proof.
  intros Hm Ha Hb. unfold tcg_out8. rewrite modrm_byte by done. do 2 f_equal. apply wrap_small. change (2 ^ 8) with 256. lia.
Qed.

Lemma disp_mode rm offset : 0 ≤ (disp_of rm offset).1 < 3.
Proof. unfold disp_of. repeat case_match; cbn; lia. Qed.

(** The output of [tcg_out_modrm_sib_offset] with a base or an index. *)
Lemma sib_writes rm index shift offset :
  (is_reg rm ∨ rm < 0 ∧ 0 ≤ index) → (index < 0 ∨ is_reg index ∧ index ≠ 4) → 0 ≤ shift < 4 →
  ∃ x l, is_reg x ∧ modrm_is (base_reg rm) x l (OMem (sib_addr rm index shift offset)) ∧
    writes (λ s, tcg_out_modrm_sib_offset s opc r rm index shift offset) (opc_bytes opc r (base_reg rm) x ++ l).
Proof.
  intros Hb Hi Hs. unfold tcg_out_modrm_sib_offset.
  replace ((index <? 0) && (rm <? 0)) with false.
  2: { unfold is_reg in Hb. destruct (Z.ltb_spec index 0), (Z.ltb_spec rm 0); try done; lia. }
  fold (out_disp rm offset). destruct (out_disp_spec rm offset) as (len & -> & Hlen).
  assert (is_reg (base_reg rm)) as Hbr.
  { unfold base_reg, is_reg in *. destruct (Z.ltb_spec rm 0); lia. }
  pose proof (disp_mode rm offset) as Hmd. rewrite !low_reg.
  destruct ((index <? 0) && negb (base_reg rm `mod` 8 =? TCG_REG_ESP)) eqn:E.
  - (* single byte *)
    apply andb_true_iff in E as [Ei%Z.ltb_lt Eb%negb_true_iff%Z.eqb_neq]. destruct Hb as [Hb|]; [|lia].
    assert (base_reg rm = rm) as Erm by (unfold base_reg, is_reg in *; destruct (Z.ltb_spec rm 0); lia).
    eexists 0, _. split; [done|]. rewrite Erm in *. split.
    + unfold sib_addr. destruct (Z.ltb_spec rm 0); [unfold is_reg in Hb; lia|]. destruct (Z.ltb_spec index 0); [|lia].
      by apply modrm_base.
    + intros s. rewrite (opc_writes opc r rm 0 Hr Hb ltac:(done) Ho). cbn [rbind]. rewrite out_byte by (try apply mod8; lia).
      by rewrite Hlen, !emit_emit.
  - (* two bytes *)
    set (x := if index <? 0 then 4 else index).
    assert (is_reg x) as Hx by (unfold x, is_reg in *; destruct (Z.ltb_spec index 0); lia).
    assert ((if index <? 0 then Ok 4 else _ <- assert_ (negb (index =? TCG_REG_ESP)) ;; Ok index) = Ok x) as ->.
    { unfold x. destruct (Z.ltb_spec index 0); [done|]. destruct Hi as [|[_ Hi]]; [lia|].
      change TCG_REG_ESP with 4. by destruct (Z.eqb_spec index 4). }
    eexists x, (_ :: _ :: _). split; [done|]. split; [|intros s; cbn [rbind];
      rewrite (opc_writes opc r (base_reg rm) x Hr Hbr Hx Ho); cbn [rbind]; rewrite low_reg;
      rewrite out_byte by (try apply mod8; lia);
      replace (shift <<. 6) with (64 * shift) by (rewrite Z.shiftl_mul_pow2 by lia; lia);
      rewrite out_byte by (try apply mod8; lia); by rewrite Hlen, !emit_emit].
    assert ((if x =? 4 then None else Some (x, shift)) = if index <? 0 then None else Some (index, shift)) as Ex.
    { unfold x. destruct (Z.ltb_spec index 0); [done|]. destruct Hi as [|[_ Hi]]; [lia|]. by destruct (Z.eqb_spec index 4). }
    unfold sib_addr, base_reg in *. destruct (Z.ltb_spec rm 0) as [Hn|Hn].
    + unfold disp_of. destruct (Z.ltb_spec rm 0); [|lia]. cbn [fst snd].
      rewrite <- Ex. apply (modrm_no_base 5 x shift offset); done.
    + rewrite <- Ex. by apply modrm_sib.
Qed.

(** An opcode with the register [reg] in it. *)
Lemma encodes_opreg reg low n build v i :
  is_reg reg → r = 0 → low = reg `mod` 8 → opc_form opc = Some (FReg low n build) → (n (opc_width opc) ≤ 8)%nat →
  build (opc_pfx opc r reg 0) reg (sext (8 * n (opc_width opc)) v) = Some i →
  encodes (opc_bytes opc r reg 0 ++ le_bytes (n (opc_width opc)) v) i.
Proof.
  intros Hm Hr0 -> Hf Hn Hb. split.
  - rewrite !length_app, le_bytes_length. pose proof (opc_bytes_length opc r reg 0). lia.
  - intros t. rewrite <- !app_assoc, (decode_opc reg 0 _ _ Hm ltac:(done) Hf). unfold operands.
    rewrite opsize_pfx, imm_bytes_app. cbn [mbind option_bind]. rewrite rex_reg_rm by done. by rewrite Hb.
Qed.

(** An opcode without operands. *)
Lemma encodes_none n build v :
  r = 0 → opc_form opc = Some (FNone n build) → has_flag opc P_DATA16 = false → (n ≤ 8)%nat →
  encodes (opc_bytes opc r 0 0 ++ le_bytes n v) (build (sext (8 * n) v)).
Proof.
  intros Hr0 Hf Hd Hn. split.
  - rewrite !length_app, le_bytes_length. pose proof (opc_bytes_length opc r 0 0). lia.
  - intros t. rewrite <- !app_assoc, (decode_opc 0 0 _ _ ltac:(done) ltac:(done) Hf). unfold operands.
    cbn [opc_pfx p_data16]. by rewrite Hd, imm_bytes_app.
Qed.

End operands.
