(* ===== verification/X86Sem.v ===== *)
(** * Instructions of the code generator

    For each way in which the code generator writes an instruction, the
    instruction that the processor executes. *)

From stdpp Require Import base list functions.
From S2P Require Import Prelude TcgData TcgLive TcgSem X86Isa X86Out X86Enc.
Local Open Scope Z_scope.
Local Coercion Z.of_nat : nat >-> Z.
Local Ltac Zify.zify_post_hook ::= Z.to_euclidean_division_equations.

(** ** Forms of instructions *)

Definition codes (f : TCGOut → result TCGOut) (i : insn) : Prop := ∃ l, writes f l ∧ encodes l i.

Section forms.
  Context (opc r rm : Z) (Ho : opc_ok opc = true) (Hr : is_reg r) (Hm : is_reg rm).

Lemma codes_modrm n build i :
  opc_form opc = Some (FModRM n build) → n (opc_width opc) = 0%nat →
  build (opc_pfx opc r rm 0) r (OReg rm) (sext 0 0) = Some i → codes (λ s, tcg_out_modrm s opc r rm) i.
Proof.
  intros Hf Hn Hb. eexists. split; [by apply modrm_writes|].
  pose proof (encodes_modrm opc r Ho rm 0 _ _ n build 0 i Hm ltac:(done) (modrm_reg opc r Hr rm Hm) Hf) as He.
  rewrite Hn in He. rewrite app_nil_r in He. apply He; [lia|done].
Qed.

Lemma codes_modrm8 n build v i :
  opc_form opc = Some (FModRM n build) → n (opc_width opc) = 1%nat →
  build (opc_pfx opc r rm 0) r (OReg rm) (sext 8 v) = Some i →
  codes (λ s, s <- tcg_out_modrm s opc r rm ;; Ok (tcg_out8 s v)) i.
Proof.
  intros Hf Hn Hb. eexists. split; [by apply writes_bind; [by apply modrm_writes|apply writes_ret]|].
  pose proof (encodes_modrm opc r Ho rm 0 _ _ n build v i Hm ltac:(done) (modrm_reg opc r Hr rm Hm) Hf) as He.
  rewrite Hn in He. rewrite app_assoc in He. apply He; [lia|done].
Qed.

Lemma codes_modrm32 n build v i :
  opc_form opc = Some (FModRM n build) → n (opc_width opc) = 4%nat →
  build (opc_pfx opc r rm 0) r (OReg rm) (sext 32 v) = Some i →
  codes (λ s, s <- tcg_out_modrm s opc r rm ;; Ok (tcg_out32 s v)) i.
Proof.
  intros Hf Hn Hb. eexists. split; [by apply writes_bind; [by apply modrm_writes|apply writes_ret]|].
  pose proof (encodes_modrm opc r Ho rm 0 _ _ n build v i Hm ltac:(done) (modrm_reg opc r Hr rm Hm) Hf) as He.
  rewrite Hn in He. rewrite app_assoc in He. apply He; [lia|done].
Qed.

End forms.

Lemma codes_sib opc r rm index shift offset n build i :
  opc_ok opc = true → is_reg r → (is_reg rm ∨ rm < 0 ∧ 0 ≤ index) → (index < 0 ∨ is_reg index ∧ index ≠ 4) → 0 ≤ shift < 4 →
  opc_form opc = Some (FModRM n build) → n (opc_width opc) = 0%nat →
  (∀ x, build (opc_pfx opc r (base_reg rm) x) r (OMem (sib_addr rm index shift offset)) (sext 0 0) = Some i) →
  codes (λ s, tcg_out_modrm_sib_offset s opc r rm index shift offset) i.
Proof.
  intros Ho Hr Hm Hi Hs Hf Hn Hb.
  destruct (sib_writes opc r Ho Hr rm index shift offset Hm Hi Hs) as (x & l & Hx & Hl & Hw). eexists. split; [done|].
  assert (is_reg (base_reg rm)) as Hbr.
  { unfold base_reg, is_reg in *. destruct (Z.ltb_spec rm 0); lia. }
  pose proof (encodes_modrm opc r Ho (base_reg rm) x _ _ n build 0 i Hbr Hx Hl Hf) as He.
  rewrite Hn in He. rewrite app_nil_r in He. apply He; [lia|apply Hb].
Qed.

Lemma codes_offset opc r rm offset n build i :
  opc_ok opc = true → is_reg r → is_reg rm →
  opc_form opc = Some (FModRM n build) → n (opc_width opc) = 0%nat →
  (∀ x, build (opc_pfx opc r rm x) r (OMem (mkAddr (Some rm) None (sext 32 offset) false)) (sext 0 0) = Some i) →
  codes (λ s, tcg_out_modrm_offset s opc r rm offset) i.
Proof.
  intros Ho Hr Hm Hf Hn Hb. eapply (codes_sib opc r rm (-1) 0 offset); try done; [by left|left; lia|].
  intros x. unfold base_reg, sib_addr. destruct (Z.ltb_spec rm 0); [unfold is_reg in Hm; lia|]. apply Hb.
Qed.

Lemma codes_opreg opc reg n build v f i :
  opc_ok opc = true → is_reg reg → opc_form opc = Some (FReg (reg `mod` 8) n build) → (n (opc_width opc) ≤ 8)%nat →
  build (opc_pfx opc 0 reg 0) reg (sext (8 * n (opc_width opc)) v) = Some i →
  (∀ s, f s = Ok (emit s (le_bytes (n (opc_width opc)) v))) →
  codes (λ s, s <- tcg_out_opc s opc 0 reg 0 ;; f s) i.
Proof.
  intros Ho Hm Hf Hn Hb Hw. eexists. split.
  - apply writes_bind; [by apply (opc_writes opc 0 reg 0)|exact Hw].
  - eapply encodes_opreg; [done..|]. exact Hb.
Qed.

Lemma codes_bind_ok opc reg i :
  codes (λ s, s <- tcg_out_opc s opc 0 reg 0 ;; Ok s) i → codes (λ s, tcg_out_opc s opc 0 reg 0) i.
Proof.
  intros (l & Hw & He). exists l. split; [|done]. intros s. rewrite <- Hw. by destruct (tcg_out_opc s opc 0 reg 0).
Qed.

Lemma codes_none opc n build v f :
  opc_ok opc = true → opc_form opc = Some (FNone n build) → has_flag opc P_DATA16 = false → (n ≤ 8)%nat →
  (∀ s, f s = Ok (emit s (le_bytes n v))) →
  codes (λ s, s <- tcg_out_opc s opc 0 0 0 ;; f s) (build (sext (8 * n) v)).
Proof.
  intros Ho Hf Hd Hn Hw. eexists. split.
  - apply writes_bind; [by apply (opc_writes opc 0 0 0)|exact Hw].
  - by apply encodes_none.
Qed.

(** ** Instructions *)

Definition wd (ty : TCGType) : width := match ty with TCG_TYPE_I32 => W32 | TCG_TYPE_I64 => W64 end.

Lemma wbits_wd ty : wbits (wd ty) = bits ty.
Proof. by destruct ty. Qed.

(** An opcode with the prefix of the type. *)
Ltac code_rm :=
  first [eapply codes_modrm | eapply codes_modrm8 | eapply codes_modrm32]; try reflexivity; try assumption; try done;
  cbn; unfold build_movx, build_shift, build_grp3, build_grp5; rewrite ?opsize_pfx; try reflexivity.

Lemma arith_op op ty : 0 ≤ op < 8 → (op + type_rexw ty) .& .~ 7 = type_rexw ty ∧ (op + type_rexw ty) .& 7 = op.
Proof. intros H. destruct ty; (assert (op = 0 ∨ op = 1 ∨ op = 2 ∨ op = 3 ∨ op = 4 ∨ op = 5 ∨ op = 6 ∨ op = 7) as HH by lia;
  destruct_or! HH; subst op; done). Qed.

Lemma reg_cases d (P : Z → Prop) :
  is_reg d → P 0 → P 1 → P 2 → P 3 → P 4 → P 5 → P 6 → P 7 → P 8 → P 9 → P 10 → P 11 → P 12 → P 13 → P 14 → P 15 → P d.
Proof.
  intros Hd. intros. assert (d = 0 ∨ d = 1 ∨ d = 2 ∨ d = 3 ∨ d = 4 ∨ d = 5 ∨ d = 6 ∨ d = 7 ∨
    d = 8 ∨ d = 9 ∨ d = 10 ∨ d = 11 ∨ d = 12 ∨ d = 13 ∨ d = 14 ∨ d = 15) as HH by (unfold is_reg in Hd; lia).
  destruct_or! HH; by subst d.
Qed.

(** An opcode with a register; [v] is the immediate. *)
Ltac code_opreg v :=
  eapply (codes_opreg _ _ _ _ v);
  [reflexivity|done|reflexivity|apply Nat.leb_le; vm_compute; reflexivity
  |cbv beta; rewrite ?opsize_pfx; reflexivity|intros ?; first [done|by rewrite emit_nil]].

Section regs.
  Context (ty : TCGType) (d s : Z) (Hd : is_reg d) (Hs : is_reg s).

Lemma codes_arithr op : 0 ≤ op < 8 → codes (λ o, tgen_arithr o (op + type_rexw ty) d s) (IAlu op (wd ty) (OReg d) (SOp (OReg s))).
Proof.
  intros Hop. unfold tgen_arithr. destruct (arith_op op ty Hop) as [-> ->].
  assert (op = 0 ∨ op = 1 ∨ op = 2 ∨ op = 3 ∨ op = 4 ∨ op = 5 ∨ op = 6 ∨ op = 7) as HH by lia.
  destruct ty; destruct_or! HH; subst op; code_rm.
Qed.

Lemma codes_mov : codes (λ o, tcg_out_modrm o (OPC_MOVL_GvEv + type_rexw ty) d s) (IMov (wd ty) (OReg d) (SOp (OReg s))).
Proof. destruct ty; code_rm. Qed.

Lemma codes_test : codes (λ o, tcg_out_modrm o (OPC_TESTL + type_rexw ty) d s) (ITest (wd ty) (OReg s) (OReg d)).
Proof. destruct ty; code_rm. Qed.

Lemma codes_arith8 c v :
  0 ≤ c < 8 →
  codes (λ o, o <- tcg_out_modrm o (OPC_ARITH_EvIb + type_rexw ty) c d ;; Ok (tcg_out8 o v))
    (IAlu c (wd ty) (OReg d) (SImm (sext 8 v))).
Proof.
  intros Hc. assert (is_reg c) by (unfold is_reg; lia). destruct ty; code_rm; by rewrite Z.mod_small by lia.
Qed.

Lemma codes_arith32 c v :
  0 ≤ c < 8 →
  codes (λ o, o <- tcg_out_modrm o (OPC_ARITH_EvIz + type_rexw ty) c d ;; Ok (tcg_out32 o v))
    (IAlu c (wd ty) (OReg d) (SImm (sext 32 v))).
Proof.
  intros Hc. assert (is_reg c) by (unfold is_reg; lia). destruct ty; code_rm; by rewrite Z.mod_small by lia.
Qed.

Lemma codes_inc : codes (λ o, tcg_out_modrm o (OPC_GRP5 + type_rexw ty) EXT5_INC_Ev d) (IInc (wd ty) (OReg d)).
Proof. destruct ty; code_rm. Qed.
Lemma codes_dec : codes (λ o, tcg_out_modrm o (OPC_GRP5 + type_rexw ty) EXT5_DEC_Ev d) (IDec (wd ty) (OReg d)).
Proof. destruct ty; code_rm. Qed.
Lemma codes_jmp_reg : codes (λ o, tcg_out_modrm o OPC_GRP5 EXT5_JMPN_Ev d) (IJmpInd (OReg d)).
Proof. code_rm. Qed.
Lemma codes_call_reg : codes (λ o, tcg_out_modrm o OPC_GRP5 EXT5_CALLN_Ev d) (ICallInd (OReg d)).
Proof. code_rm. Qed.

(** The shifts that the operations use. *)
Definition is_shift (c : Z) : Prop := c ∈ [SHIFT_ROL; SHIFT_ROR; SHIFT_SHL; SHIFT_SHR; SHIFT_SAR].

Lemma codes_shift1 c : is_shift c → codes (λ o, tcg_out_modrm o (OPC_SHIFT_1 + type_rexw ty) c d) (IShift c (wd ty) (OReg d) (Some 1)).
Proof. intros Hc. unfold is_shift in Hc. repeat (apply elem_of_cons in Hc as [->|Hc]); [destruct ty; code_rm..|by apply elem_of_nil in Hc]. Qed.
Lemma codes_shift8 c v :
  is_shift c →
  codes (λ o, o <- tcg_out_modrm o (OPC_SHIFT_Ib + type_rexw ty) c d ;; Ok (tcg_out8 o v))
    (IShift c (wd ty) (OReg d) (Some (sext 8 v))).
Proof. intros Hc. unfold is_shift in Hc. repeat (apply elem_of_cons in Hc as [->|Hc]); [destruct ty; code_rm..|by apply elem_of_nil in Hc]. Qed.
Lemma codes_shift_cl c : is_shift c → codes (λ o, tcg_out_modrm o (OPC_SHIFT_cl + type_rexw ty) c d) (IShift c (wd ty) (OReg d) None).
Proof. intros Hc. unfold is_shift in Hc. repeat (apply elem_of_cons in Hc as [->|Hc]); [destruct ty; code_rm..|by apply elem_of_nil in Hc]. Qed.
Lemma codes_rolw : codes (λ o, tcg_out_rolw_8 o d) (IShift 0 W16 (OReg d) (Some 8)).
Proof. code_rm. Qed.

Lemma codes_neg : codes (λ o, tcg_out_modrm o (OPC_GRP3_Ev + type_rexw ty) EXT3_NEG d) (INeg (wd ty) (OReg d)).
Proof. destruct ty; code_rm. Qed.
Lemma codes_not : codes (λ o, tcg_out_modrm o (OPC_GRP3_Ev + type_rexw ty) EXT3_NOT d) (INot (wd ty) (OReg d)).
Proof. destruct ty; code_rm. Qed.
Lemma codes_div : codes (λ o, tcg_out_modrm o (OPC_GRP3_Ev + type_rexw ty) EXT3_DIV d) (IDiv false (wd ty) (OReg d)).
Proof. destruct ty; code_rm. Qed.
Lemma codes_idiv : codes (λ o, tcg_out_modrm o (OPC_GRP3_Ev + type_rexw ty) EXT3_IDIV d) (IDiv true (wd ty) (OReg d)).
Proof. destruct ty; code_rm. Qed.

Lemma codes_imul : codes (λ o, tcg_out_modrm o (OPC_IMUL_GvEv + type_rexw ty) d s) (IImul (wd ty) d (OReg d) (SOp (OReg s))).
Proof. destruct ty; code_rm. Qed.
Lemma codes_imul8 v :
  codes (λ o, o <- tcg_out_modrm o (OPC_IMUL_GvEvIb + type_rexw ty) d s ;; Ok (tcg_out8 o v))
    (IImul (wd ty) d (OReg s) (SImm (sext 8 v))).
Proof. destruct ty; code_rm. Qed.
Lemma codes_imul32 v :
  codes (λ o, o <- tcg_out_modrm o (OPC_IMUL_GvEvIz + type_rexw ty) d s ;; Ok (tcg_out32 o v))
    (IImul (wd ty) d (OReg s) (SImm (sext 32 v))).
Proof. destruct ty; code_rm. Qed.

Lemma codes_ext8u : codes (λ o, tcg_out_ext8u o d s) (IMovx false W32 W8 d (OReg s)).
Proof. unfold tcg_out_ext8u. code_rm. by rewrite byte_operand_rm. Qed.
Lemma codes_ext8s : codes (λ o, tcg_out_ext8s o d s (type_rexw ty)) (IMovx true (wd ty) W8 d (OReg s)).
Proof. unfold tcg_out_ext8s. destruct ty; code_rm; by rewrite byte_operand_rm. Qed.
Lemma codes_ext16u : codes (λ o, tcg_out_ext16u o d s) (IMovx false W32 W16 d (OReg s)).
Proof. unfold tcg_out_ext16u. code_rm. Qed.
Lemma codes_ext16s : codes (λ o, tcg_out_ext16s o d s (type_rexw ty)) (IMovx true (wd ty) W16 d (OReg s)).
Proof. unfold tcg_out_ext16s. destruct ty; code_rm. Qed.
Lemma codes_ext32u : codes (λ o, tcg_out_ext32u o d s) (IMov W32 (OReg d) (SOp (OReg s))).
Proof. unfold tcg_out_ext32u. code_rm. Qed.
Lemma codes_ext32s : codes (λ o, tcg_out_ext32s o d s) (IMovx true W64 W32 d (OReg s)).
Proof. unfold tcg_out_ext32s. code_rm. Qed.

Lemma codes_setcc c : codes (λ o, tcg_out_modrm o (OPC_SETCC .| tcg_cond_to_jcc c) 0 d) (ISetcc (tcg_cond_to_jcc c) (OReg d)).
Proof. assert (is_reg 0) by done. destruct c; code_rm; by rewrite byte_operand_rm. Qed.

(** *** Registers in the opcode *)

Lemma codes_movl v :
  codes (λ o, o <- tcg_out_opc o (OPC_MOVL_Iv + LOWREGMASK d) 0 d 0 ;; Ok (tcg_out32 o v)) (IMov W32 (OReg d) (SImm (sext 32 v))).
Proof. pattern d. apply (reg_cases d _ Hd); code_opreg v. Qed.

Lemma codes_movq v :
  codes (λ o, o <- tcg_out_opc o (OPC_MOVL_Iv + P_REXW + LOWREGMASK d) 0 d 0 ;; Ok (tcg_out32 (tcg_out32 o v) (v >>. 31 >>. 1)))
    (IMov W64 (OReg d) (SImm (sext 64 v))).
Proof.
  assert (∀ s, Ok (tcg_out32 (tcg_out32 s v) (v >>. 31 >>. 1)) = Ok (emit s (le_bytes 8 v))) as Hw.
  { intros o. unfold tcg_out32. rewrite emit_emit. rewrite Z.shiftr_shiftr by lia. rewrite Z.shiftr_div_pow2 by lia.
    do 3 f_equal. cbn [le_bytes app]. rewrite !Z.div_div by lia. done. }
  pattern d. apply (reg_cases d _ Hd); code_opreg v.
Qed.

Lemma codes_movl_iz v :
  codes (λ o, o <- tcg_out_modrm o (OPC_MOVL_EvIz + P_REXW) 0 d ;; Ok (tcg_out32 o v)) (IMov W64 (OReg d) (SImm (sext 32 v))).
Proof. assert (is_reg 0) by done. code_rm. Qed.

Lemma codes_bswap32 : codes (λ o, tcg_out_bswap32 o d) (IBswap W32 d).
Proof. pattern d. apply (reg_cases d _ Hd); apply codes_bind_ok; code_opreg 0. Qed.
Lemma codes_bswap64 : codes (λ o, tcg_out_bswap64 o d) (IBswap W64 d).
Proof. pattern d. apply (reg_cases d _ Hd); apply codes_bind_ok; code_opreg 0. Qed.
Lemma codes_push : codes (λ o, tcg_out_push o d) (IPush (SOp (OReg d))).
Proof. pattern d. apply (reg_cases d _ Hd); apply codes_bind_ok; code_opreg 0. Qed.
Lemma codes_pop : codes (λ o, tcg_out_pop o d) (IPop d).
Proof. pattern d. apply (reg_cases d _ Hd); apply codes_bind_ok; code_opreg 0. Qed.

End regs.

(** *** Memory *)

Section mem.
  Context (ty : TCGType) (r rm off : Z) (Hr : is_reg r) (Hm : is_reg rm).
  Notation at_off := (OMem (mkAddr (Some rm) None (sext 32 off) false)).

Ltac code_off := eapply codes_offset; try done; intros x; cbn; unfold build_movx; by rewrite ?opsize_pfx.

Lemma codes_ld : codes (λ s, tcg_out_ld s ty r rm off) (IMov (wd ty) (OReg r) (SOp at_off)).
Proof. unfold tcg_out_ld. destruct ty; code_off. Qed.
Lemma codes_st : codes (λ s, tcg_out_st s ty r rm off) (IMov (wd ty) at_off (SOp (OReg r))).
Proof. unfold tcg_out_st. destruct ty; code_off. Qed.
Lemma codes_movzbl : codes (λ s, tcg_out_modrm_offset s OPC_MOVZBL r rm off) (IMovx false W32 W8 r at_off).
Proof. eapply codes_offset; try done. intros x. cbn. unfold build_movx, byte_operand. rewrite opsize_pfx. by case_match. Qed.
Lemma codes_movsbl : codes (λ s, tcg_out_modrm_offset s (OPC_MOVSBL + type_rexw ty) r rm off) (IMovx true (wd ty) W8 r at_off).
Proof. destruct ty; (eapply codes_offset; try done); intros x; cbn; unfold build_movx, byte_operand; rewrite opsize_pfx; by case_match. Qed.
Lemma codes_movzwl : codes (λ s, tcg_out_modrm_offset s OPC_MOVZWL r rm off) (IMovx false W32 W16 r at_off).
Proof. code_off. Qed.
Lemma codes_movswl : codes (λ s, tcg_out_modrm_offset s (OPC_MOVSWL + type_rexw ty) r rm off) (IMovx true (wd ty) W16 r at_off).
Proof. destruct ty; code_off. Qed.
Lemma codes_movslq : codes (λ s, tcg_out_modrm_offset s OPC_MOVSLQ r rm off) (IMovx true W64 W32 r at_off).
Proof. code_off. Qed.
Lemma codes_movb : codes (λ s, tcg_out_modrm_offset s (OPC_MOVB_EvGv + P_REXB_R) r rm off) (IMov W8 at_off (SOp (OReg r))).
Proof.
  eapply codes_offset; try done. intros x. cbn [form1]. rewrite byte_operand_r by done. unfold byte_operand. by case_match.
Qed.
Lemma codes_movw : codes (λ s, tcg_out_modrm_offset s (OPC_MOVL_EvGv + P_DATA16) r rm off) (IMov W16 at_off (SOp (OReg r))).
Proof. code_off. Qed.
Lemma codes_lea index :
  index < 0 ∨ is_reg index ∧ index ≠ 4 →
  codes (λ s, tcg_out_modrm_sib_offset s (OPC_LEA + type_rexw ty) r rm index 0 off) (ILea (wd ty) r (sib_addr rm index 0 off)).
Proof. intros Hi. destruct ty; (eapply codes_sib; [done|done|by left|done|done|reflexivity|done|]); intros x; cbn; by rewrite opsize_pfx. Qed.

End mem.
