(* ===== verification/TcgOps.v ===== *)
(** * Meaning of the TCG operations

    The values that the operations on registers compute, after tcg/README.
    [None]: the behaviour is undefined. *)

From stdpp Require Import base list.
From S2P Require Import Prelude TcgData TcgLive TcgSem X86Isa X86Out X86Op.
Local Open Scope Z_scope.

Definition cond_holds (c : TCGCond) (n a b : Z) : bool :=
  match c with
  | TCG_COND_EQ => wrap n a =? wrap n b
  | TCG_COND_NE => negb (wrap n a =? wrap n b)
  | TCG_COND_LT => sext n a <? sext n b
  | TCG_COND_GE => sext n b <=? sext n a
  | TCG_COND_LE => sext n a <=? sext n b
  | TCG_COND_GT => sext n b <? sext n a
  | TCG_COND_LTU => wrap n a <? wrap n b
  | TCG_COND_GEU => wrap n b <=? wrap n a
  | TCG_COND_LEU => wrap n a <=? wrap n b
  | TCG_COND_GTU => wrap n b <? wrap n a
  end.

(** A shift by the value [b], which is less than the number of bits. *)
Definition shift_by (n b : Z) (f : Z → Z) : option (list Z) :=
  let c := wrap n b in if c <? n then Some [f c] else None.

(** A byte swap of the low [k] bytes; the others are zero. *)
Definition swap_low (n : Z) (k : nat) (a : Z) : option (list Z) :=
  if wrap n a <? 2 ^ (8 * Z.of_nat k) then Some [le_val (rev (le_bytes k a))] else None.

(** The double-word division of div2 and divu2: [a / b] and [a % b]. *)
Definition div_values (sgn : bool) (n lo hi b : Z) : option (list Z) :=
  if sgn then
    let a := sext (2 * n) (hi * 2 ^ n + wrap n lo) in
    let d := sext n b in
    if (d =? 0) || negb ((- 2 ^ (n - 1) <=? Z.quot a d) && (Z.quot a d <? 2 ^ (n - 1))) then None
    else Some [Z.quot a d; Z.rem a d]
  else
    let a := wrap n hi * 2 ^ n + wrap n lo in
    let d := wrap n b in
    if (d =? 0) || (2 ^ n <=? a / d) then None else Some [a / d; a `mod` d].

Definition op_result (o : opname) (ty : TCGType) (cargs ins : list Z) : option (list Z) :=
  let n := bits ty in
  match o, cargs, ins with
  | op_movi, [v], [] => Some [v]
  | op_add, [], [a; b] => Some [a + b]
  | op_sub, [], [a; b] => Some [a - b]
  | op_mul, [], [a; b] => Some [a * b]
  | op_neg, [], [a] => Some [- a]
  | op_div2, [], [lo; hi; b] => div_values true n lo hi b
  | op_divu2, [], [lo; hi; b] => div_values false n lo hi b
  | op_and, [], [a; b] => Some [a .& b]
  | op_or, [], [a; b] => Some [a .| b]
  | op_xor, [], [a; b] => Some [a .^ b]
  | op_not, [], [a] => Some [.~ a]
  | op_shl, [], [a; b] => shift_by n b (λ c, a * 2 ^ c)
  | op_shr, [], [a; b] => shift_by n b (λ c, wrap n a / 2 ^ c)
  | op_sar, [], [a; b] => shift_by n b (λ c, sext n a / 2 ^ c)
  | op_rotl, [], [a; b] => shift_by n b (λ c, a * 2 ^ c + wrap n a / 2 ^ (n - c))
  | op_rotr, [], [a; b] => shift_by n b (λ c, wrap n a / 2 ^ c + a * 2 ^ (n - c))
  | op_ext8s, [], [a] => Some [sext 8 a]
  | op_ext16s, [], [a] => Some [sext 16 a]
  | op_ext32s, [], [a] => Some [sext 32 a]
  | op_ext8u, [], [a] => Some [u8 a]
  | op_ext16u, [], [a] => Some [u16 a]
  | op_ext32u, [], [a] => Some [u32 a]
  | op_bswap16, [], [a] => swap_low n 2 a
  | op_bswap32, [], [a] => swap_low n 4 a
  | op_bswap64, [], [a] => swap_low n 8 a
  | op_setcond, [c], [a; b] =>
      match cond_of c with Ok c => Some [b2z (cond_holds c n a b)] | Er _ => None end
  | _, _, _ => None
  end.
