(* ===== verification/X86Val.v ===== *)
(** * What the emitted instructions compute

    The values that the code for an operation leaves in the registers, for the
    operations that neither access memory nor jump. *)

From stdpp Require Import base list functions.
From S2P Require Import Prelude TcgData TcgLive TcgSem X86Isa X86Out X86Op X86Enc X86Sem TcgOps.
Local Open Scope Z_scope.
Local Coercion Z.of_nat : nat >-> Z.

(** ** Numbers *)

Lemma wrap_le n m z : 0 ≤ n ≤ m → wrap n (wrap m z) = wrap n z.
Proof. intros H. unfold wrap. apply Z.mod_mod_divide. exists (2 ^ (m - n)). rewrite <- Z.pow_add_r by lia. f_equal. lia. Qed.

Lemma wrap_ge n m z : 0 ≤ n ≤ m → wrap m (wrap n z) = wrap n z.
Proof. intros H. apply wrap_small. pose proof (wrap_range n z ltac:(lia)). pose proof (Z.pow_le_mono_r 2 n m). lia. Qed.

Lemma wrap_sext n m z : 0 ≤ n ≤ m → wrap n (sext m z) = wrap n z.
Proof.
  intros H. rewrite <- (wrap_le n m z) by done. unfold sext. fold (wrap m z). case_match; [done|].
  rewrite <- (wrap_le n m (_ - _)) by done. f_equal. unfold wrap at 1.
  replace (wrap m z - 2 ^ m) with (wrap m z + -1 * 2 ^ m) by lia. rewrite Z.mod_add by (apply Z.pow_nonzero; lia). apply wrap_wrap.
Qed.

Lemma wrap_testbit n z i : 0 ≤ n → Z.testbit (wrap n z) i = bool_decide (i < n) && Z.testbit z i.
Proof.
  intros Hn. unfold wrap. destruct (decide (i < 0)) as [Hi|Hi].
  { rewrite !Z.testbit_neg_r by lia. by rewrite andb_false_r. }
  case_bool_decide; [by rewrite Z.mod_pow2_bits_low|rewrite Z.mod_pow2_bits_high; [done|lia]].
Qed.

(** A bitwise operation may ignore the high bits of its operands. *)
Lemma wrap_land n a b : 0 ≤ n → wrap n (wrap n a .& wrap n b) = wrap n (a .& b).
Proof.
  intros Hn. apply Z.bits_inj'. intros i _. rewrite !wrap_testbit, !Z.land_spec, !wrap_testbit by done.
  by case_bool_decide.
Qed.
Lemma wrap_lor n a b : 0 ≤ n → wrap n (wrap n a .| wrap n b) = wrap n (a .| b).
Proof.
  intros Hn. apply Z.bits_inj'. intros i _. rewrite !wrap_testbit, !Z.lor_spec, !wrap_testbit by done.
  by case_bool_decide.
Qed.
Lemma wrap_lxor n a b : 0 ≤ n → wrap n (wrap n a .^ wrap n b) = wrap n (a .^ b).
Proof.
  intros Hn. apply Z.bits_inj'. intros i _. rewrite !wrap_testbit, !Z.lxor_spec, !wrap_testbit by done.
  by case_bool_decide.
Qed.
Lemma wrap_lnot n a : 0 ≤ n → wrap n (.~ (wrap n a)) = wrap n (.~ a).
Proof.
  intros Hn. apply Z.bits_inj'. intros i Hi. rewrite !wrap_testbit, !Z.lnot_spec, !wrap_testbit by done.
  by case_bool_decide.
Qed.
Lemma wrap_mul n a b : wrap n (wrap n a * wrap n b) = wrap n (a * b).
Proof.
  unfold wrap. destruct (decide (n < 0)) as [Hn|Hn]; [by rewrite Z.pow_neg_r, !Zmod_0_r by lia|].
  symmetry. apply Z.mul_mod. apply Z.pow_nonzero; lia.
Qed.
Lemma wrap_add n a b : wrap n (wrap n a + wrap n b) = wrap n (a + b).
Proof. by rewrite wrap_add_l, wrap_add_r. Qed.
Lemma wrap_sub n a b : wrap n (wrap n a - wrap n b) = wrap n (a - b).
Proof. by rewrite wrap_sub_l, wrap_sub_r. Qed.
Lemma wrap_opp n a : wrap n (- wrap n a) = wrap n (- a).
Proof. rewrite <- !Z.sub_0_l. apply wrap_sub_r. Qed.

Lemma bits_range ty : bits ty = 32 ∨ bits ty = 64.
Proof. destruct ty; auto. Qed.

Lemma wrap_bits64 ty z : wrap (bits ty) (u64 z) = wrap (bits ty) z.
Proof. apply wrap_le. destruct ty; cbn; lia. Qed.

(** ** Effects *)

(** The value [v] of type [ty] in register [d], and nothing else but flags. *)
Record effect (ty : TCGType) (d v : Z) (x y : mach) : Prop := mkEff {
  eff_val : eqv ty (xr y d) v;
  eff_other r : r ≠ d → xr y r = xr x r;
  eff_mem : xm y = xm x
}.

Lemma effect_write ty d v x ip w u :
  w = W64 ∨ w = W32 → wrap (bits ty) (wrap (wbits w) u) = wrap (bits ty) v → effect ty d v x (write ip w (OReg d) u x).
Proof.
  intros Hw Hv. split.
  - unfold eqv, conv. cbn. rewrite fn_lookup_insert. by destruct Hw as [->| ->].
  - intros r Hr. cbn. by rewrite fn_lookup_insert_ne.
  - done.
Qed.

Lemma effect_flags ty d v x f y : effect ty d v x y → effect ty d v x (with_flags f y).
Proof. intros [H1 H2 H3]. by split. Qed.

Lemma effect_wd ty d v x ip u :
  wrap (bits ty) u = wrap (bits ty) v → effect ty d v x (write ip (wd ty) (OReg d) u x).
Proof.
  intros Hv. apply effect_write; [destruct ty; auto|]. rewrite wbits_wd. by rewrite wrap_wrap.
Qed.

Section exec.
  Context (undefined : insn → mach → flags).
  Notation does := (does undefined).
  Notation exec := (exec undefined).

Definition computes (f : TCGOut → result TCGOut) (ty : TCGType) (d v : Z) (x : mach) : Prop :=
  ∃ y, does f x y ∧ effect ty d v x y.

Lemma does_codes f i x y : codes f i → (∀ ip, exec ip i x = Some (ip, y)) → does f x y.
Proof. intros (l & Hw & He) Hx. by eapply does_one. Qed.

Lemma computes_codes f i ty d v x y :
  codes f i → (∀ ip, exec ip i x = Some (ip, y)) → effect ty d v x y → computes f ty d v x.
Proof. intros Hc Hx He. exists y. split; [by eapply does_codes|done]. Qed.

Lemma computes_eqv f ty d v v' x : eqv ty v v' → computes f ty d v x → computes f ty d v' x.
Proof. intros E (y & Hy & [H1 H2 H3]). exists y. split; [done|]. split; [by rewrite <- E|done..]. Qed.

(** *** Arithmetic *)

Definition alu_value (op a b : Z) : Z :=
  if op =? ARITH_ADD then a + b else if op =? ARITH_OR then a .| b else if op =? ARITH_AND then a .& b
  else if op =? ARITH_XOR then a .^ b else a - b.

Definition is_alu (op : Z) : Prop := op ∈ [ARITH_ADD; ARITH_OR; ARITH_AND; ARITH_SUB; ARITH_XOR].

Lemma alu_wrap op ty a b c :
  is_alu op → wrap (bits ty) (alu op (bits ty) (wrap (bits ty) a) (wrap (bits ty) b) c).1 = wrap (bits ty) (alu_value op a b).
Proof.
  assert (0 ≤ bits ty) by (destruct ty; cbn; lia).
  intros Ho. unfold is_alu in Ho. repeat (apply elem_of_cons in Ho as [->|Ho]); [..|by apply elem_of_nil in Ho]; cbn [alu fst].
  - change (wrap (bits ty) (wrap (bits ty) (wrap (bits ty) a + wrap (bits ty) b)) = wrap (bits ty) (a + b)).
    by rewrite wrap_wrap, wrap_add.
  - by apply wrap_lor.
  - by apply wrap_land.
  - change (wrap (bits ty) (wrap (bits ty) (wrap (bits ty) a - wrap (bits ty) b)) = wrap (bits ty) (a - b)).
    by rewrite wrap_wrap, wrap_sub.
  - by apply wrap_lxor.
Qed.

Lemma is_alu_range op : is_alu op → 0 ≤ op < 7.
Proof. intros Ho. unfold is_alu in Ho. repeat (apply elem_of_cons in Ho as [->|Ho]); [by vm_compute..|by apply elem_of_nil in Ho]. Qed.

(** The instruction at the type [ty']; the result is the value at [ty]. *)
Lemma computes_alu f op ty ty' d src b v x :
  is_alu op → codes f (IAlu op (wd ty') (OReg d) src) → (∀ ip, read_src ip (wd ty') src x = wrap (bits ty') b) →
  wrap (bits ty) (wrap (bits ty') (alu_value op (xr x d) b)) = wrap (bits ty) v → computes f ty d v x.
Proof.
  intros Ho Hc Hs Hv. pose proof (is_alu_range op Ho) as Hr. eapply computes_codes; [done| |].
  - intros ip. cbn [X86Isa.exec]. rewrite Hs. destruct (alu _ _ _ _ _) as [res fl] eqn:E.
    destruct (Z.eqb_spec op 7); [lia|]. pose proof (f_equal fst E) as E1. pose proof (f_equal snd E) as E2. cbn [fst snd] in E1, E2.
    rewrite <- E1, <- E2. cbn [read write]. reflexivity.
  - apply effect_flags, (effect_write ty d v x 0 (wd ty')); [destruct ty'; auto|]. rewrite !wbits_wd.
    rewrite (alu_wrap op ty' (xr x d) b (fC (xf x)) Ho). exact Hv.
Qed.

Lemma computes_arithr op ty d r x :
  is_alu op → is_reg d → is_reg r →
  computes (λ s, tgen_arithr s (op + type_rexw ty) d r) ty d (alu_value op (xr x d) (xr x r)) x.
Proof.
  intros Ho Hd Hr. pose proof (is_alu_range op Ho). eapply computes_alu; [done|apply codes_arithr; [done..|lia]| |].
  - intros ip. cbn. by rewrite wbits_wd.
  - by rewrite wrap_wrap.
Qed.

Lemma arith_op' op ty : 0 ≤ op < 8 → (op + type_rexw ty) .& -8 = type_rexw ty.
Proof. intros Ho. by apply (arith_op op ty). Qed.

Lemma alu_value_wrap op ty a b c : is_alu op → wrap (bits ty) b = wrap (bits ty) c →
  wrap (bits ty) (alu_value op a b) = wrap (bits ty) (alu_value op a c).
Proof. intros Ho E. rewrite <- (alu_wrap op ty a b false Ho), <- (alu_wrap op ty a c false Ho). by rewrite E. Qed.

(** A mask without high bits. *)
Lemma land_u32 ty a v : 0 ≤ v < 2 ^ 32 → wrap (bits ty) (u32 (a .& v)) = wrap (bits ty) (a .& v).
Proof.
  intros Hv. f_equal. apply Z.bits_inj'. intros i Hi. rewrite wrap_testbit by lia. case_bool_decide as Hn; [done|].
  rewrite Z.land_spec, (testbit_small 32 v i) by lia. by rewrite andb_false_r.
Qed.

(** Whether a constant can be an operand. *)
Definition arith_const (op : Z) (ty : TCGType) (v : Z) : Prop :=
  ty = TCG_TYPE_I32 ∨ v = sext 32 v ∨ op = ARITH_AND ∧ v = u32 v.

Lemma computes_incdec f (inc : bool) ty d v x :
  codes f ((if inc then IInc else IDec) (wd ty) (OReg d)) → (v = if inc then xr x d + 1 else xr x d - 1) → computes f ty d v x.
Proof.
  intros Hc ->. destruct inc; (eapply computes_codes; [done|intros ip; cbn; reflexivity|]); apply effect_flags, (effect_wd ty d _ x 0);
    rewrite wbits_wd; [apply wrap_add_l|apply wrap_sub_l].
Qed.

Lemma computes_movzx f sw w' d r ty v x :
  codes f (IMovx false w' sw d (OReg r)) → w' = W32 ∨ w' = W64 → wrap (bits ty) (wrap (wbits w') (wrap (wbits sw) (xr x r))) = wrap (bits ty) v →
  computes f ty d v x.
Proof.
  intros Hc Hw Hv. eapply computes_codes; [done|intros ip; cbn; reflexivity|].
  by apply (effect_write ty d v x 0); [destruct Hw as [->| ->]; auto|].
Qed.

Lemma land_mask ty n a : 0 ≤ n → n ≤ bits ty → wrap (bits ty) (wrap n a) = wrap (bits ty) (a .& (2 ^ n - 1)).
Proof. intros Hn Hb. by rewrite land_low. Qed.

(** AND with a mask that is a move with zero extension. *)
Lemma computes_mask d v x ty (n : Z) f :
  v = 2 ^ n - 1 → n = 8 ∧ codes f (IMovx false W32 W8 d (OReg d)) ∨ n = 16 ∧ codes f (IMovx false W32 W16 d (OReg d)) ∨
                  n = 32 ∧ codes f (IMov W32 (OReg d) (SOp (OReg d))) →
  computes f ty d (xr x d .& v) x.
Proof.
  intros -> [[-> Hc]|[[-> Hc]|[-> Hc]]]; rewrite land_low by lia.
  - eapply computes_movzx; [done|auto|]. cbn [wbits]. f_equal. by apply wrap_ge.
  - eapply computes_movzx; [done|auto|]. cbn [wbits]. f_equal. by apply wrap_ge.
  - eapply computes_codes; [done|intros ip; cbn; reflexivity|]. apply (effect_write ty d _ x 0 W32); [auto|].
    cbn [wbits]. by rewrite wrap_wrap.
Qed.

(** The general case of [tgen_arithi]. *)
Lemma computes_arith_imm op ty ty' d v x :
  is_alu op → is_reg d → (ty' = TCG_TYPE_I32 ∨ v = sext 32 v) → ty' = ty ∨ op = ARITH_AND ∧ ty' = TCG_TYPE_I32 ∧ v = u32 v →
  computes (λ s, if v =? sext 8 v then s <- tcg_out_modrm s (OPC_ARITH_EvIb + type_rexw ty') op d ;; Ok (tcg_out8 s v)
                 else s <- tcg_out_modrm s (OPC_ARITH_EvIz + type_rexw ty') op d ;; Ok (tcg_out32 s v))
    ty d (alu_value op (xr x d) v) x.
Proof.
  intros Ho Hd Hv Ht. pose proof (is_alu_range op Ho).
  assert (wrap (bits ty) (wrap (bits ty') (alu_value op (xr x d) v)) = wrap (bits ty) (alu_value op (xr x d) v)) as Hr.
  { destruct Ht as [->|(-> & -> & Hu)]; [by rewrite wrap_wrap|]. apply land_u32. rewrite Hu. apply wrap_range. lia. }
  assert (0 ≤ bits ty' ≤ 64) by (destruct ty'; cbn; lia).
  destruct (Z.eqb_spec v (sext 8 v)) as [E|E].
  - eapply (computes_alu _ op ty ty' d (SImm (sext 8 v))); [done|apply codes_arith8; [done|lia]| |exact Hr].
    intros ip. cbn. by rewrite wbits_wd, <- E.
  - eapply (computes_alu _ op ty ty' d (SImm (sext 32 v))); [done|apply codes_arith32; [done|lia]| |exact Hr].
    intros ip. cbn. rewrite wbits_wd. destruct Hv as [->|Hv]; [by apply wrap_sext|by rewrite <- Hv].
Qed.

Lemma computes_arithi op ty d v x :
  is_alu op → is_reg d → arith_const op ty v →
  computes (λ s, tgen_arithi s (op + type_rexw ty) d v false) ty d (alu_value op (xr x d) v) x.
Proof.
  intros Ho Hd Hv. pose proof (is_alu_range op Ho) as Hr. unfold tgen_arithi.
  rewrite arith_op', (proj2 (arith_op op ty ltac:(lia))) by lia. cbn [negb andb].
  destruct (((op =? ARITH_ADD) || (op =? ARITH_SUB)) && ((v =? 1) || (v =? -1))) eqn:E1.
  { apply andb_true_iff in E1 as [Eo Ev]. apply orb_true_iff in Eo, Ev. rewrite !Z.eqb_eq in Eo, Ev.
    destruct Eo as [->| ->], Ev as [->| ->]; cbn [xorb Z.eqb Z.ltb Z.compare ARITH_ADD ARITH_SUB Pos.eqb];
      (apply (computes_incdec _ true); [by apply codes_inc|cbn; lia]) || (apply (computes_incdec _ false); [by apply codes_dec|cbn; lia]). }
  destruct (Z.eqb_spec op ARITH_AND) as [->|Hne]; cbn [andb].
  - destruct (Z.eqb_spec v 0xffffffff) as [->|_].
    { by apply (computes_mask d _ x ty 32); [|right; right; split; [|apply codes_ext32u]]. }
    destruct (Z.eqb_spec v 0xff) as [->|_].
    { by apply (computes_mask d _ x ty 8); [|left; split; [|apply codes_ext8u]]. }
    destruct (Z.eqb_spec v 0xffff) as [->|_].
    { by apply (computes_mask d _ x ty 16); [|right; left; split; [|apply codes_ext16u]]. }
    destruct (Z.eqb_spec v (u32 v)) as [Eu|Eu].
    + apply (computes_arith_imm ARITH_AND ty TCG_TYPE_I32 d v x); auto.
    + destruct ty; [apply (computes_arith_imm ARITH_AND TCG_TYPE_I32 TCG_TYPE_I32 d v x); auto|].
      destruct Hv as [|[Hv|[_ Hv]]]; [done| |done]. cbn [type_rexw]. rewrite (proj2 (Z.eqb_eq _ _) Hv), orb_true_r.
      apply (computes_arith_imm ARITH_AND TCG_TYPE_I64 TCG_TYPE_I64 d v x); auto.
  - destruct ty; [apply (computes_arith_imm op TCG_TYPE_I32 TCG_TYPE_I32 d v x); auto|].
    destruct Hv as [|[Hv|[? _]]]; [done| |done]. rewrite (proj2 (Z.eqb_eq _ _) Hv), orb_true_r.
    apply (computes_arith_imm op TCG_TYPE_I64 TCG_TYPE_I64 d v x); auto.
Qed.

End exec.
