(* ===== verification/X86Arith.v ===== *)
(** * Additions, shifts, extensions and comparisons in x86-64 code *)

From stdpp Require Import base list functions.
From S2P Require Import Prelude TcgData TcgLive TcgSem X86Isa X86Out X86Op X86Enc X86Sem TcgOps X86Val.
Local Open Scope Z_scope.
Local Coercion Z.of_nat : nat >-> Z.

Lemma sext_eq n a b : wrap n a = wrap n b → sext n a = sext n b.
Proof. unfold wrap, sext. by intros ->. Qed.

Lemma sext_sext n m z : 0 ≤ n ≤ m → sext n (sext m z) = sext n z.
Proof. intros H. apply sext_eq. by apply wrap_sext. Qed.

(** The value of an argument: a constant or a register. *)
Definition arg_val (x : mach) (a : Z) (const : bool) : Z := if const then a else xr x a.

(** A constant of an operation of type [ty] that is no longer than 32 bits. *)
Definition const32 (ty : TCGType) (a : Z) : Prop := ty = TCG_TYPE_I32 ∨ sext 64 a = sext 32 a.

Lemma const32_sext ty a : const32 ty a → ty = TCG_TYPE_I32 ∨ sext 64 a = sext 32 (sext 64 a).
Proof. intros [H|H]; [by left|right]. rewrite sext_sext by lia. done. Qed.

Lemma const32_wrap ty a : const32 ty a → wrap (bits ty) (sext 32 a) = wrap (bits ty) a.
Proof. intros [->|H]; [by apply wrap_sext|]. rewrite <- H. apply wrap_sext. destruct ty; cbn; lia. Qed.

Section exec.
  Context (undefined : insn → mach → flags) (ty : TCGType).
  Notation does := (does undefined).
  Notation computes := (computes undefined).
  Notation n := (bits ty).

(** ** Arithmetic *)

Lemma computes_gen_arith op d a (c : bool) x :
  is_alu op → is_reg d → (c = false → is_reg a) → (c = true → const32 ty a ∨ op = ARITH_AND ∧ sext 64 a = u32 a) →
  computes (λ s, gen_arith s op (type_rexw ty) d a c) ty d (alu_value op (xr x d) (arg_val x a c)) x.
Proof.
  intros Ho Hd Hr Hc. unfold gen_arith, arg_val. destruct c; [|by apply computes_arithr; auto].
  apply (computes_eqv _ _ _ _ (alu_value op (xr x d) (sext 64 a))).
  - apply (alu_value_wrap op ty); [done|]. apply wrap_sext. destruct ty; cbn; lia.
  - apply computes_arithi; [done..|]. destruct (Hc eq_refl) as [H|[-> H]].
    + destruct (const32_sext _ _ H) as [->|H']; [by left|by right; left].
    + right; right. split; [done|]. rewrite H at 2. rewrite H. symmetry. apply wrap_wrap.
Qed.

Lemma ea_sib ip rm index off x :
  is_reg rm → ea ip (sib_addr rm index 0 off) x = u64 (xr x rm + (if index <? 0 then 0 else xr x index) + sext 32 off).
Proof.
  intros Hm. unfold ea, sib_addr. cbn [a_base a_index a_disp]. destruct (Z.ltb_spec rm 0); [unfold is_reg in Hm; lia|].
  destruct (index <? 0); [done|]. by rewrite Z.mul_1_r.
Qed.

Lemma computes_lea d rm index off v x :
  is_reg d → is_reg rm → index < 0 ∨ is_reg index ∧ index ≠ 4 →
  wrap n (xr x rm + (if index <? 0 then 0 else xr x index) + sext 32 off) = wrap n v →
  computes (λ s, tcg_out_modrm_sib_offset s (OPC_LEA + type_rexw ty) d rm index 0 off) ty d v x.
Proof.
  intros Hd Hm Hi Hv. eapply computes_codes; [by apply codes_lea| |].
  - intros ip. cbn [X86Isa.exec]. rewrite ea_sib by done. cbn [write]. reflexivity.
  - apply (effect_wd ty d v x 0). by rewrite wrap_bits64.
Qed.

Lemma computes_add d a b (c : bool) x :
  is_reg d → is_reg a → (c = false → is_reg b ∧ b ≠ 4) → (c = true → const32 ty b) →
  computes (λ s, out_add s (type_rexw ty) d a b c) ty d (xr x a + arg_val x b c) x.
Proof.
  intros Hd Ha Hr Hc. unfold out_add. destruct (Z.eqb_spec d a) as [->|Hne]; cbn [negb].
  { eapply (computes_gen_arith ARITH_ADD); [by left|done|by intros; apply Hr|by intros; left; apply Hc]. }
  destruct c; cbn [negb andb arg_val].
  - apply computes_lea; [done..|left; lia|]. cbn [Z.ltb Z.compare]. rewrite Z.add_0_r, sext_sext by lia.
    by rewrite <- wrap_add_r, const32_wrap, wrap_add_r by auto.
  - destruct (Hr eq_refl) as [Hb Hb4]. destruct (Z.eqb_spec d b) as [->|_].
    + rewrite (Z.add_comm (xr x a)). by apply (computes_arithr undefined ARITH_ADD); [left|..].
    + apply computes_lea; [done..|by right|]. destruct (Z.ltb_spec b 0); [unfold is_reg in Hb; lia|].
      by rewrite Z.add_0_r.
Qed.

Lemma computes_imul f d r src b x :
  codes f (IImul (wd ty) d (OReg r) src) → (∀ ip, wrap n (read_src ip (wd ty) src x) = wrap n b) →
  (∀ ip ip', read_src ip (wd ty) src x = read_src ip' (wd ty) src x) → computes f ty d (xr x r * b) x.
Proof.
  intros Hc Hb Hip. eapply computes_codes; [done|intros ip; cbn [X86Isa.exec read write]; rewrite (Hip ip 0); reflexivity|].
  apply effect_flags, (effect_wd ty d _ x 0). cbn [read]. rewrite wbits_wd.
  by rewrite <- (wrap_mul n (wrap n _)), wrap_wrap, Hb, wrap_mul.
Qed.

Lemma computes_mul d b (c : bool) x :
  is_reg d → (c = false → is_reg b) → (c = true → const32 ty b) →
  computes (λ s, out_mul s (type_rexw ty) d b c) ty d (xr x d * arg_val x b c) x.
Proof.
  intros Hd Hr Hc. unfold out_mul. destruct c; cbn [arg_val].
  - assert (∀ ip v, v = sext 32 b → wrap n (read_src ip (wd ty) (SImm v) x) = wrap n b) as Hv.
    { intros ip v ->. cbn. rewrite wbits_wd, wrap_wrap. by apply const32_wrap, Hc. }
    destruct (Z.eqb_spec (sext 32 b) (sext 8 (sext 32 b))) as [E|E].
    + eapply computes_imul; [by apply codes_imul8|intros ip; apply Hv; by symmetry|done].
    + eapply computes_imul; [by apply codes_imul32|intros ip; apply Hv; by rewrite sext_sext|done].
  - eapply computes_imul; [by apply codes_imul; auto|intros ip; cbn; by rewrite wbits_wd, wrap_wrap|done].
Qed.

Lemma computes_neg d x :
  is_reg d → computes (λ s, tcg_out_modrm s (OPC_GRP3_Ev + type_rexw ty) EXT3_NEG d) ty d (- xr x d) x.
Proof.
  intros Hd. eapply computes_codes; [by apply codes_neg|intros ip; cbn [X86Isa.exec read write]; reflexivity|].
  apply effect_flags, (effect_wd ty d _ x 0). rewrite wbits_wd. apply wrap_opp.
Qed.

Lemma computes_not d x :
  is_reg d → computes (λ s, tcg_out_modrm s (OPC_GRP3_Ev + type_rexw ty) EXT3_NOT d) ty d (.~ xr x d) x.
Proof.
  intros Hd. eapply computes_codes; [by apply codes_not|intros ip; cbn [X86Isa.exec read write]; reflexivity|].
  apply (effect_wd ty d _ x 0). rewrite wbits_wd. apply wrap_lnot. destruct ty; cbn; lia.
Qed.

(** ** Shifts *)

Lemma is_shift_range op : is_shift op → 0 ≤ op < 8.
Proof. intros Ho. unfold is_shift in Ho. repeat (apply elem_of_cons in Ho as [->|Ho]); [by vm_compute..|by apply elem_of_nil in Ho]. Qed.

Definition shift_value (op a c : Z) : Z :=
  if op =? SHIFT_ROL then a * 2 ^ c + wrap n a / 2 ^ (n - c)
  else if op =? SHIFT_ROR then wrap n a / 2 ^ c + a * 2 ^ (n - c)
  else if op =? SHIFT_SHL then a * 2 ^ c
  else if op =? SHIFT_SHR then wrap n a / 2 ^ c
  else sext n a / 2 ^ c.

Lemma rotate_value a c :
  0 ≤ c ≤ n → wrap n (wrap n a <<. c .| wrap n a >>. (n - c)) = wrap n (a * 2 ^ c + wrap n a / 2 ^ (n - c)).
Proof.
  intros Hc. assert (0 ≤ n) by (destruct ty; cbn; lia). pose proof (wrap_range n a ltac:(lia)) as Ha.
  rewrite Z.shiftl_mul_pow2, Z.shiftr_div_pow2 by lia. assert (0 < 2 ^ c) by (apply Z.pow_pos_nonneg; lia).
  rewrite (lor_disjoint_add _ _ c); [|lia|by apply Z.mod_mul; lia|].
  - by rewrite <- wrap_add_l, <- wrap_mul, wrap_wrap, wrap_mul, wrap_add_l.
  - split; [apply Z.div_pos; [lia|apply Z.pow_pos_nonneg; lia]|].
    apply Z.div_lt_upper_bound; [apply Z.pow_pos_nonneg; lia|]. rewrite <- Z.pow_add_r by lia. replace (n - c + c) with n by lia. lia.
Qed.

Lemma rotate_zero a : wrap n (a * 2 ^ 0 + wrap n a / 2 ^ n) = wrap n (wrap n a / 2 ^ 0 + a * 2 ^ n).
Proof.
  pose proof (wrap_range n a ltac:(destruct ty; cbn; lia)) as Ha.
  rewrite (Z.div_small (wrap n a)) by lia. change (2 ^ 0) with 1. rewrite Z.div_1_r, Z.mul_1_r, Z.add_0_r.
  rewrite wrap_add_l. unfold wrap. by rewrite Z.mod_add by (destruct ty; cbn; lia).
Qed.

Lemma shift_spec op a c :
  is_shift op → 0 ≤ c < n → wrap n (shift op n (wrap n a) c) = wrap n (shift_value op a c).
Proof.
  intros Ho Hc. unfold is_shift in Ho. assert (0 < n) by (destruct ty; cbn; lia).
  repeat (apply elem_of_cons in Ho as [->|Ho]); [..|by apply elem_of_nil in Ho]; unfold shift, shift_value;
    cbn [Z.eqb Pos.eqb SHIFT_ROL SHIFT_ROR SHIFT_SHL SHIFT_SHR SHIFT_SAR].
  - unfold rotate_left. rewrite wrap_wrap, Z.mod_small by lia. apply rotate_value. lia.
  - unfold rotate_left. rewrite wrap_wrap. destruct (decide (c = 0)) as [->|Hne].
    + change (- 0) with 0. rewrite Z.mod_0_l by lia. rewrite rotate_value by lia. rewrite !Z.sub_0_r. apply rotate_zero.
    + replace (- c) with (n - c + -1 * n) by lia. rewrite Z.mod_add, Z.mod_small by lia.
      rewrite rotate_value by lia. replace (n - (n - c)) with c by lia. by rewrite Z.add_comm.
  - rewrite wrap_wrap, Z.shiftl_mul_pow2 by lia. by rewrite <- wrap_mul, wrap_wrap, wrap_mul.
  - by rewrite Z.shiftr_div_pow2 by lia.
  - by rewrite wrap_wrap, sext_wrap, Z.shiftr_div_pow2 by lia.
Qed.

Lemma computes_shift f op d count c x :
  is_shift op → codes f (IShift op (wd ty) (OReg d) count) → 0 ≤ c < n →
  (match count with Some c => c | None => xr x 1 end) `mod` (match wd ty with W64 => 64 | _ => 32 end) = c →
  computes f ty d (shift_value op (xr x d) c) x.
Proof.
  intros Ho Hc Hr Hcount. eapply computes_codes; [done|intros ip; cbn [X86Isa.exec read write]; rewrite Hcount; reflexivity|].
  assert (effect ty d (shift_value op (xr x d) c) x
    (write 0 (wd ty) (OReg d) (shift op (wbits (wd ty)) (wrap (wbits (wd ty)) (xr x d)) c) x)) as He.
  { apply effect_wd. rewrite wbits_wd. by apply shift_spec. }
  destruct (c =? 0); [exact He|]. apply effect_flags. exact He.
Qed.

Lemma computes_gen_shift op d a (c : bool) x :
  is_shift op → is_reg d → (c = false → a = 1) → wrap n (arg_val x a c) < n →
  computes (λ s, gen_shift s op (type_rexw ty) d a c) ty d (shift_value op (xr x d) (wrap n (arg_val x a c))) x.
Proof.
  intros Ho Hd Hcl Hlt. pose proof (wrap_range n (arg_val x a c) ltac:(destruct ty; cbn; lia)) as Hr.
  assert (n = match wd ty with W64 => 64 | _ => 32 end ∧ n ≤ 64) as [Hn Hn64] by (destruct ty; cbn; lia).
  assert (∀ v, v `mod` (match wd ty with W64 => 64 | _ => 32 end) = v `mod` n) as Hm by (intros; by rewrite <- Hn).
  assert (∀ v, wrap n v < n → v `mod` n = wrap n v) as Hw.
  { intros v Hv. pose proof (wrap_range n v ltac:(destruct ty; cbn; lia)) as Hv0. rewrite <- (Z.mod_small (wrap n v) n) by lia. unfold wrap.
    symmetry. apply Z.mod_mod_divide. destruct ty; cbn; [by exists (2 ^ 27)|by exists (2 ^ 58)]. }
  unfold gen_shift. destruct c; cbn [arg_val] in *.
  - assert (sext 32 a = wrap n a) as Ea.
    { rewrite <- (sext_small 32 (wrap n a)) by (cbn; lia). apply sext_eq. symmetry. apply wrap_le. destruct ty; cbn; lia. }
    unfold tcg_out_shifti. destruct (arith_op op ty (is_shift_range op Ho)) as [E8 E7].
    rewrite E7, E8, Ea. destruct (Z.eqb_spec (wrap n a) 1) as [E1|_].
    + eapply computes_shift; [done|by apply codes_shift1|lia|]. rewrite E1. apply Z.mod_small. lia.
    + eapply computes_shift; [done|by apply codes_shift8|lia|]. rewrite sext_small by (cbn; lia). apply Z.mod_small. lia.
  - rewrite (Hcl eq_refl) in *. eapply computes_shift; [done|by apply codes_shift_cl|lia|]. rewrite Hm. by apply Hw.
Qed.

(** ** Extensions *)

Lemma computes_movsx f sw w' d r v x :
  codes f (IMovx true w' sw d (OReg r)) → w' = W64 ∨ w' = W32 → wrap n (wrap (wbits w') (sext (wbits sw) (xr x r))) = wrap n v →
  computes f ty d v x.
Proof.
  intros Hc Hw Hv. eapply computes_codes; [done|intros ip; cbn [X86Isa.exec read write]; reflexivity|].
  apply (effect_write ty d v x 0); [done|]. by rewrite sext_wrap.
Qed.

Lemma computes_ext8s d r x : is_reg d → is_reg r → computes (λ s, tcg_out_ext8s s d r (type_rexw ty)) ty d (sext 8 (xr x r)) x.
Proof. intros Hd Hr. eapply computes_movsx; [by apply codes_ext8s|destruct ty; auto|]. by rewrite wbits_wd, wrap_wrap. Qed.
Lemma computes_ext16s d r x : is_reg d → is_reg r → computes (λ s, tcg_out_ext16s s d r (type_rexw ty)) ty d (sext 16 (xr x r)) x.
Proof. intros Hd Hr. eapply computes_movsx; [by apply codes_ext16s|destruct ty; auto|]. by rewrite wbits_wd, wrap_wrap. Qed.
Lemma computes_ext32s d r x : is_reg d → is_reg r → computes (λ s, tcg_out_ext32s s d r) ty d (sext 32 (xr x r)) x.
Proof.
  intros Hd Hr. eapply computes_movsx; [by apply codes_ext32s|auto|]. apply wrap_le. destruct ty; cbn; lia.
Qed.
Lemma computes_ext8u d r x : is_reg d → is_reg r → computes (λ s, tcg_out_ext8u s d r) ty d (u8 (xr x r)) x.
Proof. intros Hd Hr. eapply computes_movzx; [by apply codes_ext8u|auto|]. cbn [wbits]. f_equal. by apply wrap_ge. Qed.
Lemma computes_ext16u d r x : is_reg d → is_reg r → computes (λ s, tcg_out_ext16u s d r) ty d (u16 (xr x r)) x.
Proof. intros Hd Hr. eapply computes_movzx; [by apply codes_ext16u|auto|]. cbn [wbits]. f_equal. by apply wrap_ge. Qed.

(** A move between registers. *)
Lemma computes_movrr f w d r v x :
  codes f (IMov w (OReg d) (SOp (OReg r))) → w = W64 ∨ w = W32 → wrap n (wrap (wbits w) (xr x r)) = wrap n v → computes f ty d v x.
Proof.
  intros Hc Hw Hv. eapply computes_codes; [done|intros ip; cbn [X86Isa.exec read read_src write]; reflexivity|].
  apply (effect_write ty d v x 0); [done|]. by rewrite wrap_wrap.
Qed.
Lemma computes_ext32u d r x : is_reg d → is_reg r → computes (λ s, tcg_out_ext32u s d r) ty d (u32 (xr x r)) x.
Proof. intros Hd Hr. by eapply computes_movrr; [apply codes_ext32u|auto|]. Qed.

(** ** Byte swaps *)

Lemma le_val_range l : 0 ≤ le_val l < 2 ^ (8 * length l).
Proof.
  induction l as [|b l IH]; cbn [le_val length]; [cbn; lia|].
  replace (8 * S (length l)) with (8 + 8 * length l) by lia. rewrite Z.pow_add_r by lia. change (2 ^ 8) with 256.
  pose proof (Z.mod_pos_bound b 256). lia.
Qed.

Lemma le_bytes_wrap (k : nat) m a : 8 * k ≤ m → le_bytes k (wrap m a) = le_bytes k a.
Proof.
  revert m a. induction k as [|k IH]; intros m a Hm; [done|]. cbn [le_bytes].
  assert (wrap m a = a `mod` 256 + 256 * wrap (m - 8) (a / 256)) as E.
  { unfold wrap. replace (2 ^ m) with (256 * 2 ^ (m - 8)) by (rewrite <- (Z.pow_add_r 2 8) by lia; f_equal; lia).
    apply Z.rem_mul_r; [lia|]. apply Z.pow_pos_nonneg; lia. }
  f_equal.
  - rewrite E, Z.mul_comm, Z.mod_add, Z.mod_mod by lia. done.
  - rewrite E, Z.mul_comm, Z.div_add by lia. rewrite (Z.div_small (a `mod` 256)) by (apply Z.mod_pos_bound; lia).
    rewrite Z.add_0_l. apply IH. lia.
Qed.

Lemma bswap_range (k : nat) a : 0 ≤ bswap k a < 2 ^ (8 * k).
Proof. unfold bswap. pose proof (le_val_range (rev (le_bytes k a))) as H. by rewrite length_rev, le_bytes_length in H. Qed.

Lemma computes_bswap f w d x :
  codes f (IBswap w d) → w = W64 ∨ w = W32 → computes f ty d (bswap (wbytes w) (xr x d)) x.
Proof.
  intros Hc Hw. eapply computes_codes; [done|intros ip; cbn [X86Isa.exec read write]; reflexivity|].
  apply (effect_write ty d _ x 0); [done|]. pose proof (bswap_range (wbytes w) (xr x d)).
  unfold bswap in *. rewrite le_bytes_wrap by (destruct Hw as [->| ->]; cbn; lia).
  f_equal. apply wrap_small. destruct Hw as [->| ->]; done.
Qed.

Lemma rol16 v : shift 0 16 (u16 v) 8 = bswap 2 v.
Proof.
  change (shift 0 16 (u16 v) 8) with (u16 (u16 v <<. 8 .| u16 v >>. 8)).
  unfold bswap. rewrite <- (le_bytes_wrap 2 16 v) by lia. pose proof (wrap_range 16 v ltac:(lia)) as Hr. set (u := u16 v) in *.
  cbn [le_bytes rev app le_val]. rewrite Z.shiftl_mul_pow2, Z.shiftr_div_pow2 by lia. change (2 ^ 8) with 256. change (2 ^ 16) with 65536 in Hr.
  rewrite (lor_disjoint_add _ _ 8); [|lia|change (2 ^ 8) with 256; by apply Z.mod_mul|
    change (2 ^ 8) with 256; split; [apply Z.div_pos; lia|apply Z.div_lt_upper_bound; lia]].
  unfold wrap. change (2 ^ 16) with 65536. Z.to_euclidean_division_equations. lia.
Qed.

Lemma computes_rolw d x :
  is_reg d → wrap n (xr x d) < 2 ^ 16 → computes (λ s, tcg_out_rolw_8 s d) ty d (bswap 2 (xr x d)) x.
Proof.
  intros Hd Hlt. pose proof (wrap_range n (xr x d) ltac:(destruct ty; cbn; lia)) as Hr.
  eapply computes_codes; [by apply codes_rolw|intros ip; cbn [X86Isa.exec read write wbits]; rewrite rol16; reflexivity|].
  change (8 `mod` 32 =? 0) with false. cbv iota. apply effect_flags. split; [|by intros; cbn; rewrite fn_lookup_insert_ne|done].
  unfold eqv, conv. cbn [set_r xr]. rewrite fn_lookup_insert.
  assert (u16 (xr x d) = wrap n (xr x d)) as ->.
  { rewrite <- (wrap_le 16 n) by (destruct ty; cbn; lia). apply wrap_small. lia. }
  rewrite <- wrap_add_l, wrap_sub_r, Z.sub_diag. change (wrap n 0) with (0 `mod` 2 ^ n). rewrite Z.mod_0_l by (destruct ty; cbn; lia).
  rewrite Z.add_0_l. f_equal. apply wrap_small. apply (bswap_range 2).
Qed.

(** ** Division *)

Lemma divide_values sgn lo hi b q r :
  div_values sgn n lo hi b = Some [q; r] →
  ∃ q' r', divide sgn n (wrap n hi) (wrap n lo) (wrap n b) = Some (q', r') ∧ wrap n q' = wrap n q ∧ wrap n r' = wrap n r.
Proof.
  assert (0 < n) as Hn by (destruct ty; cbn; lia).
  unfold div_values, divide. destruct sgn.
  - replace (sext (2 * n) (wrap n hi * 2 ^ n + wrap n lo)) with (sext (2 * n) (hi * 2 ^ n + wrap n lo)).
    2: { apply sext_eq. unfold wrap. rewrite <- (Z.add_mod_idemp_l (hi * 2 ^ n)), <- (Z.add_mod_idemp_l (hi `mod` 2 ^ n * 2 ^ n)) by (apply Z.pow_nonzero; lia).
         do 2 f_equal. replace (2 * n) with (n + n) by lia. rewrite Z.pow_add_r, !Zmult_mod_distr_r by lia. by rewrite Z.mod_mod by (apply Z.pow_nonzero; lia). }
    rewrite sext_wrap. set (num := sext (2 * n) _). set (d := sext n b). destruct (Z.eqb_spec d 0) as [|Hd0]; [done|]. cbn [orb].
    destruct ((- 2 ^ (n - 1) <=? Z.quot num d) && (Z.quot num d <? 2 ^ (n - 1))) eqn:E; [|done]. cbn [negb]. intros [= <- <-].
    apply andb_true_iff in E as [E1%Z.leb_le E2%Z.ltb_lt]. rewrite (sext_small n (Z.quot num d)), Z.eqb_refl by lia. cbn [negb].
    eexists _, _. split; [done|]. by rewrite !wrap_wrap.
  - destruct (_ || _); [done|]. intros [= <- <-]. by eexists _, _.
Qed.

Lemma does_div sgn f b x q r :
  codes f (IDiv sgn (wd ty) (OReg b)) → div_values sgn n (xr x 0) (xr x 2) (xr x b) = Some [q; r] →
  ∃ y, does f x y ∧ eqv ty (xr y 0) q ∧ eqv ty (xr y 2) r ∧ (∀ k, k ≠ 0 → k ≠ 2 → xr y k = xr x k) ∧ xm y = xm x.
Proof.
  intros Hc Hv. destruct (divide_values _ _ _ _ _ _ Hv) as (q' & r' & Hd & Hq & Hr).
  eexists. split; [eapply does_codes; [done|]|].
  - intros ip. cbn [X86Isa.exec read]. rewrite wbits_wd, Hd. cbn [mbind option_bind write]. reflexivity.
  - unfold eqv, conv. cbn [with_flags set_r xr xm]. split_and!; [| |intros k H0 H2|done].
    + rewrite fn_lookup_insert_ne, fn_lookup_insert by done. rewrite <- Hq. destruct ty; cbn [wd bits wbits]; apply wrap_wrap.
    + rewrite fn_lookup_insert. rewrite <- Hr. destruct ty; cbn [wd bits wbits]; apply wrap_wrap.
    + by rewrite !fn_lookup_insert_ne.
Qed.

(** ** Comparisons *)

Lemma cond_flags c a b : cc_test (tcg_cond_to_jcc c) (sub_flags n (wrap n a) (wrap n b) 0) = cond_holds c n a b.
Proof.
  pose proof (wrap_range n a ltac:(destruct ty; cbn; lia)) as Ha. pose proof (wrap_range n b ltac:(destruct ty; cbn; lia)) as Hb.
  unfold sub_flags. rewrite !sext_wrap, !Z.add_0_r, !Z.sub_0_r. unfold sext. fold (wrap n a) (wrap n b) (wrap n (wrap n a - wrap n b)).
  set (u := wrap n a) in *. set (v := wrap n b) in *. set (h := 2 ^ (n - 1)).
  assert (2 ^ n = 2 * h) as Hh by (unfold h; destruct ty; done). rewrite Hh in *.
  assert (wrap n (u - v) = if u <? v then u - v + 2 * h else u - v) as Ew.
  { unfold wrap. rewrite Hh. destruct (Z.ltb_spec u v); [|by apply Z.mod_small; lia].
    rewrite <- (Z.mod_add _ 1), Z.mul_1_l by lia. apply Z.mod_small. lia. }
  unfold cc_test, cond_holds, arith_flags, sext. fold (wrap n a) (wrap n b). fold u v h. rewrite Ew, Hh.
  assert (0 < h) by (unfold h; destruct ty; cbn; lia). clearbody u v h.
  destruct c; cbn [tcg_cond_to_jcc]; unfold cc_even; cbn -[Z.add Z.sub Z.mul Z.leb Z.ltb Z.eqb Z.mul];
    destruct (Z.ltb_spec u v), (Z.ltb_spec u h), (Z.ltb_spec v h);
    repeat match goal with
    | |- context [?p <? ?q] => destruct (Z.ltb_spec p q)
    | |- context [?p <=? ?q] => destruct (Z.leb_spec p q)
    | |- context [?p =? ?q] => destruct (Z.eqb_spec p q)
    end; try done; lia.
Qed.

End exec.

(** * Comparisons, moves and memory in x86-64 code *)

Section exec.
  Context (undefined : insn → mach → flags) (ty : TCGType).
  Notation does := (does undefined).
  Notation computes := (computes undefined).
  Notation n := (bits ty).

(** ** Conditions *)

Lemma cond_holds_eqv c a b b' : wrap n b = wrap n b' → cond_holds c n a b = cond_holds c n a b'.
Proof. intros E. pose proof (sext_eq n b b' E) as E'. unfold cond_holds. by rewrite E, E'. Qed.

(** The code that sets the flags changes neither registers nor memory. *)
Definition compares (f : TCGOut → result TCGOut) (a b : Z) (x : mach) : Prop :=
  ∃ y, does f x y ∧ xr y = xr x ∧ xm y = xm x ∧ ∀ c, cc_test (tcg_cond_to_jcc c) (xf y) = cond_holds c n a b.

Lemma compares_codes f r src b x :
  codes f (IAlu ARITH_CMP (wd ty) (OReg r) src) → (∀ ip, read_src ip (wd ty) src x = wrap n b) → compares f (xr x r) b x.
Proof.
  intros Hc Hs. eexists. split; [eapply does_codes; [done|]|].
  - intros ip. cbn [X86Isa.exec]. rewrite Hs. cbn [alu read Z.eqb ARITH_CMP Pos.eqb]. reflexivity.
  - split_and!; [done..|]. intros c. cbn [with_flags xf]. rewrite wbits_wd. apply cond_flags.
Qed.

Lemma compares_test f r x :
  codes f (ITest (wd ty) (OReg r) (OReg r)) → compares f (xr x r) 0 x.
Proof.
  intros Hc. eexists. split; [eapply does_codes; [done|]|].
  - intros ip. cbn [X86Isa.exec read]. reflexivity.
  - split_and!; [done..|]. intros c. cbn [with_flags xf]. rewrite wbits_wd, Z.land_diag, <- cond_flags.
    pose proof (wrap_range n (xr x r) ltac:(destruct ty; cbn; lia)) as Hr.
    assert (wrap n 0 = 0) as -> by (destruct ty; done). f_equal. unfold sub_flags, logic_flags.
    rewrite !Z.sub_0_r, Z.add_0_r, wrap_wrap. replace (sext n 0) with 0 by (destruct ty; done).
    rewrite Z.sub_0_r, Z.eqb_refl. by destruct (Z.ltb_spec (wrap n (xr x r)) 0); [lia|].
Qed.

Lemma compares_eqv f a b b' x : wrap n b = wrap n b' → compares f a b x → compares f a b' x.
Proof.
  intros E (y & Hy & Hr & Hm & Hc). exists y. split_and!; [done..|]. intros c. rewrite Hc. by apply cond_holds_eqv.
Qed.

Lemma cmp_imm r v x :
  is_reg r → ty = TCG_TYPE_I32 ∨ v = sext 32 v → v ≠ 0 →
  compares (λ s, tgen_arithi s (ARITH_CMP + type_rexw ty) r v false) (xr x r) v x.
Proof.
  intros Hr Hv Hz. unfold tgen_arithi. destruct (arith_op ARITH_CMP ty ltac:(done)) as [_ ->].
  rewrite arith_op' by done. cbn [negb andb orb Z.eqb ARITH_CMP ARITH_ADD ARITH_SUB ARITH_AND Pos.eqb].
  destruct (Z.eqb_spec v (sext 8 v)) as [E|E].
  - eapply compares_codes; [by apply codes_arith8|]. intros ip. cbn. by rewrite wbits_wd, <- E.
  - replace ((type_rexw ty =? 0) || (v =? sext 32 v)) with true.
    2: { destruct Hv as [->|Hv]; [done|]. by rewrite (proj2 (Z.eqb_eq _ _) Hv), orb_true_r. }
    eapply compares_codes; [by apply codes_arith32|]. intros ip. cbn. rewrite wbits_wd.
    destruct Hv as [->|Hv]; [by apply wrap_sext|by rewrite <- Hv].
Qed.

Lemma does_cmp a b (c : bool) x :
  is_reg a → (c = false → is_reg b) → (c = true → const32 ty b) →
  compares (λ s, tcg_out_cmp s a b c (type_rexw ty)) (xr x a) (arg_val x b c) x.
Proof.
  intros Ha Hr Hc. assert (0 ≤ n ≤ 64) as Hn by (destruct ty; cbn; lia). unfold tcg_out_cmp. destruct c; cbn [arg_val].
  - destruct (Z.eqb_spec (u64 b) 0) as [E|E].
    + apply (compares_eqv _ _ 0); [|by apply compares_test, codes_test].
      rewrite <- (wrap_le n 64 b), E by done. done.
    + apply (compares_eqv _ _ (sext 64 b)); [by apply wrap_sext|]. apply cmp_imm; [done|by apply const32_sext, Hc|].
      intros Hz. apply E. rewrite <- (wrap_sext 64 64 b), Hz by lia. done.
  - eapply compares_codes; [apply (codes_arithr ty a b Ha (Hr eq_refl)); done|]. intros ip. cbn. by rewrite wbits_wd.
Qed.

Lemma u8_merge v b : u8 (v - u8 v + u8 b) = u8 b.
Proof. by rewrite <- wrap_add_l, wrap_sub_r, Z.sub_diag, wrap_add_l, Z.add_0_l, wrap_wrap. Qed.

Lemma setcond_tail c f a b d x :
  is_reg d → compares f a b x →
  computes (λ s, s <- f s ;; s <- tcg_out_modrm s (OPC_SETCC .| tcg_cond_to_jcc c) 0 d ;; tcg_out_ext8u s d d)
    ty d (b2z (cond_holds c n a b)) x.
Proof.
  intros Hd (y & Hy & Hr & Hm & Hc). eexists. split.
  - eapply does_bind; [done|]. eapply (does_bind _ (λ s, tcg_out_modrm s _ 0 d)).
    + eapply does_codes; [by apply codes_setcc|]. intros ip. cbn [X86Isa.exec write wbits]. rewrite Hc. reflexivity.
    + eapply does_codes; [by apply codes_ext8u|]. intros ip. cbn [X86Isa.exec read write wbits]. reflexivity.
  - split; [|intros r Hne|].
    + unfold eqv, conv. cbn [set_r xr]. rewrite !fn_lookup_insert, u8_merge. by destruct (cond_holds c n a b), ty.
    + cbn [set_r xr]. by rewrite !fn_lookup_insert_ne, Hr.
    + done.
Qed.

Lemma computes_setcond c d a b (c2 : bool) x :
  is_reg d → is_reg a → (c2 = false → is_reg b) → (c2 = true → const32 ty b) →
  computes (λ s, (if is_i32 ty then tcg_out_setcond32 else tcg_out_setcond64) s c d a b c2)
    ty d (b2z (cond_holds c n (xr x a) (arg_val x b c2))) x.
Proof.
  intros Hd Ha Hb Hc. pose proof (setcond_tail c _ _ _ d x Hd (does_cmp a b c2 x Ha Hb Hc)) as Ht.
  by destruct ty.
Qed.

(** ** Moves *)

Lemma computes_mov d r x : is_reg d → is_reg r → computes (λ s, tcg_out_mov s ty d r) ty d (xr x r) x.
Proof.
  intros Hd Hr. unfold tcg_out_mov. destruct (Z.eqb_spec r d) as [->|_]; cbn [negb].
  - exists x. split; [apply does_nil|by split].
  - eapply computes_movrr; [by apply codes_mov|destruct ty; auto|]. by rewrite wbits_wd, wrap_wrap.
Qed.

Lemma computes_movimm f w d u v x :
  codes f (IMov w (OReg d) (SImm u)) → w = W64 ∨ w = W32 → wrap n (wrap (wbits w) u) = wrap n v → computes f ty d v x.
Proof.
  intros Hc Hw Hv. eapply computes_codes; [done|intros ip; cbn [X86Isa.exec read_src write]; reflexivity|].
  apply (effect_write ty d v x 0); [done|]. by rewrite wrap_wrap.
Qed.

Lemma computes_movi d v x : is_reg d → v = sext 64 v → computes (λ s, tcg_out_movi s ty d v) ty d v x.
Proof.
  intros Hd H64. unfold tcg_out_movi. destruct (Z.eqb_spec v 0) as [->|_].
  { eapply (computes_alu _ _ ARITH_XOR ty TCG_TYPE_I32 d _ (xr x d));
      [by apply list_elem_of_In; cbn; tauto|exact (codes_arithr TCG_TYPE_I32 d d Hd Hd ARITH_XOR ltac:(done))|by intros ip|].
    change (alu_value ARITH_XOR (xr x d) (xr x d)) with (xr x d .^ xr x d). by rewrite Z.lxor_nilpotent. }
  destruct (Z.eqb_spec v (u32 v)) as [E|E]; cbn [orb].
  { eapply computes_movimm; [by apply codes_movl|auto|]. cbn [wbits]. by rewrite wrap_sext, <- E by lia. }
  destruct (is_i32 ty) eqn:Et.
  { eapply computes_movimm; [by apply codes_movl|auto|]. destruct ty; [|done]. cbn [wbits bits]. by rewrite wrap_wrap, wrap_sext by lia. }
  assert (n = 64) as Hn by (by destruct ty). destruct (Z.eqb_spec v (sext 32 v)) as [E'|E'].
  - eapply computes_movimm; [by apply codes_movl_iz|auto|]. cbn [wbits]. by rewrite Hn, <- E', wrap_wrap.
  - eapply computes_movimm; [by apply codes_movq|auto|]. cbn [wbits]. by rewrite Hn, <- H64, wrap_wrap.
Qed.

End exec.
