(* ===== verification/X86OpOk.v ===== *)
(** * Operations on registers in x86-64 code

    The code that [tcg_out_op] writes for an operation on registers computes
    the operation, for all registers and constants that the table of
    constraints allows. *)

From stdpp Require Import base list functions.
From S2P Require Import Prelude TcgData TcgLive TcgSem X86Isa X86Out X86Op X86Enc X86Sem TcgOps X86Val X86Arith.
Local Open Scope Z_scope.
Local Coercion Z.of_nat : nat >-> Z.

(** ** Arguments *)

(** An argument meets a constraint: a constant that matches, or a register of
    the class, not the stack pointer, and the one of the output if it is tied
    to an output. *)
Definition arg_fits (args : list Z) (c : TCGArgConstraint) (a : Z) (const : bool) : bool :=
  if const then tcg_target_const_match a c
  else (0 <=? a) && (a <? 16) && negb (a =? TCG_REG_ESP) && tcg_regset_test_reg (ct_regs c) a &&
       (negb (has_flag (ct c) TCG_CT_IALIAS) || bool_decide (args !! alias_index c = Some a)).

Fixpoint fits (all : list Z) (cs : list TCGArgConstraint) (args : list Z) (consts : list bool) : bool :=
  match cs, args, consts with
  | [], _, [] => true
  | c :: cs, a :: args, k :: consts => arg_fits all c a k && fits all cs args consts
  | _, _, _ => false
  end.

(** The arguments that [tcg_reg_alloc_op] passes to [tcg_out_op]. *)
Definition args_fit (op : TCGOpcode) (args : list Z) (consts : list bool) : bool :=
  fits args (args_ct (op_info op)) args consts && (length args =? nb_args (op_def op))%nat.

(** The values of the inputs, and the constants. *)
Definition x86_ins (x : mach) (op : TCGOpcode) (args : list Z) (consts : list bool) : list Z :=
  let d := op_def op in zip_with (arg_val x) (take (nb_iargs d) (drop (nb_oargs d) args)) (drop (nb_oargs d) consts).
Definition x86_cargs (op : TCGOpcode) (args : list Z) : list Z := drop (nb_oargs (op_def op) + nb_iargs (op_def op)) args.
Definition x86_outs (op : TCGOpcode) (args : list Z) : list Z := take (nb_oargs (op_def op)) args.

(** The operations that use only registers. *)
Definition reg_op (o : opname) : bool :=
  match o with
  | op_add | op_sub | op_and | op_or | op_xor | op_mul | op_div2 | op_divu2
  | op_shl | op_shr | op_sar | op_rotl | op_rotr | op_setcond
  | op_bswap16 | op_bswap32 | op_bswap64 | op_neg | op_not
  | op_ext8s | op_ext16s | op_ext8u | op_ext16u | op_ext32s | op_ext32u | op_movi => true
  | _ => false
  end.

(** *** The table *)

#[export] Instance TCGArgConstraint_eq_dec : EqDecision TCGArgConstraint.
Proof. solve_decision. Defined.
#[export] Instance TCGType_eq_dec : EqDecision TCGType.
Proof. solve_decision. Defined.

Definition ct_r : TCGArgConstraint := mkCT 1 0 0xffff.
Definition ct_out : TCGArgConstraint := mkCT 128 1 0xffff.
Definition ct_in : TCGArgConstraint := mkCT 65 0 0xffff.
Definition ct_ri : TCGArgConstraint := mkCT 3 0 0xffff.
Definition ct_re : TCGArgConstraint := mkCT 257 0 0xffff.
Definition ct_reZ : TCGArgConstraint := mkCT 769 0 0xffff.
Definition ct_ci : TCGArgConstraint := mkCT 3 0 2.
Definition ct_arith (ty : TCGType) : TCGArgConstraint := if is_i32 ty then ct_ri else ct_re.

(** The constraints of an operation on registers, and its numbers of outputs
    and of parameters. *)
Definition op_sig (o : opname) (ty : TCGType) : list TCGArgConstraint * nat * nat :=
  match o with
  | op_add => if is_i32 ty then ([ct_r; ct_r; ct_ri], 1, 0)%nat else ([ct_out; ct_in; ct_re], 1, 0)%nat
  | op_sub | op_or | op_xor | op_mul => ([ct_out; ct_in; ct_arith ty], 1, 0)%nat
  | op_and => ([ct_out; ct_in; if is_i32 ty then ct_ri else ct_reZ], 1, 0)%nat
  | op_div2 | op_divu2 => ([mkCT 128 2 1; mkCT 128 3 4; mkCT 65 0 1; mkCT 65 1 4; ct_r], 2, 0)%nat
  | op_shl | op_shr | op_sar | op_rotl | op_rotr => ([ct_out; ct_in; ct_ci], 1, 0)%nat
  | op_setcond => ([ct_r; ct_r; ct_arith ty], 1, 1)%nat
  | op_bswap16 | op_bswap32 | op_bswap64 | op_neg | op_not => ([ct_out; ct_in], 1, 0)%nat
  | op_movi => ([ct_r], 1, 1)%nat
  | _ => ([ct_r; ct_r], 1, 0)%nat
  end.

Definition sig_fact (op : TCGOpcode) : bool :=
  match op_split op with
  | Some (o, ty) =>
      negb (reg_op o) ||
      bool_decide ((args_ct (op_info op), nb_oargs (op_def op), nb_cargs (op_def op)) = op_sig o ty) &&
      (length (args_ct (op_info op)) =? nb_oargs (op_def op) + nb_iargs (op_def op))%nat &&
      (match o with op_bswap64 | op_ext32s | op_ext32u => negb (is_i32 ty) | _ => true end)
  | None => true
  end.

Lemma sig_facts : forallb sig_fact (seq 0 NB_OPS) = true.
Proof. vm_compute. reflexivity. Qed.

Lemma op_split_lt op p : op_split op = Some p → (op < NB_OPS)%nat.
Proof.
  intros Hs. destruct (decide (op < NB_OPS)%nat) as [|Hge]; [done|]. exfalso. unfold op_split, op_def in Hs.
  rewrite lookup_ge_None_2 in Hs by (change (length tcg_op_defs) with NB_OPS; lia). vm_compute in Hs. done.
Qed.

Lemma op_sig_ok op o ty :
  op_split op = Some (o, ty) → reg_op o = true →
  args_ct (op_info op) = (op_sig o ty).1.1 ∧ nb_oargs (op_def op) = (op_sig o ty).1.2 ∧ nb_cargs (op_def op) = (op_sig o ty).2 ∧
  nb_iargs (op_def op) = (length (op_sig o ty).1.1 - (op_sig o ty).1.2)%nat ∧
  (match o with op_bswap64 | op_ext32s | op_ext32u => ty = TCG_TYPE_I64 | _ => True end).
Proof.
  intros Hs Ho. pose proof (op_split_lt _ _ Hs) as Hlt. pose proof sig_facts as Hf. rewrite forallb_forall in Hf.
  specialize (Hf op). unfold sig_fact in Hf. rewrite Hs, Ho in Hf. cbn [negb orb] in Hf.
  specialize (Hf ltac:(apply in_seq; lia)). rewrite !andb_true_iff, bool_decide_eq_true in Hf. destruct Hf as [[E El%Nat.eqb_eq] Et].
  rewrite <- E. cbn [fst snd]. split_and!; [done..|lia|]. destruct o, ty; done.
Qed.

(** *** Shapes of arguments *)

Lemma fits_reg all c a k :
  has_flag (ct c) TCG_CT_CONST = false → has_flag (ct c) TCG_CT_CONST_S32 = false → has_flag (ct c) TCG_CT_CONST_U32 = false →
  arg_fits all c a k = true →
  k = false ∧ is_reg a ∧ a ≠ 4 ∧ tcg_regset_test_reg (ct_regs c) a = true ∧
  (has_flag (ct c) TCG_CT_IALIAS = true → all !! alias_index c = Some a).
Proof.
  intros H1 H2 H3. unfold arg_fits, tcg_target_const_match. rewrite H1, H2, H3. destruct k; [done|].
  rewrite !andb_true_iff, orb_true_iff, bool_decide_eq_true, !negb_true_iff, Z.leb_le, Z.ltb_lt, Z.eqb_neq.
  intros [[[[??]?]?] Ha]. split_and!; [done|by split|done..|]. intros Hi. destruct Ha as [Ha|Ha]; [congruence|done].
Qed.

Lemma fits_arith all ty a k :
  arg_fits all (ct_arith ty) a k = true → (k = false → is_reg a ∧ a ≠ 4) ∧ (k = true → const32 ty a).
Proof.
  intros Hf. split; intros ->; unfold arg_fits in Hf.
  - rewrite !andb_true_iff, negb_true_iff, Z.leb_le, Z.ltb_lt, Z.eqb_neq in Hf. destruct Hf as [[[[??]?]?] _]. by split.
  - unfold ct_arith, const32 in *. destruct ty; [by left|right].
    change ((if sext 64 a =? sext 32 a then true else false) = true) in Hf. by destruct (Z.eqb_spec (sext 64 a) (sext 32 a)).
Qed.

Lemma fits_and all ty a k :
  arg_fits all (if is_i32 ty then ct_ri else ct_reZ) a k = true →
  (k = false → is_reg a) ∧ (k = true → const32 ty a ∨ ARITH_AND = ARITH_AND ∧ sext 64 a = u32 a).
Proof.
  intros Hf. split; intros ->; unfold arg_fits in Hf.
  - rewrite !andb_true_iff, Z.leb_le, Z.ltb_lt in Hf. destruct Hf as [[[[??]?]?] _]. by split.
  - unfold const32. destruct ty; [by left; left|].
    change ((if sext 64 a =? sext 32 a then true else sext 64 a =? u32 a) = true) in Hf.
    destruct (Z.eqb_spec (sext 64 a) (sext 32 a)); [by left; right|right]. split; [done|]. by apply Z.eqb_eq.
Qed.

Lemma fits_ci all a k : arg_fits all ct_ci a k = true → k = false → a = 1.
Proof.
  intros Hf ->. unfold arg_fits in Hf. rewrite !andb_true_iff, Z.leb_le, Z.ltb_lt in Hf. destruct Hf as [[[[H0 H1]_]Ht] _].
  unfold tcg_regset_test_reg in Ht. cbn [ct_regs ct_ci] in Ht. change 2 with (2 ^ 1) in Ht.
  rewrite Z.pow2_bits_eqb in Ht by lia. apply Z.eqb_eq in Ht. done.
Qed.

Ltac fit_reg H := apply fits_reg in H; [destruct H as (-> & ? & ? & ? & H)|reflexivity..].

Ltac shape := cbn [fits length]; rewrite ?andb_false_r, ?andb_true_r; try done.

Lemma shape_un args consts :
  fits args [ct_out; ct_in] args consts = true → length args = 2%nat →
  ∃ d, args = [d; d] ∧ consts = [false; false] ∧ is_reg d.
Proof.
  destruct args as [|d [|a [|]]], consts as [|k0 [|k1 [|]]]; shape; rewrite andb_true_iff.
  intros [H0 H1] _. fit_reg H0. fit_reg H1. exists d. specialize (H1 eq_refl). cbn in H1. by simplify_eq.
Qed.

Lemma shape_rr args consts :
  fits args [ct_r; ct_r] args consts = true → length args = 2%nat →
  ∃ d a, args = [d; a] ∧ consts = [false; false] ∧ is_reg d ∧ is_reg a.
Proof.
  destruct args as [|d [|a [|]]], consts as [|k0 [|k1 [|]]]; shape; rewrite andb_true_iff.
  intros [H0 H1] _. fit_reg H0. fit_reg H1. by exists d, a.
Qed.

Lemma shape_bin c args consts :
  fits args [ct_out; ct_in; c] args consts = true → length args = 3%nat →
  ∃ d b k, args = [d; d; b] ∧ consts = [false; false; k] ∧ is_reg d ∧ arg_fits args c b k = true.
Proof.
  destruct args as [|d [|a [|b [|]]]], consts as [|k0 [|k1 [|k2 [|]]]]; shape; rewrite !andb_true_iff.
  intros (H0 & H1 & H2) _. fit_reg H0. fit_reg H1. exists d, b, k2. specialize (H1 eq_refl). cbn in H1. by simplify_eq.
Qed.

Lemma shape_rrc c args consts m :
  fits args [ct_r; ct_r; c] args consts = true → length args = (3 + m)%nat →
  ∃ d a b k l, args = d :: a :: b :: l ∧ consts = [false; false; k] ∧ is_reg d ∧ is_reg a ∧ arg_fits args c b k = true ∧ length l = m.
Proof.
  destruct args as [|d [|a [|b l]]], consts as [|k0 [|k1 [|k2 [|]]]]; shape; rewrite !andb_true_iff.
  intros (H0 & H1 & H2) Hl. fit_reg H0. fit_reg H1. exists d, a, b, k2, l. split_and!; try done. lia.
Qed.

Lemma test_bit_reg k a : 0 ≤ k → tcg_regset_test_reg (2 ^ k) a = true → a = k.
Proof. intros Hk Ht. unfold tcg_regset_test_reg in Ht. rewrite Z.pow2_bits_eqb in Ht by done. apply Z.eqb_eq in Ht. done. Qed.

Lemma shape_div args consts :
  fits args [mkCT 128 2 1; mkCT 128 3 4; mkCT 65 0 1; mkCT 65 1 4; ct_r] args consts = true → length args = 5%nat →
  ∃ b, args = [0; 2; 0; 2; b] ∧ consts = [false; false; false; false; false] ∧ is_reg b.
Proof.
  destruct args as [|d [|a [|b [|c [|e [|]]]]]], consts as [|k0 [|k1 [|k2 [|k3 [|k4 [|]]]]]]; shape;
  rewrite !andb_true_iff. intros (H0 & H1 & H2 & H3 & H4) _.
  fit_reg H0. fit_reg H1. fit_reg H2. fit_reg H3. fit_reg H4. exists e. cbn [ct_regs] in *.
  repeat match goal with
  | H : tcg_regset_test_reg 1 ?v = true |- _ => apply (test_bit_reg 0) in H; [|lia]
  | H : tcg_regset_test_reg 4 ?v = true |- _ => apply (test_bit_reg 2) in H; [|lia]
  end. by subst.
Qed.

(** ** Operations *)

Section exec.
  Context (undefined : insn → mach → flags).
  Notation does := (does undefined).
  Notation computes := (computes undefined).

(** The code takes the machine to a state with the values [vs] in the
    registers [rs], and leaves the other registers and the memory alone. *)
Definition yields (f : TCGOut → result TCGOut) (ty : TCGType) (rs vs : list Z) (x : mach) : Prop :=
  ∃ y, does f x y ∧ Forall2 (λ r v, eqv ty (xr y r) v) rs vs ∧ (∀ r, r ∉ rs → xr y r = xr x r) ∧ xm y = xm x.

Lemma yields_one f ty d v x : computes f ty d v x → yields f ty [d] [v] x.
Proof.
  intros (y & Hy & [H1 H2 H3]). exists y. split_and!; [done|by repeat constructor| |done].
  intros r Hr. apply H2. by apply not_elem_of_cons in Hr as [? _].
Qed.

Lemma yields_ext f g ty rs vs x : (∀ s, f s = g s) → yields f ty rs vs x → yields g ty rs vs x.
Proof. intros E (y & Hy & H). exists y. split; [by eapply does_ext|done]. Qed.

Context `{TcgHost} (op : TCGOpcode) (o : opname) (ty : TCGType).

(** What is to be shown of an operation, with its arguments in view. *)
Definition op_ok (args : list Z) (consts : list bool) (nouts nins : nat) (x : mach) : Prop :=
  ∀ outs, op_result o ty (drop (nouts + nins) args) (zip_with (arg_val x) (take nins (drop nouts args)) (drop nouts consts)) = Some outs →
    yields (λ s, tcg_out_op s op args consts) ty (take nouts args) outs x.

Lemma op_ok_one g args consts nins d v x :
  op_split op = Some (o, ty) →
  op_result o ty (drop (1 + nins) args) (zip_with (arg_val x) (take nins (drop 1 args)) (drop 1 consts)) = Some [v] →
  take 1 args = [d] → (∀ s, tcg_out_op s op args consts = g s) → computes g ty d v x → op_ok args consts 1 nins x.
Proof.
  intros Hs Hv Hd Hg Hc outs Ho. rewrite Hv in Ho. injection Ho as <-. rewrite Hd. apply yields_one.
  destruct Hc as (y & Hy & He). exists y. split; [|done]. eapply does_ext; [|done]. intros s. by rewrite Hg.
Qed.

End exec.

Section ops.
  Context (undefined : insn → mach → flags) `{TcgHost} (op : TCGOpcode) (ty : TCGType) (x : mach).
  Notation op_ok := (op_ok undefined op).

(** The code of an operation whose name is known. *)
Ltac out_op Hs := intros s; unfold tcg_out_op; rewrite Hs; reflexivity.

Lemma op_ok_arith o c args consts :
  op_split op = Some (o, ty) → (o, c) ∈ [(op_sub, ARITH_SUB); (op_or, ARITH_OR); (op_xor, ARITH_XOR)] →
  fits args [ct_out; ct_in; ct_arith ty] args consts = true → length args = 3%nat → op_ok o ty args consts 1 2 x.
Proof.
  intros Hs Hc Hf Hl. destruct (shape_bin _ _ _ Hf Hl) as (d & b & k & -> & -> & Hd & Hb).
  apply fits_arith in Hb as [Hr Hk]. repeat (apply elem_of_cons in Hc as [[= -> ->]|Hc]); [..|by apply elem_of_nil in Hc];
    (eapply (op_ok_one undefined op _ ty); [done|reflexivity|reflexivity|out_op Hs|]).
  all: refine (computes_gen_arith undefined ty _ d b k x _ Hd _ _);
    [apply list_elem_of_In; cbn; tauto|by intros ->; apply Hr|by intros ->; left; apply Hk].
Qed.

Lemma op_ok_and args consts :
  op_split op = Some (op_and, ty) → fits args [ct_out; ct_in; if is_i32 ty then ct_ri else ct_reZ] args consts = true →
  length args = 3%nat → op_ok op_and ty args consts 1 2 x.
Proof.
  intros Hs Hf Hl. destruct (shape_bin _ _ _ Hf Hl) as (d & b & k & -> & -> & Hd & Hb).
  apply fits_and in Hb as [Hr Hk]. eapply (op_ok_one undefined op _ ty); [done|reflexivity|reflexivity|out_op Hs|].
  apply (computes_gen_arith undefined ty ARITH_AND); [apply list_elem_of_In; cbn; tauto|done..].
Qed.

Lemma op_ok_mul args consts :
  op_split op = Some (op_mul, ty) → fits args [ct_out; ct_in; ct_arith ty] args consts = true →
  length args = 3%nat → op_ok op_mul ty args consts 1 2 x.
Proof.
  intros Hs Hf Hl. destruct (shape_bin _ _ _ Hf Hl) as (d & b & k & -> & -> & Hd & Hb).
  apply fits_arith in Hb as [Hr Hk]. eapply (op_ok_one undefined op _ ty); [done|reflexivity|reflexivity|out_op Hs|].
  apply computes_mul; [done|by intros ->; apply Hr|done].
Qed.

Lemma op_ok_add args consts :
  op_split op = Some (op_add, ty) → fits args (op_sig op_add ty).1.1 args consts = true →
  length args = 3%nat → op_ok op_add ty args consts 1 2 x.
Proof.
  intros Hs Hf Hl.
  assert (∃ d a b k, args = [d; a; b] ∧ consts = [false; false; k] ∧ is_reg d ∧ is_reg a ∧ arg_fits args (ct_arith ty) b k = true)
    as (d & a & b & k & -> & -> & Hd & Ha & Hb).
  { destruct ty; cbn [op_sig is_i32 fst] in Hf.
    - destruct (shape_rrc ct_ri _ _ 0 Hf Hl) as (d & a & b & k & l & -> & -> & Hd & Ha & Hb & Hn).
      destruct l; [|done]. by exists d, a, b, k.
    - destruct (shape_bin ct_re _ _ Hf Hl) as (d & b & k & -> & -> & Hd & Hb). by exists d, d, b, k. }
  apply fits_arith in Hb as [Hr Hk]. eapply (op_ok_one undefined op _ ty); [done|reflexivity|reflexivity|out_op Hs|].
  by apply computes_add.
Qed.

Lemma op_ok_shift o c args consts :
  op_split op = Some (o, ty) →
  (o, c) ∈ [(op_shl, SHIFT_SHL); (op_shr, SHIFT_SHR); (op_sar, SHIFT_SAR); (op_rotl, SHIFT_ROL); (op_rotr, SHIFT_ROR)] →
  fits args [ct_out; ct_in; ct_ci] args consts = true → length args = 3%nat → op_ok o ty args consts 1 2 x.
Proof.
  intros Hs Hc Hf Hl. destruct (shape_bin _ _ _ Hf Hl) as (d & b & k & -> & -> & Hd & Hb). pose proof (fits_ci _ _ _ Hb) as Hr.
  intros outs Hv.
  assert (op_result o ty [] [xr x d; arg_val x b k] =
    shift_by (bits ty) (arg_val x b k) (λ n, shift_value ty c (xr x d) n)) as Er.
  { repeat (apply elem_of_cons in Hc as [[= -> ->]|Hc]); [..|by apply elem_of_nil in Hc]; reflexivity. }
  pose proof (eq_trans (eq_sym Er) Hv) as Hv'. unfold shift_by in Hv'. destruct (Z.ltb_spec (wrap (bits ty) (arg_val x b k)) (bits ty)); [|done].
  refine (op_ok_one undefined op o ty (λ s, gen_shift s c (type_rexw ty) d b k) [d; d; b] [false; false; k] 2 d _ x Hs _ eq_refl _ _ outs Hv).
  - rewrite Hv. symmetry. exact Hv'.
  - intros s. unfold tcg_out_op. rewrite Hs.
    repeat (apply elem_of_cons in Hc as [[= -> ->]|Hc]); [..|by apply elem_of_nil in Hc]; reflexivity.
  - apply computes_gen_shift; [|done..].
    repeat (apply elem_of_cons in Hc as [[= -> ->]|Hc]); [..|by apply elem_of_nil in Hc]; apply list_elem_of_In; cbn; tauto.
Qed.

Lemma op_ok_un o args consts :
  op_split op = Some (o, ty) → o ∈ [op_neg; op_not; op_bswap16; op_bswap32] ∨ o = op_bswap64 ∧ ty = TCG_TYPE_I64 →
  fits args [ct_out; ct_in] args consts = true → length args = 2%nat → op_ok o ty args consts 1 1 x.
Proof.
  intros Hs Hc Hf Hl. destruct (shape_un _ _ Hf Hl) as (d & -> & -> & Hd).
  assert (∀ (g : TCGOut → result TCGOut) (k : nat), (∀ s, tcg_out_op s op [d; d] [false; false] = g s) →
    (wrap (bits ty) (xr x d) < 2 ^ (8 * k) → computes undefined g ty d (bswap k (xr x d)) x) →
    op_result o ty [] [xr x d] = swap_low (bits ty) k (xr x d) → op_ok o ty [d; d] [false; false] 1 1 x) as Hsw.
  { intros g k Hg Hb Er outs Hv. pose proof (eq_trans (eq_sym Er) Hv) as Hv'. unfold swap_low in Hv'.
    destruct (Z.ltb_spec (wrap (bits ty) (xr x d)) (2 ^ (8 * k))); [|done].
    refine (op_ok_one undefined op o ty g [d; d] [false; false] 1 d _ x Hs _ eq_refl Hg (Hb _) outs Hv); [|done].
    rewrite Hv. symmetry. exact Hv'. }
  destruct Hc as [Hc|[-> Et]].
  - repeat (apply elem_of_cons in Hc as [->|Hc]); [..|by apply elem_of_nil in Hc].
    + eapply (op_ok_one undefined op _ ty); [done|reflexivity|reflexivity|out_op Hs|]. by apply computes_neg.
    + eapply (op_ok_one undefined op _ ty); [done|reflexivity|reflexivity|out_op Hs|]. by apply computes_not.
    + eapply (Hsw _ 2%nat); [out_op Hs|by apply computes_rolw|reflexivity].
    + eapply (Hsw _ 4%nat); [out_op Hs| |reflexivity]. intros _. by apply (computes_bswap undefined ty _ W32); [apply codes_bswap32|auto].
  - eapply (Hsw _ 8%nat); [out_op Hs| |reflexivity]. intros _. by apply (computes_bswap undefined ty _ W64); [apply codes_bswap64|auto].
Qed.

Lemma op_ok_ext o args consts :
  op_split op = Some (o, ty) → o ∈ [op_ext8s; op_ext16s; op_ext8u; op_ext16u; op_ext32s; op_ext32u] →
  fits args [ct_r; ct_r] args consts = true → length args = 2%nat → op_ok o ty args consts 1 1 x.
Proof.
  intros Hs Hc Hf Hl. destruct (shape_rr _ _ Hf Hl) as (d & a & -> & -> & Hd & Ha).
  repeat (apply elem_of_cons in Hc as [->|Hc]); [..|by apply elem_of_nil in Hc];
    (eapply (op_ok_one undefined op _ ty); [done|reflexivity|reflexivity|out_op Hs|]).
  - by apply computes_ext8s.
  - by apply computes_ext16s.
  - by apply computes_ext8u.
  - by apply computes_ext16u.
  - by apply computes_ext32s.
  - by apply computes_ext32u.
Qed.

Lemma op_ok_setcond args consts :
  op_split op = Some (op_setcond, ty) → fits args [ct_r; ct_r; ct_arith ty] args consts = true →
  length args = 4%nat → op_ok op_setcond ty args consts 1 2 x.
Proof.
  intros Hs Hf Hl. destruct (shape_rrc _ _ _ 1 Hf Hl) as (d & a & b & k & l & -> & -> & Hd & Ha & Hb & Hn).
  destruct l as [|c [|]]; try done. apply fits_arith in Hb as [Hr Hk]. intros outs Hv. destruct (cond_of c) as [cc|] eqn:Ec.
  - refine (op_ok_one undefined op op_setcond ty
      (λ s, (if is_i32 ty then tcg_out_setcond32 else tcg_out_setcond64) s cc d a b k) [d; a; b; c] [false; false; k] 2 d _ x Hs _ eq_refl _ _ outs Hv).
    + cbn. rewrite Ec. reflexivity.
    + intros s. unfold tcg_out_op. rewrite Hs.
      change ((c0 <- cond_of c ;; (if is_i32 ty then tcg_out_setcond32 else tcg_out_setcond64) s c0 d a b k)
              = (if is_i32 ty then tcg_out_setcond32 else tcg_out_setcond64) s cc d a b k). by rewrite Ec.
    + apply computes_setcond; [done..|by intros ->; apply Hr|done].
  - cbn in Hv. rewrite Ec in Hv. done.
Qed.

Lemma op_ok_movi args consts :
  op_split op = Some (op_movi, ty) → fits args [ct_r] args consts = true →
  length args = 2%nat → op_ok op_movi ty args consts 1 0 x.
Proof.
  intros Hs Hf Hl. destruct args as [|d [|v [|]]], consts as [|k [|]]; try done; cbn [fits] in Hf;
    rewrite ?andb_false_r, ?andb_true_r in Hf; try done. fit_reg Hf.
  eapply (op_ok_one undefined op _ ty); [done|reflexivity|reflexivity|out_op Hs|].
  apply (computes_eqv _ _ _ _ (sext 64 v)); [apply wrap_sext; destruct ty; cbn; lia|].
  apply computes_movi; [done|]. by rewrite sext_sext.
Qed.

Lemma op_ok_div o sgn args consts :
  op_split op = Some (o, ty) → (o, sgn) ∈ [(op_div2, true); (op_divu2, false)] →
  fits args (op_sig op_div2 ty).1.1 args consts = true → length args = 5%nat → op_ok o ty args consts 2 3 x.
Proof.
  intros Hs Hc Hf Hl. destruct (shape_div _ _ Hf Hl) as (b & -> & -> & Hb). intros outs Hv.
  assert (∃ q r, outs = [q; r] ∧ div_values sgn (bits ty) (xr x 0) (xr x 2) (xr x b) = Some [q; r]) as (q & r & -> & Hd).
  { assert (div_values sgn (bits ty) (xr x 0) (xr x 2) (xr x b) = Some outs) as Hd.
    { repeat (apply elem_of_cons in Hc as [[= -> ->]|Hc]); [..|by apply elem_of_nil in Hc]; exact Hv. }
    unfold div_values in Hd |- *. destruct sgn; case_match; simplify_eq; by eexists _, _. }
  assert (∃ f, codes f (IDiv sgn (wd ty) (OReg b)) ∧ ∀ s, f s = tcg_out_op s op [0; 2; 0; 2; b] [false; false; false; false; false])
    as (f & Hcode & Hg).
  { repeat (apply elem_of_cons in Hc as [[= -> ->]|Hc]); [..|by apply elem_of_nil in Hc];
      [exists (λ s, tcg_out_modrm s (OPC_GRP3_Ev + type_rexw ty) EXT3_IDIV b)|exists (λ s, tcg_out_modrm s (OPC_GRP3_Ev + type_rexw ty) EXT3_DIV b)];
      (split; [by apply codes_idiv || apply codes_div|out_op Hs]). }
  destruct (does_div undefined ty sgn f b x q r Hcode Hd) as (y & Hy & Hq & Hr & Hother & Hm).
  apply (yields_ext undefined f); [done|]. exists y. split_and!; [done|by repeat constructor| |done].
  intros k Hk. apply Hother; intros ->; apply Hk; apply list_elem_of_In; cbn; tauto.
Qed.

End ops.

(** ** All operations on registers *)

Lemma reg_op_yields (undefined : insn → mach → flags) `{TcgHost} op o ty args consts x outs :
  op_split op = Some (o, ty) → reg_op o = true → args_fit op args consts = true →
  op_result o ty (x86_cargs op args) (x86_ins x op args consts) = Some outs →
  yields undefined (λ s, tcg_out_op s op args consts) ty (x86_outs op args) outs x.
Proof.
  intros Hs Ho Hf Hv. destruct (op_sig_ok op o ty Hs Ho) as (Hct & Hno & Hnc & Hni & Hty).
  unfold args_fit, nb_args in Hf. rewrite andb_true_iff, Nat.eqb_eq, Hct, Hno, Hnc, Hni in Hf. destruct Hf as [Hf Hl].
  unfold x86_cargs, x86_ins, x86_outs in *. rewrite Hno, Hni in *. revert outs Hv.
  change (op_ok undefined op o ty args consts (op_sig o ty).1.2 (length (op_sig o ty).1.1 - (op_sig o ty).1.2) x).
  assert (length args = length (op_sig o ty).1.1 + (op_sig o ty).2)%nat as Hlen by (destruct o, ty; cbn in *; lia). clear Hl.
  destruct o; try done;
    first [by apply op_ok_movi|by apply op_ok_mul|by apply op_ok_and|by apply op_ok_setcond|by apply op_ok_un; [|left; apply list_elem_of_In; cbn; tauto|..]
          |by apply op_ok_un; [|right|..]|by apply op_ok_ext; [|apply list_elem_of_In; cbn; tauto|..]
          |by eapply op_ok_arith; [|apply list_elem_of_In; cbn; tauto|..]|by eapply op_ok_shift; [|apply list_elem_of_In; cbn; tauto|..]
          |by eapply op_ok_div; [|apply list_elem_of_In; cbn; tauto|..]|idtac].
  destruct ty; by apply op_ok_add.
Qed.
