(* ===== verification/X86Mem.v ===== *)
(** * Memory accesses in x86-64 code

    The loads and stores of the host and those of the guest: a guest address
    is an offset from [GUEST_BASE], and a big-endian guest sees the bytes in
    the other order. *)

From stdpp Require Import base list functions.
From S2P Require Import Prelude TcgData TcgLive TcgSem X86Isa X86Out X86Op X86Enc X86Sem TcgOps X86Val X86Arith X86OpOk.
Local Open Scope Z_scope.
Local Coercion Z.of_nat : nat >-> Z.

(** ** Bytes *)

Lemma le_bytes_val l : le_bytes (length l) (le_val l) = (λ b, b `mod` 256) <$> l.
Proof.
  induction l as [|b l IH]; [done|]. cbn [length le_bytes le_val fmap list_fmap]. f_equal.
  - rewrite Z.mul_comm, Z.mod_add, Z.mod_mod by lia. done.
  - rewrite Z.mul_comm, Z.div_add, (Z.div_small (b `mod` 256)) by (try apply Z.mod_pos_bound; lia). exact IH.
Qed.

Lemma le_bytes_mod k v : (λ b, b `mod` 256) <$> le_bytes k v = le_bytes k v.
Proof. rewrite <- le_bytes_val, le_bytes_length, le_val_bytes. by apply le_bytes_wrap. Qed.

Lemma fmap_rev {A B} (f : A → B) l : f <$> rev l = rev (f <$> l).
Proof. induction l as [|a l IH]; [done|]. cbn [rev fmap list_fmap]. rewrite fmap_app. by rewrite IH. Qed.

Lemma le_bytes_bswap k v : le_bytes k (bswap k v) = rev (le_bytes k v).
Proof.
  unfold bswap. pose proof (le_bytes_val (rev (le_bytes k v))) as E. rewrite length_rev, le_bytes_length in E.
  rewrite E, fmap_rev. by rewrite le_bytes_mod.
Qed.

Lemma bswap_val l : bswap (length l) (le_val l) = le_val (rev l).
Proof.
  unfold bswap. rewrite le_bytes_val, <- fmap_rev. induction (rev l) as [|b l' IH]; [done|].
  cbn [fmap list_fmap le_val]. rewrite Z.mod_mod by lia. by rewrite <- IH.
Qed.

Lemma store_wrap k a v m : store k a (wrap (8 * k) v) m = store k a v m.
Proof. unfold store. by rewrite le_bytes_wrap. Qed.

Lemma load_range k a m : 0 ≤ load k a m < 2 ^ (8 * k).
Proof. unfold load. pose proof (le_val_range ((λ i : nat, m (u64 (a + i))) <$> seq 0 k)) as H. by rewrite length_fmap, length_seq in H. Qed.

(** ** Accesses *)

(** [k] bytes in the order of the machine, or in the other one. *)
Definition mem_load (swap : bool) (k : nat) (sgn : bool) (a : Z) (m : Z → Z) : Z :=
  let l := (λ i : nat, m (u64 (a + i))) <$> seq 0 k in
  let v := le_val (if swap then rev l else l) in
  if sgn then sext (8 * k) v else v.
Definition mem_store (swap : bool) (k : nat) (a v : Z) (m : Z → Z) : Z → Z :=
  store_list a (if swap then rev (le_bytes k v) else le_bytes k v) m.

Lemma mem_load_bswap k a m : bswap k (load k a m) = mem_load true k false a m.
Proof.
  unfold load, mem_load. pose proof (bswap_val ((λ i : nat, m (u64 (a + i))) <$> seq 0 k)) as E.
  by rewrite length_fmap, length_seq in E.
Qed.

Section exec.
  Context (undefined : insn → mach → flags).
  Notation does := (does undefined).
  Notation computes := (computes undefined).

Notation at_off rm off := (OMem (mkAddr (Some rm) None (sext 32 off) false)).

Lemma ea_off ip rm off x : ea ip (mkAddr (Some rm) None (sext 32 off) false) x = u64 (xr x rm + sext 32 off).
Proof. unfold ea. cbn [a_base a_index a_disp]. by rewrite Z.add_0_r. Qed.

Lemma load_eqv k a b m : u64 a = u64 b → load k a m = load k b m.
Proof.
  intros E. unfold load. f_equal. apply list_fmap_ext. intros _ i _. by rewrite <- (wrap_add_l 64 a), E, wrap_add_l.
Qed.

Lemma store_list_eqv l a b m : u64 a = u64 b → store_list a l m = store_list b l m.
Proof.
  revert a b m. induction l as [|c l IH]; intros a b m E; [done|]. cbn [store_list]. rewrite E. apply IH.
  by rewrite <- (wrap_add_l 64 a), E, wrap_add_l.
Qed.

(** *** Loads *)

Section load.
  Context (ty : TCGType) (d rm off : Z) (x : mach) (Hd : is_reg d) (Hm : is_reg rm).
  Notation n := (bits ty).
  Notation a := (xr x rm + sext 32 off).

Lemma computes_load f w v :
  codes f (IMov w (OReg d) (SOp (at_off rm off))) → w = W64 ∨ w = W32 →
  wrap n (load (wbytes w) a (xm x)) = wrap n v → computes f ty d v x.
Proof.
  intros Hc Hw Hv. eapply computes_codes; [done|intros ip; cbn [X86Isa.exec read read_src write]; rewrite ea_off; reflexivity|].
  apply (effect_write ty d v x 0); [done|]. rewrite (load_eqv _ (u64 a) a) by apply wrap_wrap.
  rewrite (wrap_small (wbits w)); [done|]. pose proof (load_range (wbytes w) a (xm x)). by destruct Hw as [->| ->].
Qed.

Lemma computes_loadx f (sgn : bool) dw sw v :
  codes f (IMovx sgn dw sw d (at_off rm off)) → dw = W64 ∨ dw = W32 →
  wrap n (wrap (wbits dw) (if sgn then sext (wbits sw) (load (wbytes sw) a (xm x)) else load (wbytes sw) a (xm x))) = wrap n v →
  computes f ty d v x.
Proof.
  intros Hc Hw Hv. eapply computes_codes; [done|intros ip; cbn [X86Isa.exec read write]; rewrite ea_off; reflexivity|].
  apply (effect_write ty d v x 0); [done|]. by rewrite (load_eqv _ (u64 a) a) by apply wrap_wrap.
Qed.

End load.

Lemma computes_seq f g ty d u v x :
  computes f ty d u x → (∀ y, eqv ty (xr y d) u → computes g ty d v y) → computes (λ s, s <- f s ;; g s) ty d v x.
Proof.
  intros (y & Hy & [V1 O1 M1]) Hg. destruct (Hg y V1) as (z & Hz & [V2 O2 M2]). exists z. split; [by eapply does_bind|].
  split; [done|intros r Hr; by rewrite O2, O1|by rewrite M2].
Qed.

Lemma bswap_eqv (k : nat) a b : 8 * k ≤ 64 → eqv TCG_TYPE_I64 a b → bswap k a = bswap k b.
Proof. intros Hk E. unfold bswap. rewrite <- (le_bytes_wrap k 64 a), <- (le_bytes_wrap k 64 b) by done. unfold eqv, conv in E. cbn [bits] in E. by rewrite E. Qed.

Lemma mem_load_1 swap sgn a m : mem_load swap 1 sgn a m = mem_load false 1 sgn a m.
Proof. by destruct swap. Qed.

Lemma mem_load_range swap (k : nat) a m : 0 ≤ mem_load swap k false a m < 2 ^ (8 * k).
Proof.
  unfold mem_load. destruct swap.
  - pose proof (le_val_range (rev ((λ i : nat, m (u64 (a + i))) <$> seq 0 k))) as H. by rewrite length_rev, length_fmap, length_seq in H.
  - apply load_range.
Qed.

Lemma mem_load_sgn swap (k : nat) a m : sext (8 * k) (mem_load swap k false a m) = mem_load swap k true a m.
Proof. done. Qed.

Lemma u16_eqv v w : eqv TCG_TYPE_I64 v w → 0 ≤ w < 2 ^ 16 → wrap 64 v < 2 ^ 16.
Proof. intros E Hw. unfold eqv, conv in E. cbn [bits] in E. rewrite E, wrap_small; lia. Qed.

Section direct.
  Context `{TcgHost} (d rm off : Z) (x : mach) (Hd : is_reg d) (Hm : is_reg rm).
  Notation a := (xr x rm + sext 32 off).
  Notation loaded k sgn := (mem_load TARGET_WORDS_BIGENDIAN k sgn a (xm x)).

Lemma computes_ld8 sgn :
  computes (λ s, tcg_out_qemu_ld_direct s d rm off (if sgn : bool then 4 else 0)) TCG_TYPE_I64 d (loaded 1%nat sgn) x.
Proof.
  rewrite mem_load_1. destruct sgn.
  - eapply (computes_loadx TCG_TYPE_I64); [by apply (codes_movsbl TCG_TYPE_I64)|auto|]. by rewrite wrap_wrap.
  - eapply (computes_loadx TCG_TYPE_I64); [by apply codes_movzbl|auto|]. cbn [wbits bits]. f_equal. apply wrap_small.
    pose proof (load_range 1 a (xm x)). cbn in *. lia.
Qed.

Lemma sext_eqv n v w : 0 ≤ n ≤ 64 → eqv TCG_TYPE_I64 v w → sext n v = sext n w.
Proof. intros Hn E. apply sext_eq. unfold eqv, conv in E. cbn [bits] in E. by rewrite <- (wrap_le n 64 v), <- (wrap_le n 64 w), E. Qed.

(** The swap of a value that was loaded into [d]. *)
Lemma computes_swap16 m b y :
  eqv TCG_TYPE_I64 (xr y d) (load 2 b m) → computes (λ s, tcg_out_rolw_8 s d) TCG_TYPE_I64 d (mem_load true 2 false b m) y.
Proof.
  intros E. rewrite <- mem_load_bswap, <- (bswap_eqv 2 _ _ ltac:(lia) E). apply computes_rolw; [done|].
  eapply u16_eqv; [done|]. apply (load_range 2).
Qed.
Lemma computes_swap32 m b y :
  eqv TCG_TYPE_I64 (xr y d) (load 4 b m) → computes (λ s, tcg_out_bswap32 s d) TCG_TYPE_I64 d (mem_load true 4 false b m) y.
Proof.
  intros E. rewrite <- mem_load_bswap, <- (bswap_eqv 4 _ _ ltac:(lia) E).
  apply (computes_bswap undefined TCG_TYPE_I64 _ W32); [by apply codes_bswap32|auto].
Qed.
Lemma computes_swap64 m b y :
  eqv TCG_TYPE_I64 (xr y d) (load 8 b m) → computes (λ s, tcg_out_bswap64 s d) TCG_TYPE_I64 d (mem_load true 8 false b m) y.
Proof.
  intros E. rewrite <- mem_load_bswap, <- (bswap_eqv 8 _ _ ltac:(lia) E).
  apply (computes_bswap undefined TCG_TYPE_I64 _ W64); [by apply codes_bswap64|auto].
Qed.

Lemma load_zero (k : nat) w : (8 * k ≤ wbits w) → u64 (wrap (wbits w) (load k a (xm x))) = u64 (load k a (xm x)).
Proof.
  intros Hk. f_equal. apply wrap_small. pose proof (load_range k a (xm x)). pose proof (Z.pow_le_mono_r 2 (8 * k) (wbits w)). lia.
Qed.

Lemma computes_movzwl : computes (λ s, tcg_out_modrm_offset s OPC_MOVZWL d rm off) TCG_TYPE_I64 d (load 2 a (xm x)) x.
Proof. eapply (computes_loadx TCG_TYPE_I64); [by apply codes_movzwl|auto|]. by apply (load_zero 2 W32). Qed.
Lemma computes_movl : computes (λ s, tcg_out_ld s TCG_TYPE_I32 d rm off) TCG_TYPE_I64 d (load 4 a (xm x)) x.
Proof. by eapply (computes_load TCG_TYPE_I64); [by apply codes_ld|auto|]. Qed.
Lemma computes_movq : computes (λ s, tcg_out_ld s TCG_TYPE_I64 d rm off) TCG_TYPE_I64 d (load 8 a (xm x)) x.
Proof. by eapply (computes_load TCG_TYPE_I64); [by apply codes_ld|auto|]. Qed.

Lemma computes_ld16 sgn :
  computes (λ s, tcg_out_qemu_ld_direct s d rm off (if sgn : bool then 5 else 1)) TCG_TYPE_I64 d (loaded 2%nat sgn) x.
Proof.
  unfold tcg_out_qemu_ld_direct. destruct TARGET_WORDS_BIGENDIAN, sgn; cbn [Z.eqb Pos.eqb Z.lor Pos.lor when].
  - eapply computes_seq; [apply computes_movzwl|intros y E; cbv beta].
    eapply computes_seq; [by apply computes_swap16|intros z E2; cbv beta].
    rewrite <- mem_load_sgn. change (8 * 2%nat) with 16. rewrite <- (sext_eqv 16 _ _ ltac:(lia) E2). by apply (computes_ext16s undefined TCG_TYPE_I64).
  - eapply computes_seq; [apply computes_movzwl|intros y E]. by apply computes_swap16.
  - eapply (computes_loadx TCG_TYPE_I64); [by apply (codes_movswl TCG_TYPE_I64)|auto|]. by rewrite wrap_wrap.
  - eapply computes_seq; [apply computes_movzwl|intros y E]. exists y. split; [apply does_nil|by split].
Qed.

Lemma computes_ld32 sgn :
  computes (λ s, tcg_out_qemu_ld_direct s d rm off (if sgn : bool then 6 else 2)) TCG_TYPE_I64 d (loaded 4%nat sgn) x.
Proof.
  unfold tcg_out_qemu_ld_direct. destruct TARGET_WORDS_BIGENDIAN, sgn; cbn [Z.eqb Pos.eqb Z.lor Pos.lor when].
  - eapply computes_seq; [apply computes_movl|intros y E; cbv beta].
    eapply computes_seq; [by apply computes_swap32|intros z E2; cbv beta].
    rewrite <- mem_load_sgn. change (8 * 4%nat) with 32. rewrite <- (sext_eqv 32 _ _ ltac:(lia) E2). by apply (computes_ext32s undefined TCG_TYPE_I64).
  - eapply computes_seq; [apply computes_movl|intros y E]. by apply computes_swap32.
  - eapply (computes_loadx TCG_TYPE_I64); [by apply codes_movslq|auto|]. by rewrite wrap_wrap.
  - eapply computes_seq; [apply computes_movl|intros y E]. exists y. split; [apply does_nil|by split].
Qed.

Lemma computes_ld64 : computes (λ s, tcg_out_qemu_ld_direct s d rm off 3) TCG_TYPE_I64 d (loaded 8%nat false) x.
Proof.
  unfold tcg_out_qemu_ld_direct. destruct TARGET_WORDS_BIGENDIAN; cbn [Z.eqb Pos.eqb Z.lor Pos.lor when];
    (eapply computes_seq; [apply computes_movq|intros y E]); [by apply computes_swap64|].
  exists y. split; [apply does_nil|by split].
Qed.

(** The number of bytes and the sign of an access. *)
Definition access_bytes (opc : Z) : nat := Z.to_nat (2 ^ (opc .& 3)).
Definition access_sgn (opc : Z) : bool := has_flag opc 4.

Lemma computes_ld_direct opc :
  opc ∈ [0; 4; 1; 5; 2; 6; 3] →
  computes (λ s, tcg_out_qemu_ld_direct s d rm off opc) TCG_TYPE_I64 d (loaded (access_bytes opc) (access_sgn opc)) x.
Proof.
  intros Ho. repeat (apply elem_of_cons in Ho as [->|Ho]); [..|by apply elem_of_nil in Ho].
  - apply (computes_ld8 false).
  - apply (computes_ld8 true).
  - apply (computes_ld16 false).
  - apply (computes_ld16 true).
  - apply (computes_ld32 false).
  - apply (computes_ld32 true).
  - apply computes_ld64.
Qed.

End direct.

End exec.

(** * Stores and guest addresses in x86-64 code *)

Lemma le_bytes_eqv (k : nat) v w : wrap (8 * k) v = wrap (8 * k) w → le_bytes k v = le_bytes k w.
Proof. intros E. by rewrite <- (le_bytes_wrap k (8 * k) v), <- (le_bytes_wrap k (8 * k) w), E by lia. Qed.

Lemma mem_load_eqv swap k sgn a b m : u64 a = u64 b → mem_load swap k sgn a m = mem_load swap k sgn b m.
Proof.
  intros E. unfold mem_load.
  assert ((λ i : nat, m (u64 (a + i))) <$> seq 0 k = (λ i : nat, m (u64 (b + i))) <$> seq 0 k) as ->; [|done].
  apply list_fmap_ext. intros _ i _. by rewrite <- (wrap_add_l 64 a), E, wrap_add_l.
Qed.

Lemma mem_store_eqv swap k a b v m : u64 a = u64 b → mem_store swap k a v m = mem_store swap k b v m.
Proof. intros E. unfold mem_store. by apply store_list_eqv. Qed.

Section exec.
  Context (undefined : insn → mach → flags).
  Notation does := (does undefined).
  Notation computes := (computes undefined).

(** ** Stores *)

(** The code leaves the memory [m] and changes no register but those of [rs]. *)
Definition stores (f : TCGOut → result TCGOut) (rs : list Z) (m : Z → Z) (x : mach) : Prop :=
  ∃ y, does f x y ∧ xm y = m ∧ ∀ r, r ∉ rs → xr y r = xr x r.

Lemma stores_codes f w r rm off x :
  codes f (IMov w (OMem (mkAddr (Some rm) None (sext 32 off) false)) (SOp (OReg r))) →
  stores f [] (mem_store false (wbytes w) (xr x rm + sext 32 off) (xr x r) (xm x)) x.
Proof.
  intros Hc. eexists. split; [eapply does_codes; [done|]|].
  - intros ip. cbn [X86Isa.exec read read_src write]. rewrite ea_off. reflexivity.
  - split; [|done]. cbn [xm]. unfold store, mem_store. rewrite le_bytes_wrap by (destruct w; cbn; lia).
    apply store_list_eqv, wrap_wrap.
Qed.

(** The low half of a word after rolw. *)
Lemma rolw_low d y :
  is_reg d → ∃ z, does (λ s, tcg_out_rolw_8 s d) y z ∧ u16 (xr z d) = bswap 2 (xr y d) ∧ (∀ r, r ≠ d → xr z r = xr y r) ∧ xm z = xm y.
Proof.
  intros Hd. eexists. split; [eapply does_codes; [by apply codes_rolw|]|].
  - intros ip. cbn [X86Isa.exec read write wbits]. rewrite rol16. reflexivity.
  - change (8 `mod` 32 =? 0) with false. cbv iota. cbn [with_flags set_r xr xm].
    split_and!; [|by intros; rewrite fn_lookup_insert_ne|done]. rewrite fn_lookup_insert.
    rewrite <- wrap_add_l, wrap_sub_r, Z.sub_diag. change (u16 0) with 0. rewrite Z.add_0_l, wrap_wrap.
    apply wrap_small, (bswap_range 2).
Qed.

Lemma mem_store_swap (k : nat) a u v m :
  wrap (8 * k) u = wrap (8 * k) (bswap k v) → mem_store false k a u m = mem_store true k a v m.
Proof. intros E. unfold mem_store. by rewrite (le_bytes_eqv _ _ _ E), le_bytes_bswap. Qed.

Section direct.
  Context `{TcgHost} (d rm off : Z) (x : mach) (Hd : is_reg d) (Hm : is_reg rm) (Hrm : rm ≠ 6).
  Notation a := (xr x rm + sext 32 off).
  Notation stored k := (mem_store TARGET_WORDS_BIGENDIAN k a (xr x d) (xm x)).

Lemma stores_nil f m rs : stores f [] m x → stores f rs m x.
Proof. intros (y & Hy & M & O). exists y. split_and!; [done..|]. intros r _. apply O. apply not_elem_of_nil. Qed.

(** Through the scratch register, with the bytes swapped. *)
Lemma stores_swapped ty (k : nat) (sw st : Z → TCGOut → result TCGOut) :
  8 * k ≤ bits ty →
  (∀ y, ∃ z, does (sw 6) y z ∧ wrap (8 * k) (xr z 6) = wrap (8 * k) (bswap k (xr y 6)) ∧ (∀ r, r ≠ 6 → xr z r = xr y r) ∧ xm z = xm y) →
  (∀ y, stores (st 6) [] (mem_store false k (xr y rm + sext 32 off) (xr y 6) (xm y)) y) →
  stores (λ s, s <- (s <- tcg_out_mov s ty 6 d ;; sw 6 s) ;; st 6 s) [6] (mem_store true k a (xr x d) (xm x)) x.
Proof.
  intros Hk Hsw Hst. destruct (computes_mov undefined ty 6 d x ltac:(done) Hd) as (y & Hy & [V O M]).
  destruct (Hsw y) as (z & Hz & Vz & Oz & Mz). destruct (Hst z) as (w & Hw & Mw & Ow). exists w. split; [|split].
  - eapply does_bind; [by eapply does_bind|done].
  - rewrite Mw, Mz, M, Oz, O by done. apply mem_store_swap. rewrite Vz. f_equal. unfold bswap. do 2 f_equal. apply le_bytes_eqv.
    rewrite <- (wrap_le (8 * k) (bits ty) (xr y 6)), <- (wrap_le (8 * k) (bits ty) (xr x d)) by lia.
    unfold eqv, conv in V. by rewrite V.
  - intros r [Hr _]%not_elem_of_cons. rewrite Ow by apply not_elem_of_nil. by rewrite Oz, O.
Qed.

Lemma bind_pair (A : result TCGOut) (B : TCGOut → result TCGOut) (C : TCGOut → Z → result TCGOut) r :
  (s <- (s <- A ;; B s) ;; C s r) = ('(s, r) <- (s <- A ;; s <- B s ;; Ok (s, r)) ;; C s r).
Proof. destruct A as [t|]; cbn; [|done]. by destruct (B t). Qed.

Lemma stores_ext f g rs m y : (∀ s, f s = g s) → stores f rs m y → stores g rs m y.
Proof. intros E (z & Hz & H'). exists z. split; [by eapply does_ext|done]. Qed.

Lemma does_bswap_low ty w (k : nat) f y :
  (w = W64 ∧ k = 8%nat ∧ ty = TCG_TYPE_I64 ∨ w = W32 ∧ k = 4%nat ∧ ty = TCG_TYPE_I32) → codes f (IBswap w 6) →
  ∃ z, does f y z ∧ wrap (8 * k) (xr z 6) = wrap (8 * k) (bswap k (xr y 6)) ∧ (∀ r, r ≠ 6 → xr z r = xr y r) ∧ xm z = xm y.
Proof.
  intros Hw Hc. destruct (computes_bswap undefined ty f w 6 y Hc) as (z & Hz & [V O M]); [naive_solver|].
  exists z. split_and!; [done| |done..]. destruct Hw as [(-> & -> & ->)|(-> & -> & ->)]; exact V.
Qed.

Lemma stores_direct opc :
  opc ∈ [0; 1; 2; 3] → stores (λ s, tcg_out_qemu_st_direct s d rm off opc) [6] (stored (access_bytes opc)) x.
Proof.
  intros Ho. unfold tcg_out_qemu_st_direct. repeat (apply elem_of_cons in Ho as [->|Ho]); [..|by apply elem_of_nil in Ho];
    cbn [Z.eqb Pos.eqb].
  - apply stores_nil. change (access_bytes 0) with 1%nat.
    replace (stored 1%nat) with (mem_store false 1 a (xr x d) (xm x)) by (by destruct TARGET_WORDS_BIGENDIAN).
    by apply (stores_codes _ W8), codes_movb.
  - destruct TARGET_WORDS_BIGENDIAN; [|by apply stores_nil, (stores_codes _ W16), codes_movw].
    eapply stores_ext; [|apply (stores_swapped TCG_TYPE_I32 2 (λ r s, tcg_out_rolw_8 s r)
      (λ r s, tcg_out_modrm_offset s (OPC_MOVL_EvGv + P_DATA16) r rm off)); [done| |]].
    + intros s. exact (bind_pair _ (λ s, tcg_out_rolw_8 s 6) (λ s r, tcg_out_modrm_offset s (OPC_MOVL_EvGv + P_DATA16) r rm off) 6).
    + intros y. destruct (rolw_low 6 y ltac:(done)) as (z & Hz & V & O & M). exists z. split_and!; [done| |done..].
      change (8 * 2%nat) with 16. rewrite V. symmetry. apply wrap_small, (bswap_range 2).
    + intros y. by apply (stores_codes _ W16), codes_movw.
  - destruct TARGET_WORDS_BIGENDIAN; [|by apply stores_nil, (stores_codes _ W32), (codes_st TCG_TYPE_I32)].
    eapply stores_ext; [|apply (stores_swapped TCG_TYPE_I32 4 (λ r s, tcg_out_bswap32 s r)
      (λ r s, tcg_out_st s TCG_TYPE_I32 r rm off)); [done| |]].
    + intros s. exact (bind_pair _ (λ s, tcg_out_bswap32 s 6) (λ s r, tcg_out_st s TCG_TYPE_I32 r rm off) 6).
    + intros y. by apply (does_bswap_low TCG_TYPE_I32 W32); [auto|apply codes_bswap32].
    + intros y. by apply (stores_codes _ W32), (codes_st TCG_TYPE_I32).
  - destruct TARGET_WORDS_BIGENDIAN; [|by apply stores_nil, (stores_codes _ W64), (codes_st TCG_TYPE_I64)].
    eapply stores_ext; [|apply (stores_swapped TCG_TYPE_I64 8 (λ r s, tcg_out_bswap64 s r)
      (λ r s, tcg_out_st s TCG_TYPE_I64 r rm off)); [done| |]].
    + intros s. exact (bind_pair _ (λ s, tcg_out_bswap64 s 6) (λ s r, tcg_out_st s TCG_TYPE_I64 r rm off) 6).
    + intros y. by apply (does_bswap_low TCG_TYPE_I64 W64); [auto|apply codes_bswap64].
    + intros y. by apply (stores_codes _ W64), (codes_st TCG_TYPE_I64).
Qed.

End direct.

(** ** Guest addresses *)

Section guest.
  Context `{TcgHost} (base : Z) (x : mach) (Hb : is_reg base) (H6 : base ≠ 6) (H7 : base ≠ 7).

(** The code before an access, and the register and the offset of the access. *)
Lemma guest_address_ok :
  ∃ f b off y, (∀ s, guest_address s base = (s <- f s ;; Ok (s, b, off))) ∧ does f x y ∧ is_reg b ∧ b ≠ 6 ∧
    u64 (xr y b + sext 32 off) = u64 (xr x base + GUEST_BASE) ∧ (∀ r, r ≠ 7 → xr y r = xr x r) ∧ xm y = xm x.
Proof.
  unfold guest_address. destruct (Z.eqb_spec (u64 (sext 32 GUEST_BASE)) (u64 GUEST_BASE)) as [E|E]; cbn [negb].
  - exists Ok, base, (sext 32 GUEST_BASE), x. split_and!; try done; [apply does_nil|].
    rewrite sext_sext by lia. by rewrite <- wrap_add_r, E, wrap_add_r.
  - destruct (computes_movi undefined TCG_TYPE_I64 7 (sext 64 GUEST_BASE) x ltac:(done)) as (y & Hy & [V O M]); [by rewrite sext_sext|].
    destruct (computes_arithr undefined ARITH_ADD TCG_TYPE_I64 7 base y ltac:(by left) ltac:(done) Hb) as (z & Hz & [V2 O2 M2]).
    exists (λ s, s <- tcg_out_movi s TCG_TYPE_I64 7 (sext 64 GUEST_BASE) ;; tgen_arithr s (ARITH_ADD + P_REXW) 7 base), 7, 0, z.
    split_and!; try done.
    + intros s. destruct (tcg_out_movi _ _ _ _); done.
    + by eapply does_bind.
    + unfold eqv, conv in V, V2. cbn [bits] in V, V2. change (sext 32 0) with 0. rewrite Z.add_0_r, V2.
      change (alu_value ARITH_ADD (xr y 7) (xr y base)) with (xr y 7 + xr y base).
      rewrite <- wrap_add_l, V, wrap_add_l, O by done. rewrite <- wrap_add_l, wrap_sext, wrap_add_l by lia. f_equal. lia.
    + intros r Hr. by rewrite O2, O.
    + by rewrite M2.
Qed.

Lemma qemu_ld_ok d opc rest :
  is_reg d → opc ∈ [0; 4; 1; 5; 2; 6; 3] →
  ∃ y, does (λ s, tcg_out_qemu_ld s (d :: base :: rest) opc) x y ∧
    eqv TCG_TYPE_I64 (xr y d) (mem_load TARGET_WORDS_BIGENDIAN (access_bytes opc) (access_sgn opc) (xr x base + GUEST_BASE) (xm x)) ∧
    (∀ r, r ≠ d → r ≠ 7 → xr y r = xr x r) ∧ xm y = xm x.
Proof.
  intros Hd Ho. destruct guest_address_ok as (f & b & off & y & Hf & Hy & Hbr & _ & Ha & O & M).
  destruct (computes_ld_direct undefined d b off y Hd Hbr opc Ho) as (z & Hz & [V O2 M2]). exists z. split_and!.
  - eapply (does_ext _ (λ s, s <- f s ;; tcg_out_qemu_ld_direct s d b off opc)); [|by eapply does_bind].
    intros s. change (tcg_out_qemu_ld s (d :: base :: rest) opc)
      with ('(s, b, o) <- guest_address s base ;; tcg_out_qemu_ld_direct s d b o opc). rewrite Hf. by destruct (f s).
  - rewrite V. rewrite M, (mem_load_eqv _ _ _ _ _ _ Ha). done.
  - intros r H1 H2. by rewrite O2, O.
  - by rewrite M2.
Qed.

Lemma qemu_st_ok d opc rest :
  is_reg d → d ≠ 7 → opc ∈ [0; 1; 2; 3] →
  stores (λ s, tcg_out_qemu_st s (d :: base :: rest) opc) [6; 7]
    (mem_store TARGET_WORDS_BIGENDIAN (access_bytes opc) (xr x base + GUEST_BASE) (xr x d) (xm x)) x.
Proof.
  intros Hd Hd7 Ho. destruct guest_address_ok as (f & b & off & y & Hf & Hy & Hbr & Hb6 & Ha & O & M).
  destruct (stores_direct d b off y Hd Hbr Hb6 opc Ho) as (z & Hz & Mz & Oz). exists z. split_and!.
  - eapply (does_ext _ (λ s, s <- f s ;; tcg_out_qemu_st_direct s d b off opc)); [|by eapply does_bind].
    intros s. change (tcg_out_qemu_st s (d :: base :: rest) opc)
      with ('(s, b, o) <- guest_address s base ;; tcg_out_qemu_st_direct s d b o opc). rewrite Hf. by destruct (f s).
  - rewrite Mz, M, (O d) by done. by apply mem_store_eqv.
  - intros r Hr. rewrite !not_elem_of_cons in Hr. destruct Hr as (Hr6 & Hr7 & _). rewrite Oz, O; [done..|].
    intros [?|?%elem_of_nil]%elem_of_cons; done.
Qed.

End guest.

End exec.
