(* ===== verification/X86MemOk.v ===== *)
(** * Loads and stores as operations

    The code that [tcg_out_op] writes for the accesses to the memory of the
    host and of the guest. *)

From stdpp Require Import base list functions.
From S2P Require Import Prelude TcgData TcgLive TcgSem X86Isa X86Out X86Op X86Enc X86Sem TcgOps X86Val X86Arith X86OpOk X86Mem.
Local Open Scope Z_scope.
Local Coercion Z.of_nat : nat >-> Z.

(** Whether an operation accesses the guest, whether it stores, and its size
    and sign as in [tcg_out_qemu_ld]. *)
Definition mem_access (o : opname) (ty : TCGType) : option (bool * bool * Z) :=
  match o with
  | op_ld8u => Some (false, false, 0) | op_ld8s => Some (false, false, 4)
  | op_ld16u => Some (false, false, 1) | op_ld16s => Some (false, false, 5)
  | op_ld32u => Some (false, false, 2) | op_ld32s => Some (false, false, 6)
  | op_ld => Some (false, false, if is_i32 ty then 2 else 3)
  | op_st8 => Some (false, true, 0) | op_st16 => Some (false, true, 1) | op_st32 => Some (false, true, 2)
  | op_st => Some (false, true, if is_i32 ty then 2 else 3)
  | op_qemu_ld8u => Some (true, false, 0) | op_qemu_ld8s => Some (true, false, 4)
  | op_qemu_ld16u => Some (true, false, 1) | op_qemu_ld16s => Some (true, false, 5)
  | op_qemu_ld32 | op_qemu_ld32u => Some (true, false, 2) | op_qemu_ld32s => Some (true, false, 6)
  | op_qemu_ld64 => Some (true, false, 3)
  | op_qemu_st8 => Some (true, true, 0) | op_qemu_st16 => Some (true, true, 1)
  | op_qemu_st32 => Some (true, true, 2) | op_qemu_st64 => Some (true, true, 3)
  | _ => None
  end.

Definition ct_L : TCGArgConstraint := mkCT 1 0 0xff3f.

Definition mem_fact (op : TCGOpcode) : bool :=
  match op_split op with
  | Some (o, ty) =>
      match mem_access o ty with
      | Some (guest, st, _) =>
          bool_decide (args_ct (op_info op) = [if guest && st then ct_L else ct_r; if guest then ct_L else ct_r]) &&
          (nb_args (op_def op) =? 3)%nat && (match o with op_ld32u | op_ld32s | op_st32 => negb (is_i32 ty) | _ => true end)
      | None => true
      end
  | None => true
  end.

Lemma mem_facts : forallb mem_fact (seq 0 NB_OPS) = true.
Proof. vm_compute. reflexivity. Qed.

Lemma fits_L all a k : arg_fits all ct_L a k = true → k = false ∧ is_reg a ∧ a ≠ 6 ∧ a ≠ 7.
Proof. intros H. fit_reg H. split_and!; [done..| |]; intros ->; done. Qed.

Lemma mem_args op o ty guest st opc args consts :
  op_split op = Some (o, ty) → mem_access o ty = Some (guest, st, opc) → args_fit op args consts = true →
  ∃ d b c, args = [d; b; c] ∧ consts = [false; false] ∧ is_reg d ∧ is_reg b ∧
    (guest = true → b ≠ 6 ∧ b ≠ 7 ∧ (st = true → d ≠ 7)) ∧ (match o with op_ld32u | op_ld32s | op_st32 => ty = TCG_TYPE_I64 | _ => True end).
Proof.
  intros Hs Hm Hf. pose proof (op_split_lt _ _ Hs) as Hlt. pose proof mem_facts as Ht. rewrite forallb_forall in Ht.
  specialize (Ht op ltac:(apply in_seq; lia)). unfold mem_fact in Ht. rewrite Hs, Hm, !andb_true_iff, bool_decide_eq_true, Nat.eqb_eq in Ht.
  destruct Ht as [[Hct Hn] Hty]. unfold args_fit in Hf. rewrite Hct, Hn, andb_true_iff, Nat.eqb_eq in Hf. destruct Hf as [Hf Hl].
  destruct args as [|d [|b [|c [|]]]], consts as [|k0 [|k1 [|]]]; try done; cbn [fits] in Hf; rewrite ?andb_false_r, ?andb_true_r in Hf; try done.
  apply andb_true_iff in Hf as [H0 H1]. exists d, b, c.
  assert (match o with op_ld32u | op_ld32s | op_st32 => ty = TCG_TYPE_I64 | _ => True end) as Ety by (by destruct o, ty).
  destruct guest, st; cbn [andb] in H0, H1.
  - apply fits_L in H0 as (-> & ? & ? & ?), H1 as (-> & ? & ? & ?). by split_and!.
  - apply fits_L in H1 as (-> & ? & ? & ?). fit_reg H0. by split_and!.
  - fit_reg H0. fit_reg H1. by split_and!.
  - fit_reg H0. fit_reg H1. by split_and!.
Qed.

Section exec.
  Context (undefined : insn → mach → flags) `{TcgHost}.
  Notation does := (does undefined).
  Notation computes := (computes undefined).

Lemma computes_i64 f ty d v x : computes f TCG_TYPE_I64 d v x → computes f ty d v x.
Proof.
  intros (y & Hy & [V O M]). exists y. split; [done|]. split; [|done..].
  unfold eqv, conv in *. cbn [bits] in V. by rewrite <- (wrap_bits64 ty), V, wrap_bits64.
Qed.

(** ** Host memory *)

Section host.
  Context (ty : TCGType) (d b off : Z) (x : mach) (Hd : is_reg d) (Hb : is_reg b) (Hoff : sext 64 off = sext 32 off).
  Notation loaded k sgn := (mem_load false k sgn (xr x b + off) (xm x)).

Lemma host_addr : u64 (xr x b + sext 32 (sext 64 off)) = u64 (xr x b + off).
Proof. rewrite sext_sext, <- Hoff by lia. by rewrite <- wrap_add_r, wrap_sext, wrap_add_r by lia. Qed.

Lemma computes_hostx f (sgn : bool) dw sw :
  codes f (IMovx sgn dw sw d (OMem (mkAddr (Some b) None (sext 32 (sext 64 off)) false))) → dw = W64 ∨ dw = W32 →
  (if sgn then dw = wd ty ∨ dw = W64 else wbits sw ≤ wbits dw) → computes f ty d (loaded (wbytes sw) sgn) x.
Proof.
  intros Hc Hdw Hs. rewrite <- (mem_load_eqv _ _ _ _ _ _ host_addr). eapply computes_loadx; [done|done|].
  assert (8 * wbytes sw = wbits sw) as Ew by (by destruct sw). unfold mem_load. rewrite Ew. destruct sgn.
  - destruct Hs as [->| ->]; [by rewrite wbits_wd, wrap_wrap|apply wrap_bits64].
  - f_equal. apply wrap_small. pose proof (load_range (wbytes sw) (xr x b + sext 32 (sext 64 off)) (xm x)) as Hr.
    rewrite Ew in Hr. unfold load in Hr |- *. cbv iota in Hs. pose proof (Z.pow_le_mono_r 2 (wbits sw) (wbits dw)). lia.
Qed.

Lemma computes_host f w :
  codes f (IMov w (OReg d) (SOp (OMem (mkAddr (Some b) None (sext 32 (sext 64 off)) false)))) → w = W64 ∨ w = W32 →
  computes f ty d (loaded (wbytes w) false) x.
Proof. intros Hc Hw. rewrite <- (mem_load_eqv _ _ _ _ _ _ host_addr). by eapply computes_load. Qed.

Lemma stores_host f w :
  codes f (IMov w (OMem (mkAddr (Some b) None (sext 32 (sext 64 off)) false)) (SOp (OReg d))) →
  stores undefined f [] (mem_store false (wbytes w) (xr x b + off) (xr x d) (xm x)) x.
Proof. intros Hc. rewrite <- (mem_store_eqv _ _ _ _ _ _ host_addr). by apply stores_codes. Qed.

End host.

(** ** All accesses *)

(** What an access does: the value in [d] or the memory, and the registers
    that it may change. *)
Definition access_ok (f : TCGOut → result TCGOut) (ty : TCGType) (guest st : bool) (opc d a : Z) (x : mach) : Prop :=
  let swap := guest && TARGET_WORDS_BIGENDIAN in
  ∃ y, does f x y ∧
    (if st then xm y = mem_store swap (access_bytes opc) a (xr x d) (xm x)
     else xm y = xm x ∧ eqv ty (xr y d) (mem_load swap (access_bytes opc) (access_sgn opc) a (xm x))) ∧
    ∀ r, r ∉ (if st then [] else [d]) ++ (if guest then [TCG_REG_ESI; TCG_REG_EDI] else []) → xr y r = xr x r.

Lemma access_load f ty opc d a x :
  computes f ty d (mem_load false (access_bytes opc) (access_sgn opc) a (xm x)) x → access_ok f ty false false opc d a x.
Proof.
  intros (y & Hy & [V O M]). exists y. split_and!; [done..|]. intros r Hr. apply O. by apply not_elem_of_cons in Hr as [? _].
Qed.

Lemma access_store f ty opc d a x :
  stores undefined f [] (mem_store false (access_bytes opc) a (xr x d) (xm x)) x → access_ok f ty false true opc d a x.
Proof. intros (y & Hy & M & O). by exists y. Qed.

Lemma access_qemu_ld ty opc d b c x :
  is_reg d → is_reg b → b ≠ 6 → b ≠ 7 → opc ∈ [0; 4; 1; 5; 2; 6; 3] →
  access_ok (λ s, tcg_out_qemu_ld s [d; b; c] opc) ty true false opc d (xr x b + GUEST_BASE) x.
Proof.
  intros Hd Hb H6 H7 Ho. destruct (qemu_ld_ok undefined b x Hb H6 H7 d opc [c] Hd Ho) as (y & Hy & V & O & M).
  exists y. split_and!; [done|done| |].
  - unfold eqv, conv in *. cbn [bits] in V. by rewrite <- (wrap_bits64 ty), V, wrap_bits64.
  - intros r Hr. cbn [app] in Hr. rewrite !not_elem_of_cons in Hr. destruct Hr as (? & ? & ? & _). by apply O.
Qed.

Lemma access_qemu_st ty opc d b c x :
  is_reg d → is_reg b → b ≠ 6 → b ≠ 7 → d ≠ 7 → opc ∈ [0; 1; 2; 3] →
  access_ok (λ s, tcg_out_qemu_st s [d; b; c] opc) ty true true opc d (xr x b + GUEST_BASE) x.
Proof.
  intros Hd Hb H6 H7 Hd7 Ho. destruct (qemu_st_ok undefined b x Hb H6 H7 d opc [c] Hd Hd7 Ho) as (y & Hy & M & O). by exists y.
Qed.

Lemma access_ext f g ty guest st opc d a x : (∀ s, f s = g s) → access_ok f ty guest st opc d a x → access_ok g ty guest st opc d a x.
Proof. intros E (y & Hy & Hr). exists y. split; [by eapply does_ext|done]. Qed.

(** The access that [f] writes is the one of the operation. *)
Ltac access Hs f := apply (access_ext f); [intros s; unfold tcg_out_op; rewrite Hs; reflexivity|].

Lemma host_load_ok op o ty opc d b c x :
  op_split op = Some (o, ty) → mem_access o ty = Some (false, false, opc) → is_reg d → is_reg b → sext 64 c = sext 32 c →
  (match o with op_ld32u | op_ld32s | op_st32 => ty = TCG_TYPE_I64 | _ => True end) →
  access_ok (λ s, tcg_out_op s op [d; b; c] [false; false]) ty false false opc d (xr x b + c) x.
Proof.
  intros Hs Hm Hd Hb Hc Hty. destruct o; try done; injection Hm as <-.
  - access Hs (λ s, tcg_out_modrm_offset s OPC_MOVZBL d b (sext 64 c)). apply access_load.
    by apply (computes_hostx ty d b c x Hc _ false W32 W8); [apply codes_movzbl|auto|].
  - access Hs (λ s, tcg_out_modrm_offset s (OPC_MOVSBL + type_rexw ty) d b (sext 64 c)). apply access_load.
    by apply (computes_hostx ty d b c x Hc _ true (wd ty) W8); [apply codes_movsbl|destruct ty; auto|left].
  - access Hs (λ s, tcg_out_modrm_offset s OPC_MOVZWL d b (sext 64 c)). apply access_load.
    by apply (computes_hostx ty d b c x Hc _ false W32 W16); [apply codes_movzwl|auto|].
  - access Hs (λ s, tcg_out_modrm_offset s (OPC_MOVSWL + type_rexw ty) d b (sext 64 c)). apply access_load.
    by apply (computes_hostx ty d b c x Hc _ true (wd ty) W16); [apply codes_movswl|destruct ty; auto|left].
  - access Hs (λ s, tcg_out_ld s TCG_TYPE_I32 d b (sext 64 c)). apply access_load.
    by apply (computes_host ty d b c x Hc _ W32); [apply codes_ld|auto].
  - access Hs (λ s, tcg_out_modrm_offset s OPC_MOVSLQ d b (sext 64 c)). apply access_load.
    by apply (computes_hostx ty d b c x Hc _ true W64 W32); [apply codes_movslq|auto|right].
  - access Hs (λ s, tcg_out_ld s ty d b (sext 64 c)). apply access_load.
    destruct ty; [by apply (computes_host TCG_TYPE_I32 d b c x Hc _ W32); [apply codes_ld|auto]|].
    by apply (computes_host TCG_TYPE_I64 d b c x Hc _ W64); [apply codes_ld|auto].
Qed.

Lemma host_store_ok op o ty opc d b c x :
  op_split op = Some (o, ty) → mem_access o ty = Some (false, true, opc) → is_reg d → is_reg b → sext 64 c = sext 32 c →
  access_ok (λ s, tcg_out_op s op [d; b; c] [false; false]) ty false true opc d (xr x b + c) x.
Proof.
  intros Hs Hm Hd Hb Hc. destruct o; try done; injection Hm as <-.
  - access Hs (λ s, tcg_out_modrm_offset s (OPC_MOVB_EvGv .| P_REXB_R) d b (sext 64 c)). apply access_store.
    by apply (stores_host d b c x Hc _ W8), codes_movb.
  - access Hs (λ s, tcg_out_modrm_offset s (OPC_MOVL_EvGv .| P_DATA16) d b (sext 64 c)). apply access_store.
    by apply (stores_host d b c x Hc _ W16), codes_movw.
  - access Hs (λ s, tcg_out_st s TCG_TYPE_I32 d b (sext 64 c)). apply access_store.
    by apply (stores_host d b c x Hc _ W32), (codes_st TCG_TYPE_I32).
  - access Hs (λ s, tcg_out_st s ty d b (sext 64 c)). apply access_store.
    destruct ty; [by apply (stores_host d b c x Hc _ W32), (codes_st TCG_TYPE_I32)|].
    by apply (stores_host d b c x Hc _ W64), (codes_st TCG_TYPE_I64).
Qed.

Lemma guest_op_ok op o ty st opc d b c x :
  op_split op = Some (o, ty) → mem_access o ty = Some (true, st, opc) → is_reg d → is_reg b →
  b ≠ 6 ∧ b ≠ 7 ∧ (st = true → d ≠ 7) →
  access_ok (λ s, tcg_out_op s op [d; b; c] [false; false]) ty true st opc d (xr x b + GUEST_BASE) x.
Proof.
  intros Hs Hm Hd Hb (H6 & H7 & H8). destruct st.
  - apply (access_ext (λ s, tcg_out_qemu_st s [d; b; c] opc)).
    { intros s. unfold tcg_out_op. rewrite Hs. destruct o; try done; injection Hm as <-; reflexivity. }
    apply access_qemu_st; auto. destruct o; try done; injection Hm as <-; apply list_elem_of_In; cbn; tauto.
  - apply (access_ext (λ s, tcg_out_qemu_ld s [d; b; c] opc)).
    { intros s. unfold tcg_out_op. rewrite Hs. destruct o; try done; injection Hm as <-; reflexivity. }
    apply access_qemu_ld; auto. destruct o; try done; injection Hm as <-; apply list_elem_of_In; cbn; tauto.
Qed.

Lemma mem_op_ok op o ty guest st opc args consts x :
  op_split op = Some (o, ty) → mem_access o ty = Some (guest, st, opc) → args_fit op args consts = true →
  (guest = false → ∀ c, args !! 2%nat = Some c → sext 64 c = sext 32 c) →
  ∃ d b c, args = [d; b; c] ∧
    access_ok (λ s, tcg_out_op s op args consts) ty guest st opc d (xr x b + (if guest then GUEST_BASE else c)) x.
Proof.
  intros Hs Hm Hf Hc. destruct (mem_args _ _ _ _ _ _ _ _ Hs Hm Hf) as (d & b & c & -> & -> & Hd & Hb & Hg & Hty).
  exists d, b, c. split; [done|].
  assert (guest = false → sext 64 c = sext 32 c) as Hoff by (intros E; by apply (Hc E c)).
  destruct guest; [by eapply guest_op_ok; auto|]. destruct st; [by eapply host_store_ok; auto|by eapply host_load_ok; auto].
Qed.

End exec.
