(* ===== verification/X86Labels.v ===== *)
(** * Jumps and labels in x86-64 code

    The jumps of a block are written before or after their labels; a jump to a
    label without a value leaves a relocation that [tcg_out_label] patches.
    Whatever code is written between them, at the end each jump goes to its
    label. *)

From stdpp Require Import base list functions.
From S2P Require Import Prelude TcgData TcgLive X86Isa X86Out X86Enc.
Local Open Scope Z_scope.
Local Coercion Z.of_nat : nat >-> Z.

(** ** Bytes of jumps *)

(** The condition codes, and -1 for an unconditional jump. *)
Definition jcc_ok (opc : Z) : Prop := -1 ≤ opc < 16.

Definition jump_head (long : bool) (opc : Z) : list Z :=
  if opc =? -1 then [if long then 0xe9 else 0xeb] else if long then [0x0f; 0x80 + opc] else [0x70 + opc].
Definition disp_len (long : bool) : nat := if long then 4 else 1.
Definition jump_bytes (long : bool) (opc d : Z) : list Z := jump_head long opc ++ le_bytes (disp_len long) d.
Definition jump_insn (opc d : Z) : insn := if opc =? -1 then IJmp d else IJcc opc d.

Lemma jcc_cases (P : Z → Prop) opc :
  jcc_ok opc → P (-1) → P 0 → P 1 → P 2 → P 3 → P 4 → P 5 → P 6 → P 7 → P 8 → P 9 → P 10 → P 11 → P 12 → P 13 → P 14 → P 15 → P opc.
Proof.
  intros Ho. intros. assert (opc = -1 ∨ opc = 0 ∨ opc = 1 ∨ opc = 2 ∨ opc = 3 ∨ opc = 4 ∨ opc = 5 ∨ opc = 6 ∨ opc = 7 ∨
    opc = 8 ∨ opc = 9 ∨ opc = 10 ∨ opc = 11 ∨ opc = 12 ∨ opc = 13 ∨ opc = 14 ∨ opc = 15) as HH by (unfold jcc_ok in Ho; lia).
  destruct_or! HH; by subst opc.
Qed.

Ltac jump_code long c n d :=
  let v := eval vm_compute in c in
  let E := fresh in pose proof (encodes_none v 0 eq_refl n _ d eq_refl eq_refl eq_refl ltac:(lia)) as E; exact E.

Lemma jump_encodes long opc d :
  jcc_ok opc → encodes (jump_bytes long opc d) (jump_insn opc (sext (8 * disp_len long) d)).
Proof.
  intros Ho. pattern opc. apply (jcc_cases _ opc Ho); destruct long;
    match goal with
    | |- encodes (jump_bytes true ?o _) _ => jump_code true (if o =? -1 then 0xe9 else OPC_JCC_long + o) 4%nat d
    | |- encodes (jump_bytes false ?o _) _ => jump_code false (if o =? -1 then 0xeb else OPC_JCC_short + o) 1%nat d
    end.
Qed.

Definition jump_len (long : bool) (opc : Z) : nat := length (jump_head long opc) + disp_len long.

Lemma jump_bytes_length long opc d : length (jump_bytes long opc d) = jump_len long opc.
Proof. unfold jump_bytes, jump_len. by rewrite length_app, le_bytes_length. Qed.

Lemma jump_len_range long opc : (2 ≤ jump_len long opc ≤ 6)%nat.
Proof. unfold jump_len, jump_head. destruct (opc =? -1), long; cbn; lia. Qed.

Lemma jcc_long_writes s opc : 0 ≤ opc < 16 → tcg_out_opc s (OPC_JCC_long + opc) 0 0 0 = Ok (emit s [0x0f; 0x80 + opc]).
Proof.
  intros Ho. assert (0 ≤ opc) as H0 by lia. revert H0. pattern opc. apply (jcc_cases _ opc); [unfold jcc_ok; lia|done|..]; intros _;
    match goal with |- tcg_out_opc _ ?o _ _ _ = _ => exact (opc_writes o 0 0 0 ltac:(done) ltac:(done) ltac:(done) eq_refl s) end.
Qed.

(** A jump to a label with a value. *)
Lemma jxx_value s opc l v :
  jcc_ok opc → labels s !! Z.to_nat l = Some (LValue v) → 0 ≤ l → - 2 ^ 31 + 16 ≤ v - code_ptr s < 2 ^ 31 →
  ∃ long, tcg_out_jxx s opc l false = Ok (emit s (jump_bytes long opc (v - (code_ptr s + jump_len long opc)))) ∧
    sext (8 * disp_len long) (v - (code_ptr s + jump_len long opc)) = v - (code_ptr s + jump_len long opc).
Proof.
  intros Ho Hl H0 Hd. unfold tcg_out_jxx, aref. destruct (Z.ltb_spec l 0); [lia|]. rewrite Hl. cbn [deref rbind].
  rewrite (sext_small 32 (v - code_ptr s)), (sext_small 32 (v - code_ptr s - 2)) by (cbn; lia).
  destruct (Z.eqb_spec (sext 8 (v - code_ptr s - 2)) (v - code_ptr s - 2)) as [E|_].
  - assert (jump_len false opc = 2%nat) as El by (unfold jump_len, jump_head; by destruct (opc =? -1)).
    exists false. rewrite El. replace (v - (code_ptr s + 2%nat)) with (v - code_ptr s - 2) by lia. split; [|exact E].
    unfold jump_bytes, jump_head, tcg_out8, jcc_ok in *. destruct (Z.eqb_spec opc (-1)); rewrite emit_emit; [done|].
    rewrite (wrap_small 8 (OPC_JCC_short + opc)); [done|]. unfold OPC_JCC_short. change (2 ^ 8) with 256. lia.
  - exists true. unfold jump_bytes, jump_len. split.
    2: { apply sext_small; [cbn; lia|]. pose proof (jump_len_range true opc). unfold jump_len in *. cbn [disp_len] in *. cbn. lia. }
    unfold jump_head. destruct (Z.eqb_spec opc (-1)) as [->|Hne]; unfold tcg_out8, tcg_out32.
    + rewrite emit_emit. cbn [length disp_len Nat.add]. by replace (v - (code_ptr s + 5%nat)) with (v - code_ptr s - 5) by lia.
    + rewrite jcc_long_writes by (unfold jcc_ok in Ho; lia).
      cbn [rbind]. rewrite emit_emit. cbn [length disp_len Nat.add].
      by replace (v - (code_ptr s + 6%nat)) with (v - code_ptr s - 6) by lia.
Qed.

(** A jump to a label without a value. *)
Lemma jxx_reloc s opc l rs :
  jcc_ok opc → labels s !! Z.to_nat l = Some (LRelocs rs) → 0 ≤ l →
  let p := code_ptr s + length (jump_head true opc) in
  tcg_out_jxx s opc l false =
    Ok (skip_bytes ((emit s (jump_head true opc)) <| labels := <[Z.to_nat l := LRelocs (mkReloc R_386_PC32 p (-4) :: rs)]> (labels s) |>) 4).
Proof.
  intros Ho Hl H0. cbv zeta. unfold tcg_out_jxx, tcg_out_reloc, aref. destruct (Z.ltb_spec l 0); [lia|]. rewrite Hl. cbn [deref rbind].
  assert ((if opc =? -1 then Ok (tcg_out8 s OPC_JMP_long) else tcg_out_opc s (OPC_JCC_long + opc) 0 0 0) = Ok (emit s (jump_head true opc))) as ->.
  { unfold jump_head, jcc_ok in *. destruct (Z.eqb_spec opc (-1)); [done|]. apply jcc_long_writes. lia. }
  cbn [rbind]. change (labels (emit s (jump_head true opc))) with (labels s). rewrite Hl. done.
Qed.

(** ** Relocations *)

Definition reloc_ok (v : Z) (r : TCGRelocation) : Prop :=
  rel_type r = R_386_PC32 ∧ rel_addend r = -4 ∧ - 2 ^ 31 ≤ v - (rel_ptr r + 4) < 2 ^ 31 ∧ 0 ≤ rel_ptr r < 2 ^ 62 ∧ 0 ≤ v < 2 ^ 62.

Lemma patch_reloc_ok s v r :
  reloc_ok v r →
  patch_reloc s (rel_ptr r) (rel_type r) v (rel_addend r) = Ok (s <| cmem := put (cmem s) (rel_ptr r) (le_bytes 4 (v - (rel_ptr r + 4))) |>).
Proof.
  intros (-> & -> & Hv & Hp & Hr). unfold patch_reloc. rewrite (sext_small 64 (v + -4)) by (cbn in *; lia).
  rewrite (sext_small 64) by (cbn in *; lia). replace (v + -4 - rel_ptr r) with (v - (rel_ptr r + 4)) by lia.
  rewrite (sext_small 32) by (cbn in *; lia). by rewrite !Z.eqb_refl.
Qed.

(** The fields of two relocations are the same or disjoint. *)
Definition fields_apart (r r' : TCGRelocation) : Prop :=
  rel_ptr r = rel_ptr r' ∨ rel_ptr r + 4 ≤ rel_ptr r' ∨ rel_ptr r' + 4 ≤ rel_ptr r.

Lemma put_same m a l p : (∀ i : nat, p ≠ a + i ∨ (length l ≤ i)%nat) → put m a l p = m p.
Proof.
  intros Hp. apply put_outside. destruct (decide (p < a)) as [|Hge]; [by left|right].
  destruct (Hp (Z.to_nat (p - a))); lia.
Qed.

Lemma patch_relocs_ok rs s v :
  Forall (reloc_ok v) rs → (∀ r r', r ∈ rs → r' ∈ rs → fields_apart r r') →
  ∃ m, patch_relocs s rs v = Ok (s <| cmem := m |>) ∧
    (∀ r, r ∈ rs → code_at m (rel_ptr r) (le_bytes 4 (v - (rel_ptr r + 4)))) ∧
    (∀ q, (∀ r, r ∈ rs → q < rel_ptr r ∨ rel_ptr r + 4 ≤ q) → m q = cmem s q).
Proof.
  revert s. induction rs as [|r rs IH]; intros s Hok Hap.
  - exists (cmem s). split; [by destruct s|]. split; [by intros r ?%elem_of_nil|done].
  - apply Forall_cons_1 in Hok as [Hr Hok]. cbn [patch_relocs]. rewrite patch_reloc_ok by done. cbn [rbind].
    destruct (IH (s <| cmem := put (cmem s) (rel_ptr r) (le_bytes 4 (v - (rel_ptr r + 4))) |>)) as (m & E & Hin & Hout); [done| |].
    { intros r1 r2 H1 H2. apply Hap; by right. }
    exists m. split; [by rewrite E; destruct s|]. split.
    + intros r' [->|Hr']%elem_of_cons; [|by apply Hin]. intros i b Hi.
      assert (i < 4)%nat as Hlt by (apply lookup_lt_Some in Hi; by rewrite le_bytes_length in Hi).
      destruct (decide (Exists (λ r', rel_ptr r' = rel_ptr r) rs)) as [(r' & Hr'%list_elem_of_In & Ep)%Exists_exists|Hno].
      * rewrite <- Ep in Hi |- *. by apply (Hin r' Hr').
      * rewrite Hout; [destruct s; by apply put_inside|]. intros r' Hr'. destruct (Hap r r') as [Ep|Ep]; [by left|by right| |lia].
        exfalso. apply Hno, Exists_exists. exists r'. by rewrite <- list_elem_of_In.
    + intros q Hq. rewrite Hout by (intros r' Hr'; apply Hq; by right).
      change (put (cmem s) (rel_ptr r) (le_bytes 4 (v - (rel_ptr r + 4))) q = cmem s q). apply put_outside.
      rewrite le_bytes_length. destruct (Hq r ltac:(by left)); lia.
Qed.

(** * Every jump goes to its label

    The invariant of the jumps that were written and of the relocations that
    wait, and its preservation by code, jumps and labels in any order. *)

(** ** Output of a block *)

(** Bytes of other instructions, a jump or a label.  The bytes may depend on
    their address, and [u] is what else is noted of them. *)
Inductive event := ECode (n : nat) (g : Z → list Z) (u : Z → TCGOut → TCGOut) | EJump (opc label : Z) | ELabel (label : Z).

Definition do_event (s : TCGOut) (e : event) : result TCGOut :=
  match e with
  | ECode _ g u => Ok (u (code_ptr s) (emit s (g (code_ptr s))))
  | EJump opc l => tcg_out_jxx s opc l false
  | ELabel l => tcg_out_label s l (code_ptr s)
  end.

Fixpoint do_events (s : TCGOut) (es : list event) : result TCGOut :=
  match es with [] => Ok s | e :: es => s <- do_event s e ;; do_events s es end.

Lemma do_events_app s es1 es2 : do_events s (es1 ++ es2) = (s <- do_events s es1 ;; do_events s es2).
Proof. revert s. induction es1 as [|e es1 IH]; intros s; cbn [do_events app rbind]; [done|]. destruct (do_event s e); cbn; [apply IH|done]. Qed.

Definition event_size (e : event) : Z := match e with ECode n _ _ => n | EJump _ _ => 6 | ELabel _ => 0 end.
Definition size (es : list event) : Z := foldr (λ e n, event_size e + n) 0 es.
Definition placed (es : list event) : list Z := omap (λ e, match e with ELabel l => Some l | _ => None end) es.

Lemma size_app es1 es2 : size (es1 ++ es2) = size es1 + size es2.
Proof. induction es1 as [|e es1 IH]; cbn; [done|]. unfold size in *. lia. Qed.

Lemma size_nonneg es : 0 ≤ size es.
Proof. induction es as [|e es IH]; cbn; [done|]. unfold size in *. destruct e; cbn; lia. Qed.

(** ** Jumps *)

Record jump := mkJ { j_ip : Z; j_long : bool; j_opc : Z; j_label : nat }.

Definition j_next (j : jump) : Z := j_ip j + jump_len (j_long j) (j_opc j).
Definition j_reloc (j : jump) : TCGRelocation := mkReloc R_386_PC32 (j_ip j + length (jump_head true (j_opc j))) (-4).

(** The bytes of a jump in the memory: complete if its label has a value. *)
Definition jump_ok (s : TCGOut) (j : jump) : Prop :=
  match labels s !! j_label j with
  | Some (LValue v) =>
      code_at (cmem s) (j_ip j) (jump_bytes (j_long j) (j_opc j) (v - j_next j)) ∧
      sext (8 * disp_len (j_long j)) (v - j_next j) = v - j_next j
  | Some (LRelocs rs) => j_long j = true ∧ code_at (cmem s) (j_ip j) (jump_head true (j_opc j)) ∧ j_reloc j ∈ rs
  | None => False
  end.

Record inv (start bound : Z) (s : TCGOut) (J : list jump) : Prop := mkInv {
  inv_ptr : start ≤ code_ptr s ≤ bound;
  inv_where j : j ∈ J → jcc_ok (j_opc j) ∧ start ≤ j_ip j ∧ j_next j ≤ code_ptr s;
  inv_ok j : j ∈ J → jump_ok s j;
  inv_apart j j' : j ∈ J → j' ∈ J → j = j' ∨ j_next j ≤ j_ip j' ∨ j_next j' ≤ j_ip j;
  inv_relocs l rs r : labels s !! l = Some (LRelocs rs) → r ∈ rs → ∃ j, j ∈ J ∧ j_label j = l ∧ j_long j = true ∧ r = j_reloc j;
  inv_values l v : labels s !! l = Some (LValue v) → start ≤ v ≤ code_ptr s
}.

Lemma reloc_end j : j_long j = true → rel_ptr (j_reloc j) + 4 = j_next j.
Proof. intros Hl. unfold j_next, jump_len. rewrite Hl. cbn [j_reloc rel_ptr disp_len]. lia. Qed.

Lemma code_at_below s m a l :
  (∀ q, q < code_ptr s → m q = cmem s q) → a + length l ≤ code_ptr s → code_at (cmem s) a l → code_at m a l.
Proof.
  intros Hm Ha Hc i b Hi. pose proof (lookup_lt_Some _ _ _ Hi). rewrite Hm by lia. by apply Hc.
Qed.

(** A jump keeps its meaning when only code after it is written. *)
Lemma jump_ok_below s s' j :
  (∀ q, q < code_ptr s → cmem s' q = cmem s q) → j_next j ≤ code_ptr s →
  labels s' !! j_label j = labels s !! j_label j → jump_ok s j → jump_ok s' j.
Proof.
  intros Hm Hn Hl. unfold jump_ok. rewrite Hl. unfold j_next, jump_len in *. destruct (labels s !! j_label j) as [[v|rs]|]; [| |done].
  - intros [Hc Hf]. split; [|done]. eapply code_at_below; [done| |done]. rewrite jump_bytes_length. done.
  - intros (Hlong & Hc & Hr). split_and!; [done| |done]. eapply code_at_below; [done| |done]. rewrite Hlong in Hn. lia.
Qed.

Lemma emit_below s l q : q < code_ptr s → cmem (emit s l) q = cmem s q.
Proof. intros Hq. destruct s; cbn in *. apply put_outside. by left. Qed.

Lemma inv_bytes start bound s J l :
  inv start bound s J → code_ptr s + length l ≤ bound → inv start bound (emit s l) J.
Proof.
  intros [Hp Hw Ho Ha Hr Hv] Hb. assert (code_ptr (emit s l) = code_ptr s + length l) as Ep by done.
  assert (labels (emit s l) = labels s) as El by done. split; rewrite ?Ep, ?El.
  - lia.
  - intros j Hj. destruct (Hw j Hj) as (? & ? & ?). split_and!; [done..|lia].
  - intros j Hj. eapply jump_ok_below; [apply emit_below|by apply Hw|done|by apply Ho].
  - done.
  - done.
  - intros k v Hk. specialize (Hv k v Hk). lia.
Qed.

(** What [u] leaves alone. *)
Definition same_code (s s' : TCGOut) : Prop := code_ptr s' = code_ptr s ∧ cmem s' = cmem s ∧ labels s' = labels s.

Lemma inv_same start bound s s' J : same_code s s' → inv start bound s J → inv start bound s' J.
Proof.
  intros (Ep & Em & El) [Hp Hw Ho Ha Hr Hv]. split; rewrite ?Ep, ?El; try done. intros j Hj. specialize (Ho j Hj).
  unfold jump_ok in *. by rewrite El, Em.
Qed.

Lemma elem_of_snoc {A} (x : A) l y : x ∈ l ++ [y] ↔ x ∈ l ∨ x = y.
Proof. rewrite elem_of_app, elem_of_cons, elem_of_nil. tauto. Qed.

(** A jump to a label that has a value. *)
Lemma inv_jump_value start bound s J opc l v :
  inv start bound s J → jcc_ok opc → 0 ≤ l → labels s !! Z.to_nat l = Some (LValue v) →
  code_ptr s + 6 ≤ bound → bound - start < 2 ^ 31 - 32 →
  ∃ s' long, tcg_out_jxx s opc l false = Ok s' ∧ labels s' = labels s ∧ code_ptr s' = code_ptr s + jump_len long opc ∧
    (∀ q, q < code_ptr s → cmem s' q = cmem s q) ∧ inv start bound s' (J ++ [mkJ (code_ptr s) long opc (Z.to_nat l)]).
Proof.
  intros Hi Hop Hl Hv Hb Hsz. pose proof (inv_values _ _ _ _ Hi _ _ Hv) as Hvr. pose proof (inv_ptr _ _ _ _ Hi) as Hp.
  destruct (jxx_value s opc l v Hop Hv Hl) as (long & E & Hf); [lia|]. set (bs := jump_bytes _ _ _) in E.
  assert (length bs = jump_len long opc) as Hlen by apply jump_bytes_length. pose proof (jump_len_range long opc) as Hr.
  exists (emit s bs), long. split_and!; [done|done|by cbn; rewrite Hlen|apply emit_below|].
  pose proof (inv_bytes start bound s J bs Hi ltac:(lia)) as [Hp' Hw' Ho' Ha' Hr' Hv'].
  assert (code_ptr (emit s bs) = code_ptr s + jump_len long opc) as Ep by (cbn; by rewrite Hlen). split; [done|..|done].
  - intros j [Hj| ->]%elem_of_snoc; [by apply Hw'|]. cbn [j_opc j_ip]. unfold j_next. cbn [j_ip j_long j_opc]. split_and!; [done|lia|lia].
  - intros j [Hj| ->]%elem_of_snoc; [by apply Ho'|]. unfold jump_ok, j_next. cbn [j_ip j_long j_opc j_label].
    change (labels (emit s bs)) with (labels s). rewrite Hv. split; [apply code_at_emit|done].
  - intros j j' [Hj| ->]%elem_of_snoc [Hj'| ->]%elem_of_snoc; [by apply Ha'| | |by left]; right.
    + left. by apply (inv_where _ _ _ _ Hi).
    + right. by apply (inv_where _ _ _ _ Hi).
  - intros k rs r Hk Hin. destruct (Hr' k rs r Hk Hin) as (j & Hj & ?). exists j. split; [|done]. apply elem_of_snoc. by left.
Qed.

(** A jump to a label without a value leaves a relocation. *)
Lemma inv_jump_reloc start bound s J opc l rs :
  inv start bound s J → jcc_ok opc → 0 ≤ l → labels s !! Z.to_nat l = Some (LRelocs rs) → code_ptr s + 6 ≤ bound →
  ∃ s', tcg_out_jxx s opc l false = Ok s' ∧
    labels s' = <[Z.to_nat l := LRelocs (j_reloc (mkJ (code_ptr s) true opc (Z.to_nat l)) :: rs)]> (labels s) ∧
    code_ptr s' = code_ptr s + jump_len true opc ∧ (∀ q, q < code_ptr s → cmem s' q = cmem s q) ∧
    inv start bound s' (J ++ [mkJ (code_ptr s) true opc (Z.to_nat l)]).
Proof.
  intros Hi Hop Hl0 Hl Hb. rewrite (jxx_reloc s opc l rs Hop Hl Hl0). eexists. split; [done|]. set (j0 := mkJ (code_ptr s) true opc _).
  set (s' := skip_bytes _ _). assert (labels s' = <[Z.to_nat l := LRelocs (j_reloc j0 :: rs)]> (labels s)) as El by done.
  assert (code_ptr s' = code_ptr s + jump_len true opc) as Ep by (unfold jump_len; cbn; lia).
  assert (∀ q, q < code_ptr s → cmem s' q = cmem s q) as Hm by apply emit_below.
  pose proof (jump_len_range true opc) as Hr. destruct Hi as [Hp Hw Ho Ha Hrel Hv]. split_and!; [done..|]. split; rewrite ?Ep.
  - lia.
  - intros j [Hj| ->]%elem_of_snoc; [destruct (Hw j Hj) as (? & ? & ?); split_and!; [done..|lia]|].
    unfold j_next. cbn [j0 j_opc j_ip j_long]. split_and!; [done|lia|lia].
  - intros j [Hj| ->]%elem_of_snoc.
    + destruct (Hw j Hj) as (_ & _ & Hn). destruct (decide (j_label j = Z.to_nat l)) as [E|Hne].
      * specialize (Ho j Hj). unfold jump_ok in *. rewrite E, Hl in Ho. rewrite E, El, list_lookup_insert_eq by (by apply lookup_lt_Some in Hl).
        destruct Ho as (Hlong & Hc & Hin). split_and!; [done| |by right]. eapply code_at_below; [exact Hm| |done].
        unfold j_next, jump_len in Hn. rewrite Hlong in Hn. lia.
      * eapply jump_ok_below; [exact Hm|done| |by apply Ho]. rewrite El. by apply list_lookup_insert_ne.
    + unfold jump_ok. cbn [j0 j_label]. rewrite El, list_lookup_insert_eq by (by apply lookup_lt_Some in Hl).
      split_and!; [done|apply (code_at_emit s)|by left].
  - intros j j' [Hj| ->]%elem_of_snoc [Hj'| ->]%elem_of_snoc; [by apply Ha| | |by left]; right; [left|right]; by apply Hw.
  - intros k rs' r Hk Hin. rewrite El in Hk. destruct (decide (k = Z.to_nat l)) as [->|Hne].
    + rewrite list_lookup_insert_eq in Hk by (by apply lookup_lt_Some in Hl). injection Hk as <-.
      apply elem_of_cons in Hin as [->|Hin]; [exists j0; split_and!; [|done..]; apply elem_of_snoc; by right|].
      destruct (Hrel _ _ _ Hl Hin) as (j & Hj & ?). exists j. split; [apply elem_of_snoc; by left|done].
    + rewrite list_lookup_insert_ne in Hk by done. destruct (Hrel _ _ _ Hk Hin) as (j & Hj & ?). exists j.
      split; [apply elem_of_snoc; by left|done].
  - intros k v Hk. rewrite El in Hk. destruct (decide (k = Z.to_nat l)) as [->|Hne].
    + by rewrite list_lookup_insert_eq in Hk by (by apply lookup_lt_Some in Hl).
    + rewrite list_lookup_insert_ne in Hk by done. specialize (Hv _ _ Hk). lia.
Qed.

(** ** Labels *)

Section label.
  Context (start bound : Z) (s : TCGOut) (J : list jump) (l : nat) (rs : list TCGRelocation).
  Context (Hi : inv start bound s J) (Hl : labels s !! l = Some (LRelocs rs)).
  Context (Hst : 0 ≤ start) (Hsz : bound - start < 2 ^ 31 - 32) (Hbd : bound < 2 ^ 62).

Lemma waiting_ok : Forall (reloc_ok (code_ptr s)) rs.
Proof.
  apply Forall_forall. intros r Hr%list_elem_of_In. destruct (inv_relocs _ _ _ _ Hi _ _ _ Hl Hr) as (j & Hj & _ & Hlong & ->).
  destruct (inv_where _ _ _ _ Hi j Hj) as (_ & Hs & Hn). pose proof (reloc_end j Hlong) as He. pose proof (inv_ptr _ _ _ _ Hi).
  unfold reloc_ok. rewrite He. cbn [j_reloc rel_type rel_addend] in *. cbn [rel_ptr j_reloc] in *. split_and!; try done; lia.
Qed.

Lemma waiting_apart r r' : r ∈ rs → r' ∈ rs → fields_apart r r'.
Proof.
  intros Hr Hr'. destruct (inv_relocs _ _ _ _ Hi _ _ _ Hl Hr) as (j & Hj & _ & Hlong & ->).
  destruct (inv_relocs _ _ _ _ Hi _ _ _ Hl Hr') as (j' & Hj' & _ & Hlong' & ->). unfold fields_apart.
  pose proof (reloc_end j Hlong). pose proof (reloc_end j' Hlong'). cbn [j_reloc rel_ptr] in *.
  destruct (inv_apart _ _ _ _ Hi j j' Hj Hj') as [->|[?|?]]; [by left|right; left; lia|right; right; lia].
Qed.

(** A patch of the relocations changes the displacements of their jumps only. *)
Lemma patched_other m j :
  (∀ q, (∀ r, r ∈ rs → q < rel_ptr r ∨ rel_ptr r + 4 ≤ q) → m q = cmem s q) → j ∈ J → j_label j ≠ l →
  ∀ q, j_ip j ≤ q < j_next j → m q = cmem s q.
Proof.
  intros Hm Hj Hne q Hq. apply Hm. intros r Hr. destruct (inv_relocs _ _ _ _ Hi _ _ _ Hl Hr) as (j' & Hj' & Hl' & Hlong' & ->).
  pose proof (reloc_end j' Hlong'). cbn [j_reloc rel_ptr] in *. destruct (inv_apart _ _ _ _ Hi j j' Hj Hj') as [->|[?|?]]; [done|lia|lia].
Qed.

Lemma patched_head m j :
  (∀ q, (∀ r, r ∈ rs → q < rel_ptr r ∨ rel_ptr r + 4 ≤ q) → m q = cmem s q) → j ∈ J → j_long j = true →
  ∀ q, j_ip j ≤ q < j_ip j + length (jump_head true (j_opc j)) → m q = cmem s q.
Proof.
  intros Hm Hj Hlong q Hq. apply Hm. intros r Hr. destruct (inv_relocs _ _ _ _ Hi _ _ _ Hl Hr) as (j' & Hj' & Hl' & Hlong' & ->).
  pose proof (reloc_end j' Hlong'). pose proof (reloc_end j Hlong). cbn [j_reloc rel_ptr] in *.
  destruct (inv_apart _ _ _ _ Hi j j' Hj Hj') as [->|[?|?]]; lia.
Qed.

Lemma patched_outside m q :
  (∀ q, (∀ r, r ∈ rs → q < rel_ptr r ∨ rel_ptr r + 4 ≤ q) → m q = cmem s q) →
  (∀ j, j ∈ J → q < j_ip j ∨ j_next j ≤ q) → m q = cmem s q.
Proof.
  intros Hm Hq. apply Hm. intros r Hr. destruct (inv_relocs _ _ _ _ Hi _ _ _ Hl Hr) as (j' & Hj' & Hl' & Hlong' & ->).
  pose proof (reloc_end j' Hlong'). cbn [j_reloc rel_ptr] in *. destruct (Hq j' Hj'); lia.
Qed.

Lemma code_at_eq m a bs : (∀ q, a ≤ q < a + length bs → m q = cmem s q) → code_at (cmem s) a bs → code_at m a bs.
Proof. intros Hm Hc i b Hb. pose proof (lookup_lt_Some _ _ _ Hb). rewrite Hm by lia. by apply Hc. Qed.

Lemma inv_label :
  ∃ s', tcg_out_label s l (code_ptr s) = Ok s' ∧ labels s' = <[l := LValue (code_ptr s)]> (labels s) ∧
    code_ptr s' = code_ptr s ∧ (∀ q, (∀ j, j ∈ J → q < j_ip j ∨ j_next j ≤ q) → cmem s' q = cmem s q) ∧ inv start bound s' J.
Proof.
  destruct (patch_relocs_ok rs s (code_ptr s) waiting_ok waiting_apart) as (m & E & Hin & Hout).
  pose proof (lookup_lt_Some _ _ _ Hl) as Hlt. unfold tcg_out_label, aref. destruct (Z.ltb_spec l 0); [lia|].
  rewrite Nat2Z.id, Hl. cbn [deref rbind]. rewrite E. cbn [rbind]. eexists. split; [done|]. set (s' := _ <| labels := _ |>).
  assert (labels s' = <[l := LValue (code_ptr s)]> (labels s)) as El by (unfold s'; by destruct s).
  assert (code_ptr s' = code_ptr s) as Ep by (unfold s'; by destruct s). assert (cmem s' = m) as Em by (unfold s'; by destruct s).
  split_and!; [done..|intros q Hq; rewrite Em; by apply patched_outside|]. destruct Hi as [Hp Hw Ho Ha Hrel Hv]. split; rewrite ?Ep; try done.
  - intros j Hj. specialize (Ho j Hj). destruct (Hw j Hj) as (_ & Hs & Hn). unfold jump_ok in *. rewrite El, Em.
    destruct (decide (j_label j = l)) as [E'|Hne].
    + rewrite E', Hl in Ho. rewrite E', list_lookup_insert_eq by done. destruct Ho as (Hlong & Hc & Hr). rewrite Hlong. split.
      * apply code_at_app. split; [eapply code_at_eq; [by apply patched_head|done]|].
        specialize (Hin _ Hr). rewrite (reloc_end j Hlong) in Hin. exact Hin.
      * assert (start ≤ j_next j) by (unfold j_next; lia). change (8 * disp_len true) with 32. apply sext_small; [lia|].
        change (32 - 1) with 31. lia.
    + rewrite list_lookup_insert_ne by done. pose proof (patched_other m j Hout Hj Hne) as Hq. unfold j_next, jump_len in Hq, Hn.
      destruct (labels s !! j_label j) as [[v|rs']|]; [| |done].
      * destruct Ho as [Hc Hf]. split; [|done]. eapply code_at_eq; [|done]. intros q. rewrite jump_bytes_length. apply Hq.
      * destruct Ho as (Hlong & Hc & Hr). split_and!; [done| |done]. eapply code_at_eq; [|done]. intros q Hq'. apply Hq. rewrite Hlong. lia.
  - intros k rs' r Hk Hr. rewrite El in Hk. destruct (decide (k = l)) as [->|Hne]; [by rewrite list_lookup_insert_eq in Hk|].
    rewrite list_lookup_insert_ne in Hk by done. by eapply Hrel.
  - intros k v Hk. rewrite El in Hk. destruct (decide (k = l)) as [->|Hne].
    + rewrite list_lookup_insert_eq in Hk by done. injection Hk as <-. lia.
    + rewrite list_lookup_insert_ne in Hk by done. by eapply Hv.
Qed.

End label.

(** ** Any sequence *)

Section run.
  Context (start bound : Z) (Hst : 0 ≤ start) (Hsz : bound - start < 2 ^ 31 - 32) (Hbd : bound < 2 ^ 62).

Definition event_ok (n : nat) (e : event) : Prop :=
  match e with
  | ECode k g u => (∀ a, (length (g a) ≤ k)%nat) ∧ ∀ a s, same_code s (u a s)
  | EJump opc l => jcc_ok opc ∧ 0 ≤ l < n
  | ELabel l => 0 ≤ l < n
  end.

(** An address that no jump of [J] uses. *)
Definition beside (J : list jump) (q : Z) : Prop := ∀ j, j ∈ J → q < j_ip j ∨ j_next j ≤ q.

(** What one event does to code, jumps and labels. *)
Record step_ok (s : TCGOut) (J : list jump) (e : event) (s' : TCGOut) (J' : list jump) : Prop := mkStep {
  st_inv : inv start bound s' J';
  st_jumps j : j ∈ J → j ∈ J';
  st_len : length (labels s') = length (labels s);
  st_ptr : code_ptr s ≤ code_ptr s' ≤ code_ptr s + event_size e;
  st_new j : j ∈ J' → j ∈ J ∨ code_ptr s ≤ j_ip j;
  st_frame q : q < code_ptr s → beside J q → cmem s' q = cmem s q;
  st_code n g u : e = ECode n g u →
    J' = J ∧ code_at (cmem s') (code_ptr s) (g (code_ptr s)) ∧ code_ptr s' = code_ptr s + length (g (code_ptr s));
  st_value l v : labels s !! l = Some (LValue v) → labels s' !! l = Some (LValue v);
  st_relocs l rs : labels s !! l = Some (LRelocs rs) → (∀ k, e = ELabel k → Z.to_nat k ≠ l) → ∃ rs', labels s' !! l = Some (LRelocs rs');
  st_jump opc l : e = EJump opc l → ∃ j, j ∈ J' ∧ j_ip j = code_ptr s ∧ j_next j = code_ptr s' ∧ j_opc j = opc ∧ j_label j = Z.to_nat l;
  st_label l : e = ELabel l → labels s' !! Z.to_nat l = Some (LValue (code_ptr s))
}.

Lemma step_code s J n g u :
  inv start bound s J → event_ok (length (labels s)) (ECode n g u) → code_ptr s + n ≤ bound →
  step_ok s J (ECode n g u) (u (code_ptr s) (emit s (g (code_ptr s)))) J.
Proof.
  intros Hi [Hg Hu] Hb. specialize (Hg (code_ptr s)). specialize (Hu (code_ptr s) (emit s (g (code_ptr s)))). pose proof Hu as (Ep & Em & El).
  assert (code_ptr (emit s (g (code_ptr s))) = code_ptr s + length (g (code_ptr s))) as Ec by done.
  split; rewrite ?Ep, ?Em, ?El, ?Ec; try done; [|cbn; lia|by left|..].
  - eapply inv_same; [done|]. apply inv_bytes; [done|lia].
  - intros q Hq _. by apply emit_below.
  - intros ? ? ? [= <- <- <-]. split_and!; [done|apply code_at_emit|done].
  - intros l rs. by eauto.
Qed.

Lemma step_jump s J opc l :
  inv start bound s J → event_ok (length (labels s)) (EJump opc l) → code_ptr s + 6 ≤ bound →
  ∃ s' J', do_event s (EJump opc l) = Ok s' ∧ step_ok s J (EJump opc l) s' J'.
Proof.
  intros Hi [Hop [Hl0 Hlt]] Hb. destruct (lookup_lt_is_Some_2 (labels s) (Z.to_nat l)) as [[v|rs] Hl]; [lia|..].
  - destruct (inv_jump_value start bound s J opc l v Hi Hop Hl0 Hl Hb Hsz) as (s' & long & E & El & Ep & Em & Hi').
    exists s', (J ++ [mkJ (code_ptr s) long opc (Z.to_nat l)]). split; [done|]. pose proof (jump_len_range long opc).
    split; rewrite ?El; try done; [intros j Hj; apply elem_of_snoc; by left|cbn; lia| |by intros q Hq _; apply Em|by eauto|].
    + intros j [Hj| ->]%elem_of_snoc; [by left|by right].
    + intros ? ? [= <- <-]. eexists. split; [apply elem_of_snoc; by right|]. by unfold j_next.
  - destruct (inv_jump_reloc start bound s J opc l rs Hi Hop Hl0 Hl Hb) as (s' & E & El & Ep & Em & Hi').
    eexists s', _. split; [done|]. pose proof (jump_len_range true opc). pose proof (lookup_lt_Some _ _ _ Hl).
    split; rewrite ?El; try done; [intros j Hj; apply elem_of_snoc; by left|by rewrite length_insert|cbn; lia|..].
    + intros j [Hj| ->]%elem_of_snoc; [by left|by right].
    + intros q Hq _. by apply Em.
    + intros k v Hk. rewrite list_lookup_insert_ne; [done|]. intros <-. congruence.
    + intros k rs' Hk _. destruct (decide (Z.to_nat l = k)) as [<-|Hne]; [rewrite list_lookup_insert_eq by done; by eauto|].
      rewrite list_lookup_insert_ne by done. by eauto.
    + intros ? ? [= <- <-]. eexists. split; [apply elem_of_snoc; by right|]. by unfold j_next.
Qed.

Lemma step_event s J e :
  inv start bound s J → event_ok (length (labels s)) e → code_ptr s + event_size e ≤ bound →
  (∀ l, e = ELabel l → ∃ rs, labels s !! Z.to_nat l = Some (LRelocs rs)) →
  ∃ s' J', do_event s e = Ok s' ∧ step_ok s J e s' J'.
Proof.
  intros Hi He Hb Hfree. destruct e as [n g u|opc l|l]; cbn [event_size] in Hb.
  - eexists _, J. split; [done|]. by apply step_code.
  - by apply step_jump.
  - destruct (Hfree l eq_refl) as [rs Hl]. cbn [event_ok] in He.
    destruct (inv_label start bound s J (Z.to_nat l) rs Hi Hl Hst Hsz Hbd) as (s' & E & El & Ep & Em & Hi').
    rewrite Z2Nat.id in E by lia. exists s', J. split; [done|]. pose proof (lookup_lt_Some _ _ _ Hl).
    split; rewrite ?El; try done; [by rewrite length_insert|cbn; lia|by left|by intros q _ Hq; apply Em|..].
    + intros k v Hk. rewrite list_lookup_insert_ne; [done|]. intros <-. congruence.
    + intros k rs' Hk Hne. rewrite list_lookup_insert_ne by (by apply Hne). by eauto.
    + intros ? [= <-]. by apply list_lookup_insert_eq.
Qed.

(** The jumps and the labels of the events [es] in the state after them. *)
Record hist (s0 : TCGOut) (es : list event) (s : TCGOut) (J : list jump) : Prop := mkHist {
  h_run : do_events s0 es = Ok s;
  h_ptr : code_ptr s ≤ start + size es;
  h_len : length (labels s) = length (labels s0);
  h_free l : (l < length (labels s0))%nat → (∀ k, k ∈ placed es → Z.to_nat k ≠ l) → ∃ rs, labels s !! l = Some (LRelocs rs);
  h_code es1 n g u es2 s1 :
    es = es1 ++ ECode n g u :: es2 → do_events s0 es1 = Ok s1 →
    code_at (cmem s) (code_ptr s1) (g (code_ptr s1)) ∧ code_ptr s1 + length (g (code_ptr s1)) ≤ code_ptr s ∧
    ∀ q, code_ptr s1 ≤ q < code_ptr s1 + length (g (code_ptr s1)) → beside J q;
  h_jumps es1 opc l es2 s1 s2 :
    es = es1 ++ EJump opc l :: es2 → do_events s0 es1 = Ok s1 → do_event s1 (EJump opc l) = Ok s2 →
    ∃ j, j ∈ J ∧ j_ip j = code_ptr s1 ∧ j_next j = code_ptr s2 ∧ j_opc j = opc ∧ j_label j = Z.to_nat l;
  h_labels es1 l es2 s1 :
    es = es1 ++ ELabel l :: es2 → do_events s0 es1 = Ok s1 → labels s !! Z.to_nat l = Some (LValue (code_ptr s1))
}.

(** An event of a list that grew is the new one or an old one. *)
Lemma snoc_split {A} (l : list A) x l1 y l2 :
  l ++ [x] = l1 ++ y :: l2 → (l2 = [] ∧ l = l1 ∧ x = y) ∨ ∃ l2', l2 = l2' ++ [x] ∧ l = l1 ++ y :: l2'.
Proof.
  intros E. destruct l2 as [|z l2 _] using rev_ind.
  - apply app_inj_tail in E as [-> ->]. by left.
  - right. exists l2. rewrite app_comm_cons, app_assoc in E. apply app_inj_tail in E as [-> ->]. done.
Qed.

Lemma hist_step s0 es s J e s' J' :
  inv start bound s J → hist s0 es s J → do_event s e = Ok s' → step_ok s J e s' J' → hist s0 (es ++ [e]) s' J'.
Proof.
  intros Hi [Hr Hp Hl Hf Hc Hj Hb] E [_ SJ SL SP SN SF SC SV SR SJ' SB]. split.
  - rewrite do_events_app, Hr. cbn. by rewrite E.
  - rewrite size_app. cbn. lia.
  - congruence.
  - intros l Hlt Hk. unfold placed in Hk. destruct (Hf l Hlt) as [rs Hrs].
    { intros k Hin. apply Hk. rewrite omap_app. apply elem_of_app. by left. }
    eapply SR; [done|]. intros k ->. apply Hk. rewrite omap_app. apply elem_of_app. right. by left.
  - intros es1 n g u es2 s1 [(-> & -> & Ee)|(es2' & -> & ->)]%snoc_split H1.
    + rewrite Hr in H1. injection H1 as <-. destruct (SC n g u Ee) as (-> & Hca & ->). split_and!; [done..|].
      intros q Hq j Hjj. right. apply (inv_where _ _ _ _ Hi) in Hjj. lia.
    + destruct (Hc _ _ _ _ _ _ eq_refl H1) as (Hca & Hle & Hbe). split_and!; [|lia|].
      * intros i b Hib. pose proof (lookup_lt_Some _ _ _ Hib). rewrite SF; [by apply Hca|lia|]. apply Hbe. lia.
      * intros q Hq j [Hjj|Hge]%SN; [by apply Hbe|left; lia].
  - intros es1 opc l es2 s1 s2 [(-> & -> & Ee)|(es2' & -> & ->)]%snoc_split H1 H2.
    + rewrite Hr in H1. injection H1 as <-. rewrite <- Ee, E in H2. injection H2 as <-. by apply SJ'.
    + destruct (Hj _ _ _ _ _ _ eq_refl H1 H2) as (j & Hin & ?). exists j. split; [by apply SJ|done].
  - intros es1 l es2 s1 [(-> & -> & Ee)|(es2' & -> & ->)]%snoc_split H1.
    + rewrite Hr in H1. injection H1 as <-. by apply SB.
    + apply SV. by eapply Hb.
Qed.

Lemma hist_run s0 es :
  code_ptr s0 = start → Forall (event_ok (length (labels s0))) es → NoDup (placed es) → start + size es ≤ bound →
  Forall (λ l, l = LRelocs []) (labels s0) → ∃ s J, hist s0 es s J ∧ inv start bound s J.
Proof.
  intros Hs He Hn Hb Hl. induction es as [|e es IH] using rev_ind.
  - exists s0, []. change (size []) with 0 in Hb. split; [split; try done|].
    + cbn. lia.
    + intros l Hlt _. destruct (lookup_lt_is_Some_2 _ _ Hlt) as [x Hx]. exists []. rewrite Hx.
      by rewrite (proj1 (Forall_lookup _ _) Hl _ _ Hx).
    + intros [|] ? ? ? ? ?; done.
    + intros [|] ? ? ? ? ?; done.
    + intros [|] ? ? ?; done.
    + split; try done; [lia|by intros ? ?%elem_of_nil|by intros ? ?%elem_of_nil|by intros ? ? ?%elem_of_nil|..].
      * intros l rs r Hlk Hr. pose proof (proj1 (Forall_lookup _ _) Hl _ _ Hlk) as E. cbv beta in E. simplify_eq. by apply elem_of_nil in Hr.
      * intros l v Hlk. pose proof (proj1 (Forall_lookup _ _) Hl _ _ Hlk) as E. cbv beta in E. simplify_eq.
  - apply Forall_app in He as [He He1]. pose proof (Forall_inv He1) as He'. rewrite size_app in Hb. unfold placed in Hn. rewrite omap_app in Hn.
    apply stdpp.list_relations.list.NoDup_app in Hn as (Hn & Hd & _). pose proof (size_nonneg [e]).
    destruct IH as (s & J & Hh & Hi); [done|done|lia|]. destruct (step_event s J e Hi) as (s' & J' & E & Hst').
    + by rewrite (h_len _ _ _ _ Hh).
    + pose proof (h_ptr _ _ _ _ Hh). cbn in Hb. lia.
    + intros l ->. cbn in He'. eapply (h_free _ _ _ _ Hh); [lia|]. intros k Hk Ek. apply (Hd k Hk). cbn.
      assert (k = l) as ->; [|by left].
      apply list_elem_of_omap in Hk as (e' & He2 & Hk). destruct e'; simplify_eq.
      pose proof (proj1 (Forall_forall _ _) He _ (proj1 (list_elem_of_In _ _) He2)) as Hr. cbn in Hr. lia.
    + exists s', J'. split; [by eapply hist_step|apply Hst'].
Qed.

End run.
