(* ===== verification/X86Size.v ===== *)
(** * Sizes of x86-64 code

    How many bytes the functions of X86Out.v and X86Op.v write at most. *)

From stdpp Require Import base list functions.
From S2P Require Import Prelude TcgData TcgLive X86Isa X86Out X86Op.
Local Open Scope Z_scope.
Local Coercion Z.of_nat : nat >-> Z.

(** At most [n] bytes are written from [s] on, if there is no error. *)
Definition within (n : Z) (s : TCGOut) (r : result TCGOut) : Prop :=
  ∀ s', r = Ok s' → code_ptr s ≤ code_ptr s' ≤ code_ptr s + n.

Lemma size_mono n n' s r : within n s r → n ≤ n' → within n' s r.
Proof. intros Hw Hn s' Hs. specialize (Hw s' Hs). lia. Qed.

Lemma within_ok n s s' : code_ptr s ≤ code_ptr s' ≤ code_ptr s + n → within n s (Ok s').
Proof. intros Hn ? [= <-]. done. Qed.

Lemma within_er n s e : within n s (Er e).
Proof. by intros s'. Qed.

Lemma within_bind n m s r k : within n s r → (∀ s1, within m s1 (k s1)) → within (n + m) s (rbind r k).
Proof.
  intros Hr Hk s' (s1 & E & E')%rbind_ok. specialize (Hr s1 E). specialize (Hk s1 s' E'). lia.
Qed.

Lemma within_bind' n m s r k : within n s r → (∀ s1, within (m - n) s1 (k s1)) → within m s (rbind r k).
Proof. intros Hr Hk. eapply size_mono; [by apply (within_bind n (m - n))|lia]. Qed.

(** A value that is not the output. *)
Lemma within_get {A} n s (r : result A) k : (∀ a, within n s (k a)) → within n s (rbind r k).
Proof. intros Hk s' (a & E & E')%rbind_ok. by apply (Hk a). Qed.

Lemma within_pair {A} n m s (r : result (TCGOut * A)) k :
  (∀ s1 a, r = Ok (s1, a) → code_ptr s ≤ code_ptr s1 ≤ code_ptr s + n) → (∀ s1 a, within m s1 (k (s1, a))) →
  within (n + m) s (rbind r k).
Proof.
  intros Hr Hk s' ([s1 a] & E & E')%rbind_ok. specialize (Hr s1 a E). specialize (Hk s1 a s' E'). lia.
Qed.

Lemma put8_ptr s v : code_ptr (tcg_out8 s v) = code_ptr s + 1.
Proof. done. Qed.
Lemma put32_ptr s v : code_ptr (tcg_out32 s v) = code_ptr s + 4.
Proof. done. Qed.
Lemma skip_ptr s n : code_ptr (skip_bytes s n) = code_ptr s + n.
Proof. done. Qed.

Ltac ptr := repeat (rewrite put8_ptr || rewrite put32_ptr || rewrite skip_ptr); lia.

Create HintDb size discriminated.

(** Follow the code; each call takes its part of the size. *)
Ltac sized :=
  lazymatch goal with
  | |- within _ _ (if ?b then _ else _) => destruct b; sized
  | |- within _ _ (match ?x with _ => _ end) => destruct x; sized
  | |- within _ _ (rbind ?r _) =>
      lazymatch type of r with
      | result TCGOut => eapply within_bind'; [solve [eauto with size]|intros ?; sized]
      | _ => apply within_get; intros ?; sized
      end
  | |- within _ _ (Er _) => apply within_er
  | |- within _ _ (Ok _) => apply within_ok; ptr
  | |- _ => eapply size_mono; [solve [eauto with size]|lia]
  end.

Lemma size_opc s opc r rm x : within 5 s (tcg_out_opc s opc r rm x).
Proof.
  unfold tcg_out_opc. cbv zeta. apply (size_mono (1 + 4)); [|lia]. apply within_bind.
  - destruct (has_flag _ _); [|apply within_ok; lia]. apply within_get. intros _. apply within_ok. ptr.
  - intros s1. apply within_ok. destruct (has_flag _ P_ADDR32), (_ =? 0), (has_flag _ P_EXT); ptr.
Qed.
#[export] Hint Resolve size_opc : size.

Lemma size_modrm s opc r rm : within 6 s (tcg_out_modrm s opc r rm).
Proof. unfold tcg_out_modrm. sized. Qed.
#[export] Hint Resolve size_modrm : size.

Lemma size_sib s opc r rm index shift offset : within 11 s (tcg_out_modrm_sib_offset s opc r rm index shift offset).
Proof.
  unfold tcg_out_modrm_sib_offset. cbv zeta. destruct (_ && _).
  { destruct (_ =? _); [|destruct (_ =? _); [|apply within_er]]; (apply (within_bind 5 6); [apply size_opc|]);
      intros s1; apply within_ok; ptr. }
  set (p := if rm <? 0 then _ else _). destruct p as [[md len] rm']. apply (within_bind 7 4).
  - destruct (_ && _).
    + apply (size_mono (5 + 1)); [|lia]. apply within_bind; [apply size_opc|]. intros s1. apply within_ok. ptr.
    + apply within_get. intros i. apply (within_bind 5 2); [apply size_opc|]. intros s1. apply within_ok. ptr.
  - intros s1. apply within_ok. destruct (len =? 1), (len =? 4); ptr.
Qed.
#[export] Hint Resolve size_sib : size.

Lemma size_movi s ty r v : within 13 s (tcg_out_movi s ty r v).
Proof. unfold tcg_out_movi, tgen_arithr. cbv zeta. sized. Qed.
#[export] Hint Resolve size_movi : size.

Lemma size_shifti s c r n : within 7 s (tcg_out_shifti s c r n).
Proof. unfold tcg_out_shifti. cbv zeta. sized. Qed.
#[export] Hint Resolve size_shifti : size.

Lemma size_arithi s c r v cf : within 10 s (tgen_arithi s c r v cf).
Proof. unfold tgen_arithi, tcg_out_ext32u, tcg_out_ext8u, tcg_out_ext16u. cbv zeta. sized. Qed.
#[export] Hint Resolve size_arithi : size.

Lemma size_mov s ty r a : within 6 s (tcg_out_mov s ty r a).
Proof. unfold tcg_out_mov. sized. Qed.
#[export] Hint Resolve size_mov : size.

Lemma size_reloc s p ty l a : within 0 s (tcg_out_reloc s p ty l a).
Proof.
  unfold tcg_out_reloc, patch_reloc. cbv zeta. apply within_get. intros [v|rs]; [|apply within_ok; cbn; lia].
  repeat (destruct (_ =? _); try apply within_er); apply within_ok; cbn; lia.
Qed.
#[export] Hint Resolve size_reloc : size.

Lemma size_label s l v : within 0 s (tcg_out_label s l v).
Proof.
  unfold tcg_out_label. apply within_get. intros [v'|rs]; [apply within_er|].
  apply (within_bind 0 0); [|intros s1; apply within_ok; cbn; lia].
  revert s. induction rs as [|r rs IH]; intros s; [apply within_ok; lia|]. cbn [patch_relocs]. apply (within_bind 0 0); [|apply IH].
  unfold patch_reloc. cbv zeta. repeat (destruct (_ =? _); try apply within_er); apply within_ok; cbn; lia.
Qed.

Lemma size_jxx s opc l small : within 9 s (tcg_out_jxx s opc l small).
Proof.
  unfold tcg_out_jxx. apply within_get. intros [v|rs]; cbv zeta.
  - destruct (_ =? _); [apply within_ok; destruct (opc =? -1); ptr|].
    destruct small; [apply within_er|]. destruct (opc =? -1); [apply within_ok; ptr|].
    apply (within_bind 5 4); [apply size_opc|]. intros s1. apply within_ok. ptr.
  - destruct small.
    + set (s1 := if opc =? -1 then _ else _). intros s' (s2 & E%size_reloc & [= <-])%rbind_ok.
      assert (code_ptr s1 = code_ptr s + 1) by (subst s1; by destruct (opc =? -1)). ptr.
    + apply (within_bind 5 4); [destruct (opc =? -1); [apply within_ok; ptr|apply size_opc]|]. intros s1.
      apply (within_bind 0 4); [apply size_reloc|]. intros s2. apply within_ok. ptr.
Qed.
#[export] Hint Resolve size_jxx : size.

Lemma size_cmp s a b c rexw : within 10 s (tcg_out_cmp s a b c rexw).
Proof. unfold tcg_out_cmp, tgen_arithr. cbv zeta. sized. Qed.
#[export] Hint Resolve size_cmp : size.

Lemma size_branch s c dest : within 19 s (tcg_out_branch s c dest).
Proof. unfold tcg_out_branch. cbv zeta. sized. Qed.
#[export] Hint Resolve size_branch : size.

(** ** Operations *)

Section host.
  Context `{TcgHost}.

Lemma size_when b f s : (∀ s, within 7 s (f s)) → within 7 s (when b f s).
Proof. intros Hf. destruct b; [apply Hf|apply within_ok; lia]. Qed.

Lemma size_qemu_ld_direct s d b o opc : within 24 s (tcg_out_qemu_ld_direct s d b o opc).
Proof.
  unfold tcg_out_qemu_ld_direct, tcg_out_modrm_offset, tcg_out_ld, tcg_out_rolw_8, tcg_out_bswap32, tcg_out_bswap64, tcg_out_ext32s,
    tcg_out_modrm_offset, when. cbv zeta. sized.
Qed.
#[local] Hint Resolve size_qemu_ld_direct : size.

Lemma size_pair {A} s (r : result TCGOut) (a : A) n :
  within n s r → ∀ s1 b, (s <- r ;; Ok (s, a)) = Ok (s1, b) → code_ptr s ≤ code_ptr s1 ≤ code_ptr s + n.
Proof. intros Hr s1 b (s2 & E & [= <- <-])%rbind_ok. by apply Hr. Qed.

Lemma size_swapped (b : bool) (f : TCGOut → Z → result TCGOut) s ty d k n :
  (∀ s, within 7 s (k s)) → (∀ s d, within n s (f s d)) →
  within (13 + n) s ('(s, d) <- (if b then s <- tcg_out_mov s ty scratch d ;; s <- k s ;; Ok (s, scratch) else Ok (s, d)) ;; f s d).
Proof.
  intros Hk Hf. apply within_pair; [|by intros]. intros s1 a. destruct b.
  - intros (s2 & E%size_mov & (s3 & E3%Hk & [= <- <-])%rbind_ok)%rbind_ok. lia.
  - intros [= <- <-]. lia.
Qed.

Lemma size_qemu_st_direct s d b o opc : within 24 s (tcg_out_qemu_st_direct s d b o opc).
Proof.
  unfold tcg_out_qemu_st_direct, tcg_out_modrm_offset. cbv zeta.
  destruct (_ =? _); [sized|]. repeat (destruct (_ =? _); [|try apply within_er]).
  all: apply (size_swapped _ (λ s d, _) _ _ _ (λ s, _) 11); intros; unfold tcg_out_st, tcg_out_rolw_8, tcg_out_bswap32, tcg_out_bswap64, tcg_out_modrm_offset; sized.
Qed.
#[local] Hint Resolve size_qemu_st_direct : size.

Lemma size_guest s base s1 b o : guest_address s base = Ok (s1, b, o) → code_ptr s ≤ code_ptr s1 ≤ code_ptr s + 19.
Proof.
  unfold guest_address, tgen_arithr. cbv zeta. destruct (negb _); [|intros [= <- <- <-]; lia].
  intros (s2 & E%size_movi & (s3 & E3%size_modrm & [= <- <- <-])%rbind_ok)%rbind_ok. lia.
Qed.

Lemma size_access (f : TCGOut → Z → Z → result TCGOut) s base :
  (∀ s b o, within 24 s (f s b o)) → within 43 s ('(s, b, o) <- guest_address s base ;; f s b o).
Proof. intros Hf s' ([[s1 b] o] & E%size_guest & E')%rbind_ok. apply Hf in E'. lia. Qed.

Lemma size_qemu_ld s args opc : within 43 s (tcg_out_qemu_ld s args opc).
Proof.
  unfold tcg_out_qemu_ld. apply within_get. intros d. apply within_get. intros b. apply size_access.
  intros. apply size_qemu_ld_direct.
Qed.
Lemma size_qemu_st s args opc : within 43 s (tcg_out_qemu_st s args opc).
Proof.
  unfold tcg_out_qemu_st. apply within_get. intros d. apply within_get. intros b. apply size_access.
  intros. apply size_qemu_st_direct.
Qed.
#[local] Hint Resolve size_qemu_ld size_qemu_st : size.

Lemma size_align (n : nat) s : within n s (align_jmp n s).
Proof.
  revert s. induction n as [|n IH]; intros s; cbn [align_jmp]; (destruct (_ =? 0); [apply within_ok; lia|]); [apply within_er|].
  intros s' E%IH. rewrite put8_ptr in E. lia.
Qed.
#[local] Hint Resolve size_align : size.

Lemma align2_ptr s : code_ptr s ≤ code_ptr (align2 s) ≤ code_ptr s + 1.
Proof. unfold align2. destruct (_ =? 1); ptr. Qed.

Lemma size_goto_tb s n : within 11 s (tcg_out_goto_tb s n).
Proof.
  unfold tcg_out_goto_tb, tcg_out_modrm_offset. cbv zeta. apply (within_bind 11 0).
  - destruct (tb_jmp_offset s) as [offs|]; [|apply size_sib]. apply (within_bind 3 8); [apply (size_align 3)|]. intros s1.
    apply within_get. intros l. apply within_ok. cbn. lia.
  - intros s1. apply within_get. intros l. by apply within_ok; cbn; lia.
Qed.
#[local] Hint Resolve size_goto_tb : size.

(** The short jump over the code of a hit is patched in place. *)
Lemma size_goto_ibchain s eip tb : within 39 s (tcg_out_goto_ibchain s eip tb).
Proof.
  unfold tcg_out_goto_ibchain, tcg_out_jmp. cbv zeta. apply (within_bind 6 33); [apply size_mov|]. intros s1.
  apply (within_bind 13 20); [apply size_movi|]. intros s2 s' E%size_branch. pose proof (align2_ptr s2). cbn in E. lia.
Qed.

Lemma size_cmp_ibchain s eip tb : within 62 s (tcg_out_cmp_ibchain s eip tb).
Proof.
  unfold tcg_out_cmp_ibchain, tcg_out_jmp, tcg_out_ld, tcg_out_modrm_offset. cbv zeta. apply (within_bind 10 52); [apply size_cmp|]. intros s1 s'.
  intros (s2 & E2%size_movi & (s3 & E3%size_sib & (s4 & E4%size_modrm & E)%rbind_ok)%rbind_ok)%rbind_ok.
  apply size_branch in E. rewrite skip_ptr, put8_ptr in E2.
  set (s5 := s4 <| cmem := _ |>) in E. pose proof (align2_ptr s5) as H5. change (code_ptr s5) with (code_ptr s4) in H5.
  cbn [code_ptr] in E. change (code_ptr ?s <| ibchain_patch_offset := _ |>) with (code_ptr s) in E. lia.
Qed.
#[local] Hint Resolve size_goto_ibchain size_cmp_ibchain : size.

Lemma size_patch s : within 3 s (align_jmp 3 (s <| set_patch_next := 1 |>)).
Proof. intros s' E%size_align. exact E. Qed.
#[local] Hint Resolve size_patch : size.

Lemma size_op s op args consts : within 62 s (tcg_out_op s op args consts).
Proof.
  unfold tcg_out_op. destruct (op_split op) as [[o ty]|]; [|apply within_er]. cbn [rbind]. cbv zeta.
  destruct o; unfold out_add, out_mul, gen_arith, gen_shift, tcg_out_brcond32, tcg_out_brcond64, tcg_out_setcond32, tcg_out_setcond64,
    tcg_out_ext8s, tcg_out_ext8u, tcg_out_ext16s, tcg_out_ext16u, tcg_out_ext32s, tcg_out_ext32u, tcg_out_rolw_8, tcg_out_bswap32,
    tcg_out_bswap64, tcg_out_ld, tcg_out_st, tcg_out_modrm_offset, tgen_arithr, tcg_out_jmp, tcg_out_calli; cbv zeta;
    try (destruct ty; cbn [is_i32]); sized.
Qed.

End host.
