(* ===== verification/X86Exit.v ===== *)
(** * Exits from a block in x86-64 code

    The code that leaves a block depends on its address: jumps and calls are
    relative if the target is near.  [leads g x Q]: the code [g a] at [a] takes
    the machine from [x] to an address and a state of [Q]. *)

From stdpp Require Import base list functions.
From S2P Require Import Prelude CodePatch TcgData TcgLive TcgSem X86Isa X86Out X86Op X86Enc X86Sem X86Val X86Arith X86Labels.
Local Open Scope Z_scope.
Local Coercion Z.of_nat : nat >-> Z.

(** ** Code at an address *)

Definition no_out : TCGOut := mkOut 0 0 (λ _, 0) [] None [] 0 0 0 0 0.

Lemma writes_unique f l l' : writes f l → writes f l' → l = l'.
Proof.
  intros H1 H2. specialize (H1 no_out). specialize (H2 no_out). rewrite H1 in H2. injection H2 as Hp Hm.
  assert (length l = length l') as Hl by (cbn in Hp; lia). apply list_eq_same_length with (length l); [done..|].
  intros i b b' Hi Hb Hb'. apply (put_inside (λ _, 0) 0) in Hb, Hb'. cbn in Hm. congruence.
Qed.

Lemma no_out_ptr l : code_ptr (emit no_out l) = length l.
Proof. done. Qed.

(** [f] writes the bytes [g a] at [a]. *)
Definition writes_at (f : TCGOut → result TCGOut) (g : Z → list Z) : Prop := ∀ s, f s = Ok (emit s (g (code_ptr s))).

Lemma writes_at_const f l : writes f l → writes_at f (λ _, l).
Proof. done. Qed.

Lemma writes_at_bind f h g k :
  writes_at f g → writes_at h k → writes_at (λ s, s <- f s ;; h s) (λ a, g a ++ k (a + length (g a))).
Proof. intros Hf Hh s. rewrite Hf. cbn [rbind]. rewrite Hh, emit_emit. done. Qed.

Ltac notin := repeat (apply not_elem_of_cons; split; [done|]); apply not_elem_of_nil.

(** The same registers but [rs], and the same memory. *)
Definition agree (rs : list Z) (x y : mach) : Prop := (∀ r, r ∉ rs → xr y r = xr x r) ∧ xm y = xm x.

Lemma agree_refl rs x : agree rs x x.
Proof. by split. Qed.

Lemma agree_trans rs rs' x y z : agree rs x y → agree rs' y z → agree (rs ++ rs') x z.
Proof.
  intros [H1 M1] [H2 M2]. split; [|congruence]. intros r Hr. apply not_elem_of_app in Hr as [Hr Hr'].
  by rewrite H2, H1.
Qed.

Lemma effect_agree ty d v x y : effect ty d v x y → agree [d] x y.
Proof. intros [_ Ho Hm]. split; [|done]. intros r Hr. apply Ho. by apply not_elem_of_cons in Hr as [? _]. Qed.

Section exec.
  Context (undefined : insn → mach → flags).
  Notation reaches := (reaches undefined).
  Notation straight := (straight undefined).

Definition leads (g : Z → list Z) (x : mach) (Q : Z → Z → mach → Prop) : Prop :=
  ∀ cm a, code_at cm a (g a) → ∃ ip y, reaches cm (a, x) (ip, y) ∧ Q (a + length (g a)) ip y.

Lemma leads_mono g x (Q Q' : Z → Z → mach → Prop) : (∀ n ip y, Q n ip y → Q' n ip y) → leads g x Q → leads g x Q'.
Proof. intros HQ Hl cm a Hc. destruct (Hl cm a Hc) as (ip & y & Hr & HQy). exists ip, y. split; [done|by apply HQ]. Qed.

Lemma leads_straight l x y : straight l x y → leads (λ _, l) x (λ n ip z, ip = n ∧ z = y).
Proof. intros Hs cm a Hc. exists (a + length l), y. split; [by apply Hs|done]. Qed.

Lemma leads_app l g x y Q : straight l x y → leads g y Q → leads (λ a, l ++ g (a + length l)) x Q.
Proof.
  intros Hs Hg cm a [Hc1 Hc2]%code_at_app. destruct (Hg cm (a + length l) Hc2) as (ip & z & Hr & HQ). exists ip, z. split.
  - eapply reaches_trans; [by apply Hs|done].
  - by rewrite length_app, Nat2Z.inj_add, Z.add_assoc.
Qed.

Lemma leads_one g x i (Q : Z → Z → mach → Prop) :
  (∀ a, encodes (g a) (i a)) → (∀ a, ∃ s, exec undefined (a + length (g a)) (i a) x = Some s ∧ Q (a + length (g a)) s.1 s.2) →
  leads g x Q.
Proof.
  intros He Hx cm a Hc. destruct (Hx a) as ([ip y] & E & HQ). exists ip, y. split; [|done]. by eapply encodes_reaches.
Qed.

(** The bytes do not depend on the state of the machine. *)
Lemma does_all f (P : mach → mach → Prop) :
  (∀ x, ∃ y, does undefined f x y ∧ P x y) → ∃ l, writes f l ∧ ∀ x, ∃ y, straight l x y ∧ P x y.
Proof.
  intros Hf. destruct (Hf (mkMach (λ _, 0) (mkFlags false false false false false) (λ _, 0))) as (_ & (l & Hw & _) & _).
  exists l. split; [done|]. intros x. destruct (Hf x) as (y & (l' & Hw' & Hs) & HP).
  rewrite (writes_unique f l l' Hw Hw'). by exists y.
Qed.

(** ** Jumps and calls *)

Lemma movi_all ty d v :
  is_reg d → v = sext 64 v → ∃ l, writes (λ s, tcg_out_movi s ty d v) l ∧ ∀ x, ∃ y, straight l x y ∧ effect ty d v x y.
Proof. intros Hd Hv. apply does_all. intros x. by apply computes_movi. Qed.

Lemma wrap64_sext v : u64 (sext 64 v) = u64 v.
Proof. by apply wrap_sext. Qed.

(** The state after a jump or a call. *)
Definition gone (call : bool) (x : mach) (n : Z) (y : mach) : Prop :=
  ∃ x', agree [TCG_REG_R10] x x' ∧ y = if call then push n x' else x'.

Definition branch_head (call : bool) : Z := if call then OPC_CALL_Jz else OPC_JMP_long.

Lemma near_encodes (call : bool) d :
  encodes (branch_head call :: le_bytes 4 d) (if call then ICall (sext 32 d) else IJmp (sext 32 d)).
Proof.
  destruct call; [apply (encodes_none OPC_CALL_Jz 0 eq_refl 4 ICall d)|apply (encodes_none OPC_JMP_long 0 eq_refl 4 IJmp d)];
    (done || lia).
Qed.

Lemma near_writes (call : bool) s d :
  (s <- tcg_out_opc s (if call then OPC_CALL_Jz else OPC_JMP_long) 0 0 0 ;; Ok (tcg_out32 s d)) =
    Ok (emit s (branch_head call :: le_bytes 4 d)).
Proof.
  fold (branch_head call). rewrite (opc_writes (branch_head call) 0 0 0 ltac:(done) ltac:(done) ltac:(done) ltac:(by destruct call) s).
  cbn [rbind]. unfold tcg_out32. rewrite emit_emit. by destruct call.
Qed.

Lemma far_encodes (call : bool) : codes (λ s, tcg_out_modrm s OPC_GRP5 (if call then EXT5_CALLN_Ev else EXT5_JMPN_Ev) TCG_REG_R10)
  (if call then ICallInd (OReg TCG_REG_R10) else IJmpInd (OReg TCG_REG_R10)).
Proof. destruct call; [by apply codes_call_reg|by apply codes_jmp_reg]. Qed.

Lemma branch_leads (call : bool) dest :
  ∃ g, writes_at (λ s, tcg_out_branch s call dest) g ∧ ∀ x, leads g x (λ n ip y, ip = u64 dest ∧ gone call x n y).
Proof.
  destruct (movi_all TCG_TYPE_I64 TCG_REG_R10 (sext 64 dest)) as (l1 & W1 & H1); [done|by rewrite sext_sext by lia|].
  destruct (far_encodes call) as (l2 & W2 & E2).
  set (near := λ a, let disp := sext 64 (dest - a - 5) in disp =? sext 32 disp).
  exists (λ a, if near a then branch_head call :: le_bytes 4 (sext 64 (dest - a - 5)) else l1 ++ l2). split.
  - intros s. unfold tcg_out_branch. cbv zeta. fold (near (code_ptr s)). destruct (near (code_ptr s)); [apply near_writes|].
    rewrite W1. cbn [rbind]. rewrite W2. by rewrite emit_emit.
  - intros x cm a. destruct (near a) eqn:En; intros Hc.
    + apply Z.eqb_eq in En. set (d := sext 64 (dest - a - 5)) in *. pose proof (near_encodes call d) as He.
      assert (u64 (a + length (branch_head call :: le_bytes 4 d) + sext 32 d) = u64 dest) as Ed.
      { rewrite <- En. cbn [length]. rewrite le_bytes_length. unfold d. rewrite <- wrap_add_r, wrap64_sext, wrap_add_r. f_equal. lia. }
      destruct call; (eexists _, _; split; [by eapply encodes_reaches|]; split; [done|exists x; split; [apply agree_refl|done]]).
    + destruct (H1 x) as (y & Hs & He). apply code_at_app in Hc as [Hc1 Hc2].
      assert (read 0 W64 (OReg TCG_REG_R10) y = u64 dest) as Er by (cbn; rewrite (eff_val _ _ _ _ _ He : u64 _ = u64 _); apply wrap64_sext).
      destruct call; (eexists _, _; split; [eapply reaches_trans; [by apply Hs|by eapply encodes_reaches]|]);
        (split; [exact Er|exists y; split; [by eapply effect_agree|]]); [|done].
      f_equal. rewrite length_app. lia.
Qed.

(** A function that is a constant or in a register. *)
Lemma branch_reg_leads (call : bool) r :
  is_reg r →
  ∃ g, writes_at (λ s, tcg_out_modrm s OPC_GRP5 (if call then EXT5_CALLN_Ev else EXT5_JMPN_Ev) r) g ∧
    ∀ x, leads g x (λ n ip y, ip = u64 (xr x r) ∧ gone call x n y).
Proof.
  intros Hr. assert (codes (λ s, tcg_out_modrm s OPC_GRP5 (if call then EXT5_CALLN_Ev else EXT5_JMPN_Ev) r)
    (if call then ICallInd (OReg r) else IJmpInd (OReg r))) as (l & W & E)
    by (destruct call; [by apply codes_call_reg|by apply codes_jmp_reg]).
  exists (λ _, l). split; [by apply writes_at_const|]. intros x. apply (leads_one _ _ (λ _, _) _ (λ _, E)). intros a.
  destruct call; (eexists; split; [reflexivity|]); (split; [done|]); exists x; split; [apply agree_refl|done|apply agree_refl|done].
Qed.

Section host.
  Context `{TcgHost}.

Lemma exit_leads v :
  ∃ g, writes_at (λ s, s <- tcg_out_movi s TCG_TYPE_I64 TCG_REG_EAX (sext 64 v) ;; tcg_out_jmp s tb_ret_addr) g ∧
    ∀ x, leads g x (λ n ip y, ip = u64 tb_ret_addr ∧ u64 (xr y TCG_REG_EAX) = u64 v ∧ agree [TCG_REG_EAX; TCG_REG_R10] x y).
Proof.
  destruct (movi_all TCG_TYPE_I64 TCG_REG_EAX (sext 64 v)) as (l & W & Hl); [done|by rewrite sext_sext by lia|].
  destruct (branch_leads false tb_ret_addr) as (g & Wg & Hg). exists (λ a, l ++ g (a + length l)). split.
  - by apply (writes_at_bind _ _ (λ _, l)).
  - intros x. destruct (Hl x) as (y & Hs & He). eapply leads_app; [done|]. eapply leads_mono; [|apply Hg].
    intros n ip z (-> & z' & Hz & ->). split_and!; [done| |].
    + destruct Hz as [Hz _]. rewrite Hz by notin. rewrite <- (wrap64_sext v). apply (eff_val _ _ _ _ _ He).
    + apply (agree_trans [TCG_REG_EAX] [TCG_REG_R10] x y); [by eapply effect_agree|done].
Qed.

(** *** Jumps between blocks *)

Definition pad (a : Z) : nat := Z.to_nat ((3 - a) `mod` 4).
Definition nops (n : nat) : list Z := replicate n OPC_NOP.
Definition goto_tb_bytes (a : Z) : list Z := nops (pad a) ++ jump_bytes true (-1) 0.

Lemma straight_nops n x : straight (nops n) x x.
Proof.
  induction n as [|n IH]; [apply straight_nil|]. change (nops (S n)) with ([OPC_NOP] ++ nops n). eapply straight_app; [|exact IH].
  apply (straight_one _ _ INop); [|done]. split; [cbn; lia|by intros t].
Qed.

Lemma pad_0 a : (a + 1) `mod` 4 = 0 → pad a = 0%nat.
Proof. unfold pad. intros. replace ((3 - a) `mod` 4) with 0 by zdm. done. Qed.
Lemma pad_S a : (a + 1) `mod` 4 ≠ 0 → pad a = S (pad (a + 1)).
Proof. unfold pad. intros. replace ((3 - a) `mod` 4) with ((3 - (a + 1)) `mod` 4 + 1) by zdm. pose proof (Z.mod_pos_bound (3 - (a + 1)) 4). lia. Qed.
Lemma pad_le a : (pad a ≤ 3)%nat.
Proof. unfold pad. pose proof (Z.mod_pos_bound (3 - a) 4). lia. Qed.
Lemma pad_aligned a : (a + pad a + 1) `mod` 4 = 0.
Proof. unfold pad. rewrite Z2Nat.id; zdm. Qed.

Lemma align_pad n s : (pad (code_ptr s) ≤ n)%nat → align_jmp n s = Ok (emit s (nops (pad (code_ptr s)))).
Proof.
  revert s. induction n as [|n IH]; intros s Hn; cbn [align_jmp]; destruct (Z.eqb_spec ((code_ptr s + 1) `mod` 4) 0) as [E|E].
  - rewrite pad_0 by done. by rewrite emit_nil.
  - rewrite pad_S in Hn by done. lia.
  - rewrite pad_0 by done. by rewrite emit_nil.
  - rewrite (pad_S _ E) in Hn |- *. change (code_ptr s + 1) with (code_ptr (tcg_out8 s OPC_NOP)) in *. rewrite IH by lia.
    unfold tcg_out8. by rewrite emit_emit.
Qed.

(** What [tcg_out_goto_tb] notes of its code at [a]. *)
Definition note_goto (n : Z) (a : Z) (s : TCGOut) : TCGOut :=
  s <| tb_jmp_offset := (λ offs, <[Z.to_nat n := u16 (a + pad a + 1 - code_buf s)]> offs) <$> tb_jmp_offset s |>
    <| tb_next_offset := <[Z.to_nat n := u16 (code_ptr s - code_buf s)]> (tb_next_offset s) |>.

(** The direct method of jumps between blocks, with jumps [0] to [n - 1]. *)
Definition direct_jumps (k : nat) (s : TCGOut) : Prop :=
  (∃ offs, tb_jmp_offset s = Some offs ∧ length offs = k) ∧ length (tb_next_offset s) = k.

Lemma aset_ok {A} (l : list A) n x : 0 ≤ n < length l → aset l n x = Ok (<[Z.to_nat n := x]> l).
Proof.
  intros Hn. unfold aset, aref. destruct (Z.ltb_spec n 0); [lia|]. destruct (lookup_lt_is_Some_2 l (Z.to_nat n)) as [y ->]; [lia|done].
Qed.

Lemma goto_tb_writes k s n :
  direct_jumps k s → 0 ≤ n < k →
  tcg_out_goto_tb s n = Ok (note_goto n (code_ptr s) (emit s (goto_tb_bytes (code_ptr s)))).
Proof.
  intros ((offs & Ho & Hl) & Hn') Hn. unfold tcg_out_goto_tb. rewrite Ho, align_pad by apply pad_le. cbn [rbind]. cbv zeta.
  rewrite aset_ok by lia. cbn [rbind]. rewrite aset_ok by (cbn; lia). cbn [rbind]. unfold note_goto, goto_tb_bytes. f_equal.
  destruct s as [buf ptr m ls jo no nx a1 a2 a3]. cbn [tb_jmp_offset tb_next_offset code_ptr] in *. subst jo.
  assert (length (nops (pad ptr)) = pad ptr) as El by apply length_replicate. unfold emit, tcg_out8, tcg_out32, upd, emit.
  cbn -[nops pad jump_bytes put]. rewrite put_app, length_app, El.
  replace (ptr + (pad ptr + length (jump_bytes true (-1) 0))%nat) with (ptr + pad ptr + 1%nat + 4%nat) by (cbn; lia). reflexivity.
Qed.

(** A jump that is not patched goes to the code after it. *)
Lemma goto_tb_leads x : leads goto_tb_bytes x (λ n ip y, ip = u64 n ∧ y = x).
Proof.
  intros cm a [Hc1 Hc2]%code_at_app. pose proof (straight_nops (pad a) x cm a Hc1) as Hn. eexists _, _. split.
  - eapply reaches_trans; [exact Hn|]. eapply encodes_reaches; [by apply (jump_encodes true (-1) 0)|done|reflexivity].
  - split; [|done]. unfold goto_tb_bytes. rewrite length_app. change (sext (8 * disp_len true) 0) with 0. f_equal. lia.
Qed.

(** *** Indirect branches *)

Definition odd_nop (a : Z) : list Z := if a `mod` 2 =? 1 then [OPC_NOP] else [].

Lemma align2_writes s : align2 s = emit s (odd_nop (code_ptr s)).
Proof. unfold align2, odd_nop. destruct (_ =? 1); [done|by rewrite emit_nil]. Qed.

Lemma leads_odd g x Q : leads g x Q → leads (λ a, odd_nop a ++ g (a + length (odd_nop a))) x Q.
Proof.
  intros Hg cm a [Hc1 Hc2]%code_at_app. destruct (Hg cm _ Hc2) as (ip & y & Hr & HQ). exists ip, y. split.
  - eapply reaches_trans; [|exact Hr]. unfold odd_nop in *. destruct (a `mod` 2 =? 1); [by apply (straight_nops 1)|by apply straight_nil].
  - by rewrite length_app, Nat2Z.inj_add, Z.add_assoc.
Qed.

Lemma emit_jmp_offset s v l : emit (s <| jmp_offset := v |>) l = (emit s l) <| jmp_offset := v |>.
Proof. by destruct s. Qed.

(** Where the jump of [tcg_out_goto_ibchain] is, after code of size [k]. *)
Definition note_ibchain (k : nat) (a : Z) (s : TCGOut) : TCGOut :=
  s <| jmp_offset := u16 (a + k + length (odd_nop (a + k)) - code_buf s) |>.

Lemma goto_ibchain_leads eip tb :
  is_reg eip →
  ∃ g k, (∀ s, tcg_out_goto_ibchain s eip tb = Ok (note_ibchain k (code_ptr s) (emit s (g (code_ptr s))))) ∧
    ∀ x, leads g x (λ n ip y, ip = u64 ibchain_ret_addr ∧ eqv TCG_TYPE_TL (xr y TCG_REG_EDI) (xr x eip) ∧
      u64 (xr y TCG_REG_ESI) = u64 tb ∧ agree [TCG_REG_EDI; TCG_REG_ESI; TCG_REG_R10] x y).
Proof.
  intros Hr. destruct (does_all (λ s, tcg_out_mov s TCG_TYPE_TL TCG_REG_EDI eip)
    (λ x y, effect TCG_TYPE_TL TCG_REG_EDI (xr x eip) x y)) as (l1 & W1 & H1); [intros x; by apply computes_mov|].
  destruct (movi_all TCG_TYPE_I64 TCG_REG_ESI (sext 64 tb)) as (l2 & W2 & H2); [done|by rewrite sext_sext by lia|].
  destruct (branch_leads false ibchain_ret_addr) as (g & Wg & Hg).
  set (l := l1 ++ l2). exists (λ a, l ++ odd_nop (a + length l) ++ g (a + length l + length (odd_nop (a + length l)))), (length l). split.
  - intros s. unfold tcg_out_goto_ibchain. rewrite W1. cbn [rbind]. rewrite W2. cbn [rbind]. cbv zeta.
    rewrite emit_emit. fold l. generalize l. clear l. intros l.
    rewrite align2_writes. unfold tcg_out_jmp. rewrite Wg, emit_jmp_offset, !emit_emit.
    change (code_ptr (emit s l)) with (code_ptr s + length l). unfold note_ibchain. rewrite <- app_assoc.
    assert (code_ptr (emit s (l ++ odd_nop (code_ptr s + length l))) =
      code_ptr s + length l + length (odd_nop (code_ptr s + length l))) as Ep by (cbn; rewrite length_app; lia).
    change (code_ptr (?s <| jmp_offset := _ |>)) with (code_ptr s). by rewrite Ep.
  - intros x. destruct (H1 x) as (y & S1 & E1). destruct (H2 y) as (z & S2 & E2).
    apply (leads_app l (λ b, odd_nop b ++ g (b + length (odd_nop b))) x z); [by eapply straight_app|].
    apply leads_odd. eapply leads_mono; [|apply Hg]. intros n ip w (-> & w' & Hw & ->). pose proof (proj1 Hw) as Hr'. split_and!; [done|..].
    + rewrite Hr', (eff_other _ _ _ _ _ E2) by first [done | notin]. apply (eff_val _ _ _ _ _ E1).
    + rewrite Hr', <- (wrap64_sext tb) by notin. apply (eff_val _ _ _ _ _ E2).
    + apply (agree_trans [TCG_REG_EDI] _ x y); [by eapply effect_agree|].
      apply (agree_trans [TCG_REG_ESI] _ y z); [by eapply effect_agree|done].
Qed.

End host.

End exec.

(** ** Patched jumps between blocks *)

(** The stores of [tb_set_jmp_target1] on the memory of the code. *)
Definition patch_code (cm : Z → Z) (ss : list (Z * list Z)) : Z → Z := foldl (λ m st, put m st.1 st.2) cm ss.

Lemma bytes32_le v : bytes32 (u32 v) = le_bytes 4 v.
Proof.
  unfold bytes32. rewrite !byte_of_u32 by lia. rewrite !byte_of_eq by lia. cbn [le_bytes].
  change (8 * 0) with 0. change (8 * 1) with 8. change (8 * 2) with 16. change (8 * 3) with 24. rewrite Z.div_1_r.
  rewrite !Z.div_div by lia. done.
Qed.

Section patched.
  Context `{TcgHost} (undefined : insn → mach → flags).

(** A jump with the displacement [d] after the padding. *)
Lemma padded_jump cm p d addr x :
  code_at cm p (nops (pad p) ++ jump_bytes true (-1) d) → u64 (p + pad p + 5 + sext 32 d) = addr → reaches undefined cm (p, x) (addr, x).
Proof.
  intros [Hc1 Hc2]%code_at_app <-. pose proof (straight_nops undefined (pad p) x cm p Hc1) as Hn.
  eapply reaches_trans; [exact Hn|]. unfold nops in *. rewrite length_replicate in *.
  eapply encodes_reaches; [by apply (jump_encodes true (-1) d)|exact Hc2|]. cbn [jump_insn Z.eqb Pos.eqb exec]. rewrite jump_bytes_length. done.
Qed.

Lemma patched_bytes cm p d d' :
  code_at cm p (nops (pad p) ++ jump_bytes true (-1) d) →
  code_at (put cm (p + pad p + 1) (le_bytes 4 d')) p (nops (pad p) ++ jump_bytes true (-1) d').
Proof.
  unfold nops, jump_bytes. rewrite !app_assoc, !(code_at_app _ _ (_ ++ _)), !length_app, !length_replicate.
  cbn [jump_head disp_len Z.eqb Pos.eqb length]. intros [Hc _]. split.
  - intros i b Hi. pose proof (lookup_lt_Some _ _ _ Hi) as Hl. rewrite length_app, length_replicate in Hl. cbn in Hl.
    rewrite put_outside by lia. by apply Hc.
  - intros i b Hi. rewrite <- (put_inside cm (p + pad p + 1) (le_bytes 4 d') i b Hi). f_equal. lia.
Qed.

Lemma goto_tb_ok k s n :
  direct_jumps k s → 0 ≤ n < k → 0 ≤ code_ptr s < 2 ^ 63 →
  ∃ s', tcg_out_goto_tb s n = Ok s' ∧
    let a := code_ptr s' - 4 in
    a `mod` 4 = 0 ∧ (∃ offs, tb_jmp_offset s' = Some offs ∧ offs !! Z.to_nat n = Some (u16 (a - code_buf s))) ∧
    tb_next_offset s' !! Z.to_nat n = Some (u16 (code_ptr s' - code_buf s)) ∧
    (∀ x, reaches undefined (cmem s') (code_ptr s, x) (code_ptr s', x)) ∧
    ∀ addr, near a addr → length (jmp_target_stores a addr) = 1%nat ∧
      ∀ x, reaches undefined (patch_code (cmem s') (jmp_target_stores a addr)) (code_ptr s, x) (addr, x).
Proof.
  intros Hd Hn Hp. rewrite (goto_tb_writes k s n Hd Hn). eexists. split; [done|]. set (p := code_ptr s) in *.
  set (s' := note_goto _ _ _). assert (cmem s' = put (cmem s) p (goto_tb_bytes p)) as Em by (subst s' p; by destruct s).
  assert (code_ptr s' = p + pad p + 5) as Ep.
  { subst s'. change (code_ptr (note_goto n p (emit s (goto_tb_bytes p)))) with (p + length (goto_tb_bytes p)).
    unfold goto_tb_bytes, nops. rewrite length_app, length_replicate. cbn. lia. }
  cbv zeta. rewrite Ep, Em. replace (p + pad p + 5 - 4) with (p + pad p + 1) by lia. pose proof (pad_le p) as Hpad.
  assert (code_at (put (cmem s) p (goto_tb_bytes p)) p (goto_tb_bytes p)) as Hc by (intros i b Hi; by apply put_inside).
  destruct Hd as ((offs & Ho & Hl) & Hn'). split_and!.
  - apply pad_aligned.
  - exists (<[Z.to_nat n := u16 (p + pad p + 1 - code_buf s)]> offs). split; [subst s' p; destruct s; cbn in *; by subst|].
    apply list_lookup_insert_eq. lia.
  - rewrite <- Ep. assert (tb_next_offset s' = <[Z.to_nat n := u16 (code_ptr s' - code_buf s)]> (tb_next_offset s)) as ->
      by (subst s'; by destruct s). apply list_lookup_insert_eq. lia.
  - intros x. apply (padded_jump _ p 0); [done|]. change (sext 32 0) with 0. rewrite Z.add_0_r. apply wrap_small. cbn in *. lia.
  - intros addr (Ha & Hb & Hnear). unfold jmp_target_stores. rewrite pad_aligned. cbn [Z.eqb]. split; [done|]. intros x.
    cbn [patch_code foldl fst snd]. rewrite bytes32_le. eapply padded_jump; [by apply (patched_bytes _ p 0)|].
    rewrite sext_small by lia. transitivity (u64 addr); [f_equal; lia|apply wrap_small; lia].
Qed.

End patched.
