(* ===== verification/X86Code.v ===== *)
(** * Host code in x86-64 bytes

    The instructions that the register allocator emits (TcgAlloc.v) as the
    calls of tcg/i386/tcg-target.c that tcg.c makes for them, and what their
    bytes do once the code of a block is complete. *)

From stdpp Require Import base list functions.
From S2P Require Import Prelude TcgData TcgLive TcgAlloc TcgSem X86Isa X86Out X86Op X86Enc X86Sem TcgOps X86Val X86Arith X86OpOk X86Mem X86MemOk X86Labels X86Size X86Exit.
Local Open Scope Z_scope.
Local Coercion Z.of_nat : nat >-> Z.

(** ** Bytes of operations on registers *)

Definition zero_mach : mach := mkMach (λ _, 0) (mkFlags false false false false false) (λ _, 0).
Definition no_flags (i : insn) (x : mach) : flags := xf zero_mach.

Section bytes.
  Context `{TcgHost} (op : TCGOpcode).

Lemma codes_writes f i : codes f i → ∃ l, writes f l.
Proof. intros (l & Hw & _). by exists l. Qed.

Lemma writes_ext f g l : (∀ s, f s = g s) → writes f l → writes g l.
Proof. intros E Hw s. by rewrite <- E. Qed.

Lemma ok_writes o ty args consts no ni outs :
  op_ok no_flags op o ty args consts no ni zero_mach →
  op_result o ty (drop (no + ni) args) (zip_with (arg_val zero_mach) (take ni (drop no args)) (drop no consts)) = Some outs →
  ∃ l, writes (λ s, tcg_out_op s op args consts) l.
Proof. intros Hok Hr. destruct (Hok outs Hr) as (y & (l & Hw & _) & _). by exists l. Qed.

Lemma shift_writes o ty c args consts :
  op_split op = Some (o, ty) →
  (o, c) ∈ [(op_shl, SHIFT_SHL); (op_shr, SHIFT_SHR); (op_sar, SHIFT_SAR); (op_rotl, SHIFT_ROL); (op_rotr, SHIFT_ROR)] →
  fits args [ct_out; ct_in; ct_ci] args consts = true → length args = 3%nat →
  ∃ l, writes (λ s, tcg_out_op s op args consts) l.
Proof.
  intros Hs Hc Hf Hl. destruct (shape_bin _ _ _ Hf Hl) as (d & b & k & -> & -> & Hd & Hb).
  assert (is_shift c) as Hsh by (repeat (apply elem_of_cons in Hc as [[= _ ->]|Hc]); [..|by apply elem_of_nil in Hc]; apply list_elem_of_In; cbn; tauto).
  assert (∃ l, writes (λ s, gen_shift s c (type_rexw ty) d b k) l) as [l Hw].
  { unfold gen_shift, tcg_out_shifti. destruct k; [|by eapply codes_writes, codes_shift_cl].
    destruct (arith_op c ty (is_shift_range c Hsh)) as [-> ->]. destruct (sext 32 b =? 1); [by eapply codes_writes, codes_shift1|by eapply codes_writes, codes_shift8]. }
  exists l. eapply writes_ext; [|exact Hw]. intros s. unfold tcg_out_op. rewrite Hs.
  repeat (apply elem_of_cons in Hc as [[= -> ->]|Hc]); [..|by apply elem_of_nil in Hc]; reflexivity.
Qed.

Lemma div_writes o ty args consts :
  op_split op = Some (o, ty) → o = op_div2 ∨ o = op_divu2 → fits args (op_sig op_div2 ty).1.1 args consts = true → length args = 5%nat →
  ∃ l, writes (λ s, tcg_out_op s op args consts) l.
Proof.
  intros Hs Ho Hf Hl. destruct (shape_div _ _ Hf Hl) as (b & -> & -> & Hb).
  assert (∃ l, writes (λ s, tcg_out_modrm s (OPC_GRP3_Ev + type_rexw ty) (match o with op_div2 => EXT3_IDIV | _ => EXT3_DIV end) b) l)
    as [l Hw] by (destruct Ho as [->| ->]; [by eapply codes_writes, codes_idiv|by eapply codes_writes, codes_div]).
  exists l. eapply writes_ext; [|exact Hw]. intros s. unfold tcg_out_op. rewrite Hs. destruct Ho as [->| ->]; reflexivity.
Qed.

(** The condition of a comparison is one of the ten. *)
Definition cond_fits (c : option Z) : bool := match c with Some c => (0 <=? c) && (c <? 10) | None => false end.

Lemma cond_fits_ok c : cond_fits (Some c) = true → ∃ cc, cond_of c = Ok cc.
Proof.
  cbn. rewrite andb_true_iff, Z.leb_le, Z.ltb_lt. intros Hc. unfold cond_of, aref. destruct (Z.ltb_spec c 0); [lia|].
  set (l := [TCG_COND_EQ; _; _; _; _; _; _; _; _; _]). destruct (lookup_lt_is_Some_2 l (Z.to_nat c)) as [cc ->]; [cbn; lia|by exists cc].
Qed.

Lemma un_writes o ty args consts :
  op_split op = Some (o, ty) →
  (match o with op_bswap64 => ty = TCG_TYPE_I64 | _ => True end) →
  o ∈ [op_neg; op_not; op_bswap16; op_bswap32; op_bswap64] → fits args [ct_out; ct_in] args consts = true → length args = 2%nat →
  ∃ l, writes (λ s, tcg_out_op s op args consts) l.
Proof.
  intros Hs Hty Ho Hf Hl. assert (op_ok no_flags op o ty args consts 1 1 zero_mach) as Hok.
  { apply op_ok_un; [done| |done..]. repeat (apply elem_of_cons in Ho as [->|Ho]); [..|by right|by apply elem_of_nil in Ho];
      left; apply list_elem_of_In; cbn; tauto. }
  destruct (shape_un _ _ Hf Hl) as (d & -> & -> & Hd).
  repeat (apply elem_of_cons in Ho as [->|Ho]); [..|by apply elem_of_nil in Ho]; (eapply ok_writes; [exact Hok|]);
    (reflexivity || by destruct ty).
Qed.

Lemma reg_op_writes o ty args consts :
  op_split op = Some (o, ty) → reg_op o = true → args_fit op args consts = true → (o = op_setcond → cond_fits (args !! 3%nat) = true) →
  ∃ l, writes (λ s, tcg_out_op s op args consts) l.
Proof.
  intros Hs Ho Hf Hcd. pose proof Hf as Hfit. destruct (op_sig_ok op o ty Hs Ho) as (Hct & Hno & Hnc & Hni & Hty).
  unfold args_fit, nb_args in Hf. rewrite andb_true_iff, Nat.eqb_eq, Hct, Hno, Hnc, Hni in Hf. destruct Hf as [Hf Hl].
  assert (length args = length (op_sig o ty).1.1 + (op_sig o ty).2)%nat as Hlen by (destruct o, ty; cbn in *; lia). clear Hl.
  destruct o; try done;
    first [by eapply div_writes; [done|by auto|..]|by eapply shift_writes; [done|apply list_elem_of_In; cbn; tauto|..]
          |by eapply un_writes; [done|done|apply list_elem_of_In; cbn; tauto|..]|idtac].
  all: destruct args as [|a0 [|a1 [|a2 [|a3 [|]]]]]; try (destruct ty; done); destruct consts as [|k0 [|k1 [|k2 [|]]]];
    try (exfalso; destruct ty; cbn [fits op_sig fst ct_arith is_i32] in Hf; rewrite ?andb_false_r in Hf; done).
  all: match type of Hs with _ = Some (?o, _) => match type of Hfit with args_fit _ ?args ?consts = true =>
      assert (∃ outs, op_result o ty (x86_cargs op args) (x86_ins zero_mach op args consts) = Some outs) as [outs Hr];
      [unfold x86_cargs, x86_ins; rewrite Hno, Hni; try (destruct ty; eexists; reflexivity)
      |destruct (reg_op_yields no_flags op o ty args consts zero_mach outs Hs Ho Hfit Hr) as (y & (l & Hw & _) & _); by exists l]
    end end.
  destruct (cond_fits_ok a3 (Hcd eq_refl)) as [cc Hcc]. cbn. rewrite Hcc. by eexists.
Qed.

End bytes.

(** ** Instructions *)

Definition reg_fits (r : Z) : bool := (0 <=? r) && (r <? 16).
Definition off_fits (off : Z) : bool := sext 64 off =? sext 32 off.

Section host.
  Context `{TcgHost}.

(** [set_label]: the first label after a [patch] is where the patch point leads. *)
Definition note_patch (s : TCGOut) : TCGOut :=
  if set_patch_next s =? 1 then s <| tb_patch_next := u16 (code_ptr s - code_buf s) |> <| set_patch_next := 0 |> else s.
Definition out_set_label (s : TCGOut) (l : Z) : result TCGOut :=
  s <- tcg_out_label s l (code_ptr s) ;; Ok (note_patch s).

Definition out_insn (s : TCGOut) (i : hinsn) : result TCGOut :=
  match i with
  | HMov ty ret arg => tcg_out_mov s ty ret arg
  | HMovi ty ret val => tcg_out_movi s ty ret (sext 64 val)
  | HLd ty ret base off => tcg_out_ld s ty ret base (sext 64 off)
  | HSt ty arg base off => tcg_out_st s ty arg base (sext 64 off)
  | HAddi reg val => tcg_out_addi s reg (sext 64 val)
  | HOp op args consts => tcg_out_op s op args consts
  | HLabel l => out_set_label s l
  end.

Fixpoint out_code (s : TCGOut) (c : list hinsn) : result TCGOut :=
  match c with [] => Ok s | i :: c => s <- out_insn s i ;; out_code s c end.

(** *** Sizes *)

(** The longest encoding of each instruction. *)
Definition insn_bound (i : hinsn) : Z :=
  match i with
  | HMov _ _ _ => 6
  | HMovi _ _ _ => 13
  | HLd _ _ _ _ | HSt _ _ _ _ => 11
  | HAddi _ _ => 10
  | HOp _ _ _ => 62
  | HLabel _ => 0
  end.

Definition code_bound (c : list hinsn) : Z := foldr (λ i n, insn_bound i + n) 0 c.

Lemma size_insn s i : within (insn_bound i) s (out_insn s i).
Proof.
  destruct i; cbn [out_insn insn_bound]; auto using size_mov, size_movi, size_op, size_label.
  - apply size_sib.
  - apply size_sib.
  - unfold tcg_out_addi. destruct (negb _); [apply size_arithi|apply within_ok; lia].
  - apply (within_bind 0 0); [apply size_label|]. intros s1. apply within_ok. unfold note_patch. destruct (_ =? 1); cbn; lia.
Qed.

Lemma size_code s c : within (code_bound c) s (out_code s c).
Proof.
  induction c as [|i c IH] in s |- *; [apply within_ok; cbn; lia|]. cbn [out_code]. apply within_bind; [apply size_insn|done].
Qed.

(** *** What may be emitted *)

Definition op_fits (op : TCGOpcode) (args : list Z) (consts : list bool) : bool :=
  match op_split op with
  | None => false
  | Some (o, ty) =>
      if reg_op o then args_fit op args consts && (match o with op_setcond => cond_fits (args !! 3%nat) | _ => true end)
      else match mem_access o ty with
      | Some (guest, _, _) => args_fit op args consts && (guest || match args with [_; _; c] => off_fits c | _ => false end)
      | None =>
          match o, args, consts with
          | op_br, [l], _ | op_patch, [l], _ => true
          | op_brcond, [_; _; c; _], _ => args_fit op args consts && cond_fits (Some c)
          | op_exit_tb, [_], _ => true
          | op_goto_tb, [n], _ => (0 <=? n) && (n <? 2)
          | op_goto_ibchain, [eip; _], _ => reg_fits eip
          | op_call, [f], [k] | op_jmp, [f], [k] => k || reg_fits f
          | _, _, _ => false
          end
      end
  end.

Definition insn_fits (i : hinsn) : bool :=
  match i with
  | HMov _ r r' => reg_fits r && reg_fits r'
  | HMovi _ r _ => reg_fits r
  | HLd _ r base off | HSt _ r base off => reg_fits r && reg_fits base && off_fits off
  | HAddi r v => reg_fits r && off_fits v
  | HOp op args consts => op_fits op args consts
  | HLabel _ => true
  end.

Definition insn_labels (i : hinsn) : list Z := match i with HLabel l => [l] | _ => [] end.
Definition insn_targets (i : hinsn) : list Z :=
  match i with
  | HOp op args _ =>
      match op_split op, args with
      | Some (op_br, _), [l] | Some (op_patch, _), [l] | Some (op_brcond, _), [_; _; _; l] => [l]
      | _, _ => []
      end
  | _ => []
  end.

(** *** What their code does *)

Section meaning.
  Context (undefined : insn → mach → flags) (cm : Z → Z) (dest : Z → Z).
  Notation reaches := (reaches undefined cm).

(** A load or a store at [a]. *)
Definition accessed (ty : TCGType) (guest st : bool) (opc d a : Z) (x y : mach) : Prop :=
  let swap := guest && TARGET_WORDS_BIGENDIAN in
  (if st then xm y = mem_store swap (access_bytes opc) a (xr x d) (xm x)
   else xm y = xm x ∧ eqv ty (xr y d) (mem_load swap (access_bytes opc) (access_sgn opc) a (xm x))) ∧
  ∀ r, r ∉ (if st then [] else [d]) ++ (if guest then [TCG_REG_ESI; TCG_REG_EDI] else []) → xr y r = xr x r.

(** From the code at [a] on; [n] is the address of the next instruction. *)
Definition op_meaning (op : TCGOpcode) (args : list Z) (consts : list bool) (a n : Z) (x : mach) : Prop :=
  match op_split op with
  | None => False
  | Some (o, ty) =>
      if reg_op o then
        ∀ outs, op_result o ty (x86_cargs op args) (x86_ins x op args consts) = Some outs →
          ∃ y, reaches (a, x) (n, y) ∧ Forall2 (λ r v, eqv ty (xr y r) v) (x86_outs op args) outs ∧ agree (x86_outs op args) x y
      else match mem_access o ty, o, args, consts with
      | Some (guest, st, opc), _, [d; b; c], _ =>
          ∃ y, reaches (a, x) (n, y) ∧ accessed ty guest st opc d (xr x b + if guest then GUEST_BASE else c) x y
      | _, op_br, [l], _ | _, op_patch, [l], _ => reaches (a, x) (dest l, x)
      | _, op_brcond, [r; v; c; l], [_; k] =>
          ∃ cc y, cond_of c = Ok cc ∧ agree [] x y ∧
            reaches (a, x) (if cond_holds cc (bits ty) (xr x r) (arg_val x v k) then dest l else n, y)
      | _, op_exit_tb, [v], _ =>
          ∃ y, reaches (a, x) (u64 tb_ret_addr, y) ∧ u64 (xr y TCG_REG_EAX) = u64 v ∧ agree [TCG_REG_EAX; TCG_REG_R10] x y
      | _, op_goto_tb, [_], _ => reaches (a, x) (n, x)
      | _, op_goto_ibchain, [eip; tb], _ =>
          ∃ y, reaches (a, x) (u64 ibchain_ret_addr, y) ∧ eqv TCG_TYPE_TL (xr y TCG_REG_EDI) (xr x eip) ∧
            u64 (xr y TCG_REG_ESI) = u64 tb ∧ agree [TCG_REG_EDI; TCG_REG_ESI; TCG_REG_R10] x y
      | _, op_call, [f], [k] => ∃ y, reaches (a, x) (u64 (arg_val x f k), y) ∧ gone true x n y
      | _, op_jmp, [f], [k] => ∃ y, reaches (a, x) (u64 (arg_val x f k), y) ∧ gone false x n y
      | _, _, _, _ => False
      end
  end.

Definition type_opc (ty : TCGType) : Z := if is_i32 ty then 2 else 3.

Definition insn_meaning (i : hinsn) (a n : Z) (x : mach) : Prop :=
  match i with
  | HMov ty d r => ∃ y, reaches (a, x) (n, y) ∧ effect ty d (xr x r) x y
  | HMovi ty d v => ∃ y, reaches (a, x) (n, y) ∧ effect ty d v x y
  | HLd ty d b off => ∃ y, reaches (a, x) (n, y) ∧ accessed ty false false (type_opc ty) d (xr x b + off) x y
  | HSt ty r b off => ∃ y, reaches (a, x) (n, y) ∧ accessed ty false true (type_opc ty) r (xr x b + off) x y
  | HAddi r v => ∃ y, reaches (a, x) (n, y) ∧ effect TCG_TYPE_I64 r (xr x r + v) x y
  | HOp op args consts => op_meaning op args consts a n x
  | HLabel l => dest l = a ∧ a = n
  end.

End meaning.
End host.
