(* ===== verification/X86Block.v ===== *)
(** * The x86-64 code of a block

    The bytes of a list of host instructions, with its jumps and labels, do
    what the instructions mean: the events of each instruction (X86Labels.v)
    are in the memory at the end, and their execution is the instruction's. *)

From stdpp Require Import base list functions.
From S2P Require Import Prelude TcgData TcgLive TcgAlloc TcgSem X86Isa X86Out X86Op X86Enc X86Sem TcgOps X86Val X86Arith X86OpOk X86Mem X86MemOk X86Labels X86Size X86Exit X86Code.
Local Open Scope Z_scope.
Local Coercion Z.of_nat : nat >-> Z.

(** ** What jumps and labels leave alone *)

Definition same_notes (s s' : TCGOut) : Prop :=
  tb_jmp_offset s' = tb_jmp_offset s ∧ tb_next_offset s' = tb_next_offset s.

Definition keeps_notes (s : TCGOut) (r : result TCGOut) : Prop := ∀ s', r = Ok s' → same_notes s s'.

Lemma notes_bind s r k : keeps_notes s r → (∀ s1, keeps_notes s1 (k s1)) → keeps_notes s (rbind r k).
Proof.
  intros Hr Hk s' (s1 & E & E')%rbind_ok. destruct (Hr s1 E), (Hk s1 s' E'). split; congruence.
Qed.

Lemma notes_get {A} s (r : result A) k : (∀ a, keeps_notes s (k a)) → keeps_notes s (rbind r k).
Proof. intros Hk s' (a & _ & E)%rbind_ok. by apply (Hk a). Qed.

Lemma notes_ok s s' : same_notes s s' → keeps_notes s (Ok s').
Proof. intros Hs ? [= <-]. done. Qed.

Lemma notes_opc s opc r rm x : keeps_notes s (tcg_out_opc s opc r rm x).
Proof.
  unfold tcg_out_opc. cbv zeta. apply notes_bind.
  - destruct (has_flag _ _); [apply notes_get; intros _|]; by apply notes_ok.
  - intros s1. apply notes_ok. by destruct (has_flag _ P_ADDR32), (_ =? 0), (has_flag _ P_EXT).
Qed.

Lemma notes_patch s p ty v a : keeps_notes s (patch_reloc s p ty v a).
Proof. unfold patch_reloc. cbv zeta. repeat (destruct (_ =? _); try done); by apply notes_ok. Qed.

Lemma notes_reloc s p ty l a : keeps_notes s (tcg_out_reloc s p ty l a).
Proof. unfold tcg_out_reloc. apply notes_get. intros [v|rs]; [apply notes_patch|by apply notes_ok]. Qed.

Lemma notes_jxx s opc l small : keeps_notes s (tcg_out_jxx s opc l small).
Proof.
  unfold tcg_out_jxx. apply notes_get. intros [v|rs]; cbv zeta.
  - destruct (_ =? _); [apply notes_ok; by destruct (opc =? -1)|]. destruct small; [done|].
    destruct (opc =? -1); [by apply notes_ok|]. apply notes_bind; [apply notes_opc|]. intros s1. by apply notes_ok.
  - destruct small.
    + intros s' (s1 & E%notes_reloc & [= <-])%rbind_ok. by destruct (opc =? -1).
    + apply notes_bind; [destruct (opc =? -1); [by apply notes_ok|apply notes_opc]|]. intros s1.
      apply notes_bind; [apply notes_reloc|]. intros s2. by apply notes_ok.
Qed.

Lemma notes_label s l v : keeps_notes s (tcg_out_label s l v).
Proof.
  unfold tcg_out_label. apply notes_get. intros [v'|rs]; [done|]. apply notes_bind; [|intros s1; by apply notes_ok].
  revert s. induction rs as [|r rs IH]; intros s; [by apply notes_ok|]. cbn [patch_relocs]. apply notes_bind; [apply notes_patch|apply IH].
Qed.

Lemma direct_same k s s' : same_notes s s' → direct_jumps k s → direct_jumps k s'.
Proof. intros [E1 E2] ((offs & Ho & Hl) & Hn). split; [exists offs; by rewrite E1|by rewrite E2]. Qed.

(** ** Events in memory *)

Section block.
  Context (undefined : insn → mach → flags).

Definition jump_taken (opc : Z) (f : flags) : bool := (opc =? -1) || cc_test opc f.

(** The events [es] are in the memory from [a] to [n]. *)
Fixpoint holds (cm : Z → Z) (dest : Z → Z) (es : list event) (a n : Z) : Prop :=
  match es with
  | [] => a = n
  | ECode _ g _ :: es => code_at cm a (g a) ∧ holds cm dest es (a + length (g a)) n
  | EJump opc l :: es =>
      ∃ b, (∀ x, xstep undefined cm (a, x) = Some (if jump_taken opc (xf x) then dest l else b, x)) ∧ holds cm dest es b n
  | ELabel l :: es => dest l = a ∧ holds cm dest es a n
  end.

(** The address of a label, once it has one. *)
Definition label_addr (s : TCGOut) (l : Z) : Z :=
  match labels s !! Z.to_nat l with Some (LValue v) => v | _ => 0 end.

Definition targets (es : list event) : list Z := omap (λ e, match e with EJump _ l => Some l | _ => None end) es.

Section hist.
  Context (start bound : Z) (Hst : 0 ≤ start) (Hbd : bound < 2 ^ 62).

Lemma jump_step s J j v x :
  inv start bound s J → j ∈ J → labels s !! j_label j = Some (LValue v) →
  xstep undefined (cmem s) (j_ip j, x) = Some (if jump_taken (j_opc j) (xf x) then v else j_next j, x).
Proof.
  intros Hi Hj Hl. destruct (inv_where _ _ _ _ Hi j Hj) as (Hop & Hs & Hn). pose proof (inv_ok _ _ _ _ Hi j Hj) as Ho.
  pose proof (inv_values _ _ _ _ Hi _ _ Hl) as Hv. pose proof (inv_ptr _ _ _ _ Hi) as Hp.
  unfold jump_ok in Ho. rewrite Hl in Ho. destruct Ho as [Hc Hf].
  rewrite (encodes_step undefined _ _ _ _ x (jump_encodes (j_long j) (j_opc j) _ Hop) Hc), Hf, jump_bytes_length.
  fold (j_next j). unfold jump_insn, jump_taken. destruct (Z.eqb_spec (j_opc j) (-1)) as [_|_]; cbn [exec orb];
    replace (j_next j + (v - j_next j)) with v by lia; rewrite wrap_small by (cbn in *; lia); done.
Qed.

Lemma do_events_snoc s es e s1 : do_events s es = Ok s1 → do_events s (es ++ [e]) = do_event s1 e.
Proof. intros E. rewrite do_events_app, E. cbn. by destruct (do_event s1 e). Qed.

Lemma placed_value s0 es s J l : hist start s0 es s J → l ∈ placed es → ∃ v, labels s !! Z.to_nat l = Some (LValue v).
Proof.
  intros Hh Hl. apply list_elem_of_omap in Hl as (e & He & Ee). destruct e; simplify_eq.
  apply list_elem_of_split in He as (es1 & es2 & Es). pose proof (h_run _ _ _ _ _ Hh) as Hr.
  rewrite Es, do_events_app in Hr. apply rbind_ok in Hr as (s1 & E1 & _). eexists. by apply (h_labels _ _ _ _ _ Hh es1 l es2 s1).
Qed.

Lemma hist_holds s0 es s J es1 es2 es3 s1 s2 :
  hist start s0 es s J → inv start bound s J → Forall (event_ok (length (labels s0))) es → (∀ l, l ∈ targets es → l ∈ placed es) →
  es = es1 ++ es2 ++ es3 → do_events s0 es1 = Ok s1 → do_events s1 es2 = Ok s2 →
  holds (cmem s) (label_addr s) es2 (code_ptr s1) (code_ptr s2).
Proof.
  intros Hh Hi He Ht. revert es1 s1. induction es2 as [|e es2 IH]; intros es1 s1 Es E1 E2.
  { cbn in E2. by simplify_eq. }
  cbn [do_events] in E2. apply rbind_ok in E2 as (s1' & Ee & E2).
  specialize (IH (es1 ++ [e]) s1'). rewrite (do_events_snoc _ _ _ _ E1), <- app_assoc in IH. specialize (IH Es Ee E2).
  change (es1 ++ (e :: es2) ++ es3) with (es1 ++ e :: (es2 ++ es3)) in Es. destruct e as [n g u|opc l|l]; cbn [holds].
  - destruct (h_code _ _ _ _ _ Hh _ _ _ _ _ _ Es E1) as (Hc & _). split; [done|]. injection Ee as <-.
    rewrite Es, Forall_app in He. destruct He as [_ [[_ Hu] _]%Forall_cons_1].
    by rewrite (proj1 (Hu (code_ptr s1) (emit s1 (g (code_ptr s1))))) in IH.
  - destruct (h_jumps _ _ _ _ _ Hh _ _ _ _ _ _ Es E1 Ee) as (j & Hj & Eip & En & Eo & El). exists (code_ptr s1'). split; [|done].
    destruct (placed_value s0 es s J l Hh) as [v Hv].
    { apply Ht. rewrite Es. unfold targets. rewrite omap_app, elem_of_app. right. by left. }
    unfold label_addr. rewrite Hv, <- Eip, <- En, <- Eo. intros x. apply (jump_step s J j v x); [done..|]. by rewrite El.
  - pose proof (h_labels _ _ _ _ _ Hh _ _ _ _ Es E1) as Hl. unfold label_addr at 1. rewrite Hl. split; [done|].
    apply size_label in Ee. by replace (code_ptr s1) with (code_ptr s1') by lia.
Qed.

End hist.
(** ** Events of an instruction *)

Section insn.
  Context `{TcgHost} (nl : nat).

(** The instruction [i] is the events [es]. *)
Record insn_ok (i : hinsn) (es : list event) : Prop := mkInsnOk {
  e_run s : direct_jumps 2 s → out_insn s i = do_events s es;
  e_keep s s' : direct_jumps 2 s → do_events s es = Ok s' → direct_jumps 2 s';
  e_ok : Forall (event_ok nl) es;
  e_size : size es ≤ 80;
  e_placed : placed es = insn_labels i;
  e_targets : targets es = insn_targets i;
  e_mean cm dest a n x : holds cm dest es a n → 0 ≤ n < 2 ^ 64 → insn_meaning undefined cm dest i a n x
}.

Definition note_nothing (a : Z) (s : TCGOut) : TCGOut := s.

Lemma same_code_refl s : same_code s s.
Proof. done. Qed.

(** Code without jumps and labels. *)
Lemma insn_note i g u :
  (∀ s, direct_jumps 2 s → out_insn s i = Ok (u (code_ptr s) (emit s (g (code_ptr s))))) →
  (∀ a s, same_code s (u a s)) → (∀ a s, direct_jumps 2 s → direct_jumps 2 (u a s)) →
  (∀ s, within 62 s (out_insn s i)) → insn_labels i = [] → insn_targets i = [] →
  (∀ cm dest a x, code_at cm a (g a) → 0 ≤ a + length (g a) < 2 ^ 64 → insn_meaning undefined cm dest i a (a + length (g a)) x) →
  ∃ es, insn_ok i es.
Proof.
  intros Hw Hu Hj Hs Hl Ht Hm. exists [ECode 62 g u]. split.
  - intros s Hd. cbn. by rewrite Hw.
  - intros s s' Hd [= <-]. by apply Hj, (direct_same 2 s).
  - apply Forall_singleton. split; [|done]. intros a. set (s := mkOut 0 a (λ _, 0) [] (Some [0; 0]) [0; 0] 0 0 0 0 0).
    pose proof (Hs s _ (Hw s ltac:(split; [by exists [0; 0]|done]))) as Hn.
    rewrite (proj1 (Hu _ _)) in Hn. cbn in Hn. lia.
  - cbn. lia.
  - done.
  - done.
  - intros cm dest a n x [Hc En]. cbn [holds] in En. subst n. by apply Hm.
Qed.

Lemma insn_code i g :
  writes_at (λ s, out_insn s i) g → (∀ s, within 62 s (out_insn s i)) → insn_labels i = [] → insn_targets i = [] →
  (∀ cm dest a x, code_at cm a (g a) → 0 ≤ a + length (g a) < 2 ^ 64 → insn_meaning undefined cm dest i a (a + length (g a)) x) →
  ∃ es, insn_ok i es.
Proof. intros Hw. apply (insn_note i g note_nothing); [by intros s _; apply Hw|intros; apply same_code_refl|done]. Qed.

(** The code does something that leads to a state [y] with [P x y]. *)
Lemma insn_does i (P : mach → mach → Prop) :
  (∀ s, within 62 s (out_insn s i)) → insn_labels i = [] → insn_targets i = [] →
  (∀ x, ∃ y, does undefined (λ s, out_insn s i) x y ∧ P x y) →
  (∀ cm dest a n x, (∃ y, reaches undefined cm (a, x) (n, y) ∧ P x y) → insn_meaning undefined cm dest i a n x) →
  ∃ es, insn_ok i es.
Proof.
  intros Hs Hl Ht Hd Hm. destruct (does_all undefined _ P Hd) as (l & Hw & Hy).
  apply (insn_code i (λ _, l)); [done..|]. intros cm dest a x Hc _. apply Hm. destruct (Hy x) as (y & Hst & HP).
  exists y. split; [by apply Hst|done].
Qed.

(** *** Moves *)

Lemma reg_fits_ok r : reg_fits r = true → is_reg r.
Proof. unfold reg_fits. rewrite andb_true_iff, Z.leb_le, Z.ltb_lt. done. Qed.

Lemma insn_mov ty d r : is_reg d → is_reg r → ∃ es, insn_ok (HMov ty d r) es.
Proof.
  intros Hd Hr. apply (insn_does _ (λ x y, effect ty d (xr x r) x y)); [|done..| |done].
  - intros s. eapply size_mono; [apply size_mov|lia].
  - intros x. by apply computes_mov.
Qed.

Lemma insn_movi ty d v : is_reg d → ∃ es, insn_ok (HMovi ty d v) es.
Proof.
  intros Hd. apply (insn_does _ (λ x y, effect ty d v x y)); [|done..| |done].
  - intros s. eapply size_mono; [apply size_movi|lia].
  - intros x. apply (computes_eqv undefined _ ty d (sext 64 v)); [apply wrap_sext; destruct ty; cbn; lia|].
    apply computes_movi; [done|]. by rewrite sext_sext.
Qed.

Lemma insn_ld ty d b off : is_reg d → is_reg b → sext 64 off = sext 32 off → ∃ es, insn_ok (HLd ty d b off) es.
Proof.
  intros Hd Hb Hoff. apply (insn_does _ (λ x y, accessed ty false false (type_opc ty) d (xr x b + off) x y)); [|done..| |done].
  - intros s. eapply size_mono; [apply size_sib|lia].
  - intros x. apply (access_load undefined (λ s, tcg_out_ld s ty d b (sext 64 off))).
    destruct ty; [by apply (computes_host undefined TCG_TYPE_I32 d b off x Hoff _ W32); [apply codes_ld|auto]|].
    by apply (computes_host undefined TCG_TYPE_I64 d b off x Hoff _ W64); [apply codes_ld|auto].
Qed.

Lemma insn_st ty d b off : is_reg d → is_reg b → sext 64 off = sext 32 off → ∃ es, insn_ok (HSt ty d b off) es.
Proof.
  intros Hd Hb Hoff. apply (insn_does _ (λ x y, accessed ty false true (type_opc ty) d (xr x b + off) x y)); [|done..| |done].
  - intros s. eapply size_mono; [apply size_sib|lia].
  - intros x. apply (access_store undefined (λ s, tcg_out_st s ty d b (sext 64 off))).
    destruct ty; [by apply (stores_host undefined d b off x Hoff _ W32), (codes_st TCG_TYPE_I32)|].
    by apply (stores_host undefined d b off x Hoff _ W64), (codes_st TCG_TYPE_I64).
Qed.

Lemma insn_addi r v : is_reg r → sext 64 v = sext 32 v → ∃ es, insn_ok (HAddi r v) es.
Proof.
  intros Hr Hv. apply (insn_does _ (λ x y, effect TCG_TYPE_I64 r (xr x r + v) x y)); [|done..| |done].
  - intros s. unfold out_insn, tcg_out_addi. destruct (negb _); [|apply within_ok; lia]. eapply size_mono; [apply size_arithi|lia].
  - intros x. apply (computes_eqv undefined (λ s, tcg_out_addi s r (sext 64 v)) TCG_TYPE_I64 r (xr x r + sext 64 v)).
    { unfold eqv, conv. cbn [bits]. by rewrite <- wrap_add_r, wrap64_sext, wrap_add_r. }
    unfold tcg_out_addi. destruct (Z.eqb_spec (sext 64 v) 0) as [->|_]; cbn [negb].
    + exists x. split; [apply does_nil|]. split; [|done..]. by rewrite Z.add_0_r.
    + apply (computes_arithi undefined ARITH_ADD TCG_TYPE_I64); [apply list_elem_of_In; cbn; tauto|done|].
      right. left. by rewrite sext_sext.
Qed.

(** *** Operations *)

Lemma does_at f l x y : writes f l → does undefined f x y → straight undefined l x y.
Proof. intros Hw (l' & Hw' & Hs). by rewrite (writes_unique f l l' Hw Hw'). Qed.

Section op.
  Context (op : TCGOpcode) (ty : TCGType) (args : list Z) (consts : list bool).
  Notation i := (HOp op args consts).

Lemma op_size s : within 62 s (out_insn s i).
Proof. apply size_op. Qed.

Lemma insn_reg o :
  op_split op = Some (o, ty) → reg_op o = true → args_fit op args consts = true → (o = op_setcond → cond_fits (args !! 3%nat) = true) →
  ∃ es, insn_ok i es.
Proof.
  intros Hs Ho Hf Hc. destruct (reg_op_writes op o ty args consts Hs Ho Hf Hc) as [l Hw].
  apply (insn_code _ (λ _, l)); [done|apply op_size|done|unfold insn_targets; rewrite Hs; by destruct o|].
  intros cm dest a x Hat _. cbn [insn_meaning]. unfold op_meaning. rewrite Hs, Ho. intros outs Hr.
  destruct (reg_op_yields undefined op o ty args consts x outs Hs Ho Hf Hr) as (y & Hy & Hv & Hag).
  exists y. split_and!; [by apply (does_at _ l x y Hw Hy)|done|done].
Qed.

Lemma insn_mem o guest st opc :
  op_split op = Some (o, ty) → reg_op o = false → mem_access o ty = Some (guest, st, opc) → args_fit op args consts = true →
  (guest = false → ∀ c, args !! 2%nat = Some c → sext 64 c = sext 32 c) → ∃ es, insn_ok i es.
Proof.
  intros Hs Ho Hm Hf Hoff. destruct (mem_args _ _ _ _ _ _ _ _ Hs Hm Hf) as (d & b & c & Ea & _).
  apply (insn_does _ (λ x y, accessed ty guest st opc d (xr x b + if guest then GUEST_BASE else c) x y));
    [apply op_size|done|unfold insn_targets; rewrite Hs; by destruct o| |].
  - intros x. destruct (mem_op_ok undefined op o ty guest st opc args consts x Hs Hm Hf Hoff) as (d' & b' & c' & Ea' & Hok).
    rewrite Ea in Ea'. injection Ea' as <- <- <-. exact Hok.
  - intros cm dest a n x Hy. cbn [insn_meaning]. unfold op_meaning. rewrite Hs, Ho, Hm, Ea. by destruct o.
Qed.

End op.

(** *** Branches *)

Ltac split_op Hs := unfold op_meaning, insn_targets, out_insn, tcg_out_op; rewrite Hs.

Lemma rbind_ret {A} (r : result A) : (a <- r ;; Ok a) = r.
Proof. by destruct r. Qed.

Lemma taken_reaches cm dest opc l a n x :
  holds cm dest [EJump opc l] a n → reaches undefined cm (a, x) (if jump_taken opc (xf x) then dest l else n, x).
Proof. intros (b & Hx & Hb). cbn [holds] in Hb. subst b. exists 1%nat. cbn [xexec]. by rewrite Hx. Qed.

Lemma insn_br op ty l consts : op_split op = Some (op_br, ty) → 0 ≤ l < nl → ∃ es, insn_ok (HOp op [l] consts) es.
Proof.
  intros Hs Hl. exists [EJump JCC_JMP l]. split.
  - intros s _. split_op Hs. cbn [do_events do_event]. by rewrite rbind_ret.
  - intros s s' Hd E. cbn in E. apply rbind_ok in E as (s1 & E & [= <-]). by apply (direct_same 2 s); [eapply notes_jxx|].
  - apply Forall_singleton. done.
  - done.
  - done.
  - by split_op Hs.
  - intros cm dest a n x Hh _. cbn [insn_meaning]. split_op Hs. by apply (taken_reaches _ _ _ _ _ _ x) in Hh.
Qed.

Lemma notes_align n s : keeps_notes s (align_jmp n s).
Proof.
  revert s. induction n as [|n IH]; intros s; cbn [align_jmp]; (destruct (_ =? 0); [by apply notes_ok|]); [done|].
  intros s' E%IH. exact E.
Qed.

Lemma insn_patch op ty l consts : op_split op = Some (op_patch, ty) → 0 ≤ l < nl → ∃ es, insn_ok (HOp op [l] consts) es.
Proof.
  intros Hs Hl. exists [ECode 3 (λ a, nops (pad a)) (λ _ s, s <| set_patch_next := 1 |>); EJump JCC_JMP l]. split.
  - intros s _. split_op Hs. cbn [rbind aref Z.ltb Z.compare Z.to_nat lookup list_lookup deref do_events do_event].
    rewrite align_pad by apply pad_le. cbn [rbind]. change (code_ptr (s <| set_patch_next := 1 |>)) with (code_ptr s).
    replace (emit (s <| set_patch_next := 1 |>) (nops (pad (code_ptr s)))) with ((emit s (nops (pad (code_ptr s)))) <| set_patch_next := 1 |>) by (by destruct s).
    by rewrite rbind_ret.
  - intros s s' Hd E. cbn [do_events do_event rbind] in E. apply rbind_ok in E as (s1 & E & [= <-]).
    apply notes_jxx in E. by apply (direct_same 2 s).
  - constructor; [|by apply Forall_singleton]. split; [|done]. intros a. unfold nops. rewrite length_replicate. apply pad_le.
  - done.
  - done.
  - by split_op Hs.
  - intros cm dest a n x [Hc Hh] _. cbn [insn_meaning]. split_op Hs. apply (taken_reaches _ _ _ _ _ _ x) in Hh.
    eapply reaches_trans; [by apply straight_nops|exact Hh].
Qed.

Lemma brcond_cmp s op ty a b c l cc k k0 :
  op_split op = Some (op_brcond, ty) → cond_of c = Ok cc →
  tcg_out_op s op [a; b; c; l] [k0; k] =
    (s <- tcg_out_cmp s a b k (type_rexw ty) ;; tcg_out_jxx s (tcg_cond_to_jcc cc) l false).
Proof.
  intros Hs Hc. unfold tcg_out_op. rewrite Hs.
  change ((c <- cond_of c ;; (if is_i32 ty then tcg_out_brcond32 else tcg_out_brcond64) s c a b k l false) =
    (s <- tcg_out_cmp s a b k (type_rexw ty) ;; tcg_out_jxx s (tcg_cond_to_jcc cc) l false)). rewrite Hc. by destruct ty.
Qed.

Lemma jcc_range cc : 0 ≤ tcg_cond_to_jcc cc < 16.
Proof. destruct cc; cbn; lia. Qed.

Definition brcond_ct (ty : TCGType) : list TCGArgConstraint := [ct_r; ct_arith ty].

Definition brcond_fact (op : TCGOpcode) : bool :=
  match op_split op with
  | Some (op_brcond, ty) => bool_decide (args_ct (op_info op) = brcond_ct ty) && (nb_args (op_def op) =? 4)%nat
  | _ => true
  end.

Lemma brcond_facts : forallb brcond_fact (seq 0 NB_OPS) = true.
Proof. vm_compute. reflexivity. Qed.

Lemma brcond_args op ty args consts :
  op_split op = Some (op_brcond, ty) → args_fit op args consts = true →
  ∃ a b c l k, args = [a; b; c; l] ∧ consts = [false; k] ∧ is_reg a ∧ (k = false → is_reg b) ∧ (k = true → const32 ty b).
Proof.
  intros Hs Hf. pose proof brcond_facts as Ht. rewrite forallb_forall in Ht. specialize (Ht op). unfold brcond_fact in Ht.
  rewrite Hs, andb_true_iff, bool_decide_eq_true, Nat.eqb_eq in Ht. destruct Ht as [Hct Hn]; [apply in_seq; pose proof (op_split_lt _ _ Hs); lia|].
  unfold args_fit in Hf. rewrite Hct, Hn, andb_true_iff, Nat.eqb_eq in Hf. destruct Hf as [Hf Hl].
  destruct args as [|a [|b [|c [|l [|]]]]]; try done. destruct consts as [|k0 [|k [|]]]; unfold brcond_ct in Hf;
    cbn [fits] in Hf; rewrite ?andb_false_r in Hf; try done. rewrite !andb_true_iff in Hf. destruct Hf as (H0 & H1 & _).
  apply fits_reg in H0 as (-> & Ha & _); [|done..]. apply fits_arith in H1 as [Hr Hk]. exists a, b, c, l, k. split_and!; try done.
  intros E. by apply Hr.
Qed.

Lemma insn_brcond op ty a b c l consts :
  op_split op = Some (op_brcond, ty) → args_fit op [a; b; c; l] consts = true → cond_fits (Some c) = true → 0 ≤ l < nl →
  ∃ es, insn_ok (HOp op [a; b; c; l] consts) es.
Proof.
  intros Hs Hf Hc Hl. destruct (brcond_args _ _ _ _ Hs Hf) as (a' & b' & c' & l' & k & [= <- <- <- <-] & -> & Ha & Hb & Hk).
  destruct (cond_fits_ok c Hc) as [cc Hcc]. pose proof (jcc_range cc) as Hj.
  destruct (does_all undefined (λ s, tcg_out_cmp s a b k (type_rexw ty)) (λ x y, xr y = xr x ∧ xm y = xm x ∧
    ∀ c, cc_test (tcg_cond_to_jcc c) (xf y) = cond_holds c (bits ty) (xr x a) (arg_val x b k))) as (lc & Hw & Hy).
  { intros x. by apply does_cmp. }
  assert (∀ s, within 10 s (tcg_out_cmp s a b k (type_rexw ty))) as Hsz by (intros; apply size_cmp).
  exists [ECode 10 (λ _, lc) note_nothing; EJump (tcg_cond_to_jcc cc) l]. split.
  - intros s _. cbn [out_insn]. rewrite (brcond_cmp s op ty _ _ _ _ cc) by done. cbn [do_events do_event rbind note_nothing].
    rewrite Hw. cbn [rbind]. by rewrite rbind_ret.
  - intros s s' Hd E. cbn [do_events do_event rbind note_nothing] in E. rewrite rbind_ret in E. apply notes_jxx in E. by apply (direct_same 2 s).
  - constructor; [|apply Forall_singleton; split; [unfold jcc_ok; lia|done]]. split; [|by intros]. intros _.
    pose proof (Hsz no_out _ (Hw no_out)) as Hn. rewrite no_out_ptr in Hn. cbn in Hn. lia.
  - done.
  - done.
  - by split_op Hs.
  - intros cm dest p n x [Hat Hh] _. cbn [insn_meaning]. split_op Hs. cbn [reg_op mem_access].
    destruct (Hy x) as (y & Hst & Hr & Hm & Hcond). exists cc, y. split_and!; [done|by split; [intros; by rewrite Hr|]|].
    apply (taken_reaches _ _ _ _ _ _ y) in Hh. unfold jump_taken in Hh. rewrite Hcond in Hh.
    destruct (Z.eqb_spec (tcg_cond_to_jcc cc) (-1)); [lia|]. eapply reaches_trans; [by apply Hst|exact Hh].
Qed.

(** *** Exits *)

Lemma insn_exit op ty v consts : op_split op = Some (op_exit_tb, ty) → ∃ es, insn_ok (HOp op [v] consts) es.
Proof.
  intros Hs. destruct (exit_leads undefined v) as (g & Hw & Hg). apply (insn_code _ g); [|apply op_size|done|by split_op Hs|].
  - intros s. split_op Hs. apply Hw.
  - intros cm dest a x Hat _. cbn [insn_meaning]. split_op Hs. destruct (Hg x cm a Hat) as (ip & y & Hr & -> & Hv & Hag). by exists y.
Qed.

Lemma note_goto_direct n a s : direct_jumps 2 s → direct_jumps 2 (note_goto n a s).
Proof.
  intros ((offs & Ho & Hl) & Hn). destruct s. cbn in *. subst. split; [|by cbn; rewrite length_insert].
  eexists. split; [done|]. by rewrite length_insert.
Qed.

Lemma insn_goto_tb op ty n consts : op_split op = Some (op_goto_tb, ty) → 0 ≤ n < 2 → ∃ es, insn_ok (HOp op [n] consts) es.
Proof.
  intros Hs Hn. apply (insn_note _ goto_tb_bytes (note_goto n)); [| |apply note_goto_direct|apply op_size|done|by split_op Hs|].
  - intros s Hd. split_op Hs. by apply (goto_tb_writes 2).
  - intros a s. by destruct s.
  - intros cm dest a x Hat Hr. cbn [insn_meaning]. split_op Hs. destruct (goto_tb_leads undefined x cm a Hat) as (ip & y & Hy & -> & ->).
    by rewrite wrap_small in Hy.
Qed.

Lemma insn_goto_ibchain op ty eip tb consts :
  op_split op = Some (op_goto_ibchain, ty) → is_reg eip → ∃ es, insn_ok (HOp op [eip; tb] consts) es.
Proof.
  intros Hs Hr. destruct (goto_ibchain_leads undefined eip tb Hr) as (g & k & Hw & Hg).
  apply (insn_note _ g (note_ibchain k)); [| | |apply op_size|done|by split_op Hs|].
  - intros s _. split_op Hs. apply Hw.
  - intros a s. by destruct s.
  - intros a s Hd. apply (direct_same 2 s); [by destruct s|done].
  - intros cm dest a x Hat _. cbn [insn_meaning]. split_op Hs. destruct (Hg x cm a Hat) as (ip & y & Hy & -> & ?). by exists y.
Qed.

Lemma insn_branch op o ty f k :
  op_split op = Some (o, ty) → o = op_call ∨ o = op_jmp → (k = false → is_reg f) → ∃ es, insn_ok (HOp op [f] [k]) es.
Proof.
  intros Hs Ho Hr. set (call := match o with op_call => true | _ => false end).
  assert (∃ g, writes_at (λ s, out_insn s (HOp op [f] [k])) g ∧
    ∀ x, leads undefined g x (λ n ip y, ip = u64 (arg_val x f k) ∧ gone call x n y)) as (g & Hw & Hg).
  { destruct k.
    - destruct (branch_leads undefined call f) as (g & Hw & Hg). exists g. split; [|done]. intros s. rewrite <- Hw. split_op Hs.
      destruct Ho as [->| ->]; done.
    - destruct (branch_reg_leads undefined call f (Hr eq_refl)) as (g & Hw & Hg). exists g. split; [|done]. intros s. rewrite <- Hw.
      split_op Hs. destruct Ho as [->| ->]; done. }
  apply (insn_code _ g); [done|apply op_size|done|split_op Hs; by destruct Ho as [->| ->]|].
  intros cm dest a x Hat _. cbn [insn_meaning]. split_op Hs. destruct (Hg x cm a Hat) as (ip & y & Hy & -> & ?).
  destruct Ho as [->| ->]; by exists y.
Qed.

(** *** All instructions *)

Lemma insn_label l : 0 ≤ l < nl → ∃ es, insn_ok (HLabel l) es.
Proof.
  intros Hl. exists [ELabel l; ECode 0 (λ _, []) (λ _, note_patch)].
  assert (∀ s, note_patch (emit s []) = note_patch s) as Hn.
  { intros s. f_equal. destruct s. unfold emit. cbn. by rewrite Z.add_0_r. }
  split; try done.
  - intros s _. cbn [do_events do_event out_insn]. unfold out_set_label.
    destruct (tcg_out_label s l (code_ptr s)) as [s1|]; cbn [rbind]; [|done]. by rewrite Hn.
  - intros s s' Hd E. cbn [do_events do_event] in E. apply rbind_ok in E as (s1 & E & [= <-]). apply notes_label in E. rewrite Hn.
    apply (direct_same 2 s); [|done]. unfold note_patch. by destruct (_ =? 1).
  - constructor; [done|]. apply Forall_singleton. split; [done|]. intros _ s. unfold note_patch. by destruct (_ =? 1).
  - intros cm dest a n x (Hd & _ & En). cbn in En. cbn. lia.
Qed.

Lemma insn_op op args consts :
  op_fits op args consts = true → Forall (λ l, 0 ≤ l < nl) (insn_targets (HOp op args consts)) → ∃ es, insn_ok (HOp op args consts) es.
Proof.
  unfold op_fits. destruct (op_split op) as [[o ty]|] eqn:Hs; [|done]. intros Hf Hl.
  unfold insn_targets in Hl. rewrite Hs in Hl. destruct (reg_op o) eqn:Ho.
  { apply andb_true_iff in Hf as [Hf Hc]. apply (insn_reg op ty args consts o); [done..|]. by intros ->. }
  destruct (mem_access o ty) as [[[guest st] opc]|] eqn:Hm.
  { apply andb_true_iff in Hf as [Hf Hc]. apply (insn_mem op ty args consts o guest st opc); [done..|].
    intros -> c Ec. destruct args as [|a0 [|a1 [|a2 [|]]]]; try done. cbn in Ec. injection Ec as ->. by apply Z.eqb_eq. }
  destruct o; try done; destruct args as [|a0 [|a1 [|a2 [|a3 [|]]]]]; try done.
  - by eapply insn_exit.
  - apply andb_true_iff in Hf as [?%Z.leb_le ?%Z.ltb_lt]. by eapply insn_goto_tb.
  - apply reg_fits_ok in Hf. by eapply insn_goto_ibchain.
  - destruct consts as [|k [|]]; try done. eapply insn_branch; [done|by left|]. intros ->. by apply reg_fits_ok.
  - destruct consts as [|k [|]]; try done. eapply insn_branch; [done|by right|]. intros ->. by apply reg_fits_ok.
  - apply Forall_cons_1 in Hl as [Hl _]. by eapply insn_patch.
  - apply Forall_cons_1 in Hl as [Hl _]. by eapply insn_br.
  - apply andb_true_iff in Hf as [Hf Hc]. apply Forall_cons_1 in Hl as [Hl _]. by eapply insn_brcond.
Qed.

Lemma insn_events i :
  insn_fits i = true → Forall (λ l, 0 ≤ l < nl) (insn_targets i ++ insn_labels i) → ∃ es, insn_ok i es.
Proof.
  intros Hf [Ht Hl]%Forall_app. destruct i as [ty d r|ty d v|ty d b off|ty d b off|r v|op args consts|l]; cbn [insn_fits] in Hf.
  - apply andb_true_iff in Hf as [?%reg_fits_ok ?%reg_fits_ok]. by apply insn_mov.
  - apply insn_movi. by apply reg_fits_ok.
  - rewrite !andb_true_iff in Hf. destruct Hf as [[?%reg_fits_ok ?%reg_fits_ok] ?%Z.eqb_eq]. by apply insn_ld.
  - rewrite !andb_true_iff in Hf. destruct Hf as [[?%reg_fits_ok ?%reg_fits_ok] ?%Z.eqb_eq]. by apply insn_st.
  - apply andb_true_iff in Hf as [?%reg_fits_ok ?%Z.eqb_eq]. by apply insn_addi.
  - by apply insn_op.
  - apply Forall_cons_1 in Hl as [Hl _]. by apply insn_label.
Qed.

(** ** Blocks *)

Lemma code_events c :
  Forall (λ i, insn_fits i = true) c → Forall (λ i, Forall (λ l, 0 ≤ l < nl) (insn_targets i ++ insn_labels i)) c →
  ∃ ess, Forall2 insn_ok c ess.
Proof.
  induction c as [|i c IH]; intros Hf Hl; [by exists []; constructor|].
  apply Forall_cons_1 in Hf as [Hi Hf]. apply Forall_cons_1 in Hl as [Hli Hl].
  destruct (IH Hf Hl) as [ess He]. destruct (insn_events i Hi Hli) as [es Hes]. exists (es :: ess). by constructor.
Qed.

Lemma bytes_run c ess s : Forall2 insn_ok c ess → direct_jumps 2 s → out_code s c = do_events s (concat ess).
Proof.
  intros He. revert s. induction He as [|i es c ess Hi _ IH]; intros s Hd; [done|]. cbn [out_code concat].
  rewrite (e_run _ _ Hi s Hd), do_events_app. destruct (do_events s es) as [s1|e] eqn:E; [|done]. cbn [rbind].
  apply IH. by eapply e_keep.
Qed.

Lemma code_keep c ess s s' : Forall2 insn_ok c ess → direct_jumps 2 s → do_events s (concat ess) = Ok s' → direct_jumps 2 s'.
Proof.
  intros He. revert s. induction He as [|i es c ess Hi _ IH]; intros s Hd E; [cbn in E; by simplify_eq|].
  cbn [concat] in E. rewrite do_events_app in E. apply rbind_ok in E as (s1 & E1 & E). eapply IH; [|done]. by eapply e_keep.
Qed.

Lemma code_size c ess : Forall2 insn_ok c ess → size (concat ess) ≤ 80 * length c.
Proof.
  induction 1 as [|i es c ess Hi _ IH]; [done|]. cbn [concat length]. rewrite size_app. pose proof (e_size _ _ Hi). lia.
Qed.

Lemma code_ok c ess : Forall2 insn_ok c ess → Forall (event_ok nl) (concat ess).
Proof. induction 1 as [|i es c ess Hi _ IH]; [constructor|]. apply Forall_app. split; [apply (e_ok _ _ Hi)|done]. Qed.

Lemma code_placed c ess : Forall2 insn_ok c ess → placed (concat ess) = c ≫= insn_labels.
Proof.
  induction 1 as [|i es c ess Hi _ IH]; [done|]. cbn [concat mbind list_bind]. unfold placed in *. rewrite omap_app, IH.
  f_equal. apply (e_placed _ _ Hi).
Qed.

Lemma code_targets c ess : Forall2 insn_ok c ess → targets (concat ess) = c ≫= insn_targets.
Proof.
  induction 1 as [|i es c ess Hi _ IH]; [done|]. cbn [concat mbind list_bind]. unfold targets in *. rewrite omap_app, IH.
  f_equal. apply (e_targets _ _ Hi).
Qed.

(** Host code whose instructions fit, with [nl] labels, each placed once if a
    branch needs it. *)
Record code_fits (c : list hinsn) : Prop := mkFits {
  f_insn : Forall (λ i, insn_fits i = true) c;
  f_range : Forall (λ i, Forall (λ l, 0 ≤ l < nl) (insn_targets i ++ insn_labels i)) c;
  f_once : NoDup (c ≫= insn_labels);
  f_placed l : l ∈ c ≫= insn_targets → l ∈ c ≫= insn_labels
}.

(** The output at the start of a block with room for [n] instructions. *)
Record fresh_out (n : nat) (s : TCGOut) : Prop := mkFresh {
  f_labels : labels s = replicate nl (LRelocs []);
  f_direct : direct_jumps 2 s;
  f_room : 0 ≤ code_ptr s ∧ code_ptr s + 80 * n < 2 ^ 62 ∧ 80 * n < 2 ^ 31 - 32
}.

Lemma events_hist c ess s0 n :
  Forall2 insn_ok c ess → NoDup (c ≫= insn_labels) → fresh_out n s0 → (length c ≤ n)%nat →
  ∃ s J, hist (code_ptr s0) s0 (concat ess) s J ∧ inv (code_ptr s0) (code_ptr s0 + 80 * n) s J.
Proof.
  intros He Hn [Hl Hd (Hr1 & Hr2 & Hr3)] Hc. pose proof (code_size _ _ He).
  apply hist_run; [done|lia|done|done|..].
  - rewrite Hl, length_replicate. by eapply code_ok.
  - by rewrite (code_placed _ _ He).
  - lia.
  - rewrite Hl. by apply Forall_replicate.
Qed.

Lemma out_code_ok c s0 :
  code_fits c → fresh_out (length c) s0 →
  ∃ s, out_code s0 c = Ok s ∧
    ∀ c1 i c2, c = c1 ++ i :: c2 → ∃ s1 s2, out_code s0 c1 = Ok s1 ∧ out_insn s1 i = Ok s2 ∧
      ∀ x, insn_meaning undefined (cmem s) (label_addr s) i (code_ptr s1) (code_ptr s2) x.
Proof.
  intros [Hf Hl Hn Hp] Hs. destruct (code_events c Hf Hl) as [ess He]. pose proof (f_direct _ _ Hs) as Hd.
  destruct (events_hist c ess s0 (length c) He Hn Hs (Nat.le_refl _)) as (s & J & Hh & Hi).
  pose proof (h_run _ _ _ _ _ Hh) as Hr. exists s. split; [by rewrite (bytes_run c ess)|]. intros c1 i c2 Ec.
  pose proof (code_ok c ess He) as Hok.
  assert (∀ l, l ∈ targets (concat ess) → l ∈ placed (concat ess)) as Htg by (by rewrite (code_targets c), (code_placed c)).
  rewrite Ec in He, Hn. apply Forall2_app_inv_l in He as (e1 & e' & He1 & He' & Ee).
  apply Forall2_cons_inv_l in He' as (ei & e2 & Hei & He2 & ->). rewrite Ee, concat_app in Hh, Hr, Hok, Htg. cbn [concat] in Hh, Hr, Hok, Htg.
  rewrite do_events_app in Hr. apply rbind_ok in Hr as (s1 & E1 & Hr). rewrite do_events_app in Hr. apply rbind_ok in Hr as (s2 & E2 & _).
  exists s1, s2. assert (direct_jumps 2 s1) as Hd1 by exact (code_keep c1 e1 s0 s1 He1 Hd E1).
  split_and!; [by rewrite (bytes_run c1 e1 s0 He1 Hd)|by rewrite (e_run _ _ Hei s1 Hd1)|]. intros x. apply (e_mean _ _ Hei).
  - refine (hist_holds _ _ (proj1 (f_room _ _ Hs)) (proj1 (proj2 (f_room _ _ Hs))) s0 _ s J (concat e1) ei (concat e2) s1 s2 Hh Hi _ _ eq_refl E1 E2).
    + rewrite (f_labels _ _ Hs), length_replicate. exact Hok.
    + exact Htg.
  - destruct (events_hist (c1 ++ [i]) (e1 ++ [ei]) s0 (length c)) as (s2' & J' & Hh' & Hi'); [|..|done| |].
    + by apply Forall2_app; [|constructor].
    + replace (c1 ++ i :: c2) with ((c1 ++ [i]) ++ c2) in Hn by (by rewrite <- app_assoc). rewrite bind_app in Hn.
      by apply stdpp.list_relations.list.NoDup_app in Hn as [Hn _].
    + rewrite Ec, !length_app. cbn. lia.
    + pose proof (h_run _ _ _ _ _ Hh') as Hr'. rewrite concat_app, do_events_app, E1 in Hr'. cbn [rbind concat] in Hr'.
      rewrite app_nil_r, E2 in Hr'. injection Hr' as ->. pose proof (inv_ptr _ _ _ _ Hi'). pose proof (f_room _ _ Hs). lia.
Qed.

End insn.

End block.
