(* ===== verification/X86Chain.v ===== *)
(** * The fragments of chains of indirect branches

    [tcg_out_ibchain] writes a comparison of the guest address with the one of
    a block, a jump to the code of the block and a jump on to the next
    fragment. *)

From stdpp Require Import base list functions.
From S2P Require Import Prelude TcgData TcgLive TcgAlloc TcgSem X86Isa X86Out X86Op X86Enc X86Sem TcgOps X86Val X86Arith X86OpOk X86Mem X86Labels X86Size X86Exit.
Local Open Scope Z_scope.
Local Coercion Z.of_nat : nat >-> Z.

Section chain.
  Context `{TcgHost} (undefined : insn → mach → flags).

(** The guest address can be compared with: 64-bit comparisons have signed
    32-bit constants. *)
Definition pc_fits (pc : Z) : bool := negb (TARGET_LONG_BITS =? 64) || (sext 64 pc =? sext 32 pc).

Lemma cmp_aborts s pc :
  pc_fits pc = false → tcg_out_cmp s TCG_REG_EDI pc true (if TARGET_LONG_BITS =? 64 then P_REXW else 0) = Er EAbort.
Proof.
  unfold pc_fits. rewrite orb_false_iff, negb_false_iff, Z.eqb_neq. intros [-> Hne]. unfold tcg_out_cmp.
  destruct (Z.eqb_spec (u64 pc) 0) as [E|_].
  { destruct Hne. rewrite <- (sext_wrap 64), <- (sext_sext 32 64 pc), <- (sext_wrap 64 pc), E by lia. done. }
  unfold tgen_arithi. change ((ARITH_CMP + P_REXW) .& 7) with 7. change ((ARITH_CMP + P_REXW) .& -8) with P_REXW.
  cbn [Z.eqb ARITH_ADD ARITH_SUB ARITH_AND Pos.eqb andb orb negb].
  destruct (Z.eqb_spec (sext 64 pc) (sext 8 (sext 64 pc))) as [E|_].
  { destruct Hne. rewrite <- (sext_sext 32 64 pc) by lia. apply eq_sym, sext8_32. done. }
  rewrite sext_sext by lia. destruct (Z.eqb_spec (sext 64 pc) (sext 32 pc)); [done|done].
Qed.

(** ** Bytes that stay *)

Lemma code_at_put m a l : code_at (put m a l) a l.
Proof. intros i b Hi. by apply put_inside. Qed.

Lemma code_at_other m a l b k : code_at m b k → b + length k ≤ a ∨ a + length l ≤ b → code_at (put m a l) b k.
Proof.
  intros Hc Hb i v Hi. pose proof (lookup_lt_Some _ _ _ Hi). rewrite put_outside by lia. by apply Hc.
Qed.

(** ** The parts of a fragment *)

(** The jump to the code of a block. *)
Lemma hit_leads tb :
  0 ≤ offsetof_opt_ptr < 2 ^ 31 →
  ∃ l, writes (λ s, s <- tcg_out_movi s TCG_TYPE_I64 TCG_REG_EAX (sext 64 tb) ;;
                    s <- tcg_out_ld s TCG_TYPE_I64 TCG_REG_EAX TCG_REG_EAX offsetof_opt_ptr ;;
                    tcg_out_modrm s OPC_GRP5 EXT5_JMPN_Ev TCG_REG_EAX) l ∧
    ∀ x, leads undefined (λ _, l) x (λ _ ip y, ip = load 8 (tb + offsetof_opt_ptr) (xm x) ∧ agree [TCG_REG_EAX] x y).
Proof.
  intros Ho. destruct (movi_all undefined TCG_TYPE_I64 TCG_REG_EAX (sext 64 tb)) as (l1 & W1 & H1); [done|by rewrite sext_sext by lia|].
  destruct (does_all undefined (λ s, tcg_out_ld s TCG_TYPE_I64 TCG_REG_EAX TCG_REG_EAX offsetof_opt_ptr)
    (λ x y, effect TCG_TYPE_I64 TCG_REG_EAX (load 8 (xr x TCG_REG_EAX + sext 32 offsetof_opt_ptr) (xm x)) x y)) as (l2 & W2 & H2).
  { intros x. by apply computes_movq. }
  destruct (codes_jmp_reg TCG_REG_EAX) as (l3 & W3 & E3); [done|]. exists (l1 ++ l2 ++ l3). split.
  { apply (writes_bind _ _ _ _ W1), (writes_bind _ _ _ _ W2), W3. }
  intros x. destruct (H1 x) as (y & S1 & F1). destruct (H2 y) as (z & S2 & F2).
  apply (leads_app undefined l1 (λ _, l2 ++ l3) x y); [done|]. apply (leads_app undefined l2 (λ _, l3) y z); [done|].
  apply (leads_one undefined _ _ (λ _, _) _ (λ _, E3)). intros a. eexists. split; [reflexivity|]. cbn [fst snd]. split.
  - change (u64 (xr z TCG_REG_EAX) = load 8 (tb + offsetof_opt_ptr) (xm x)). rewrite (eff_val _ _ _ _ _ F2 : u64 _ = u64 _), (eff_mem _ _ _ _ _ F1).
    rewrite wrap_small by apply (load_range 8). apply load_eqv. rewrite (sext_small 32) by (cbn; lia).
    rewrite <- wrap_add_l, (eff_val _ _ _ _ _ F1 : u64 _ = u64 _), wrap64_sext. apply wrap_add_l.
  - apply effect_agree in F1, F2. destruct F1 as [R1 M1], F2 as [R2 M2]. split; [|congruence]. intros r Hr. by rewrite R2, R1.
Qed.

Section run.
  Context (s : TCGOut) (pc tb : Z) (l1 lh : list Z) (g : Z → list Z).
  Context (W1 : writes (λ s, tcg_out_cmp s TCG_REG_EDI pc true (type_rexw TCG_TYPE_TL)) l1).
  Context (W2 : writes (λ s, s <- tcg_out_movi s TCG_TYPE_I64 TCG_REG_EAX (sext 64 tb) ;;
                             s <- tcg_out_ld s TCG_TYPE_I64 TCG_REG_EAX TCG_REG_EAX offsetof_opt_ptr ;;
                             tcg_out_modrm s OPC_GRP5 EXT5_JMPN_Ev TCG_REG_EAX) lh).
  Context (W3 : writes_at (λ s, tcg_out_branch s false ibchain_ret_addr) g).

(** The byte of the short jump, the end of the code for a hit, and the last
    jump. *)
Definition skip_at : Z := code_ptr s + length l1 + 1.
Definition miss_at : Z := skip_at + 1 + length lh.
Definition jump_at : Z := miss_at + length (odd_nop miss_at).

Lemma cmp_ibchain_run :
  ∃ s', tcg_out_cmp_ibchain s pc tb = Ok s' ∧ code_ptr s' = jump_at + length (g jump_at) ∧
    ibchain_patch_offset s' = u16 (jump_at - code_buf s) ∧
    cmem s' = put (put (put (put (put (put (cmem s) (code_ptr s) l1) (code_ptr s + length l1) [0x75]) (skip_at + 1) lh)
      skip_at [u8 (length lh)]) miss_at (odd_nop miss_at)) jump_at (g jump_at).
Proof.
  unfold tcg_out_cmp_ibchain. cbv zeta.
  replace (if TARGET_LONG_BITS =? 64 then P_REXW else 0) with (type_rexw TCG_TYPE_TL) by (unfold TCG_TYPE_TL; by destruct (_ =? 64)).
  rewrite W1. cbn [rbind]. set (s1 := skip_bytes _ 1).
  pose proof (W2 s1) as E. apply rbind_ok in E as (sa & Ea & E). apply rbind_ok in E as (sb & Eb & Ec).
  rewrite Ea. cbn [rbind]. rewrite Eb. cbn [rbind]. rewrite Ec. cbn [rbind]. rewrite align2_writes. unfold tcg_out_jmp. rewrite W3.
  subst s1. clear Ea Eb Ec. eexists. split; [reflexivity|].
  unfold jump_at, miss_at, skip_at. cbn -[odd_nop put u8 u16 wrap]. change (Z.of_nat 1) with 1.
  replace (code_ptr s + length l1 + 1 + 1 + length lh - (code_ptr s + length l1 + 1) - 1) with (Z.of_nat (length lh)) by lia. done.
Qed.

(** All the bytes are in the memory at the end. *)
Lemma cmp_ibchain_bytes cm :
  cm = put (put (put (put (put (put (cmem s) (code_ptr s) l1) (code_ptr s + length l1) [0x75]) (skip_at + 1) lh)
      skip_at [u8 (length lh)]) miss_at (odd_nop miss_at)) jump_at (g jump_at) →
  code_at cm (code_ptr s) l1 ∧ code_at cm (code_ptr s + length l1) [0x75; u8 (length lh)] ∧ code_at cm (skip_at + 1) lh ∧
  code_at cm miss_at (odd_nop miss_at) ∧ code_at cm jump_at (g jump_at).
Proof.
  intros ->. change [0x75; u8 (length lh)] with ([0x75] ++ [u8 (length lh)]). rewrite code_at_app.
  change (code_ptr s + length l1 + length [117]) with skip_at. unfold jump_at, miss_at, skip_at.
  split_and!; repeat first [apply code_at_put | apply code_at_other; [|cbn [length]; lia]].
Qed.

(** The comparison and the short jump. *)
Lemma skip_runs cm x y :
  code_at cm (code_ptr s + length l1) [0x75; u8 (length lh)] → (length lh < 128)%nat → 0 ≤ code_ptr s → miss_at < 2 ^ 64 →
  straight undefined l1 x y → code_at cm (code_ptr s) l1 →
  reaches undefined cm (code_ptr s, x) (if cc_test JCC_JNE (xf y) then miss_at else skip_at + 1, y).
Proof.
  intros Hc Hn Hp Hm Hs Hc1. eapply reaches_trans; [by apply Hs|].
  assert ([0x75; u8 (length lh)] = jump_bytes false JCC_JNE (length lh)) as Eb by (cbn; unfold wrap; done). rewrite Eb in Hc.
  eapply encodes_reaches; [by apply (jump_encodes false JCC_JNE (length lh))|exact Hc|]. cbn [jump_insn JCC_JNE Z.eqb exec].
  rewrite jump_bytes_length, sext_small by (cbn; lia). unfold miss_at, skip_at in *. do 2 f_equal.
  destruct (cc_test _ _); [rewrite wrap_small; [|cbn in *; lia]|]; cbn; lia.
Qed.

End run.

(** The three parts of a fragment and what they do. *)
Record parts (pc tb : Z) (l1 lh : list Z) (g : Z → list Z) : Prop := mkParts {
  p_cmp : writes (λ s, tcg_out_cmp s TCG_REG_EDI pc true (type_rexw TCG_TYPE_TL)) l1;
  p_cmp_does x : ∃ y, straight undefined l1 x y ∧ xr y = xr x ∧ xm y = xm x ∧
    ∀ c, cc_test (tcg_cond_to_jcc c) (xf y) = cond_holds c (bits TCG_TYPE_TL) (xr x TCG_REG_EDI) pc;
  p_hit : writes (λ s, s <- tcg_out_movi s TCG_TYPE_I64 TCG_REG_EAX (sext 64 tb) ;;
                       s <- tcg_out_ld s TCG_TYPE_I64 TCG_REG_EAX TCG_REG_EAX offsetof_opt_ptr ;;
                       tcg_out_modrm s OPC_GRP5 EXT5_JMPN_Ev TCG_REG_EAX) lh;
  p_hit_does x : leads undefined (λ _, lh) x (λ _ ip y, ip = load 8 (tb + offsetof_opt_ptr) (xm x) ∧ agree [TCG_REG_EAX] x y);
  p_next : writes_at (λ s, tcg_out_branch s false ibchain_ret_addr) g;
  p_next_does x : leads undefined g x (λ n ip y, ip = u64 ibchain_ret_addr ∧ gone false x n y)
}.

Lemma fragment_parts pc tb : pc_fits pc = true → 0 ≤ offsetof_opt_ptr < 2 ^ 31 → ∃ l1 lh g, parts pc tb l1 lh g.
Proof.
  intros Hf Ho.
  destruct (does_all undefined (λ s, tcg_out_cmp s TCG_REG_EDI pc true (type_rexw TCG_TYPE_TL)) (λ x y, xr y = xr x ∧ xm y = xm x ∧
    ∀ c, cc_test (tcg_cond_to_jcc c) (xf y) = cond_holds c (bits TCG_TYPE_TL) (xr x TCG_REG_EDI) pc)) as (l1 & W1 & H1).
  { intros x. apply (does_cmp undefined TCG_TYPE_TL TCG_REG_EDI pc true x); [done|done|]. intros _. unfold const32, TCG_TYPE_TL, pc_fits in *.
    destruct (TARGET_LONG_BITS =? 64); [right; by apply Z.eqb_eq|by left]. }
  destruct (hit_leads tb Ho) as (lh & W2 & H2). destruct (branch_leads undefined false ibchain_ret_addr) as (g & W3 & H3).
  by exists l1, lh, g.
Qed.

Lemma hit_size pc tb l1 lh g : parts pc tb l1 lh g → (length lh < 128)%nat.
Proof.
  intros Hp. pose proof (p_hit _ _ _ _ _ Hp no_out) as E. apply rbind_ok in E as (s1 & E1%size_movi & E). apply rbind_ok in E as (s2 & E2%size_sib & E).
  apply size_modrm in E. rewrite no_out_ptr in E. cbn in E1. lia.
Qed.

(** The execution of a fragment that was written from [s] on. *)
Lemma fragment_runs s pc tb l1 lh g cm :
  parts pc tb l1 lh g → 0 ≤ code_ptr s → miss_at s l1 lh < 2 ^ 64 →
  code_at cm (code_ptr s) l1 ∧ code_at cm (code_ptr s + length l1) [0x75; u8 (length lh)] ∧ code_at cm (skip_at s l1 + 1) lh ∧
  code_at cm (miss_at s l1 lh) (odd_nop (miss_at s l1 lh)) ∧ code_at cm (jump_at s l1 lh) (g (jump_at s l1 lh)) →
  ∀ x, let hit := wrap (bits TCG_TYPE_TL) (xr x TCG_REG_EDI) =? wrap (bits TCG_TYPE_TL) pc in
    ∃ y, reaches undefined cm (code_ptr s, x) (if hit then load 8 (tb + offsetof_opt_ptr) (xm x) else jump_at s l1 lh, y) ∧
      agree [TCG_REG_EAX] x y ∧
      (hit = false → ∃ z, reaches undefined cm (jump_at s l1 lh, y) (u64 ibchain_ret_addr, z) ∧ agree [TCG_REG_R10] y z).
Proof.
  intros P Hp Hm (C1 & C2 & C3 & C4 & C5) x hit. destruct (p_cmp_does _ _ _ _ _ P x) as (y & Hs & Hr & Hmem & Hcc).
  pose proof (skip_runs s l1 lh cm x y C2 (hit_size _ _ _ _ _ P) Hp Hm Hs C1) as Hskip.
  change JCC_JNE with (tcg_cond_to_jcc TCG_COND_NE) in Hskip. rewrite Hcc in Hskip. cbn [cond_holds] in Hskip. fold hit in Hskip.
  destruct hit; cbn [negb] in Hskip.
  - destruct (p_hit_does _ _ _ _ _ P y cm _ C3) as (ip & z & Hz & -> & Hag). exists z. rewrite Hmem in *. split_and!; [by eapply reaches_trans| |done].
    destruct Hag as [R M]. split; [|congruence]. intros r ?. by rewrite R, Hr.
  - exists y. split_and!.
    + eapply reaches_trans; [exact Hskip|]. unfold jump_at in *. unfold odd_nop in *.
      destruct (miss_at s l1 lh `mod` 2 =? 1); [by apply (straight_nops undefined 1)|by apply straight_nil].
    + split; [intros r _; by rewrite Hr|done].
    + intros _. destruct (p_next_does _ _ _ _ _ P y cm _ C5) as (ip & z & Hz & -> & z' & Hag & ->). by exists z'.
Qed.

Lemma fragment_ok buf m pc tb :
  pc_fits pc = true → 0 ≤ offsetof_opt_ptr < 2 ^ 31 → 0 ≤ buf < 2 ^ 63 →
  ∃ s jump, tcg_out_ibchain buf m pc tb = Ok (s, jump - buf, code_ptr s - buf) ∧ jump `mod` 2 = 0 ∧ buf < jump ≤ code_ptr s ∧ code_ptr s ≤ buf + 62 ∧
    ∀ x, let hit := wrap (bits TCG_TYPE_TL) (xr x TCG_REG_EDI) =? wrap (bits TCG_TYPE_TL) pc in
      ∃ y, reaches undefined (cmem s) (buf, x) (if hit then load 8 (tb + offsetof_opt_ptr) (xm x) else jump, y) ∧
        agree [TCG_REG_EAX] x y ∧
        (hit = false → ∃ z, reaches undefined (cmem s) (jump, y) (u64 ibchain_ret_addr, z) ∧ agree [TCG_REG_R10] y z).
Proof.
  intros Hf Ho Hb. destruct (fragment_parts pc tb Hf Ho) as (l1 & lh & g & P). set (s0 := mkOut buf buf m [] None [] 0 0 0 0 0).
  destruct (cmp_ibchain_run s0 pc tb l1 lh g (p_cmp _ _ _ _ _ P) (p_hit _ _ _ _ _ P) (p_next _ _ _ _ _ P)) as (s & E & Ep & Ej & Em).
  apply (cmp_ibchain_bytes s0 l1 lh g) in Em. pose proof (size_cmp_ibchain _ _ _ _ E) as Hsz. change (code_ptr s0) with buf in Hsz.
  assert (buf < jump_at s0 l1 lh) as Hj by (unfold jump_at, miss_at, skip_at; cbn; lia).
  exists s, (jump_at s0 l1 lh). split_and!; [| |lia..|].
  - unfold tcg_out_ibchain. fold s0.
    assert (tcg_out_op s0 INDEX_op_cmp_ibchain [pc; tb] [] = tcg_out_cmp_ibchain s0 pc tb) as -> by reflexivity.
    rewrite E. cbn [rbind]. rewrite Ej. change (code_buf s0) with buf. rewrite wrap_small, sext_small by (cbn in *; lia). done.
  - unfold jump_at. generalize (miss_at s0 l1 lh). intros q. unfold odd_nop. destruct (Z.eqb_spec (q `mod` 2) 1); cbn [length]; zdm.
  - assert (miss_at s0 l1 lh < 2 ^ 64) as Hm by (unfold jump_at in *; cbn in *; lia).
    exact (fragment_runs s0 pc tb l1 lh g (cmem s) P (proj1 Hb) Hm Em).
Qed.

(** A guest address that does not fit cannot be chained. *)
Lemma fragment_aborts buf m pc tb : pc_fits pc = false → tcg_out_ibchain buf m pc tb = Er EAbort.
Proof.
  intros Hf. unfold tcg_out_ibchain. set (s0 := mkOut _ _ _ _ _ _ _ _ _ _ _).
  assert (tcg_out_op s0 INDEX_op_cmp_ibchain [pc; tb] [] = tcg_out_cmp_ibchain s0 pc tb) as -> by reflexivity.
  unfold tcg_out_cmp_ibchain. cbv zeta. by rewrite cmp_aborts.
Qed.

End chain.
