(* ===== verification/X86Entry.v ===== *)
(** * Entry to and exit from translated code

    [tcg_target_qemu_prologue] of tcg/i386/tcg-target.c writes the function
    that the execution loop calls: it saves the registers of its caller, jumps
    to a block and, when the block exits, restores the registers and returns
    the value in %rax. *)

From stdpp Require Import base list functions.
From S2P Require Import Prelude TcgData TcgLive TcgAlloc TcgSem X86Isa X86Out X86Op X86Enc X86Sem X86Val X86Arith X86Mem X86MemOk X86Exit.
Local Open Scope Z_scope.
Local Coercion Z.of_nat : nat >-> Z.

(** The size of the stack of a block, the address of the helper that looks up
    indirect branches, and the offsets of fields of the CPU state. *)
Class TcgEntry := {
  STACK_SIZE : Z;
  helper_lookup_ibtc : Z;
  offsetof_cached_eip : Z;
  offsetof_cached_tb : Z;
  offsetof_update_ibtc : Z
}.

Definition TCG_AREG0 : Z := TCG_REG_R14.
Definition tcg_target_callee_save_regs : list Z := [TCG_REG_EBP; TCG_REG_EBX; TCG_REG_R12; TCG_REG_R13; TCG_REG_R15].

(** The addresses that [tcg_target_qemu_prologue] notes. *)
Record entries := mkEntries { ibtc_helper_entry : Z; e_ibchain_ret_addr : Z; ibtc_ret_addr : Z; e_tb_ret_addr : Z }.

Section entry.
  Context `{TcgHost} `{TcgEntry}.

Fixpoint push_regs (s : TCGOut) (rs : list Z) : result TCGOut :=
  match rs with [] => Ok s | r :: rs => s <- tcg_out_push s r ;; push_regs s rs end.
Fixpoint pop_regs (s : TCGOut) (rs : list Z) : result TCGOut :=
  match rs with [] => Ok s | r :: rs => s <- tcg_out_pop s r ;; pop_regs s rs end.

Definition stack_addend : Z :=
  let push_size := (1 + length tcg_target_callee_save_regs) * 8 in
  let frame_size := push_size + STACK_SIZE in
  let frame_size := (frame_size + TCG_TARGET_STACK_ALIGN - 1) .& .~ (TCG_TARGET_STACK_ALIGN - 1) in
  frame_size - push_size.

Definition tcg_out_prologue (s : TCGOut) : result TCGOut := Ok s.

Definition tcg_out_epilogue (s : TCGOut) : result (TCGOut * Z * Z * Z) :=
  (* IBTC helper call stub *)
  let helper := code_ptr s in
  s <- tcg_out_calli s helper_lookup_ibtc ;;
  s <- tcg_out_modrm s OPC_GRP5 EXT5_JMPN_Ev TCG_REG_EAX ;;
  (* IBTC chain exit entry *)
  let chain := code_ptr s in
  s <- tcg_out_st s TCG_TYPE_TL TCG_REG_EDI TCG_AREG0 offsetof_cached_eip ;;
  s <- tcg_out_st s TCG_TYPE_I64 TCG_REG_ESI TCG_AREG0 offsetof_cached_tb ;;
  s <- tcg_out_movi s TCG_TYPE_I32 TCG_REG_EAX 2 ;;
  s <- tcg_out_st s TCG_TYPE_I32 TCG_REG_EAX TCG_AREG0 offsetof_update_ibtc ;;
  (* IBTC exit entry *)
  let ibtc := code_ptr s in
  s <- tcg_out_movi s TCG_TYPE_I64 TCG_REG_EAX 0 ;;
  Ok (s, helper, chain, ibtc).

Definition tcg_target_qemu_prologue (s : TCGOut) : result (TCGOut * entries) :=
  (* TB prologue *)
  s <- push_regs s tcg_target_callee_save_regs ;;
  s <- tcg_out_addi s TCG_REG_ESP (- stack_addend) ;;
  s <- tcg_out_prologue s ;;
  (* jmp *tb. *)
  s <- tcg_out_modrm s OPC_GRP5 EXT5_JMPN_Ev TCG_REG_EDI ;;
  '(s, helper, chain, ibtc) <- tcg_out_epilogue s ;;
  (* TB epilogue *)
  let ret := code_ptr s in
  s <- tcg_out_addi s TCG_REG_ESP stack_addend ;;
  s <- pop_regs s (rev tcg_target_callee_save_regs) ;;
  s <- tcg_out_opc s OPC_RET 0 0 0 ;;
  Ok (s, mkEntries helper chain ibtc ret).

End entry.

(** ** Memory *)

Lemma store_list_other a l m p : (∀ i : nat, (i < length l)%nat → p ≠ u64 (a + i)) → store_list a l m p = m p.
Proof.
  revert a m. induction l as [|b l IH]; intros a m Hp; [done|]. cbn [store_list]. rewrite IH.
  - apply fn_lookup_insert_ne. intros E. apply (Hp 0%nat); [cbn; lia|]. by rewrite Z.add_0_r.
  - intros i Hi. replace (a + 1 + i) with (a + S i) by lia. apply Hp. cbn. lia.
Qed.

Lemma store_list_at a l m (i : nat) b : length l ≤ 2 ^ 32 → l !! i = Some b → store_list a l m (u64 (a + i)) = b.
Proof.
  revert a m i. induction l as [|c l IH]; intros a m i Hl Hi; [done|]. cbn [store_list length] in *. destruct i as [|i].
  - injection Hi as ->. rewrite store_list_other; [rewrite Z.add_0_r; apply fn_lookup_insert|].
    intros j Hj E. rewrite Z.add_0_r in E. unfold wrap in E. zdm.
  - replace (a + S i) with (a + 1 + i) by lia. apply IH; [lia|done].
Qed.

Lemma load_same a v m : load 8 a (store 8 a v m) = u64 v.
Proof.
  unfold load, store. transitivity (le_val (le_bytes 8 v)); [|apply (le_val_bytes 8)]. f_equal. apply list_eq. intros i.
  rewrite list_lookup_fmap. destruct (decide (i < 8)%nat) as [Hi|Hi].
  - rewrite lookup_seq_lt by done. destruct (lookup_lt_is_Some_2 (le_bytes 8 v) i) as [b Hb]; [by rewrite le_bytes_length|].
    rewrite Hb. cbn [fmap option_fmap option_map]. f_equal. apply store_list_at; [rewrite le_bytes_length; lia|done].
  - rewrite lookup_seq_ge by lia. by rewrite lookup_ge_None_2 by (rewrite le_bytes_length; lia).
Qed.

(** Loads of the same bytes. *)
Lemma load_bytes a m m' : (∀ i, 0 ≤ i < 8 → m (u64 (a + i)) = m' (u64 (a + i))) → load 8 a m = load 8 a m'.
Proof.
  intros Hm. unfold load. f_equal. apply list_fmap_ext. intros j i Hj. apply lookup_seq in Hj as [-> Hj]. apply Hm. lia.
Qed.

Lemma store_other a v m p : (∀ i, 0 ≤ i < 8 → p ≠ u64 (a + i)) → store 8 a v m p = m p.
Proof. intros Hp. apply store_list_other. intros i Hi. rewrite le_bytes_length in Hi. apply Hp. lia. Qed.

(** Addresses at a small distance differ. *)
Lemma u64_apart a b : 0 < a - b < 2 ^ 64 → u64 a ≠ u64 b.
Proof. intros Hd E. unfold wrap in E. zdm. Qed.

(** ** The stack *)

Definition push_reg (x : mach) (r : Z) : mach := push (u64 (xr x r)) x.
Definition pop_reg (x : mach) (r : Z) : mach := set_r r (load 8 (xr x 4) (xm x)) (set_r 4 (u64 (xr x 4 + 8)) x).
Definition pushes (rs : list Z) (x : mach) : mach := foldl push_reg x rs.
Definition pops (rs : list Z) (x : mach) : mach := foldl pop_reg x rs.

(** The registers [rs] of [x] are on the stack of [y]. *)
Record pushed (rs : list Z) (x y : mach) : Prop := mkPushed {
  pu_regs r : r ≠ 4 → xr y r = xr x r;
  pu_sp : u64 (xr y 4) = u64 (xr x 4 - 8 * length rs);
  pu_slot (i : nat) r : rs !! i = Some r → load 8 (xr x 4 - 8 * (i + 1)) (xm y) = u64 (xr x r);
  pu_mem p : (∀ j, 1 ≤ j ≤ 8 * length rs → p ≠ u64 (xr x 4 - j)) → xm y p = xm x p
}.

Lemma pushed_one rs r x y : r ≠ 4 → 4 ∉ rs → 8 * length (r :: rs) < 2 ^ 32 → pushed rs (push_reg x r) y → pushed (r :: rs) x y.
Proof.
  intros Hr Hrs Hn [R S L M]. set (x' := push_reg x r) in *. assert (xr x' 4 = u64 (xr x 4 - 8)) as E4 by apply fn_lookup_insert.
  assert (∀ q, q ≠ 4 → xr x' q = xr x q) as Ex by (intros q Hq; by apply fn_lookup_insert_ne).
  assert (xm x' = store 8 (u64 (xr x 4 - 8)) (u64 (xr x r)) (xm x)) as Em by done. cbn [length] in Hn. split.
  - intros q Hq. by rewrite R, Ex.
  - rewrite S, E4, wrap_sub_l. f_equal. cbn [length]. lia.
  - intros [|i] q Hq.
    + injection Hq as <-. rewrite (load_bytes _ _ (xm x')).
      * rewrite Em, (load_eqv 8 _ (u64 (xr x 4 - 8))), load_same by (rewrite wrap_wrap; f_equal; lia). apply wrap_wrap.
      * intros k Hk. apply M. intros j Hj. rewrite E4, wrap_sub_l. apply u64_apart. cbn. lia.
    + rewrite <- (Ex q), <- (L i q Hq) by (intros ->; by apply Hrs, list_elem_of_lookup_2 with i).
      apply load_eqv. rewrite E4, wrap_sub_l. f_equal. lia.
  - intros p Hp. rewrite M; [rewrite Em; apply store_other|].
    + intros i Hi. rewrite wrap_add_l. replace (xr x 4 - 8 + i) with (xr x 4 - (8 - i)) by lia. apply Hp. cbn [length]. lia.
    + intros j Hj. rewrite E4, wrap_sub_l. replace (xr x 4 - 8 - j) with (xr x 4 - (8 + j)) by lia. apply Hp. cbn [length]. lia.
Qed.

Lemma pushes_ok rs x : 4 ∉ rs → 8 * length rs < 2 ^ 32 → pushed rs x (pushes rs x).
Proof.
  revert x. induction rs as [|r rs IH]; intros x Hr Hn.
  - split; try done. cbn. by rewrite Z.sub_0_r.
  - apply not_elem_of_cons in Hr as [Hr Hrs]. apply pushed_one; [done..|]. apply IH; [done|]. cbn [length] in Hn. lia.
Qed.

(** The registers [rs] of [y] are from the stack of [x]. *)
Record popped (rs : list Z) (x y : mach) : Prop := mkPopped {
  po_sp : u64 (xr y 4) = u64 (xr x 4 + 8 * length rs);
  po_slot (i : nat) r : rs !! i = Some r → xr y r = load 8 (xr x 4 + 8 * i) (xm x);
  po_regs r : r ∉ 4 :: rs → xr y r = xr x r;
  po_mem : xm y = xm x
}.

Lemma pops_ok rs x : NoDup (4 :: rs) → popped rs x (pops rs x).
Proof.
  revert x. induction rs as [|r rs IH]; intros x Hn.
  - split; try done. cbn. by rewrite Z.add_0_r.
  - assert (r ≠ 4 ∧ r ∉ rs ∧ NoDup (4 :: rs)) as (Hr4 & Hr & Hn').
    { rewrite !stdpp.list_relations.list.NoDup_cons, !not_elem_of_cons in *. naive_solver. }
    destruct (IH (pop_reg x r) Hn') as [S L R M]. cbn [pops foldl]. fold (pops rs (pop_reg x r)).
    assert (xr (pop_reg x r) 4 = u64 (xr x 4 + 8)) as E4 by (cbn [pop_reg set_r xr]; rewrite fn_lookup_insert_ne by done; apply fn_lookup_insert).
    split; [| |intros q Hq|done].
    + rewrite S, E4, wrap_add_l. f_equal. cbn [length]. lia.
    + intros [|i] q Hq.
      * injection Hq as <-. rewrite R by (rewrite not_elem_of_cons; done). cbn [pop_reg set_r xr]. rewrite fn_lookup_insert. apply load_eqv. f_equal. lia.
      * rewrite (L i q Hq), E4. apply load_eqv. rewrite wrap_add_l. f_equal. lia.
    + rewrite !not_elem_of_cons in Hq. rewrite R by (rewrite not_elem_of_cons; naive_solver). cbn [pop_reg set_r xr].
      rewrite !fn_lookup_insert_ne by naive_solver. done.
Qed.

Section does.
  Context (undefined : insn → mach → flags).

Lemma does_pushes rs x : Forall is_reg rs → does undefined (λ s, push_regs s rs) x (pushes rs x).
Proof.
  intros Hr. revert x. induction Hr as [|r rs Hr _ IH]; intros x; [apply does_nil|]. cbn [push_regs pushes foldl].
  eapply does_bind; [|apply IH]. eapply does_codes; [by apply codes_push|]. done.
Qed.

Lemma does_pops rs x : Forall is_reg rs → does undefined (λ s, pop_regs s rs) x (pops rs x).
Proof.
  intros Hr. revert x. induction Hr as [|r rs Hr _ IH]; intros x; [apply does_nil|]. cbn [pop_regs pops foldl].
  eapply does_bind; [|apply IH]. eapply does_codes; [by apply codes_pop|]. done.
Qed.

End does.

(** ** The parts of the code *)

Section parts.
  Context `{TcgHost} `{TcgEntry} (undefined : insn → mach → flags).
  Notation straight := (straight undefined).

Lemma addi_all r v :
  is_reg r → - 2 ^ 31 ≤ v < 2 ^ 31 →
  ∃ l, writes (λ s, tcg_out_addi s r v) l ∧ ∀ x, ∃ y, straight l x y ∧ effect TCG_TYPE_I64 r (xr x r + v) x y.
Proof.
  intros Hr Hv. apply does_all. intros x. unfold tcg_out_addi. destruct (Z.eqb_spec v 0) as [->|_]; cbn [negb].
  - exists x. split; [apply does_nil|]. split; [|done..]. by rewrite Z.add_0_r.
  - apply (computes_arithi undefined ARITH_ADD TCG_TYPE_I64); [apply list_elem_of_In; cbn; tauto|done|].
    right. left. by rewrite sext_small by (cbn in *; lia).
Qed.

Definition type_bytes (ty : TCGType) : nat := if is_i32 ty then 4 else 8.

Lemma st_all ty d b off :
  is_reg d → is_reg b → 0 ≤ off < 2 ^ 31 →
  ∃ l, writes (λ s, tcg_out_st s ty d b off) l ∧ ∀ x, ∃ y, straight l x y ∧
    xm y = mem_store false (type_bytes ty) (xr x b + off) (xr x d) (xm x) ∧ ∀ r, xr y r = xr x r.
Proof.
  intros Hd Hb Ho. apply does_all. intros x. assert (sext 64 off = off) as E64 by (apply sext_small; lia).
  assert (sext 64 off = sext 32 off) as E32 by (rewrite E64; symmetry; apply sext_small; lia).
  assert (type_bytes ty = wbytes (wd ty)) as -> by (by destruct ty).
  destruct (stores_host undefined d b off x E32 (λ s, tcg_out_st s ty d b (sext 64 off)) (wd ty)) as (y & Hy & Hm & Hr);
    [by apply codes_st|].
  rewrite E64 in Hy. exists y. split_and!; [done..|]. intros r. apply Hr. apply not_elem_of_nil.
Qed.

(** The addend of the stack. *)
Lemma stack_addend_ok : 0 ≤ STACK_SIZE < 2 ^ 30 → STACK_SIZE ≤ stack_addend < 2 ^ 30 + 16 ∧ (48 + stack_addend) `mod` 16 = 0.
Proof.
  intros Hs. unfold stack_addend. set (a := _ + TCG_TARGET_STACK_ALIGN - 1).
  replace (a .& .~ (TCG_TARGET_STACK_ALIGN - 1)) with (a - a `mod` 16).
  - unfold a, TCG_TARGET_STACK_ALIGN. cbn [length tcg_target_callee_save_regs]. split; zdm.
  - change (TCG_TARGET_STACK_ALIGN - 1) with (Z.ones 4). rewrite <- Z.ldiff_land, Z.ldiff_ones_r by lia.
    rewrite Z.shiftl_mul_pow2, Z.shiftr_div_pow2 by lia. zdm.
Qed.

(** A call of the code is in a block: the registers of the caller are below
    the return address and the stack pointer is below them. *)
Record entered (x y : mach) : Prop := mkEntered {
  en_regs r : r ∉ [TCG_REG_ESP; TCG_REG_R10] → xr y r = xr x r;
  en_sp : u64 (xr y 4) = u64 (xr x 4 - 40 - stack_addend);
  en_slot (i : nat) r : tcg_target_callee_save_regs !! i = Some r → load 8 (xr x 4 - 8 * (i + 1)) (xm y) = u64 (xr x r);
  en_mem p : (∀ j, 1 ≤ j ≤ 40 → p ≠ u64 (xr x 4 - j)) → xm y p = xm x p
}.

Lemma callee_regs : Forall is_reg tcg_target_callee_save_regs.
Proof. repeat constructor; done. Qed.

Definition out_entry (s : TCGOut) : result TCGOut :=
  s <- push_regs s tcg_target_callee_save_regs ;;
  s <- tcg_out_addi s TCG_REG_ESP (- stack_addend) ;;
  tcg_out_modrm s OPC_GRP5 EXT5_JMPN_Ev TCG_REG_EDI.

Lemma entry_leads :
  0 ≤ STACK_SIZE < 2 ^ 30 →
  ∃ g, writes_at out_entry g ∧ ∀ x, leads undefined g x (λ n ip y, ip = u64 (xr x TCG_REG_EDI) ∧ entered x y).
Proof.
  intros Hs. pose proof (stack_addend_ok Hs) as [Ha _].
  destruct (does_all undefined (λ s, push_regs s tcg_target_callee_save_regs) (λ x y, y = pushes tcg_target_callee_save_regs x)) as (l1 & W1 & H1).
  { intros x. eexists. split; [apply does_pushes, callee_regs|done]. }
  destruct (addi_all TCG_REG_ESP (- stack_addend)) as (l2 & W2 & H2); [done|lia|].
  destruct (branch_reg_leads undefined false TCG_REG_EDI) as (g & Wg & Hg); [done|].
  exists (λ a, (l1 ++ l2) ++ g (a + length (l1 ++ l2))). split.
  - intros s. unfold out_entry. rewrite W1. cbn [rbind]. rewrite W2. cbn [rbind]. by rewrite Wg, !emit_emit, app_assoc.
  - intros x. destruct (H1 x) as (y & S1 & ->). set (y := pushes _ _) in *. destruct (H2 y) as (z & S2 & [E2 O2 M2]).
    assert (pushed tcg_target_callee_save_regs x y) as [R S L M] by (apply pushes_ok; [notin|cbn; lia]).
    apply (leads_app undefined (l1 ++ l2) g x z); [by eapply straight_app|]. eapply leads_mono; [|apply Hg].
    intros n ip w (-> & w' & [Rw Mw] & ->). split.
    + by rewrite O2, R.
    + split.
      * intros r Hr. apply not_elem_of_cons in Hr as [Hr1 Hr2]. by rewrite Rw, O2, R.
      * rewrite Rw by notin. transitivity (u64 (xr y 4 + - stack_addend)); [apply E2|]. rewrite <- wrap_add_l, S, wrap_add_l.
        f_equal.
      * intros i r Hi. rewrite Mw, M2. by apply L.
      * intros p Hp. rewrite Mw, M2. by apply M.
Qed.

(** A block returns: the registers of the caller are loaded from the stack. *)
Record left (x : mach) (ip : Z) (y : mach) : Prop := mkLeft {
  lf_ip : ip = load 8 (xr x 4 + stack_addend + 40) (xm x);
  lf_sp : u64 (xr y 4) = u64 (xr x 4 + stack_addend + 48);
  lf_slot (i : nat) r : tcg_target_callee_save_regs !! i = Some r → xr y r = load 8 (xr x 4 + stack_addend + 40 - 8 * (i + 1)) (xm x);
  lf_regs r : r ∉ 4 :: tcg_target_callee_save_regs → xr y r = xr x r;
  lf_mem : xm y = xm x
}.

Definition out_leave (s : TCGOut) : result TCGOut :=
  s <- tcg_out_addi s TCG_REG_ESP stack_addend ;;
  s <- pop_regs s (rev tcg_target_callee_save_regs) ;;
  tcg_out_opc s OPC_RET 0 0 0.

Lemma ret_writes : writes (λ s, tcg_out_opc s OPC_RET 0 0 0) [0xc3].
Proof. intros s. by rewrite (opc_writes OPC_RET 0 0 0 ltac:(done) ltac:(done) ltac:(done) ltac:(done) s). Qed.

Lemma ret_encodes : encodes [0xc3] IRet.
Proof. split; [cbn; lia|]. by intros t. Qed.

(** The state after the addition, the loads and the return. *)
Lemma left_ok x y z :
  effect TCG_TYPE_I64 TCG_REG_ESP (xr x 4 + stack_addend) x y → popped (rev tcg_target_callee_save_regs) y z →
  left x (load 8 (xr z 4) (xm z)) (set_r 4 (u64 (xr z 4 + 8)) z).
Proof.
  intros [E O M] [Sp L R Mz]. assert (u64 (xr y 4) = u64 (xr x 4 + stack_addend)) as E4 by apply E.
  assert (∀ k, u64 (xr y 4 + k) = u64 (xr x 4 + stack_addend + k)) as Ek by (intros k; by rewrite <- wrap_add_l, E4, wrap_add_l).
  assert (u64 (xr z 4) = u64 (xr x 4 + stack_addend + 40)) as Ez by (rewrite Sp; apply Ek). split.
  - rewrite Mz, M. by apply load_eqv.
  - cbn [set_r xr]. rewrite fn_lookup_insert, wrap_wrap, <- wrap_add_l, Ez, wrap_add_l. f_equal. lia.
  - intros i r Hi. assert (r ≠ 4 ∧ rev tcg_target_callee_save_regs !! (4 - i)%nat = Some r ∧ (i ≤ 4)%nat) as (Hr & Hj & Hi4).
    { do 5 (destruct i as [|i]; [injection Hi as <-; split_and!; [done|done|lia]|]). done. }
    cbn [set_r xr]. rewrite fn_lookup_insert_ne by done. rewrite (L _ _ Hj), M. apply load_eqv. rewrite Ek. f_equal. lia.
  - intros r Hr. pose proof Hr as Hr'. apply not_elem_of_cons in Hr' as [Hr4 Hr']. cbn [set_r xr]. rewrite fn_lookup_insert_ne by done.
    rewrite R; [by apply O|]. apply not_elem_of_cons. split; [done|]. by rewrite list_elem_of_In, <- in_rev, <- list_elem_of_In.
  - cbn [set_r xm]. by rewrite Mz.
Qed.

Lemma leave_leads :
  0 ≤ STACK_SIZE < 2 ^ 30 → ∃ l, writes out_leave l ∧ ∀ x, leads undefined (λ _, l) x (λ n ip y, left x ip y).
Proof.
  intros Hs. pose proof (stack_addend_ok Hs) as [Ha _]. destruct (addi_all TCG_REG_ESP stack_addend) as (l1 & W1 & H1); [done|lia|].
  destruct (does_all undefined (λ s, pop_regs s (rev tcg_target_callee_save_regs)) (λ x y, y = pops (rev tcg_target_callee_save_regs) x)) as (l2 & W2 & H2).
  { intros x. eexists. split; [apply does_pops; repeat constructor; done|done]. }
  exists ((l1 ++ l2) ++ [0xc3]). split.
  - intros s. unfold out_leave. rewrite W1. cbn [rbind]. rewrite W2. cbn [rbind]. by rewrite ret_writes, !emit_emit, app_assoc.
  - intros x. destruct (H1 x) as (y & S1 & E1). destruct (H2 y) as (z & S2 & ->).
    apply (leads_app undefined (l1 ++ l2) (λ _, [0xc3]) x (pops (rev tcg_target_callee_save_regs) y)); [by eapply straight_app|].
    apply (leads_one undefined _ _ (λ _, IRet)); [intros _; apply ret_encodes|].
    intros a. eexists. split; [done|]. cbn [fst snd]. apply (left_ok x y); [done|]. apply pops_ok.
    repeat (apply stdpp.list_relations.list.NoDup_cons; split; [notin|]). apply NoDup_nil_2.
Qed.

(** A call of the code restores the registers of its caller and returns. *)
Lemma entered_left x y z ip w :
  entered x y → u64 (xr z 4) = u64 (xr y 4) → (∀ j, -8 < j ≤ 40 → xm z (u64 (xr x 4 - j)) = xm y (u64 (xr x 4 - j))) →
  left z ip w →
  ip = load 8 (xr x 4) (xm x) ∧ u64 (xr w 4) = u64 (xr x 4 + 8) ∧ (∀ r, r ∈ tcg_target_callee_save_regs → xr w r = u64 (xr x r)) ∧
    (∀ r, r ∉ 4 :: tcg_target_callee_save_regs → xr w r = xr z r) ∧ xm w = xm z.
Proof.
  intros [Re Se Le Me] Hsp Hm [-> Sl Ll Rl Ml].
  assert (∀ k, u64 (xr z 4 + stack_addend + k) = u64 (xr x 4 - 40 + k)) as Ek.
  { intros k. replace (xr z 4 + stack_addend + k) with (xr z 4 + (stack_addend + k)) by lia.
    rewrite <- wrap_add_l, Hsp, Se, wrap_add_l. f_equal. lia. }
  split_and!; [..|done|done].
  - rewrite (load_eqv 8 _ (xr x 4)) by (rewrite Ek; f_equal; lia). apply load_bytes. intros i Hi.
    replace (xr x 4 + i) with (xr x 4 - (- i)) by lia. rewrite Hm by lia. apply Me. intros j Hj. apply u64_apart. lia.
  - rewrite Sl, Ek. f_equal. lia.
  - intros r [i Hi]%list_elem_of_lookup_1. rewrite (Ll i r Hi), <- (Le i r Hi). assert (i < 5)%nat as Hi5 by (by apply lookup_lt_Some in Hi).
    replace (xr z 4 + stack_addend + 40 - 8 * (i + 1)) with (xr z 4 + stack_addend + (40 - 8 * (i + 1))) by lia.
    rewrite (load_eqv 8 _ (xr x 4 - 8 * (i + 1))) by (rewrite Ek; f_equal; lia). apply load_bytes. intros k Hk.
    replace (xr x 4 - 8 * (i + 1) + k) with (xr x 4 - (8 * (i + 1) - k)) by lia. apply Hm. lia.
Qed.

(** A chain exit notes the guest address and the block in the CPU state. *)
Record noted (x y : mach) : Prop := mkNoted {
  nt_regs r : r ≠ TCG_REG_EAX → xr y r = xr x r;
  nt_mem : let env := xr x TCG_AREG0 in
    xm y = mem_store false 4 (env + offsetof_update_ibtc) 2 (mem_store false 8 (env + offsetof_cached_tb) (xr x TCG_REG_ESI)
      (mem_store false (type_bytes TCG_TYPE_TL) (env + offsetof_cached_eip) (xr x TCG_REG_EDI) (xm x)))
}.

Definition out_chain (s : TCGOut) : result TCGOut :=
  s <- tcg_out_st s TCG_TYPE_TL TCG_REG_EDI TCG_AREG0 offsetof_cached_eip ;;
  s <- tcg_out_st s TCG_TYPE_I64 TCG_REG_ESI TCG_AREG0 offsetof_cached_tb ;;
  s <- tcg_out_movi s TCG_TYPE_I32 TCG_REG_EAX 2 ;;
  tcg_out_st s TCG_TYPE_I32 TCG_REG_EAX TCG_AREG0 offsetof_update_ibtc.

(** The fields of the CPU state are at offsets that an instruction encodes. *)
Definition offsets_fit : Prop :=
  0 ≤ offsetof_cached_eip < 2 ^ 31 ∧ 0 ≤ offsetof_cached_tb < 2 ^ 31 ∧ 0 ≤ offsetof_update_ibtc < 2 ^ 31.

Lemma chain_straight : offsets_fit → ∃ l, writes out_chain l ∧ ∀ x, ∃ y, straight l x y ∧ noted x y.
Proof.
  intros (O1 & O2 & O3). destruct (st_all TCG_TYPE_TL TCG_REG_EDI TCG_AREG0 offsetof_cached_eip) as (l1 & W1 & H1); [done..|].
  destruct (st_all TCG_TYPE_I64 TCG_REG_ESI TCG_AREG0 offsetof_cached_tb) as (l2 & W2 & H2); [done..|].
  destruct (movi_all undefined TCG_TYPE_I32 TCG_REG_EAX 2) as (l3 & W3 & H3); [done..|].
  destruct (st_all TCG_TYPE_I32 TCG_REG_EAX TCG_AREG0 offsetof_update_ibtc) as (l4 & W4 & H4); [done..|].
  exists (l1 ++ l2 ++ l3 ++ l4). split.
  - unfold out_chain. by repeat apply writes_bind.
  - intros x. destruct (H1 x) as (y1 & S1 & M1 & R1). destruct (H2 y1) as (y2 & S2 & M2 & R2).
    destruct (H3 y2) as (y3 & S3 & [E3 R3 M3]). destruct (H4 y3) as (y4 & S4 & M4 & R4). exists y4. split.
    + repeat (eapply straight_app; [eassumption|]). done.
    + split; [intros r Hr; by rewrite R4, R3, R2, R1|]. cbv zeta. rewrite M4, M3, M2, M1, (R3 TCG_AREG0), !R2, !R1 by done.
      cbn [type_bytes is_i32]. unfold mem_store. f_equal. by apply le_bytes_eqv.
Qed.

(** What the code of [tcg_target_qemu_prologue] does from its entries. *)
Record entries_ok (a : Z) (cm : Z → Z) (e : entries) : Prop := mkEntriesOk {
  eo_entry x : ∃ y, reaches undefined cm (a, x) (u64 (xr x TCG_REG_EDI), y) ∧ entered x y;
  eo_helper : ∃ n, ∀ x, ∃ y, reaches undefined cm (ibtc_helper_entry e, x) (u64 helper_lookup_ibtc, y) ∧ gone true x n y ∧
    ∀ z, ∃ w, reaches undefined cm (n, z) (u64 (xr z TCG_REG_EAX), w) ∧ agree [TCG_REG_R10] z w;
  eo_chain x : ∃ y, reaches undefined cm (e_ibchain_ret_addr e, x) (ibtc_ret_addr e, y) ∧ noted x y;
  eo_ibtc x : ∃ y, reaches undefined cm (ibtc_ret_addr e, x) (e_tb_ret_addr e, y) ∧ effect TCG_TYPE_I64 TCG_REG_EAX 0 x y;
  eo_ret x : ∃ ip y, reaches undefined cm (e_tb_ret_addr e, x) (ip, y) ∧ left x ip y
}.

Lemma emit_ptr s l : code_ptr (emit s l) = code_ptr s + length l.
Proof. done. Qed.

Lemma prologue_parts s :
  tcg_target_qemu_prologue s =
    s1 <- out_entry s ;; s2 <- tcg_out_branch s1 true helper_lookup_ibtc ;;
    s3 <- tcg_out_modrm s2 OPC_GRP5 EXT5_JMPN_Ev TCG_REG_EAX ;;
    s4 <- out_chain s3 ;; s5 <- tcg_out_movi s4 TCG_TYPE_I64 TCG_REG_EAX 0 ;; s6 <- out_leave s5 ;;
    Ok (s6, mkEntries (code_ptr s1) (code_ptr s3) (code_ptr s4) (code_ptr s5)).
Proof.
  unfold tcg_target_qemu_prologue, out_entry, tcg_out_prologue, tcg_out_epilogue, out_chain, out_leave, tcg_out_calli.
  repeat (match goal with |- rbind ?m _ = _ => lazymatch m with rbind _ _ => fail | _ => destruct m; cbn [rbind]; [|done] end end
    || match goal with |- rbind (rbind ?m _) _ = _ => destruct m; cbn [rbind]; [|done] end).
  done.
Qed.

Lemma prologue_ok s :
  0 ≤ STACK_SIZE < 2 ^ 30 → offsets_fit →
  ∃ l e, tcg_target_qemu_prologue s = Ok (emit s l, e) ∧ entries_ok (code_ptr s) (cmem (emit s l)) e.
Proof.
  intros Hs Ho. destruct (entry_leads Hs) as (g1 & W1 & H1). destruct (branch_leads undefined true helper_lookup_ibtc) as (g2 & W2 & H2).
  destruct (branch_reg_leads undefined false TCG_REG_EAX) as (g3 & W3 & H3); [done|]. destruct (chain_straight Ho) as (l4 & W4 & H4).
  destruct (movi_all undefined TCG_TYPE_I64 TCG_REG_EAX 0) as (l5 & W5 & H5); [done..|]. destruct (leave_leads Hs) as (l6 & W6 & H6).
  set (a0 := code_ptr s). set (a1 := a0 + length (g1 a0)). set (a2 := a1 + length (g2 a1)). set (a3 := a2 + length (g3 a2)).
  set (a4 := a3 + length l4). set (a5 := a4 + length l5).
  set (l := g1 a0 ++ g2 a1 ++ g3 a2 ++ l4 ++ l5 ++ l6). exists l, (mkEntries a1 a3 a4 a5). split.
  - rewrite prologue_parts, W1. cbn [rbind]. rewrite W2. cbn [rbind]. rewrite W3. cbn [rbind]. rewrite W4. cbn [rbind].
    rewrite W5. cbn [rbind]. rewrite W6. cbn [rbind]. rewrite !emit_ptr. fold a0. fold a1. fold a2. fold a3. fold a4. fold a5.
    by rewrite !emit_emit.
  - pose proof (code_at_emit s l) as Hc. set (cm := cmem (emit s l)) in *. unfold l in Hc. fold a0 in Hc. rewrite !code_at_app in Hc.
    fold a1 in Hc. fold a2 in Hc. fold a3 in Hc. fold a4 in Hc. fold a5 in Hc. destruct Hc as (C1 & C2 & C3 & C4 & C5 & C6).
    split; cbn [ibtc_helper_entry e_ibchain_ret_addr ibtc_ret_addr e_tb_ret_addr].
    + intros x. destruct (H1 x cm a0 C1) as (ip & y & Hr & -> & Hy). by exists y.
    + exists a2. intros x. destruct (H2 x cm a1 C2) as (ip & y & Hr & -> & Hy). exists y. split_and!; [done..|].
      intros z. destruct (H3 z cm a2 C3) as (ip & w & Hw & -> & w' & Ha & ->). by exists w'.
    + intros x. destruct (H4 x) as (y & Hy & Hn). exists y. split; [by apply Hy|done].
    + intros x. destruct (H5 x) as (y & Hy & Hn). exists y. split; [by apply Hy|done].
    + intros x. destruct (H6 x cm a5 C6) as (ip & y & Hr & Hy). by exists ip, y.
Qed.

End parts.
