(* ===== verification/TcgProps.v ===== *)
(** * Properties of the TCG back end *)

From Stdlib Require Import String.
From stdpp Require Import base gmap list functions.
From S2P Require Import Prelude TcgData TcgLive TcgLiveInv TcgAlloc TcgSem TcgInv TcgSpill TcgSave TcgOpIn TcgOp TcgCall TcgSim TcgLoop TcgFlow TcgRun TcgTemps TcgTotal TcgTotalCall.
Local Open Scope Z_scope.
Local Coercion Z.of_nat : nat >-> Z.

(** ** An example *)

Definition op_add_i64 : TCGOpcode := Eval vm_compute in INDEX_op "add_i64".
Definition op_sub_i64 : TCGOpcode := Eval vm_compute in INDEX_op "sub_i64".
Definition op_brcond_i64 : TCGOpcode := Eval vm_compute in INDEX_op "brcond_i64".
Definition op_exit_tb : TCGOpcode := Eval vm_compute in INDEX_op "exit_tb".

(** The block works on two globals, 1 and 2, and two temporaries; 0 is the
    register that points to the state of the guest.  It begins with a patch
    point, which jumps over an exit. *)
Definition demo_ops : list tcgop := [
  TOp INDEX_op_patch [] [] [1];
  TOp op_exit_tb [] [] [66];
  TOp INDEX_op_set_label [] [] [1];
  TOp INDEX_op_movi_i64 [3] [] [5];
  TOp op_add_i64 [4] [1; 3] [];
  TOp op_sub_i64 [2] [4; 1] [];
  TOp op_add_i64 [4] [4; 4] [];
  TOp op_brcond_i64 [] [2; 1] [0; 0];
  TOp INDEX_op_mov_i64 [1] [2] [];
  TOp INDEX_op_set_label [] [] [0];
  TOp op_exit_tb [] [] [77] ].
Definition demo_local : list bool := [false; false; false; false; false].

(** *** The context *)

Definition blank_temp : TCGTemp := mkTemp TCG_TYPE_I32 TCG_TYPE_I32 TEMP_VAL_DEAD 0 0 0 0 false false false false false 0.
Definition blank_ctx : TCGContext :=
  mkCtx (replicate TCG_MAX_TEMPS blank_temp) 0 0 [] (replicate TCG_TARGET_NB_REGS 0) target_reserved_regs 0 0 0 0 [] [].

Definition ctx_of {A} (r : result (TCGContext * A)) : TCGContext := match r with Ok (s, _) => s | Er _ => blank_ctx end.

(** The frame is at 1000 from [R14], the globals at 16 and 24. *)
Definition demo_g0 : TCGContext := tcg_set_frame blank_ctx TCG_REG_R14 1000 1024.
Definition demo_g1 : TCGContext := ctx_of (tcg_global_reg_new_internal demo_g0 TCG_TYPE_I64 TCG_REG_R14).
Definition demo_g2 : TCGContext := ctx_of (tcg_global_mem_new_internal demo_g1 TCG_TYPE_I64 TCG_REG_R14 16).
Definition demo_g3 : TCGContext := ctx_of (tcg_global_mem_new_internal demo_g2 TCG_TYPE_I64 TCG_REG_R14 24).
Definition demo_t0 : TCGContext := tcg_func_start demo_g3.
Definition demo_t1 : TCGContext := ctx_of (tcg_temp_new_internal demo_t0 TCG_TYPE_I64 false).
Definition demo_t2 : TCGContext := ctx_of (tcg_temp_new_internal demo_t1 TCG_TYPE_I64 false).
Definition demo_t3 : TCGContext := ctx_of (gen_new_label demo_t2).
Definition demo_ctx : TCGContext := ctx_of (gen_new_label demo_t3).

Lemma demo_slot s offset : s = demo_g1 ∧ offset = 16 ∨ s = demo_g2 ∧ offset = 24 → new_slot s TCG_TYPE_I64 TCG_REG_R14 offset.
Proof.
  intros [[-> ->]|[-> ->]]; (split; [split; [done|by vm_compute]|intros _; left; by vm_compute|]).
  - intros [|k] ts Hk Hts; [|vm_compute in Hk; lia]. vm_compute in Hts. injection Hts as <-. done.
  - intros [|[|k]] ts Hk Hts; [| |vm_compute in Hk; lia]; vm_compute in Hts; injection Hts as <-; [done|]. intros _. right. left. by vm_compute.
Qed.

Lemma demo_built : ctx_built demo_ctx.
Proof.
  apply (cb_label demo_t3 _ 1%nat); [|by vm_compute]. apply (cb_label demo_t2 _ 0%nat); [|by vm_compute]. apply (cb_new demo_t1 TCG_TYPE_I64 false _ 4); [|by vm_compute].
  apply (cb_new demo_t0 TCG_TYPE_I64 false _ 3); [|by vm_compute]. apply cb_start; [|by vm_compute].
  apply (gb_mem demo_g2 TCG_TYPE_I64 TCG_REG_R14 24 _ 2%nat); [|apply demo_slot; by right|by vm_compute].
  apply (gb_mem demo_g1 TCG_TYPE_I64 TCG_REG_R14 16 _ 1%nat); [|apply demo_slot; by left|by vm_compute].
  apply (gb_reg demo_g0 TCG_TYPE_I64 TCG_REG_R14 _ 0%nat); [by apply gb_init|done|by vm_compute..].
Qed.

(** *** The meaning of the operations *)

Definition demo_sem : tcg_sem unit :=
  mkSem
    (λ op cargs ins gs m,
       let v := conv TCG_TYPE_I64 <$> ins in
       let a := default 0 (v !! 0%nat) in
       let b := default 0 (v !! 1%nat) in
       (replicate (nb_oargs (op_def op)) (if (op =? op_add_i64)%nat then a + b else if (op =? op_sub_i64)%nat then a - b else 0), gs, m))
    (λ _ _, TCG_TYPE_I64)
    (λ op cargs ins m,
       let v := conv TCG_TYPE_I64 <$> ins in
       if (op =? INDEX_op_brcond_i64)%nat then
         match cargs with
         | _ :: l :: _ => if bool_decide (v !! 0%nat = v !! 1%nat) then FJump l else FNext
         | _ => FNext
         end
       else if (op =? op_exit_tb)%nat then FExit
       else if (op =? INDEX_op_patch)%nat then match cargs with l :: _ => FJump l | [] => FNext end
       else FNext)
    (λ _ _ gs m, (λ _, 0, gs, m)) (λ _, []) (λ _, true) (λ _, true).

#[export] Instance demo_sem_ok fi : SemOk fi demo_sem.
Proof.
  assert (∀ (op : TCGOpcode) (ins ins' : list Z), length ins = length ins' →
    (∀ n v v', ins !! n = Some v → ins' !! n = Some v' → eqv TCG_TYPE_I64 v v') → conv TCG_TYPE_I64 <$> ins = conv TCG_TYPE_I64 <$> ins') as HE.
  { intros _ ins ins' Hl He. apply list_eq. intros n. rewrite !list_lookup_fmap. destruct (ins !! n) as [v|] eqn:E1, (ins' !! n) as [v'|] eqn:E2; cbn.
    - f_equal. by apply (He n).
    - apply lookup_ge_None in E2. apply lookup_lt_Some in E1. lia.
    - apply lookup_ge_None in E1. apply lookup_lt_Some in E2. lia.
    - done. }
  split; try done; cbn [op_sem op_flow demo_sem op_type].
  - intros. apply length_replicate.
  - intros op cargs ins ins' gs gs' m Hl He Hg. by rewrite (HE op ins ins' Hl He).
  - intros op cargs ins ins' m Hl He. by rewrite (HE op ins ins' Hl He).
  - intros op cargs ins m Hbb Hst. destruct (Nat.eqb_spec op INDEX_op_brcond_i64) as [->|_]; [done|]. destruct (Nat.eqb_spec op op_exit_tb) as [->|_]; [done|].
    by destruct (Nat.eqb_spec op INDEX_op_patch) as [->|_].
  - intros op cargs ins m l. destruct (Nat.eqb_spec op INDEX_op_brcond_i64) as [->|_].
    2: { destruct (_ =? op_exit_tb)%nat; [done|]. destruct (Nat.eqb_spec op INDEX_op_patch) as [->|_]; [|done]. destruct cargs; [done|]. intros [= ->]. by left. }
    destruct cargs as [|c [|l' cargs]]; [done..|]. case_bool_decide; [|done]. intros [= ->]. by left.
Qed.

(** ** Liveness *)

(** C28. On the buffers that hold a list of operations, the liveness analysis
    does not fail and computes what is needed later.  A value is needed at an
    operation that reads it; at the end of a basic block if it is that of a
    global or of a local temporary; at a helper call that may read the globals
    if it is that of a global; and otherwise if it is needed after the operation
    and not overwritten by it.  Operations without side effects are replaced by
    nops of the same size exactly when none of their outputs is needed, the
    others stay, and bit [k] of the mask of an operation that stays says that
    its input [k] is not needed any more. *)
Theorem liveness_refines (nb_globals : nat) (temp_local : list bool) (ops : list tcgop) :
  length temp_local < 2 ^ 31 → Forall (wf_op temp_local) ops →
  ∃ masks, tcg_liveness_analysis nb_globals temp_local ((op_opc <$> ops) ++ [INDEX_op_end]) (enc ops) =
      Ok ((op_opc <$> pruned nb_globals temp_local ops) ++ [INDEX_op_end], enc (pruned nb_globals temp_local ops), masks) ∧
    ∀ i o, ops !! i = Some o → has_mask o = true →
      drops o (needed nb_globals temp_local (drop (S i) ops)) = false →
      ∃ m, masks !! i = Some m ∧
        ∀ k, 0 ≤ k → Z.testbit m k = (k <? 16) && last_use nb_globals temp_local o (drop (S i) ops) k.
Proof.
  intros Hfew F. destruct (liveness_ok nb_globals temp_local Hfew ops F) as (masks & E & Hm). exists masks.
  destruct (live_spec nb_globals temp_local ops Hfew F) as (E1 & _ & H3). rewrite E, E1. split; [done|].
  intros i o Hi Ho Hd. destruct (H3 i o Hi Ho Hd) as (m & Er & Hk). eauto.
Qed.

Lemma demo_wf : Forall (wf_op demo_local) demo_ops.
Proof.
  repeat (apply List.Forall_cons; [cbn [wf_op]; split_and!; try (vm_compute; lia);
    repeat first [apply List.Forall_nil | apply List.Forall_cons; [unfold temp_arg; cbn; lia|]]|]); apply List.Forall_nil.
Qed.

(** The second addition is removed: its result is not used. *)
Lemma liveness_refines_witness :
  ∃ masks, tcg_liveness_analysis 3 demo_local ((op_opc <$> demo_ops) ++ [INDEX_op_end]) (enc demo_ops) =
    Ok ([INDEX_op_patch; op_exit_tb; INDEX_op_set_label; INDEX_op_movi_i64; op_add_i64; op_sub_i64; INDEX_op_nopn; op_brcond_i64; INDEX_op_mov_i64; INDEX_op_set_label; op_exit_tb; INDEX_op_end],
        [1; 66; 1; 3; 5; 4; 1; 3; 2; 4; 1; 3; 4; 3; 2; 1; 0; 0; 1; 2; 0; 77], masks) ∧
    ∃ m, masks !! 4%nat = Some m ∧ Z.testbit m 0 = false ∧ Z.testbit m 1 = true.
Proof.
  destruct (liveness_refines 3 demo_local demo_ops ltac:(cbn; lia) demo_wf) as (masks & E & Hm). exists masks. rewrite E.
  split; [vm_compute; reflexivity|].
  destruct (Hm 4%nat _ eq_refl) as (m & Em & Hk); [vm_compute; reflexivity|vm_compute; reflexivity|].
  exists m. split; [exact Em|]. split; (rewrite Hk; [vm_compute; reflexivity|lia]).
Defined.

(** ** Code generation *)

(** C29. Take a context made by the functions of tcg/tcg.c with globals in
    slots that do not overlap ([ctx_built]), with room in the frame and only
    [R14] reserved besides the stack pointer, and a block that can be
    translated: it reads only what has a value, labels are set once, what has
    a value after a label has one at the jumps to it, and a [patch], which
    jumps without ending a basic block, is its first operation.  Then code is
    generated, jumps and calls included, and it does what the operations do
    under any semantics that README allows: for any number of steps, either
    the operations have no meaning (a call that does not suit its function, the
    end of the list, a label that is not set), or the code reaches the same
    point with the same memory; at an exit the globals are in their slots, and
    reserved registers are never changed. *)
Theorem tcg_gen_code_correct {M} (s : TCGContext) (sem : tcg_sem M) (junk : (Z → Z) → M → Z → Z) (ops : list tcgop) :
  SemOk (ctx_info s) sem → ctx_built s → ctx_fits s →
  block_good (ctx_info s) (ctx_local s) sem ops → block_fits ops s → jumps_good (ctx_info s) ops → patch_first ops →
  ∃ s', tcg_gen_code s ((op_opc <$> ops) ++ [INDEX_op_end]) (enc ops) = Ok s' ∧
    ∀ N vals h, at_entry (ctx_info s) vals h →
    ∃ vs, length vs = N ∧
      (tcg_exec (ctx_info s) sem ops vs 0 (vals, hm h) = None ∨
       ∃ pc st n pc' h', tcg_exec (ctx_info s) sem ops vs 0 (vals, hm h) = Some (pc, st) ∧
         hexec (ctx_info s) sem junk (code s') n 0 h = Some (pc', h') ∧ (pc = None ↔ pc' = None) ∧ hm h' = st.2 ∧
         (∀ r, tcg_regset_test_reg (reserved_regs s) r = true → hregs h' r = hregs h r) ∧
         (pc = None → in_slots (ctx_info s) st.1 h')).
Proof.
  intros HS [HW _]%ctx_built_ok HF HG HB HJ HP. destruct (gen_code_total sem s ops HW HF HG HB) as [s' E]. exists s'. split; [done|].
  intros N vals h He. by apply (gen_code_sim s HW sem junk ops HG).
Qed.

Lemma demo_good : block_good (ctx_info demo_ctx) (ctx_local demo_ctx) demo_sem demo_ops.
Proof.
  intros i o Ho. split. { change (ctx_local demo_ctx) with demo_local. by eapply (proj1 (Forall_lookup _ _)), Ho; apply demo_wf. }
  destruct i as [|[|[|[|[|[|[|[|[|[|[|i]]]]]]]]]]]; [injection Ho as <-..|done]; cbn [op_good]; split_and!;
    try (intros a Ha; repeat (apply elem_of_cons in Ha as [->|Ha]; [repeat split; vm_compute; reflexivity|]); by apply elem_of_nil in Ha);
    try (intros _; split_and!; [by vm_compute|apply (bool_decide_unpack _); by vm_compute|intros [|[|n]] a Ha; try done; injection Ha as <-; by vm_compute]);
    try (intros Hm; vm_compute in Hm; discriminate Hm).
  intros _ a b Ha%list_elem_of_singleton Hb%list_elem_of_singleton. subst. split; [done|by vm_compute].
Qed.

Lemma demo_jumps : jumps_good (ctx_info demo_ctx) demo_ops.
Proof.
  intros i op oargs iargs cargs l j Ho Hl Hj k Hd. assert (l = 0 ∨ l = 1) as Hl'.
  { do 11 (destruct i as [|i]; [injection Ho as <- <- <- <-; vm_compute in Hl; first [by apply elem_of_nil in Hl|apply list_elem_of_singleton in Hl; auto]|]). done. }
  assert (lasting (ctx_info demo_ctx) k) as [Hk|Hk]; [|by apply globals_def_at|].
  { destruct Hl' as [-> | ->]; vm_compute in Hj; injection Hj as <-.
    - eapply (ends_lasting (ctx_info demo_ctx) demo_ops 9); [reflexivity|by vm_compute|exact Hd].
    - eapply (ends_lasting (ctx_info demo_ctx) demo_ops 2); [reflexivity|by vm_compute|exact Hd]. }
  cbn in Hk. change (ctx_local demo_ctx) with demo_local in Hk. by do 5 (destruct k as [|k]; [discriminate Hk|]).
Qed.

Lemma demo_first : patch_first demo_ops.
Proof. intros i op oargs iargs cargs Ho Hs. do 11 (destruct i as [|i]; [injection Ho as <- <- <- <-; first [done|vm_compute in Hs; discriminate Hs]|]). done. Qed.

Lemma demo_block : block_fits demo_ops demo_ctx.
Proof.
  split.
  - intros i o Ho. do 11 (destruct i as [|i]; [injection Ho as <-; intros l Hl; cbn [is_label] in Hl; first [discriminate Hl|apply andb_true_iff in Hl as [Hop <-%Z.eqb_eq]; first [discriminate Hop|split; [done|by vm_compute]]]|]). done.
  - assert (∀ i o l, demo_ops !! i = Some o → is_label l o = true → i = 2%nat ∧ l = 1 ∨ i = 9%nat ∧ l = 0) as H.
    { intros i o l Ho Hl. do 11 (destruct i as [|i]; [injection Ho as <-; cbn [is_label] in Hl; first [discriminate Hl|apply andb_true_iff in Hl as [Hop <-%Z.eqb_eq]; first [discriminate Hop|auto]]|]). done. }
    intros i j o o' l Hi Hj Hl Hl'. destruct (H i o l Hi Hl), (H j o' l Hj Hl'); lia.
Qed.

Lemma demo_fits : ctx_fits demo_ctx.
Proof.
  split; [by vm_compute|]. intros r Hr Ht. assert (Forall (λ r, Z.testbit (reserved_regs demo_ctx) r = false) usable) as F by (apply (bool_decide_unpack _); by vm_compute).
  apply list_elem_of_In, (proj1 (Forall_forall _ _) F) in Hr. unfold tcg_regset_test_reg in Ht. congruence.
Qed.

Definition demo_vals (k : nat) : Z := if (k =? 1)%nat then 7 else if (k =? 2)%nat then 9 else 0.
Definition demo_h : hstate unit := mkH (λ _, 0) (λ x, if bool_decide (x = (TCG_REG_R14, 16)) then 7 else 9) tt.

Lemma demo_entry : at_entry (ctx_info demo_ctx) demo_vals demo_h.
Proof.
  split.
  - intros k Hk. do 3 (destruct k as [|k]; [first [discriminate Hk|by vm_compute]|]). discriminate Hk.
  - intros k Hk Hf. do 3 (destruct k as [|k]; [first [by vm_compute|discriminate Hf]|]). vm_compute in Hk. lia.
Qed.

(** From 7 and 9 the code ends with 5 in both slots: the patch point jumps over
    the first exit, and the branch is not taken. *)
Lemma tcg_gen_code_correct_witness :
  ∃ s' n h', tcg_gen_code demo_ctx ((op_opc <$> demo_ops) ++ [INDEX_op_end]) (enc demo_ops) = Ok s' ∧
    hexec (ctx_info demo_ctx) demo_sem (λ _ _ _, 0) (code s') n 0 demo_h = Some (None, h') ∧
    conv TCG_TYPE_I64 (hslots h' (TCG_REG_R14, 16)) = 5 ∧ conv TCG_TYPE_I64 (hslots h' (TCG_REG_R14, 24)) = 5.
Proof.
  destruct (tcg_gen_code_correct demo_ctx demo_sem (λ _ _ _, 0) demo_ops (demo_sem_ok _) demo_built demo_fits demo_good demo_block demo_jumps demo_first) as (s' & E & HX).
  exists s'. destruct (HX 9%nat demo_vals demo_h demo_entry) as (vs & Hl & Hvs). do 9 (destruct vs as [|? vs]; [discriminate Hl|]). destruct vs; [|discriminate Hl].
  destruct Hvs as [Hn|(pc & st & n & pc' & h' & E1 & E2 & Hpc & _ & _ & Hin)]; [vm_compute in Hn; discriminate Hn|].
  assert (pc = None) as Epc by (vm_compute in E1; by injection E1 as <- _). exists n, h'. split_and!; [done|by rewrite E2, (proj1 Hpc Epc)|..].
  - etransitivity; [apply (Hin Epc 1%nat); by vm_compute|]. vm_compute in E1. injection E1 as _ <-. by vm_compute.
  - etransitivity; [apply (Hin Epc 2%nat); by vm_compute|]. vm_compute in E1. injection E1 as _ <-. by vm_compute.
Defined.

(** C30. The state of the allocator after code generation: the maps of
    registers and temporaries agree, the frame has not overflowed, the slots of
    different temporaries do not overlap, and no slot is reached through the
    stack pointer or a register that code may change. *)
Theorem tcg_gen_code_frame {M} (s : TCGContext) (sem : tcg_sem M) (ops : list tcgop) :
  ctx_built s → ctx_fits s → block_good (ctx_info s) (ctx_local s) sem ops → block_fits ops s →
  ∃ s', tcg_gen_code s ((op_opc <$> ops) ++ [INDEX_op_end]) (enc ops) = Ok s' ∧
    check_regs s' = Ok tt ∧ nb_temps s' = nb_temps s ∧ current_frame_offset s' ≤ frame_end s ∧
    (∀ k t, (k < nb_temps s)%nat → temps s' !! k = Some t → has_home t →
      mem_reg t ≠ TCG_REG_CALL_STACK ∧ tcg_regset_test_reg (reserved_regs s) (mem_reg t) = true) ∧
    (∀ j k tj tk, j ≠ k → (j < nb_temps s)%nat → (k < nb_temps s)%nat → temps s' !! j = Some tj → temps s' !! k = Some tk →
      has_home tj → has_home tk → apart tj tk).
Proof.
  intros [HW _]%ctx_built_ok HF HG HB. destruct (gen_code_total sem s ops HW HF HG HB) as [s' E]. exists s'. split; [done|].
  destruct (gen_code_grow sem s ops s' HW HG E) as [HI [_ En Er _] _ Hd]. cbn in En, Er. split_and!; [by eapply check_regs_total|done| | |].
  - pose proof (align8_le (current_frame_offset s')). pose proof (cf_room _ HF). change (demand (tcg_reg_alloc_start s <| code := [] |>)) with (demand (tcg_reg_alloc_start s)) in Hd.
    unfold demand in Hd at 1. lia.
  - intros k t Hk Ht Hh. rewrite <- Er. rewrite <- En in Hk. by destruct (t_home _ _ _ _ (inv_temp _ _ HI k t Hk Ht) Hh) as (? & ? & _).
  - rewrite <- En. apply (inv_apart _ _ HI).
Qed.

Lemma tcg_gen_code_frame_witness :
  ∃ s', tcg_gen_code demo_ctx ((op_opc <$> demo_ops) ++ [INDEX_op_end]) (enc demo_ops) = Ok s' ∧ check_regs s' = Ok tt ∧ current_frame_offset s' ≤ 2024.
Proof.
  destruct (tcg_gen_code_frame demo_ctx demo_sem demo_ops demo_built demo_fits demo_good demo_block) as (s' & E & Hc & _ & Hf & _).
  exists s'. split; [exact E|]. split; [exact Hc|]. replace 2024 with (frame_end demo_ctx) by (by vm_compute). exact Hf.
Defined.

(** ** Temporaries *)

(** C31. From a context whose array of temporaries has its size, after any
    calls whatever that did not abort, and then [tcg_func_start] and any
    calls that make no global ([tcg_temp_new], [tcg_temp_free],
    [gen_new_label], [tcg_set_frame], [tcg_func_start] again, in any order),
    each list of free temporaries holds, once each, those and only those
    temporaries of its type and kind that are not allocated, and no more than
    [TCG_MAX_TEMPS] are in use. *)
Theorem temps_calls_inv (s s' : TCGContext) (before after : list ctx_call) :
  ctx_sized s → forallb (λ c, negb (makes_global c)) after = true →
  do_calls s (before ++ CFuncStart :: after) = Ok s' → temps_inv s'.
Proof.
  intros HS Hg E. rewrite do_calls_app in E. apply rbind_ok in E as (s1 & E1 & E). cbn [do_calls do_call rbind] in E.
  eapply do_calls_temps; [|exact Hg|exact E]. apply func_start_temps. by eapply do_calls_sized.
Qed.

(** Globals that overlap, a temporary that is released before the next
    translation begins, and two that are in use in it. *)
Definition demo_calls_before : list ctx_call :=
  [CGlobalReg TCG_TYPE_I64 TCG_REG_R14; CGlobalMem TCG_TYPE_I64 TCG_REG_R14 16; CGlobalMem TCG_TYPE_I64 TCG_REG_R14 20;
   CFuncStart; CTempNew TCG_TYPE_I64 false; CTempFree 3].
Definition demo_calls_after : list ctx_call :=
  [CTempNew TCG_TYPE_I64 false; CTempNew TCG_TYPE_I32 true; CNewLabel; CTempNew TCG_TYPE_I32 true; CTempFree 4].

Lemma temps_calls_inv_witness :
  ∃ s', do_calls blank_ctx (demo_calls_before ++ CFuncStart :: demo_calls_after) = Ok s' ∧ temps_inv s' ∧ is_free s' TCG_TYPE_I32 true 4.
Proof.
  assert (∃ s', do_calls blank_ctx (demo_calls_before ++ CFuncStart :: demo_calls_after) = Ok s') as [s' E] by (eexists; vm_compute; reflexivity).
  exists s'. split; [exact E|]. split.
  - apply (temps_calls_inv blank_ctx s' demo_calls_before demo_calls_after); [split; vm_compute; lia|by vm_compute|exact E].
  - vm_compute in E. injection E as <-. split; [cbn; lia|]. eexists. split; [cbn; reflexivity|done].
Defined.

(** C32. [tcg_temp_new_internal] on every branch: it gives a temporary of the
    type that was asked for, which was not allocated, and changes no other; it
    aborts only when no temporary of the type is free and there are
    [TCG_MAX_TEMPS] already. *)
Theorem temp_new_spec (s : TCGContext) (ty : TCGType) (local : bool) :
  temps_inv s →
  (∃ s' k, tcg_temp_new_internal s ty local = Ok (s', Z.of_nat k) ∧ taken s ty local k s' ∧ temps_inv s') ∨
  (tcg_temp_new_internal s ty local = Er EAbort ∧ nb_temps s = TCG_MAX_TEMPS ∧ ∀ k, ¬ is_free s ty local k).
Proof. apply temp_new_cases. Qed.

Lemma demo_temps_inv : temps_inv demo_ctx.
Proof. apply (ctx_built_ok demo_ctx), demo_built. Qed.

Lemma temp_new_spec_witness : ∃ s', tcg_temp_new_internal demo_ctx TCG_TYPE_I32 true = Ok (s', 5) ∧ taken demo_ctx TCG_TYPE_I32 true 5 s'.
Proof.
  destruct (temp_new_spec demo_ctx TCG_TYPE_I32 true demo_temps_inv) as [(s' & k & E & HT & _)|(E & _)]; [|vm_compute in E; discriminate E].
  assert (k = 5%nat) as ->; [|by exists s']. assert (match tcg_temp_new_internal demo_ctx TCG_TYPE_I32 true with Ok (_, i) => i = 5 | Er _ => False end) as E5 by (by vm_compute).
  rewrite E in E5. lia.
Defined.

(** C33. A temporary that is released is the next of its type to be given, as
    it was but for its link in the list of free temporaries. *)
Theorem temp_free_new (s : TCGContext) (k : nat) (t : TCGTemp) :
  temps_inv s → (nb_globals s ≤ k < nb_temps s)%nat → temps s !! k = Some t → temp_allocated t = true →
  ∃ s1 s2 next, tcg_temp_free_internal s k = Ok s1 ∧ tcg_temp_new_internal s1 (base_type t) (temp_local t) = Ok (s2, k : Z) ∧
    is_free s1 (base_type t) (temp_local t) k ∧ temps s2 !! k = Some (t <| next_free_temp := next |>) ∧
    (∀ j, j ≠ k → temps s2 !! j = temps s !! j) ∧ nb_temps s2 = nb_temps s.
Proof.
  intros HI Hk Ht Ha. destruct (temp_release s k t HI Hk Ht Ha) as (s1 & E1 & HR). pose proof (released_inv s k t s1 HI Hk Ht Ha HR) as HI1.
  destruct (ti_free _ HI (base_type t) (temp_local t)) as [l Hl]. pose proof (released_list s k t s1 l Hk Ht Ha (ti_lists _ HI) HR Hl) as Hl1.
  destruct (temp_pop s1 (base_type t) (temp_local t) k l HI1 Hl1) as (s2 & E2 & _ & Et & En). destruct HR as [(head & _ & Hat) _ Ho (_ & En1 & _)].
  exists s1, s2, head. split_and!; [done|done| | | |congruence].
  - apply (fl_free _ _ _ _ Hl1). by left.
  - rewrite Et, decide_True, Hat by done. cbn. rewrite <- Ha. by destruct t.
  - intros j Hj. by rewrite Et, decide_False, Ho by done.
Qed.

Lemma temp_free_new_witness :
  ∃ s1 s2, tcg_temp_free_internal demo_ctx 3 = Ok s1 ∧ tcg_temp_new_internal s1 TCG_TYPE_I64 false = Ok (s2, 3) ∧ nb_temps s2 = 5%nat.
Proof.
  destruct (temp_free_new demo_ctx 3 (ctx_temp demo_ctx 3) demo_temps_inv) as (s1 & s2 & next & E1 & E2 & _ & _ & _ & E3);
    [by vm_compute; lia|by vm_compute|by vm_compute|]. exists s1, s2. split_and!; [exact E1|exact E2|]. rewrite E3. by vm_compute.
Defined.
