(* ===== verification/X86Props.v ===== *)
(** * Properties of the x86-64 code generator *)

From Stdlib Require Import String.
From stdpp Require Import base list functions.
From S2P Require Import Prelude Init CodePatch TcgData TcgLive TcgLiveInv TcgAlloc TcgSem X86Isa X86Out X86Op X86Enc X86Sem TcgOps X86Val X86Arith X86OpOk X86Mem X86MemOk X86Labels X86Size X86Exit X86Code X86Block X86Chain X86Entry.
Local Open Scope Z_scope.
Local Coercion Z.of_nat : nat >-> Z.

(** ** A host and a block for the witnesses *)

(** A 64-bit guest, big endian, with its memory far from address 0. *)
Definition demo_host : TcgHost := Build_TcgHost 64 true 0x5500000000 0x401000 0x402000 72.

Definition op_code (n : string) : TCGOpcode := INDEX_op n.

Definition demo_code : list hinsn := [
  HMovi TCG_TYPE_I64 3 40;
  HLabel 0;
  HOp (op_code "add_i64") [3; 3; 2] [false; false; true];
  HOp (op_code "brcond_i64") [3; 100; 2; 0] [false; true];
  HSt TCG_TYPE_I64 3 14 8;
  HOp (op_code "br") [1] [];
  HOp (op_code "goto_tb") [0] [];
  HLabel 1;
  HOp (op_code "exit_tb") [0x7f0012] []].

Definition demo_out : TCGOut := mkOut 0x10000 0x10003 (λ _, 0) [LRelocs []; LRelocs []] (Some [0; 0]) [0; 0] 0 0 0 0 0.
Definition demo_mach : mach := mkMach (λ r, 10 + r) (xf zero_mach) (λ a, a `mod` 256).

Lemma demo_code_fits : code_fits 2 demo_code.
Proof.
  split.
  - repeat (constructor; [vm_compute; reflexivity|]). constructor.
  - repeat (constructor; [vm_compute; repeat constructor; discriminate|]). constructor.
  - replace (demo_code ≫= insn_labels) with [0; 1] by reflexivity. by apply (bool_decide_eq_true_1 (NoDup [0; 1])); vm_compute.
  - replace (demo_code ≫= insn_labels) with [0; 1] by reflexivity.
    replace (demo_code ≫= insn_targets) with [0; 1] by (vm_compute; reflexivity). done.
Qed.

Lemma demo_fresh : fresh_out 2 (length demo_code) demo_out.
Proof. split; [done|split; [by exists [0; 0]|done]|]. cbn. lia. Qed.

(** ** Blocks *)

(** C34 (refinement).  The host instructions of a block go to bytes without an
    error, and once all of them are written the bytes of each instruction, run
    on the processor from where they begin, do what the instruction means, and
    lead to the next instruction: moves, loads and stores, operations on
    registers as tcg/README defines them, guest accesses in the byte order of
    the guest, calls and exits.  Branches go to the address of their label, be
    it written before or after them, if their condition holds. *)
Theorem out_code_correct (undefined : insn → mach → flags) `{TcgHost} (nl : nat) (c : list hinsn) (s0 : TCGOut) :
  code_fits nl c → fresh_out nl (length c) s0 →
  ∃ s, out_code s0 c = Ok s ∧
    ∀ c1 i c2, c = c1 ++ i :: c2 →
      ∃ s1 s2, out_code s0 c1 = Ok s1 ∧ out_insn s1 i = Ok s2 ∧
        ∀ x, insn_meaning undefined (cmem s) (label_addr s) i (code_ptr s1) (code_ptr s2) x.
Proof. apply out_code_ok. Qed.

Lemma out_code_correct_witness :
  ∃ s s1 s2, @out_code demo_host demo_out demo_code = Ok s ∧ @out_code demo_host demo_out (take 3 demo_code) = Ok s1 ∧
    ∀ x, ∃ y, agree [] x y ∧
      reaches no_flags (cmem s) (code_ptr s1, x) (if sext 64 (xr x 3) <? 100 then label_addr s 0 else code_ptr s2, y).
Proof.
  destruct (@out_code_correct no_flags demo_host 2 demo_code demo_out demo_code_fits demo_fresh) as (s & E & Hc).
  destruct (Hc (take 3 demo_code) (HOp (op_code "brcond_i64") [3; 100; 2; 0] [false; true]) (drop 4 demo_code)) as (s1 & s2 & E1 & _ & Hx);
    [reflexivity|]. exists s, s1, s2. split; [exact E|]. split; [exact E1|]. intros x.
  destruct (Hx x) as (cc & y & Hcc & Hag & Hr). exists y. split; [exact Hag|]. vm_compute in Hcc. injection Hcc as <-. exact Hr.
Defined.

(** ** Operations *)

(** C35 (functional).  The code of an operation on registers computes the
    operation of tcg/README, whatever the registers and constants, if they meet
    the constraints of the operation: the outputs get its results, and no other
    register and no memory changes. *)
Theorem reg_op_correct (undefined : insn → mach → flags) `{TcgHost} (op : TCGOpcode) (o : opname) (ty : TCGType)
    (args : list Z) (consts : list bool) (x : mach) (outs : list Z) :
  op_split op = Some (o, ty) → reg_op o = true → args_fit op args consts = true →
  op_result o ty (x86_cargs op args) (x86_ins x op args consts) = Some outs →
  yields undefined (λ s, tcg_out_op s op args consts) ty (x86_outs op args) outs x.
Proof. apply reg_op_yields. Qed.

Lemma reg_op_correct_witness :
  yields no_flags (λ s, @tcg_out_op demo_host s (op_code "divu2_i32") [0; 2; 0; 2; 9] [false; false; false; false; false])
    TCG_TYPE_I32 [0; 2] [(12 * 2 ^ 32 + 10) / 19; (12 * 2 ^ 32 + 10) `mod` 19] demo_mach.
Proof.
  apply (@reg_op_correct no_flags demo_host (op_code "divu2_i32") op_divu2 TCG_TYPE_I32 [0; 2; 0; 2; 9]
    [false; false; false; false; false] demo_mach [(12 * 2 ^ 32 + 10) / 19; (12 * 2 ^ 32 + 10) `mod` 19]); vm_compute; reflexivity.
Defined.

(** C36 (functional).  The code of a load or a store accesses the bytes of the
    access at the sum of the base and the offset, or at the guest address plus
    GUEST_BASE however large it is: host accesses in the order of the host and
    guest accesses in the order of the guest, with the extension of the
    operation; guest accesses may change two scratch registers. *)
Theorem mem_op_correct (undefined : insn → mach → flags) `{TcgHost} (op : TCGOpcode) (o : opname) (ty : TCGType)
    (guest st : bool) (opc : Z) (args : list Z) (consts : list bool) (x : mach) :
  op_split op = Some (o, ty) → mem_access o ty = Some (guest, st, opc) → args_fit op args consts = true →
  (guest = false → ∀ c, args !! 2%nat = Some c → sext 64 c = sext 32 c) →
  ∃ d b c, args = [d; b; c] ∧
    access_ok undefined (λ s, tcg_out_op s op args consts) ty guest st opc d (xr x b + (if guest then GUEST_BASE else c)) x.
Proof. apply mem_op_ok. Qed.

Lemma mem_op_correct_witness :
  @access_ok no_flags demo_host (λ s, @tcg_out_op demo_host s (op_code "qemu_st32") [3; 5; 0] [false; false])
    TCG_TYPE_I64 true true 2 3 (15 + 0x5500000000) demo_mach.
Proof.
  destruct (@mem_op_correct no_flags demo_host (op_code "qemu_st32") op_qemu_st32 TCG_TYPE_I64 true true 2 [3; 5; 0] [false; false]
    demo_mach) as (d & b & c & E & Hok); [vm_compute; reflexivity..|discriminate|]. injection E as <- <- <-. exact Hok.
Defined.

(** ** Jumps between blocks *)

(** C37 (safety).  [tcg_out_goto_tb] (the direct method) writes a jump whose
    displacement is aligned and at the offset that is noted; unpatched it goes
    to the code after it, and that offset is noted too.  [tb_set_jmp_target1]
    patches it by one aligned store, after which it goes to the target. *)
Theorem goto_tb_patchable (undefined : insn → mach → flags) (k : nat) (s : TCGOut) (n : Z) :
  direct_jumps k s → 0 ≤ n < k → 0 ≤ code_ptr s < 2 ^ 63 →
  ∃ s', tcg_out_goto_tb s n = Ok s' ∧
    let a := code_ptr s' - 4 in
    a `mod` 4 = 0 ∧ (∃ offs, tb_jmp_offset s' = Some offs ∧ offs !! Z.to_nat n = Some (u16 (a - code_buf s))) ∧
    tb_next_offset s' !! Z.to_nat n = Some (u16 (code_ptr s' - code_buf s)) ∧
    (∀ x, reaches undefined (cmem s') (code_ptr s, x) (code_ptr s', x)) ∧
    ∀ addr, near a addr → length (jmp_target_stores a addr) = 1%nat ∧
      ∀ x, reaches undefined (patch_code (cmem s') (jmp_target_stores a addr)) (code_ptr s, x) (addr, x).
Proof. apply goto_tb_ok. Qed.

Lemma goto_tb_patchable_witness :
  ∃ s', tcg_out_goto_tb demo_out 1 = Ok s' ∧ (code_ptr s' - 4) `mod` 4 = 0 ∧
    ∀ x, reaches no_flags (patch_code (cmem s') (jmp_target_stores (code_ptr s' - 4) 0x10000)) (0x10003, x) (0x10000, x).
Proof.
  destruct (goto_tb_patchable no_flags 2 demo_out 1) as (s' & E & Hal & _ & _ & _ & Hp);
    [split; [by exists [0; 0]|done]|lia|cbn; lia|].
  exists s'. split; [exact E|]. split; [exact Hal|]. apply Hp. vm_compute in E. injection E as <-. unfold near. cbn. lia.
Defined.

(** ** Sizes *)



(** exec-all.h takes 192 bytes for the size a TCG operation can expand to,
    register reloads included.  A branch stores every global whose value is
    not in its slot: with twelve globals that hold large constants the code of
    the branch alone is longer. *)
Module WideOp.

Definition ctx_of {A} (s0 : TCGContext) (r : result (TCGContext * A)) : TCGContext :=
  match r with Ok (s, _) => s | Er _ => s0 end.
Definition blank : TCGContext :=
  mkCtx (replicate TCG_MAX_TEMPS (mkTemp TCG_TYPE_I32 TCG_TYPE_I32 TEMP_VAL_DEAD 0 0 0 0 false false false false false 0)) 0 0 []
    (replicate TCG_TARGET_NB_REGS 0) target_reserved_regs 0 0 0 0 [] [].
Definition env_ctx : TCGContext :=
  ctx_of blank (tcg_global_reg_new_internal (tcg_set_frame blank TCG_REG_R14 8000 1024) TCG_TYPE_I64 TCG_REG_R14).
Definition globals : TCGContext :=
  foldl (λ s i, ctx_of s (tcg_global_mem_new_internal s TCG_TYPE_I64 TCG_REG_R14 (1024 + 8 * Z.of_nat i))) env_ctx (seq 0 12).
Definition ctx : TCGContext := ctx_of blank (gen_new_label (tcg_func_start globals)).

Definition movis : list tcgop := (λ i, TOp INDEX_op_movi_i64 [Z.of_nat i + 1] [] [2 ^ 40 + Z.of_nat i]) <$> seq 0 12.
Definition branch : list tcgop := [TOp (op_code "br") [] [] [0]; TOp INDEX_op_set_label [] [] [0]; TOp (op_code "exit_tb") [] [] [0]].

Definition gen (ops : list tcgop) : list hinsn :=
  match tcg_gen_code ctx ((op_opc <$> ops) ++ [INDEX_op_end]) (enc ops) with Ok s => code s | Er _ => [] end.

(** The code before the label, and its size: none of it is due to the constants. *)
Definition size_of (c : list hinsn) : Z :=
  match @out_code demo_host demo_out c with Ok s => code_ptr s - code_ptr demo_out | Er _ => 0 end.

Lemma branch_size :
  gen movis = [] ∧ take 25 (gen (movis ++ branch)) !! 24%nat = Some (HOp (op_code "br") [0] []) ∧
  size_of (take 25 (gen (movis ++ branch))) = 209 ∧ TCG_MAX_OP_SIZE < 209.
Proof. vm_compute. split_and!; reflexivity. Qed.

End WideOp.

(** ** Chains of indirect branches *)

(** C40 (functional).  A fragment of a chain is written without an error if
    the guest address fits a comparison.  It then compares the guest address in
    the first argument register with the one of the block: if they are equal it
    goes to the code of the block that is current when it runs, and otherwise
    to an aligned jump at the offset that is returned, which leads to the code
    that leaves the chain.  Only two scratch registers change.  If the address
    does not fit, code generation aborts. *)
Theorem ibchain_fragment (undefined : insn → mach → flags) `{TcgHost} (buf : Z) (m : Z → Z) (pc tb : Z) :
  0 ≤ offsetof_opt_ptr < 2 ^ 31 → 0 ≤ buf < 2 ^ 63 →
  if pc_fits pc then
    ∃ s jump, tcg_out_ibchain buf m pc tb = Ok (s, jump - buf, code_ptr s - buf) ∧ jump `mod` 2 = 0 ∧
      buf < jump ≤ code_ptr s ∧ code_ptr s ≤ buf + 62 ∧
      ∀ x, let hit := wrap (bits TCG_TYPE_TL) (xr x TCG_REG_EDI) =? wrap (bits TCG_TYPE_TL) pc in
        ∃ y, reaches undefined (cmem s) (buf, x) (if hit then load 8 (tb + offsetof_opt_ptr) (xm x) else jump, y) ∧
          agree [TCG_REG_EAX] x y ∧
          (hit = false → ∃ z, reaches undefined (cmem s) (jump, y) (u64 ibchain_ret_addr, z) ∧ agree [TCG_REG_R10] y z)
  else tcg_out_ibchain buf m pc tb = Er EAbort.
Proof. intros Ho Hb. destruct (pc_fits pc) eqn:Hf; [by apply fragment_ok|by apply fragment_aborts]. Qed.

Lemma ibchain_fragment_witness :
  (∃ s jump, @tcg_out_ibchain demo_host 0x20000 (λ _, 0) 0x400080 0x7f0000 = Ok (s, jump - 0x20000, code_ptr s - 0x20000) ∧ jump `mod` 2 = 0) ∧
  @tcg_out_ibchain demo_host 0x20000 (λ _, 0) 0x7fff00000000 0x7f0000 = Er EAbort.
Proof.
  split.
  - destruct (@ibchain_fragment no_flags demo_host 0x20000 (λ _, 0) 0x400080 0x7f0000) as (s & jump & E & Hj & _); [cbn; lia|lia|].
    exists s, jump. split; [exact E|exact Hj].
  - apply (@ibchain_fragment no_flags demo_host 0x20000 (λ _, 0) 0x7fff00000000 0x7f0000); [cbn; lia|lia].
Defined.

(** ** The indirect method of jumps *)

(** The address of the slot is computed from the start of the instruction plus
    five bytes, but the instruction has six: the jump takes its target from
    the byte after the start of the slot on. *)
Lemma goto_tb_indirect (undefined : insn → mach → flags) s n x :
  tb_jmp_offset s = None → 0 ≤ n < length (tb_next_offset s) → 0 ≤ code_ptr s < 2 ^ 62 → 0 ≤ tb_next s + 8 * n < 2 ^ 62 →
  - 2 ^ 31 ≤ tb_next s + 8 * n - (code_ptr s + 5) < 2 ^ 31 →
  ∃ s', tcg_out_goto_tb s n = Ok s' ∧
    xstep undefined (cmem s') (code_ptr s, x) = Some (load 8 (tb_next s + 8 * n + 1) (xm x), x).
Proof.
  intros Hj Hn Hp Ht Hd. unfold tcg_out_goto_tb, tcg_out_modrm_offset, tcg_out_modrm_sib_offset, sizeof_long. rewrite Hj.
  set (off := tb_next s + 8 * n) in *. cbn [Z.ltb Z.compare andb]. cbv zeta. change (.~ (-1)) with 0. rewrite Z.add_0_r.
  rewrite (sext_small 64 off), (sext_small 64 (code_ptr s + 5)), (sext_small 64 (off - (code_ptr s + 5))) by (cbn in *; lia).
  rewrite (sext_small 32 (off - (code_ptr s + 5))), Z.eqb_refl by (cbn in *; lia). set (d := off - (code_ptr s + 5)) in *.
  rewrite (opc_writes OPC_GRP5 EXT5_JMPN_Ev 0 0 ltac:(done) ltac:(done) ltac:(done) eq_refl s). cbn [rbind].
  unfold tcg_out8, tcg_out32. rewrite !emit_emit. rewrite aset_ok by (cbn; lia). cbn [rbind]. eexists. split; [done|].
  match goal with |- context [emit s ?b] => set (l := b) end. change (cmem ?s' <| tb_next_offset := _ |>) with (cmem s').
  assert (encodes l (IJmpInd (OMem (mkAddr None None (sext 32 d) true)))) as He.
  { pose proof (encodes_modrm OPC_GRP5 EXT5_JMPN_Ev eq_refl 0 0 _ _ no_imm build_grp5 0 (IJmpInd (OMem (mkAddr None None (sext 32 d) true)))
      ltac:(done) ltac:(done) (modrm_rip OPC_GRP5 EXT5_JMPN_Ev ltac:(done) 0 0 d) eq_refl (Nat.le_0_l _) eq_refl) as He. exact He. }
  assert (code_at (cmem (emit s l)) (code_ptr s) l) as Hc by apply code_at_emit.
  rewrite (encodes_step undefined _ _ _ _ x He Hc). cbn [exec read ea a_base a_index a_disp a_rip wbytes]. do 2 f_equal. apply load_eqv.
  rewrite (sext_small 32 d) by (cbn in *; lia). unfold ea; cbn [a_base a_index a_disp a_rip]; rewrite wrap_wrap. f_equal. subst d. change (length l) with 6%nat. lia.
Qed.

(** ** Entry and exit *)

Definition demo_entry : TcgEntry := Build_TcgEntry 0x4000 0x403000 0x80 0x88 0x90.

(** C38 (safety).  [tcg_target_qemu_prologue] writes code that a C program may
    call.  It enters the block in its argument with a stack pointer that is
    aligned as calls need it, below a frame of [STACK_SIZE] bytes.  When the
    block comes to the exit with this stack pointer and the saved bytes intact,
    it returns to the caller with its callee-saved registers, its stack pointer
    and the value that the block left in %rax.  The exits of indirect branches
    note what they need in the CPU state and return 0. *)
Theorem prologue_correct (undefined : insn → mach → flags) `{TcgHost} `{TcgEntry} (s : TCGOut) :
  0 ≤ STACK_SIZE < 2 ^ 30 → offsets_fit →
  ∃ l e, tcg_target_qemu_prologue s = Ok (emit s l, e) ∧
    let run := reaches undefined (cmem (emit s l)) in
    (∀ x, (xr x 4 + 8) `mod` 16 = 0 →
      ∃ y, run (code_ptr s, x) (u64 (xr x TCG_REG_EDI), y) ∧ (∀ r, r ∉ [TCG_REG_ESP; TCG_REG_R10] → xr y r = xr x r) ∧
        xr y 4 `mod` 16 = 0 ∧ u64 (xr y 4) = u64 (xr x 4 - 40 - stack_addend) ∧ STACK_SIZE ≤ stack_addend ∧
        ∀ z, u64 (xr z 4) = u64 (xr y 4) → (∀ j, -8 < j ≤ 40 → xm z (u64 (xr x 4 - j)) = xm y (u64 (xr x 4 - j))) →
          ∃ w, run (e_tb_ret_addr e, z) (load 8 (xr x 4) (xm x), w) ∧ u64 (xr w 4) = u64 (xr x 4 + 8) ∧
            (∀ r, r ∈ tcg_target_callee_save_regs → xr w r = u64 (xr x r)) ∧ xr w TCG_REG_EAX = xr z TCG_REG_EAX ∧ xm w = xm z) ∧
    (∀ x, ∃ y z, run (e_ibchain_ret_addr e, x) (ibtc_ret_addr e, y) ∧ noted x y ∧
      run (ibtc_ret_addr e, y) (e_tb_ret_addr e, z) ∧ effect TCG_TYPE_I64 TCG_REG_EAX 0 y z).
Proof.
  intros Hs Ho. destruct (prologue_ok undefined s Hs Ho) as (l & e & E & [He _ Hc Hi Hr]). exists l, e. split; [done|]. cbv zeta. split.
  - intros x Hx. destruct (He x) as (y & Hy & Hen). pose proof (stack_addend_ok Hs) as [Ha Hal]. exists y.
    split_and!; [done|by apply (en_regs _ _ Hen)| |by apply (en_sp _ _ Hen)|lia|].
    + pose proof (en_sp _ _ Hen) as Hsp. unfold wrap in Hsp. zdm.
    + intros z Hz Hm. destruct (Hr z) as (ip & w & Hw & Hl).
      destruct (entered_left x y z ip w Hen Hz Hm Hl) as (-> & Hsp & Hcs & Ho' & Hmw). exists w. split_and!; [done..| |done].
      apply Ho'. notin.
  - intros x. destruct (Hc x) as (y & Hy & Hn). destruct (Hi y) as (z & Hz & Hez). by exists y, z.
Qed.

Lemma prologue_correct_witness :
  ∃ l e, @tcg_target_qemu_prologue demo_host demo_entry demo_out = Ok (emit demo_out l, e) ∧
    ∃ y, reaches no_flags (cmem (emit demo_out l)) (code_ptr demo_out, set_r 4 0x7ffff8 demo_mach) (17, y) ∧ xr y 4 `mod` 16 = 0.
Proof.
  destruct (@prologue_correct no_flags demo_host demo_entry demo_out) as (l & e & E & Hx & _).
  - cbn. lia.
  - unfold offsets_fit. cbn. lia.
  - exists l, e. split; [exact E|]. destruct (Hx (set_r 4 0x7ffff8 demo_mach)) as (y & Hy & _ & Ha & _); [reflexivity|].
    exists y. split; [exact Hy|exact Ha].
Defined.
